(* ===== verification/_CoqProject ===== *)
-Q . S2P
Prelude.v
GoLib.v
GoPath.v
Cty.v
CtyProofs.v
Blueprint.v
Module.v
Graph.v
Tarjan.v
Topo.v
Selection.v
Backend.v
GraphLock.v
Contracts.v
Validate.v
Expand.v
ExpandProofs.v
Hcl.v
HclSample.v
Parse.v
Vendor.v
VendorProofs.v
ParseSafety.v
ParseProofs.v
Gate.v
Runner.v
Values.v
ContractValues.v
Inputs.v
InputsProofs.v
Execution.v
Store.v
S3Store.v
Journal.v
JournalFacts.v
Target.v
ApplyNode.v
Prepare.v
ApplyProofs.v
PluginPackage.v
Plugins.v
PluginsProofs.v
RunLevels.v
LevelsProofs.v
LevelsSchedule.v
LevelsRef.v
Engine.v
PlanSource.v
Retention.v
RetentionProofs.v
SavedExecution.v
Observe.v
ObserveProofs.v
Diagnose.v
DiagnoseProofs.v
PluginRecovery.v
PluginRecoveryProofs.v
PluginLogs.v
LogsProofs.v
PluginSession.v
SessionProofs.v
NodeFacts.v
Commands.v
NodeOperation.v
SavedProofs.v
CommandProofs.v
OperationProofs.v
Language.v
Server.v
PositionProofs.v
LanguageProofs.v
ServerProofs.v
WorkspaceProofs.v
ObserveCommand.v
DisclosureProofs.v
Functions.v
RunLock.v
Views.v
Cli.v
Maintenance.v
