(* ===== verification/Prelude.v ===== *)
(** * Terragraph: a verification of its planner, its engine and its journal

    Terragraph runs one Terraform or OpenTofu root module per node of a
    dependency graph.  A blueprint (HCL files) declares nodes, groups of nodes,
    edges that carry outputs to inputs, port contracts, policies and plugins.
    The engine parses it, expands the groups into a flat graph, validates the
    graph, and plans, applies or destroys its nodes layer by layer, recording
    every step in a journal that a crashed run can be recovered from.

    ** The parts and the files that model them

    - Prelude.v: errors and results, the loops of Go over slices and maps, the
      tactics and hints every file uses.  GoLib.v: the functions of the Go
      standard library on strings and Unix paths.
    - The blueprint (src/internal/blueprint).  Blueprint.v: its records.
      Cty.v, CtyProofs.v: contract types and the three-valued check of a value
      against one.  Hcl.v: the hcl and cty packages as a class with laws, and
      the outcome of code that may panic; HclSample.v instantiates it.
      Parse.v: the parser; ParseSafety.v, ParseProofs.v: it never panics and
      what it accepts is well formed.
    - Modules (src/internal/module).  Module.v: which files a runtime reads
      and the schema they declare.
    - The graph (src/internal/graph).  Graph.v: nodes, edges, and the invariant
      tying the adjacency maps to the edges.  Tarjan.v: cycles.  Topo.v: layers.
      Selection.v: what [--node] selects and how a stored selection is checked.
      Backend.v: where a node's state lives and which nodes collide.
      Contracts.v: port contracts.  Validate.v: all the checks.  Expand.v,
      ExpandProofs.v: the expansion of groups.
    - The runtime (src/internal/exec).  Runner.v: the command lines and the
      environment of a subprocess, its variable file, its exit.  Values.v: the
      values of a state or of a plan, partly unknown.
    - The engine (src/internal/engine).  Gate.v: what an approve level lets
      through.  ContractValues.v: contracts on values.  Inputs.v,
      InputsProofs.v: where a node's inputs come from.  Execution.v, Store.v,
      Journal.v, JournalFacts.v, Target.v: the journal.  Retention.v,
      RetentionProofs.v: beginning, cancelling, pruning and recovering an
      execution.  ApplyNode.v, ApplyProofs.v: applying one node.
      RunLevels.v, LevelsProofs.v, LevelsSchedule.v, LevelsRef.v: the loop over
      the layers and its goroutines.  Engine.v: loading, paths, runtimes,
      warnings.  PlanSource.v, SavedExecution.v, SavedProofs.v: saved plans.
      Prepare.v: a node's initialization and the backend it is bound to.
      NodeFacts.v: what the steps of a node keep and emit.
      Commands.v, CommandProofs.v: plan, apply and destroy around a session.
      NodeOperation.v, OperationProofs.v: one native command on one node.
      Observe.v, ObserveProofs.v: reading a state or outputs without a run.
      PluginRecovery.v, PluginRecoveryProofs.v: the plugin calls a run left.
      Diagnose.v, DiagnoseProofs.v: the diagnostics an error is reported as.
    - Plugins (src/internal/plugins, src/plugin).  PluginPackage.v: packages
      and the lock file.  Plugins.v, PluginsProofs.v: calls, events, gates,
      credentials, expansion.
    - Object storage.  GraphLock.v (src/internal/graphlock): the lock of a graph
      and the processes that contend for it; two locks may have equal content
      and then equal ETags, and exclusion does not rest on telling them apart.
      S3Store.v: the execution store in a bucket, which keeps the contract of
      Store.v.
    - Vendoring (src/internal/vendor).  GoPath.v: patterns and relative paths.
      Vendor.v, VendorProofs.v: third-party modules fetched beside a blueprint.
    - Plugin sessions.  PluginSession.v, SessionProofs.v: concurrent calls and
      the quarantine of a failed session.  PluginLogs.v, LogsProofs.v: the
      bounded queue of log records.  Functions.v: functions of plugins in
      blueprint expressions.
    - The editor (src/internal/language, src/internal/lsp).  Language.v,
      LanguageProofs.v, WorkspaceProofs.v: completions and diagnostics from
      open documents and the disk.  Server.v, PositionProofs.v, ServerProofs.v:
      the server's positions, documents and notifications.
    - The command line (src/internal/cli).  Views.v: the documents and the
      texts it writes, and the DOT graph.  ObserveCommand.v, DisclosureProofs.v:
      the status and output commands.  Cli.v: validate, graph, plan, apply,
      destroy, force-unlock and the JSON boundary.  Maintenance.v: vendor and
      the commands on records, plugins and one node.
    - The process lock (src/internal/runlock).  RunLock.v.
    A definition has the name of the Go function it models; PROJECT.json maps
    each one to its lines.

    ** How the code is modelled

    - A Go function returning an error is a [result]; an error is the call that
      built it, unrendered, so that [errors.Is] and wrapping are kept.  Code
      that can panic returns [outcome] or an [option].
    - A map is a [gmap]; a loop over a map takes the order of the class
      [MapOrder], any permutation of its entries, so that what is proved
      holds for every order Go may choose.
    - The engine's effects are a history of events, newest first (Store.v).
      Everything outside the repository (the disk, the clock, the runtime's
      exit, the answers of a plugin or of a human) is a function of the history
      so far; the theorems hold for every such function, hence for every fault
      at every moment.  The stored journal is what replaying the history gives,
      so a crash after any event leaves the state of that moment.
      [H] computes over the history, [M] over the history and a session's
      record.  The execution loop and the plugin lifecycle have traces of their
      own kind, for the same reason.
    - The processes a runner starts are kept beside its results (the monad
      [Ran] of Runner.v), so that what was started is known on every path,
      failures included, and not only what was answered.
    - The sequential loop of Commands.v runs the nodes of a layer one after
      another; how they interleave is the subject of RunLevels.v.
    - Goroutines: RunLevels.v is a state machine whose next step an arbitrary
      schedule chooses; the steps are those the source's mutexes make atomic.
      A lease's renewal worker is a function the lifecycle calls.
    - JSON, SHA-256, HCL and cty are outside: a document is kept as the value
      it encodes, a digest as a function of the value digested, HCL and cty
      as classes with the laws their documentation states.
    - A nil schema or map reads as an empty one except where the code tells
      them apart; log lines and the order of bytes on the terminal are not kept.

    ** What the theorems show

    Parsing and building: the parser is total and its result well formed
    (Parse.v and its
    proofs), expansion terminates and produces exactly the edges between
    leaves that the blueprint means (Expand.v), loading composes them
    (Engine.v).  Graph algorithms: exactly the cycles, exactly the layers,
    exactly the selection.  Isolation: no two nodes of a valid graph share a
    state, a data directory or a plan file (Backend.v, Engine.v).  Execution:
    the runtime changes infrastructure only after the gate and with the journal
    already saying so, no schedule breaks the order of the edges or the bound
    on parallelism, and every schedule ends (ApplyProofs.v, LevelsSchedule.v,
    LevelsRef.v); apply and destroy reach a node only when the stored records
    hold what comes before it as completed, and plan starts nothing that
    changes anything (CommandProofs.v).
    Journal: an unresolved mutation blocks every later execution until it is
    recovered, and no operation forgets it (RetentionProofs.v).  Saved plans
    are applied as reviewed or not at all (SavedProofs.v).  Plugins cannot
    widen what they were granted, and gates fail closed (PluginsProofs.v).
    Contracts and secrets: a confirmed contract holds for every value the plan
    can turn into, secrets stay out of snapshots and errors (CtyProofs.v,
    ContractValues.v, InputsProofs.v).  Presentation: no byte of a secret is
    printed without the flag that asks for it (DisclosureProofs.v), an operation
    begins exactly when the arguments of its command are accepted, and at most
    one JSON document is written whatever fails, exactly one where the error
    boundary sees that JSON was asked for (Cli.v); positions of an editor and
    offsets of the server convert without loss, and the editor shows what the
    current texts give under the URIs that lead back to their paths
    (PositionProofs.v, ServerProofs.v).

    ** Fuel

    Recursions that are not structural take fuel, and a theorem shows the
    amount given is enough: [strongConnect] one more than the unvisited
    vertices; [Topo.levels_loop], [walk] and [close] one more than the nodes;
    [build] one more than the groups that can be loaded; a plugin's
    [attempts] three, the source's own bound.

    ** Not modelled

    Plugin processes and gRPC, flag registration and parsing (cobra), process
    entry and loggers, the canvas layout file, the Windows file lock, private
    files, JSON-RPC, the AWS SDK, the git getter.  They are I/O, third-party
    protocols or presentation around what is modelled. *)
From Stdlib Require Export Ascii.
From stdpp Require Export base gmap sets list strings sorting relations fin_maps fin_sets.

Declare Scope terragraph_scope.
Delimit Scope terragraph_scope with tg.
#[global] Open Scope stdpp_scope.

(** * Errors

    Every [fmt.Errorf] of the source is kept as the call itself: its format
    string and its arguments, unrendered.  Wrapped errors ([%w]) are arguments,
    so the error chain [errors.Is] walks is the tree below. *)

Record diagnostic := Diagnostic {
  diag_code : string;
  diag_category : string;
  diag_phase : string;
  diag_subject : string;
  diag_related : string;
}.

Inductive error :=
  | Errorf (format : string) (args : list farg)
  | Sentinel (name : string)
  | Joined (es : list error)
  | Diagnosed (d : diagnostic) (cause : error)
  | External (what : string)
with farg :=
  | FStr (s : string)
  | FStrs (l : list string)
  | FInt (n : Z)
  | FErr (e : error).

(** [errors.New] at one site: a format with no arguments. *)
Definition Errors_New (s : string) : error := Errorf s [].

Inductive result (A : Type) :=
  | Ok (a : A)
  | Err (e : error).
Arguments Ok {_} a.
Arguments Err {_} e.

#[export] Instance result_ret : MRet result := λ A a, Ok a.
#[export] Instance result_bind : MBind result := λ A B f r,
  match r with Ok a => f a | Err e => Err e end.
#[export] Instance result_fmap : FMap result := λ A B f r,
  match r with Ok a => Ok (f a) | Err e => Err e end.

(** [if err != nil { return ..., wrap(err) }] *)
Definition wrap_err {A} (w : error → error) (r : result A) : result A :=
  match r with Ok a => Ok a | Err e => Err (w e) end.

Definition is_ok {A} (r : result A) : bool :=
  match r with Ok _ => true | Err _ => false end.

(** [errors.Join] of two errors. *)
Definition join_errors (a b : option error) : option error :=
  match a, b with
  | None, None => None
  | Some e, None | None, Some e => Some (Joined [e])
  | Some e1, Some e2 => Some (Joined [e1; e2])
  end.

(** [errors.Is]: the sentinel is this error or somewhere in its chain. *)
Fixpoint error_is (target : string) (e : error) {struct e} : bool :=
  match e with
  | Errorf _ args => existsb (farg_is target) args
  | Sentinel n => String.eqb n target
  | Joined es => existsb (error_is target) es
  | Diagnosed _ c => error_is target c
  | External _ => false
  end
with farg_is (target : string) (a : farg) {struct a} : bool :=
  match a with FErr e => error_is target e | _ => false end.

Lemma result_bind_Ok {A B} (r : result A) (f : A → result B) (b : B) :
  (r ≫= f) = Ok b ↔ ∃ a, r = Ok a ∧ f a = Ok b.
Proof. destruct r; split; naive_solver. Qed.

Lemma wrap_err_Ok {A} w (r : result A) a : wrap_err w r = Ok a ↔ r = Ok a.
Proof. destruct r; simpl; naive_solver. Qed.

(** A left fold that stops at the first error: the shape of every loop of the
    source that returns from its body. *)
Fixpoint foldM {A S} (f : S → A → result S) (s : S) (l : list A) : result S :=
  match l with
  | [] => Ok s
  | a :: l => f s a ≫= λ s', foldM f s' l
  end.

Fixpoint mapM_res {A B} (f : A → result B) (l : list A) : result (list B) :=
  match l with
  | [] => Ok []
  | a :: l => b ← f a; bs ← mapM_res f l; Ok (b :: bs)
  end.

Lemma foldM_cons {A S} (f : S → A → result S) s a l :
  foldM f s (a :: l) = match f s a with Ok s' => foldM f s' l | Err e => Err e end.
Proof. done. Qed.

(** The same loop over a body that may run out of fuel. *)
Fixpoint foldO {A S} (f : S → A → option S) (s : S) (l : list A) : option S :=
  match l with
  | [] => Some s
  | a :: l => f s a ≫= λ s', foldO f s' l
  end.

(** A [foldO] whose body always succeeds under an invariant succeeds with it. *)
Lemma foldO_total {A S} (f : S → A → option S) (P : list A → S → Prop) l :
  (∀ pre a post s, l = pre ++ a :: post → P pre s → ∃ s', f s a = Some s' ∧ P (pre ++ [a]) s') →
  ∀ s, P [] s → ∃ s', foldO f s l = Some s' ∧ P l s'.
Proof.
  intros Hstep.
  assert (∀ post pre s, l = pre ++ post → P pre s → ∃ s', foldO f s post = Some s' ∧ P l s') as H.
  { induction post as [|a post IH]; intros pre s Hl Hs; simpl.
    - exists s. by rewrite Hl, (right_id_L [] (++)).
    - destruct (Hstep pre a post s Hl Hs) as (s1 & -> & H1); simpl.
      apply (IH (pre ++ [a])); [by rewrite Hl, <-(assoc_L (++))|done]. }
  intros s Hs. by apply (H l []).
Qed.

Lemma foldM_app {A S} (f : S → A → result S) s l1 l2 :
  foldM f s (l1 ++ l2) = foldM f s l1 ≫= λ s', foldM f s' l2.
Proof. revert s; induction l1; intros; simpl; [done|]. destruct (f s a); simpl; auto. Qed.

(** Invariant rule for [foldM]. *)
Lemma foldM_inv {A S} (f : S → A → result S) (P : list A → S → Prop) l :
  ∀ s s', P [] s →
    (∀ pre a post s1 s2, l = pre ++ a :: post → P pre s1 → f s1 a = Ok s2 → P (pre ++ [a]) s2) →
    foldM f s l = Ok s' → P l s'.
Proof.
  assert (∀ post pre s s', l = pre ++ post → P pre s →
    (∀ pre a post s1 s2, l = pre ++ a :: post → P pre s1 → f s1 a = Ok s2 → P (pre ++ [a]) s2) →
    foldM f s post = Ok s' → P l s') as H.
  { induction post as [|a post IH]; intros pre s s' Hl Hs Hstep; simpl.
    - intros [= <-]. by rewrite Hl, (right_id_L [] (++)).
    - intros [s1 [Hf Hk]]%result_bind_Ok.
      eapply (IH (pre ++ [a])); [by rewrite Hl, <-(assoc_L (++))|by eauto|done|done]. }
  intros s s' H0 Hstep. by eapply (H l []).
Qed.

Lemma bool_decide_inj (P Q : Prop) `{Decision P, Decision Q} :
  bool_decide P = bool_decide Q → (P ↔ Q).
Proof. intros Heq. by rewrite <-(bool_decide_eq_true P), Heq, bool_decide_eq_true. Qed.

(** A loop of checks passes when every check does. *)
Lemma foldM_checks {A} (f : A → result unit) l :
  foldM (λ _ a, f a) tt l = Ok tt ↔ ∀ a, a ∈ l → f a = Ok tt.
Proof.
  induction l as [|a l IH]; [simpl; set_solver|].
  change (foldM (λ _ a, f a) tt (a :: l)) with (f a ≫= λ u, foldM (λ _ a, f a) u l).
  rewrite result_bind_Ok. split.
  - intros ([] & Ha & Hl) b [->|Hb]%elem_of_cons; [done|]. by apply IH.
  - intros H. exists tt. split; [apply H; by left|]. apply IH. intros b Hb. apply H. by right.
Qed.

Lemma mapM_res_Ok {A B} (f : A → result B) l bs :
  mapM_res f l = Ok bs ↔ Forall2 (λ a b, f a = Ok b) l bs.
Proof.
  revert bs; induction l as [|a l IH]; intros bs; simpl.
  - split; [intros [= <-]; constructor|by inversion 1].
  - rewrite result_bind_Ok. setoid_rewrite result_bind_Ok. split.
    + intros (b & Hb & bs' & Hbs & [= <-]). constructor; [done|by apply IH].
    + inversion 1; subst. eexists; split; [done|]. eexists; split; [by apply IH|done].
Qed.

Lemma Forall2_all_r {A B} (R : A → B → Prop) (Q : B → Prop) l k :
  Forall2 R l k → (∀ a b, a ∈ l → R a b → Q b) → ∀ b, b ∈ k → Q b.
Proof.
  induction 1 as [|a b l k Hab Hlk IH]; intros HQ b' Hb'; [by apply elem_of_nil in Hb'|].
  apply elem_of_cons in Hb' as [->|Hb']; [eapply HQ; [by left|done]|]. apply IH; [|done].
  intros a' b'' Ha'. apply HQ. by right.
Qed.

Lemma elem_of_concat {A} (x : A) ls : x ∈ concat ls ↔ ∃ l, l ∈ ls ∧ x ∈ l.
Proof.
  rewrite list_elem_of_In, in_concat. by setoid_rewrite list_elem_of_In.
Qed.

(** In a duplicate-free image of a filtered list, equal images are one position. *)
Lemma NoDup_fmap_filter_lookup {A B} (f : A → B) (P : A → Prop) `{∀ a, Decision (P a)} l i j a b :
  NoDup (f <$> filter P l) → l !! i = Some a → l !! j = Some b → P a → P b → f a = f b → i = j.
Proof.
  revert i j. induction l as [|c l IH]; intros i j Hnd Hi Hj Ha Hb Hf; [done|].
  assert (∀ n d, l !! n = Some d → P d → f d ∈ f <$> filter P l) as Hin.
  { intros n d Hd HP. apply list_elem_of_fmap. exists d. split; [done|].
    apply list_elem_of_filter. split; [done|]. by eapply list_elem_of_lookup_2. }
  rewrite filter_cons in Hnd. destruct i as [|i], j as [|j]; simpl in *; simplify_eq.
  - done.
  - rewrite decide_True in Hnd by done. apply NoDup_cons in Hnd as [Hnd _].
    exfalso. apply Hnd. rewrite Hf. eauto.
  - rewrite decide_True in Hnd by done. apply NoDup_cons in Hnd as [Hnd _].
    exfalso. apply Hnd. rewrite <-Hf. eauto.
  - f_equal. case_decide; [apply NoDup_cons in Hnd as [_ Hnd]|]; eauto.
Qed.

Lemma tc_first {A} (R : relation A) a b : tc R a b → ∃ x, R a x ∧ rtc R x b.
Proof.
  destruct 1 as [a b Hab|a x b Hax Hxb].
  - exists b. split; [done|apply rtc_refl].
  - exists x. split; [done|by apply tc_rtc].
Qed.

(** In a finite set where everything has a predecessor there is a cycle. *)
Lemma StronglySorted_dup {A} `{EqDecision A} (T : relation A) l :
  StronglySorted T l → ¬ NoDup l → ∃ x, T x x.
Proof.
  induction 1 as [|a l _ IH Ha]; intros Hnd; [by destruct Hnd; constructor|].
  destruct (decide (a ∈ l)) as [Hin|Hin].
  - exists a. rewrite Forall_forall in Ha. auto.
  - apply IH. intros Hl. apply Hnd. by constructor.
Qed.

Lemma finite_descent {A} `{EqDecision A} (R : relation A) (X : list A) :
  X ≠ [] → (∀ x, x ∈ X → ∃ y, y ∈ X ∧ R y x) → ∃ x, tc R x x.
Proof.
  intros Hne Hpred.
  assert (∀ n, ∃ l, length l = S n ∧ (∀ x, x ∈ l → x ∈ X) ∧ StronglySorted (tc R) l) as Hchain.
  { induction n as [|n (l & Hlen & Hin & Hs)].
    - destruct X as [|x X']; [done|]. exists [x]. split_and!; [done|set_solver|repeat constructor].
    - destruct l as [|x l]; [done|]. destruct (Hpred x) as (y & Hy & Hyx); [apply Hin; by left|].
      exists (y :: x :: l). split_and!; [simpl in *; lia|set_solver|].
      constructor; [done|]. apply StronglySorted_cons in Hs as [Hx _].
      constructor; [by apply tc_once|]. eapply Forall_impl; [done|]. intros z Hz. by eapply tc_l. }
  destruct (Hchain (length X)) as (l & Hlen & Hin & Hs).
  apply (StronglySorted_dup _ l Hs). intros Hnd.
  assert (length l <= length X)%nat; [|lia]. by apply submseteq_length, NoDup_submseteq.
Qed.

(** * Texts

    [fmt.Sprintf] kept as a call, like [Errorf]. *)
Definition text : Type := string * list farg.
Definition Sprintf (format : string) (args : list farg) : text := (format, args).

(** * Strings: Go compares strings byte by byte, which is [String.le]. *)

Definition sort_strings (l : list string) : list string := merge_sort String.le l.

Lemma sort_strings_perm l : sort_strings l ≡ₚ l.
Proof. apply merge_sort_Permutation. Qed.

Lemma sort_strings_sorted l : StronglySorted String.le (sort_strings l).
Proof. apply StronglySorted_merge_sort; apply _. Qed.

Lemma sort_strings_elem x l : x ∈ sort_strings l ↔ x ∈ l.
Proof. by rewrite sort_strings_perm. Qed.

Lemma sort_strings_NoDup l : NoDup l → NoDup (sort_strings l).
Proof. by rewrite sort_strings_perm. Qed.

Lemma sort_strings_length l : length (sort_strings l) = length l.
Proof. by rewrite sort_strings_perm. Qed.

Lemma sort_strings_nil_iff l : sort_strings l = [] ↔ l = [].
Proof.
  rewrite <-!length_zero_iff_nil. by rewrite sort_strings_length.
Qed.

Lemma sort_strings_unique l1 l2 : l1 ≡ₚ l2 → sort_strings l1 = sort_strings l2.
Proof.
  intros. apply (StronglySorted_unique String.le); eauto using sort_strings_sorted.
  by rewrite !sort_strings_perm.
Qed.

Lemma sort_strings_id l : StronglySorted String.le l → sort_strings l = l.
Proof.
  intros. apply (StronglySorted_unique String.le); eauto using sort_strings_sorted.
  apply sort_strings_perm.
Qed.

#[export] Instance sort_strings_proper : Proper ((≡ₚ) ==> (=)) sort_strings.
Proof. intros l1 l2. apply sort_strings_unique. Qed.

(** [slices.Compact]: one copy of every run of equal elements. *)
Fixpoint compact (l : list string) : list string :=
  match l with
  | [] => []
  | x :: l' => match l' with
               | y :: _ => if decide (x = y) then compact l' else x :: compact l'
               | [] => [x]
               end
  end.

Lemma compact_cons2 a b l :
  compact (a :: b :: l) = if decide (a = b) then compact (b :: l) else a :: compact (b :: l).
Proof. done. Qed.

Lemma compact_elem x l : x ∈ compact l ↔ x ∈ l.
Proof.
  induction l as [|a [|b l] IH]; [done|done|].
  rewrite compact_cons2. case_decide; subst; [rewrite IH|rewrite elem_of_cons, IH]; rewrite !elem_of_cons; naive_solver.
Qed.

Definition str_lt (a b : string) : Prop := String.le a b ∧ a ≠ b.

#[export] Instance str_lt_dec : RelDecision str_lt.
Proof. intros a b. unfold str_lt. apply _. Defined.

Lemma str_lt_trans : Transitive str_lt.
Proof.
  intros a b c [Hab Hne] [Hbc Hne']. split; [by etrans|].
  intros ->. apply Hne. by apply (anti_symm String.le).
Qed.
#[export] Existing Instance str_lt_trans.

Lemma StronglySorted_lt_NoDup l : StronglySorted str_lt l → NoDup l.
Proof.
  induction 1 as [|a l _ IH Ha]; constructor; [|done].
  intros Hin. rewrite Forall_forall in Ha. by destruct (Ha _ Hin).
Qed.

Lemma StronglySorted_lt_le l : StronglySorted str_lt l → StronglySorted String.le l.
Proof.
  induction 1 as [|a l _ IH Ha]; constructor; [done|].
  eapply Forall_impl; [done|]. by intros ? [].
Qed.

Lemma sorted_NoDup_lt l : StronglySorted String.le l → NoDup l → StronglySorted str_lt l.
Proof.
  induction 1 as [|a l _ IH Ha]; inversion 1; subst; constructor; [auto|].
  rewrite Forall_forall in Ha |- *. intros x Hx. split; [auto|]. by intros ->.
Qed.

Lemma compact_sorted l : StronglySorted String.le l → StronglySorted str_lt (compact l).
Proof.
  induction 1 as [|a [|b l] Hs IH Ha]; [constructor|repeat constructor|].
  rewrite compact_cons2. case_decide as Hd; [done|].
  constructor; [exact IH|]. apply Forall_forall. intros x Hx. rewrite compact_elem in Hx.
  rewrite Forall_forall in Ha. split; [by apply Ha|]. intros <-.
  apply Hd, (anti_symm String.le); [apply Ha; by left|].
  apply elem_of_cons in Hx as [->|Hx]; [done|].
  apply StronglySorted_cons in Hs as [Hb _]. rewrite Forall_forall in Hb. by apply Hb.
Qed.

Lemma sort_compact_NoDup l : NoDup (compact (sort_strings l)).
Proof. apply StronglySorted_lt_NoDup, compact_sorted, sort_strings_sorted. Qed.

Lemma sort_compact_elem x l : x ∈ compact (sort_strings l) ↔ x ∈ l.
Proof. by rewrite compact_elem, sort_strings_elem. Qed.

(** [slices.IsSorted] on strings. *)
Definition is_sorted (l : list string) : bool := bool_decide (Sorted String.le l).

Lemma is_sorted_spec l : is_sorted l = true ↔ StronglySorted String.le l.
Proof.
  unfold is_sorted. rewrite bool_decide_eq_true. split.
  - apply Sorted_StronglySorted; apply _.
  - apply StronglySorted_Sorted.
Qed.

(** * Map keys in sorted order, and ranging over a map

    [names := keys of m; sort.Strings(names)] is deterministic; a bare
    [for k, v := range m] is not, so the definitions whose result can depend
    on that order are stated over any order that lists the map's entries. *)

Definition sorted_keys {A} (m : gmap string A) : list string :=
  sort_strings (map_to_list m).*1.

Lemma sorted_keys_elem {A} (m : gmap string A) k : k ∈ sorted_keys m ↔ is_Some (m !! k).
Proof.
  unfold sorted_keys. rewrite sort_strings_elem, list_elem_of_fmap. split.
  - intros ([k' x] & -> & H%elem_of_map_to_list). by eexists.
  - intros [x H]. exists (k, x). split; [done|]. by apply elem_of_map_to_list.
Qed.

Lemma sorted_keys_NoDup {A} (m : gmap string A) : NoDup (sorted_keys m).
Proof. apply sort_strings_NoDup, NoDup_fst_map_to_list. Qed.

Lemma sorted_keys_sorted {A} (m : gmap string A) : StronglySorted str_lt (sorted_keys m).
Proof. apply sorted_NoDup_lt; [apply sort_strings_sorted|apply sorted_keys_NoDup]. Qed.

Lemma sorted_keys_length {A} (m : gmap string A) : length (sorted_keys m) = size m.
Proof.
  unfold sorted_keys. rewrite sort_strings_length, length_fmap. apply length_map_to_list.
Qed.

Class MapOrder := {
  range : ∀ {A}, gmap string A → list (string * A);
  range_perm : ∀ {A} (m : gmap string A), range m ≡ₚ map_to_list m;
}.

(** One such order, for evaluation on concrete inputs. *)
Definition map_order_default : MapOrder :=
  {| range := λ A, map_to_list; range_perm := λ A m, Permutation_refl _ |}.

Lemma range_elem `{MapOrder} {A} (m : gmap string A) k x : (k, x) ∈ range m ↔ m !! k = Some x.
Proof. by rewrite range_perm, elem_of_map_to_list. Qed.

(** * Sequences of strings: membership tests as booleans *)

Definition mem (x : string) (l : list string) : bool := bool_decide (x ∈ l).

Lemma mem_true x l : mem x l = true ↔ x ∈ l.
Proof. apply bool_decide_eq_true. Qed.

Lemma mem_false x l : mem x l = false ↔ x ∉ l.
Proof. apply bool_decide_eq_false. Qed.

(** * String helpers of the Go standard library *)

Definition dquote : string := String (Ascii.Ascii false true false false false true false false) "".
Definition has_prefix (s p : string) : bool := String.prefix p s.

Fixpoint string_rev_app (s acc : string) : string :=
  match s with "" => acc | String c s => string_rev_app s (String c acc) end.
Definition string_rev (s : string) : string := string_rev_app s "".
Definition has_suffix (s p : string) : bool := String.prefix (string_rev p) (string_rev s).

(** [strings.TrimSuffix] / [strings.TrimPrefix]. *)
Definition trim_suffix (s p : string) : string :=
  if has_suffix s p then String.substring 0 (String.length s - String.length p) s else s.
Definition trim_prefix (s p : string) : string :=
  if has_prefix s p then String.substring (String.length p) (String.length s) s else s.

(** [strings.Join]. *)
Definition join (l : list string) (sep : string) : string := String.concat sep l.

(** [strings.Cut s sep] for a one-byte separator. *)
Fixpoint cut (c : Ascii.ascii) (s : string) : string * string * bool :=
  match s with
  | "" => ("", "", false)
  | String d s' => if Ascii.eqb d c then ("", s', true)
                   else let '(b, a, f) := cut c s' in (String d b, a, f)
  end.

(** * Tactics *)

Ltac res_inv :=
  repeat match goal with
  | H : (_ ≫= _) = Ok _ |- _ => apply result_bind_Ok in H as (? & ? & ?)
  | H : wrap_err _ _ = Ok _ |- _ => apply wrap_err_Ok in H
  | H : Ok _ = Ok _ |- _ => injection H as H
  | H : Err _ = Ok _ |- _ => discriminate H
  | H : Ok _ = Err _ |- _ => discriminate H
  end.

Ltac split_and_all := repeat match goal with H : _ ∧ _ |- _ => destruct H end.

Create HintDb terragraph.
#[export] Hint Resolve sort_strings_sorted sort_strings_perm sorted_keys_NoDup sorted_keys_sorted : terragraph.
#[export] Hint Rewrite @sort_strings_elem @sorted_keys_elem @compact_elem @mem_true @mem_false : terragraph.

(** A list with its positions. *)
Lemma imap_pair_fst {A} (l : list A) : (imap pair l).*1 = seq 0 (length l).
Proof.
  apply list_eq. intros i. rewrite list_lookup_fmap, list_lookup_imap. destruct (decide (i < length l)%nat) as [Hi|Hi].
  - rewrite lookup_seq_lt by done. destruct (lookup_lt_is_Some_2 l i Hi) as [x Hx]. by rewrite Hx.
  - rewrite (lookup_ge_None_2 l i) by lia. by rewrite lookup_seq_ge by lia.
Qed.

Lemma imap_pair_snd {A} (l : list A) : (imap pair l).*2 = l.
Proof. apply list_eq. intros i. rewrite list_lookup_fmap, list_lookup_imap. by destruct (l !! i). Qed.
