(* ===== verification/GoLib.v ===== *)
(** The Go standard library functions the modelled code calls on strings and
    Unix paths: [strings.Split], [strings.Trim], [strings.ToUpper],
    [strings.ContainsAny], [strings.Replace] with n = 1, [filepath.Clean],
    [filepath.Join], [filepath.IsAbs], [filepath.Base], with the facts on
    cleaned paths the graph and backend files use. *)
From S2P Require Import Prelude.

Definition slash : Ascii.ascii := "/"%char.
Definition backslash : Ascii.ascii := "\"%char.

(** [strings.ToUpper] on the ASCII letters (the only ones the callers accept). *)
Definition upper_ascii (c : Ascii.ascii) : Ascii.ascii :=
  let n := Ascii.nat_of_ascii c in
  if (Nat.leb 97 n && Nat.leb n 122)%bool then Ascii.ascii_of_nat (n - 32) else c.
Fixpoint to_upper (s : string) : string :=
  match s with "" => "" | String c s => String (upper_ascii c) (to_upper s) end.

Fixpoint chars (s : string) : list Ascii.ascii :=
  match s with "" => [] | String c s => c :: chars s end.
Fixpoint of_chars (l : list Ascii.ascii) : string :=
  match l with [] => "" | c :: l => String c (of_chars l) end.

Lemma of_chars_chars s : of_chars (chars s) = s.
Proof. induction s; simpl; congruence. Qed.

Lemma chars_of_chars l : chars (of_chars l) = l.
Proof. induction l; simpl; congruence. Qed.

Lemma string_app_assoc (a b c : string) : a +:+ (b +:+ c) = (a +:+ b) +:+ c.
Proof. induction a as [|x a IH]; [done|].
  change (String x (a +:+ (b +:+ c)) = String x ((a +:+ b) +:+ c)). by rewrite IH. Qed.

Lemma chars_app a b : chars (a +:+ b) = chars a ++ chars b.
Proof. induction a; simpl; [done|]. by f_equal. Qed.

Lemma chars_inj a b : chars a = chars b → a = b.
Proof. intros H. by rewrite <-(of_chars_chars a), H, of_chars_chars. Qed.

(** The part after the last separator is determined by the whole string. *)
Lemma last_sep_chars (c : Ascii.ascii) (a b x y : list Ascii.ascii) : c ∉ x → c ∉ y →
  a ++ c :: x = b ++ c :: y → a = b ∧ x = y.
Proof.
  revert b. induction a as [|d a IH]; intros [|e b] Hx Hy Heq; simplify_eq/=.
  - done.
  - exfalso. apply Hx. set_solver.
  - exfalso. apply Hy. set_solver.
  - by destruct (IH b Hx Hy) as [-> ->].
Qed.

Lemma last_sep (c : Ascii.ascii) (a b x y : string) : c ∉ chars x → c ∉ chars y →
  a +:+ String c "" +:+ x = b +:+ String c "" +:+ y → a = b ∧ x = y.
Proof.
  intros Hx Hy Heq. apply (f_equal chars) in Heq. rewrite !chars_app in Heq.
  apply last_sep_chars in Heq as [H1 H2]; [|done..]. split; by apply chars_inj.
Qed.

(** [strings.ContainsAny s set]. *)
Definition contains_any (s set : string) : bool :=
  existsb (λ c, existsb (Ascii.eqb c) (chars set)) (chars s).

(** [strings.Split s sep] for a one-byte separator: never empty. *)
Fixpoint split_on (c : Ascii.ascii) (s : string) : list string :=
  match s with
  | "" => [""]
  | String d s' =>
    if Ascii.eqb d c then "" :: split_on c s'
    else match split_on c s' with
         | [] => [String d ""]
         | w :: ws => String d w :: ws
         end
  end.

(** [strings.Trim s c] for a one-byte cutset. *)
Fixpoint trim_left (c : Ascii.ascii) (s : string) : string :=
  match s with
  | "" => ""
  | String d s' => if Ascii.eqb d c then trim_left c s' else s
  end.
Definition trim (c : Ascii.ascii) (s : string) : string :=
  string_rev (trim_left c (string_rev (trim_left c s))).

(** [strings.Contains]. *)
Fixpoint contains (s sub : string) : bool :=
  String.prefix sub s || match s with "" => false | String _ s' => contains s' sub end.

(** [strings.Replace s old new 1]. *)
Fixpoint replace_first (s old new : string) : string :=
  if String.prefix old s
  then new +:+ String.substring (String.length old) (String.length s) s
  else match s with "" => "" | String c s' => String c (replace_first s' old new) end.

(** ** Paths

    [Clean] works on the components: a doubled slash and [.] disappear, [..]
    removes the component before it, and stays only at the front of a path
    that is not rooted. *)

Definition isAbs (p : string) : bool := has_prefix p "/".

(** The stack holds the components kept so far, last first. *)
Definition clean_step (rooted : bool) (stack : list string) (comp : string) : list string :=
  if decide (comp = "" ∨ comp = ".") then stack
  else if decide (comp = "..") then
    match stack with
    | [] => if rooted then [] else [".."]
    | top :: rest => if decide (top = "..") then ".." :: stack else rest
    end
  else comp :: stack.

Definition clean_components (rooted : bool) (l : list string) : list string :=
  rev (foldl (clean_step rooted) [] l).

(** [filepath.Clean]. *)
Definition Clean (p : string) : string :=
  let comps := clean_components (isAbs p) (split_on slash p) in
  if isAbs p then "/" +:+ join comps "/"
  else match comps with [] => "." | _ => join comps "/" end.

(** [filepath.Join]: leading empty elements are dropped, the rest joined and cleaned. *)
Fixpoint Join (elem : list string) : string :=
  match elem with
  | [] => ""
  | "" :: rest => Join rest
  | _ => Clean (join elem "/")
  end.

(** [filepath.Base] of a cleaned, non-root path. *)
Definition Base (p : string) : string :=
  match rev (filter (λ c, c ≠ "") (split_on slash p)) with
  | [] => if isAbs p then "/" else "."
  | c :: _ => c
  end.

Example Clean_ex1 : Clean "/a/b/../c/./d//e" = "/a/c/d/e". Proof. reflexivity. Qed.
Example Clean_ex2 : Clean "../../x/.." = "../..". Proof. reflexivity. Qed.
Example Clean_ex3 : Clean "/../a" = "/a". Proof. reflexivity. Qed.
Example Clean_ex4 : Clean "" = ".". Proof. reflexivity. Qed.
Example Join_ex1 : Join ["/root"; ".terragraph"; "state"; "a.b.tfstate"] = "/root/.terragraph/state/a.b.tfstate".
Proof. reflexivity. Qed.

(** The components of a cleaned path are clean: none empty, none [.], and
    [..] only at the bottom of a stack of a path that is not rooted. *)
Inductive clean_stack (rooted : bool) : list string → Prop :=
  | clean_dots n : (rooted = true → n = 0%nat) → clean_stack rooted (replicate n "..")
  | clean_cons c l : c ≠ "" → c ≠ "." → c ≠ ".." → clean_stack rooted l → clean_stack rooted (c :: l).

Lemma clean_step_ok rooted l c : clean_stack rooted l → clean_stack rooted (clean_step rooted l c).
Proof.
  intros Hl. unfold clean_step. case_decide as H1; [done|]. case_decide as H2.
  - subst. destruct Hl as [[|n] Hn|c l' ? ? Hne Hl']; simpl.
    + destruct rooted; [by apply (clean_dots _ 0)|by apply (clean_dots _ 1)].
    + apply (clean_dots _ (S (S n))). intros Hr. by specialize (Hn Hr).
    + by rewrite decide_False.
  - apply clean_cons; [naive_solver..|done].
Qed.

Lemma clean_fold_ok rooted l s :
  clean_stack rooted s → clean_stack rooted (foldl (clean_step rooted) s l).
Proof. revert s; induction l; simpl; eauto using clean_step_ok. Qed.

Lemma clean_components_ok rooted l : clean_stack rooted (rev (clean_components rooted l)).
Proof.
  unfold clean_components. rewrite rev_involutive. apply clean_fold_ok, (clean_dots _ 0). done.
Qed.

(** Cleaning clean components changes nothing. *)
Lemma clean_stack_fix rooted s : clean_stack rooted s → foldl (clean_step rooted) [] (rev s) = s.
Proof.
  induction 1 as [n Hn|c l H1 H2 H3 Hl IH].
  - destruct rooted; [by rewrite Hn|]. clear Hn.
    assert (rev (replicate n "..") = replicate n "..") as ->.
    { induction n as [|n IH]; [done|]. simpl. rewrite IH, <-(replicate_cons_app n). done. }
    induction n as [|n IH]; [done|].
    rewrite replicate_S_end, foldl_app, IH, <-replicate_S_end. by destruct n.
  - simpl. rewrite foldl_app, IH. simpl. unfold clean_step.
    rewrite decide_False by naive_solver. by rewrite decide_False.
Qed.

Lemma clean_components_idemp rooted l :
  clean_components rooted (clean_components rooted l) = clean_components rooted l.
Proof.
  pose proof (clean_components_ok rooted l) as H. apply clean_stack_fix in H.
  unfold clean_components at 1. rewrite rev_involutive in H. by rewrite H, rev_involutive.
Qed.

(** [strings.ToLower] on ASCII, and [strings.TrimSpace] with its ASCII spaces. *)
Definition lower_ascii (c : Ascii.ascii) : Ascii.ascii :=
  let n := Ascii.nat_of_ascii c in
  if (Nat.leb 65 n && Nat.leb n 90)%bool then Ascii.ascii_of_nat (n + 32) else c.
Fixpoint to_lower (s : string) : string :=
  match s with "" => "" | String c s => String (lower_ascii c) (to_lower s) end.

Definition is_space (c : Ascii.ascii) : bool :=
  let n := Ascii.nat_of_ascii c in Nat.eqb n 32 || (Nat.leb 9 n && Nat.leb n 13).
Fixpoint trim_space_left (s : string) : string :=
  match s with "" => "" | String c s' => if is_space c then trim_space_left s' else s end.
Definition trim_space (s : string) : string := string_rev (trim_space_left (string_rev (trim_space_left s))).

(** ** Suffixes *)

Lemma chars_string_rev_app s acc : chars (string_rev_app s acc) = rev (chars s) ++ chars acc.
Proof. revert acc. induction s as [|c s IH]; intros acc; simpl; [done|]. by rewrite IH, <-(assoc_L (++)). Qed.

Lemma chars_string_rev s : chars (string_rev s) = rev (chars s).
Proof. unfold string_rev. rewrite chars_string_rev_app. simpl. apply app_nil_r. Qed.

Lemma prefix_chars a b : String.prefix a b = true ↔ ∃ l, chars b = chars a ++ l.
Proof.
  revert b. induction a as [|c a IH]; intros b; simpl.
  - destruct b; split; try done; intros _; [by exists []|by eexists].
  - destruct b as [|d b]; simpl.
    + split; [done|]. by intros [l Hl].
    + destruct (ascii_dec c d) as [->|Hne].
      * rewrite IH. split; intros [l Hl]; exists l; [by rewrite Hl|by injection Hl].
      * split; [done|]. intros [l Hl]. by injection Hl as ->.
Qed.

Lemma string_length_chars s : String.length s = length (chars s).
Proof. induction s; simpl; congruence. Qed.

Lemma chars_substring_0 n s : chars (String.substring 0 n s) = take n (chars s).
Proof. revert n. induction s as [|c s IH]; intros [|n]; simpl; [done..|]. by rewrite IH. Qed.

Lemma has_suffix_chars s p : has_suffix s p = true ↔ ∃ l, chars s = l ++ chars p.
Proof.
  unfold has_suffix. rewrite prefix_chars, !chars_string_rev. split; intros [l Hl].
  - exists (rev l). apply (f_equal (@rev _)) in Hl. by rewrite rev_app_distr, !rev_involutive in Hl.
  - exists (rev l). by rewrite Hl, rev_app_distr.
Qed.

Lemma trim_suffix_spec s p : has_suffix s p = true → trim_suffix s p +:+ p = s.
Proof.
  intros Hs. unfold trim_suffix. rewrite Hs. apply has_suffix_chars in Hs as [l Hl]. apply chars_inj.
  rewrite chars_app, chars_substring_0, Hl, !string_length_chars, Hl, length_app.
  replace (length l + length (chars p) - length (chars p)) with (length l) by lia. by rewrite take_app_length.
Qed.

Lemma has_suffix_app s p : has_suffix (s +:+ p) p = true.
Proof. apply has_suffix_chars. exists (chars s). by rewrite chars_app. Qed.

(** Strings ending differently are different. *)
Lemma app_suffix_ne s t a b i x y : rev (chars a) !! i = Some x → rev (chars b) !! i = Some y → x ≠ y → s +:+ a ≠ t +:+ b.
Proof.
  intros Ha Hb Hne Heq. apply (f_equal (λ s, rev (chars s) !! i)) in Heq.
  rewrite !chars_app, !rev_app_distr, (lookup_app_l_Some _ _ _ _ Ha), (lookup_app_l_Some _ _ _ _ Hb) in Heq. congruence.
Qed.
