(* ===== verification/GoPath.v ===== *)
(** More of the Go standard library on paths: UTF-8 decoding
    ([unicode/utf8]), [filepath.Dir], [filepath.Rel], [filepath.IsLocal],
    [fs.ValidPath] and the patterns of [filepath.Match], on Unix paths. *)
From S2P Require Import Prelude GoLib.

(** ** UTF-8 *)

Definition byte_at (l : list Ascii.ascii) (i : nat) : option N := Ascii.N_of_ascii <$> l !! i.

(** A continuation byte between two bounds. *)
Definition cont (lo hi : N) (b : option N) : option N :=
  match b with Some b => if decide (lo ≤ b ∧ b ≤ hi)%N then Some (N.land b 63) else None | None => None end.

Definition rune_error : N := 65533.

(** The second byte's bounds exclude overlong forms, surrogates and what lies
    beyond the last code point. *)
Definition second_bounds (b0 : N) : N * N :=
  match b0 with 224 => (160, 191) | 237 => (128, 159) | 240 => (144, 191) | 244 => (128, 143) | _ => (128, 191) end%N.

(** [utf8.DecodeRuneInString]: the rune and its width. *)
Definition DecodeRune (l : list Ascii.ascii) : N * nat :=
  match byte_at l 0 with
  | None => (rune_error, 0%nat)
  | Some b0 =>
    let '(lo, hi) := second_bounds b0 in
    let b1 := cont lo hi (byte_at l 1) in
    let b2 := cont 128 191 (byte_at l 2) in
    let b3 := cont 128 191 (byte_at l 3) in
    let bad := (rune_error, 1%nat) in
    if decide (b0 < 128)%N then (b0, 1%nat)
    else if decide (194 ≤ b0 ∧ b0 ≤ 223)%N then
      match b1 with Some x => (N.land b0 31 * 64 + x, 2%nat)%N | None => bad end
    else if decide (224 ≤ b0 ∧ b0 ≤ 239)%N then
      match b1, b2 with Some x, Some y => ((N.land b0 15 * 64 + x) * 64 + y, 3%nat)%N | _, _ => bad end
    else if decide (240 ≤ b0 ∧ b0 ≤ 244)%N then
      match b1, b2, b3 with
      | Some x, Some y, Some z => (((N.land b0 7 * 64 + x) * 64 + y) * 64 + z, 4%nat)%N
      | _, _, _ => bad
      end
    else bad
  end.

(** An invalid sequence is the error rune of width one. *)
Definition invalid_rune (r : N * nat) : bool := bool_decide (r = (rune_error, 1%nat)).

(** [utf8.ValidString]; every rune is at least a byte. *)
Fixpoint valid_bytes (fuel : nat) (l : list Ascii.ascii) : bool :=
  match fuel, l with
  | _, [] => true
  | 0%nat, _ => true
  | S fuel, _ => let r := DecodeRune l in negb (invalid_rune r) && valid_bytes fuel (drop r.2 l)
  end.
Definition ValidString (s : string) : bool := valid_bytes (String.length s) (chars s).

Lemma cont_Some lo hi b x : cont lo hi b = Some x → is_Some b.
Proof. by destruct b. Qed.
Lemma byte_at_Some l i : is_Some (byte_at l i) → i < length l.
Proof. unfold byte_at. rewrite fmap_is_Some. apply lookup_lt_is_Some. Qed.

Lemma DecodeRune_width l : l ≠ [] → 1 ≤ (DecodeRune l).2 ≤ length l.
Proof.
  intros Hl. assert (1 ≤ length l) as Hlen by (destruct l; [done|simpl; lia]).
  unfold DecodeRune. destruct (byte_at l 0) as [b0|] eqn:H0; cycle 1.
  { destruct l; [done|]. by unfold byte_at in H0. }
  destruct (second_bounds b0) as [lo hi].
  repeat case_decide; simpl; try lia;
    repeat match goal with
    | |- context [match cont ?a ?b ?c with _ => _ end] =>
      let E := fresh in destruct (cont a b c) eqn:E; simpl; try lia; apply cont_Some, byte_at_Some in E
    end; lia.
Qed.

(** ** Paths *)

Definition dir_part (path : string) : string :=
  of_chars (rev ((fix strip l := match l with [] => [] | c :: rest => if Ascii.eqb c slash then l else strip rest end) (rev (chars path)))).

(** [filepath.Dir]. *)
Definition Dir (path : string) : string := Clean (dir_part path).

(** The components of a cleaned path. *)
Definition components (p : string) : list string :=
  filter (λ c, c ≠ "" ∧ c ≠ ".") (split_on slash (Clean p)).

(** The components of the second path after those the two share. *)
Fixpoint strip_common (base targ : list string) : list string * list string :=
  match base, targ with
  | b :: base', t :: targ' => if decide (b = t) then strip_common base' targ' else (base, targ)
  | _, _ => (base, targ)
  end.

(** [filepath.Rel]. *)
Definition Rel (base targ : string) : result string :=
  let '(up, down) := strip_common (components base) (components targ) in
  if negb (bool_decide (isAbs base = isAbs targ)) || bool_decide (head up = Some "..")
  then Err (Errorf "Rel: can't make %s relative to %s" [FStr targ; FStr base])
  else Ok (match replicate (length up) ".." ++ down with [] => "." | l => join l "/" end).

(** [filepath.IsLocal]. *)
Definition IsLocal (path : string) : bool :=
  negb (isAbs path) && negb (bool_decide (path = ""))
  && negb (bool_decide (Clean path = "..") || has_prefix (Clean path) "../").

(** [fs.ValidPath]. *)
Definition ValidPath (name : string) : bool :=
  ValidString name
  && (bool_decide (name = ".") || forallb (λ c, negb (mem c [""; "."; ".."])) (split_on slash name)).

(** ** Patterns

    A pattern is a list of terms; [*] matches within one component, a class
    matches one rune.  A malformed pattern matches nothing. *)

Inductive term :=
  | Star
  | AnyRune
  | Class (negated : bool) (ranges : list (N * N))
  | Literal (c : Ascii.ascii).

Definition hyphen : Ascii.ascii := "-"%char.
Definition close_bracket : Ascii.ascii := "]"%char.

(** One end of a range ([getEsc]); something has to follow it. *)
Definition class_rune (l : list Ascii.ascii) : option (N * list Ascii.ascii) :=
  let decoded l := let r := DecodeRune l in
    let rest := drop r.2 l in
    if invalid_rune r || bool_decide (rest = []) then None else Some (r.1, rest) in
  match l with
  | [] => None
  | c :: rest =>
    if Ascii.eqb c hyphen || Ascii.eqb c close_bracket then None
    else if Ascii.eqb c backslash then match rest with [] => None | _ => decoded rest end
    else decoded l
  end.

(** The ranges of a class up to the bracket that closes it. *)
Fixpoint class_ranges (fuel : nat) (l : list Ascii.ascii) (acc : list (N * N)) : option (list (N * N) * list Ascii.ascii) :=
  match fuel with
  | 0%nat => None
  | S fuel =>
    match l, acc with
    | c :: rest, _ :: _ => if Ascii.eqb c close_bracket then Some (rev acc, rest) else class_range fuel l acc
    | _, _ => class_range fuel l acc
    end
  end
with class_range (fuel : nat) (l : list Ascii.ascii) (acc : list (N * N)) : option (list (N * N) * list Ascii.ascii) :=
  match fuel with
  | 0%nat => None
  | S fuel =>
    '(lo, l1) ← class_rune l;
    match l1 with
    | c :: l2 => if Ascii.eqb c hyphen then '(hi, l3) ← class_rune l2; class_ranges fuel l3 ((lo, hi) :: acc)
                 else class_ranges fuel l1 ((lo, lo) :: acc)
    | [] => None
    end
  end.

Definition class_term (l : list Ascii.ascii) : option (term * list Ascii.ascii) :=
  let '(negated, l) := match l with c :: rest => if Ascii.eqb c "^"%char then (true, rest) else (false, l) | [] => (false, l) end in
  '(ranges, rest) ← class_ranges (2 * length l + 2) l []; Some (Class negated ranges, rest).

(** The terms of a pattern; every term takes at least a byte. *)
Fixpoint parse_terms (fuel : nat) (l : list Ascii.ascii) : option (list term) :=
  match fuel, l with
  | _, [] => Some []
  | 0%nat, _ => None
  | S fuel, c :: rest =>
    if Ascii.eqb c "*"%char then (λ ts, Star :: ts) <$> parse_terms fuel rest
    else if Ascii.eqb c "?"%char then (λ ts, AnyRune :: ts) <$> parse_terms fuel rest
    else if Ascii.eqb c "["%char then '(t, rest) ← class_term rest; (λ ts, t :: ts) <$> parse_terms fuel rest
    else if Ascii.eqb c backslash then
      match rest with [] => None | d :: rest => (λ ts, Literal d :: ts) <$> parse_terms fuel rest end
    else (λ ts, Literal c :: ts) <$> parse_terms fuel rest
  end.

Definition pattern_terms (p : string) : option (list term) := parse_terms (String.length p) (chars p).

Definition in_class (negated : bool) (ranges : list (N * N)) (r : N) : bool :=
  negb (eqb negated (existsb (λ b, bool_decide (b.1 ≤ r ∧ r ≤ b.2)%N) ranges)).

(** [*] matches nothing here, or one byte that is no slash and itself again. *)
Fixpoint match_terms (ts : list term) : list Ascii.ascii → bool :=
  match ts with
  | [] => λ l, bool_decide (l = [])
  | Star :: ts =>
    fix star l := match_terms ts l || match l with [] => false | c :: l => negb (Ascii.eqb c slash) && star l end
  | AnyRune :: ts => λ l,
    match l with [] => false | c :: _ => negb (Ascii.eqb c slash) && match_terms ts (drop (DecodeRune l).2 l) end
  | Class negated ranges :: ts => λ l,
    match l with [] => false | _ => in_class negated ranges (DecodeRune l).1 && match_terms ts (drop (DecodeRune l).2 l) end
  | Literal d :: ts => λ l,
    match l with [] => false | c :: l => Ascii.eqb c d && match_terms ts l end
  end.

(** [filepath.Match], its error left out: with an error nothing matches. *)
Definition Match (pattern name : string) : bool :=
  match pattern_terms pattern with Some ts => match_terms ts (chars name) | None => false end.

Example Match_ex1 : (Match "*.tf" "main.tf", Match "*.tf" "main.tfvars", Match "a*b*c" "axxbyybzc", Match "a*" "a/b") = (true, false, true, false).
Proof. vm_compute. done. Qed.
Example Match_ex2 : (Match "[a-c]?" "b1", Match "[^a-c]" "b", Match "[^a-c]" "/", Match "[]a]" "]", Match "a[" "a", Match "\*" "*", Match "[\]]" "]") =
  (true, false, true, false, false, true, true).
Proof. vm_compute. done. Qed.
Example Rel_ex : (Rel "/a/b" "/a/b/c", Rel "/a/b" "/a/c", Rel "/a" "/a", IsLocal "..", IsLocal "x/../..", IsLocal "x/..") =
  (Ok "c", Ok "../c", Ok ".", false, false, true).
Proof. vm_compute. done. Qed.
Example ValidPath_ex : (ValidPath "a/b", ValidPath "a//b", ValidPath "a/..", ValidPath ".", ValidPath "") = (true, false, false, true, false).
Proof. vm_compute. done. Qed.
