(* ===== verification/Cty.v ===== *)
(** Contract types and observed values (src/internal/blueprint/contract_type.go,
    contract.go): the three-valued check of a value against a declared type
    constraint, and the canonical form of a constraint.

    A cty type or value is kept as its shape; [convert.Convert] and the parser
    of type expressions are the library's and stay parameters.  Object
    attributes are listed under distinct names; the source ranges over them in
    an unspecified order, which the commutative [combine] makes irrelevant. *)
From S2P Require Import Prelude GoLib.

(** ** Types and values *)

Inductive ctype :=
  | TDynamic
  | TPrimitive (name : string)
  | TList (t : ctype)
  | TSet (t : ctype)
  | TMap (t : ctype)
  | TTuple (ts : list ctype)
  | TObject (attrs : list (string * ctype * bool)).

(** A value carries what [Value.Type] needs; lists, sets and maps their element type. *)
Inductive cvalue :=
  | CUnknown (t : ctype)
  | CNull (t : ctype)
  | CPrim (name text : string)
  | CObject (attrs : list (string * cvalue))
  | CTuple (elems : list cvalue)
  | CList (elem : ctype) (elems : list cvalue)
  | CSet (elem : ctype) (elems : list cvalue)
  | CMap (elem : ctype) (elems : list (string * cvalue)).

Section TypeInd.
Context (P : ctype → Prop).
Context (HDyn : P TDynamic) (HPrim : ∀ n, P (TPrimitive n)).
Context (HObject : ∀ attrs, Forall (λ a, P a.1.2) attrs → P (TObject attrs)).
Context (HTuple : ∀ elems, Forall P elems → P (TTuple elems)).
Context (HList : ∀ e, P e → P (TList e)) (HSet : ∀ e, P e → P (TSet e)) (HMap : ∀ e, P e → P (TMap e)).

Fixpoint ctype_ind' (t : ctype) : P t :=
  match t with
  | TDynamic => HDyn
  | TPrimitive n => HPrim n
  | TObject attrs => HObject attrs ((fix go l : Forall (λ a : string * ctype * bool, P a.1.2) l :=
      match l with [] => Forall_nil_2 _ | a :: l => Forall_cons_2 _ _ _ (ctype_ind' a.1.2) (go l) end) attrs)
  | TTuple elems => HTuple elems ((fix go l : Forall P l :=
      match l with [] => Forall_nil_2 _ | a :: l => Forall_cons_2 _ _ _ (ctype_ind' a) (go l) end) elems)
  | TList e => HList e (ctype_ind' e)
  | TSet e => HSet e (ctype_ind' e)
  | TMap e => HMap e (ctype_ind' e)
  end.
End TypeInd.

Section ValueInd.
Context (P : cvalue → Prop).
Context (HUnknown : ∀ t, P (CUnknown t)) (HNull : ∀ t, P (CNull t)) (HPrim : ∀ n s, P (CPrim n s)).
Context (HObject : ∀ attrs, Forall (λ a, P a.2) attrs → P (CObject attrs)).
Context (HTuple : ∀ elems, Forall P elems → P (CTuple elems)).
Context (HList : ∀ t elems, Forall P elems → P (CList t elems)) (HSet : ∀ t elems, Forall P elems → P (CSet t elems)).
Context (HMap : ∀ t elems, Forall (λ a, P a.2) elems → P (CMap t elems)).

Fixpoint cvalue_ind' (v : cvalue) : P v :=
  let elems := fix go l : Forall P l :=
    match l with [] => Forall_nil_2 _ | a :: l => Forall_cons_2 _ _ _ (cvalue_ind' a) (go l) end in
  let attrs := fix go l : Forall (λ a : string * cvalue, P a.2) l :=
    match l with [] => Forall_nil_2 _ | a :: l => Forall_cons_2 _ _ _ (cvalue_ind' a.2) (go l) end in
  match v with
  | CUnknown t => HUnknown t
  | CNull t => HNull t
  | CPrim n s => HPrim n s
  | CObject l => HObject l (attrs l)
  | CTuple l => HTuple l (elems l)
  | CList t l => HList t l (elems l)
  | CSet t l => HSet t l (elems l)
  | CMap t l => HMap t l (attrs l)
  end.
End ValueInd.

(** [HasDynamicTypes], [Value.Type] and [IsWhollyKnown]. *)
Fixpoint has_dynamic (t : ctype) : bool :=
  match t with
  | TDynamic => true
  | TPrimitive _ => false
  | TObject attrs => existsb (λ a, has_dynamic a.1.2) attrs
  | TTuple elems => existsb has_dynamic elems
  | TList e | TSet e | TMap e => has_dynamic e
  end.

Fixpoint type_of (v : cvalue) : ctype :=
  match v with
  | CUnknown t | CNull t => t
  | CPrim n _ => TPrimitive n
  | CObject attrs => TObject ((λ a, (a.1, type_of a.2, false)) <$> attrs)
  | CTuple elems => TTuple (type_of <$> elems)
  | CList t _ => TList t
  | CSet t _ => TSet t
  | CMap t _ => TMap t
  end.

Fixpoint wholly_known (v : cvalue) : bool :=
  match v with
  | CUnknown _ => false
  | CNull _ | CPrim _ _ => true
  | CObject l | CMap _ l => forallb (λ a, wholly_known a.2) l
  | CTuple l | CList _ l | CSet _ l => forallb wholly_known l
  end.

(** ** Results *)

Inductive ContractResult := ContractConfirmed | ContractViolation | ContractDeferred | ContractUnconstrained.

#[export] Instance ContractResult_eq_dec : EqDecision ContractResult.
Proof. solve_decision. Defined.

(** [combine] of the accumulated result and one more. *)
Definition combine (result r : ContractResult) : ContractResult :=
  match r, result with
  | ContractViolation, _ => ContractViolation
  | ContractDeferred, ContractViolation => ContractViolation
  | ContractDeferred, _ => ContractDeferred
  | _, _ => result
  end.

Definition combine_all (l : list ContractResult) : ContractResult := foldl combine ContractConfirmed l.

(** ** [preserveOptional] *)

Fixpoint attr_type (l : list (string * ctype * bool)) (k : string) : option (ctype * bool) :=
  match l with [] => None | (k', t, opt) :: l => if decide (k = k') then Some (t, opt) else attr_type l k end.

Fixpoint preserveOptional (actual constraint : ctype) {struct actual} : ctype :=
  match actual, constraint with
  | TObject attrs, TObject cs =>
    TObject ((λ a : string * ctype * bool, match attr_type cs a.1.1 with
                  | Some (t, opt) => (a.1.1, preserveOptional a.1.2 t, opt)
                  | None => (a.1.1, a.1.2, false)
                  end) <$> attrs)
  | TTuple l, TTuple cs =>
    if decide (length l = length cs) then TTuple (zip_with (λ (f : ctype → ctype) c, f c) (preserveOptional <$> l) cs) else actual
  | TList a, (TList c | TSet c | TMap c) => TList (preserveOptional a c)
  | TSet a, (TList c | TSet c | TMap c) => TSet (preserveOptional a c)
  | TMap a, (TList c | TSet c | TMap c) => TMap (preserveOptional a c)
  | _, _ => actual
  end.

(** ** [CheckContractType] *)

Definition element_type (t : ctype) : ctype :=
  match t with TList e | TSet e | TMap e => e | _ => TDynamic end.

Section Check.
Context (Convert : cvalue → ctype → option cvalue).

(** The collection case, over the checks of the value's elements. *)
Definition check_elements (v : cvalue) (checks : list (ctype → ContractResult)) (constraint el : ctype) : ContractResult :=
  let result := combine_all ((λ check : ctype → ContractResult, check el) <$> checks) in
  if has_dynamic constraint then
    let result := if wholly_known v then result else combine result ContractDeferred in
    match Convert v constraint with
    | None => combine result ContractViolation
    | Some converted =>
      let precise := preserveOptional (element_type (type_of converted)) el in
      foldl combine result ((λ check : ctype → ContractResult, check precise) <$> checks)
    end
  else result.

(** The object case: every declared attribute against the attribute's check. *)
Definition check_attrs (lookup : string → option (ctype → ContractResult)) (attrs : list (string * ctype * bool)) : ContractResult :=
  combine_all ((λ a : string * ctype * bool, match lookup a.1.1 with
                    | Some check => check a.1.2
                    | None => if a.2 : bool then ContractConfirmed else ContractViolation
                    end) <$> attrs).

Definition check_tuple (checks : list (ctype → ContractResult)) (elems : list ctype) : ContractResult :=
  if decide (length checks = length elems)
  then combine_all (zip_with (λ (f : ctype → ContractResult) t, f t) checks elems)
  else ContractViolation.

(** The named checks of an object's or a map's elements. *)
Fixpoint lookup_check (l : list (string * (ctype → ContractResult))) (k : string) : option (ctype → ContractResult) :=
  match l with [] => None | (k', f) :: l => if decide (k = k') then Some f else lookup_check l k end.

Fixpoint CheckContractType (v : cvalue) (constraint : ctype) {struct v} : ContractResult :=
  let elems := fmap CheckContractType in
  let attrs := fmap (λ a : string * cvalue, (a.1, CheckContractType a.2)) in
  match constraint with
  | TDynamic => ContractConfirmed
  | _ =>
    match v with
    | CNull _ => ContractConfirmed
    | CUnknown _ => ContractDeferred
    | CPrim n _ => match constraint with TPrimitive m => if decide (n = m) then ContractConfirmed else ContractViolation | _ => ContractViolation end
    | CObject l =>
      match constraint with
      | TObject cs => check_attrs (lookup_check (attrs l)) cs
      | TMap el => check_elements v (snd <$> attrs l) constraint el
      | _ => ContractViolation
      end
    | CMap _ l =>
      match constraint with
      | TObject cs => check_attrs (lookup_check (attrs l)) cs
      | TMap el => check_elements v (snd <$> attrs l) constraint el
      | _ => ContractViolation
      end
    | CTuple l =>
      match constraint with
      | TTuple ts => check_tuple (elems l) ts
      | TList el => check_elements v (elems l) constraint el
      | _ => ContractViolation
      end
    | CList _ l =>
      match constraint with
      | TTuple ts => check_tuple (elems l) ts
      | TList el => check_elements v (elems l) constraint el
      | _ => ContractViolation
      end
    | CSet _ l =>
      match constraint with
      | TSet el => check_elements v (elems l) constraint el
      | _ => ContractViolation
      end
    end
  end.

(** [value == cty.NilVal] first. *)
Definition check_optional (v : option cvalue) (constraint : ctype) : ContractResult :=
  match v with None => ContractDeferred | Some v => CheckContractType v constraint end.
End Check.

(** ** The canonical text of a constraint *)

Definition entry_le (a b : string * string) : Prop := String.le a.1 b.1.
#[export] Instance entry_le_dec : RelDecision entry_le.
Proof. intros a b. unfold entry_le. apply _. Defined.

(** [typeexpr.TypeString] of the remaining kinds is their name. *)
Fixpoint constraintString (t : ctype) : string :=
  match t with
  | TObject attrs =>
    let rendered := (fix go (l : list (string * ctype * bool)) : list (string * string) :=
      match l with
      | [] => []
      | (k, t, optional) :: l =>
        let v := constraintString t in
        (k, k +:+ " = " +:+ (if optional then "optional(" +:+ v +:+ ")" else v)) :: go l
      end) attrs in
    "object({" +:+ join ((merge_sort entry_le rendered).*2) ", " +:+ "})"
  | TTuple ts =>
    "tuple([" +:+ join ((fix go (l : list ctype) : list string :=
      match l with [] => [] | t :: l => constraintString t :: go l end) ts) ", " +:+ "])"
  | TList t => "list(" +:+ constraintString t +:+ ")"
  | TSet t => "set(" +:+ constraintString t +:+ ")"
  | TMap t => "map(" +:+ constraintString t +:+ ")"
  | TDynamic => "any"
  | TPrimitive name => name
  end.

Example constraintString_ex :
  constraintString (TObject [("z", TList (TPrimitive "string"), false); ("a", TDynamic, true)])
  = "object({a = optional(any), z = list(string)})".
Proof. reflexivity. Qed.

(** ** The specification: conformance of a value to a constraint *)

Fixpoint assoc {A} (l : list (string * A)) (k : string) : option A :=
  match l with [] => None | (k', a) :: l => if decide (k = k') then Some a else assoc l k end.

Inductive conforms : cvalue → ctype → Prop :=
  | conf_any v : conforms v TDynamic
  | conf_null t' t : conforms (CNull t') t
  | conf_prim n s : conforms (CPrim n s) (TPrimitive n)
  | conf_object l cs : attrs_conform l cs → conforms (CObject l) (TObject cs)
  | conf_map_object e l cs : attrs_conform l cs → conforms (CMap e l) (TObject cs)
  | conf_tuple l ts : Forall2 conforms l ts → conforms (CTuple l) (TTuple ts)
  | conf_list_tuple e l ts : Forall2 conforms l ts → conforms (CList e l) (TTuple ts)
  | conf_list e l t : Forall (λ v, conforms v t) l → conforms (CList e l) (TList t)
  | conf_tuple_list l t : Forall (λ v, conforms v t) l → conforms (CTuple l) (TList t)
  | conf_set e l t : Forall (λ v, conforms v t) l → conforms (CSet e l) (TSet t)
  | conf_map e l t : Forall (λ a, conforms a.2 t) l → conforms (CMap e l) (TMap t)
  | conf_object_map l t : Forall (λ a, conforms a.2 t) l → conforms (CObject l) (TMap t)
with attrs_conform : list (string * cvalue) → list (string * ctype * bool) → Prop :=
  | attrs_none l : attrs_conform l []
  | attrs_present l k v opt t cs : assoc l k = Some v → conforms v t → attrs_conform l cs → attrs_conform l ((k, t, opt) :: cs)
  | attrs_absent l k t cs : assoc l k = None → attrs_conform l cs → attrs_conform l ((k, t, true) :: cs).

(** [v'] is what [v] can still turn out to be. *)
Inductive completes : cvalue → cvalue → Prop :=
  | comp_unknown t v : completes (CUnknown t) v
  | comp_null t : completes (CNull t) (CNull t)
  | comp_prim n s : completes (CPrim n s) (CPrim n s)
  | comp_object l l' : Forall2 (λ a b, a.1 = b.1 ∧ completes a.2 b.2) l l' → completes (CObject l) (CObject l')
  | comp_map e e' l l' : Forall2 (λ a b, a.1 = b.1 ∧ completes a.2 b.2) l l' → completes (CMap e l) (CMap e' l')
  | comp_tuple l l' : Forall2 completes l l' → completes (CTuple l) (CTuple l')
  | comp_list e e' l l' : Forall2 completes l l' → completes (CList e l) (CList e' l')
  | comp_set e e' l l' : Forall2 completes l l' → completes (CSet e l) (CSet e' l').

(** No [any] inside a collection: the constraints no conversion has a say in. *)
Fixpoint static (t : ctype) : bool :=
  match t with
  | TDynamic | TPrimitive _ => true
  | TObject attrs => forallb (λ a, static a.1.2) attrs
  | TTuple elems => forallb static elems
  | TList e | TSet e | TMap e => negb (has_dynamic e)
  end.

(** ** Facts *)

Lemma combine_confirmed a b : combine a b = ContractConfirmed → a = ContractConfirmed ∧ (b = ContractConfirmed ∨ b = ContractUnconstrained).
Proof. destruct a, b; simpl; try discriminate; auto. Qed.

Lemma foldl_combine_confirmed l a : foldl combine a l = ContractConfirmed →
  a = ContractConfirmed ∧ Forall (λ r, r = ContractConfirmed ∨ r = ContractUnconstrained) l.
Proof.
  revert a. induction l as [|r l IH]; intros a; simpl; [by split|]. intros [Ha Hl]%IH.
  apply combine_confirmed in Ha as [-> Hr]. split; [done|by constructor].
Qed.

Lemma foldl_combine_violation l a : foldl combine a l = ContractViolation → a = ContractViolation ∨ ContractViolation ∈ l.
Proof.
  revert a. induction l as [|r l IH]; intros a; simpl; [by left|]. intros [Ha|Hl]%IH; [|by right; right].
  destruct a, r; simpl in Ha; try done; try (by left); right; left.
Qed.

Lemma foldl_combine_deferred l a : foldl combine a l = ContractDeferred → a = ContractDeferred ∨ ContractDeferred ∈ l.
Proof.
  revert a. induction l as [|r l IH]; intros a; simpl; [by left|]. intros [Ha|Hl]%IH; [|by right; right].
  destruct a, r; simpl in Ha; try done; try (by left); right; left.
Qed.

Lemma foldl_combine_unconstrained l a : foldl combine a l = ContractUnconstrained → a = ContractUnconstrained.
Proof.
  revert a. induction l as [|r l IH]; intros a; simpl; [done|]. intros Ha%IH. by destruct a, r.
Qed.

Lemma combine_all_confirmed l : combine_all l = ContractConfirmed → ContractUnconstrained ∉ l → Forall (λ r, r = ContractConfirmed) l.
Proof.
  intros [_ Hl]%foldl_combine_confirmed Hu. rewrite Forall_forall in Hl |- *. intros r Hr. destruct (Hl r Hr) as [Hx|Hx]; [done|subst r; by destruct Hu].
Qed.

Lemma combine_all_violation l : combine_all l = ContractViolation → ContractViolation ∈ l.
Proof. by intros [|]%foldl_combine_violation. Qed.

Lemma combine_all_deferred l : combine_all l = ContractDeferred → ContractDeferred ∈ l.
Proof. by intros [|]%foldl_combine_deferred. Qed.

Lemma has_dynamic_static t : has_dynamic t = false → static t = true.
Proof.
  induction t as [| |attrs IH|elems IH|e IH|e IH|e IH] using ctype_ind'; simpl; try done; try (intros ->; done).
  - induction IH as [|a l Ha _ IHl]; simpl; [done|]. intros [Hd Hl]%orb_false_iff. by rewrite Ha, IHl.
  - induction IH as [|a l Ha _ IHl]; simpl; [done|]. intros [Hd Hl]%orb_false_iff. by rewrite Ha, IHl.
Qed.

Lemma assoc_elem {A} (l : list (string * A)) k a : assoc l k = Some a → (k, a) ∈ l.
Proof. induction l as [|[k' b] l IH]; simpl; [done|]. case_decide; [intros [= ->]; subst; by left|]. intros. right. auto. Qed.
