(* ===== verification/CtyProofs.v ===== *)
(** The contract check against conformance (for Cty.v): a confirmed verdict
    holds for every value the unknown parts can turn into, a violation for none
    of them, and a wholly known value is never deferred. *)
From S2P Require Import Prelude GoLib Cty.

Section Check.
Context (Convert : cvalue → ctype → option cvalue).
Local Notation check := (CheckContractType Convert).

(** ** The verdicts of known values *)

Lemma combine_all_constrained l : combine_all l ≠ ContractUnconstrained.
Proof. by intros ?%foldl_combine_unconstrained. Qed.

Lemma check_elements_constrained v checks t el : check_elements Convert v checks t el ≠ ContractUnconstrained.
Proof.
  unfold check_elements. pose proof (combine_all_constrained ((λ f : ctype → ContractResult, f el) <$> checks)) as Hc.
  revert Hc. generalize (combine_all ((λ f : ctype → ContractResult, f el) <$> checks)). intros r Hr.
  destruct (has_dynamic t); [|done]. destruct (wholly_known v), (Convert v t).
  - by intros ?%foldl_combine_unconstrained.
  - by destruct r.
  - intros Hx%foldl_combine_unconstrained. by destruct r.
  - by destruct r.
Qed.

Lemma check_constrained v t : check v t ≠ ContractUnconstrained.
Proof.
  destruct t; destruct v; simpl; try done; try apply check_elements_constrained; try apply combine_all_constrained;
    try (unfold check_attrs; apply combine_all_constrained); unfold check_tuple; case_decide; try done; apply combine_all_constrained.
Qed.

Lemma check_elements_known v checks t el : wholly_known v = true → (∀ f, f ∈ checks → ∀ t, f t ≠ ContractDeferred) →
  check_elements Convert v checks t el ≠ ContractDeferred.
Proof.
  intros Hk Hf. unfold check_elements. rewrite Hk.
  assert (∀ t, combine_all ((λ f : ctype → ContractResult, f t) <$> checks) ≠ ContractDeferred) as Hc.
  { intros x Hx%combine_all_deferred. apply list_elem_of_fmap in Hx as (f & Heq & Hin). by apply (Hf f Hin x). }
  destruct (has_dynamic t); [|apply Hc]. specialize (Hc el). revert Hc. generalize (combine_all ((λ f : ctype → ContractResult, f el) <$> checks)).
  intros r Hr. destruct (Convert v t) as [c|]; [|by destruct r].
  intros [?|Hx]%foldl_combine_deferred; [done|]. apply list_elem_of_fmap in Hx as (f & Heq & Hin). by eapply Hf.
Qed.

Lemma known_elems (l : list cvalue) : Forall (λ v, wholly_known v = true → ∀ t, check v t ≠ ContractDeferred) l →
  forallb wholly_known l = true → ∀ f, f ∈ (check <$> l) → ∀ t, f t ≠ ContractDeferred.
Proof.
  intros HF Hk f (v & -> & Hv)%list_elem_of_fmap t. rewrite Forall_forall in HF. apply HF; [done|].
  rewrite forallb_forall in Hk. apply Hk. by apply list_elem_of_In.
Qed.

Lemma known_attrs (l : list (string * cvalue)) : Forall (λ a, wholly_known a.2 = true → ∀ t, check a.2 t ≠ ContractDeferred) l →
  forallb (λ a, wholly_known a.2) l = true → ∀ k f, (k, f) ∈ ((λ a : string * cvalue, (a.1, check a.2)) <$> l) → ∀ t, f t ≠ ContractDeferred.
Proof.
  intros HF Hk k f ([k' v] & [= -> ->] & Hv)%list_elem_of_fmap t. rewrite Forall_forall in HF. apply (HF (k', v)); [done|].
  rewrite forallb_forall in Hk. apply (Hk (k', v)). by apply list_elem_of_In.
Qed.

Lemma lookup_check_elem l k f : lookup_check l k = Some f → (k, f) ∈ l.
Proof.
  induction l as [|[k' f'] l IH]; simpl; [done|]. case_decide as Hk; [intros [= ->]; subst; by left|]. intros Hl. right. auto.
Qed.

Lemma attrs_known l cs : (∀ k f, (k, f) ∈ l → ∀ t, f t ≠ ContractDeferred) → check_attrs (lookup_check l) cs ≠ ContractDeferred.
Proof.
  intros Hl Hx%combine_all_deferred. apply list_elem_of_fmap in Hx as ([[k t] opt] & Heq & _). simpl in Heq.
  destruct (lookup_check l k) as [f|] eqn:Hf; [|by destruct opt]. apply lookup_check_elem in Hf. by apply (Hl k f Hf t).
Qed.

Lemma tuple_known (checks : list (ctype → ContractResult)) ts : (∀ f, f ∈ checks → ∀ t, f t ≠ ContractDeferred) →
  check_tuple checks ts ≠ ContractDeferred.
Proof.
  intros Hl. unfold check_tuple. case_decide; [|done]. intros Hx%combine_all_deferred.
  apply elem_of_zip_with in Hx as (f & t & Heq & Hf & _). by apply (Hl f Hf t).
Qed.

Lemma map_checks_elem (l : list (string * (ctype → ContractResult))) f : f ∈ l.*2 → ∃ k, (k, f) ∈ l.
Proof. intros ([k g] & -> & Hin)%list_elem_of_fmap. by exists k. Qed.

Lemma known_not_deferred v : wholly_known v = true → ∀ t, check v t ≠ ContractDeferred.
Proof.
  induction v as [u|u|n s|l IH|l IH|e l IH|e l IH|e l IH] using cvalue_ind'; intros Hk t; [done|by destruct t|..].
  - destruct t; simpl; try done. by case_decide.
  - pose proof (known_attrs l IH Hk) as Hl. destruct t as [| | | |el| |cs]; simpl; try done; [|by apply attrs_known].
    apply check_elements_known; [done|]. intros f [k Hf]%map_checks_elem. by eapply Hl.
  - pose proof (known_elems l IH Hk) as Hl. destruct t; simpl; try done; [by apply check_elements_known|by apply tuple_known].
  - pose proof (known_elems l IH Hk) as Hl. destruct t; simpl; try done; [by apply check_elements_known|by apply tuple_known].
  - pose proof (known_elems l IH Hk) as Hl. destruct t; simpl; try done. by apply check_elements_known.
  - pose proof (known_attrs l IH Hk) as Hl. destruct t as [| | | |el| |cs]; simpl; try done; [|by apply attrs_known].
    apply check_elements_known; [done|]. intros f [k Hf]%map_checks_elem. by eapply Hl.
Qed.

(** ** Verdicts under partial knowledge *)

Definition decides (v v' : cvalue) (t : ctype) : Prop :=
  (check v t = ContractConfirmed → conforms v' t) ∧ (check v t = ContractViolation → ¬ conforms v' t).

Definition decider (v : cvalue) : Prop := ∀ v' t, static t = true → completes v v' → decides v v' t.

Lemma lookup_check_assoc (l : list (string * cvalue)) k :
  lookup_check ((λ a : string * cvalue, (a.1, check a.2)) <$> l) k = check <$> assoc l k.
Proof. induction l as [|[k' v] l IH]; simpl; [done|]. by case_decide. Qed.

Lemma completes_assoc l l' k : Forall2 (λ a b : string * cvalue, a.1 = b.1 ∧ completes a.2 b.2) l l' →
  (assoc l k = None ∧ assoc l' k = None) ∨ (∃ v v', assoc l k = Some v ∧ assoc l' k = Some v' ∧ completes v v').
Proof.
  induction 1 as [|[k1 v1] [k2 v2] l l' [Hk Hc] _ IH]; simpl; [by left|]. simpl in *. subst k2.
  case_decide; [right; eauto|done].
Qed.

Lemma attrs_decided l l' cs : Forall (λ a, decider a.2) l → Forall2 (λ a b : string * cvalue, a.1 = b.1 ∧ completes a.2 b.2) l l' →
  forallb (λ a : string * ctype * bool, static a.1.2) cs = true →
  let r := check_attrs (lookup_check ((λ a : string * cvalue, (a.1, check a.2)) <$> l)) cs in
  (r = ContractConfirmed → attrs_conform l' cs) ∧ (r = ContractViolation → ¬ attrs_conform l' cs).
Proof.
  intros Hd Hc Hs. simpl. unfold check_attrs. rewrite Forall_forall in Hd. split.
  - intros Hr. apply combine_all_confirmed in Hr.
    2:{ intros ([[k t] opt] & Heq & _)%list_elem_of_fmap. simpl in Heq. rewrite lookup_check_assoc in Heq.
        destruct (assoc l k) as [v|]; simpl in Heq; [by eapply check_constrained|by destruct opt]. }
    induction cs as [|[[k t] opt] cs IH]; simpl in *; [constructor|]. apply andb_true_iff in Hs as [Ht Hs].
    apply Forall_cons in Hr as [Hk Hr]. simpl in Hk. rewrite lookup_check_assoc in Hk.
    destruct (completes_assoc l l' k Hc) as [[Hn Hn']|(v & v' & Hv & Hv' & Hcv)].
    + rewrite Hn in Hk. simpl in Hk. destruct opt; [|done]. by apply attrs_absent; [|apply IH].
    + rewrite Hv in Hk. simpl in Hk. eapply attrs_present; [done| |by apply IH].
      apply (Hd (k, v) (assoc_elem _ _ _ Hv) v' t Ht Hcv). done.
  - intros Hr%combine_all_violation. apply list_elem_of_fmap in Hr as ([[k t] opt] & Heq & Hin). simpl in Heq. rewrite lookup_check_assoc in Heq.
    assert (static t = true) as Ht. { rewrite forallb_forall in Hs. by apply (Hs (k, t, opt)), list_elem_of_In. }
    intros Hconf. induction Hconf as [|l' k1 v1 opt1 t1 cs Hk1 Hc1 Hcs IH|l' k1 t1 cs Hk1 Hcs IH]; [by apply elem_of_nil in Hin| |].
    + simpl in Hs. apply andb_true_iff in Hs as [_ Hs]. apply elem_of_cons in Hin as [[= -> -> ->]|Hin]; [|by apply IH].
      destruct (completes_assoc l l' k1 Hc) as [[Hn Hn']|(v & v' & Hv & Hv' & Hcv)]; [congruence|].
      rewrite Hv in Heq. simpl in Heq. rewrite Hk1 in Hv'. injection Hv' as <-.
      by apply (Hd (k1, v) (assoc_elem _ _ _ Hv) v1 t1 Ht Hcv).
    + simpl in Hs. apply andb_true_iff in Hs as [_ Hs]. apply elem_of_cons in Hin as [[= -> -> ->]|Hin]; [|by apply IH].
      destruct (completes_assoc l l' k1 Hc) as [[Hn Hn']|(v & v' & Hv & Hv' & Hcv)]; [by rewrite Hn in Heq|congruence].
Qed.

Lemma elems_decided l l' el t v : has_dynamic t = false → static el = true → Forall decider l → Forall2 completes l l' →
  let r := check_elements Convert v (check <$> l) t el in
  (r = ContractConfirmed → Forall (λ v, conforms v el) l') ∧ (r = ContractViolation → ¬ Forall (λ v, conforms v el) l').
Proof.
  intros Hdy Hs Hd Hc. simpl. unfold check_elements. rewrite Hdy, <-list_fmap_compose. split.
  - intros Hr. apply combine_all_confirmed in Hr; [|intros (u & Heq & _)%list_elem_of_fmap; by eapply check_constrained].
    rewrite Forall_fmap in Hr. induction Hc as [|a b l l' Hab _ IH]; [constructor|].
    apply Forall_cons in Hd as [Ha Hd], Hr as [Hra Hr]. constructor; [by apply (Ha b el Hs Hab)|by apply IH].
  - intros (u & Heq & Hu)%combine_all_violation%list_elem_of_fmap Hall. simpl in Heq.
    apply list_elem_of_lookup in Hu as [i Hi]. destruct (Forall2_lookup_l _ _ _ _ _ Hc Hi) as (u' & Hi' & Huu).
    pose proof (Forall_lookup_1 _ _ _ _ Hd Hi u' el Hs Huu) as [_ Hv]. by apply Hv, (Forall_lookup_1 _ _ _ _ Hall Hi').
Qed.

Lemma tuple_decided l l' ts : forallb static ts = true → Forall decider l → Forall2 completes l l' →
  let r := check_tuple (check <$> l) ts in
  (r = ContractConfirmed → Forall2 conforms l' ts) ∧ (r = ContractViolation → ¬ Forall2 conforms l' ts).
Proof.
  intros Hs Hd Hc. simpl. unfold check_tuple. rewrite length_fmap. case_decide as Hlen.
  2:{ split; [done|]. intros _ Hall%Forall2_length. apply Forall2_length in Hc. lia. }
  split.
  - intros Hr. apply combine_all_confirmed in Hr.
    2:{ intros (f & t & Heq & (u & -> & _)%list_elem_of_fmap & _)%elem_of_zip_with. by eapply check_constrained. }
    revert ts Hs Hlen Hr. induction Hc as [|a b l l' Hab _ IH]; intros [|t ts] Hs Hlen Hr; simpl in *; try done.
    apply andb_true_iff in Hs as [Ht Hs]. apply Forall_cons in Hd as [Ha Hd], Hr as [Hra Hr].
    constructor; [by apply (Ha b t Ht Hab)|]. apply IH; [done|done|lia|done].
  - intros Hr%combine_all_violation Hall. revert ts Hs Hlen Hr Hall.
    induction Hc as [|a b l l' Hab _ IH]; intros [|t ts] Hs Hlen Hr Hall; simpl in *; try done; try by apply elem_of_nil in Hr.
    apply andb_true_iff in Hs as [Ht Hs]. apply Forall_cons in Hd as [Ha Hd]. apply Forall2_cons in Hall as [Hb Hall].
    apply elem_of_cons in Hr as [Hr|Hr]; [|apply (IH Hd ts Hs); [lia|done|done]]. by apply (Ha b t Ht Hab).
Qed.

Lemma map_values_completes (l l' : list (string * cvalue)) :
  Forall2 (λ a b : string * cvalue, a.1 = b.1 ∧ completes a.2 b.2) l l' → Forall2 completes l.*2 l'.*2.
Proof. induction 1 as [|a b l l' [_ Hab] _ IH]; simpl; by constructor. Qed.

Lemma map_decided l l' el t v : has_dynamic t = false → static el = true → Forall (λ a, decider a.2) l →
  Forall2 (λ a b : string * cvalue, a.1 = b.1 ∧ completes a.2 b.2) l l' →
  let r := check_elements Convert v (snd <$> ((λ a : string * cvalue, (a.1, check a.2)) <$> l)) t el in
  (r = ContractConfirmed → Forall (λ a : string * cvalue, conforms a.2 el) l') ∧
  (r = ContractViolation → ¬ Forall (λ a : string * cvalue, conforms a.2 el) l').
Proof.
  intros Hdy Hs Hd Hc%map_values_completes. apply Forall_fmap in Hd.
  assert (snd <$> ((λ a : string * cvalue, (a.1, check a.2)) <$> l) = check <$> l.*2) as -> by (by rewrite <-!list_fmap_compose).
  pose proof (elems_decided l.*2 l'.*2 el t v Hdy Hs Hd Hc) as He. cbv zeta in He. rewrite !Forall_fmap in He. exact He.
Qed.

(** A verdict on the parts, through the constructors of conformance. *)
Ltac verdict D := let C := fresh in let V := fresh in destruct D as [C V]; split;
  [intros Hr; constructor; by apply C|intros Hr Hconf; inversion Hconf; subst; by apply V].

Lemma verdicts v : decider v.
Proof.
  induction v as [u|u|n s|l IH|l IH|e l IH|e l IH|e l IH] using cvalue_ind'; intros v' t Hs Hc;
    destruct t as [|m|el|el|el|ts|cs]; (try by split; [intros _; constructor|]).
  all: inversion Hc; subst; try (split; [done|by intros _ Hconf; inversion Hconf]); try by split; [intros _; constructor|].
  all: try (split; done). all: try (pose proof Hs as Hs'; simpl in Hs; apply negb_true_iff in Hs).
  - unfold decides. simpl. split; [|intros Hr Hconf; inversion Hconf; subst; by rewrite decide_True in Hr].
    case_decide as Hn; [|done]. subst. constructor.
  - verdict (map_decided l l' el (TMap el) (CObject l) Hs (has_dynamic_static el Hs) IH ltac:(done)).
  - verdict (attrs_decided l l' cs IH ltac:(done) Hs).
  - verdict (elems_decided l l' el (TList el) (CTuple l) Hs (has_dynamic_static el Hs) IH ltac:(done)).
  - verdict (tuple_decided l l' ts Hs IH ltac:(done)).
  - verdict (elems_decided l l' el (TList el) (CList e l) Hs (has_dynamic_static el Hs) IH ltac:(done)).
  - verdict (tuple_decided l l' ts Hs IH ltac:(done)).
  - verdict (elems_decided l l' el (TSet el) (CSet e l) Hs (has_dynamic_static el Hs) IH ltac:(done)).
  - verdict (map_decided l l' el (TMap el) (CMap e l) Hs (has_dynamic_static el Hs) IH ltac:(done)).
  - verdict (attrs_decided l l' cs IH ltac:(done) Hs).
Qed.

(** C28: the check is sound under partial knowledge.  For a constraint with no
    [any] inside a collection: a confirmed value conforms whatever its unknown
    parts turn out to be, a violating value conforms in none of these cases,
    and only values with unknown parts are deferred. *)
Theorem verdict_sound v v' t : static t = true → completes v v' →
  (check v t = ContractConfirmed → conforms v' t) ∧ (check v t = ContractViolation → ¬ conforms v' t) ∧
  (check v t = ContractDeferred → wholly_known v = false) ∧ check v t ≠ ContractUnconstrained.
Proof.
  intros Hs Hc. destruct (verdicts v v' t Hs Hc) as [Hconf Hviol]. split_and!; [done|done| |apply check_constrained].
  intros Hd. destruct (wholly_known v) eqn:Hk; [|done]. by apply known_not_deferred in Hd.
Qed.
End Check.

(** An object whose port is not known yet: already wrong about its name. *)
Example verdict_sound_witness :
  let no_conversion := λ (_ : cvalue) (_ : ctype), @None cvalue in
  let t := TObject [("name", TPrimitive "string", false); ("port", TPrimitive "number", true)] in
  let v := CObject [("name", CPrim "bool" "true"); ("port", CUnknown (TPrimitive "number"))] in
  CheckContractType no_conversion v t = ContractViolation ∧
  ¬ conforms (CObject [("name", CPrim "bool" "true"); ("port", CPrim "number" "80")]) t.
Proof.
  simpl. split; [vm_compute; reflexivity|].
  refine (proj1 (proj2 (verdict_sound (λ _ _, None)
    (CObject [("name", CPrim "bool" "true"); ("port", CUnknown (TPrimitive "number"))])
    (CObject [("name", CPrim "bool" "true"); ("port", CPrim "number" "80")])
    (TObject [("name", TPrimitive "string", false); ("port", TPrimitive "number", true)]) _ _)) _).
  - vm_compute. reflexivity.
  - repeat constructor.
  - vm_compute. reflexivity.
Defined.
