(* ===== verification/Blueprint.v ===== *)
(** The blueprint data model (src/internal/blueprint: types.go, approve.go,
    contract.go, execution.go, backend_address.go, plugin_binding.go): the
    records every other file builds on, their accessors, and the validations
    that need nothing but literals.

    A Go string field whose zero value means "unset" stays a string; a
    map whose nil and empty values differ for the code ([BackendAddress]) is
    an [option]; every other map is a plain [gmap], nil being empty. *)
From S2P Require Import Prelude GoLib.

(** ** Ports and references *)

Inductive PortKind := KindBare | PortOutput | PortInput.
Inductive EntityKind := EntityNode | EntityUse.

#[export] Instance PortKind_eq_dec : EqDecision PortKind.
Proof. solve_decision. Defined.
#[export] Instance EntityKind_eq_dec : EqDecision EntityKind.
Proof. solve_decision. Defined.

Record PortRef := MkPortRef {
  pr_Entity : EntityKind;
  pr_Node : string;
  pr_Kind : PortKind;
  pr_Name : string;
}.

#[export] Instance PortRef_eq_dec : EqDecision PortRef.
Proof. solve_decision. Defined.

Definition IsPort (p : PortRef) : bool := negb (bool_decide (pr_Kind p = KindBare)).

Definition prefix (p : PortRef) : string :=
  if decide (pr_Entity p = EntityUse) then "use" else "node".

Definition kind_string (k : PortKind) : string :=
  match k with KindBare => "" | PortOutput => "output" | PortInput => "input" end.

(** [PortRef.String]. *)
Definition PortRef_String (p : PortRef) : string :=
  if negb (IsPort p) then prefix p +:+ "." +:+ pr_Node p
  else prefix p +:+ "." +:+ pr_Node p +:+ "." +:+ kind_string (pr_Kind p) +:+ "." +:+ pr_Name p.

(** A plain reference to a node ([EntityNode] is the zero value). *)
Definition bare (n : string) : PortRef := MkPortRef EntityNode n KindBare "".
Definition out_port (n p : string) : PortRef := MkPortRef EntityNode n PortOutput p.
Definition in_port (n p : string) : PortRef := MkPortRef EntityNode n PortInput p.

(** ** Edges *)

Record Edge := MkEdge { e_From : PortRef; e_To : PortRef }.

#[export] Instance Edge_eq_dec : EqDecision Edge.
Proof. solve_decision. Defined.

Definition IsDataEdge (e : Edge) : bool := IsPort (e_From e) && IsPort (e_To e).

(** ** Values: the JSON-compatible shapes a [vars] entry may hold.  A number
    keeps its literal text. *)
Inductive value :=
  | VNull
  | VBool (b : bool)
  | VNumber (s : string)
  | VString (s : string)
  | VList (l : list value)
  | VObject (l : list (string * value)).

#[export] Instance value_eq_dec : EqDecision value.
Proof.
  refine (fix go (x y : value) {struct x} : Decision (x = y) :=
    match x, y with
    | VNull, VNull => left eq_refl
    | VBool a, VBool b => cast_if (decide (a = b))
    | VNumber a, VNumber b => cast_if (decide (a = b))
    | VString a, VString b => cast_if (decide (a = b))
    | VList l, VList k => cast_if (@list_eq_dec _ go l k)
    | VObject l, VObject k => cast_if (@list_eq_dec _ (@prod_eq_dec _ _ _ go) l k)
    | _, _ => right _
    end); abstract congruence.
Defined.

Record PluginBinding := MkBinding {
  pb_Alias : string;
  pb_Feature : string;
  pb_Reference : list (string * value);
  pb_Environment : list string;
}.

(** ** Approve levels (approve.go) *)

Definition Approve := string.
Definition ApproveNone : Approve := "none".
Definition ApproveSafe : Approve := "safe".
Definition ApproveAll : Approve := "all".

Definition ParseApprove (s : string) : result Approve :=
  if decide (s = ApproveNone ∨ s = ApproveSafe ∨ s = ApproveAll) then Ok s
  else Err (Errorf "unknown approve level %q (want %q, %q or %q)"
              [FStr s; FStr ApproveNone; FStr ApproveSafe; FStr ApproveAll]).

Definition Permits (a : Approve) (action : string) : bool :=
  if decide (action = "no-op" ∨ action = "read") then true
  else if decide (action = "create" ∨ action = "update") then
    bool_decide (a = ApproveSafe) || bool_decide (a = ApproveAll)
  else if decide (action = "delete") then bool_decide (a = ApproveAll)
  else bool_decide (a = ApproveAll).

(** ** Nodes, uses, groups *)

Record Node := MkNode {
  bn_Inputs : gmap string PluginBinding;
  bn_Credentials : gmap string PluginBinding;
  bn_Name : string;
  bn_Source : string;
  bn_BackendConfig : gmap string string;
  bn_BackendAddress : option (gmap string string);
  bn_Vars : gmap string value;
  bn_Runtime : string;
  bn_Env : gmap string string;
  bn_Approve : Approve;
}.

Definition IsRemote (src : string) : bool :=
  negb (has_prefix src "./") && negb (has_prefix src "../").

Record Use := MkUse {
  u_GroupName : string;
  u_As : string;
  u_Source : string;
  u_Runtime : string;
  u_Env : gmap string string;
  u_Vars : gmap string value;
  u_Approve : Approve;
  u_BackendConfig : gmap string string;
  u_BackendAddress : option (gmap string string);
}.

Record ExportInput := MkExportInput { ei_Name : string; ei_To : list PortRef }.
Record ExportOutput := MkExportOutput { eo_Name : string; eo_From : PortRef }.
Record Export := MkExport { ex_Inputs : list ExportInput; ex_Outputs : list ExportOutput }.

(** ** Contracts (contract.go) *)

Record PortContract := MkPortContract {
  pc_Name : string;
  pc_Scope : string;
  pc_Type : string;
  pc_Nullable : option bool;
  pc_Sensitive : option bool;
}.

#[export] Instance PortContract_eq_dec : EqDecision PortContract.
Proof. solve_decision. Defined.

Record DirContracts := MkDirContracts {
  dc_Scope : string;
  dc_Dir : string;
  dc_Producer : gmap string PortContract;
  dc_Consumer : gmap string PortContract;
}.

(** [*Contracts]: [None] is the nil pointer, "no claims, no checks". *)
Notation Contracts := (gmap string DirContracts).

Definition Lookup (c : option Contracts) (dir : string) : option DirContracts :=
  match c with None => None | Some m => m !! dir end.

Record Group := MkGroup {
  gr_Name : string;
  gr_Nodes : list Node;
  gr_Edges : list Edge;
  gr_Uses : list Use;
  gr_Export : Export;
  gr_Contracts : option Contracts;
}.

(** ** Blueprint-wide settings *)

Definition DefaultVendorDirectory : string := "vendor".
Definition DefaultVendorManifestFile : string := "vendor.yaml".
Record VendorConfig := MkVendorConfig { vc_Directory : string; vc_ManifestFile : string }.

Definition TFVarsLocationWorkdir : string := "workdir".
Definition TFVarsLocationModule : string := "module".

Record Runtime := MkRuntime {
  rt_Name : string;
  rt_Binary : string;
  rt_Version : string;
  rt_Default : bool;
}.

#[export] Instance Runtime_eq_dec : EqDecision Runtime.
Proof. solve_decision. Defined.

Record S3Lock := MkS3Lock { sl_Bucket : string; sl_Key : string; sl_Region : string }.
(** [*Lock]: a lock block holds at most an s3 block. *)
Record Lock := MkLock { lk_S3 : option S3Lock }.

(** Durations are nanoseconds. *)
Definition Hour : Z := 3600000000000.
Record ExecutionConfig := MkExecutionConfig {
  xc_Bucket : string;
  xc_Prefix : string;
  xc_Region : string;
  xc_PlanTTL : Z;
  xc_RecordRetention : Z;
}.

(** ** Plugin declarations *)

Record PluginFeature := MkFeature { pf_Mode : string; pf_Timeout : Z }.
Record PluginConfig := MkPluginConfig {
  pg_Name : string;
  pg_Source : string;
  pg_Version : string;
  pg_Config : gmap string value;
  pg_Features : gmap string PluginFeature;
  pg_Environment : option (list string);
  pg_PlanAccess : bool;
}.

(** [Plugins] and the HCL evaluation context are not part of the graph; the
    files that use them take them as arguments. *)
Record Blueprint := MkBlueprint {
  bp_Execution : option ExecutionConfig;
  bp_Nodes : list Node;
  bp_Edges : list Edge;
  bp_Groups : list Group;
  bp_Uses : list Use;
  bp_Vendor : option VendorConfig;
  bp_TFVars : option string;
  bp_Lock : option Lock;
  bp_Runtimes : list Runtime;
  bp_ContractMode : string;
  bp_Contracts : option Contracts;
  bp_Snapshots : option bool;
}.

Definition RuntimeByName (b : Blueprint) (name : string) : option Runtime :=
  List.find (λ rt, bool_decide (rt_Name rt = name)) (bp_Runtimes b).

Definition DefaultRuntime (b : Blueprint) : option Runtime :=
  List.find rt_Default (bp_Runtimes b).

Definition VendorDirectory (b : Blueprint) : string :=
  match bp_Vendor b with
  | Some v => if decide (vc_Directory v ≠ "") then vc_Directory v else DefaultVendorDirectory
  | None => DefaultVendorDirectory
  end.

Definition VendorManifestFile (b : Blueprint) : string :=
  match bp_Vendor b with
  | Some v => if decide (vc_ManifestFile v ≠ "") then vc_ManifestFile v else DefaultVendorManifestFile
  | None => DefaultVendorManifestFile
  end.

Definition TFVarsLocation (b : Blueprint) : string :=
  match bp_TFVars b with
  | Some l => if decide (l ≠ "") then l else TFVarsLocationWorkdir
  | None => TFVarsLocationWorkdir
  end.

Definition NodeByName (b : Blueprint) (name : string) : option Node :=
  List.find (λ n, bool_decide (bn_Name n = name)) (bp_Nodes b).

Definition ExecutionSettings (b : Blueprint) : ExecutionConfig :=
  match bp_Execution b with
  | Some c => c
  | None => MkExecutionConfig "" "" "" (24 * Hour) (30 * 24 * Hour)
  end.

(** ** Execution settings (execution.go)

    [values] are the block's literal attributes; [ParseDuration] is the Go
    standard library's. *)

Section Execution.
Context (ParseDuration : string → result Z).

Definition parse_duration_field (name : string) (values : gmap string string) (old : Z) : result Z :=
  match values !! name with
  | None => Ok old
  | Some raw =>
    duration ← wrap_err (λ err, Errorf "execution.%s: use a duration such as 24h: %w" [FStr name; FErr err])
                 (ParseDuration raw);
    if decide (duration <= 0)%Z then Err (Errorf "execution.%s: use a positive duration" [FStr name])
    else Ok duration
  end.

Definition value_of (values : gmap string string) (name : string) : string :=
  default "" (values !! name).

Definition bad_prefix_part (part : string) : bool :=
  bool_decide (part = "" ∨ part = "." ∨ part = "..").

(** The body of [parseExecutionBlock] after the attributes are read. *)
Definition parseExecutionBlock (values : gmap string string) : result ExecutionConfig :=
  let bucket := value_of values "bucket" in
  let region := value_of values "region" in
  let prefix0 := value_of values "prefix" in
  prefix ← (if decide (bucket ≠ "" ∨ prefix0 ≠ "" ∨ region ≠ "") then
    if decide (bucket = "" ∨ prefix0 = "" ∨ region = "") then
      Err (Errorf "execution: set bucket, prefix and region together for S3 storage" [])
    else
      let prefix := trim slash prefix0 in
      if bool_decide (prefix = "") || contains_any bucket "/\:" || contains prefix "\" then
        Err (Errorf "execution: use a bucket name and a dedicated non-root prefix" [])
      else if existsb bad_prefix_part (split_on slash prefix) then
        Err (Errorf "execution.prefix: remove empty or relative path components" [])
      else Ok prefix
    else Ok prefix0);
  plan_ttl ← parse_duration_field "plan_ttl" values (24 * Hour);
  retention ← parse_duration_field "record_retention" values (30 * 24 * Hour);
  Ok (MkExecutionConfig bucket prefix region plan_ttl retention).
End Execution.

Definition validateExecutionConfig (bp : Blueprint) : result unit :=
  let cfg := ExecutionSettings bp in
  if decide (xc_Bucket cfg = "") then Ok tt else
  match bp_Lock bp ≫= lk_S3 with
  | None => Err (Errorf "execution: S3 storage requires a shared lock block; configure the same graph lock on every executor" [])
  | Some s3 =>
    if bool_decide (xc_Bucket cfg = sl_Bucket s3)
       && (bool_decide (sl_Key s3 = xc_Prefix cfg) || has_prefix (sl_Key s3) (xc_Prefix cfg +:+ "/"))
    then Err (Errorf "execution.prefix: contains the graph lock; use a dedicated prefix so artifact cleanup cannot remove the lock" [])
    else Ok tt
  end.

(** ** [backend_address] (backend_address.go) *)

(** The loop body of [ParseBackendAddress]; [rng] is the attribute's source range. *)
Definition check_address_field (rng : string) (kv : string * string) : result unit :=
  let '(key, value) := kv in
  if decide (key = "s3_key_prefix") then Ok tt
  else if decide (key = "s3_key_name") then
    if bool_decide (value = "" ∨ value = "." ∨ value = "..") || contains_any value "/\" then
      Err (Errorf ("%s: backend_address.s3_key_name: must be a non-empty file name without path separators, not . or ..; use "
                    +:+ dquote +:+ "terraform.tfstate" +:+ dquote +:+ " and put directories in s3_key_prefix") [FStr rng])
    else Ok tt
  else Err (Errorf "%s: backend_address.%s: unsupported field; use s3_key_prefix and s3_key_name for S3 key generation" [FStr rng; FStr key]).

(** An attribute is its source range and what [parseStringMapAttr] makes of it;
    no attribute ([attr == nil]) is the nil map, an empty object is not. *)
Definition ParseBackendAddress `{MapOrder} (attr : option (string * result (gmap string string))) :
    result (option (gmap string string)) :=
  match attr with
  | None => Ok None
  | Some (rng, parsed) =>
    fields ← wrap_err (λ err, Errorf ("%w; use { s3_key_prefix = " +:+ dquote +:+ "prod" +:+ dquote
                                       +:+ " } or {} to disable generation") [FErr err]) parsed;
    _ ← foldM (λ _ kv, check_address_field rng kv) tt (range fields);
    Ok (Some fields)
  end.

(** ** Credential environment names (plugin_binding.go) *)

Definition is_upper (c : Ascii.ascii) : bool :=
  let n := Ascii.nat_of_ascii c in Nat.leb 65 n && Nat.leb n 90.
Definition is_digit (c : Ascii.ascii) : bool :=
  let n := Ascii.nat_of_ascii c in Nat.leb 48 n && Nat.leb n 57.
Definition is_underscore (c : Ascii.ascii) : bool := Ascii.eqb c "_"%char.

(** The regular expression [^[A-Z_][A-Z0-9_]*$].  [to_upper] maps the ASCII
    letters only, so the definition is the code on ASCII keys. *)
Definition env_identifier (key : string) : bool :=
  match key with
  | "" => false
  | String c s => (is_upper c || is_underscore c)
      && forallb (λ d, is_upper d || is_digit d || is_underscore d) (chars s)
  end.

Definition runtime_controls : list string :=
  ["PATH"; "HOME"; "USERPROFILE"; "SYSTEMROOT"; "COMSPEC"; "SHELL"; "BASH_ENV"; "ENV";
   "AWS_PROFILE"; "AWS_REGION"; "AWS_DEFAULT_REGION"; "AWS_ENDPOINT_URL"].

Definition CredentialEnvironmentAllowed (key : string) : bool :=
  let key := to_upper key in
  if negb (env_identifier key) then false
  else if has_prefix key "TF_TOKEN_" || bool_decide (key = "TF_HTTP_USERNAME") || bool_decide (key = "TF_HTTP_PASSWORD") then true
  else if has_prefix key "TF_" || has_prefix key "TOFU_" || has_prefix key "TERRAGRAPH_"
          || has_prefix key "LD_" || has_prefix key "DYLD_" then false
  else if mem key runtime_controls then false
  else true.
