(* ===== verification/Module.v ===== *)
(** Module inspection (src/internal/module: inspect.go, files.go):
    which files of a module directory a runtime reads, and the schema their
    declarations give.

    The file system, [terraform-config-inspect] and the HCL evaluator are not
    part of the repository: a directory listing is a list of entries, and an
    attribute is a record of what the evaluator answers for it. *)
From S2P Require Import Prelude GoLib Blueprint.

Record VariableDecl := MkVariable {
  v_Name : string;
  v_Type : string;
  v_Description : string;
  v_Sensitive : bool;
  v_Deprecated : string;
  v_Required : bool;
  v_Nullable : option bool;
  v_Default : option value;
  v_Ephemeral : bool;
  v_Const : bool;
}.

Record Output := MkOutput {
  o_Name : string;
  o_Type : string;
  o_Description : string;
  o_Sensitive : bool;
  o_Deprecated : string;
}.

Record Schema := MkSchema {
  s_RequiresTofuFiles : bool;
  s_Variables : gmap string VariableDecl;
  s_Outputs : gmap string bool;
  s_OutputDetails : gmap string Output;
  s_Backend : string;
  s_BackendConfig : gmap string string;
  s_BackendAttributes : option (gmap string bool);
  s_BackendConfigKnown : bool;
  s_comparison : gmap string (gmap string string);
}.

#[export] Instance Variable_eq_dec : EqDecision VariableDecl.
Proof. solve_decision. Defined.
#[export] Instance Output_eq_dec : EqDecision Output.
Proof. solve_decision. Defined.
#[export] Instance Schema_eq_dec : EqDecision Schema.
Proof. solve_decision. Defined.

Definition HasOutput (s : Schema) (name : string) : bool := default false (s_Outputs s !! name).
Definition HasVariable (s : Schema) (name : string) : bool :=
  bool_decide (is_Some (s_Variables s !! name)).

(** ** Selecting files (files.go) *)

Inductive FileMode := TerraformFiles | OpenTofuFiles | UnknownFiles.
#[export] Instance FileMode_eq_dec : EqDecision FileMode.
Proof. solve_decision. Defined.

Section FileModeForBinary.
(** [os.Stat] and [exec.LookPath] followed by [os.Stat], up to [os.SameFile]:
    the identity of the file a path names, [None] on an error. *)
Context (Stat : string → option Z) (LookPath : string → option string).

Definition same_file (target : Z) (name : string) : bool :=
  match LookPath name ≫= Stat with
  | Some canonical => bool_decide (target = canonical)
  | None => false
  end.

Definition FileModeForBinary (binary : string) : FileMode :=
  if decide (binary = "terraform") then TerraformFiles
  else if decide (binary = "tofu") then OpenTofuFiles
  else if negb (isAbs binary) then UnknownFiles
  else match Stat binary with
       | None => UnknownFiles
       | Some target =>
         match same_file target "terraform", same_file target "tofu" with
         | true, false => TerraformFiles
         | false, true => OpenTofuFiles
         | _, _ => UnknownFiles
         end
       end.
End FileModeForBinary.

(** [de_Info] is the outcome of the entry's [Info] call. *)
Record DirEntry := MkDirEntry { de_Name : string; de_IsDir : bool; de_Info : result unit }.

Record moduleFile := MkModuleFile {
  mf_physical : string;
  mf_alias : string;
  mf_override : bool;
}.

Definition configuration_extensions : list string := [".tf.json"; ".tofu.json"; ".tf"; ".tofu"].
Definition configurationExtension (name : string) : string :=
  default "" (List.find (has_suffix name) configuration_extensions).

Definition ignored_name (name : string) : bool :=
  has_prefix name "." || has_suffix name "~" || (has_prefix name "#" && has_suffix name "#").

Definition module_file (dir name ext : string) : moduleFile :=
  let base := trim_suffix name ext in
  MkModuleFile (Join [dir; name]) (base +:+ replace_first ext ".tofu" ".tf")
    (bool_decide (base = "override") || has_suffix base "_override").

(** One entry of the directory: skipped, or the module file it becomes. *)
Definition select_entry (dir : string) (mode : FileMode) (present : list string) (e : DirEntry) :
    option moduleFile :=
  let name := de_Name e in
  if de_IsDir e || ignored_name name then None
  else
    let ext := configurationExtension name in
    if decide (ext = "") then None
    else
      let tofu := has_prefix ext ".tofu" in
      if tofu && negb (bool_decide (mode = OpenTofuFiles)) then None
      else if negb tofu && bool_decide (mode = OpenTofuFiles)
              && mem (trim_suffix name ext +:+ replace_first ext ".tf" ".tofu") present then None
      else Some (module_file dir name ext).

Definition select_entry_info (dir : string) (mode : FileMode) (present : list string) (e : DirEntry) :
    result (option moduleFile) :=
  match select_entry dir mode present e with
  | None => Ok None
  | Some f =>
    _ ← wrap_err (λ err, Errorf "reading module file %s: %w" [FStr (mf_physical f); FErr err]) (de_Info e);
    Ok (Some f)
  end.

(** [listing] is what [os.ReadDir] answers for the directory. *)
Definition selectedFiles (dir : string) (listing : result (list DirEntry)) (mode : FileMode) :
    result (list moduleFile) :=
  entries ← wrap_err (λ err, Errorf "reading module directory %s: %w" [FStr dir; FErr err]) listing;
  let present := de_Name <$> filter (λ e, de_IsDir e = false) entries in
  files ← mapM_res (select_entry_info dir mode present) entries;
  let files := omap id files in
  Ok (filter (λ f, mf_override f = false) files ++ filter (λ f, mf_override f = true) files).

(** [inspectionFS.physical]: the file an alias stands for. *)
Definition physical (files : list moduleFile) (name : string) : string :=
  match List.find (λ f, bool_decide (Base name = mf_alias f)) files with
  | Some f => mf_physical f
  | None => name
  end.

(** ** Declarations (inspect.go)

    What the HCL evaluator answers for an attribute: its value decoded as a
    string (with whether decoding failed), as a boolean, as a literal, the
    source text of its expression, and its known scalar as text. *)
Record Attribute := MkAttribute {
  at_string : string * bool;
  at_bool : option bool;
  at_value : option value;
  at_source : string;
  at_scalar : option string;
  at_identity : string;
}.

(** A backend block's body: [bb_attrs] are its attributes, [bb_diags] whether
    [JustAttributes] reported an error (a nested block), [bb_identity] its
    [bodyIdentity]. *)
Record BackendBody := MkBackendBody {
  bb_attrs : gmap string Attribute;
  bb_diags : bool;
  bb_identity : gmap string string;
}.

Inductive tfblock :=
  | TBCloud (identity : gmap string string)
  | TBBackend (label : string) (body : BackendBody).

Inductive block :=
  | BPort (kind name : string) (attrs : gmap string Attribute)
  | BTerraform (inner : list tfblock).

(** A selected file that parses; one that does not is skipped by the source. *)
Record ParsedFile := MkParsedFile { pf_override : bool; pf_blocks : list block }.

Record declState := MkDeclState {
  ds_schema : Schema;
  ds_cloud : bool;
  ds_ports : gmap string (gmap string Attribute);
}.

Definition set_backend (s : Schema) (b : string) (cfg : gmap string string)
    (attrs : option (gmap string bool)) (known : bool) (cmp : gmap string (gmap string string)) : Schema :=
  MkSchema (s_RequiresTofuFiles s) (s_Variables s) (s_Outputs s) (s_OutputDetails s) b cfg attrs known cmp.

Definition clear_backend (s : Schema) : Schema :=
  set_backend s "" ∅ None true (delete "cloud" (delete "backend" (s_comparison s))).

(** One backend attribute: a known scalar is recorded, anything else makes the
    address unknown. *)
Definition add_backend_attr (acc : gmap string string * bool) (kv : string * Attribute) :
    gmap string string * bool :=
  match at_scalar kv.2 with
  | Some str => (<[kv.1 := str]> acc.1, acc.2)
  | None => (acc.1, false)
  end.

Definition backend_projection `{MapOrder} (b : BackendBody) : gmap string string * bool :=
  foldl add_backend_attr (∅, negb (bb_diags b)) (range (bb_attrs b)).

Definition inspect_tfblock `{MapOrder} (override : bool) (st : declState) (b : tfblock) : declState :=
  let st := if override then MkDeclState (clear_backend (ds_schema st)) false (ds_ports st) else st in
  let s := ds_schema st in
  match b with
  | TBCloud identity =>
    MkDeclState (set_backend s (s_Backend s) (s_BackendConfig s) (s_BackendAttributes s)
                   (s_BackendConfigKnown s) (<["cloud" := identity]> (s_comparison s)))
      true (ds_ports st)
  | TBBackend label body =>
    let attrs := if bb_diags body then None else Some ((λ _, true) <$> bb_attrs body) in
    let '(cfg, known) := backend_projection body in
    MkDeclState (set_backend s label cfg attrs known (<["backend" := bb_identity body]> (s_comparison s)))
      (ds_cloud st) (ds_ports st)
  end.

Definition inspect_block `{MapOrder} (override : bool) (st : declState) (b : block) : declState :=
  match b with
  | BPort kind name attrs =>
    let key := kind +:+ "." +:+ name in
    let old := if override then default ∅ (ds_ports st !! key) else ∅ in
    MkDeclState (ds_schema st) (ds_cloud st) (<[key := attrs ∪ old]> (ds_ports st))
  | BTerraform inner => foldl (inspect_tfblock override) st inner
  end.

Definition attr_text (attrs : gmap string Attribute) (name : string) : string :=
  match attrs !! name with
  | None => ""
  | Some attr => if bool_decide (name = "type") && (at_string attr).2 then at_source attr
                 else (at_string attr).1
  end.

Definition attr_bool (attrs : gmap string Attribute) (name : string) (old : bool) : bool :=
  default old (attrs !! name ≫= at_bool).

Definition apply_port (s : Schema) (kv : string * gmap string Attribute) : Schema :=
  let '(key, attrs) := kv in
  let '(kind, name, _) := cut "."%char key in
  let sensitive := attr_bool attrs "sensitive" false in
  if decide (kind = "variable") then
    let v := MkVariable name (attr_text attrs "type") (attr_text attrs "description") sensitive
               (attr_text attrs "deprecated") (bool_decide (attrs !! "default" = None))
               (Some (attr_bool attrs "nullable" true)) (attrs !! "default" ≫= at_value)
               (attr_bool attrs "ephemeral" false) (attr_bool attrs "const" false) in
    let cmp := match attrs !! "default" with
               | Some attr => <[key := {[ "default" := at_identity attr ]}]> (s_comparison s)
               | None => s_comparison s
               end in
    MkSchema (s_RequiresTofuFiles s) (<[name := v]> (s_Variables s)) (s_Outputs s) (s_OutputDetails s)
      (s_Backend s) (s_BackendConfig s) (s_BackendAttributes s) (s_BackendConfigKnown s) cmp
  else
    MkSchema (s_RequiresTofuFiles s) (s_Variables s) (s_Outputs s)
      (<[name := MkOutput name (attr_text attrs "type") (attr_text attrs "description") sensitive
                   (attr_text attrs "deprecated")]> (s_OutputDetails s))
      (s_Backend s) (s_BackendConfig s) (s_BackendAttributes s) (s_BackendConfigKnown s) (s_comparison s).

Definition applyPortMetadata `{MapOrder} (s : Schema) (ports : gmap string (gmap string Attribute)) : Schema :=
  foldl apply_port s (range ports).

Definition inspectDeclarations `{MapOrder} (schema : Schema) (files : list ParsedFile) : Schema :=
  let s0 := set_backend schema (s_Backend schema) (s_BackendConfig schema) (s_BackendAttributes schema) true ∅ in
  let st := foldl (λ st f, foldl (inspect_block (pf_override f)) st (pf_blocks f))
              (MkDeclState s0 false ∅) files in
  let s := applyPortMetadata (ds_schema st) (ds_ports st) in
  if bool_decide (s_Backend s = "") && ds_cloud st
  then set_backend s "cloud" (s_BackendConfig s) (s_BackendAttributes s) (s_BackendConfigKnown s) (s_comparison s)
  else s.

(** ** [Inspect]

    [ReadDir] is the file system, [LoadModule] is
    [tfconfig.LoadModuleFromFilesystem] over the selected files (the variables
    and outputs it finds), [ParseFile] the HCL parser on one selected file. *)
Section Inspect.
Context `{MapOrder}.
Context (ReadDir : string → result (list DirEntry)).
Context (LoadModule : list moduleFile → string → result (gmap string VariableDecl * gmap string Output)).
Context (ParseFile : moduleFile → option ParsedFile).

Definition is_tofu_file (f : moduleFile) : bool :=
  has_suffix (mf_physical f) ".tofu" || has_suffix (mf_physical f) ".tofu.json".

Definition inspect_mode (dir : string) (mode : FileMode) : result Schema :=
  files ← selectedFiles dir (ReadDir dir) mode;
  '(vars, outs) ← wrap_err (λ err, Errorf "inspecting module at %s: %s" [FStr dir; FErr err])
                    (LoadModule files dir);
  let schema := MkSchema (existsb is_tofu_file files) vars ((λ _, true) <$> outs) outs
                  "" ∅ None false ∅ in
  Ok (inspectDeclarations schema (omap ParseFile files)).

Definition set_tofu (s : Schema) (b : bool) : Schema :=
  MkSchema b (s_Variables s) (s_Outputs s) (s_OutputDetails s) (s_Backend s) (s_BackendConfig s)
    (s_BackendAttributes s) (s_BackendConfigKnown s) (s_comparison s).

Definition Inspect (dir : string) (mode : FileMode) : result Schema :=
  match mode with
  | UnknownFiles =>
    terraform ← inspect_mode dir TerraformFiles;
    tofu ← inspect_mode dir OpenTofuFiles;
    if decide (terraform = set_tofu tofu false) then Ok terraform
    else Err (Errorf ("inspecting module at %s: runtime binary is ambiguous and Terraform/OpenTofu declarations differ; use the canonical binary "
                +:+ dquote +:+ "terraform" +:+ dquote +:+ " or " +:+ dquote +:+ "tofu" +:+ dquote
                +:+ " on PATH, or make both declarations agree") [FStr dir])
  | _ => inspect_mode dir mode
  end.
End Inspect.

Definition is_null (v : value) : bool := match v with VNull => true | _ => false end.
