(* ===== verification/Graph.v ===== *)
(** The resolved graph (src/internal/graph/build.go, the types [Node] and
    [Graph]): nodes by qualified name, the edge list, and the two adjacency
    maps that mirror it.  [adj_wf] is the invariant tying the adjacency maps to
    the edge list (multiplicities and order included); every operation of the
    graph package is proved against it and [Expand.build] establishes it. *)
From S2P Require Import Prelude GoLib Blueprint Module.

(** [graph.Node]; [Runtime] and [Schema] are pointers, [ObservationError] an error value. *)
Record GNode := MkGNode {
  n_Node : Blueprint.Node;
  n_Schema : option Schema;
  n_ObservationError : option error;
  n_Dir : string;
  n_Runtime : option Runtime;
  n_Env : gmap string string;
  n_Approve : Approve;
}.

Record Graph := MkGraph {
  g_Nodes : gmap string GNode;
  g_Edges : list Edge;
  g_Out : gmap string (list string);
  g_In : gmap string (list string);
  g_Lock : option Lock;
  g_Contracts : option Contracts;
  g_ContractMode : string;
  g_Snapshots : bool;
}.

(** Reading a missing key of [Out] or [In] gives the nil slice. *)
Definition out (g : Graph) (n : string) : list string := default [] (g_Out g !! n).
Definition in_ (g : Graph) (n : string) : list string := default [] (g_In g !! n).

Definition push_adj (m : gmap string (list string)) (k v : string) : gmap string (list string) :=
  <[k := default [] (m !! k) ++ [v]]> m.

(** The three appends every edge is added with. *)
Definition add_edge (g : Graph) (e : Edge) : Graph :=
  MkGraph (g_Nodes g) (g_Edges g ++ [e])
    (push_adj (g_Out g) (pr_Node (e_From e)) (pr_Node (e_To e)))
    (push_adj (g_In g) (pr_Node (e_To e)) (pr_Node (e_From e)))
    (g_Lock g) (g_Contracts g) (g_ContractMode g) (g_Snapshots g).

Definition set_node (g : Graph) (name : string) (n : GNode) : Graph :=
  MkGraph (<[name := n]> (g_Nodes g)) (g_Edges g) (g_Out g) (g_In g)
    (g_Lock g) (g_Contracts g) (g_ContractMode g) (g_Snapshots g).

Definition set_contracts (g : Graph) (c : option Contracts) : Graph :=
  MkGraph (g_Nodes g) (g_Edges g) (g_Out g) (g_In g) (g_Lock g) c (g_ContractMode g) (g_Snapshots g).

Definition empty_graph : Graph := MkGraph ∅ [] ∅ ∅ None None "" false.

Definition names (g : Graph) : list string := sorted_keys (g_Nodes g).

(** ** The invariant *)

Definition targets (n : string) (es : list Edge) : list string :=
  omap (λ e, if decide (pr_Node (e_From e) = n) then Some (pr_Node (e_To e)) else None) es.
Definition sources (n : string) (es : list Edge) : list string :=
  omap (λ e, if decide (pr_Node (e_To e) = n) then Some (pr_Node (e_From e)) else None) es.

Definition adj_wf (g : Graph) : Prop :=
  ∀ n, out g n = targets n (g_Edges g) ∧ in_ g n = sources n (g_Edges g).

(** Every edge joins two nodes of the graph. *)
Definition closed (g : Graph) : Prop :=
  ∀ e, e ∈ g_Edges g →
    is_Some (g_Nodes g !! pr_Node (e_From e)) ∧ is_Some (g_Nodes g !! pr_Node (e_To e)).

#[export] Instance closed_dec g : Decision (closed g).
Proof.
  refine (cast_if (decide (Forall (λ e, is_Some (g_Nodes g !! pr_Node (e_From e)) ∧
    is_Some (g_Nodes g !! pr_Node (e_To e))) (g_Edges g))));
    unfold closed; rewrite <-Forall_forall; done.
Defined.

(** The precedence relation, and reachability along it. *)
Definition edge (g : Graph) (a b : string) : Prop := b ∈ out g a.
Definition reaches (g : Graph) : relation string := rtc (edge g).
Definition cyclic (g : Graph) : Prop := ∃ n, tc (edge g) n n.
Definition acyclic (g : Graph) : Prop := ∀ n, ¬ tc (edge g) n n.

(** The adjacency of the node-level relation alone: what the traversals need. *)
Definition dangling_free (g : Graph) : Prop :=
  ∀ a b, edge g a b → is_Some (g_Nodes g !! a) ∧ is_Some (g_Nodes g !! b).

Lemma targets_app n es1 es2 : targets n (es1 ++ es2) = targets n es1 ++ targets n es2.
Proof. apply omap_app. Qed.
Lemma sources_app n es1 es2 : sources n (es1 ++ es2) = sources n es1 ++ sources n es2.
Proof. apply omap_app. Qed.

Lemma targets_cons n e es : targets n (e :: es) =
  if decide (pr_Node (e_From e) = n) then pr_Node (e_To e) :: targets n es else targets n es.
Proof. unfold targets. simpl. by case_decide. Qed.
Lemma sources_cons n e es : sources n (e :: es) =
  if decide (pr_Node (e_To e) = n) then pr_Node (e_From e) :: sources n es else sources n es.
Proof. unfold sources. simpl. by case_decide. Qed.

Lemma elem_of_targets n m es :
  m ∈ targets n es ↔ ∃ e, e ∈ es ∧ pr_Node (e_From e) = n ∧ pr_Node (e_To e) = m.
Proof. unfold targets. rewrite list_elem_of_omap. split; intros (e & ? & ?); exists e; case_decide; naive_solver. Qed.
Lemma elem_of_sources n m es :
  m ∈ sources n es ↔ ∃ e, e ∈ es ∧ pr_Node (e_To e) = n ∧ pr_Node (e_From e) = m.
Proof. unfold sources. rewrite list_elem_of_omap. split; intros (e & ? & ?); exists e; case_decide; naive_solver. Qed.

Lemma edge_iff g a b : adj_wf g →
  edge g a b ↔ ∃ e, e ∈ g_Edges g ∧ pr_Node (e_From e) = a ∧ pr_Node (e_To e) = b.
Proof. intros Hwf. unfold edge. rewrite (proj1 (Hwf a)). apply elem_of_targets. Qed.

Lemma elem_of_in g a b : adj_wf g → a ∈ in_ g b ↔ edge g a b.
Proof.
  intros Hwf. rewrite edge_iff by done. rewrite (proj2 (Hwf b)), elem_of_sources. naive_solver.
Qed.

Lemma closed_dangling_free g : adj_wf g → closed g → dangling_free g.
Proof. intros Hwf Hc a b. rewrite edge_iff by done. intros (e & He & <- & <-). by apply Hc. Qed.

Lemma push_adj_lookup m k v n :
  default [] (push_adj m k v !! n) = default [] (m !! n) ++ (if decide (k = n) then [v] else []).
Proof.
  unfold push_adj. case_decide; subst.
  - by rewrite lookup_insert_eq.
  - rewrite lookup_insert_ne by done. by rewrite app_nil_r.
Qed.

Lemma empty_graph_wf : adj_wf empty_graph.
Proof. intros n. split; done. Qed.

Lemma add_edge_wf g e : adj_wf g → adj_wf (add_edge g e).
Proof.
  intros Hwf n. unfold out, in_; simpl. rewrite !push_adj_lookup, targets_app, sources_app.
  fold (out g n) (in_ g n). rewrite (proj1 (Hwf n)), (proj2 (Hwf n)).
  split; f_equal; simpl; by case_decide.
Qed.

Lemma add_edges_wf es g : adj_wf g → adj_wf (foldl add_edge g es).
Proof. revert g; induction es; simpl; eauto using add_edge_wf. Qed.

Lemma add_edges_Edges es g : g_Edges (foldl add_edge g es) = g_Edges g ++ es.
Proof. revert g; induction es as [|e es IH]; intros g; simpl; [by rewrite app_nil_r|]. rewrite IH; simpl. by rewrite <-(assoc_L (++)). Qed.

Lemma add_edges_Nodes es g : g_Nodes (foldl add_edge g es) = g_Nodes g.
Proof. revert g; induction es as [|e es IH]; intros g; simpl; [done|]. by rewrite IH. Qed.

Lemma add_edges_Contracts es g : g_Contracts (foldl add_edge g es) = g_Contracts g.
Proof. revert g; induction es as [|e es IH]; intros g; simpl; [done|]. by rewrite IH. Qed.

Lemma set_node_wf g name n : adj_wf g → adj_wf (set_node g name n).
Proof. done. Qed.

Lemma set_contracts_wf g c : adj_wf g → adj_wf (set_contracts g c).
Proof. done. Qed.

Lemma names_elem g n : n ∈ names g ↔ is_Some (g_Nodes g !! n).
Proof. apply sorted_keys_elem. Qed.

Lemma names_NoDup g : NoDup (names g).
Proof. apply sorted_keys_NoDup. Qed.

Lemma names_length g : length (names g) = size (g_Nodes g).
Proof. apply sorted_keys_length. Qed.

#[export] Hint Resolve empty_graph_wf add_edge_wf add_edges_wf set_node_wf set_contracts_wf
  names_NoDup closed_dangling_free : terragraph.

(** ** Graphs from edge lists, for concrete inputs *)
Definition plain_node (name : string) : GNode :=
  MkGNode (MkNode ∅ ∅ name "./m" ∅ None ∅ "" ∅ "") None None "/m" None ∅ "".
Definition plain_graph (ns : list string) (es : list (string * string)) : Graph :=
  foldl add_edge
    (foldl (λ g n, set_node g n (plain_node n)) empty_graph ns)
    ((λ p, MkEdge (bare p.1) (bare p.2)) <$> es).

Lemma plain_graph_wf ns es : adj_wf (plain_graph ns es).
Proof.
  apply add_edges_wf. assert (∀ g, adj_wf g → adj_wf (foldl (λ g n, set_node g n (plain_node n)) g ns)) as H.
  { induction ns; simpl; eauto with terragraph. }
  auto with terragraph.
Qed.
