(* ===== verification/Tarjan.v ===== *)
(** Cycle detection (src/internal/graph/tarjan.go and [FindCycle] of
    validate.go): Tarjan's algorithm as written, with its five maps and its
    stack, and the proof that it returns exactly the cyclic strongly connected
    components, each once, in a deterministic order.

    The recursion is not structural; [strongConnect] takes fuel and returns
    [None] when it runs out, and [strongConnect_spec] shows that one more than
    the number of unvisited vertices is enough. *)
From S2P Require Import Prelude GoLib Blueprint Module Graph.

Local Open Scope Z_scope.

(** The variables captured by the closure.  Go appends to the end of [stack];
    here the top of the stack is the head of the list. *)
Record tstate := MkTState {
  t_index : Z;
  t_indices : gmap string Z;
  t_lowlink : gmap string Z;
  t_onStack : gmap string bool;
  t_stack : list string;
  t_sccs : list (list string);
}.

Definition idx (st : tstate) (v : string) : Z := default 0 (t_indices st !! v).
Definition low (st : tstate) (v : string) : Z := default 0 (t_lowlink st !! v).
Definition on_stack (st : tstate) (v : string) : bool := default false (t_onStack st !! v).

Definition set_low (st : tstate) (v : string) (z : Z) : tstate :=
  MkTState (t_index st) (t_indices st) (<[v := z]> (t_lowlink st)) (t_onStack st) (t_stack st) (t_sccs st).

Definition enter (st : tstate) (v : string) : tstate :=
  MkTState (t_index st + 1) (<[v := t_index st]> (t_indices st)) (<[v := t_index st]> (t_lowlink st))
    (<[v := true]> (t_onStack st)) (v :: t_stack st) (t_sccs st).

Definition isCyclic (g : Graph) (scc : list string) : bool :=
  match scc with
  | _ :: _ :: _ => true
  | [n] => mem n (out g n)
  | [] => false
  end.

(** The popping loop: everything down to [v] leaves the stack. *)
Fixpoint pop_until (v : string) (stack : list string) : list string * list string :=
  match stack with
  | [] => ([], [])
  | w :: rest => if decide (w = v) then ([w], rest)
                 else let '(scc, rest') := pop_until v rest in (w :: scc, rest')
  end.

Definition emit (g : Graph) (st : tstate) (v : string) : tstate :=
  let '(scc, rest) := pop_until v (t_stack st) in
  MkTState (t_index st) (t_indices st) (t_lowlink st)
    (foldl (λ m w, <[w := false]> m) (t_onStack st) scc) rest
    (if isCyclic g scc then t_sccs st ++ [sort_strings scc] else t_sccs st).

(** One iteration of the loop over the successors, [rec] being the recursive call. *)
Definition visit (rec : string → tstate → option tstate) (v : string) (st : tstate) (w : string) :
    option tstate :=
  match t_indices st !! w with
  | None =>
    st' ← rec w st;
    Some (if decide (low st' w < low st' v) then set_low st' v (low st' w) else st')
  | Some _ =>
    if on_stack st w then
      Some (if decide (idx st w < low st v) then set_low st v (idx st w) else st)
    else Some st
  end.

Fixpoint strongConnect (fuel : nat) (g : Graph) (v : string) (st : tstate) : option tstate :=
  match fuel with
  | O => None
  | S f =>
    st' ← foldO (visit (strongConnect f g) v) (enter st v) (sort_strings (out g v));
    Some (if decide (low st' v = idx st' v) then emit g st' v else st')
  end.

Definition init_tstate : tstate := MkTState 0 ∅ ∅ ∅ [] [].

(** Vertices the search can meet: nodes, and whatever an adjacency list names. *)
Definition universe (g : Graph) : list string :=
  remove_dups (names g ++ concat (map_to_list (g_Out g)).*2).
Definition tarjan_fuel (g : Graph) : nat := S (length (universe g)).

Definition root_step (g : Graph) (st : tstate) (name : string) : option tstate :=
  match t_indices st !! name with
  | Some _ => Some st
  | None => strongConnect (tarjan_fuel g) g name st
  end.

Definition head_le (a b : list string) : Prop := String.le (hd "" a) (hd "" b).
#[export] Instance head_le_dec : RelDecision head_le.
Proof. intros a b. unfold head_le. apply _. Defined.
#[export] Instance head_le_trans : Transitive head_le.
Proof. intros a b c. unfold head_le. intros. by etrans. Qed.
#[export] Instance head_le_total : Total head_le.
Proof. intros a b. unfold head_le. apply (total String.le). Qed.

(** [sort.Slice] by first element; the heads of distinct components differ. *)
Definition find_cycles_opt (g : Graph) : option (list (list string)) :=
  st ← foldO (root_step g) init_tstate (names g);
  Some (merge_sort head_le (t_sccs st)).

Definition FindCycles (g : Graph) : list (list string) := default [] (find_cycles_opt g).

Definition FindCycle (g : Graph) : list string :=
  match FindCycles g with [] => [] | c :: _ => c end.

Example FindCycles_ex :
  FindCycles (plain_graph ["a"; "b"; "c"; "d"; "e"] [("a","b"); ("b","c"); ("c","b"); ("c","d"); ("e","e")])
  = [["b"; "c"]; ["e"]].
Proof. vm_compute. reflexivity. Qed.

(** ** Correctness *)

Section Tarjan.
Context (g : Graph).
Notation E := (edge g).
Notation R := (rtc (edge g)).

Definition indexed (st : tstate) (v : string) : Prop := is_Some (t_indices st !! v).
Definition finished (st : tstate) (v : string) : Prop := indexed st v ∧ v ∉ t_stack st.
Definition connected (a b : string) : Prop := R a b ∧ R b a.

(** A cyclic strongly connected component, as a list. *)
Definition cyclic_scc (c : list string) : Prop :=
  c ≠ [] ∧ ∀ a, a ∈ c → tc E a a ∧ ∀ b, b ∈ c ↔ connected a b.

(** The invariant, [G] being the vertices whose call is in progress. *)
Record inv (st : tstate) (G : list string) : Prop := {
  inv_nodup : NoDup (t_stack st);
  inv_onstack v : on_stack st v = true ↔ v ∈ t_stack st;
  inv_indexed v : v ∈ t_stack st → indexed st v;
  inv_sorted : StronglySorted (λ a b, idx st b < idx st a) (t_stack st);
  inv_pos : 0 ≤ t_index st;
  inv_bound v : indexed st v → 0 ≤ idx st v < t_index st;
  inv_gray v : v ∈ G → v ∈ t_stack st;
  inv_black a b : indexed st a → a ∉ G → E a b → indexed st b;
  inv_done a b : finished st a → E a b → finished st b;
  inv_up a b : a ∈ t_stack st → b ∈ t_stack st → idx st a ≤ idx st b → R a b;
  inv_back b : b ∈ t_stack st → ∃ a, a ∈ G ∧ idx st a ≤ idx st b ∧ R b a;
  inv_scc c : c ∈ t_sccs st → cyclic_scc c ∧ StronglySorted String.le c ∧ ∀ a, a ∈ c → finished st a;
  inv_found a : finished st a → tc E a a → ∃ c, c ∈ t_sccs st ∧ a ∈ c;
  inv_once : NoDup (concat (t_sccs st));
}.

(** What later states keep of earlier ones. *)
Definition extends (st st' : tstate) : Prop :=
  t_index st ≤ t_index st' ∧
  ∀ a, indexed st a → t_indices st' !! a = t_indices st !! a ∧ t_lowlink st' !! a = t_lowlink st !! a.

Lemma extends_indexed st st' a : extends st st' → indexed st a → indexed st' a.
Proof. intros [_ H] Ha. unfold indexed. by rewrite (proj1 (H a Ha)). Qed.
Lemma extends_idx st st' a : extends st st' → indexed st a → idx st' a = idx st a.
Proof. intros [_ H] Ha. unfold idx. by rewrite (proj1 (H a Ha)). Qed.
Lemma extends_low st st' a : extends st st' → indexed st a → low st' a = low st a.
Proof. intros [_ H] Ha. unfold low. by rewrite (proj2 (H a Ha)). Qed.

(** Finished vertices reach only finished ones. *)
Lemma finished_closed st G a b : inv st G → finished st a → R a b → finished st b.
Proof. intros Hinv Ha Hab. induction Hab; eauto using inv_done. Qed.

Lemma inv_low_irrel st v z G : inv st G → inv (set_low st v z) G.
Proof. intros [???????????? Hf ?]. split; auto. Qed.

Lemma sorted_app_idx st s v t :
  StronglySorted (λ a b, idx st b < idx st a) (s ++ v :: t) →
  (∀ a, a ∈ s → idx st v < idx st a) ∧ (∀ a, a ∈ t → idx st a < idx st v).
Proof.
  rewrite StronglySorted_app. intros (Hs & _ & Hvt). split.
  - intros a Ha. apply Hs; [done|by left].
  - intros a Ha. apply StronglySorted_cons in Hvt as [Hv _]. rewrite Forall_forall in Hv. auto.
Qed.

Lemma white_not_stack st G v : inv st G → ¬ indexed st v → v ∉ t_stack st.
Proof. intros Hinv Hv Hin. by apply Hv, (inv_indexed _ _ Hinv). Qed.

Lemma enter_lookup_ne st v a : a ≠ v → t_indices (enter st v) !! a = t_indices st !! a.
Proof. intros. simpl. by rewrite lookup_insert_ne by done. Qed.

Lemma enter_idx st v : idx (enter st v) v = t_index st.
Proof. unfold idx; simpl. by rewrite lookup_insert_eq. Qed.

Lemma enter_low st v : low (enter st v) v = t_index st.
Proof. unfold low; simpl. by rewrite lookup_insert_eq. Qed.

Lemma enter_idx_ne st v a : a ≠ v → idx (enter st v) a = idx st a.
Proof. intros. unfold idx. by rewrite enter_lookup_ne. Qed.

Lemma enter_indexed st v a : indexed (enter st v) a ↔ a = v ∨ indexed st a.
Proof.
  unfold indexed; simpl. destruct (decide (a = v)) as [->|Hne].
  - rewrite lookup_insert_eq. naive_solver.
  - rewrite lookup_insert_ne by done. naive_solver.
Qed.

Lemma enter_finished st v a : ¬ indexed st v → finished (enter st v) a ↔ finished st a.
Proof.
  intros Hv. unfold finished. rewrite enter_indexed. simpl. rewrite not_elem_of_cons. naive_solver.
Qed.

Lemma enter_extends st v : ¬ indexed st v → extends st (enter st v).
Proof.
  intros Hv. split; [simpl; lia|]. intros a Ha.
  assert (v ≠ a) by naive_solver. simpl. by rewrite !lookup_insert_ne.
Qed.

Lemma enter_on_stack st v a : on_stack (enter st v) a = true ↔ a = v ∨ on_stack st a = true.
Proof.
  unfold on_stack; simpl. destruct (decide (a = v)) as [->|Hne].
  - rewrite lookup_insert_eq. naive_solver.
  - rewrite lookup_insert_ne by done. naive_solver.
Qed.

Lemma enter_sorted st G v : inv st G → ¬ indexed st v →
  StronglySorted (λ a b, idx (enter st v) b < idx (enter st v) a) (t_stack (enter st v)).
Proof.
  intros Hinv Hv.
  assert (∀ a, a ∈ t_stack st → a ≠ v) as Hne by (intros a Ha ->; by eapply white_not_stack).
  simpl. constructor.
  - assert (∀ l, (∀ a, a ∈ l → a ≠ v) → StronglySorted (λ a b, idx st b < idx st a) l →
      StronglySorted (λ a b, idx (enter st v) b < idx (enter st v) a) l) as Hl.
    { intros l Hl. induction 1 as [|a l Hs IH Ha]; constructor.
      - apply IH. intros b Hb. apply Hl. by right.
      - rewrite Forall_forall in Ha |- *. intros b Hb.
        rewrite !enter_idx_ne; [auto|apply Hl; by left|apply Hl; by right]. }
    apply Hl; [done|apply Hinv].
  - apply Forall_forall. intros a Ha. rewrite enter_idx, enter_idx_ne by auto.
    apply (inv_bound _ _ Hinv). by apply (inv_indexed _ _ Hinv).
Qed.

Lemma enter_inv st G v :
  inv st G → ¬ indexed st v → (∀ a, a ∈ G → R a v) → inv (enter st v) (v :: G).
Proof.
  intros Hinv Hv HG.
  assert (∀ a, a ∈ t_stack st → a ≠ v) as Hne by (intros a Ha ->; by eapply white_not_stack).
  assert (∀ a, a ∈ t_stack st → idx st a < t_index st) as Hlt.
  { intros a Ha. apply (inv_bound _ _ Hinv). by apply (inv_indexed _ _ Hinv). }
  split.
  - simpl. constructor; [by eapply white_not_stack|apply Hinv].
  - intros a. rewrite enter_on_stack, (inv_onstack _ _ Hinv). simpl. by rewrite elem_of_cons.
  - intros a. simpl. rewrite elem_of_cons, enter_indexed. intros [->|Ha]; [by left|right].
    by apply (inv_indexed _ _ Hinv).
  - by eapply enter_sorted.
  - simpl. pose proof (inv_pos _ _ Hinv). lia.
  - intros a. rewrite enter_indexed. intros Ha. destruct (decide (a = v)) as [->|Hav].
    + rewrite enter_idx. simpl. pose proof (inv_pos _ _ Hinv). lia.
    + rewrite enter_idx_ne by done. destruct Ha as [->|Ha]; [done|].
      pose proof (inv_bound _ _ Hinv a Ha). simpl. lia.
  - intros a. simpl. rewrite !elem_of_cons. intros [->|Ha]; [by left|right]. by apply (inv_gray _ _ Hinv).
  - intros a b. rewrite !enter_indexed, not_elem_of_cons. intros Ha [? ?] Hab.
    destruct Ha as [->|Ha]; [done|]. right. by eapply (inv_black _ _ Hinv).
  - intros a b. rewrite !enter_finished by done. apply (inv_done _ _ Hinv).
  - intros a b. simpl. rewrite !elem_of_cons. intros [->|Ha] [->|Hb] Hle; [done| | |].
    + rewrite enter_idx, enter_idx_ne in Hle by auto. specialize (Hlt b Hb). lia.
    + destruct (inv_back _ _ Hinv a Ha) as (x & Hx & _ & Hr). etrans; [done|auto].
    + rewrite !enter_idx_ne in Hle by auto. by apply (inv_up _ _ Hinv).
  - intros b. simpl. rewrite elem_of_cons. intros [->|Hb].
    + exists v. split; [by left|done].
    + destruct (inv_back _ _ Hinv b Hb) as (x & Hx & Hle & Hr).
      exists x. split; [by right|]. rewrite !enter_idx_ne; [done|auto|apply Hne; by apply (inv_gray _ _ Hinv)].
  - intros c Hc. destruct (inv_scc _ _ Hinv c Hc) as (H1 & H2 & H3). split_and!; [done..|].
    intros a Ha. rewrite enter_finished by done. auto.
  - intros a. rewrite enter_finished by done. apply (inv_found _ _ Hinv).
  - apply (inv_once _ _ Hinv).
Qed.

(** ** What a call and its loop establish *)

Record post (st : tstate) (G : list string) (v : string) (st' : tstate) : Prop := {
  po_inv : inv st' G;
  po_ext : extends st st';
  po_new : t_indices st' !! v = Some (t_index st);
  po_stack : ∃ s, t_stack st' = s ++ t_stack st ∧
    ∀ x y, x ∈ s → y ∈ t_stack st → E x y → low st' v ≤ idx st' y;
  po_low : low st' v ≤ idx st' v;
  po_wit : ∃ y, idx st' y = low st' v ∧ R v y ∧ (y ∈ t_stack st' ∨ y = v);
}.

Record loop_inv (st : tstate) (G : list string) (v : string) (pre : list string) (st' : tstate) : Prop := {
  lp_inv : inv st' (v :: G);
  lp_ext : extends st st';
  lp_new : t_indices st' !! v = Some (t_index st);
  lp_lowdef : is_Some (t_lowlink st' !! v);
  lp_index : t_index st < t_index st';
  lp_done w : w ∈ pre → indexed st' w;
  lp_stack : ∃ s, t_stack st' = s ++ v :: t_stack st ∧
    ∀ x y, (x ∈ s ∧ E x y) ∨ (x = v ∧ y ∈ pre) → y ∈ t_stack st → low st' v ≤ idx st' y;
  lp_low : low st' v ≤ idx st' v;
  lp_wit : ∃ y, y ∈ t_stack st' ∧ idx st' y = low st' v ∧ R v y;
}.

Lemma lookup_idx st v i : t_indices st !! v = Some i → idx st v = i ∧ indexed st v.
Proof. intros H. unfold idx, indexed. by rewrite H. Qed.

Lemma textends_trans st1 st2 st3 : extends st1 st2 → extends st2 st3 → extends st1 st3.
Proof.
  intros [H1 H1'] [H2 H2']. split; [lia|]. intros a Ha.
  destruct (H1' a Ha) as [E1 E2]. destruct (H2' a) as [E3 E4]; [by unfold indexed; rewrite E1|].
  by rewrite E3, E4.
Qed.

Lemma extends_set_low st st' v z : extends st st' → ¬ indexed st v → extends st (set_low st' v z).
Proof.
  intros [H1 H2] Hv. split; [done|]. intros a Ha. assert (v ≠ a) by naive_solver. simpl.
  rewrite lookup_insert_ne by done. auto.
Qed.

Lemma set_low_eq st v z : low (set_low st v z) v = z.
Proof. unfold low; simpl. by rewrite lookup_insert_eq. Qed.

Lemma enter_loop_inv st G v :
  inv st G → ¬ indexed st v → (∀ a, a ∈ G → R a v) → loop_inv st G v [] (enter st v).
Proof.
  intros Hinv Hv HG. split.
  - by apply enter_inv.
  - by apply enter_extends.
  - simpl. by rewrite lookup_insert_eq.
  - simpl. rewrite lookup_insert_eq. by eexists.
  - simpl. lia.
  - intros w Hw. by apply elem_of_nil in Hw.
  - exists []. split; [done|]. intros x y [[Hx _]|[_ Hy]]; set_solver.
  - rewrite enter_idx, enter_low. done.
  - exists v. rewrite enter_idx, enter_low. split_and!; [by left|done|done].
Qed.

(** Lowering [lowlink[v]] to the index of a stack vertex [v] reaches keeps
    the loop invariant; it is how both branches of the loop body end. *)
Lemma loop_lower st G v pre w st' z s :
  inv st' (v :: G) → extends st st' → ¬ indexed st v →
  t_indices st' !! v = Some (t_index st) → t_index st < t_index st' →
  (∀ u, u ∈ pre ++ [w] → indexed st' u) →
  t_stack st' = s ++ v :: t_stack st →
  z ≤ idx st' v →
  (∃ y, y ∈ t_stack st' ∧ idx st' y = z ∧ R v y) →
  (∀ x y, (x ∈ s ∧ E x y) ∨ (x = v ∧ y ∈ pre ++ [w]) → y ∈ t_stack st → z ≤ idx st' y) →
  loop_inv st G v (pre ++ [w]) (set_low st' v z).
Proof.
  intros Hinv Hext Hv Hnew Hidx Hdone Hs Hz Hwit Hcross. split.
  - by apply inv_low_irrel.
  - by apply extends_set_low.
  - done.
  - simpl. rewrite lookup_insert_eq. by eexists.
  - done.
  - done.
  - exists s. split; [done|]. intros x y Hxy Hy. rewrite set_low_eq. by eapply Hcross.
  - by rewrite set_low_eq.
  - by rewrite set_low_eq.
Qed.

Lemma set_low_id st v z : t_lowlink st !! v = Some z → set_low st v z = st.
Proof. intros H. destruct st; unfold set_low; simpl in *. by rewrite insert_id. Qed.

(** Both branches write the minimum. *)
Lemma low_self st v : is_Some (t_lowlink st !! v) → set_low st v (low st v) = st.
Proof. intros [l Hl]. apply set_low_id. unfold low. by rewrite Hl. Qed.

Lemma lower_min st v z : is_Some (t_lowlink st !! v) →
  (if decide (z < low st v) then set_low st v z else st) = set_low st v (Z.min z (low st v)).
Proof.
  intros [l Hl]. case_decide as Hlt.
  - by rewrite Z.min_l by lia.
  - rewrite Z.min_r by lia. symmetry. apply set_low_id. unfold low. by rewrite Hl.
Qed.

Lemma loop_stack_indexed st G v pre st' y :
  inv st G → loop_inv st G v pre st' → y ∈ t_stack st → indexed st y ∧ idx st' y = idx st y.
Proof.
  intros Hinv Hl Hy. pose proof (inv_indexed _ _ Hinv y Hy) as Hi. split; [done|].
  eapply extends_idx; [apply Hl|done].
Qed.

(** A successor already visited. *)
Lemma visit_seen st G v pre st2 w rec :
  inv st G → ¬ indexed st v → loop_inv st G v pre st2 → E v w → indexed st2 w →
  ∃ st3, visit rec v st2 w = Some st3 ∧ loop_inv st G v (pre ++ [w]) st3.
Proof.
  intros Hinv Hv Hl Hvw Hw. pose proof Hw as [i Hi]. unfold visit. rewrite Hi.
  destruct (lp_stack _ _ _ _ _ Hl) as (s & Hs & Hcross).
  destruct (lp_wit _ _ _ _ _ Hl) as (y0 & Hy0 & Hy0i & Hy0r).
  pose proof (lp_low _ _ _ _ _ Hl) as Hlow.
  assert (∀ u, u ∈ pre ++ [w] → indexed st2 u) as Hdone.
  { intros u [Hu| ->%list_elem_of_singleton]%elem_of_app; [by apply (lp_done _ _ _ _ _ Hl)|done]. }
  destruct (on_stack st2 w) eqn:Hon.
  - rewrite lower_min by apply Hl. eexists; split; [done|].
    apply (inv_onstack _ _ (lp_inv _ _ _ _ _ Hl)) in Hon.
    eapply loop_lower; [apply Hl|apply Hl|done|apply Hl|apply Hl|done|done|lia| |].
    + destruct (decide (idx st2 w < low st2 v)).
      * exists w. split_and!; [done|lia|by apply rtc_once].
      * exists y0. split_and!; [done|lia|done].
    + intros x y [Hx|[-> Hy]] Hyst.
      * specialize (Hcross x y (or_introl Hx) Hyst). lia.
      * apply elem_of_app in Hy as [Hy| ->%list_elem_of_singleton]; [|lia].
        specialize (Hcross v y (or_intror (conj eq_refl Hy)) Hyst). lia.
  - exists (set_low st2 v (low st2 v)). split; [by rewrite low_self by apply Hl|].
    eapply loop_lower; [apply Hl|apply Hl|done|apply Hl|apply Hl|done|done|lia|by eauto|].
    intros x y [Hx|[-> Hy]] Hyst.
    + apply (Hcross x y (or_introl Hx) Hyst).
    + apply elem_of_app in Hy as [Hy| ->%list_elem_of_singleton].
      * apply (Hcross v y (or_intror (conj eq_refl Hy)) Hyst).
      * assert (w ∈ t_stack st2) as Hin by (rewrite Hs; set_solver).
        apply (inv_onstack _ _ (lp_inv _ _ _ _ _ Hl)) in Hin. congruence.
Qed.

(** A successor visited by the recursive call. *)
Lemma visit_white st G v pre st2 w rec st3 :
  inv st G → ¬ indexed st v → loop_inv st G v pre st2 → E v w → ¬ indexed st2 w →
  rec w st2 = Some st3 → post st2 (v :: G) w st3 →
  ∃ st4, visit rec v st2 w = Some st4 ∧ loop_inv st G v (pre ++ [w]) st4.
Proof.
  intros Hinv Hv Hl Hvw Hw Hrec Hp. unfold visit.
  destruct (t_indices st2 !! w) eqn:Hi; [by destruct Hw; eexists|].
  rewrite Hrec; simpl. pose proof (po_ext _ _ _ _ Hp) as Hext23.
  destruct (lookup_idx _ _ _ (lp_new _ _ _ _ _ Hl)) as [Hvidx Hvin].
  destruct (lookup_idx _ _ _ (po_new _ _ _ _ Hp)) as [Hwidx Hwin].
  pose proof (extends_idx _ _ _ Hext23 Hvin) as Hv3.
  pose proof (extends_low _ _ _ Hext23 Hvin) as Hlv3.
  destruct (lp_stack _ _ _ _ _ Hl) as (s & Hs & Hcross).
  destruct (po_stack _ _ _ _ Hp) as (s3 & Hs3 & Hcross3).
  pose proof (lp_low _ _ _ _ _ Hl) as Hlow. pose proof (lp_index _ _ _ _ _ Hl) as Hix.
  assert (∀ y, y ∈ t_stack st2 → idx st3 y = idx st2 y) as Hkeep.
  { intros y Hy. apply (extends_idx _ _ _ Hext23), (inv_indexed _ _ (lp_inv _ _ _ _ _ Hl)), Hy. }
  rewrite lower_min.
  2:{ rewrite (proj2 (proj2 Hext23 v Hvin)). apply Hl. }
  eexists; split; [done|].
  eapply (loop_lower _ _ _ _ _ _ _ (s3 ++ s)); [apply Hp| |done| | | | | | |].
  - eapply textends_trans; [apply Hl|done].
  - rewrite (proj1 (proj2 Hext23 v Hvin)). apply Hl.
  - pose proof (proj1 Hext23). lia.
  - intros u [Hu| ->%list_elem_of_singleton]%elem_of_app; [|done].
    eapply extends_indexed, (lp_done _ _ _ _ _ Hl); done.
  - by rewrite Hs3, Hs, (assoc_L (++)).
  - lia.
  - destruct (decide (low st3 w < low st2 v)).
    + destruct (po_wit _ _ _ _ Hp) as (y & Hyi & Hyr & Hy).
      assert (y ∈ t_stack st3) as Hin.
      { destruct Hy as [Hy| ->]; [done|]. exfalso. lia. }
      exists y. split_and!; [done|lia|by eapply rtc_l].
    + destruct (lp_wit _ _ _ _ _ Hl) as (y & Hy & Hyi & Hyr).
      exists y. split_and!; [rewrite Hs3; set_solver|rewrite Hkeep by done; lia|done].
  - intros x y Hxy Hyst.
    assert (y ∈ t_stack st2) as Hy2 by (rewrite Hs; set_solver). rewrite (Hkeep y Hy2).
    destruct Hxy as [[[Hx|Hx]%elem_of_app Hxy]|[-> Hy]].
    + specialize (Hcross3 x y Hx Hy2 Hxy). rewrite Hkeep in Hcross3 by done. lia.
    + specialize (Hcross x y (or_introl (conj Hx Hxy)) Hyst). lia.
    + apply elem_of_app in Hy as [Hy| ->%list_elem_of_singleton].
      * specialize (Hcross v y (or_intror (conj eq_refl Hy)) Hyst). lia.
      * destruct Hw. eapply extends_indexed, (inv_indexed _ _ Hinv), Hyst. apply Hl.
Qed.

(** ** Leaving a vertex that is not a root of its component *)
Lemma leave_inner st G v st2 :
  inv st G → ¬ indexed st v → (∀ a, a ∈ G → R a v) →
  loop_inv st G v (sort_strings (out g v)) st2 → low st2 v ≠ idx st2 v →
  post st G v st2.
Proof.
  intros Hinv Hv HG Hl Hne.
  pose proof (lp_low _ _ _ _ _ Hl) as Hlow. pose proof (lp_inv _ _ _ _ _ Hl) as Hi2.
  destruct (lp_wit _ _ _ _ _ Hl) as (y0 & Hy0 & Hy0i & Hy0r).
  destruct (lp_stack _ _ _ _ _ Hl) as (s & Hs & Hcross).
  (* some older vertex in progress is reachable from v and below it *)
  assert (∃ a, a ∈ G ∧ idx st2 a < idx st2 v ∧ R v a) as (a & Ha & Hai & Har).
  { destruct (inv_back _ _ Hi2 y0 Hy0) as (a & Ha & Hai & Har).
    apply elem_of_cons in Ha as [->|Ha]; [lia|]. exists a. split_and!; [done|lia|by etrans]. }
  split.
  - destruct Hi2. split; try done.
    + intros x Hx. apply inv_gray0. by right.
    + intros x y Hx Hxg Hxy. destruct (decide (x = v)) as [->|Hxv].
      * apply (lp_done _ _ _ _ _ Hl). by rewrite sort_strings_elem.
      * eapply inv_black0; [done| |done]. by apply not_elem_of_cons.
    + intros b Hb. destruct (inv_back0 b Hb) as (x & Hx & Hxi & Hxr).
      apply elem_of_cons in Hx as [->|Hx]; [|by eauto].
      exists a. split_and!; [done|lia|by etrans].
  - apply Hl.
  - apply Hl.
  - exists (s ++ [v]). split; [by rewrite Hs, <-(assoc_L (++))|].
    intros x y [Hx| ->%list_elem_of_singleton]%elem_of_app Hy Hxy; [by eauto|].
    apply (Hcross v y); [|done]. right. by rewrite sort_strings_elem.
  - done.
  - exists y0. eauto.
Qed.

(** ** Emitting a component *)

Lemma pop_until_app v s t : v ∉ s → pop_until v (s ++ v :: t) = (s ++ [v], t).
Proof.
  induction s as [|a s IH]; simpl; intros Hv.
  - by rewrite decide_True.
  - apply not_elem_of_cons in Hv as [? ?]. rewrite decide_False by done. by rewrite IH.
Qed.

Lemma foldl_insert_false (m : gmap string bool) l a :
  default false (foldl (λ m w, <[w := false]> m) m l !! a) = true ↔
  default false (m !! a) = true ∧ a ∉ l.
Proof.
  revert m. induction l as [|b l IH]; intros m; simpl; [set_solver|].
  rewrite IH, not_elem_of_cons. destruct (decide (a = b)) as [->|Hne].
  - rewrite lookup_insert_eq. naive_solver.
  - rewrite lookup_insert_ne by done. naive_solver.
Qed.

Section Component.
Context (st : tstate) (G : list string) (v : string) (st2 : tstate) (s : list string).
Context (Hinv : inv st G) (Hv : ¬ indexed st v) (HG : ∀ a, a ∈ G → R a v).
Context (Hl : loop_inv st G v (sort_strings (out g v)) st2).
Context (Hroot : low st2 v = idx st2 v).
Context (Hs : t_stack st2 = s ++ v :: t_stack st).
Context (Hcross : ∀ x y, (x ∈ s ∧ E x y) ∨ (x = v ∧ y ∈ sort_strings (out g v)) →
                  y ∈ t_stack st → low st2 v ≤ idx st2 y).

Let Hi2 : inv st2 (v :: G) := lp_inv _ _ _ _ _ Hl.

Lemma comp_order : (∀ a, a ∈ s → idx st2 v < idx st2 a) ∧
  (∀ a, a ∈ t_stack st → idx st2 a < idx st2 v).
Proof. apply sorted_app_idx. rewrite <-Hs. apply (inv_sorted _ _ Hi2). Qed.

Lemma comp_nodup : NoDup (s ++ [v]) ∧ v ∉ s ∧ ∀ a, a ∈ s ++ [v] → a ∉ t_stack st.
Proof.
  pose proof (inv_nodup _ _ Hi2) as Hnd. rewrite Hs in Hnd.
  assert (s ++ v :: t_stack st = (s ++ [v]) ++ t_stack st) as Heq by by rewrite <-(assoc_L (++)).
  rewrite Heq in Hnd. apply NoDup_app in Hnd as (H1 & H2 & _). split_and!; [done| |done].
  apply NoDup_app in H1 as (_ & H1 & _). intros Hin. by apply (H1 v Hin), list_elem_of_singleton.
Qed.

Lemma comp_stack a : a ∈ s ++ [v] → a ∈ t_stack st2.
Proof. rewrite Hs. set_solver. Qed.

Lemma comp_connected a : a ∈ s ++ [v] → connected v a.
Proof.
  intros Ha. pose proof (comp_stack _ Ha) as Hast. destruct comp_order as [Ho1 Ho2].
  assert (idx st2 v ≤ idx st2 a) as Hle.
  { apply elem_of_app in Ha as [Ha| ->%list_elem_of_singleton]; [|done]. specialize (Ho1 a Ha). lia. }
  split; [apply (inv_up _ _ Hi2); [apply comp_stack; set_solver|done|done]|].
  destruct (inv_back _ _ Hi2 a Hast) as (x & Hx & _ & Hxr).
  apply elem_of_cons in Hx as [->|Hx]; [done|]. etrans; [done|by apply HG].
Qed.

Lemma comp_edge a b : a ∈ s ++ [v] → E a b → b ∈ s ++ [v] ∨ finished st2 b.
Proof.
  intros Ha Hab. destruct comp_nodup as (_ & Hvs & Hdisj). destruct comp_order as [_ Ho2].
  assert (indexed st2 b) as Hb.
  { apply elem_of_app in Ha as [Ha| ->%list_elem_of_singleton].
    - eapply (inv_black _ _ Hi2); [|  |done].
      + apply (inv_indexed _ _ Hi2). rewrite Hs. set_solver.
      + apply not_elem_of_cons. split; [naive_solver|]. intros HaG.
        apply (Hdisj a); [set_solver|]. by apply (inv_gray _ _ Hinv).
    - apply (lp_done _ _ _ _ _ Hl). by rewrite sort_strings_elem. }
  destruct (decide (b ∈ t_stack st2)) as [Hin|Hnin]; [|by right].
  rewrite Hs, elem_of_app, elem_of_cons in Hin. destruct Hin as [Hin|[->|Hin]]; [set_solver..|].
  exfalso. specialize (Ho2 b Hin).
  assert (low st2 v ≤ idx st2 b); [|lia]. eapply Hcross; [|done].
  apply elem_of_app in Ha as [Ha| ->%list_elem_of_singleton]; [left; by split|].
  right. split; [done|]. by rewrite sort_strings_elem.
Qed.

Lemma comp_closed b : R v b → b ∈ s ++ [v] ∨ finished st2 b.
Proof.
  revert b. apply rtc_ind_r; [left; set_solver|].
  intros b c _ Hbc [Hin|Hf]; [by eapply comp_edge|right]. by eapply (inv_done _ _ Hi2).
Qed.

Lemma comp_scc a b : a ∈ s ++ [v] → b ∈ s ++ [v] ↔ connected a b.
Proof.
  intros Ha. destruct (comp_connected a Ha) as [Hva Hav]. split.
  - intros [Hvb Hbv]%comp_connected. split; by etrans.
  - intros [Hab Hba]. destruct (comp_closed b) as [Hb|Hb]; [by etrans|done|].
    exfalso. assert (R b v) as Hbv by by etrans.
    destruct (finished_closed _ _ _ _ Hi2 Hb Hbv) as [_ Hns].
    apply Hns, comp_stack. set_solver.
Qed.

Let c := s ++ [v].

Lemma comp_cyclic : isCyclic g c = true → cyclic_scc c.
Proof.
  intros Hc. split; [by destruct s|]. intros a Ha. split; [|by intros b; apply comp_scc].
  pose proof comp_nodup as (_ & Hvs & _). unfold c in Ha, Hc.
  destruct (decide (s = [])) as [Hs0|Hne].
  - rewrite Hs0 in Ha, Hc. apply list_elem_of_singleton in Ha as ->. simpl in Hc. apply mem_true in Hc. by apply tc_once.
  - assert (∃ b, b ∈ s ++ [v] ∧ b ≠ a) as (b & Hb & Hba).
    { destruct (decide (a = v)) as [->|]; [|exists v; split; [set_solver|congruence]].
      clear -Hne Hvs. destruct s as [|x s']; [done|]. exists x. split; set_solver. }
    apply (comp_scc a b Ha) in Hb as [Hab Hb].
    apply rtc_tc in Hab as [->|Hab]; [done|]. by eapply tc_rtc_r.
Qed.

Lemma comp_acyclic : isCyclic g c = false → s = [] ∧ ¬ tc E v v.
Proof.
  intros Hc. unfold c in Hc.
  assert (s = []) as Hs0 by (clear -Hc; destruct s as [|x [|y l]]; [done|discriminate Hc..]).
  split; [done|]. intros Htc. rewrite Hs0 in Hc. simpl in Hc. apply mem_false in Hc. apply Hc.
  destruct (tc_first _ _ _ Htc) as (x & Hvx & Hxv).
  assert (x ∈ s ++ [v]) as Hx.
  { apply (comp_scc v x); [set_solver|]. split; [by apply rtc_once|done]. }
  rewrite Hs0 in Hx. apply list_elem_of_singleton in Hx as ->. done.
Qed.

Lemma emit_eq : emit g st2 v = MkTState (t_index st2) (t_indices st2) (t_lowlink st2)
  (foldl (λ m w, <[w := false]> m) (t_onStack st2) c) (t_stack st)
  (if isCyclic g c then t_sccs st2 ++ [sort_strings c] else t_sccs st2).
Proof.
  unfold emit. rewrite Hs, pop_until_app; [done|apply comp_nodup].
Qed.

Lemma emit_finished a : finished (emit g st2 v) a ↔ finished st2 a ∨ a ∈ c.
Proof.
  rewrite emit_eq. unfold finished, indexed; simpl. rewrite Hs. unfold c in *. split.
  - intros [Ha Hat]. destruct (decide (a ∈ s ++ [v])); [by right|left]. set_solver.
  - intros [[Ha Hat]|Ha]; [set_solver|]. split.
    + apply (inv_indexed _ _ Hi2), comp_stack, Ha.
    + by apply comp_nodup.
Qed.

Lemma emit_inv : inv (emit g st2 v) G.
Proof.
  pose proof comp_nodup as (Hnd & Hvs & Hdisj). pose proof comp_order as [Ho1 Ho2].
  assert (∀ a, idx (emit g st2 v) a = idx st2 a) as Hidx by by rewrite emit_eq.
  assert (∀ a, indexed (emit g st2 v) a ↔ indexed st2 a) as Hix by by rewrite emit_eq.
  assert (t_stack (emit g st2 v) = t_stack st) as Hst by by rewrite emit_eq.
  assert (∀ a, a ∈ t_stack st → a ∈ t_stack st2) as Hsub by (rewrite Hs; set_solver).
  split; rewrite ?Hst.
  - apply (inv_nodup _ _ Hinv).
  - intros a. rewrite emit_eq. unfold on_stack; simpl. rewrite foldl_insert_false.
    change (default false (t_onStack st2 !! a)) with (on_stack st2 a).
    rewrite (inv_onstack _ _ Hi2), Hs. unfold c in *. set_solver.
  - intros a Ha. apply Hix, (inv_indexed _ _ Hi2). auto.
  - pose proof (inv_sorted _ _ Hi2) as Hsrt. rewrite Hs in Hsrt.
    rewrite StronglySorted_app in Hsrt. destruct Hsrt as (_ & _ & Hsrt).
    apply StronglySorted_cons in Hsrt as [_ Hsrt]. by rewrite emit_eq.
  - rewrite emit_eq. apply (inv_pos _ _ Hi2).
  - intros a. rewrite Hix, Hidx. rewrite emit_eq. apply (inv_bound _ _ Hi2).
  - intros a Ha. by apply (inv_gray _ _ Hinv).
  - intros a b. rewrite !Hix. intros Ha HaG Hab. destruct (decide (a = v)) as [->|Hav].
    + apply (lp_done _ _ _ _ _ Hl). by rewrite sort_strings_elem.
    + eapply (inv_black _ _ Hi2); [done| |done]. by apply not_elem_of_cons.
  - intros a b. rewrite !emit_finished. intros [Ha|Ha] Hab.
    + left. by eapply (inv_done _ _ Hi2).
    + destruct (comp_edge a b Ha Hab); auto.
  - intros a b Ha Hb. rewrite !Hidx. apply (inv_up _ _ Hi2); auto.
  - intros b Hb. destruct (inv_back _ _ Hi2 b (Hsub b Hb)) as (a & Ha & Hai & Har).
    exists a. rewrite !Hidx. apply elem_of_cons in Ha as [->|Ha]; [|done].
    specialize (Ho2 b Hb). lia.
  - intros d Hd. assert (d ∈ t_sccs st2 ∨ isCyclic g c = true ∧ d = sort_strings c) as [Hd'|[Hc ->]].
    { rewrite emit_eq in Hd. simpl in Hd. destruct (isCyclic g c); [|by left].
      apply elem_of_app in Hd as [Hd| ->%list_elem_of_singleton]; auto. }
    + destruct (inv_scc _ _ Hi2 d Hd') as (H1 & H2 & H3). split_and!; [done..|].
      intros a Ha. apply emit_finished. auto.
    + destruct (comp_cyclic Hc) as [Hne Hscc]. split_and!.
      * split; [by rewrite sort_strings_nil_iff|]. intros a. rewrite sort_strings_elem. intros Ha.
        destruct (Hscc a Ha) as [Htc Hb]. split; [done|]. intros b. by rewrite sort_strings_elem.
      * apply sort_strings_sorted.
      * intros a. rewrite sort_strings_elem, emit_finished. auto.
  - intros a. rewrite emit_finished. intros [Ha|Ha] Htc.
    + destruct (inv_found _ _ Hi2 a Ha Htc) as (d & Hd & Had). exists d. split; [|done].
      rewrite emit_eq. simpl. destruct (isCyclic g c); set_solver.
    + rewrite emit_eq. simpl. destruct (isCyclic g c) eqn:Hc.
      * exists (sort_strings c). rewrite sort_strings_elem. split; [set_solver|done].
      * destruct (comp_acyclic Hc) as [Hs0 Hn]. unfold c in *. rewrite Hs0 in Ha.
        apply list_elem_of_singleton in Ha as ->. done.
  - rewrite emit_eq; simpl. destruct (isCyclic g c); [|apply (inv_once _ _ Hi2)].
    rewrite concat_app. apply NoDup_app. split_and!; [apply (inv_once _ _ Hi2)| |].
    + intros a Ha. simpl. rewrite app_nil_r, sort_strings_elem.
      apply elem_of_concat in Ha as (d & Hd & Ha). destruct (inv_scc _ _ Hi2 d Hd) as (_ & _ & Hf).
      destruct (Hf a Ha) as [_ Hns]. intros Hac. by apply Hns, comp_stack.
    + simpl. rewrite app_nil_r. by apply sort_strings_NoDup.
Qed.

Lemma emit_post : post st G v (emit g st2 v).
Proof.
  split.
  - apply emit_inv.
  - rewrite emit_eq. apply Hl.
  - rewrite emit_eq. apply Hl.
  - exists []. split; [by rewrite emit_eq|]. intros x y Hx. by apply elem_of_nil in Hx.
  - rewrite emit_eq. apply (lp_low _ _ _ _ _ Hl).
  - exists v. split_and!; [by rewrite emit_eq|done|by right].
Qed.
End Component.

(** ** The recursion *)

Definition whites (st : tstate) : list string :=
  filter (λ u, t_indices st !! u = None) (universe g).

Lemma universe_edge a b : E a b → b ∈ universe g.
Proof.
  unfold edge, out, universe. intros Hb. destruct (g_Out g !! a) as [l|] eqn:Ha; [|by apply elem_of_nil in Hb].
  rewrite elem_of_remove_dups, elem_of_app, elem_of_concat. right. exists l. split; [|done].
  apply list_elem_of_fmap. exists (a, l). split; [done|]. by apply elem_of_map_to_list.
Qed.

Lemma universe_name a : a ∈ names g → a ∈ universe g.
Proof. unfold universe. rewrite elem_of_remove_dups, elem_of_app. auto. Qed.

Lemma whites_submseteq st st' : (∀ a, indexed st a → indexed st' a) → whites st' ⊆+ whites st.
Proof.
  intros Hext. apply NoDup_submseteq; [apply NoDup_filter, NoDup_remove_dups|].
  intros u. unfold whites. rewrite !list_elem_of_filter, !eq_None_not_Some.
  intros [Hu ?]. split; [|done]. intros Hi. by apply Hu, Hext.
Qed.

Lemma whites_enter st v : ¬ indexed st v → v ∈ universe g →
  (length (whites (enter st v)) < length (whites st))%nat.
Proof.
  intros Hv Hu.
  assert (v :: whites (enter st v) ⊆+ whites st) as Hsub.
  { apply NoDup_submseteq.
    - constructor; [|apply NoDup_filter, NoDup_remove_dups].
      unfold whites. rewrite list_elem_of_filter. simpl. rewrite lookup_insert_eq. naive_solver.
    - intros u. rewrite elem_of_cons. intros [->|Hin].
      + unfold whites. rewrite list_elem_of_filter. split; [|done].
        destruct (t_indices st !! v) eqn:H; [destruct Hv; by eexists|done].
      + eapply elem_of_submseteq; [done|]. apply whites_submseteq. intros a. rewrite enter_indexed. auto. }
  apply submseteq_length in Hsub. simpl in Hsub. lia.
Qed.

Lemma indexed_dec st v : {indexed st v} + {¬ indexed st v}.
Proof. apply is_Some_dec. Qed.

Lemma finish_call st G v st2 :
  inv st G → ¬ indexed st v → (∀ a, a ∈ G → R a v) →
  loop_inv st G v (sort_strings (out g v)) st2 →
  post st G v (if decide (low st2 v = idx st2 v) then emit g st2 v else st2).
Proof.
  intros Hinv Hv HG Hl. case_decide as Hroot; [|by apply leave_inner].
  destruct (lp_stack _ _ _ _ _ Hl) as (s & Hs & Hcross). by eapply emit_post.
Qed.

(** Fuel above the number of unvisited vertices is enough, and the call does
    what it promises. *)
Lemma strongConnect_spec fuel : ∀ v st G,
  inv st G → ¬ indexed st v → (∀ a, a ∈ G → R a v) → v ∈ universe g →
  (length (whites st) <= fuel)%nat →
  ∃ st', strongConnect fuel g v st = Some st' ∧ post st G v st'.
Proof.
  induction fuel as [|fuel IH]; intros v st G Hinv Hv HG Hu Hfuel.
  - pose proof (whites_enter st v Hv Hu). lia.
  - pose proof (whites_enter st v Hv Hu) as Hw. simpl.
    destruct (foldO_total (visit (strongConnect fuel g) v) (loop_inv st G v) (sort_strings (out g v)))
      with (s := enter st v) as (st2 & Hst2 & Hl).
    + intros pre w rest st2 Heq Hl.
      assert (E v w) as Hvw by (apply (sort_strings_elem w (out g v)); rewrite Heq; set_solver).
      destruct (indexed_dec st2 w) as [Hw2|Hw2]; [by apply visit_seen|].
      destruct (IH w st2 (v :: G)) as (st3 & Hst3 & Hp); [apply Hl|done| | | |by eapply visit_white].
      * intros a [->|Ha]%elem_of_cons; [by apply rtc_once|]. eapply rtc_r; [by apply HG|done].
      * by eapply universe_edge.
      * assert (whites st2 ⊆+ whites (enter st v)) as Hsub; [|apply submseteq_length in Hsub; lia].
        apply whites_submseteq. intros a [->|Ha]%enter_indexed.
        -- eexists. apply Hl.
        -- eapply extends_indexed; [apply Hl|done].
    + by apply enter_loop_inv.
    + rewrite Hst2. simpl. eexists; split; [done|]. by apply finish_call.
Qed.

Lemma init_inv : inv init_tstate [].
Proof.
  assert (∀ a, ¬ indexed init_tstate a) as Hno.
  { intros a. unfold indexed; simpl. rewrite lookup_empty. by intros [? ?]. }
  assert (∀ a, ¬ finished init_tstate a) as Hnf by (intros a [Ha _]; by eapply Hno).
  split; simpl; solve [constructor | lia | intros; set_solver | intros; exfalso; naive_solver].
Qed.

Lemma inv_empty_stack st : inv st [] → t_stack st = [].
Proof.
  intros Hinv. destruct (t_stack st) as [|a l] eqn:Hs; [done|].
  destruct (inv_back _ _ Hinv a) as (x & Hx & _); [rewrite Hs; by left|]. by apply elem_of_nil in Hx.
Qed.

(** The outer loop visits every node; nothing is left on the stack. *)
Lemma roots_spec : ∃ st, foldO (root_step g) init_tstate (names g) = Some st ∧
  inv st [] ∧ t_stack st = [] ∧ ∀ a, a ∈ names g → finished st a.
Proof.
  destruct (foldO_total (root_step g) (λ pre st, inv st [] ∧ ∀ a, a ∈ pre → indexed st a) (names g))
    with (s := init_tstate) as (st & Hst & Hinv & Hall).
  - intros pre a rest st Heq [Hinv Hpre]. unfold root_step.
    destruct (t_indices st !! a) as [i|] eqn:Ha.
    + exists st. split_and!; [done..|]. intros b [Hb| ->%list_elem_of_singleton]%elem_of_app; [auto|by eexists].
    + destruct (strongConnect_spec (tarjan_fuel g) a st []) as (st' & Hst' & Hp); [done| | | | |].
      * intros [? ?]; congruence.
      * intros b Hb. by apply elem_of_nil in Hb.
      * apply universe_name. rewrite Heq. set_solver.
      * unfold tarjan_fuel, whites. pose proof (length_filter (λ u, t_indices st !! u = None) (universe g)). lia.
      * exists st'. split_and!; [done|apply Hp|].
        intros b [Hb| ->%list_elem_of_singleton]%elem_of_app; [|eexists; apply Hp].
        eapply extends_indexed; [apply Hp|auto].
  - split; [apply init_inv|]. intros a Ha. by apply elem_of_nil in Ha.
  - pose proof (inv_empty_stack _ Hinv) as Hs. exists st. split_and!; [done..|].
    intros a Ha. split; [auto|]. rewrite Hs. apply not_elem_of_nil.
Qed.

(** Everything proved about the result, for the theorems below. *)
Lemma find_cycles_main :
  (∀ c, c ∈ FindCycles g → cyclic_scc c ∧ StronglySorted String.le c) ∧
  (∀ n a, n ∈ names g → R n a → tc E a a → ∃ c, c ∈ FindCycles g ∧ a ∈ c) ∧
  NoDup (concat (FindCycles g)) ∧
  StronglySorted head_le (FindCycles g) ∧
  find_cycles_opt g = Some (FindCycles g).
Proof.
  destruct roots_spec as (st & Hst & Hinv & Hs & Hfin).
  unfold FindCycles, find_cycles_opt. rewrite Hst; simpl.
  pose proof (merge_sort_Permutation head_le (t_sccs st)) as Hp. split_and!.
  - intros c. rewrite Hp. intros Hc. destruct (inv_scc _ _ Hinv c Hc) as (? & ? & _). done.
  - intros n a Hn Hna Htc. assert (finished st a) as Ha by (eapply finished_closed; eauto).
    destruct (inv_found _ _ Hinv a Ha Htc) as (c & Hc & Hac). exists c. by rewrite Hp.
  - rewrite Hp. apply (inv_once _ _ Hinv).
  - apply StronglySorted_merge_sort; apply _.
  - done.
Qed.
End Tarjan.

(** ** Consequences used by the other files *)

Lemma FindCycles_nil g : dangling_free g → FindCycles g = [] ↔ acyclic g.
Proof.
  intros Hd. destruct (find_cycles_main g) as (H1 & H2 & _). split.
  - intros Hnil a Ha. assert (a ∈ names g) as Hn.
    { rewrite names_elem. destruct (tc_first _ _ _ Ha) as (x & Hx & _). by apply Hd in Hx as [? _]. }
    destruct (H2 a a Hn (rtc_refl _ _) Ha) as (c & Hc & _). rewrite Hnil in Hc. by apply elem_of_nil in Hc.
  - intros Hac. destruct (FindCycles g) as [|c l]; [done|]. exfalso.
    destruct (H1 c) as [[Hne Hc] _]; [by left|]. destruct c as [|a c]; [done|].
    destruct (Hc a) as [Ha _]; [by left|]. by apply (Hac a).
Qed.

Lemma FindCycle_cyclic g : dangling_free g → cyclic g → cyclic_scc g (FindCycle g).
Proof.
  intros Hd [a Ha]. destruct (find_cycles_main g) as (H1 & _). unfold FindCycle.
  destruct (FindCycles g) as [|c l] eqn:Heq; [|apply H1; by left].
  exfalso. apply FindCycles_nil in Heq; [|done]. by apply (Heq a).
Qed.

Lemma cyclic_scc_ext g c d a : cyclic_scc g c → cyclic_scc g d → a ∈ c → a ∈ d →
  StronglySorted str_lt c → StronglySorted str_lt d → c = d.
Proof.
  intros [_ Hc] [_ Hd] Hac Had Hsc Hsd.
  apply (StronglySorted_unique String.le); [by apply StronglySorted_lt_le..|].
  apply NoDup_Permutation; [by apply StronglySorted_lt_NoDup..|].
  intros b. by rewrite (proj2 (Hc a Hac) b), (proj2 (Hd a Had) b).
Qed.

Lemma NoDup_concat_inv {A} (L : list (list A)) c : NoDup (concat L) → c ∈ L → NoDup c.
Proof.
  induction L as [|h L IH]; simpl; [set_solver|]. intros (H1 & _ & H2)%NoDup_app [->|Hc]%elem_of_cons; auto.
Qed.

Lemma NoDup_concat_NoDup {A} (L : list (list A)) : NoDup (concat L) → (∀ c, c ∈ L → c ≠ []) → NoDup L.
Proof.
  induction L as [|h L IH]; simpl; intros Hnd Hne; constructor.
  - apply NoDup_app in Hnd as (_ & Hd & _). intros Hin.
    destruct h as [|x h]; [by apply (Hne []); [left|]|].
    apply (Hd x); [by left|]. apply elem_of_concat. exists (x :: h). split; [done|by left].
  - apply IH; [by apply NoDup_app in Hnd as (_ & _ & ?)|]. intros c Hc. apply Hne. by right.
Qed.

(** C15: [FindCycles] returns exactly the cyclic strongly connected components
    of the graph (size above one, or a self-edge), each listed once as a
    sorted, duplicate-free slice, the slices in order of their first name;
    the algorithm never runs out of fuel. *)
Theorem FindCycles_exact g : dangling_free g →
  (∀ c, c ∈ FindCycles g ↔ cyclic_scc g c ∧ StronglySorted str_lt c) ∧
  NoDup (FindCycles g) ∧ StronglySorted head_le (FindCycles g) ∧
  find_cycles_opt g = Some (FindCycles g).
Proof.
  intros Hd. destruct (find_cycles_main g) as (H1 & H2 & H3 & H4 & H5).
  assert (∀ c, c ∈ FindCycles g → cyclic_scc g c ∧ StronglySorted str_lt c) as Hsound.
  { intros c Hc. destruct (H1 c Hc) as [? ?]. split; [done|].
    apply sorted_NoDup_lt; [done|]. by eapply NoDup_concat_inv. }
  split_and!; [|apply NoDup_concat_NoDup; [done|]; intros c Hc; by apply Hsound|done|done].
  intros c. split; [apply Hsound|]. intros [Hc Hs]. pose proof Hc as [Hne Hm].
  destruct c as [|a c]; [done|]. destruct (Hm a) as [Htc _]; [by left|].
  destruct (H2 a a) as (d & Hd' & Had); [|apply rtc_refl|done|].
  - apply names_elem. destruct (tc_first _ _ _ Htc) as (x & Hx & _). by apply Hd in Hx as [? _].
  - destruct (Hsound d Hd') as [Hdc Hds].
    by rewrite (cyclic_scc_ext g (a :: c) d a Hc Hdc (list_elem_of_here _ _) Had Hs Hds).
Qed.

Example FindCycles_exact_witness :
  let g := plain_graph ["a"; "b"; "c"] [("a","b"); ("b","c"); ("c","b")] in
  dangling_free g ∧ cyclic_scc g ["b"; "c"].
Proof.
  assert (dangling_free (plain_graph ["a"; "b"; "c"] [("a","b"); ("b","c"); ("c","b")])) as Hd.
  { apply closed_dangling_free; [apply plain_graph_wf|]. apply (bool_decide_unpack _). vm_compute. exact I. }
  split; [exact Hd|]. apply (proj1 (FindCycles_exact _ Hd)). vm_compute. left.
Defined.
