(* ===== verification/Topo.v ===== *)
(** Execution layers (src/internal/graph/topo.go): [Levels] is Kahn's algorithm
    on a countdown of incoming edges, [TopoSort] its flattening.

    The loop is unbounded in the source; here it takes fuel, and [levels_loop_spec]
    shows that one more than the number of nodes is enough.  The proofs rest on one
    exact description of a layer ([ready_levels]): layer i is precisely the
    set of nodes not placed before it whose predecessors all are. *)
From S2P Require Import Prelude GoLib Blueprint Module Graph Tarjan.

Local Open Scope Z_scope.

(** The names whose countdown is zero, sorted (the map is ranged in any order). *)
Definition level_of (inDegree : gmap string Z) : list string :=
  sorted_keys (filter (λ kv, kv.2 = 0) inDegree).

(** [if _, ok := inDegree[m]; ok { inDegree[m]-- }] *)
Definition decr (inDegree : gmap string Z) (m : string) : gmap string Z :=
  match inDegree !! m with Some d => <[m := d - 1]> inDegree | None => inDegree end.

Definition place_node (g : Graph) (inDegree : gmap string Z) (n : string) : gmap string Z :=
  foldl decr (delete n inDegree) (out g n).

Fixpoint levels_loop (fuel : nat) (g : Graph) (inDegree : gmap string Z)
    (levels : list (list string)) (placed : Z) : option (list (list string) * Z) :=
  match fuel with
  | O => None
  | S f =>
    let level := level_of inDegree in
    if decide (level = []) then Some (levels, placed)
    else levels_loop f g (foldl (place_node g) inDegree level) (levels ++ [level])
           (placed + Z.of_nat (length level))
  end.

Definition init_degrees (g : Graph) : gmap string Z :=
  map_imap (λ name _, Some (Z.of_nat (length (in_ g name)))) (g_Nodes g).

Definition levels_fuel (g : Graph) : nat := S (size (g_Nodes g)).

Definition Levels (g : Graph) : result (list (list string)) :=
  let '(levels, placed) := default ([], 0) (levels_loop (levels_fuel g) g (init_degrees g) [] 0) in
  if decide (placed = Z.of_nat (size (g_Nodes g))) then Ok levels
  else Err (Errorf "blueprint graph has a cycle involving nodes: %s" [FStr (join (FindCycle g) ", ")]).

Definition TopoSort (g : Graph) : result (list string) :=
  levels ← Levels g; Ok (concat levels).

Example Levels_ex : Levels (plain_graph ["a"; "b"; "c"; "d"] [("a","c"); ("b","c"); ("c","d"); ("a","d")])
  = Ok [["a"; "b"]; ["c"]; ["d"]].
Proof. vm_compute. reflexivity. Qed.
Example Levels_ex_cycle : is_ok (Levels (plain_graph ["a"; "b"] [("a","b"); ("b","a")])) = false.
Proof. vm_compute. reflexivity. Qed.

(** ** The countdown *)

Definition occurrences (x : string) (l : list string) : nat := length (filter (λ y, y = x) l).

(** Predecessors of [n] that are not placed, with multiplicity. *)
Definition waiting (g : Graph) (P : list string) (n : string) : nat :=
  length (filter (λ a, a ∉ P) (in_ g n)).

Lemma decr_lookup d m k : decr d m !! k = if decide (k = m) then Z.pred <$> d !! k else d !! k.
Proof.
  unfold decr. destruct (d !! m) as [z|] eqn:Hm; case_decide; subst.
  - by rewrite lookup_insert_eq, Hm.
  - by rewrite lookup_insert_ne.
  - by rewrite Hm.
  - done.
Qed.

Lemma foldl_decr_lookup l d k :
  foldl decr d l !! k = (λ z, z - Z.of_nat (occurrences k l)) <$> d !! k.
Proof.
  revert d. induction l as [|m l IH]; intros d; simpl.
  - destruct (d !! k); simpl; [f_equal; unfold occurrences; simpl; lia|done].
  - rewrite IH, decr_lookup. unfold occurrences. rewrite filter_cons.
    destruct (decide (k = m)) as [->|Hne].
    + rewrite decide_True by done. destruct (d !! m); simpl; [f_equal; lia|done].
    + by rewrite decide_False by congruence.
Qed.

Lemma occurrences_sym g n m : adj_wf g → occurrences m (out g n) = occurrences n (in_ g m).
Proof.
  intros Hwf. rewrite (proj1 (Hwf n)), (proj2 (Hwf m)). unfold occurrences.
  induction (g_Edges g) as [|e es IH]; [done|]. rewrite targets_cons, sources_cons.
  destruct (decide (pr_Node (e_From e) = n)) as [H1|H1], (decide (pr_Node (e_To e) = m)) as [H2|H2];
    rewrite ?filter_cons, ?(decide_True _ _ H1), ?(decide_True _ _ H2),
      ?(decide_False _ _ H1), ?(decide_False _ _ H2); simpl; congruence.
Qed.

Lemma waiting_snoc g P n m : n ∉ P →
  waiting g P m = (waiting g (P ++ [n]) m + occurrences n (in_ g m))%nat.
Proof.
  intros Hn. unfold waiting, occurrences. induction (in_ g m) as [|a l IH]; [done|].
  rewrite !filter_cons. destruct (decide (a = n)) as [->|Hne].
  - rewrite decide_True by done. rewrite decide_False by set_solver. simpl. lia.
  - destruct (decide (a ∈ P)).
    + rewrite !decide_False by set_solver. done.
    + rewrite decide_True by done. rewrite decide_True by set_solver. simpl. lia.
Qed.

Lemma waiting_zero g P n : waiting g P n = 0%nat ↔ ∀ a, a ∈ in_ g n → a ∈ P.
Proof.
  unfold waiting. induction (in_ g n) as [|a l IH]; [set_solver|].
  rewrite filter_cons. destruct (decide (a ∈ P)) as [Ha|Ha].
  - rewrite decide_False by naive_solver. rewrite IH. set_solver.
  - rewrite decide_True by done. simpl. split; [lia|]. intros H. destruct Ha. apply H. by left.
Qed.

(** [d] counts, for every node not placed, the predecessors not placed. *)
Definition countdown (g : Graph) (P : list string) (d : gmap string Z) : Prop :=
  ∀ n, d !! n = if decide (is_Some (g_Nodes g !! n) ∧ n ∉ P)
                then Some (Z.of_nat (waiting g P n)) else None.

Lemma init_countdown g : countdown g [] (init_degrees g).
Proof.
  intros n. unfold init_degrees. rewrite map_lookup_imap.
  assert (waiting g [] n = length (in_ g n)) as ->.
  { unfold waiting. f_equal. induction (in_ g n) as [|a l IH]; [done|].
    rewrite filter_cons, decide_True by apply not_elem_of_nil. by f_equal. }
  by destruct (g_Nodes g !! n).
Qed.

Lemma place_countdown g P d n :
  adj_wf g → countdown g P d → n ∉ P → countdown g (P ++ [n]) (place_node g d n).
Proof.
  intros Hwf Hd Hn m. unfold place_node. rewrite foldl_decr_lookup.
  destruct (decide (m = n)) as [->|Hne].
  - rewrite lookup_delete_eq, decide_False; [done|]. set_solver.
  - rewrite lookup_delete_ne, Hd by done.
    destruct (decide (is_Some (g_Nodes g !! m) ∧ m ∉ P)) as [[Hs Hm]|Hm]; simpl.
    + rewrite decide_True by set_solver. f_equal.
      rewrite (waiting_snoc g P n m Hn), <-(occurrences_sym g n m Hwf). lia.
    + rewrite decide_False by set_solver. done.
Qed.

Lemma place_level_countdown g level : ∀ P d,
  adj_wf g → countdown g P d → NoDup (P ++ level) →
  countdown g (P ++ level) (foldl (place_node g) d level).
Proof.
  induction level as [|n level IH]; intros P d Hwf Hd Hnd; simpl; [by rewrite app_nil_r|].
  rewrite (cons_middle n P level), (assoc_L (++)). apply IH; [done| |by rewrite <-(assoc_L (++))].
  apply place_countdown; [done..|]. apply NoDup_app in Hnd as (_ & Hnd & _). intros Hin.
  apply (Hnd n Hin). by left.
Qed.

(** Membership in the next layer. *)
Definition ready (g : Graph) (P : list string) (n : string) : Prop :=
  is_Some (g_Nodes g !! n) ∧ n ∉ P ∧ ∀ a, a ∈ in_ g n → a ∈ P.

Lemma level_of_elem g P d n : countdown g P d → n ∈ level_of d ↔ ready g P n.
Proof.
  intros Hd. unfold level_of, ready. rewrite sorted_keys_elem, <-waiting_zero. unfold is_Some.
  setoid_rewrite map_lookup_filter_Some. setoid_rewrite Hd. split.
  - intros (z & Hk & Hz). simpl in Hz. case_decide as Hc; [|done]. injection Hk as Hk.
    split_and!; [apply Hc..|lia].
  - intros (Hs & Hn & Hw). exists 0. by rewrite decide_True, Hw.
Qed.

Lemma level_of_sorted d : StronglySorted str_lt (level_of d).
Proof. apply sorted_keys_sorted. Qed.

(** ** The loop *)

(** Every layer is exactly the set of nodes ready once the layers before it
    are placed. *)
Definition ready_levels (g : Graph) (L : list (list string)) : Prop :=
  ∀ i l, L !! i = Some l →
    l ≠ [] ∧ StronglySorted str_lt l ∧ ∀ n, n ∈ l ↔ ready g (concat (take i L)) n.

Lemma ready_levels_snoc g L l :
  ready_levels g L → l ≠ [] → StronglySorted str_lt l → (∀ n, n ∈ l ↔ ready g (concat L) n) →
  ready_levels g (L ++ [l]).
Proof.
  intros HL Hne Hs Hl i k Hi. destruct (decide (i < length L)%nat) as [Hlt|Hge].
  - rewrite lookup_app_l in Hi by done. rewrite take_app_le by lia. by apply HL.
  - rewrite lookup_app_r in Hi by lia. apply list_lookup_singleton_Some in Hi as [Hi <-].
    replace i with (length L) by lia. by rewrite take_app_length.
Qed.

Lemma ready_levels_nodes g L n : ready_levels g L → n ∈ concat L → n ∈ names g.
Proof.
  intros HL Hn. apply elem_of_concat in Hn as (l & [i Hi]%list_elem_of_lookup & Hn).
  apply (HL i l Hi) in Hn as [Hs _]. by apply names_elem.
Qed.

Lemma ready_levels_length g L :
  ready_levels g L → NoDup (concat L) → (length (concat L) <= size (g_Nodes g))%nat.
Proof.
  intros HL Hnd. rewrite <-names_length. apply submseteq_length, NoDup_submseteq; [done|].
  intros n. by apply ready_levels_nodes.
Qed.

Lemma levels_loop_spec g fuel : ∀ d L,
  adj_wf g → countdown g (concat L) d → ready_levels g L → NoDup (concat L) →
  (size (g_Nodes g) < fuel + length (concat L))%nat →
  ∃ L', levels_loop fuel g d L (Z.of_nat (length (concat L))) = Some (L', Z.of_nat (length (concat L')))
    ∧ ready_levels g L' ∧ NoDup (concat L') ∧ ∀ n, ¬ ready g (concat L') n.
Proof.
  induction fuel as [|fuel IH]; intros d L Hwf Hd HL Hnd Hfuel.
  - pose proof (ready_levels_length g L HL Hnd). lia.
  - simpl. case_decide as Hlevel.
    + exists L. split_and!; [done..|]. intros n Hn. apply (level_of_elem g _ d) in Hn; [|done].
      rewrite Hlevel in Hn. by apply elem_of_nil in Hn.
    + assert (concat (L ++ [level_of d]) = concat L ++ level_of d) as Hc
        by (rewrite concat_app; simpl; by rewrite app_nil_r).
      assert (NoDup (concat L ++ level_of d)) as Hnd'.
      { apply NoDup_app. split_and!; [done| |apply StronglySorted_lt_NoDup, level_of_sorted].
        intros n Hn. rewrite level_of_elem by done. unfold ready. naive_solver. }
      destruct (IH (foldl (place_node g) d (level_of d)) (L ++ [level_of d])) as (L' & HL' & Hrest).
      * done.
      * rewrite Hc. by apply place_level_countdown.
      * apply ready_levels_snoc; [done..|apply level_of_sorted|]. intros n. by apply level_of_elem.
      * by rewrite Hc.
      * rewrite Hc, length_app. destruct (level_of d); [done|simpl; lia].
      * exists L'. split; [|done]. rewrite <-HL', Hc, length_app. f_equal. lia.
Qed.

Lemma levels_main g : adj_wf g → ∃ L,
  levels_loop (levels_fuel g) g (init_degrees g) [] 0 = Some (L, Z.of_nat (length (concat L)))
  ∧ ready_levels g L ∧ NoDup (concat L) ∧ ∀ n, ¬ ready g (concat L) n.
Proof.
  intros Hwf. apply (levels_loop_spec g (levels_fuel g) (init_degrees g) []); [done| | | |].
  - apply init_countdown.
  - intros i l Hi. done.
  - constructor.
  - unfold levels_fuel. simpl. lia.
Qed.

(** What a successful answer says, and the converse: the facts every client uses. *)
Lemma Levels_Ok g L : adj_wf g → Levels g = Ok L → ready_levels g L ∧ concat L ≡ₚ names g.
Proof.
  intros Hwf. destruct (levels_main g Hwf) as (L' & HL' & Hr & Hnd & _).
  unfold Levels. rewrite HL'. simpl. case_decide as Hp; [|done]. intros [= <-]. split; [done|].
  apply submseteq_length_Permutation.
  - apply NoDup_submseteq; [done|]. intros n. by apply ready_levels_nodes.
  - rewrite names_length. lia.
Qed.

Lemma ready_levels_edge g L i l b : ready_levels g L → L !! i = Some l → b ∈ l →
  ∀ a, a ∈ in_ g b → ∃ j k, (j < i)%nat ∧ L !! j = Some k ∧ a ∈ k.
Proof.
  intros HL Hi Hb a Ha. apply (HL i l Hi) in Hb as (_ & _ & Hp). specialize (Hp a Ha).
  apply elem_of_concat in Hp as (k & [j Hj]%list_elem_of_lookup & Ha'). exists j, k.
  apply lookup_take_Some in Hj as [Hj ?]. done.
Qed.

(** The index of a node's layer, along a path of the graph. *)
Lemma ready_levels_tc g L a b : adj_wf g → ready_levels g L → concat L ≡ₚ names g →
  dangling_free g → tc (edge g) a b → ∀ j k, L !! j = Some k → b ∈ k →
  ∃ i l, (i < j)%nat ∧ L !! i = Some l ∧ a ∈ l.
Proof.
  intros Hwf HL Hp Hd Hab. induction Hab as [a b Hab|a x b Hax Hxb IH]; intros j k Hj Hb.
  - eapply ready_levels_edge; [done..|]. by rewrite elem_of_in.
  - destruct (IH j k Hj Hb) as (i & l & Hi & Hl & Hx).
    destruct (ready_levels_edge g L i l x HL Hl Hx a) as (i' & l' & ? & ? & ?); [by rewrite elem_of_in|].
    exists i', l'. split_and!; [lia|done..].
Qed.

Lemma concat_NoDup_index {A} (L : list (list A)) i j l k x :
  NoDup (concat L) → L !! i = Some l → L !! j = Some k → x ∈ l → x ∈ k → i = j.
Proof.
  revert i j. induction L as [|h L IH]; intros i j Hnd Hi Hj Hl Hk; [done|].
  simpl in Hnd. apply NoDup_app in Hnd as (_ & Hdis & Hnd).
  assert (∀ n m, L !! n = Some m → x ∈ m → x ∉ h) as Hno.
  { intros n m Hn Hm Hh. apply (Hdis x Hh), elem_of_concat. exists m. split; [|done].
    by eapply list_elem_of_lookup_2. }
  destruct i, j; simpl in *; simplify_eq; [done|exfalso; by eapply Hno..|f_equal; by eapply IH].
Qed.

(** ** Cycles: [Levels] fails exactly on them *)

Lemma unplaced_pred g L n : adj_wf g → dangling_free g → (∀ m, ¬ ready g (concat L) m) →
  n ∈ names g → n ∉ concat L → ∃ a, (a ∈ names g ∧ a ∉ concat L) ∧ edge g a n.
Proof.
  intros Hwf Hd Hno Hn HnL.
  destruct (decide (Forall (λ a, a ∈ concat L) (in_ g n))) as [Hall|Hall].
  - destruct (Hno n). split_and!; [by apply names_elem|done|]. by apply Forall_forall.
  - apply not_Forall_Exists in Hall; [|apply _]. apply Exists_exists in Hall as (a & Ha & HaL).
    apply elem_of_in in Ha; [|done]. exists a. split_and!; [|done|done].
    apply names_elem. by destruct (Hd _ _ Ha).
Qed.

Lemma Levels_acyclic_Ok g : adj_wf g → dangling_free g → acyclic g → ∃ L, Levels g = Ok L.
Proof.
  intros Hwf Hd Hac. destruct (levels_main g Hwf) as (L & HL & Hr & Hnd & Hno).
  unfold Levels. rewrite HL. simpl. case_decide as Hp; [by eexists|]. exfalso.
  destruct (finite_descent (edge g) (filter (λ n, n ∉ concat L) (names g))) as [x Hx].
  - intros Hnil. apply Hp. f_equal. rewrite <-names_length. apply Permutation_length.
    apply NoDup_Permutation; [done|apply names_NoDup|]. intros n. split; [by apply ready_levels_nodes|].
    intros Hn. destruct (decide (n ∈ concat L)) as [|Hni]; [done|]. exfalso.
    assert (n ∈ filter (λ n, n ∉ concat L) (names g)) as Hin by by apply list_elem_of_filter.
    rewrite Hnil in Hin. by apply elem_of_nil in Hin.
  - intros n [HnL Hn]%list_elem_of_filter.
    destruct (unplaced_pred g L n) as (a & [Ha HaL] & Hedge); [done..|].
    exists a. split; [by apply list_elem_of_filter|done].
  - by apply (Hac x).
Qed.

Lemma Levels_Ok_acyclic g L : adj_wf g → dangling_free g → Levels g = Ok L → acyclic g.
Proof.
  intros Hwf Hd HL n Hn. destruct (Levels_Ok g L Hwf HL) as [Hr Hp].
  assert (n ∈ concat L) as Hin.
  { rewrite Hp, names_elem. destruct (tc_first _ _ _ Hn) as (x & Hx & _). by apply Hd in Hx as [? _]. }
  apply elem_of_concat in Hin as (k & [j Hj]%list_elem_of_lookup & Hk).
  destruct (ready_levels_tc g L n n Hwf Hr Hp Hd Hn j k Hj Hk) as (i & l & Hi & Hl & Hnl).
  assert (i = j); [|lia]. eapply concat_NoDup_index; [|done..]. rewrite Hp. apply names_NoDup.
Qed.

(** ** Precedence between layers *)

(** [a] is in a layer strictly before [b]'s. *)
Definition precedes (L : list (list string)) (a b : string) : Prop :=
  ∃ L1 L2, L = L1 ++ L2 ∧ a ∈ concat L1 ∧ b ∈ concat L2.

Lemma index_precedes L i j l k a b :
  (i < j)%nat → L !! i = Some l → L !! j = Some k → a ∈ l → b ∈ k → precedes L a b.
Proof.
  intros Hij Hi Hj Ha Hb. exists (take j L), (drop j L). rewrite take_drop. split_and!; [done| |].
  - apply elem_of_concat. exists l. split; [|done]. eapply list_elem_of_lookup_2.
    by rewrite lookup_take_Some.
  - apply elem_of_concat. exists k. split; [|done]. apply (list_elem_of_lookup_2 _ 0).
    rewrite lookup_drop. by rewrite Nat.add_0_r.
Qed.

Lemma precedes_rev L a b : precedes (rev L) a b ↔ precedes L b a.
Proof.
  assert (∀ L a b, precedes L a b → precedes (rev L) b a) as H.
  { intros L' x y (L1 & L2 & -> & Hx & Hy). exists (rev L2), (rev L1).
    rewrite rev_app_distr. split; [done|]. rewrite !elem_of_concat in *.
    setoid_rewrite list_elem_of_In. setoid_rewrite <-in_rev. setoid_rewrite <-list_elem_of_In. naive_solver. }
  split; intros Hp; [|by apply H]. rewrite <-(rev_involutive L). by apply H.
Qed.

Lemma Levels_precedes g L a b : adj_wf g → dangling_free g → Levels g = Ok L →
  tc (edge g) a b → precedes L a b.
Proof.
  intros Hwf Hd HL Hab. destruct (Levels_Ok g L Hwf HL) as [Hr Hp].
  assert (b ∈ concat L) as Hb.
  { rewrite Hp, names_elem. clear -Hab Hd. induction Hab as [a b H|a x b ? ? IH]; [by destruct (Hd _ _ H)|done]. }
  apply elem_of_concat in Hb as (k & [j Hj]%list_elem_of_lookup & Hk).
  destruct (ready_levels_tc g L a b Hwf Hr Hp Hd Hab j k Hj Hk) as (i & l & ? & ? & ?).
  by eapply index_precedes.
Qed.

(** * Properties *)

(** C10: when [Levels] succeeds, its layers hold every node exactly once, each
    layer is a non-empty sorted duplicate-free list, and every edge leads from
    an earlier layer to a strictly later one. *)
Theorem Levels_sound g L : adj_wf g → closed g → Levels g = Ok L →
  concat L ≡ₚ names g ∧
  (∀ i l, L !! i = Some l → l ≠ [] ∧ StronglySorted str_lt l) ∧
  (∀ e, e ∈ g_Edges g → ∃ i j l k, (i < j)%nat ∧ L !! i = Some l ∧ L !! j = Some k ∧
     pr_Node (e_From e) ∈ l ∧ pr_Node (e_To e) ∈ k).
Proof.
  intros Hwf Hc HL. destruct (Levels_Ok g L Hwf HL) as [Hr Hp]. split_and!; [done| |].
  - intros i l Hi. by destruct (Hr i l Hi) as (? & ? & _).
  - intros e He. assert (pr_Node (e_To e) ∈ concat L) as Hin.
    { rewrite Hp, names_elem. by apply Hc. }
    apply elem_of_concat in Hin as (k & [j Hj]%list_elem_of_lookup & Hk).
    destruct (ready_levels_edge g L j k _ Hr Hj Hk (pr_Node (e_From e))) as (i & l & ? & ? & ?).
    { apply elem_of_in, edge_iff; eauto. }
    by exists i, j, l, k.
Qed.

Example Levels_sound_witness :
  let g := plain_graph ["a"; "b"; "c"] [("a","c"); ("b","c")] in
  Levels g = Ok [["a"; "b"]; ["c"]] ∧ concat [["a"; "b"]; ["c"]] ≡ₚ names g.
Proof.
  assert (Levels (plain_graph ["a"; "b"; "c"] [("a","c"); ("b","c")]) = Ok [["a"; "b"]; ["c"]]) as HL
    by (vm_compute; reflexivity).
  split; [exact HL|].
  apply (Levels_sound _ _ (plain_graph_wf _ _)); [|exact HL].
  apply (bool_decide_unpack _). vm_compute. exact I.
Defined.

(** The layering is the earliest possible one: a node is in the first layer
    exactly when nothing precedes it, and every node of a later layer has a
    predecessor in the layer just before. *)
Theorem Levels_earliest g L i l n : adj_wf g → closed g → Levels g = Ok L →
  L !! i = Some l → n ∈ l →
  match i with
  | O => in_ g n = []
  | S j => ∃ k a, L !! j = Some k ∧ a ∈ k ∧ edge g a n
  end.
Proof.
  intros Hwf Hc HL Hi Hn. destruct (Levels_Ok g L Hwf HL) as [Hr Hp].
  destruct (Hr i l Hi) as (_ & _ & Hl). pose proof (proj1 (Hl n) Hn) as (Hs & Hni & Hpre).
  destruct i as [|j].
  - simpl in Hpre. destruct (in_ g n) as [|a as_]; [done|].
    exfalso. apply (not_elem_of_nil a), Hpre. by left.
  - assert (is_Some (L !! j)) as [k Hj] by (apply lookup_lt_is_Some; apply lookup_lt_Some in Hi; lia).
    exists k. rewrite (take_S_r _ _ _ Hj), concat_app in Hni, Hpre. simpl in Hni, Hpre.
    rewrite app_nil_r in Hni, Hpre.
    destruct (decide (Forall (λ a, a ∈ concat (take j L)) (in_ g n))) as [Hall|Hall].
    + exfalso. apply Hni, elem_of_app. right. apply (Hr j k Hj). split_and!; [done|set_solver|].
      by apply Forall_forall.
    + apply not_Forall_Exists in Hall; [|apply _]. apply Exists_exists in Hall as (a & Ha & Haj).
      exists a. split_and!; [done| |by apply elem_of_in]. specialize (Hpre a Ha). set_solver.
Qed.

Example Levels_earliest_witness :
  let g := plain_graph ["a"; "b"; "c"] [("a","c"); ("b","c")] in
  ∃ k a, [["a"; "b"]; ["c"]] !! 0%nat = Some k ∧ a ∈ k ∧ edge g a "c".
Proof.
  refine (Levels_earliest (plain_graph ["a"; "b"; "c"] [("a","c"); ("b","c")])
    [["a"; "b"]; ["c"]] 1 ["c"] "c" (plain_graph_wf _ _) _ _ eq_refl _).
  - apply (bool_decide_unpack _). vm_compute. exact I.
  - vm_compute. reflexivity.
  - left.
Defined.

(** [Levels] fails exactly on cyclic graphs, and the error then names the
    members of one real cycle, the component [FindCycle] returns. *)
Theorem Levels_fails_iff_cyclic g : adj_wf g → closed g →
  (cyclic g ↔ is_ok (Levels g) = false) ∧
  (∀ e, Levels g = Err e →
     e = Errorf "blueprint graph has a cycle involving nodes: %s" [FStr (join (FindCycle g) ", ")] ∧
     cyclic_scc g (FindCycle g)).
Proof.
  intros Hwf Hc. pose proof (closed_dangling_free g Hwf Hc) as Hd.
  assert (∀ e, Levels g = Err e → cyclic g) as Hcyc.
  { intros e He. assert (FindCycles g ≠ []) as Hne.
    { intros Hnil. apply FindCycles_nil in Hnil; [|done].
      destruct (Levels_acyclic_Ok g Hwf Hd Hnil); congruence. }
    destruct (find_cycles_main g) as (H1 & _). destruct (FindCycles g) as [|c cs]; [done|].
    destruct (H1 c) as [[Hc0 Hm] _]; [by left|]. destruct c as [|a c]; [done|].
    exists a. apply Hm. by left. }
  split; [split|].
  - intros [n Hn]. destruct (Levels g) as [L|e] eqn:HL; [|done].
    destruct (Levels_Ok_acyclic g L Hwf Hd HL n Hn).
  - destruct (Levels g) as [L|e] eqn:HL; [done|eauto].
  - intros e He. split; [|by eapply FindCycle_cyclic; eauto].
    unfold Levels in He. destruct (default _ _) as [L p]. case_decide; congruence.
Qed.

Example Levels_fails_iff_cyclic_witness :
  cyclic (plain_graph ["a"; "b"] [("a","b"); ("b","a")]).
Proof.
  apply (Levels_fails_iff_cyclic _ (plain_graph_wf _ _)).
  - apply (bool_decide_unpack _). vm_compute. exact I.
  - vm_compute. reflexivity.
Defined.

(** [TopoSort] succeeds exactly when [Levels] does and lists every node
    once, each after everything it depends on. *)
Theorem TopoSort_sound g order : adj_wf g → closed g → TopoSort g = Ok order →
  order ≡ₚ names g ∧
  ∀ a b pre post, edge g a b → order = pre ++ b :: post → a ∈ pre.
Proof.
  intros Hwf Hc HT. unfold TopoSort in HT. apply result_bind_Ok in HT as (L & HL & [= <-]).
  destruct (Levels_Ok g L Hwf HL) as [Hr Hp]. split; [done|]. intros a b pre post Hab Heq.
  assert (b ∈ concat L) as Hb by (rewrite Heq; set_solver).
  apply elem_of_concat in Hb as (k & [j Hj]%list_elem_of_lookup & Hk).
  pose proof (proj1 (proj2 (proj2 (Hr j k Hj)) b) Hk) as (_ & Hnot & Hpre).
  specialize (Hpre a). rewrite elem_of_in in Hpre by done. specialize (Hpre Hab).
  assert (concat L = concat (take j L) ++ concat (drop j L)) as Hsplit
    by by rewrite <-concat_app, take_drop.
  rewrite Hsplit in Heq. apply app_eq_inv in Heq as [(k' & H1 & H2)|(k' & H1 & H2)].
  - destruct k' as [|c k']; [rewrite app_nil_r in H1; by subst|].
    simpl in H2. injection H2 as <- _. destruct Hnot. rewrite H1. set_solver.
  - subst. set_solver.
Qed.

Example TopoSort_sound_witness :
  let g := plain_graph ["a"; "b"; "c"] [("b","a"); ("a","c")] in
  TopoSort g = Ok ["b"; "a"; "c"] ∧ ["b"; "a"; "c"] ≡ₚ names g.
Proof.
  assert (TopoSort (plain_graph ["a"; "b"; "c"] [("b","a"); ("a","c")]) = Ok ["b"; "a"; "c"]) as HT
    by (vm_compute; reflexivity).
  split; [exact HT|]. apply (TopoSort_sound _ _ (plain_graph_wf _ _)); [|exact HT].
  apply (bool_decide_unpack _). vm_compute. exact I.
Defined.
