(* ===== verification/Selection.v ===== *)
(** Node selection (src/internal/graph/selection.go): [Select] with its
    breadth-first walk, [SelectedLevels], [Names] and the validation of a
    stored selection, [ValidateMembership].

    A nil slice and an empty one differ for these functions ([requested] of
    [Select], [Nodes], [Via] and [BoundaryEdges] of a decoded selection), so
    they are options here.  The two loops that run until nothing changes take
    fuel; [walk_spec] and [close_spec] show the fuel given is enough. *)
From S2P Require Import Prelude GoLib Blueprint Module Graph Tarjan Topo.

Local Open Scope Z_scope.

Record SelectionNode := MkSelectionNode {
  sn_Node : string;
  sn_Reason : string;
  sn_Via : option (list string);
}.

Record Selection := MkSelection {
  sel_SchemaVersion : Z;
  sel_Mode : string;
  sel_Requested : list string;
  sel_Nodes : option (list SelectionNode);
  sel_BoundaryEdges : option (list Edge);
}.

(** ** Boundary edges and their order *)

Definition edgeKind (e : Edge) : string := if IsDataEdge e then "data" else "ordering".

(** [slices.Compare] on strings. *)
Fixpoint slices_Compare (a b : list string) : Z :=
  match a, b with
  | [], [] => 0
  | [], _ :: _ => -1
  | _ :: _, [] => 1
  | x :: a', y :: b' =>
    if decide (x = y) then slices_Compare a' b' else if decide (String.le x y) then -1 else 1
  end.

Definition edge_key (e : Edge) : list string :=
  [pr_Node (e_From e); pr_Name (e_From e); pr_Node (e_To e); pr_Name (e_To e); edgeKind e].

Definition compareBoundaryEdges (a b : Edge) : Z := slices_Compare (edge_key a) (edge_key b).

Definition edge_le (a b : Edge) : Prop := compareBoundaryEdges a b <= 0.
#[export] Instance edge_le_dec : RelDecision edge_le.
Proof. intros a b. unfold edge_le. apply _. Defined.

(** ** Select *)

Definition Memb := gset string.

(** The inner loop of the walk: unselected successors are selected and queued. *)
Definition select_next (acc : Memb * list string) (name : string) : Memb * list string :=
  if decide (name ∈ acc.1) then acc else ({[ name ]} ∪ acc.1, acc.2 ++ [name]).

(** [queue] is the part of the queue not yet read. *)
Fixpoint walk (fuel : nat) (g : Graph) (selected : Memb) (queue : list string) : option Memb :=
  match fuel with
  | O => None
  | S f =>
    match queue with
    | [] => Some selected
    | name :: rest =>
      let '(selected', queue') := foldl select_next (selected, rest) (out g name) in
      walk f g selected' queue'
    end
  end.

Definition walk_fuel (g : Graph) (seeds : list string) : nat :=
  S (length seeds + length (universe g)).

Definition selection_node (g : Graph) (seeds : list string) (selected : Memb) (name : string) : SelectionNode :=
  if mem name seeds then MkSelectionNode name "requested" (Some [])
  else MkSelectionNode name "downstream"
         (Some (compact (sort_strings (filter (λ p, p ∈ selected) (in_ g name))))).

Definition crosses (selected : Memb) (e : Edge) : bool :=
  negb (Bool.eqb (bool_decide (pr_Node (e_From e) ∈ selected)) (bool_decide (pr_Node (e_To e) ∈ selected))).

Definition boundary (g : Graph) (selected : Memb) : list Edge :=
  merge_sort edge_le (filter (λ e, crosses selected e = true) (g_Edges g)).

(** The checks of one seed. *)
Definition check_seed (g : Graph) (name : string) : result unit :=
  if decide (name = "") then Err (Errors_New "selection: empty --node; specify an exact leaf name")
  else match g_Nodes g !! name with
  | Some _ => Ok tt
  | None =>
    match filter (λ leaf, has_prefix leaf (name +:+ ".") = true) (names g) with
    | leaf :: _ => Err (Errorf "node.%s: select a qualified leaf such as --node %s; group selection is not supported" [FStr name; FStr leaf])
    | [] => Err (Errorf "unknown node %q; use an exact leaf name and repeat --node for multiple nodes (commas are not separators)" [FStr name])
    end
  end.

Definition sorted_set (s : Memb) : list string := sort_strings (elements s).

Definition Select (g : Graph) (requested : option (list string)) (downstream : bool) : result (option Selection) :=
  if bool_decide (requested = None) && negb downstream then Ok None
  else if decide (default [] requested = []) then
    Err (Errors_New "selection: specify at least one --node <leaf> with --downstream")
  else
    let seeds := compact (sort_strings (default [] requested)) in
    _ ← foldM (λ _ name, check_seed g name) tt seeds;
    let start : Memb := list_to_set seeds in
    let selected := if downstream then default start (walk (walk_fuel g seeds) g start seeds) else start in
    Ok (Some (MkSelection 1 (if downstream then "downstream" else "exact") seeds
                (Some (selection_node g seeds selected <$> sorted_set selected))
                (Some (boundary g selected)))).

Definition Names (s : Selection) : list string := sn_Node <$> default [] (sel_Nodes s).

(** ** SelectedLevels *)

Definition keep_level (selected : list string) (level : list string) : list string :=
  filter (λ name, name ∈ selected) level.

Definition check_selected (g : Graph) (name : string) : result unit :=
  match g_Nodes g !! name with
  | Some _ => Ok tt
  | None => Err (Errorf "node.%s: removed from graph; create a fresh plan" [FStr name])
  end.

Definition SelectedLevels (g : Graph) (names : option (list string)) (reverse : bool) : result (list (list string)) :=
  levels ← Levels g;
  match names with
  | None => Ok (if reverse then rev levels else levels)
  | Some names =>
    _ ← foldM (λ _ name, check_selected g name) tt names;
    let out := filter (λ l, l ≠ []) (keep_level names <$> levels) in
    Ok (if reverse then rev out else out)
  end.

(** ** ValidateMembership

    Every rejection returns the same error, so the checks are booleans; they
    are listed in the order of the source. *)

Definition invalid_selection : error :=
  Errors_New "execution selection is incompatible or inconsistent with recorded nodes; restore a valid record".

(** A node entry, with the entry before it. *)
Definition check_via (members : list string) (node : string) (via : list string) : bool :=
  is_sorted via && forallb (λ p, mem p members && negb (bool_decide (p = node))) via
  && bool_decide (NoDup via).

Definition check_entry (mode : string) (members seeds : list string) (prev : option SelectionNode)
    (n : SelectionNode) : bool :=
  mem (sn_Node n) members &&
  match sn_Via n with
  | None => false
  | Some via =>
    match prev with Some p => bool_decide (str_lt (sn_Node p) (sn_Node n)) | None => true end &&
    (if mem (sn_Node n) seeds
     then bool_decide (sn_Reason n = "requested") && bool_decide (via = [])
     else bool_decide (mode = "downstream") && bool_decide (sn_Reason n = "downstream")
          && negb (bool_decide (via = [])) && check_via members (sn_Node n) via)
  end.

Fixpoint check_entries (mode : string) (members seeds : list string) (prev : option SelectionNode)
    (ns : list SelectionNode) : bool :=
  match ns with
  | [] => true
  | n :: ns' => check_entry mode members seeds prev n && check_entries mode members seeds (Some n) ns'
  end.

(** One pass of the closure over the recorded predecessors. *)
Definition close_node (reachable : Memb) (n : SelectionNode) : Memb :=
  if decide (Exists (λ p, p ∈ reachable) (default [] (sn_Via n))) then {[ sn_Node n ]} ∪ reachable else reachable.

Fixpoint close (fuel : nat) (ns : list SelectionNode) (reachable : Memb) : option Memb :=
  match fuel with
  | O => None
  | S f =>
    let reachable' := foldl close_node reachable ns in
    if decide (reachable' = reachable) then Some reachable' else close f ns reachable'
  end.

Definition check_boundary_edge (members : list string) (prev : option Edge) (e : Edge) : bool :=
  match prev with Some p => bool_decide (compareBoundaryEdges p e <= 0) | None => true end
  && negb (bool_decide (pr_Node (e_From e) = "")) && negb (bool_decide (pr_Node (e_To e) = ""))
  && negb (Bool.eqb (mem (pr_Node (e_From e)) members) (mem (pr_Node (e_To e)) members))
  && (if IsDataEdge e
      then bool_decide (pr_Kind (e_From e) = PortOutput) && bool_decide (pr_Kind (e_To e) = PortInput)
           && negb (bool_decide (pr_Name (e_From e) = "")) && negb (bool_decide (pr_Name (e_To e) = ""))
      else negb (IsPort (e_From e)) && negb (IsPort (e_To e))
           && bool_decide (pr_Name (e_From e) = "") && bool_decide (pr_Name (e_To e) = "")).

Fixpoint check_boundary (members : list string) (prev : option Edge) (es : list Edge) : bool :=
  match es with
  | [] => true
  | e :: es' => check_boundary_edge members prev e && check_boundary members (Some e) es'
  end.

Definition reaches_members (s : Selection) (ns : list SelectionNode) (members : list string) : bool :=
  match close (S (length ns)) ns (list_to_set (sel_Requested s)) with
  | Some reachable => bool_decide (size reachable = length members)
  | None => false
  end.

Definition ValidateMembership (s : Selection) (names : list string) : result unit :=
  match sel_Nodes s, sel_BoundaryEdges s with
  | Some ns, Some es =>
    if bool_decide (sel_SchemaVersion s = 1)
       && (bool_decide (sel_Mode s = "exact") || bool_decide (sel_Mode s = "downstream"))
       && negb (bool_decide (sel_Requested s = []))
       && bool_decide (NoDup names) && negb (mem "" names)
       && bool_decide (length ns = length names) && is_sorted (sel_Requested s)
       && forallb (λ name, mem name names) (sel_Requested s) && bool_decide (NoDup (sel_Requested s))
       && check_entries (sel_Mode s) names (sel_Requested s) None ns
       && reaches_members s ns names
       && check_boundary names None es
    then Ok tt else Err invalid_selection
  | _, _ => Err invalid_selection
  end.

Definition sample : Graph :=
  plain_graph ["a"; "b"; "c"; "d"; "e"] [("a","b"); ("b","c"); ("a","c"); ("d","c"); ("e","d")].
Example Select_ex : Select sample (Some ["b"; "b"]) true =
  Ok (Some (MkSelection 1 "downstream" ["b"]
    (Some [MkSelectionNode "b" "requested" (Some []); MkSelectionNode "c" "downstream" (Some ["b"])])
    (Some [MkEdge (bare "a") (bare "b"); MkEdge (bare "a") (bare "c"); MkEdge (bare "d") (bare "c")]))).
Proof. vm_compute. reflexivity. Qed.
Example Select_ex_ok : match Select sample (Some ["a"; "d"]) true with
  | Ok (Some s) => ValidateMembership s (Names s) = Ok tt | _ => False end.
Proof. vm_compute. reflexivity. Qed.

(** ** The order on boundary edges is a total preorder *)

Lemma slices_Compare_refl a : slices_Compare a a = 0.
Proof. induction a; simpl; [done|]. by rewrite decide_True. Qed.

Lemma slices_Compare_total a : ∀ b, slices_Compare a b <= 0 ∨ slices_Compare b a <= 0.
Proof.
  induction a as [|x a IH]; intros [|y b]; simpl; [lia..|].
  destruct (decide (x = y)) as [->|Hne]; [rewrite decide_True by done; apply IH|].
  rewrite (decide_False (P := y = x)) by congruence.
  destruct (total String.le x y); [left|right]; rewrite decide_True by done; lia.
Qed.

Lemma slices_Compare_trans a : ∀ b c,
  slices_Compare a b <= 0 → slices_Compare b c <= 0 → slices_Compare a c <= 0.
Proof.
  induction a as [|x a IH]; intros [|y b] [|z c]; simpl; try lia.
  destruct (decide (x = y)) as [->|Hxy], (decide (y = z)) as [->|Hyz].
  - rewrite ?decide_True by done. apply IH.
  - by rewrite ?(decide_False (P := y = z)) by done.
  - rewrite ?(decide_False (P := x = z)) by done. done.
  - case_decide as H1; [|lia]. case_decide as H2; [|lia]. intros _ _.
    rewrite decide_False; [|intros ->; apply Hxy; by apply (anti_symm String.le)].
    rewrite decide_True; [lia|by etrans].
Qed.

#[export] Instance edge_le_trans : Transitive edge_le.
Proof. intros a b c. apply slices_Compare_trans. Qed.
#[export] Instance edge_le_total : Total edge_le.
Proof. intros a b. apply slices_Compare_total. Qed.

(** ** The walk *)

Definition unselected (g : Graph) (selected : Memb) : nat :=
  length (filter (λ u, u ∉ selected) (universe g)).

Lemma unselected_mono g (X Y : Memb) : X ⊆ Y → (unselected g Y <= unselected g X)%nat.
Proof.
  intros HXY. unfold unselected. induction (universe g) as [|u l IH]; [done|].
  rewrite !filter_cons. repeat case_decide; simpl; try lia. set_solver.
Qed.

Lemma unselected_add g (X : Memb) n : n ∈ universe g → n ∉ X →
  (S (unselected g ({[ n ]} ∪ X)) <= unselected g X)%nat.
Proof.
  intros Hn HX. unfold unselected.
  assert (n :: filter (λ u, u ∉ {[ n ]} ∪ X) (universe g) ⊆+ filter (λ u, u ∉ X) (universe g)) as Hsub.
  { apply NoDup_submseteq.
    - constructor; [rewrite list_elem_of_filter; set_solver|]. apply NoDup_filter, NoDup_remove_dups.
    - intros u. rewrite elem_of_cons, !list_elem_of_filter. set_solver. }
  apply submseteq_length in Hsub. simpl in Hsub. lia.
Qed.

Lemma select_next_spec g l : (∀ x, x ∈ l → x ∈ universe g) → ∀ (X : Memb) q X' q',
  foldl select_next (X, q) l = (X', q') →
  (∀ x, x ∈ X' ↔ x ∈ X ∨ x ∈ l) ∧ (∀ x, x ∈ q' ↔ x ∈ q ∨ (x ∈ l ∧ x ∉ X)) ∧
  (length q' + unselected g X' <= length q + unselected g X)%nat.
Proof.
  induction l as [|a l IH]; intros Hl X q X' q' Heq; simpl in Heq.
  - simplify_eq. set_solver.
  - unfold select_next at 2 in Heq. simpl in Heq. case_decide as Ha.
    + destruct (IH (λ x Hx, Hl x (list_elem_of_further _ _ _ Hx)) _ _ _ _ Heq) as (H1 & H2 & H3).
      split_and!; [set_solver..|lia].
    + destruct (IH (λ x Hx, Hl x (list_elem_of_further _ _ _ Hx)) _ _ _ _ Heq) as (H1 & H2 & H3).
      pose proof (unselected_add g X a (Hl a (list_elem_of_here _ _)) Ha) as Hlt.
      rewrite length_app in H3. simpl in H3. split_and!; [set_solver| |lia].
      intros x. rewrite H2. destruct (decide (x = a)); set_solver.
Qed.

Lemma out_universe g a x : x ∈ out g a → x ∈ universe g.
Proof. apply universe_edge. Qed.

Lemma walk_spec g fuel : ∀ (X : Memb) queue,
  (∀ x, x ∈ queue → x ∈ X) →
  (∀ x, x ∈ X → x ∈ queue ∨ ∀ y, edge g x y → y ∈ X) →
  (length queue + unselected g X < fuel)%nat →
  ∃ X', walk fuel g X queue = Some X' ∧ ∀ x, x ∈ X' ↔ ∃ s, s ∈ X ∧ reaches g s x.
Proof.
  induction fuel as [|fuel IH]; intros X queue Hq HX Hfuel; [lia|]. simpl.
  destruct queue as [|name rest].
  - exists X. split; [done|]. intros x. split; [intros; exists x; split; [done|apply rtc_refl]|].
    intros (s & Hs & Hsx). induction Hsx as [|s y z Hsy _ IHr]; [done|]. apply IHr.
    destruct (HX s Hs) as [Hin|Hy]; [by apply elem_of_nil in Hin|auto].
  - destruct (foldl select_next (X, rest) (out g name)) as [X' q'] eqn:Hf.
    destruct (select_next_spec g (out g name) (out_universe g name) X rest X' q' Hf) as (H1 & H2 & H3).
    destruct (IH X' q') as (Y & HY & Hspec).
    + intros x. rewrite H2, H1. set_solver.
    + intros x. rewrite H1, H2. intros Hx. destruct (decide (x ∈ X)) as [HxX|HxX]; [|set_solver].
      destruct (HX x HxX) as [[->|Hin]%elem_of_cons|Hy].
      * right. intros y Hy. rewrite H1. by right.
      * by left; left.
      * right. intros y Hxy. rewrite H1. left. auto.
    + simpl in Hfuel. lia.
    + exists Y. split; [done|]. intros x. rewrite Hspec. split.
      * intros (s & Hs & Hsx). rewrite H1 in Hs. destruct Hs as [Hs|Hs]; [by exists s|].
        exists name. split; [apply Hq; by left|]. by eapply rtc_l.
      * intros (s & Hs & Hsx). exists s. rewrite H1. auto.
Qed.

Arguments walk : simpl never.

Lemma walk_seeds g seeds : ∃ X, walk (walk_fuel g seeds) g (list_to_set seeds) seeds = Some X ∧
  ∀ x, x ∈ X ↔ ∃ s, s ∈ seeds ∧ reaches g s x.
Proof.
  destruct (walk_spec g (walk_fuel g seeds) (list_to_set seeds) seeds) as (X & HX & Hspec).
  - intros x Hx. by apply elem_of_list_to_set.
  - intros x Hx. left. by apply elem_of_list_to_set in Hx.
  - unfold walk_fuel, unselected.
    pose proof (length_filter (λ u, u ∉ (list_to_set seeds : Memb)) (universe g)). lia.
  - exists X. split; [done|]. intros x. rewrite Hspec. by setoid_rewrite elem_of_list_to_set.
Qed.

(** ** What a selection contains *)

Lemma sorted_set_elem x (X : Memb) : x ∈ sorted_set X ↔ x ∈ X.
Proof. unfold sorted_set. by rewrite sort_strings_elem, elem_of_elements. Qed.

Lemma sorted_set_sorted (X : Memb) : StronglySorted str_lt (sorted_set X).
Proof.
  apply sorted_NoDup_lt; [apply sort_strings_sorted|]. apply sort_strings_NoDup, NoDup_elements.
Qed.

Lemma selection_node_names g seeds X (l : list string) : sn_Node <$> (selection_node g seeds X <$> l) = l.
Proof.
  rewrite <-list_fmap_compose. induction l as [|n l IH]; [done|]. simpl. f_equal; [|done].
  unfold selection_node. by destruct (mem n seeds).
Qed.

Lemma check_seeds_Ok g seeds : foldM (λ _ name, check_seed g name) tt seeds = Ok tt ↔
  ∀ n, n ∈ seeds → n ≠ "" ∧ is_Some (g_Nodes g !! n).
Proof.
  rewrite foldM_checks. split; intros H n Hn; specialize (H n Hn); revert H; unfold check_seed.
  - case_decide; [done|]. destruct (g_Nodes g !! n); [by eauto|by destruct (filter _ _)].
  - intros [? [x Hx]]. by rewrite decide_False, Hx.
Qed.

Definition members_of (g : Graph) (seeds : list string) (downstream : bool) (x : string) : Prop :=
  if downstream then ∃ s, s ∈ seeds ∧ reaches g s x else x ∈ seeds.

Lemma Select_Some g req d s : Select g req d = Ok (Some s) → ∃ r (X : Memb),
  let seeds := compact (sort_strings r) in
  req = Some r ∧ seeds ≠ [] ∧ (∀ n, n ∈ seeds → n ≠ "" ∧ is_Some (g_Nodes g !! n)) ∧
  (∀ x, x ∈ X ↔ members_of g seeds d x) ∧
  s = MkSelection 1 (if d then "downstream" else "exact") seeds
        (Some (selection_node g seeds X <$> sorted_set X)) (Some (boundary g X)).
Proof.
  unfold Select. case_match; [done|]. case_decide as Hr; [done|].
  destruct req as [r|]; [|done]. simpl in *. intros (u & Hu & Hs)%result_bind_Ok.
  destruct u. pose proof (proj1 (check_seeds_Ok g _) Hu) as Hseeds.
  destruct (walk_seeds g (compact (sort_strings r))) as (X & HX & Hspec). rewrite HX in Hs. simpl in Hs.
  injection Hs as <-. exists r, (if d then X else list_to_set (compact (sort_strings r))).
  split_and!; [done| |done| |by destruct d].
  - intros Hnil. destruct r as [|a r]; [done|].
    apply (not_elem_of_nil a). rewrite <-Hnil, sort_compact_elem. left.
  - intros x. destruct d; simpl; [apply Hspec|by rewrite elem_of_list_to_set].
Qed.

Lemma boundary_elem g X e : e ∈ boundary g X ↔
  e ∈ g_Edges g ∧ ¬ (pr_Node (e_From e) ∈ X ↔ pr_Node (e_To e) ∈ X).
Proof.
  unfold boundary. rewrite merge_sort_Permutation, list_elem_of_filter. unfold crosses.
  rewrite negb_true_iff, Bool.eqb_false_iff.
  destruct (decide (pr_Node (e_From e) ∈ X)) as [H1|H1], (decide (pr_Node (e_To e) ∈ X)) as [H2|H2];
    rewrite ?(bool_decide_eq_true_2 _ H1), ?(bool_decide_eq_false_2 _ H1),
            ?(bool_decide_eq_true_2 _ H2), ?(bool_decide_eq_false_2 _ H2); naive_solver.
Qed.

(** A selected node that was not requested has a selected predecessor. *)
Lemma members_pred g seeds d x : adj_wf g → members_of g seeds d x → x ∉ seeds →
  ∃ p, members_of g seeds d p ∧ p ∈ in_ g x ∧ d = true.
Proof.
  intros Hwf Hx Hns. destruct d; simpl in *; [|done]. destruct Hx as (s & Hs & Hsx).
  apply rtc_inv_r in Hsx as [<-|(p & Hsp & Hpx)]; [done|].
  exists p. split_and!; [by exists s|by apply elem_of_in|done].
Qed.

Definition via_of (g : Graph) (X : Memb) (n : string) : list string :=
  compact (sort_strings (filter (λ p, p ∈ X) (in_ g n))).

Lemma via_elem g X n p : p ∈ via_of g X n ↔ p ∈ X ∧ p ∈ in_ g n.
Proof. unfold via_of. by rewrite sort_compact_elem, list_elem_of_filter. Qed.

Lemma via_sorted g X n : StronglySorted str_lt (via_of g X n).
Proof. apply compact_sorted, sort_strings_sorted. Qed.

(** ** Filtering a schedule *)

Lemma keep_levels_elem names L x :
  x ∈ concat (filter (λ l, l ≠ []) (keep_level names <$> L)) ↔ x ∈ names ∧ x ∈ concat L.
Proof.
  rewrite !elem_of_concat. split.
  - intros (l & [_ Hl]%list_elem_of_filter & Hx). apply list_elem_of_fmap in Hl as (k & -> & Hk).
    unfold keep_level in Hx. apply list_elem_of_filter in Hx as [? ?]. naive_solver.
  - intros [Hn (l & Hl & Hx)]. exists (keep_level names l).
    assert (x ∈ keep_level names l) as Hk by (by apply list_elem_of_filter). split; [|done].
    apply list_elem_of_filter. split; [intros Hnil; rewrite Hnil in Hk; by apply elem_of_nil in Hk|].
    apply list_elem_of_fmap. by exists l.
Qed.

Lemma keep_levels_precedes names L a b : a ∈ names → b ∈ names →
  precedes L a b → precedes (filter (λ l, l ≠ []) (keep_level names <$> L)) a b.
Proof.
  intros Ha Hb (L1 & L2 & -> & H1 & H2). rewrite fmap_app, filter_app.
  eexists _, _. split; [done|]. by rewrite !keep_levels_elem.
Qed.

Lemma NoDup_concat_filter names L :
  NoDup (concat L) → NoDup (concat (filter (λ l, l ≠ []) (keep_level names <$> L))).
Proof.
  intros Hnd. assert (concat (filter (λ l, l ≠ []) (keep_level names <$> L)) = keep_level names (concat L)) as ->.
  { clear. induction L as [|l L IH]; [done|]. simpl. unfold keep_level in *. rewrite filter_app.
    rewrite <-IH. rewrite filter_cons. case_decide as Hl; [done|].
    by rewrite Hl. }
  by apply NoDup_filter.
Qed.

Lemma concat_rev_perm {A} (L : list (list A)) : concat (rev L) ≡ₚ concat L.
Proof. induction L as [|l L IH]; [done|]. simpl. rewrite concat_app. simpl. rewrite app_nil_r, IH. apply Permutation_app_comm. Qed.

Lemma SelectedLevels_Some g ns r L : SelectedLevels g (Some ns) r = Ok L → ∃ levels,
  Levels g = Ok levels ∧ (∀ n, n ∈ ns → is_Some (g_Nodes g !! n)) ∧
  let kept := filter (λ l, l ≠ []) (keep_level ns <$> levels) in L = if r then rev kept else kept.
Proof.
  unfold SelectedLevels. intros (levels & HL & Hk)%result_bind_Ok.
  apply result_bind_Ok in Hk as ([] & Hc & [= <-]). exists levels. split_and!; [done| |done].
  rewrite foldM_checks in Hc. intros n Hn. specialize (Hc n Hn). unfold check_selected in Hc.
  destruct (g_Nodes g !! n); [by eexists|done].
Qed.

(** [SelectedLevels] schedules exactly the selected nodes, each once and in
    no empty layer, and keeps the whole graph's ordering: a selected node stays
    before every selected node it leads to, through unselected ones too, and
    after it when the schedule is reversed for destroy. *)
Theorem SelectedLevels_order g ns reverse L : adj_wf g → closed g →
  SelectedLevels g (Some ns) reverse = Ok L →
  (∀ x, x ∈ concat L ↔ x ∈ ns) ∧ NoDup (concat L) ∧ [] ∉ L ∧
  (∀ a b, a ∈ ns → b ∈ ns → tc (edge g) a b → if reverse then precedes L b a else precedes L a b).
Proof.
  intros Hwf Hc HL. destruct (SelectedLevels_Some g ns reverse L HL) as (levels & Hlv & Hns & ->).
  set (kept := filter (λ l, l ≠ []) (keep_level ns <$> levels)).
  pose proof (Levels_Ok g levels Hwf Hlv) as [_ Hp].
  assert (concat (if reverse then rev kept else kept) ≡ₚ concat kept) as Hperm
    by (destruct reverse; [apply concat_rev_perm|done]).
  split_and!.
  - intros x. rewrite Hperm. unfold kept. rewrite keep_levels_elem, Hp, names_elem. naive_solver.
  - rewrite Hperm. apply NoDup_concat_filter. rewrite Hp. apply names_NoDup.
  - assert ([] ∉ kept) as Hne by (unfold kept; rewrite list_elem_of_filter; naive_solver).
    destruct reverse; [|done]. rewrite list_elem_of_In, <-in_rev, <-list_elem_of_In. done.
  - intros a b Ha Hb Hab. pose proof (Levels_precedes g levels a b Hwf (closed_dangling_free g Hwf Hc) Hlv Hab) as Hpre.
    apply (keep_levels_precedes ns) in Hpre; [|done..]. destruct reverse; [by apply precedes_rev|done].
Qed.

Example SelectedLevels_order_witness :
  SelectedLevels sample (Some ["e"; "c"]) true = Ok [["c"]; ["e"]] ∧ precedes [["c"]; ["e"]] "c" "e".
Proof.
  assert (SelectedLevels sample (Some ["e"; "c"]) true = Ok [["c"]; ["e"]]) as H by (vm_compute; reflexivity).
  split; [exact H|].
  refine (proj2 (proj2 (proj2 (SelectedLevels_order sample ["e"; "c"] true _ (plain_graph_wf _ _) _ H))) "e" "c" _ _ _).
  - apply (bool_decide_unpack _). vm_compute. exact I.
  - left.
  - right. left.
  - eapply tc_l; [|apply tc_once].
    + unfold edge. vm_compute. left.
    + unfold edge. vm_compute. left.
Defined.

(** ** The closure over recorded predecessors *)

Definition via_rel (ns : list SelectionNode) (p n : string) : Prop :=
  ∃ e, e ∈ ns ∧ sn_Node e = n ∧ p ∈ default [] (sn_Via e).

Lemma close_node_cases R e : close_node R e = R ∨
  (∃ p, p ∈ R ∧ p ∈ default [] (sn_Via e)) ∧ close_node R e = {[ sn_Node e ]} ∪ R.
Proof. unfold close_node. case_decide as H; [right|by left]. apply Exists_exists in H. naive_solver. Qed.

Lemma close_pass ns all (R : Memb) : (∀ e, e ∈ ns → e ∈ all) →
  R ⊆ foldl close_node R ns ∧
  (∀ x, x ∈ foldl close_node R ns → (x ∈ R ∨ x ∈ sn_Node <$> all) ∧ ∃ s, s ∈ R ∧ rtc (via_rel all) s x).
Proof.
  revert R. induction ns as [|e ns IH]; intros R Hall; simpl.
  - split; [done|]. intros x Hx. split; [by left|]. exists x. split; [done|apply rtc_refl].
  - destruct (IH (close_node R e)) as [H1 H2]; [set_solver|].
    destruct (close_node_cases R e) as [Heq|[(p & Hp & Hpe) Heq]]; rewrite Heq in *; [done|].
    assert (rtc (via_rel all) p (sn_Node e)) as Hstep.
    { apply rtc_once. exists e. split_and!; [apply Hall; by left|done|done]. }
    split; [set_solver|]. intros x Hx. destruct (H2 x Hx) as [Hin (s & Hs & Hsx)].
    assert (sn_Node e ∈ sn_Node <$> all) as Hea by (apply list_elem_of_fmap; exists e; set_solver).
    split; [set_solver|].
    apply elem_of_union in Hs as [->%elem_of_singleton|Hs]; [|by exists s].
    exists p. split; [done|]. by etrans.
Qed.

Lemma close_fixed ns (R : Memb) : foldl close_node R ns = R →
  ∀ e p, e ∈ ns → p ∈ default [] (sn_Via e) → p ∈ R → sn_Node e ∈ R.
Proof.
  induction ns as [|a ns IH]; intros Hfix e p He Hp HpR; [set_solver|]. simpl in Hfix.
  destruct (close_pass ns ns (close_node R a)) as [Hsub _]; [done|]. rewrite Hfix in Hsub.
  destruct (close_node_cases R a) as [Heq|[_ Heq]].
  - rewrite Heq in Hfix. apply elem_of_cons in He as [->|He]; [|by eapply IH].
    unfold close_node in Heq. case_decide as Hx; [set_solver|].
    destruct Hx. apply Exists_exists. by exists p.
  - assert (close_node R a = R) as HR by set_solver. rewrite HR in *.
    apply elem_of_cons in He as [->|He]; [set_solver|by eapply IH].
Qed.

Definition open_entries (ns : list SelectionNode) (R : Memb) : nat :=
  length (filter (λ e, sn_Node e ∉ R) ns).

Lemma open_entries_lt ns (R R' : Memb) : R ⊆ R' →
  (∃ e, e ∈ ns ∧ sn_Node e ∈ R' ∧ sn_Node e ∉ R) → (open_entries ns R' < open_entries ns R)%nat.
Proof.
  intros Hsub (e & He & Hin & Hnin). unfold open_entries. induction ns as [|a ns IH]; [set_solver|].
  assert (length (filter (λ e, sn_Node e ∉ R') ns) <= length (filter (λ e, sn_Node e ∉ R) ns))%nat as Hle.
  { clear -Hsub. induction ns as [|b ns IH]; [done|]. rewrite !filter_cons. repeat case_decide; simpl; try lia. set_solver. }
  rewrite !filter_cons. apply elem_of_cons in He as [->|He].
  - rewrite decide_False by naive_solver. rewrite decide_True by done. simpl. lia.
  - specialize (IH He). repeat case_decide; simpl; try lia. set_solver.
Qed.

Lemma close_spec ns fuel : ∀ R : Memb, (open_entries ns R < fuel)%nat →
  ∃ R', close fuel ns R = Some R' ∧ ∀ x, x ∈ R' ↔ ∃ s, s ∈ R ∧ rtc (via_rel ns) s x.
Proof.
  induction fuel as [|fuel IH]; intros R Hfuel; [lia|]. simpl.
  destruct (close_pass ns ns R) as [Hsub Hback]; [done|]. case_decide as Hfix.
  - exists R. rewrite Hfix. split; [done|]. intros x. split; [intros; exists x; split; [done|apply rtc_refl]|].
    intros (s & Hs & Hsx). induction Hsx as [|s y z (e & He & <- & Hp) _ IHr]; [done|].
    apply IHr. by eapply close_fixed.
  - destruct (IH (foldl close_node R ns)) as (R' & HR' & Hspec).
    + assert (∃ x, x ∈ foldl close_node R ns ∧ x ∉ R) as (x & Hx & HxR).
      { apply dec_stable. intros Hno. apply Hfix. apply (anti_symm (⊆)); [|done].
        intros x Hx. destruct (decide (x ∈ R)) as [|HxR]; [done|]. exfalso. apply Hno. by exists x. }
      destruct (Hback x Hx) as [[?|Hn] _]; [done|]. apply list_elem_of_fmap in Hn as (e & -> & He).
      pose proof (open_entries_lt ns R _ Hsub (ex_intro _ e (conj He (conj Hx HxR)))). lia.
    + exists R'. split; [done|]. intros x. rewrite Hspec. split.
      * intros (s & Hs & Hsx). destruct (Hback s Hs) as [_ (s' & Hs' & Hss)]. exists s'. split; [done|by etrans].
      * intros (s & Hs & Hsx). exists s. split; [by apply Hsub|done].
Qed.

(** ** Stored selections: what acceptance means, and that [Select]'s results are accepted *)

Lemma check_entries_spec mode members seeds ns : ∀ prev,
  check_entries mode members seeds prev ns = true ↔
  (∀ pre e post, ns = pre ++ e :: post →
     check_entry mode members seeds (match last pre with Some p => Some p | None => prev end) e = true).
Proof.
  induction ns as [|n ns IH]; intros prev; simpl.
  - split; [|done]. intros _ [|? ?] e post H; discriminate.
  - rewrite andb_true_iff, IH. split.
    + intros [Hn Hrest] [|p pre] e post Heq; simpl in Heq; [by simplify_eq|].
      injection Heq as <- Heq. specialize (Hrest pre e post Heq).
      rewrite last_cons. by destruct (last pre).
    + intros H. split; [by apply (H [] n ns)|]. intros pre e post ->.
      specialize (H (n :: pre) e post eq_refl). rewrite last_cons in H. by destruct (last pre).
Qed.

Lemma check_entries_sorted mode members seeds ns : ∀ prev,
  check_entries mode members seeds prev ns = true →
  StronglySorted str_lt (sn_Node <$> ns) ∧
  (match prev with Some p => Forall (str_lt (sn_Node p)) (sn_Node <$> ns) | None => True end).
Proof.
  induction ns as [|n ns IH]; intros prev; simpl; [intros _; split; [constructor|by destruct prev; constructor]|].
  rewrite andb_true_iff. intros [Hn Hrest]. destruct (IH (Some n) Hrest) as [Hs Hlt]. simpl in Hlt.
  split; [by constructor|]. destruct prev as [p|]; [|done].
  unfold check_entry in Hn. rewrite andb_true_iff in Hn. destruct Hn as [_ Hn].
  destruct (sn_Via n); [|done]. rewrite !andb_true_iff, bool_decide_eq_true in Hn. destruct Hn as [Hn _].
  constructor; [done|]. eapply Forall_impl; [done|]. intros x Hx. by etrans.
Qed.

Lemma check_entries_members mode members seeds ns prev e :
  check_entries mode members seeds prev ns = true → e ∈ ns →
  sn_Node e ∈ members ∧
  (sn_Node e ∉ seeds → mode = "downstream" ∧ ∀ p, p ∈ default [] (sn_Via e) → p ∈ members ∧ p ≠ sn_Node e) ∧
  (sn_Node e ∈ seeds → default [] (sn_Via e) = []).
Proof.
  intros H He. apply list_elem_of_split in He as (pre & post & ->).
  rewrite check_entries_spec in H. specialize (H pre e post eq_refl). revert H.
  unfold check_entry. rewrite andb_true_iff, mem_true. intros [Hm Hv]. split; [done|].
  destruct (sn_Via e) as [via|]; [|done]. simpl. rewrite andb_true_iff in Hv. destruct Hv as [_ Hv].
  destruct (mem (sn_Node e) seeds) eqn:Hseed.
  - apply mem_true in Hseed. rewrite andb_true_iff, !bool_decide_eq_true in Hv. naive_solver.
  - apply mem_false in Hseed. unfold check_via in Hv.
    rewrite !andb_true_iff, !bool_decide_eq_true, forallb_forall in Hv.
    destruct Hv as (((? & ?) & ?) & ((? & Hall) & ?)). split; [|done]. intros _. split; [done|].
    intros p Hp%list_elem_of_In. specialize (Hall p Hp). by rewrite andb_true_iff, mem_true, negb_true_iff, bool_decide_eq_false in Hall.
Qed.

Lemma check_boundary_sides members es : ∀ prev, check_boundary members prev es = true →
  ∀ e, e ∈ es → ¬ (pr_Node (e_From e) ∈ members ↔ pr_Node (e_To e) ∈ members).
Proof.
  induction es as [|e' es IH]; intros prev Hbd e He; [by apply elem_of_nil in He|].
  simpl in Hbd. apply andb_true_iff in Hbd as [He' Hbd].
  apply elem_of_cons in He as [->|He]; [|by eapply IH].
  unfold check_boundary_edge in He'. rewrite !andb_true_iff in He'. destruct He' as [[_ Hx] _].
  rewrite negb_true_iff, Bool.eqb_false_iff in Hx. intros Hiff. by apply Hx, bool_decide_ext.
Qed.

Lemma check_entries_perm mode names seeds ns : check_entries mode names seeds None ns = true →
  length ns = length names → sn_Node <$> ns ≡ₚ names ∧ StronglySorted str_lt (sn_Node <$> ns).
Proof.
  intros Hent Hlen. destruct (check_entries_sorted _ _ _ _ _ Hent) as [Hsort _]. split; [|done].
  apply submseteq_length_Permutation; [|rewrite length_fmap; lia].
  apply NoDup_submseteq; [by apply StronglySorted_lt_NoDup|]. intros x (e & -> & He)%list_elem_of_fmap.
  by destruct (check_entries_members _ _ _ _ _ _ Hent He) as [? _].
Qed.

Lemma check_entries_via mode names seeds ns a b : check_entries mode names seeds None ns = true →
  via_rel ns a b → a ∈ names ∧ b ∈ names ∧ mode = "downstream".
Proof.
  intros Hent (e & He & <- & Ha). destruct (check_entries_members _ _ _ _ _ _ Hent He) as (H1 & H2 & H3).
  destruct (decide (sn_Node e ∈ seeds)) as [Hs|Hs].
  - rewrite (H3 Hs) in Ha. by apply elem_of_nil in Ha.
  - destruct (H2 Hs) as [? H4]. by destruct (H4 a Ha).
Qed.

(** The closure covering as many names as there are members covers them all. *)
Lemma reaches_members_all s ns names : reaches_members s ns names = true →
  (∀ n, n ∈ sel_Requested s → n ∈ names) → (∀ a b, via_rel ns a b → b ∈ names) →
  ∀ n, n ∈ names → ∃ r, r ∈ sel_Requested s ∧ rtc (via_rel ns) r n.
Proof.
  intros Hreach Hsub Hvia. unfold reaches_members in Hreach.
  destruct (close_spec ns (S (length ns)) (list_to_set (sel_Requested s))) as (R & HR & Hspec).
  { pose proof (length_filter (λ e, sn_Node e ∉ (list_to_set (sel_Requested s) : Memb)) ns). unfold open_entries. lia. }
  rewrite HR, bool_decide_eq_true in Hreach.
  assert (elements R ≡ₚ names) as HRp.
  { apply submseteq_length_Permutation.
    - apply NoDup_submseteq; [apply NoDup_elements|]. intros x Hx%elem_of_elements.
      apply Hspec in Hx as (r & Hr%elem_of_list_to_set & Hrx).
      apply rtc_inv_r in Hrx as [<-|(y & _ & Hyx)]; [auto|by eapply Hvia].
    - unfold size, set_size in Hreach. simpl in Hreach. lia. }
  intros n Hn. rewrite <-HRp, elem_of_elements, Hspec in Hn. by setoid_rewrite elem_of_list_to_set in Hn.
Qed.

(** An accepted stored selection cannot widen or change the recorded
    membership: its entries are exactly the recorded names, its requested names
    are among them, and every member is reached from a requested one by a chain
    of recorded predecessors that are members themselves; each boundary edge
    has exactly one end inside. *)
Theorem ValidateMembership_sound s names : ValidateMembership s names = Ok tt →
  Names s ≡ₚ names ∧ StronglySorted str_lt (Names s) ∧
  (∀ n, n ∈ sel_Requested s → n ∈ names) ∧ sel_Requested s ≠ [] ∧
  (∀ n, n ∈ names → ∃ r, r ∈ sel_Requested s ∧ rtc (via_rel (default [] (sel_Nodes s))) r n) ∧
  (∀ a b, via_rel (default [] (sel_Nodes s)) a b → a ∈ names ∧ b ∈ names ∧ sel_Mode s = "downstream") ∧
  (∀ e, e ∈ default [] (sel_BoundaryEdges s) → ¬ (pr_Node (e_From e) ∈ names ↔ pr_Node (e_To e) ∈ names)).
Proof.
  unfold ValidateMembership, Names. destruct (sel_Nodes s) as [ns|], (sel_BoundaryEdges s) as [es|]; try done.
  case_match eqn:Hb; [|done]. intros _. simpl. rewrite !andb_true_iff, !bool_decide_eq_true in Hb.
  destruct Hb as (((((((((((_ & _) & Hreq) & _) & _) & Hlen) & _) & Hseeds) & _) & Hent) & Hreach) & Hbd).
  rewrite negb_true_iff, bool_decide_eq_false in Hreq. rewrite forallb_forall in Hseeds.
  destruct (check_entries_perm _ _ _ _ Hent Hlen) as [Hp Hsort].
  assert (∀ n, n ∈ sel_Requested s → n ∈ names) as Hsub
    by (intros n Hn%list_elem_of_In; by apply mem_true, Hseeds).
  split_and!; [done..| | |].
  - eapply reaches_members_all; [done..|]. intros a b Hab. by eapply check_entries_via in Hab as (_ & ? & _).
  - intros a b Hab. by eapply check_entries_via.
  - by eapply check_boundary_sides.
Qed.

Definition sample_selection : Selection :=
  MkSelection 1 "downstream" ["b"]
    (Some [MkSelectionNode "b" "requested" (Some []); MkSelectionNode "c" "downstream" (Some ["b"])])
    (Some [MkEdge (bare "a") (bare "b"); MkEdge (bare "a") (bare "c")]).

Example ValidateMembership_sound_witness :
  ValidateMembership sample_selection ["c"; "b"] = Ok tt ∧ Names sample_selection ≡ₚ ["c"; "b"].
Proof.
  assert (ValidateMembership sample_selection ["c"; "b"] = Ok tt) as H by (vm_compute; reflexivity).
  split; [exact H|]. exact (proj1 (ValidateMembership_sound _ _ H)).
Defined.

Lemma selection_nodes_elem g seeds X e : e ∈ selection_node g seeds X <$> sorted_set X ↔
  ∃ n, n ∈ X ∧ e = selection_node g seeds X n.
Proof. rewrite list_elem_of_fmap. setoid_rewrite sorted_set_elem. naive_solver. Qed.

Lemma selection_node_in g seeds X n : n ∈ seeds →
  selection_node g seeds X n = MkSelectionNode n "requested" (Some []).
Proof. intros Hn. unfold selection_node. by rewrite (proj2 (mem_true n seeds) Hn). Qed.
Lemma selection_node_out g seeds X n : n ∉ seeds →
  selection_node g seeds X n = MkSelectionNode n "downstream" (Some (via_of g X n)).
Proof. intros Hn. unfold selection_node. by rewrite (proj2 (mem_false n seeds) Hn). Qed.

(** [Select] selects exactly the requested leaves, and with downstream
    exactly the nodes reachable from them; it records for each extra node
    its selected predecessors and as boundary edges exactly the edges with
    one end selected, everything in sorted order. *)
Theorem Select_exact g r d s : adj_wf g → Select g (Some r) d = Ok (Some s) →
  (∀ x, x ∈ sel_Requested s ↔ x ∈ r) ∧ StronglySorted str_lt (sel_Requested s) ∧
  (∀ x, x ∈ Names s ↔ if d then ∃ y, y ∈ r ∧ reaches g y x else x ∈ r) ∧
  StronglySorted str_lt (Names s) ∧
  (∀ n p, n ∈ default [] (sel_Nodes s) → p ∈ default [] (sn_Via n) ↔
     sn_Node n ∉ r ∧ p ∈ Names s ∧ edge g p (sn_Node n)) ∧
  (∀ e, e ∈ default [] (sel_BoundaryEdges s) ↔
     e ∈ g_Edges g ∧ ¬ (pr_Node (e_From e) ∈ Names s ↔ pr_Node (e_To e) ∈ Names s)).
Proof.
  intros Hwf HS. destruct (Select_Some g (Some r) d s HS) as (r' & X & [= <-] & _ & _ & HX & ->).
  simpl. set (seeds := compact (sort_strings r)) in *.
  assert (∀ x, x ∈ seeds ↔ x ∈ r) as Hseeds by (intros x; apply sort_compact_elem).
  unfold Names. simpl. rewrite selection_node_names. split_and!.
  - done.
  - apply compact_sorted, sort_strings_sorted.
  - intros x. rewrite sorted_set_elem, HX. unfold members_of. destruct d; [|apply Hseeds].
    by setoid_rewrite Hseeds.
  - apply sorted_set_sorted.
  - intros e p (n & Hn & ->)%selection_nodes_elem. rewrite sorted_set_elem.
    destruct (decide (n ∈ seeds)) as [Hs|Hs].
    + rewrite selection_node_in by done. simpl. rewrite <-Hseeds. set_solver.
    + rewrite selection_node_out by done. simpl. rewrite via_elem, elem_of_in, <-Hseeds by done. naive_solver.
  - intros e. by rewrite boundary_elem, !sorted_set_elem.
Qed.

Example Select_exact_witness : ∃ s, Select sample (Some ["d"]) true = Ok (Some s) ∧
  ("c" ∈ Names s ↔ ∃ y, y ∈ ["d"] ∧ reaches sample y "c").
Proof.
  eexists. assert (Select sample (Some ["d"]) true = Ok (Some _)) as H by (vm_compute; reflexivity).
  split; [exact H|].
  exact (proj1 (proj2 (proj2 (Select_exact sample ["d"] true _ (plain_graph_wf _ _) H))) "c").
Defined.

(** What graph building guarantees of the edges of a graph that passed
    validation: leaf ports named, ordering edges bare, no self-edge, no empty name. *)
Record leaf_graph (g : Graph) : Prop := {
  lg_wf : adj_wf g;
  lg_closed : closed g;
  lg_named : g_Nodes g !! "" = None;
  lg_irrefl n : ¬ edge g n n;
  lg_kinds e : e ∈ g_Edges g →
    if IsDataEdge e
    then pr_Kind (e_From e) = PortOutput ∧ pr_Kind (e_To e) = PortInput ∧ pr_Name (e_From e) ≠ "" ∧ pr_Name (e_To e) ≠ ""
    else IsPort (e_From e) = false ∧ IsPort (e_To e) = false ∧ pr_Name (e_From e) = "" ∧ pr_Name (e_To e) = "";
}.

Section RoundTrip.
Context (g : Graph) (seeds : list string) (d : bool) (X : Memb).
Context (Hg : leaf_graph g) (Hseeds : ∀ n, n ∈ seeds → n ≠ "" ∧ is_Some (g_Nodes g !! n)).
Context (HX : ∀ x, x ∈ X ↔ members_of g seeds d x).
Context (Hsorted : StronglySorted str_lt seeds).

Let mode : string := if d then "downstream" else "exact".

Lemma selected_named x : x ∈ X → x ≠ "".
Proof.
  intros Hx ->. apply HX in Hx. destruct Hg as [Hwf Hc Hn _ _].
  assert ("" ∉ seeds) as Hns by (intros H; by destruct (Hseeds _ H)).
  destruct (members_pred g seeds d "" Hwf Hx Hns) as (p & _ & Hp & _). apply elem_of_in in Hp; [|done].
  destruct (closed_dangling_free g Hwf Hc _ _ Hp) as [_ [? ?]]. congruence.
Qed.

Lemma entry_ok n prev : n ∈ X → (∀ p, prev = Some p → str_lt (sn_Node p) n) →
  check_entry mode (sorted_set X) seeds prev (selection_node g seeds X n) = true.
Proof.
  intros Hn Hprev. unfold check_entry.
  assert (match prev with Some p => bool_decide (str_lt (sn_Node p) n) | None => true end = true) as Hp.
  { destruct prev; [|done]. by apply bool_decide_eq_true, Hprev. }
  assert (mem n (sorted_set X) = true) as Hm by by apply mem_true, sorted_set_elem.
  destruct (decide (n ∈ seeds)) as [Hs|Hs].
  - rewrite selection_node_in by done. simpl. by rewrite (proj2 (mem_true _ _) Hs), Hm, Hp.
  - rewrite selection_node_out by done. simpl. rewrite (proj2 (mem_false _ _) Hs), Hm, Hp. simpl.
    destruct (members_pred g seeds d n (lg_wf _ Hg) (proj1 (HX n) Hn) Hs) as (p & Hpm & Hpn & Hd).
    assert (p ∈ via_of g X n) as Hvia by (apply via_elem; split; [by apply HX|done]).
    unfold mode, check_via. rewrite Hd. rewrite !andb_true_iff, negb_true_iff, bool_decide_eq_false, forallb_forall.
    split_and!; [done..| | | |].
    + intros Hnil. rewrite Hnil in Hvia. by apply elem_of_nil in Hvia.
    + apply is_sorted_spec, StronglySorted_lt_le, via_sorted.
    + intros q Hq%list_elem_of_In. apply via_elem in Hq as [HqX Hq].
      rewrite andb_true_iff, mem_true, negb_true_iff, bool_decide_eq_false, sorted_set_elem. split; [done|].
      intros ->. apply (lg_irrefl _ Hg n). apply elem_of_in; [apply Hg|done].
    + apply bool_decide_eq_true, StronglySorted_lt_NoDup, via_sorted.
Qed.

Lemma entries_ok l : (∀ n, n ∈ l → n ∈ X) → StronglySorted str_lt l →
  ∀ prev, (∀ p n, prev = Some p → n ∈ l → str_lt (sn_Node p) n) →
  check_entries mode (sorted_set X) seeds prev (selection_node g seeds X <$> l) = true.
Proof.
  intros Hl. induction 1 as [|n l Hs IH Hn]; intros prev Hprev; [done|]. simpl.
  rewrite entry_ok; [|apply Hl; by left|intros p Hp; eapply Hprev; [done|by left]]. simpl.
  apply IH; [intros m Hm; apply Hl; by right|]. intros p m [= <-] Hm. rewrite Forall_forall in Hn.
  assert (sn_Node (selection_node g seeds X n) = n) as -> by (unfold selection_node; by destruct (mem n seeds)).
  by apply Hn.
Qed.

Lemma selected_reached x : x ∈ X → ∃ s, s ∈ seeds ∧ rtc (via_rel (selection_node g seeds X <$> sorted_set X)) s x.
Proof.
  intros Hx. pose proof (proj1 (HX x) Hx) as Hm. unfold members_of in Hm. destruct d eqn:Hd.
  - destruct Hm as (s & Hs & Hsx). revert x Hsx Hx. refine (rtc_ind_r _ _ _ _).
    + intros _. exists s. split; [done|apply rtc_refl].
    + intros p x Hsp Hpx IH Hx. destruct (decide (x ∈ seeds)) as [Hxs|Hxs].
      { exists x. split; [done|apply rtc_refl]. }
      assert (p ∈ X) as Hp by (apply HX; simpl; by exists s).
      destruct (IH Hp) as (s' & Hs' & Hsp'). exists s'. split; [done|]. eapply rtc_r; [done|].
      exists (selection_node g seeds X x). rewrite selection_node_out by done. split_and!; [|done|].
      * apply selection_nodes_elem. exists x. by rewrite selection_node_out.
      * simpl. apply via_elem. split; [done|]. apply elem_of_in; [apply Hg|done].
  - exists x. split; [done|apply rtc_refl].
Qed.

Lemma reached_ok s : sel_Requested s = seeds →
  reaches_members s (selection_node g seeds X <$> sorted_set X) (sorted_set X) = true.
Proof.
  intros Hreq. unfold reaches_members. rewrite Hreq.
  set (ns := selection_node g seeds X <$> sorted_set X).
  destruct (close_spec ns (S (length ns)) (list_to_set seeds)) as (R & HR & Hspec).
  { pose proof (length_filter (λ e, sn_Node e ∉ (list_to_set seeds : Memb)) ns). unfold open_entries. lia. }
  rewrite HR. apply bool_decide_eq_true.
  assert (R = X) as ->; [|unfold sorted_set; by rewrite sort_strings_length].
  apply set_eq. intros x. rewrite Hspec. setoid_rewrite elem_of_list_to_set. split.
  - intros (s0 & Hs0 & Hsx). apply rtc_inv_r in Hsx as [<-|(y & _ & e & He & <- & _)].
    + apply HX. destruct d; [|done]. exists s0. split; [done|apply rtc_refl].
    + apply selection_nodes_elem in He as (n & Hn & ->).
      assert (sn_Node (selection_node g seeds X n) = n) as -> by (unfold selection_node; by destruct (mem n seeds)).
      done.
  - apply selected_reached.
Qed.

Lemma boundary_ok es : StronglySorted edge_le es → (∀ e, e ∈ es → e ∈ boundary g X) →
  ∀ prev, (∀ p e, prev = Some p → e ∈ es → edge_le p e) →
  check_boundary (sorted_set X) prev es = true.
Proof.
  induction 1 as [|e es Hs IH He]; intros Hes prev Hprev; [done|]. simpl. apply andb_true_iff. split.
  - destruct (proj1 (boundary_elem g X e)) as [Hin Hx]; [apply Hes; by left|].
    destruct Hg as [Hwf Hc Hnm _ Hk]. specialize (Hk e Hin). destruct (Hc e Hin) as [Hf Ht].
    assert (∀ n, is_Some (g_Nodes g !! n) → n ≠ "") as Hne by (intros n [? ?] ->; congruence).
    unfold check_boundary_edge. rewrite !andb_true_iff, !negb_true_iff, !bool_decide_eq_false, Bool.eqb_false_iff.
    split_and!; [|by apply Hne..| |].
    + destruct prev; [|done]. apply bool_decide_eq_true. eapply Hprev; [done|by left].
    + intros Heq%bool_decide_inj. rewrite !sorted_set_elem in Heq. done.
    + destruct (IsDataEdge e); rewrite !andb_true_iff, ?negb_true_iff, ?bool_decide_eq_true, ?bool_decide_eq_false; naive_solver.
  - apply IH; [intros; apply Hes; by right|]. intros p e' [= <-] He'. rewrite Forall_forall in He. by apply He.
Qed.
End RoundTrip.

(** Every selection [Select] makes on a valid graph passes the validation of
    stored selections against its own names: what a run records can always be
    read back. *)
Theorem Select_validates g r d s : leaf_graph g → Select g (Some r) d = Ok (Some s) →
  ValidateMembership s (Names s) = Ok tt.
Proof.
  intros Hg HS. destruct (Select_Some g (Some r) d s HS) as (r' & X & [= <-] & Hne & Hseeds & HX & ->).
  set (seeds := compact (sort_strings r)) in *.
  assert (StronglySorted str_lt seeds) as Hsorted by apply compact_sorted, sort_strings_sorted.
  assert (∀ x, x ∈ seeds → x ∈ X) as Hsub.
  { intros x Hx. apply HX. destruct d; [|done]. exists x. split; [done|apply rtc_refl]. }
  pose proof (sorted_set_sorted X) as HXs.
  unfold ValidateMembership, Names; simpl. rewrite selection_node_names.
  rewrite (entries_ok g seeds d X Hg HX (sorted_set X)); [|by intros; apply sorted_set_elem|done..].
  rewrite (boundary_ok g seeds d X Hg Hseeds HX); [|apply StronglySorted_merge_sort; apply _|done..].
  assert (reaches_members (MkSelection 1 (if d then "downstream" else "exact") seeds
    (Some (selection_node g seeds X <$> sorted_set X)) (Some (boundary g X)))
    (selection_node g seeds X <$> sorted_set X) (sorted_set X) = true) as ->; [by apply (reached_ok g seeds d X Hg HX)|].
  rewrite length_fmap, !andb_true_r.
  assert (mem "" (sorted_set X) = false) as ->.
  { apply mem_false. rewrite sorted_set_elem. intros Hx. by eapply selected_named. }
  rewrite (proj2 (is_sorted_spec seeds)) by by apply StronglySorted_lt_le.
  assert (forallb (λ name, mem name (sorted_set X)) seeds = true) as ->.
  { apply forallb_forall. intros x Hx%list_elem_of_In. apply mem_true, sorted_set_elem. auto. }
  rewrite (bool_decide_eq_true_2 (NoDup (sorted_set X))) by by apply StronglySorted_lt_NoDup.
  rewrite (bool_decide_eq_true_2 (NoDup seeds)) by by apply StronglySorted_lt_NoDup.
  rewrite (bool_decide_eq_false_2 (seeds = [])) by done. rewrite (bool_decide_eq_true_2 (length (sorted_set X) = _)) by done. by destruct d.
Qed.

Lemma sample_leaf : leaf_graph sample.
Proof.
  split.
  - apply plain_graph_wf.
  - apply (bool_decide_unpack _). vm_compute. exact I.
  - vm_compute. reflexivity.
  - intros n Hn. unfold edge in Hn.
    assert (acyclic sample) as Hac; [|by apply (Hac n), tc_once].
    apply FindCycles_nil; [|vm_compute; reflexivity].
    apply closed_dangling_free; [apply plain_graph_wf|]. apply (bool_decide_unpack _). vm_compute. exact I.
  - assert (Forall (λ e, IsDataEdge e = false ∧ IsPort (e_From e) = false ∧ IsPort (e_To e) = false ∧
      pr_Name (e_From e) = "" ∧ pr_Name (e_To e) = "") (g_Edges sample)) as H
      by (vm_compute; repeat constructor).
    rewrite Forall_forall in H. intros e He. destruct (H e He) as (-> & ? & ? & ? & ?). done.
Qed.

Example Select_validates_witness : ∃ s, Select sample (Some ["a"; "d"]) true = Ok (Some s) ∧
  ValidateMembership s (Names s) = Ok tt.
Proof.
  eexists. assert (Select sample (Some ["a"; "d"]) true = Ok (Some _)) as H by (vm_compute; reflexivity).
  split; [exact H|]. exact (Select_validates sample ["a"; "d"] true _ sample_leaf H).
Defined.
