(* ===== verification/Backend.v ===== *)
(** State addresses (src/internal/graph/backend_address.go,
    backend_identity.go, the backend parts of build.go and validate.go, and
    src/internal/pathidentity/path.go): how a node's backend configuration is
    inherited and filled, which state address it resolves to, and the problems
    reported when two nodes, or a node and the graph lock, may share one.

    The process environment and the file system are not part of the
    repository: they are the parameters [Getenv] and the class [FileSystem]. *)
From S2P Require Import Prelude GoLib Blueprint Module Graph.

(** ** Problems (validate.go) *)

Inductive Severity := SeverityError | SeverityWarning.
#[export] Instance Severity_eq_dec : EqDecision Severity.
Proof. solve_decision. Defined.

Record Problem := MkProblem {
  p_Code : string;
  p_Subject : string;
  p_Remedy : string;
  p_Severity : Severity;
  p_Message : text;
}.

Definition IsError (p : Problem) : bool := bool_decide (p_Severity p = SeverityError).

(** ** Inheritance and generated addresses *)

Definition mergeEnv (base override : gmap string string) : gmap string string := override ∪ base.

(** An empty, non-nil override stops inheritance. *)
Definition mergeBackendAddress (base override : option (gmap string string)) : option (gmap string string) :=
  match override with
  | Some o => if decide (o = ∅) then Some o
              else Some (mergeEnv (default ∅ base) o)
  | None => if decide (default ∅ base = ∅) then None else base
  end.

(** The generated key: prefix, qualified node name, file name. *)
Definition s3_file_name (address : gmap string string) : string :=
  let name := default "" (address !! "s3_key_name") in
  if decide (name = "") then "terraform.tfstate" else name.

Definition s3_key (n : Node) : string :=
  let address := default ∅ (bn_BackendAddress n) in
  let key := bn_Name n +:+ "/" +:+ s3_file_name address in
  let prefix := default "" (address !! "s3_key_prefix") in
  if decide (prefix = "") then key else trim_suffix prefix "/" +:+ "/" +:+ key.

Definition fillBackendAddress (n : Node) (schema : option Schema) : result (gmap string string) :=
  let address := default ∅ (bn_BackendAddress n) in
  match schema with
  | None => Ok (bn_BackendConfig n)
  | Some s =>
    if bool_decide (address = ∅) || negb (bool_decide (s_Backend s = "s3")) then Ok (bn_BackendConfig n)
    else if bool_decide (is_Some (bn_BackendConfig n !! "key")) then Ok (bn_BackendConfig n)
    else if bool_decide (is_Some (s_BackendConfig s !! "key"))
            || default false (s_BackendAttributes s ≫= λ m, m !! "key") then Ok (bn_BackendConfig n)
    else match s_BackendAttributes s with
    | None => Err (Errorf "node.%s.backend_address: cannot establish whether the module declares a key; set backend_config.key explicitly or disable generation with backend_address = {}" [FStr (bn_Name n)])
    | Some _ =>
      Ok (<["key" := s3_key n]> (bn_BackendConfig n))
    end
  end.

Definition managedStatePath (rootDir name : string) : string :=
  Join [rootDir; ".terragraph"; "state"; name +:+ ".tfstate"].

Definition fillLocalBackendPath (cfg : gmap string string) (schema : option Schema) (rootDir name : string) :
    gmap string string :=
  match schema with
  | None => cfg
  | Some s =>
    if negb (bool_decide (s_Backend s = "local")) then cfg
    else if decide (default "" (cfg !! "path") ≠ "") then cfg
    else <["path" := managedStatePath rootDir name]> cfg
  end.

(** ** Path identity (pathidentity/path.go) *)

(** What [os.Stat] answers: a file (up to [os.SameFile]), nothing, or an error. *)
Inductive stat_result := StatFile (id : Z) | StatMissing | StatError (e : error).

Class FileSystem := {
  Abs : string → result string;
  Stat : string → stat_result;
  IsSymlink : string → bool;
  EqualFold : string → string → bool;
  caseInsensitive : string → result (bool * bool);
}.

Section PathIdentity.
Context `{FileSystem}.

(** [filepath.Abs] returns a cleaned absolute path: the loop of
    [existingAncestor] drops its last component ([filepath.Dir]) until
    something exists or the root is its own parent.  The path is kept as its
    components, last first. *)
Definition path_components (p : string) : list string := rev (filter (λ c, c ≠ "") (split_on slash p)).
Definition path_string (comps : list string) : string := "/" +:+ join (rev comps) "/".

Fixpoint existingAncestor (comps : list string) (tail : string) : result (string * string * option Z) :=
  let path := path_string comps in
  match Stat path with
  | StatFile id => Ok (path, tail, Some id)
  | StatError e => Err (Errorf "inspecting path %s: %w" [FStr path; FErr e])
  | StatMissing =>
    if IsSymlink path then Ok ("", "", None)
    else match comps with
         | [] => Ok ("", "", None)
         | base :: parent => existingAncestor parent (Join [base; tail])
         end
  end.

Definition climb (path : string) : result (string * string * option Z) :=
  existingAncestor (path_components path) "".

Definition Same_path (a b : string) : result (bool * bool) :=
  a ← wrap_err (λ err, Errorf "resolving path: %w" [FErr err]) (Abs a);
  b ← wrap_err (λ err, Errorf "resolving path: %w" [FErr err]) (Abs b);
  if decide (a = b) then Ok (true, true)
  else
    '(parentA, tailA, infoA) ← climb a;
    '(_, tailB, infoB) ← climb b;
    match infoA, infoB with
    | Some ia, Some ib =>
      if negb (bool_decide (ia = ib)) then Ok (false, true)
      else if decide (tailA = tailB) then Ok (true, true)
      else if negb (EqualFold tailA tailB) then Ok (false, true)
      else wrap_err (λ err, Errorf "reading directory case rules for %s: %w" [FStr parentA; FErr err])
             (caseInsensitive parentA)
    | _, _ => Ok (false, false)
    end.
End PathIdentity.

(** What the graph relies on: a path is known to be the same as itself. *)
Class PathIdentity := {
  Same : string → string → result (bool * bool);
  Same_refl a : isAbs a = true → Same a a = Ok (true, true);
}.

(** The package meets it when making an absolute path absolute succeeds. *)
Definition pathidentity `{FileSystem} (HAbs : ∀ a, isAbs a = true → ∃ b, Abs a = Ok b) : PathIdentity.
Proof.
  refine {| Same := Same_path |}. intros a Ha. destruct (HAbs a Ha) as [b Hb].
  unfold Same_path. rewrite Hb. simpl. by rewrite decide_True.
Defined.

(** ** Resolved addresses (backend_identity.go) *)

Section Identity.
Context `{PathIdentity} (Getenv : string → string).

Definition effectiveBackendConfig (n : GNode) : gmap string string :=
  match n_Schema n with
  | None => bn_BackendConfig (n_Node n)
  | Some s => mergeEnv (s_BackendConfig s) (bn_BackendConfig (n_Node n))
  end.

Definition nodeEnvironment (n : GNode) (key : string) : string :=
  match n_Env n !! key with Some v => v | None => Getenv key end.

(** [x := first; if x == "" { x = second }] *)
Definition or_else (x y : string) : string := if decide (x = "") then y else x.

Definition cfg_get (cfg : gmap string string) (key : string) : string := default "" (cfg !! key).

Definition named_workspace (n : GNode) : option string :=
  let w := nodeEnvironment n "TF_WORKSPACE" in
  if decide (w ≠ "" ∧ w ≠ "default") then Some w else None.

Definition localStatePath (n : GNode) : option string :=
  match n_Schema n with
  | None => None
  | Some s =>
    if negb (s_BackendConfigKnown s)
       || (negb (bool_decide (s_Backend s = "")) && negb (bool_decide (s_Backend s = "local")))
       || bool_decide (n_Dir n = "") then None
    else
      let cfg := effectiveBackendConfig n in
      let state := match named_workspace n with
        | Some w => Join [or_else (cfg_get cfg "workspace_dir") "terraform.tfstate.d"; w; "terraform.tfstate"]
        | None => or_else (cfg_get cfg "path") "terraform.tfstate"
        end in
      Some (if isAbs state then state else Join [n_Dir n; state])
  end.

Record s3StateAddress := MkS3 { a_bucket : string; a_key : string; a_endpoint : string; a_partition : string }.
#[export] Instance s3StateAddress_eq_dec : EqDecision s3StateAddress.
Proof. solve_decision. Defined.
Definition no_address : s3StateAddress := MkS3 "" "" "" "".

Definition awsPartition (region : string) : string :=
  if bool_decide (region = "") || contains region "-iso" then ""
  else if has_prefix region "cn-" then "aws-cn"
  else if has_prefix region "us-gov-" then "aws-us-gov"
  else "aws".

Definition s3Address (n : GNode) : s3StateAddress * bool :=
  match n_Schema n with
  | None => (no_address, false)
  | Some s =>
    if negb (s_BackendConfigKnown s) || negb (bool_decide (s_Backend s = "s3")) then (no_address, false)
    else
      let cfg := effectiveBackendConfig n in
      if bool_decide (cfg_get cfg "bucket" = "") || bool_decide (cfg_get cfg "key" = "") then (no_address, false)
      else
        let key := match named_workspace n with
          | Some w => Join [default "env:" (cfg !! "workspace_key_prefix"); w; cfg_get cfg "key"]
          | None => cfg_get cfg "key"
          end in
        let endpoint := or_else (or_else (cfg_get cfg "endpoint") (nodeEnvironment n "AWS_ENDPOINT_URL_S3"))
                          (nodeEnvironment n "AWS_ENDPOINT_URL") in
        let region := or_else (or_else (cfg_get cfg "region") (nodeEnvironment n "AWS_REGION"))
                        (nodeEnvironment n "AWS_DEFAULT_REGION") in
        let partition := awsPartition region in
        (MkS3 (cfg_get cfg "bucket") key endpoint partition, negb (bool_decide (partition = "")))
  end.

Definition possibleS3Collision (a b : s3StateAddress) : bool :=
  negb (bool_decide (a_bucket a = "")) && negb (bool_decide (a_key a = ""))
  && bool_decide (a_bucket a = a_bucket b) && bool_decide (a_key a = a_key b)
  && (bool_decide (a_endpoint a = "") || bool_decide (a_endpoint b = "") || bool_decide (a_endpoint a = a_endpoint b))
  && (bool_decide (a_partition a = "") || bool_decide (a_partition b = "")).

Definition pair_subject (a b : string) : string := "node." +:+ a +:+ ",node." +:+ b.

Definition local_pair_problems (aName bName : string) (a b : GNode) : list Problem :=
  match localStatePath a, localStatePath b with
  | Some aPath, Some bPath =>
    match Same aPath bPath with
    | Err err => [MkProblem "state_identity_failed" (pair_subject aName bName) "make state parent directories accessible" SeverityError
        (Sprintf "node.%s and node.%s: checking local state paths: %v; make their parent directories accessible" [FStr aName; FStr bName; FErr err])]
    | Ok (same, known) =>
      if known && same then [MkProblem "state_conflict" (pair_subject aName bName) "set distinct backend_config.path values" SeverityError
        (Sprintf "node.%s and node.%s resolve to the same local state; set distinct backend_config.path values or remove the source/path alias" [FStr aName; FStr bName])]
      else if negb known then [MkProblem "state_identity_unverified" (pair_subject aName bName) "verify distinct state paths" SeverityWarning
        (Sprintf "node.%s and node.%s: local state path separation could not be verified; use distinct paths or verify their parent directories" [FStr aName; FStr bName])]
      else []
    end
  | _, _ => []
  end.

Definition s3_pair_problems (aName bName : string) (a b : GNode) : list Problem :=
  let '(aAddr, knownA) := s3Address a in
  let '(bAddr, knownB) := s3Address b in
  if knownA && knownB && bool_decide (aAddr = bAddr) then
    [MkProblem "state_conflict" (pair_subject aName bName) "set distinct backend bucket and key addresses" SeverityError
      (Sprintf "node.%s and node.%s resolve to the same s3 state; set distinct backend bucket/key addresses" [FStr aName; FStr bName])]
  else if possibleS3Collision aAddr bAddr then
    [MkProblem "state_identity_unverified" (pair_subject aName bName) "verify distinct S3 state namespaces" SeverityWarning
      (Sprintf "node.%s and node.%s may resolve to the same s3 state because the AWS partition is not statically known; set explicit backend region and endpoint settings where applicable and verify that the resolved bucket/key namespaces are distinct" [FStr aName; FStr bName])]
  else [].

Definition pair_problems (aName bName : string) (a b : GNode) : list Problem :=
  if bool_decide (n_Dir a = n_Dir b) && bool_decide (bn_BackendConfig (n_Node a) = bn_BackendConfig (n_Node b)) then []
  else local_pair_problems aName bName a b ++ s3_pair_problems aName bName a b.

(** [for i, a := range names { for _, b := range names[i+1:] { ... } }] *)
Fixpoint for_pairs {A} (f : string → string → list A) (l : list string) : list A :=
  match l with
  | [] => []
  | a :: rest => concat (f a <$> rest) ++ for_pairs f rest
  end.

Definition knownBackendProblems (g : Graph) : list Problem :=
  for_pairs (λ aName bName,
    match g_Nodes g !! aName, g_Nodes g !! bName with
    | Some a, Some b => pair_problems aName bName a b
    | _, _ => []
    end) (names g).

(** ** Backend blocks and shared directories (validate.go) *)

Definition schema_backend (n : GNode) : string :=
  match n_Schema n with Some s => s_Backend s | None => "" end.

Definition node_backend_problems (name : string) (n : GNode) : list Problem :=
  let cfg := bn_BackendConfig (n_Node n) in
  let missing :=
    if negb (bool_decide (cfg = ∅))
       && (bool_decide (schema_backend n = "") || bool_decide (schema_backend n = "cloud")) then
      [MkProblem "backend_missing" ("node." +:+ name) "declare a backend block or remove backend_config" SeverityError
        (Sprintf "node.%s: backend_config is set but the module declares no backend block" [FStr name])]
    else [] in
  let statePath := cfg_get cfg "path" in
  let relative :=
    if bool_decide (is_Some (n_Schema n)) && bool_decide (schema_backend n = "local")
       && negb (bool_decide (statePath = "")) && negb (isAbs statePath) then
      [MkProblem "relative_state_path" ("node." +:+ name +:+ ".backend_config.path") "use an absolute state path outside the module" SeverityWarning
        (Sprintf "node.%s.backend_config.path: relative path %q for the default workspace is resolved from module directory %q, not the blueprint directory; use an absolute path outside the module or omit backend_config.path to use the managed state path"
           [FStr name; FStr statePath; FStr (n_Dir n)])]
    else [] in
  missing ++ relative.

(** [g.Nodes[name]] for a name of the graph. *)
Definition for_node {A} (g : Graph) (f : string → GNode → list A) (name : string) : list A :=
  match g_Nodes g !! name with Some n => f name n | None => [] end.

Definition byDir (g : Graph) : gmap string (list string) :=
  foldl (λ m name, match g_Nodes g !! name with
                   | Some n => if decide (n_Dir n = "") then m else push_adj m (n_Dir n) name
                   | None => m
                   end) ∅ (names g).

Definition partition : Type := gmap string string * list string.

Fixpoint add_part (parts : list partition) (cfg : gmap string string) (name : string) : list partition :=
  match parts with
  | [] => [(cfg, [name])]
  | p :: rest => if decide (p.1 = cfg) then (p.1, p.2 ++ [name]) :: rest else p :: add_part rest cfg name
  end.

Definition node_config (g : Graph) (name : string) : gmap string string :=
  match g_Nodes g !! name with Some n => bn_BackendConfig (n_Node n) | None => ∅ end.

Definition parts_of (g : Graph) (nodesInDir : list string) : list partition :=
  foldl (λ parts name, add_part parts (node_config g name) name) [] nodesInDir.

Definition dir_problems (g : Graph) (dir : string) (nodesInDir : list string) : list Problem :=
  if Nat.ltb (length nodesInDir) 2 then []
  else concat ((λ p : partition,
    if Nat.ltb (length p.2) 2 then []
    else [MkProblem "backend_conflict" dir "configure distinct backend addresses for these nodes" SeverityError
           (Sprintf "%s: nodes %s share this module directory but resolve to identical backend_config"
              [FStr dir; FStr (join p.2 ", ")])]) <$> parts_of g nodesInDir).

Definition backendProblems (g : Graph) : list Problem :=
  concat (for_node g node_backend_problems <$> names g) ++
  concat ((λ dir, dir_problems g dir (default [] (byDir g !! dir))) <$> sorted_keys (byDir g)).

(** ** The graph lock (validate.go) *)

Definition remoteLockBackends : list string := ["s3"; "gcs"; "azurerm"; "http"; "remote"; "cloud"].

Definition lock_address (l : S3Lock) : s3StateAddress :=
  MkS3 (sl_Bucket l) (sl_Key l) (or_else (Getenv "AWS_ENDPOINT_URL_S3") (Getenv "AWS_ENDPOINT_URL"))
    (awsPartition (sl_Region l)).

Definition lock_collision (lock : Lock) (n : GNode) : bool * bool :=
  match lk_S3 lock with
  | None => (false, false)
  | Some s3 =>
    let cfg := bn_BackendConfig (n_Node n) in
    let conservative := negb (bool_decide (sl_Key s3 = "")) && bool_decide (schema_backend n = "s3")
      && bool_decide (cfg_get cfg "key" = sl_Key s3)
      && (bool_decide (cfg_get cfg "bucket" = "") || bool_decide (cfg_get cfg "bucket" = sl_Bucket s3)) in
    let '(address, known) := s3Address n in
    (if known then bool_decide (address = lock_address s3) else conservative,
     possibleS3Collision address (lock_address s3))
  end.

Definition lock_node_problems (lock : Lock) (name : string) (n : GNode) : list Problem :=
  let backend := schema_backend n in
  let required :=
    if mem backend remoteLockBackends then []
    else
      let what := if decide (backend = "") then Sprintf "this module has no backend block" []
                  else Sprintf "this module has backend %q" [FStr backend] in
      [MkProblem "remote_backend_required" ("node." +:+ name) "use a remote state backend with a remote graph lock" SeverityError
        (Sprintf "node.%s: remote lock requires a remote backend (s3, gcs, azurerm, http, remote, or cloud); %s"
           [FStr name; FErr (Errorf what.1 what.2)])] in
  let '(collision, possible) := lock_collision lock n in
  let conflict :=
    if collision then
      [MkProblem "lock_state_conflict" ("node." +:+ name) "use distinct keys for graph lock and state" SeverityError
        (Sprintf "node.%s: graph lock key %q must not be a node's state key"
           [FStr name; FStr (match lk_S3 lock with Some s3 => sl_Key s3 | None => "" end)])]
    else if possible then
      [MkProblem "lock_state_unverified" ("node." +:+ name) "verify distinct lock and state addresses" SeverityWarning
        (Sprintf "node.%s: graph lock may share the node's s3 state because the AWS partition is not statically known; set explicit backend region and endpoint settings where applicable and verify that the resolved lock and state namespaces are distinct" [FStr name])]
    else [] in
  required ++ conflict.

Definition remoteLockProblems (g : Graph) : list Problem :=
  match g_Lock g with
  | None => []
  | Some lock => concat (for_node g (lock_node_problems lock) <$> names g)
  end.
End Identity.

(** ** Lemmas *)

Lemma for_pairs_elem {A} (f : string → string → list A) l a b : a ∈ l → b ∈ l → a ≠ b →
  (∀ x, x ∈ f a b → x ∈ for_pairs f l) ∨ (∀ x, x ∈ f b a → x ∈ for_pairs f l).
Proof.
  induction l as [|c l IH]; intros Ha Hb Hne; [by apply elem_of_nil in Ha|].
  apply elem_of_cons in Ha as [->|Ha], Hb as [->|Hb]; [done| | |].
  - left. intros x Hx. simpl. apply elem_of_app. left. apply elem_of_concat.
    exists (f c b). split; [apply list_elem_of_fmap; by exists b|done].
  - right. intros x Hx. simpl. apply elem_of_app. left. apply elem_of_concat.
    exists (f c a). split; [apply list_elem_of_fmap; by exists a|done].
  - destruct (IH Ha Hb Hne) as [H|H]; [left|right]; intros x Hx; simpl; apply elem_of_app; right; auto.
Qed.

Lemma for_node_elem {A} g (f : string → GNode → list A) name n x :
  g_Nodes g !! name = Some n → x ∈ f name n → x ∈ concat (for_node g f <$> names g).
Proof.
  intros Hn Hx. apply elem_of_concat. exists (for_node g f name). split.
  - apply list_elem_of_fmap. exists name. split; [done|]. apply names_elem. by eexists.
  - unfold for_node. by rewrite Hn.
Qed.

Lemma byDir_elem g a n : g_Nodes g !! a = Some n → n_Dir n ≠ "" → a ∈ default [] (byDir g !! n_Dir n).
Proof.
  intros Ha Hd. unfold byDir.
  assert (a ∈ names g) as Hin by (apply names_elem; by eexists). revert Hin.
  set (step := λ (m : gmap string (list string)) name, _).
  assert (∀ l m, (a ∈ default [] (m !! n_Dir n) ∨ a ∈ l) → a ∈ default [] (foldl step m l !! n_Dir n)) as H.
  { induction l as [|b l IH]; intros m Hm; simpl; [set_solver|]. apply IH.
    destruct (decide (a = b)) as [<-|Hne].
    - left. unfold step. rewrite Ha, decide_False by done. rewrite push_adj_lookup, decide_True by done. set_solver.
    - destruct Hm as [Hm|[Hm|Hm]%elem_of_cons]; [left|done|by right].
      unfold step. destruct (g_Nodes g !! b); [case_decide|]; [done| |done]. rewrite push_adj_lookup. set_solver. }
  intros Hin. apply H. by right.
Qed.

(** Every name lands in a part with its configuration, and parts differ. *)
Definition parts_ok (g : Graph) (l : list string) (parts : list partition) : Prop :=
  NoDup parts.*1 ∧ ∀ x, x ∈ l → ∃ p, p ∈ parts ∧ p.1 = node_config g x ∧ x ∈ p.2.

Lemma add_part_keys parts cfg name :
  (add_part parts cfg name).*1 = if decide (cfg ∈ parts.*1) then parts.*1 else parts.*1 ++ [cfg].
Proof.
  induction parts as [|p parts IH]; [done|]. cbn [add_part].
  destruct (decide (p.1 = cfg)) as [<-|Hne].
  - rewrite decide_True; [done|]. rewrite fmap_cons. left.
  - rewrite !fmap_cons, IH. destruct (decide (cfg ∈ parts.*1)) as [Hin|Hin].
    + rewrite decide_True; [done|]. by right.
    + rewrite decide_False; [done|]. intros [?|?]%elem_of_cons; congruence.
Qed.

Lemma add_part_new parts cfg name : ∃ p, p ∈ add_part parts cfg name ∧ p.1 = cfg ∧ name ∈ p.2.
Proof.
  induction parts as [|p parts (q & Hq & ? & ?)]; simpl.
  - exists (cfg, [name]). set_solver.
  - case_decide as Hp; [exists (p.1, p.2 ++ [name]); set_solver|exists q; set_solver].
Qed.

Lemma add_part_old parts cfg name q x : q ∈ parts → x ∈ q.2 →
  ∃ p, p ∈ add_part parts cfg name ∧ p.1 = q.1 ∧ x ∈ p.2.
Proof.
  induction parts as [|p parts IH]; intros Hq Hx; simpl; [set_solver|].
  apply elem_of_cons in Hq as [->|Hq].
  - case_decide; [exists (p.1, p.2 ++ [name]); set_solver|exists p; set_solver].
  - case_decide; [exists q; set_solver|]. destruct (IH Hq Hx) as (p' & ? & ? & ?). exists p'. set_solver.
Qed.

Lemma parts_of_ok g l : parts_ok g l (parts_of g l).
Proof.
  unfold parts_of. assert (∀ l done parts, parts_ok g done parts →
    parts_ok g (done ++ l) (foldl (λ parts name, add_part parts (node_config g name) name) parts l)) as H.
  { clear l. induction l as [|a l IH]; intros dn parts [Hnd Hp]; simpl; [by rewrite app_nil_r|].
    rewrite (cons_middle a dn l), (assoc_L (++)). apply IH. split.
    - rewrite add_part_keys. case_decide as Hin; [done|]. apply NoDup_app. split_and!; [done|set_solver|].
      apply NoDup_singleton.
    - intros x [Hx| ->%list_elem_of_singleton]%elem_of_app; [|by apply add_part_new].
      destruct (Hp x Hx) as (q & Hq & <- & Hxq). by apply add_part_old. }
  apply (H l [] []). split; [constructor|]. intros x Hx. by apply elem_of_nil in Hx.
Qed.

Lemma shared_dir_problem g dir l a b : a ∈ l → b ∈ l → a ≠ b → node_config g a = node_config g b →
  ∃ p, p ∈ dir_problems g dir l ∧ IsError p = true.
Proof.
  intros Ha Hb Hne Hcfg. destruct (parts_of_ok g l) as [Hnd Hp].
  destruct (Hp a Ha) as (pa & Hpa & Ea & Hapa), (Hp b Hb) as (pb & Hpb & Eb & Hbpb).
  assert (pa = pb) as <-.
  { apply list_elem_of_lookup in Hpa as [i Hi], Hpb as [j Hj].
    assert (i = j); [|congruence]. apply (NoDup_lookup _ i j (node_config g a) Hnd).
    - by rewrite list_lookup_fmap, Hi; simpl; f_equal.
    - rewrite list_lookup_fmap, Hj; simpl. by rewrite Eb, Hcfg. }
  assert (∀ m : list string, a ∈ m → b ∈ m → Nat.ltb (length m) 2 = false) as Hlen.
  { intros [|x [|y m]] Hx Hy; [set_solver| |done]. apply list_elem_of_singleton in Hx, Hy. congruence. }
  unfold dir_problems. rewrite (Hlen l Ha Hb). eexists. split.
  - apply elem_of_concat. eexists. split; [apply list_elem_of_fmap; by exists pa|].
    rewrite (Hlen pa.2) by done. by left.
  - done.
Qed.

(** ** Generated keys *)

Definition slash_free (s : string) : Prop := slash ∉ chars s.

Lemma last_slash a b x y : slash_free x → slash_free y →
  a +:+ "/" +:+ x = b +:+ "/" +:+ y → a = b ∧ x = y.
Proof.
  intros Hx Hy Heq. by apply (last_sep slash).
Qed.

(** The shape of a generated key. *)
Lemma s3_key_shape n : ∃ prefix, (prefix = "" ∨ ∃ p, prefix = p +:+ "/") ∧
  s3_key n = prefix +:+ bn_Name n +:+ "/" +:+ s3_file_name (default ∅ (bn_BackendAddress n)).
Proof.
  unfold s3_key. case_decide.
  - by exists ""; split; [left|].
  - eexists (_ +:+ "/"). split; [right; by eexists|by rewrite <-string_app_assoc].
Qed.

Lemma fill_generated n schema cfg : fillBackendAddress n schema = Ok cfg →
  cfg = bn_BackendConfig n ∨
  (cfg = <["key" := s3_key n]> (bn_BackendConfig n) ∧ bn_BackendConfig n !! "key" = None ∧
   ∃ s, schema = Some s ∧ s_Backend s = "s3" ∧ s_BackendConfig s !! "key" = None).
Proof.
  unfold fillBackendAddress. destruct schema as [s|]; [|naive_solver].
  case_match eqn:H1; [naive_solver|]. case_match eqn:H2; [naive_solver|]. case_match eqn:H3; [naive_solver|].
  case_match; [|naive_solver]. intros [= <-]. right.
  apply orb_false_iff in H1 as [_ H1], H3 as [H3 _]. apply negb_false_iff, bool_decide_eq_true in H1.
  apply bool_decide_eq_false in H2, H3. rewrite <-eq_None_not_Some in H2, H3.
  split_and!; [done..|]. by exists s.
Qed.

(** An address the user or the module wrote is never replaced by a
    generated one, and two generated S3 keys of nodes with different names
    never coincide, whatever prefixes they inherit (names and file names hold
    no slash, which the parser enforces): repeated group instances cannot
    share a generated state. *)
Theorem generated_keys_distinct a b sa sb ca cb ka kb :
  fillBackendAddress a sa = Ok ca → fillBackendAddress b sb = Ok cb →
  (∀ k, bn_BackendConfig a !! "key" = Some k → ca = bn_BackendConfig a) ∧
  (bn_BackendConfig a !! "key" = None → bn_BackendConfig b !! "key" = None →
   ca !! "key" = Some ka → cb !! "key" = Some kb →
   slash_free (bn_Name a) → slash_free (bn_Name b) →
   slash_free (s3_file_name (default ∅ (bn_BackendAddress a))) →
   slash_free (s3_file_name (default ∅ (bn_BackendAddress b))) →
   bn_Name a ≠ bn_Name b → ka ≠ kb).
Proof.
  intros Ha Hb. apply fill_generated in Ha, Hb. split.
  { intros k Hk. destruct Ha as [Ha|(_ & Ha & _)]; [done|congruence]. }
  intros Hna Hnb Hka Hkb Hsa Hsb Hfa Hfb Hne ->. apply Hne.
  destruct Ha as [->|[-> _]]; [congruence|]. destruct Hb as [->|[-> _]]; [congruence|].
  rewrite lookup_insert_eq in Hka, Hkb. injection Hka as Hka. injection Hkb as Hkb.
  destruct (s3_key_shape a) as (pa & Hpa & Ea), (s3_key_shape b) as (pb & Hpb & Eb).
  rewrite Ea in Hka. rewrite Eb in Hkb. rewrite <-Hka in Hkb. rewrite !string_app_assoc in Hkb.
  rewrite <-!(string_app_assoc _ "/") in Hkb. apply last_slash in Hkb as [Hkb _]; [|done..].
  assert (∀ x y, slash_free y → ¬ (∃ p, y = p +:+ "/" +:+ x)) as Hno.
  { intros x y Hy [p ->]. apply Hy. rewrite !chars_app. set_solver. }
  destruct Hpa as [->|[qa ->]], Hpb as [->|[qb ->]].
  - done.
  - simpl in Hkb. destruct (Hno (bn_Name b) (bn_Name a) Hsa). exists qb.
    rewrite string_app_assoc. first [exact Hkb|symmetry; exact Hkb].
  - simpl in Hkb. destruct (Hno (bn_Name a) (bn_Name b) Hsb). exists qa.
    rewrite string_app_assoc. first [exact Hkb|symmetry; exact Hkb].
  - rewrite <-!string_app_assoc in Hkb. by apply last_slash in Hkb as [_ ?].
Qed.

Definition s3_schema : Schema :=
  MkSchema false ∅ ∅ ∅ "s3" {[ "bucket" := "b"; "region" := "eu-west-1" ]} (Some {[ "bucket" := true; "region" := true ]}) true ∅.
Definition addressed (name : string) : Node :=
  MkNode ∅ ∅ name "./m" ∅ (Some {[ "s3_key_prefix" := "prod/" ]}) ∅ "" ∅ "".

Example generated_keys_distinct_witness :
  fillBackendAddress (addressed "a.x") (Some s3_schema) = Ok {[ "key" := "prod/a.x/terraform.tfstate" ]} ∧
  "prod/a.x/terraform.tfstate" ≠ "prod/b.x/terraform.tfstate".
Proof.
  assert (fillBackendAddress (addressed "a.x") (Some s3_schema) = Ok {[ "key" := "prod/a.x/terraform.tfstate" ]}) as Ha
    by (vm_compute; reflexivity).
  assert (fillBackendAddress (addressed "b.x") (Some s3_schema) = Ok {[ "key" := "prod/b.x/terraform.tfstate" ]}) as Hb
    by (vm_compute; reflexivity).
  split; [exact Ha|].
  refine (proj2 (generated_keys_distinct (addressed "a.x") (addressed "b.x") _ _ _ _ _ _ Ha Hb)
    eq_refl eq_refl eq_refl eq_refl _ _ _ _ _);
    try (unfold slash_free; apply (bool_decide_unpack _); vm_compute; exact I).
Defined.

(** ** State isolation *)

Section Isolation.
Context `{PathIdentity} (Getenv : string → string).

Lemma local_conflict aName bName a b p : localStatePath Getenv a = Some p → localStatePath Getenv b = Some p →
  isAbs p = true → ∃ q, q ∈ local_pair_problems Getenv aName bName a b ∧ IsError q = true.
Proof.
  intros Ha Hb Habs. unfold local_pair_problems. rewrite Ha, Hb, Same_refl by done. simpl.
  eexists. split; [by left|done].
Qed.

Lemma s3_conflict aName bName a b addr : s3Address Getenv a = (addr, true) → s3Address Getenv b = (addr, true) →
  ∃ q, q ∈ s3_pair_problems Getenv aName bName a b ∧ IsError q = true.
Proof.
  intros Ha Hb. unfold s3_pair_problems. rewrite Ha, Hb. simpl.
  rewrite bool_decide_eq_true_2 by done. eexists. split; [by left|done].
Qed.

(** Same directory and same configuration: reported by [backendProblems]. *)
Lemma shared_config_problem g a b na nb : g_Nodes g !! a = Some na → g_Nodes g !! b = Some nb → a ≠ b →
  n_Dir na = n_Dir nb → n_Dir na ≠ "" → bn_BackendConfig (n_Node na) = bn_BackendConfig (n_Node nb) →
  ∃ q, q ∈ backendProblems g ∧ IsError q = true.
Proof.
  intros Ha Hb Hne Hd Hdne Hcfg.
  assert (a ∈ default [] (byDir g !! n_Dir na)) as Hai by by apply byDir_elem.
  assert (b ∈ default [] (byDir g !! n_Dir na)) as Hbi by (rewrite Hd; apply byDir_elem; congruence).
  destruct (shared_dir_problem g (n_Dir na) _ a b Hai Hbi Hne) as (q & Hq & He).
  { unfold node_config. by rewrite Ha, Hb. }
  exists q. split; [|done]. unfold backendProblems. apply elem_of_app. right. apply elem_of_concat.
  eexists. split; [|exact Hq]. apply list_elem_of_fmap. exists (n_Dir na). split; [done|].
  apply sorted_keys_elem. destruct (byDir g !! n_Dir na); [by eexists|by apply elem_of_nil in Hai].
Qed.

(** A problem of either order of a pair is reported. *)
Lemma pair_problem g a b na nb :
  g_Nodes g !! a = Some na → g_Nodes g !! b = Some nb → a ≠ b →
  (n_Dir na = n_Dir nb → bn_BackendConfig (n_Node na) = bn_BackendConfig (n_Node nb) → False) →
  (∀ x y nx ny, x ≠ y → (nx, ny) = (na, nb) ∨ (nx, ny) = (nb, na) →
     ∃ q, q ∈ local_pair_problems Getenv x y nx ny ++ s3_pair_problems Getenv x y nx ny ∧ IsError q = true) →
  ∃ q, q ∈ knownBackendProblems Getenv g ∧ IsError q = true.
Proof.
  intros Ha Hb Hne Hdiff HP. unfold knownBackendProblems.
  set (f := λ aName bName, _).
  assert (∀ x y nx ny, g_Nodes g !! x = Some nx → g_Nodes g !! y = Some ny → x ≠ y →
    (nx, ny) = (na, nb) ∨ (nx, ny) = (nb, na) → ∃ q, q ∈ f x y ∧ IsError q = true) as Hf.
  { intros x y nx ny Hx Hy Hxy Hcase. unfold f. rewrite Hx, Hy. unfold pair_problems.
    rewrite (proj2 (andb_false_iff _ _)); [by apply HP|].
    rewrite !bool_decide_eq_false. destruct Hcase; simplify_eq;
      destruct (decide (n_Dir na = n_Dir nb)) as [Hd|Hd]; [right|left|right|left]; try congruence;
      intros Hc; by apply Hdiff. }
  assert (a ∈ names g ∧ b ∈ names g) as [Hai Hbi] by (split; apply names_elem; by eexists).
  destruct (for_pairs_elem f (names g) a b Hai Hbi Hne) as [Hp|Hp].
  - destruct (Hf a b na nb Ha Hb Hne (or_introl eq_refl)) as (q & Hq & He). eauto.
  - destruct (Hf b a nb na Hb Ha (not_eq_sym Hne) (or_intror eq_refl)) as (q & Hq & He). eauto.
Qed.

(** C17: no two nodes of a graph whose backend checks report no error share a
    state: they differ in directory or configuration, their known local state
    files differ, and so do their completely known S3 addresses. *)
Theorem state_isolated g a b na nb :
  (∀ q, q ∈ backendProblems g ++ knownBackendProblems Getenv g → IsError q = false) →
  g_Nodes g !! a = Some na → g_Nodes g !! b = Some nb → a ≠ b → n_Dir na ≠ "" →
  ¬ (n_Dir na = n_Dir nb ∧ bn_BackendConfig (n_Node na) = bn_BackendConfig (n_Node nb)) ∧
  (∀ p, isAbs p = true → localStatePath Getenv na = Some p → localStatePath Getenv nb ≠ Some p) ∧
  (∀ addr, s3Address Getenv na = (addr, true) → s3Address Getenv nb ≠ (addr, true)).
Proof.
  intros Hok Ha Hb Hne Hdne.
  assert (¬ ∃ q, q ∈ backendProblems g ++ knownBackendProblems Getenv g ∧ IsError q = true) as Hno.
  { intros (q & Hq & He). rewrite Hok in He; done. }
  assert (n_Dir na = n_Dir nb → bn_BackendConfig (n_Node na) = bn_BackendConfig (n_Node nb) → False) as Hdiff.
  { intros Hd Hc. destruct (shared_config_problem g a b na nb) as (q & Hq & He); [done..|].
    apply Hno. exists q. rewrite elem_of_app. auto. }
  assert (∀ P : Prop, (P → ∃ q, q ∈ knownBackendProblems Getenv g ∧ IsError q = true) → ¬ P) as Hrefute.
  { intros P HP Hp. destruct (HP Hp) as (q & Hq & He). apply Hno. exists q. rewrite elem_of_app. auto. }
  split_and!; [naive_solver| |].
  - intros p Habs Hpa. apply Hrefute. intros Hpb.
    eapply (pair_problem g a b na nb); [done..|]. intros x y nx ny _ Hcase.
    destruct (local_conflict x y nx ny p) as (q & Hq & He); [destruct Hcase; simplify_eq; done..|].
    exists q. rewrite elem_of_app. auto.
  - intros addr Hpa. apply Hrefute. intros Hpb.
    eapply (pair_problem g a b na nb); [done..|]. intros x y nx ny _ Hcase.
    destruct (s3_conflict x y nx ny addr) as (q & Hq & He); [destruct Hcase; simplify_eq; done..|].
    exists q. rewrite elem_of_app. auto.
Qed.

(** When a graph lock is configured and its check reports no error, every
    node keeps its state in a remote backend and no node's known S3 state
    address is the lock object. *)
Theorem lock_isolated g lock name n :
  (∀ q, q ∈ remoteLockProblems Getenv g → IsError q = false) →
  g_Lock g = Some lock → g_Nodes g !! name = Some n →
  schema_backend n ∈ remoteLockBackends ∧
  (∀ s3 addr, lk_S3 lock = Some s3 → s3Address Getenv n = (addr, true) → addr ≠ lock_address Getenv s3).
Proof.
  intros Hok Hl Hn.
  assert (∀ q, q ∈ lock_node_problems Getenv lock name n → IsError q = false) as Hnode.
  { intros q Hq. apply Hok. unfold remoteLockProblems. rewrite Hl. by eapply for_node_elem. }
  clear Hok. unfold lock_node_problems in Hnode. split.
  - destruct (mem (schema_backend n) remoteLockBackends) eqn:Hm; [by apply mem_true|].
    exfalso. destruct (lock_collision Getenv lock n). specialize (Hnode _ (list_elem_of_here _ _)). done.
  - intros s3 addr Hs Ha ->. unfold lock_collision in Hnode. rewrite Hs, Ha in Hnode.
    rewrite (bool_decide_eq_true_2 (lock_address Getenv s3 = _)) in Hnode by done.
    by specialize (Hnode _ (proj2 (elem_of_app _ _ _) (or_intror (list_elem_of_here _ _)))).
Qed.
End Isolation.

(** Two local modules, each with its own managed state file. *)
Definition local_schema : Schema := MkSchema false ∅ ∅ ∅ "local" ∅ (Some ∅) true ∅.
Definition local_node (name dir : string) : GNode :=
  MkGNode (MkNode ∅ ∅ name "./m" (fillLocalBackendPath ∅ (Some local_schema) "/bp" name) None ∅ "" ∅ "")
    (Some local_schema) None dir None ∅ "".
Definition local_graph : Graph :=
  set_node (set_node empty_graph "a" (local_node "a" "/bp/m")) "b" (local_node "b" "/bp/m").
Definition sample_fs : FileSystem :=
  {| Abs := Ok; Stat := λ p, if decide (p = "/") then StatFile 1 else StatMissing; IsSymlink := λ _, false; EqualFold := String.eqb;
     caseInsensitive := λ _, Ok (false, true) |}.
Definition sample_paths : PathIdentity := @pathidentity sample_fs (λ a _, ex_intro _ a eq_refl).

Example state_isolated_witness :
  localStatePath (λ _, "") (local_node "a" "/bp/m") = Some "/bp/.terragraph/state/a.tfstate" ∧
  localStatePath (λ _, "") (local_node "b" "/bp/m") ≠ Some "/bp/.terragraph/state/a.tfstate".
Proof.
  assert (localStatePath (λ _, "") (local_node "a" "/bp/m") = Some "/bp/.terragraph/state/a.tfstate") as Ha
    by (vm_compute; reflexivity).
  split; [exact Ha|].
  refine (proj1 (proj2 (@state_isolated sample_paths (λ _, "") local_graph "a" "b" (local_node "a" "/bp/m")
    (local_node "b" "/bp/m") _ eq_refl eq_refl _ _)) "/bp/.terragraph/state/a.tfstate" eq_refl Ha); [|discriminate..].
  apply Forall_forall. apply (bool_decide_unpack _). vm_compute. exact I.
Defined.

Definition locked_graph : Graph :=
  MkGraph {[ "a" := MkGNode (addressed "a") (Some s3_schema) None "/bp/m" None ∅ "" ]} [] ∅ ∅
    (Some (MkLock (Some (MkS3Lock "b" "locks/graph" "eu-west-1")))) None "" false.

Example lock_isolated_witness : schema_backend (MkGNode (addressed "a") (Some s3_schema) None "/bp/m" None ∅ "") ∈ remoteLockBackends.
Proof.
  refine (proj1 (lock_isolated (λ _, "") locked_graph _ "a" _ _ eq_refl eq_refl)).
  apply Forall_forall. apply (bool_decide_unpack _). vm_compute. exact I.
Defined.
