(* ===== verification/GraphLock.v ===== *)
(** The graph lock (src/internal/graphlock): one object of a bucket, created by
    a conditional request and deleted by whoever holds it, or by force.

    The bucket's history is a list of what happened to the object, newest
    first.  The S3 client is outside: a class, with what S3 documents of
    conditional requests as laws.  Processes interleave between their requests:
    [step] is one request of one process, and a process may die at any time. *)
From S2P Require Import Prelude GoLib Blueprint.

Record lockObject := MkLockObject { lo_Who : string; lo_Created : string; lo_Info : string }.
#[export] Instance lockObject_eq_dec : EqDecision lockObject.
Proof. solve_decision. Defined.

Inductive lock_event := Put (body : lockObject) (etag : string) | Deleted.
Definition bucket : Type := list lock_event.

(** The object after a history; the bucket starts without it. *)
Definition lock_object (tr : bucket) : option (lockObject * string) :=
  match tr with Put body etag :: _ => Some (body, etag) | _ => None end.

Definition put_bodies (tr : bucket) : list lockObject := omap (λ ev, match ev with Put b _ => Some b | Deleted => None end) tr.

(** An error of the SDK: its API code and its HTTP status, when it has them. *)
Record lock_error := MkLockError { le_code : option string; le_status : option Z; le_cause : error }.

Class LockClient := {
  new_client : string → result unit;
  lock_put : lockObject → bucket → bucket * (option string + lock_error);
  lock_get : bucket → option (result lockObject) + lock_error;
  lock_delete : option string → bucket → bucket * option lock_error;
}.

(** One ETag is one content; the same content may well get the same ETag again. *)
Definition tagged (tr : bucket) : Prop := ∀ b b' e, Put b e ∈ tr → Put b' e ∈ tr → b = b'.

(** A request can take effect and still report a failure, and a conditional
    delete of a missing object succeeds and does nothing. *)
Class LockLaws `{LockClient} := {
  put_if_absent body tr tr' r : lock_put body tr = (tr', r) →
    (tr' = tr ∧ ∃ e, r = inr e) ∨
    (lock_object tr = None ∧ ∃ etag, tr' = Put body etag :: tr ∧ (∀ x, r = inl (Some x) → x = "" ∨ x = etag) ∧
       (tagged tr → tagged tr'));
  delete_if_match etag tr tr' r : lock_delete (Some etag) tr = (tr', r) →
    (tr' = tr ∧ (r = None → lock_object tr = None)) ∨ (tr' = Deleted :: tr ∧ ∃ body, lock_object tr = Some (body, etag));
  delete_any tr tr' r : lock_delete None tr = (tr', r) → (tr' = tr ∧ is_Some r) ∨ tr' = Deleted :: tr;
}.

(** ** The S3 backend (s3.go) *)

Definition ErrHeld : error := Sentinel "another terragraph process holds the graph lock".

Definition has_status (status : Z) (e : lock_error) : bool := bool_decide (le_status e = Some status).
Definition isPreconditionFailed (e : lock_error) : bool := bool_decide (le_code e = Some "PreconditionFailed") || has_status 412 e.
Definition isConflict (e : lock_error) : bool := bool_decide (le_code e = Some "ConditionalRequestConflict") || has_status 409 e.
Definition isHeld (e : lock_error) : bool := isPreconditionFailed e || isConflict e.

Section Backend.
Context `{LockClient} (cfg : S3Lock).

Notation at_ := [FStr (sl_Bucket cfg); FStr (sl_Key cfg)].

Definition readLockHolder (tr : bucket) : string * string :=
  match lock_get tr with
  | inl (Some (Ok obj)) => (lo_Who obj, lo_Created obj)
  | _ => ("", "")
  end.

Definition heldError (tr : bucket) : error :=
  let '(who, created) := readLockHolder tr in
  if negb (bool_decide (who = "")) && negb (bool_decide (created = ""))
  then Errorf "%w (s3://%s/%s held by %s since %s)" ([FErr ErrHeld] ++ at_ ++ [FStr who; FStr created])
  else Errorf "%w (s3://%s/%s)" (FErr ErrHeld :: at_).

(** The request that creates the object. *)
Inductive attempt := Got (etag : string) | NoTag | Refused (e : error).

Definition acquire_put (body : lockObject) (tr : bucket) : bucket * attempt :=
  let '(tr', r) := lock_put body tr in
  (tr', match r with
        | inr err => if isHeld err then Refused (heldError tr')
                     else Refused (Errorf "acquiring graph lock s3://%s/%s: %w" (at_ ++ [FErr (le_cause err)]))
        | inl (Some etag) => if decide (etag = "") then NoTag else Got etag
        | inl None => NoTag
        end).

(** Without an ETag the lock could never be released: it is given up at once. *)
Definition give_back (tr : bucket) : bucket * error :=
  let '(tr', r) := lock_delete None tr in
  (tr', match r with
        | Some err => Errorf "acquiring graph lock s3://%s/%s: PutObject returned no ETag (cleanup delete: %w)" (at_ ++ [FErr (le_cause err)])
        | None => Errorf "acquiring graph lock s3://%s/%s: PutObject returned no ETag" at_
        end).

Record s3Held := MkS3Held { hd_etag : string; hd_closed : bool }.

Definition s3_Acquire (body : lockObject) (tr : bucket) : bucket * result s3Held :=
  match new_client (sl_Region cfg) with
  | Err err => (tr, Err err)
  | Ok _ =>
    let '(tr', a) := acquire_put body tr in
    match a with
    | Got etag => (tr', Ok (MkS3Held etag false))
    | NoTag => let '(tr'', err) := give_back tr' in (tr'', Err err)
    | Refused err => (tr', Err err)
    end
  end.

Definition s3_Holder (tr : bucket) : string * string :=
  match new_client (sl_Region cfg) with Err _ => ("", "") | Ok _ => readLockHolder tr end.

Definition s3_Release (tr : bucket) : bucket * result unit :=
  match new_client (sl_Region cfg) with
  | Err err => (tr, Err err)
  | Ok _ =>
    let '(tr', r) := lock_delete None tr in
    (tr', match r with Some err => Err (Errorf "releasing graph lock s3://%s/%s: %w" (at_ ++ [FErr (le_cause err)])) | None => Ok tt end)
  end.

(** [Close]; a lock that is no longer ours counts as closed. *)
Definition Close (h : s3Held) (tr : bucket) : bucket * s3Held * result unit :=
  if hd_closed h then (tr, h, Ok tt)
  else if decide (hd_etag h = "") then (tr, h, Err (Errorf "graph lock s3://%s/%s: missing ETag, cannot release" at_))
  else
    let '(tr', r) := lock_delete (Some (hd_etag h)) tr in
    match r with
    | None => (tr', MkS3Held (hd_etag h) true, Ok tt)
    | Some err => if isPreconditionFailed err then (tr', MkS3Held (hd_etag h) true, Ok tt) else (tr', h, Err (le_cause err))
    end.
End Backend.

(** ** The lock block (graphlock.go) *)

Section Lock.
Context `{LockClient}.

Definition no_backend : error := Errorf "no graph lock backend matches this lock block" [].

(** [Matches] of the only backend; a nil lock holds nothing. *)
Definition Matches (lock : Lock) : option S3Lock := lk_S3 lock.

Definition Acquire (lock : option Lock) (body : lockObject) (tr : bucket) : bucket * result (option s3Held) :=
  match lock with
  | None => (tr, Ok None)
  | Some lock =>
    match Matches lock with
    | Some cfg => let '(tr', r) := s3_Acquire cfg body tr in (tr', match r with Ok h => Ok (Some h) | Err e => Err e end)
    | None => (tr, Err no_backend)
    end
  end.

Definition Holder (lock : option Lock) (tr : bucket) : string * string :=
  match lock ≫= Matches with Some cfg => s3_Holder cfg tr | None => ("", "") end.

Definition Release (lock : option Lock) (tr : bucket) : bucket * result unit :=
  match lock with
  | None => (tr, Ok tt)
  | Some lock => match Matches lock with Some cfg => s3_Release cfg tr | None => (tr, Err no_backend) end
  end.
End Lock.

(** [lockWho]: the user at the host, as far as they are known. *)
Definition lockWho (user hostname : result string) : string :=
  let name := match user with Ok u => if decide (u = "") then "terragraph" else u | Err _ => "terragraph" end in
  match hostname with Ok h => if decide (h = "") then name else name +:+ "@" +:+ h | Err _ => name end.

(** ** Processes *)

(** Where a process is: between its requests the others go on.  [Giving] got
    no ETag and is to delete the object; [Leaving] failed to close. *)
Inductive place := Holding (etag : string) | Giving | Leaving (etag : string).

(** [ps_since] is the length of the bucket's history once the process had put
    its object: it tells that object from others with the same content, which
    the program cannot.  Two runs of one user on one host within a second do
    write the same content. *)
Record process := MkProcess { ps_body : lockObject; ps_since : nat; ps_place : place }.
Record system := MkSystem { sys_bucket : bucket; sys_procs : gmap nat process }.

Definition initial : system := MkSystem [] ∅.

(** What may happen besides: somebody unlocks by force; a process whose close
    failed closes again, which no run does (engine.go closes once). *)
Record freedom := MkFreedom { fd_forced : bool; fd_retried : bool }.

Section System.
Context `{LockClient} (cfg : S3Lock).

Definition is_leaving (s : place) : bool := match s with Leaving _ => true | _ => false end.
Definition place_etag (s : place) : option string := match s with Holding e | Leaving e => Some e | Giving => None end.

Definition acquired (tr : bucket) (procs : gmap nat process) (p : nat) (body : lockObject) (a : attempt) : system :=
  MkSystem tr (match a with
               | Got etag => <[p := MkProcess body (length tr) (Holding etag)]> procs
               | NoTag => <[p := MkProcess body (length tr) Giving]> procs
               | Refused _ => procs
               end).

Definition closed (tr : bucket) (procs : gmap nat process) (p : nat) (body : lockObject) (since : nat) (h : s3Held) : system :=
  MkSystem tr (if hd_closed h then delete p procs else <[p := MkProcess body since (Leaving (hd_etag h))]> procs).

(** One request of one process, with whatever content. *)
Inductive step (f : freedom) : system → system → Prop :=
  | step_acquire tr procs p body tr' a : procs !! p = None → acquire_put cfg body tr = (tr', a) →
      step f (MkSystem tr procs) (acquired tr' procs p body a)
  | step_give_back tr procs p body since tr' e : procs !! p = Some (MkProcess body since Giving) → give_back cfg tr = (tr', e) →
      step f (MkSystem tr procs) (MkSystem tr' (delete p procs))
  | step_close tr procs p body since s etag tr' h r : procs !! p = Some (MkProcess body since s) → place_etag s = Some etag →
      (is_leaving s = true → fd_retried f = true) → Close cfg (MkS3Held etag false) tr = (tr', h, r) →
      step f (MkSystem tr procs) (closed tr' procs p body since h)
  | step_die tr procs p : step f (MkSystem tr procs) (MkSystem tr (delete p procs))
  | step_force tr procs tr' r : fd_forced f = true → s3_Release cfg tr = (tr', r) →
      step f (MkSystem tr procs) (MkSystem tr' procs).

(** ** Invariants *)

(** The bucket's object is the very one this process put. *)
Definition own_object (tr : bucket) (x : process) : Prop :=
  length tr = ps_since x ∧ ∃ e, lock_object tr = Some (ps_body x, e).

(** What every process wrote is in the bucket's history, where it wrote it and
    under the ETag it was given. *)
Definition put_by (tr : bucket) (x : process) (e : string) : Prop :=
  e ≠ "" ∧ ∃ later before, tr = later ++ Put (ps_body x) e :: before ∧ ps_since x = S (length before).

Record consistent (s : system) : Prop := {
  cs_tagged : tagged (sys_bucket s);
  cs_put p x e : sys_procs s !! p = Some x → place_etag (ps_place x) = Some e → put_by (sys_bucket s) x e;
}.

(** Without force and second closes: only one process works, and the bucket's
    object is its own. *)
Record exclusive (s : system) : Prop := {
  ex_own p x : sys_procs s !! p = Some x → is_leaving (ps_place x) = false → own_object (sys_bucket s) x;
  ex_one p q x y : sys_procs s !! p = Some x → sys_procs s !! q = Some y →
    is_leaving (ps_place x) = false → is_leaving (ps_place y) = false → p = q;
}.

(** How often a content was written. *)
Definition times_written (body : lockObject) (tr : bucket) : nat := length (filter (λ b, b = body) (put_bodies tr)).

Context `{!LockLaws}.

Lemma lock_object_head b e tr : lock_object tr = Some (b, e) → ∃ tr0, tr = Put b e :: tr0.
Proof. destruct tr as [|[b' e'|] tr]; [done|intros [= -> ->]; by eexists|done]. Qed.

Lemma acquire_put_cases body tr tr' a : acquire_put cfg body tr = (tr', a) →
  (tr' = tr ∧ ∃ e, a = Refused e) ∨
  (lock_object tr = None ∧ ∃ etag, tr' = Put body etag :: tr ∧ (tagged tr → tagged tr') ∧
     match a with Got e => e = etag ∧ e ≠ "" | _ => True end).
Proof.
  unfold acquire_put. destruct (lock_put body tr) as [tr1 r] eqn:Hp. intros [= <- <-].
  apply put_if_absent in Hp as [[-> [e ->]]|(Hn & etag & -> & Hr & Hc)].
  - left. split; [done|]. destruct (isHeld e); by eexists.
  - right. split; [done|]. exists etag. split_and!; [done..|]. destruct r as [[x|]|e]; [|done|by destruct (isHeld e)].
    case_decide as Hx; [done|]. split; [|done]. by destruct (Hr x eq_refl).
Qed.

Lemma close_cases etag tr tr' h r : Close cfg (MkS3Held etag false) tr = (tr', h, r) → hd_etag h = etag ∧
  (tr' = tr ∨ tr' = Deleted :: tr ∧ ∃ body, lock_object tr = Some (body, etag)).
Proof.
  unfold Close. simpl. case_decide; [intros [= <- <- _]; by auto|].
  destruct (lock_delete (Some etag) tr) as [tr1 r1] eqn:Hd. apply delete_if_match in Hd as Hc. intros Hk.
  assert (tr' = tr1 ∧ hd_etag h = etag) as [-> ->].
  { destruct r1 as [err|]; [destruct (isPreconditionFailed err)|]; by injection Hk as <- <- _. }
  split; [done|]. destruct Hc as [[-> _]|[-> Hb]]; [by left|by right].
Qed.

(** ** What holds whatever happens *)

Lemma tagged_deleted tr : tagged tr → tagged (Deleted :: tr).
Proof. intros Ht b b' e [?|Hb]%elem_of_cons [?|Hb']%elem_of_cons; [done..|]. by eapply Ht. Qed.

Lemma put_by_later tr ev x e : put_by tr x e → put_by (ev :: tr) x e.
Proof. intros (He & later & before & -> & Hl). split; [done|]. by exists (ev :: later), before. Qed.

(** The processes left are among those before, with what they wrote. *)
Definition fewer (procs procs' : gmap nat process) : Prop := ∀ p x', procs' !! p = Some x' →
  ∃ x, procs !! p = Some x ∧ ps_body x' = ps_body x ∧ ps_since x' = ps_since x ∧ place_etag (ps_place x') = place_etag (ps_place x).

Lemma fewer_delete procs p : fewer procs (delete p procs).
Proof. intros q x [_ Hx]%lookup_delete_Some. by exists x. Qed.

Lemma consistent_fewer tr tr' procs procs' : tr' = tr ∨ tr' = Deleted :: tr → fewer procs procs' →
  consistent (MkSystem tr procs) → consistent (MkSystem tr' procs').
Proof.
  intros Ht Hf [H1 H2]. simpl in *. split; simpl; [destruct Ht as [->| ->]; [done|by apply tagged_deleted]|].
  intros p x' e (x & Hx & Hb & Hn & He)%Hf Hp. rewrite He in Hp. specialize (H2 p x e Hx Hp).
  unfold put_by in *. rewrite Hb, Hn. destruct Ht as [->| ->]; [done|]. by apply put_by_later.
Qed.

Lemma consistent_acquired tr procs p body etag s : (tagged tr → tagged (Put body etag :: tr)) →
  (∀ e, place_etag s = Some e → e = etag ∧ e ≠ "") → consistent (MkSystem tr procs) →
  consistent (MkSystem (Put body etag :: tr) (<[p := MkProcess body (S (length tr)) s]> procs)).
Proof.
  intros Ht Hs [H1 H2]. split; simpl in *; [by apply Ht|].
  intros q x e [[<- <-]|[_ Hx]]%lookup_insert_Some He; [|by eapply put_by_later, H2].
  destruct (Hs e He) as [-> Hne]. split; [done|]. by exists [], tr.
Qed.

Lemma fewer_closed tr procs p body since s etag h : procs !! p = Some (MkProcess body since s) → place_etag s = Some etag →
  hd_etag h = etag → fewer procs (sys_procs (closed tr procs p body since h)).
Proof.
  intros Hp Hs Hh. unfold closed. simpl. destruct (hd_closed h); [apply fewer_delete|].
  intros q x [[<- <-]|[_ Hx]]%lookup_insert_Some; [|by exists x]. eexists. split; [exact Hp|]. simpl. split_and!; [done..|]. congruence.
Qed.

Lemma step_consistent f s s' : step f s s' → consistent s → consistent s'.
Proof.
  intros [tr procs p body tr' a Hp Ha|tr procs p body since tr' e Hp Hg|tr procs p body since pl etag tr' h r Hp Hs _ Hcl|tr procs p|tr procs tr' r _ Hr] Hc.
  - apply acquire_put_cases in Ha as [[-> [e ->]]|(_ & etag & -> & Ht & Ha)]; [done|].
    destruct a as [e| |e]; unfold acquired; simpl length.
    + apply consistent_acquired; [done| |done]. simpl. by intros e' [= <-].
    + by apply consistent_acquired.
    + destruct Hc as [H1 H2]. split; simpl in *; [by apply Ht|]. intros q x e' Hx He. by eapply put_by_later, H2.
  - eapply (consistent_fewer tr); [|apply fewer_delete|exact Hc]. unfold give_back in Hg.
    destruct (lock_delete None tr) as [tr1 r1] eqn:Hd. injection Hg as <- _. apply delete_any in Hd as [[-> _]| ->]; auto.
  - apply close_cases in Hcl as [Hh Ht].
    eapply (consistent_fewer tr); [|by eapply (fewer_closed tr)|exact Hc]. destruct Ht as [->|[-> _]]; auto.
  - eapply (consistent_fewer tr); [by left|apply fewer_delete|exact Hc].
  - eapply (consistent_fewer tr); [| |exact Hc]; [|by intros q x Hx; exists x]. unfold s3_Release in Hr.
    destruct (new_client (sl_Region cfg)); [|injection Hr as <- _; by left]. destruct (lock_delete None tr) as [tr1 r1] eqn:Hd. injection Hr as <- _.
    apply delete_any in Hd as [[-> _]| ->]; auto.
Qed.

(** An object with the content a process wrote is its own when that was
    written once. *)
Lemma put_once tr x e b : tagged tr → put_by tr x e → lock_object tr = Some (b, e) →
  b = ps_body x ∧ (times_written (ps_body x) tr = 1%nat → own_object tr x).
Proof.
  intros Ht (He & later & before & Hl & Hn) Ho. destruct (lock_object_head _ _ _ Ho) as [tr0 Hh].
  assert (b = ps_body x) as ->.
  { apply (Ht b (ps_body x) e); [rewrite Hh; by left|]. rewrite Hl. apply elem_of_app. right. by left. }
  split; [done|]. intros Honce. split; [|by exists e]. destruct later as [|ev later]; [subst tr; by rewrite Hn|]. exfalso.
  rewrite Hh in Hl. injection Hl as <- ->. rewrite Hh in Honce. revert Honce. unfold times_written, put_bodies. simpl.
  rewrite filter_cons_True by done. rewrite omap_app. simpl. rewrite filter_app, filter_cons_True by done.
  simpl. rewrite length_app. simpl. lia.
Qed.

(** ** What holds of runs that close once *)

Lemma exclusive_idle tr tr' procs : lock_object tr = None → exclusive (MkSystem tr procs) → exclusive (MkSystem tr' procs).
Proof.
  intros Hn [He Ho]. split; simpl in *; [|exact Ho]. intros p x Hx Hl. destruct (He p x Hx Hl) as (_ & e & Hb). congruence.
Qed.

Lemma exclusive_delete tr tr' procs p x : procs !! p = Some x → is_leaving (ps_place x) = false →
  exclusive (MkSystem tr procs) → exclusive (MkSystem tr' (delete p procs)).
Proof.
  intros Hp Hl [He Ho]. simpl in *. split; simpl.
  - intros q y [Hne Hq]%lookup_delete_Some Hy. by destruct Hne; eapply (Ho p q).
  - intros q q' y z [_ Hq]%lookup_delete_Some [_ Hq']%lookup_delete_Some. by eapply Ho.
Qed.

Lemma exclusive_insert tr procs p x : (is_leaving (ps_place x) = false → own_object tr x) →
  (∀ q y, q ≠ p → procs !! q = Some y → is_leaving (ps_place y) = true) → exclusive (MkSystem tr (<[p := x]> procs)).
Proof.
  intros Hx Hi. assert (∀ q y, <[p := x]> procs !! q = Some y → is_leaving (ps_place y) = false → q = p ∧ y = x) as Hall.
  { intros q y [[<- <-]|[Hne Hq]]%lookup_insert_Some Hl; [done|]. specialize (Hi q y ltac:(congruence) Hq); congruence. }
  split; simpl.
  - intros q y Hq Hl. destruct (Hall q y Hq Hl) as [-> ->]. by apply Hx.
  - intros q q' y z Hq Hq' Hl Hl'. destruct (Hall q y Hq Hl), (Hall q' z Hq' Hl'). congruence.
Qed.

Lemma step_exclusive s s' : step (MkFreedom false false) s s' → exclusive s → exclusive s'.
Proof.
  intros [tr procs p body tr' a Hp Ha|tr procs p body since tr' e Hp Hg|tr procs p body since pl etag tr' h r Hp Hs Hre Hcl|tr procs p|tr procs tr' r Hf Hr] He; [..|done].
  - apply acquire_put_cases in Ha as [[-> [e ->]]|(Hfree & etag & -> & _ & _)]; [done|].
    assert (∀ q y, q ≠ p → procs !! q = Some y → is_leaving (ps_place y) = true) as Hidle.
    { intros q y _ Hq. destruct (is_leaving (ps_place y)) eqn:Hl; [done|]. destruct (ex_own _ He q y Hq Hl) as (_ & e & Ho). simpl in Ho. congruence. }
    destruct a as [e| |e]; unfold acquired; [..|by eapply exclusive_idle];
      (apply exclusive_insert; [|exact Hidle]); intros _; (split; [done|by exists etag]).
  - by eapply exclusive_delete.
  - assert (is_leaving pl = false) as Hl by (destruct (is_leaving pl); [by discriminate Hre|done]).
    unfold closed. destruct (hd_closed h); [by eapply exclusive_delete|].
    apply exclusive_insert; [done|]. intros q y Hne Hq. destruct (is_leaving (ps_place y)) eqn:Hy; [done|].
    destruct Hne. by apply (ex_one _ He q p y (MkProcess body since pl)).
  - destruct He as [He Ho]. split; simpl.
    + intros q y [_ Hq]%lookup_delete_Some. by eapply He.
    + intros q q' y z [_ Hq]%lookup_delete_Some [_ Hq']%lookup_delete_Some. by apply Ho.
Qed.

Definition reached (f : freedom) : system → Prop := rtc (step f) initial.

Lemma reached_invariant f (P : system → Prop) s : P initial → (∀ s s', step f s s' → P s → P s') → reached f s → P s.
Proof. intros Hi Hs Hr. unfold reached in Hr. induction Hr as [|s1 s2 s3 H12 _ IH]; [done|]. by eapply IH, Hs. Qed.

Lemma reached_consistent f s : reached f s → consistent s.
Proof.
  apply reached_invariant; [|apply step_consistent]. split; simpl; [by intros b b' e Hb%not_elem_of_nil|].
  intros p x e Hp. by rewrite lookup_empty in Hp.
Qed.

Lemma reached_exclusive s : reached (MkFreedom false false) s → exclusive s.
Proof. apply reached_invariant; [|apply step_exclusive]. by split; simpl; intros p x *; rewrite lookup_empty. Qed.

(** C24: the graph lock excludes.  Whatever processes acquire, with whatever
    content, fail, give up, close or die in any interleaving without a
    force-unlock, at most one of them works under the lock, and the bucket's
    object is the very one it put.  And even when locks are broken by force
    and closes are repeated, a process that closes deletes at most an object
    with the content it wrote itself, which is the very one it put if that
    content was written once. *)
Theorem graph_lock_exclusive :
  (∀ s p q x y, reached (MkFreedom false false) s → sys_procs s !! p = Some x → sys_procs s !! q = Some y →
     is_leaving (ps_place x) = false → is_leaving (ps_place y) = false → p = q ∧ own_object (sys_bucket s) x) ∧
  (∀ f s p x etag tr' h r, reached f s → sys_procs s !! p = Some x → place_etag (ps_place x) = Some etag →
     Close cfg (MkS3Held etag false) (sys_bucket s) = (tr', h, r) →
     tr' = sys_bucket s ∨
     tr' = Deleted :: sys_bucket s ∧ lock_object (sys_bucket s) = Some (ps_body x, etag) ∧
       (times_written (ps_body x) (sys_bucket s) = 1%nat → own_object (sys_bucket s) x)).
Proof.
  split.
  - intros s p q x y Hr Hp Hq Hx Hy. pose proof (reached_exclusive s Hr) as He. split; [by eapply (ex_one _ He)|by eapply (ex_own _ He)].
  - intros f s p x etag tr' h r Hr Hp He Hc. pose proof (reached_consistent _ _ Hr) as Hcs.
    apply close_cases in Hc as [_ [?|[-> [b Hb]]]]; [by left|right].
    destruct (put_once _ x etag b (cs_tagged _ Hcs) (cs_put _ Hcs p x etag Hp He) Hb) as [<- Ho]. done.
Qed.
End System.

(** ** A bucket in memory *)

(** A content that is new gets an ETag longer than all before it; a content
    that was there gets the ETag it had, as a digest would. *)
Definition event_tag (ev : lock_event) : string := match ev with Put _ e => e | Deleted => "" end.
Definition fresh_etag (tr : bucket) : string := foldr (λ ev acc, event_tag ev +:+ acc) "e" tr.
Definition etag_for (body : lockObject) (tr : bucket) : string :=
  match omap (λ ev, match ev with Put b e => if decide (b = body) then Some e else None | Deleted => None end) tr with
  | e :: _ => e
  | [] => fresh_etag tr
  end.

Lemma string_append_length s1 s2 : String.length (s1 +:+ s2) = (String.length s1 + String.length s2)%nat.
Proof. induction s1 as [|c s1 IH]; simpl; [done|]. by rewrite IH. Qed.

Lemma fresh_etag_longer tr b e : Put b e ∈ tr → (String.length e < String.length (fresh_etag tr))%nat.
Proof.
  induction tr as [|ev tr IH]; [by intros ?%not_elem_of_nil|]. simpl. rewrite string_append_length.
  assert (∀ tr, (0 < String.length (fresh_etag tr))%nat) as Hpos.
  { intros l. induction l as [|ev' l IHl]; simpl; [lia|]. rewrite string_append_length. lia. }
  intros [<-|Hin]%elem_of_cons; [simpl; pose proof (Hpos tr); lia|]. apply IH in Hin. lia.
Qed.

Lemma etag_for_tagged body tr : tagged tr → tagged (Put body (etag_for body tr) :: tr).
Proof.
  intros Ht. assert (∀ b, Put b (etag_for body tr) ∈ tr → b = body) as Hown.
  { intros b. unfold etag_for. destruct (omap _ tr) as [|e l] eqn:Ho; [intros Hin%fresh_etag_longer; lia|].
    assert (e ∈ e :: l) as He by by left. rewrite <-Ho in He. apply list_elem_of_omap in He as ([b' e'|] & Hin & Hev); [|done].
    case_decide as Hb; [|done]. injection Hev as ->. subst b'. intros Hb. by eapply Ht. }
  intros b b' e Hb%elem_of_cons Hb'%elem_of_cons. destruct Hb as [Hb|Hb], Hb' as [Hb'|Hb']; [congruence|..|by eapply Ht].
  - injection Hb as -> ->. symmetry. by apply Hown.
  - injection Hb' as -> ->. by apply Hown.
Qed.

#[export] Instance memory_client : LockClient := {
  new_client _ := Ok tt;
  lock_put body tr := match lock_object tr with
                      | Some _ => (tr, inr (MkLockError (Some "PreconditionFailed") (Some 412%Z) (Errorf "At least one of the pre-conditions you specified did not hold" [])))
                      | None => (Put body (etag_for body tr) :: tr, inl (Some (etag_for body tr)))
                      end;
  lock_get tr := inl (option_map (λ o, Ok (fst o)) (lock_object tr));
  lock_delete want tr := match want, lock_object tr with
                         | None, _ => (Deleted :: tr, None)
                         | Some e, Some (_, e') => if decide (e = e') then (Deleted :: tr, None)
                             else (tr, Some (MkLockError (Some "PreconditionFailed") (Some 412%Z) (Errorf "At least one of the pre-conditions you specified did not hold" [])))
                         | Some _, None => (tr, None)
                         end;
}.

#[export] Instance memory_laws : LockLaws.
Proof.
  split.
  - intros body tr tr' r. simpl. destruct (lock_object tr) as [o|]; intros [= <- <-]; [left; split; [done|by eexists]|].
    right. split; [done|]. exists (etag_for body tr). split_and!; [done|by intros x [= ->]; right|]. apply etag_for_tagged.
  - intros etag tr tr' r. simpl. destruct (lock_object tr) as [[b e]|]; [destruct (decide (etag = e)) as [->|]|]; intros [= <- <-];
      [right; split; [done|by exists b]|by left|by left].
  - intros tr tr' r. simpl. intros [= <- <-]. by right.
Qed.

Definition example_cfg : S3Lock := MkS3Lock "locks" "graph.lock" "eu-central-1".
Definition first_process : lockObject := MkLockObject "ana@build" "2024-01-01T00:00:00Z" "terragraph graph lock".
Definition second_process : lockObject := MkLockObject "ben@build" "2024-01-01T00:00:01Z" "terragraph graph lock".

(** One process acquires; another is refused. *)
Definition one_working : system := MkSystem [Put first_process "e"] {[1%nat := MkProcess first_process 1 (Holding "e")]}.
(** Its lock is broken by force and a process acquires that writes [body]. *)
Definition broken (body : lockObject) (etag : string) : system := MkSystem [Put body etag; Deleted; Put first_process "e"]
  (<[2%nat := MkProcess body 3 (Holding etag)]> {[1%nat := MkProcess first_process 1 (Holding "e")]}).

Lemma one_working_reached f : reached example_cfg f one_working.
Proof. apply rtc_once. by apply (step_acquire example_cfg f [] ∅ 1 first_process [Put first_process "e"] (Got "e")). Qed.

Lemma broken_reached body : etag_for body [Deleted; Put first_process "e"] ≠ "" →
  reached example_cfg (MkFreedom true false) (broken body (etag_for body [Deleted; Put first_process "e"])).
Proof.
  intros Hne. eapply rtc_r; [eapply rtc_r; [apply one_working_reached|]|].
  - by apply (step_force example_cfg _ _ _ [Deleted; Put first_process "e"] (Ok tt)).
  - set (tr := [Deleted; Put first_process "e"]) in *.
    apply (step_acquire example_cfg _ tr _ 2 body (Put body (etag_for body tr) :: tr) (Got (etag_for body tr))); [done|].
    unfold acquire_put. simpl. by rewrite decide_False.
Qed.

(** The lock of the first run is broken by force, and another run of the same
    user on the same host acquires within the second: it writes the same
    content and gets the same ETag, and when the first run closes it deletes
    the other's lock, with the other at work. *)
Example closes_another_lock : let s := broken first_process "e" in
  reached example_cfg (MkFreedom true false) s ∧
  Close example_cfg (MkS3Held "e" false) (sys_bucket s) = (Deleted :: sys_bucket s, MkS3Held "e" true, Ok tt) ∧
  (∃ x y, sys_procs s !! 1%nat = Some x ∧ ¬ own_object (sys_bucket s) x ∧ sys_procs s !! 2%nat = Some y ∧ own_object (sys_bucket s) y).
Proof.
  split; [by apply broken_reached|]. split; [reflexivity|].
  exists (MkProcess first_process 1 (Holding "e")), (MkProcess first_process 3 (Holding "e")).
  split; [done|]. split; [by intros [? _]|]. split; [done|]. split; [done|by exists "e"].
Qed.

Lemma graph_lock_exclusive_witness :
  own_object (sys_bucket one_working) (MkProcess first_process 1 (Holding "e")) ∧
  snd (s3_Acquire example_cfg second_process (sys_bucket one_working)) = Err (heldError example_cfg (sys_bucket one_working)) ∧
  fst (fst (Close example_cfg (MkS3Held "e" false) (sys_bucket (broken second_process "ee")))) = sys_bucket (broken second_process "ee").
Proof.
  split; [|split; [reflexivity|]].
  - destruct (graph_lock_exclusive example_cfg) as [Hone _].
    destruct (Hone one_working 1%nat 1%nat (MkProcess first_process 1 (Holding "e")) _ (one_working_reached _) eq_refl eq_refl eq_refl eq_refl) as [_ Ho].
    exact Ho.
  - destruct (graph_lock_exclusive example_cfg) as [_ Hclose].
    assert (reached example_cfg (MkFreedom true false) (broken second_process "ee")) as Hr by by apply (broken_reached second_process).
    destruct (Close example_cfg (MkS3Held "e" false) (sys_bucket (broken second_process "ee"))) as [[tr' h] r] eqn:Hc.
    destruct (Hclose _ (broken second_process "ee") 1%nat (MkProcess first_process 1 (Holding "e")) "e" tr' h r Hr eq_refl eq_refl Hc) as [Ht|(_ & Ho & _)];
      [exact Ht|discriminate Ho].
Defined.
