(* ===== verification/Contracts.v ===== *)
(** Port contracts: merging of contract sets (mergeContracts of
    src/internal/graph/build.go) and the contract problems of a graph
    (src/internal/graph/validate_contracts.go).  Parsing a constraint,
    converting between types and rendering a message are library code and stay
    parameters. *)
From S2P Require Import Prelude GoLib Cty Blueprint Module Graph Backend.

(** ** Claims *)

Section Claims.
Context (ContractType : string → result ctype).

Definition CanonicalContractType (txt : string) : result string :=
  if decide (txt = "") then Ok ""
  else typ ← ContractType txt; Ok (constraintString typ).

Definition eqBoolPtr (a b : option bool) : bool :=
  match a, b with
  | None, None => true
  | Some x, Some y => Bool.eqb x y
  | _, _ => false
  end.

Definition sameClaims (a b : PortContract) : bool :=
  match CanonicalContractType (pc_Type a), CanonicalContractType (pc_Type b) with
  | Ok at_, Ok bt => bool_decide (at_ = bt) && eqBoolPtr (pc_Nullable a) (pc_Nullable b)
                     && eqBoolPtr (pc_Sensitive a) (pc_Sensitive b)
  | _, _ => false
  end.

(** ** Merging *)

Inductive role := producer | consumer.

Definition ports_of (r : role) (dc : DirContracts) : gmap string PortContract :=
  match r with producer => dc_Producer dc | consumer => dc_Consumer dc end.

Definition set_ports (r : role) (dc : DirContracts) (m : gmap string PortContract) : DirContracts :=
  match r with
  | producer => MkDirContracts (dc_Scope dc) (dc_Dir dc) m (dc_Consumer dc)
  | consumer => MkDirContracts (dc_Scope dc) (dc_Dir dc) (dc_Producer dc) m
  end.

Definition role_string (r : role) : string := match r with producer => "producer" | consumer => "consumer" end.
Definition role_kind (r : role) : string := match r with producer => "output" | consumer => "input" end.

Definition contract_conflict (r : role) (name scope : string) : error :=
  Errorf "contract.%s.%s.%s (%s): declared both in the blueprint and in a group with different claims; make the claims identical or remove one"
    [FStr (role_string r); FStr (role_kind r); FStr name; FStr scope].

Definition mergePort (r : role) (dc : DirContracts) (np : string * PortContract) : result DirContracts :=
  let '(name, p) := np in
  match ports_of r dc !! name with
  | Some cur => if sameClaims cur p then Ok dc else Err (contract_conflict r name (dc_Scope dc))
  | None => Ok (set_ports r dc (<[name := p]> (ports_of r dc)))
  end.

Context `{MapOrder}.

Definition mergeDirContracts (base add : DirContracts) : result DirContracts :=
  merged ← foldM (mergePort producer) base (range (dc_Producer add));
  foldM (mergePort consumer) merged (range (dc_Consumer add)).

Definition merge_dir (m : Contracts) (kdc : string * DirContracts) : result Contracts :=
  let dc := kdc.2 in
  match m !! dc_Dir dc with
  | None => Ok (<[dc_Dir dc := dc]> m)
  | Some existing => merged ← mergeDirContracts existing dc; Ok (<[dc_Dir dc := merged]> m)
  end.

Definition merge_sets (g src : option Contracts) : result (option Contracts) :=
  match src with
  | None => Ok g
  | Some s => m ← foldM merge_dir (default ∅ g) (range s); Ok (Some m)
  end.

Definition mergeContracts (g : Graph) (src : option Contracts) : result Graph :=
  c ← merge_sets (g_Contracts g) src; Ok (set_contracts g c).

(** *** The merge is a union of agreeing claims, whatever the map order *)

Definition ports_agree (a b : gmap string PortContract) : Prop :=
  ∀ name p q, a !! name = Some p → b !! name = Some q → sameClaims p q = true.

Definition dirs_agree (a b : DirContracts) : Prop :=
  ports_agree (dc_Producer a) (dc_Producer b) ∧ ports_agree (dc_Consumer a) (dc_Consumer b).

Definition dir_union (a b : DirContracts) : DirContracts :=
  MkDirContracts (dc_Scope a) (dc_Dir a) (dc_Producer a ∪ dc_Producer b) (dc_Consumer a ∪ dc_Consumer b).

Lemma set_ports_ports r dc m : ports_of r (set_ports r dc m) = m.
Proof. by destruct r. Qed.
Lemma set_ports_twice r dc m m' : set_ports r (set_ports r dc m) m' = set_ports r dc m'.
Proof. by destruct r. Qed.
Lemma set_ports_same r dc : set_ports r dc (ports_of r dc) = dc.
Proof. by destruct r, dc. Qed.
Lemma set_ports_scope r dc m : dc_Scope (set_ports r dc m) = dc_Scope dc.
Proof. by destruct r. Qed.

Lemma merge_ports_fold r l : NoDup l.*1 → ∀ dc dc',
  foldM (mergePort r) dc l = Ok dc' ↔
  (∀ name p q, ports_of r dc !! name = Some p → (name, q) ∈ l → sameClaims p q = true) ∧
  dc' = set_ports r dc (ports_of r dc ∪ list_to_map l).
Proof.
  induction l as [|[n p] l IH]; intros Hnd dc dc'.
  - simpl. rewrite (right_id_L ∅ (∪)), set_ports_same. split; [intros [= <-]; split; [set_solver|done]|].
    by intros [_ ->].
  - rewrite fmap_cons in Hnd. apply NoDup_cons in Hnd as [Hn Hnd]. specialize (IH Hnd).
    assert (∀ q, (n, q) ∉ l) as Hno.
    { intros q Hq. apply Hn, list_elem_of_fmap. by exists (n, q). }
    rewrite foldM_cons. unfold mergePort at 1. rewrite list_to_map_cons.
    destruct (ports_of r dc !! n) as [cur|] eqn:Hcur.
    + destruct (sameClaims cur p) eqn:Hs.
      * rewrite IH. assert (ports_of r dc ∪ <[n:=p]> (list_to_map l) = ports_of r dc ∪ list_to_map l) as ->.
        { apply map_eq. intros k. destruct (decide (k = n)) as [->|Hkn].
          - by rewrite !lookup_union, Hcur, !union_Some_l.
          - by rewrite !lookup_union, lookup_insert_ne by done. }
        split; intros [Hag ->]; split; try done.
        -- intros k q q' Hk [?|Hin]%elem_of_cons; [simplify_eq|]; eauto.
        -- intros k q q' Hk Hin. eapply Hag; [done|by right].
      * split; [done|]. intros [Hag _]. rewrite (Hag n cur p) in Hs; [done|done|by left].
    + rewrite IH, set_ports_ports, set_ports_twice.
      assert (<[n:=p]> (ports_of r dc) ∪ list_to_map l = ports_of r dc ∪ <[n:=p]> (list_to_map l)) as ->.
      { apply map_eq. intros k. destruct (decide (k = n)) as [->|Hkn].
        - by rewrite !lookup_union, !lookup_insert_eq, Hcur, union_Some_l, (left_id_L None _).
        - by rewrite !lookup_union, !lookup_insert_ne by done. }
      split; intros [Hag ->]; split; try done.
      * intros k q q' Hk [?|Hin]%elem_of_cons; [simplify_eq; congruence|].
        eapply Hag; [|done]. rewrite lookup_insert_ne; [done|]. intros <-. by eapply Hno.
      * intros k q q' Hk Hin. rewrite lookup_insert_ne in Hk by (intros <-; by eapply Hno).
        eapply Hag; [done|by right].
Qed.

Lemma mergeDirContracts_Ok a b c :
  mergeDirContracts a b = Ok c ↔ dirs_agree a b ∧ c = dir_union a b.
Proof.
  assert (∀ m : gmap string PortContract, NoDup (range m).*1) as Hnd.
  { intros m. rewrite range_perm. apply NoDup_fst_map_to_list. }
  assert (∀ m : gmap string PortContract, list_to_map (range m) = m) as Hmap.
  { intros m. rewrite <-(list_to_map_to_list m) at 2.
    by apply list_to_map_proper; [apply Hnd|rewrite range_perm]. }
  unfold mergeDirContracts. rewrite result_bind_Ok.
  setoid_rewrite (merge_ports_fold producer _ (Hnd _)).
  setoid_rewrite (merge_ports_fold consumer _ (Hnd _)). rewrite !Hmap. simpl.
  setoid_rewrite range_elem. unfold dirs_agree, ports_agree, dir_union. split.
  - intros (d & [H1 ->] & [H2 ->]). simpl in *. split; [|done]. split; intros; eauto.
  - intros [[H1 H2] ->]. eexists. split; [split; [|done]; intros; by eapply H1|].
    simpl. split; [|done]. intros; by eapply H2.
Qed.

(** A contract set is keyed by the directory of its entries. *)
Definition keyed (s : Contracts) : Prop := ∀ k dc, s !! k = Some dc → dc_Dir dc = k.

Definition sets_agree (m s : Contracts) : Prop :=
  ∀ k a b, m !! k = Some a → s !! k = Some b → dirs_agree a b.

Definition sets_union (m s : Contracts) : Contracts := union_with (λ a b, Some (dir_union a b)) m s.

Lemma sets_union_lookup m s k :
  sets_union m s !! k = union_with (λ a b, Some (dir_union a b)) (m !! k) (s !! k).
Proof. apply (lookup_union_with (M := gmap string)). Qed.

Lemma sets_union_keyed m s : keyed m → keyed s → keyed (sets_union m s).
Proof.
  intros Hm Hs k dc. rewrite sets_union_lookup.
  destruct (m !! k) as [a|] eqn:Ha, (s !! k) as [b|] eqn:Hb; simpl; intros [= <-]; simpl; eauto.
Qed.

Lemma merge_sets_fold l : NoDup l.*1 → (∀ k dc, (k, dc) ∈ l → dc_Dir dc = k) → ∀ m m',
  foldM merge_dir m l = Ok m' ↔
  sets_agree m (list_to_map l) ∧ m' = sets_union m (list_to_map l).
Proof.
  induction l as [|[k dc] l IH]; intros Hnd Hkey m m'.
  - simpl. assert (sets_union m ∅ = m) as -> by apply (right_id_L (∅ : gmap string _) (union_with _)).
    split; [intros [= <-]; split; [|done]|by intros [_ ->]]. intros k a b _ Hk. done.
  - rewrite fmap_cons in Hnd. apply NoDup_cons in Hnd as [Hn Hnd].
    assert (dc_Dir dc = k) as Hdk by (apply Hkey; left).
    assert ((list_to_map l : Contracts) !! k = None) as Hl by by apply not_elem_of_list_to_map_1.
    specialize (IH Hnd (λ k' dc' Hin, Hkey k' dc' (list_elem_of_further _ _ _ Hin))).
    rewrite foldM_cons. unfold merge_dir at 1. simpl. rewrite Hdk.
    destruct (m !! k) as [ex|] eqn:Hex.
    + destruct (mergeDirContracts ex dc) as [mg|e] eqn:Hmg; simpl.
      * apply mergeDirContracts_Ok in Hmg as [Hag ->]. rewrite IH. split.
        -- intros [Hags ->]. split.
           ++ intros k' a b Ha Hb. destruct (decide (k' = k)) as [->|Hne].
              ** rewrite lookup_insert_eq in Hb. simplify_eq. done.
              ** rewrite lookup_insert_ne in Hb by done. eapply Hags; [by rewrite lookup_insert_ne|done].
           ++ apply map_eq. intros k'. rewrite !sets_union_lookup.
              destruct (decide (k' = k)) as [->|Hne].
              ** by rewrite !lookup_insert_eq, Hl, Hex.
              ** by rewrite !lookup_insert_ne by done.
        -- intros [Hags ->]. split.
           ++ intros k' a b Ha Hb. assert (k' ≠ k) as Hne by (intros ->; congruence).
              rewrite lookup_insert_ne in Ha by done. eapply Hags; [done|]. by rewrite lookup_insert_ne.
           ++ apply map_eq. intros k'. rewrite !sets_union_lookup.
              destruct (decide (k' = k)) as [->|Hne].
              ** by rewrite !lookup_insert_eq, Hl, Hex.
              ** by rewrite !lookup_insert_ne by done.
      * split; [done|]. intros [Hags _]. exfalso.
        assert (mergeDirContracts ex dc = Ok (dir_union ex dc)) as Hok; [|congruence].
        apply mergeDirContracts_Ok. split; [|done]. eapply Hags; [done|]. by rewrite lookup_insert_eq.
    + rewrite IH. split; intros [Hags ->]; (split; [|
        apply map_eq; intros k'; rewrite !sets_union_lookup;
        destruct (decide (k' = k)) as [->|Hne];
          [by rewrite !lookup_insert_eq, Hl, Hex|by rewrite !lookup_insert_ne by done]]);
      intros k' a b Ha Hb.
      * assert (k' ≠ k) as Hne by (intros ->; congruence).
        rewrite lookup_insert_ne in Hb by done. eapply Hags; [by rewrite lookup_insert_ne|done].
      * assert (k' ≠ k) as Hne by (intros ->; congruence).
        rewrite lookup_insert_ne in Ha by done. eapply Hags; [done|]. by rewrite lookup_insert_ne.
Qed.

Lemma merge_sets_Ok g s c : keyed s → merge_sets g (Some s) = Ok c ↔
  sets_agree (default ∅ g) s ∧ c = Some (sets_union (default ∅ g) s).
Proof.
  intros Hkey. assert (list_to_map (range s) = s) as Hmap.
  { rewrite <-(list_to_map_to_list s) at 2. apply list_to_map_proper; [|by rewrite range_perm].
    rewrite range_perm. apply NoDup_fst_map_to_list. }
  unfold merge_sets. rewrite result_bind_Ok.
  setoid_rewrite (merge_sets_fold (range s)).
  - rewrite Hmap. naive_solver.
  - rewrite range_perm. apply NoDup_fst_map_to_list.
  - intros k dc. rewrite range_elem. apply Hkey.
Qed.
End Claims.

(** ** Contract problems (validate_contracts.go) *)

Definition contractKey (n : GNode) : string :=
  if IsRemote (bn_Source (n_Node n)) then bn_Source (n_Node n) else n_Dir n.

Definition node_name_le (a b : GNode) : Prop := String.le (bn_Name (n_Node a)) (bn_Name (n_Node b)).
#[export] Instance node_name_le_dec : RelDecision node_name_le.
Proof. intros a b. unfold node_name_le. apply _. Defined.

(** The nodes a contract source speaks for, by name. *)
Definition owners_of (g : Graph) (key : string) : list GNode :=
  merge_sort node_name_le (filter (λ n, contractKey n = key) (map_to_list (g_Nodes g)).*2).

Definition contract_le (a b : DirContracts) : Prop :=
  if decide (dc_Scope a = dc_Scope b) then String.le (dc_Dir a) (dc_Dir b) else String.le (dc_Scope a) (dc_Scope b).
#[export] Instance contract_le_dec : RelDecision contract_le.
Proof. intros a b. unfold contract_le. destruct (decide (dc_Scope a = dc_Scope b)); apply _. Defined.

Definition sortedContracts (c : Contracts) : list DirContracts := merge_sort contract_le (map_to_list c).*2.
Definition sortedPorts (m : gmap string PortContract) : list string := sorted_keys m.

Section ContractProblems.
(** [parseCtyType] and [parseModuleCtyType] wrap the HCL parser; [Equals],
    [GetConversion] and [GetConversionUnsafe] are cty's; [render] is
    [fmt.Sprintf]. *)
Context (parseCtyType parseModuleCtyType : string → result ctype).
Context (Equals GetConversion GetConversionUnsafe : ctype → ctype → bool).
Context (render : text → string).

(** Validation has already dereferenced every schema. *)
Definition no_schema : Schema := MkSchema false ∅ ∅ ∅ "" ∅ None false ∅.
Definition schema_of (n : GNode) : Schema := default no_schema (n_Schema n).

Definition FBool (b : bool) : farg := FStr (if b then "true" else "false").

(** A finding about one owner: code, remedy, message. *)
Definition finding : Type := string * string * text.

Definition producer_findings (dc : DirContracts) (s : Schema) (name : string) : list finding :=
  if negb (HasOutput s name) then
    [("C001", "remove the promise or declare the output",
      Sprintf "contract.[C001] producer %s.output.%s: module declares no such output; remove the promise or add the output" [FStr (dc_Scope dc); FStr name])]
  else
    let declared := match s_OutputDetails s !! name with Some o => o_Sensitive o | None => false end in
    match dc_Producer dc !! name ≫= pc_Sensitive with
    | Some claimed =>
      if Bool.eqb claimed declared then []
      else [("C009", "align the producer sensitivity with the module",
        Sprintf "contract.[C009] producer %s.output.%s claims sensitive = %t but the module declares sensitive = %t; fix the contract — the module is the declaration of record"
          [FStr (dc_Scope dc); FStr name; FBool claimed; FBool declared])]
    | None => []
    end.

Definition sensitive_findings (dc : DirContracts) (name : string) (c : PortContract) (v : VariableDecl) : list finding :=
  match pc_Sensitive c with
  | Some claimed =>
    if Bool.eqb claimed (v_Sensitive v) then []
    else [("C008", "align the consumer sensitivity with the module",
      Sprintf "contract.[C008] consumer %s.input.%s claims sensitive = %t but the module declares sensitive = %t; fix the contract — the module is the declaration of record"
        [FStr (dc_Scope dc); FStr name; FBool claimed; FBool (v_Sensitive v)])]
  | None => []
  end.

Definition type_remedy : string := "align the contract with the module variable type".

Definition consumer_findings (dc : DirContracts) (s : Schema) (name : string) : list finding :=
  match s_Variables s !! name, dc_Consumer dc !! name with
  | Some v, Some c =>
    if bool_decide (pc_Type c = "") || bool_decide (v_Type v = "") then sensitive_findings dc name c v
    else match parseCtyType (pc_Type c) with
    | Err err => [("C007", type_remedy, Sprintf "contract.[C007] consumer %s.input.%s: %v" [FStr (dc_Scope dc); FStr name; FErr err])]
    | Ok ct =>
      match parseModuleCtyType (v_Type v) with
      | Err err => [("C007", type_remedy, Sprintf "contract.[C007] consumer %s.input.%s: module type %v" [FStr (dc_Scope dc); FStr name; FErr err])]
      | Ok mt =>
        (if negb (Equals ct mt) && negb (GetConversion ct mt) then
          [("C007", type_remedy, Sprintf "contract.[C007] consumer %s.input.%s claims type %s, which the module's declared %s can never accept; fix the contract — the module is the declaration of record"
             [FStr (dc_Scope dc); FStr name; FStr (pc_Type c); FStr (v_Type v)])]
         else []) ++ sensitive_findings dc name c v
      end
    end
  | _, _ => [("C002", "remove the requirement or declare the variable",
      Sprintf "contract.[C002] consumer %s.input.%s: module declares no such variable; remove the requirement or add the variable" [FStr (dc_Scope dc); FStr name])]
  end.

Definition owner_findings (dc : DirContracts) (owner : GNode) : list finding :=
  concat (producer_findings dc (schema_of owner) <$> sortedPorts (dc_Producer dc)) ++
  concat (consumer_findings dc (schema_of owner) <$> sortedPorts (dc_Consumer dc)).

(** Messages in first-seen order, with the nodes each one affects. *)
Definition grouped : Type := list (string * (string * string * list string)).

Fixpoint group_finding (acc : grouped) (owner : string) (f : finding) : grouped :=
  let '(code, remedy, message) := f in
  match acc with
  | [] => [(render message, (code, remedy, ["node." +:+ owner]))]
  | (m, (c, r, l)) :: rest =>
    if decide (m = render message) then (m, (code, remedy, l ++ ["node." +:+ owner])) :: rest
    else (m, (c, r, l)) :: group_finding rest owner f
  end.

Definition group_owner (dc : DirContracts) (acc : grouped) (owner : GNode) : grouped :=
  foldl (λ acc f, group_finding acc (bn_Name (n_Node owner)) f) acc (owner_findings dc owner).

Definition source_problems (g : Graph) (severity : Severity) (dc : DirContracts) : list Problem :=
  match owners_of g (dc_Dir dc) with
  | [] => [MkProblem "C006" (dc_Scope dc) "update the scope path or remove the contract" severity
      (Sprintf "contract.[C006] %s: no node in this graph uses source %q; update the scope path or remove the contract" [FStr (dc_Scope dc); FStr (dc_Scope dc)])]
  | owners =>
    (λ e : string * (string * string * list string),
       let '(message, (code, remedy, affected)) := e in
       MkProblem code (dc_Scope dc) remedy severity (Sprintf "%s [%s]" [FStr message; FStr (join affected ", ")]))
      <$> foldl (group_owner dc) [] owners
  end.

Definition null_default (v : option VariableDecl) : bool :=
  match v with
  | Some v => bool_decide (v_Nullable v = Some false)
              && match v_Default v with Some d => negb (is_null d) | None => false end
  | None => false
  end.

(** One data edge, producer guarantee against consumer requirement. *)
Definition edge_claims (severity : Severity) (e : Edge) (from to : DirContracts) (p c : PortContract)
    (variable : option VariableDecl) : list Problem :=
  let subject := "node." +:+ pr_Node (e_To e) +:+ ".input." +:+ pr_Name (e_To e) in
  let pn := pr_Name (e_From e) in
  let cn := pr_Name (e_To e) in
  let report code remedy msg := [MkProblem code subject remedy severity msg] in
  let flags :=
    (if bool_decide (pc_Nullable c = Some false) && negb (bool_decide (pc_Nullable p = Some false)) && negb (null_default variable) then
      report "C004" "require the producer to promise nullable = false"
        (Sprintf "contract.[C004] producer %s.output.%s may be null but consumer %s.input.%s requires non-null; the producer must promise nullable = false" [FStr (dc_Scope from); FStr pn; FStr (dc_Scope to); FStr cn])
     else []) ++
    (if bool_decide (pc_Sensitive p = Some true) && negb (bool_decide (pc_Sensitive c = Some true)) then
      report "C005" "accept sensitive values in the consumer contract"
        (Sprintf "contract.[C005] producer %s.output.%s is sensitive but consumer %s.input.%s does not accept sensitive values; set sensitive = true on the consumer or stop marking the output" [FStr (dc_Scope from); FStr pn; FStr (dc_Scope to); FStr cn])
     else []) in
  let correct := "correct the producer and consumer types" in
  if bool_decide (pc_Type p = "") || bool_decide (pc_Type c = "") then flags
  else match parseCtyType (pc_Type p) with
  | Err err => report "C003" correct (Sprintf "contract.[C003] producer %s.output.%s: %v" [FStr (dc_Scope from); FStr pn; FErr err])
  | Ok pt =>
    match parseCtyType (pc_Type c) with
    | Err err => report "C003" correct (Sprintf "contract.[C003] consumer %s.input.%s: %v" [FStr (dc_Scope to); FStr cn; FErr err])
    | Ok ct =>
      (if negb (Equals pt ct) && negb (GetConversionUnsafe pt ct) then
        report "C003" correct (Sprintf "contract.[C003] producer %s.output.%s (%s) -> consumer %s.input.%s (%s): types are not convertible; change one side"
          [FStr (dc_Scope from); FStr pn; FStr (pc_Type p); FStr (dc_Scope to); FStr cn; FStr (pc_Type c)])
       else []) ++ flags
    end
  end.

Definition edge_problems (g : Graph) (severity : Severity) (e : Edge) : list Problem :=
  if negb (IsDataEdge e) then []
  else match g_Nodes g !! pr_Node (e_From e), g_Nodes g !! pr_Node (e_To e) with
  | Some fn, Some tn =>
    match Lookup (g_Contracts g) (contractKey fn), Lookup (g_Contracts g) (contractKey tn) with
    | Some from, Some to =>
      match dc_Producer from !! pr_Name (e_From e), dc_Consumer to !! pr_Name (e_To e) with
      | Some p, Some c => edge_claims severity e from to p c (s_Variables (schema_of tn) !! pr_Name (e_To e))
      | _, _ => []
      end
    | _, _ => []
    end
  | _, _ => []
  end.

Definition mode_severity (g : Graph) : Severity :=
  if decide (g_ContractMode g = "enforce") then SeverityError else SeverityWarning.

Definition contractProblems (g : Graph) : list Problem :=
  match g_Contracts g with
  | None => []
  | Some c =>
    concat (source_problems g (mode_severity g) <$> sortedContracts c) ++
    concat (edge_problems g (mode_severity g) <$> g_Edges g)
  end.

(** *** The mode decides severity and nothing else *)

Lemma group_finding_any acc owner f : group_finding acc owner f ≠ [].
Proof. destruct f as [[c r] m], acc as [|[m' [[c' r'] l]] acc]; simpl; [done|]. by case_decide. Qed.

Lemma edge_claims_severity severity e from to p c v q :
  q ∈ edge_claims severity e from to p c v → p_Severity q = severity.
Proof.
  unfold edge_claims. intros Hq. repeat case_match; set_solver.
Qed.

Lemma contract_severity g q : q ∈ contractProblems g → p_Severity q = mode_severity g.
Proof.
  unfold contractProblems. destruct (g_Contracts g) as [c|] eqn:Hc; [|set_solver].
  rewrite elem_of_app, !elem_of_concat. intros [(l & Hl & Hq)|(l & Hl & Hq)];
    apply list_elem_of_fmap in Hl as (x & -> & _).
  - unfold source_problems in Hq. destruct (owners_of g (dc_Dir x)).
    + by apply list_elem_of_singleton in Hq as ->.
    + apply list_elem_of_fmap in Hq as ([m [[cd r] af]] & -> & _). done.
  - unfold edge_problems in Hq. repeat case_match; try set_solver; by eapply edge_claims_severity.
Qed.
End ContractProblems.

(** *** Properties *)

(** Merging contract sets succeeds exactly when no port is promised twice
    with different claims, and then the result is the union: every claim of
    both sides is kept, the first spelling winning on a repeated identical
    claim.  Neither the verdict nor the result depends on the order the maps
    are ranged in. *)
Theorem mergeContracts_union ContractType `{MapOrder} g src : keyed src →
  (∀ g', mergeContracts ContractType g (Some src) = Ok g' ↔
     sets_agree ContractType (default ∅ (g_Contracts g)) src ∧
     g' = set_contracts g (Some (sets_union (default ∅ (g_Contracts g)) src))) ∧
  (∀ g', mergeContracts ContractType g (Some src) = Ok g' → ∀ k r name p,
     (default ∅ (g_Contracts g) !! k ≫= λ dc, ports_of r dc !! name) = Some p →
     (default ∅ (g_Contracts g') !! k ≫= λ dc, ports_of r dc !! name) = Some p) ∧
  (∀ g', mergeContracts ContractType g (Some src) = Ok g' → ∀ k r name p,
     (src !! k ≫= λ dc, ports_of r dc !! name) = Some p →
     ∃ q, (default ∅ (g_Contracts g') !! k ≫= λ dc, ports_of r dc !! name) = Some q ∧
          (q = p ∨ sameClaims ContractType q p = true)).
Proof.
  intros Hkey.
  assert (∀ g', mergeContracts ContractType g (Some src) = Ok g' ↔
     sets_agree ContractType (default ∅ (g_Contracts g)) src ∧
     g' = set_contracts g (Some (sets_union (default ∅ (g_Contracts g)) src))) as Hiff.
  { intros g'. unfold mergeContracts. rewrite result_bind_Ok. setoid_rewrite merge_sets_Ok; [|done]. naive_solver. }
  split; [done|]. split; intros g' [Hag ->]%Hiff k r name p Hp; simpl; rewrite sets_union_lookup;
    destruct (default ∅ (g_Contracts g) !! k) as [a|] eqn:Ha, (src !! k) as [b|] eqn:Hb; simpl in *; try done;
    [| |by eauto].
  - destruct r; simpl in *; by rewrite lookup_union, Hp, union_Some_l.
  - destruct (Hag k a b Ha Hb) as [Hp1 Hp2].
    destruct (ports_of r a !! name) as [q|] eqn:Hq.
    + exists q. split; [destruct r; simpl in *; by rewrite lookup_union, Hq, union_Some_l|].
      right. destruct r; [eapply Hp1|eapply Hp2]; done.
    + exists p. split; [|by left]. destruct r; simpl in *; by rewrite lookup_union, Hq, (left_id_L None _).
Qed.

Definition sample_port (name typ : string) (nullable : option bool) : PortContract :=
  MkPortContract name "./m" typ nullable None.
Definition sample_dir (p : string) (nullable : option bool) : Contracts :=
  {[ "/bp/m" := MkDirContracts "./m" "/bp/m" {[ p := sample_port p "string" nullable ]} ∅ ]}.
Definition sample_types (s : string) : result ctype := Ok (TPrimitive s).

Example mergeContracts_union_witness :
  let O := map_order_default in
  (∃ g', mergeContracts sample_types (set_contracts empty_graph (Some (sample_dir "x" None))) (Some (sample_dir "y" None)) = Ok g') ∧
  (∀ g', mergeContracts sample_types (set_contracts empty_graph (Some (sample_dir "x" None))) (Some (sample_dir "y" None)) = Ok g' →
     (default ∅ (g_Contracts g') !! "/bp/m" ≫= λ dc, ports_of producer dc !! "x") = Some (sample_port "x" "string" None)).
Proof.
  split; [eexists; vm_compute; reflexivity|]. intros g' Hg'.
  refine (proj1 (proj2 (@mergeContracts_union sample_types map_order_default
    (set_contracts empty_graph (Some (sample_dir "x" None))) (sample_dir "y" None) _)) g' Hg' "/bp/m" producer "x" _ _).
  - intros k dc. unfold sample_dir. intros [<- <-]%lookup_singleton_Some. reflexivity.
  - vm_compute. reflexivity.
Defined.

Section EdgeClaims.
Context (parseCtyType : string → result ctype) (Equals GetConversionUnsafe : ctype → ctype → bool).

Definition types_agree (p c : PortContract) : Prop :=
  pc_Type p = "" ∨ pc_Type c = "" ∨
  ∃ pt ct, parseCtyType (pc_Type p) = Ok pt ∧ parseCtyType (pc_Type c) = Ok ct ∧
    (Equals pt ct = true ∨ GetConversionUnsafe pt ct = true).

Definition claims_compatible (p c : PortContract) (v : option VariableDecl) : Prop :=
  types_agree p c ∧
  (pc_Nullable c = Some false → pc_Nullable p = Some false ∨ null_default v = true) ∧
  (pc_Sensitive p = Some true → pc_Sensitive c = Some true).

Lemma flag_nil (b : bool) (l : list Problem) : l ≠ [] → (if b then l else []) = [] ↔ b = false.
Proof. by destruct b. Qed.

Lemma edge_claims_nil severity e from to p c v :
  edge_claims parseCtyType Equals GetConversionUnsafe severity e from to p c v = [] ↔ claims_compatible p c v.
Proof.
  unfold edge_claims, claims_compatible, types_agree.
  set (N := bool_decide (pc_Nullable c = Some false) && _ && _).
  set (F := bool_decide (pc_Sensitive p = Some true) && _).
  assert (N = false ↔ (pc_Nullable c = Some false → pc_Nullable p = Some false ∨ null_default v = true)) as HN.
  { unfold N. rewrite !andb_false_iff, !negb_false_iff, bool_decide_eq_false, bool_decide_eq_true.
    destruct (decide (pc_Nullable c = Some false)); tauto. }
  assert (F = false ↔ (pc_Sensitive p = Some true → pc_Sensitive c = Some true)) as HF.
  { unfold F. rewrite andb_false_iff, negb_false_iff, bool_decide_eq_false, bool_decide_eq_true.
    destruct (decide (pc_Sensitive p = Some true)); tauto. }
  destruct (decide (pc_Type p = "")) as [Hp|Hp]; [rewrite (bool_decide_eq_true_2 (pc_Type p = "")) by done|
    rewrite (bool_decide_eq_false_2 (pc_Type p = "")) by done];
  (destruct (decide (pc_Type c = "")) as [Hc|Hc]; [rewrite (bool_decide_eq_true_2 (pc_Type c = "")) by done|
    rewrite (bool_decide_eq_false_2 (pc_Type c = "")) by done]); simpl;
    rewrite ?app_nil, ?flag_nil, ?HN, ?HF by done; try tauto.
  destruct (parseCtyType (pc_Type p)) as [pt|err]; [|split; [done|naive_solver]].
  destruct (parseCtyType (pc_Type c)) as [ct|err]; [|split; [done|naive_solver]].
  rewrite !app_nil, !flag_nil, HN, HF, andb_false_iff, !negb_false_iff by done. naive_solver.
Qed.
End EdgeClaims.

(** A data edge between two contracted ports raises no contract problem
    exactly when the producer's guarantee meets the consumer's requirement: the
    types are equal or convertible (or one is unconstrained), a non-null
    requirement is promised or covered by a non-null default, and a sensitive
    output is accepted as such; and every contract problem is an error exactly
    under mode enforce. *)
Theorem edge_contract_exact parse pm Equals GetConversion Unsafe render g severity e fn tn from to p c :
  IsDataEdge e = true →
  g_Nodes g !! pr_Node (e_From e) = Some fn → g_Nodes g !! pr_Node (e_To e) = Some tn →
  Lookup (g_Contracts g) (contractKey fn) = Some from → Lookup (g_Contracts g) (contractKey tn) = Some to →
  dc_Producer from !! pr_Name (e_From e) = Some p → dc_Consumer to !! pr_Name (e_To e) = Some c →
  (edge_problems parse Equals Unsafe g severity e = [] ↔
   claims_compatible parse Equals Unsafe p c (s_Variables (schema_of tn) !! pr_Name (e_To e))) ∧
  (∀ q, q ∈ contractProblems parse pm Equals GetConversion Unsafe render g →
     IsError q = bool_decide (g_ContractMode g = "enforce")).
Proof.
  intros He Hfn Htn Hf Ht Hp Hc. split.
  - unfold edge_problems. rewrite He, Hfn, Htn, Hf, Ht, Hp, Hc. simpl. apply edge_claims_nil.
  - intros q Hq%contract_severity. unfold IsError. rewrite Hq. unfold mode_severity. case_decide.
    + by rewrite !bool_decide_eq_true_2.
    + by rewrite !bool_decide_eq_false_2.
Qed.

Definition claim_graph : Graph :=
  set_contracts (plain_graph ["a"; "b"] []) (Some {[ "/m" := MkDirContracts "./m" "/m"
    {[ "o" := sample_port "o" "string" None ]} {[ "i" := sample_port "i" "string" (Some false) ]} ]}).

Example edge_contract_exact_witness :
  edge_problems sample_types (λ _ _, true) (λ _ _, true) claim_graph SeverityWarning (MkEdge (out_port "a" "o") (in_port "b" "i")) ≠ [].
Proof.
  intros Hnil.
  destruct (proj1 (proj1 (edge_contract_exact sample_types sample_types (λ _ _, true) (λ _ _, true) (λ _ _, true) fst
    claim_graph SeverityWarning (MkEdge (out_port "a" "o") (in_port "b" "i")) (plain_node "a") (plain_node "b")
    _ _ _ _ eq_refl eq_refl eq_refl eq_refl eq_refl eq_refl eq_refl)) Hnil) as (_ & Hn & _).
  destruct (Hn eq_refl); discriminate.
Defined.

(** ** The digest of a contract set (src/internal/blueprint/contract.go) *)

Record canonicalEntry := MkCanonicalEntry {
  ce_Source : string; ce_Role : string; ce_Scope : string; ce_Port : string;
  ce_Type : string; ce_Nullable : option bool; ce_Sensitive : option bool;
}.

(** What entries are ordered by, the most significant first. *)
Definition entry_key (e : canonicalEntry) : list string := [ce_Scope e; ce_Role e; ce_Port e; ce_Source e].
Fixpoint keys_le (a b : list string) : Prop :=
  match a, b with
  | [], _ => True
  | x :: a, y :: b => if decide (x = y) then keys_le a b else String.le x y
  | _ :: _, [] => False
  end.
Definition canonical_le (a b : canonicalEntry) : Prop := keys_le (entry_key a) (entry_key b).

#[export] Instance keys_le_dec : RelDecision keys_le.
Proof. intros a. induction a as [|x a IH]; intros [|y b]; simpl; try apply _. destruct (decide (x = y)); [apply IH|apply _]. Defined.
#[export] Instance canonical_le_dec : RelDecision canonical_le := λ a b, keys_le_dec (entry_key a) (entry_key b).

Lemma keys_le_trans : Transitive keys_le.
Proof.
  intros a. induction a as [|x a IH]; intros [|y b] [|z c]; simpl; try done.
  destruct (decide (x = y)) as [->|Hxy], (decide (y = z)) as [->|Hyz]; try (by rewrite ?decide_True, ?decide_False by done).
  - apply IH.
  - intros H1 H2. destruct (decide (x = z)) as [->|Hxz]; [|by etrans]. by destruct Hxy; apply (anti_symm String.le).
Qed.
Lemma keys_le_total : Total keys_le.
Proof.
  intros a. induction a as [|x a IH]; intros [|y b]; simpl; [by left..|by right|].
  destruct (decide (x = y)) as [->|Hxy]; [rewrite decide_True by done; apply IH|rewrite decide_False by done; apply (total String.le)].
Qed.
Lemma keys_le_antisymm : AntiSymm (=) keys_le.
Proof.
  intros a. induction a as [|x a IH]; intros [|y b]; simpl; try done.
  destruct (decide (x = y)) as [->|Hxy].
  - rewrite decide_True by done. intros. f_equal. by apply IH.
  - rewrite decide_False by done. intros H1 H2. destruct Hxy. by apply (anti_symm String.le).
Qed.
#[export] Instance canonical_le_trans : Transitive canonical_le.
Proof. intros a b c. apply keys_le_trans. Qed.
#[export] Instance canonical_le_total : Total canonical_le.
Proof. intros a b. apply keys_le_total. Qed.

Section Digest.
Context (ContractType : string → result ctype) (digest_of : Z * list canonicalEntry → result string).

Definition canonical_entry (dc : DirContracts) (r : role) (np : string * PortContract) : result canonicalEntry :=
  typ ← CanonicalContractType ContractType (pc_Type np.2);
  Ok (MkCanonicalEntry (dc_Dir dc) (role_string r) (dc_Scope dc) np.1 typ (pc_Nullable np.2) (pc_Sensitive np.2)).

Definition dir_entries `{MapOrder} (dc : DirContracts) : result (list canonicalEntry) :=
  producers ← mapM_res (canonical_entry dc producer) (range (dc_Producer dc));
  consumers ← mapM_res (canonical_entry dc consumer) (range (dc_Consumer dc));
  Ok (producers ++ consumers).

Definition canonical_entries `{MapOrder} (c : Contracts) : result (list canonicalEntry) :=
  parts ← mapM_res (λ kd : string * DirContracts, dir_entries kd.2) (range c); Ok (concat parts).

(** [digest_of] is the hash of the JSON document. *)
Definition Digest `{MapOrder} (c : option Contracts) : result string :=
  entries ← canonical_entries (default ∅ c);
  wrap_err (λ err, Errorf "contracts digest: %w" [FErr err]) (digest_of (1%Z, merge_sort canonical_le entries)).

(** *** What is digested *)

(** A claim of the set, in canonical form. *)
Definition claims (c : Contracts) (e : canonicalEntry) : Prop :=
  ∃ dir dc r name p, c !! dir = Some dc ∧ ports_of r dc !! name = Some p ∧ canonical_entry dc r (name, p) = Ok e.

Lemma mapM_res_elem {A B} (f : A → result B) l bs b : mapM_res f l = Ok bs → b ∈ bs ↔ ∃ a, a ∈ l ∧ f a = Ok b.
Proof.
  intros Hm%mapM_res_Ok. induction Hm as [|a x l bs Ha _ IH]; [set_solver|]. rewrite elem_of_cons, IH. split.
  - intros [->|(a' & ? & ?)]; [exists a|exists a']; set_solver.
  - intros (a' & [->|Hin]%elem_of_cons & Ha'); [left; congruence|right; by exists a'].
Qed.

(** Another order of the loop gives the same elements in another order. *)
Lemma mapM_res_perm {A B} (f : A → result B) l l' bs : l ≡ₚ l' → mapM_res f l = Ok bs → ∃ bs', mapM_res f l' = Ok bs' ∧ bs ≡ₚ bs'.
Proof.
  intros Hp. revert bs. induction Hp as [|a l l' _ IH|a b l|l1 l2 l3 _ IH1 _ IH2]; intros bs.
  - intros [= <-]. by exists [].
  - cbn. rewrite result_bind_Ok. intros (x & Hx & Hl). rewrite Hx. simpl. apply result_bind_Ok in Hl as (xs & Hxs & [= <-]).
    destruct (IH _ Hxs) as (ys & -> & Hy). exists (x :: ys). by rewrite Hy.
  - cbn. destruct (f a), (f b); simpl; try done. destruct (mapM_res f l) as [xs|]; simpl; [|done]. intros [= <-].
    eexists. split; [done|]. apply Permutation_swap.
  - intros (ys & Hys & Hy)%IH1. destruct (IH2 _ Hys) as (zs & Hzs & Hz). exists zs. split; [done|]. by rewrite Hy.
Qed.

Lemma mapM_res_rel {A B} (f g : A → result B) (R : B → B → Prop) l bs :
  (∀ a b, f a = Ok b → ∃ b', g a = Ok b' ∧ R b b') → mapM_res f l = Ok bs → ∃ bs', mapM_res g l = Ok bs' ∧ Forall2 R bs bs'.
Proof.
  intros Hfg Hm%mapM_res_Ok. induction Hm as [|a x l bs Ha _ IH]; [by exists []|]. destruct (Hfg _ _ Ha) as (x' & Hx & Hr).
  destruct IH as (bs' & Hbs & Hf). exists (x' :: bs'). cbn. rewrite Hx. simpl. rewrite Hbs. by split; [|constructor].
Qed.

Lemma dir_entries_perm (o1 o2 : MapOrder) dc l : dir_entries (H := o1) dc = Ok l → ∃ l', dir_entries (H := o2) dc = Ok l' ∧ l ≡ₚ l'.
Proof.
  unfold dir_entries. rewrite result_bind_Ok. intros (ps & Hps & Hl). apply result_bind_Ok in Hl as (cs & Hcs & [= <-]).
  assert (∀ m : gmap string PortContract, range (MapOrder := o1) m ≡ₚ range (MapOrder := o2) m) as Hr by (intros m; by rewrite !range_perm).
  destruct (mapM_res_perm _ _ _ _ (Hr (dc_Producer dc)) Hps) as (ps' & -> & Hp).
  destruct (mapM_res_perm _ _ _ _ (Hr (dc_Consumer dc)) Hcs) as (cs' & Hc' & Hc). simpl. rewrite Hc'. eexists. split; [done|]. by rewrite Hp, Hc.
Qed.

Lemma canonical_entries_perm (o1 o2 : MapOrder) c l : canonical_entries (H := o1) c = Ok l → ∃ l', canonical_entries (H := o2) c = Ok l' ∧ l ≡ₚ l'.
Proof.
  unfold canonical_entries. rewrite result_bind_Ok. intros (parts & Hparts & [= <-]).
  destruct (mapM_res_rel _ (λ kd : string * DirContracts, dir_entries (H := o2) kd.2) (≡ₚ) _ _ (λ kd b, dir_entries_perm o1 o2 kd.2 b) Hparts) as (qs & Hqs & Hf).
  assert (range (MapOrder := o1) c ≡ₚ range (MapOrder := o2) c) as Hr by by rewrite !range_perm.
  destruct (mapM_res_perm _ _ _ _ Hr Hqs) as (qs' & -> & Hq). eexists. split; [done|].
  transitivity (concat qs); [|by rewrite Hq]. clear -Hf. induction Hf as [|x y xs ys Hxy _ IH]; [done|]. simpl. by rewrite Hxy, IH.
Qed.

Lemma canonical_entries_elem `{MapOrder} c l e : canonical_entries c = Ok l → e ∈ l ↔ claims c e.
Proof.
  unfold canonical_entries. rewrite result_bind_Ok. intros (parts & Hparts & [= <-]). rewrite list_elem_of_In, in_concat.
  assert (∀ dc part, dir_entries dc = Ok part → e ∈ part ↔ ∃ r name p, ports_of r dc !! name = Some p ∧ canonical_entry dc r (name, p) = Ok e) as Hd.
  { intros dc part. unfold dir_entries. rewrite result_bind_Ok. intros (ps & Hps & Hl). apply result_bind_Ok in Hl as (cs & Hcs & [= <-]).
    rewrite elem_of_app, (mapM_res_elem _ _ _ _ Hps), (mapM_res_elem _ _ _ _ Hcs). split.
    - intros [([name p] & Hin%range_elem & He)|([name p] & Hin%range_elem & He)]; [by exists producer, name, p|by exists consumer, name, p].
    - intros ([] & name & p & Hp & He); [left|right]; exists (name, p); by rewrite range_elem. }
  setoid_rewrite <- list_elem_of_In. setoid_rewrite (mapM_res_elem _ _ _ _ Hparts). split.
  - intros (part & ([dir dc] & Hdir%range_elem & Hpart) & He). apply (Hd _ _ Hpart) in He as (r & name & p & He). by exists dir, dc, r, name, p.
  - intros (dir & dc & r & name & p & Hdir & He). apply range_elem in Hdir.
    apply mapM_res_Ok in Hparts. apply list_elem_of_lookup in Hdir as [i Hi]. destruct (Forall2_lookup_l _ _ _ _ _ Hparts Hi) as (part & _ & Hpart).
    exists part. split; [exists (dir, dc); split; [by eapply list_elem_of_lookup_2|done]|]. apply (Hd dc); [done|]. by exists r, name, p.
Qed.

(** In a keyed set a claim is identified by what entries are ordered by. *)
Lemma claims_key c e1 e2 : keyed c → claims c e1 → claims c e2 → entry_key e1 = entry_key e2 → e1 = e2.
Proof.
  intros Hk (d1 & dc1 & r1 & n1 & p1 & Hd1 & Hp1 & He1) (d2 & dc2 & r2 & n2 & p2 & Hd2 & Hp2 & He2).
  pose proof (Hk _ _ Hd1) as Hk1. pose proof (Hk _ _ Hd2) as Hk2. unfold canonical_entry in He1, He2. cbn [fst snd] in *.
  destruct (CanonicalContractType _ (pc_Type p1)) eqn:Ht1; [|done]. destruct (CanonicalContractType _ (pc_Type p2)) eqn:Ht2; [|done].
  injection He1 as <-. injection He2 as <-. unfold entry_key. cbn. intros [= Hs Hr -> Hdir].
  assert (r1 = r2) as -> by by destruct r1, r2. assert (d1 = d2) as -> by congruence. rewrite Hd1 in Hd2. injection Hd2 as <-. rewrite Hp1 in Hp2. injection Hp2 as <-. congruence.
Qed.

(** The digest is one of the contract set: whatever order the maps are walked in,
    and so whatever order the unstable sort leaves, what is hashed is the same;
    and two sets hashed alike make the same claims, nullability and sensitivity
    left out and said to be false included. *)
Theorem Digest_canonical (o1 o2 : MapOrder) (c : option Contracts) (d : string) : keyed (default ∅ c) →
  Digest (H := o1) c = Ok d → Digest (H := o2) c = Ok d.
Proof.
  intros Hk. unfold Digest. rewrite result_bind_Ok. intros (l & Hl & Hd). destruct (canonical_entries_perm o1 o2 _ _ Hl) as (l' & Hl' & Hp).
  rewrite Hl'. simpl. rewrite <- Hd. do 2 f_equal. apply (f_equal (pair 1%Z)). symmetry.
  apply (StronglySorted_unique_strong canonical_le); [|apply (StronglySorted_merge_sort canonical_le)..|by rewrite !merge_sort_Permutation].
  intros e1 e2. rewrite !merge_sort_Permutation, (canonical_entries_elem _ _ _ Hl), (canonical_entries_elem _ _ _ Hl').
  intros H1 H2 H12 H21. apply (claims_key _ _ _ Hk H1 H2). by apply keys_le_antisymm.
Qed.

Theorem Digest_tells_apart (o : MapOrder) (c c' : option Contracts) d :
  (∀ x y t, digest_of x = Ok t → digest_of y = Ok t → x = y) → Digest c = Ok d → Digest c' = Ok d → ∀ e, claims (default ∅ c) e ↔ claims (default ∅ c') e.
Proof.
  intros Hinj. unfold Digest. rewrite !result_bind_Ok. intros (l & Hl & Hd) (l' & Hl' & Hd') e.
  rewrite <- (canonical_entries_elem _ _ _ Hl), <- (canonical_entries_elem _ _ _ Hl').
  destruct (digest_of (1%Z, merge_sort canonical_le l)) eqn:E; [|done]. destruct (digest_of (1%Z, merge_sort canonical_le l')) eqn:E'; [|done].
  simpl in *. simplify_eq. pose proof (Hinj _ _ _ E E') as Heq. injection Heq as Heq.
  rewrite <- (merge_sort_Permutation canonical_le l), Heq. by rewrite merge_sort_Permutation.
Qed.
End Digest.
