(* ===== verification/Validate.v ===== *)
(** Graph validation (src/internal/graph/validate.go, [Validate]): every issue
    of a built graph, in one pass.

    The source dereferences [g.Nodes[name].Schema] without a nil check; a graph
    with a data edge to a missing node, or a node without a schema, makes it
    panic.  [Validate] returns [None] there. *)
From S2P Require Import Prelude GoLib Cty Blueprint Module Graph Tarjan Topo Backend Contracts.

(** [wired]: the keys of the inputs that already have a supplier. *)
Notation wires := (gset string).
Definition wire_key (node var : string) : string := node +:+ "." +:+ var.

Record vstate := MkVState {
  vs_problems : list Problem;
  vs_wired : wires;
  vs_reported : wires;
}.

Definition report (st : vstate) (ps : list Problem) : vstate :=
  MkVState (vs_problems st ++ ps) (vs_wired st) (vs_reported st).
Definition wire (st : vstate) (k : string) : vstate :=
  MkVState (vs_problems st) ({[ k ]} ∪ vs_wired st) (vs_reported st).

Definition error_problem (code subject remedy : string) (m : text) : Problem :=
  MkProblem code subject remedy SeverityError m.

Definition input_subject (node var : string) : string := "node." +:+ node +:+ ".input." +:+ var.

(** ** Data edges *)

Definition missing_output (e : Edge) : Problem :=
  error_problem "missing_output" (PortRef_String (e_From e)) "declare the referenced output or correct the edge"
    (Sprintf "%s: node %q has no output named %q"
       [FStr (PortRef_String (e_From e)); FStr (pr_Node (e_From e)); FStr (pr_Name (e_From e))]).

Definition missing_input (e : Edge) : Problem :=
  error_problem "missing_input" (PortRef_String (e_To e)) "declare the referenced variable or correct the edge"
    (Sprintf "%s: node %q has no input variable named %q"
       [FStr (PortRef_String (e_To e)); FStr (pr_Node (e_To e)); FStr (pr_Name (e_To e))]).

Definition multi_edge (e : Edge) : Problem :=
  error_problem "input_conflict" (input_subject (pr_Node (e_To e)) (pr_Name (e_To e))) "remove extra data edges"
    (Sprintf "node.%s.input.%s: set by more than one data edge; remove extras" [FStr (pr_Node (e_To e)); FStr (pr_Name (e_To e))]).

(** The two port checks, after the four dereferences. *)
Definition edge_port_problems (g : Graph) (e : Edge) : option (list Problem) :=
  from ← g_Nodes g !! pr_Node (e_From e);
  fs ← n_Schema from;
  to ← g_Nodes g !! pr_Node (e_To e);
  ts ← n_Schema to;
  Some ((if HasOutput fs (pr_Name (e_From e)) then [] else [missing_output e])
        ++ (if HasVariable ts (pr_Name (e_To e)) then [] else [missing_input e])).

Definition to_key (e : Edge) : string := wire_key (pr_Node (e_To e)) (pr_Name (e_To e)).

(** The first edge of an input wires it; the second reports it, once. *)
Definition claim_edge (st : vstate) (e : Edge) : vstate :=
  if decide (to_key e ∈ vs_wired st) then
    if decide (to_key e ∈ vs_reported st) then st
    else MkVState (vs_problems st ++ [multi_edge e]) (vs_wired st) ({[ to_key e ]} ∪ vs_reported st)
  else wire st (to_key e).

Definition wire_edge (g : Graph) (st : vstate) (e : Edge) : option vstate :=
  if negb (IsDataEdge e) then Some st
  else ps ← edge_port_problems g e; Some (claim_edge (report st ps) e).

(** ** Literal values *)

(** The schema is dereferenced for every variable set, so not at all when none is. *)
Definition wire_var (name : string) (schema : option Schema) (st : vstate) (varName : string) : option vstate :=
  s ← schema;
  Some (if negb (HasVariable s varName) then
    report st [error_problem "missing_input" (input_subject name varName) "remove the vars entry or declare the variable"
      (Sprintf "node.%s.input.%s: vars sets it, but node %q has no such input variable" [FStr name; FStr varName; FStr name])]
  else if decide (wire_key name varName ∈ vs_wired st) then
    report st [error_problem "input_conflict" (input_subject name varName) "remove the data edge or vars entry"
      (Sprintf "node.%s.input.%s: set by both a data edge and vars; remove one" [FStr name; FStr varName])]
  else wire st (wire_key name varName)).

Definition wire_vars (g : Graph) (st : vstate) (name : string) : option vstate :=
  n ← g_Nodes g !! name;
  foldO (wire_var name (n_Schema n)) st (sorted_keys (bn_Vars (n_Node n))).

(** ** Plugin inputs *)

(** The three checks of one binding, in order. *)
Definition input_problems (name : string) (s : Schema) (wired : wires) (input : string) : list Problem :=
  let subject := input_subject name input in
  (match s_Variables s !! input with
   | Some v => if v_Sensitive v then []
               else [error_problem "plugin_input_not_sensitive" subject "" (subject +:+ ": plugin inputs require sensitive = true on the module variable", [])]
   | None => []
   end) ++
  (if decide (wire_key name input ∈ wired)
   then [error_problem "input_conflict" subject "" (subject +:+ ": plugin input conflicts with vars or edge; remove one supplier", [])]
   else []) ++
  (if HasVariable s input then []
   else [error_problem "missing_input" subject "" (subject +:+ ": no such module variable; correct the binding", [])]).

Definition wire_input (name : string) (schema : option Schema) (st : vstate) (input : string) : option vstate :=
  s ← schema;
  Some (wire (report st (input_problems name s (vs_wired st) input)) (wire_key name input)).

Definition wire_inputs `{MapOrder} (g : Graph) (st : vstate) (name : string) : option vstate :=
  n ← g_Nodes g !! name;
  foldO (wire_input name (n_Schema n)) st (range (bn_Inputs (n_Node n))).*1.

(** ** Required variables *)

Definition required_var (name : string) (s : Schema) (wired : wires) (varName : string) : list Problem :=
  match s_Variables s !! varName with
  | Some v =>
    if v_Required v && negb (bool_decide (wire_key name varName ∈ wired)) then
      [MkProblem "required_input_unwired" (input_subject name varName)
         "supply the variable through an edge, vars, a plugin input binding, or runtime input" SeverityWarning
         (Sprintf "node.%s.input.%s: required variable %q has no edge feeding it (must be supplied some other way, e.g. terraform.tfvars)"
            [FStr name; FStr varName; FStr varName])]
    else []
  | None => []
  end.

Definition required_vars (g : Graph) (st : vstate) (name : string) : option vstate :=
  n ← g_Nodes g !! name;
  s ← n_Schema n;
  Some (report st (concat (required_var name s (vs_wired st) <$> sorted_keys (s_Variables s)))).

Definition cycle_problem (cycle : list string) : Problem :=
  error_problem "dependency_cycle" "graph" "remove an edge in the reported cycle"
    (Sprintf "cycle detected: %s" [FStr (join cycle " -> ")]).

Section Validate.
Context `{MapOrder, PathIdentity} (Getenv : string → string).
Context (contracts : Graph → list Problem).

(** [contracts] is [Contracts.contractProblems] at the library's type functions. *)
Definition Validate (g : Graph) : option (list Problem) :=
  st ← foldO (wire_edge g) (MkVState [] ∅ ∅) (g_Edges g);
  st ← foldO (wire_vars g) st (names g);
  st ← foldO (wire_inputs g) st (names g);
  st ← foldO (required_vars g) st (names g);
  Some (vs_problems st ++ (cycle_problem <$> FindCycles g) ++ backendProblems g
          ++ knownBackendProblems Getenv g ++ remoteLockProblems Getenv g ++ contracts g).

End Validate.

Definition no_errors (ps : list Problem) : Prop := ∀ p, p ∈ ps → IsError p = false.

(** ** What a pass adds *)

Lemma no_errors_app ps qs : no_errors (ps ++ qs) ↔ no_errors ps ∧ no_errors qs.
Proof. unfold no_errors. setoid_rewrite elem_of_app. naive_solver. Qed.

Lemma no_errors_prefix ps qs : ps `prefix_of` qs → no_errors qs → no_errors ps.
Proof. intros [k ->]. rewrite no_errors_app. by intros [? _]. Qed.

Lemma error_not_ok ps q : IsError q = true → ¬ no_errors (ps ++ [q]).
Proof. intros He H. rewrite (H q) in He; [done|]. apply elem_of_app. right. by left. Qed.

(** A supplier is an input reference with a dot-free variable name (an HCL
    identifier), so that keys determine it. *)
Definition dot_free (s : string) : Prop := "."%char ∉ chars s.

Lemma wire_key_inj n m v w : dot_free v → dot_free w → wire_key n v = wire_key m w → n = m ∧ v = w.
Proof. apply (last_sep "."%char). Qed.

(** What one edge may find wrong; nothing is an error only if nothing is. *)
Definition edge_ports_ok (g : Graph) (e : Edge) : Prop :=
  ∃ fn fs tn ts, g_Nodes g !! pr_Node (e_From e) = Some fn ∧ n_Schema fn = Some fs ∧
    g_Nodes g !! pr_Node (e_To e) = Some tn ∧ n_Schema tn = Some ts ∧
    HasOutput fs (pr_Name (e_From e)) = true ∧ HasVariable ts (pr_Name (e_To e)) = true.

(** A reported input is a reported error. *)
Definition reported_ok (st : vstate) : Prop := vs_reported st ≠ ∅ → ¬ no_errors (vs_problems st).

Lemma claim_edge_spec st e : reported_ok st →
  vs_problems st `prefix_of` vs_problems (claim_edge st e) ∧ reported_ok (claim_edge st e) ∧
  (no_errors (vs_problems (claim_edge st e)) →
     to_key e ∉ vs_wired st ∧ vs_wired (claim_edge st e) = {[ to_key e ]} ∪ vs_wired st).
Proof.
  intros Hrep. unfold claim_edge. case_decide as Hw; [case_decide as Hr|].
  - split_and!; [done..|]. intros Hok. exfalso. eapply Hrep; [|done]. set_solver.
  - split_and!; simpl.
    + by eexists.
    + intros _. by apply error_not_ok.
    + intros Hok. exfalso. revert Hok. by apply error_not_ok.
  - by split_and!.
Qed.

Lemma edge_port_problems_ok g e ps : edge_port_problems g e = Some ps → no_errors ps → edge_ports_ok g e.
Proof.
  unfold edge_port_problems, edge_ports_ok.
  destruct (g_Nodes g !! pr_Node (e_From e)) as [fn|]; simpl; [|done].
  destruct (n_Schema fn) as [fs|] eqn:Hfs; simpl; [|done].
  destruct (g_Nodes g !! pr_Node (e_To e)) as [tn|]; simpl; [|done].
  destruct (n_Schema tn) as [ts|] eqn:Hts; simpl; [|done].
  intros [= <-] Hok. apply no_errors_app in Hok as [H1 H2]. exists fn, fs, tn, ts. split_and!; try done.
  - destruct (HasOutput _ _); [done|]. by specialize (H1 _ (list_elem_of_here _ _)).
  - destruct (HasVariable _ _); [done|]. by specialize (H2 _ (list_elem_of_here _ _)).
Qed.

(** The data edges of a list of edges, by the key each one supplies. *)
Definition data_keys (es : list Edge) : list string := to_key <$> filter (λ e, IsDataEdge e = true) es.

Lemma wire_edges_spec g es : ∀ st st', foldO (wire_edge g) st es = Some st' → reported_ok st →
  vs_problems st `prefix_of` vs_problems st' ∧ reported_ok st' ∧
  (no_errors (vs_problems st') →
     (∀ e, e ∈ es → IsDataEdge e = true → edge_ports_ok g e) ∧
     NoDup (data_keys es) ∧ (∀ k, k ∈ data_keys es → k ∉ vs_wired st) ∧
     vs_wired st' = list_to_set (data_keys es) ∪ vs_wired st).
Proof.
  induction es as [|e es IH]; intros st st' Hf Hrep; simpl in Hf.
  - injection Hf as <-. split_and!; [done..|]. intros _. split_and!; [set_solver|constructor|set_solver|set_solver].
  - destruct (wire_edge g st e) as [st1|] eqn:He; [|done]. simpl in Hf.
    unfold wire_edge in He. unfold data_keys. rewrite filter_cons. destruct (IsDataEdge e) eqn:Hd; simpl in He.
    + rewrite decide_True by done. destruct (edge_port_problems g e) as [ps|] eqn:Hps; [|done]. injection He as <-.
      destruct (claim_edge_spec (report st ps) e) as (Hpre & Hrep1 & Hc).
      { intros Hr Hok. eapply Hrep; [done|]. eapply no_errors_prefix; [|exact Hok]. by eexists. }
      destruct (IH _ _ Hf Hrep1) as (Hpre' & Hrep' & Hrest).
      split_and!; [etrans; [|done]; etrans; [|done]; by eexists|done|].
      intros Hok. destruct (Hrest Hok) as (H1 & H2 & H3 & H4).
      assert (no_errors (vs_problems (claim_edge (report st ps) e))) as Hok1 by by eapply no_errors_prefix.
      destruct (Hc Hok1) as [Hk Hw]. simpl in Hk, Hw.
      assert (no_errors ps) as Hokp.
      { eapply no_errors_app. eapply no_errors_prefix; [exact Hpre|done]. }
      rewrite fmap_cons. split_and!.
      * intros e' [->|He']%elem_of_cons ?; [by eapply edge_port_problems_ok|auto].
      * constructor; [|done]. intros Hin. apply (H3 _ Hin). rewrite Hw. set_solver.
      * intros k [->|Hk']%elem_of_cons; [done|]. intros Hin. apply (H3 _ Hk'). rewrite Hw. set_solver.
      * rewrite H4, Hw, list_to_set_cons. unfold data_keys. set_solver.
    + rewrite decide_False by congruence. injection He as <-.
      destruct (IH _ _ Hf Hrep) as (Hpre & Hrep' & Hrest). split_and!; [done..|].
      intros Hok. destruct (Hrest Hok) as (H1 & H2 & H3 & H4). split_and!; [|done..].
      intros e' [->|He']%elem_of_cons ?; [congruence|auto].
Qed.

(** ** Passes that claim keys *)

Section Pass.
Context {A : Type} (step : vstate → A → option vstate) (keys : A → list string) (good : A → Prop).

Definition pass_ok (st : vstate) (l : list A) (st' : vstate) : Prop :=
  vs_problems st `prefix_of` vs_problems st' ∧
  (no_errors (vs_problems st') →
     (∀ a, a ∈ l → good a) ∧ NoDup (concat (keys <$> l)) ∧
     (∀ k, k ∈ concat (keys <$> l) → k ∉ vs_wired st) ∧
     vs_wired st' = list_to_set (concat (keys <$> l)) ∪ vs_wired st).

Lemma pass_spec : (∀ st a st', step st a = Some st' → pass_ok st [a] st') →
  ∀ l st st', foldO step st l = Some st' → pass_ok st l st'.
Proof.
  intros Hstep. induction l as [|a l IH]; intros st st' Hf; simpl in Hf.
  - injection Hf as <-. split; [done|]. intros _. split_and!; [set_solver|constructor|set_solver|set_solver].
  - destruct (step st a) as [st1|] eqn:Ha; [|done]. simpl in Hf.
    destruct (Hstep _ _ _ Ha) as [Hp1 H1], (IH _ _ Hf) as [Hp2 H2].
    split; [by etrans|]. intros Hok. destruct (H2 Hok) as (G2 & N2 & D2 & W2).
    destruct H1 as (G1 & N1 & D1 & W1); [by eapply no_errors_prefix|].
    simpl in N1, D1, W1. rewrite app_nil_r in N1, D1, W1. rewrite fmap_cons. simpl. split_and!.
    + intros b [->|Hb]%elem_of_cons; [apply G1; by left|auto].
    + apply NoDup_app. split_and!; [done| |done]. intros k Hk Hk'. apply (D2 k Hk'). rewrite W1. set_solver.
    + intros k [Hk|Hk]%elem_of_app; [auto|]. intros Hin. apply (D2 k Hk). rewrite W1. set_solver.
    + rewrite W2, W1, list_to_set_app_L. set_solver.
Qed.
End Pass.

Definition var_ok (schema : option Schema) (v : string) : Prop := ∃ s, schema = Some s ∧ HasVariable s v = true.

Lemma wire_var_spec name schema st v st' : wire_var name schema st v = Some st' →
  pass_ok (λ v, [wire_key name v]) (var_ok schema) st [v] st'.
Proof.
  unfold wire_var, pass_ok, var_ok. destruct schema as [s|]; simpl; [|done]. intros [= <-].
  destruct (HasVariable s v) eqn:Hv; simpl; [case_decide as Hw|].
  - split; [by eexists|]. intros Hok. exfalso. revert Hok. by apply error_not_ok.
  - simpl. split; [done|]. intros _. split_and!; [intros a ->%list_elem_of_singleton; by exists s|apply NoDup_singleton|set_solver|set_solver].
  - split; [by eexists|]. intros Hok. exfalso. revert Hok. by apply error_not_ok.
Qed.

Definition plugin_input_ok (schema : option Schema) (v : string) : Prop :=
  ∃ s d, schema = Some s ∧ s_Variables s !! v = Some d ∧ v_Sensitive d = true.

Lemma wire_input_spec name schema st v st' : wire_input name schema st v = Some st' →
  pass_ok (λ v, [wire_key name v]) (plugin_input_ok schema) st [v] st'.
Proof.
  unfold wire_input, pass_ok. destruct schema as [s|]; simpl; [|done]. intros [= <-]. simpl. split; [by eexists|]. rewrite no_errors_app. intros [_ Hok].
  unfold input_problems in Hok. apply no_errors_app in Hok as [H1 H2]. apply no_errors_app in H2 as [H2 H3].
  assert (HasVariable s v = true) as Hv.
  { destruct (HasVariable s v); [done|]. by specialize (H3 _ (list_elem_of_here _ _)). }
  assert (wire_key name v ∉ vs_wired st) as Hw.
  { case_decide; [|done]. by specialize (H2 _ (list_elem_of_here _ _)). }
  split_and!; [|apply NoDup_singleton|set_solver|set_solver].
  intros a ->%list_elem_of_singleton. unfold HasVariable in Hv. apply bool_decide_eq_true in Hv as [d Hd].
  exists s, d. split; [done|]. split; [done|]. rewrite Hd in H1. destruct (v_Sensitive d); [done|].
  by specialize (H1 _ (list_elem_of_here _ _)).
Qed.

(** The keys the three suppliers of a node claim. *)
Definition var_keys (g : Graph) (name : string) : list string :=
  match g_Nodes g !! name with
  | Some n => wire_key name <$> sorted_keys (bn_Vars (n_Node n))
  | None => []
  end.
Definition binding_keys `{MapOrder} (g : Graph) (name : string) : list string :=
  match g_Nodes g !! name with
  | Some n => wire_key name <$> (range (bn_Inputs (n_Node n))).*1
  | None => []
  end.

Lemma concat_singletons {A B} (f : A → B) l : concat ((λ a, [f a]) <$> l) = f <$> l.
Proof. induction l as [|a l IH]; [done|]. simpl. by f_equal. Qed.

Definition vars_ok (g : Graph) (name : string) : Prop :=
  ∃ n, g_Nodes g !! name = Some n ∧ ∀ v, is_Some (bn_Vars (n_Node n) !! v) → var_ok (n_Schema n) v.
Definition bindings_ok (g : Graph) (name : string) : Prop :=
  ∃ n, g_Nodes g !! name = Some n ∧ ∀ v, is_Some (bn_Inputs (n_Node n) !! v) → plugin_input_ok (n_Schema n) v.

Lemma wire_vars_spec g st name st' : wire_vars g st name = Some st' →
  pass_ok (var_keys g) (vars_ok g) st [name] st'.
Proof.
  unfold wire_vars, var_keys. intros Hf.
  destruct (g_Nodes g !! name) as [n|] eqn:Hn; simpl in Hf; [|done].
  destruct (pass_spec _ (λ v, [wire_key name v]) (var_ok (n_Schema n)) (wire_var_spec name (n_Schema n)) _ _ _ Hf) as [Hp Hrest].
  split; [done|]. intros Hok. destruct (Hrest Hok) as (H1 & H2 & H3 & H4). rewrite concat_singletons in *.
  simpl. rewrite Hn, app_nil_r. split_and!; [|done..].
  intros a ->%list_elem_of_singleton. exists n. split; [done|]. intros v Hv. apply H1. by apply sorted_keys_elem.
Qed.

Lemma wire_inputs_spec `{MapOrder} g st name st' : wire_inputs g st name = Some st' →
  pass_ok (binding_keys g) (bindings_ok g) st [name] st'.
Proof.
  unfold wire_inputs, binding_keys. intros Hf.
  destruct (g_Nodes g !! name) as [n|] eqn:Hn; simpl in Hf; [|done].
  destruct (pass_spec _ (λ v, [wire_key name v]) (plugin_input_ok (n_Schema n)) (wire_input_spec name (n_Schema n)) _ _ _ Hf) as [Hp Hrest].
  split; [done|]. intros Hok. destruct (Hrest Hok) as (H1 & H2 & H3 & H4). rewrite concat_singletons in *.
  simpl. rewrite Hn, app_nil_r. split_and!; [|done..].
  intros a ->%list_elem_of_singleton. exists n. split; [done|]. intros v [b Hb]. apply H1.
  apply list_elem_of_fmap. exists (v, b). split; [done|]. by apply range_elem.
Qed.

Lemma required_vars_spec g names st st' : foldO (required_vars g) st names = Some st' →
  vs_problems st `prefix_of` vs_problems st'.
Proof.
  revert st. induction names as [|name names IH]; intros st Hf; simpl in Hf; [by injection Hf as <-|].
  destruct (required_vars g st name) as [st1|] eqn:Hr; [|done]. simpl in Hf.
  apply IH in Hf. etrans; [|exact Hf]. unfold required_vars in Hr.
  destruct (g_Nodes g !! name) as [n|]; [|done]. simpl in Hr. destruct (n_Schema n); [|done]. simpl in Hr. injection Hr as <-. by eexists.
Qed.

(** ** Validation as a whole *)

Section Main.
Context `{MapOrder, PathIdentity} (Getenv : string → string) (contracts : Graph → list Problem).

Lemma Validate_Some g ps : Validate Getenv contracts g = Some ps → no_errors ps →
  (∀ e, e ∈ g_Edges g → IsDataEdge e = true → edge_ports_ok g e) ∧
  (∀ name, is_Some (g_Nodes g !! name) → vars_ok g name ∧ bindings_ok g name) ∧
  NoDup (data_keys (g_Edges g) ++ concat (var_keys g <$> names g) ++ concat (binding_keys g <$> names g)) ∧
  FindCycles g = [] ∧ no_errors (backendProblems g ++ knownBackendProblems Getenv g) ∧
  no_errors (remoteLockProblems Getenv g) ∧ no_errors (contracts g).
Proof.
  unfold Validate. intros Hv Hok.
  destruct (foldO (wire_edge g) _ _) as [s1|] eqn:H1; simpl in Hv; [|done].
  destruct (foldO (wire_vars g) s1 _) as [s2|] eqn:H2; simpl in Hv; [|done].
  destruct (foldO (wire_inputs g) s2 _) as [s3|] eqn:H3; simpl in Hv; [|done].
  destruct (foldO (required_vars g) s3 _) as [s4|] eqn:H4; simpl in Hv; [|done]. injection Hv as <-.
  rewrite !no_errors_app in Hok. destruct Hok as (Hs & Hc & Hb & Hkb & Hr & Hct).
  apply required_vars_spec in H4.
  destruct (pass_spec _ _ _ (wire_inputs_spec g) _ _ _ H3) as [P3 R3].
  destruct (pass_spec _ _ _ (wire_vars_spec g) _ _ _ H2) as [P2 R2].
  destruct (wire_edges_spec g _ _ _ H1) as (P1 & _ & R1); [intros Hne; by destruct Hne|].
  assert (no_errors (vs_problems s3)) as O3 by by eapply no_errors_prefix.
  assert (no_errors (vs_problems s2)) as O2 by by eapply no_errors_prefix.
  assert (no_errors (vs_problems s1)) as O1 by by eapply no_errors_prefix.
  destruct (R1 O1) as (G1 & N1 & _ & W1), (R2 O2) as (G2 & N2 & D2 & W2), (R3 O3) as (G3 & N3 & D3 & W3).
  split_and!; try done.
  - intros name Hn. split; [apply G2|apply G3]; by apply names_elem.
  - apply NoDup_app. split_and!; [done| |].
    + intros k Hk. rewrite elem_of_app. intros [Hin|Hin].
      * apply (D2 k Hin). rewrite W1. set_solver.
      * apply (D3 k Hin). rewrite W2, W1. set_solver.
    + apply NoDup_app. split_and!; [done| |done]. intros k Hk Hin. apply (D3 k Hin). rewrite W2. set_solver.
  - destruct (FindCycles g) as [|c l]; [done|]. by specialize (Hc _ (list_elem_of_here _ _)).
  - rewrite no_errors_app. done.
Qed.

(** What [Validate] reads without a check is not nil: the two nodes a data
    edge joins are in the graph, and every node carries a schema. *)
Definition nothing_nil (g : Graph) : Prop :=
  (∀ e, e ∈ g_Edges g → IsDataEdge e = true →
     g_Nodes g !! pr_Node (e_From e) ≠ None ∧ g_Nodes g !! pr_Node (e_To e) ≠ None) ∧
  (∀ name n, g_Nodes g !! name = Some n → n_Schema n ≠ None).

Lemma foldO_Some {A S} (f : S → A → option S) l : (∀ a s, a ∈ l → is_Some (f s a)) →
  ∀ s, is_Some (foldO f s l).
Proof.
  induction l as [|a l IH]; intros Hf s; simpl; [by eexists|].
  destruct (Hf a s) as [s1 ->]; [by left|]. simpl. apply IH. intros b s' Hb. apply Hf. by right.
Qed.

Lemma foldO_None {A S} (f : S → A → option S) l a : a ∈ l → (∀ s, f s a = None) → ∀ s, foldO f s l = None.
Proof.
  induction l as [|b l IH]; intros Ha Hf s; [by apply elem_of_nil in Ha|]. simpl.
  apply elem_of_cons in Ha as [->|Ha]; [by rewrite Hf|]. destruct (f s b); simpl; [by apply IH|done].
Qed.

Lemma edge_port_problems_Some g e ps : edge_port_problems g e = Some ps →
  g_Nodes g !! pr_Node (e_From e) ≠ None ∧ g_Nodes g !! pr_Node (e_To e) ≠ None.
Proof.
  unfold edge_port_problems. destruct (g_Nodes g !! pr_Node (e_From e)) as [f|]; [|done]. simpl. destruct (n_Schema f); [|done]. simpl.
  by destruct (g_Nodes g !! pr_Node (e_To e)).
Qed.

Lemma Validate_nothing_nil g : is_Some (Validate Getenv contracts g) → nothing_nil g.
Proof.
  unfold Validate. intros Hv. split.
  - intros e He Hd. destruct (edge_port_problems g e) eqn:Hp; [by eapply edge_port_problems_Some|]. exfalso.
    rewrite (foldO_None (wire_edge g) (g_Edges g) e He) in Hv; [by destruct Hv|].
    intros s. unfold wire_edge. by rewrite Hd, Hp.
  - intros name n Hn Hs. destruct (foldO (wire_edge g) _ _) as [s1|]; simpl in Hv; [|by destruct Hv].
    destruct (foldO (wire_vars g) _ _) as [s2|]; simpl in Hv; [|by destruct Hv].
    destruct (foldO (wire_inputs g) _ _) as [s3|]; simpl in Hv; [|by destruct Hv].
    rewrite (foldO_None (required_vars g) (names g) name) in Hv; [by destruct Hv|apply names_elem; by eexists|].
    intros s. unfold required_vars. rewrite Hn. simpl. by rewrite Hs.
Qed.

Lemma nothing_nil_Validate g : nothing_nil g → is_Some (Validate Getenv contracts g).
Proof.
  intros [He Hn]. unfold Validate.
  assert (∀ {S} (f : S → string → option S), (∀ s name n sc, g_Nodes g !! name = Some n → n_Schema n = Some sc → is_Some (f s name)) →
    ∀ s, is_Some (foldO f s (names g))) as Hnames.
  { intros S f Hf s. apply foldO_Some. intros name s' [n Hin]%names_elem. destruct (n_Schema n) as [sc|] eqn:Hsc; [by eapply Hf|].
    by destruct (Hn name n Hin). }
  destruct (foldO_Some (wire_edge g) (g_Edges g)) with (s := MkVState [] ∅ ∅) as [s1 ->].
  { intros e s Hin. unfold wire_edge. destruct (IsDataEdge e) eqn:Hd; simpl; [|by eexists].
    destruct (He e Hin Hd) as [Hf Ht]. unfold edge_port_problems.
    destruct (g_Nodes g !! pr_Node (e_From e)) as [fn|] eqn:Hfn; [|done]. destruct (g_Nodes g !! pr_Node (e_To e)) as [tn|] eqn:Htn; [|done].
    pose proof (Hn _ _ Hfn) as Hfs. pose proof (Hn _ _ Htn) as Hts. simpl. destruct (n_Schema fn); [|done]. simpl. destruct (n_Schema tn); [|done].
    by eexists. }
  simpl. destruct (Hnames _ (wire_vars g)) with (s := s1) as [s2 ->].
  { intros s name n sc Hnm Hs. unfold wire_vars. rewrite Hnm. simpl. apply foldO_Some. intros v s' _. unfold wire_var. rewrite Hs. by eexists. }
  simpl. destruct (Hnames _ (wire_inputs g)) with (s := s2) as [s3 ->].
  { intros s name n sc Hnm Hs. unfold wire_inputs. rewrite Hnm. simpl. apply foldO_Some. intros v s' _. unfold wire_input. rewrite Hs. by eexists. }
  simpl. destruct (Hnames _ (required_vars g)) with (s := s3) as [s4 ->]; [|by eexists].
  intros s name n sc Hnm Hs. unfold required_vars. rewrite Hnm. simpl. rewrite Hs. by eexists.
Qed.
End Main.

(** ** Properties *)

Lemma data_keys_elem e es : e ∈ es → IsDataEdge e = true → to_key e ∈ data_keys es.
Proof. intros He Hd. apply list_elem_of_fmap. exists e. split; [done|]. by apply list_elem_of_filter. Qed.

Lemma claimed_var_key g name n v : g_Nodes g !! name = Some n →
  is_Some (bn_Vars (n_Node n) !! v) → wire_key name v ∈ concat (var_keys g <$> names g).
Proof.
  intros Hn Hv. apply elem_of_concat. exists (var_keys g name). split.
  - apply list_elem_of_fmap. exists name. split; [done|]. apply names_elem. by eexists.
  - unfold var_keys. rewrite Hn. apply list_elem_of_fmap. exists v. split; [done|]. by apply sorted_keys_elem.
Qed.

Lemma claimed_binding_key `{MapOrder} g name n v : g_Nodes g !! name = Some n →
  is_Some (bn_Inputs (n_Node n) !! v) → wire_key name v ∈ concat (binding_keys g <$> names g).
Proof.
  intros Hn [b Hb]. apply elem_of_concat. exists (binding_keys g name). split.
  - apply list_elem_of_fmap. exists name. split; [done|]. apply names_elem. by eexists.
  - unfold binding_keys. rewrite Hn. apply list_elem_of_fmap. exists v. split; [done|].
    apply list_elem_of_fmap. exists (v, b). split; [done|]. by apply range_elem.
Qed.

(** C18: a graph [Validate] finds no error in can be scheduled, and its inputs
    are wired soundly: every data edge joins an existing output to an existing
    variable, every literal value and plugin binding names an existing variable
    (a sensitive one for a binding), and no input has two suppliers, be they two
    edges, an edge and a literal, a binding and either. *)
Theorem Validate_sound `{MapOrder, PathIdentity} Getenv contracts g ps :
  adj_wf g → closed g → Validate Getenv contracts g = Some ps → no_errors ps →
  (∃ L, Levels g = Ok L) ∧
  (∀ e, e ∈ g_Edges g → IsDataEdge e = true → edge_ports_ok g e) ∧
  (∀ i j e e', g_Edges g !! i = Some e → g_Edges g !! j = Some e' → IsDataEdge e = true → IsDataEdge e' = true →
     pr_Node (e_To e) = pr_Node (e_To e') → pr_Name (e_To e) = pr_Name (e_To e') → i = j) ∧
  (∀ name n v, g_Nodes g !! name = Some n → is_Some (bn_Vars (n_Node n) !! v) →
     (∃ s, n_Schema n = Some s ∧ HasVariable s v = true) ∧ bn_Inputs (n_Node n) !! v = None ∧
     ∀ e, e ∈ g_Edges g → IsDataEdge e = true → ¬ (pr_Node (e_To e) = name ∧ pr_Name (e_To e) = v)) ∧
  (∀ name n v, g_Nodes g !! name = Some n → is_Some (bn_Inputs (n_Node n) !! v) →
     (∃ s d, n_Schema n = Some s ∧ s_Variables s !! v = Some d ∧ v_Sensitive d = true) ∧
     ∀ e, e ∈ g_Edges g → IsDataEdge e = true → ¬ (pr_Node (e_To e) = name ∧ pr_Name (e_To e) = v)).
Proof.
  intros Hwf Hc Hv Hok. destruct (Validate_Some Getenv contracts g ps Hv Hok) as (Hp & Hn & Hnd & Hcyc & _).
  pose proof (closed_dangling_free g Hwf Hc) as Hd.
  apply NoDup_app in Hnd as (Hnd1 & Hdis1 & Hnd2). apply NoDup_app in Hnd2 as (_ & Hdis2 & _).
  split_and!; [by apply Levels_acyclic_Ok, FindCycles_nil|done| | |].
  - intros i j e e' Hi Hj He He' Hnode Hname.
    eapply (NoDup_fmap_filter_lookup to_key); [exact Hnd1|done..|]. unfold to_key. by rewrite Hnode, Hname.
  - intros name n v Hname Hvar. destruct (Hn name) as [(n' & Hn' & Hvs) _]; [by eexists|].
    rewrite Hname in Hn'. injection Hn' as <-. pose proof (claimed_var_key g name n v Hname Hvar) as Hk.
    split_and!; [by apply Hvs| |].
    + apply eq_None_not_Some. intros Hb. apply (Hdis2 _ Hk). by eapply claimed_binding_key.
    + intros e He Hde [<- <-]. apply (Hdis1 (to_key e)); [by apply data_keys_elem|]. apply elem_of_app. by left.
  - intros name n v Hname Hb. destruct (Hn name) as [_ (n' & Hn' & Hvs)]; [by eexists|].
    rewrite Hname in Hn'. injection Hn' as <-. split; [by apply Hvs|].
    intros e He Hde [<- <-]. apply (Hdis1 (to_key e)); [by apply data_keys_elem|]. apply elem_of_app. right.
    by eapply claimed_binding_key.
Qed.

(** C33: [Validate] returns unless something it reads without a check is nil:
    it panics exactly when a data edge names a node the graph lacks, or some
    node, even one without variables set, carries no schema (a plugin-supplied
    data edge naming an unknown node, or an unreadable leaf of an observation
    graph, reaches this). *)
Theorem Validate_panics_iff `{MapOrder, PathIdentity} Getenv contracts g :
  Validate Getenv contracts g = None ↔
  (∃ e, e ∈ g_Edges g ∧ IsDataEdge e = true ∧
     (g_Nodes g !! pr_Node (e_From e) = None ∨ g_Nodes g !! pr_Node (e_To e) = None)) ∨
  (∃ name n, g_Nodes g !! name = Some n ∧ n_Schema n = None).
Proof.
  split.
  - intros Hv. destruct (decide (Exists (λ e, IsDataEdge e = true ∧ (g_Nodes g !! pr_Node (e_From e) = None ∨ g_Nodes g !! pr_Node (e_To e) = None)) (g_Edges g)))
      as [He|He]; [left; by apply Exists_exists in He as (e & ? & ? & ?); exists e|right].
    destruct (decide (Exists (λ name, (g_Nodes g !! name ≫= n_Schema) = None) (names g))) as [Hn|Hn].
    { apply Exists_exists in Hn as (name & [n Hin]%names_elem & Hs). exists name, n. rewrite Hin in Hs. done. }
    destruct (nothing_nil_Validate Getenv contracts g) as [ps Hps]; [|congruence]. rewrite Exists_exists in He. rewrite Exists_exists in Hn. split.
    + intros e Hin Hd. split; intros Hnone; apply He; exists e; auto.
    + intros name n Hin Hs. apply Hn. exists name. split; [apply names_elem; by eexists|]. by rewrite Hin.
  - intros Hnil. apply eq_None_not_Some. intros [He Hn]%Validate_nothing_nil.
    destruct Hnil as [(e & Hin & Hd & Hnone)|(name & n & Hname & Hs)]; [|by apply (Hn name n)].
    destruct (He e Hin Hd) as [Hf Ht]. by destruct Hnone.
Qed.

Definition wired_schema : Schema :=
  MkSchema false {[ "in" := MkVariable "in" "string" "" false "" true None None false false ]} {[ "out" := true ]} ∅
    "local" ∅ (Some ∅) true ∅.
Definition wired_node (name : string) (vars : gmap string value) : GNode :=
  MkGNode (MkNode ∅ ∅ name "./m" {[ "path" := "/state/" +:+ name ]} None vars "" ∅ "") (Some wired_schema) None
    ("/m/" +:+ name) None ∅ "".
Definition wired_graph : Graph :=
  add_edge (set_node (set_node empty_graph "a" (wired_node "a" {[ "in" := VString "x" ]})) "b" (wired_node "b" ∅))
    (MkEdge (out_port "a" "out") (in_port "b" "in")).

Example Validate_sound_witness :
  @Validate map_order_default sample_paths (λ _, "") (λ _, []) wired_graph = Some [] ∧ ∃ L, Levels wired_graph = Ok L.
Proof.
  assert (@Validate map_order_default sample_paths (λ _, "") (λ _, []) wired_graph = Some []) as Hv
    by (vm_compute; reflexivity).
  split; [exact Hv|].
  refine (proj1 (@Validate_sound map_order_default sample_paths (λ _, "") (λ _, []) wired_graph [] _ _ Hv _)).
  - unfold wired_graph. auto with terragraph.
  - refine (bool_decide_unpack (closed wired_graph) _). vm_compute. exact I.
  - intros p Hp. exact (False_ind _ (not_elem_of_nil p Hp)).
Defined.
