(* ===== verification/Expand.v ===== *)
(** Graph building (src/internal/graph/build.go, group.go, source.go): every
    [use] of a group is expanded recursively, its nodes spliced in under a
    dotted namespace and every edge rewritten to its leaf ends.

    Parsing a group directory, inspecting a module and the file system are
    the record [BuildEnv]; the caches of [resolveContext] only avoid asking
    them twice, so they are not kept.  The stack of groups being expanded is
    passed down, which is what [push] and the deferred pop amount to.

    Nesting is bounded only by the groups on disk: [build] takes fuel and
    [build_terminates] shows one more than the number of loadable groups is
    enough. *)
From S2P Require Import Prelude GoLib Cty Blueprint Module Graph Tarjan Topo Backend Contracts Validate.

(** ** Names *)

Definition qualifyName (namespace name : string) : string :=
  if decide (namespace = "") then name else namespace +:+ "." +:+ name.

(** ** Vendored sources (source.go) *)

(** What [os.Stat] and [os.Lstat] tell the callers apart. *)
Inductive entry := EntryMissing | EntryDir | EntryFile | EntryError (e : error).

Record BuildEnv := MkBuildEnv {
  env_parseDir : string → result (Blueprint * nat);
  env_inspect : string → FileMode → result Schema;
  env_fileMode : string → FileMode;
  env_lstat : string → entry;
  env_stat : string → entry;
  env_vendored : string → result string;
  env_contractType : string → result ctype;
  env_validate : Graph → option (list Problem);
}.

(** [resolveContext], less its caches and its stack. *)
Record resolveContext := MkResolveContext {
  rc_env : BuildEnv;
  rc_observation : bool;
  rc_rootDir : string;
  rc_fallbackBinary : string;
  rc_rootVendorDir : string;
}.

Definition legacyGroupSourceDir (env : BuildEnv) (scopeDir vendorDir name : string) : string :=
  let previous := Join [scopeDir; "vendor"; name] in
  match env_lstat env previous with
  | EntryMissing => Join [scopeDir; vendorDir; name]
  | _ => previous
  end.

Definition vendor_hint (msg : string) : string :=
  msg +:+ "; run " +:+ dquote +:+ "terragraph vendor --node %s" +:+ dquote.

Definition remoteModuleDir (env : BuildEnv) (rootVendorDir scopeDir scopeVendorDir qualifiedName localName : string) :
    result string :=
  let dir := Join [rootVendorDir; qualifiedName] in
  dir ← (match env_lstat env dir with
         | EntryMissing => Ok (if decide (qualifiedName ≠ localName)
                               then legacyGroupSourceDir env scopeDir scopeVendorDir localName else dir)
         | EntryError err => Err (Errorf "reading vendored source: %w" [FErr err])
         | _ => Ok dir
         end);
  match env_stat env dir with
  | EntryMissing => Err (Errorf (vendor_hint "source is not vendored or is incomplete") [FStr qualifiedName])
  | EntryError err => Err (Errorf "reading vendored source: %w" [FErr err])
  | EntryFile => Err (Errorf (vendor_hint "vendored source %s is not a directory; remove it and") [FStr dir; FStr qualifiedName])
  | EntryDir => env_vendored env dir
  end.

(** ** Group definitions (group.go) *)

Definition push (stack : list string) (dir name : string) : result (list string) :=
  let key := dir +:+ "::" +:+ name in
  if mem key stack then Err (Errorf "circular group use: %s -> %s" [FStr (join stack " -> "); FStr key])
  else Ok (stack ++ [key]).

Definition parseGroupDir (env : BuildEnv) (dir : string) : result Blueprint :=
  '(bp, plugins) ← env_parseDir env dir;
  if Nat.ltb 0 plugins then Err (Errorf "group source %s: plugin declarations belong in the root blueprint" [FStr dir])
  else Ok bp.

Definition loadGroupDef (env : BuildEnv) (dir groupName : string) :
    result (Group * list Runtime * option Contracts * option VendorConfig) :=
  bp ← wrap_err (λ err, Errorf "reading group source directory %s: %w" [FStr dir; FErr err]) (parseGroupDir env dir);
  match List.find (λ g, bool_decide (gr_Name g = groupName)) (bp_Groups bp) with
  | Some g => Ok (g, bp_Runtimes bp, bp_Contracts bp, bp_Vendor bp)
  | None => Err (Errorf "no group named %q found in %s" [FStr groupName; FStr dir])
  end.

(** *** References *)

Record useInfo := MkUseInfo { ui_export : Export; ui_roots : list string; ui_sinks : list string }.

Definition qualify_ref (qualify : string → string) (r : PortRef) : PortRef :=
  MkPortRef (pr_Entity r) (qualify (pr_Node r)) (pr_Kind r) (pr_Name r).

Definition find_output (e : Export) (name : string) : option ExportOutput :=
  List.find (λ o, bool_decide (eo_Name o = name)) (ex_Outputs e).
Definition find_input (e : Export) (name : string) : option ExportInput :=
  List.find (λ i, bool_decide (ei_Name i = name)) (ex_Inputs e).

(** The port cases [rewriteEndpoint] and [resolveExportEndpoint] share. *)
Definition exported_port (info : useInfo) (ref : PortRef) : result (list PortRef) :=
  if decide (pr_Kind ref = PortOutput) then
    match find_output (ui_export info) (pr_Name ref) with
    | Some o => Ok [eo_From o]
    | None => Err (Errorf "use.%s.output.%s is not exported by this group" [FStr (pr_Node ref); FStr (pr_Name ref)])
    end
  else
    match find_input (ui_export info) (pr_Name ref) with
    | Some i => Ok (ei_To i)
    | None => Err (Errorf "use.%s.input.%s is not exported by this group" [FStr (pr_Node ref); FStr (pr_Name ref)])
    end.

Definition unknown_use (ref : PortRef) : error :=
  Errorf "reference to unknown use instance %q" [FStr (pr_Node ref)].

Definition resolveExportEndpoint (uses : gmap string useInfo) (qualify : string → string) (ref : PortRef) :
    result (list PortRef) :=
  if decide (pr_Entity ref ≠ EntityUse) then Ok [qualify_ref qualify ref]
  else match uses !! pr_Node ref with
       | None => Err (unknown_use ref)
       | Some info => exported_port info ref
       end.

Definition resolve_input (uses : gmap string useInfo) (qualify : string → string) (i : ExportInput) : result ExportInput :=
  targets ← wrap_err (λ err, Errorf "export input %q: %w" [FStr (ei_Name i); FErr err])
              (mapM_res (resolveExportEndpoint uses qualify) (ei_To i));
  Ok (MkExportInput (ei_Name i) (concat targets)).

Definition resolve_output (uses : gmap string useInfo) (qualify : string → string) (o : ExportOutput) : result ExportOutput :=
  resolved ← wrap_err (λ err, Errorf "export output %q: %w" [FStr (eo_Name o); FErr err])
               (resolveExportEndpoint uses qualify (eo_From o));
  match resolved with
  | [r] => Ok (MkExportOutput (eo_Name o) r)
  | _ => Err (Errorf "export output %q must resolve to exactly one port, got %d" [FStr (eo_Name o); FInt (Z.of_nat (length resolved))])
  end.

Definition resolveExport (exp : Export) (uses : gmap string useInfo) (qualify : string → string) : result Export :=
  ins ← mapM_res (resolve_input uses qualify) (ex_Inputs exp);
  outs ← mapM_res (resolve_output uses qualify) (ex_Outputs exp);
  Ok (MkExport ins outs).

Definition rewriteEndpoint (uses : gmap string useInfo) (qualify : string → string) (wantRoots : bool) (ref : PortRef) :
    result (list PortRef) :=
  if decide (pr_Entity ref ≠ EntityUse) then Ok [qualify_ref qualify ref]
  else match uses !! pr_Node ref with
       | None => Err (unknown_use ref)
       | Some info =>
         if negb (IsPort ref) then Ok (bare <$> (if wantRoots then ui_roots info else ui_sinks info))
         else exported_port info ref
       end.

Definition edge_error (e : Edge) (err : error) : error :=
  Errorf "%s -> %s: %w" [FStr (PortRef_String (e_From e)); FStr (PortRef_String (e_To e)); FErr err].

Definition rewriteEdge (uses : gmap string useInfo) (qualify : string → string) (e : Edge) : result (list Edge) :=
  froms ← wrap_err (edge_error e) (rewriteEndpoint uses qualify false (e_From e));
  tos ← wrap_err (edge_error e) (rewriteEndpoint uses qualify true (e_To e));
  if IsDataEdge e && Nat.ltb 1 (length froms) && Nat.ltb 1 (length tos) then
    Err (Errorf "%s -> %s: cannot fan out on both sides of an edge" [FStr (PortRef_String (e_From e)); FStr (PortRef_String (e_To e))])
  else Ok (concat ((λ f, MkEdge f <$> tos) <$> froms)).

(** *** Exports against the internal graph *)

Definition panic : error := External "panic: nil pointer dereference".

Definition internal_schema (g : Graph) (mk : error) (node : string) : result Schema :=
  match g_Nodes g !! node with
  | None => Err mk
  | Some n => match n_Schema n with Some s => Ok s | None => Err panic end
  end.

Definition check_target (internal : Graph) (inName : string) (required : bool) (ref : PortRef) : result bool :=
  s ← internal_schema internal
        (Errorf "export input %q: internal node %q does not exist" [FStr inName; FStr (pr_Node ref)]) (pr_Node ref);
  match s_Variables s !! pr_Name ref with
  | None => Err (Errorf "export input %q: node %q has no input variable %q" [FStr inName; FStr (pr_Node ref); FStr (pr_Name ref)])
  | Some v => Ok (required || v_Required v)
  end.

Definition synth_input (internal : Graph) (vars : gmap string VariableDecl) (i : ExportInput) :
    result (gmap string VariableDecl) :=
  match ei_To i with
  | [] => Err (Errorf "export input %q has no targets" [FStr (ei_Name i)])
  | targets =>
    required ← foldM (check_target internal (ei_Name i)) false targets;
    Ok (<[ei_Name i := MkVariable (ei_Name i) "" "" false "" required None None false false]> vars)
  end.

Definition synth_output (internal : Graph) (outs : gmap string bool) (o : ExportOutput) : result (gmap string bool) :=
  s ← internal_schema internal
        (Errorf "export output %q: internal node %q does not exist" [FStr (eo_Name o); FStr (pr_Node (eo_From o))])
        (pr_Node (eo_From o));
  if HasOutput s (pr_Name (eo_From o)) then Ok (<[eo_Name o := true]> outs)
  else Err (Errorf "export output %q: node %q has no output %q" [FStr (eo_Name o); FStr (pr_Node (eo_From o)); FStr (pr_Name (eo_From o))]).

Definition synthesizeSchema (export : Export) (internal : Graph) : result Schema :=
  vars ← foldM (synth_input internal) ∅ (ex_Inputs export);
  outs ← foldM (synth_output internal) ∅ (ex_Outputs export);
  Ok (MkSchema false vars outs ∅ "" ∅ None false ∅).

(** *** Values of a use block *)

Definition set_vars (n : GNode) (vars : gmap string value) : GNode :=
  let b := n_Node n in
  MkGNode (MkNode (bn_Inputs b) (bn_Credentials b) (bn_Name b) (bn_Source b) (bn_BackendConfig b)
             (bn_BackendAddress b) vars (bn_Runtime b) (bn_Env b) (bn_Approve b))
    (n_Schema n) (n_ObservationError n) (n_Dir n) (n_Runtime n) (n_Env n) (n_Approve n).

Definition apply_target (instanceAs key : string) (val : value) (nodes : gmap string GNode) (ref : PortRef) :
    result (gmap string GNode) :=
  match nodes !! pr_Node ref with
  | None => Err (Errorf "use.%s.vars.%s: export input maps to unknown node %q" [FStr instanceAs; FStr key; FStr (pr_Node ref)])
  | Some node =>
    let vars := bn_Vars (n_Node node) in
    match vars !! pr_Name ref with
    | Some _ => Err (Errorf "node.%s.input.%s: set by more than one vars source; remove extras" [FStr (pr_Node ref); FStr (pr_Name ref)])
    | None => Ok (<[pr_Node ref := set_vars node (<[pr_Name ref := val]> vars)]> nodes)
    end
  end.

Definition apply_key (vars : gmap string value) (byName : gmap string (list PortRef)) (instanceAs : string)
    (nodes : gmap string GNode) (key : string) : result (gmap string GNode) :=
  match byName !! key, vars !! key with
  | Some targets, Some val => foldM (apply_target instanceAs key val) nodes targets
  | None, _ => Err (Errorf "use.%s.vars.%s is not an export input of this group" [FStr instanceAs; FStr key])
  | _, None => Ok nodes
  end.

Definition applyUseVars (vars : gmap string value) (export : Export) (nodes : gmap string GNode) (instanceAs : string) :
    result (gmap string GNode) :=
  let byName := foldl (λ m i, <[ei_Name i := ei_To i]> m) (∅ : gmap string (list PortRef)) (ex_Inputs export) in
  foldM (apply_key vars byName instanceAs) nodes (sorted_keys vars).

(** ** build *)

(** What a scope inherits from the [use] that instantiated it. *)
Record Ambient := MkAmbient {
  am_Runtime : option Runtime;
  am_Env : gmap string string;
  am_BackendConfig : gmap string string;
  am_Address : option (gmap string string);
  am_Approve : Approve;
}.
Definition no_ambient : Ambient := MkAmbient None ∅ ∅ None "".

(** [runtimeFor]: a miss gives the zero runtime, parsing having validated the names. *)
Definition scope_runtime (bp : Blueprint) (name : string) : Runtime :=
  default (MkRuntime "" "" "" false) (RuntimeByName bp name).

Definition resolve_runtime (bp : Blueprint) (ambient : option Runtime) (name : string) : option Runtime :=
  if decide (name = "") then ambient else Some (scope_runtime bp name).

Definition resolve_approve (ambient own : Approve) : Approve := if decide (own = "") then ambient else own.

Definition use_ambient (bp : Blueprint) (am : Ambient) (u : Use) : Ambient :=
  MkAmbient (resolve_runtime bp (am_Runtime am) (u_Runtime u)) (mergeEnv (am_Env am) (u_Env u))
    (mergeEnv (am_BackendConfig am) (u_BackendConfig u)) (mergeBackendAddress (am_Address am) (u_BackendAddress u))
    (resolve_approve (am_Approve am) (u_Approve u)).

Definition with_backend (n : Node) (name : string) (cfg : gmap string string) (addr : option (gmap string string)) : Node :=
  MkNode (bn_Inputs n) (bn_Credentials n) name (bn_Source n) cfg addr (bn_Vars n) (bn_Runtime n) (bn_Env n) (bn_Approve n).

Section Build.
Context `{MapOrder} (rc : resolveContext).

Let env : BuildEnv := rc_env rc.

(** An error an observation records on the node instead of returning. *)
Definition observe {A} (r : result A) (fallback : A) (wrap : error → error) (old : option error) :
    result (A * option error) :=
  match r with
  | Ok a => Ok (a, old)
  | Err e => if rc_observation rc then Ok (fallback, Some e) else Err (wrap e)
  end.

Definition node_dir (bp : Blueprint) (baseDir qname : string) (n : Node) : result (string * option error) :=
  if IsRemote (bn_Source n) then
    observe (remoteModuleDir env (rc_rootVendorDir rc) baseDir (VendorDirectory bp) qname (bn_Name n)) ""
      (λ err, Errorf "node %q: %w" [FStr qname; FErr err]) None
  else Ok (Join [baseDir; bn_Source n], None).

(** One node of the scope: its directory, runtime, schema and merged settings. *)
Definition build_node (bp : Blueprint) (baseDir namespace : string) (am : Ambient) (n : Node) : result GNode :=
  let qname := qualifyName namespace (bn_Name n) in
  '(dir, err1) ← node_dir bp baseDir qname n;
  let resolved := resolve_runtime bp (am_Runtime am) (bn_Runtime n) in
  let binary := match resolved with Some rt => rt_Binary rt | None => rc_fallbackBinary rc end in
  '(schema, err2) ← observe (Some <$> env_inspect env dir (env_fileMode env binary)) None
                      (λ err, Errorf "node %q: %w" [FStr (bn_Name n); FErr err]) err1;
  let address := mergeBackendAddress (am_Address am) (bn_BackendAddress n) in
  let qn := with_backend n qname (mergeEnv (am_BackendConfig am) (bn_BackendConfig n)) address in
  '(cfg, err3) ← observe (fillBackendAddress qn schema) (bn_BackendConfig qn) id err2;
  let cfg := fillLocalBackendPath cfg schema (rc_rootDir rc) qname in
  Ok (MkGNode (with_backend n qname cfg address) schema err3 dir resolved (mergeEnv (am_Env am) (bn_Env n))
        (resolve_approve (am_Approve am) (bn_Approve n))).

Definition add_node (bp : Blueprint) (baseDir namespace : string) (am : Ambient) (g : Graph) (n : Node) : result Graph :=
  gn ← build_node bp baseDir namespace am n; Ok (set_node g (bn_Name (n_Node gn)) gn).

Definition roots (g : Graph) : list string := filter (λ n, in_ g n = []) (names g).
Definition sinks (g : Graph) : list string := filter (λ n, out g n = []) (names g).

Definition first_error (ps : list Problem) : option Problem := List.find IsError ps.

Definition set_nodes (g : Graph) (nodes : gmap string GNode) : Graph :=
  MkGraph nodes (g_Edges g) (g_Out g) (g_In g) (g_Lock g) (g_Contracts g) (g_ContractMode g) (g_Snapshots g).

Definition no_use : useInfo := MkUseInfo (MkExport [] []) [] [].

(** What [resolveUse] does with the expanded group: contracts, validation,
    export, values, roots and sinks. *)
Definition finish_use (u : Use) (instancePrefix : string) (def : Group) (dirContracts : option Contracts)
    (internal : Graph) (innerUses : gmap string useInfo) : result (useInfo * Graph) :=
  internal ← mergeContracts (env_contractType env) internal (gr_Contracts def);
  internal ← mergeContracts (env_contractType env) internal dirContracts;
  ps ← (match env_validate env internal with Some ps => Ok ps | None => Err panic end);
  _ ← (match first_error ps with
       | Some p => Err (Errorf "group is invalid: %s" [FErr (Errorf (p_Message p).1 (p_Message p).2)])
       | None => Ok tt
       end);
  resolved ← resolveExport (gr_Export def) innerUses (qualifyName instancePrefix);
  _ ← synthesizeSchema resolved internal;
  nodes ← applyUseVars (u_Vars u) resolved (g_Nodes internal) (u_As u);
  let internal := set_nodes internal nodes in
  Ok (MkUseInfo resolved (roots internal) (sinks internal), internal).

Definition splice (g internal : Graph) : Graph :=
  foldl add_edge (set_nodes g (g_Nodes internal ∪ g_Nodes g)) (g_Edges internal).

Definition inner_blueprint (def : Group) (runtimes : list Runtime) (vendor : option VendorConfig) : Blueprint :=
  MkBlueprint None (gr_Nodes def) (gr_Edges def) [] (gr_Uses def) vendor None None runtimes "" None None.

Definition builder : Type := Blueprint → string → string → Ambient → list string → result (Graph * gmap string useInfo).

Definition resolveUse (rec : builder) (u : Use) (referencingDir instancePrefix : string) (am : Ambient)
    (stack : list string) : result (useInfo * Graph) :=
  let groupDir := Join [referencingDir; u_Source u] in
  stack ← push stack groupDir (u_GroupName u);
  '(def, runtimes, dirContracts, vendor) ← loadGroupDef env groupDir (u_GroupName u);
  '(internal, innerUses) ← rec (inner_blueprint def runtimes vendor) groupDir instancePrefix am stack;
  if rc_observation rc then Ok (no_use, internal)
  else finish_use u instancePrefix def dirContracts internal innerUses.

Definition use_error (u : Use) (err : error) : error :=
  Errorf "use %q as %q: %w" [FStr (u_GroupName u); FStr (u_As u); FErr err].

Definition add_use (rec : builder) (bp : Blueprint) (baseDir namespace : string) (am : Ambient) (stack : list string)
    (st : Graph * gmap string useInfo) (u : Use) : result (Graph * gmap string useInfo) :=
  let '(g, uses) := st in
  '(info, internal) ← wrap_err (use_error u)
     (resolveUse rec u baseDir (qualifyName namespace (u_As u)) (use_ambient bp am u) stack);
  let g := splice g internal in
  g ← wrap_err (use_error u) (mergeContracts (env_contractType env) g (g_Contracts internal));
  Ok (g, <[u_As u := info]> uses).

Definition add_bp_edge (uses : gmap string useInfo) (qualify : string → string) (g : Graph) (e : Edge) : result Graph :=
  rewritten ← rewriteEdge uses qualify e; Ok (foldl add_edge g rewritten).

Definition out_of_fuel : error := Sentinel "out of fuel".

Fixpoint build (fuel : nat) : builder := λ bp baseDir namespace am stack,
  match fuel with
  | O => Err out_of_fuel
  | S f =>
    g ← mergeContracts (env_contractType env) empty_graph (bp_Contracts bp);
    g ← foldM (add_node bp baseDir namespace am) g (bp_Nodes bp);
    '(g, uses) ← foldM (add_use (build f) bp baseDir namespace am stack) (g, ∅) (bp_Uses bp);
    if rc_observation rc then Ok (g, uses)
    else g ← foldM (add_bp_edge uses (qualifyName namespace)) g (bp_Edges bp); Ok (g, uses)
  end.
End Build.

(** [buildRoot]: the execution fallback is the default runtime, then the CLI binary. *)
Definition root_context (env : BuildEnv) (bp : Blueprint) (baseDir : string) (observation : bool) (cliBinary : string) :
    resolveContext :=
  let fallback := match DefaultRuntime bp with
    | Some rt => rt_Binary rt
    | None => if decide (cliBinary = "") then "terraform" else cliBinary
    end in
  MkResolveContext env observation baseDir fallback (Join [baseDir; VendorDirectory bp]).

Definition buildRoot `{MapOrder} (fuel : nat) (env : BuildEnv) (bp : Blueprint) (baseDir : string) (observation : bool)
    (cliBinary : string) : result Graph :=
  '(g, _) ← build (root_context env bp baseDir observation cliBinary) fuel bp baseDir "" no_ambient [];
  Ok (MkGraph (g_Nodes g) (g_Edges g) (g_Out g) (g_In g) (bp_Lock bp) (g_Contracts g) (g_ContractMode g)
        (default false (bp_Snapshots bp))).

(** ** SourceNodes (source.go) *)

Record SourceNode := MkSourceNode { src_Node : Node; src_LegacyDir : string }.

Definition sourcer : Type := Blueprint → string → string → gmap string string → list string → result (list SourceNode).

Definition source_leaf (env : BuildEnv) (bp : Blueprint) (baseDir namespace : string) (backend : gmap string string) (n : Node) :
    SourceNode :=
  MkSourceNode
    (with_backend n (qualifyName namespace (bn_Name n)) (mergeEnv backend (bn_BackendConfig n)) (bn_BackendAddress n))
    (if negb (bool_decide (namespace = "")) && IsRemote (bn_Source n)
     then legacyGroupSourceDir env baseDir (VendorDirectory bp) (bn_Name n) else "").

Definition source_use (rec : sourcer) (env : BuildEnv) (baseDir namespace : string) (backend : gmap string string)
    (stack : list string) (nodes : list SourceNode) (u : Use) : result (list SourceNode) :=
  let groupDir := Join [baseDir; u_Source u] in
  stack ← push stack groupDir (u_GroupName u);
  '(def, runtimes, _, vendor) ← loadGroupDef env groupDir (u_GroupName u);
  leaves ← wrap_err (use_error u)
    (rec (inner_blueprint def runtimes vendor) groupDir (qualifyName namespace (u_As u))
       (mergeEnv backend (u_BackendConfig u)) stack);
  Ok (nodes ++ leaves).

Fixpoint sourceNodes (env : BuildEnv) (fuel : nat) : sourcer := λ bp baseDir namespace backend stack,
  match fuel with
  | O => Err out_of_fuel
  | S f =>
    foldM (source_use (sourceNodes env f) env baseDir namespace backend stack)
      (source_leaf env bp baseDir namespace backend <$> bp_Nodes bp) (bp_Uses bp)
  end.
