(* ===== verification/ExpandProofs.v ===== *)
(** What graph building guarantees (for Expand.v): the adjacency maps mirror
    the edges, every edge joins two leaves of the graph through ports of the
    right kind, whatever the nesting of groups; the nodes are exactly the
    leaves of the flattened blueprint, with the settings their chain of [use]
    blocks gives them; and the recursion ends. *)
From S2P Require Import Prelude GoLib Cty Blueprint Module Graph Tarjan Topo Selection Backend Contracts Validate Expand.

(** ** What parsing guarantees of a scope (validateEdges, parseEdgeBlock, parseExportBlock of parse.go) *)

Definition plain_known (ns : list Node) (r : PortRef) : Prop :=
  pr_Entity r = EntityNode → ∃ n, n ∈ ns ∧ bn_Name n = pr_Node r.

Definition out_ref (r : PortRef) : Prop := pr_Kind r = PortOutput ∧ pr_Name r ≠ "".
(** The label of an edge's input block may be any string, so nothing is said of its name. *)
Definition in_ref (r : PortRef) : Prop := pr_Kind r = PortInput.
Definition bare_ref (r : PortRef) : Prop := pr_Kind r = KindBare ∧ pr_Name r = "".

Definition edge_kinds (e : Edge) : Prop :=
  (out_ref (e_From e) ∧ in_ref (e_To e)) ∨ (bare_ref (e_From e) ∧ bare_ref (e_To e)).

Definition scope_ok (ns : list Node) (es : list Edge) : Prop :=
  ∀ e, e ∈ es → plain_known ns (e_From e) ∧ plain_known ns (e_To e) ∧ edge_kinds e.

Definition export_ok (ex : Export) : Prop :=
  (∀ i r, i ∈ ex_Inputs ex → r ∈ ei_To i → in_ref r) ∧ (∀ o, o ∈ ex_Outputs ex → out_ref (eo_From o)).

Definition env_ok (env : BuildEnv) : Prop :=
  ∀ dir bp k g, env_parseDir env dir = Ok (bp, k) → g ∈ bp_Groups bp →
    scope_ok (gr_Nodes g) (gr_Edges g) ∧ export_ok (gr_Export g).

(** ** The invariant *)

(** A reference to a leaf of the graph. *)
Definition leaf_ref (g : Graph) (r : PortRef) : Prop :=
  pr_Entity r = EntityNode ∧ is_Some (g_Nodes g !! pr_Node r).

Definition leaf_edges (g : Graph) : Prop :=
  ∀ e, e ∈ g_Edges g → leaf_ref g (e_From e) ∧ leaf_ref g (e_To e) ∧ edge_kinds e.

Definition info_ok (g : Graph) (info : useInfo) : Prop :=
  (∀ i r, i ∈ ex_Inputs (ui_export info) → r ∈ ei_To i → leaf_ref g r ∧ in_ref r) ∧
  (∀ o, o ∈ ex_Outputs (ui_export info) → leaf_ref g (eo_From o) ∧ out_ref (eo_From o)) ∧
  (∀ n, n ∈ ui_roots info ∨ n ∈ ui_sinks info → is_Some (g_Nodes g !! n)).

Record built (ns : list Node) (namespace : string) (g : Graph) (uses : gmap string useInfo) : Prop := {
  bt_wf : adj_wf g;
  bt_leaf : leaf_edges g;
  bt_uses u info : uses !! u = Some info → info_ok g info;
  bt_own n : n ∈ ns → is_Some (g_Nodes g !! qualifyName namespace (bn_Name n));
}.

(** Growing the node map keeps references valid. *)
Definition grows (g g' : Graph) : Prop := ∀ n, is_Some (g_Nodes g !! n) → is_Some (g_Nodes g' !! n).

Lemma leaf_ref_grows g g' r : grows g g' → leaf_ref g r → leaf_ref g' r.
Proof. intros Hg [? ?]. split; [done|]. by apply Hg. Qed.

Lemma info_grows g g' info : grows g g' → info_ok g info → info_ok g' info.
Proof.
  intros Hg (H1 & H2 & H3). split_and!.
  - intros i r Hi Hr. destruct (H1 i r Hi Hr). split; [by eapply leaf_ref_grows|done].
  - intros o Ho. destruct (H2 o Ho). split; [by eapply leaf_ref_grows|done].
  - intros n Hn. by apply Hg, H3.
Qed.

Lemma mergeContracts_shape `{MapOrder} ct g src g' : mergeContracts ct g src = Ok g' → ∃ c, g' = set_contracts g c.
Proof. unfold mergeContracts. intros (c & _ & [= <-])%result_bind_Ok. by exists c. Qed.

Section Proofs.
Context `{MapOrder} (rc : resolveContext).
Notation env := (rc_env rc).

(** *** Nodes *)

Lemma build_node_name bp baseDir ns am n gn : build_node rc bp baseDir ns am n = Ok gn →
  bn_Name (n_Node gn) = qualifyName ns (bn_Name n).
Proof.
  unfold build_node. intros ([dir e1] & _ & Hk)%result_bind_Ok.
  apply result_bind_Ok in Hk as ([schema e2] & _ & Hk).
  apply result_bind_Ok in Hk as ([cfg e3] & _ & [= <-]). done.
Qed.

Lemma add_nodes_spec bp baseDir ns am l : ∀ g g',
  foldM (add_node rc bp baseDir ns am) g l = Ok g' →
  g_Edges g' = g_Edges g ∧ g_Out g' = g_Out g ∧ g_In g' = g_In g ∧ grows g g' ∧
  ∀ n, n ∈ l → is_Some (g_Nodes g' !! qualifyName ns (bn_Name n)).
Proof.
  induction l as [|n l IH]; intros g g' Hf.
  - injection Hf as <-. do 3 (split; [done|]). split; [by intros m|]. intros n Hn. by apply elem_of_nil in Hn.
  - rewrite foldM_cons in Hf. unfold add_node at 1 in Hf.
    destruct (build_node rc bp baseDir ns am n) as [gn|e] eqn:Hn; simpl in Hf; [|done].
    destruct (IH _ _ Hf) as (H1 & H2 & H3 & H4 & H5). split_and!; try done.
    + intros m Hm. apply H4. simpl. apply lookup_insert_is_Some'. by right.
    + intros m [->|Hm]%elem_of_cons; [|auto]. apply H4. simpl.
      rewrite <-(build_node_name _ _ _ _ _ _ Hn), lookup_insert_eq. by eexists.
Qed.

(** *** References of a scope *)

Lemma exported_port_ok g info ref rs : info_ok g info → exported_port info ref = Ok rs →
  ∀ r, r ∈ rs → leaf_ref g r ∧ (if decide (pr_Kind ref = PortOutput) then out_ref r else in_ref r).
Proof.
  intros (Hi & Ho & _). unfold exported_port. case_decide.
  - destruct (find_output _ _) as [o|] eqn:Hf; [|done]. intros [= <-] r ->%list_elem_of_singleton.
    apply find_some in Hf as [Hf _]. apply list_elem_of_In in Hf. by apply Ho.
  - destruct (find_input _ _) as [i|] eqn:Hf; [|done]. intros [= <-] r Hr.
    apply find_some in Hf as [Hf _]. apply list_elem_of_In in Hf. by eapply Hi.
Qed.

Definition own_known (g : Graph) (ns : list Node) (namespace : string) : Prop :=
  ∀ n, n ∈ ns → is_Some (g_Nodes g !! qualifyName namespace (bn_Name n)).

Lemma qualified_leaf g ns namespace r : own_known g ns namespace → plain_known ns r → pr_Entity r = EntityNode →
  leaf_ref g (qualify_ref (qualifyName namespace) r).
Proof.
  intros Hown Hk He. destruct (Hk He) as (n & Hn & Hname). split; [done|]. simpl. rewrite <-Hname. by apply Hown.
Qed.

Lemma rewriteEndpoint_ok g ns namespace uses wr r rs :
  own_known g ns namespace → (∀ u info, uses !! u = Some info → info_ok g info) → plain_known ns r →
  rewriteEndpoint uses (qualifyName namespace) wr r = Ok rs → ∀ x, x ∈ rs →
  leaf_ref g x ∧ (out_ref r → out_ref x) ∧ (in_ref r → in_ref x) ∧ (bare_ref r → bare_ref x).
Proof.
  intros Hown Huses Hk. unfold rewriteEndpoint. case_decide as He.
  - intros [= <-] x ->%list_elem_of_singleton. split; [|done].
    eapply qualified_leaf; [done..|]. by destruct (pr_Entity r).
  - destruct (uses !! pr_Node r) as [info|] eqn:Hu; [|done]. specialize (Huses _ _ Hu).
    unfold out_ref, in_ref, bare_ref, IsPort. destruct (decide (pr_Kind r = KindBare)) as [Hb|Hb].
    + rewrite bool_decide_eq_true_2 by done. simpl. intros [= <-] x (n & -> & Hn)%list_elem_of_fmap.
      split_and!; [|by rewrite Hb; intros []..|done]. split; [done|]. simpl. apply Huses. destruct wr; auto.
    + rewrite bool_decide_eq_false_2 by done. simpl. intros Hp x Hx.
      destruct (exported_port_ok g info r rs Huses Hp x Hx) as [Hl Hkind]. split; [done|].
      destruct (decide (pr_Kind r = PortOutput)) as [Ho|Ho]; unfold out_ref, in_ref in *; split_and!;
        intros Hx'; first [congruence|by destruct Hx' as [Hx1 Hx2]; congruence|done].
Qed.

Lemma rewriteEdge_ok g ns namespace uses e es :
  own_known g ns namespace → (∀ u info, uses !! u = Some info → info_ok g info) →
  plain_known ns (e_From e) → plain_known ns (e_To e) → edge_kinds e →
  rewriteEdge uses (qualifyName namespace) e = Ok es →
  ∀ x, x ∈ es → leaf_ref g (e_From x) ∧ leaf_ref g (e_To x) ∧ edge_kinds x.
Proof.
  intros Hown Huses Hf Ht Hkind. unfold rewriteEdge.
  intros (froms & Hfr%wrap_err_Ok & Hk)%result_bind_Ok. apply result_bind_Ok in Hk as (tos & Hto%wrap_err_Ok & Hk).
  case_match; [done|]. injection Hk as <-. intros x (l & Hl & Hx)%elem_of_concat.
  apply list_elem_of_fmap in Hl as (f & -> & Hfin). apply list_elem_of_fmap in Hx as (t & -> & Htin).
  destruct (rewriteEndpoint_ok _ _ _ _ _ _ _ Hown Huses Hf Hfr f Hfin) as (? & Ho & Hi & Hb).
  destruct (rewriteEndpoint_ok _ _ _ _ _ _ _ Hown Huses Ht Hto t Htin) as (? & Ho' & Hi' & Hb').
  split_and!; [done..|]. destruct Hkind as [[? ?]|[? ?]]; [left|right]; simpl; auto.
Qed.

Lemma add_edges_built g es : adj_wf g → leaf_edges g →
  (∀ x, x ∈ es → leaf_ref g (e_From x) ∧ leaf_ref g (e_To x) ∧ edge_kinds x) →
  adj_wf (foldl add_edge g es) ∧ leaf_edges (foldl add_edge g es).
Proof.
  intros Hwf Hl Hes. split; [by apply add_edges_wf|]. intros e. rewrite add_edges_Edges, elem_of_app.
  unfold leaf_ref. rewrite add_edges_Nodes. intros [He|He]; [by apply Hl|by apply Hes].
Qed.

Lemma add_bp_edges_spec ns namespace uses es : ∀ g g',
  scope_ok ns es → built ns namespace g uses →
  foldM (add_bp_edge uses (qualifyName namespace)) g es = Ok g' → built ns namespace g' uses.
Proof.
  induction es as [|e es IH]; intros g g' Hok Hb Hf; [by injection Hf as <-|].
  rewrite foldM_cons in Hf. unfold add_bp_edge at 1 in Hf.
  destruct (rewriteEdge uses (qualifyName namespace) e) as [rw|] eqn:Hrw; simpl in Hf; [|done].
  apply (IH _ _ (λ x Hx, Hok x (list_elem_of_further _ _ _ Hx))) in Hf; [done|].
  destruct Hb as [Hwf Hl Hu Hown]. destruct (Hok e) as (Hfr & Hto & Hk); [by left|].
  destruct (add_edges_built g rw Hwf Hl) as [? ?].
  { by eapply rewriteEdge_ok. }
  split; [done..| |]; unfold info_ok, leaf_ref; rewrite add_edges_Nodes; [apply Hu|apply Hown].
Qed.

(** *** Exports *)

Lemma resolveExportEndpoint_ok uses qualify r rs : (∀ u info, uses !! u = Some info → ∃ g, info_ok g info) →
  resolveExportEndpoint uses qualify r = Ok rs → ∀ x, x ∈ rs →
  pr_Entity x = EntityNode ∧ (out_ref r → out_ref x) ∧ (in_ref r → in_ref x).
Proof.
  intros Huses. unfold resolveExportEndpoint. case_decide as He.
  - intros [= <-] x ->%list_elem_of_singleton. split; [|done]. simpl. by destruct (pr_Entity r).
  - destruct (uses !! pr_Node r) as [info|] eqn:Hu; [|done]. destruct (Huses _ _ Hu) as [g Hg].
    intros Hp x Hx. destruct (exported_port_ok g info r rs Hg Hp x Hx) as [[Hl _] Hkind]. split; [done|].
    destruct (decide (pr_Kind r = PortOutput)) as [Ho|Ho]; unfold out_ref, in_ref in *; split;
      intros Hx'; first [congruence|by destruct Hx' as [Hx1 Hx2]; congruence|done].
Qed.

Lemma resolveExport_ok ex uses qualify ex' : export_ok ex → (∀ u info, uses !! u = Some info → ∃ g, info_ok g info) →
  resolveExport ex uses qualify = Ok ex' →
  (∀ i r, i ∈ ex_Inputs ex' → r ∈ ei_To i → pr_Entity r = EntityNode ∧ in_ref r) ∧
  (∀ o, o ∈ ex_Outputs ex' → pr_Entity (eo_From o) = EntityNode ∧ out_ref (eo_From o)).
Proof.
  intros [Hin Hout] Huses. unfold resolveExport.
  intros (ins & Hins & Hk)%result_bind_Ok. apply result_bind_Ok in Hk as (outs & Houts & [= <-]). simpl.
  apply mapM_res_Ok in Hins. apply mapM_res_Ok in Houts. split.
  - intros i r Hi Hr. apply list_elem_of_lookup in Hi as [k Hi].
    destruct (Forall2_lookup_r _ _ _ _ _ Hins Hi) as (i0 & Hi0 & Hres). unfold resolve_input in Hres.
    apply result_bind_Ok in Hres as (ts & Hts%wrap_err_Ok%mapM_res_Ok & [= <-]). simpl in Hr.
    apply elem_of_concat in Hr as (l & Hl & Hr). apply list_elem_of_lookup in Hl as [j Hl].
    destruct (Forall2_lookup_r _ _ _ _ _ Hts Hl) as (r0 & Hr0 & Hrr).
    destruct (resolveExportEndpoint_ok _ _ _ _ Huses Hrr r Hr) as (? & _ & Hi').
    split; [done|]. apply Hi', (Hin i0); by eapply list_elem_of_lookup_2.
  - intros o Ho. apply list_elem_of_lookup in Ho as [k Ho].
    destruct (Forall2_lookup_r _ _ _ _ _ Houts Ho) as (o0 & Ho0 & Hres). unfold resolve_output in Hres.
    apply result_bind_Ok in Hres as (rs & Hrs%wrap_err_Ok & Hres).
    destruct rs as [|r [|]]; try done. injection Hres as <-. simpl.
    destruct (resolveExportEndpoint_ok _ _ _ _ Huses Hrs r) as (? & Ho' & _); [by left|].
    split; [done|]. apply Ho', (Hout o0). by eapply list_elem_of_lookup_2.
Qed.

Lemma internal_schema_Ok g mk n s : internal_schema g mk n = Ok s → is_Some (g_Nodes g !! n).
Proof. unfold internal_schema. by destruct (g_Nodes g !! n). Qed.

Lemma synth_input_nodes internal i : ∀ vars vars', synth_input internal vars i = Ok vars' →
  ∀ r, r ∈ ei_To i → is_Some (g_Nodes internal !! pr_Node r).
Proof.
  intros vars vars' Hs. unfold synth_input in Hs. destruct (ei_To i) as [|r0 l] eqn:Hto; [done|].
  apply result_bind_Ok in Hs as (b & Hf & _). revert Hf. generalize (r0 :: l) as ts. generalize false as b0.
  clear. intros b0 ts. revert b0. induction ts as [|t ts IH]; intros b0 Hf r Hr; [by apply elem_of_nil in Hr|].
  rewrite foldM_cons in Hf. destruct (check_target internal (ei_Name i) b0 t) as [b1|] eqn:Hc; [|done].
  apply elem_of_cons in Hr as [->|Hr]; [|by eapply IH]. unfold check_target in Hc.
  apply result_bind_Ok in Hc as (s & Hs & _). by eapply internal_schema_Ok.
Qed.

Lemma synthesizeSchema_nodes ex internal s : synthesizeSchema ex internal = Ok s →
  (∀ i r, i ∈ ex_Inputs ex → r ∈ ei_To i → is_Some (g_Nodes internal !! pr_Node r)) ∧
  (∀ o, o ∈ ex_Outputs ex → is_Some (g_Nodes internal !! pr_Node (eo_From o))).
Proof.
  unfold synthesizeSchema. intros (vars & Hv & Hk)%result_bind_Ok. apply result_bind_Ok in Hk as (outs & Ho & _).
  split.
  - intros i. revert Hv. generalize (∅ : gmap string VariableDecl). induction (ex_Inputs ex) as [|j l IH]; intros m Hf r Hi Hr;
      [by apply elem_of_nil in Hi|]. rewrite foldM_cons in Hf.
    destruct (synth_input internal m j) as [m'|] eqn:Hs; [|done].
    apply elem_of_cons in Hi as [->|Hi]; [by eapply synth_input_nodes|by eapply IH].
  - revert Ho. generalize (∅ : gmap string bool). induction (ex_Outputs ex) as [|j l IH]; intros m Hf o Hi;
      [by apply elem_of_nil in Hi|]. rewrite foldM_cons in Hf.
    destruct (synth_output internal m j) as [m'|] eqn:Hs; [|done].
    apply elem_of_cons in Hi as [->|Hi]; [|by eapply IH]. unfold synth_output in Hs.
    apply result_bind_Ok in Hs as (s' & Hs' & _). by eapply internal_schema_Ok.
Qed.

(** *** Values: only the variables of existing nodes change *)

Definition same_but_vars (n n' : GNode) : Prop := ∃ vars, n' = set_vars n vars.

Definition vars_only (m m' : gmap string GNode) : Prop := map_relation (λ _, same_but_vars) (λ _ _, False) (λ _ _, False) m m'.

Lemma set_vars_id n : set_vars n (bn_Vars (n_Node n)) = n.
Proof. by destruct n as [[]]. Qed.

Lemma vars_only_refl m : vars_only m m.
Proof. intros k. destruct (m !! k) as [n|] eqn:?; simpl; [|done]. exists (bn_Vars (n_Node n)). by rewrite set_vars_id. Qed.

Lemma vars_only_trans m1 m2 m3 : vars_only m1 m2 → vars_only m2 m3 → vars_only m1 m3.
Proof.
  intros H1 H2 k. specialize (H1 k). specialize (H2 k).
  destruct (m1 !! k), (m2 !! k), (m3 !! k); simpl in *; try done.
  destruct H1 as [v1 ->], H2 as [v2 ->]. by exists v2.
Qed.

Lemma vars_only_dom m m' k : vars_only m m' → is_Some (m !! k) ↔ is_Some (m' !! k).
Proof.
  intros Hv. specialize (Hv k).
  destruct (m !! k), (m' !! k); simpl in *; try done; split; intros [? ?]; eauto; done.
Qed.

Lemma vars_only_insert m k n vars : m !! k = Some n → vars_only m (<[k := set_vars n vars]> m).
Proof.
  intros Hk j. destruct (decide (j = k)) as [->|Hne].
  - rewrite Hk, lookup_insert_eq. by exists vars.
  - rewrite lookup_insert_ne by done. apply vars_only_refl.
Qed.

Lemma foldM_vars_only {A} (f : gmap string GNode → A → result (gmap string GNode)) l :
  (∀ m a m', f m a = Ok m' → vars_only m m') → ∀ m m', foldM f m l = Ok m' → vars_only m m'.
Proof.
  intros Hf. induction l as [|a l IH]; intros m m' H0; [injection H0 as <-; apply vars_only_refl|].
  rewrite foldM_cons in H0. destruct (f m a) as [m1|] eqn:H1; [|done].
  eapply vars_only_trans; [by eapply Hf|by apply IH].
Qed.

Lemma applyUseVars_only vars ex nodes as_ nodes' : applyUseVars vars ex nodes as_ = Ok nodes' → vars_only nodes nodes'.
Proof.
  unfold applyUseVars. apply foldM_vars_only. intros m key m'. unfold apply_key.
  destruct (_ !! key) as [ts|]; [|done]. destruct (vars !! key) as [val|]; [|intros [= <-]; apply vars_only_refl].
  apply foldM_vars_only. clear. intros m r m'. unfold apply_target.
  destruct (m !! pr_Node r) as [n|] eqn:Hn; [|done]. case_match; [done|]. intros [= <-].
  by apply vars_only_insert.
Qed.
End Proofs.

(** *** The expansion of one [use] *)

Section Build.
Context `{MapOrder} (rc : resolveContext) (Henv : env_ok (rc_env rc)).

Lemma finish_use_ok u prefix def dc internal iu ns namespace info g' :
  export_ok (gr_Export def) → built ns namespace internal iu →
  finish_use rc u prefix def dc internal iu = Ok (info, g') →
  adj_wf g' ∧ leaf_edges g' ∧ info_ok g' info ∧ vars_only (g_Nodes internal) (g_Nodes g').
Proof.
  intros Hex [Hwf Hl Hu _]. unfold finish_use.
  intros (i1 & (c1 & ->)%mergeContracts_shape & Hk)%result_bind_Ok.
  apply result_bind_Ok in Hk as (i2 & (c2 & ->)%mergeContracts_shape & Hk).
  apply result_bind_Ok in Hk as (ps & _ & Hk). apply result_bind_Ok in Hk as (? & _ & Hk).
  apply result_bind_Ok in Hk as (ex & Hr & Hk). apply result_bind_Ok in Hk as (s & Hs & Hk).
  apply result_bind_Ok in Hk as (nodes & Hv%applyUseVars_only & [= <- <-]). simpl in Hv.
  destruct (resolveExport_ok _ _ _ _ Hex (λ u info Hi, ex_intro (λ g, info_ok g info) _ (Hu u info Hi)) Hr) as [Hin Hout].
  destruct (synthesizeSchema_nodes _ _ _ Hs) as [Hsi Hso]. simpl in Hsi, Hso.
  assert (∀ n, is_Some (g_Nodes internal !! n) → is_Some (nodes !! n)) as Hdom by (intros n; by rewrite vars_only_dom).
  split_and!; [exact Hwf| |split_and!|exact Hv].
  - intros e He. destruct (Hl e He) as ([? ?] & [? ?] & ?). split_and!; [split; [done|]; by apply Hdom..|done].
  - intros i r Hi Hr0. destruct (Hin i r Hi Hr0) as [? ?]. split; [|done]. split; [done|]. by eapply Hdom, Hsi.
  - intros o Ho. destruct (Hout o Ho) as [? ?]. split; [|done]. split; [done|]. by eapply Hdom, Hso.
  - intros n [Hn|Hn]; unfold ui_roots, ui_sinks, roots, sinks in Hn;
      apply list_elem_of_filter in Hn as [_ Hn]; by apply names_elem in Hn.
Qed.

(** What the recursive call is assumed to give, one level down. *)
Definition builds (rec : builder) : Prop := ∀ bp baseDir namespace am stack g uses,
  scope_ok (bp_Nodes bp) (bp_Edges bp) → rec bp baseDir namespace am stack = Ok (g, uses) →
  built (bp_Nodes bp) namespace g uses.

Lemma loadGroupDef_ok dir name def rts dc v : loadGroupDef (rc_env rc) dir name = Ok (def, rts, dc, v) →
  scope_ok (gr_Nodes def) (gr_Edges def) ∧ export_ok (gr_Export def).
Proof.
  unfold loadGroupDef. intros (bp & Hp%wrap_err_Ok & Hk)%result_bind_Ok.
  unfold parseGroupDir in Hp. apply result_bind_Ok in Hp as ([bp' k] & Hp & Hq).
  destruct (Nat.ltb 0 k); [done|]. injection Hq as ->.
  destruct (List.find _ _) as [g|] eqn:Hf; [|done]. injection Hk as <- <- <- <-.
  apply find_some in Hf as [Hg _]. apply list_elem_of_In in Hg. by eapply Henv.
Qed.

Lemma resolveUse_ok rec u dir prefix am stack info g : builds rec →
  resolveUse rc rec u dir prefix am stack = Ok (info, g) → adj_wf g ∧ leaf_edges g ∧ info_ok g info.
Proof.
  intros Hrec. unfold resolveUse. intros (stack' & _ & Hk)%result_bind_Ok.
  apply result_bind_Ok in Hk as ([[[def rts] dc] v] & Hl & Hk).
  destruct (loadGroupDef_ok _ _ _ _ _ _ Hl) as [Hscope Hex].
  apply result_bind_Ok in Hk as ([internal iu] & Hi & Hk).
  apply (Hrec (inner_blueprint def rts v)) in Hi; [|exact Hscope].
  destruct (rc_observation rc).
  - injection Hk as <- <-. destruct Hi as [Hwf Hlf _ _]. do 2 (split; [done|]).
    split_and!; [intros i r Hi; by apply elem_of_nil in Hi|intros o Ho; by apply elem_of_nil in Ho|].
    intros n [Hn|Hn]; by apply elem_of_nil in Hn.
  - destruct (finish_use_ok _ _ _ _ _ _ _ _ _ _ Hex Hi Hk) as (? & ? & ? & _). done.
Qed.

Lemma splice_ok g internal ns namespace uses k info : built ns namespace g uses →
  adj_wf internal → leaf_edges internal → info_ok internal info →
  built ns namespace (splice g internal) (<[k := info]> uses).
Proof.
  intros [Hwf Hl Hu Hown] _ Hli Hii. unfold splice.
  set (g1 := set_nodes g (g_Nodes internal ∪ g_Nodes g)).
  assert (grows g g1) as Hg1 by (intros n Hn; simpl; apply lookup_union_is_Some; by right).
  assert (grows internal g1) as Hi1 by (intros n Hn; simpl; apply lookup_union_is_Some; by left).
  destruct (add_edges_built g1 (g_Edges internal)) as [Hwf' Hl'].
  - exact Hwf.
  - intros e He. destruct (Hl e He) as (? & ? & ?). split; [by apply (leaf_ref_grows g g1)|split; [by apply (leaf_ref_grows g g1)|done]].
  - intros e He. destruct (Hli e He) as (? & ? & ?). split; [by apply (leaf_ref_grows internal g1)|split; [by apply (leaf_ref_grows internal g1)|done]].
  - assert (grows g1 (foldl add_edge g1 (g_Edges internal))) as Hg2 by (intros n; by rewrite add_edges_Nodes).
    split; [done..| |].
    + intros u i. destruct (decide (u = k)) as [->|Hne].
      * rewrite lookup_insert_eq. intros [= <-]. by apply (info_grows g1), (info_grows internal).
      * rewrite lookup_insert_ne by done. intros Hi. apply (info_grows g1), (info_grows g); [done..|by eapply Hu].
    + intros n Hn. by apply Hg2, Hg1, Hown.
Qed.

Lemma add_uses_ok rec bp baseDir namespace am stack ns l : builds rec → ∀ st g uses,
  built ns namespace st.1 st.2 → foldM (add_use rc rec bp baseDir namespace am stack) st l = Ok (g, uses) →
  built ns namespace g uses.
Proof.
  intros Hrec. induction l as [|u l IH]; intros [g0 uses0] g uses Hb Hf; [by injection Hf as <- <-|].
  rewrite foldM_cons in Hf.
  destruct (add_use _ _ _ _ _ _ _ _ _) as [st1|] eqn:Ha; [|done]. apply (IH st1); [|done].
  unfold add_use in Ha. apply result_bind_Ok in Ha as ([info internal] & Hr%wrap_err_Ok & Ha).
  apply result_bind_Ok in Ha as (g1 & (c & ->)%wrap_err_Ok%mergeContracts_shape & [= <-]). simpl.
  destruct (resolveUse_ok _ _ _ _ _ _ _ _ Hrec Hr) as (? & ? & ?).
  by destruct (splice_ok _ internal _ _ _ (u_As u) info Hb).
Qed.

Lemma build_built fuel : builds (build rc fuel).
Proof.
  induction fuel as [|f IH]; [done|]. intros bp baseDir namespace am stack g uses Hok Hb.
  simpl in Hb. apply result_bind_Ok in Hb as (g0 & (c & ->)%mergeContracts_shape & Hb).
  apply result_bind_Ok in Hb as (g1 & Hn & Hb).
  destruct (add_nodes_spec _ _ _ _ _ _ _ _ Hn) as (HE & HO & HI & _ & Hown).
  apply result_bind_Ok in Hb as ([g2 uses2] & Hu & Hb).
  assert (built (bp_Nodes bp) namespace g2 uses2) as Hb2.
  { eapply (add_uses_ok _ _ _ _ _ _ _ _ IH); [|exact Hu]. split; simpl.
    - intros n. unfold out, in_. rewrite HE, HO, HI. done.
    - intros e He. rewrite HE in He. by apply elem_of_nil in He.
    - done.
    - done. }
  destruct (rc_observation rc); [by injection Hb as <- <-|].
  apply result_bind_Ok in Hb as (g3 & He & [= <- <-]). by eapply add_bp_edges_spec.
Qed.
End Build.

(** *** Schemas, and the leaves [SourceNodes] lists *)

(** [build] and [sourceNodes] walk the same tree, so both facts follow one
    walk: a predicate on the nodes added at each scope, closed under splicing. *)
Section Walk.
Context `{MapOrder} (rc : resolveContext).

Definition schemas (g : Graph) : Prop := ∀ n gn, g_Nodes g !! n = Some gn → is_Some (n_Schema gn).

Lemma vars_only_schemas g nodes : vars_only (g_Nodes g) nodes → schemas g → schemas (set_nodes g nodes).
Proof.
  intros Hv Hs n gn. simpl. intros Hn. specialize (Hv n). rewrite Hn in Hv.
  destruct (g_Nodes g !! n) as [gn0|] eqn:Hn0; simpl in Hv; [|done]. destruct Hv as [vars ->]. exact (Hs n gn0 Hn0).
Qed.

Lemma finish_use_nodes u prefix def dc internal iu info g' :
  finish_use rc u prefix def dc internal iu = Ok (info, g') → vars_only (g_Nodes internal) (g_Nodes g').
Proof.
  unfold finish_use. intros (i1 & (c1 & ->)%mergeContracts_shape & Hk)%result_bind_Ok.
  apply result_bind_Ok in Hk as (i2 & (c2 & ->)%mergeContracts_shape & Hk).
  apply result_bind_Ok in Hk as (ps & _ & Hk). apply result_bind_Ok in Hk as (? & _ & Hk).
  apply result_bind_Ok in Hk as (ex & _ & Hk). apply result_bind_Ok in Hk as (s & _ & Hk).
  by apply result_bind_Ok in Hk as (nodes & Hv%applyUseVars_only & [= <- <-]).
Qed.

(** What [resolveUse] returns: the graph of the recursive call, its values set. *)
Lemma resolveUse_inv rec u dir prefix am stack info g : resolveUse rc rec u dir prefix am stack = Ok (info, g) →
  ∃ stack' def rts dc v g0 iu, push stack (Join [dir; u_Source u]) (u_GroupName u) = Ok stack' ∧
    loadGroupDef (rc_env rc) (Join [dir; u_Source u]) (u_GroupName u) = Ok (def, rts, dc, v) ∧
    rec (inner_blueprint def rts v) (Join [dir; u_Source u]) prefix am stack' = Ok (g0, iu) ∧
    vars_only (g_Nodes g0) (g_Nodes g).
Proof.
  unfold resolveUse. intros (stack' & Hp & Hk)%result_bind_Ok.
  apply result_bind_Ok in Hk as ([[[def rts] dc] v] & Hl & Hk).
  apply result_bind_Ok in Hk as ([g0 iu] & Hi & Hk). exists stack', def, rts, dc, v, g0, iu.
  do 3 (split; [done|]). destruct (rc_observation rc).
  - injection Hk as _ <-. apply vars_only_refl.
  - by eapply finish_use_nodes.
Qed.

Lemma add_use_inv rec bp baseDir namespace am stack g uses u st :
  add_use rc rec bp baseDir namespace am stack (g, uses) u = Ok st →
  ∃ info internal, resolveUse rc rec u baseDir (qualifyName namespace (u_As u)) (use_ambient bp am u) stack = Ok (info, internal) ∧
    g_Nodes st.1 = g_Nodes internal ∪ g_Nodes g.
Proof.
  unfold add_use. intros ([info internal] & Hr%wrap_err_Ok & Ha)%result_bind_Ok.
  apply result_bind_Ok in Ha as (g1 & (c & ->)%wrap_err_Ok%mergeContracts_shape & [= <-]).
  exists info, internal. split; [done|]. unfold splice. simpl. by rewrite add_edges_Nodes.
Qed.

Lemma add_bp_edges_Nodes uses q es : ∀ g g', foldM (add_bp_edge uses q) g es = Ok g' → g_Nodes g' = g_Nodes g.
Proof.
  induction es as [|e es IH]; intros g g' Hf; [by injection Hf as <-|]. rewrite foldM_cons in Hf.
  unfold add_bp_edge at 1 in Hf. destruct (rewriteEdge uses q e) as [rw|]; simpl in Hf; [|done].
  rewrite (IH _ _ Hf). apply add_edges_Nodes.
Qed.

(** The shape of a successful [build]. *)
Lemma build_inv f bp baseDir namespace am stack g uses :
  build rc (S f) bp baseDir namespace am stack = Ok (g, uses) →
  ∃ g0 g1 g2, g_Nodes g0 = ∅ ∧ foldM (add_node rc bp baseDir namespace am) g0 (bp_Nodes bp) = Ok g1 ∧
    foldM (add_use rc (build rc f) bp baseDir namespace am stack) (g1, ∅) (bp_Uses bp) = Ok (g2, uses) ∧
    g_Nodes g = g_Nodes g2.
Proof.
  simpl. intros (g0 & (c & ->)%mergeContracts_shape & Hb)%result_bind_Ok.
  apply result_bind_Ok in Hb as (g1 & Hn & Hb). apply result_bind_Ok in Hb as ([g2 uses2] & Hu & Hb).
  exists (set_contracts empty_graph c), g1, g2. split; [done|]. split; [done|].
  destruct (rc_observation rc); [by injection Hb as <- <-|].
  apply result_bind_Ok in Hb as (g3 & He & [= <- <-]). split; [done|]. by eapply add_bp_edges_Nodes.
Qed.

Lemma build_node_schema bp baseDir ns am n gn : rc_observation rc = false →
  build_node rc bp baseDir ns am n = Ok gn → is_Some (n_Schema gn).
Proof.
  intros Hobs. unfold build_node. intros ([dir e1] & _ & Hk)%result_bind_Ok.
  apply result_bind_Ok in Hk as ([schema e2] & Hs & Hk).
  apply result_bind_Ok in Hk as ([cfg e3] & _ & [= <-]). simpl. unfold observe in Hs. rewrite Hobs in Hs.
  destruct (env_inspect _ _ _); simpl in Hs; [|done]. injection Hs as <- _. by eexists.
Qed.

Lemma build_schemas fuel : rc_observation rc = false → ∀ bp baseDir namespace am stack g uses,
  build rc fuel bp baseDir namespace am stack = Ok (g, uses) → schemas g.
Proof.
  intros Hobs. induction fuel as [|f IH]; [done|]. intros bp baseDir namespace am stack g uses Hb.
  apply build_inv in Hb as (g0 & g1 & g2 & H0 & Hn & Hu & Hg).
  assert (schemas g1) as H1.
  { assert (schemas g0) as Hs0 by (intros k gn; by rewrite H0, lookup_empty). clear H0 Hu. revert g0 Hn Hs0.
    induction (bp_Nodes bp) as [|n l IHl]; intros g0 Hf Hs0; [by injection Hf as <-|].
    rewrite foldM_cons in Hf. unfold add_node at 1 in Hf.
    destruct (build_node rc bp baseDir namespace am n) as [gn|] eqn:Hgn; simpl in Hf; [|done].
    apply (IHl _ Hf). intros k gn'. simpl. intros [[_ <-]|[_ Hk]]%lookup_insert_Some; [|by eapply Hs0].
    by eapply build_node_schema. }
  assert (∀ st st', foldM (add_use rc (build rc f) bp baseDir namespace am stack) st (bp_Uses bp) = Ok st' →
    schemas st.1 → schemas st'.1) as H2.
  { clear Hu. induction (bp_Uses bp) as [|u l IHl]; intros [ga ua] st' Hf Hs; [by injection Hf as <-|].
    rewrite foldM_cons in Hf. destruct (add_use _ _ _ _ _ _ _ _ _) as [st1|] eqn:Ha; [|done].
    apply (IHl _ _ Hf). apply add_use_inv in Ha as (info & internal & Hr & Hnodes).
    apply resolveUse_inv in Hr as (? & ? & ? & ? & ? & gi & iu & _ & _ & Hrec & Hv).
    intros k gn. rewrite Hnodes. intros [Hk|[_ Hk]]%lookup_union_Some_raw; [|by eapply Hs].
    specialize (vars_only_schemas _ _ Hv (IH _ _ _ _ _ _ _ Hrec) k). simpl. auto. }
  specialize (H2 _ _ Hu H1). intros k gn. rewrite Hg. apply H2.
Qed.

(** The names of the leaves agree. *)
Definition src_name (s : SourceNode) : string := bn_Name (src_Node s).

Definition same_names (g : Graph) (l : list SourceNode) : Prop := ∀ k, is_Some (g_Nodes g !! k) ↔ k ∈ src_name <$> l.

Lemma build_sources fuel : ∀ bp baseDir namespace am backend stack g uses,
  build rc fuel bp baseDir namespace am stack = Ok (g, uses) →
  ∃ l, sourceNodes (rc_env rc) fuel bp baseDir namespace backend stack = Ok l ∧ same_names g l.
Proof.
  induction fuel as [|f IH]; [done|]. intros bp baseDir namespace am backend stack g uses Hb.
  apply build_inv in Hb as (g0 & g1 & g2 & H0 & Hn & Hu & Hg).
  assert (same_names g1 (source_leaf (rc_env rc) bp baseDir namespace backend <$> bp_Nodes bp)) as H1.
  { clear Hu. enough (∀ k, is_Some (g_Nodes g1 !! k) ↔ is_Some (g_Nodes g0 !! k) ∨
      k ∈ src_name <$> (source_leaf (rc_env rc) bp baseDir namespace backend <$> bp_Nodes bp)) as Hk.
    { intros k. rewrite Hk, H0, lookup_empty. split; [intros [[? ?]|?]; done|auto]. }
    clear H0. revert g0 Hn. induction (bp_Nodes bp) as [|n l IHl]; intros g0 Hf k.
    { injection Hf as <-. split; [auto|]. intros [?|Hk]; [done|]. by apply elem_of_nil in Hk. }
    rewrite foldM_cons in Hf. unfold add_node at 1 in Hf.
    destruct (build_node rc bp baseDir namespace am n) as [gn|] eqn:Hgn; simpl in Hf; [|done].
    rewrite (IHl _ Hf k), !fmap_cons, elem_of_cons. unfold set_node; cbn [g_Nodes]. rewrite lookup_insert_is_Some', (build_node_name _ _ _ _ _ _ _ Hgn).
    unfold src_name at 2. simpl. naive_solver. }
  enough (∀ st st' l, foldM (add_use rc (build rc f) bp baseDir namespace am stack) st (bp_Uses bp) = Ok st' →
    same_names st.1 l → ∃ l', foldM (source_use (sourceNodes (rc_env rc) f) (rc_env rc) baseDir namespace backend stack)
      l (bp_Uses bp) = Ok l' ∧ same_names st'.1 l') as H2.
  { destruct (H2 _ _ _ Hu H1) as (l' & Hl & Hs). exists l'. split; [exact Hl|]. intros k. rewrite Hg. apply Hs. }
  clear Hu. induction (bp_Uses bp) as [|u us IHu]; intros [ga ua] st' l Hf Hs.
  { injection Hf as <-. by exists l. }
  rewrite foldM_cons in Hf. destruct (add_use _ _ _ _ _ _ _ _ _) as [st1|] eqn:Ha; [|done].
  apply add_use_inv in Ha as (info & internal & Hr & Hnodes).
  apply resolveUse_inv in Hr as (stack' & def & rts & dc & v & gi & iu & Hp & Hl & Hrec & Hv).
  destruct (IH _ _ _ _ (mergeEnv backend (u_BackendConfig u)) _ _ _ Hrec) as (li & Hli & Hsi).
  destruct (IHu st1 st' (l ++ li) Hf) as (l' & Hl' & Hs').
  { intros k. rewrite Hnodes, lookup_union_is_Some, fmap_app, elem_of_app, <-(vars_only_dom _ _ k Hv), (Hsi k), <-(Hs k).
    naive_solver. }
  exists l'. split; [|done]. rewrite foldM_cons. unfold source_use at 1. rewrite Hp. cbn [mbind result_bind]. rewrite Hl. cbn [mbind result_bind wrap_err].
  by rewrite Hli.
Qed.
End Walk.

(** *** Termination: every level of nesting pushes a new loadable group *)

Lemma foldM_ext {A S} (f g : S → A → result S) l : (∀ s a, f s a = g s a) → ∀ s, foldM f s l = foldM g s l.
Proof.
  intros Hfg. induction l as [|a l IH]; intros s; [done|]. rewrite !foldM_cons, Hfg. by destruct (g s a).
Qed.

(** The key [push] gives a group. *)
Definition group_key (dir name : string) : string := dir +:+ "::" +:+ name.

Definition loadable (env : BuildEnv) (keys : list string) : Prop :=
  ∀ dir name, is_ok (loadGroupDef env dir name) = true → group_key dir name ∈ keys.

Lemma push_NoDup stack dir name stack' : push stack dir name = Ok stack' → NoDup stack →
  stack' = stack ++ [group_key dir name] ∧ NoDup stack'.
Proof.
  unfold push. destruct (mem _ stack) eqn:Hm; [done|]. intros [= <-] Hnd. split; [done|].
  apply NoDup_app. split_and!; [done| |apply NoDup_singleton].
  intros x Hx ->%list_elem_of_singleton. by apply mem_false in Hm.
Qed.

Section Terminates.
Context `{MapOrder} (rc : resolveContext) (keys : list string) (Hkeys : loadable (rc_env rc) keys).

Lemma push_length stack dir name stack' def : push stack dir name = Ok stack' →
  loadGroupDef (rc_env rc) dir name = Ok def → NoDup stack → stack ⊆ keys →
  NoDup stack' ∧ stack' ⊆ keys ∧ length stack' = S (length stack).
Proof.
  intros Hp Hl Hnd Hs. destruct (push_NoDup _ _ _ _ Hp Hnd) as [-> Hnd']. split; [done|]. split.
  - intros x [Hx| ->%list_elem_of_singleton]%elem_of_app; [auto|]. apply Hkeys. by rewrite Hl.
  - rewrite length_app. simpl. lia.
Qed.

Lemma resolveUse_ext rec1 rec2 u dir prefix am stack : NoDup stack → stack ⊆ keys →
  (∀ bp d p a st, NoDup st → st ⊆ keys → length st = S (length stack) → rec1 bp d p a st = rec2 bp d p a st) →
  resolveUse rc rec1 u dir prefix am stack = resolveUse rc rec2 u dir prefix am stack.
Proof.
  intros Hnd Hs Hrec. unfold resolveUse.
  destruct (push _ _ _) as [stack'|] eqn:Hp; [|done]. cbn [mbind result_bind].
  destruct (loadGroupDef _ _ _) as [[[[def rts] dc] v]|] eqn:Hl; [|done]. cbn [mbind result_bind].
  destruct (push_length _ _ _ _ _ Hp Hl Hnd Hs) as (? & ? & ?). by rewrite Hrec.
Qed.

Lemma build_fuel_stack : ∀ f stack, NoDup stack → stack ⊆ keys → length keys < length stack + f →
  ∀ f' bp baseDir namespace am, f ≤ f' →
  build rc f' bp baseDir namespace am stack = build rc f bp baseDir namespace am stack.
Proof.
  induction f as [|f IH]; intros stack Hnd Hs Hlen f' bp baseDir namespace am Hf.
  { assert (length stack <= length keys)%nat; [|lia]. by apply submseteq_length, NoDup_submseteq. }
  destruct f' as [|f']; [lia|]. simpl.
  destruct (mergeContracts _ _ _) as [g0|]; [|done]. cbn [mbind result_bind].
  destruct (foldM _ g0 _) as [g1|]; [|done]. cbn [mbind result_bind].
  erewrite (foldM_ext (add_use rc (build rc f') bp baseDir namespace am stack)
    (add_use rc (build rc f) bp baseDir namespace am stack)); [done|].
  intros [g uses] u. unfold add_use. erewrite resolveUse_ext; [done|done|done|].
  intros bp' d p a st Hnd' Hs' Hlen'. apply (IH st); [done|done|lia|lia].
Qed.
End Terminates.

(** ** Properties *)

Section Properties.
Context `{MapOrder}.

Lemma buildRoot_leaf fuel env bp baseDir observation cli g :
  env_ok env → scope_ok (bp_Nodes bp) (bp_Edges bp) → buildRoot fuel env bp baseDir observation cli = Ok g →
  adj_wf g ∧ leaf_edges g.
Proof.
  intros Henv Hok. unfold buildRoot. intros ([g0 uses] & Hb & [= <-])%result_bind_Ok.
  apply (build_built (root_context env bp baseDir observation cli)) in Hb; [|done..].
  destruct Hb as [Hwf Hl _ _]. split; [exact Hwf|exact Hl].
Qed.

(** C12: whatever the nesting of groups, the graph [Build] returns has adjacency
    maps that mirror its edge list, and every edge is a plain node-to-node
    edge between two leaves of the graph: an output to an input for data, two
    bare references for ordering.  No [use] reference survives. *)
Theorem buildRoot_edges fuel env bp baseDir observation cli g :
  env_ok env → scope_ok (bp_Nodes bp) (bp_Edges bp) →
  buildRoot fuel env bp baseDir observation cli = Ok g →
  adj_wf g ∧ ∀ e, e ∈ g_Edges g →
    (pr_Entity (e_From e) = EntityNode ∧ is_Some (g_Nodes g !! pr_Node (e_From e))) ∧
    (pr_Entity (e_To e) = EntityNode ∧ is_Some (g_Nodes g !! pr_Node (e_To e))) ∧
    edge_kinds e.
Proof. apply buildRoot_leaf. Qed.

(** The leaves [SourceNodes] lists for vendoring are exactly the nodes of
    the graph [Build] makes of the same blueprint. *)
Theorem SourceNodes_names fuel env bp baseDir observation cli g :
  buildRoot fuel env bp baseDir observation cli = Ok g →
  ∃ l, sourceNodes env fuel bp baseDir "" ∅ [] = Ok l ∧
    ∀ name, is_Some (g_Nodes g !! name) ↔ name ∈ bn_Name ∘ src_Node <$> l.
Proof.
  unfold buildRoot. intros ([g0 uses] & Hb & [= <-])%result_bind_Ok.
  by apply (build_sources _ _ _ _ _ _ ∅) in Hb.
Qed.

(** C34: expansion ends: nesting is bounded by the number of groups that can be
    loaded, because a group is never expanded inside itself; more fuel than
    that changes nothing. *)
Theorem build_terminates env bp baseDir observation cli keys fuel :
  loadable env keys → S (length keys) ≤ fuel →
  buildRoot fuel env bp baseDir observation cli = buildRoot (S (length keys)) env bp baseDir observation cli.
Proof.
  intros Hk Hf. unfold buildRoot.
  erewrite (build_fuel_stack (root_context env bp baseDir observation cli) keys Hk (S (length keys)) []); [done|..|done].
  - constructor.
  - intros x Hx. by apply elem_of_nil in Hx.
  - simpl. lia.
Qed.

(** [Validate] never dereferences a nil pointer on a graph [Build] returns
    for execution: the panic needs a plugin's edge or an observation graph. *)
Lemma built_validates `{PathIdentity} Getenv contracts fuel env bp baseDir cli g :
  env_ok env → scope_ok (bp_Nodes bp) (bp_Edges bp) →
  buildRoot fuel env bp baseDir false cli = Ok g → is_Some (Validate Getenv contracts g).
Proof.
  intros Henv Hok Hr. destruct (buildRoot_leaf _ _ _ _ _ _ _ Henv Hok Hr) as [_ Hl]. revert Hr.
  unfold buildRoot. intros ([g0 uses] & Hb & [= <-])%result_bind_Ok.
  assert (schemas g0) as Hs by (by eapply build_schemas in Hb).
  change (leaf_edges g0) in Hl. apply nothing_nil_Validate. split; cbn [g_Nodes g_Edges].
  - intros e He _. destruct (Hl e He) as ([_ [f Hf]] & [_ [t Ht]] & _). by rewrite Hf, Ht.
  - intros name n Hn. destruct (Hs name n Hn) as [s ->]. done.
Qed.
End Properties.

(** ** A concrete blueprint: one group, used by the root *)

Definition src_node (name src : string) : Node := MkNode ∅ ∅ name src ∅ None ∅ "" ∅ "".

Definition net_group : Group :=
  MkGroup "net" [src_node "vpc" "./vpc"; src_node "subnet" "./subnet"]
    [MkEdge (out_port "vpc" "out") (in_port "subnet" "in")] []
    (MkExport [MkExportInput "cidr" [in_port "vpc" "in"]] [MkExportOutput "id" (out_port "subnet" "out")]) None.

Definition group_blueprint : Blueprint :=
  MkBlueprint None [] [] [net_group] [] None None None [] "" None None.

Definition sample_build_env : BuildEnv :=
  MkBuildEnv (λ dir, if decide (dir = "/root/g") then Ok (group_blueprint, 0) else Err (External "no such directory"))
    (λ _ _, Ok wired_schema) (λ _, TerraformFiles) (λ _, EntryMissing) (λ _, EntryMissing) (λ _, Ok "")
    (λ _, Err (External "type")) (@Validate map_order_default sample_paths (λ _, "") (λ _, [])).

Definition sample_root : Blueprint :=
  MkBlueprint None [src_node "app" "./app"]
    [MkEdge (MkPortRef EntityUse "prod" PortOutput "id") (in_port "app" "in")] []
    [MkUse "net" "prod" "./g" "" ∅ {[ "cidr" := VString "10.0.0.0/8" ]} "safe" ∅ None] None None None [] "" None None.

Definition sample_built : Graph :=
  match @buildRoot map_order_default 2 sample_build_env sample_root "/root" false "" with
  | Ok g => g
  | Err _ => empty_graph
  end.

Example sample_built_edges :
  ((λ e, (pr_Node (e_From e), pr_Node (e_To e))) <$> g_Edges sample_built) =
    [("prod.vpc", "prod.subnet"); ("prod.subnet", "app")] ∧
  names sample_built = ["app"; "prod.subnet"; "prod.vpc"] ∧
  (n_Approve <$> g_Nodes sample_built !! "prod.vpc") = Some "safe".
Proof. vm_compute. done. Qed.

Lemma sample_env_ok : env_ok sample_build_env.
Proof.
  intros dir bp k g. simpl. case_decide; [|done]. intros [= <- <-] ->%list_elem_of_singleton. split.
  - intros e ->%list_elem_of_singleton. split_and!.
    + intros _. exists (src_node "vpc" "./vpc"). split; [by left|done].
    + intros _. exists (src_node "subnet" "./subnet"). split; [right; by left|done].
    + left. split; done.
  - split.
    + intros i r ->%list_elem_of_singleton ->%list_elem_of_singleton. done.
    + intros o ->%list_elem_of_singleton. done.
Qed.

Lemma sample_scope_ok : scope_ok (bp_Nodes sample_root) (bp_Edges sample_root).
Proof.
  intros e ->%list_elem_of_singleton. split_and!; [done| |left; split; done].
  intros _. exists (src_node "app" "./app"). split; [by left|done].
Qed.

Lemma sample_built_Ok : @buildRoot map_order_default 2 sample_build_env sample_root "/root" false "" = Ok sample_built.
Proof. vm_compute. reflexivity. Qed.

Lemma sample_loadable : loadable sample_build_env ["/root/g::net"].
Proof.
  intros dir name. unfold loadGroupDef, parseGroupDir. simpl. case_decide as Hd; [|done]. simpl.
  case_bool_decide as Hn; [|done]. intros _. simplify_eq. by left.
Qed.

Example buildRoot_edges_witness : adj_wf sample_built ∧ length (g_Edges sample_built) = 2.
Proof.
  split; [|vm_compute; reflexivity].
  exact (proj1 (@buildRoot_edges map_order_default 2 sample_build_env sample_root "/root" false "" sample_built
    sample_env_ok sample_scope_ok sample_built_Ok)).
Defined.

Example SourceNodes_names_witness :
  ∃ l, sourceNodes sample_build_env 2 sample_root "/root" "" ∅ [] = Ok l ∧
    ∀ name, is_Some (g_Nodes sample_built !! name) ↔ name ∈ bn_Name ∘ src_Node <$> l.
Proof.
  exact (@SourceNodes_names map_order_default 2 sample_build_env sample_root "/root" false "" sample_built sample_built_Ok).
Defined.

Example build_terminates_witness : @buildRoot map_order_default 9 sample_build_env sample_root "/root" false "" = Ok sample_built.
Proof.
  rewrite (@build_terminates map_order_default sample_build_env sample_root "/root" false "" ["/root/g::net"] 9
    sample_loadable ltac:(simpl; lia)). exact sample_built_Ok.
Defined.

Example built_validates_witness : is_Some (@Validate map_order_default sample_paths (λ _, "") (λ _, []) sample_built).
Proof.
  exact (@built_validates map_order_default sample_paths (λ _, "") (λ _, []) 2 sample_build_env sample_root "/root" ""
    sample_built sample_env_ok sample_scope_ok sample_built_Ok).
Defined.
