(* ===== verification/Hcl.v ===== *)
(** HCL as the parser sees it: the outcome of Go code that may panic, and the
    interface of the hcl and cty packages the source calls
    (github.com/hashicorp/hcl/v2, github.com/zclconf/go-cty).

    The packages are not part of the repository, so bodies, expressions and
    values are carrier types of the class [Hcl] and their methods its
    operations; [HclLaws] states the documented behaviour the parser relies
    on.  [None] from a cty accessor is the panic cty documents for a value of
    the wrong type. *)
From S2P Require Import Prelude GoLib Cty Blueprint Contracts.

(** ** Outcomes: a value, an error, or a panic *)

Inductive outcome (A : Type) :=
  | Ret (a : A)
  | Fail (e : error)
  | Panic.
Arguments Ret {_} a.
Arguments Fail {_} e.
Arguments Panic {_}.

#[export] Instance outcome_ret : MRet outcome := λ A a, Ret a.
#[export] Instance outcome_bind : MBind outcome := λ A B f r,
  match r with Ret a => f a | Fail e => Fail e | Panic => Panic end.

Definition lift {A} (r : result A) : outcome A := match r with Ok a => Ret a | Err e => Fail e end.

(** A pointer or a typed read that panics when it is absent. *)
Definition deref {A} (o : option A) : outcome A := match o with Some a => Ret a | None => Panic end.

Definition wrap_out {A} (w : error → error) (r : outcome A) : outcome A :=
  match r with Fail e => Fail (w e) | _ => r end.

Definition guard_out (b : bool) (e : error) : outcome unit := if b then Ret tt else Fail e.

Fixpoint foldO {A S} (f : S → A → outcome S) (s : S) (l : list A) : outcome S :=
  match l with
  | [] => Ret s
  | a :: l => f s a ≫= λ s', foldO f s' l
  end.

Lemma out_bind_Ret {A B} (m : outcome A) (f : A → outcome B) b : (m ≫= f) = Ret b ↔ ∃ a, m = Ret a ∧ f a = Ret b.
Proof. destruct m; split; naive_solver. Qed.

Lemma wrap_out_Ret {A} w (m : outcome A) a : wrap_out w m = Ret a ↔ m = Ret a.
Proof. by destruct m. Qed.

Lemma lift_Ret {A} (r : result A) a : lift r = Ret a ↔ r = Ok a.
Proof. destruct r; simpl; naive_solver. Qed.

Lemma deref_Ret {A} (o : option A) a : deref o = Ret a ↔ o = Some a.
Proof. destruct o; simpl; naive_solver. Qed.

Lemma guard_out_Ret b e u : guard_out b e = Ret u ↔ b = true.
Proof. destruct b, u; simpl; naive_solver. Qed.

Lemma foldO_app {A S} (f : S → A → outcome S) s l1 l2 : foldO f s (l1 ++ l2) = foldO f s l1 ≫= λ s', foldO f s' l2.
Proof. revert s. induction l1 as [|a l1 IH]; intros s; simpl; [done|]. by destruct (f s a); simpl. Qed.

(** Invariant rule. *)
Lemma foldO_inv {A S} (f : S → A → outcome S) (P : S → Prop) l : (∀ s a s', a ∈ l → P s → f s a = Ret s' → P s') →
  ∀ s s', P s → foldO f s l = Ret s' → P s'.
Proof.
  intros Hf. induction l as [|a l IH]; intros s s' Hs; simpl.
  - by intros [= <-].
  - intros (s1 & H1 & H2)%out_bind_Ret. eapply IH; [|by eapply Hf, H1; [left|]|done].
    intros ? b ? Hb. apply Hf. by right.
Qed.

(** *** Panic freedom *)

Definition safe_out {A} (m : outcome A) : Prop := m ≠ Panic.

Lemma safe_ret {A} (a : A) : safe_out (mret a : outcome A). Proof. done. Qed.
Lemma safe_Ret {A} (a : A) : safe_out (Ret a). Proof. done. Qed.
Lemma safe_Fail {A} e : safe_out (Fail e : outcome A). Proof. done. Qed.
Lemma safe_lift {A} (r : result A) : safe_out (lift r). Proof. by destruct r. Qed.
Lemma safe_guard b e : safe_out (guard_out b e). Proof. by destruct b. Qed.

Lemma safe_wrap {A} w (m : outcome A) : safe_out m → safe_out (wrap_out w m).
Proof. by destruct m. Qed.

Lemma safe_bind {A B} (m : outcome A) (f : A → outcome B) :
  safe_out m → (∀ a, m = Ret a → safe_out (f a)) → safe_out (m ≫= f).
Proof. destruct m; simpl; [intros _ H; by apply H|done|done]. Qed.

Lemma safe_foldO {A S} (f : S → A → outcome S) l :
  (∀ s a, a ∈ l → safe_out (f s a)) → ∀ s, safe_out (foldO f s l).
Proof.
  intros Hf. induction l as [|a l IH]; intros s; simpl; [done|].
  apply safe_bind; [apply Hf; by left|]. intros s' _. apply IH. intros t b Hb. apply Hf. by right.
Qed.

#[export] Hint Resolve safe_ret safe_Ret safe_Fail safe_lift safe_guard : terragraph.

(** ** The packages *)

(** The kinds of cty types the source tells apart. *)
Inductive ctyKind := KString | KBool | KNumber | KObject | KMap | KTuple | KList | KOther.
#[export] Instance ctyKind_eq_dec : EqDecision ctyKind.
Proof. solve_decision. Defined.

Inductive Traverser := TraverseRoot (name : string) | TraverseAttr (name : string) | TraverseOther.

Record BlockHeaderSchema := MkHeader { bh_Type : string; bh_LabelNames : list string }.
Record AttributeSchema := MkAttrSchema { as_Name : string; as_Required : bool }.
Record BodySchema := MkSchemaOf { bs_Attributes : list AttributeSchema; bs_Blocks : list BlockHeaderSchema }.

Record Attribute_ (E : Type) := MkAttribute { at_Name : string; at_Expr : E; at_Range : string }.
Record Block_ (B : Type) := MkBlock { bl_Type : string; bl_Labels : list string; bl_Body : B; bl_DefRange : string }.
Record BodyContent_ (B E : Type) := MkContent { ct_Attributes : gmap string (Attribute_ E); ct_Blocks : list (Block_ B) }.
Arguments MkAttribute {_}. Arguments at_Name {_}. Arguments at_Expr {_}. Arguments at_Range {_}.
Arguments MkBlock {_}. Arguments bl_Type {_}. Arguments bl_Labels {_}. Arguments bl_Body {_}. Arguments bl_DefRange {_}.
Arguments MkContent {_ _}. Arguments ct_Attributes {_ _}. Arguments ct_Blocks {_ _}.

Record HclDiagnostic := MkHclDiagnostic { hd_Summary : string; hd_Subject : option string; hd_Detail : string }.

Class Hcl := {
  Body : Type;
  Expr : Type;
  Val : Type;
  EvalContext : Type;
  (** [body.Content(schema)] and [PartialContent], diagnostics being an error. *)
  Content : Body → BodySchema → result (BodyContent_ Body Expr);
  PartialContent : Body → BodySchema → result (BodyContent_ Body Expr * option Body);
  (** The diagnostics of a failed [Content]. *)
  ContentDiags : Body → BodySchema → list HclDiagnostic;
  (** [*hclsyntax.Body]: its attributes' ranges by name, and all its blocks with their type's range. *)
  SyntaxBody : Body → option (gmap string string * list (string * Block_ Body));
  (** [expr.Value(ctx)]. *)
  Value : Expr → option EvalContext → result Val;
  AbsTraversalForExpr : Expr → result (list Traverser);
  ExprList : Expr → result (list Expr);
  ParseExpression : string → string → result Expr;
  TypeConstraint : Expr → result ctype;
  IsNull : Val → bool;
  IsKnown : Val → bool;
  IsWhollyKnown : Val → bool;
  Kind : Val → ctyKind;
  FriendlyName : Val → string;
  AsString : Val → option string;
  True_ : Val → option bool;
  (** Keys of maps and objects are known strings. *)
  Elements : Val → option (list (string * Val));
  AsValueSlice : Val → list Val;
  (** [convert.Convert(v, cty.String)]. *)
  ConvertString : Val → result Val;
  (** [ctyjson.Marshal] and decoding with numbers kept as tokens. *)
  JSONValue : Val → result value;
}.

Notation Attribute := (Attribute_ Expr).
Notation Block := (Block_ Body).
Notation BodyContent := (BodyContent_ Body Expr).

Definition header_of (s : BodySchema) (typ : string) : option BlockHeaderSchema :=
  List.find (λ b, bool_decide (bh_Type b = typ)) (bs_Blocks s).

(** A body read against a schema holds only blocks of the schema, labelled as
    it says, and every required attribute. *)
Definition conforms `{Hcl} (s : BodySchema) (c : BodyContent) : Prop :=
  (∀ b, b ∈ ct_Blocks c → ∃ h, h ∈ bs_Blocks s ∧ bh_Type h = bl_Type b ∧ length (bl_Labels b) = length (bh_LabelNames h)) ∧
  (∀ a, a ∈ bs_Attributes s → as_Required a = true → is_Some (ct_Attributes c !! as_Name a)) ∧
  (∀ k a, ct_Attributes c !! k = Some a → at_Name a = k ∧ k ∈ as_Name <$> bs_Attributes s).

Definition is_string `{Hcl} (v : Val) : bool := negb (IsNull v) && IsKnown v && bool_decide (Kind v = KString).

Definition is_map `{Hcl} (v : Val) : bool :=
  negb (IsNull v) && IsKnown v && (bool_decide (Kind v = KObject) || bool_decide (Kind v = KMap)).

Class HclLaws `{Hcl} := {
  Content_conforms body s c : Content body s = Ok c → conforms s c;
  PartialContent_conforms body s c r : PartialContent body s = Ok (c, r) → conforms s c;
  AbsTraversal_root e t : AbsTraversalForExpr e = Ok t → t ≠ [];
  Traversal_names e t n : AbsTraversalForExpr e = Ok t → TraverseAttr n ∈ t → n ≠ "";
  AsString_string v : is_string v = true → is_Some (AsString v);
  True_bool v : IsKnown v = true → Kind v = KBool → is_Some (True_ v);
  Elements_map v : is_map v = true → is_Some (Elements v);
  (** Without a context nothing is unknown. *)
  Value_literal e v : Value e None = Ok v → IsWhollyKnown v = true;
  WhollyKnown_Known v : IsWhollyKnown v = true → IsKnown v = true;
  WhollyKnown_elements v l k w : IsWhollyKnown v = true → Elements v = Some l → (k, w) ∈ l → IsWhollyKnown w = true;
  WhollyKnown_slice v w : IsWhollyKnown v = true → w ∈ AsValueSlice v → IsWhollyKnown w = true;
  ConvertString_string v w : ConvertString v = Ok w → IsWhollyKnown v = true → IsNull w = false → is_string w = true;
}.
