(* ===== verification/HclSample.v ===== *)
(** A concrete reading of the hcl and cty interface (for Hcl.v): bodies as
    trees of attributes and labelled blocks, expressions as literals,
    references or lists.  It satisfies the laws, so the theorems about parsing
    apply to it; their witnesses evaluate on it. *)
From S2P Require Import Prelude GoLib Cty Blueprint Contracts Hcl.

Inductive sexpr :=
  | SLit (v : value)
  | SRef (t : list Traverser)
  | SList (l : list sexpr).

Inductive sbody := SBody (attrs : list (string * sexpr)) (blocks : list (string * list string * sbody)).

Definition sb_attrs (b : sbody) : list (string * sexpr) := let 'SBody a _ := b in a.
Definition sb_blocks (b : sbody) : list (string * list string * sbody) := let 'SBody _ l := b in l.

Definition sample_kind (v : value) : ctyKind :=
  match v with
  | VString _ => KString | VBool _ => KBool | VNumber _ => KNumber | VObject _ => KObject | VList _ => KTuple | VNull => KOther
  end.

Definition block_fits (s : BodySchema) (b : string * list string * sbody) : bool :=
  existsb (λ h, bool_decide (bh_Type h = b.1.1) && bool_decide (length b.1.2 = length (bh_LabelNames h))) (bs_Blocks s).

Definition sample_attrs (l : list (string * sexpr)) : gmap string (Attribute_ sexpr) :=
  map_imap (λ k e, Some (MkAttribute k e "attr")) (list_to_map l).

Definition sample_blocks (l : list (string * list string * sbody)) : list (Block_ sbody) :=
  (λ b, MkBlock b.1.1 b.1.2 b.2 "block") <$> l.

Definition attrs_fit (s : BodySchema) (m : gmap string (Attribute_ sexpr)) : bool :=
  forallb (λ k, mem k (as_Name <$> bs_Attributes s)) (sorted_keys m)
  && forallb (λ a, negb (as_Required a) || bool_decide (is_Some (m !! as_Name a))) (bs_Attributes s).

Definition sample_content (b : sbody) (s : BodySchema) : result (BodyContent_ sbody sexpr) :=
  let m := sample_attrs (sb_attrs b) in
  if attrs_fit s m && forallb (block_fits s) (sb_blocks b) then Ok (MkContent m (sample_blocks (sb_blocks b)))
  else Err (Errorf "unsupported argument or block" []).

Definition ref_fits (t : list Traverser) : bool :=
  match t with
  | TraverseRoot _ :: rest => forallb (λ s, match s with TraverseAttr "" => false | _ => true end) rest
  | _ => false
  end.

Definition sample_traversal (e : sexpr) : result (list Traverser) :=
  match e with
  | SRef t => if ref_fits t then Ok t else Err (Errorf "invalid expression" [])
  | _ => Err (Errorf "invalid expression" [])
  end.

#[export] Instance sample_hcl : Hcl := {|
  Body := sbody; Expr := sexpr; Val := value; EvalContext := unit;
  Content := sample_content;
  PartialContent := λ b s, c ← sample_content b s; Ok (c, None);
  ContentDiags := λ _ _, [];
  SyntaxBody := λ b, Some (list_to_map ((λ a, (a.1, "attr")) <$> sb_attrs b),
                           (λ x, ("type", x)) <$> sample_blocks (sb_blocks b));
  Value := λ e _, match e with SLit v => Ok v | _ => Err (Errorf "variables not allowed" []) end;
  AbsTraversalForExpr := sample_traversal;
  ExprList := λ e, match e with SList l => Ok l | _ => Err (Errorf "not a list" []) end;
  ParseExpression := λ s _, Ok (SLit (VString s));
  TypeConstraint := λ e, match e with SLit (VString s) => Ok (TPrimitive s) | _ => Err (Errorf "not a type" []) end;
  IsNull := λ v, match v with VNull => true | _ => false end;
  IsKnown := λ _, true;
  IsWhollyKnown := λ _, true;
  Kind := sample_kind;
  FriendlyName := λ _, "value";
  AsString := λ v, match v with VString s => Some s | _ => None end;
  True_ := λ v, match v with VBool b => Some b | _ => None end;
  Elements := λ v, match v with VObject l => Some l | _ => None end;
  AsValueSlice := λ v, match v with VList l => l | _ => [] end;
  ConvertString := λ v, match v with
    | VString s => Ok v | VNumber s => Ok (VString s) | VNull => Ok VNull | _ => Err (Errorf "string required" []) end;
  JSONValue := λ v, Ok v;
|}.

Lemma sample_attrs_lookup l k a : sample_attrs l !! k = Some a → at_Name a = k.
Proof. unfold sample_attrs. rewrite map_lookup_imap. destruct (_ !! k); simpl; [by intros [= <-]|done]. Qed.

Lemma sample_conforms b s c : sample_content b s = Ok c → conforms s c.
Proof.
  unfold sample_content. destruct (_ && _) eqn:E; [|done]. intros [= <-].
  apply andb_true_iff in E as [Ea Eb]. unfold attrs_fit in Ea. apply andb_true_iff in Ea as [Ek Er].
  rewrite forallb_forall in Ek, Er, Eb. split_and!; simpl.
  - intros x ([[typ labels] body] & -> & Hin)%list_elem_of_fmap. apply list_elem_of_In, Eb in Hin.
    unfold block_fits in Hin. apply existsb_exists in Hin as (h & Hh & [Ht Hl]%andb_true_iff).
    exists h. apply bool_decide_eq_true in Ht, Hl. split_and!; [by apply list_elem_of_In|done|done].
  - intros a Ha Hreq. apply list_elem_of_In, Er in Ha. rewrite Hreq in Ha. simpl in Ha. by apply bool_decide_eq_true in Ha.
  - intros k a Hk. split; [by eapply sample_attrs_lookup|].
    apply mem_true, Ek, list_elem_of_In, sorted_keys_elem. by eexists.
Qed.

#[export] Instance sample_laws : HclLaws.
Proof.
  split; simpl.
  - apply sample_conforms.
  - intros b s c r (c' & Hc & [= <- _])%result_bind_Ok. by eapply sample_conforms.
  - intros [v|t|l] t'; simpl; try done. destruct t as [|[] t]; simpl; try done. by case_match; intros [= <-].
  - intros [v|t|l] t' n; simpl; try done. destruct (ref_fits t) eqn:Hf; [|done]. intros [= <-] Hin.
    destruct t as [|[] t]; simpl in Hf; try done. rewrite forallb_forall in Hf.
    apply elem_of_cons in Hin as [Hin|Hin]; [done|]. apply list_elem_of_In, Hf in Hin. by destruct n.
  - intros v. unfold is_string. simpl. by destruct v; simpl; try done; eexists.
  - intros v _. by destruct v; simpl; try done; eexists.
  - intros v. unfold is_map. simpl. by destruct v; simpl; try done; eexists.
  - done.
  - done.
  - done.
  - done.
  - intros v w. destruct v; simpl; try done; intros [= <-]; done.
Qed.

Definition node_path (n : string) : list Traverser := [TraverseRoot "node"; TraverseAttr n].
Definition port_path (n k p : string) : list Traverser := node_path n ++ [TraverseAttr k; TraverseAttr p].
Definition lit (s : string) : sexpr := SLit (VString s).
