(* ===== verification/Parse.v ===== *)
(** Parsing blueprints (src/internal/blueprint: parse.go,
    parse_block_contracts.go, plugins.go, plugin_binding.go, metadata.go): HCL
    bodies to the data model of Blueprint.v.

    Every function is the source's, over the interface of Hcl.v.  A loop over a
    Go map takes the order of [MapOrder]; a map of seen names is a set. *)
From S2P Require Import Prelude GoLib GoPath Cty Blueprint Contracts Hcl.

(** ** Schemas *)

Definition dquote_char : Ascii.ascii := Ascii.Ascii false true false false false true false false.
Definition quoted (s : string) : string := dquote +:+ s +:+ dquote.

Definition attr (name : string) (required : bool) : AttributeSchema := MkAttrSchema name required.
Definition header (typ : string) : BlockHeaderSchema := MkHeader typ [].
Definition named (typ label : string) : BlockHeaderSchema := MkHeader typ [label].

Definition topSchema : BodySchema := MkSchemaOf []
  [named "plugin" "name"; named "node" "name"; header "edge"; named "group" "name"; named "use" "name"; header "vendor";
   header "tfvars"; header "lock"; named "runtime" "name"; header "contracts"; header "snapshots"; header "execution";
   named "producer" "source"; named "consumer" "source"].
Definition vendorSchema : BodySchema := MkSchemaOf [attr "directory" false; attr "manifest_file" false] [].
Definition tfvarsSchema : BodySchema := MkSchemaOf [attr "location" false] [].
Definition lockSchema : BodySchema := MkSchemaOf [] [header "s3"].
Definition lockS3Schema : BodySchema := MkSchemaOf [attr "bucket" true; attr "key" true; attr "region" true] [].
Definition runtimeSchema : BodySchema := MkSchemaOf [attr "binary" true; attr "version" false; attr "default" false] [].
Definition contractsModeSchema : BodySchema := MkSchemaOf [attr "mode" true] [].
Definition nodeSchema : BodySchema := MkSchemaOf
  [attr "source" true; attr "backend_config" false; attr "backend_address" false; attr "vars" false; attr "runtime" false;
   attr "env" false; attr "approve" false]
  [named "input" "name"; named "credential" "name"].
Definition edgeSchema : BodySchema := MkSchemaOf [attr "from" true; attr "to" true] [named "input" "name"].
Definition edgeInputSchema : BodySchema := MkSchemaOf [attr "from" true] [].
Definition groupBodySchema : BodySchema := MkSchemaOf []
  [named "node" "name"; header "edge"; named "use" "name"; header "export"; named "producer" "source"; named "consumer" "source"].
Definition useSchema : BodySchema := MkSchemaOf
  [attr "as" true; attr "source" true; attr "runtime" false; attr "env" false; attr "vars" false; attr "approve" false;
   attr "backend_config" false; attr "backend_address" false] [].
Definition exportBodySchema : BodySchema := MkSchemaOf [] [named "input" "name"; named "output" "name"].
Definition exportInputSchema : BodySchema := MkSchemaOf [attr "to" true] [].
Definition exportOutputSchema : BodySchema := MkSchemaOf [attr "from" true] [].
Definition contractsSideSchema : BodySchema := MkSchemaOf [] [named "output" "name"; named "input" "name"].
Definition portContractSchema : BodySchema := MkSchemaOf [attr "type" false; attr "nullable" false; attr "sensitive" false] [].
Definition executionSchema : BodySchema := MkSchemaOf
  [attr "bucket" false; attr "prefix" false; attr "region" false; attr "plan_ttl" false; attr "record_retention" false] [].
Definition pluginSchema : BodySchema := MkSchemaOf [attr "source" true; attr "version" true; attr "config" false]
  [named "feature" "name"; header "access"].
Definition featureSchema : BodySchema := MkSchemaOf [attr "mode" false; attr "timeout" false] [].
Definition accessSchema : BodySchema := MkSchemaOf [attr "environment" false; attr "plan" false] [].
Definition bindingSchema : BodySchema := MkSchemaOf [attr "from" true; attr "ref" true; attr "environment" false] [].
Definition emptySchema : BodySchema := MkSchemaOf [] [].

(** [BlockAttributes]: what each block type accepts, from the parser's own schemas. *)
Definition BlockAttributes : gmap string (list string) :=
  (λ s, as_Name <$> bs_Attributes s) <$>
  (list_to_map [("execution", executionSchema); ("plugin", pluginSchema); ("node", nodeSchema); ("edge", edgeSchema);
                ("use", useSchema); ("runtime", runtimeSchema); ("vendor", vendorSchema); ("tfvars", tfvarsSchema);
                ("lock", lockSchema); ("s3", lockS3Schema)] : gmap string BodySchema).

(** ** Names *)

Definition is_lower (c : Ascii.ascii) : bool :=
  let n := Ascii.nat_of_ascii c in Nat.leb 97 n && Nat.leb n 122.
Definition is_hyphen (c : Ascii.ascii) : bool := Ascii.eqb c "-"%char.
Definition name_char (c : Ascii.ascii) : bool := is_upper c || is_lower c || is_digit c || is_underscore c || is_hyphen c.

(** [nameRegexp]: [^[A-Za-z0-9_-]+$]. *)
Definition nameRegexp (s : string) : bool := negb (bool_decide (s = "")) && forallb name_char (chars s).

(** [^[a-z][a-z0-9_]*$]. *)
Definition plugin_alias (s : string) : bool :=
  match s with
  | "" => false
  | String c s => is_lower c && forallb (λ d, is_lower d || is_digit d || is_underscore d) (chars s)
  end.

(** [^[A-Za-z_][A-Za-z0-9_]*$]. *)
Definition environment_name (s : string) : bool :=
  match s with
  | "" => false
  | String c s => (is_upper c || is_lower c || is_underscore c)
      && forallb (λ d, is_upper d || is_lower d || is_digit d || is_underscore d) (chars s)
  end.

Definition validateName (kind name rng : string) : outcome unit :=
  guard_out (nameRegexp name)
    (Errorf "%s: %s name %q is invalid: must contain only letters, digits, underscores, and hyphens" [FStr rng; FStr kind; FStr name]).

Definition IsBlueprintFilename (name : string) : bool :=
  has_suffix name ".hcl" && negb (bool_decide (name = ".terraform.lock.hcl")).

Definition isAbsoluteAnywhere (scope : string) : bool :=
  isAbs scope || has_prefix scope "/" || has_prefix scope "\"
  || match scope with
     | String c (String d _) => Ascii.eqb d ":"%char && (is_lower c || is_upper c)
     | _ => false
     end.

(** The bindings of one kind of a node. *)
Notation bindings := (gmap string PluginBinding).

Section Parse.
Context `{Hcl} `{MapOrder} (ParseDuration : string → result Z).

(** ** Reading attributes *)

Definition content (rng : string) (body : Body) (s : BodySchema) : outcome BodyContent :=
  wrap_out (λ d, Errorf "%s: %s" [FStr rng; FErr d]) (lift (Content body s)).

Definition label0 (b : Block) : outcome string := deref (head (bl_Labels b)).
Definition get_attr (c : BodyContent) (name : string) : outcome Attribute := deref (ct_Attributes c !! name).

(** [val, diags := attr.Expr.Value(nil)] and the test of a literal string. *)
Definition literal_string (e : Expr) (bad : error) : outcome string :=
  match Value e None with
  | Ok v => if is_string v then deref (AsString v) else Fail bad
  | Err _ => Fail bad
  end.

(** An optional attribute of a block. *)
Definition optional {A} (c : BodyContent) (name : string) (absent : A) (read : Attribute → outcome A) : outcome A :=
  match ct_Attributes c !! name with Some a => read a | None => Ret absent end.

Definition must_be_literal (name : string) (a : Attribute) : error :=
  Errorf ("%s: " +:+ name +:+ " must be a literal string") [FStr (at_Range a)].

Definition literal_attr (name : string) (a : Attribute) : outcome string := literal_string (at_Expr a) (must_be_literal name a).

Definition elements_string (attrName rng : string) (m : gmap string string) (kv : string * Val) : outcome (gmap string string) :=
  let '(k, v) := kv in
  str ← wrap_out (λ err, Errorf "%s: %s.%s must be a string: %s" [FStr rng; FStr attrName; FStr k; FErr err]) (lift (ConvertString v));
  if IsNull str then Fail (Errorf "%s: %s.%s must not be null" [FStr rng; FStr attrName; FStr k])
  else s ← deref (AsString str); Ret (<[k := s]> m).

Definition parseStringMapAttr (a : Attribute) (attrName : string) : outcome (gmap string string) :=
  val ← wrap_out (λ d, Errorf "%s: %s must be a literal map of strings: %s" [FStr (at_Range a); FStr attrName; FErr d])
          (lift (Value (at_Expr a) None));
  _ ← guard_out (is_map val) (Errorf "%s: %s must be a map/object of strings" [FStr (at_Range a); FStr attrName]);
  l ← deref (Elements val);
  foldO (elements_string attrName (at_Range a)) ∅ l.

Definition parseBackendConfig (a : Attribute) : outcome (gmap string string) := parseStringMapAttr a "backend_config".

(** [strings.EqualFold] against an ASCII name. *)
Definition EqualFold (a b : string) : bool := String.eqb (to_lower a) (to_lower b).

Definition check_env_key (rng key : string) : outcome unit :=
  let '(name, _, _) := cut "="%char key in
  guard_out (negb (EqualFold name "TF_DATA_DIR"))
    (Errorf "%s: env.%s: TF_DATA_DIR is managed per node to isolate backend configuration; remove this env entry" [FStr rng; FStr key]).

Definition parseEnvAttr (a : Attribute) : outcome (gmap string string) :=
  env ← parseStringMapAttr a "env";
  _ ← foldO (λ _ key, check_env_key (at_Range a) key) tt (sorted_keys env);
  Ret env.

Definition elements_value (rng : string) (m : gmap string value) (kv : string * Val) : outcome (gmap string value) :=
  let '(k, v) := kv in
  goVal ← wrap_out (λ err, Errorf "%s: vars.%s: %s" [FStr rng; FStr k; FErr err]) (lift (JSONValue v));
  Ret (<[k := goVal]> m).

Definition parseVarsAttr (a : Attribute) (evaluation : option EvalContext) : outcome (gmap string value) :=
  val ← wrap_out (λ d, Errorf "%s: vars must be an object of literal values or installed plugin function results, with no references to node/use outputs (use an edge for those): %s"
                           [FStr (at_Range a); FErr d])
          (lift (Value (at_Expr a) evaluation));
  _ ← guard_out (is_map val) (Errorf "%s: vars must be an object/map of variable name to value" [FStr (at_Range a)]);
  l ← deref (Elements val);
  foldO (elements_value (at_Range a)) ∅ l.

Definition parseApproveAttr (c : BodyContent) : outcome Approve :=
  optional c "approve" "" (λ a,
    val ← wrap_out (λ d, Errorf "%s: approve must be a literal string: %s" [FStr (at_Range a); FErr d]) (lift (Value (at_Expr a) None));
    _ ← guard_out (is_string val) (Errorf "%s: approve must be a string" [FStr (at_Range a)]);
    s ← deref (AsString val);
    wrap_out (λ err, Errorf "%s: %w" [FStr (at_Range a); FErr err]) (lift (ParseApprove s))).

(** The attribute [ParseBackendAddress] reads, parsed. *)
Definition parse_address (c : BodyContent) : outcome (option (gmap string string)) :=
  match ct_Attributes c !! "backend_address" with
  | None => lift (ParseBackendAddress None)
  | Some a =>
    match parseStringMapAttr a "backend_address" with
    | Ret m => lift (ParseBackendAddress (Some (at_Range a, Ok m)))
    | Fail e => lift (ParseBackendAddress (Some (at_Range a, Err e)))
    | Panic => Panic
    end
  end.

(** ** References *)

Definition traverseAttrName (step : Traverser) (rng : string) : outcome string :=
  match step with
  | TraverseAttr n => Ret n
  | _ => Fail (Errorf "%s: expected a simple attribute reference" [FStr rng])
  end.

Definition runtime_ref_error (a : Attribute) : error :=
  Errorf "%s: runtime must be a reference of the form runtime.<name>" [FStr (at_Range a)].

Definition parseRuntimeRef (c : BodyContent) : outcome string :=
  optional c "runtime" "" (λ a,
    match AbsTraversalForExpr (at_Expr a) with
    | Ok [TraverseRoot root; step] =>
      if decide (root = "runtime") then traverseAttrName step (at_Range a) else Fail (runtime_ref_error a)
    | _ => Fail (runtime_ref_error a)
    end).

Definition entity_of (root : string) : option EntityKind :=
  if decide (root = "node") then Some EntityNode else if decide (root = "use") then Some EntityUse else None.

Definition port_kind (name : string) : option PortKind :=
  if decide (name = kind_string PortOutput) then Some PortOutput
  else if decide (name = kind_string PortInput) then Some PortInput else None.

(** The path after the entity: its name, and the port of a four-step reference. *)
Definition port_of_path (entity : EntityKind) (rng : string) (total : nat) (path : list Traverser) : outcome PortRef :=
  match path with
  | [] => Fail (Errorf "%s: expected <keyword>.<name>" [FStr rng])
  | step :: rest =>
    name ← traverseAttrName step rng;
    match rest with
    | [] => Ret (MkPortRef entity name KindBare "")
    | [k; p] =>
      kindName ← traverseAttrName k rng;
      portName ← traverseAttrName p rng;
      match port_kind kindName with
      | Some kind => Ret (MkPortRef entity name kind portName)
      | None => Fail (Errorf ("%s: expected " +:+ quoted "output" +:+ " or " +:+ quoted "input" +:+ ", got %q")
                        [FStr rng; FStr kindName])
      end
    | _ => Fail (Errorf "%s: expected <keyword>.<name> or <keyword>.<name>.<output|input>.<attr>, got %d path segments"
                   [FStr rng; FInt (Z.of_nat total)])
    end
  end.

Definition keyword_error (rng : string) : error :=
  Errorf ("%s: reference must start with " +:+ quoted "node" +:+ " or " +:+ quoted "use") [FStr rng].

Definition parseNodeOrPortRef_at (e : Expr) (rng : string) : outcome PortRef :=
  traversal ← wrap_out (λ _, Errorf "%s: must be a reference of the form node.<name> or use.<name>, optionally with .output.<attr> / .input.<attr>, not an expression" [FStr rng])
                (lift (AbsTraversalForExpr e));
  match traversal with
  | [] => Panic
  | TraverseRoot root :: path =>
    match entity_of root with
    | Some entity => port_of_path entity rng (length traversal) path
    | None => Fail (Errorf ("%s: reference must start with " +:+ quoted "node" +:+ " or " +:+ quoted "use" +:+ ", got %q") [FStr rng; FStr root])
    end
  | _ => Fail (keyword_error rng)
  end.

Definition parseNodeOrPortRef (a : Attribute) : outcome PortRef := parseNodeOrPortRef_at (at_Expr a) (at_Range a).

Definition specific_port (rng : string) (ref : PortRef) : outcome PortRef :=
  if IsPort ref then Ret ref else Fail (Errorf "%s: must reference a specific port, got %s" [FStr rng; FStr (PortRef_String ref)]).

Definition add_port (rng : string) (refs : list PortRef) (e : Expr) : outcome (list PortRef) :=
  ref ← parseNodeOrPortRef_at e rng;
  ref ← specific_port rng ref;
  Ret (refs ++ [ref]).

Definition port_list_error (rng : string) : error :=
  Errorf "%s: must be a port reference (e.g. node.<name>.input.<attr>) or a list of them" [FStr rng].

Definition parsePortRefList (a : Attribute) : outcome (list PortRef) :=
  match parseNodeOrPortRef a with
  | Ret ref => ref ← specific_port (at_Range a) ref; Ret [ref]
  | Panic => Panic
  | Fail _ =>
    match ExprList (at_Expr a) with
    | Err _ => Fail (port_list_error (at_Range a))
    | Ok [] => Fail (port_list_error (at_Range a))
    | Ok exprs => foldO (add_port (at_Range a)) [] exprs
    end
  end.

(** ** Edges *)

Definition relative_error (rng : string) : error := Errorf "%s: must be a reference of the form output.<attr>" [FStr rng].

Definition parseRelativeOutputRef (a : Attribute) : outcome string :=
  let rng := at_Range a in
  traversal ← wrap_out (λ _, Errorf "%s: must be a reference of the form output.<attr>, not an expression" [FStr rng])
                (lift (AbsTraversalForExpr (at_Expr a)));
  match traversal with
  | [] => Panic
  | TraverseRoot root :: path =>
    if decide (root = "node" ∨ root = "use")
    then Fail (Errorf ("%s: must be a relative reference of the form output.<attr>; the source node is the edge's own " +:+ quoted "from" +:+ ", not repeated here") [FStr rng])
    else if decide (root ≠ kind_string PortOutput)
    then Fail (Errorf "%s: must be a reference of the form output.<attr>, got %q" [FStr rng; FStr root])
    else match path with
         | [step] => traverseAttrName step rng
         | _ => Fail (Errorf "%s: expected output.<attr>, got %d path segments" [FStr rng; FInt (Z.of_nat (length traversal))])
         end
  | _ => Fail (relative_error rng)
  end.

Definition edge_input (from to : PortRef) (acc : list Edge * gset string) (b : Block) : outcome (list Edge * gset string) :=
  let '(edges, seen) := acc in
  name ← label0 b;
  if decide (name ∈ seen) then Fail (Errorf "%s: duplicate input %q on this edge" [FStr (bl_DefRange b); FStr name])
  else
    ic ← content (bl_DefRange b) (bl_Body b) edgeInputSchema;
    a ← get_attr ic "from";
    output ← parseRelativeOutputRef a;
    Ret (edges ++ [MkEdge (MkPortRef (pr_Entity from) (pr_Node from) PortOutput output)
                          (MkPortRef (pr_Entity to) (pr_Node to) PortInput name)],
         {[ name ]} ∪ seen).

Definition bare_sides_error (rng : string) (from to : PortRef) : error :=
  Errorf ("%s: an edge with nested " +:+ quoted "input" +:+ " blocks must reference bare nodes on both sides (node.<name> / use.<name>); each block's label and " +:+ quoted "from" +:+ " name the ports, got %s -> %s")
    [FStr rng; FStr (PortRef_String from); FStr (PortRef_String to)].

Definition parseEdgeInputs (block : Block) (inputs : list Block) (from to : PortRef) : outcome (list Edge) :=
  if IsPort from || IsPort to then Fail (bare_sides_error (bl_DefRange block) from to)
  else '(edges, _) ← foldO (edge_input from to) ([], ∅) inputs; Ret edges.

Definition mixed_error (rng : string) (from to : PortRef) : error :=
  Errorf ("%s: " +:+ quoted "from" +:+ " and " +:+ quoted "to" +:+ " must both reference specific ports (node.<name>.output.<attr> / node.<name>.input.<attr>) for a data edge, or both reference bare nodes (node.<name>) for an ordering-only edge; got %s -> %s")
    [FStr rng; FStr (PortRef_String from); FStr (PortRef_String to)].

(** [content.Blocks.OfType]. *)
Definition OfType (typ : string) (bs : list Block) : list Block := filter (λ b, bl_Type b = typ) bs.

Definition parseEdgeBlock (block : Block) : outcome (list Edge) :=
  c ← content (bl_DefRange block) (bl_Body block) edgeSchema;
  fromAttr ← get_attr c "from";
  from ← parseNodeOrPortRef fromAttr;
  toAttr ← get_attr c "to";
  to ← parseNodeOrPortRef toAttr;
  match OfType "input" (ct_Blocks c) with
  | (_ :: _) as inputs => parseEdgeInputs block inputs from to
  | [] =>
    if negb (Bool.eqb (IsPort from) (IsPort to)) then Fail (mixed_error (bl_DefRange block) from to)
    else if IsPort from && negb (bool_decide (pr_Kind from = PortOutput))
    then Fail (Errorf ("%s: " +:+ quoted "from" +:+ " must reference an output port (node.<name>.output.<attr>), got %s") [FStr (at_Range fromAttr); FStr (PortRef_String from)])
    else if IsPort from && negb (bool_decide (pr_Kind to = PortInput))
    then Fail (Errorf ("%s: " +:+ quoted "to" +:+ " must reference an input port (node.<name>.input.<attr>), got %s") [FStr (at_Range toAttr); FStr (PortRef_String to)])
    else Ret [MkEdge from to]
  end.

(** ** Plugin bindings (plugin_binding.go) *)

(** A literal list of strings, each accepted by [ok]. *)
Definition list_kind (v : Val) : bool := bool_decide (Kind v = KTuple) || bool_decide (Kind v = KList).

Definition add_name (ok : string → bool) (bad : error) (acc : list string) (v : Val) : outcome (list string) :=
  if IsNull v || negb (bool_decide (Kind v = KString)) then Fail bad
  else s ← deref (AsString v); if ok s then Ret (acc ++ [s]) else Fail bad.

Definition literal_list (e : Expr) (ok : string → bool) (not_list bad : error) (acc : list string) : outcome (list string) :=
  match Value e None with
  | Err _ => Fail not_list
  | Ok v => if IsNull v || negb (IsWhollyKnown v) || negb (list_kind v) then Fail not_list
            else foldO (add_name ok bad) acc (AsValueSlice v)
  end.

Definition binding_error (typ label : string) : error := Errorf "%s.%s.from: use plugin.alias.feature" [FStr typ; FStr label].

Definition binding_target (b : Block) (label : string) (e : Expr) : outcome (string * string) :=
  match AbsTraversalForExpr e with
  | Ok [TraverseRoot root; a; f] =>
    if decide (root = "plugin") then
      match a, f with
      | TraverseAttr a, TraverseAttr f => Ret (a, f)
      | _, _ => Fail (binding_error (bl_Type b) label)
      end
    else Fail (binding_error (bl_Type b) label)
  | _ => Fail (binding_error (bl_Type b) label)
  end.


Definition binding_environment (b : Block) (label : string) (c : BodyContent) : outcome (list string) :=
  optional c "environment" [] (λ a,
    if decide (bl_Type b ≠ "credential")
    then Fail (Errorf "input.%s: environment belongs in a credential binding" [FStr label])
    else literal_list (at_Expr a) CredentialEnvironmentAllowed
           (Errorf "credential.%s.environment: use a literal list" [FStr label])
           (Errorf "credential.%s.environment: only credential environment names are allowed; remove runtime-control variables" [FStr label]) []).

Definition add_binding (acc : bindings * bindings) (b : Block) : outcome (bindings * bindings) :=
  let '(inputs, credentials) := acc in
  c ← lift (Content (bl_Body b) bindingSchema);
  from ← get_attr c "from";
  label ← label0 b;
  '(alias, feature) ← binding_target b label (at_Expr from);
  refAttr ← get_attr c "ref";
  ref ← parseVarsAttr refAttr None;
  environment ← binding_environment b label c;
  let binding := MkBinding alias feature (map_to_list ref) environment in
  if decide (bl_Type b = "credential") then
    if bool_decide (environment = [])
    then Fail (Errorf "credential.%s.environment: explicitly allow the returned environment names" [FStr label])
    else if bool_decide (is_Some (credentials !! label)) then Fail (Errorf "%s.%s: duplicate binding" [FStr (bl_Type b); FStr label])
    else Ret (inputs, <[label := binding]> credentials)
  else if bool_decide (is_Some (inputs !! label)) then Fail (Errorf "%s.%s: duplicate binding" [FStr (bl_Type b); FStr label])
  else Ret (<[label := binding]> inputs, credentials).

Definition parsePluginBindings (blocks : list Block) : outcome (bindings * bindings) := foldO add_binding (∅, ∅) blocks.

(** ** Nodes and uses *)

Definition read_source (a : Attribute) : outcome string :=
  val ← wrap_out (λ d, Errorf "%s: source must be a literal string: %s" [FStr (at_Range a); FErr d]) (lift (Value (at_Expr a) None));
  _ ← guard_out (is_string val) (Errorf "%s: source must be a non-null string" [FStr (at_Range a)]);
  deref (AsString val).

Definition parseNodeBlock (evaluation : option EvalContext) (block : Block) : outcome Node :=
  c ← content (bl_DefRange block) (bl_Body block) nodeSchema;
  name ← label0 block;
  _ ← validateName "node" name (bl_DefRange block);
  sourceAttr ← get_attr c "source";
  source ← read_source sourceAttr;
  backendConfig ← optional c "backend_config" ∅ parseBackendConfig;
  vars ← optional c "vars" ∅ (λ a, parseVarsAttr a evaluation);
  runtime ← parseRuntimeRef c;
  env ← optional c "env" ∅ parseEnvAttr;
  approve ← parseApproveAttr c;
  backendAddress ← wrap_out (λ err, Errorf "node.%s: %w" [FStr name; FErr err]) (parse_address c);
  '(inputs, credentials) ← wrap_out (λ err, Errorf "node.%s: %w" [FStr name; FErr err]) (parsePluginBindings (ct_Blocks c));
  Ret (MkNode inputs credentials name source backendConfig backendAddress vars runtime env approve).

Definition parseUseBlock (evaluation : option EvalContext) (block : Block) : outcome Use :=
  c ← content (bl_DefRange block) (bl_Body block) useSchema;
  asAttr ← get_attr c "as";
  as_ ← literal_attr "as" asAttr;
  _ ← validateName "use instance" as_ (at_Range asAttr);
  sourceAttr ← get_attr c "source";
  source ← literal_attr "source" sourceAttr;
  runtime ← parseRuntimeRef c;
  env ← optional c "env" ∅ parseEnvAttr;
  vars ← optional c "vars" ∅ (λ a, parseVarsAttr a evaluation);
  approve ← parseApproveAttr c;
  backendConfig ← optional c "backend_config" ∅ parseBackendConfig;
  backendAddress ← wrap_out (λ err, Errorf "use.%s: %w" [FStr as_; FErr err]) (parse_address c);
  group ← label0 block;
  Ret (MkUse group as_ source runtime env vars approve backendConfig backendAddress).

(** ** Exports *)

Definition export_error (rng : string) (format : string) (name : string) (ref : PortRef) : error :=
  Errorf format [FStr rng; FStr name; FStr (PortRef_String ref)].

Definition input_target (rng name : string) (ref : PortRef) : outcome unit :=
  guard_out (bool_decide (pr_Kind ref = PortInput)) (export_error rng "%s: export input %q must map to input port(s), got %s" name ref).

Record exportState := MkExportState { es_export : Export; es_inputs : gset string; es_outputs : gset string }.

Definition parse_export_input (st : exportState) (b : Block) (name : string) : outcome exportState :=
  if decide (name ∈ es_inputs st) then Fail (Errorf "%s: duplicate export input %q" [FStr (bl_DefRange b); FStr name])
  else
    ic ← content (bl_DefRange b) (bl_Body b) exportInputSchema;
    toAttr ← get_attr ic "to";
    refs ← parsePortRefList toAttr;
    _ ← foldO (λ _ ref, input_target (at_Range toAttr) name ref) tt refs;
    Ret (MkExportState (MkExport (ex_Inputs (es_export st) ++ [MkExportInput name refs]) (ex_Outputs (es_export st)))
           ({[ name ]} ∪ es_inputs st) (es_outputs st)).

Definition parse_export_output (st : exportState) (b : Block) (name : string) : outcome exportState :=
  if decide (name ∈ es_outputs st) then Fail (Errorf "%s: duplicate export output %q" [FStr (bl_DefRange b); FStr name])
  else
    oc ← content (bl_DefRange b) (bl_Body b) exportOutputSchema;
    fromAttr ← get_attr oc "from";
    ref ← parseNodeOrPortRef fromAttr;
    if negb (IsPort ref) || negb (bool_decide (pr_Kind ref = PortOutput))
    then Fail (export_error (at_Range fromAttr) "%s: export output %q must map to an output port, got %s" name ref)
    else Ret (MkExportState (MkExport (ex_Inputs (es_export st)) (ex_Outputs (es_export st) ++ [MkExportOutput name ref]))
                (es_inputs st) ({[ name ]} ∪ es_outputs st)).

Definition export_block (st : exportState) (b : Block) : outcome exportState :=
  if decide (bl_Type b = "input") then name ← label0 b; parse_export_input st b name
  else if decide (bl_Type b = "output") then name ← label0 b; parse_export_output st b name
  else Ret st.

Definition parseExportBlock (block : Block) : outcome Export :=
  c ← content (bl_DefRange block) (bl_Body block) exportBodySchema;
  st ← foldO export_block (MkExportState (MkExport [] []) ∅ ∅) (ct_Blocks c);
  Ret (es_export st).

(** ** Contracts (parse_block_contracts.go) *)

Definition attrTypeError (role kind name attr : string) (v : Val) (want : string) : error :=
  Errorf "contract.%s.%s.%s: %s must be %s, got %s" [FStr role; FStr kind; FStr name; FStr attr; FStr want; FStr (FriendlyName v)].

Definition type_error (role kind name : string) (d : error) : error :=
  Errorf "contract.%s.%s.%s: type must be a Terraform type constraint: %s" [FStr role; FStr kind; FStr name; FErr d].

(** A type written as a string is parsed again as an expression. *)
Definition contract_type (role kind name : string) (a : Attribute) : outcome string :=
  expr ← (match Value (at_Expr a) None with
          | Ok val => if is_string val
                      then s ← deref (AsString val); wrap_out (type_error role kind name) (lift (ParseExpression s (at_Range a)))
                      else Ret (at_Expr a)
          | Err _ => Ret (at_Expr a)
          end);
  typ ← wrap_out (type_error role kind name) (lift (TypeConstraint expr));
  Ret (constraintString typ).

Definition contract_attr (rng role kind name : string) (pc : PortContract) (kv : string * Attribute) : outcome PortContract :=
  let a := kv.2 in
  if decide (at_Name a = "type") then
    typ ← contract_type role kind name a;
    Ret (MkPortContract (pc_Name pc) (pc_Scope pc) typ (pc_Nullable pc) (pc_Sensitive pc))
  else
    val ← wrap_out (λ d, Errorf "%s: %s" [FStr rng; FErr d]) (lift (Value (at_Expr a) None));
    if mem (at_Name a) ["nullable"; "sensitive"] then
      if IsNull val || negb (IsKnown val) || negb (bool_decide (Kind val = KBool))
      then Fail (attrTypeError role kind name (at_Name a) val "a bool")
      else b ← deref (True_ val);
           Ret (if decide (at_Name a = "nullable")
                then MkPortContract (pc_Name pc) (pc_Scope pc) (pc_Type pc) (Some b) (pc_Sensitive pc)
                else MkPortContract (pc_Name pc) (pc_Scope pc) (pc_Type pc) (pc_Nullable pc) (Some b))
    else Ret pc.

Definition parsePortContract (port : Block) (role kind scope name : string) : outcome PortContract :=
  c ← content (bl_DefRange port) (bl_Body port) portContractSchema;
  foldO (contract_attr (bl_DefRange port) role kind name) (MkPortContract name scope "" None None) (range (ct_Attributes c)).

Record sideState := MkSideState { ss_dir : DirContracts; ss_seen : gset string }.

Definition with_port (role name : string) (pc : PortContract) (dc : DirContracts) : DirContracts :=
  if decide (role = "consumer")
  then MkDirContracts (dc_Scope dc) (dc_Dir dc) (dc_Producer dc) (<[name := pc]> (dc_Consumer dc))
  else MkDirContracts (dc_Scope dc) (dc_Dir dc) (<[name := pc]> (dc_Producer dc)) (dc_Consumer dc).

Definition contract_port (role scope dir : string) (st : sideState) (port : Block) : outcome sideState :=
  name ← label0 port;
  let kind := if decide (role = "consumer") then "input" else "output" in
  let owner := if decide (role = "consumer") then "producer" else "consumer" in
  if decide (bl_Type port ≠ kind) then
    Fail (Errorf "%s: contract.%s.%s: %s blocks belong in a %s block; move %q"
            [FStr (bl_DefRange port); FStr role; FStr scope; FStr (bl_Type port); FStr owner; FStr name])
  else
    let key := role +:+ " " +:+ dir +:+ " " +:+ name in
    if decide (key ∈ ss_seen st) then
      Fail (Errorf "%s: contract.%s.%s.%s declared more than once across merged files; remove one"
              [FStr (bl_DefRange port); FStr role; FStr kind; FStr name])
    else
      pc ← parsePortContract port role kind scope name;
      Ret (MkSideState (with_port role name pc (ss_dir st)) ({[ key ]} ∪ ss_seen st)).

Definition parseContractSideBlock (baseDir : string) (acc : Contracts * gset string) (block : Block) :
    outcome (Contracts * gset string) :=
  let '(contracts, seen) := acc in
  let role := bl_Type block in
  scope ← label0 block;
  if decide (scope = "") then Fail (Errorf "%s: contract %s source must not be empty" [FStr (bl_DefRange block); FStr role])
  else if isAbsoluteAnywhere scope then
    Fail (Errorf ("%s: contract.%s.%s: source must be a relative path like " +:+ dquote +:+ "./modules/vpc" +:+ dquote +:+ " or a remote module source, got %q")
            [FStr (bl_DefRange block); FStr role; FStr scope; FStr scope])
  else
    let dir := if has_prefix scope "./" || has_prefix scope "../" then Clean (Join [baseDir; scope]) else scope in
    let dc := default (MkDirContracts scope dir ∅ ∅) (contracts !! dir) in
    side ← content (bl_DefRange block) (bl_Body block) contractsSideSchema;
    st ← foldO (contract_port role scope dir) (MkSideState dc seen) (ct_Blocks side);
    Ret (<[dir := ss_dir st]> contracts, ss_seen st).

(** ** Endpoints *)

Definition validateEndpointKnown (ref : PortRef) (seenNodes seenUses : gset string) : outcome unit :=
  if decide (pr_Entity ref = EntityUse)
  then guard_out (bool_decide (pr_Node ref ∈ seenUses))
         (Errorf "reference to unknown use instance %q in %s" [FStr (pr_Node ref); FStr (PortRef_String ref)])
  else guard_out (bool_decide (pr_Node ref ∈ seenNodes))
         (Errorf "reference to unknown node %q in %s" [FStr (pr_Node ref); FStr (PortRef_String ref)]).

Definition edge_known (seenNodes seenUses : gset string) (e : Edge) : outcome unit :=
  _ ← validateEndpointKnown (e_From e) seenNodes seenUses; validateEndpointKnown (e_To e) seenNodes seenUses.

(** ** Groups *)

Record groupState := MkGroupState {
  gs_group : Group;
  gs_nodes : gset string;
  gs_uses : gset string;
  gs_ports : gset string;
  gs_sawExport : bool;
}.

Definition group_in (name : string) (format : string) (rng inner : string) : error :=
  Errorf format [FStr rng; FStr inner; FStr name].

Definition group_block (baseDir : string) (evaluation : option EvalContext) (st : groupState) (b : Block) : outcome groupState :=
  let '(MkGroupState g nodes uses ports saw) := st in
  if decide (bl_Type b = "node") then
    n ← parseNodeBlock evaluation b;
    if decide (bn_Name n ∈ nodes) then Fail (group_in (gr_Name g) "%s: duplicate node %q in group %q" (bl_DefRange b) (bn_Name n))
    else Ret (MkGroupState (MkGroup (gr_Name g) (gr_Nodes g ++ [n]) (gr_Edges g) (gr_Uses g) (gr_Export g) (gr_Contracts g))
                ({[ bn_Name n ]} ∪ nodes) uses ports saw)
  else if decide (bl_Type b = "edge") then
    edges ← parseEdgeBlock b;
    Ret (MkGroupState (MkGroup (gr_Name g) (gr_Nodes g) (gr_Edges g ++ edges) (gr_Uses g) (gr_Export g) (gr_Contracts g)) nodes uses ports saw)
  else if decide (bl_Type b = "use") then
    u ← parseUseBlock evaluation b;
    if decide (u_As u ∈ uses) then Fail (group_in (gr_Name g) "%s: duplicate use instance name %q in group %q" (bl_DefRange b) (u_As u))
    else Ret (MkGroupState (MkGroup (gr_Name g) (gr_Nodes g) (gr_Edges g) (gr_Uses g ++ [u]) (gr_Export g) (gr_Contracts g))
                nodes ({[ u_As u ]} ∪ uses) ports saw)
  else if mem (bl_Type b) ["producer"; "consumer"] then
    '(contracts, ports) ← parseContractSideBlock baseDir (default ∅ (gr_Contracts g), ports) b;
    Ret (MkGroupState (MkGroup (gr_Name g) (gr_Nodes g) (gr_Edges g) (gr_Uses g) (gr_Export g) (Some contracts)) nodes uses ports saw)
  else if decide (bl_Type b = "export") then
    if saw : bool then Fail (Errorf "%s: group %q has more than one export block" [FStr (bl_DefRange b); FStr (gr_Name g)])
    else exp ← parseExportBlock b;
         Ret (MkGroupState (MkGroup (gr_Name g) (gr_Nodes g) (gr_Edges g) (gr_Uses g) exp (gr_Contracts g)) nodes uses ports true)
  else Ret st.

Definition in_group (name : string) (err : error) : error := Errorf "group %q: %w" [FStr name; FErr err].
Definition in_export (name format inner : string) (err : error) : error := Errorf format [FStr name; FStr inner; FErr err].

Definition export_input_known (st : groupState) (i : ExportInput) : outcome unit :=
  foldO (λ _ ref, wrap_out (in_export (gr_Name (gs_group st)) "group %q: export input %q: %w" (ei_Name i))
                    (validateEndpointKnown ref (gs_nodes st) (gs_uses st))) tt (ei_To i).

Definition export_output_known (st : groupState) (o : ExportOutput) : outcome unit :=
  wrap_out (in_export (gr_Name (gs_group st)) "group %q: export output %q: %w" (eo_Name o))
    (validateEndpointKnown (eo_From o) (gs_nodes st) (gs_uses st)).

Definition group_edge_known (st : groupState) (e : Edge) : outcome unit :=
  wrap_out (in_group (gr_Name (gs_group st))) (edge_known (gs_nodes st) (gs_uses st) e).

Definition parseGroupBlock (baseDir : string) (evaluation : option EvalContext) (block : Block) : outcome Group :=
  c ← content (bl_DefRange block) (bl_Body block) groupBodySchema;
  name ← label0 block;
  _ ← validateName "group" name (bl_DefRange block);
  st ← foldO (group_block baseDir evaluation)
         (MkGroupState (MkGroup name [] [] [] (MkExport [] []) None) ∅ ∅ ∅ false) (ct_Blocks c);
  _ ← foldO (λ _ e, group_edge_known st e) tt (gr_Edges (gs_group st));
  _ ← foldO (λ _ i, export_input_known st i) tt (ex_Inputs (gr_Export (gs_group st)));
  _ ← foldO (λ _ o, export_output_known st o) tt (ex_Outputs (gr_Export (gs_group st)));
  Ret (gs_group st).

(** ** Settings blocks *)

Definition parseVendorBlock (block : Block) : outcome VendorConfig :=
  c ← content (bl_DefRange block) (bl_Body block) vendorSchema;
  directory ← optional c "directory" "" (literal_attr "directory");
  manifest ← optional c "manifest_file" "" (literal_attr "manifest_file");
  Ret (MkVendorConfig directory manifest).

Definition check_location (a : Attribute) (loc : string) : outcome string :=
  if mem loc [TFVarsLocationWorkdir; TFVarsLocationModule] then Ret loc
  else Fail (Errorf "%s: location must be %q or %q, got %q"
               [FStr (at_Range a); FStr TFVarsLocationWorkdir; FStr TFVarsLocationModule; FStr loc]).

(** The block's location, empty when it sets none. *)
Definition parseTFVarsBlock (block : Block) : outcome string :=
  c ← content (bl_DefRange block) (bl_Body block) tfvarsSchema;
  optional c "location" "" (λ a, loc ← literal_attr "location" a; check_location a loc).

Definition parseContractsBlock (block : Block) : outcome string :=
  c ← content (bl_DefRange block) (bl_Body block) contractsModeSchema;
  a ← get_attr c "mode";
  mode ← literal_attr "mode" a;
  if mem mode ["warn"; "enforce"] then Ret mode
  else Fail (Errorf "%s: mode must be warn or enforce; legacy and warn were always one behavior, got %q" [FStr (at_Range a); FStr mode]).

(** The block's presence is its whole configuration. *)
Definition parseSnapshotsBlock (block : Block) : outcome bool :=
  _ ← content (bl_DefRange block) (bl_Body block) emptySchema; Ret true.

Definition lock_field (name : string) (c : BodyContent) : outcome string :=
  a ← get_attr c name;
  s ← literal_string (at_Expr a) (Errorf "%s: %s must be a literal string" [FStr (at_Range a); FStr name]);
  if decide (s = "") then Fail (Errorf "%s: %s must not be empty" [FStr (at_Range a); FStr name]) else Ret s.

Definition parseLockS3Block (block : Block) : outcome S3Lock :=
  c ← content (bl_DefRange block) (bl_Body block) lockS3Schema;
  bucket ← lock_field "bucket" c;
  key ← lock_field "key" c;
  region ← lock_field "region" c;
  Ret (MkS3Lock bucket key region).

Definition one_backend_error (block : Block) : error :=
  Errorf "%s: lock block must contain exactly one nested backend" [FStr (bl_DefRange block)].

Definition unknown_backend (rng typ : string) : error := Errorf "%s: lock: unknown backend type %q" [FStr rng; FStr typ].

Definition one_backend (block : Block) (s3Blocks : list Block) : outcome Lock :=
  match s3Blocks with
  | [b] => s3 ← parseLockS3Block b; Ret (MkLock (Some s3))
  | _ => Fail (one_backend_error block)
  end.

Definition lock_block_known (rb : string * Block) : outcome unit :=
  guard_out (bool_decide (bl_Type rb.2 = "s3")) (unknown_backend rb.1 (bl_Type rb.2)).

Definition parseLockSyntaxBody (block : Block) (attrs : gmap string string) (blocks : list (string * Block)) : outcome Lock :=
  match range attrs with
  | (name, rng) :: _ => Fail (Errorf "%s: unexpected attribute %q" [FStr rng; FStr name])
  | [] => _ ← foldO (λ _ b, lock_block_known b) tt blocks; one_backend block blocks.*2
  end.

Definition unsupportedBlockType (d : HclDiagnostic) : string :=
  let prefix := "Blocks of type " +:+ dquote in
  if negb (has_prefix (hd_Detail d) prefix) then "unknown"
  else let '(before, _, found) := cut dquote_char (String.substring (String.length prefix) (String.length (hd_Detail d)) (hd_Detail d)) in
       if found then before else "unknown".

Definition unsupported_block (d : HclDiagnostic) : option error :=
  match hd_Subject d with
  | Some rng => if decide (hd_Summary d = "Unsupported block type") then Some (unknown_backend rng (unsupportedBlockType d)) else None
  | None => None
  end.

(** A body that is not native syntax. *)
Definition parse_lock_partial (block : Block) : outcome Lock :=
  '(c, remain) ← wrap_out (λ d, Errorf "%s: %s" [FStr (bl_DefRange block); FErr d]) (lift (PartialContent (bl_Body block) lockSchema));
  _ ← (match remain with
       | None => Ret tt
       | Some body =>
         match Content body emptySchema with
         | Ok _ => Ret tt
         | Err d =>
           match omap unsupported_block (ContentDiags body emptySchema) with
           | e :: _ => Fail e
           | [] => Fail (Errorf "%s: %s" [FStr (bl_DefRange block); FErr d])
           end
         end
       end);
  one_backend block (ct_Blocks c).

Definition parseLockBlock (block : Block) : outcome Lock :=
  match SyntaxBody (bl_Body block) with
  | Some (attrs, blocks) => parseLockSyntaxBody block attrs blocks
  | None => parse_lock_partial block
  end.

Definition parseRuntimeBlock (block : Block) : outcome Runtime :=
  c ← content (bl_DefRange block) (bl_Body block) runtimeSchema;
  name ← label0 block;
  _ ← validateName "runtime" name (bl_DefRange block);
  binaryAttr ← get_attr c "binary";
  binary ← literal_attr "binary" binaryAttr;
  if decide (binary = "") then Fail (Errorf "%s: binary must not be empty" [FStr (at_Range binaryAttr)])
  else
    version ← optional c "version" "" (literal_attr "version");
    default_ ← optional c "default" false (λ a,
      match Value (at_Expr a) None with
      | Ok val => if decide (Kind val = KBool) then deref (True_ val)
                  else Fail (Errorf "%s: default must be a literal bool" [FStr (at_Range a)])
      | Err _ => Fail (Errorf "%s: default must be a literal bool" [FStr (at_Range a)])
      end);
    Ret (MkRuntime name binary version default_).

(** The attributes of an execution block, each a non-empty literal string. *)
Definition execution_value (m : gmap string string) (kv : string * Attribute) : outcome (gmap string string) :=
  let bad := Errorf "%s: execution.%s must be a non-empty literal string" [FStr (at_Range kv.2); FStr kv.1] in
  s ← literal_string (at_Expr kv.2) bad;
  if decide (s = "") then Fail bad else Ret (<[kv.1 := s]> m).

Definition parse_execution (block : Block) : outcome ExecutionConfig :=
  c ← wrap_out (λ d, Errorf "execution: %w" [FErr d]) (lift (Content (bl_Body block) executionSchema));
  values ← foldO execution_value ∅ (range (ct_Attributes c));
  lift (parseExecutionBlock ParseDuration values).

(** ** Plugin declarations (plugins.go) *)

Definition plugin_field (name : string) (body : BodyContent) (fields : gmap string string) (kv : string * unit) :
    outcome (gmap string string) :=
  let key := kv.1 in
  a ← get_attr body key;
  s ← literal_string (at_Expr a) (Errorf "plugin.%s.%s: must be a literal string" [FStr name; FStr key]);
  if decide (s = "") then Fail (Errorf "plugin.%s.%s: must not be empty" [FStr name; FStr key])
  else Ret (<[key := s]> fields).

Definition feature_modes : list string := ["enforce"; "advisory"; "best_effort"].
Definition max_feature_timeout : Z := 300000000000.

Definition feature_attr (plugin name : string) (f : PluginFeature) (kv : string * Attribute) : outcome PluginFeature :=
  let '(key, a) := kv in
  s ← literal_string (at_Expr a) (Errorf "plugin.%s.feature.%s.%s: must be a literal string" [FStr plugin; FStr name; FStr key]);
  if decide (key = "mode") then
    if mem s feature_modes then Ret (MkFeature s (pf_Timeout f))
    else Fail (Errorf "plugin.%s.feature.%s: invalid mode" [FStr plugin; FStr name])
  else
    let bad := Errorf "plugin.%s.feature.%s.timeout: use a duration greater than zero and at most 5m" [FStr plugin; FStr name] in
    match ParseDuration s with
    | Ok d => if bool_decide (d <= 0)%Z || bool_decide (max_feature_timeout < d)%Z then Fail bad else Ret (MkFeature (pf_Mode f) d)
    | Err _ => Fail bad
    end.

Definition plugin_feature (p : PluginConfig) (b : Block) : outcome PluginConfig :=
  c ← wrap_out (λ d, Errorf "plugin.%s.feature: %w" [FStr (pg_Name p); FErr d]) (lift (Content (bl_Body b) featureSchema));
  name ← label0 b;
  if bool_decide (is_Some (pg_Features p !! name)) then Fail (Errorf "plugin.%s.feature.%s: duplicate feature" [FStr (pg_Name p); FStr name])
  else
    f ← foldO (feature_attr (pg_Name p) name) (MkFeature "" 0) (range (ct_Attributes c));
    Ret (MkPluginConfig (pg_Name p) (pg_Source p) (pg_Version p) (pg_Config p) (<[name := f]> (pg_Features p)) (pg_Environment p) (pg_PlanAccess p)).

Definition plan_access (plugin : string) (a : Attribute) : outcome bool :=
  let bad := Errorf "plugin.%s.access.plan: use a literal boolean" [FStr plugin] in
  match Value (at_Expr a) None with
  | Ok v => if IsNull v || negb (IsKnown v) || negb (bool_decide (Kind v = KBool)) then Fail bad else deref (True_ v)
  | Err _ => Fail bad
  end.

Definition plugin_access (p : PluginConfig) (b : Block) : outcome PluginConfig :=
  match pg_Environment p with
  | Some _ => Fail (Errorf "plugin.%s.access: duplicate block" [FStr (pg_Name p)])
  | None =>
    c ← wrap_out (λ d, Errorf "plugin.%s.access: %w" [FStr (pg_Name p); FErr d]) (lift (Content (bl_Body b) accessSchema));
    environment ← optional c "environment" [] (λ a,
      literal_list (at_Expr a) environment_name
        (Errorf "plugin.%s.access.environment: use a literal list of environment names" [FStr (pg_Name p)])
        (Errorf "plugin.%s.access.environment: invalid environment name" [FStr (pg_Name p)]) []);
    access ← optional c "plan" (pg_PlanAccess p) (plan_access (pg_Name p));
    Ret (MkPluginConfig (pg_Name p) (pg_Source p) (pg_Version p) (pg_Config p) (pg_Features p) (Some environment) access)
  end.

Definition plugin_block (p : PluginConfig) (b : Block) : outcome PluginConfig :=
  if decide (bl_Type b = "feature") then plugin_feature p b
  else if decide (bl_Type b = "access") then plugin_access p b else Ret p.

Definition plugin_strings : gmap string unit := list_to_map [("source", tt); ("version", tt)].

Definition parsePluginBlock (block : Block) : outcome PluginConfig :=
  name ← label0 block;
  if negb (plugin_alias name) then Fail (Errorf "plugin.%s: alias must use lowercase letters, digits and underscores" [FStr name])
  else
    body ← wrap_out (λ d, Errorf "plugin.%s: %w" [FStr name; FErr d]) (lift (Content (bl_Body block) pluginSchema));
    fields ← foldO (plugin_field name body) ∅ (range plugin_strings);
    config ← optional body "config" ∅ (λ a, wrap_out (λ err, Errorf "plugin.%s.config: %w" [FStr name; FErr err]) (parseVarsAttr a None));
    foldO plugin_block
      (MkPluginConfig name (default "" (fields !! "source")) (default "" (fields !! "version")) config ∅ None false)
      (ct_Blocks body).

(** ** Whole files (parse.go) *)

Record pstate := MkPState {
  ps_bp : Blueprint;
  ps_Plugins : list PluginConfig;
  ps_nodes : gset string;
  ps_groups : gset string;
  ps_uses : gset string;
  ps_runtimes : gset string;
  ps_ports : gset string;
}.

Definition empty_blueprint : Blueprint := MkBlueprint None [] [] [] [] None None None [] "" None None.
Definition init_pstate : pstate := MkPState empty_blueprint [] ∅ ∅ ∅ ∅ ∅.

Definition with_bp (st : pstate) (bp : Blueprint) : pstate :=
  MkPState bp (ps_Plugins st) (ps_nodes st) (ps_groups st) (ps_uses st) (ps_runtimes st) (ps_ports st).

Definition add_plugin (st : pstate) (p : PluginConfig) : pstate :=
  MkPState (ps_bp st) (ps_Plugins st ++ [p]) (ps_nodes st) (ps_groups st) (ps_uses st) (ps_runtimes st) (ps_ports st).

Definition see_node (st : pstate) (n : Node) : pstate :=
  let '(MkBlueprint x ns es gs us v t l rs m c sn) := ps_bp st in
  MkPState (MkBlueprint x (ns ++ [n]) es gs us v t l rs m c sn) (ps_Plugins st) ({[ bn_Name n ]} ∪ ps_nodes st) (ps_groups st)
    (ps_uses st) (ps_runtimes st) (ps_ports st).
Definition see_edges (st : pstate) (edges : list Edge) : pstate :=
  let '(MkBlueprint x ns es gs us v t l rs m c sn) := ps_bp st in
  with_bp st (MkBlueprint x ns (es ++ edges) gs us v t l rs m c sn).
Definition see_group (st : pstate) (g : Group) : pstate :=
  let '(MkBlueprint x ns es gs us v t l rs m c sn) := ps_bp st in
  MkPState (MkBlueprint x ns es (gs ++ [g]) us v t l rs m c sn) (ps_Plugins st) (ps_nodes st) ({[ gr_Name g ]} ∪ ps_groups st)
    (ps_uses st) (ps_runtimes st) (ps_ports st).
Definition see_use (st : pstate) (u : Use) : pstate :=
  let '(MkBlueprint x ns es gs us v t l rs m c sn) := ps_bp st in
  MkPState (MkBlueprint x ns es gs (us ++ [u]) v t l rs m c sn) (ps_Plugins st) (ps_nodes st) (ps_groups st)
    ({[ u_As u ]} ∪ ps_uses st) (ps_runtimes st) (ps_ports st).
Definition see_runtime (st : pstate) (r : Runtime) : pstate :=
  let '(MkBlueprint x ns es gs us v t l rs m c sn) := ps_bp st in
  MkPState (MkBlueprint x ns es gs us v t l (rs ++ [r]) m c sn) (ps_Plugins st) (ps_nodes st) (ps_groups st)
    (ps_uses st) ({[ rt_Name r ]} ∪ ps_runtimes st) (ps_ports st).
Definition see_contracts (st : pstate) (c : Contracts) (ports : gset string) : pstate :=
  let '(MkBlueprint x ns es gs us v t l rs m _ sn) := ps_bp st in
  MkPState (MkBlueprint x ns es gs us v t l rs m (Some c) sn) (ps_Plugins st) (ps_nodes st) (ps_groups st)
    (ps_uses st) (ps_runtimes st) ports.

Definition set_vendor (bp : Blueprint) (v : VendorConfig) : Blueprint :=
  let '(MkBlueprint x ns es gs us _ t l rs m c sn) := bp in MkBlueprint x ns es gs us (Some v) t l rs m c sn.
Definition set_tfvars (bp : Blueprint) (t : string) : Blueprint :=
  let '(MkBlueprint x ns es gs us v _ l rs m c sn) := bp in MkBlueprint x ns es gs us v (Some t) l rs m c sn.
Definition set_lock (bp : Blueprint) (l : Lock) : Blueprint :=
  let '(MkBlueprint x ns es gs us v t _ rs m c sn) := bp in MkBlueprint x ns es gs us v t (Some l) rs m c sn.
Definition set_mode (bp : Blueprint) (m : string) : Blueprint :=
  let '(MkBlueprint x ns es gs us v t l rs _ c sn) := bp in MkBlueprint x ns es gs us v t l rs m c sn.
Definition set_execution (bp : Blueprint) (x : ExecutionConfig) : Blueprint :=
  let '(MkBlueprint _ ns es gs us v t l rs m c sn) := bp in MkBlueprint (Some x) ns es gs us v t l rs m c sn.
Definition set_snapshots (bp : Blueprint) (b : bool) : Blueprint :=
  let '(MkBlueprint x ns es gs us v t l rs m c _) := bp in MkBlueprint x ns es gs us v t l rs m c (Some b).

Definition duplicate_named (format : string) (b : Block) (name : string) : error := Errorf format [FStr (bl_DefRange b); FStr name].
Definition duplicate_block (what : string) (b : Block) : error := Errorf ("%s: duplicate " +:+ what +:+ " block") [FStr (bl_DefRange b)].

(** A block allowed once: the test comes before it is parsed. *)
Definition once {A} (taken : bool) (dup : error) (parse : outcome A) : outcome A := if taken then Fail dup else parse.

Definition is_set {A} (o : option A) : bool := match o with Some _ => true | None => false end.

Definition top_block (baseDir : string) (evaluation : option EvalContext) (st : pstate) (b : Block) : outcome pstate :=
  let typ := bl_Type b in
  let bp := ps_bp st in
  if decide (typ = "plugin") then
    config ← parsePluginBlock b;
    if mem (pg_Name config) (pg_Name <$> ps_Plugins st) then Fail (Errorf "plugin.%s: duplicate declaration" [FStr (pg_Name config)])
    else Ret (add_plugin st config)
  else if decide (typ = "node") then
    node ← parseNodeBlock evaluation b;
    if decide (bn_Name node ∈ ps_nodes st) then Fail (duplicate_named "%s: duplicate node %q" b (bn_Name node)) else Ret (see_node st node)
  else if decide (typ = "edge") then edges ← parseEdgeBlock b; Ret (see_edges st edges)
  else if decide (typ = "group") then
    group ← parseGroupBlock baseDir evaluation b;
    if decide (gr_Name group ∈ ps_groups st) then Fail (duplicate_named "%s: duplicate group %q" b (gr_Name group)) else Ret (see_group st group)
  else if decide (typ = "use") then
    use ← parseUseBlock evaluation b;
    if decide (u_As use ∈ ps_uses st) then Fail (duplicate_named "%s: duplicate use instance name %q" b (u_As use)) else Ret (see_use st use)
  else if decide (typ = "vendor") then
    v ← once (is_set (bp_Vendor bp)) (duplicate_block "vendor" b) (parseVendorBlock b); Ret (with_bp st (set_vendor bp v))
  else if decide (typ = "tfvars") then
    t ← once (is_set (bp_TFVars bp)) (duplicate_block "tfvars" b) (parseTFVarsBlock b); Ret (with_bp st (set_tfvars bp t))
  else if decide (typ = "lock") then
    l ← once (is_set (bp_Lock bp)) (duplicate_block "lock" b) (parseLockBlock b); Ret (with_bp st (set_lock bp l))
  else if decide (typ = "runtime") then
    rt ← parseRuntimeBlock b;
    if decide (rt_Name rt ∈ ps_runtimes st) then Fail (duplicate_named "%s: duplicate runtime %q" b (rt_Name rt)) else Ret (see_runtime st rt)
  else if mem typ ["producer"; "consumer"] then
    '(c, ports) ← parseContractSideBlock baseDir (default ∅ (bp_Contracts bp), ps_ports st) b; Ret (see_contracts st c ports)
  else if decide (typ = "contracts") then
    m ← once (negb (bool_decide (bp_ContractMode bp = ""))) (duplicate_block "contracts" b) (parseContractsBlock b);
    Ret (with_bp st (set_mode bp m))
  else if decide (typ = "execution") then
    x ← once (is_set (bp_Execution bp)) (duplicate_block "execution" b) (parse_execution b); Ret (with_bp st (set_execution bp x))
  else if decide (typ = "snapshots") then
    sn ← once (is_set (bp_Snapshots bp)) (duplicate_block "snapshots" b) (parseSnapshotsBlock b); Ret (with_bp st (set_snapshots bp sn))
  else Ret st.

(** ** Checks of a merged scope *)

Definition validateEdges (bp : Blueprint) (seenNodes seenUses : gset string) : outcome unit :=
  foldO (λ _ e, edge_known seenNodes seenUses e) tt (bp_Edges bp).

Definition checkRef (bp : Blueprint) (kind owner ref : string) : outcome unit :=
  if decide (ref = "") then Ret tt
  else guard_out (is_set (RuntimeByName bp ref)) (Errorf "%s %q: runtime.%s is not declared in this blueprint" [FStr kind; FStr owner; FStr ref]).

Definition check_node_runtime (bp : Blueprint) (owner : string → string) (n : Node) : outcome unit :=
  checkRef bp "node" (owner (bn_Name n)) (bn_Runtime n).
Definition check_use_runtime (bp : Blueprint) (owner : string → string) (u : Use) : outcome unit :=
  checkRef bp "use" (owner (u_As u)) (u_Runtime u).

Definition scope_runtimes (bp : Blueprint) (owner : string → string) (ns : list Node) (us : list Use) : outcome unit :=
  _ ← foldO (λ _ n, check_node_runtime bp owner n) tt ns; foldO (λ _ u, check_use_runtime bp owner u) tt us.

Definition group_runtimes (bp : Blueprint) (g : Group) : outcome unit :=
  scope_runtimes bp (λ name, gr_Name g +:+ "." +:+ name) (gr_Nodes g) (gr_Uses g).

Definition validateRuntimes (bp : Blueprint) : outcome unit :=
  let defaults := length (filter (λ rt, rt_Default rt = true) (bp_Runtimes bp)) in
  if Nat.ltb 1 defaults
  then Fail (Errorf "blueprint declares %d runtime blocks with default = true; at most one is allowed" [FInt (Z.of_nat defaults)])
  else _ ← scope_runtimes bp (λ name, name) (bp_Nodes bp) (bp_Uses bp);
       foldO (λ _ g, group_runtimes bp g) tt (bp_Groups bp).

Definition validate_merged (st : pstate) : outcome (Blueprint * list PluginConfig) :=
  _ ← validateEdges (ps_bp st) (ps_nodes st) (ps_uses st);
  _ ← validateRuntimes (ps_bp st);
  _ ← lift (validateExecutionConfig (ps_bp st));
  Ret (ps_bp st, ps_Plugins st).

(** ** Files and directories *)

Record BlueprintFS := MkBlueprintFS {
  fs_Stat : string → result bool;                        (** [os.Stat], and whether it is a directory *)
  fs_ReadDir : string → result (list (string * bool));   (** [os.ReadDir], in lexical order, with IsDir *)
  fs_ReadFile : string → result string;
  fs_ParseHCL : string → string → result Body;           (** source and file name *)
  fs_Abs : string → result string;
}.

Section Files.
Context (fs : BlueprintFS) (evaluation : option EvalContext).

Definition parseOneFile (path : string) (st : pstate) : outcome pstate :=
  src ← wrap_out (λ err, Errorf "reading blueprint file: %w" [FErr err]) (lift (fs_ReadFile fs path));
  baseDir ← wrap_out (λ err, Errorf "resolving blueprint directory: %w" [FErr err]) (lift (fs_Abs fs (Dir path)));
  body ← wrap_out (λ d, Errorf "parsing blueprint file: %w" [FErr d]) (lift (fs_ParseHCL fs src path));
  c ← wrap_out (λ d, Errorf "reading blueprint file: %w" [FErr d]) (lift (Content body topSchema));
  foldO (top_block baseDir evaluation) st (ct_Blocks c).

Definition ParseFile (path : string) : outcome (Blueprint * list PluginConfig) :=
  st ← parseOneFile path init_pstate; validate_merged st.

Definition eligible (e : string * bool) : bool := negb e.2 && IsBlueprintFilename e.1.

Definition blueprint_files (dir : string) (entries : list (string * bool)) : list string :=
  (λ e, Join [dir; e.1]) <$> filter (λ e, eligible e = true) entries.

Definition parseDir (dir : string) : outcome (Blueprint * list PluginConfig * nat) :=
  entries ← wrap_out (λ err, Errorf "reading blueprint directory: %w" [FErr err]) (lift (fs_ReadDir fs dir));
  let files := blueprint_files dir entries in
  st ← foldO (λ st path, parseOneFile path st) init_pstate files;
  bp ← validate_merged st;
  Ret (bp, length files).

Definition ParseDir (dir : string) : outcome (Blueprint * list PluginConfig) := '(bp, _) ← parseDir dir; Ret bp.

Definition no_configuration (path : string) : error :=
  Errorf "blueprint directory %q: no configuration files; add a .hcl file or use --blueprint to select a file or directory" [FStr path].

Definition LoadPath (path : string) : outcome (Blueprint * list PluginConfig * string) :=
  is_dir ← wrap_out (λ err, Errorf "resolving blueprint path: %w" [FErr err]) (lift (fs_Stat fs path));
  if is_dir : bool then
    '(bp, fileCount) ← parseDir path;
    if decide (fileCount = 0%nat) then Fail (no_configuration path) else Ret (bp, path)
  else bp ← ParseFile path; Ret (bp, Dir path).

Definition BaseDirectory (path : string) : outcome string :=
  is_dir ← wrap_out (λ err, Errorf "resolving blueprint path: %w" [FErr err]) (lift (fs_Stat fs path));
  dir ← (if is_dir : bool then
           entries ← wrap_out (λ err, Errorf "reading blueprint directory: %w" [FErr err]) (lift (fs_ReadDir fs path));
           if existsb eligible entries then Ret path else Fail (no_configuration path)
         else Ret (Dir path));
  wrap_out (λ err, Errorf "resolving blueprint directory: %w" [FErr err]) (lift (fs_Abs fs dir)).

(** The files [LoadPlugins] and [LoadMetadata] read. *)
Definition config_files (path : string) (read_dir : error → error) : outcome (list string * string * bool) :=
  is_dir ← wrap_out (λ err, Errorf "resolving blueprint path: %w" [FErr err]) (lift (fs_Stat fs path));
  if is_dir : bool then
    entries ← wrap_out read_dir (lift (fs_ReadDir fs path)); Ret (blueprint_files path entries, path, true)
  else Ret ([path], Dir path, false).

Definition partial_blocks (path what : string) (s : BodySchema) : outcome (list Block) :=
  src ← wrap_out (λ d, Errorf "parsing blueprint: %w" [FErr d]) (lift (fs_ReadFile fs path));
  body ← wrap_out (λ d, Errorf "parsing blueprint: %w" [FErr d]) (lift (fs_ParseHCL fs src path));
  '(c, _) ← wrap_out (λ d, Errorf (what +:+ ": %w") [FErr d]) (lift (PartialContent body s));
  Ret (ct_Blocks c).

Definition load_plugin (configs : list PluginConfig) (b : Block) : outcome (list PluginConfig) :=
  config ← parsePluginBlock b;
  if mem (pg_Name config) (pg_Name <$> configs) then Fail (Errorf "plugin.%s: duplicate declaration" [FStr (pg_Name config)])
  else Ret (configs ++ [config]).

Definition LoadPlugins (path : string) : outcome (list PluginConfig * string) :=
  '(files, dir, _) ← config_files path (λ err, Errorf "reading blueprint directory: %w" [FErr err]);
  abs ← lift (fs_Abs fs dir);
  configs ← foldO (λ configs file,
    blocks ← partial_blocks file "reading plugin declarations" (MkSchemaOf [] [named "plugin" "name"]);
    foldO load_plugin configs blocks) [] files;
  Ret (configs, abs).

Definition metadata_block (bp : Blueprint) (b : Block) : outcome Blueprint :=
  if decide (bl_Type b = "lock") then
    l ← once (is_set (bp_Lock bp)) (Errorf "duplicate lock block" []) (parseLockBlock b); Ret (set_lock bp l)
  else if decide (bl_Type b = "execution") then
    x ← once (is_set (bp_Execution bp)) (Errorf "duplicate execution block" []) (parse_execution b); Ret (set_execution bp x)
  else Ret bp.

Definition LoadMetadata (path : string) : outcome (Blueprint * string) :=
  '(files, dir, is_dir) ← config_files path (λ err, err);
  if (is_dir : bool) && bool_decide (files = [])
  then Fail (Errorf "blueprint directory %q: no configuration files; add a .hcl file or use --blueprint" [FStr path])
  else
    bp ← foldO (λ bp file,
      blocks ← partial_blocks file "reading blueprint metadata" (MkSchemaOf [] [header "lock"; header "execution"]);
      foldO metadata_block bp blocks) empty_blueprint files;
    _ ← lift (validateExecutionConfig bp);
    Ret (bp, dir).
End Files.
End Parse.
