(* ===== verification/Vendor.v ===== *)
(** Vendoring (src/internal/vendor, src/internal/blueprint/vendor_source.go):
    third-party module sources are fetched once into a directory beside the
    blueprint.  This file models the layout of a fetched package, the patterns
    that prune it, and the replacement of a vendored copy.

    The disk is a history of states, newest first: what a crash at any moment
    leaves behind is a state of the history.  A staging directory is new, so
    what is below it is kept apart from the paths that existed before.  The
    fetcher, the codecs, the module inspection and the faults of the disk are a
    class; [os.Stat] of paths outside the vendored trees is one of its
    answers. *)
From S2P Require Import Prelude GoLib GoPath Blueprint Module Parse.

(** ** The disk *)

(** A symbolic link carries what reading through it finds, nothing when it dangles. *)
Inductive vtree :=
  | VFile (data : string)
  | VLink (to : option vtree)
  | VDir (entries : list (string * vtree)).

Record Entry := MkEntry { en_Source : string; en_Exclude : list string }.
#[export] Instance Entry_eq_dec : EqDecision Entry.
Proof. solve_decision. Defined.

(** A manifest in memory, and as it is written: a list in the order of names. *)
Definition Manifest : Type := gmap string Entry.
Definition manifestFile : Type := list (string * Entry).

Record vstate := MkVState {
  vs_trees : gmap string vtree;              (** what is at a path *)
  vs_stage : gmap (string * string) vtree;   (** what is below a staging directory *)
  vs_manifest : option string;               (** the bytes of the manifest *)
}.

Definition vhist : Type := list vstate.
Definition no_state : vstate := MkVState ∅ ∅ None.
Definition now (h : vhist) : vstate := default no_state (head h).

(** The answer of [os.Stat] or [os.Lstat]. *)
Inductive stat_answer := Missing | Present (dir : bool) | StatFault (e : error).

(** The calls that can fail without an effect. *)
Inductive vop :=
  | MkdirAll (dir : string) | MkdirTemp (dir : string) | Lstat (path : string) | Stat (path : string) | Rename (from to : string)
  | ReadDir (path : string) | ReadFile (path : string) | WriteFile (path : string)
  | CreateTemp | WriteTemp | ChmodTemp | CloseTemp | RenameTemp.

Record VendoredSource := MkVendoredSource { vsrc_Subdir : string }.

Class VendorWorld := {
  vw_fault : vop → vhist → option error;
  vw_stat : string → vhist → stat_answer;
  vw_is_dir : string → vhist → bool;   (** [os.Lstat] finds a directory, not a link to one *)
  vw_eval_symlinks : string → vhist → result string;
  vw_same_file : string → string → vhist → bool;
  vw_read_dir : string → vhist → result (list string) + unit;   (** right: the directory does not exist *)
  vw_inspect : string → FileMode → vhist → result Schema;   (** [module.Inspect] (Module.v) of what is there *)
  vw_stage_name : string → vhist → string;
  vw_remove : string → vtree → vhist → option (option vtree * error);
  vw_left : string → vtree → vhist → option vtree;   (** what a failing cleanup leaves *)
  getter_split : string → string * string;
  getter_get : string → vhist → vtree * option error;
  getter_glob : vtree → string → result string;
  source_json : VendoredSource → string;
  source_of_json : string → result VendoredSource;
  manifest_yaml : manifestFile → result string;
  manifest_of_yaml : string → result manifestFile;
}.

(** ** Prune (exclude.go) *)

Definition VendoredSourceFilename : string := ".terragraph-source.json".

Definition alwaysExcluded : list string := [".git"].

Definition pattern_matches (relPath pattern : string) : bool :=
  if contains pattern "/" then Match pattern relPath else Match pattern (Base relPath).

Definition matchExclude (patterns : list string) (relPath : string) : bool := existsb (pattern_matches relPath) patterns.

Section Prune.
Context `{VendorWorld} (h : vhist) (dir : string) (all : list string).

Definition rel_path (rel : list string) : string := join rel "/".
Definition entry_path (rel : list string) : string := Join (dir :: rel).

(** Generated package metadata is never pruned. *)
Definition excluded (rel : list string) : bool :=
  negb (bool_decide (rel_path rel = VendoredSourceFilename)) && matchExclude all (rel_path rel).

(** The walk below a directory; it stops at the first error, with what it has
    removed so far gone. *)
Fixpoint prune_tree (rel : list string) (t : vtree) : vtree * option error :=
  match t with
  | VDir entries =>
    match vw_fault (ReadDir (entry_path rel)) h with
    | Some err => (t, Some err)
    | None =>
      let '(entries, err) :=
        (fix go (es : list (string * vtree)) : list (string * vtree) * option error :=
           match es with
           | [] => ([], None)
           | (n, t) :: es =>
             let '(kept, err) :=
               if excluded (rel ++ [n]) then
                 match vw_remove (entry_path (rel ++ [n])) t h with
                 | None => ([], None)
                 | Some (remains, err) => (match remains with Some t => [(n, t)] | None => [] end, Some err)
                 end
               else let '(t', err) := prune_tree (rel ++ [n]) t in ([(n, t')], err) in
             match err with
             | Some _ => (kept ++ es, err)
             | None => let '(rest, err) := go es in (kept ++ rest, err)
             end
           end) entries in
      (VDir entries, err)
    end
  | _ => (t, None)
  end.
End Prune.

Definition prune `{VendorWorld} (h : vhist) (dir : string) (t : vtree) (patterns : list string) : vtree * option error :=
  match vw_fault (Lstat dir) h with
  | Some err => (t, Some err)
  | None => prune_tree h dir (alwaysExcluded ++ patterns) [] t
  end.

(** ** The layout of a package (vendor_source.go) *)

Definition vendoredSourceRecovery : string :=
  "verify local state and backups; recover or migrate any affected state outside the vendored copy before removing that copy and running terragraph vendor again".

Definition entry_of (name : string) (es : list (string * vtree)) : option vtree := snd <$> List.find (λ e, String.eqb e.1 name) es.

(** [os.Lstat] of a name below a tree. *)
Fixpoint child (name : string) (t : vtree) : result (option vtree) :=
  match t with
  | VDir es => Ok (entry_of name es)
  | VLink None => Ok None
  | VLink (Some t) => child name t
  | VFile _ => Err (External "not a directory")
  end.

Definition stat_tree (t : option vtree) : stat_answer :=
  match t with
  | None | Some (VLink None) => Missing
  | Some (VDir _) | Some (VLink (Some (VDir _))) => Present true
  | Some _ => Present false
  end.

Definition file_missing : error := Sentinel "file does not exist".

Section Source.
Context `{VendorWorld} (h : vhist).

(** [VendoredSource.Directory]. *)
Definition Directory (s : VendoredSource) (root : string) : result string :=
  let recovery := FStr vendoredSourceRecovery in
  let subdir := vsrc_Subdir s in
  if bool_decide (subdir = "") || negb (ValidPath subdir) || contains subdir "\" || isAbsoluteAnywhere subdir
  then Err (Errorf "subdir %q must be a normalized relative path within the source package; %s" [FStr subdir; recovery])
  else
    let dir := Join [root; subdir] in
    resolvedRoot ← wrap_err (λ err, Errorf "resolving source package; %s: %w" [recovery; FErr err]) (vw_eval_symlinks root h);
    resolvedDir ← wrap_err (λ err, Errorf "resolving source subdir %q; %s: %w" [FStr subdir; recovery; FErr err]) (vw_eval_symlinks dir h);
    _ ← (match Rel resolvedRoot resolvedDir with
         | Ok rel => if IsLocal rel then Ok tt else Err (Errorf "subdir %q resolves outside the source package; %s" [FStr subdir; recovery])
         | Err _ => Err (Errorf "subdir %q resolves outside the source package; %s" [FStr subdir; recovery])
         end);
    match vw_stat dir h with
    | Missing => Err (Errorf "inspecting source subdir; %s: %w" [recovery; FErr file_missing])
    | StatFault err => Err (Errorf "inspecting source subdir; %s: %w" [recovery; FErr err])
    | Present false => Err (Errorf "source subdir %q is not a directory; %s" [FStr subdir; recovery])
    | Present true => Ok dir
    end.

(** [ReadVendoredSource] of the tree at a root: only an absent marker means an
    old, flat copy; a dangling one is an error. *)
Definition ReadVendoredSource (root : string) (t : vtree) : result (option VendoredSource) :=
  let marker := Join [root; VendoredSourceFilename] in
  let failed err := Err (Errorf "reading vendored source metadata; %s: %w" [FStr vendoredSourceRecovery; FErr err]) in
  match vw_fault (ReadFile marker) h with
  | Some err => failed err
  | None =>
    match child VendoredSourceFilename t with
    | Err err => failed err
    | Ok None => Ok None
    | Ok (Some (VLink None)) => failed file_missing
    | Ok (Some (VFile data)) | Ok (Some (VLink (Some (VFile data)))) =>
      match source_of_json data with
      | Ok source => Ok (Some source)
      | Err err => Err (Errorf "invalid vendored source metadata; %s: %w" [FStr vendoredSourceRecovery; FErr err])
      end
    | Ok (Some _) => failed (External "is a directory")
    end
  end.
End Source.

(** ** Local state (relocation.go) *)

Section Relocation.
Context `{VendorWorld} (h : vhist).

(** [filepath.Dir] again and again, up to the root or the working directory. *)
Fixpoint drop_last_components (n : nat) (rooted : bool) (comps : list string) : list string :=
  (if rooted then "/" +:+ join comps "/" else match comps with [] => "." | _ => join comps "/" end)
  :: match n with 0%nat => [] | S n => drop_last_components n rooted (removelast comps) end.

Definition parents (path : string) : list string :=
  let comps := components (Dir path) in drop_last_components (length comps) (isAbs path) comps.

(** A missing ancestor is an error of [os.Stat] here. *)
Definition stat_err (path : string) : option error :=
  match vw_stat path h with Missing => Some file_missing | StatFault err => Some err | Present _ => None end.

Fixpoint parent_within (dir : string) (ps : list string) : result bool :=
  match ps with
  | [] => Ok false
  | p :: ps =>
    match stat_err p with
    | Some err => Err err
    | None => if vw_same_file dir p h then Ok true else parent_within dir ps
    end
  end.

Definition pathWithin (dir path : string) : result bool :=
  match stat_err dir with
  | Some err => Err err
  | None =>
    resolved ← vw_eval_symlinks path h;
    within ← parent_within dir (parents path);
    if (within : bool) then Ok true else parent_within dir (parents resolved)
  end.

Definition state_at_risk (name candidate : string) : error :=
  Errorf "node.%s: replacing the source directory would remove or change the local state path %s; migrate state outside the vendored tree and configure an absolute backend path before re-vendoring" [FStr name; FStr candidate].

Definition check_candidate (name treeDir : string) (relative : bool) (candidate : string) : result unit :=
  match vw_stat candidate h with
  | Missing => Ok tt
  | StatFault err => Err (Errorf "checking local state before replacing source directory: %w" [FErr err])
  | Present _ =>
    if relative then Err (state_at_risk name candidate)
    else
      within ← wrap_err (λ err, Errorf "checking absolute local state before replacing source directory: %w" [FErr err]) (pathWithin treeDir candidate);
      if (within : bool) then Err (state_at_risk name candidate) else Ok tt
  end.

Definition checkLocalStatePath (name dir treeDir path : string) : result unit :=
  let relative := negb (isAbs path) in
  let path := if relative then Join [dir; path] else path in
  foldM (λ _ candidate, check_candidate name treeDir relative candidate) tt [path; path +:+ ".backup"].

(** An empty setting is no setting; the node's own wins over the module's. *)
Definition backend_setting (configs : list (gmap string string)) (key fallback : string) : string :=
  foldl (λ acc c, let v := default "" (c !! key) in if decide (v = "") then acc else v) fallback configs.

Definition state_paths (n : Node) (schema : Schema) : string * string :=
  if decide (s_Backend schema = "local") then
    let configs := [s_BackendConfig schema; bn_BackendConfig n] in
    (backend_setting configs "path" "terraform.tfstate", backend_setting configs "workspace_dir" "terraform.tfstate.d")
  else ("terraform.tfstate", "terraform.tfstate.d").

Definition execution_dir (dir : string) (t : vtree) : result string :=
  source ← ReadVendoredSource h dir t;
  match source with Some source => Directory h source dir | None => Ok dir end.

Definition inspect_failed (err : error) : error :=
  Errorf "checking existing module before replacing its source (vendoring requires matching Terraform/OpenTofu declarations because it does not select a runtime): %w" [FErr err].

Definition checkSourceRelocation (n : Node) (treeDir : string) (t : vtree) : result unit :=
  let name := bn_Name n in
  dir ← execution_dir treeDir t;
  schema ← wrap_err inspect_failed (vw_inspect dir UnknownFiles h);
  if negb (mem (s_Backend schema) [""; "local"]) then Ok tt
  else if bool_decide (s_Backend schema = "local") && negb (s_BackendConfigKnown schema)
  then Err (Errorf "node.%s: local backend path cannot be determined before replacing the source directory; review the backend configuration and pin its state path before re-vendoring" [FStr name])
  else
    let '(path, workspaceDir) := state_paths n schema in
    _ ← checkLocalStatePath name dir treeDir path;
    let workspacePath := if isAbs workspaceDir then workspaceDir else Join [dir; workspaceDir] in
    match vw_read_dir workspacePath h with
    | inr _ => Ok tt
    | inl (Err err) => Err (Errorf "checking local workspaces before replacing source directory: %w" [FErr err])
    | inl (Ok entries) =>
      foldM (λ _ entry, checkLocalStatePath name dir treeDir (Join [workspaceDir; entry; "terraform.tfstate"])) tt entries
    end.
End Relocation.

(** ** Replacing a vendored copy *)

Definition VM (A : Type) : Type := vhist → vhist * result A.
#[export] Instance VM_ret : MRet VM := λ A a h, (h, Ok a).
#[export] Instance VM_bind : MBind VM := λ A B f m h,
  let '(h', r) := m h in match r with Ok a => f a h' | Err e => (h', Err e) end.

Definition throwV {A} (e : error) : VM A := λ h, (h, Err e).
Definition askV {A} (f : vhist → A) : VM A := λ h, (h, Ok (f h)).
Definition liftV {A} (f : vhist → result A) : VM A := λ h, (h, f h).
Definition pushV (f : vstate → vstate) : VM unit := λ h, (f (now h) :: h, Ok tt).
Definition wrapV {A} (w : error → error) (m : VM A) : VM A := λ h, let '(h', r) := m h in (h', wrap_err w r).

Definition set_tree (path : string) (t : vtree) (s : vstate) : vstate := MkVState (<[path := t]> (vs_trees s)) (vs_stage s) (vs_manifest s).
Definition set_stage (stage name : string) (t : vtree) (s : vstate) : vstate :=
  MkVState (vs_trees s) (<[(stage, name) := t]> (vs_stage s)) (vs_manifest s).
Definition set_manifest (data : string) (s : vstate) : vstate := MkVState (vs_trees s) (vs_stage s) (Some data).

(** [os.Rename]: a path into the staging directory, or out of it. *)
Definition move_out (path stage name : string) (s : vstate) : vstate :=
  match vs_trees s !! path with
  | Some t => MkVState (delete path (vs_trees s)) (<[(stage, name) := t]> (vs_stage s)) (vs_manifest s)
  | None => s
  end.
Definition move_in (stage name path : string) (s : vstate) : vstate :=
  match vs_stage s !! (stage, name) with
  | Some t => MkVState (<[path := t]> (vs_trees s)) (delete (stage, name) (vs_stage s)) (vs_manifest s)
  | None => s
  end.

Section Vendor.
Context `{VendorWorld}.

(** A call that has no effect when it fails. *)
Definition attempt (op : vop) (w : error → error) : VM unit :=
  liftV (λ h, match vw_fault op h with Some err => Err (w err) | None => Ok tt end).

Definition staged (stage name : string) (h : vhist) : vtree := default (VDir []) (vs_stage (now h) !! (stage, name)).

(** *** Fetching (git.go) *)

Definition gitAddressHints : list string := ["git::"; "git@"; "github.com/"; "gitlab.com/"; "bitbucket.org/"].

Definition git_Matches (src : string) : bool := has_suffix src ".git" || existsb (λ hint, has_prefix src hint) gitAddressHints.

(** A new file among the entries, in the order of a listing. *)
Fixpoint insert_entry (name : string) (t : vtree) (es : list (string * vtree)) : list (string * vtree) :=
  match es with
  | [] => [(name, t)]
  | e :: es => if decide (String.le name e.1) then (name, t) :: e :: es else e :: insert_entry name t es
  end.
Fixpoint put_child (name : string) (t : vtree) (root : vtree) : vtree :=
  match root with
  | VDir es => VDir (insert_entry name t es)
  | VLink (Some root) => VLink (Some (put_child name t root))
  | _ => root
  end.

Definition fetched_path (stage : string) : string := Join [stage; "source"].

(** The marker of the layout, written once the package is complete. *)
Definition write_marker (stage subdir : string) : VM unit :=
  let dst := fetched_path stage in
  selected ← liftV (λ h, getter_glob (staged stage "source" h) subdir);
  rel ← liftV (λ _, wrap_err (λ err, Errorf "resolving source subdir: %w" [FErr err]) (Rel dst selected));
  let source := MkVendoredSource rel in
  _ ← liftV (λ h, Directory h source dst);
  _ ← attempt (WriteFile (Join [dst; VendoredSourceFilename])) (λ err, Errorf "writing source metadata: %w" [FErr err]);
  t ← askV (staged stage "source");
  pushV (set_stage stage "source" (put_child VendoredSourceFilename (VFile (source_json source)) t)).

Definition git_Fetch (src stage : string) : VM unit :=
  let dst := fetched_path stage in
  let '(packageSource, subdir) := getter_split src in
  if negb (bool_decide (subdir = "")) && (negb (ValidPath subdir) || contains subdir "\")
  then throwV (Errorf "source subdir %q must stay within its package" [FStr subdir])
  else
    '(t, err) ← askV (getter_get packageSource);
    _ ← pushV (set_stage stage "source" t);
    _ ← (match (err : option error) with Some err => throwV err | None => mret tt end);
    _ ← attempt (Lstat (Join [dst; VendoredSourceFilename])) (λ err, Errorf "checking source package metadata: %w" [FErr err]);
    _ ← (match child VendoredSourceFilename t with
         | Err err => throwV (Errorf "checking source package metadata: %w" [FErr err])
         | Ok (Some _) => throwV (Errorf "source package contains reserved file %s; remove or rename it upstream" [FStr VendoredSourceFilename])
         | Ok None => mret tt
         end);
    if decide (subdir = "") then mret tt else write_marker stage subdir.

Definition fetch (src stage : string) : VM unit :=
  if git_Matches src then git_Fetch src stage
  else throwV (Errorf "no fetcher recognizes source %q (only git sources are supported today)" [FStr src]).

(** *** Pruning what was fetched (vendor.go) *)

(** What is at some components below a tree, changed. *)
Fixpoint update_at (comps : list string) (f : vtree → vtree * option error) (t : vtree) : vtree * option error :=
  match comps with
  | [] => f t
  | c :: comps =>
    match t with
    | VDir es =>
      let '(es, err) :=
        (fix go (es : list (string * vtree)) : list (string * vtree) * option error :=
           match es with
           | [] => ([], None)
           | (n, t) :: es =>
             if decide (n = c) then let '(t, err) := update_at comps f t in ((n, t) :: es, err)
             else let '(es, err) := go es in ((n, t) :: es, err)
           end) es in
      (VDir es, err)
    | _ => (t, None)
    end
  end.

(** Where a directory of the package really is, below its root. *)
Definition real_components (root dir : string) (h : vhist) : option (list string) :=
  match vw_eval_symlinks root h, vw_eval_symlinks dir h with
  | Ok resolvedRoot, Ok resolvedDir => match Rel resolvedRoot resolvedDir with Ok rel => Some (components rel) | Err _ => None end
  | _, _ => None
  end.

(** The walk does not follow a link, not even at its root. *)
Definition prune_module (root dir : string) (patterns : list string) (t : vtree) (h : vhist) : vtree * option error :=
  if vw_is_dir dir h then
    match real_components root dir h with
    | Some comps => update_at comps (λ t, prune h dir t patterns) t
    | None => (t, None)
    end
  else (t, vw_fault (Lstat dir) h).

Definition prune_staged (stage : string) (f : vtree → vhist → vtree * option error) : VM unit :=
  '(t, err) ← askV (λ h, f (staged stage "source" h) h);
  _ ← pushV (set_stage stage "source" t);
  match (err : option error) with Some err => throwV err | None => mret tt end.

Definition pruneSource (stage : string) (patterns : list string) : VM unit :=
  let dir := fetched_path stage in
  source ← liftV (λ h, ReadVendoredSource h dir (staged stage "source" h));
  match source with
  | None => prune_staged stage (λ t h, prune h dir t patterns)
  | Some source =>
    moduleDir ← liftV (λ h, Directory h source dir);
    _ ← prune_staged stage (λ t h, prune h dir t []);
    _ ← prune_staged stage (prune_module dir moduleDir patterns);
    _ ← liftV (λ h, Directory h source dir);
    mret tt
  end.

(** *** The manifest (manifest.go) *)

Definition LoadManifest : VM Manifest :=
  liftV (λ h,
    match vw_fault (ReadFile "manifest") h with
    | Some err => Err (Errorf "reading vendor manifest: %w" [FErr err])
    | None =>
      match vs_manifest (now h) with
      | None => Ok ∅
      | Some data =>
        mf ← wrap_err (λ err, Errorf "parsing vendor manifest: %w" [FErr err]) (manifest_of_yaml data);
        Ok (foldl (λ m e, <[e.1 := e.2]> m) ∅ mf)
      end
    end).

Definition manifest_entries (m : Manifest) : manifestFile :=
  omap (λ name, (λ e, (name, e)) <$> m !! name) (sorted_keys m).

(** The rename publishes a manifest that is complete. *)
Definition Save (path : string) (m : Manifest) : VM unit :=
  data ← liftV (λ _, wrap_err (λ err, Errorf "encoding vendor manifest: %w" [FErr err]) (manifest_yaml (manifest_entries m)));
  _ ← attempt (MkdirAll (Dir path)) (λ err, Errorf "creating vendor manifest directory: %w" [FErr err]);
  _ ← attempt CreateTemp (λ err, Errorf "staging vendor manifest: %w" [FErr err]);
  _ ← attempt WriteTemp (λ err, Errorf "writing vendor manifest: %w" [FErr err]);
  _ ← attempt ChmodTemp (λ err, Errorf "setting vendor manifest permissions: %w" [FErr err]);
  _ ← attempt CloseTemp (λ err, Errorf "closing vendor manifest: %w" [FErr err]);
  _ ← attempt RenameTemp (λ err, Errorf "publishing vendor manifest: %w" [FErr err]);
  pushV (set_manifest data).

(** *** One node (vendor.go) *)

(** The cleanup: what was staged goes, or what a failing removal leaves stays. *)
Definition clear_stage (stage : string) (h : vhist) (s : vstate) : vstate :=
  MkVState (vs_trees s) (map_imap (λ k t, if decide (k.1 = stage) then vw_left (Join [stage; k.2]) t h else Some t) (vs_stage s)) (vs_manifest s).
Definition RemoveAll (stage : string) : VM unit := λ h, pushV (clear_stage stage h) h.

(** Moving the previous copy aside; whether there was one. *)
Definition preserve (stage dst : string) : VM bool :=
  _ ← attempt (Lstat dst) (λ err, Errorf "inspecting previous source: %w" [FErr err]);
  there ← askV (λ h, bool_decide (is_Some (vs_trees (now h) !! dst)));
  if (there : bool) then
    _ ← attempt (Rename dst (Join [stage; "previous"])) (λ err, Errorf "preserving previous source: %w" [FErr err]);
    _ ← pushV (move_out dst stage "previous");
    mret true
  else mret false.

(** Publishing what was fetched; the flag keeps the staging directory, when
    the previous copy could not be put back. *)
Definition publish (stage dst : string) (hadPrevious : bool) : vhist → vhist * (result unit * bool) := λ h,
  match vw_fault (Rename (fetched_path stage) dst) h with
  | None => ((move_in stage "source" dst (now h)) :: h, (Ok tt, false))
  | Some err =>
    let previous := Join [stage; "previous"] in
    if hadPrevious then
      match vw_fault (Rename previous dst) h with
      | Some restoreErr =>
        (h, (Err (Errorf "publishing source: %w; restore %s to %s after rollback failed: %w" [FErr err; FStr previous; FStr dst; FErr restoreErr]), true))
      | None => (move_in stage "previous" dst (now h) :: h, (Err (Errorf "publishing source: %w" [FErr err]), false))
      end
    else (h, (Err (Errorf "publishing source: %w" [FErr err]), false))
  end.

Definition replace_source (n : Node) (stage dst : string) (existing : Entry) : vhist → vhist * (result unit * bool) := λ h,
  let staged_and_preserved :=
    _ ← wrapV (λ err, Errorf "fetching: %w" [FErr err]) (fetch (bn_Source n) stage);
    _ ← wrapV (λ err, Errorf "pruning: %w" [FErr err]) (pruneSource stage (en_Exclude existing));
    preserve stage dst in
  let '(h1, r) := staged_and_preserved h in
  match r with
  | Err err => (h1, (Err err, false))
  | Ok hadPrevious => publish stage dst hadPrevious h1
  end.

(** The deferred cleanup follows whatever happened. *)
Definition replace_and_clean (n : Node) (stage dst : string) (existing : Entry) : VM Entry := λ h,
  let '(h1, (r, keep)) := replace_source n stage dst existing h in
  (if keep then h1 else (RemoveAll stage h1).1, (λ _, MkEntry (bn_Source n) (en_Exclude existing)) <$> r).

Definition vendorOne (n : Node) (dst : string) (existing : Entry) : VM Entry :=
  _ ← attempt (MkdirAll (Dir dst)) (λ err, Errorf "creating vendor directory: %w" [FErr err]);
  _ ← attempt (MkdirTemp (Dir dst)) (λ err, Errorf "staging vendor source: %w" [FErr err]);
  stage ← askV (vw_stage_name (Dir dst));
  replace_and_clean n stage dst existing.

(** *** All nodes *)

Record Options := MkOptions { opt_Force : bool; opt_LegacyDirectories : gmap string string }.
Record Result := MkResult { res_Node : string; res_Skipped : bool; res_Err : option error }.

Definition needsPackageLayout (src path : string) (t : vtree) (h : vhist) : bool :=
  if decide ((getter_split src).2 = "") then false
  else match vw_fault (Stat (Join [path; VendoredSourceFilename])) h with
       | Some _ => false
       | None => match child VendoredSourceFilename t with Ok c => match stat_tree c with Missing => true | _ => false end | Err _ => false end
       end.

(** A copy below a group's directory is used until there is one of the root's own. *)
Definition existing_dir (opts : Options) (name dst : string) (h : vhist) : string :=
  let legacy := default "" (opt_LegacyDirectories opts !! name) in
  if match vw_fault (Lstat dst) h with None => true | Some _ => false end && match vs_trees (now h) !! dst with None => true | Some _ => false end && negb (bool_decide (legacy = ""))
  then legacy else dst.

Inductive decision := Skip | Vendor | Refuse (err : error).

(** What to do with a node whose source is remote. *)
Definition decide_node (opts : Options) (manifest : Manifest) (dst : string) (n : Node) (h : vhist) : decision :=
  let name := bn_Name n in
  let path := existing_dir opts name dst h in
  let found := vs_trees (now h) !! path in
  match (match vw_fault (Stat path) h with Some err => StatFault err | None => stat_tree found end) with
  | StatFault err => Refuse (Errorf "reading existing source: %w" [FErr err])
  | Present false => Refuse (Errorf "node.%s: existing source is not a directory; remove it before re-vendoring" [FStr name])
  | Missing => Vendor
  | Present true =>
    let t := default (VDir []) found in
    let sourceChanged := match manifest !! name with Some e => negb (bool_decide (en_Source e = bn_Source n)) | None => false end in
    if negb sourceChanged && negb (opt_Force opts) && negb (needsPackageLayout (bn_Source n) path t h) then Skip
    else match checkSourceRelocation h n path t with Err err => Refuse err | Ok _ => Vendor end
  end.

Record all_state := MkAllState { as_Manifest : Manifest; as_Results : list Result; as_Changed : bool }.

Definition add_result (a : all_state) (r : Result) : all_state := MkAllState (as_Manifest a) (as_Results a ++ [r]) (as_Changed a).

Definition vendor_node (baseDir vendorDir : string) (opts : Options) (a : all_state) (n : Node) (h : vhist) : vhist * all_state :=
  let name := bn_Name n in
  if negb (IsRemote (bn_Source n)) then (h, a)
  else
    let dst := Join [baseDir; vendorDir; name] in
    match decide_node opts (as_Manifest a) dst n h with
    | Skip => (h, add_result a (MkResult name true None))
    | Refuse err => (h, add_result a (MkResult name false (Some err)))
    | Vendor =>
      let '(h', r) := vendorOne n dst (default (MkEntry "" []) (as_Manifest a !! name)) h in
      match r with
      | Err err => (h', add_result a (MkResult name false (Some err)))
      | Ok entry => (h', MkAllState (<[name := entry]> (as_Manifest a)) (as_Results a ++ [MkResult name false None]) true)
      end
    end.

Fixpoint vendor_nodes (baseDir vendorDir : string) (opts : Options) (nodes : list Node) (a : all_state) (h : vhist) : vhist * all_state :=
  match nodes with
  | [] => (h, a)
  | n :: nodes => let '(h', a') := vendor_node baseDir vendorDir opts a n h in vendor_nodes baseDir vendorDir opts nodes a' h'
  end.

Definition All (nodes : list Node) (baseDir vendorDir manifestPath : string) (opts : Options) (h : vhist) :
    vhist * (list Result * option error) :=
  let '(h, m) := LoadManifest h in
  match m with
  | Err err => (h, ([], Some err))
  | Ok manifest =>
    let '(h, a) := vendor_nodes baseDir vendorDir opts nodes (MkAllState manifest [] false) h in
    if as_Changed a then
      let '(h, r) := Save manifestPath (as_Manifest a) h in
      (h, (as_Results a, match r with Err err => Some err | Ok _ => None end))
    else (h, (as_Results a, None))
  end.
End Vendor.
