(* ===== verification/VendorProofs.v ===== *)
(** What vendoring guarantees (for Vendor.v): a vendored copy is never lost,
    local state is never replaced, pruning removes exactly what the patterns
    say, and the manifest is what was vendored. *)
From S2P Require Import Prelude GoLib GoPath Blueprint Module Parse Vendor.

(** ** What an action may change *)

(** Every state an action goes through is related to the state it began in. *)
Class Within {A} (R : vstate → vstate → Prop) (m : VM A) : Prop :=
  within h h' r : m h = (h', r) → ∃ new, h' = new ++ h ∧ Forall (R (now h)) new.

Definition only_source (stage : string) (s s' : vstate) : Prop :=
  vs_trees s' = vs_trees s ∧ vs_manifest s' = vs_manifest s ∧
  ∀ k, k ≠ (stage, "source") → vs_stage s' !! k = vs_stage s !! k.

#[export] Instance only_source_refl stage : Reflexive (only_source stage).
Proof. done. Qed.
#[export] Instance only_source_trans stage : Transitive (only_source stage).
Proof. intros s1 s2 s3 (H1 & H2 & H3) (H4 & H5 & H6). split_and!; [congruence..|]. intros k Hk. by rewrite H6, H3. Qed.

Lemma now_reached {R : vstate → vstate → Prop} `{!Reflexive R} new h : Forall (R (now h)) new → R (now h) (now (new ++ h)).
Proof. destruct new as [|s new]; [done|]. by intros [? _]%Forall_cons. Qed.

Section Actions.
Context {R : vstate → vstate → Prop} `{!Reflexive R} `{!Transitive R}.

#[export] Instance within_ret {A} (a : A) : Within R (mret a : VM A).
Proof. intros h h' r [= <- <-]. exists []. split; [done|constructor]. Qed.
#[export] Instance within_throw {A} e : Within R (throwV e : VM A).
Proof. intros h h' r [= <- <-]. exists []. split; [done|constructor]. Qed.
#[export] Instance within_ask {A} (f : vhist → A) : Within R (askV f).
Proof. intros h h' r [= <- <-]. exists []. split; [done|constructor]. Qed.
#[export] Instance within_lift {A} (f : vhist → result A) : Within R (liftV f).
Proof. intros h h' r [= <- <-]. exists []. split; [done|constructor]. Qed.
#[export] Instance within_attempt `{VendorWorld} op w : Within R (attempt op w).
Proof. apply within_lift. Qed.

#[export] Instance within_bind {A B} (m : VM A) (f : A → VM B) : Within R m → (∀ a, Within R (f a)) → Within R (m ≫= f).
Proof.
  intros Hm Hf h h' r. unfold mbind, VM_bind. destruct (m h) as [h1 [a|e]] eqn:H1.
  - destruct (Hm _ _ _ H1) as (new & -> & Hn). intros H2. destruct (Hf a _ _ _ H2) as (new' & -> & Hn').
    exists (new' ++ new). split; [by rewrite (assoc_L (++))|]. apply Forall_app. split; [|done].
    eapply Forall_impl; [exact Hn'|]. intros s Hs. etrans; [by apply now_reached|exact Hs].
  - intros [= <- <-]. by eapply Hm.
Qed.

#[export] Instance within_wrap {A} w (m : VM A) : Within R m → Within R (wrapV w m).
Proof. intros Hm h h' r. unfold wrapV. destruct (m h) as [h1 r1] eqn:H1. intros [= <- <-]. by eapply Hm. Qed.

Lemma within_push f : (∀ s, R s (f s)) → Within R (pushV f).
Proof. intros Hf h h' r [= <- <-]. exists [f (now h)]. split; [done|]. apply Forall_cons. split; [done|constructor]. Qed.
End Actions.

#[export] Instance within_set_stage stage t : Within (only_source stage) (pushV (set_stage stage "source" t)).
Proof. apply within_push. intros s. split_and!; [done..|]. intros k Hk. simpl. by rewrite lookup_insert_ne. Qed.

Ltac within_cases := repeat first [apply _ | apply within_bind; [|intros] | apply within_wrap
  | match goal with |- Within _ (if ?b then _ else _) => destruct b | |- Within _ (match ?x with _ => _ end) => destruct x end].

Section Staging.
Context `{VendorWorld}.

#[export] Instance within_fetch src stage : Within (only_source stage) (fetch src stage).
Proof. unfold fetch, git_Fetch, write_marker. within_cases. Qed.

#[export] Instance within_prune_staged stage f : Within (only_source stage) (prune_staged stage f).
Proof. unfold prune_staged. within_cases. Qed.

#[export] Instance within_pruneSource stage patterns : Within (only_source stage) (pruneSource stage patterns).
Proof. unfold pruneSource. within_cases. Qed.
End Staging.

Lemma VM_bind_inv {A B} (m : VM A) (f : A → VM B) h h' r : (m ≫= f) h = (h', r) →
  (∃ e, m h = (h', Err e) ∧ r = Err e) ∨ (∃ h1 a, m h = (h1, Ok a) ∧ f a h1 = (h', r)).
Proof.
  unfold mbind, VM_bind. destruct (m h) as [h1 [a|e]]; [intros Hf; right; by exists h1, a|].
  intros [= <- <-]. left. by exists e.
Qed.

(** A step that returned [Ok] inside a run that did. *)
Ltac vm_step H h a Ha := apply VM_bind_inv in H as [(? & _ & [=])|(h & a & Ha & H)].
Ltac vm_read H := let h := fresh "h" in let a := fresh "a" in let Ha := fresh "Ha" in
  vm_step H h a Ha; unfold attempt, liftV, askV in Ha; injection Ha as <- _.

Lemma wrapV_inv {A} w (m : VM A) h h' r : wrapV w m h = (h', r) → ∃ r0, m h = (h', r0) ∧ r = wrap_err w r0.
Proof. unfold wrapV. destruct (m h) as [h1 r1]. intros [= <- <-]. by exists r1. Qed.

(** ** A vendored copy is never lost *)

Section Copy.
Context `{VendorWorld} (n : Node) (dst : string) (existing : Entry).

Notation source_of s stage := (vs_stage s !! (stage, "source")).

(** What a fetch and a prune that both succeeded left. *)
Definition produced (stage : string) (h : vhist) (t : vtree) : Prop :=
  ∃ h1 h2, fetch (bn_Source n) stage h = (h1, Ok tt) ∧ pruneSource stage (en_Exclude existing) h1 = (h2, Ok tt) ∧
    source_of (now h2) stage = Some t.

(** Nothing but this node's copy and the staging directory changed. *)
Definition elsewhere (s0 s : vstate) : Prop :=
  (∀ p, p ≠ dst → vs_trees s !! p = vs_trees s0 !! p) ∧ vs_manifest s = vs_manifest s0.

(** The previous copy, whole, set aside. *)
Definition aside (stage : string) (s0 s : vstate) : Prop :=
  ∃ t, vs_trees s0 !! dst = Some t ∧ vs_trees s !! dst = None ∧ vs_stage s !! (stage, "previous") = Some t.

Definition copy_kept (stage : string) (h : vhist) (s : vstate) : Prop :=
  elsewhere (now h) s ∧
  (vs_trees s !! dst = vs_trees (now h) !! dst ∨ aside stage (now h) s ∨ ∃ t, produced stage h t ∧ vs_trees s !! dst = Some t).

Lemma prune_staged_source stage f h h' : prune_staged stage f h = (h', Ok tt) → is_Some (source_of (now h') stage).
Proof.
  unfold prune_staged. intros Hp. vm_read Hp. destruct a as [t err]. vm_step Hp h1 u Hu. injection Hu as <- _.
  destruct err; [done|]. injection Hp as <-. simpl. rewrite lookup_insert_eq. by eexists.
Qed.

Lemma git_Fetch_source src stage h h' : git_Fetch src stage h = (h', Ok tt) → is_Some (source_of (now h') stage).
Proof.
  unfold git_Fetch. destruct (getter_split src) as [pkg subdir]. destruct (_ && _); [done|]. intros Hf.
  vm_read Hf. destruct a as [t err]. vm_step Hf h1 u Hu. injection Hu as <- _.
  set (s := set_stage stage "source" t (now h)) in *.
  assert (is_Some (source_of (now (s :: h)) stage)) as Hs by (simpl; rewrite lookup_insert_eq; by eexists).
  vm_step Hf h2 u2 Hu. destruct err; [done|]. injection Hu as <- _. vm_read Hf. vm_step Hf h3 u3 Hu.
  destruct (child VendoredSourceFilename t) as [[c|]|e]; [done| |done]. injection Hu as <- _. revert Hf. case_decide; [by intros [= <-]|].
  unfold write_marker. intros Hf. do 5 vm_read Hf. injection Hf as <-. simpl. rewrite lookup_insert_eq. by eexists.
Qed.

Lemma fetch_source src stage h h' : fetch src stage h = (h', Ok tt) → is_Some (source_of (now h') stage).
Proof. unfold fetch. destruct (git_Matches src); [apply git_Fetch_source|done]. Qed.

Lemma pruneSource_source stage patterns h h' : pruneSource stage patterns h = (h', Ok tt) → is_Some (source_of (now h) stage) →
  is_Some (source_of (now h') stage).
Proof.
  unfold pruneSource. intros Hp _. vm_read Hp. destruct a as [s|]; [|by apply prune_staged_source in Hp].
  vm_read Hp. vm_step Hp h1 u1 H1. destruct u1. vm_step Hp h2 u2 H2. destruct u2. apply prune_staged_source in H2.
  vm_read Hp. by injection Hp as <-.
Qed.

Lemma untouched stage h s : only_source stage (now h) s → copy_kept stage h s.
Proof. intros (Ht & Hm & _). split; [split; [|done]|left]; by rewrite Ht. Qed.

Lemma untouched_all stage h new : Forall (only_source stage (now h)) new → Forall (copy_kept stage h) new.
Proof. intros Hn. eapply Forall_impl; [exact Hn|]. apply untouched. Qed.

(** Everything before the first rename. *)
Definition staged_only (stage : string) (h : vhist) (new : vhist) : Prop := Forall (only_source stage (now h)) new.

Lemma staging_runs stage h h1 r : (wrapV (λ err, Errorf "fetching: %w" [FErr err]) (fetch (bn_Source n) stage) ≫=
    λ _, wrapV (λ err, Errorf "pruning: %w" [FErr err]) (pruneSource stage (en_Exclude existing))) h = (h1, r) →
  ∃ new, h1 = new ++ h ∧ staged_only stage h new ∧ (r = Ok tt → ∃ t, source_of (now h1) stage = Some t ∧ produced stage h t).
Proof.
  intros Hr. assert (Within (only_source stage) (wrapV (λ err, Errorf "fetching: %w" [FErr err]) (fetch (bn_Source n) stage) ≫=
    λ _, wrapV (λ err, Errorf "pruning: %w" [FErr err]) (pruneSource stage (en_Exclude existing)))) as Hw by apply _.
  destruct (Hw _ _ _ Hr) as (new & -> & Hn). exists new. split_and!; [done..|]. intros ->.
  vm_step Hr h2 u Hf. apply wrapV_inv in Hf as ([[]|] & Hf & ?); [|done]. apply wrapV_inv in Hr as ([[]|] & Hp & ?); [|done].
  destruct (pruneSource_source _ _ _ _ Hp (fetch_source _ _ _ _ Hf)) as [t Ht]. exists t. split; [done|].
  by exists h2, (new ++ h).
Qed.

(** Between the renames the previous copy is aside; a failed rename changes nothing. *)
Lemma preserve_runs stage h h' r : preserve stage dst h = (h', r) →
  (h' = h ∧ (r = Ok true → False) ∧ (r = Ok false → vs_trees (now h) !! dst = None)) ∨
  (h' = move_out dst stage "previous" (now h) :: h ∧ r = Ok true ∧ is_Some (vs_trees (now h) !! dst)).
Proof.
  unfold preserve. intros [(e & He & ->)|(h1 & [] & H1 & H2)]%VM_bind_inv; [left; injection He as <- _; by split_and!|].
  injection H1 as <- _. apply VM_bind_inv in H2 as [(e & He & _)|(h2 & there & H2 & H3)]; [done|]. injection H2 as <- <-.
  case_bool_decide as Hd.
  - apply VM_bind_inv in H3 as [(e & He & ->)|(h3 & [] & H4 & H5)]; [left; injection He as <- _; by split_and!|].
    injection H4 as <- _. apply VM_bind_inv in H5 as [(e & He & _)|(h5 & [] & H5 & H6)]; [done|]. injection H5 as <-.
    injection H6 as <- <-. by right.
  - injection H3 as <- <-. left. split_and!; [done..|]. intros _. by apply eq_None_not_Some.
Qed.

Lemma move_out_aside stage h s : only_source stage (now h) s → is_Some (vs_trees s !! dst) →
  let s' := move_out dst stage "previous" s in aside stage (now h) s' ∧ elsewhere (now h) s' ∧ source_of s' stage = source_of s stage.
Proof.
  intros (Ht & Hm & _) [t Hd] s'. unfold s', move_out. rewrite Hd. simpl. split_and!.
  - exists t. simpl. rewrite <-Ht, Hd, lookup_delete_eq, lookup_insert_eq. done.
  - split; simpl; [|done]. intros p Hp. by rewrite lookup_delete_ne, Ht.
  - by rewrite lookup_insert_ne.
Qed.

Lemma VM_bind_assoc {A B C} (m : VM A) (f : A → VM B) (g : B → VM C) h : (m ≫= λ x, f x ≫= g) h = ((m ≫= f) ≫= g) h.
Proof. unfold mbind, VM_bind. by destruct (m h) as [h1 [a|e]]. Qed.

(** How a replacement ends. *)
Definition replaced (stage : string) (h : vhist) (s : vstate) (r : result unit) (keep : bool) : Prop :=
  match r with
  | Ok _ => keep = false ∧ ∃ t, produced stage h t ∧ vs_trees s !! dst = Some t
  | Err _ => (keep = true ∧ aside stage (now h) s) ∨ (keep = false ∧ vs_trees s !! dst = vs_trees (now h) !! dst)
  end.

Lemma publish_runs stage h s h1 b h' r keep t : produced stage h t → source_of s stage = Some t → elsewhere (now h) s → now h1 = s →
  (if b : bool then aside stage (now h) s else vs_trees s !! dst = vs_trees (now h) !! dst) →
  publish stage dst b h1 = (h', (r, keep)) →
  ∃ new, h' = new ++ h1 ∧ Forall (copy_kept stage h) new ∧ replaced stage h (now h') r keep ∧ elsewhere (now h) (now h').
Proof.
  intros Hp Hs [He Hm] <- Hb. unfold publish. destruct (vw_fault (Rename (fetched_path stage) dst) h1).
  - destruct b; [destruct (vw_fault (Rename (Join [stage; "previous"]) dst) h1)|]; intros [= <- <- <-].
    + exists []. split_and!; [done|by apply Forall_nil|by left|done].
    + destruct Hb as (t0 & H0 & H1 & H2). unfold move_in. rewrite H2. set (s' := MkVState _ _ _). exists [s'].
      assert (elsewhere (now h) s') as Hel by (split; simpl; [intros p Hne; rewrite lookup_insert_ne; auto|done]).
      assert (vs_trees s' !! dst = vs_trees (now h) !! dst) as Hd by (simpl; by rewrite lookup_insert_eq).
      split_and!; [done|apply Forall_singleton; split; [done|by left]|by right|exact Hel].
    + exists []. split_and!; [done|by apply Forall_nil|by right|done].
  - intros [= <- <- <-]. unfold move_in. rewrite Hs. set (s' := MkVState _ _ _). exists [s'].
    assert (elsewhere (now h) s') as Hel by (split; simpl; [intros p Hne; rewrite lookup_insert_ne; auto|done]).
    assert (vs_trees s' !! dst = Some t) as Hd by (simpl; by rewrite lookup_insert_eq).
    split_and!; [done|apply Forall_singleton; split; [done|right; right; by exists t]|split; [done|by exists t]|exact Hel].
Qed.

Lemma replace_runs stage h h' r keep : replace_source n stage dst existing h = (h', (r, keep)) →
  ∃ new, h' = new ++ h ∧ Forall (copy_kept stage h) new ∧ replaced stage h (now h') r keep ∧ elsewhere (now h) (now h').
Proof.
  unfold replace_source. rewrite VM_bind_assoc. match goal with |- (let '(_, _) := ?x in _) = _ → _ => destruct x as [h1 r1] eqn:Hr end. revert Hr.
  intros [(e & Hs & ->)|(h2 & [] & Hs & Hp)]%VM_bind_inv; apply staging_runs in Hs as (new & -> & Hn & Hok).
  - intros [= <- <- <-]. destruct (now_reached _ _ Hn) as (Ht & Hm & _). exists new.
    split_and!; [done|by apply untouched_all|right; split; [done|by rewrite Ht]|split; [intros p _; by rewrite Ht|done]].
  - destruct (Hok eq_refl) as (t & Hsrc & Hprod). pose proof (now_reached _ _ Hn) as Hnow. pose proof Hnow as (Ht & Hm & _).
    assert (elsewhere (now h) (now (new ++ h))) as Hel by (split; [intros p _; by rewrite Ht|done]).
    apply preserve_runs in Hp as [(-> & Hno & Hnone)|(-> & -> & Hsome)].
    + destruct r1 as [[]|e]; [done| |].
      * intros Hpub. eapply publish_runs in Hpub as (new' & -> & Hn' & Hrep & Hel'); [|done..|by rewrite Ht].
        exists (new' ++ new). split_and!; [by rewrite (assoc_L (++))|apply Forall_app; split; [done|by apply untouched_all]|done|exact Hel'].
      * intros [= <- <- <-]. exists new. split_and!; [done|by apply untouched_all|right; by rewrite Ht|exact Hel].
    + destruct (move_out_aside stage h _ Hnow Hsome) as (Ha & Hela & Hsrc'). rewrite Hsrc in Hsrc'.
      intros Hpub. eapply publish_runs in Hpub as (new' & -> & Hn' & Hrep & Hel'); [|done..].
      exists (new' ++ move_out dst stage "previous" (now (new ++ h)) :: new).
      split_and!; [by rewrite <-(assoc_L (++))|apply Forall_app; split; [done|]|done|exact Hel'].
      apply Forall_cons. split; [|by apply untouched_all]. split; [done|by right; left].
Qed.

Lemma clear_stage_trees stage h s : vs_trees (clear_stage stage h s) = vs_trees s ∧ vs_manifest (clear_stage stage h s) = vs_manifest s.
Proof. done. Qed.

Lemma replaced_kept stage h s r : elsewhere (now h) s → replaced stage h s r false →
  copy_kept stage h s.
Proof.
  intros He Hr. split; [done|]. destruct r as [u|e]; [right; right; by destruct Hr as [_ ?]|].
  destruct Hr as [[? _]|[_ Hd]]; [done|by left].
Qed.

(** The states of one replacement, and how it ended. *)
Lemma vendorOne_runs h h' r : vendorOne n dst existing h = (h', r) → let stage := vw_stage_name (Dir dst) h in
  ∃ new r1 keep, h' = new ++ h ∧ Forall (copy_kept stage h) new ∧ replaced stage h (now h') r1 keep ∧
    r = (λ _, MkEntry (bn_Source n) (en_Exclude existing)) <$> r1.
Proof.
  intros Hv stage. assert (∀ e, r = Err e → h' = h → ∃ new r1 keep, h' = new ++ h ∧ Forall (copy_kept stage h) new ∧
    replaced stage h (now h') r1 keep ∧ r = (λ _, MkEntry (bn_Source n) (en_Exclude existing)) <$> r1) as Hearly.
  { intros e -> ->. exists [], (Err e), false. split_and!; [done|by apply Forall_nil|by right|done]. }
  unfold vendorOne in Hv. apply VM_bind_inv in Hv as [(e & He & ->)|(h1 & [] & H1 & Hv)]; [injection He as <- _; by eapply Hearly|].
  injection H1 as <- _. apply VM_bind_inv in Hv as [(e & He & ->)|(h1 & [] & H1 & Hv)]; [injection He as <- _; by eapply Hearly|].
  injection H1 as <- _. apply VM_bind_inv in Hv as [(e & He & _)|(h1 & st & H1 & Hv)]; [done|]. injection H1 as <- <-.
  fold stage in Hv. unfold replace_and_clean in Hv. destruct (replace_source n stage dst existing h) as [h1 [r1 keep]] eqn:Hr.
  injection Hv as <- <-. apply replace_runs in Hr as (new & -> & Hn & Hrep & Hel).
  destruct keep; [by exists new, r1, true|]. set (s' := clear_stage stage (new ++ h) (now (new ++ h))).
  assert (replaced stage h s' r1 false) as Hrep'.
  { destruct r1; [exact Hrep|]. destruct Hrep as [[? _]|[_ Hd]]; [done|by right]. }
  exists (s' :: new), r1, false. split_and!; [done|apply Forall_cons; split; [by eapply replaced_kept|done]|done..].
Qed.

(** C25: a vendored copy is never lost.  At every moment of a replacement,
    wherever it stops, the node's directory holds the previous copy or a
    package that was fetched and pruned completely, or the previous copy is
    whole in the staging directory; nothing else changed. An error leaves the
    previous copy in place, or in the staging directory when it could not be
    put back; success publishes the package and keeps the user's exclusions. *)
Theorem vendored_copy_kept h h' r : vendorOne n dst existing h = (h', r) →
  let stage := vw_stage_name (Dir dst) h in
  ∃ new, h' = new ++ h ∧ Forall (copy_kept stage h) new ∧
  match r with
  | Ok entry => entry = MkEntry (bn_Source n) (en_Exclude existing) ∧
      ∃ t, produced stage h t ∧ vs_trees (now h') !! dst = Some t
  | Err _ => vs_trees (now h') !! dst = vs_trees (now h) !! dst ∨ aside stage (now h) (now h')
  end.
Proof.
  intros (new & r1 & keep & -> & Hn & Hrep & ->)%vendorOne_runs stage. exists new. split_and!; [done..|].
  destruct r1 as [u|e]; simpl in *; [split; [done|by destruct Hrep as [_ ?]]|].
  destruct Hrep as [[_ Ha]|[_ Hd]]; [by right|by left].
Qed.
End Copy.

(** ** Local state stays where it is *)

Section State.
Context `{VendorWorld} (h : vhist).

(** A file that is there has no ancestor that is the tree's directory, by its
    name or by what its name resolves to. *)
Definition outside (treeDir candidate : string) : Prop :=
  ∃ resolved, vw_eval_symlinks candidate h = Ok resolved ∧
    ∀ a, a ∈ parents candidate ++ parents resolved → vw_same_file treeDir a h = false.

(** Neither the state nor its backup would go with the tree. *)
Definition state_out (dir treeDir path : string) : Prop :=
  ∀ suffix, suffix ∈ [""; ".backup"] →
    let candidate := (if isAbs path then path else Join [dir; path]) +:+ suffix in
    vw_stat candidate h = Missing ∨ (isAbs path = true ∧ outside treeDir candidate).

(** The state of the default workspace, and of every other one. *)
Definition workspace_states (dir workspaceDir : string) : list string :=
  match vw_read_dir (if isAbs workspaceDir then workspaceDir else Join [dir; workspaceDir]) h with
  | inl (Ok entries) => (λ entry, Join [workspaceDir; entry; "terraform.tfstate"]) <$> entries
  | _ => []
  end.

(** The state is not below the tree: the backend is remote, or its local paths
    are known and hold nothing that is in the tree. *)
Definition state_safe (n : Node) (treeDir : string) (t : vtree) : Prop :=
  ∃ dir schema, execution_dir h treeDir t = Ok dir ∧ vw_inspect dir UnknownFiles h = Ok schema ∧
    (s_Backend schema ∉ [""; "local"] ∨
     (s_Backend schema = "local" → s_BackendConfigKnown schema = true) ∧
     let '(path, workspaceDir) := state_paths n schema in
     ∀ p, p ∈ path :: workspace_states dir workspaceDir → state_out dir treeDir p).

Lemma parent_within_false dir ps : parent_within h dir ps = Ok false → ∀ a, a ∈ ps → vw_same_file dir a h = false.
Proof.
  induction ps as [|p ps IH]; simpl; [by intros _ a Ha%elem_of_nil|]. destruct (stat_err h p); [done|].
  destruct (vw_same_file dir p h) eqn:Hs; [done|]. intros Hw a [->|Ha]%elem_of_cons; [done|by apply IH].
Qed.

Lemma pathWithin_false dir path : pathWithin h dir path = Ok false → outside dir path.
Proof.
  unfold pathWithin. destruct (stat_err h dir); [done|]. intros (resolved & Hr & (w & Hw & Hk)%result_bind_Ok)%result_bind_Ok.
  destruct w; [done|]. exists resolved. split; [done|]. intros a [Ha|Ha]%elem_of_app; [by eapply parent_within_false in Ha|].
  by eapply parent_within_false in Ha.
Qed.

Lemma check_candidate_Ok name treeDir relative c : check_candidate h name treeDir relative c = Ok tt →
  vw_stat c h = Missing ∨ (relative = false ∧ outside treeDir c).
Proof.
  unfold check_candidate. destruct (vw_stat c h) as [|d|e]; [by left| |done]. destruct relative; [done|].
  intros (w & Hw%wrap_err_Ok & Hk)%result_bind_Ok. destruct w; [done|]. right. split; [done|by apply pathWithin_false].
Qed.

Lemma append_empty s : s +:+ "" = s.
Proof. induction s as [|c s IH]; [done|]. change (String c (s +:+ "") = String c s). by rewrite IH. Qed.

Lemma checkLocalStatePath_Ok name dir treeDir path : checkLocalStatePath h name dir treeDir path = Ok tt → state_out dir treeDir path.
Proof.
  unfold checkLocalStatePath. set (c := if negb (isAbs path) then Join [dir; path] else path). simpl.
  intros ([] & H1 & ([] & H2 & _)%result_bind_Ok)%result_bind_Ok. apply check_candidate_Ok in H1, H2.
  assert ((if isAbs path then path else Join [dir; path]) = c) as Hc by (unfold c; by destruct (isAbs path)).
  intros suffix Hs candidate. unfold candidate. rewrite Hc. rewrite negb_false_iff in H1, H2.
  apply elem_of_cons in Hs as [->|Hs]; [by rewrite append_empty|]. apply list_elem_of_singleton in Hs as ->. done.
Qed.

Lemma checkSourceRelocation_Ok n treeDir t : checkSourceRelocation h n treeDir t = Ok tt → state_safe n treeDir t.
Proof.
  unfold checkSourceRelocation. intros (dir & Hd & (schema & Hi%wrap_err_Ok & Hk)%result_bind_Ok)%result_bind_Ok.
  exists dir, schema. split_and!; [done..|]. revert Hk. destruct (mem (s_Backend schema) [""; "local"]) eqn:Hm; simpl.
  2: { intros _. left. by apply mem_false in Hm. }
  destruct (_ && _) eqn:Hl; [done|]. intros Hk. right. split.
  { intros Hb. rewrite bool_decide_true in Hl by done. simpl in Hl. by destruct (s_BackendConfigKnown schema). }
  destruct (state_paths n schema) as [path ws]. apply result_bind_Ok in Hk as ([] & Hp & Hk).
  apply checkLocalStatePath_Ok in Hp. unfold workspace_states. intros p [->|Hin]%elem_of_cons; [done|].
  destruct (vw_read_dir _ h) as [[entries|]|]; [|by apply elem_of_nil in Hin..].
  apply list_elem_of_fmap in Hin as (entry & -> & He). clear Hp. induction entries as [|e es IH]; [by apply elem_of_nil in He|].
  simpl in Hk. apply result_bind_Ok in Hk as ([] & Hk1 & Hk2).
  apply elem_of_cons in He as [->|He]; [by apply checkLocalStatePath_Ok in Hk1|by apply IH].
Qed.
End State.

(** ** A whole run *)

Section Run.
Context `{VendorWorld} (baseDir vendorDir : string) (opts : Options).

Definition node_path (n : Node) : string := Join [baseDir; vendorDir; bn_Name n].

(** A node's copy may be replaced: there is none yet, or its state is safe. *)
Definition may_replace (h : vhist) (n : Node) : Prop :=
  let path := existing_dir opts (bn_Name n) (node_path n) h in
  stat_tree (vs_trees (now h) !! path) = Missing ∨
  ∃ t, vs_trees (now h) !! path = Some t ∧ state_safe h n path t.

Lemma decide_node_Vendor manifest n h : decide_node opts manifest (node_path n) n h = Vendor.Vendor → may_replace h n.
Proof.
  unfold decide_node, may_replace. set (path := existing_dir _ _ _ _). destruct (vw_fault (Stat path) h); [done|].
  destruct (stat_tree (vs_trees (now h) !! path)) as [|[]|] eqn:Hs; [by left| |done..].
  destruct (vs_trees (now h) !! path) as [t|] eqn:Ht; [|done]. simpl. destruct (_ && _); [done|].
  destruct (checkSourceRelocation h n path t) as [[]|] eqn:Hc; [|done]. intros _. right. exists t. split; [done|].
  by apply checkSourceRelocation_Ok.
Qed.

(** Each state of a run comes from the one before by a replacement that was allowed. *)
Inductive run_of (nodes : list Node) : vhist → vhist → Prop :=
  | run_here h : run_of nodes h h
  | run_replace h new h' n existing r : n ∈ nodes → IsRemote (bn_Source n) = true → may_replace h n →
      vendorOne n (node_path n) existing h = (new ++ h, r) → run_of nodes (new ++ h) h' → run_of nodes h h'.

Lemma run_of_weaken nodes n h h' : run_of nodes h h' → run_of (n :: nodes) h h'.
Proof. induction 1; [constructor|]. by eapply run_replace; [right|..]. Qed.

Lemma vendor_nodes_run nodes : ∀ a h h' a', vendor_nodes baseDir vendorDir opts nodes a h = (h', a') → run_of nodes h h'.
Proof.
  induction nodes as [|n nodes IH]; intros a h h' a'; simpl; [intros [= <- <-]; constructor|].
  unfold vendor_node. destruct (IsRemote (bn_Source n)) eqn:Hr; simpl; [|intros Hv; eapply run_of_weaken, IH, Hv].
  fold (node_path n). destruct (decide_node _ _ _ _ _) eqn:Hd; [intros Hv; eapply run_of_weaken, IH, Hv| |intros Hv; eapply run_of_weaken, IH, Hv].
  apply decide_node_Vendor in Hd. set (ex := default (MkEntry "" []) _). destruct (vendorOne n _ ex h) as [h1 r] eqn:Hv.
  pose proof (vendorOne_runs n (node_path n) ex h h1 r Hv) as (new & r1 & keep & -> & _).
  intros Hrest. eapply run_replace; [left|exact Hr|exact Hd|exact Hv|]. destruct r as [e|e]; eapply run_of_weaken, IH, Hrest.
Qed.

Lemma run_of_changes nodes h h' : run_of nodes h h' → ∃ new, h' = new ++ h ∧ ∀ s p, s ∈ new →
  vs_trees s !! p ≠ vs_trees (now h) !! p → ∃ n h1, n ∈ nodes ∧ IsRemote (bn_Source n) = true ∧ p = node_path n ∧
    (∃ later, h' = later ++ h1) ∧ may_replace h1 n.
Proof.
  induction 1 as [h|h new h' n existing r Hn Hrem Hmay Hv _ (new' & -> & IH)].
  { exists []. split; [done|]. by intros s p Hs%elem_of_nil. }
  apply vendorOne_runs in Hv as (new1 & r1 & keep & Heq & Hkept & _). apply app_inv_tail in Heq as <-. rewrite Forall_forall in Hkept.
  exists (new' ++ new). split; [by rewrite (assoc_L (++))|]. intros s p Hs Hne. destruct (decide (p = node_path n)) as [Hp|Hp].
  { exists n, h. split_and!; [done..| |done]. exists (new' ++ new). by rewrite (assoc_L (++)). }
  apply elem_of_app in Hs as [Hs|Hs]; [|destruct (Hkept s Hs) as [[Hel _] _]; by destruct Hne; apply Hel].
  apply (IH s p Hs). destruct new as [|s1 new]; [done|]. destruct (Hkept s1 ltac:(by left)) as [[Hel _] _]. simpl. by rewrite Hel.
Qed.

Lemma run_of_manifest nodes h h' : run_of nodes h h' → vs_manifest (now h') = vs_manifest (now h).
Proof.
  induction 1 as [h|h new h' n existing r _ _ _ Hv _ IH]; [done|]. rewrite IH.
  apply vendorOne_runs in Hv as (new1 & r1 & keep & Heq & Hkept & _). apply app_inv_tail in Heq as <-.
  destruct new as [|s new]; [done|]. by apply Forall_cons in Hkept as [[[_ Hm] _] _].
Qed.

(** The manifest file is replaced at once, or stays as it was. *)
Lemma Save_runs path m h h' r : Save path m h = (h', r) →
  (h' = h ∧ is_ok r = false) ∨
  (∃ data, manifest_yaml (manifest_entries m) = Ok data ∧ h' = set_manifest data (now h) :: h ∧ r = Ok tt).
Proof.
  unfold Save. intros [(e & He & ->)|(h1 & data & H1 & Hs)]%VM_bind_inv; [left; by injection He as <- _|].
  injection H1 as <- Hd%wrap_err_Ok.
  do 6 (apply VM_bind_inv in Hs as [(e & He & ->)|(? & [] & H1 & Hs)]; [left; by injection He as <- _|injection H1 as <- _]).
  injection Hs as <- <-. right. by exists data.
Qed.

(** Decoding what was encoded gives the manifest back. *)
Lemma manifest_entries_elem (m : Manifest) name e : (name, e) ∈ manifest_entries m ↔ m !! name = Some e.
Proof.
  unfold manifest_entries. rewrite list_elem_of_omap. split.
  - intros (name' & _ & Hx). destruct (m !! name') as [e'|] eqn:Hm; [|done]. by injection Hx as -> ->.
  - intros Hm. exists name. rewrite Hm. split; [|done]. apply sorted_keys_elem. by eexists.
Qed.

Lemma manifest_entries_names (m : Manifest) : (manifest_entries m).*1 = sorted_keys m.
Proof.
  unfold manifest_entries. assert (∀ name, name ∈ sorted_keys m → is_Some (m !! name)) as Hall by (intros; by apply sorted_keys_elem).
  induction (sorted_keys m) as [|name l IH]; [done|]. simpl. destruct (Hall name) as [e He]; [by left|]. rewrite He. simpl.
  f_equal. apply IH. intros name' Hn. apply Hall. by right.
Qed.

Lemma fold_entries (l : manifestFile) : NoDup l.*1 → foldl (λ m e, <[e.1 := e.2]> m) ∅ l = (list_to_map l : gmap string Entry).
Proof.
  induction l as [|[k e] l IH] using rev_ind; [done|]. rewrite fmap_app. intros Hnd. apply NoDup_app in Hnd as (Hnd & Hk & _).
  rewrite foldl_app, IH by done. simpl. rewrite list_to_map_app. simpl.
  rewrite <-insert_union_r; [by rewrite (right_id_L ∅ (∪))|].
  apply not_elem_of_list_to_map_1. intros Hin. apply (Hk k Hin). by left.
Qed.

Lemma manifest_back (m : Manifest) : foldl (λ m e, <[e.1 := e.2]> m) ∅ (manifest_entries m) = m.
Proof.
  assert (NoDup (manifest_entries m).*1) as Hnd by (rewrite manifest_entries_names; apply sorted_keys_NoDup).
  rewrite fold_entries by done. apply map_eq. intros k. apply option_eq. intros e.
  by rewrite <-elem_of_list_to_map, manifest_entries_elem.
Qed.

(** The exclusions a manifest holds for a node. *)
Definition exclusions (m : Manifest) (name : string) : list string := en_Exclude (default (MkEntry "" []) (m !! name)).

Definition vendored (results : list Result) (name : string) : Prop := MkResult name false None ∈ results.

(** What a run of the loop makes of the manifest it began with. *)
Definition recorded (m0 : Manifest) (nodes : list Node) (a : all_state) : Prop :=
  (∀ name, exclusions (as_Manifest a) name = exclusions m0 name ∧
    (vendored (as_Results a) name → ∃ n, n ∈ nodes ∧ bn_Name n = name ∧ as_Manifest a !! name = Some (MkEntry (bn_Source n) (exclusions m0 name))) ∧
    (¬ vendored (as_Results a) name → as_Manifest a !! name = m0 !! name)) ∧
  (as_Changed a = false → as_Manifest a = m0 ∧ ∀ name, ¬ vendored (as_Results a) name).

Lemma recorded_add m0 nodes a r : r ≠ MkResult (res_Node r) false None → recorded m0 nodes a → recorded m0 nodes (add_result a r).
Proof.
  intros Hr [H1 H2]. assert (∀ name, vendored (as_Results a ++ [r]) name ↔ vendored (as_Results a) name) as Hv.
  { intros name. unfold vendored. rewrite elem_of_app, list_elem_of_singleton. split; [|by left]. intros [?|<-]; [done|]. by destruct Hr. }
  split; simpl.
  - intros name. rewrite Hv. apply H1.
  - intros Hc. destruct (H2 Hc) as [-> Hno]. split; [done|]. intros name. rewrite Hv. apply Hno.
Qed.

Lemma recorded_vendored m0 nodes a n : n ∈ nodes → recorded m0 nodes a →
  recorded m0 nodes (MkAllState (<[bn_Name n := MkEntry (bn_Source n) (exclusions (as_Manifest a) (bn_Name n))]> (as_Manifest a))
    (as_Results a ++ [MkResult (bn_Name n) false None]) true).
Proof.
  intros Hn [H1 _]. unfold Manifest in *. split; [|done]. intros name. simpl. destruct (H1 name) as (He & Hyes & Hno). destruct (decide (bn_Name n = name)) as [<-|Hne].
  - unfold exclusions at 1. unfold Manifest in *. rewrite lookup_insert_eq. simpl. rewrite He. split_and!; [done| |].
    + intros _. by exists n.
    + intros Hv. destruct Hv. apply elem_of_app. right. by apply list_elem_of_singleton.
  - unfold exclusions at 1. unfold Manifest in *. rewrite lookup_insert_ne by done. fold (exclusions (as_Manifest a) name).
    assert (vendored (as_Results a ++ [MkResult (bn_Name n) false None]) name ↔ vendored (as_Results a) name) as ->.
    { unfold vendored. rewrite elem_of_app, list_elem_of_singleton. split; [|by left]. intros [?|[= ?]]; [done|]. by destruct Hne. }
    done.
Qed.

Lemma vendor_nodes_recorded m0 all nodes : (∀ n, n ∈ nodes → n ∈ all) → ∀ a h h' a', recorded m0 all a →
  vendor_nodes baseDir vendorDir opts nodes a h = (h', a') → recorded m0 all a'.
Proof.
  induction nodes as [|n nodes IH]; intros Hin a h h' a' Ha; simpl; [by intros [= _ <-]|].
  destruct (vendor_node _ _ _ a n h) as [h1 a1] eqn:Hv. assert (recorded m0 all a1) as Ha1; [|apply IH; [|done]; intros; apply Hin; by right].
  revert Hv. unfold vendor_node. destruct (negb _); [by intros [= _ <-]|].
  destruct (decide_node _ _ _ _ _); [intros [= _ <-]; by apply recorded_add| |intros [= _ <-]; by apply recorded_add].
  destruct (vendorOne n _ _ h) as [h2 [entry|e]] eqn:Hv; intros [= _ <-]; [|by apply recorded_add].
  apply vendorOne_runs in Hv as (_ & [u|e] & _ & _ & _ & _ & [= ->]). apply recorded_vendored; [apply Hin; by left|done].
Qed.

Lemma LoadManifest_eq h r h' : LoadManifest h = (h', r) → h' = h.
Proof. by intros [= <- _]. Qed.

Lemma LoadManifest_same h h' m : LoadManifest h = (h, Ok m) → vs_manifest (now h') = vs_manifest (now h) →
  vw_fault (ReadFile "manifest") h' = None → LoadManifest h' = (h', Ok m).
Proof.
  unfold LoadManifest, liftV. intros [= Hl] -> ->. f_equal. destruct (vw_fault _ h); [done|]. by destruct (vs_manifest (now h)).
Qed.

(** The manifest is what was vendored.  After a run that reported no error,
    reading the manifest back gives, for every node the run vendored, its
    source with the exclusions the user had written for it, and the old entry
    for every other name; when the run reported an error the manifest file is
    as it was. *)
Theorem manifest_recorded nodes manifestPath h h' results err m0 :
  (∀ mf data, manifest_yaml mf = Ok data → manifest_of_yaml data = Ok mf) →
  LoadManifest h = (h, Ok m0) → All nodes baseDir vendorDir manifestPath opts h = (h', (results, err)) →
  match err with
  | Some _ => vs_manifest (now h') = vs_manifest (now h)
  | None => vw_fault (ReadFile "manifest") h' = None → ∃ m, LoadManifest h' = (h', Ok m) ∧
      ∀ name, (vendored results name → ∃ n, n ∈ nodes ∧ bn_Name n = name ∧ m !! name = Some (MkEntry (bn_Source n) (exclusions m0 name))) ∧
              (¬ vendored results name → m !! name = m0 !! name)
  end.
Proof.
  intros Hcodec Hload Hall. unfold All in Hall. rewrite Hload in Hall.
  destruct (vendor_nodes _ _ _ nodes _ h) as [h1 a] eqn:Hv. pose proof (run_of_manifest _ _ _ (vendor_nodes_run _ _ _ _ _ Hv)) as Hsame.
  assert (recorded m0 nodes a) as [Hrec Hkeep].
  { eapply vendor_nodes_recorded; [done| |exact Hv]. split; [|by split; [|intros name; apply not_elem_of_nil]].
    intros name. split_and!; [done|by intros Hn%elem_of_nil|done]. }
  destruct (as_Changed a).
  - destruct (Save manifestPath (as_Manifest a) h1) as [h2 r] eqn:Hs. injection Hall as <- <- <-.
    apply Save_runs in Hs as [[-> Hr]|(data & Hd & -> & ->)]; [by destruct r|]. intros Hread. exists (as_Manifest a). split.
    + unfold LoadManifest, liftV. rewrite Hread. simpl. rewrite (Hcodec _ _ Hd). simpl. by rewrite manifest_back.
    + intros name. apply Hrec.
  - injection Hall as <- <- <-. destruct (Hkeep eq_refl) as [Hm Hno]. intros Hread. exists m0. split; [by eapply LoadManifest_same|].
    intros name. split; [|done]. intros Hn. by destruct (Hno name).
Qed.

(** Vendoring never takes local state away.  Whatever path a run changes,
    at whatever moment, is the directory of a remote node it was given, and
    when the run decided to replace it there was nothing there yet, or the
    backend was remote, or every local state file of the module that was there,
    of any workspace, with its backup, was absent or outside the tree. *)
Theorem local_state_kept nodes manifestPath h h' res : All nodes baseDir vendorDir manifestPath opts h = (h', res) →
  ∃ new, h' = new ++ h ∧ ∀ s p, s ∈ new → vs_trees s !! p ≠ vs_trees (now h) !! p →
    ∃ n h1, n ∈ nodes ∧ IsRemote (bn_Source n) = true ∧ p = node_path n ∧ (∃ later, h' = later ++ h1) ∧ may_replace h1 n.
Proof.
  unfold All, LoadManifest, liftV. destruct (match vw_fault _ h with Some _ => _ | None => _ end) as [m|e].
  2: { intros [= <- <-]. exists []. split; [done|]. by intros s p Hs%elem_of_nil. }
  destruct (vendor_nodes _ _ _ nodes _ h) as [h1 a] eqn:Hv. apply vendor_nodes_run, run_of_changes in Hv as (new & -> & Hnew).
  destruct (as_Changed a); [|intros [= <- <-]; by exists new].
  destruct (Save manifestPath (as_Manifest a) (new ++ h)) as [h2 r] eqn:Hs. intros [= <- <-].
  apply Save_runs in Hs as [[-> _]|(data & _ & -> & _)]; [by exists new|]. exists (set_manifest data (now (new ++ h)) :: new).
  split; [done|]. assert (∀ s p, s ∈ new → vs_trees s !! p ≠ vs_trees (now h) !! p → ∃ n h1, n ∈ nodes ∧ IsRemote (bn_Source n) = true ∧
    p = node_path n ∧ (∃ later, set_manifest data (now (new ++ h)) :: new ++ h = later ++ h1) ∧ may_replace h1 n) as Hold.
  { intros s p Hs Hne. destruct (Hnew s p Hs Hne) as (n & h1 & H1 & H2 & H3 & [later Hl] & H4). exists n, h1.
    split_and!; [done..| |done]. exists (set_manifest data (now (new ++ h)) :: later). by rewrite Hl. }
  intros s p [->|Hs]%elem_of_cons Hne; [|by apply (Hold s)]. destruct new as [|s1 new]; [done|]. apply (Hold s1); [by left|exact Hne].
Qed.
End Run.

(** ** What pruning removes *)

Section TreeInd.
Context (P : vtree → Prop) (HF : ∀ d, P (VFile d)) (HL : ∀ to, P (VLink to)) (HD : ∀ es, Forall (λ nt, P nt.2) es → P (VDir es)).

Fixpoint vtree_induction (t : vtree) : P t :=
  match t with
  | VFile d => HF d
  | VLink to => HL to
  | VDir es => HD es ((fix go (es : list (string * vtree)) : Forall (λ nt, P nt.2) es :=
      match es with
      | [] => List.Forall_nil _
      | nt :: es => List.Forall_cons _ _ _ (vtree_induction nt.2) (go es)
      end) es)
  end.
End TreeInd.

(** What is at a path: a file or a link with its content, or a directory. *)
Inductive kind := KFile (data : string) | KLink (to : option vtree) | KDir.
Definition kind_of (t : vtree) : kind := match t with VFile d => KFile d | VLink to => KLink to | VDir _ => KDir end.

Fixpoint find_at (t : vtree) (path : list string) : option vtree :=
  match path with
  | [] => Some t
  | c :: path => match t with VDir es => entry_of c es ≫= λ t, find_at t path | _ => None end
  end.
Definition kind_at (t : vtree) (path : list string) : option kind := kind_of <$> find_at t path.

(** The path, or a directory above it, is excluded. *)
Fixpoint pruned (all : list string) (rel path : list string) : bool :=
  match path with [] => false | c :: path => excluded all (rel ++ [c]) || pruned all (rel ++ [c]) path end.

Section PruneExact.
Context `{VendorWorld} (h : vhist) (dir : string) (all : list string).

Notation prune_tree := (prune_tree h dir all).

Definition prune_entry (rel : list string) (n : string) (t : vtree) : list (string * vtree) * option error :=
  if excluded all (rel ++ [n]) then
    match vw_remove (entry_path dir (rel ++ [n])) t h with
    | None => ([], None)
    | Some (remains, err) => (match remains with Some t => [(n, t)] | None => [] end, Some err)
    end
  else let '(t', err) := prune_tree (rel ++ [n]) t in ([(n, t')], err).

Fixpoint prune_entries (rel : list string) (es : list (string * vtree)) : list (string * vtree) * option error :=
  match es with
  | [] => ([], None)
  | (n, t) :: es =>
    let '(kept, err) := prune_entry rel n t in
    match err with
    | Some _ => (kept ++ es, err)
    | None => let '(rest, err) := prune_entries rel es in (kept ++ rest, err)
    end
  end.

Lemma prune_go rel es :
  (fix go (es : list (string * vtree)) : list (string * vtree) * option error :=
     match es with
     | [] => ([], None)
     | (n, t) :: es =>
       let '(kept, err) :=
         if excluded all (rel ++ [n]) then
           match vw_remove (entry_path dir (rel ++ [n])) t h with
           | None => ([], None)
           | Some (remains, err) => (match remains with Some t => [(n, t)] | None => [] end, Some err)
           end
         else let '(t', err) := prune_tree (rel ++ [n]) t in ([(n, t')], err) in
       match err with
       | Some _ => (kept ++ es, err)
       | None => let '(rest, err) := go es in (kept ++ rest, err)
       end
     end) es = prune_entries rel es.
Proof. induction es as [|[n t] es IH]; [done|]. cbn [prune_entries]. unfold prune_entry at 1. by rewrite IH. Qed.

Lemma prune_tree_VDir rel es : prune_tree rel (VDir es) =
  match vw_fault (ReadDir (entry_path dir rel)) h with
  | Some err => (VDir es, Some err)
  | None => let '(es, err) := prune_entries rel es in (VDir es, err)
  end.
Proof. rewrite <-prune_go. reflexivity. Qed.

Lemma entry_of_cons c n t es : entry_of c ((n, t) :: es) = if decide (n = c) then Some t else entry_of c es.
Proof. unfold entry_of. simpl. destruct (String.eqb_spec n c); case_decide; done. Qed.

Lemma prune_entry_name rel n t kept err : prune_entry rel n t = (kept, err) → ∀ c, n ≠ c → ∀ es, entry_of c (kept ++ es) = entry_of c es.
Proof.
  unfold prune_entry. intros Hp c Hne es. destruct (excluded all (rel ++ [n])).
  - destruct (vw_remove _ t h) as [[[t'|] e]|]; injection Hp as <- <-; [|done..]. simpl. rewrite entry_of_cons. by rewrite decide_False.
  - destruct (prune_tree _ t) as [t' e]. injection Hp as <- <-. simpl. rewrite entry_of_cons. by rewrite decide_False.
Qed.

(** An entry that is not excluded stays, itself pruned or not reached; one that
    is excluded is gone when nothing failed. *)
Lemma prune_entries_spec rel es : ∀ es' err, prune_entries rel es = (es', err) → ∀ c,
  if excluded all (rel ++ [c]) then err = None → entry_of c es' = None
  else match entry_of c es with
       | None => entry_of c es' = None
       | Some t => ∃ t', entry_of c es' = Some t' ∧ ((∃ e, prune_tree (rel ++ [c]) t = (t', e) ∧ (err = None → e = None)) ∨ (t' = t ∧ err ≠ None))
       end.
Proof.
  induction es as [|[n t] es IH]; intros es' err; cbn [prune_entries].
  { intros [= <- <-] c. by destruct (excluded all (rel ++ [c])). }
  destruct (prune_entry rel n t) as [kept e1] eqn:H1. pose proof (prune_entry_name _ _ _ _ _ H1) as Hother. intros Hp c.
  destruct (decide (n = c)) as [->|Hne].
  - unfold prune_entry in H1. rewrite entry_of_cons, decide_True by done. destruct (excluded all (rel ++ [c])) eqn:Hex.
    + destruct (vw_remove _ t h) as [[remains e]|]; injection H1 as <- <-; [by injection Hp as <- <-|].
      destruct (prune_entries rel es) as [rest e2] eqn:H2. injection Hp as <- <-. simpl.
      specialize (IH _ _ eq_refl c). by rewrite Hex in IH.
    + destruct (prune_tree (rel ++ [c]) t) as [t' e] eqn:Ht. injection H1 as <- <-. exists t'.
      destruct e as [e|]; [injection Hp as <- <-|destruct (prune_entries rel es) as [rest e2]; injection Hp as <- <-];
        simpl; rewrite entry_of_cons, decide_True by done; (split; [done|]); left; by eexists.
  - rewrite entry_of_cons, decide_False by done. destruct e1 as [e1|].
    + injection Hp as <- <-. rewrite Hother by done. destruct (excluded all (rel ++ [c])); [done|].
      destruct (entry_of c es) as [u|]; [|done]. exists u. split; [done|]. by right.
    + destruct (prune_entries rel es) as [rest e2] eqn:H2. injection Hp as <- <-. rewrite Hother by done. by apply IH.
Qed.

Lemma entry_of_elem c es t : entry_of c es = Some t → (c, t) ∈ es.
Proof.
  unfold entry_of. intros ([c' t'] & Hf & ->)%fmap_Some_1. apply List.find_some in Hf as [Hin Hc]. simpl in Hc.
  apply String.eqb_eq in Hc as ->. by apply list_elem_of_In.
Qed.

Lemma kind_at_VDir es c path : kind_at (VDir es) (c :: path) = entry_of c es ≫= λ t, kind_at t path.
Proof. unfold kind_at. simpl. by destruct (entry_of c es). Qed.

Lemma prune_tree_spec t : ∀ rel t' err, prune_tree rel t = (t', err) → ∀ path,
  if pruned all rel path then err = None → kind_at t' path = None else kind_at t' path = kind_at t path.
Proof.
  induction t as [d|to|es IH] using vtree_induction; intros rel t' err Hp path.
  1, 2: injection Hp as <- <-; destruct path as [|c path]; [done|]; by destruct (pruned all rel (c :: path)).
  rewrite prune_tree_VDir in Hp. destruct (vw_fault _ h); [injection Hp as <- <-; by destruct (pruned all rel path)|].
  destruct (prune_entries rel es) as [es' err'] eqn:He. injection Hp as <- <-.
  destruct path as [|c path]; [done|]. rewrite !kind_at_VDir. simpl. pose proof (prune_entries_spec _ _ _ _ He c) as Hc.
  destruct (excluded all (rel ++ [c])); simpl; [intros Herr; by rewrite (Hc Herr)|].
  destruct (entry_of c es) as [u|] eqn:Hu; [|rewrite Hc; by destruct (pruned all (rel ++ [c]) path)].
  destruct Hc as (u' & -> & [(e & Hu' & He')|[-> Herr]]); simpl; [|by destruct (pruned all (rel ++ [c]) path)].
  apply entry_of_elem in Hu. rewrite Forall_forall in IH. specialize (IH (c, u) Hu (rel ++ [c]) u' e Hu' path).
  destruct (pruned all (rel ++ [c]) path); [|done]. intros Herr. by apply IH, He'.
Qed.
End PruneExact.

(** A [.git] at any depth matches the pattern that is always there. *)
Lemma split_on_nonempty c s : split_on c s ≠ [].
Proof. destruct s as [|d s]; [done|]. cbn [split_on]. destruct (Ascii.eqb d c); [done|]. by destruct (split_on c s). Qed.

Lemma split_on_app a b : split_on slash (a +:+ String slash b) = split_on slash a ++ split_on slash b.
Proof.
  induction a as [|c a IH]; [done|]. change (String c a +:+ String slash b) with (String c (a +:+ String slash b)). cbn [split_on].
  destruct (Ascii.eqb c slash); [by rewrite IH|]. rewrite IH. destruct (split_on slash a) as [|w ws] eqn:Ha; [by destruct (split_on_nonempty slash a)|done].
Qed.

Lemma Base_last rel n : n ≠ "" → split_on slash n = [n] → Base (rel_path (rel ++ [n])) = n.
Proof.
  intros Hne Hs. unfold Base, rel_path. assert (∃ pre, split_on slash (join (rel ++ [n]) "/") = pre ++ [n]) as [pre ->].
  { induction rel as [|c [|c' rel] IH].
    - exists []. simpl. by rewrite Hs.
    - exists (split_on slash c). change (join ([c] ++ [n]) "/") with (c +:+ String slash n). by rewrite split_on_app, Hs.
    - destruct IH as [pre IH]. exists (split_on slash c ++ pre).
      change (join ((c :: c' :: rel) ++ [n]) "/") with (c +:+ String slash (join ((c' :: rel) ++ [n]) "/")).
      by rewrite split_on_app, IH, (assoc_L (++)). }
  rewrite filter_app, filter_cons_True by done. simpl. by rewrite rev_app_distr.
Qed.

Lemma git_excluded all rel : excluded (alwaysExcluded ++ all) (rel ++ [".git"]) = true.
Proof.
  pose proof (Base_last rel ".git" ltac:(done) eq_refl) as Hb. unfold excluded. apply andb_true_iff. split.
  - apply negb_true_iff, bool_decide_eq_false. intros Heq. rewrite Heq in Hb. by vm_compute in Hb.
  - unfold matchExclude. simpl. apply orb_true_iff. left. unfold pattern_matches.
    change (contains ".git" "/") with false. simpl. rewrite Hb. by vm_compute.
Qed.

Lemma git_pruned all path : ∀ rel, ".git" ∈ path → pruned (alwaysExcluded ++ all) rel path = true.
Proof.
  induction path as [|c path IH]; intros rel; [by intros ?%elem_of_nil|]. cbn [pruned]. intros [<-|Hin]%elem_of_cons.
  - by rewrite git_excluded.
  - rewrite IH by done. by rewrite orb_true_r.
Qed.

(** Pruning removes exactly what the patterns say.  A path is there
    afterwards, with what was there before, when neither it nor a directory
    above it matches a pattern; when nothing failed, every other path is gone,
    every [.git] with it.  Generated package metadata always stays, and a
    failure in the middle loses nothing that was to be kept. *)
Theorem prune_exact `{VendorWorld} h dir t patterns t' err : prune h dir t patterns = (t', err) →
  (∀ path, pruned (alwaysExcluded ++ patterns) [] path = false → kind_at t' path = kind_at t path) ∧
  (err = None → ∀ path, pruned (alwaysExcluded ++ patterns) [] path = true → kind_at t' path = None) ∧
  (err = None → ∀ path, ".git" ∈ path → kind_at t' path = None) ∧
  kind_at t' [VendoredSourceFilename] = kind_at t [VendoredSourceFilename].
Proof.
  unfold prune. intros Hp. assert (∀ path, if pruned (alwaysExcluded ++ patterns) [] path then err = None → kind_at t' path = None
    else kind_at t' path = kind_at t path) as Hspec.
  { intros path. destruct (vw_fault (Lstat dir) h); [injection Hp as <- <-; by destruct (pruned _ [] path)|]. by eapply prune_tree_spec. }
  split_and!.
  - intros path Hf. specialize (Hspec path). by rewrite Hf in Hspec.
  - intros He path Hf. specialize (Hspec path). rewrite Hf in Hspec. by apply Hspec.
  - intros He path Hg%(git_pruned patterns path []). specialize (Hspec path). rewrite Hg in Hspec. by apply Hspec.
  - exact (Hspec [VendoredSourceFilename]).
Qed.

(** ** A run *)

Definition new_source : string := "git::https://example.com/net.git?ref=v2".
Definition old_entries : manifestFile := [("net", MkEntry "git::https://example.com/net.git?ref=v1" ["*.md"])].
Definition new_entries : manifestFile := [("net", MkEntry new_source ["*.md"])].
Definition fetched_tree : vtree :=
  VDir [(".git", VDir [("HEAD", VFile "ref: v2")]); ("README.md", VFile "# net"); ("main.tf", VFile "variable x {}");
        ("sub", VDir [("notes.md", VFile ""); ("vpc.tf", VFile "resource r {}")])].
Definition kept_tree : vtree := VDir [("main.tf", VFile "variable x {}"); ("sub", VDir [("vpc.tf", VFile "resource r {}")])].
Definition old_tree : vtree := VDir [("main.tf", VFile "")].

(** Every call succeeds, but those listed. *)
Definition sample_vendor (failing : list string) : VendorWorld := {|
  vw_fault op _ := match op with Rename from to => if mem to failing then Some (External "permission denied") else None | _ => None end;
  vw_stat _ _ := Missing;
  vw_is_dir _ _ := true;
  vw_eval_symlinks p _ := Ok p;
  vw_same_file p q _ := bool_decide (p = q);
  vw_read_dir _ _ := inr tt;
  vw_inspect _ _ _ := Ok (MkSchema false ∅ ∅ ∅ "local" ∅ None true ∅);
  vw_stage_name dir _ := dir +:+ "/.terragraph-vendor-1";
  vw_remove _ _ _ := None;
  vw_left _ _ _ := None;
  getter_split src := (src, "");
  getter_get _ _ := (fetched_tree, None);
  getter_glob _ _ := Err (External "no match");
  source_json s := vsrc_Subdir s;
  source_of_json s := Ok (MkVendoredSource s);
  manifest_yaml mf := if decide (mf = new_entries) then Ok "v2" else Err (External "encoding");
  manifest_of_yaml data := if decide (data = "v2") then Ok new_entries else if decide (data = "v1") then Ok old_entries else Err (External "decoding");
|}.

Definition sample_net : Node := MkNode ∅ ∅ "net" new_source ∅ None ∅ "" ∅ "".
Definition before : vhist := [MkVState {["/w/vendor/net" := old_tree]} ∅ (Some "v1")].
Definition sample_all (failing : list string) : vhist * (list Result * option error) :=
  @All (sample_vendor failing) [sample_net] "/w" "vendor" "/w/vendor.yaml" (MkOptions false ∅) before.

Example sample_run : vs_trees (now (sample_all []).1) !! "/w/vendor/net" = Some kept_tree ∧ vs_manifest (now (sample_all []).1) = Some "v2" ∧
  (sample_all []).2 = ([MkResult "net" false None], None) ∧
  vs_trees (now (sample_all ["/w/vendor/net"]).1) !! "/w/vendor/net" = None ∧
  vs_stage (now (sample_all ["/w/vendor/net"]).1) !! ("/w/vendor/.terragraph-vendor-1", "previous") = Some old_tree.
Proof. vm_compute. split_and!; reflexivity. Qed.

Lemma vendored_copy_kept_witness : let W := sample_vendor [] in
  let run := @vendorOne W sample_net "/w/vendor/net" (MkEntry "" ["*.md"]) before in
  run.2 = Ok (MkEntry new_source ["*.md"]) ∧
  ∃ t, @produced W sample_net (MkEntry "" ["*.md"]) "/w/vendor/.terragraph-vendor-1" before t ∧ vs_trees (now run.1) !! "/w/vendor/net" = Some t.
Proof.
  intros W run. split; [vm_compute; reflexivity|].
  pose proof (@vendored_copy_kept W sample_net "/w/vendor/net" (MkEntry "" ["*.md"]) before run.1 run.2 (surjective_pairing run)) as (new & _ & _ & Hend).
  assert (run.2 = Ok (MkEntry new_source ["*.md"])) as Hr by (vm_compute; reflexivity). rewrite Hr in Hend. apply Hend.
Defined.

Lemma local_state_kept_witness : ∃ n h1, n ∈ [sample_net] ∧ IsRemote (bn_Source n) = true ∧ "/w/vendor/net" = node_path "/w" "vendor" n ∧
  (∃ later, (sample_all []).1 = later ++ h1) ∧ @may_replace (sample_vendor []) "/w" "vendor" (MkOptions false ∅) h1 n.
Proof.
  destruct (@local_state_kept (sample_vendor []) "/w" "vendor" (MkOptions false ∅) [sample_net] "/w/vendor.yaml" before
    (sample_all []).1 (sample_all []).2 (surjective_pairing _)) as (new & Heq & Hnew).
  destruct new as [|s new]; [apply (f_equal length) in Heq; vm_compute in Heq; discriminate Heq|].
  apply (Hnew s "/w/vendor/net"); [by left|]. assert (s = now (sample_all []).1) as -> by (by rewrite Heq).
  vm_compute. discriminate.
Defined.

Lemma sample_codec mf data : @manifest_yaml (sample_vendor []) mf = Ok data → @manifest_of_yaml (sample_vendor []) data = Ok mf.
Proof. simpl. destruct (decide (mf = new_entries)) as [->|]; [|done]. by intros [= <-]. Qed.

Lemma manifest_recorded_witness : ∃ m, @LoadManifest (sample_vendor []) (sample_all []).1 = ((sample_all []).1, Ok m) ∧
  m !! "net" = Some (MkEntry new_source ["*.md"]).
Proof.
  pose (m0 := {["net" := MkEntry "git::https://example.com/net.git?ref=v1" ["*.md"]]} : Manifest).
  assert (@LoadManifest (sample_vendor []) before = (before, Ok m0)) as Hload by (vm_compute; reflexivity).
  pose proof (@manifest_recorded (sample_vendor []) "/w" "vendor" (MkOptions false ∅) [sample_net] "/w/vendor.yaml" before
    (sample_all []).1 [MkResult "net" false None] None m0 sample_codec Hload ltac:(vm_compute; reflexivity) eq_refl) as (m & Hm & Hall).
  exists m. split; [exact Hm|]. destruct (Hall "net") as [(n & Hn & _ & He) _]; [by left|].
  apply list_elem_of_singleton in Hn as ->. rewrite He. vm_compute. reflexivity.
Defined.

Lemma prune_exact_witness : let t' := (@prune (sample_vendor []) before "/d" fetched_tree ["*.md"]).1 in
  t' = kept_tree ∧ kind_at t' ["sub"; "vpc.tf"] = Some (KFile "resource r {}") ∧ kind_at t' ["sub"; "notes.md"] = None ∧ kind_at t' [".git"; "HEAD"] = None.
Proof.
  intros t'. assert (@prune (sample_vendor []) before "/d" fetched_tree ["*.md"] = (t', None)) as Hp by (vm_compute; reflexivity).
  destruct (@prune_exact (sample_vendor []) before "/d" fetched_tree ["*.md"] t' None Hp) as (Hkeep & Hgone & Hgit & _).
  split; [vm_compute; reflexivity|]. split; [rewrite (Hkeep ["sub"; "vpc.tf"]); vm_compute; reflexivity|].
  split; [apply (Hgone eq_refl); vm_compute; reflexivity|]. apply (Hgit eq_refl). by left.
Defined.
