(* ===== verification/ParseSafety.v ===== *)
(** Parsing never panics (for Parse.v): under the documented behaviour of hcl
    and cty, every typed read, label and required attribute of the parser is
    guarded, function by function. *)
From S2P Require Import Prelude GoLib Cty Blueprint Contracts Hcl Parse.

Section Proofs.
Context `{Hcl} `{!HclLaws} `{MapOrder} (ParseDuration : string → result Z).

(** ** Panic freedom *)

Definition labelled (b : Block) : Prop := is_Some (head (bl_Labels b)).

Definition all_labelled (s : BodySchema) (typ : string) : bool :=
  forallb (λ h, negb (bool_decide (bh_Type h = typ)) || negb (bool_decide (bh_LabelNames h = []))) (bs_Blocks s).

Lemma conforms_label s c b : conforms s c → b ∈ ct_Blocks c → all_labelled s (bl_Type b) = true → labelled b.
Proof.
  intros (Hb & _ & _) Hin Hl. destruct (Hb b Hin) as (h & Hh & Ht & Hlen).
  unfold all_labelled in Hl. rewrite forallb_forall in Hl. apply list_elem_of_In in Hh. specialize (Hl h Hh).
  rewrite Ht, bool_decide_eq_true_2 in Hl by done. simpl in Hl.
  destruct (bh_LabelNames h) as [|x l]; [done|]. unfold labelled. destruct (bl_Labels b); [done|]. by eexists.
Qed.

Lemma conforms_labelled s c b : conforms s c → b ∈ ct_Blocks c → Forall (λ h, bh_LabelNames h ≠ []) (bs_Blocks s) → labelled b.
Proof.
  intros Hc Hb Hl. eapply conforms_label; [done..|]. unfold all_labelled. apply forallb_forall. intros h Hh.
  rewrite Forall_forall in Hl. apply list_elem_of_In in Hh. specialize (Hl h Hh).
  by rewrite (bool_decide_eq_false_2 (bh_LabelNames h = [])), orb_true_r.
Qed.

Lemma content_Ret rng body s c : content rng body s = Ret c → conforms s c.
Proof. unfold content. rewrite wrap_out_Ret, lift_Ret. apply Content_conforms. Qed.

Lemma safe_content rng body s : safe_out (content rng body s).
Proof. unfold content. apply safe_wrap, safe_lift. Qed.

Lemma safe_label0 b : labelled b → safe_out (label0 b).
Proof. unfold label0. intros [l Hl]. by rewrite Hl. Qed.

Lemma safe_get_attr s c name : conforms s c → attr name true ∈ bs_Attributes s → safe_out (get_attr c name).
Proof. intros (_ & Ha & _) Hin. unfold get_attr. destruct (Ha _ Hin eq_refl) as [a Hn]. simpl in Hn. by rewrite Hn. Qed.

Lemma safe_optional {A} c name (absent : A) read : (∀ a, safe_out (read a)) → safe_out (optional c name absent read).
Proof. intros Hr. unfold optional. by destruct (ct_Attributes c !! name). Qed.

Lemma safe_AsString v : is_string v = true → safe_out (deref (AsString v)).
Proof. intros [s ->]%AsString_string. done. Qed.

Lemma safe_literal_string e bad : safe_out (literal_string e bad).
Proof. unfold literal_string. destruct (Value e None) as [v|]; [|done]. destruct (is_string v) eqn:Hs; [by apply safe_AsString|done]. Qed.

Lemma safe_literal_attr name a : safe_out (literal_attr name a).
Proof. apply safe_literal_string. Qed.

Lemma safe_parseStringMapAttr a name : safe_out (parseStringMapAttr a name).
Proof.
  unfold parseStringMapAttr. apply safe_bind; [apply safe_wrap, safe_lift|]. intros v Hv.
  apply wrap_out_Ret, lift_Ret, Value_literal in Hv.
  apply safe_bind; [apply safe_guard|]. intros u Hm%guard_out_Ret.
  destruct (Elements_map v Hm) as [l Hl]. rewrite Hl. simpl. apply safe_foldO. intros m [k w] Hin. simpl.
  apply safe_bind; [apply safe_wrap, safe_lift|]. intros str Hstr. apply wrap_out_Ret, lift_Ret in Hstr.
  destruct (IsNull str) eqn:Hn; [done|]. apply safe_bind; [|done]. apply safe_AsString.
  eapply ConvertString_string; [done| |done]. by eapply WhollyKnown_elements.
Qed.

Lemma safe_parseVarsAttr a ev : safe_out (parseVarsAttr a ev).
Proof.
  unfold parseVarsAttr. apply safe_bind; [apply safe_wrap, safe_lift|]. intros v _.
  apply safe_bind; [apply safe_guard|]. intros u Hm%guard_out_Ret.
  destruct (Elements_map v Hm) as [l Hl]. rewrite Hl. simpl. apply safe_foldO. intros m [k w] _. simpl.
  apply safe_bind; [apply safe_wrap, safe_lift|done].
Qed.

Lemma safe_parseEnvAttr a : safe_out (parseEnvAttr a).
Proof.
  unfold parseEnvAttr. apply safe_bind; [apply safe_parseStringMapAttr|]. intros env _.
  apply safe_bind; [|done]. apply safe_foldO. intros [] k _. unfold check_env_key. destruct (cut _ _) as [[? ?] ?]. apply safe_guard.
Qed.

Lemma safe_parseApproveAttr c : safe_out (parseApproveAttr c).
Proof.
  apply safe_optional. intros a. apply safe_bind; [apply safe_wrap, safe_lift|]. intros v _.
  apply safe_bind; [apply safe_guard|]. intros u Hm%guard_out_Ret.
  apply safe_bind; [by apply safe_AsString|]. intros s _. apply safe_wrap, safe_lift.
Qed.

Lemma safe_parse_address c : safe_out (parse_address c).
Proof.
  unfold parse_address. destruct (ct_Attributes c !! _) as [a|]; [|done].
  pose proof (safe_parseStringMapAttr a "backend_address") as Hs.
  destruct (parseStringMapAttr a "backend_address"); [apply safe_lift|apply safe_lift|done].
Qed.

Lemma safe_traverse step rng : safe_out (traverseAttrName step rng).
Proof. by destruct step. Qed.

Lemma safe_parseRuntimeRef c : safe_out (parseRuntimeRef c).
Proof.
  apply safe_optional. intros a. destruct (AbsTraversalForExpr _) as [[|[r| |] [|s [|]]]|]; try done.
  case_decide; [apply safe_traverse|done].
Qed.

Lemma safe_port_of_path entity rng n path : safe_out (port_of_path entity rng n path).
Proof.
  destruct path as [|s [|k [|p [|]]]]; simpl; try done; (apply safe_bind; [apply safe_traverse|intros ? _]); try done.
  apply safe_bind; [apply safe_traverse|intros kn _]. apply safe_bind; [apply safe_traverse|intros ? _].
  by destruct (port_kind kn).
Qed.

Lemma safe_ref e rng : safe_out (parseNodeOrPortRef_at e rng).
Proof.
  unfold parseNodeOrPortRef_at. apply safe_bind; [apply safe_wrap, safe_lift|]. intros t Ht.
  apply wrap_out_Ret, lift_Ret, AbsTraversal_root in Ht. destruct t as [|[r| |] path]; try done.
  destruct (entity_of r); [apply safe_port_of_path|done].
Qed.

Lemma safe_specific rng ref : safe_out (specific_port rng ref).
Proof. unfold specific_port. by destruct (IsPort ref). Qed.

Lemma safe_parsePortRefList a : safe_out (parsePortRefList a).
Proof.
  unfold parsePortRefList. pose proof (safe_ref (at_Expr a) (at_Range a)) as Hs.
  unfold parseNodeOrPortRef. destruct (parseNodeOrPortRef_at _ _) as [r|e|]; [|clear Hs|done].
  - apply safe_bind; [apply safe_specific|done].
  - destruct (ExprList _) as [[|x l]|]; [done| |done]. apply safe_foldO. intros refs y _. unfold add_port.
    apply safe_bind; [apply safe_ref|]. intros r _. apply safe_bind; [apply safe_specific|done].
Qed.

Lemma safe_relative a : safe_out (parseRelativeOutputRef a).
Proof.
  unfold parseRelativeOutputRef. apply safe_bind; [apply safe_wrap, safe_lift|]. intros t Ht.
  apply wrap_out_Ret, lift_Ret, AbsTraversal_root in Ht. destruct t as [|[r| |] path]; try done.
  case_decide; [done|]. case_decide; [done|]. destruct path as [|s [|]]; [done|apply safe_traverse|done].
Qed.

(** A step of a safety proof: one construct of the monad, or a lemma of the database. *)
Create HintDb safe_out.
Hint Resolve safe_content safe_label0 safe_literal_string safe_literal_attr safe_parseStringMapAttr safe_parseVarsAttr
  safe_parseEnvAttr safe_parseApproveAttr safe_parse_address safe_traverse safe_parseRuntimeRef safe_ref safe_specific
  safe_parsePortRefList safe_relative safe_AsString safe_ret safe_Ret safe_Fail safe_lift safe_guard : safe_out.

Ltac safe_step :=
  match goal with
  | |- safe_out (_ ≫= _) => apply safe_bind; [|let a := fresh "a" in let E := fresh "E" in intros a E]
  | |- safe_out (wrap_out _ _) => apply safe_wrap
  | |- safe_out (optional _ _ _ _) => apply safe_optional; intros
  | |- safe_out (foldO _ _ _) => apply safe_foldO; intros
  | |- safe_out (if ?b then _ else _) => destruct b eqn:?
  | |- safe_out (match ?x with _ => _ end) => destruct x eqn:?
  | |- safe_out _ => solve [eauto with safe_out | done]
  end.
Ltac safe := repeat safe_step.

(** What a successful read of a body says about the rest. *)
Ltac known := repeat match goal with
  | E : content _ _ _ = Ret _ |- _ => apply content_Ret in E
  | E : lift (Content _ _) = Ret _ |- _ => apply lift_Ret, Content_conforms in E
  | E : wrap_out _ (lift (Content _ _)) = Ret _ |- _ => apply wrap_out_Ret, lift_Ret, Content_conforms in E
  end.

Ltac required := eapply safe_get_attr; [eassumption|solve [repeat first [apply list_elem_of_here|apply list_elem_of_further]]].
Ltac label_of := apply safe_label0; eapply conforms_label; [eassumption|eassumption|];
  repeat match goal with E : bl_Type _ = _ |- _ => rewrite E; clear E end; reflexivity.

Lemma safe_add_name ok bad acc v : IsWhollyKnown v = true → safe_out (add_name ok bad acc v).
Proof.
  intros Hk. unfold add_name. destruct (IsNull v) eqn:Hn; [done|]. destruct (decide (Kind v = KString)) as [Hs|Hs].
  - rewrite bool_decide_eq_true_2 by done. simpl. apply safe_bind; [|intros; by case_match].
    apply safe_AsString. unfold is_string. rewrite Hn, (WhollyKnown_Known v Hk), bool_decide_eq_true_2 by done. done.
  - by rewrite bool_decide_eq_false_2.
Qed.

Lemma safe_literal_list e ok bad1 bad2 acc : safe_out (literal_list e ok bad1 bad2 acc).
Proof.
  unfold literal_list. destruct (Value e None) as [v|] eqn:Hv; [|done]. apply Value_literal in Hv.
  destruct (_ || _); [done|]. apply safe_foldO. intros s w Hw. apply safe_add_name. by eapply WhollyKnown_slice.
Qed.
Hint Resolve safe_literal_list : safe_out.

Lemma safe_edge b : safe_out (parseEdgeBlock b).
Proof.
  unfold parseEdgeBlock. apply safe_bind; [apply safe_content|]. intros c Hc. known.
  apply safe_bind; [required|]. intros fa _. apply safe_bind; [apply safe_ref|]. intros from _.
  apply safe_bind; [required|]. intros ta _. apply safe_bind; [apply safe_ref|]. intros to _.
  destruct (OfType _ _) as [|i l] eqn:Ho; [by repeat case_match|]. unfold parseEdgeInputs.
  destruct (_ || _); [done|]. apply safe_bind; [|by intros []]. apply safe_foldO. intros [es seen] x Hx.
  rewrite <-Ho in Hx. unfold OfType in Hx. apply list_elem_of_filter in Hx as [Ht Hx]. simpl.
  apply safe_bind; [label_of|]. intros name _. case_decide; [done|].
  apply safe_bind; [apply safe_content|]. intros ic Hic. known.
  apply safe_bind; [required|]. intros a _. apply safe_bind; [apply safe_relative|done].
Qed.

Lemma safe_binding acc c b : conforms nodeSchema c → b ∈ ct_Blocks c → safe_out (add_binding acc b).
Proof.
  intros Hc Hb. unfold add_binding. destruct acc as [ins creds].
  apply safe_bind; [apply safe_lift|]. intros bc Hbc. known.
  apply safe_bind; [required|]. intros from _.
  apply safe_bind.
  { apply safe_label0. apply (conforms_labelled _ _ _ Hc); [done|]. by repeat constructor. }
  intros label _. apply safe_bind; [unfold binding_target; by repeat case_match|]. intros [al fe] _.
  apply safe_bind; [required|]. intros ra _. apply safe_bind; [apply safe_parseVarsAttr|]. intros ref _.
  apply safe_bind.
  { apply safe_optional. intros a. case_decide; [done|apply safe_literal_list]. }
  intros env _. by repeat case_match.
Qed.

Lemma safe_node ev b : labelled b → safe_out (parseNodeBlock ev b).
Proof.
  intros Hb. unfold parseNodeBlock. apply safe_bind; [apply safe_content|]. intros c Hc. known.
  apply safe_bind; [by apply safe_label0|]. intros name _. apply safe_bind; [apply safe_guard|]. intros [] _.
  apply safe_bind; [required|]. intros sa _. apply safe_bind.
  { unfold read_source. apply safe_bind; [apply safe_wrap, safe_lift|]. intros v _.
    apply safe_bind; [apply safe_guard|]. intros ? ?%guard_out_Ret. by apply safe_AsString. }
  intros src _. do 5 (apply safe_bind; [unfold parseBackendConfig; safe|intros ? _]).
  apply safe_bind; [safe|intros addr _]. apply safe_bind; [|by intros []]. apply safe_wrap, safe_foldO.
  intros acc x Hx. by eapply safe_binding.
Qed.

Lemma safe_use ev b : labelled b → safe_out (parseUseBlock ev b).
Proof.
  intros Hb. unfold parseUseBlock. apply safe_bind; [apply safe_content|]. intros c Hc. known.
  apply safe_bind; [required|]. intros aa _. apply safe_bind; [apply safe_literal_attr|]. intros as_ _.
  apply safe_bind; [apply safe_guard|]. intros [] _.
  apply safe_bind; [required|]. intros sa _. unfold parseBackendConfig. safe.
Qed.

Lemma safe_export b : safe_out (parseExportBlock b).
Proof.
  unfold parseExportBlock. apply safe_bind; [apply safe_content|]. intros c Hc. known.
  apply safe_bind; [|done]. apply safe_foldO. intros st x Hx. unfold export_block.
  case_decide as Ht; [|case_decide as Ht2; [|done]].
  - apply safe_bind; [label_of|]. intros name _. unfold parse_export_input. case_decide; [done|].
    apply safe_bind; [apply safe_content|]. intros ic Hic. known. apply safe_bind; [required|]. intros ta _. safe.
  - apply safe_bind; [label_of|]. intros name _. unfold parse_export_output. case_decide; [done|].
    apply safe_bind; [apply safe_content|]. intros ic Hic. known. apply safe_bind; [required|]. intros ta _.
    unfold parseNodeOrPortRef. safe.
Qed.

Lemma safe_port_contract port role kind scope name : safe_out (parsePortContract port role kind scope name).
Proof.
  unfold parsePortContract. apply safe_bind; [apply safe_content|]. intros c _. apply safe_foldO. intros pc [k a] _.
  unfold contract_attr. case_decide.
  - unfold contract_type. safe.
  - apply safe_bind; [safe|]. intros v Hv. apply wrap_out_Ret, lift_Ret, Value_literal, WhollyKnown_Known in Hv.
    destruct (mem _ _); [|done]. rewrite Hv. simpl. destruct (IsNull v); [done|]. simpl.
    destruct (decide (Kind v = KBool)) as [Hk|Hk]; [|by rewrite bool_decide_eq_false_2].
    rewrite bool_decide_eq_true_2 by done. simpl. destruct (True_bool v Hv Hk) as [x ->]. simpl. by case_decide.
Qed.

Lemma safe_contracts baseDir acc b : labelled b → safe_out (parseContractSideBlock baseDir acc b).
Proof.
  intros Hb. unfold parseContractSideBlock. destruct acc as [cs seen].
  apply safe_bind; [by apply safe_label0|]. intros scope _. case_decide; [done|]. destruct (isAbsoluteAnywhere scope); [done|].
  apply safe_bind; [apply safe_content|]. intros c Hc. known. apply safe_bind; [|done]. apply safe_foldO. intros st x Hx.
  unfold contract_port. apply safe_bind.
  { apply safe_label0. apply (conforms_labelled _ _ _ Hc); [done|]. by repeat constructor. }
  intros name _. destruct (decide (bl_Type x ≠ _)); [done|]. destruct (decide (_ ∈ ss_seen st)); [done|].
  apply safe_bind; [apply safe_port_contract|done].
Qed.

Hint Resolve safe_edge safe_node safe_use safe_export safe_contracts : safe_out.

Lemma safe_endpoint ref ns us : safe_out (validateEndpointKnown ref ns us).
Proof. unfold validateEndpointKnown. by case_decide; apply safe_guard. Qed.

Lemma safe_edge_known ns us e : safe_out (edge_known ns us e).
Proof. unfold edge_known. apply safe_bind; [apply safe_endpoint|intros; apply safe_endpoint]. Qed.
Hint Resolve safe_endpoint safe_edge_known : safe_out.

Lemma safe_group baseDir ev b : labelled b → safe_out (parseGroupBlock baseDir ev b).
Proof.
  intros Hb. unfold parseGroupBlock. apply safe_bind; [apply safe_content|]. intros c Hc. known.
  apply safe_bind; [by apply safe_label0|]. intros name _. apply safe_bind; [apply safe_guard|]. intros [] _.
  apply safe_bind.
  - apply safe_foldO. intros [g ns us ps saw] x Hx. unfold group_block.
    case_decide as E1; [apply safe_bind; [apply safe_node; eapply conforms_label; [done..|by rewrite E1]|intros; by case_match]|].
    case_decide as E2; [apply safe_bind; [apply safe_edge|done]|].
    case_decide as E3; [apply safe_bind; [apply safe_use; eapply conforms_label; [done..|by rewrite E3]|intros; by case_match]|].
    destruct (mem (bl_Type x) ["producer"; "consumer"]) eqn:E4.
    + apply safe_bind; [|by intros []]. apply safe_contracts. eapply conforms_label; [done..|].
      apply mem_true in E4. rewrite !elem_of_cons, elem_of_nil in E4. by destruct E4 as [->|[->|[]]].
    + case_decide; [|done]. destruct saw; [done|]. apply safe_bind; [apply safe_export|done].
  - intros st _. unfold group_edge_known, export_input_known, export_output_known. safe.
Qed.

Lemma safe_lock b : safe_out (parseLockBlock b).
Proof.
  assert (∀ blocks, safe_out (one_backend b blocks)) as Hone.
  { intros [|x [|]]; simpl; try done. apply safe_bind; [|done]. unfold parseLockS3Block.
    apply safe_bind; [apply safe_content|]. intros c Hc. known.
    do 3 (apply safe_bind; [unfold lock_field; apply safe_bind; [required|intros; safe]|intros ? _]). done. }
  unfold parseLockBlock. destruct (SyntaxBody _) as [[attrs blocks]|].
  - unfold parseLockSyntaxBody. destruct (range attrs) as [|[]]; [|done].
    apply safe_bind; [apply safe_foldO; intros; apply safe_guard|intros; apply Hone].
  - unfold parse_lock_partial. apply safe_bind; [apply safe_wrap, safe_lift|]. intros [c r] _.
    apply safe_bind; [by repeat case_match|intros; apply Hone].
Qed.

Lemma safe_runtime b : labelled b → safe_out (parseRuntimeBlock b).
Proof.
  intros Hb. unfold parseRuntimeBlock. apply safe_bind; [apply safe_content|]. intros c Hc. known.
  apply safe_bind; [by apply safe_label0|]. intros name _. apply safe_bind; [apply safe_guard|]. intros [] _.
  apply safe_bind; [required|]. intros ba _. apply safe_bind; [apply safe_literal_attr|]. intros bin _.
  case_decide; [done|]. apply safe_bind; [apply safe_optional; intros; apply safe_literal_attr|]. intros v _.
  apply safe_bind; [|done]. apply safe_optional. intros a. destruct (Value _ _) as [w|] eqn:Hw; [|done].
  case_decide as Hk; [|done]. apply Value_literal, WhollyKnown_Known in Hw. by destruct (True_bool w Hw Hk) as [x ->].
Qed.

Lemma safe_execution b : safe_out (parse_execution ParseDuration b).
Proof.
  unfold parse_execution. apply safe_bind; [safe|]. intros c _. apply safe_bind; [|intros; apply safe_lift].
  apply safe_foldO. intros m kv _. unfold execution_value. safe.
Qed.

Lemma safe_plugin b : labelled b → safe_out (parsePluginBlock ParseDuration b).
Proof.
  intros Hb. unfold parsePluginBlock. apply safe_bind; [by apply safe_label0|]. intros name _.
  destruct (negb _); [done|]. apply safe_bind; [safe|]. intros c Hc. known. apply safe_bind.
  - apply safe_foldO. intros m [k []] Hk. unfold plugin_field. apply safe_bind; [|intros; safe].
    simpl. assert (k = "source" ∨ k = "version") as [->| ->]; [|required..].
    apply range_elem in Hk. unfold plugin_strings in Hk. simpl in Hk. rewrite !lookup_insert in Hk.
    destruct (decide ("source" = k)); [by left|]. destruct (decide ("version" = k)); [by right|done].
  - intros fields _. apply safe_bind; [safe|]. intros config _. apply safe_foldO. intros p x Hx. unfold plugin_block.
    case_decide as E1; [|case_decide as E2; [|done]].
    + unfold plugin_feature. apply safe_bind; [safe|]. intros fc _. apply safe_bind; [label_of|]. intros fname _.
      destruct (bool_decide _); [done|]. apply safe_bind; [|done]. apply safe_foldO. intros f [k a] _.
      unfold feature_attr. safe.
    + unfold plugin_access. destruct (pg_Environment p); [done|]. apply safe_bind; [safe|]. intros ac _.
      apply safe_bind; [safe|]. intros env _. apply safe_bind; [|done]. apply safe_optional. intros a. unfold plan_access.
      destruct (Value _ _) as [w|] eqn:Hw; [|done]. apply Value_literal, WhollyKnown_Known in Hw. rewrite Hw.
      destruct (IsNull w); [done|]. simpl. destruct (decide (Kind w = KBool)) as [Hk|Hk]; [|by rewrite bool_decide_eq_false_2].
      rewrite bool_decide_eq_true_2 by done. simpl. by destruct (True_bool w Hw Hk) as [y ->].
Qed.
Hint Resolve safe_group safe_lock safe_runtime safe_execution safe_plugin : safe_out.

Lemma safe_once {A} taken dup (m : outcome A) : safe_out m → safe_out (once taken dup m).
Proof. by destruct taken. Qed.

Lemma safe_settings b : safe_out (parseVendorBlock b) ∧ safe_out (parseTFVarsBlock b) ∧ safe_out (parseContractsBlock b) ∧
  safe_out (parseSnapshotsBlock b).
Proof.
  split_and!.
  - unfold parseVendorBlock. safe.
  - unfold parseTFVarsBlock. apply safe_bind; [safe|]. intros c _. apply safe_optional. intros a.
    apply safe_bind; [safe|]. intros loc _. unfold check_location. safe.
  - unfold parseContractsBlock. apply safe_bind; [apply safe_content|]. intros c Hc. known.
    apply safe_bind; [required|]. intros a _. safe.
  - unfold parseSnapshotsBlock. safe.
Qed.

(** One arm of the dispatch on the block type. *)
Ltac branch typ E := destruct (decide (_ = typ)) as [E|_]; [apply safe_bind; [|intros ? _; by repeat case_match]|].
Ltac of_type Hl E := apply Hl; rewrite E; apply (bool_decide_unpack _); vm_compute; exact I.

Lemma safe_top baseDir ev st b : (bl_Type b ∈ ["plugin"; "node"; "group"; "use"; "runtime"; "producer"; "consumer"] → labelled b) →
  safe_out (top_block ParseDuration baseDir ev st b).
Proof.
  intros Hl. destruct (safe_settings b) as (Hv & Ht & Hc & Hs). unfold top_block.
  branch "plugin" E; [apply safe_plugin; of_type Hl E|]. branch "node" E; [apply safe_node; of_type Hl E|].
  branch "edge" E; [apply safe_edge|]. branch "group" E; [apply safe_group; of_type Hl E|].
  branch "use" E; [apply safe_use; of_type Hl E|].
  branch "vendor" E; [by apply safe_once|]. branch "tfvars" E; [by apply safe_once|].
  branch "lock" E; [apply safe_once, safe_lock|]. branch "runtime" E; [apply safe_runtime; of_type Hl E|].
  destruct (mem _ _) eqn:Em.
  - apply safe_bind; [|by intros []]. apply safe_contracts, Hl. apply mem_true in Em. set_solver.
  - branch "contracts" E; [by apply safe_once|]. branch "execution" E; [apply safe_once, safe_execution|].
    branch "snapshots" E; [by apply safe_once|]. done.
Qed.

Lemma top_labelled c b : conforms topSchema c → b ∈ ct_Blocks c →
  bl_Type b ∈ ["plugin"; "node"; "group"; "use"; "runtime"; "producer"; "consumer"] → labelled b.
Proof.
  intros Hc Hb Ht. eapply conforms_label; [done..|]. rewrite !elem_of_cons, elem_of_nil in Ht.
  by destruct Ht as [->|[->|[->|[->|[->|[->|[->|[]]]]]]]].
Qed.

Section Files.
Context (fs : BlueprintFS) (ev : option EvalContext).

Lemma safe_one_file path st : safe_out (parseOneFile ParseDuration fs ev path st).
Proof.
  unfold parseOneFile. do 3 (apply safe_bind; [safe|intros ? _]). apply safe_bind; [safe|]. intros c Hc. known.
  apply safe_foldO. intros st' b Hb. apply safe_top. intros Ht. by eapply top_labelled.
Qed.

Lemma safe_merged st : safe_out (validate_merged st).
Proof. unfold validate_merged, validateEdges, validateRuntimes, group_runtimes, scope_runtimes, check_node_runtime, check_use_runtime, checkRef. safe. Qed.

Lemma safe_parseDir dir : safe_out (parseDir ParseDuration fs ev dir).
Proof.
  unfold parseDir. apply safe_bind; [safe|]. intros l _. apply safe_bind; [apply safe_foldO; intros; apply safe_one_file|].
  intros st _. apply safe_bind; [apply safe_merged|done].
Qed.

Lemma safe_partial path what s : safe_out (partial_blocks fs path what s).
Proof. unfold partial_blocks. safe. Qed.

Lemma partial_Ret path what s bs : partial_blocks fs path what s = Ret bs → ∃ c, conforms s c ∧ ct_Blocks c = bs.
Proof.
  unfold partial_blocks. intros (? & _ & Hk)%out_bind_Ret. apply out_bind_Ret in Hk as (? & _ & Hk).
  apply out_bind_Ret in Hk as ([c r] & Hc & [= <-]). apply wrap_out_Ret, lift_Ret, PartialContent_conforms in Hc. eauto.
Qed.

Lemma safe_LoadPath path : safe_out (LoadPath ParseDuration fs ev path).
Proof.
  unfold LoadPath. apply safe_bind; [safe|]. intros [] _.
  - apply safe_bind; [apply safe_parseDir|]. intros [bp n] _. by case_decide.
  - apply safe_bind; [|done]. unfold ParseFile. apply safe_bind; [apply safe_one_file|intros; apply safe_merged].
Qed.

Lemma safe_config_files path f : safe_out (config_files fs path f).
Proof. unfold config_files. safe. Qed.

Lemma safe_LoadPlugins path : safe_out (LoadPlugins ParseDuration fs path).
Proof.
  unfold LoadPlugins. apply safe_bind; [apply safe_config_files|]. intros [[files dir] d] _.
  apply safe_bind; [safe|]. intros a _. apply safe_bind; [|done]. apply safe_foldO. intros cs file _.
  apply safe_bind; [apply safe_partial|]. intros bs (c & Hc & <-)%partial_Ret. apply safe_foldO. intros cs' b Hb.
  unfold load_plugin. apply safe_bind; [|intros; by case_match]. apply safe_plugin.
  apply (conforms_labelled _ _ _ Hc); [done|]. by repeat constructor.
Qed.

Lemma safe_LoadMetadata path : safe_out (LoadMetadata ParseDuration fs path).
Proof.
  unfold LoadMetadata. apply safe_bind; [apply safe_config_files|]. intros [[files dir] d] _.
  destruct (_ && _); [done|]. apply safe_bind; [|intros; safe]. apply safe_foldO. intros bp file _.
  apply safe_bind; [apply safe_partial|]. intros bs _. apply safe_foldO. intros bp' b _. unfold metadata_block.
  case_decide; [apply safe_bind; [apply safe_once, safe_lock|done]|].
  case_decide; [apply safe_bind; [apply safe_once, safe_execution|done]|done].
Qed.
End Files.
End Proofs.
