(* ===== verification/ParseProofs.v ===== *)
(** What parsing guarantees (for Parse.v): it never panics on any
    configuration; what it accepts is a well-formed scope, which is what graph
    building (ExpandProofs.v) relies on; and an edge with input blocks means
    the edges it abbreviates. *)
From S2P Require Import Prelude GoLib Cty Blueprint Module Graph Tarjan Topo Selection Backend Contracts Validate Expand ExpandProofs.
From S2P Require Import Hcl HclSample Parse ParseSafety.

Section Proofs.
Context `{Hcl} `{!HclLaws} `{MapOrder} (ParseDuration : string → result Z).

(** ** References and edges *)

Lemma port_of_path_shape entity rng n path r : (∀ x, TraverseAttr x ∈ path → x ≠ "") →
  port_of_path entity rng n path = Ret r → pr_Entity r = entity ∧
  (bare_ref r ∨ (pr_Kind r ≠ KindBare ∧ pr_Name r ≠ "")).
Proof.
  intros Hn. destruct path as [|s [|k [|q [|]]]]; simpl; try done; intros (nm & Hs & Hk)%out_bind_Ret; try done.
  - injection Hk as <-. split; [done|]. by left.
  - apply out_bind_Ret in Hk as (kn & _ & Hk). apply out_bind_Ret in Hk as (pn & Hp & Hk).
    destruct (port_kind kn) as [kind|] eqn:Hkind; [|done]. injection Hk as <-. split; [done|]. right. simpl. split.
    + unfold port_kind in Hkind. repeat case_decide; by simplify_eq.
    + destruct q; try done. injection Hp as <-. apply Hn. set_solver.
Qed.

Lemma ref_shape e rng r : parseNodeOrPortRef_at e rng = Ret r → bare_ref r ∨ (pr_Kind r ≠ KindBare ∧ pr_Name r ≠ "").
Proof.
  unfold parseNodeOrPortRef_at. intros (t & Ht & Hk)%out_bind_Ret. apply wrap_out_Ret, lift_Ret in Ht.
  destruct t as [|[root| |] path]; try done. destruct (entity_of root); [|done].
  eapply port_of_path_shape; [|done]. intros x Hx. eapply Traversal_names; [done|]. by right.
Qed.

Lemma relative_shape a o : parseRelativeOutputRef a = Ret o → o ≠ "".
Proof.
  unfold parseRelativeOutputRef. intros (t & Ht & Hk)%out_bind_Ret. apply wrap_out_Ret, lift_Ret in Ht.
  destruct t as [|[root| |] path]; try done. case_decide; [done|]. case_decide; [done|].
  destruct path as [|s [|]]; try done. destruct s; try done. injection Hk as <-. eapply Traversal_names; [done|]. set_solver.
Qed.

Lemma IsPort_bare r : IsPort r = false → bare_ref r ∨ (pr_Kind r ≠ KindBare ∧ pr_Name r ≠ "") → bare_ref r.
Proof. unfold IsPort. intros Hb [?|[Hk _]]; [done|]. by rewrite bool_decide_eq_false_2 in Hb. Qed.

Lemma edge_inputs_kinds from to l : ∀ es seen es' seen', (∀ e, e ∈ es → edge_kinds e) →
  foldO (edge_input from to) (es, seen) l = Ret (es', seen') → ∀ e, e ∈ es' → edge_kinds e.
Proof.
  induction l as [|b l IH]; intros es seen es' seen' Hes; simpl; [by intros [= <- <-]|].
  intros ([es1 seen1] & X1 & X2)%out_bind_Ret. eapply IH; [|done].
  apply out_bind_Ret in X1 as (name & _ & Hk). case_decide; [done|].
  apply out_bind_Ret in Hk as (ic & _ & Hk). apply out_bind_Ret in Hk as (a & _ & Hk).
  apply out_bind_Ret in Hk as (o & Ho & [= <- _]). apply relative_shape in Ho.
  intros e [He| ->%list_elem_of_singleton]%elem_of_app; [by apply Hes|]. left. by split.
Qed.

Lemma edge_block_kinds b es : parseEdgeBlock b = Ret es → ∀ e, e ∈ es → edge_kinds e.
Proof.
  unfold parseEdgeBlock. intros (c & _ & Hk)%out_bind_Ret. apply out_bind_Ret in Hk as (fa & _ & Hk).
  apply out_bind_Ret in Hk as (from & Hf & Hk). apply out_bind_Ret in Hk as (ta & _ & Hk).
  apply out_bind_Ret in Hk as (to & Ht & Hk). apply ref_shape in Hf, Ht.
  destruct (OfType _ _) as [|i l].
  - destruct (negb _) eqn:E1; [done|]. destruct (IsPort from && negb (bool_decide (pr_Kind from = _))) eqn:E2; [done|]. destruct (IsPort from && negb (bool_decide (pr_Kind to = _))) eqn:E3; [done|].
    injection Hk as <-. intros e ->%list_elem_of_singleton. apply negb_false_iff, eqb_prop in E1.
    destruct (IsPort from) eqn:Hp; simpl in *.
    + apply negb_false_iff, bool_decide_eq_true in E2, E3. left. split; [|done]. split; [done|].
      destruct Hf as [[Hb _]|[_ ?]]; [|done]. simpl in *. congruence.
    + right. split; simpl; by apply IsPort_bare.
  - unfold parseEdgeInputs in Hk. destruct (_ || _); [done|]. apply out_bind_Ret in Hk as ([es' seen] & Hk & [= <-]).
    eapply edge_inputs_kinds; [|done]. intros e He. by apply elem_of_nil in He.
Qed.

Lemma port_list_shape a refs : parsePortRefList a = Ret refs → ∀ r, r ∈ refs → pr_Kind r ≠ KindBare.
Proof.
  assert (∀ rng r r', specific_port rng r = Ret r' → pr_Kind r' ≠ KindBare) as Hs.
  { intros rng r r'. unfold specific_port, IsPort. case_bool_decide; simpl; [done|]. by intros [= <-]. }
  unfold parsePortRefList. destruct (parseNodeOrPortRef a) as [r|e|]; [| |done].
  - intros (r' & Hr & [= <-])%out_bind_Ret r0 ->%list_elem_of_singleton. by eapply Hs.
  - destruct (ExprList _) as [[|x l]|]; try done. intros Hf.
    refine (foldO_inv _ (λ refs, ∀ r, r ∈ refs → pr_Kind r ≠ KindBare) _ _ _ _ _ Hf); [|intros r Hr; by apply elem_of_nil in Hr].
    intros s y s' _ Hin Hadd r. unfold add_port in Hadd. apply out_bind_Ret in Hadd as (? & _ & Hadd).
    apply out_bind_Ret in Hadd as (r0 & Hr0 & [= <-]). intros [?| ->%list_elem_of_singleton]%elem_of_app; [by apply Hin|by eapply Hs].
Qed.

Lemma foldO_checks {A} (f : A → outcome unit) l u : foldO (λ _ a, f a) u l = Ret tt → ∀ a, a ∈ l → f a = Ret tt.
Proof.
  revert u. induction l as [|a l IH]; intros u; simpl; [intros _ a Ha; by apply elem_of_nil in Ha|].
  intros ([] & Ha & Hl)%out_bind_Ret b [->|Hb]%elem_of_cons; [done|]. by eapply IH.
Qed.

Lemma export_block_ok b ex : parseExportBlock b = Ret ex → export_ok ex.
Proof.
  unfold parseExportBlock. intros (c & _ & Hk)%out_bind_Ret. apply out_bind_Ret in Hk as (st & Hf & [= <-]).
  refine (foldO_inv _ (λ st, export_ok (es_export st)) _ _ _ _ _ Hf).
  2: { split; intros x; [intros r|]; intros Hx; by apply elem_of_nil in Hx. }
  intros s x s' _ [Hi Ho] Hx. unfold export_block in Hx. case_decide.
  - apply out_bind_Ret in Hx as (name & _ & Hx). unfold parse_export_input in Hx. case_decide; [done|].
    apply out_bind_Ret in Hx as (ic & _ & Hx). apply out_bind_Ret in Hx as (ta & _ & Hx).
    apply out_bind_Ret in Hx as (refs & Hrefs & Hx). apply out_bind_Ret in Hx as ([] & Hc & [= <-]). split; [|done].
    intros i r [Hin| ->%list_elem_of_singleton]%elem_of_app; [by eapply Hi|]. simpl. intros Hr.
    apply (foldO_checks _ _ _ Hc) in Hr. unfold input_target in Hr. apply guard_out_Ret, bool_decide_eq_true in Hr. done.
  - case_decide; [|by injection Hx as <-].
    apply out_bind_Ret in Hx as (name & _ & Hx). unfold parse_export_output in Hx. case_decide; [done|].
    apply out_bind_Ret in Hx as (oc & _ & Hx). apply out_bind_Ret in Hx as (fa & _ & Hx).
    apply out_bind_Ret in Hx as (r & Hr & Hx). destruct (_ || _) eqn:E; [done|]. injection Hx as <-. split; [done|].
    intros o [Hin| ->%list_elem_of_singleton]%elem_of_app; [by apply Ho|]. simpl.
    apply orb_false_iff in E as [E1 E2]. apply negb_false_iff in E1, E2. apply bool_decide_eq_true in E2.
    split; [done|]. apply ref_shape in Hr as [[Hb _]|[_ ?]]; [congruence|done].
Qed.

(** ** Well-formed declarations *)

Definition env_clean (env : gmap string string) : Prop :=
  ∀ k v, env !! k = Some v → EqualFold (cut "="%char k).1.1 "TF_DATA_DIR" = false.
Definition approve_ok (a : Approve) : Prop := a ∈ [""; ApproveNone; ApproveSafe; ApproveAll].
Definition address_ok (a : option (gmap string string)) : Prop :=
  ∀ m k v, a = Some m → m !! k = Some v →
    k = "s3_key_prefix" ∨ (k = "s3_key_name" ∧ v ∉ [""; "."; ".."] ∧ contains_any v "/\" = false).
Definition credential_ok (b : PluginBinding) : Prop :=
  pb_Environment b ≠ [] ∧ ∀ k, k ∈ pb_Environment b → CredentialEnvironmentAllowed k = true.

Record node_wf (n : Node) : Prop := {
  nw_name : nameRegexp (bn_Name n) = true;
  nw_env : env_clean (bn_Env n);
  nw_approve : approve_ok (bn_Approve n);
  nw_address : address_ok (bn_BackendAddress n);
  nw_credentials : ∀ k b, bn_Credentials n !! k = Some b → credential_ok b;
}.

Record use_wf (u : Use) : Prop := {
  uw_name : nameRegexp (u_As u) = true;
  uw_env : env_clean (u_Env u);
  uw_approve : approve_ok (u_Approve u);
  uw_address : address_ok (u_BackendAddress u);
}.

Lemma parseEnv_clean a env : parseEnvAttr a = Ret env → env_clean env.
Proof.
  unfold parseEnvAttr. intros (m & _ & Hk)%out_bind_Ret. apply out_bind_Ret in Hk as ([] & Hc & [= <-]).
  intros k v Hv. assert (k ∈ sorted_keys m) as Hin by (rewrite sorted_keys_elem; eauto).
  apply (foldO_checks _ _ _ Hc) in Hin. unfold check_env_key in Hin. destruct (cut "="%char k) as [[name x] y].
  apply guard_out_Ret, negb_true_iff in Hin. done.
Qed.

Lemma optional_Ret {A} (P : A → Prop) c name absent read x : P absent → (∀ a y, read a = Ret y → P y) →
  optional c name absent read = Ret x → P x.
Proof. unfold optional. intros Ha Hr. destruct (ct_Attributes c !! name) as [a|]; [apply Hr|by intros [= <-]]. Qed.

Lemma parseApprove_ok c a : parseApproveAttr c = Ret a → approve_ok a.
Proof.
  apply (optional_Ret approve_ok); [by left|]. intros at_ y (v & _ & Hk)%out_bind_Ret.
  apply out_bind_Ret in Hk as (? & _ & Hk). apply out_bind_Ret in Hk as (s & _ & Hk).
  apply wrap_out_Ret, lift_Ret in Hk. unfold ParseApprove in Hk. case_decide as Hs; [|done]. injection Hk as <-.
  unfold approve_ok. set_solver.
Qed.

Lemma parse_address_ok c a : parse_address c = Ret a → address_ok a.
Proof.
  unfold parse_address. destruct (ct_Attributes c !! _) as [at_|]; [|by intros [= <-]].
  destruct (parseStringMapAttr _ _) as [m|e|]; [|done|done]. simpl.
  intros Hk%lift_Ret. apply result_bind_Ok in Hk as ([] & Hf & [= <-]). intros m' k v [= <-] Hv.
  apply range_elem in Hv. assert (check_address_field (at_Range at_) (k, v) = Ok tt) as Hc.
  { pose proof (proj1 (foldM_checks (check_address_field (at_Range at_)) (range m)) Hf) as Hall. by apply Hall. }
  unfold check_address_field in Hc. case_decide; [by left|]. case_decide; [|done]. right.
  destruct (_ || _) eqn:E; [done|]. apply orb_false_iff in E as [E1 E2]. apply bool_decide_eq_false in E1.
  split_and!; [done| |done]. set_solver.
Qed.

Lemma literal_list_ok e ok bad1 bad2 acc l : (∀ k, k ∈ acc → ok k = true) → literal_list e ok bad1 bad2 acc = Ret l →
  ∀ k, k ∈ l → ok k = true.
Proof.
  intros Hacc. unfold literal_list. destruct (Value _ _) as [v|]; [|done]. destruct (_ || _); [done|]. intros Hf.
  refine (foldO_inv _ (λ acc, ∀ k, k ∈ acc → ok k = true) _ _ _ _ Hacc Hf).
  intros s w s' _ Hs Hw. unfold add_name in Hw. destruct (_ || _); [done|]. apply out_bind_Ret in Hw as (x & _ & Hw).
  destruct (ok x) eqn:Hx; [|done]. injection Hw as <-. intros k [?| ->%list_elem_of_singleton]%elem_of_app; [by apply Hs|done].
Qed.

Lemma bindings_credentials bs ins creds : parsePluginBindings bs = Ret (ins, creds) →
  ∀ k b, creds !! k = Some b → credential_ok b.
Proof.
  unfold parsePluginBindings. intros Hf.
  refine (foldO_inv _ (λ acc : bindings * bindings, ∀ k b, acc.2 !! k = Some b → credential_ok b) _ _ _ (_, _) _ Hf); [|done].
  intros [i c] x [i' c'] _ Hc Hx. simpl in Hc. unfold add_binding in Hx.
  apply out_bind_Ret in Hx as (bc & _ & Hx). apply out_bind_Ret in Hx as (from & _ & Hx).
  apply out_bind_Ret in Hx as (label & _ & Hx). apply out_bind_Ret in Hx as ([al fe] & _ & Hx).
  apply out_bind_Ret in Hx as (ra & _ & Hx). apply out_bind_Ret in Hx as (ref & _ & Hx).
  apply out_bind_Ret in Hx as (env & Henv & Hx).
  assert (∀ k, k ∈ env → CredentialEnvironmentAllowed k = true) as Hall.
  { revert Henv. apply (optional_Ret (λ env, ∀ k, k ∈ env → CredentialEnvironmentAllowed k = true));
      [intros k Hk; by apply elem_of_nil in Hk|]. intros a y. destruct (decide (bl_Type x ≠ _)); [by intros Hd|]. apply literal_list_ok.
    intros k Hk. by apply elem_of_nil in Hk. }
  simpl in Hx. case_decide.
  - destruct (bool_decide (env = [])) eqn:He; [done|]. destruct (bool_decide (is_Some _)); [done|]. injection Hx as <- <-.
    intros k b. simpl. destruct (decide (k = label)) as [->|Hne].
    + rewrite lookup_insert_eq. intros [= <-]. split; [|done]. by apply bool_decide_eq_false in He.
    + rewrite lookup_insert_ne by done. apply Hc.
  - destruct (bool_decide (is_Some _)); [done|]. by injection Hx as <- <-.
Qed.

Lemma env_empty_clean : env_clean ∅.
Proof. intros k v. by rewrite lookup_empty. Qed.

Lemma node_block_wf ev b n : parseNodeBlock ev b = Ret n → node_wf n.
Proof.
  unfold parseNodeBlock. intros (c & _ & Hk)%out_bind_Ret. apply out_bind_Ret in Hk as (name & _ & Hk).
  apply out_bind_Ret in Hk as ([] & Hname%guard_out_Ret & Hk). apply out_bind_Ret in Hk as (sa & _ & Hk).
  apply out_bind_Ret in Hk as (src & _ & Hk). apply out_bind_Ret in Hk as (cfg & _ & Hk).
  apply out_bind_Ret in Hk as (vars & _ & Hk). apply out_bind_Ret in Hk as (rt & _ & Hk).
  apply out_bind_Ret in Hk as (env & Henv & Hk). apply out_bind_Ret in Hk as (ap & Hap & Hk).
  apply out_bind_Ret in Hk as (addr & Haddr & Hk). apply out_bind_Ret in Hk as ([ins creds] & Hb & [= <-]).
  apply wrap_out_Ret in Haddr, Hb. constructor; simpl; [done| | | |].
  - revert Henv. apply optional_Ret; [apply env_empty_clean|apply parseEnv_clean].
  - by eapply parseApprove_ok.
  - by eapply parse_address_ok.
  - by eapply bindings_credentials.
Qed.

Lemma use_block_wf ev b u : parseUseBlock ev b = Ret u → use_wf u.
Proof.
  unfold parseUseBlock. intros (c & _ & Hk)%out_bind_Ret. apply out_bind_Ret in Hk as (aa & _ & Hk).
  apply out_bind_Ret in Hk as (as_ & _ & Hk). apply out_bind_Ret in Hk as ([] & Hname%guard_out_Ret & Hk).
  apply out_bind_Ret in Hk as (sa & _ & Hk). apply out_bind_Ret in Hk as (src & _ & Hk).
  apply out_bind_Ret in Hk as (rt & _ & Hk). apply out_bind_Ret in Hk as (env & Henv & Hk).
  apply out_bind_Ret in Hk as (vars & _ & Hk). apply out_bind_Ret in Hk as (ap & Hap & Hk).
  apply out_bind_Ret in Hk as (cfg & _ & Hk). apply out_bind_Ret in Hk as (addr & Haddr & Hk).
  apply out_bind_Ret in Hk as (grp & _ & [= <-]). apply wrap_out_Ret in Haddr. constructor; simpl; [done| | |].
  - revert Henv. apply optional_Ret; [apply env_empty_clean|apply parseEnv_clean].
  - by eapply parseApprove_ok.
  - by eapply parse_address_ok.
Qed.

(** ** Well-formed scopes *)

Definition known_ref (ns : list Node) (us : list Use) (r : PortRef) : Prop :=
  if decide (pr_Entity r = EntityUse) then ∃ u, u ∈ us ∧ u_As u = pr_Node r else ∃ n, n ∈ ns ∧ bn_Name n = pr_Node r.

Record scope_wf (ns : list Node) (us : list Use) (es : list Edge) : Prop := {
  sw_nodes : NoDup (bn_Name <$> ns) ∧ ∀ n, n ∈ ns → node_wf n;
  sw_uses : NoDup (u_As <$> us) ∧ ∀ u, u ∈ us → use_wf u;
  sw_edges e : e ∈ es → edge_kinds e ∧ known_ref ns us (e_From e) ∧ known_ref ns us (e_To e);
}.

Record group_wf (g : Group) : Prop := {
  gw_name : nameRegexp (gr_Name g) = true;
  gw_scope : scope_wf (gr_Nodes g) (gr_Uses g) (gr_Edges g);
  gw_export : export_ok (gr_Export g);
  gw_inputs i r : i ∈ ex_Inputs (gr_Export g) → r ∈ ei_To i → known_ref (gr_Nodes g) (gr_Uses g) r;
  gw_outputs o : o ∈ ex_Outputs (gr_Export g) → known_ref (gr_Nodes g) (gr_Uses g) (eo_From o);
}.

Lemma known_plain ns us r : known_ref ns us r → plain_known ns r.
Proof. unfold known_ref, plain_known. intros Hk He. rewrite He in Hk. done. Qed.

Lemma scope_wf_ok ns us es : scope_wf ns us es → scope_ok ns es.
Proof. intros [_ _ He] e Hin. destruct (He e Hin) as (? & ? & ?). split_and!; [by eapply known_plain..|done]. Qed.

(** The seen names are the declared names. *)
Definition seen_of {A} (f : A → string) (l : list A) (s : gset string) : Prop := NoDup (f <$> l) ∧ s = list_to_set (f <$> l).

Lemma seen_of_nil {A} (f : A → string) : seen_of f [] ∅.
Proof. split; [constructor|done]. Qed.

Lemma seen_of_snoc {A} (f : A → string) l s x : seen_of f l s → f x ∉ s → seen_of f (l ++ [x]) ({[ f x ]} ∪ s).
Proof.
  intros [Hnd ->] Hx. unfold seen_of. rewrite fmap_app. simpl. split.
  - apply NoDup_app. split_and!; [done| |apply NoDup_singleton]. set_solver.
  - set_solver.
Qed.

Lemma endpoint_known ns us seenN seenU r u : seen_of bn_Name ns seenN → seen_of u_As us seenU →
  validateEndpointKnown r seenN seenU = Ret u → known_ref ns us r.
Proof.
  intros [_ ->] [_ ->]. unfold validateEndpointKnown, known_ref. case_decide; intros Hk%guard_out_Ret%bool_decide_eq_true;
    rewrite elem_of_list_to_set, list_elem_of_fmap in Hk; destruct Hk as (x & -> & ?); eauto.
Qed.

Lemma edge_known_refs ns us seenN seenU e u : seen_of bn_Name ns seenN → seen_of u_As us seenU →
  edge_known seenN seenU e = Ret u → known_ref ns us (e_From e) ∧ known_ref ns us (e_To e).
Proof.
  intros Xn Xu. unfold edge_known. intros ([] & E1 & E2)%out_bind_Ret.
  split; eapply endpoint_known; [apply Xn|apply Xu|done|apply Xn|apply Xu|done].
Qed.

Record ginv (st : groupState) : Prop := {
  gi_nodes : seen_of bn_Name (gr_Nodes (gs_group st)) (gs_nodes st);
  gi_uses : seen_of u_As (gr_Uses (gs_group st)) (gs_uses st);
  gi_wf n : n ∈ gr_Nodes (gs_group st) → node_wf n;
  gi_uwf u : u ∈ gr_Uses (gs_group st) → use_wf u;
  gi_edges e : e ∈ gr_Edges (gs_group st) → edge_kinds e;
  gi_export : export_ok (gr_Export (gs_group st));
}.

Lemma elem_of_snoc_inv {A} (P : A → Prop) (l : list A) x : (∀ y, y ∈ l → P y) → P x → ∀ y, y ∈ l ++ [x] → P y.
Proof. intros Hl Hx y [?| ->%list_elem_of_singleton]%elem_of_app; auto. Qed.

Lemma elem_of_app_inv {A} (P : A → Prop) (l k : list A) : (∀ y, y ∈ l → P y) → (∀ y, y ∈ k → P y) → ∀ y, y ∈ l ++ k → P y.
Proof. intros Hl Hk y [?|?]%elem_of_app; auto. Qed.

Lemma group_block_inv baseDir ev st b st' : ginv st → group_block baseDir ev st b = Ret st' →
  ginv st' ∧ gr_Name (gs_group st') = gr_Name (gs_group st).
Proof.
  destruct st as [g ns us ps saw]. intros [Xn Xu Xw Xuw Xe Xx]. simpl in *. unfold group_block.
  destruct (decide (_ = "node")) as [_|_].
  { intros (n & Hn & Hk)%out_bind_Ret. destruct (decide (bn_Name n ∈ ns)); [done|]. injection Hk as <-. split; [|done].
    constructor; simpl; try done; [by apply seen_of_snoc|]. apply elem_of_snoc_inv; [done|]. by eapply node_block_wf. }
  destruct (decide (_ = "edge")) as [_|_].
  { intros (es & Hes & [= <-])%out_bind_Ret. split; [|done]. constructor; simpl; try done.
    apply elem_of_app_inv; [done|]. by eapply edge_block_kinds. }
  destruct (decide (_ = "use")) as [_|_].
  { intros (u & Hu & Hk)%out_bind_Ret. destruct (decide (u_As u ∈ us)); [done|]. injection Hk as <-. split; [|done].
    constructor; simpl; try done; [by apply seen_of_snoc|]. apply elem_of_snoc_inv; [done|]. by eapply use_block_wf. }
  destruct (mem _ _).
  { intros ([c p] & _ & [= <-])%out_bind_Ret. done. }
  destruct (decide (_ = "export")) as [_|_]; [|by intros [= <-]].
  destruct saw; [done|]. intros (ex & Hex & [= <-])%out_bind_Ret. split; [|done]. constructor; simpl; try done.
  by eapply export_block_ok.
Qed.

Lemma group_wf_parsed baseDir ev b g : parseGroupBlock baseDir ev b = Ret g → group_wf g.
Proof.
  unfold parseGroupBlock. intros (c & _ & Hk)%out_bind_Ret. apply out_bind_Ret in Hk as (name & _ & Hk).
  apply out_bind_Ret in Hk as ([] & Hname%guard_out_Ret & Hk). apply out_bind_Ret in Hk as (st & Hf & Hk).
  apply out_bind_Ret in Hk as ([] & Xe & Hk). apply out_bind_Ret in Hk as ([] & Xi & Hk).
  apply out_bind_Ret in Hk as ([] & Xo & [= <-]).
  assert (ginv st ∧ gr_Name (gs_group st) = name) as [[Yn Yu Yw Yuw Ye Yx] Hgn].
  { refine (foldO_inv _ (λ st, ginv st ∧ gr_Name (gs_group st) = name) _ _ _ _ _ Hf).
    - intros s x s' _ [Hs <-] Hx. by apply group_block_inv in Hx.
    - split; [|done]. constructor; simpl; try apply seen_of_nil; try (intros x Hx; by apply elem_of_nil in Hx).
      split; intros x; [intros r|]; intros Hx; by apply elem_of_nil in Hx. }
  constructor; [by rewrite Hgn| |done| |].
  - constructor; [split; [apply Yn|done]|split; [apply Yu|done]|]. intros e He. split; [by apply Ye|].
    apply (foldO_checks _ _ _ Xe) in He. unfold group_edge_known in He. apply wrap_out_Ret in He. by eapply edge_known_refs.
  - intros i r Hi Hr. apply (foldO_checks _ _ _ Xi) in Hi. unfold export_input_known in Hi.
    apply (foldO_checks _ _ _ Hi) in Hr. apply wrap_out_Ret in Hr. by eapply endpoint_known.
  - intros o Ho. apply (foldO_checks _ _ _ Xo) in Ho. unfold export_output_known in Ho. apply wrap_out_Ret in Ho.
    by eapply endpoint_known.
Qed.

(** ** Whole blueprints *)

Definition runtime_known (bp : Blueprint) (r : string) : Prop := r = "" ∨ ∃ rt, rt ∈ bp_Runtimes bp ∧ rt_Name rt = r.

Definition feature_ok (f : PluginFeature) : Prop :=
  pf_Mode f ∈ "" :: feature_modes ∧ (pf_Timeout f = 0 ∨ 0 < pf_Timeout f <= max_feature_timeout)%Z.

Definition plugin_wf (p : PluginConfig) : Prop :=
  plugin_alias (pg_Name p) = true ∧ pg_Source p ≠ "" ∧ pg_Version p ≠ "" ∧
  ∀ k f, pg_Features p !! k = Some f → feature_ok f.

(** S3 artifacts never share a prefix with the graph lock. *)
Definition artifacts_apart (bp : Blueprint) : Prop :=
  xc_Bucket (ExecutionSettings bp) = "" ∨
  ∃ s3, bp_Lock bp ≫= lk_S3 = Some s3 ∧
    (xc_Bucket (ExecutionSettings bp) ≠ sl_Bucket s3 ∨
     (sl_Key s3 ≠ xc_Prefix (ExecutionSettings bp) ∧ has_prefix (sl_Key s3) (xc_Prefix (ExecutionSettings bp) +:+ "/") = false)).

Record parsed_wf (bp : Blueprint) (plugins : list PluginConfig) : Prop := {
  pw_scope : scope_wf (bp_Nodes bp) (bp_Uses bp) (bp_Edges bp);
  pw_groups : NoDup (gr_Name <$> bp_Groups bp) ∧ ∀ g, g ∈ bp_Groups bp → group_wf g;
  pw_runtimes : NoDup (rt_Name <$> bp_Runtimes bp);
  pw_default : length (filter (λ rt, rt_Default rt = true) (bp_Runtimes bp)) <= 1;
  pw_refs : (∀ n, n ∈ bp_Nodes bp → runtime_known bp (bn_Runtime n)) ∧ (∀ u, u ∈ bp_Uses bp → runtime_known bp (u_Runtime u));
  pw_group_refs g : g ∈ bp_Groups bp →
    (∀ n, n ∈ gr_Nodes g → runtime_known bp (bn_Runtime n)) ∧ (∀ u, u ∈ gr_Uses g → runtime_known bp (u_Runtime u));
  pw_mode : bp_ContractMode bp ∈ [""; "warn"; "enforce"];
  pw_plugins : NoDup (pg_Name <$> plugins) ∧ ∀ p, p ∈ plugins → plugin_wf p;
  pw_execution : (0 < xc_PlanTTL (ExecutionSettings bp) ∧ 0 < xc_RecordRetention (ExecutionSettings bp))%Z;
  pw_storage : artifacts_apart bp;
}.

Definition execution_positive (x : ExecutionConfig) : Prop := (0 < xc_PlanTTL x ∧ 0 < xc_RecordRetention x)%Z.

Lemma duration_positive name values old d : (0 < old)%Z → parse_duration_field ParseDuration name values old = Ok d → (0 < d)%Z.
Proof.
  intros Ho. unfold parse_duration_field. destruct (values !! name); [|by intros [= <-]].
  intros (x & _ & Hk)%result_bind_Ok. case_decide; [done|]. injection Hk as <-. lia.
Qed.

Lemma parse_execution_positive b x : parse_execution ParseDuration b = Ret x → execution_positive x.
Proof.
  unfold parse_execution. intros (c & _ & Hk)%out_bind_Ret. apply out_bind_Ret in Hk as (values & _ & Hk%lift_Ret).
  unfold parseExecutionBlock in Hk. apply result_bind_Ok in Hk as (prefix & _ & Hk).
  apply result_bind_Ok in Hk as (ttl & Ht & Hk). apply result_bind_Ok in Hk as (ret & Hr & [= <-]).
  split; (eapply duration_positive; [|done]); unfold Hour; lia.
Qed.

Lemma plugin_block_ok p b p' : plugin_wf p → plugin_block ParseDuration p b = Ret p' → plugin_wf p' ∧ pg_Name p' = pg_Name p.
Proof.
  intros (Xa & Xs & Xv & Xf). unfold plugin_block. case_decide; [|case_decide; [|intros [= <-]; done]].
  - unfold plugin_feature. intros (c & _ & Hk)%out_bind_Ret. apply out_bind_Ret in Hk as (name & _ & Hk).
    destruct (bool_decide (is_Some _)); [done|]. apply out_bind_Ret in Hk as (f & Hf & [= <-]). split; [|done]. split_and!; try done.
    assert (feature_ok f) as Hok.
    { refine (foldO_inv _ feature_ok _ _ _ _ _ Hf); [|split; [by left|by left]].
      intros s [k a] s' _ [Hm Ht] Hx. unfold feature_attr in Hx. apply out_bind_Ret in Hx as (v & _ & Hx). case_decide.
      - destruct (mem v feature_modes) eqn:Em; [|done]. injection Hx as <-. split; [|done]. right. by apply mem_true.
      - destruct (ParseDuration v) as [d|]; [|done]. destruct (_ || _) eqn:E; [done|]. injection Hx as <-. split; [done|].
        apply orb_false_iff in E as [E1 E2]. apply bool_decide_eq_false in E1, E2. right. simpl. lia. }
    intros k f'. simpl. destruct (decide (k = name)) as [->|Hne].
    + rewrite lookup_insert_eq. by intros [= <-].
    + rewrite lookup_insert_ne by done. apply Xf.
  - unfold plugin_access. destruct (pg_Environment p); [done|]. intros (c & _ & Hk)%out_bind_Ret.
    apply out_bind_Ret in Hk as (env & _ & Hk). apply out_bind_Ret in Hk as (acc & _ & [= <-]). done.
Qed.

Lemma parsePluginBlock_wf b p : parsePluginBlock ParseDuration b = Ret p → plugin_wf p.
Proof.
  unfold parsePluginBlock. intros (name & _ & Hk)%out_bind_Ret. destruct (negb _) eqn:Ha; [done|]. apply negb_false_iff in Ha.
  apply out_bind_Ret in Hk as (body & _ & Hk). apply out_bind_Ret in Hk as (fields & Hf & Hk).
  apply out_bind_Ret in Hk as (cfg & _ & Hk).
  assert (∀ k, k = "source" ∨ k = "version" → default "" (fields !! k) ≠ "") as Hne.
  { assert (∀ l m m', (∀ k v, m !! k = Some v → v ≠ "") → foldO (plugin_field name body) m l = Ret m' →
      (∀ k v, m' !! k = Some v → v ≠ "") ∧ (∀ k, is_Some (m !! k) ∨ k ∈ l.*1 → is_Some (m' !! k))) as Hx.
    { induction l as [|[k []] l IH]; intros m m' Hm; simpl.
      - intros [= <-]. split; [done|]. intros k [?|Hk']; [done|]. by apply elem_of_nil in Hk'.
      - intros (m1 & E1 & E2)%out_bind_Ret. unfold plugin_field in E1. apply out_bind_Ret in E1 as (a & _ & E1).
        apply out_bind_Ret in E1 as (v & _ & E1). case_decide as Hv; [done|]. injection E1 as <-.
        destruct (IH _ _ ltac:(intros k' v' [[_ <-]|[_ Hv']]%lookup_insert_Some; [done|by eapply Hm]) E2) as [Y1 Y2].
        split; [done|]. intros k' Hk'. apply Y2. rewrite lookup_insert_is_Some'. set_solver. }
    destruct (Hx _ _ _ ltac:(intros k v Hv; by rewrite lookup_empty in Hv) Hf) as [Y1 Y2]. intros k Hkk.
    destruct (Y2 k) as [v Hv]; [|rewrite Hv; simpl; by eapply Y1]. right.
    apply list_elem_of_fmap. exists (k, tt). split; [done|]. apply range_elem. unfold plugin_strings. simpl.
    destruct Hkk as [->| ->]; vm_compute; done. }
  refine (foldO_inv _ plugin_wf _ _ _ _ _ Hk).
  - intros s x s' _ Hs Hx. by eapply plugin_block_ok.
  - split_and!; simpl; [done|apply Hne; by left|apply Hne; by right|done].
Qed.

Record pinv (st : pstate) : Prop := {
  pi_nodes : seen_of bn_Name (bp_Nodes (ps_bp st)) (ps_nodes st);
  pi_uses : seen_of u_As (bp_Uses (ps_bp st)) (ps_uses st);
  pi_groups : seen_of gr_Name (bp_Groups (ps_bp st)) (ps_groups st);
  pi_runtimes : seen_of rt_Name (bp_Runtimes (ps_bp st)) (ps_runtimes st);
  pi_nwf n : n ∈ bp_Nodes (ps_bp st) → node_wf n;
  pi_uwf u : u ∈ bp_Uses (ps_bp st) → use_wf u;
  pi_gwf g : g ∈ bp_Groups (ps_bp st) → group_wf g;
  pi_edges e : e ∈ bp_Edges (ps_bp st) → edge_kinds e;
  pi_mode : bp_ContractMode (ps_bp st) ∈ [""; "warn"; "enforce"];
  pi_plugins : NoDup (pg_Name <$> ps_Plugins st) ∧ ∀ p, p ∈ ps_Plugins st → plugin_wf p;
  pi_execution : execution_positive (ExecutionSettings (ps_bp st));
}.

Lemma pinv_init : pinv init_pstate.
Proof.
  constructor; simpl; try apply seen_of_nil; try (intros x Hx; by apply elem_of_nil in Hx); [by left| |].
  - split; [constructor|]. intros x Hx; by apply elem_of_nil in Hx.
  - split; simpl; unfold Hour; lia.
Qed.

Lemma once_Ret {A} taken dup (m : outcome A) a : once taken dup m = Ret a → m = Ret a.
Proof. by destruct taken. Qed.

Lemma contracts_mode b m : parseContractsBlock b = Ret m → m ∈ [""; "warn"; "enforce"].
Proof.
  unfold parseContractsBlock. intros (c & _ & Hk)%out_bind_Ret. apply out_bind_Ret in Hk as (a & _ & Hk).
  apply out_bind_Ret in Hk as (s & _ & Hk). destruct (mem s _) eqn:E; [|done]. injection Hk as <-. right. by apply mem_true.
Qed.

(** One arm of the dispatch on the block type. *)
Ltac arm typ := destruct (decide (_ = typ)) as [_|_]; [intros (x' & Hx' & Hk)%out_bind_Ret|].

Lemma top_block_inv baseDir ev st b st' : pinv st → top_block ParseDuration baseDir ev st b = Ret st' → pinv st'.
Proof.
  destruct st as [[x ns es gs us v t l rs m c sn] pl sns sgs sus srs sps]. intros [Xn Xu Xg Xr Xnw Xuw Xgw Xe Xm Xp Xx]. simpl in *.
  unfold top_block. cbn [ps_bp ps_nodes ps_groups ps_uses ps_runtimes ps_Plugins ps_ports].
  arm "plugin".
  { destruct (mem _ _) eqn:Em; [done|]. injection Hk as <-. apply mem_false in Em. constructor; simpl; try done. split.
    - rewrite fmap_app. apply NoDup_app. split_and!; [by destruct Xp|set_solver|apply NoDup_singleton].
    - apply elem_of_snoc_inv; [by destruct Xp|]. by eapply parsePluginBlock_wf. }
  arm "node".
  { case_decide; [done|]. injection Hk as <-. constructor; simpl; try done; [by apply seen_of_snoc|].
    apply elem_of_snoc_inv; [done|]. by eapply node_block_wf. }
  arm "edge".
  { injection Hk as <-. constructor; simpl; try done. apply elem_of_app_inv; [done|]. by eapply edge_block_kinds. }
  arm "group".
  { case_decide; [done|]. injection Hk as <-. constructor; simpl; try done; [by apply seen_of_snoc|].
    apply elem_of_snoc_inv; [done|]. by eapply group_wf_parsed. }
  arm "use".
  { case_decide; [done|]. injection Hk as <-. constructor; simpl; try done; [by apply seen_of_snoc|].
    apply elem_of_snoc_inv; [done|]. by eapply use_block_wf. }
  arm "vendor"; [by injection Hk as <-|]. arm "tfvars"; [by injection Hk as <-|]. arm "lock"; [by injection Hk as <-|].
  arm "runtime".
  { case_decide; [done|]. injection Hk as <-. constructor; simpl; try done. by apply seen_of_snoc. }
  destruct (mem _ _); [intros ([c' p'] & _ & [= <-])%out_bind_Ret; done|].
  arm "contracts". { injection Hk as <-. apply once_Ret, contracts_mode in Hx'. by constructor. }
  arm "execution". { injection Hk as <-. apply once_Ret, parse_execution_positive in Hx'. by constructor. }
  arm "snapshots"; [by injection Hk as <-|]. by intros [= <-].
Qed.

Section Loaded.
Context (fs : BlueprintFS) (ev : option EvalContext).

Lemma one_file_inv path st st' : pinv st → parseOneFile ParseDuration fs ev path st = Ret st' → pinv st'.
Proof.
  unfold parseOneFile. intros Hst (? & _ & Hk)%out_bind_Ret. apply out_bind_Ret in Hk as (? & _ & Hk).
  apply out_bind_Ret in Hk as (? & _ & Hk). apply out_bind_Ret in Hk as (c & _ & Hk).
  refine (foldO_inv _ pinv _ _ _ _ Hst Hk). intros s b s' _ Hs Hb. by eapply top_block_inv.
Qed.

Lemma checkRef_known bp kind owner r u : checkRef bp kind owner r = Ret u → runtime_known bp r.
Proof.
  unfold checkRef. case_decide as Hr; [by left|]. intros Hk%guard_out_Ret. right. unfold is_set, RuntimeByName in Hk.
  destruct (List.find _ _) as [rt|] eqn:Hf; [|done]. apply find_some in Hf as [Hin Hn]. apply bool_decide_eq_true in Hn.
  exists rt. split; [by apply list_elem_of_In|done].
Qed.

Lemma scope_runtimes_known bp owner ns us : scope_runtimes bp owner ns us = Ret tt →
  (∀ n, n ∈ ns → runtime_known bp (bn_Runtime n)) ∧ (∀ u, u ∈ us → runtime_known bp (u_Runtime u)).
Proof.
  unfold scope_runtimes. intros ([] & Xn & Xu)%out_bind_Ret. split.
  - intros n Hn. apply (foldO_checks _ _ _ Xn) in Hn. by eapply checkRef_known.
  - intros u Hu. apply (foldO_checks _ _ _ Xu) in Hu. by eapply checkRef_known.
Qed.

Lemma storage_ok bp : validateExecutionConfig bp = Ok tt → artifacts_apart bp.
Proof.
  unfold validateExecutionConfig, artifacts_apart. case_decide; [by left|]. destruct (_ ≫= lk_S3) as [s3|]; [|done].
  destruct (_ && _) eqn:E; [done|]. intros _. right. exists s3. split; [done|].
  apply andb_false_iff in E as [E|E]; [left; by apply bool_decide_eq_false in E|]. right.
  apply orb_false_iff in E as [E1 E2]. split; [by apply bool_decide_eq_false in E1|done].
Qed.

Lemma merged_wf st bp pl : pinv st → validate_merged st = Ret (bp, pl) → parsed_wf bp pl.
Proof.
  intros [Xn Xu Xg Xr Xnw Xuw Xgw Xe Xm Xp Xx] Hv. unfold validate_merged in Hv.
  apply out_bind_Ret in Hv as ([] & Y1 & Hv). apply out_bind_Ret in Hv as ([] & Y2 & Hv).
  apply out_bind_Ret in Hv as ([] & Y3%lift_Ret & [= <- <-]).
  unfold validateRuntimes in Y2. destruct (Nat.ltb _ _) eqn:Hd; [done|]. apply Nat.ltb_ge in Hd.
  apply out_bind_Ret in Y2 as ([] & Y2%scope_runtimes_known & Y4).
  constructor; try done.
  - constructor; [split; [apply Xn|done]|split; [apply Xu|done]|]. intros e He. split; [by apply Xe|].
    apply (foldO_checks _ _ _ Y1) in He. by eapply edge_known_refs.
  - split; [apply Xg|done].
  - apply Xr.
  - intros g Hg. apply (foldO_checks _ _ _ Y4) in Hg. by eapply scope_runtimes_known.
  - by apply storage_ok.
Qed.

Lemma parseDir_wf dir bp pl n : parseDir ParseDuration fs ev dir = Ret (bp, pl, n) → parsed_wf bp pl.
Proof.
  unfold parseDir. intros (l & _ & Hk)%out_bind_Ret. apply out_bind_Ret in Hk as (st & Hf & Hk).
  apply out_bind_Ret in Hk as ([bp' pl'] & Hm & [= <- <- _]). eapply merged_wf; [|done].
  refine (foldO_inv _ pinv _ _ _ _ pinv_init Hf). intros s file s' _ Hs Hx. by eapply one_file_inv.
Qed.

Lemma LoadPath_wf path bp pl dir : LoadPath ParseDuration fs ev path = Ret (bp, pl, dir) → parsed_wf bp pl.
Proof.
  unfold LoadPath. intros ([] & _ & Hk)%out_bind_Ret.
  - apply out_bind_Ret in Hk as ([[bp' pl'] n] & Hd & Hk). case_decide; [done|]. injection Hk as <- <- _. by eapply parseDir_wf.
  - apply out_bind_Ret in Hk as ([bp' pl'] & Hf & [= <- <- _]). unfold ParseFile in Hf.
    apply out_bind_Ret in Hf as (st & Hf & Hm). eapply merged_wf; [|done]. eapply one_file_inv; [apply pinv_init|done].
Qed.

(** Group directories read by this parser are what graph building assumes of them. *)
Lemma parsed_env_ok env : (∀ d bp k, env_parseDir env d = Ok (bp, k) → ∃ pl n, parseDir ParseDuration fs ev d = Ret (bp, pl, n)) → env_ok env.
Proof.
  intros Henv d bp k g Hd Hg. destruct (Henv _ _ _ Hd) as (pl & n & Hp). apply parseDir_wf in Hp.
  destruct (pw_groups _ _ Hp) as [_ Hall]. destruct (Hall g Hg) as [_ Hs Hx _ _]. split; [by eapply scope_wf_ok|done].
Qed.
End Loaded.

(** ** Input blocks *)

(** An edge block naming two paths, with the given (input, output) blocks. *)
Definition has_ref (c : BodyContent) (name : string) (t : list Traverser) : Prop :=
  ∃ a, ct_Attributes c !! name = Some a ∧ AbsTraversalForExpr (at_Expr a) = Ok t.

Definition input_block (b : Block) (io : string * string) : Prop :=
  head (bl_Labels b) = Some io.1 ∧
  ∃ ic, Content (bl_Body b) edgeInputSchema = Ok ic ∧ has_ref ic "from" [TraverseRoot "output"; TraverseAttr io.2].

Definition shorthand (block : Block) (from to : list Traverser) (ios : list (string * string)) : Prop :=
  ∃ c, Content (bl_Body block) edgeSchema = Ok c ∧ has_ref c "from" from ∧ has_ref c "to" to ∧
    Forall2 input_block (OfType "input" (ct_Blocks c)) ios.

(** The edge written out for one of them. *)
Definition written_out (from to : list Traverser) (io : string * string) (block : Block) : Prop :=
  ∃ c, Content (bl_Body block) edgeSchema = Ok c ∧ OfType "input" (ct_Blocks c) = [] ∧
    has_ref c "from" (from ++ [TraverseAttr "output"; TraverseAttr io.2]) ∧
    has_ref c "to" (to ++ [TraverseAttr "input"; TraverseAttr io.1]).

Definition parse_edges (blocks : list Block) : outcome (list Edge) :=
  foldO (λ es b, new ← parseEdgeBlock b; Ret (es ++ new)) [] blocks.

Definition bare_path (t : list Traverser) (r : PortRef) : Prop :=
  ∃ root name ent, t = [TraverseRoot root; TraverseAttr name] ∧ entity_of root = Some ent ∧ r = MkPortRef ent name KindBare "".

Definition at_port (r : PortRef) (k : PortKind) (n : string) : PortRef := MkPortRef (pr_Entity r) (pr_Node r) k n.

Lemma ref_bare e rng t r : AbsTraversalForExpr e = Ok t → parseNodeOrPortRef_at e rng = Ret r → IsPort r = false → bare_path t r.
Proof.
  unfold parseNodeOrPortRef_at. intros ->. simpl. destruct t as [|[root| |] path]; try done.
  destruct (entity_of root) as [ent|] eqn:He; [|done]. intros Hp Hb.
  destruct path as [|s [|k [|q [|]]]]; simpl in Hp; try done; apply out_bind_Ret in Hp as (nm & Hs & Hp); try done.
  - injection Hp as <-. destruct s; try done. injection Hs as ->. by eexists _, _, _.
  - apply out_bind_Ret in Hp as (kn & _ & Hp). apply out_bind_Ret in Hp as (pn & _ & Hp).
    destruct (port_kind kn) as [kind|] eqn:Hk; [|done]. injection Hp as <-.
    unfold port_kind in Hk. by repeat case_decide; simplify_eq.
Qed.

Lemma bare_ref_parse e rng t r : AbsTraversalForExpr e = Ok t → bare_path t r → parseNodeOrPortRef_at e rng = Ret r.
Proof. unfold parseNodeOrPortRef_at. intros -> (root & name & ent & -> & He & ->). simpl. by rewrite He. Qed.

Lemma port_ref_parse e rng t k kind n r : AbsTraversalForExpr e = Ok (t ++ [TraverseAttr k; TraverseAttr n]) → port_kind k = Some kind →
  bare_path t r → parseNodeOrPortRef_at e rng = Ret (at_port r kind n).
Proof. unfold parseNodeOrPortRef_at. intros -> Hk (root & name & ent & -> & He & ->). simpl. rewrite He. simpl. by rewrite Hk. Qed.

Lemma port_ref_inv e rng t k n r : AbsTraversalForExpr e = Ok (t ++ [TraverseAttr k; TraverseAttr n]) →
  parseNodeOrPortRef_at e rng = Ret r → ∃ r', bare_path t r'.
Proof.
  unfold parseNodeOrPortRef_at. intros ->. simpl. destruct t as [|[root| |] path]; try done. simpl.
  destruct (entity_of root) as [ent|] eqn:He; [|done]. destruct path as [|s path]; simpl.
  - by destruct (port_kind k).
  - intros (nm & Hs & Hp)%out_bind_Ret. destruct path as [|x [|y [|]]]; simpl in Hp; try done.
    destruct s; try done. by eexists _, _, _, _.
Qed.

Lemma written_out_parse from to io block rf rt : bare_path from rf → bare_path to rt → written_out from to io block →
  parseEdgeBlock block = Ret [MkEdge (at_port rf PortOutput io.2) (at_port rt PortInput io.1)].
Proof.
  intros Hf Ht (c & Hc & Ho & (fa & Hfa & Hft) & (ta & Hta & Htt)). unfold parseEdgeBlock, content, get_attr. rewrite Hc. simpl.
  rewrite Hfa. simpl. unfold parseNodeOrPortRef. erewrite port_ref_parse; [|done|done|done]. simpl. rewrite Hta. simpl.
  erewrite port_ref_parse; [|done|done|done]. simpl. by rewrite Ho.
Qed.

Lemma edge_inputs_parse rf rt l ios : Forall2 input_block l ios → ∀ es seen, NoDup ios.*1 → (∀ x, x ∈ ios.*1 → x ∉ seen) →
  ∃ seen', foldO (edge_input rf rt) (es, seen) l =
    Ret (es ++ ((λ io, MkEdge (at_port rf PortOutput io.2) (at_port rt PortInput io.1)) <$> ios), seen').
Proof.
  induction 1 as [|b [nm o] l ios (Hl & ic & Hic & a & Ha & Ht) Hall IH]; intros es seen Hnd Hs; simpl.
  - exists seen. by rewrite app_nil_r.
  - unfold label0. rewrite Hl. simpl in *. rewrite decide_False by (apply Hs; left).
    unfold content, get_attr. rewrite Hic. simpl. rewrite Ha. simpl. unfold parseRelativeOutputRef. rewrite Ht. simpl.
    apply NoDup_cons in Hnd as [Hni Hnd].
    destruct (IH (es ++ [MkEdge (at_port rf PortOutput o) (at_port rt PortInput nm)]) ({[nm]} ∪ seen)) as [seen' Hr]; [done| |].
    { intros x Hx Hin. apply elem_of_union in Hin as [Hin|Hin]; [|by eapply Hs; [right|]].
      apply elem_of_singleton in Hin as ->. done. }
    exists seen'. unfold at_port in *. rewrite Hr, <-(assoc_L (++)). done.
Qed.

Lemma parse_edges_written from to rf rt ios : bare_path from rf → bare_path to rt → ∀ bs es,
  Forall2 (written_out from to) ios bs →
  foldO (λ es b, new ← parseEdgeBlock b; Ret (es ++ new)) es bs =
    Ret (es ++ ((λ io, MkEdge (at_port rf PortOutput io.2) (at_port rt PortInput io.1)) <$> ios)).
Proof.
  intros Hf Ht bs es Hall. revert es. induction Hall as [|io b ios bs Hb Hall IH]; intros es; simpl.
  - by rewrite app_nil_r.
  - rewrite (written_out_parse _ _ _ _ rf rt Hf Ht Hb). simpl. by rewrite IH, <-(assoc_L (++)).
Qed.
End Proofs.

(** ** Properties *)

Section Properties.
Context `{Hcl} `{!HclLaws} `{MapOrder} (ParseDuration : string → result Z).

(** C19: what parsing accepts is well formed: names are unique and safe as path
    segments, every edge joins declared nodes or use instances through ports of
    the right kinds, in the blueprint and inside every group, every runtime
    reference is declared with at most one default, plugin timeouts stay within
    their bounds, durations are positive, no environment overrides the managed
    data directory, credentials name only allowed variables, and S3 artifacts
    never share a prefix with the graph lock. *)
Theorem parse_wellformed fs ev path bp plugins dir :
  LoadPath ParseDuration fs ev path = Ret (bp, plugins, dir) → parsed_wf bp plugins.
Proof. apply LoadPath_wf. Qed.

(** No configuration makes loading panic: whatever the files hold, every
    typed read of a value, label or required attribute is guarded, for the
    blueprint, for the plugin declarations and for the recovery metadata. *)
Theorem parse_never_panics fs ev path :
  LoadPath ParseDuration fs ev path ≠ Panic ∧ LoadPlugins ParseDuration fs path ≠ Panic ∧
  LoadMetadata ParseDuration fs path ≠ Panic.
Proof. split_and!; [apply safe_LoadPath|apply safe_LoadPlugins|apply safe_LoadMetadata]. Qed.

(** The input blocks of an edge are only shorthand: an edge block carrying
    them parses to exactly the edges that one explicit block per input parses
    to, in the same order, and one side is accepted exactly when the other is. *)
Theorem edge_inputs_expand block blocks from to ios es :
  shorthand block from to ios → ios ≠ [] → NoDup ios.*1 → Forall2 (written_out from to) ios blocks →
  parseEdgeBlock block = Ret es ↔ parse_edges blocks = Ret es.
Proof.
  intros (c & Hc & (fa & Hfa & Hft) & (ta & Hta & Htt) & Hio) Hne Hnd Hw.
  assert (parseEdgeBlock block = (f ← parseNodeOrPortRef fa; t ← parseNodeOrPortRef ta;
            parseEdgeInputs block (OfType "input" (ct_Blocks c)) f t)) as ->.
  { unfold parseEdgeBlock, content, get_attr. rewrite Hc. simpl. rewrite Hfa, Hta. simpl.
    destruct Hio as [|i io l ios' Hi Hio]; [done|]. done. }
  unfold parse_edges. split.
  - intros (rf & Hrf & Hk)%out_bind_Ret. apply out_bind_Ret in Hk as (rt & Hrt & Hk). unfold parseEdgeInputs in Hk.
    destruct (IsPort rf) eqn:Pf; [done|]. destruct (IsPort rt) eqn:Pt; [done|]. simpl in Hk.
    apply out_bind_Ret in Hk as ([es' seen] & Hk & [= <-]).
    pose proof (ref_bare _ _ _ _ Hft Hrf Pf) as Bf. pose proof (ref_bare _ _ _ _ Htt Hrt Pt) as Bt.
    rewrite (parse_edges_written _ _ _ _ _ Bf Bt _ _ Hw).
    destruct (edge_inputs_parse rf rt _ _ Hio [] ∅ Hnd) as [s' Hs']; [by intros x _; apply not_elem_of_empty|].
    rewrite Hs' in Hk. by injection Hk as <- _.
  - intros Hk. destruct Hw as [|io b ios' bs Hb Hw]; [done|].
    assert (∃ rf rt, bare_path from rf ∧ bare_path to rt) as (rf & rt & Bf & Bt).
    { destruct Hb as (cb & Hcb & _ & (fb & Hfb & Hfbt) & (tb & Htb & Htbt)). simpl in Hk.
      apply out_bind_Ret in Hk as (es1 & Hk & _). apply out_bind_Ret in Hk as (es2 & Hk & _).
      unfold parseEdgeBlock, content, get_attr in Hk. rewrite Hcb in Hk. simpl in Hk. rewrite Hfb, Htb in Hk. simpl in Hk.
      apply out_bind_Ret in Hk as (r1 & E1 & Hk). apply out_bind_Ret in Hk as (r2 & E2 & _).
      apply (port_ref_inv _ _ _ _ _ _ Hfbt) in E1 as [rf Bf]. apply (port_ref_inv _ _ _ _ _ _ Htbt) in E2 as [rt Bt]. eauto. }
    unfold parseNodeOrPortRef. rewrite (bare_ref_parse _ _ _ _ Hft Bf), (bare_ref_parse _ _ _ _ Htt Bt). simpl.
    rewrite (parse_edges_written _ _ _ _ _ Bf Bt _ _ (proj2 (Forall2_cons _ _ _ _ _) (conj Hb Hw))) in Hk.
    destruct (edge_inputs_parse rf rt _ _ Hio [] ∅ Hnd) as [s' Hs']; [by intros x _; apply not_elem_of_empty|].
    unfold parseEdgeInputs. destruct Bf as (? & ? & ? & _ & _ & ->), Bt as (? & ? & ? & _ & _ & ->). simpl. rewrite Hs'. simpl.
    by injection Hk as <-.
Qed.
End Properties.

(** ** Witnesses *)

Definition sample_node (name : string) : string * list string * sbody := ("node", [name], SBody [("source", lit "./m")] []).

Definition sample_edge : sbody :=
  SBody [("from", SRef (node_path "a")); ("to", SRef (node_path "b"))]
    [("input", ["x"], SBody [("from", SRef [TraverseRoot "output"; TraverseAttr "o"])] [])].

Definition sample_file : sbody := SBody [] [sample_node "a"; sample_node "b"; ("edge", [], sample_edge)].

Definition sample_files : BlueprintFS :=
  MkBlueprintFS (λ _, Ok false) (λ _, Ok []) (λ _, Ok "text") (λ _ _, Ok sample_file) (λ p, Ok p).

Definition loaded_edges (o : outcome (Blueprint * list PluginConfig * string)) : list Edge :=
  match o with Ret (bp, _, _) => bp_Edges bp | _ => [] end.

Example parse_wellformed_witness :
  loaded_edges (@LoadPath sample_hcl map_order_default (λ _, Ok 1%Z) sample_files None "main.hcl")
    = [MkEdge (out_port "a" "o") (in_port "b" "x")] ∧
  ∃ bp, bp_Edges bp = [MkEdge (out_port "a" "o") (in_port "b" "x")] ∧ parsed_wf bp [].
Proof.
  split; [vm_compute; reflexivity|].
  destruct (@LoadPath sample_hcl map_order_default (λ _, Ok 1%Z) sample_files None "main.hcl") as [[[bp pl] d]| |] eqn:Hp;
    [|vm_compute in Hp; discriminate Hp..].
  pose proof (@parse_wellformed sample_hcl sample_laws map_order_default _ _ _ _ _ _ _ Hp) as Hwf.
  vm_compute in Hp. injection Hp as <- <- <-. eexists. split; [|exact Hwf]. reflexivity.
Defined.

Example parse_never_panics_witness :
  @LoadPath sample_hcl map_order_default (λ _, Ok 1%Z) sample_files None "main.hcl" ≠ Panic.
Proof. apply (@parse_never_panics sample_hcl sample_laws map_order_default). Defined.

Definition sample_edge_block : Block_ sbody := MkBlock "edge" [] sample_edge "edge".
Definition sample_written : Block_ sbody :=
  MkBlock "edge" [] (SBody [("from", SRef (port_path "a" "output" "o")); ("to", SRef (port_path "b" "input" "x"))] []) "edge".

Example edge_inputs_expand_witness :
  @parseEdgeBlock sample_hcl sample_edge_block = Ret [MkEdge (out_port "a" "o") (in_port "b" "x")].
Proof.
  apply (@edge_inputs_expand sample_hcl sample_edge_block [sample_written] (node_path "a") (node_path "b") [("x", "o")]).
  - eexists. split; [vm_compute; reflexivity|]. split; [eexists; split; [vm_compute; reflexivity|reflexivity]|].
    split; [eexists; split; [vm_compute; reflexivity|reflexivity]|]. constructor; [|constructor].
    split; [reflexivity|]. eexists. split; [vm_compute; reflexivity|]. eexists. split; [vm_compute; reflexivity|reflexivity].
  - discriminate.
  - apply NoDup_singleton.
  - constructor; [|constructor]. eexists. split; [vm_compute; reflexivity|]. split; [reflexivity|].
    split; (eexists; split; [vm_compute; reflexivity|reflexivity]).
  - vm_compute. reflexivity.
Defined.
