(* ===== verification/Gate.v ===== *)
(** The approval gate (src/internal/engine/approve.go, plan_review.go,
    internal/exec/runner.go): what a saved plan does, whether a node's approve
    level permits it, and the review record that reports the same decision. *)
From S2P Require Import Prelude GoLib Blueprint Module Graph.

(** ** What a plan does (exec/runner.go) *)

Record ResourceChange := MkResourceChange { rc_Address : string; rc_Actions : list string }.
Record OutputChange := MkOutputChange { oc_Name : string; oc_Actions : list string }.

Definition IsReplace (c : ResourceChange) : bool := mem "create" (rc_Actions c) && mem "delete" (rc_Actions c).

(** ** approve.go *)

Section Gate.
Context (g : Graph).

(** The declared level of a node; a node outside the graph is a nil dereference no caller makes. *)
Definition declared_approve (name : string) : Approve := default "" (n_Approve <$> g_Nodes g !! name).

Definition approveFor (name : string) (runDefault : Approve) : Approve :=
  if decide (declared_approve name ≠ "") then declared_approve name
  else if decide (runDefault ≠ "") then runDefault
  else ApproveSafe.

Definition count_action (acc : Z * Z * Z) (a : string) : Z * Z * Z :=
  let '(add, change, destroy) := acc in
  if decide (a = "create") then (add + 1, change, destroy)%Z
  else if decide (a = "update") then (add, change + 1, destroy)%Z
  else if decide (a = "delete") then (add, change, destroy + 1)%Z
  else acc.

Definition count_change (acc : Z * Z * Z) (c : ResourceChange) : Z * Z * Z :=
  let '(add, change, destroy) := acc in
  if IsReplace c then (add + 1, change, destroy + 1)%Z else foldl count_action acc (rc_Actions c).

Definition summarizeChanges (changes : list ResourceChange) : text :=
  let '(add, change, destroy) := foldl count_change (0, 0, 0)%Z changes in
  Sprintf "%d to add, %d to change, %d to destroy" [FInt add; FInt change; FInt destroy].

Definition describeAction (c : ResourceChange) : string :=
  if IsReplace c then "replace"
  else default "no-op" (List.find (λ a, negb (bool_decide (a = "no-op")) && negb (bool_decide (a = "read"))) (rc_Actions c)).

Definition change_le (a b : ResourceChange) : Prop := String.le (rc_Address a) (rc_Address b).
#[export] Instance change_le_dec : RelDecision change_le.
Proof. intros a b. unfold change_le. apply _. Defined.
#[export] Instance change_le_total : Total change_le.
Proof. intros a b. unfold change_le. apply (total String.le). Qed.
#[export] Instance change_le_trans : Transitive change_le.
Proof. intros a b c. unfold change_le. apply transitivity. Qed.

Definition is_blocked (level : Approve) (c : ResourceChange) : bool := existsb (λ a, negb (Permits level a)) (rc_Actions c).

(** [sort.Slice] leaves changes of one address in any order; the model keeps the plan's. *)
Definition notPermitted (changes : list ResourceChange) (level : Approve) : list ResourceChange :=
  merge_sort change_le (filter (λ c, is_blocked level c = true) changes).

Definition blocked_line (c : ResourceChange) : farg := FErr (Errorf "\n  %s  %s" [FStr (rc_Address c); FStr (describeAction c)]).

Definition gateError (name : string) (level : Approve) (blocked : list ResourceChange) : error :=
  let hint := if decide (declared_approve name ≠ "")
    then "\nIf this is intended, set approve = %q on the node or enclosing use declaration that sets this policy."
    else "\nIf this is intended, declare approve = %q on that node, or re-run with --approve=all." in
  Diagnosed (Diagnostic "policy_blocked" "policy" "policy" "" "")
    (Errorf "%s" ([FErr (Errorf "node %s plans %d change(s) its approve level (%s) does not permit:"
                            [FStr name; FInt (Z.of_nat (length blocked)); FStr level])]
                  ++ (blocked_line <$> blocked)
                  ++ [FErr (Errorf "\n\nStopped before applying, so no later level ran." []);
                      FErr (Errorf hint [FStr ApproveAll])])).
End Gate.

(** ** plan_review.go *)

Record InputBasis := MkInputBasis { ib_Input : string; ib_Node : string; ib_Output : string; ib_Source : string }.
Record ContractCheck := MkContractCheck { cc_Port : string; cc_Condition : string; cc_Result : string }.

Record PlanReview := MkPlanReview {
  rv_Evidence : bool;
  rv_HasChanges : option bool;
  rv_Resources : list ResourceChange;
  rv_Outputs : list OutputChange;
  rv_Policy : Approve;
  rv_PolicyDecision : string;
  rv_Inputs : list InputBasis;
  rv_Contracts : list ContractCheck;
  rv_Limitations : list text;
  rv_Diagnostic : option diagnostic;
}.

Definition newPlanReview (policy : Approve) : PlanReview :=
  MkPlanReview false None [] [] policy "unknown" [] []
    [Sprintf "node-local evidence only; apply replans and does not consume this inspection artifact" []] None.

(** The diagnostic [failure] records; its message is [err]'s and its remedy is fixed. *)
Definition failure (review : PlanReview) (name code phase : string) (err : error) : PlanReview :=
  let code := if error_is "context canceled" err || error_is "context deadline exceeded" err then "cancelled" else code in
  let code := if error_is "upstream output is unavailable" err then "upstream_output_unavailable" else code in
  let code := if error_is "plan not reached" err then "dependency_not_reached" else code in
  let category := if decide (code = "cancelled") then "cancelled" else "runtime" in
  MkPlanReview (rv_Evidence review) (rv_HasChanges review) (rv_Resources review) (rv_Outputs review) (rv_Policy review)
    (rv_PolicyDecision review) (rv_Inputs review) (rv_Contracts review) (rv_Limitations review)
    (Some (Diagnostic code category phase ("node." +:+ name) "")).

Definition changes_something (actions : list string) : bool := existsb (λ a, negb (bool_decide (a = "no-op"))) actions.

Definition input_limitation (i : InputBasis) : text :=
  if decide (ib_Source i = "snapshot") then Sprintf "input %s uses an opt-in output snapshot, not live state" [FStr (ib_Input i)]
  else Sprintf "input %s uses existing upstream output, not the upstream's planned value" [FStr (ib_Input i)].

Definition normalize (review : PlanReview) (changed : bool) : PlanReview :=
  let changed := changed || existsb (λ o, changes_something (oc_Actions o)) (rv_Outputs review)
                 || existsb (λ r, changes_something (rc_Actions r)) (rv_Resources review) in
  let resources := merge_sort change_le (rv_Resources review) in
  let decision := if decide (length (notPermitted resources (rv_Policy review)) ≠ 0) then "block" else "pass" in
  MkPlanReview true (Some changed) resources (rv_Outputs review) (rv_Policy review) decision (rv_Inputs review)
    (rv_Contracts review) (rv_Limitations review ++ (input_limitation <$> rv_Inputs review)) (rv_Diagnostic review).

(** ** Facts *)

Lemma is_blocked_true level c : is_blocked level c = true ↔ ∃ a, a ∈ rc_Actions c ∧ Permits level a = false.
Proof.
  unfold is_blocked. rewrite existsb_exists. setoid_rewrite <-list_elem_of_In. setoid_rewrite negb_true_iff. done.
Qed.

Lemma notPermitted_elem changes level c : c ∈ notPermitted changes level ↔ c ∈ changes ∧ is_blocked level c = true.
Proof. unfold notPermitted. rewrite merge_sort_Permutation, list_elem_of_filter. naive_solver. Qed.

(** The gate opens exactly when every action of every change is permitted. *)
Lemma notPermitted_nil changes level : notPermitted changes level = [] ↔
  ∀ c a, c ∈ changes → a ∈ rc_Actions c → Permits level a = true.
Proof.
  split.
  - intros Hn c a Hc Ha. destruct (Permits level a) eqn:Hp; [done|].
    assert (c ∈ notPermitted changes level) as Hin.
    { apply notPermitted_elem. split; [done|]. apply is_blocked_true. by exists a. }
    rewrite Hn in Hin. by apply elem_of_nil in Hin.
  - intros Hall. destruct (notPermitted changes level) as [|c l] eqn:Hn; [done|]. exfalso.
    assert (c ∈ notPermitted changes level) as Hin by (rewrite Hn; by left).
    apply notPermitted_elem in Hin as [Hc (a & Ha & Hp)%is_blocked_true].
    rewrite (Hall c a Hc Ha) in Hp. done.
Qed.

Lemma Permits_safe_all a : Permits ApproveSafe a = true → Permits ApproveAll a = true.
Proof. unfold Permits. repeat case_decide; done. Qed.

Lemma Permits_any_safe level a : level ≠ ApproveAll → Permits level a = true → Permits ApproveSafe a = true.
Proof. unfold Permits. intros. repeat case_decide; try done; case_bool_decide; done. Qed.

(** ** Properties *)

(** The levels are ordered: no level but [all] lets a plan through that
    [safe] would stop, [all] lets everything through, and a plan [safe] lets
    through neither deletes nor replaces anything. *)
Theorem gate_levels level changes :
  notPermitted changes ApproveAll = [] ∧
  (level ≠ ApproveAll → notPermitted changes level = [] → notPermitted changes ApproveSafe = []) ∧
  (level ≠ ApproveAll → notPermitted changes level = [] →
     ∀ c, c ∈ changes → "delete" ∉ rc_Actions c ∧ IsReplace c = false).
Proof.
  rewrite !notPermitted_nil. split_and!.
  - intros c a _ _. unfold Permits. repeat case_decide; done.
  - intros Hl Hall c a Hc Ha. eapply Permits_any_safe; eauto.
  - intros Hl Hall c Hc. assert ("delete" ∉ rc_Actions c) as Hd.
    { intros Hd. specialize (Hall c "delete" Hc Hd). apply Permits_any_safe in Hall; done. }
    split; [done|]. unfold IsReplace. apply mem_false in Hd. rewrite Hd. apply andb_false_r.
Qed.

Example gate_levels_witness :
  notPermitted [MkResourceChange "a" ["create"]] ApproveSafe = [] ∧
  "delete" ∉ ["create"] ∧ IsReplace (MkResourceChange "a" ["create"]) = false.
Proof.
  split; [vm_compute; reflexivity|].
  refine (proj2 (proj2 (gate_levels ApproveSafe [MkResourceChange "a" ["create"]])) _ _ (MkResourceChange "a" ["create"]) _).
  - discriminate.
  - vm_compute. reflexivity.
  - left.
Defined.

Lemma changes_something_false actions : changes_something actions = false ↔ ∀ a, a ∈ actions → a = "no-op".
Proof.
  unfold changes_something. split.
  - intros He a Ha. destruct (decide (a = "no-op")) as [|Hne]; [done|].
    assert (existsb (λ a, negb (bool_decide (a = "no-op"))) actions = true) as Ht; [|congruence].
    apply existsb_exists. exists a. split; [by apply list_elem_of_In|]. by rewrite bool_decide_false.
  - intros Hall. apply not_true_iff_false. intros (a & Ha & Hn)%existsb_exists. apply list_elem_of_In in Ha.
    by rewrite (Hall a Ha) in Hn.
Qed.

(** A review says [pass] exactly when the apply gate would let the same
    changes through, and it reports no changes only for a plan whose every
    resource and output action is a no-op. *)
Theorem review_agrees_with_gate review changed :
  (rv_PolicyDecision (normalize review changed) = "pass" ↔ notPermitted (rv_Resources review) (rv_Policy review) = []) ∧
  (rv_HasChanges (normalize review changed) = Some false → changed = false ∧
     (∀ c a, c ∈ rv_Resources review → a ∈ rc_Actions c → a = "no-op") ∧
     (∀ o a, o ∈ rv_Outputs review → a ∈ oc_Actions o → a = "no-op")).
Proof.
  split.
  - unfold normalize. simpl. set (rs := merge_sort _ _).
    assert (notPermitted rs (rv_Policy review) = [] ↔ notPermitted (rv_Resources review) (rv_Policy review) = []) as Hrs.
    { rewrite !notPermitted_nil. unfold rs. by setoid_rewrite merge_sort_Permutation. }
    rewrite <-Hrs. case_decide as Hd.
    + split; [done|]. intros Hn. by rewrite Hn in Hd.
    + split; [|done]. intros _. destruct (notPermitted rs _); [done|discriminate Hd].
  - unfold normalize. simpl. intros [= Hf]. apply orb_false_iff in Hf as [[-> Ho]%orb_false_iff Hr]. split; [done|].
    split; intros x a Hx Ha.
    + apply (proj1 (changes_something_false (rc_Actions x))); [|done]. apply not_true_iff_false. intros Ht.
      apply not_true_iff_false in Hr. apply Hr, existsb_exists. exists x. split; [by apply list_elem_of_In|done].
    + apply (proj1 (changes_something_false (oc_Actions x))); [|done]. apply not_true_iff_false. intros Ht.
      apply not_true_iff_false in Ho. apply Ho, existsb_exists. exists x. split; [by apply list_elem_of_In|done].
Qed.
