(* ===== verification/Runner.v ===== *)
(** The runtime subprocess (src/internal/exec: runner.go, lifecycle.go,
    observe.go, plan_identity.go, operation.go, environment_value.go,
    backend_context.go, tfvars.go): the command line and the environment every runtime
    command is started with, and what its answer is taken to mean.

    A process is its arguments, directory and environment; starting it is
    answered by the outside ([runCommand]), and every function says which
    processes it started, in order ([Ran]).  An environment is a list of
    [NAME=value] entries in which the last assignment of a name wins, as
    os/exec has it; [None] stands for the inherited one.  JSON documents are
    what their decoding gives. *)
From S2P Require Import Prelude GoLib Blueprint Module Graph Gate.

Record Runner := MkRunner {
  rn_Binary : string;
  rn_Dir : string;
  rn_DataDir : string;
  rn_Env : gmap string string;
}.

(** The process os/exec starts; [cm_Args] without the binary itself. *)
Record Command := MkCommand {
  cm_Binary : string;
  cm_Args : list string;
  cm_Dir : string;
  cm_Env : option (list string);
}.

(** What the process answers: its standard output, an exit code, or no start. *)
Inductive runtime_answer := RanOk (stdout : string) | Exited (code : Z) | CannotRun (e : error).

Definition ExitError (code : Z) : error := Errorf "exit status %d" [FInt code].

(** [errors.As(err, &exitErr)] with [ExitCode]: the first exit status of the chain. *)
Fixpoint exit_status (e : error) : option Z :=
  match e with
  | Errorf f args =>
    match args with
    | [FInt n] => if decide (f = "exit status %d") then Some n else None
    | _ => (fix go (l : list farg) : option Z := match l with
            | [] => None
            | FErr e :: l => match exit_status e with Some n => Some n | None => go l end
            | _ :: l => go l
            end) args
    end
  | Joined es => (fix go (l : list error) : option Z := match l with
            | [] => None
            | e :: l => match exit_status e with Some n => Some n | None => go l end
            end) es
  | Diagnosed _ e => exit_status e
  | Sentinel _ | External _ => None
  end.

(** The processes started, in order, and the outcome. *)
Definition Ran (A : Type) : Type := list Command * result A.
#[export] Instance Ran_ret : MRet Ran := λ A a, ([], Ok a).
#[export] Instance Ran_bind : MBind Ran := λ A B f m,
  match m with
  | (started, Ok a) => let '(started', r) := f a in (started ++ started', r)
  | (started, Err e) => (started, Err e)
  end.
Definition nothing_started {A} (r : result A) : Ran A := ([], r).
Definition wrap_ran {A} (f : error → error) (m : Ran A) : Ran A := (m.1, wrap_err f m.2).

(** ** The environment *)

(** How the host compares variable names (environment_key_unix.go,
    environment_key_windows.go). *)
Class HostEnvironment := {
  environmentKeyEqual : string → string → bool;
  key_equal_refl a : environmentKeyEqual a a = true;
  key_equal_fold a b : environmentKeyEqual a b = true → to_upper a = to_upper b;
}.

Definition env_name (entry : string) : string := (cut "="%char entry).1.1.
Definition env_value (entry : string) : string := (cut "="%char entry).1.2.

(** [strings.EqualFold] on ASCII names. *)
Definition EqualFold (a b : string) : bool := bool_decide (to_upper a = to_upper b).

Definition unix_environment : HostEnvironment.
Proof.
  refine {| environmentKeyEqual := λ a b, bool_decide (a = b) |}.
  - intros a. by apply bool_decide_eq_true.
  - by intros a b ->%bool_decide_eq_true.
Defined.

Definition windows_environment : HostEnvironment.
Proof.
  refine {| environmentKeyEqual := EqualFold |}.
  - intros a. by apply bool_decide_eq_true.
  - by intros a b H%bool_decide_eq_true.
Defined.

Definition managed_conflict (key : string) : result unit :=
  if EqualFold (env_name key) "TF_DATA_DIR"
  then Err (Errorf "env.%s: TF_DATA_DIR is managed per node to isolate backend configuration; remove this env entry" [FStr key])
  else Ok tt.

Definition ValidateEnv (r : Runner) : result unit :=
  if decide (rn_DataDir r = "") then Ok tt
  else foldM (λ _ key, managed_conflict key) tt (sorted_keys (rn_Env r)).

Definition env_entries (env : gmap string string) : list string :=
  (λ k, k +:+ "=" +:+ default "" (env !! k)) <$> sorted_keys env.

Section Env.
Context `{HostEnvironment} (Environ : list string).

Definition env (r : Runner) : result (option (list string)) :=
  _ ← ValidateEnv r;
  if bool_decide (rn_DataDir r = "") && bool_decide (rn_Env r = ∅) then Ok None
  else Ok (Some (Environ ++ (if decide (rn_DataDir r ≠ "") then ["TF_DATA_DIR=" +:+ rn_DataDir r] else [])
                   ++ env_entries (rn_Env r))).

(** The value the process sees for a name. *)
Definition lookup_env (l : list string) (name : string) : option string :=
  foldl (λ acc entry, let '(key, item, ok) := cut "="%char entry in
                      if ok && environmentKeyEqual key name then Some item else acc) None l.

Definition EnvironmentValue (r : Runner) (name : string) : result (option string) :=
  e ← env r; Ok (lookup_env (default Environ e) name).

(** The map keyed by the upper-cased name: a later entry replaces the earlier. *)
Definition folded_env (l : list string) : gmap string string :=
  foldl (λ m entry, <[to_upper (env_name entry) := env_value entry]> m) ∅ l.

Definition ValidateOperationEnvironment (r : Runner) : result unit :=
  e ← env r;
  let values := folded_env (default [] e) in
  if existsb (λ kv, negb (bool_decide (kv.2 = "")) && (has_prefix kv.1 "TF_CLI_ARGS" || has_prefix kv.1 "TF_LOG"))
       (map_to_list values)
  then Err (Errorf "run requires explicit runtime arguments and managed diagnostics; unset TF_CLI_ARGS and TF_LOG overrides" [])
  else Ok tt.

(** ** Starting a process (lifecycle.go) *)

Definition ErrNotStarted : error := Sentinel "runtime was not started".

(** What the hook supplies: credentials and a completion. *)
Record hook_answer := MkHookAnswer { ha_env : gmap string string; ha_finish : option (option error → option error) }.
Definition RuntimeHook : Type := string → result hook_answer.

Definition operation_of (args : list string) : string :=
  match args with
  | [] => ""
  | "state" :: sub :: _ => "state " +:+ sub
  | operation :: _ => operation
  end.

Definition override_env (l : list string) (kv : string * string) : list string :=
  filter (λ entry, EqualFold (env_name entry) kv.1 = false) l ++ [kv.1 +:+ "=" +:+ kv.2].

Definition with_env (cmd : Command) (e : option (list string)) : Command :=
  MkCommand (cm_Binary cmd) (cm_Args cmd) (cm_Dir cmd) e.

(** The process after the hook's credentials. *)
Definition with_credentials `{MapOrder} (credentials : gmap string string) (cmd : Command) : Command :=
  if decide (credentials = ∅) then cmd
  else with_env cmd (Some (foldl override_env (default Environ (cm_Env cmd)) (range credentials))).

Context (runCommand : Command → runtime_answer).

Definition answer_error (a : runtime_answer) : option error :=
  match a with RanOk _ => None | Exited code => Some (ExitError code) | CannotRun e => Some e end.

(** What was started, the returned error, and what the process wrote. *)
Definition execute `{MapOrder} (hook : option RuntimeHook) (cmd : Command) : list Command * option error * string :=
  match hook with
  | None => let a := runCommand cmd in ([cmd], answer_error a, match a with RanOk out => out | _ => "" end)
  | Some h =>
    match h (operation_of (cm_Args cmd)) with
    | Err err => ([], Some (Joined [ErrNotStarted; err]), "")
    | Ok ha =>
      let cmd := with_credentials (ha_env ha) cmd in
      let a := runCommand cmd in
      let resultErr := answer_error a in
      ([cmd], match ha_finish ha with
       | None => resultErr
       | Some finish => join_errors resultErr (finish resultErr)
       end, match a with RanOk out => out | _ => "" end)
    end
  end.

Definition new_command (r : Runner) (args : list string) : result Command :=
  e ← env r; Ok (MkCommand (rn_Binary r) args (rn_Dir r) e).

Section Commands.
Context `{MapOrder} (hook : option RuntimeHook).

Definition output_of (r : Runner) (args : list string) : Ran string :=
  cmd ← nothing_started (new_command r args);
  let '(started, err, out) := execute hook cmd in
  (started, match err with None => Ok out | Some e => Err e end).

Definition run (r : Runner) (args : list string) : Ran unit := _ ← output_of r args; mret tt.

(** ** Command lines *)

Definition backend_flags (cfg : gmap string string) : list string :=
  (λ k, "-backend-config=" +:+ k +:+ "=" +:+ default "" (cfg !! k)) <$> sorted_keys cfg.

Definition init_args (cfg : gmap string string) : list string := ["init"; "-input=false"] ++ backend_flags cfg.
Definition Init (r : Runner) (cfg : gmap string string) : Ran unit := run r (init_args cfg).

Definition Plan (r : Runner) (extraArgs : list string) : Ran unit := run r (["plan"; "-input=false"] ++ extraArgs).

Definition plan_args (planPath : string) (extraArgs : list string) : list string :=
  ["plan"; "-input=false"; "-refresh=true"; "-detailed-exitcode"]
    ++ (if decide (planPath ≠ "") then ["-out=" +:+ planPath] else []) ++ extraArgs.

Definition changes_of (res : result unit) : result bool :=
  match res with
  | Ok _ => Ok false
  | Err err => if decide (exit_status err = Some 2%Z) then Ok true else Err err
  end.

Definition PlanChanges (r : Runner) (planPath : string) (extraArgs : list string) : Ran bool :=
  let '(started, res) := run r (plan_args planPath extraArgs) in (started, changes_of res).

Definition ApplyPlan (r : Runner) (planPath : string) : Ran unit := run r ["apply"; "-input=false"; planPath].

Definition Destroy (r : Runner) (autoApprove : bool) (extraArgs : list string) : Ran unit :=
  run r (["destroy"; "-input=false"] ++ (if autoApprove then ["-auto-approve"] else []) ++ extraArgs).

Definition InitRead (r : Runner) (cfg : gmap string string) (extraArgs : list string) : Ran unit :=
  run r (["init"; "-input=false"; "-lockfile=readonly"; "-reconfigure"] ++ backend_flags cfg ++ extraArgs).

Definition RunOperation (r : Runner) (args : list string) : Ran unit := run r args.

Definition planJSON (r : Runner) (planPath : string) : Ran string :=
  cmd ← nothing_started (new_command r ["show"; "-json"; planPath]);
  let '(started, err, out) := execute hook cmd in
  (started, match err with
            | None => Ok out
            | Some e => Err (Errorf "running %s show -json in %s: %w" [FStr (rn_Binary r); FStr (rn_Dir r); FErr e])
            end).

(** ** What a plan does *)

Record plan_document := MkPlanDocument {
  pd_FormatVersion : string;
  pd_OutputChanges : gmap string (list string);
  pd_ResourceChanges : list ResourceChange;
}.

Definition PlanChangeSet (parse : string → option plan_document) (outputs : bool) (r : Runner) (planPath : string) :
    Ran (list ResourceChange * list OutputChange) :=
  data ← planJSON r planPath;
  nothing_started match parse data with
  | None => Err (Errorf "parsing %s show -json in %s: %w" [FStr (rn_Binary r); FStr (rn_Dir r); FErr (External "invalid JSON")])
  | Some doc =>
    if outputs && negb (has_prefix (pd_FormatVersion doc) "1.")
    then Err (Errorf "unsupported plan JSON format; use a runtime with plan JSON format version 1" [])
    else Ok (pd_ResourceChanges doc,
             if outputs then (λ name, MkOutputChange name (default [] (pd_OutputChanges doc !! name))) <$> sorted_keys (pd_OutputChanges doc)
             else [])
  end.

(** ** The backend of the last init *)

(** [metadata dir] is the backend type the data directory records, [None] when
    it cannot be read or parsed. *)
Definition BackendType (metadata : string → option string) (r : Runner) : string :=
  let dir := if decide (rn_DataDir r = "") then Join [rn_Dir r; ".terraform"] else rn_DataDir r in
  default "" (metadata (Join [dir; "terraform.tfstate"])).

Definition SupportsSavedPlan (metadata : string → option string) (r : Runner) : bool :=
  negb (mem (BackendType metadata r) ["remote"; "cloud"]).

(** The digested bytes; [file] is the metadata file, missing or unreadable. *)
Definition BackendContext (digest : string → string) (file : string → result (option string)) (r : Runner) : result string :=
  data ← wrap_err (λ err, Errorf "reading initialized backend context: %w" [FErr err])
           (file (Join [rn_DataDir r; "terraform.tfstate"]));
  Ok (digest (default ("implicit-local:" +:+ rn_Dir r) data)).

(** ** The state (observe.go) *)

Record StateObservation := MkStateObservation {
  so_Present : bool; so_Determinate : bool; so_Empty : bool; so_Resources : nat; so_Outputs : nat;
}.

(** A state document: serial, version, the instances of each resource, the
    number of outputs. *)
Record state_document := MkStateDocument { sd_Serial : Z; sd_Version : Z; sd_Instances : list nat; sd_Outputs : nat }.

Definition observation (doc : state_document) : StateObservation :=
  let resources := sum_list (sd_Instances doc) in
  MkStateObservation true (bool_decide (0 < sd_Serial doc)%Z)
    (Nat.eqb resources 0 && Nat.eqb (sd_Outputs doc) 0) resources (sd_Outputs doc).

(** [parse]: a decoding error, or the document with whether it is the only value. *)
Definition ObserveState (parse : string → result (state_document * bool)) (r : Runner) : Ran StateObservation :=
  out ← wrap_ran (λ err, Errorf "reading state: %w" [FErr err]) (output_of r ["state"; "pull"]);
  nothing_started (if decide (trim_space out = "") then Ok (MkStateObservation false false false 0 0)
  else '(doc, single) ← wrap_err (λ err, Errorf "decoding state: %w" [FErr err]) (parse out);
       if negb single || negb (bool_decide (sd_Version doc = 4%Z))
       then Err (Errorf "unsupported state document; use a runtime with state format version 4" [])
       else Ok (observation doc)).

(** ** The identity of the runtime (plan_identity.go) *)

Record PlanRuntimeIdentity := MkPlanRuntimeIdentity {
  pri_Version : string; pri_Platform : string; pri_Providers : gmap string string; pri_Inputs : gmap string string;
}.

Definition identity_entry (inputs : gmap string string) (entry : string) : result (gmap string string) :=
  let '(key, value, _) := cut "="%char entry in
  let inputs := if has_prefix key "TF_VAR_" || bool_decide (key = "TF_WORKSPACE") then <[key := value]> inputs else inputs in
  if has_prefix (to_upper key) "TF_CLI_ARGS" && negb (bool_decide (value = ""))
  then Err (Errorf "retained plans require explicit runtime arguments; unset TF_CLI_ARGS overrides before saving or applying" [])
  else Ok inputs.

Definition PlanIdentity (parse : string → option (string * string * gmap string string)) (r : Runner) : Ran PlanRuntimeIdentity :=
  out ← wrap_ran (λ err, Errorf "verifying saved-plan runtime: %w" [FErr err]) (output_of r ["version"; "-json"]);
  nothing_started match parse out with
  | Some (version, platform, providers) =>
    if bool_decide (version = "") || bool_decide (platform = "")
    then Err (Errorf "runtime version -json is incomplete; use a runtime exposing version and platform before retaining plans" [])
    else e ← env r;
         inputs ← foldM identity_entry ∅ (default [] e);
         Ok (MkPlanRuntimeIdentity version platform providers inputs)
  | None => Err (Errorf "runtime version -json is incomplete; use a runtime exposing version and platform before retaining plans" [])
  end.
End Commands.
End Env.

(** ** Facts *)

Lemma cut_entry c k v : c = "="%char → cut c (k +:+ String c v) = ((cut c k).1.1,
  if (cut c k).2 then (cut c k).1.2 +:+ String c v else v, true).
Proof.
  intros ->. induction k as [|d k IH]; [done|]. change (String d k +:+ String "=" v) with (String d (k +:+ String "=" v)).
  cbn [cut]. destruct (Ascii.eqb d "=") eqn:Hd; [done|].
  rewrite IH. by destruct (cut "=" k) as [[x y] []].
Qed.

Lemma env_name_entry k v : env_name (k +:+ "=" +:+ v) = env_name k.
Proof. unfold env_name. change ("=" +:+ v) with (String "=" v). by rewrite (cut_entry "=" k v). Qed.

Lemma env_value_entry k v : (cut "="%char k).2 = false → env_value (k +:+ "=" +:+ v) = v.
Proof. intros Hk. unfold env_value. change ("=" +:+ v) with (String "=" v). by rewrite (cut_entry "=" k v), Hk. Qed.

(** A name of which the last entry is found is what the process sees. *)
Lemma lookup_env_app `{HostEnvironment} l entry name v : cut "="%char entry = (name, v, true) →
  lookup_env (l ++ [entry]) name = Some v.
Proof.
  intros Hc. unfold lookup_env. rewrite foldl_app. cbn [foldl]. by rewrite Hc, key_equal_refl.
Qed.

Lemma lookup_env_later `{HostEnvironment} l l' name :
  (∀ entry, entry ∈ l' → to_upper (env_name entry) ≠ to_upper name) → lookup_env (l ++ l') name = lookup_env l name.
Proof.
  intros Hl. unfold lookup_env. rewrite foldl_app. generalize (foldl (λ acc entry, let '(key, item, ok) := cut "="%char entry in
                      if ok && environmentKeyEqual key name then Some item else acc) None l) as acc.
  induction l' as [|entry l' IH]; intros acc; [done|]. cbn [foldl]. rewrite IH.
  - specialize (Hl entry (list_elem_of_here _ _)). unfold env_name in Hl. destruct (cut "=" entry) as [[key item] []]; [|done].
    simpl in Hl. destruct (environmentKeyEqual key name) eqn:Heq; [|done]. by apply key_equal_fold in Heq.
  - intros e He. apply Hl. by right.
Qed.

(** Dropping entries of other names leaves what the process sees. *)
Lemma lookup_env_filter `{HostEnvironment} (P : string → Prop) `{∀ e, Decision (P e)} l name :
  (∀ entry, to_upper (env_name entry) = to_upper name → P entry) → lookup_env (filter P l) name = lookup_env l name.
Proof.
  intros HP. unfold lookup_env. generalize (@None string) as acc. induction l as [|entry l IH]; intros acc; [done|].
  rewrite filter_cons. case_decide as Hd; cbn [foldl]; [apply IH|].
  rewrite IH. destruct (cut "=" entry) as [[key item] ok] eqn:Hc. destruct (ok && environmentKeyEqual key name) eqn:Heq; [|done].
  apply andb_true_iff in Heq as [-> Heq%key_equal_fold]. exfalso. apply Hd, HP. unfold env_name. by rewrite Hc.
Qed.

Lemma managed_conflict_Ok key : managed_conflict key = Ok tt ↔ to_upper (env_name key) ≠ "TF_DATA_DIR".
Proof.
  unfold managed_conflict, EqualFold. change (to_upper "TF_DATA_DIR") with "TF_DATA_DIR".
  case_bool_decide as Hx; split; [done|intros Hn; by destruct (Hn Hx)|done|done].
Qed.

Lemma env_entries_elem e entry : entry ∈ env_entries e ↔ ∃ k v, e !! k = Some v ∧ entry = k +:+ "=" +:+ v.
Proof.
  unfold env_entries. rewrite list_elem_of_fmap. split.
  - intros (k & -> & [v Hv]%sorted_keys_elem). exists k, v. by rewrite Hv.
  - intros (k & v & Hv & ->). exists k. rewrite Hv. split; [done|]. apply sorted_keys_elem. by eexists.
Qed.

Lemma upper_forall (P : Ascii.ascii → bool) s : forallb P (chars (to_upper s)) = true → ∀ c, c ∈ chars s → P (upper_ascii c) = true.
Proof.
  induction s as [|d s IH]; simpl; [intros _ c Hc; by apply elem_of_nil in Hc|].
  intros [Hd Hs]%andb_true_iff c [->|Hc]%elem_of_cons; [done|by apply IH].
Qed.

Lemma cut_absent c s : c ∉ chars s → cut c s = (s, "", false).
Proof.
  induction s as [|d s IH]; [done|]. simpl. intros Hc. rewrite not_elem_of_cons in Hc. destruct Hc as [Hd Hs].
  destruct (Ascii.eqb_spec d c); [by subst|]. by rewrite IH.
Qed.

(** No allowed credential name is, or hides, the managed variable. *)
Lemma allowed_not_managed k : CredentialEnvironmentAllowed k = true → to_upper (env_name k) ≠ "TF_DATA_DIR".
Proof.
  unfold CredentialEnvironmentAllowed. destruct (env_identifier (to_upper k)) eqn:Hid; [|done]. intros Ha.
  assert (env_name k = k) as ->.
  { unfold env_name. rewrite cut_absent; [done|]. intros Hin.
    assert (forallb (λ d, is_upper d || is_digit d || is_underscore d) (chars (to_upper k)) = true) as Hall.
    { destruct (to_upper k) as [|c s] eqn:Hk; [done|]. simpl in Hid |- *. apply andb_true_iff in Hid as [Hc Hs].
      rewrite Hs, andb_true_r. apply orb_true_iff in Hc as [->| ->]; [done|]. by rewrite orb_true_r. }
    by apply (upper_forall _ _ Hall) in Hin. }
  intros Hk. rewrite Hk in Ha. by vm_compute in Ha.
Qed.

Lemma override_managed `{HostEnvironment} l kv : to_upper (env_name kv.1) ≠ "TF_DATA_DIR" → CredentialEnvironmentAllowed kv.1 = true →
  lookup_env (override_env l kv) "TF_DATA_DIR" = lookup_env l "TF_DATA_DIR".
Proof.
  intros Hk Ha. unfold override_env. rewrite lookup_env_later.
  - apply lookup_env_filter. intros entry He. unfold EqualFold. apply bool_decide_eq_false. intros Heq.
    rewrite He in Heq. revert Ha. unfold CredentialEnvironmentAllowed. rewrite <-Heq. by vm_compute.
  - intros entry ->%list_elem_of_singleton. by rewrite env_name_entry.
Qed.

(** A node's backend cache is its own.  Whatever the inherited environment
    and the blueprint's env hold, and after any credentials a provider may
    supply, the runtime process sees TF_DATA_DIR set to the node's managed
    directory, on hosts that compare variable names with or without case; an
    env entry that could redirect it is refused before anything starts. *)
Theorem data_dir_isolated `{HostEnvironment} `{MapOrder} Environ r args credentials :
  rn_DataDir r ≠ "" → (∀ k, is_Some (credentials !! k) → CredentialEnvironmentAllowed k = true) →
  match new_command Environ r args with
  | Ok cmd => ∃ e, cm_Env (with_credentials Environ credentials cmd) = Some e ∧
      lookup_env e "TF_DATA_DIR" = Some (rn_DataDir r)
  | Err _ => ∃ k, is_Some (rn_Env r !! k) ∧ to_upper (env_name k) = "TF_DATA_DIR"
  end.
Proof.
  intros Hd Hcred. unfold new_command, env. rewrite (bool_decide_false _ Hd), (decide_True _ _ Hd). cbn [andb].
  destruct (ValidateEnv r) as [[]|err] eqn:Hv; unfold ValidateEnv in Hv; rewrite (decide_False _ _ Hd) in Hv; cbn [mbind result_bind].
  - rewrite foldM_checks in Hv. exists (foldl override_env (Environ ++ ["TF_DATA_DIR=" +:+ rn_DataDir r] ++ env_entries (rn_Env r)) (range credentials)).
    split; [unfold with_credentials; case_decide as Hc; [rewrite Hc|done]|].
    { assert (range (∅ : gmap string string) = []) as ->; [|done]. apply Permutation_nil. by rewrite range_perm, map_to_list_empty. }
    assert (∀ kv, kv ∈ range credentials → CredentialEnvironmentAllowed kv.1 = true) as Hall.
    { intros [k v] Hkv%range_elem. apply Hcred. by eexists. }
    revert Hall. generalize (range credentials) as l. intros l. induction l as [|kv l IH] using rev_ind; intros Hall.
    + cbn [foldl]. rewrite (app_assoc Environ), lookup_env_later.
      * by apply lookup_env_app.
      * intros entry (k & v & Hk & ->)%env_entries_elem. rewrite env_name_entry. apply managed_conflict_Ok, Hv, sorted_keys_elem. by eexists.
    + rewrite foldl_app. cbn [foldl]. rewrite override_managed.
      * apply IH. intros kv' Hkv'. apply Hall, elem_of_app. by left.
      * apply allowed_not_managed, Hall, elem_of_app. right. by left.
      * apply Hall, elem_of_app. right. by left.
  - destruct (decide (Exists (λ k, to_upper (env_name k) = "TF_DATA_DIR") (sorted_keys (rn_Env r)))) as [Hex|Hno].
    + apply Exists_exists in Hex as (k & Hk%sorted_keys_elem & Hu). by exists k.
    + assert (foldM (λ _ key, managed_conflict key) tt (sorted_keys (rn_Env r)) = Ok tt) as Hok; [|congruence].
      apply foldM_checks. intros k Hk. apply managed_conflict_Ok. intros Hu. apply Hno, Exists_exists. by exists k.
Qed.

(** An inherited TF_DATA_DIR and a provider's token change nothing. *)
Definition sample_runner : Runner :=
  MkRunner "terraform" "/repo/m" "/repo/.terragraph/tfdata/a" {[ "AWS_REGION" := "eu-west-1" ]}.
Definition sample_environ : list string := ["TF_DATA_DIR=/shared"; "HOME=/root"].
Definition sample_init : Command :=
  MkCommand "terraform" ["init"] "/repo/m"
    (Some ["TF_DATA_DIR=/shared"; "HOME=/root"; "TF_DATA_DIR=/repo/.terragraph/tfdata/a"; "AWS_REGION=eu-west-1"]).
Definition sample_token : gmap string string := {[ "AWS_SESSION_TOKEN" := "secret" ]}.

Lemma sample_init_started : new_command sample_environ sample_runner ["init"] = Ok sample_init.
Proof. vm_compute. reflexivity. Qed.

Example data_dir_isolated_witness :
  ∃ e, cm_Env (@with_credentials sample_environ map_order_default sample_token sample_init) = Some e ∧
    @lookup_env unix_environment e "TF_DATA_DIR" = Some "/repo/.terragraph/tfdata/a".
Proof.
  pose proof (@data_dir_isolated unix_environment map_order_default sample_environ sample_runner ["init"] sample_token) as Hd.
  rewrite sample_init_started in Hd. apply Hd; [done|].
  intros k [v Hk]. unfold sample_token in Hk. apply lookup_singleton_Some in Hk as [<- _]. vm_compute. reflexivity.
Defined.

(** ** The variable file (tfvars.go) *)

(** It is written anew for every run with the owner's mode, removed when there
    is nothing to pass, and named to the runtime exactly when it was written.
    A directory tree is the files it holds with their modes; the system may
    fail every call. *)
Record file := MkFile { fi_content : string; fi_mode : N }.
Notation tree := (gmap string file).

(** The answers of the calls [WriteTFVars] makes; [os.Remove] of a missing file is no failure. *)
Record tfvars_answers := MkTfvarsAnswers {
  ta_remove : option error; ta_mkdir : option error; ta_encode : gmap string value → result string; ta_write : option error;
}.

Definition owner_only : N := 384.  (* 0600 *)

(** [os.Remove] unless the file is missing. *)
Definition remove_stale (a : tfvars_answers) (path : string) (t : tree) : tree * option error :=
  match t !! path with
  | None => (t, None)
  | Some _ => match ta_remove a with Some err => (t, Some err) | None => (delete path t, None) end
  end.

(** A write that creates takes the mode given; one that fails may have written a part. *)
Definition write_file (a : tfvars_answers) (path content : string) (mode : N) (t : tree) : tree * option error :=
  let mode := match t !! path with Some f => fi_mode f | None => mode end in
  match ta_write a with
  | Some err => (<[path := MkFile "" mode]> t, Some err)
  | None => (<[path := MkFile content mode]> t, None)
  end.

Definition WriteTFVars (a : tfvars_answers) (path : string) (vars : gmap string value) (t : tree) : tree * result string :=
  if decide (vars = ∅) then
    match remove_stale a path t with
    | (t, Some err) => (t, Err (Errorf "removing stale tfvars file %s: %w" [FStr path; FErr err]))
    | (t, None) => (t, Ok path)
    end
  else
    match ta_mkdir a with
    | Some err => (t, Err (Errorf "creating directory for tfvars file %s: %w" [FStr path; FErr err]))
    | None =>
      match ta_encode a vars with
      | Err err => (t, Err (Errorf "encoding tfvars for %s: %w" [FStr path; FErr err]))
      | Ok data =>
        match remove_stale a path t with
        | (t, Some err) => (t, Err (Errorf "removing stale tfvars file %s: %w" [FStr path; FErr err]))
        | (t, None) =>
          match write_file a path data owner_only t with
          | (t, Some err) => (t, Err (Errorf "writing tfvars file %s: %w" [FStr path; FErr err]))
          | (t, None) => (t, Ok path)
          end
        end
      end
    end.

Definition VarFileArgs (path : string) (vars : gmap string value) : list string :=
  if decide (vars = ∅) then [] else ["-var-file=" +:+ path].

Lemma remove_stale_spec a path t t' e : remove_stale a path t = (t', e) →
  (∀ q, q ≠ path → t' !! q = t !! q) ∧ (e = None → t' !! path = None).
Proof.
  unfold remove_stale. destruct (t !! path) eqn:Hp; [destruct (ta_remove a)|]; intros [= <- <-]; split; try (intros; done).
  - intros q Hq. by rewrite lookup_delete_ne by congruence.
  - intros _. apply lookup_delete_eq.
Qed.

(** A run that goes on loads exactly the values of this run, from a file only
    its owner may read whatever an earlier run left there, or no file at all;
    no other file is touched, even by a failure. *)
Theorem tfvars_fresh a path vars t :
  let '(t', r) := WriteTFVars a path vars t in
  (∀ q, q ≠ path → t' !! q = t !! q)
  ∧ match r with
    | Err _ => True
    | Ok p => p = path ∧
        if decide (vars = ∅) then t' !! path = None ∧ VarFileArgs path vars = []
        else ∃ data, ta_encode a vars = Ok data ∧ t' !! path = Some (MkFile data owner_only) ∧ VarFileArgs path vars = ["-var-file=" +:+ path]
    end.
Proof.
  unfold WriteTFVars, VarFileArgs. destruct (decide (vars = ∅)) as [Hv|Hv].
  { destruct (remove_stale a path t) as [t1 [err|]] eqn:Hr; apply remove_stale_spec in Hr as [Ho Hn]; [done|]. by split; [|split; [|split; [apply Hn|]]]. }
  destruct (ta_mkdir a); [done|]. destruct (ta_encode a vars) as [data|]; [|done].
  destruct (remove_stale a path t) as [t1 [err|]] eqn:Hr; apply remove_stale_spec in Hr as [Ho Hn]; [done|].
  unfold write_file. rewrite (Hn eq_refl). destruct (ta_write a).
  - split; [|done]. intros q Hq. rewrite lookup_insert_ne by done. by apply Ho.
  - split; [intros q Hq; rewrite lookup_insert_ne by done; by apply Ho|]. split; [done|]. exists data. by rewrite lookup_insert_eq.
Qed.
