(* ===== verification/Values.v ===== *)
(** Observed and planned values (src/internal/exec/plan_values.go, the output
    types of runner.go): what an output document carries, the merge of a saved
    plan's outputs with its output changes, and the typed, partially known
    value the contracts are checked against.

    The cty library's JSON decoding and conversion are a class of operations
    ([CtyJson]); what its documentation promises of untyped JSON is
    [SimpleLaws].  A decoded JSON document is a [value]; an absent field and
    an explicit null both decode to [VNull]. *)
From S2P Require Import Prelude GoLib Cty Blueprint.

Record RunOutput := MkRunOutput {
  ro_Value : value;
  ro_Type : string;
  ro_Unknown : value;
  ro_Sensitive : option bool;
}.
Notation RunOutputs := (gmap string RunOutput).

(** [Outputs.Values]. *)
Definition Values (outputs : RunOutputs) : gmap string value := ro_Value <$> outputs.

Class CtyJson := {
  UnmarshalType : string → option ctype;
  Unmarshal : value → ctype → option cvalue;
  SimpleJSON : value → option cvalue;
  ConvertValue : cvalue → ctype → option cvalue;
}.

(** A JSON null is a null of the dynamic type, an object an object, an array a
    tuple, anything else a primitive. *)
Class SimpleLaws `{CtyJson} := {
  simple_null : SimpleJSON VNull = Some (CNull TDynamic);
  simple_object l : SimpleJSON (VObject l) = CObject <$> mapM (λ kv, v ← SimpleJSON kv.2; Some (kv.1, v)) l;
  simple_list l : SimpleJSON (VList l) = CTuple <$> mapM SimpleJSON l;
  simple_scalar v : match v with VBool _ | VNumber _ | VString _ => ∃ n s, SimpleJSON v = Some (CPrim n s) | _ => True end;
}.

Fixpoint hasUnknown (mask : value) : bool :=
  match mask with
  | VBool m => m
  | VObject m => existsb (λ kv, hasUnknown kv.2) m
  | VList m => existsb hasUnknown m
  | _ => false
  end.

Definition object_of (raw : value) : list (string * value) := match raw with VObject o => o | _ => [] end.
Definition array_of (raw : value) : list value := match raw with VList l => l | _ => [] end.

Definition to_result {A} (msg : string) (o : option A) : result A :=
  match o with Some a => Ok a | None => Err (Errors_New msg) end.

Section Values.
Context `{CtyJson}.

(** The last branch of [CtyValue]: the shape of the JSON alone. *)
Definition plain (raw : value) : result cvalue := to_result "invalid observed value" (SimpleJSON raw).

(** An object under its mask: the present attributes with their masks (nil
    when the mask has none), then the attributes only the mask knows. *)
Definition mask_object (subs : list (string * (value → result cvalue))) (o : list (string * value)) : result cvalue :=
  known ← mapM_res (λ kv : string * value,
            v ← match assoc subs kv.1 with Some f => f kv.2 | None => plain kv.2 end; Ok (kv.1, v)) o;
  rest ← mapM_res (λ kf : string * (value → result cvalue), v ← kf.2 VNull; Ok (kf.1, v))
           (List.filter (λ kf, negb (mem kf.1 o.*1)) subs);
  Ok (CObject (known ++ rest)).

(** Elements in step; the shorter side reads as nil. *)
Fixpoint mask_elems (subs : list (value → result cvalue)) (array : list value) : result (list cvalue) :=
  match subs, array with
  | [], _ => mapM_res plain array
  | f :: subs, [] => v ← f VNull; vs ← mask_elems subs []; Ok (v :: vs)
  | f :: subs, raw :: array => v ← f raw; vs ← mask_elems subs array; Ok (v :: vs)
  end.

Fixpoint maskedValue (mask raw : value) {struct mask} : result cvalue :=
  match mask with
  | VBool true => Ok (CUnknown TDynamic)
  | VObject m => mask_object ((λ kv : string * value, (kv.1, maskedValue kv.2)) <$> m) (object_of raw)
  | VList m => vs ← mask_elems (maskedValue <$> m) (array_of raw); Ok (CTuple vs)
  | _ => plain raw
  end.

Definition typed (o : RunOutput) (convert : ctype → option cvalue) : result cvalue :=
  typ ← to_result "invalid runtime type metadata" (UnmarshalType (ro_Type o));
  to_result "value disagrees with runtime type metadata" (convert typ).

Definition CtyValue (o : RunOutput) : result cvalue :=
  if hasUnknown (ro_Unknown o) then
    value ← maskedValue (ro_Unknown o) (ro_Value o);
    if decide (ro_Type o = "") then Ok value else typed o (ConvertValue value)
  else if decide (ro_Type o = "") then plain (ro_Value o)
  else typed o (Unmarshal (ro_Value o)).

(** ** [PlanValues] *)

(** [oc_After] is the raw message: absent, or what decoding it gives. *)
Record OutputValueChange := MkOutputValueChange {
  oc_Actions_ : list string;
  oc_After : option (option value);
  oc_Unknown : value;
  oc_Sensitive : option bool;
}.

Record plan_values_document := MkPlanValuesDocument {
  pv_FormatVersion : string;
  pv_Variables : gmap string RunOutput;
  pv_PlannedOutputs : option RunOutputs;
  pv_OutputChanges : gmap string OutputValueChange;
}.

Record PlanValues := MkPlanValues { pl_Variables : gmap string RunOutput; pl_Outputs : RunOutputs }.

Definition nil_output : RunOutput := MkRunOutput VNull "" VNull None.

Definition merge_change (outs : RunOutputs) (nc : string * OutputValueChange) : result RunOutputs :=
  let '(name, change) := nc in
  if mem "delete" (oc_Actions_ change) then Ok (delete name outs)
  else
    let output := default nil_output (outs !! name) in
    match oc_After change with
    | Some None => Err (Errorf "reading plan values: invalid output; create a fresh plan" [])
    | Some (Some v) => Ok (<[name := MkRunOutput v (ro_Type output) (oc_Unknown change) (oc_Sensitive change)]> outs)
    | None =>
      let unknown := if hasUnknown (oc_Unknown change) then oc_Unknown change else VBool true in
      Ok (<[name := MkRunOutput (ro_Value output) (ro_Type output) unknown (oc_Sensitive change)]> outs)
    end.

(** [parsed] is the decoded document, with whether it is the only value. *)
Definition plan_values `{MapOrder} (parsed : option (plan_values_document * bool)) : result PlanValues :=
  match parsed with
  | None => Err (Errorf "reading plan values: invalid JSON; create a fresh plan" [])
  | Some (doc, single) =>
    if negb single || negb (has_prefix (pv_FormatVersion doc) "1.")
    then Err (Errorf "reading plan values: unsupported plan JSON; use a runtime with format version 1" [])
    else outputs ← foldM merge_change (default ∅ (pv_PlannedOutputs doc)) (range (pv_OutputChanges doc));
         Ok (MkPlanValues (pv_Variables doc) outputs)
  end.

(** ** The outputs of a state (runner.go [Outputs]) *)

Definition parse_outputs (binary dir : string) (parsed : result (RunOutputs * bool)) : result RunOutputs :=
  '(raw, single) ← wrap_err (λ err, Errorf "parsing %s output -json in %s: %w" [FStr binary; FStr dir; FErr err]) parsed;
  if negb single then Err (Errorf "parsing %s output -json in %s: expected a single JSON value" [FStr binary; FStr dir])
  else Ok raw.
End Values.

(** ** What a partially known value can become *)

(** The pairs of mask and planned value at the attributes of an object. *)
Definition masked_attrs (m o : list (string * value)) : list (string * (value * value)) :=
  ((λ kv : string * value, (kv.1, (default VNull (assoc m kv.1), kv.2))) <$> o)
  ++ ((λ kv : string * value, (kv.1, (kv.2, VNull))) <$> List.filter (λ kv, negb (mem kv.1 o.*1)) m).

Fixpoint masked_elems (m l : list value) : list (value * value) :=
  match m, l with
  | [], _ => (λ raw, (VNull, raw)) <$> l
  | mask :: m, [] => (mask, VNull) :: masked_elems m []
  | mask :: m, raw :: l => (mask, raw) :: masked_elems m l
  end.

Definition mask_leaf (mask : value) : bool :=
  match mask with VBool b => negb b | VObject _ | VList _ => false | _ => true end.

(** [fills mask planned final]: [final] is the planned value with the places
    the mask marks unknown filled in. *)
Inductive fills : value → value → value → Prop :=
  | fills_unknown planned final : fills (VBool true) planned final
  | fills_known mask planned : mask_leaf mask = true → fills mask planned planned
  | fills_object m planned l :
      Forall2 (λ t kv, t.1 = kv.1 ∧ fills t.2.1 t.2.2 kv.2) (masked_attrs m (object_of planned)) l →
      fills (VObject m) planned (VObject l)
  | fills_list m planned l :
      Forall2 (λ t v, fills t.1 t.2 v) (masked_elems m (array_of planned)) l → fills (VList m) planned (VList l).

Section ValueInd.
Context (P : value → Prop) (HLeaf : ∀ v, match v with VList _ | VObject _ => False | _ => True end → P v).
Context (HList : ∀ l, Forall P l → P (VList l)) (HObject : ∀ l, Forall (λ kv, P kv.2) l → P (VObject l)).

Fixpoint value_ind' (v : value) : P v :=
  match v with
  | VList l => HList l ((fix go l : Forall P l :=
      match l with [] => Forall_nil_2 _ | a :: l => Forall_cons_2 _ _ _ (value_ind' a) (go l) end) l)
  | VObject l => HObject l ((fix go l : Forall (λ kv : string * value, P kv.2) l :=
      match l with [] => Forall_nil_2 _ | a :: l => Forall_cons_2 _ _ _ (value_ind' a.2) (go l) end) l)
  | v => HLeaf v I
  end.
End ValueInd.

Lemma completes_refl v : completes v v.
Proof.
  induction v as [t|t|n s|l IH|l IH|e l IH|e l IH|e l IH] using cvalue_ind'; constructor;
    induction IH as [|a l Ha _ IHl]; constructor; auto.
Qed.

Section Masked.
Context `{SimpleLaws}.

Lemma assoc_fmap {A B} (f : A → B) (l : list (string * A)) k :
  assoc ((λ kv, (kv.1, f kv.2)) <$> l) k = f <$> assoc l k.
Proof. induction l as [|[k' a] l IH]; [done|]. simpl. by case_decide. Qed.

Lemma mapM_res_app {A B} (f : A → result B) l1 l2 :
  mapM_res f (l1 ++ l2) = (r1 ← mapM_res f l1; r2 ← mapM_res f l2; Ok (r1 ++ r2)).
Proof.
  induction l1 as [|a l1 IH]; simpl; [by destruct (mapM_res f l2)|]. destruct (f a); [|done]. simpl. rewrite IH.
  destruct (mapM_res f l1); [|done]. simpl. by destruct (mapM_res f l2).
Qed.

Lemma mapM_res_fmap {A B C} (g : A → B) (f : B → result C) l : mapM_res f (g <$> l) = mapM_res (f ∘ g) l.
Proof. induction l as [|a l IH]; [done|]. rewrite fmap_cons. cbn [mapM_res]. by rewrite IH. Qed.

Lemma mapM_res_ext {A B} (f g : A → result B) l : (∀ a, f a = g a) → mapM_res f l = mapM_res g l.
Proof. intros Hfg. induction l as [|a l IH]; simpl; [done|]. by rewrite Hfg, IH. Qed.

Lemma list_filter_fmap {A B} (g : A → B) (p : B → bool) l : List.filter p (g <$> l) = g <$> List.filter (λ a, p (g a)) l.
Proof.
  induction l as [|a l IH]; [done|]. rewrite fmap_cons. cbn [List.filter]. rewrite IH. by destruct (p (g a)).
Qed.

Definition mask_attr (t : string * (value * value)) : result (string * cvalue) :=
  v ← maskedValue t.2.1 t.2.2; Ok (t.1, v).

Lemma maskedValue_object m raw :
  maskedValue (VObject m) raw = (vs ← mapM_res mask_attr (masked_attrs m (object_of raw)); Ok (CObject vs)).
Proof.
  unfold masked_attrs. rewrite mapM_res_app, !mapM_res_fmap. cbn [maskedValue]. unfold mask_object.
  rewrite list_filter_fmap, mapM_res_fmap. unfold mask_attr at 1.
  rewrite (mapM_res_ext (mask_attr ∘ (λ kv : string * value, (kv.1, (default VNull (assoc m kv.1), kv.2))))
    (λ kv, v ← match assoc ((λ kv0 : string * value, (kv0.1, maskedValue kv0.2)) <$> m) kv.1 with
                | Some f => f kv.2 | None => plain kv.2 end; Ok (kv.1, v))).
  - destruct (mapM_res _ (object_of raw)); [|done]. simpl. by destruct (mapM_res _ _).
  - intros [k v]. cbn. rewrite assoc_fmap. by destruct (assoc m k).
Qed.

Lemma mask_elems_spec m l : mask_elems (maskedValue <$> m) l = mapM_res (λ t : value * value, maskedValue t.1 t.2) (masked_elems m l).
Proof.
  revert l. induction m as [|mask m IH]; intros l; [simpl; by rewrite mapM_res_fmap|].
  destruct l as [|raw l]; simpl; by rewrite IH.
Qed.

Lemma masked_attrs_masks m o t : t ∈ masked_attrs m o → t.2.1 = VNull ∨ ∃ k, (k, t.2.1) ∈ m.
Proof.
  unfold masked_attrs. rewrite elem_of_app, !list_elem_of_fmap. intros [([k v] & -> & _)|([k v] & -> & Hf)]; simpl.
  - destruct (assoc m k) as [mask|] eqn:Ha; [right; exists k; by apply assoc_elem|by left].
  - right. exists k. apply list_elem_of_In in Hf. apply filter_In in Hf as [Hin _]. by apply list_elem_of_In.
Qed.

Lemma masked_elems_masks m l t : t ∈ masked_elems m l → t.1 = VNull ∨ t.1 ∈ m.
Proof.
  revert l. induction m as [|mask m IH]; intros l; simpl.
  - intros (raw & -> & _)%list_elem_of_fmap. by left.
  - destruct l as [|raw l]; intros [->|[?|?]%IH]%elem_of_cons; auto; right; by (left || right).
Qed.

Definition masks_well (mask : value) : Prop := ∀ planned final v v',
  fills mask planned final → maskedValue mask planned = Ok v → SimpleJSON final = Some v' → completes v v'.

Lemma leaf_masks mask : mask_leaf mask = true → masks_well mask.
Proof.
  intros Hl planned final v v' Hf Hm Hs. inversion Hf; subst; try done.
  assert (plain final = Ok v) as Hp by (by destruct mask as [|[]| | | |]). unfold plain, to_result in Hp.
  rewrite Hs in Hp. injection Hp as <-. apply completes_refl.
Qed.

Lemma null_masks : masks_well VNull.
Proof. by apply leaf_masks. Qed.

Lemma masks_elem m k mask : Forall (λ kv : string * value, masks_well kv.2) m → (k, mask) ∈ m → masks_well mask.
Proof. rewrite Forall_forall. intros Hm Hin. by apply (Hm (k, mask)). Qed.

Lemma fill_elems ts l vs vs' : (∀ t, t ∈ ts → masks_well t.1) →
  Forall2 (λ (t : value * value) v, fills t.1 t.2 v) ts l → Forall2 (λ t v, maskedValue t.1 t.2 = Ok v) ts vs →
  Forall2 (λ v v', SimpleJSON v = Some v') l vs' → Forall2 completes vs vs'.
Proof.
  intros Hw Hf. revert vs vs'. induction Hf as [|t v ts l Htv Hf IH]; intros vs vs' Hm Hs;
    inversion Hm; inversion Hs; subst; constructor.
  - eapply (Hw t); [by left|done..].
  - apply IH; [|done..]. intros t' Ht'. apply Hw. by right.
Qed.

Lemma fill_attrs ts l vs vs' : (∀ t, t ∈ ts → masks_well t.2.1) →
  Forall2 (λ (t : string * (value * value)) (kv : string * value), t.1 = kv.1 ∧ fills t.2.1 t.2.2 kv.2) ts l →
  Forall2 (λ t v, mask_attr t = Ok v) ts vs →
  Forall2 (λ (kv : string * value) v', (v ← SimpleJSON kv.2; Some (kv.1, v)) = Some v') l vs' →
  Forall2 (λ a b, a.1 = b.1 ∧ completes a.2 b.2) vs vs'.
Proof.
  intros Hw Hf. revert vs vs'. induction Hf as [|t kv ts l [Hk Htv] Hf IH]; intros vs vs' Hm Hs;
    inversion Hm as [|? ? ? ? Hma]; inversion Hs as [|? ? ? ? Hsa]; subst; constructor.
  - unfold mask_attr in Hma. apply result_bind_Ok in Hma as (v & Hv & [= <-]). apply bind_Some in Hsa as (v' & Hv' & [= <-]).
    split; [done|]. eapply (Hw t); [by left|done..].
  - apply IH; [|done..]. intros t' Ht'. apply Hw. by right.
Qed.

(** Under its mask a planned value is what every final value completes. *)
Lemma masked_completes mask : masks_well mask.
Proof.
  induction mask as [mask Hleaf|m IH|m IH] using value_ind'.
  - destruct mask as [|[]| | | |]; try done; try (by apply leaf_masks).
    intros planned final v v' _ [= <-] _. constructor.
  - intros planned final v v' Hf. inversion Hf as [|? ? Hl|? ? ? Hall|? ? l Hall]; subst; [done|]. cbn [maskedValue].
    intros (vs & Hvs & [= <-])%result_bind_Ok. rewrite simple_list. intros (vs' & Hvs'%mapM_Some & ->)%fmap_Some.
    constructor. rewrite mask_elems_spec, mapM_res_Ok in Hvs. eapply fill_elems; [|done..].
    intros t [->|Ht]%masked_elems_masks; [apply null_masks|]. rewrite Forall_forall in IH. by apply IH.
  - intros planned final v v' Hf. inversion Hf as [|? ? Hl|? ? l Hall|]; subst; [done|]. rewrite maskedValue_object.
    intros (vs & Hvs & [= <-])%result_bind_Ok. rewrite simple_object. intros (vs' & Hvs'%mapM_Some & ->)%fmap_Some.
    constructor. rewrite mapM_res_Ok in Hvs. eapply fill_attrs; [|done..].
    intros t [->|[k Hk]]%masked_attrs_masks; [apply null_masks|]. by eapply masks_elem.
Qed.

(** Untyped JSON, masked or not, gives no map, list or set. *)
Fixpoint untyped (v : cvalue) : bool :=
  match v with
  | CList _ _ | CSet _ _ | CMap _ _ => false
  | CObject l => forallb (λ kv, untyped kv.2) l
  | CTuple l => forallb untyped l
  | _ => true
  end.

Lemma simple_untyped raw v : SimpleJSON raw = Some v → untyped v = true.
Proof.
  revert v. induction raw as [raw Hleaf|l IH|l IH] using value_ind'; intros v.
  - pose proof (simple_scalar raw) as Hs. destruct raw; try done; try (destruct Hs as (n & t & ->); by intros [= <-]).
    rewrite simple_null. by intros [= <-].
  - rewrite simple_list. intros (vs & Hvs%mapM_Some & ->)%fmap_Some. cbn [untyped].
    induction Hvs as [|a b l vs Hab Hvs IHvs]; [done|]. apply Forall_cons in IH as [Ha IH]. simpl. by rewrite (Ha b Hab), IHvs.
  - rewrite simple_object. intros (vs & Hvs%mapM_Some & ->)%fmap_Some. cbn [untyped].
    induction Hvs as [|a b l vs Hab Hvs IHvs]; [done|]. apply Forall_cons in IH as [Ha IH].
    apply bind_Some in Hab as (v & Hv & [= <-]). simpl. by rewrite (Ha v Hv), IHvs.
Qed.

Lemma plain_untyped raw v : plain raw = Ok v → untyped v = true.
Proof. unfold plain, to_result. destruct (SimpleJSON raw) eqn:Hs; [intros [= <-]; by eapply simple_untyped|done]. Qed.

Lemma masked_untyped mask raw v : maskedValue mask raw = Ok v → untyped v = true.
Proof.
  revert raw v. induction mask as [mask Hleaf|m IH|m IH] using value_ind'; intros raw v.
  - destruct mask as [|[]| | | |]; try done; try apply plain_untyped. by intros [= <-].
  - cbn [maskedValue]. intros (vs & Hvs & [= <-])%result_bind_Ok. rewrite mask_elems_spec, mapM_res_Ok in Hvs. cbn [untyped].
    apply forallb_forall. intros v' Hv'%list_elem_of_In. revert v' Hv'. eapply Forall2_all_r; [done|]. simpl.
    intros t v [Ht|Ht]%masked_elems_masks Hx; [rewrite Ht in Hx; by eapply plain_untyped|].
    rewrite Forall_forall in IH. by eapply IH.
  - rewrite maskedValue_object. intros (vs & Hvs & [= <-])%result_bind_Ok. rewrite mapM_res_Ok in Hvs. cbn [untyped].
    apply forallb_forall. intros kv Hkv%list_elem_of_In. revert kv Hkv. eapply Forall2_all_r; [done|]. simpl.
    intros t x Ht Hx. unfold mask_attr in Hx. apply result_bind_Ok in Hx as (v & Hv & [= <-]). simpl.
    apply masked_attrs_masks in Ht as [Ht|[k Ht]]; [rewrite Ht in Hv; by eapply plain_untyped|].
    rewrite Forall_forall in IH. by eapply (IH _ Ht).
Qed.
End Masked.
