(* ===== verification/ContractValues.v ===== *)
(** Contracts on values (src/internal/engine/contracts_values.go,
    internal/module/input.go): the evidence a port's contract is checked
    against, before and after an apply, and what a run does with the verdicts.

    A node of the graph carries its schema: [graph.Build] loads it, so a nil
    schema (an observation's unreadable leaf) reads as an empty one.  What the
    policy logs is not kept. *)
From S2P Require Import Prelude GoLib Cty CtyProofs Blueprint Module Graph Contracts Gate Values.

Definition empty_schema : Schema := MkSchema false ∅ ∅ ∅ "" ∅ None false ∅.

Definition schema_of (g : Graph) (name : string) : Schema :=
  default empty_schema (g_Nodes g !! name ≫= n_Schema).

(** The value of a literal the module declares. *)
Fixpoint literal (v : value) : cvalue :=
  match v with
  | VNull => CNull TDynamic
  | VBool b => CPrim "bool" (if b then "true" else "false")
  | VNumber s => CPrim "number" s
  | VString s => CPrim "string" s
  | VList l => CTuple (literal <$> l)
  | VObject l => CObject ((λ kv, (kv.1, literal kv.2)) <$> l)
  end.

Definition null_value (v : cvalue) : bool := match v with CNull _ => true | _ => false end.
Definition is_known (v : cvalue) : bool := match v with CUnknown _ => false | _ => true end.

Section Contracts.
Context `{CtyJson} (ContractType : string → result ctype).

(** [TypeConstraint]: a variable's type expression; [ApplyDefaults]: the
    defaults its optional attributes declare. *)
Context (TypeConstraint : string → option ctype) (ApplyDefaults : string → cvalue → cvalue).

(** ** [EffectiveValue] *)

Definition effective_source (v : VariableDecl) (val : option cvalue) : result cvalue :=
  let dflt := literal <$> v_Default v in
  match (match val with None => dflt | Some _ => val end) with
  | None => Err (Errors_New "input value is unavailable; supply the variable or a literal default")
  | Some d =>
    if null_value d && bool_decide (v_Nullable v = Some false) then
      match dflt with
      | Some d' => if null_value d' then Err (Errors_New "null is not allowed; supply a non-null value or a non-null module default") else Ok d'
      | None => Err (Errors_New "null is not allowed; supply a non-null value or a non-null module default")
      end
    else Ok d
  end.

Definition EffectiveValue (v : VariableDecl) (val : option cvalue) : result cvalue :=
  target ← (if decide (v_Type v = "") then Ok TDynamic
            else to_result "invalid variable type; fix the module declaration" (TypeConstraint (v_Type v)));
  d ← effective_source v val;
  let d := if decide (v_Type v = "") then d else if null_value d then d else ApplyDefaults (v_Type v) d in
  match ConvertValue d target with
  | Some r => Ok r
  | None => Err (Errorf "does not match declared type %s: %w" [FStr (v_Type v); FErr (External "conversion")])
  end.

(** ** One port *)

Definition result_text (r : ContractResult) : string :=
  match r with
  | ContractConfirmed => "confirmed" | ContractViolation => "violation"
  | ContractDeferred => "deferred" | ContractUnconstrained => "unconstrained"
  end.

Definition check_type (p : PortContract) (v : option cvalue) : ContractResult :=
  match ContractType (pc_Type p) with
  | Ok typ => check_optional ConvertValue v typ
  | Err _ => ContractViolation
  end.

Definition check_nullable (v : option cvalue) : ContractResult :=
  match v with
  | None => ContractDeferred
  | Some v => if negb (is_known v) then ContractDeferred else if null_value v then ContractViolation else ContractConfirmed
  end.

Definition check_sensitive (declared : bool) (sensitive : option bool) : ContractResult :=
  match sensitive with
  | None => ContractDeferred
  | Some s => if bool_decide (s = declared) then ContractConfirmed else ContractViolation
  end.

Definition port_results (p : PortContract) (v : option cvalue) (sensitive : option bool) : list (string * ContractResult) :=
  (if decide (pc_Type p ≠ "") then [("type", check_type p v)] else [])
  ++ (if decide (pc_Nullable p = Some false) then [("nullable", check_nullable v)] else [])
  ++ match pc_Sensitive p with Some declared => [("sensitive", check_sensitive declared sensitive)] | None => [] end.

Definition check : Type := string * string * ContractResult.

Definition checkPort (path : string) (p : PortContract) (v : option cvalue) (sensitive : option bool) : list check :=
  match port_results p v sensitive with
  | [] => [(path, "value", ContractUnconstrained)]
  | l => (λ cr, (path, cr.1, cr.2)) <$> l
  end.

(** ** The policy *)

Definition policy_error (c : check) : error :=
  let '(port, condition, r) := c in
  let '(code, remedy) := if decide (r = ContractDeferred)
    then ("C011", "restore current typed outputs or use a supported saved plan; apply the upstream in this run for null outputs")
    else ("C010", "correct the contract or the module value") in
  Errorf "%s: contract.[%s] %s %s; %s" [FStr port; FStr code; FStr condition; FStr (result_text r); FStr remedy].

Definition policy_check (enforce requireKnown : bool) (c : check) : result unit :=
  if bool_decide (c.2 = ContractViolation) || bool_decide (c.2 = ContractDeferred) then
    if enforce && (bool_decide (c.2 = ContractViolation) || requireKnown) then Err (policy_error c) else Ok tt
  else Ok tt.

(** ** The checks of a node *)

(** An untyped snapshot array proves no collection. *)
Fixpoint withoutCollectionEvidence (v : cvalue) : cvalue :=
  match v with
  | CList _ _ | CSet _ _ | CTuple _ => CUnknown TDynamic
  | CObject l | CMap _ l => CObject ((λ kv, (kv.1, withoutCollectionEvidence kv.2)) <$> l)
  | v => v
  end.

(** The evidence an output gives: none when it is missing or does not decode. *)
Definition output_evidence (output : option RunOutput) : option cvalue :=
  match output with
  | None => None
  | Some o => match CtyValue o with
              | Ok v => Some (if decide (ro_Type o = "") then withoutCollectionEvidence v else v)
              | Err _ => None
              end
  end.

Section Node.
Context (g : Graph).

Definition enforcing : bool := bool_decide (g_ContractMode g = "enforce").

Definition contractPolicy (checks : list check) (requireKnown : bool) : result unit :=
  foldM (λ _ c, policy_check enforcing requireKnown c) tt checks.

Definition nodeContracts (name : string) : option DirContracts :=
  n ← g_Nodes g !! name; Lookup (g_Contracts g) (contractKey n).

Definition hasContracts (name : string) : bool :=
  match nodeContracts name with
  | Some dc => negb (bool_decide (dc_Producer dc = ∅)) || negb (bool_decide (dc_Consumer dc = ∅))
  | None => false
  end.

Definition contractPorts (ports : gmap string PortContract) : list string := sorted_keys ports.

Definition declared_sensitive (name port : string) : bool :=
  match s_OutputDetails (schema_of g name) !! port with Some d => o_Sensitive d | None => false end.

Definition output_check (name : string) (outputs : RunOutputs) (complete : bool) (port : string) (p : PortContract) : list check :=
  let output := outputs !! port in
  if negb (bool_decide (is_Some output)) && negb complete then []
  else
    let sensitive := if declared_sensitive name port then Some true else output ≫= ro_Sensitive in
    checkPort ("node." +:+ name +:+ ".output." +:+ port) p (output_evidence output) sensitive.

Definition ports_checks (ports : gmap string PortContract) (f : string → PortContract → list check) : list check :=
  port ← contractPorts ports; match ports !! port with Some p => f port p | None => [] end.

Definition outputContractChecks (name : string) (outputs : RunOutputs) (complete : bool) : list check :=
  match nodeContracts name with
  | None => []
  | Some dc => ports_checks (dc_Producer dc) (output_check name outputs complete)
  end.

(** The effective input a plan evaluated; none for an ephemeral variable. *)
Definition input_evidence (name : string) (values : PlanValues) (port : string) : option cvalue :=
  match s_Variables (schema_of g name) !! port, pl_Variables values !! port with
  | Some variable, Some raw =>
    if v_Ephemeral variable then None
    else match CtyValue raw with
         | Ok chosen => match EffectiveValue variable (Some chosen) with Ok v => Some v | Err _ => None end
         | Err _ => None
         end
  | _, _ => None
  end.

Definition variable_sensitive (name port : string) : bool :=
  match s_Variables (schema_of g name) !! port with Some v => v_Sensitive v | None => false end.

Definition input_check (name : string) (values : PlanValues) (port : string) (p : PortContract) : list check :=
  checkPort ("node." +:+ name +:+ ".input." +:+ port) p (input_evidence name values port) (Some (variable_sensitive name port)).

Definition inputContractChecks (name : string) (values : PlanValues) : list check :=
  match nodeContracts name with
  | None => []
  | Some dc => ports_checks (dc_Consumer dc) (input_check name values)
  end.

(** ** Plans and outputs *)

(** [emitted] is the outcome of the lifecycle's outputs-ready event, kept for
    the end of the run rather than returned. *)
Definition validateOutputContracts (name : string) (outputs : RunOutputs) (emitted : option error) : result (option error) :=
  _ ← contractPolicy (outputContractChecks name outputs true) true; Ok emitted.

(** [values] is what reading the plan's values answers. *)
Definition inspectContractPlan (name : string) (values : result PlanValues) (requireInputs : bool) :
    option PlanValues * list check * option error :=
  if negb (hasContracts name) then (None, [], None)
  else match values with
  | Err err =>
    let checks := [("node." +:+ name, "plan evidence", ContractDeferred)] in
    match contractPolicy checks requireInputs with
    | Err policyErr => (None, checks, Some (Errorf "%w: %w" [FErr policyErr; FErr err]))
    | Ok _ => (None, checks, None)
    end
  | Ok values =>
    let inputs := inputContractChecks name values in
    let outputs := outputContractChecks name (pl_Outputs values) true in
    match (_ ← contractPolicy inputs requireInputs; contractPolicy outputs false) with
    | Err err => (Some values, inputs ++ outputs, Some err)
    | Ok _ => (Some values, inputs ++ outputs, None)
    end
  end.

(** A port the plan proves null, which the state then omits. *)
Definition null_evidence (o : RunOutput) : bool :=
  match CtyValue o with Ok v => is_known v && null_value v | Err _ => false end.

Definition completePlanOutputs (name : string) (outputs : RunOutputs) (plan : option PlanValues) : RunOutputs :=
  match plan with
  | None => outputs
  | Some plan =>
    outputs ∪ map_imap (λ port o, if HasOutput (schema_of g name) port && null_evidence o then Some o else None) (pl_Outputs plan)
  end.
End Node.
End Contracts.

(** ** Facts *)

Section Facts.
Context `{CtyJson} (ContractType : string → result ctype).

Lemma policy_check_Ok enforce requireKnown c : policy_check enforce requireKnown c = Ok tt ↔
  (enforce = true → c.2 ≠ ContractViolation ∧ (requireKnown = true → c.2 ≠ ContractDeferred)).
Proof.
  unfold policy_check. destruct c as [[port condition] []], enforce, requireKnown; simpl; split; try done; try (by intros; split);
    intros Hc; by destruct (Hc eq_refl) as [? Hd]; try destruct (Hd eq_refl).
Qed.

Lemma contractPolicy_Ok g checks requireKnown : contractPolicy g checks requireKnown = Ok tt ↔
  (enforcing g = true → ∀ c, c ∈ checks → c.2 ≠ ContractViolation ∧ (requireKnown = true → c.2 ≠ ContractDeferred)).
Proof.
  unfold contractPolicy. rewrite foldM_checks. setoid_rewrite policy_check_Ok. split; intros Hc; [intros He c Hin; by apply Hc|intros c Hin He; by apply Hc].
Qed.

Lemma ports_checks_elem ports f c : c ∈ ports_checks ports f ↔ ∃ port p, ports !! port = Some p ∧ c ∈ f port p.
Proof.
  unfold ports_checks, contractPorts. rewrite list_elem_of_bind. split.
  - intros (port & Hc & _). destruct (ports !! port) as [p|] eqn:Hp; [by exists port, p|by apply elem_of_nil in Hc].
  - intros (port & p & Hp & Hc). exists port. rewrite Hp. split; [done|]. apply sorted_keys_elem. by eexists.
Qed.

(** A port's checks carry exactly its results. *)
Lemma checkPort_results path p v s cr : cr ∈ port_results ContractType p v s → (path, cr.1, cr.2) ∈ checkPort ContractType path p v s.
Proof.
  unfold checkPort. intros Hin. destruct (port_results ContractType p v s) as [|a l] eqn:Hl; [by apply elem_of_nil in Hin|].
  apply list_elem_of_fmap. by exists cr.
Qed.

Lemma port_results_type p v s : pc_Type p ≠ "" → ("type", check_type ContractType p v) ∈ port_results ContractType p v s.
Proof. intros Ht. unfold port_results. rewrite decide_True by done. rewrite !elem_of_app. left. by left. Qed.

Lemma port_results_nullable p v s : pc_Nullable p = Some false → ("nullable", check_nullable v) ∈ port_results ContractType p v s.
Proof. intros Ht. unfold port_results. rewrite (decide_True (P := pc_Nullable p = Some false)) by done. rewrite !elem_of_app. right. left. by left. Qed.

Lemma port_results_sensitive p v s d : pc_Sensitive p = Some d → ("sensitive", check_sensitive d s) ∈ port_results ContractType p v s.
Proof. intros Ht. unfold port_results. rewrite Ht, !elem_of_app. right. right. by left. Qed.

(** What an enforced run accepted of a node's outputs. *)
Lemma outputs_accepted g name outputs emitted r dc port p cr : enforcing g = true →
  validateOutputContracts ContractType g name outputs emitted = Ok r → nodeContracts g name = Some dc →
  dc_Producer dc !! port = Some p →
  cr ∈ port_results ContractType p (output_evidence (outputs !! port))
         (if declared_sensitive g name port then Some true else outputs !! port ≫= ro_Sensitive) →
  cr.2 ≠ ContractViolation ∧ cr.2 ≠ ContractDeferred.
Proof.
  intros He (u & Hv & _)%result_bind_Ok Hdc Hp Hcr. destruct u. rewrite contractPolicy_Ok in Hv. specialize (Hv He).
  destruct (Hv ("node." +:+ name +:+ ".output." +:+ port, cr.1, cr.2)) as [Hv1 Hv2]; [|by split; [|apply Hv2]].
  unfold outputContractChecks. rewrite Hdc. apply ports_checks_elem. exists port, p. split; [done|].
  unfold output_check. rewrite andb_false_r. by apply checkPort_results.
Qed.

Lemma check_sensitive_Ok d s : check_sensitive d s ≠ ContractViolation → check_sensitive d s ≠ ContractDeferred → s = Some d.
Proof. unfold check_sensitive. destruct s as [s|]; [|done]. case_bool_decide; [by subst|done]. Qed.
End Facts.

Section Promises.
Context `{CtyJson} (ContractType : string → result ctype).

(** C20: an enforced contract is kept by what a node publishes.  When the
    outputs of a node pass validation under [contracts = enforce], every
    output its contract names was read back; the check confirms its value
    against the declared type, and the value conforms to that type when no
    [any] stands inside a collection of it; it is known and not null where null
    is excluded, and its sensitivity is known and as declared. *)
Theorem enforced_outputs_conform g name outputs emitted r dc port p : enforcing g = true →
  validateOutputContracts ContractType g name outputs emitted = Ok r → nodeContracts g name = Some dc →
  dc_Producer dc !! port = Some p →
  (pc_Type p ≠ "" → ∃ t v, ContractType (pc_Type p) = Ok t ∧ output_evidence (outputs !! port) = Some v ∧
     CheckContractType ConvertValue v t = ContractConfirmed ∧ (static t = true → conforms v t)) ∧
  (pc_Nullable p = Some false → ∃ v, output_evidence (outputs !! port) = Some v ∧ is_known v = true ∧ null_value v = false) ∧
  (∀ d, pc_Sensitive p = Some d →
     (if declared_sensitive g name port then Some true else outputs !! port ≫= ro_Sensitive) = Some d).
Proof.
  intros He Hv Hdc Hp. pose proof (outputs_accepted ContractType g name outputs emitted r dc port p) as Hacc. split_and!.
  - intros Ht. destruct (Hacc ("type", check_type ContractType p (output_evidence (outputs !! port))) He Hv Hdc Hp) as [H1 H2];
      [by apply port_results_type|]. unfold check_type in H1, H2. simpl in H1, H2.
    destruct (ContractType (pc_Type p)) as [t|]; [|done]. destruct (output_evidence (outputs !! port)) as [v|]; [|done].
    assert (CheckContractType ConvertValue v t = ContractConfirmed) as Hc.
    { pose proof (check_constrained ConvertValue v t) as H3. simpl in H1, H2. by destruct (CheckContractType ConvertValue v t). }
    exists t, v. split_and!; [done..|]. intros Hs. by apply (verdicts ConvertValue v v t Hs (completes_refl v)).
  - intros Hn. destruct (Hacc ("nullable", check_nullable (output_evidence (outputs !! port))) He Hv Hdc Hp) as [H1 H2];
      [by apply port_results_nullable|]. unfold check_nullable in H1, H2. simpl in H1, H2.
    destruct (output_evidence (outputs !! port)) as [v|]; [|done]. exists v. destruct (is_known v), (null_value v); done.
  - intros d Hd. destruct (Hacc ("sensitive", check_sensitive d
      (if declared_sensitive g name port then Some true else outputs !! port ≫= ro_Sensitive)) He Hv Hdc Hp) as [H1 H2];
      [by apply port_results_sensitive|]. by apply check_sensitive_Ok.
Qed.

Lemma without_completes v v' : untyped v = true → completes v v' → completes (withoutCollectionEvidence v) v'.
Proof.
  revert v'. induction v as [t|t|n s|l IH|l IH|e l IH|e l IH|e l IH] using cvalue_ind'; intros v' Hu Hc; try done; try by constructor.
  cbn [withoutCollectionEvidence]. inversion Hc as [| | |? l' Hall| | | |]; subst. constructor. cbn [untyped] in Hu.
  clear Hc. induction Hall as [|a b l l' [Hk Hab] Hall IHl]; [constructor|]. apply Forall_cons in IH as [Ha IH].
  simpl in Hu. apply andb_true_iff in Hu as [Hua Hul]. constructor; [|by apply IHl]. split; [done|]. by apply Ha.
Qed.

(** A violation found in a plan is real.  When the partially known value a
    plan gives an output violates the declared type, no value the apply can
    compute at the unknown places conforms: stopping before the mutation
    refuses nothing that would have been accepted after it. *)
Theorem planned_violation_final `{!SimpleLaws} p o t final v : ContractType (pc_Type p) = Ok t → static t = true →
  hasUnknown (ro_Unknown o) = true → ro_Type o = "" → fills (ro_Unknown o) (ro_Value o) final → SimpleJSON final = Some v →
  check_type ContractType p (output_evidence (Some o)) = ContractViolation → ¬ conforms v t.
Proof.
  intros Ht Hs Hm Hty Hf Hv. unfold check_type, output_evidence, CtyValue. rewrite Ht, Hm, Hty.
  destruct (maskedValue (ro_Unknown o) (ro_Value o)) as [m|] eqn:Hmask; simpl; [|done]. intros Hc. eapply verdicts; [done| |done]. apply without_completes; [by eapply masked_untyped|].
  by eapply masked_completes.
Qed.
End Promises.

(** ** Concrete inputs *)

Fixpoint sample_simple (v : value) : option cvalue :=
  match v with
  | VNull => Some (CNull TDynamic)
  | VBool b => Some (CPrim "bool" (if b then "true" else "false"))
  | VNumber s => Some (CPrim "number" s)
  | VString s => Some (CPrim "string" s)
  | VList l => CTuple <$> mapM sample_simple l
  | VObject l => CObject <$> mapM (λ kv, v ← sample_simple kv.2; Some (kv.1, v)) l
  end.

#[export] Instance sample_cty : CtyJson := {|
  UnmarshalType := λ s, if decide (s = "string") then Some (TPrimitive "string") else None;
  Unmarshal := λ v _, sample_simple v;
  SimpleJSON := sample_simple;
  ConvertValue := λ v _, Some v;
|}.

#[export] Instance sample_cty_laws : SimpleLaws.
Proof. constructor; try done. intros []; simpl; try done; eauto. Qed.

Definition sample_contract_type (s : string) : result ctype :=
  if decide (s = "object({name = string})") then Ok (TObject [("name", TPrimitive "string", false)]) else Ok (TPrimitive s).

Definition sample_port : PortContract := MkPortContract "vpc" "producer" "object({name = string})" None None.

(** The plan knows the name is a number; the id is computed by the apply. *)
Definition sample_planned : RunOutput :=
  MkRunOutput (VObject [("name", VNumber "7")]) "" (VObject [("id", VBool true)]) (Some false).

Example planned_violation_final_witness :
  check_type sample_contract_type sample_port (output_evidence (Some sample_planned)) = ContractViolation ∧
  ¬ conforms (CObject [("name", CPrim "number" "7"); ("id", CPrim "string" "vpc-1")]) (TObject [("name", TPrimitive "string", false)]).
Proof.
  split; [vm_compute; reflexivity|].
  apply (planned_violation_final sample_contract_type sample_port sample_planned _
    (VObject [("name", VNumber "7"); ("id", VString "vpc-1")])); try (vm_compute; reflexivity).
  constructor. vm_compute. repeat constructor.
Defined.

Definition sample_producer : DirContracts := MkDirContracts "producer" "/m" {[ "name" := MkPortContract "name" "producer" "string" (Some false) (Some false) ]} ∅.
Definition sample_contract_graph : Graph :=
  let n := MkGNode (MkNode ∅ ∅ "a" "./m" ∅ None ∅ "" ∅ "") (Some empty_schema) None "/m" None ∅ "" in
  MkGraph {[ "a" := n ]} [] ∅ ∅ None (Some {[ "/m" := sample_producer ]}) "enforce" false.
Definition sample_outputs : RunOutputs := {[ "name" := MkRunOutput (VString "db") "string" VNull (Some false) ]}.

Example enforced_outputs_conform_witness :
  ∃ t v, sample_contract_type "string" = Ok t ∧ output_evidence (sample_outputs !! "name") = Some v ∧
    CheckContractType ConvertValue v t = ContractConfirmed ∧ (static t = true → conforms v t).
Proof.
  eapply (enforced_outputs_conform sample_contract_type sample_contract_graph "a" sample_outputs None None sample_producer "name"
    (MkPortContract "name" "producer" "string" (Some false) (Some false))); try (vm_compute; reflexivity).
  done.
Defined.
