(* ===== verification/Inputs.v ===== *)
(** The inputs of a node (src/internal/engine: inputs.go, snapshot.go): where
    the value of every data edge is read from, the output snapshots used as a
    last resort, and the checks a value passes before Terraform sees it.

    Reading a node's outputs runs its runtime: the answer is a function of the
    reads made before it.  A snapshot file is missing, unreadable or a
    document; encoding and decoding one are kept as the document itself. *)
From S2P Require Import Prelude GoLib Cty Blueprint Module Graph Backend Contracts Gate Values ContractValues.

(** ** Snapshots *)

Record snapshotFile := MkSnapshotFile {
  sn_Schema : Z;
  sn_Node : string;
  sn_Types : gmap string string;
  sn_Outputs : option (gmap string value);
  sn_Withheld : list string;
}.

(** [single]: no data after the document. *)
Inductive stored_file := NoFile | Unreadable | Document (f : snapshotFile) (single : bool).

(** The calls of [os] that can fail for a reason other than a missing file. *)
Record snapshot_faults := MkSnapshotFaults {
  sf_remove_stale : option error; sf_mkdir : option error; sf_remove : option error; sf_write : option error;
}.

Definition with_file {A} (fault : option error) (wrap : error → error) (file : stored_file) (ok : stored_file * result A) :
    stored_file * result A :=
  match fault with Some e => (file, Err (wrap e)) | None => ok end.

Section Snapshots.
Context (g : Graph).

Definition contract_sensitive (node output : string) : bool :=
  match nodeContracts g node ≫= λ dc, dc_Producer dc !! output with
  | Some p => bool_decide (pc_Sensitive p = Some true)
  | None => false
  end.

Definition snapshotOutputAllowed (node output : string) : bool :=
  if contract_sensitive node output then false
  else match s_OutputDetails (schema_of g node) !! output with Some d => negb (o_Sensitive d) | None => false end.

Definition consumed (name : string) : gset string :=
  list_to_set (pr_Name ∘ e_From <$> filter (λ e, IsDataEdge e = true ∧ pr_Node (e_From e) = name) (g_Edges g)).

(** An output that may be persisted: present, public by every account. *)
Definition public_output (name : string) (outputs : RunOutputs) (out : string) : option RunOutput :=
  match outputs !! out with
  | Some o => if snapshotOutputAllowed name out && bool_decide (ro_Sensitive o = Some false) then Some o else None
  | None => None
  end.

Definition published (name : string) (outputs : RunOutputs) : gmap string RunOutput :=
  map_imap (λ out o, if bool_decide (out ∈ consumed name) then public_output name outputs out else None) outputs.

Definition withheld (name : string) (outputs : RunOutputs) : list string :=
  sort_strings (filter (λ out, public_output name outputs out = None) (elements (consumed name))).

(** A nil raw message is encoded as null. *)
Definition stored_type (o : RunOutput) : string := if decide (ro_Type o = "") then "null" else ro_Type o.

Definition snapshot_document (name : string) (outputs : RunOutputs) : snapshotFile :=
  MkSnapshotFile 3 name (stored_type <$> published name outputs) (Some (ro_Value <$> published name outputs)) (withheld name outputs).

(** A failed write leaves a file nobody can read. *)
Definition writeSnapshot (fl : snapshot_faults) (name : string) (outputs : RunOutputs) (file : stored_file) : stored_file * result unit :=
  if negb (g_Snapshots g) then (file, Ok tt)
  else if bool_decide (published name outputs = ∅) && bool_decide (withheld name outputs = []) then
    with_file (sf_remove_stale fl) (λ e, Errorf "node %s: removing stale output snapshot: %w" [FStr name; FErr e]) file (NoFile, Ok tt)
  else
    with_file (sf_mkdir fl) (λ e, Errorf "node %s: creating output snapshot directory: %w" [FStr name; FErr e]) file
      (with_file (sf_remove fl) (λ e, Errorf "node %s: removing prior output snapshot: %w" [FStr name; FErr e]) file
        (with_file (sf_write fl) (λ e, Errorf "node %s: writing output snapshot: %w" [FStr name; FErr e]) Unreadable
          (Document (snapshot_document name outputs) true, Ok tt))).

(** The outputs a snapshot may still supply, and the names it withholds. *)
Definition untrusted (name : string) (f : snapshotFile) (out : string) : bool :=
  bool_decide (sn_Schema f = 1%Z) || negb (snapshotOutputAllowed name out).

Definition stripped (name : string) (f : snapshotFile) (outs : gmap string value) : snapshotFile :=
  let gone := filter (λ out, untrusted name f out = true) (sorted_keys outs) in
  let held := sn_Withheld f ++ gone in
  MkSnapshotFile (sn_Schema f) (sn_Node f) (sn_Types f)
    (Some (filter (λ kv : string * value, kv.1 ∉ held) outs)) held.

Definition compatible (name : string) (f : snapshotFile) : bool :=
  (bool_decide (sn_Schema f = 1%Z) || bool_decide (sn_Schema f = 2%Z) || bool_decide (sn_Schema f = 3%Z))
  && bool_decide (sn_Node f = name).

Definition readSnapshot (name : string) (file : stored_file) : option snapshotFile :=
  match file with
  | NoFile | Unreadable => None
  | Document f single =>
    match sn_Outputs f with
    | Some outs => if compatible name f && single then Some (stripped name f outs) else None
    | None => None
    end
  end.
End Snapshots.

(** ** Type checks *)

Section Inputs.
Context `{CtyJson} (TypeConstraint : string → option ctype) (ApplyDefaults : string → cvalue → cvalue) (g : Graph).

Definition input_error (node var format : string) (args : list farg) : error :=
  Errorf ("node.%s.input.%s: " +:+ format) ([FStr node; FStr var] ++ args).

Definition withheld_error (node var : string) : error :=
  input_error node var "cannot validate sensitive value; value details withheld; check the input value against the module variable declaration" [].

Definition consumer_sensitive (node var : string) : bool :=
  match nodeContracts g node ≫= λ dc, dc_Consumer dc !! var with
  | Some p => bool_decide (pc_Sensitive p = Some true)
  | None => false
  end.

Definition check_value (node var : string) (v : VariableDecl) (val : value) : result unit :=
  concrete ← match SimpleJSON val with
             | Some c => Ok c
             | None => Err (input_error node var "decoding value for type check: %w" [FErr (External "cty")])
             end;
  _ ← wrap_err (λ err, input_error node var "%w" [FErr err])
        (EffectiveValue TypeConstraint ApplyDefaults v (Some concrete));
  Ok tt.

Definition checkVarType (node var : string) (val : value) (sourceSensitive : bool) : result unit :=
  match s_Variables (schema_of g node) !! var with
  | None => Ok tt
  | Some v =>
    if v_Const v
    then Err (input_error node var "const inputs cannot be supplied by dynamic edges or vars; configure the module initialization input directly" [])
    else if v_Sensitive v || sourceSensitive || consumer_sensitive node var
    then wrap_err (λ _, withheld_error node var) (check_value node var v val)
    else check_value node var v val
  end.

Definition source_sensitive (e : Edge) (output : RunOutput) : bool :=
  declared_sensitive g (pr_Node (e_From e)) (pr_Name (e_From e))
  || negb (bool_decide (ro_Sensitive output = Some false))
  || contract_sensitive g (pr_Node (e_From e)) (pr_Name (e_From e)).

Definition checkType (e : Edge) (output : RunOutput) : result unit :=
  wrap_err (λ err, Errorf "value from %s: %w" [FStr (PortRef_String (e_From e)); FErr err])
    (checkVarType (pr_Node (e_To e)) (pr_Name (e_To e)) (ro_Value output) (source_sensitive e output)).

(** ** Resolution *)

(** What the outside answers: outputs captured in this run, a live read (after
    the reads already made), the run's cancellation, the file system, and the
    plugin resolver with the decoding of what it returned. *)
Record InputWorld := MkInputWorld {
  iw_applied : gmap string RunOutputs;
  iw_live : list string → string → result RunOutputs;
  iw_cancelled : list string → option error;
  iw_state_missing : string → bool;
  iw_snapshot : list string → string → stored_file;
  iw_plugin : PluginBinding → result (option value);
}.

Record istate := MkIState {
  is_vars : gmap string value;
  is_live : gmap string RunOutputs;
  is_reads : list string;
  is_basis : list InputBasis;
}.

Definition errUpstreamOutputMissing : error := Sentinel "upstream output is unavailable".

Context (Getenv : string → string) (w : InputWorld).

Definition edge_basis (e : Edge) (source : string) : InputBasis :=
  MkInputBasis (pr_Name (e_To e)) (pr_Node (e_From e)) (pr_Name (e_From e)) source.
Definition add_basis (st : istate) (b : InputBasis) : istate :=
  MkIState (is_vars st) (is_live st) (is_reads st) (is_basis st ++ [b]).
Definition set_var (st : istate) (k : string) (v : value) : istate :=
  MkIState (<[k := v]> (is_vars st)) (is_live st) (is_reads st) (is_basis st).

Definition resolving (e : Edge) (format : string) (args : list farg) : error :=
  Errorf ("resolving %s: " +:+ format) (FStr (PortRef_String (e_To e)) :: args).

(** The local state is known and absent: the upstream was never applied here. *)
Definition bootstrap_missing (node : string) : bool :=
  match g_Nodes g !! node ≫= localStatePath Getenv with
  | Some path => negb (g_Snapshots g) && iw_state_missing w path
  | None => false
  end.

Definition snapshot_outputs (f : snapshotFile) : RunOutputs :=
  map_imap (λ k v, Some (MkRunOutput v (default "" (sn_Types f !! k)) VNull (Some false))) (default ∅ (sn_Outputs f)).

(** The last resort, after the live read of [from] failed with [err]. *)
Definition snapshot_fallback (e : Edge) (err : error) (reads : list string) : result RunOutputs :=
  let from := pr_Node (e_From e) in
  let missing := resolving e "reading existing outputs from upstream node %q failed: %w; check backend initialization and credentials"
                   [FStr from; FErr err] in
  if negb (g_Snapshots g) then Err missing
  else match readSnapshot g from (iw_snapshot w reads from) with
  | None => Err missing
  | Some f =>
    if negb (snapshotOutputAllowed g from (pr_Name (e_From e))) || mem (pr_Name (e_From e)) (sn_Withheld f)
    then Err (resolving e "%s was withheld from output snapshots; sensitive outputs and outputs without verified sensitivity metadata cannot be reused; restore live upstream outputs or apply the upstream in this run: %w"
                [FStr (PortRef_String (e_From e)); FErr err])
    else Ok (snapshot_outputs f)
  end.

(** The outputs an edge reads from, and their source. *)
Definition edge_outputs (st : istate) (e : Edge) : istate * result (string * RunOutputs) :=
  let from := pr_Node (e_From e) in
  match iw_applied w !! from with
  | Some outs => (st, Ok ("same_run", outs))
  | None =>
    match is_live st !! from with
    | Some outs => (st, Ok ("live", outs))
    | None =>
      let answer := iw_live w (is_reads st) from in
      let reads := from :: is_reads st in
      let st' := MkIState (is_vars st) (is_live st) reads (is_basis st) in
      match answer with
      | Ok live => (MkIState (is_vars st) (<[from := live]> (is_live st)) reads (is_basis st), Ok ("live", live))
      | Err err =>
        match iw_cancelled w reads with
        | Some cancelled => (st', Err (resolving e "%w" [FErr cancelled]))
        | None =>
          if bootstrap_missing from
          then (add_basis st' (edge_basis e "unavailable"),
                Err (resolving e "reading existing outputs from upstream node %q failed: %w; %w because local state is missing; recover existing local state or apply the upstream first"
                       [FStr from; FErr err; FErr errUpstreamOutputMissing]))
          else (st', (λ outs, ("snapshot", outs)) <$> snapshot_fallback e err reads)
        end
      end
    end
  end.

Context (ContractType : string → result ctype).

Definition edge_value (e : Edge) (source : string) (outputs : RunOutputs) : result value :=
  let from := pr_Node (e_From e) in
  match outputs !! pr_Name (e_From e) with
  | None => Err (resolving e "node %q has no output value %q: %w; restore live upstream outputs or apply the upstream first"
                   [FStr from; FStr (pr_Name (e_From e)); FErr errUpstreamOutputMissing])
  | Some val =>
    _ ← contractPolicy g (outputContractChecks ContractType g from outputs (negb (bool_decide (source = "snapshot")))) true;
    _ ← checkType e val;
    Ok (ro_Value val)
  end.

Definition resolve_edge (name : string) (e : Edge) (st : istate) : istate * result unit :=
  if negb (IsDataEdge e) || negb (bool_decide (pr_Node (e_To e) = name)) then (st, Ok tt)
  else
    match edge_outputs st e with
    | (st, Err err) => (st, Err err)
    | (st, Ok (source, outputs)) =>
      let st := add_basis st (edge_basis e source) in
      match edge_value e source outputs with
      | Err err => (st, Err err)
      | Ok v => (set_var st (pr_Name (e_To e)) v, Ok tt)
      end
    end.

Definition resolve_var (name : string) (kv : string * value) (st : istate) : istate * result unit :=
  if bool_decide (is_Some (is_vars st !! kv.1))
  then (st, Err (Errorf "node.%s.input.%s: set by both a data edge and vars; remove one" [FStr name; FStr kv.1]))
  else match checkVarType name kv.1 kv.2 false with
       | Err err => (st, Err err)
       | Ok _ => (set_var st kv.1 kv.2, Ok tt)
       end.

Definition resolve_plugin (name : string) (kb : string * PluginBinding) (st : istate) : istate * result unit :=
  let '(input, binding) := kb in
  if negb (variable_sensitive g name input)
  then (st, Err (Errorf "node.%s.input.%s: plugin inputs require a sensitive module variable to prevent runtime disclosure" [FStr name; FStr input]))
  else if bool_decide (is_Some (is_vars st !! input))
  then (st, Err (Errorf "node.%s.input.%s: plugin input conflicts with vars or edge; remove one supplier" [FStr name; FStr input]))
  else match iw_plugin w binding with
       | Err err => (st, Err err)
       | Ok None => (st, Err (Errorf "node.%s.input.%s: invalid plugin input" [FStr name; FStr input]))
       | Ok (Some v) =>
         match checkVarType name input v true with
         | Err err => (st, Err err)
         | Ok _ => (add_basis (set_var st input v) (MkInputBasis input (pb_Alias binding) (pb_Feature binding) "plugin"), Ok tt)
         end
       end.

(** A loop that stops at the first error and keeps what it did. *)
Fixpoint steps {A} (f : A → istate → istate * result unit) (l : list A) (st : istate) : istate * result unit :=
  match l with
  | [] => (st, Ok tt)
  | a :: l => match f a st with
              | (st, Ok _) => steps f l st
              | (st, Err err) => (st, Err err)
              end
  end.

Definition node_vars (name : string) : gmap string value := default ∅ (bn_Vars ∘ n_Node <$> g_Nodes g !! name).
Definition node_inputs (name : string) : gmap string PluginBinding := default ∅ (bn_Inputs ∘ n_Node <$> g_Nodes g !! name).

Definition resolveInputs `{MapOrder} (name : string) : istate * result (gmap string value) :=
  match steps (resolve_edge name) (g_Edges g) (MkIState ∅ ∅ [] []) with
  | (st, Err err) => (st, Err err)
  | (st, Ok _) =>
    match steps (resolve_var name) (range (node_vars name)) st with
    | (st, Err err) => (st, Err err)
    | (st, Ok _) =>
      match steps (resolve_plugin name) (range (node_inputs name)) st with
      | (st, Err err) => (st, Err err)
      | (st, Ok _) => (st, Ok (is_vars st))
      end
    end
  end.
End Inputs.
