(* ===== verification/InputsProofs.v ===== *)
(** What resolving a node's inputs guarantees: every value Terraform is given
    is explained by one supplier, snapshots come last, sensitive values stay
    out of snapshots and out of errors. *)
From S2P Require Import Prelude GoLib Cty Blueprint Module Graph Backend Contracts Gate Values ContractValues Inputs.

(** ** Snapshots *)

Section Snapshots.
Context (g : Graph).

Lemma consumed_elem name out : out ∈ consumed g name ↔
  ∃ e, e ∈ g_Edges g ∧ IsDataEdge e = true ∧ pr_Node (e_From e) = name ∧ pr_Name (e_From e) = out.
Proof.
  unfold consumed. rewrite elem_of_list_to_set, list_elem_of_fmap. setoid_rewrite list_elem_of_filter. simpl. naive_solver.
Qed.

Lemma public_output_Some name outputs out o : public_output g name outputs out = Some o ↔
  outputs !! out = Some o ∧ snapshotOutputAllowed g name out = true ∧ ro_Sensitive o = Some false.
Proof.
  unfold public_output. destruct (outputs !! out) as [o'|]; [|naive_solver].
  destruct (snapshotOutputAllowed g name out); simpl; [case_bool_decide|]; naive_solver.
Qed.

Lemma published_lookup name outputs out o : published g name outputs !! out = Some o ↔
  out ∈ consumed g name ∧ public_output g name outputs out = Some o.
Proof.
  unfold published. rewrite map_lookup_imap. destruct (outputs !! out) as [o'|] eqn:Ho; simpl.
  - case_bool_decide; [naive_solver|]. naive_solver.
  - split; [done|]. intros [_ [Ho' _]%public_output_Some]. congruence.
Qed.

Lemma withheld_elem name outputs out : out ∈ withheld g name outputs ↔
  out ∈ consumed g name ∧ public_output g name outputs out = None.
Proof.
  unfold withheld. rewrite sort_strings_elem, list_elem_of_filter, elem_of_elements. naive_solver.
Qed.
End Snapshots.

(** What may be persisted of a node's outputs under a graph: consumed, public
    by declaration, by contract and by the runtime's own account. *)
Definition persistable (g : Graph) (name : string) (outputs : RunOutputs) (out : string) (o : RunOutput) : Prop :=
  out ∈ consumed g name ∧ outputs !! out = Some o ∧ snapshotOutputAllowed g name out = true ∧ ro_Sensitive o = Some false.

(** Snapshots hold and give back public values only.  Writing a node's
    snapshot leaves the file untouched, unreadable, or removed for want of
    consumers, or stores exactly the persistable outputs; a run that reads it
    later, under whatever its own graph then declares, gets of these the
    outputs its graph still allows, unchanged, and every consumed output that
    was withheld stays withheld. *)
Theorem snapshot_public_only g g' fl name outputs file file' r : g_Snapshots g = true →
  writeSnapshot g fl name outputs file = (file', r) →
  file' = file ∧ is_ok r = false ∨ file' = Unreadable ∧ is_ok r = false ∨ file' = NoFile ∧ consumed g name = ∅ ∨
  r = Ok tt ∧ ∃ f outs, readSnapshot g' name file' = Some f ∧ sn_Outputs f = Some outs ∧
    (∀ out v, outs !! out = Some v ↔ ∃ o, persistable g name outputs out o ∧ ro_Value o = v ∧ snapshotOutputAllowed g' name out = true) ∧
    (∀ out, out ∈ consumed g name → (∀ o, ¬ persistable g name outputs out o) → out ∈ sn_Withheld f).
Proof.
  intros Hs. unfold writeSnapshot. rewrite Hs. cbn [negb].
  destruct (bool_decide (published g name outputs = ∅) && bool_decide (withheld g name outputs = [])) eqn:Hnone.
  - apply andb_true_iff in Hnone as [Hp%bool_decide_eq_true Hw%bool_decide_eq_true].
    unfold with_file. destruct (sf_remove_stale fl); intros [= <- <-]; [by left|]. do 2 right. left. split; [done|].
    apply set_eq. intros out. split; [|set_solver]. intros Hc. exfalso.
    destruct (public_output g name outputs out) as [o|] eqn:Ho.
    + assert (published g name outputs !! out = Some o) as Hl by by apply published_lookup. by rewrite Hp in Hl.
    + assert (out ∈ withheld g name outputs) as Hl by by apply withheld_elem. rewrite Hw in Hl. by apply elem_of_nil in Hl.
  - unfold with_file. destruct (sf_mkdir fl); [intros [= <- <-]; by left|].
    destruct (sf_remove fl); [intros [= <- <-]; by left|]. destruct (sf_write fl); intros [= <- <-]; [right; by left|].
    do 3 right. split; [done|]. cbn [readSnapshot snapshot_document sn_Outputs]. unfold compatible. cbn [sn_Schema sn_Node].
    rewrite (bool_decide_true (name = name)) by done. cbn [andb orb bool_decide decide_rel]. simpl.
    eexists _, _. split; [done|]. split; [done|]. cbn [sn_Schema sn_Withheld]. split.
    + intros out v. rewrite map_lookup_filter_Some, lookup_fmap, fmap_Some. unfold persistable, untrusted. cbn [sn_Schema fst].
      setoid_rewrite published_lookup. setoid_rewrite public_output_Some. rewrite not_elem_of_app. split.
      * intros [(o & (Hc & Ho & Ha & Hsens) & ->) [_ Hgone]]. exists o. split_and!; [done..|].
        apply not_false_iff_true. intros Hna. apply Hgone. apply list_elem_of_filter. rewrite Hna. split; [done|].
        apply sorted_keys_elem. rewrite lookup_fmap. eexists. apply fmap_Some. exists o. split; [|done].
        apply published_lookup. split; [done|]. by apply public_output_Some.
      * intros (o & (Hc & Ho & Ha & Hsens) & <- & Ha'). split; [by exists o|]. split.
        -- intros [_ Hn]%withheld_elem. enough (public_output g name outputs out = Some o) by congruence. by apply public_output_Some.
        -- rewrite list_elem_of_filter, Ha'. by intros [? _].
    + intros out Hc Hno. apply elem_of_app. left. apply withheld_elem. split; [done|].
      destruct (public_output g name outputs out) as [o|] eqn:Ho; [|done]. exfalso. apply (Hno o).
      apply public_output_Some in Ho as (? & ? & ?). done.
Qed.

(** ** Resolution *)

Lemma steps_Ok {A} (f : A → istate → istate * result unit) (R : relation istate) `{!PreOrder R} l st st' :
  (∀ a st st', f a st = (st', Ok tt) → R st st') → steps f l st = (st', Ok tt) →
  R st st' ∧ ∀ a, a ∈ l → ∃ st1 st2, f a st1 = (st2, Ok tt) ∧ R st st1 ∧ R st2 st'.
Proof.
  intros Hf. revert st. induction l as [|a l IH]; intros st; simpl; [intros [= <-]; split; [done|]; intros a Ha; by apply elem_of_nil in Ha|].
  destruct (f a st) as [st1 [[]|err]] eqn:Ha; [|done]. intros Hl. destruct (IH _ Hl) as [Hr Hall]. apply Hf in Ha as HR. split; [by transitivity st1|].
  intros b [->|Hb]%elem_of_cons; [by exists st, st1|]. destruct (Hall b Hb) as (s1 & s2 & Hb' & H1 & H2).
  exists s1, s2. split; [done|]. split; [by transitivity st1|done].
Qed.

Lemma steps_inv {A} (f : A → istate → istate * result unit) (P : istate → Prop) l st st' :
  (∀ a st st', a ∈ l → P st → f a st = (st', Ok tt) → P st') → P st → steps f l st = (st', Ok tt) → P st'.
Proof.
  revert st. induction l as [|a l IH]; intros st Hf HP; simpl; [by intros [= <-]|].
  destruct (f a st) as [st1 [[]|err]] eqn:Ha; [|done]. apply IH.
  - intros b s s' Hb. apply Hf. by right.
  - eapply Hf; [by left|done..].
Qed.

Section Resolution.
Context `{CtyJson} (TypeConstraint : string → option ctype) (ApplyDefaults : string → cvalue → cvalue) (g : Graph).
Context (Getenv : string → string) (w : InputWorld) (ContractType : string → result ctype).

Notation resolve_edge' := (resolve_edge TypeConstraint ApplyDefaults g Getenv w ContractType).

(** Values, live outputs and reads are only added to. *)
Definition grows (st st' : istate) : Prop :=
  (∀ k, is_Some (is_vars st !! k) → is_Some (is_vars st' !! k)) ∧
  is_live st ⊆ is_live st' ∧ is_reads st `suffix_of` is_reads st'.

Instance grows_preorder : PreOrder grows.
Proof.
  split; [by intros st|]. intros a b c (H1 & H2 & H3) (H4 & H5 & H6). split_and!; [auto|by transitivity (is_live b)|by transitivity (is_reads b)].
Qed.

(** One supplier of the value of an edge. *)
Definition read_failed (st : istate) (from : string) (reads : list string) : Prop :=
  from :: reads `suffix_of` is_reads st ∧ is_ok (iw_live w reads from) = false ∧ iw_cancelled w (from :: reads) = None.

Definition from_snapshot (st : istate) (from out : string) (v : value) : Prop := ∃ reads f outs,
  g_Snapshots g = true ∧ read_failed st from reads ∧ readSnapshot g from (iw_snapshot w (from :: reads) from) = Some f ∧
  sn_Outputs f = Some outs ∧ outs !! out = Some v ∧ snapshotOutputAllowed g from out = true ∧ out ∉ sn_Withheld f.

Definition supplied (st : istate) (from out : string) (v : value) : Prop :=
  match iw_applied w !! from with
  | Some outs => ro_Value <$> outs !! out = Some v
  | None => (∃ outs, is_live st !! from = Some outs ∧ ro_Value <$> outs !! out = Some v) ∨ from_snapshot st from out v
  end.

Definition by_edge (st : istate) (name input : string) (v : value) : Prop :=
  ∃ e, e ∈ g_Edges g ∧ IsDataEdge e = true ∧ pr_Node (e_To e) = name ∧ pr_Name (e_To e) = input ∧
    supplied st (pr_Node (e_From e)) (pr_Name (e_From e)) v.

Definition explained (st : istate) (name input : string) (v : value) : Prop :=
  by_edge st name input v ∨ node_vars g name !! input = Some v ∨
  ∃ b, node_inputs g name !! input = Some b ∧ iw_plugin w b = Ok (Some v) ∧ variable_sensitive g name input = true.

(** The cached live outputs of a node come from one read. *)
Definition one_read (st : istate) : Prop := ∀ from outs, is_live st !! from = Some outs →
  ∃ reads, from :: reads `suffix_of` is_reads st ∧ iw_live w reads from = Ok outs.

Definition good (name : string) (st : istate) : Prop :=
  one_read st ∧ ∀ input v, is_vars st !! input = Some v → explained st name input v.

Lemma from_snapshot_grows st st' from out v : grows st st' → from_snapshot st from out v → from_snapshot st' from out v.
Proof.
  intros (_ & _ & Hr) (reads & f & outs & Hs & (Hsuf & Hf) & Hrest). exists reads, f, outs. split; [done|]. split; [|done].
  split; [by transitivity (is_reads st)|done].
Qed.

Lemma supplied_grows st st' from out v : grows st st' → supplied st from out v → supplied st' from out v.
Proof.
  intros Hg. unfold supplied. destruct (iw_applied w !! from); [done|].
  intros [(outs & Hl & Ho)|Hs]; [left; exists outs; split; [|done]|right; by eapply from_snapshot_grows].
  destruct Hg as (_ & Hl' & _). by eapply lookup_weaken.
Qed.

Lemma explained_grows st st' name input v : grows st st' → explained st name input v → explained st' name input v.
Proof.
  intros Hg [(e & He)|[|]]; [left|by right; left|by right; right]. exists e. split_and!; try apply He. eapply supplied_grows; [done|apply He].
Qed.

Lemma snapshot_outputs_lookup f out : snapshot_outputs f !! out =
  (λ v, MkRunOutput v (default "" (sn_Types f !! out)) VNull (Some false)) <$> default ∅ (sn_Outputs f) !! out.
Proof. unfold snapshot_outputs. rewrite map_lookup_imap. by destruct (default ∅ (sn_Outputs f) !! out). Qed.

Lemma snapshot_fallback_Ok e err reads outs : snapshot_fallback g w e err reads = Ok outs →
  g_Snapshots g = true ∧ ∃ f, readSnapshot g (pr_Node (e_From e)) (iw_snapshot w reads (pr_Node (e_From e))) = Some f ∧
    outs = snapshot_outputs f ∧ snapshotOutputAllowed g (pr_Node (e_From e)) (pr_Name (e_From e)) = true ∧ pr_Name (e_From e) ∉ sn_Withheld f.
Proof.
  unfold snapshot_fallback. destruct (g_Snapshots g); [|done]. cbn [negb].
  destruct (readSnapshot g _ _) as [f|]; [|done]. destruct (snapshotOutputAllowed g _ _); [|done]. cbn [negb orb].
  destruct (mem _ _) eqn:Hm; [done|]. intros [= <-]. split; [done|]. exists f. by apply mem_false in Hm.
Qed.

Lemma edge_outputs_Ok st e st' source outs : edge_outputs g Getenv w st e = (st', Ok (source, outs)) → one_read st →
  grows st st' ∧ one_read st' ∧ is_vars st' = is_vars st ∧
  ∀ o, outs !! pr_Name (e_From e) = Some o → supplied st' (pr_Node (e_From e)) (pr_Name (e_From e)) (ro_Value o).
Proof.
  intros He H1. unfold edge_outputs in He. unfold supplied. destruct (iw_applied w !! pr_Node (e_From e)) as [outs'|].
  { injection He as <- <- <-. split_and!; [done..|]. by intros o ->. }
  destruct (is_live st !! pr_Node (e_From e)) as [outs'|] eqn:Hl.
  { injection He as <- <- <-. split_and!; [done..|]. intros o Ho. left. exists outs'. by rewrite Hl, Ho. }
  destruct (iw_live w (is_reads st) (pr_Node (e_From e))) as [live|err] eqn:Hlive.
  - injection He as <- <- <-. split_and!; cbn; [| |done|].
    + split_and!; cbn; [done|by apply insert_subseteq|by apply suffix_cons_r].
    + intros from outs. cbn. destruct (decide (from = pr_Node (e_From e))) as [->|Hne].
      * rewrite lookup_insert_eq. intros [= <-]. by exists (is_reads st).
      * rewrite lookup_insert_ne by done. intros (reads & Hs & Hr)%H1. exists reads. split; [by apply suffix_cons_r|done].
    + intros o Ho. left. exists live. by rewrite lookup_insert_eq, Ho.
  - destruct (iw_cancelled w (pr_Node (e_From e) :: is_reads st)) eqn:Hc; [done|].
    destruct (bootstrap_missing _ _ _ _); [done|].
    destruct (snapshot_fallback g w e err _) as [outs'|] eqn:Hs; [|done]. injection He as <- <- <-.
    apply snapshot_fallback_Ok in Hs as (Hsn & f & Hf & -> & Ha & Hw). split_and!; cbn; [| |done|].
    + split_and!; cbn; [done|done|by apply suffix_cons_r].
    + intros from outs Hfrom. cbn in Hfrom |- *. destruct (H1 from outs Hfrom) as (reads & Hsuf & Hr). exists reads. split; [by apply suffix_cons_r|done].
    + intros o. rewrite snapshot_outputs_lookup. intros (v & Hv & ->)%fmap_Some. right. cbn.
      destruct (sn_Outputs f) as [outs|] eqn:Houts; cbn in Hv; [|done]. exists (is_reads st), f, outs.
      unfold read_failed. cbn. rewrite Hlive. done.
Qed.

Lemma resolve_edge_good name e st st' : e ∈ g_Edges g → good name st → resolve_edge' name e st = (st', Ok tt) →
  good name st' ∧ grows st st' ∧ (IsDataEdge e = true → pr_Node (e_To e) = name → is_Some (is_vars st' !! pr_Name (e_To e))).
Proof.
  intros Hin [H1 Hex]. unfold resolve_edge. destruct (negb (IsDataEdge e) || _) eqn:Hskip.
  { intros [= <-]. split_and!; [done..|]. intros Hd Hn. rewrite Hd, bool_decide_true in Hskip by done. done. }
  apply orb_false_iff in Hskip as [Hd%negb_false_iff Hn%negb_false_iff%bool_decide_eq_true].
  destruct (edge_outputs g Getenv w st e) as [st1 [[source outs]|]] eqn:Heo; [|done].
  destruct (edge_outputs_Ok _ _ _ _ _ Heo H1) as (Hg & H1' & Hv & Hsup).
  destruct (edge_value _ _ _ _ _ _ _) as [v|] eqn:Hval; [|done]. intros [= <-].
  unfold edge_value in Hval. destruct (outs !! pr_Name (e_From e)) as [o|] eqn:Ho; [|done].
  apply result_bind_Ok in Hval as (_ & _ & Hval). apply result_bind_Ok in Hval as (_ & _ & [= <-]).
  assert (grows st1 (set_var (add_basis st1 (edge_basis e source)) (pr_Name (e_To e)) (ro_Value o))) as Hg'.
  { split_and!; cbn; [|done|done]. intros k Hk. destruct (decide (k = pr_Name (e_To e))) as [->|?]; [by rewrite lookup_insert_eq|by rewrite lookup_insert_ne]. }
  split_and!; [split; [done|]|by transitivity st1|intros _ _; cbn; by rewrite lookup_insert_eq].
  intros input v. cbn. destruct (decide (input = pr_Name (e_To e))) as [->|Hne].
  - rewrite lookup_insert_eq. intros [= <-]. left. exists e. split_and!; [done..|]. eapply supplied_grows; [done|]. by apply Hsup.
  - rewrite lookup_insert_ne, Hv by done. intros Hk. eapply explained_grows; [|by apply Hex]. by transitivity st1.
Qed.

Lemma add_good name st input v (basis : list InputBasis) : good name st → explained st name input v →
  let st' := MkIState (<[input := v]> (is_vars st)) (is_live st) (is_reads st) basis in
  good name st' ∧ grows st st' ∧ is_Some (is_vars st' !! input).
Proof.
  intros [H1 Hex] Hv st'. assert (grows st st') as Hg.
  { split_and!; cbn; [|done|done]. intros k Hk. destruct (decide (k = input)) as [->|?]; [by rewrite lookup_insert_eq|by rewrite lookup_insert_ne]. }
  split_and!; [split; [done|]|done|cbn; by rewrite lookup_insert_eq].
  intros k u. cbn. destruct (decide (k = input)) as [->|Hne]; [rewrite lookup_insert_eq; intros [= <-]; by eapply explained_grows|].
  rewrite lookup_insert_ne by done. intros Hk. eapply explained_grows; [done|by apply Hex].
Qed.

Lemma resolve_var_good name kv st st' : node_vars g name !! kv.1 = Some kv.2 → good name st →
  resolve_var TypeConstraint ApplyDefaults g name kv st = (st', Ok tt) →
  good name st' ∧ grows st st' ∧ is_Some (is_vars st' !! kv.1).
Proof.
  intros Hkv Hgood. unfold resolve_var. case_bool_decide; [done|].
  destruct (checkVarType _ _ _ _ _ _ _) as [|]; [|done]. intros [= <-]. apply add_good; [done|]. right. by left.
Qed.

Lemma resolve_plugin_good name kb st st' : node_inputs g name !! kb.1 = Some kb.2 → good name st →
  resolve_plugin TypeConstraint ApplyDefaults g w name kb st = (st', Ok tt) →
  good name st' ∧ grows st st' ∧ is_Some (is_vars st' !! kb.1).
Proof.
  destruct kb as [input b]. intros Hkb Hgood. unfold resolve_plugin.
  destruct (variable_sensitive g name input) eqn:Hs; [|done]. cbn [negb]. case_bool_decide; [done|].
  destruct (iw_plugin w b) as [[v|]|] eqn:Hp; [|done..]. destruct (checkVarType _ _ _ _ _ _ _) as [|]; [|done].
  intros [= <-]. refine (add_good name st input v (is_basis st ++ [_]) Hgood _). right. right. by exists b.
Qed.

(** A pass whose steps each keep [good] and supply their own input. *)
Lemma pass_good {A} name (f : A → istate → istate * result unit) (P : A → Prop) (key : A → option string) l st st' :
  (∀ a, a ∈ l → P a) →
  (∀ a st st', P a → good name st → f a st = (st', Ok tt) →
     good name st' ∧ grows st st' ∧ ∀ k, key a = Some k → is_Some (is_vars st' !! k)) →
  good name st → steps f l st = (st', Ok tt) →
  good name st' ∧ grows st st' ∧ ∀ a k, a ∈ l → key a = Some k → is_Some (is_vars st' !! k).
Proof.
  intros HP Hf. revert st. induction l as [|a l IH]; intros st Hg; simpl; [intros [= <-]; split_and!; [done..|]; intros a k Ha; by apply elem_of_nil in Ha|].
  destruct (f a st) as [st1 [[]|err]] eqn:Ha; [|done]. apply Hf in Ha as (Hg1 & Hgr & Hk1); [|apply HP; by left|done].
  intros Hl. destruct (IH (λ b Hb, HP b (list_elem_of_further _ _ _ Hb)) _ Hg1 Hl) as (Hg' & Hgr' & Hk').
  split_and!; [done|by transitivity st1|]. intros b k [->|Hb]%elem_of_cons Hk; [by apply Hgr', Hk1|by eapply Hk'].
Qed.

(** C21: every input of a node is explained by one supplier, and a snapshot is
    the last of them.  A value handed to Terraform comes from an edge, a
    literal or a sensitive plugin binding.  An edge's value is the output
    captured in this run when the upstream ran; otherwise the output of one
    live read of the upstream, the same read for all its live outputs; a
    snapshot supplies it only when the graph opted in, a live read failed
    without the run being cancelled, and the output is still allowed and was
    not withheld.  Every data edge into the node, every literal and every
    binding has its value. *)
Theorem resolved_inputs_explained `{MapOrder} name st vars :
  resolveInputs TypeConstraint ApplyDefaults g Getenv w ContractType name = (st, Ok vars) →
  (∀ input v, vars !! input = Some v → explained st name input v) ∧ one_read st ∧
  (∀ e, e ∈ g_Edges g → IsDataEdge e = true → pr_Node (e_To e) = name → is_Some (vars !! pr_Name (e_To e))) ∧
  (∀ k, is_Some (node_vars g name !! k) ∨ is_Some (node_inputs g name !! k) → is_Some (vars !! k)).
Proof.
  unfold resolveInputs. destruct (steps (resolve_edge' name) _ _) as [st1 [[]|]] eqn:He; [|done].
  destruct (steps (resolve_var _ _ _ _) _ _) as [st2 [[]|]] eqn:Hv; [|done].
  destruct (steps (resolve_plugin _ _ _ _ _) _ _) as [st3 [[]|]] eqn:Hp; [|done]. intros [= <- <-].
  apply (pass_good name _ (λ e, e ∈ g_Edges g)
    (λ e, if decide (IsDataEdge e = true ∧ pr_Node (e_To e) = name) then Some (pr_Name (e_To e)) else None)) in He as (Hg1 & _ & Hk1).
  - apply (pass_good name _ (λ kv, node_vars g name !! kv.1 = Some kv.2) (λ kv, Some kv.1)) in Hv as (Hg2 & Hgr2 & Hk2); [|..|done].
    + apply (pass_good name _ (λ kv, node_inputs g name !! kv.1 = Some kv.2) (λ kv, Some kv.1)) in Hp as ([H1 Hex] & Hgr3 & Hk3); [|..|done].
      * split_and!; [done..| |].
        -- intros e Hin Hd Hn. apply Hgr3, Hgr2, (Hk1 e); [done|]. by rewrite decide_True.
        -- intros k [[v Hk]|[b Hk]]; [apply Hgr3, (Hk2 (k, v)); [by apply range_elem|done]|].
           apply (Hk3 (k, b)); [by apply range_elem|done].
      * intros [k b]. apply range_elem.
      * intros kb s s' Hkb Hg Hs. destruct (resolve_plugin_good name kb s s' Hkb Hg Hs) as (? & ? & ?). split_and!; [done..|]. by intros k [= <-].
    + intros [k b]. apply range_elem.
    + intros kb s s' Hkb Hg Hs. destruct (resolve_var_good name kb s s' Hkb Hg Hs) as (? & ? & ?). split_and!; [done..|]. by intros k [= <-].
  - done.
  - intros e s s' Hin Hg Hs. destruct (resolve_edge_good name e s s' Hin Hg Hs) as (? & ? & Hk). split_and!; [done..|].
    intros k. case_decide as Hd; [|done]. intros [= <-]. apply Hk; apply Hd.
  - split; [by intros ? ?|]. by intros ? ?.
Qed.

(** A failing check of a sensitive value tells nothing of it.  When the
    variable, its contract or the source of the value is sensitive, two values
    that both fail are refused with the same error, so no part of either can
    be recovered from it or its chain. *)
Theorem sensitive_errors_opaque node var v v' sourceSensitive decl e e' :
  s_Variables (schema_of g node) !! var = Some decl →
  v_Sensitive decl || sourceSensitive || consumer_sensitive g node var = true →
  checkVarType TypeConstraint ApplyDefaults g node var v sourceSensitive = Err e →
  checkVarType TypeConstraint ApplyDefaults g node var v' sourceSensitive = Err e' → e = e'.
Proof.
  intros Hd Hs. unfold checkVarType. rewrite Hd, Hs. destruct (v_Const decl); [congruence|].
  destruct (check_value _ _ node var decl v), (check_value _ _ node var decl v'); simpl; congruence.
Qed.
End Resolution.

(** ** Concrete inputs *)

Definition input_edge (from out name input : string) : Edge := MkEdge (out_port from out) (in_port name input).
Definition plain_output (name : string) (sensitive : bool) : Module.Output := MkOutput name "" "" sensitive "".
Definition outputs_schema (names : list string) : Schema :=
  MkSchema false ∅ ∅ (list_to_map ((λ n, (n, plain_output n (bool_decide (n = "secret")))) <$> names)) "" ∅ None false ∅.
Definition input_node (name : string) (s : Schema) : GNode :=
  MkGNode (MkNode ∅ ∅ name "./m" ∅ None ∅ "" ∅ "") (Some s) None "/m" None ∅ "".

(** [app] reads two outputs of [net]; snapshots are on. *)
Definition snapshot_graph : Graph :=
  MkGraph {[ "net" := input_node "net" (outputs_schema ["id"; "cidr"; "secret"]); "app" := input_node "app" empty_schema ]}
    [input_edge "net" "id" "app" "id"; input_edge "net" "cidr" "app" "cidr"] ∅ ∅ None None "warn" true.

Definition net_outputs : RunOutputs :=
  {[ "id" := MkRunOutput (VString "vpc-1") "string" VNull (Some false);
     "cidr" := MkRunOutput (VString "10.0.0.0/16") "string" VNull (Some false);
     "secret" := MkRunOutput (VString "s3cr3t") "string" VNull (Some true) ]}.
Definition no_faults : snapshot_faults := MkSnapshotFaults None None None None.
Definition stored_net : stored_file := (writeSnapshot snapshot_graph no_faults "net" net_outputs NoFile).1.

Example snapshot_public_only_witness : stored_net ≠ NoFile ∧
  ∃ f outs, readSnapshot snapshot_graph "net" stored_net = Some f ∧ sn_Outputs f = Some outs ∧
    (∀ out v, outs !! out = Some v ↔ ∃ o, persistable snapshot_graph "net" net_outputs out o ∧ ro_Value o = v ∧
       snapshotOutputAllowed snapshot_graph "net" out = true).
Proof.
  assert (stored_net ≠ NoFile) as Hne by (vm_compute; discriminate). split; [exact Hne|].
  assert (writeSnapshot snapshot_graph no_faults "net" net_outputs NoFile = (stored_net, Ok tt)) as Hw by (vm_compute; reflexivity).
  destruct (snapshot_public_only snapshot_graph snapshot_graph no_faults "net" net_outputs NoFile stored_net (Ok tt) eq_refl Hw) as
    [[_ Hx]|[[_ Hx]|[[Hx _]|(_ & f & outs & Hf & Ho & Hall & _)]]].
  - discriminate Hx.
  - discriminate Hx.
  - destruct (Hne Hx).
  - exists f, outs. split; [exact Hf|]. split; [exact Ho|exact Hall].
Defined.

(** The network is not applied in this run: its first live read fails, its
    second answers a newer value. *)
Definition flaky_world : InputWorld :=
  MkInputWorld ∅
    (λ reads _, match reads with [] => Err (External "timeout")
                | _ => Ok (<["cidr" := MkRunOutput (VString "10.1.0.0/16") "string" VNull (Some false)]> net_outputs) end)
    (λ _, None) (λ _, false) (λ _ _, stored_net) (λ _, Err (External "no plugin")).

Definition flaky_run : istate * result (gmap string value) :=
  @resolveInputs sample_cty (λ _, None) (λ _ v, v) snapshot_graph (λ _, "") flaky_world sample_contract_type map_order_default "app".

(** A failed read is not shared across edges: one node can be given a value of
    the snapshot's revision and one of a later live revision. *)
Example revisions_mix : is_basis flaky_run.1 = [MkInputBasis "id" "net" "id" "snapshot"; MkInputBasis "cidr" "net" "cidr" "live"] ∧
  is_reads flaky_run.1 = ["net"; "net"] ∧ is_ok flaky_run.2 = true.
Proof. vm_compute. done. Qed.

Example resolved_inputs_explained_witness : ∃ vars, flaky_run.2 = Ok vars ∧ is_Some (vars !! "id") ∧
  one_read flaky_world flaky_run.1.
Proof.
  destruct flaky_run as [st [vars|]] eqn:Hr; [|by vm_compute in Hr]. exists vars. split; [done|].
  destruct (@resolved_inputs_explained sample_cty (λ _, None) (λ _ v, v) snapshot_graph (λ _, "") flaky_world sample_contract_type
    map_order_default "app" st vars Hr) as (_ & H1 & Hall & _). split; [|done].
  apply (Hall (input_edge "net" "id" "app" "id")); [by left|done|done].
Defined.

Definition secret_variable : VariableDecl := MkVariable "token" "string" "" true "" true None None false false.
Definition secret_graph : Graph :=
  MkGraph {[ "app" := input_node "app" (MkSchema false {[ "token" := secret_variable ]} ∅ ∅ "" ∅ None false ∅) ]} [] ∅ ∅ None None "warn" false.

Example sensitive_errors_opaque_witness :
  @checkVarType sample_cty (λ _, None) (λ _ v, v) secret_graph "app" "token" (VString "hunter2") false = Err (withheld_error "app" "token") ∧
  withheld_error "app" "token" = withheld_error "app" "token".
Proof.
  split; [by vm_compute|].
  apply (@sensitive_errors_opaque sample_cty (λ _, None) (λ _ v, v) secret_graph "app" "token" (VString "hunter2") (VNumber "1") false
    secret_variable); by vm_compute.
Defined.
