(* ===== verification/Execution.v ===== *)
(** Execution records (src/internal/engine/execution_journal.go, plan_bundle.go,
    internal/plugins/lifecycle.go): what the journal stores, and when a record
    still describes an unresolved mutation.  Times are nanoseconds on one
    clock; a nil time is [None].  [json.Marshal] and [json.Unmarshal] are kept
    as the document itself ([payload]): what is stored is the value whose
    encoding the bytes are. *)
From S2P Require Import Prelude GoLib Blueprint Module Graph Topo Selection Gate.

(** ** Plugin calls *)

(** [sdk.CallRecord] without the event's evidence, the report and the reference
    of a credential; [cl_Lease] is the lease of its cleanup material. *)
Record CallRecord := MkCallRecord {
  cl_ID : string;
  cl_Alias : string;
  cl_Feature : string;
  cl_Digest : string;
  cl_ConfigDigest : string;
  cl_EventID : string;
  cl_EventOperation : string;
  cl_Code : string;
  cl_Kind : string;
  cl_Effect : string;
  cl_Mode : string;
  cl_Status : string;
  cl_EventPhase : string;
  cl_EventNode : string;
  cl_Lease : option string;
}.

Definition call_lease_key (c : CallRecord) (lease : string) : string :=
  cl_Alias c +:+ "/" +:+ cl_EventNode c +:+ "/" +:+ lease.

Definition released_keys (calls : list CallRecord) : list string :=
  omap (λ c, lease ← cl_Lease c;
             if bool_decide (cl_EventPhase c = "credential.release") && mem (cl_Status c) ["completed"; "acknowledged"]
             then Some (call_lease_key c lease) else None) calls.

Definition call_unresolved (released : list string) (c : CallRecord) : bool :=
  if decide (cl_Status c = "acknowledged") then false
  else if bool_decide (cl_Kind c = "credential_provider")
          && match cl_Lease c with Some l => mem (call_lease_key c l) released | None => false end then false
  else if match cl_Lease c with Some _ => bool_decide (cl_EventPhase c = "credential.acquire") | None => false end then true
  else if bool_decide (cl_Kind c = "credential_provider") && mem (cl_Status c) ["pending"; "unknown"] then true
  else if decide (cl_Mode c ≠ "enforce") then false
  else has_suffix (cl_Effect c) "external"
       && (mem (cl_Status c) ["pending"; "unknown"]
           || (bool_decide (cl_Status c = "failed") && mem (cl_Kind c) ["observer"; "credential_provider"])).

(** [plugins.NeedsRecovery]. *)
Definition NeedsRecovery (calls : list CallRecord) : bool := existsb (call_unresolved (released_keys calls)) calls.

(** ** Records *)

Record ExecutionNode := MkExecutionNode {
  en_Name : string;
  en_Review : option PlanReview;
  en_Target : string;
  en_Phase : string;
  en_PlanID : string;
  en_Code : string;
}.

Record ExecutionRecord := MkExecutionRecord {
  er_PluginCalls : list CallRecord;
  er_Selection : option Selection;
  er_SchemaVersion : Z;
  er_Preparation : string;
  er_Backup : bool;
  er_ID : string;
  er_Scope : string;
  er_Binding : string;
  er_Operation : string;
  er_Status : string;
  er_CreatedAt : Z;
  er_UpdatedAt : Z;
  er_FinishedAt : option Z;
  er_RecoveryAt : option Z;
  er_Nodes : list ExecutionNode;
}.

Record planBundle := MkPlanBundle {
  pbn_SchemaVersion : Z;
  pbn_ID : string;
  pbn_ExecutionID : string;
  pbn_Node : string;
  pbn_Binding : string;
  pbn_CreatedAt : Z;
  pbn_ExpiresAt : option Z;
  pbn_Changed : bool;
  pbn_Plan : list Byte.byte;
}.

Inductive payload :=
  | PRecord (r : ExecutionRecord)
  | PBundle (b : planBundle)
  | PBytes (data : list Byte.byte).

Definition unmarshal_record (p : payload) : result ExecutionRecord :=
  match p with PRecord r => Ok r | _ => Err (Errorf "json: cannot unmarshal into ExecutionRecord" []) end.
Definition unmarshal_bundle (p : payload) : result planBundle :=
  match p with PBundle b => Ok b | _ => Err (Errorf "json: cannot unmarshal into planBundle" []) end.

(** ** Recovery *)

Definition pluginRecoveryRequired (r : ExecutionRecord) : bool := NeedsRecovery (er_PluginCalls r).

(** The phases whose outcome, or whose outputs, are not known yet. *)
Definition unresolved_phases : list string := ["initializing"; "applying"; "operating"; "indeterminate"; "applied"].

Definition node_unresolved (n : ExecutionNode) : bool := mem (en_Phase n) unresolved_phases.

Definition executionNeedsRecovery (r : ExecutionRecord) : bool :=
  if pluginRecoveryRequired r then true
  else if er_RecoveryAt r then false
  else if decide (er_Preparation r ≠ "") then true
  else existsb node_unresolved (er_Nodes r).

(** ** Field updates *)

Definition with_nodes (r : ExecutionRecord) (ns : list ExecutionNode) : ExecutionRecord :=
  MkExecutionRecord (er_PluginCalls r) (er_Selection r) (er_SchemaVersion r) (er_Preparation r) (er_Backup r) (er_ID r)
    (er_Scope r) (er_Binding r) (er_Operation r) (er_Status r) (er_CreatedAt r) (er_UpdatedAt r) (er_FinishedAt r)
    (er_RecoveryAt r) ns.
Definition with_times (r : ExecutionRecord) (status : string) (updated : Z) (finished recovery : option Z) : ExecutionRecord :=
  MkExecutionRecord (er_PluginCalls r) (er_Selection r) (er_SchemaVersion r) (er_Preparation r) (er_Backup r) (er_ID r)
    (er_Scope r) (er_Binding r) (er_Operation r) status (er_CreatedAt r) updated finished recovery (er_Nodes r).
Definition with_updated (r : ExecutionRecord) (updated : Z) : ExecutionRecord :=
  with_times r (er_Status r) updated (er_FinishedAt r) (er_RecoveryAt r).
Definition with_calls (r : ExecutionRecord) (calls : list CallRecord) : ExecutionRecord :=
  MkExecutionRecord calls (er_Selection r) 2 (er_Preparation r) (er_Backup r) (er_ID r)
    (er_Scope r) (er_Binding r) (er_Operation r) (er_Status r) (er_CreatedAt r) (er_UpdatedAt r) (er_FinishedAt r)
    (er_RecoveryAt r) (er_Nodes r).
Definition with_preparation (r : ExecutionRecord) (p : string) : ExecutionRecord :=
  MkExecutionRecord (er_PluginCalls r) (er_Selection r) (er_SchemaVersion r) p (er_Backup r) (er_ID r)
    (er_Scope r) (er_Binding r) (er_Operation r) (er_Status r) (er_CreatedAt r) (er_UpdatedAt r) (er_FinishedAt r)
    (er_RecoveryAt r) (er_Nodes r).
Definition with_binding (r : ExecutionRecord) (b : string) : ExecutionRecord :=
  MkExecutionRecord (er_PluginCalls r) (er_Selection r) (er_SchemaVersion r) (er_Preparation r) (er_Backup r) (er_ID r)
    (er_Scope r) b (er_Operation r) (er_Status r) (er_CreatedAt r) (er_UpdatedAt r) (er_FinishedAt r)
    (er_RecoveryAt r) (er_Nodes r).

(** The loops over [next.Nodes] that change the first entry of a name and stop. *)
Fixpoint update_node (name : string) (f : ExecutionNode → ExecutionNode) (ns : list ExecutionNode) : option (list ExecutionNode) :=
  match ns with
  | [] => None
  | n :: ns => if decide (en_Name n = name) then Some (f n :: ns) else cons n <$> update_node name f ns
  end.

Definition find_node (r : ExecutionRecord) (name : string) : option ExecutionNode :=
  List.find (λ n, bool_decide (en_Name n = name)) (er_Nodes r).

Definition phase_of (r : ExecutionRecord) (name : string) : option string := en_Phase <$> find_node r name.

(** ** Facts *)

Lemma existsb_elem {A} (f : A → bool) l : existsb f l = true ↔ ∃ x, x ∈ l ∧ f x = true.
Proof. rewrite existsb_exists. by setoid_rewrite <-list_elem_of_In. Qed.

Lemma find_node_Some r name n : find_node r name = Some n → n ∈ er_Nodes r ∧ en_Name n = name.
Proof.
  unfold find_node. intros [Hin Hn]%find_some. apply list_elem_of_In in Hin. by apply bool_decide_eq_true in Hn.
Qed.

(** An unresolved phase of any node keeps the record behind the barrier. *)
Lemma needs_recovery_node r name p : er_RecoveryAt r = None → phase_of r name = Some p → p ∈ unresolved_phases →
  executionNeedsRecovery r = true.
Proof.
  intros Hr (n & Hn & ->)%fmap_Some Hp. unfold executionNeedsRecovery. rewrite Hr.
  destruct (pluginRecoveryRequired r); [done|]. case_decide; [done|]. apply existsb_elem.
  exists n. split; [by apply find_node_Some in Hn as []|]. by apply mem_true.
Qed.

Lemma needs_recovery_false r : executionNeedsRecovery r = false → er_RecoveryAt r = None →
  er_Preparation r = "" ∧ ∀ n, n ∈ er_Nodes r → en_Phase n ∉ unresolved_phases.
Proof.
  unfold executionNeedsRecovery. intros Hn Hr. rewrite Hr in Hn.
  destruct (pluginRecoveryRequired r); [done|]. case_decide as Hp; [done|]. split; [by destruct (decide (er_Preparation r = ""))|].
  intros n Hin Hph. apply not_true_iff_false in Hn. apply Hn, existsb_elem. exists n. split; [done|]. by apply mem_true.
Qed.

Section UpdateNode.
Context (name : string) (f : ExecutionNode → ExecutionNode) (Hf : ∀ n, en_Name (f n) = en_Name n).

Lemma update_node_Some ns ns' : update_node name f ns = Some ns' →
  ∃ pre n post, ns = pre ++ n :: post ∧ ns' = pre ++ f n :: post ∧ en_Name n = name ∧
    ∀ m, m ∈ pre → en_Name m ≠ name.
Proof.
  revert ns'. induction ns as [|n ns IH]; intros ns'; simpl; [done|]. case_decide as Hn.
  - intros [= <-]. exists [], n, ns. split_and!; [done..|]. intros m Hm. by apply elem_of_nil in Hm.
  - intros (l & Hl & ->)%fmap_Some. destruct (IH l Hl) as (pre & n0 & post & -> & -> & Hn0 & Hpre).
    exists (n :: pre), n0, post. split_and!; [done..|]. intros m [->|Hm]%elem_of_cons; auto.
Qed.

Lemma update_node_names ns ns' : update_node name f ns = Some ns' → en_Name <$> ns' = en_Name <$> ns.
Proof.
  intros (pre & n & post & -> & -> & _ & _)%update_node_Some. by rewrite !fmap_app, !fmap_cons, Hf.
Qed.

Lemma find_app_first (P : ExecutionNode → bool) pre n post : (∀ m, m ∈ pre → P m = false) → P n = true →
  List.find P (pre ++ n :: post) = Some n.
Proof.
  intros Hpre Hn. induction pre as [|m pre IH]; simpl; [by rewrite Hn|].
  rewrite (Hpre m) by left. apply IH. intros k Hk. apply Hpre. by right.
Qed.

Lemma update_node_find r ns' : update_node name f (er_Nodes r) = Some ns' →
  find_node (with_nodes r ns') name = f <$> find_node r name ∧ is_Some (find_node r name).
Proof.
  intros (pre & n & post & Hr & -> & Hn & Hpre)%update_node_Some. unfold find_node, with_nodes. cbn [er_Nodes]. rewrite Hr.
  assert (∀ m, m ∈ pre → bool_decide (en_Name m = name) = false) as Hp.
  { intros m Hm. apply bool_decide_eq_false. by apply Hpre. }
  rewrite (find_app_first _ pre n post Hp), (find_app_first _ pre (f n) post Hp);
    [split; [done|by eexists]|apply bool_decide_eq_true; by rewrite ?Hf..].
Qed.

Lemma update_node_None ns : update_node name f ns = None ↔ ∀ n, n ∈ ns → en_Name n ≠ name.
Proof.
  induction ns as [|n ns IH]; simpl.
  - split; [|done]. intros _ m Hm. by apply elem_of_nil in Hm.
  - case_decide as Hn.
    + split; [done|]. intros H. by destruct (H n (list_elem_of_here _ _)).
    + rewrite fmap_None, IH. split.
      * intros H m [->|Hm]%elem_of_cons; auto.
      * intros H m Hm. apply H. by right.
Qed.
End UpdateNode.
