(* ===== verification/Store.v ===== *)
(** The execution store (src/internal/engine/execution_store.go): a directory
    of objects, each with a revision that must be named to replace or remove
    it.

    The engine's effects are a history, newest event first, and every answer of
    the outside (a failing disk, a cancelled context, the random identifiers,
    the runtime's exit) is a function of that history: the theorems hold for
    every such function.  The directory is what replaying the history gives, so
    a crash after any event leaves [objects] of that moment. *)
From S2P Require Import Prelude GoLib Blueprint Module Graph Execution.

Record executionObject := MkObject { Revision : string; Data : payload }.

(** A directory entry under a store key. *)
Inductive dirent :=
  | Stored (o : executionObject)
  | Corrupt (what : string)
  | Irregular.

(** What the engine does that outlives it or that the outside sees; the
    context of an initialized node is [None] after a failed write. *)
Inductive event :=
  | EvWrite (key : string) (o : executionObject)
  | EvRemove (key : string)
  | EvRun (node operation : string)
  | EvAsk (node : string)
  | EvPlugin (phase node : string)
  | EvSnapshot (node : string)
  | EvRemoveBackup (id : string)
  | EvContext (node : string) (context : option (string * string)).

Definition hist : Type := list event.

Definition apply_event (ev : event) (m : gmap string dirent) : gmap string dirent :=
  match ev with
  | EvWrite k o => <[k := Stored o]> m
  | EvRemove k => delete k m
  | _ => m
  end.

(** The directory after [h], from what it held before the engine started. *)
Definition objects (s0 : gmap string dirent) (h : hist) : gmap string dirent := foldr apply_event s0 h.

(** ** Keys *)

Definition hex_digit (c : ascii) : bool :=
  let n := nat_of_ascii c in (Nat.leb 97 n && Nat.leb n 102) || (Nat.leb 48 n && Nat.leb n 57).

Definition after_prefix (s p : string) : option string :=
  if has_prefix s p then Some (String.substring (String.length p) (String.length s) s) else None.

Definition key_tail (s : string) : bool :=
  let hex := String.substring 0 32 s in
  let ext := String.substring 32 (String.length s) s in
  Nat.eqb (String.length hex) 32 && forallb hex_digit (chars hex) && mem ext [".json"; ".bin"].

(** [executionKeyPattern]. *)
Definition key_matches (key : string) : bool :=
  match after_prefix key "run-", after_prefix key "plan-" with
  | Some rest, _ => key_tail rest
  | None, Some rest => key_tail rest
  | None, None => false
  end.

Definition checkExecutionKey (key : string) : result unit :=
  if key_matches key then Ok tt
  else Err (Errorf "invalid execution object %q; select an ID returned by plan" [FStr key]).

Definition errExecutionMissing : error :=
  Sentinel "execution object is missing; inspect current state before starting a new execution".
Definition errExecutionConflict : error := Sentinel "execution object changed; reload it before retrying".
Definition is_missing (e : error) : bool :=
  error_is "execution object is missing; inspect current state before starting a new execution" e.

Definition executionObjectLimit : Z := Z.shiftl 128 20.

(** ** The interface the journal is written against *)

Class executionStore := {
  st_read : string → hist → result executionObject;
  st_write : string → payload → string → hist → hist * result string;
  st_remove : string → string → hist → hist * result unit;
  st_list : hist → result (list string);
}.

(** The revision a writer must name: the current one, or none for a new object. *)
Definition expected_revision (old : option dirent) : option string :=
  match old with
  | None => Some ""
  | Some (Stored o) => Some (Revision o)
  | Some _ => None
  end.

(** A write either leaves no trace or replaces the object whose revision it
    named; it can replace it and still report a failure.  The removal of an
    object that is not there may be answered with success. *)
Class StoreLaws (s0 : gmap string dirent) `{executionStore} := {
  read_Ok k h o : st_read k h = Ok o → objects s0 h !! k = Some (Stored o);
  read_missing k h e : st_read k h = Err e → is_missing e = true → objects s0 h !! k = None;
  write_cases k d rev h h' r : st_write k d rev h = (h', r) →
    (h' = h ∧ is_ok r = false) ∨
    (∃ rev', h' = EvWrite k (MkObject rev' d) :: h ∧ expected_revision (objects s0 h !! k) = Some rev ∧
       (∀ x, r = Ok x → x = rev'));
  remove_cases k rev h h' r : st_remove k rev h = (h', r) →
    (h' = h ∧ (is_ok r = true → objects s0 h !! k = None)) ∨
    (h' = EvRemove k :: h ∧ ∃ o, objects s0 h !! k = Some (Stored o) ∧ Revision o = rev);
  list_Ok h ks : st_list h = Ok ks → ∀ k, k ∈ ks ↔ key_matches k = true ∧ is_Some (objects s0 h !! k);
}.

(** ** The local store *)

(** How a disk operation ends; [After] is a rename or a removal that happened
    but whose directory sync failed. *)
Inductive fault := NoFault | Before (what : string) | After (what : string).

Record StoreWorld := MkStoreWorld {
  sw_cancelled : hist → option string;
  sw_read_fault : hist → option string;
  sw_write_fault : hist → fault;
  sw_list_fault : hist → option string;
  sw_new_revision : hist → string;
  sw_encoded_size : executionObject → Z;
}.

Definition External_fault (what : option string) : result unit :=
  match what with Some w => Err (External w) | None => Ok tt end.

Section Local.
Context (w : StoreWorld) (s0 : gmap string dirent).

Definition readLocked (key : string) (h : hist) : result executionObject :=
  _ ← External_fault (sw_cancelled w h);
  _ ← checkExecutionKey key;
  match objects s0 h !! key with
  | None => Err errExecutionMissing
  | Some Irregular => Err (Errorf "execution object is not a regular file; restore it from a trusted copy" [])
  | Some (Corrupt what) => Err (Errorf "decoding execution object: %w" [FErr (External what)])
  | Some (Stored o) =>
    _ ← External_fault (sw_read_fault w h);
    if decide (executionObjectLimit < sw_encoded_size w o)%Z
    then Err (Errorf "execution object exceeds size limit; inspect the stored object" [])
    else if decide (Revision o = "") then Err (Errorf "execution object has no revision; restore a valid record" [])
    else Ok o
  end.

(** The checks before the temporary file is written. *)
Definition write_guard (key : string) (data : payload) (revision : string) (h : hist) : result executionObject :=
  _ ← External_fault (sw_cancelled w h);
  _ ← checkExecutionKey key;
  _ ← (match readLocked key h with
       | Err err => if is_missing err then (if decide (revision ≠ "") then Err errExecutionConflict else Ok tt) else Err err
       | Ok old => if decide (revision = "" ∨ revision ≠ Revision old) then Err errExecutionConflict else Ok tt
       end);
  let obj := MkObject (sw_new_revision w h) data in
  if decide (executionObjectLimit < sw_encoded_size w obj)%Z
  then Err (Errorf "execution object exceeds size limit; reduce the plan size" [])
  else Ok obj.

Definition write (key : string) (data : payload) (revision : string) (h : hist) : hist * result string :=
  match write_guard key data revision h with
  | Err err => (h, Err err)
  | Ok obj =>
    match sw_write_fault w h with
    | NoFault => (EvWrite key obj :: h, Ok (Revision obj))
    | Before what => (h, Err (External what))
    | After what => (EvWrite key obj :: h, Err (External what))
    end
  end.

Definition remove (key revision : string) (h : hist) : hist * result unit :=
  match readLocked key h with
  | Err err => (h, Err err)
  | Ok obj =>
    if decide (revision = "" ∨ revision ≠ Revision obj) then (h, Err errExecutionConflict)
    else match sw_write_fault w h with
         | NoFault => (EvRemove key :: h, Ok tt)
         | Before what => (h, Err (External what))
         | After what => (EvRemove key :: h, Err (External what))
         end
  end.

Definition is_regular (d : dirent) : bool := match d with Irregular => false | _ => true end.

(** Temporary files never match the pattern, so they are not entries here. *)
Definition list_keys (h : hist) : result (list string) :=
  _ ← External_fault (sw_cancelled w h);
  _ ← External_fault (sw_list_fault w h);
  foldM (λ ks k, match objects s0 h !! k with
                 | Some d => if is_regular d then Ok (ks ++ [k])
                             else Err (Errorf "execution directory contains an unsafe object; restore regular files" [])
                 | None => Ok ks
                 end) [] (filter (λ k, key_matches k = true) (sorted_keys (objects s0 h))).

#[export] Instance localExecutionStore : executionStore :=
  {| st_read := readLocked; st_write := write; st_remove := remove; st_list := list_keys |}.

Lemma External_fault_Ok f u : External_fault f = Ok u → f = None.
Proof. by destruct f. Qed.

Lemma readLocked_Ok key h o : readLocked key h = Ok o → objects s0 h !! key = Some (Stored o) ∧ Revision o ≠ "".
Proof.
  unfold readLocked. intros (? & _ & Hk)%result_bind_Ok. apply result_bind_Ok in Hk as (? & _ & Hk).
  destruct (objects s0 h !! key) as [[o'| |]|]; try done.
  apply result_bind_Ok in Hk as (? & _ & Hk). repeat case_decide; try done. by injection Hk as ->.
Qed.

Lemma readLocked_missing key h e : readLocked key h = Err e → is_missing e = true → objects s0 h !! key = None.
Proof.
  unfold readLocked, External_fault, checkExecutionKey. intros He Hm.
  destruct (sw_cancelled w h); simpl in He; [by injection He as <-|].
  destruct (key_matches key); simpl in He; [|by injection He as <-].
  destruct (objects s0 h !! key) as [[o'|what|]|]; simpl in He; [|by injection He as <-..|done].
  destruct (sw_read_fault w h); simpl in He; [by injection He as <-|].
  repeat case_decide; try done; by injection He as <-.
Qed.

Lemma write_guard_Ok key data rev h obj : write_guard key data rev h = Ok obj →
  obj = MkObject (sw_new_revision w h) data ∧ expected_revision (objects s0 h !! key) = Some rev.
Proof.
  unfold write_guard. intros (? & _ & Hk)%result_bind_Ok. apply result_bind_Ok in Hk as (? & _ & Hk).
  apply result_bind_Ok in Hk as (? & Hr & Hk). case_decide; [done|]. injection Hk as <-. split; [done|].
  destruct (readLocked key h) as [old|err] eqn:Ho.
  - apply readLocked_Ok in Ho as [-> _]. destruct (decide (rev = "" ∨ rev ≠ Revision old)) as [|Hn]; [done|]. simpl.
    f_equal. destruct (decide (Revision old = rev)); [done|]. exfalso. apply Hn. by right; intros ->.
  - destruct (is_missing err) eqn:Hm; [|done]. apply readLocked_missing in Ho as ->; [|done].
    case_decide as Hd; [done|]. simpl. f_equal. by destruct (decide (rev = "")).
Qed.

Lemma list_keys_elem h ks : list_keys h = Ok ks → ∀ k, k ∈ ks ↔ key_matches k = true ∧ is_Some (objects s0 h !! k).
Proof.
  unfold list_keys. intros (? & _ & Hk)%result_bind_Ok. apply result_bind_Ok in Hk as (? & _ & Hk).
  set (l := filter _ _) in Hk.
  assert (∀ k, k ∈ l ↔ key_matches k = true ∧ is_Some (objects s0 h !! k)) as Hl.
  { intros k. unfold l. by rewrite list_elem_of_filter, sorted_keys_elem. }
  assert (ks = l) as ->; [|done].
  enough (∀ acc, foldM (λ ks k, match objects s0 h !! k with
      | Some d => if is_regular d then Ok (ks ++ [k]) else Err (Errorf "execution directory contains an unsafe object; restore regular files" [])
      | None => Ok ks end) acc l = Ok ks → (∀ k, k ∈ l → is_Some (objects s0 h !! k)) → ks = acc ++ l) as Hx.
  { apply (Hx [] Hk). intros k Hin. by apply Hl. }
  clear Hl Hk. induction l as [|k l IH]; intros acc Hf Hin.
  { injection Hf as <-. by rewrite app_nil_r. }
  rewrite foldM_cons in Hf. destruct (Hin k) as [d Hd]; [by left|]. rewrite Hd in Hf.
  destruct (is_regular d); [|done]. rewrite (IH _ Hf) by (intros; apply Hin; by right). by rewrite <-(assoc_L (++)).
Qed.

Lemma local_remove_cases k rev h h' r : remove k rev h = (h', r) →
  (h' = h ∧ is_ok r = false) ∨ (h' = EvRemove k :: h ∧ ∃ o, objects s0 h !! k = Some (Stored o) ∧ Revision o = rev).
Proof.
  unfold remove. destruct (readLocked k h) as [o|err] eqn:Ho; [|intros [= <- <-]; by left].
  apply readLocked_Ok in Ho as [Ho _]. case_decide as Hd; [intros [= <- <-]; by left|].
  assert (Revision o = rev) as Hrev.
  { destruct (decide (Revision o = rev)); [done|]. exfalso. apply Hd. right. by intros ->. }
  destruct (sw_write_fault w h); intros [= <- <-]; [right|left; done|right]; (split; [done|]); by exists o.
Qed.

#[export] Instance localExecutionStore_laws : StoreLaws s0.
Proof.
  split.
  - intros k h o Ho. by apply readLocked_Ok in Ho as [].
  - apply readLocked_missing.
  - intros k d rev h h' r. simpl. unfold write. destruct (write_guard k d rev h) as [obj|err] eqn:Hg.
    + apply write_guard_Ok in Hg as [-> He].
      destruct (sw_write_fault w h); intros [= <- <-]; [right|left; done|right]; eexists; (split; [done|]); split; [done|by intros x [= <-]|done|done].
    + intros [= <- <-]. by left.
  - intros k rev h h' r Hr. apply local_remove_cases in Hr as [[-> Hr]|Hr]; [left|by right]. split; [done|congruence].
  - apply list_keys_elem.
Qed.

(** ** No lost update *)

Definition dirent_revision (d : dirent) : option string := match d with Stored o => Some (Revision o) | _ => None end.

(** Every revision the directory ever held. *)
Definition revisions (h : hist) : list string :=
  omap (λ ev, match ev with EvWrite _ o => Some (Revision o) | _ => None end) h
  ++ omap (λ kd, dirent_revision kd.2) (map_to_list s0).

(** The identifiers are random and long, hence new. *)
Definition fresh_revisions : Prop := ∀ h, sw_new_revision w h ∉ revisions h.

(** A history made by this store. *)
Fixpoint store_hist (h : hist) : Prop :=
  match h with
  | [] => True
  | EvWrite _ o :: h' => Revision o = sw_new_revision w h' ∧ store_hist h'
  | _ :: h' => store_hist h'
  end.
End Local.

(** ** Revisions along a history *)

Definition touches (k : string) (ev : event) : bool :=
  match ev with EvWrite k' _ | EvRemove k' => bool_decide (k' = k) | _ => false end.

Definition untouched (k : string) (h : hist) : Prop := ∀ ev, ev ∈ h → touches k ev = false.

Section Revisions.
Context (w : StoreWorld) (s0 : gmap string dirent).

Lemma revisions_cons ev h : revisions s0 h ⊆ revisions s0 (ev :: h).
Proof.
  unfold revisions. intros x. rewrite !elem_of_app. intros [Hx|Hx]; [left|by right].
  destruct ev; simpl; try (by right); done.
Qed.

Lemma revisions_app pre h : revisions s0 h ⊆ revisions s0 (pre ++ h).
Proof. induction pre as [|ev pre IH]; [done|]. etrans; [exact IH|]. apply revisions_cons. Qed.

Lemma objects_revision h k o : objects s0 h !! k = Some (Stored o) → Revision o ∈ revisions s0 h.
Proof.
  induction h as [|ev h IH]; simpl.
  - intros Hk. unfold revisions. apply elem_of_app. right. apply list_elem_of_omap. exists (k, Stored o).
    split; [by apply elem_of_map_to_list|done].
  - destruct ev as [k' o'|k'|?|?|?|?|?|?]; simpl; intros Hk.
    + apply lookup_insert_Some in Hk as [[_ [= ->]]|[_ Hk]].
      * unfold revisions. simpl. by left.
      * by apply revisions_cons, IH.
    + apply lookup_delete_Some in Hk as [_ Hk]. by apply revisions_cons, IH.
    + by apply (revisions_cons (EvRun node operation)), IH.
    + by apply (revisions_cons (EvAsk node)), IH.
    + by apply (revisions_cons (EvPlugin phase node)), IH.
    + by apply (revisions_cons (EvSnapshot node)), IH.
    + by apply (revisions_cons (EvRemoveBackup id)), IH.
    + by apply (revisions_cons (EvContext node context)), IH.
Qed.

Lemma objects_untouched pre h k : untouched k pre → objects s0 (pre ++ h) !! k = objects s0 h !! k.
Proof.
  induction pre as [|ev pre IH]; intros Hu; [done|].
  assert (untouched k pre) as Hu' by (intros e He; apply Hu; by right).
  specialize (Hu ev (list_elem_of_here _ _)). destruct ev; simpl in *; rewrite ?IH by done; try done.
  - apply bool_decide_eq_false in Hu. rewrite lookup_insert_ne by done. by apply IH.
  - apply bool_decide_eq_false in Hu. rewrite lookup_delete_ne by done. by apply IH.
Qed.

Lemma store_hist_tail ev h : store_hist w (ev :: h) → store_hist w h.
Proof. destruct ev; simpl; tauto. Qed.

(** An object touched since [h] carries a revision [h] never saw. *)
Lemma touched_revision pre h k o : fresh_revisions w s0 → store_hist w (pre ++ h) → ¬ untouched k pre →
  objects s0 (pre ++ h) !! k = Some (Stored o) → Revision o ∉ revisions s0 h.
Proof.
  intros Hfresh. induction pre as [|ev pre IH]; intros Hh Ht Hk.
  { exfalso. apply Ht. intros e He. by apply elem_of_nil in He. }
  destruct (touches k ev) eqn:Htouch.
  - destruct ev as [k' o'|k'|?|?|?|?|?|?]; simpl in Htouch; try done; apply bool_decide_eq_true in Htouch as ->; simpl in *.
    + rewrite lookup_insert_eq in Hk. injection Hk as <-. destruct Hh as [-> _].
      intros Hin. by apply (Hfresh (pre ++ h)), revisions_app.
    + by rewrite lookup_delete_eq in Hk.
  - apply IH.
    + by apply store_hist_tail in Hh.
    + intros Hu. apply Ht. intros e [->|He]%elem_of_cons; auto.
    + rewrite <-Hk. destruct ev; simpl in *; try done; apply bool_decide_eq_false in Htouch;
        [by rewrite lookup_insert_ne|by rewrite lookup_delete_ne].
Qed.

Lemma stale_revision pre h k o : fresh_revisions w s0 → store_hist w (pre ++ h) →
  objects s0 h !! k = Some (Stored o) → Revision o ≠ "" → ¬ untouched k pre →
  expected_revision (objects s0 (pre ++ h) !! k) ≠ Some (Revision o).
Proof.
  intros Hf Hh Ho Hne Ht He. destruct (objects s0 (pre ++ h) !! k) as [[o'| |]|] eqn:Hk; simpl in He; try done.
  - injection He as He. apply (touched_revision pre h k o' Hf Hh Ht Hk). rewrite He. by eapply objects_revision.
  - injection He as He. by apply Hne.
Qed.

(** ** Properties *)

(** C23: no lost update, and no ABA: once an object has been replaced or
    removed, a writer or remover that still holds the revision it had before is
    refused and leaves no trace, whatever happened in between. *)
Theorem stale_write_refused pre h k o data :
  fresh_revisions w s0 → store_hist w (pre ++ h) →
  objects s0 h !! k = Some (Stored o) → Revision o ≠ "" → ¬ untouched k pre →
  (write w s0 k data (Revision o) (pre ++ h)).1 = pre ++ h ∧
  is_ok (write w s0 k data (Revision o) (pre ++ h)).2 = false ∧
  (remove w s0 k (Revision o) (pre ++ h)).1 = pre ++ h ∧
  is_ok (remove w s0 k (Revision o) (pre ++ h)).2 = false.
Proof.
  intros Hf Hh Ho Hne Ht. pose proof (stale_revision pre h k o Hf Hh Ho Hne Ht) as Hs.
  destruct (write w s0 k data (Revision o) (pre ++ h)) as [h1 r1] eqn:Hw.
  destruct (remove w s0 k (Revision o) (pre ++ h)) as [h2 r2] eqn:Hr. simpl.
  apply (@write_cases s0 _ (localExecutionStore_laws w s0)) in Hw as [[-> ->]|(? & _ & He & _)]; [|done].
  apply local_remove_cases in Hr as [[-> ->]|(_ & o' & He & Hrev)]; [done|].
  exfalso. apply Hs. rewrite He. simpl. by rewrite Hrev.
Qed.

(** What a successful write stored is what every later read returns, until
    something replaces or removes that key. *)
Theorem write_then_read k data rev h h' rev' later :
  (∀ h, sw_new_revision w h ≠ "") →
  write w s0 k data rev h = (h', Ok rev') → untouched k later →
  sw_cancelled w (later ++ h') = None → sw_read_fault w (later ++ h') = None →
  readLocked w s0 k (later ++ h') = Ok (MkObject rev' data).
Proof.
  intros Hrev. unfold write. destruct (write_guard w s0 k data rev h) as [obj|err] eqn:Hg; [|done].
  destruct (sw_write_fault w h); [|done..]. intros [= <- <-] Hu Hc Hf.
  unfold write_guard in Hg. apply result_bind_Ok in Hg as (? & _ & Hg). apply result_bind_Ok in Hg as (? & Hkey & Hg).
  apply result_bind_Ok in Hg as (? & _ & Hg). case_decide as Hsize; [done|]. injection Hg as <-.
  unfold readLocked. rewrite Hc. simpl. rewrite Hkey. simpl. rewrite objects_untouched by done. simpl.
  rewrite lookup_insert_eq, Hf. simpl. rewrite (decide_False _ _ Hsize), decide_False; [done|apply Hrev].
Qed.
End Revisions.

(** ** A concrete store *)

Definition quiet_world (s0 : gmap string dirent) : StoreWorld :=
  MkStoreWorld (λ _, None) (λ _, None) (λ _, NoFault) (λ _, None) (λ h, fresh ("" :: revisions s0 h)) (λ _, 0%Z).

Lemma quiet_world_fresh s0 : fresh_revisions (quiet_world s0) s0.
Proof.
  intros h Hin. apply (infinite_is_fresh ("" :: revisions s0 h)). by right.
Qed.

Lemma quiet_world_nonempty s0 h : sw_new_revision (quiet_world s0) h ≠ "".
Proof. intros He. apply (infinite_is_fresh ("" :: revisions s0 h)). simpl in He. rewrite He. by left. Qed.

Definition sample_key : string := "run-00112233445566778899aabbccddeeff.json".
Definition sample_store : gmap string dirent := {[ sample_key := Stored (MkObject "r0" (PBytes [])) ]}.

Example stale_write_refused_witness :
  let h := [EvWrite sample_key (MkObject (sw_new_revision (quiet_world sample_store) []) (PBytes []))] in
  (write (quiet_world sample_store) sample_store sample_key (PBytes []) "r0" h).1 = h.
Proof.
  refine (proj1 (stale_write_refused (quiet_world sample_store) sample_store
    [EvWrite sample_key (MkObject (sw_new_revision (quiet_world sample_store) []) (PBytes []))] [] sample_key
    (MkObject "r0" (PBytes [])) (PBytes []) _ _ _ _ _)).
  - apply quiet_world_fresh.
  - split; [reflexivity|exact I].
  - vm_compute. reflexivity.
  - discriminate.
  - intros Hu. specialize (Hu _ (list_elem_of_here _ _)). vm_compute in Hu. discriminate Hu.
Defined.

Example write_then_read_witness :
  readLocked (quiet_world sample_store) sample_store sample_key
    [EvWrite sample_key (MkObject (sw_new_revision (quiet_world sample_store) []) (PBytes []))]
  = Ok (MkObject (sw_new_revision (quiet_world sample_store) []) (PBytes [])).
Proof.
  refine (write_then_read (quiet_world sample_store) sample_store sample_key (PBytes []) "r0" [] _ _ [] _ _ _ _ _).
  - apply quiet_world_nonempty.
  - vm_compute. reflexivity.
  - intros ev Hev. exact (False_ind _ (not_elem_of_nil ev Hev)).
  - reflexivity.
  - reflexivity.
Defined.
