(* ===== verification/S3Store.v ===== *)
(** The S3 execution store (src/internal/engine/execution_store_s3.go): the
    second implementation of the store interface of Store.v, over conditional
    requests.

    The S3 client is outside: it is a class, with what S3 documents of
    conditional requests and of listing as its laws.  The bucket's contents
    under the store's prefix are the [objects] of Store.v, an object's revision
    being its ETag. *)
From S2P Require Import Prelude GoLib Blueprint Module Graph Execution Store.

(** ** The client *)

(** An error of the SDK: its API code, when it has one. *)
Record s3_error := MkS3Error { s3_code : option string; s3_cause : error }.

(** A condition on the object's current ETag. *)
Inductive condition := IfNoneMatch | IfMatch (etag : string).

(** A response to a read: the size read up to the limit, and what the body decodes to. *)
Record s3_object := MkS3Object { so_ETag : string; so_size : Z; so_body : result executionObject }.

Class S3Client := {
  GetObject : string → hist → s3_object + s3_error;
  PutObject : string → executionObject → condition → hist → hist * (string + s3_error);
  DeleteObject : string → string → hist → hist * option s3_error;
  list_pages : string → hist → list (list string + s3_error);
}.

(** What is under the prefix was written through the store, and what S3
    documents: reads and listings are strongly consistent, a conditional
    request takes effect only when its condition holds, and a delete of what is
    not there may succeed and do nothing. *)
Class S3Laws (s0 : gmap string dirent) (prefix : string) `{S3Client} := {
  dedicated k d : s0 !! k = Some d → ∃ o, d = Stored o;
  get_found k h out body : GetObject (prefix +:+ k) h = inl out → so_body out = Ok body →
    objects s0 h !! k = Some (Stored (MkObject (so_ETag out) (Data body)));
  get_missing k h e code : GetObject (prefix +:+ k) h = inr e → s3_code e = Some code → code ∈ ["NoSuchKey"; "NotFound"] →
    objects s0 h !! k = None;
  put_conditional k body c h h' r : PutObject (prefix +:+ k) body c h = (h', r) →
    (h' = h ∧ ∃ e, r = inr e) ∨
    (∃ etag, h' = EvWrite k (MkObject etag (Data body)) :: h ∧
       (match c with IfNoneMatch => objects s0 h !! k = None | IfMatch rev => ∃ o, objects s0 h !! k = Some (Stored o) ∧ Revision o = rev end) ∧
       (∀ x, r = inl x → x = etag ∨ x = ""));
  delete_conditional k rev h h' r : DeleteObject (prefix +:+ k) rev h = (h', r) →
    (h' = h ∧ (r = None → objects s0 h !! k = None)) ∨
    (h' = EvRemove k :: h ∧ ∃ o, objects s0 h !! k = Some (Stored o) ∧ Revision o = rev);
  listed h pages : list_pages prefix h = inl <$> pages →
    ∀ key, key ∈ concat pages ↔ ∃ k, key = prefix +:+ k ∧ is_Some (objects s0 h !! k);
  foreign_cause k h e : GetObject (prefix +:+ k) h = inr e → is_missing (s3_cause e) = false;
  foreign_decoding k h out e : GetObject (prefix +:+ k) h = inl out → so_body out = Err e → is_missing e = false;
}.

(** ** The store *)

Section Store.
Context `{!S3Client} (new_revision : hist → string) (encoded_size : executionObject → Z).

(** [openS3ExecutionStore]: the prefix the store works under. *)
Definition openS3ExecutionStore (bucket prefix region : string) (config : result unit) : result string :=
  if bool_decide (bucket = "") || bool_decide (region = "") || bool_decide (trim "/"%char prefix = "")
  then Err (Errorf "execution storage needs bucket, prefix and region; configure a dedicated prefix" [])
  else _ ← wrap_err (λ err, Errorf "loading execution storage credentials: %w" [FErr err]) config;
       Ok (trim "/"%char prefix +:+ "/").

Definition executionS3Error (e : s3_error) : error :=
  match s3_code e with
  | Some code =>
    if mem code ["NoSuchKey"; "NotFound"] then errExecutionMissing
    else if mem code ["PreconditionFailed"; "ConditionalRequestConflict"] then errExecutionConflict
    else s3_cause e
  | None => s3_cause e
  end.

Context (prefix : string).

Definition s3_read (key : string) (h : hist) : result executionObject :=
  _ ← checkExecutionKey key;
  match GetObject (prefix +:+ key) h with
  | inr err => Err (executionS3Error err)
  | inl out =>
    if decide (executionObjectLimit < so_size out)%Z
    then Err (Errorf "execution object exceeds size limit; inspect the stored object" [])
    else
      obj ← wrap_err (λ err, Errorf "decoding execution object: %w" [FErr err]) (so_body out);
      if bool_decide (Revision obj = "") || bool_decide (so_ETag out = "")
      then Err (Errorf "execution object has no revision; restore a valid record" [])
      else Ok (MkObject (so_ETag out) (Data obj))
  end.

Definition s3_write (key : string) (data : payload) (revision : string) (h : hist) : hist * result string :=
  match checkExecutionKey key with
  | Err err => (h, Err err)
  | Ok _ =>
    let obj := MkObject (new_revision h) data in
    if decide (executionObjectLimit < encoded_size obj)%Z
    then (h, Err (Errorf "execution object exceeds size limit; reduce the plan size" []))
    else
      let '(h', r) := PutObject (prefix +:+ key) obj (if decide (revision = "") then IfNoneMatch else IfMatch revision) h in
      (h', match r with
           | inr err => Err (executionS3Error err)
           | inl etag => if decide (etag = "") then Err (Errorf "execution storage returned no revision; inspect the object before retrying" [])
                         else Ok etag
           end)
  end.

Definition s3_remove (key revision : string) (h : hist) : hist * result unit :=
  match checkExecutionKey key with
  | Err err => (h, Err err)
  | Ok _ =>
    if decide (revision = "") then (h, Err errExecutionConflict)
    else let '(h', r) := DeleteObject (prefix +:+ key) revision h in
         (h', match r with Some err => Err (executionS3Error err) | None => Ok tt end)
  end.

Definition page_keys (page : list string) : list string :=
  filter (λ k, key_matches k = true) ((λ key, trim_prefix key prefix) <$> page).

Fixpoint collect_pages (pages : list (list string + s3_error)) (keys : list string) : result (list string) :=
  match pages with
  | [] => Ok (sort_strings keys)
  | inr err :: _ => Err (executionS3Error err)
  | inl page :: pages => collect_pages pages (keys ++ page_keys page)
  end.

Definition s3_list (h : hist) : result (list string) := collect_pages (list_pages prefix h) [].

#[export] Instance s3ExecutionStore : executionStore :=
  {| st_read := s3_read; st_write := s3_write; st_remove := s3_remove; st_list := s3_list |}.
End Store.

(** ** The contract *)

Section Laws.
Context (s0 : gmap string dirent) (prefix : string) `{XC : !S3Client} `{XL : !S3Laws s0 prefix}.
Context (new_revision : hist → string) (encoded_size : executionObject → Z).

Notation read := (s3_read prefix).
Notation write := (s3_write new_revision encoded_size prefix).
Notation remove := (s3_remove prefix).

Lemma checked_key key : checkExecutionKey key = Ok tt ∨ ∃ e, checkExecutionKey key = Err e ∧ is_missing e = false.
Proof. unfold checkExecutionKey. destruct (key_matches key); [by left|right]. by eexists. Qed.

Lemma s3_read_Ok k h o : read k h = Ok o → objects s0 h !! k = Some (Stored o) ∧ Revision o ≠ "".
Proof.
  unfold s3_read. intros (? & _ & Hk)%result_bind_Ok. destruct (GetObject _ h) as [out|] eqn:Hg; [|done].
  case_decide; [done|]. apply result_bind_Ok in Hk as (body & Hb%wrap_err_Ok & Hk).
  destruct (_ || _) eqn:He in Hk; [done|]. injection Hk as <-. apply orb_false_iff in He as [_ He%bool_decide_eq_false].
  split; [by eapply get_found|done].
Qed.

Lemma s3_read_missing k h e : read k h = Err e → is_missing e = true → objects s0 h !! k = None.
Proof.
  unfold s3_read. destruct (checked_key k) as [->|(e' & -> & Hm)]; simpl; [|by intros [= <-]; rewrite Hm].
  destruct (GetObject _ h) as [out|err] eqn:Hg.
  - case_decide; [by intros [= <-]|]. destruct (so_body out) as [body|e'] eqn:Hb; simpl.
    + destruct (_ || _); [by intros [= <-]|done].
    + intros [= <-] Hm. pose proof (foreign_decoding k h out e' Hg Hb) as Hd. unfold is_missing in Hm, Hd. simpl in Hm. by rewrite Hd in Hm.
  - intros [= <-]. unfold executionS3Error. pose proof (foreign_cause k h err Hg) as Hf.
    destruct (s3_code err) as [code|] eqn:Hc; [|intros Hm; congruence].
    destruct (mem code ["NoSuchKey"; "NotFound"]) eqn:Hm; [intros _; eapply get_missing; [done..|by apply mem_true]|].
    destruct (mem code ["PreconditionFailed"; "ConditionalRequestConflict"]); [done|]. rewrite Hf. done.
Qed.

Lemma expected_condition k rev h :
  match (if decide (rev = "") then IfNoneMatch else IfMatch rev) with
  | IfNoneMatch => objects s0 h !! k = None
  | IfMatch rev => ∃ o, objects s0 h !! k = Some (Stored o) ∧ Revision o = rev
  end → expected_revision (objects s0 h !! k) = Some rev.
Proof. case_decide as Hr; [intros ->; by rewrite Hr|]. intros (o & -> & <-). done. Qed.

Lemma s3_write_cases k d rev h h' r : write k d rev h = (h', r) →
  (h' = h ∧ is_ok r = false) ∨
  (∃ rev', h' = EvWrite k (MkObject rev' d) :: h ∧ expected_revision (objects s0 h !! k) = Some rev ∧ (∀ x, r = Ok x → x = rev')).
Proof.
  unfold s3_write. destruct (checkExecutionKey k); [|intros [= <- <-]; by left]. case_decide; [intros [= <- <-]; by left|].
  destruct (PutObject _ _ _ h) as [h1 r1] eqn:Hp. intros [= <- <-].
  apply put_conditional in Hp as [[-> [e ->]]|(etag & -> & Hc%expected_condition & Hr)]; [by left|]. right. exists etag.
  split_and!; [done..|]. intros x. destruct r1 as [y|]; [|done]. case_decide; [done|]. intros [= <-].
  by destruct (Hr y eq_refl).
Qed.

Lemma s3_remove_cases k rev h h' r : remove k rev h = (h', r) →
  (h' = h ∧ (is_ok r = true → objects s0 h !! k = None)) ∨
  (h' = EvRemove k :: h ∧ ∃ o, objects s0 h !! k = Some (Stored o) ∧ Revision o = rev).
Proof.
  unfold s3_remove. destruct (checkExecutionKey k); [|intros [= <- <-]; by left]. case_decide; [intros [= <- <-]; by left|].
  destruct (DeleteObject _ _ h) as [h1 r1] eqn:Hp. intros [= <- <-].
  apply delete_conditional in Hp as [[-> Hm]|[-> Ho]]; [left|by right]. split; [done|]. destruct r1; [done|]. intros _. by apply Hm.
Qed.

Lemma trim_prefix_app p k : trim_prefix (p +:+ k) p = k.
Proof.
  unfold trim_prefix, has_prefix. assert (String.prefix p (p +:+ k) = true) as ->.
  { induction p as [|c p IH]; simpl; [by destruct k|]. by destruct (Ascii.ascii_dec c c). }
  assert (∀ n s, String.length s ≤ n → String.substring 0 n s = s) as H0.
  { induction n as [|n IH]; intros [|c s]; simpl; intros; [done|lia|done|]. f_equal. apply IH. lia. }
  assert (∀ n, String.length k ≤ n → String.substring (String.length p) n (p +:+ k) = k) as Hs.
  { induction p as [|c p IH]; intros n Hn; simpl; [by apply H0|]. by apply IH. }
  apply Hs. clear. induction p as [|c p IH]; [done|]. simpl in *. lia.
Qed.

Lemma collect_pages_Ok pages : ∀ keys ks, collect_pages prefix pages keys = Ok ks →
  ∃ ps, pages = inl <$> ps ∧ ∀ k, k ∈ ks ↔ k ∈ keys ∨ k ∈ page_keys prefix (concat ps).
Proof.
  induction pages as [|[page|err] pages IH]; intros keys ks; simpl; [|intros Hc|done].
  - intros [= <-]. exists []. split; [done|]. intros k. rewrite sort_strings_elem. unfold page_keys. set_solver.
  - destruct (IH _ _ Hc) as (ps & -> & Hk). exists (page :: ps). split; [done|]. intros k. rewrite Hk, elem_of_app. simpl.
    unfold page_keys. rewrite fmap_app, filter_app, elem_of_app. tauto.
Qed.

Lemma s3_list_Ok h ks : s3_list prefix h = Ok ks → ∀ k, k ∈ ks ↔ key_matches k = true ∧ is_Some (objects s0 h !! k).
Proof.
  unfold s3_list. intros (ps & Hp & Hk)%collect_pages_Ok k. rewrite Hk. unfold page_keys. rewrite list_elem_of_filter, list_elem_of_fmap.
  setoid_rewrite (listed h ps Hp). split.
  - intros [Hn|(Hm & key & -> & k' & -> & Ho)]; [by apply elem_of_nil in Hn|]. rewrite trim_prefix_app in *. done.
  - intros [Hm Ho]. right. split; [done|]. exists (prefix +:+ k). rewrite trim_prefix_app. split; [done|]. by exists k.
Qed.

(** C27: the S3 store keeps the contract the journal is written against: reads
    return what is stored, a missing answer is true, a write or a removal
    either leaves no trace or replaced the object whose revision was named
    (a removal that did nothing reports success only for an object that is not
    there), and a listing is exact. So every theorem of the journal holds over it. *)
Theorem s3_store_contract : @StoreLaws s0 (s3ExecutionStore new_revision encoded_size prefix).
Proof.
  split; simpl.
  - intros k h o Ho. by apply s3_read_Ok in Ho as [].
  - apply s3_read_missing.
  - apply s3_write_cases.
  - apply s3_remove_cases.
  - apply s3_list_Ok.
Qed.
End Laws.

(** ** A bucket *)

Section Sample.
Context (p : string).

Definition holds (c : condition) (d : option dirent) : bool :=
  match c, d with
  | IfNoneMatch, None => true
  | IfMatch rev, Some (Stored o) => bool_decide (Revision o = rev)
  | _, _ => false
  end.
Definition refused : s3_error := MkS3Error (Some "PreconditionFailed") (External "412").

#[local] Instance sample_s3 : S3Client := {|
  GetObject full h :=
    match objects ∅ h !! trim_prefix full p with
    | Some (Stored o) => inl (MkS3Object (Revision o) 1 (Ok (MkObject "rev" (Data o))))
    | _ => inr (MkS3Error (Some "NoSuchKey") (External "404"))
    end;
  PutObject full body c h :=
    if holds c (objects ∅ h !! trim_prefix full p)
    then (EvWrite (trim_prefix full p) (MkObject ("etag" +:+ Revision body) (Data body)) :: h, inl ("etag" +:+ Revision body))
    else (h, inr refused);
  DeleteObject full rev h :=
    match objects ∅ h !! trim_prefix full p with
    | None => (h, None)
    | d => if holds (IfMatch rev) d then (EvRemove (trim_prefix full p) :: h, None) else (h, Some refused)
    end;
  list_pages _ h := [inl ((λ kd, p +:+ kd.1) <$> map_to_list (objects ∅ h))];
|}.

Lemma stored_only h k d : objects ∅ h !! k = Some d → ∃ o, d = Stored o.
Proof.
  revert k d. induction h as [|ev h IH]; intros k d; [done|]. simpl.
  destruct ev; simpl; try apply IH; [|intros [_ Hd]%lookup_delete_Some; by eapply IH].
  intros [[_ <-]|[_ Hd]]%lookup_insert_Some; [by eexists|by eapply IH].
Qed.

Lemma sample_s3_laws : S3Laws ∅ p.
Proof.
  split; simpl.
  - done.
  - intros k h out body. rewrite trim_prefix_app. destruct (objects ∅ h !! k) as [[o| |]|]; [|done..]. intros [= <-] [= <-]. by destruct o.
  - intros k h e code. rewrite trim_prefix_app. destruct (objects ∅ h !! k) as [d|] eqn:Hd; [|done].
    by destruct (stored_only _ _ _ Hd) as [o ->].
  - intros k body c h h' r. rewrite trim_prefix_app. destruct (holds c _) eqn:Hh; intros [= <- <-]; [|left; split; [done|by eexists]].
    right. eexists. split; [done|]. split; [|intros x [= <-]; by left]. revert Hh. unfold holds.
    destruct c, (objects ∅ h !! k) as [[o| |]|]; try done. intros ?%bool_decide_eq_true. by exists o.
  - intros k rev h h' r. rewrite trim_prefix_app. destruct (objects ∅ h !! k) as [[o| |]|] eqn:Ho; simpl; try (intros [= <- <-]; by left).
    destruct (bool_decide_reflect (Revision o = rev)); intros [= <- <-]; [right|by left]. split; [done|by exists o].
  - intros h [|page [|]] [= <-] key. simpl. rewrite app_nil_r, list_elem_of_fmap. split.
    + intros ([k d] & -> & Hin%elem_of_map_to_list). exists k. by rewrite Hin.
    + intros (k & -> & [d Hd]). exists (k, d). by rewrite elem_of_map_to_list.
  - intros k h e. destruct (objects ∅ h !! _) as [[| |]|]; try done; by intros [= <-].
  - intros k h out e. destruct (objects ∅ h !! _) as [[| |]|]; try done. by intros [= <-].
Qed.

(** A key is created once; a second creation is refused, the named revision replaces it. *)
Example s3_conditional : let w := s3_write (λ h, String (ascii_of_nat (48 + length h)) "") (λ _, 1%Z) p in
  let '(h1, r1) := w sample_key (PBytes []) "" [] in
  let '(h2, r2) := w sample_key (PBytes []) "" h1 in
  let '(h3, r3) := w sample_key (PBytes [Byte.x01]) "etag0" h2 in
  r1 = Ok "etag0" ∧ r2 = Err errExecutionConflict ∧ h2 = h1 ∧ r3 = Ok "etag1" ∧ length h3 = 2.
Proof.
  unfold s3_write. change (checkExecutionKey sample_key) with (Ok tt). simpl. rewrite !trim_prefix_app. vm_compute. done.
Qed.
End Sample.

Example s3_store_contract_witness : ∃ C : executionStore, @StoreLaws ∅ C.
Proof.
  exists (@s3ExecutionStore (sample_s3 "runs/") (λ _, "rev") (λ _, 1%Z) "runs/").
  exact (@s3_store_contract ∅ "runs/" (sample_s3 "runs/") (sample_s3_laws "runs/") (λ _, "rev") (λ _, 1%Z)).
Defined.
