(* ===== verification/Journal.v ===== *)
(** The execution journal (src/internal/engine/execution_journal.go,
    execution_cleanup.go, saved_execution.go, plugins.go): a session owns one
    stored record and publishes every change of it before acting on it.

    [H] is a computation over the history alone, [M] one that also owns a
    session.  The plugin lifecycle is not modelled: what its calls record and
    answer are functions of the history, like the store's faults. *)
From S2P Require Import Prelude GoLib Blueprint Module Graph Topo Selection Gate Execution Store.

(** ** Computations *)

Definition H (A : Type) : Type := hist → hist * result A.

#[export] Instance H_ret : MRet H := λ A a h, (h, Ok a).
#[export] Instance H_bind : MBind H := λ A B f m h,
  let '(h', r) := m h in match r with Ok a => f a h' | Err e => (h', Err e) end.

Definition throwH {A} (e : error) : H A := λ h, (h, Err e).
Definition pureH {A} (r : result A) : H A := λ h, (h, r).
Definition emitH (ev : event) : H unit := λ h, (ev :: h, Ok tt).
Definition getH : H hist := λ h, (h, Ok h).

Fixpoint forH {A} (f : A → H unit) (l : list A) : H unit :=
  match l with
  | [] => mret tt
  | a :: l => f a ≫= λ _, forH f l
  end.

Record session := MkSession { st_hist : hist; st_record : ExecutionRecord; st_revision : string }.

Definition M (A : Type) : Type := session → session * result A.

#[export] Instance M_ret : MRet M := λ A a s, (s, Ok a).
#[export] Instance M_bind : MBind M := λ A B f m s,
  let '(s', r) := m s in match r with Ok a => f a s' | Err e => (s', Err e) end.

Definition throwM {A} (e : error) : M A := λ s, (s, Err e).
Definition pureM {A} (r : result A) : M A := λ s, (s, r).
Definition set_hist (s : session) (h : hist) : session := MkSession h (st_record s) (st_revision s).
Definition liftH {A} (m : H A) : M A := λ s, let '(h', r) := m (st_hist s) in (set_hist s h', r).
Definition emitM (ev : event) : M unit := liftH (emitH ev).
Definition getM : M session := λ s, (s, Ok s).

(** An error that is logged, or kept for later, rather than returned. *)
Definition attemptM (m : M unit) : M unit := λ s, ((m s).1, Ok tt).
Definition attemptH (m : H unit) : H unit := λ h, ((m h).1, Ok tt).

Fixpoint forM {A} (f : A → M unit) (l : list A) : M unit :=
  match l with
  | [] => mret tt
  | a :: l => f a ≫= λ _, forM f l
  end.

(** An error the caller inspects. *)
Definition tryM {A} (m : M A) : M (result A) := λ s, let '(s', r) := m s in (s', Ok r).

Definition error_of {A} (r : result A) : option error := match r with Ok _ => None | Err e => Some e end.

(** [errors.Join(cause, m())] as the returned error. *)
Definition throw_joined {A} (cause : error) (m : M unit) : M A := λ s,
  let '(s', r) := m s in (s', Err (default cause (join_errors (Some cause) (error_of r)))).

(** ** The outside of the journal *)

Record JournalWorld := MkJournalWorld {
  jw_now : hist → Z;
  jw_plugins : bool;
  jw_calls : hist → string → string → list CallRecord;
  jw_emit : hist → string → string → result unit;
}.

Definition record_key (id : string) : string := id +:+ ".json".
Definition bundle_key (id : string) : string := id +:+ ".bin".

Definition record_write_failed (id : string) (e : error) : error :=
  Diagnosed (Diagnostic "execution_record_write_failed" "record" "record" "" id)
    (Errorf "recording execution %s: %w" [FStr id; FErr e]).

Section Journal.
Context `{executionStore} (w : JournalWorld).

(** ** Reading records *)

Definition lift_read (key : string) : H executionObject := λ h, (h, st_read key h).
Definition lift_list : H (list string) := λ h, (h, st_list h).

Definition valid_record (id : string) (r : ExecutionRecord) : bool :=
  (bool_decide (er_SchemaVersion r = 1%Z) || bool_decide (er_SchemaVersion r = 2%Z))
  && bool_decide (er_ID r = id) && negb (bool_decide (er_Scope r = "")) && negb (bool_decide (er_Status r = "")).

Definition record_membership (r : ExecutionRecord) : result unit :=
  match er_Selection r with
  | Some sel => ValidateMembership sel (en_Name <$> er_Nodes r)
  | None => Ok tt
  end.

Definition readExecutionRecord (id : string) : H (ExecutionRecord * string) :=
  if negb (has_prefix id "run-") then throwH (Errorf "invalid execution ID; select a run ID from plan list" [])
  else obj ← lift_read (record_key id);
       record ← pureH (wrap_err (λ err, Errorf "reading execution record: %w" [FErr err]) (unmarshal_record (Data obj)));
       if negb (valid_record id record)
       then throwH (Errorf "execution record is incompatible or incomplete; restore a valid record" [])
       else _ ← pureH (record_membership record); mret (record, Revision obj).

(** The keys the store's listings select. *)
Definition is_record_key (key : string) : bool := has_prefix key "run-" && has_suffix key ".json".

(** ** Publishing *)

(** [publish] on a given revision; its context outlives a cancelled command. *)
Definition publish_at (next : ExecutionRecord) (revision : string) : H string := λ h,
  let '(h', r) := st_write (record_key (er_ID next)) (PRecord next) revision h in
  (h', wrap_err (record_write_failed (er_ID next)) r).

Definition publish (next : ExecutionRecord) : M unit := λ s,
  let '(h', r) := publish_at next (st_revision s) (st_hist s) in
  match r with
  | Ok revision => (MkSession h' next revision, Ok tt)
  | Err e => (set_hist s h', Err e)
  end.

Definition set_call (calls : list CallRecord) (call : CallRecord) : list CallRecord :=
  match list_find (λ c, cl_ID c = cl_ID call) calls with
  | Some (i, _) => <[i := call]> calls
  | None => calls ++ [call]
  end.

Definition recordPlugin (call : CallRecord) : M unit :=
  s ← getM;
  let calls := er_PluginCalls (st_record s) in
  if bool_decide (cl_ID call ∉ cl_ID <$> calls) && Nat.leb 10000 (length calls)
  then throwM (Errorf "plugin execution call limit reached; reduce the selected scope" [])
  else publish (with_calls (st_record s) (set_call calls call)).

(** [Lifecycle.Emit]: each call it makes is recorded before its answer counts. *)
Definition Emit (phase node : string) : M unit :=
  if jw_plugins w then
    s ← getM;
    _ ← emitM (EvPlugin phase node);
    _ ← forM recordPlugin (jw_calls w (st_hist s) phase node);
    pureM (jw_emit w (st_hist s) phase node)
  else mret tt.

(** ** Transitions *)

Definition set_phase (phase code planID : string) (n : ExecutionNode) : ExecutionNode :=
  MkExecutionNode (en_Name n) (en_Review n) (en_Target n) phase (if decide (planID = "") then en_PlanID n else planID) code.

Definition mutation_finished (previous phase : string) : bool :=
  mem previous ["applying"; "operating"] && mem phase ["applied"; "completed"; "indeterminate"].

Definition transition (name phase code planID : string) : M unit :=
  s ← getM;
  match update_node name (set_phase phase code planID) (er_Nodes (st_record s)) with
  | None => throwM (Errorf "node.%s: absent from execution; reload the execution" [FStr name])
  | Some ns =>
    let previous := default "" (phase_of (st_record s) name) in
    _ ← publish (with_updated (with_nodes (st_record s) ns) (jw_now w (st_hist s)));
    if mutation_finished previous phase then attemptM (Emit "node.mutation.finished" name) else mret tt
  end.

(** [executionSession.fail]. *)
Definition ErrNotStarted : string := "runtime was not started".

Definition fail {A} (name phase : string) (cause : error) : M A :=
  let phase := if error_is ErrNotStarted cause then "failed" else phase in
  throw_joined cause (transition name phase "runtime_failed" "").

Definition set_review (review : PlanReview) (n : ExecutionNode) : ExecutionNode :=
  MkExecutionNode (en_Name n) (Some review) (en_Target n) (en_Phase n) (en_PlanID n) (en_Code n).
Definition set_code (code : string) (n : ExecutionNode) : ExecutionNode :=
  MkExecutionNode (en_Name n) (en_Review n) (en_Target n) (en_Phase n) (en_PlanID n) code.

Definition setReview (name : string) (review : PlanReview) : M unit :=
  s ← getM;
  match update_node name (set_review review) (er_Nodes (st_record s)) with
  | Some ns => publish (with_nodes (st_record s) ns)
  | None => throwM (Errorf "node.%s: absent from execution" [FStr name])
  end.

Definition noteSavedFailure (name code : string) : M unit :=
  s ← getM;
  match update_node name (set_code code) (er_Nodes (st_record s)) with
  | Some ns => publish (with_nodes (st_record s) ns)
  | None => throwM (Errorf "node.%s: absent from execution" [FStr name])
  end.

(** ** Artifacts *)

Definition lift_remove (key revision : string) : H unit := st_remove key revision.

Definition ignore_missing (m : H unit) : H unit := λ h,
  let '(h', r) := m h in
  (h', match r with Err err => if is_missing err then Ok tt else Err err | Ok _ => Ok tt end).

Definition cleanup_node (n : ExecutionNode) : H unit :=
  if decide (en_PlanID n = "") then mret tt
  else h ← getH;
       match st_read (bundle_key (en_PlanID n)) h with
       | Err err => if is_missing err then mret tt else throwH err
       | Ok object => ignore_missing (lift_remove (bundle_key (en_PlanID n)) (Revision object))
       end.

Definition cleanupExecution (record : ExecutionRecord) : H unit :=
  if bool_decide (er_FinishedAt record = None) || executionNeedsRecovery record then mret tt
  else forH cleanup_node (er_Nodes record).

(** ** Finishing *)

(** [finishPlugins]: every emission is made and the errors joined. *)
Fixpoint emit_all (events : list (string * string)) (acc : option error) : M (option error) :=
  match events with
  | [] => mret acc
  | (phase, node) :: events => r ← tryM (Emit phase node); emit_all events (join_errors acc (error_of r))
  end.

Definition plugin_completion_failed (e : error) : error :=
  Diagnosed (Diagnostic "plugin_completion_failed" "plugin" "completion" "" "") e.

Definition finishPlugins : M (option error) :=
  if jw_plugins w then
    s ← getM;
    err ← emit_all (((λ n, ("node.finished", en_Name n)) <$> er_Nodes (st_record s))
                      ++ [("run.finished", ""); ("close", "")]) None;
    mret (plugin_completion_failed <$> err)
  else mret None.

Definition finished_record (r : ExecutionRecord) (runErr : option error) (now : Z) : ExecutionRecord :=
  let status := if runErr then "failed" else "completed" in
  let next := with_times r status now (er_FinishedAt r) (er_RecoveryAt r) in
  if executionNeedsRecovery next then with_times r "needs_recovery" now (er_FinishedAt r) (er_RecoveryAt r)
  else with_times r status now (Some now) (er_RecoveryAt r).

Definition finish (runErr : option error) : M unit :=
  pluginErr ← finishPlugins;
  s ← getM;
  let next := finished_record (st_record s) (join_errors runErr pluginErr) (jw_now w (st_hist s)) in
  _ ← publish next;
  _ ← liftH (attemptH (cleanupExecution next));
  match pluginErr with Some e => throwM e | None => mret tt end.

(** [finishSaved]: what was being prepared goes back to pending. *)
Definition unprepare (n : ExecutionNode) : ExecutionNode :=
  if decide (en_Phase n = "preparing")
  then MkExecutionNode (en_Name n) (en_Review n) (en_Target n) "pending" (en_PlanID n) (en_Code n) else n.

Definition has_phase (p : string) (ns : list ExecutionNode) : bool := existsb (λ n, bool_decide (en_Phase n = p)) ns.

Definition saved_record (r : ExecutionRecord) (runErr : option error) (now : Z) : ExecutionRecord :=
  let next := with_nodes (with_times r "ready_for_next_plan" now None (er_RecoveryAt r)) (unprepare <$> er_Nodes r) in
  if executionNeedsRecovery next then with_times next "needs_recovery" now None (er_RecoveryAt r)
  else if has_phase "planned" (er_Nodes next) then with_times next "waiting_for_apply" now None (er_RecoveryAt r)
  else if negb (has_phase "pending" (er_Nodes next))
       then with_times next (if runErr then "failed" else "completed") now (Some now) (er_RecoveryAt r)
       else next.

Definition finishSaved (runErr : option error) : M unit :=
  s ← getM;
  if (match er_FinishedAt (st_record s) with Some _ => negb (executionNeedsRecovery (st_record s)) | None => false end)
  then mret tt
  else publish (saved_record (st_record s) runErr (jw_now w (st_hist s))).

Definition finishSavedSession (runErr : option error) (finalize : bool) : M (option error) :=
  pluginErr ← finishPlugins;
  let result := join_errors runErr pluginErr in
  if negb finalize then mret result
  else
    s ← getM;
    r ← (if match result with Some _ => true | None => executionNeedsRecovery (st_record s) end
         then tryM (finishSaved result) else mret (Ok tt));
    match r with
    | Err err => mret (join_errors result (Some err))
    | Ok _ => s ← getM; _ ← liftH (attemptH (cleanupExecution (st_record s))); mret result
    end.

(** ** The barrier *)

Definition scope_mismatch (id : string) : error :=
  Diagnosed (Diagnostic "execution_scope_mismatch" "configuration" "prepare" "" id)
    (Errorf "execution %s belongs to another coordination scope; configure the same graph lock or separate prefixes" [FStr id]).
Definition recovery_required (id : string) : error :=
  Diagnosed (Diagnostic "recovery_required" "recovery" "prepare" "" id)
    (Errorf "execution %s has an unresolved mutation; inspect it with plan show and recover before changing infrastructure" [FStr id]).

Definition check_barrier_key (scope exceptID : string) (readOnly : bool) (key : string) : H unit :=
  if negb (is_record_key key) then mret tt
  else '(old, _) ← readExecutionRecord (trim_suffix key ".json");
       if decide (er_Scope old ≠ scope) then throwH (scope_mismatch (er_ID old))
       else if negb (bool_decide (er_ID old = exceptID)) && executionNeedsRecovery old && negb readOnly
       then throwH (recovery_required (er_ID old))
       else mret tt.

Definition checkExecutionBarrier (scope exceptID : string) (readOnly : bool) : H unit :=
  keys ← lift_list; forH (check_barrier_key scope exceptID readOnly) keys.
End Journal.
