(* ===== verification/JournalFacts.v ===== *)
(** What the journal's operations do to the history and to the stored record
    (for Journal.v): which events each operation can add, as a type class the
    components above resolve by instance search, and the exact relation
    between a session's record and the stored one after every operation. *)
From S2P Require Import Prelude GoLib Blueprint Module Graph Topo Selection Gate Execution Store Journal.

(** ** The events of a computation *)

Definition extends (P : event → Prop) (h h' : hist) : Prop := ∃ pre, h' = pre ++ h ∧ Forall P pre.

Lemma extends_refl P h : extends P h h.
Proof. exists []. split; [done|constructor]. Qed.

Lemma extends_one P ev h : P ev → extends P h (ev :: h).
Proof. intros. exists [ev]. split; [done|by repeat constructor]. Qed.

Lemma extends_trans P h1 h2 h3 : extends P h1 h2 → extends P h2 h3 → extends P h1 h3.
Proof.
  intros (p1 & -> & H1) (p2 & -> & H2). exists (p2 ++ p1). split; [by rewrite (assoc_L (++))|].
  by apply Forall_app.
Qed.

Lemma extends_mono (P Q : event → Prop) h h' : (∀ ev, P ev → Q ev) → extends P h h' → extends Q h h'.
Proof. intros HPQ (p & -> & Hp). exists p. split; [done|]. eapply Forall_impl; eauto. Qed.

Lemma extends_untouched k h h' : extends (λ ev, touches k ev = false) h h' → ∃ pre, h' = pre ++ h ∧ untouched k pre.
Proof. intros (p & -> & Hp). exists p. split; [done|]. rewrite Forall_forall in Hp. exact Hp. Qed.

Class EmitsH (P : event → Prop) {A} (m : H A) : Prop := emitsH h h' r : m h = (h', r) → extends P h h'.
Class EmitsM (P : event → Prop) {A} (m : M A) : Prop :=
  emitsM s s' r : m s = (s', r) → extends P (st_hist s) (st_hist s').

Section Rules.
Context (P : event → Prop).

#[export] Instance emitsH_ret {A} (a : A) : EmitsH P (mret a : H A).
Proof. intros h h' r [= <- _]. apply extends_refl. Qed.
#[export] Instance emitsH_throw {A} e : EmitsH P (throwH e : H A).
Proof. intros h h' r [= <- _]. apply extends_refl. Qed.
#[export] Instance emitsH_pure {A} (x : result A) : EmitsH P (pureH x).
Proof. intros h h' r [= <- _]. apply extends_refl. Qed.
#[export] Instance emitsH_get : EmitsH P getH.
Proof. intros h h' r [= <- _]. apply extends_refl. Qed.
#[export] Instance emitsH_bind {A B} (m : H A) (f : A → H B) :
  EmitsH P m → (∀ a, EmitsH P (f a)) → EmitsH P (m ≫= f).
Proof.
  intros Hm Hf h h' r. unfold mbind, H_bind. destruct (m h) as [h1 [a|e]] eqn:Hmh.
  - intros Hk. eapply extends_trans; [by eapply Hm|by eapply Hf].
  - intros [= <- _]. by eapply Hm.
Qed.
#[export] Instance emitsH_for {A} (f : A → H unit) l : (∀ a, EmitsH P (f a)) → EmitsH P (forH f l).
Proof. intros Hf. induction l; simpl; apply _. Qed.
#[export] Instance emitsH_attempt (m : H unit) : EmitsH P m → EmitsH P (attemptH m).
Proof. intros Hm h h' r. unfold attemptH. destruct (m h) as [h1 r1] eqn:Hh. intros [= <- _]. by eapply Hm. Qed.

#[export] Instance emitsM_ret {A} (a : A) : EmitsM P (mret a : M A).
Proof. intros s s' r [= <- _]. apply extends_refl. Qed.
#[export] Instance emitsM_throw {A} e : EmitsM P (throwM e : M A).
Proof. intros s s' r [= <- _]. apply extends_refl. Qed.
#[export] Instance emitsM_pure {A} (x : result A) : EmitsM P (pureM x).
Proof. intros s s' r [= <- _]. apply extends_refl. Qed.
#[export] Instance emitsM_get : EmitsM P getM.
Proof. intros s s' r [= <- _]. apply extends_refl. Qed.
#[export] Instance emitsM_bind {A B} (m : M A) (f : A → M B) :
  EmitsM P m → (∀ a, EmitsM P (f a)) → EmitsM P (m ≫= f).
Proof.
  intros Hm Hf s s' r. unfold mbind, M_bind. destruct (m s) as [s1 [a|e]] eqn:Hms.
  - intros Hk. eapply extends_trans; [by eapply Hm|by eapply Hf].
  - intros [= <- _]. by eapply Hm.
Qed.
#[export] Instance emitsM_for {A} (f : A → M unit) l : (∀ a, EmitsM P (f a)) → EmitsM P (forM f l).
Proof. intros Hf. induction l; simpl; apply _. Qed.
#[export] Instance emitsM_attempt (m : M unit) : EmitsM P m → EmitsM P (attemptM m).
Proof. intros Hm s s' r. unfold attemptM. destruct (m s) as [s1 r1] eqn:Hs. intros [= <- _]. by eapply Hm. Qed.
#[export] Instance emitsM_try {A} (m : M A) : EmitsM P m → EmitsM P (tryM m).
Proof. intros Hm s s' r. unfold tryM. destruct (m s) as [s1 r1] eqn:Hs. intros [= <- _]. by eapply Hm. Qed.
#[export] Instance emitsM_joined {A} e (m : M unit) : EmitsM P m → EmitsM P (throw_joined e m : M A).
Proof. intros Hm s s' r. unfold throw_joined. destruct (m s) as [s1 r1] eqn:Hs. intros [= <- _]. by eapply Hm. Qed.
#[export] Instance emitsM_lift {A} (m : H A) : EmitsH P m → EmitsM P (liftH m).
Proof. intros Hm s s' r. unfold liftH. destruct (m (st_hist s)) as [h1 r1] eqn:Hs. intros [= <- _]. by eapply Hm. Qed.

Lemma emitsH_emit ev : P ev → EmitsH P (emitH ev).
Proof. intros Hev h h' r [= <- _]. by apply extends_one. Qed.
Lemma emitsM_emit ev : P ev → EmitsM P (emitM ev).
Proof. intros Hev. unfold emitM. apply emitsM_lift. by apply emitsH_emit. Qed.

Lemma emitsH_if {A} (b : bool) (m1 m2 : H A) : EmitsH P m1 → EmitsH P m2 → EmitsH P (if b then m1 else m2).
Proof. by destruct b. Qed.
Lemma emitsM_if {A} (b : bool) (m1 m2 : M A) : EmitsM P m1 → EmitsM P m2 → EmitsM P (if b then m1 else m2).
Proof. by destruct b. Qed.
End Rules.

#[export] Hint Resolve emitsH_if emitsM_if : typeclass_instances.

(** Case analysis on whatever the computation tests, then instance search. *)
Ltac emits :=
  repeat first
    [ progress intros
    | apply _
    | apply emitsH_bind | apply emitsM_bind | apply emitsH_for | apply emitsM_for
    | apply emitsM_lift | apply emitsM_attempt | apply emitsM_try | apply emitsM_joined | apply emitsH_attempt
    | match goal with |- EmitsH _ (match ?x with _ => _ end) => destruct x end
    | match goal with |- EmitsM _ (match ?x with _ => _ end) => destruct x end ].

(** ** The journal's events *)

Section Facts.
Context (s0 : gmap string dirent) `{!executionStore} `{!StoreLaws s0} (w : JournalWorld).

(** A write of the record of execution [id]. *)
Definition record_write (id : string) (ev : event) : Prop :=
  ∃ rev r, ev = EvWrite (record_key id) (MkObject rev (PRecord r)) ∧ er_ID r = id.

#[export] Instance emitsH_read P key : EmitsH P (lift_read key).
Proof. intros h h' r [= <- _]. apply extends_refl. Qed.
#[export] Instance emitsH_list P : EmitsH P lift_list.
Proof. intros h h' r [= <- _]. apply extends_refl. Qed.
#[export] Instance emitsH_readRecord P id : EmitsH P (readExecutionRecord id).
Proof. unfold readExecutionRecord. emits. Qed.

Lemma publish_at_cases next rev h h' r : publish_at next rev h = (h', r) →
  (h' = h ∧ is_ok r = false) ∨
  (∃ rev', h' = EvWrite (record_key (er_ID next)) (MkObject rev' (PRecord next)) :: h ∧
     expected_revision (objects s0 h !! record_key (er_ID next)) = Some rev ∧ (∀ x, r = Ok x → x = rev')).
Proof.
  unfold publish_at. destruct (st_write _ _ _ _) as [h1 r1] eqn:Hw. intros [= <- <-].
  apply write_cases in Hw as [[-> Hr]|(rev' & -> & He & Hr)].
  - left. split; [done|]. by destruct r1.
  - right. exists rev'. split_and!; [done..|]. intros x Hx. apply Hr. by apply wrap_err_Ok in Hx.
Qed.

Lemma emitsH_publish_at P next rev :
  (∀ rev', P (EvWrite (record_key (er_ID next)) (MkObject rev' (PRecord next)))) → EmitsH P (publish_at next rev).
Proof.
  intros HP h h' r Hp. apply publish_at_cases in Hp as [[-> _]|(rev' & -> & _)]; [apply extends_refl|by apply extends_one].
Qed.

(** A publication keeps the session or installs the new record; the stored
    record can be ahead of the session's only after a reported failure. *)
Lemma publish_cases next s s' r : publish next s = (s', r) →
  (s' = s ∧ is_ok r = false) ∨
  (∃ rev', st_hist s' = EvWrite (record_key (er_ID next)) (MkObject rev' (PRecord next)) :: st_hist s ∧
     ((r = Ok tt ∧ st_record s' = next ∧ st_revision s' = rev') ∨
      (is_ok r = false ∧ st_record s' = st_record s ∧ st_revision s' = st_revision s))).
Proof.
  unfold publish. destruct (publish_at _ _ _) as [h1 r1] eqn:Hp.
  apply publish_at_cases in Hp as [[-> Hr]|(rev' & -> & _ & Hr)].
  - destruct r1; [done|]. intros [= <- <-]. left. by destruct s.
  - destruct r1 as [x|e]; intros [= <- <-]; right; exists rev'; (split; [done|]); [left|by right].
    by rewrite (Hr x).
Qed.

Lemma emitsM_publish P next :
  (∀ rev', P (EvWrite (record_key (er_ID next)) (MkObject rev' (PRecord next)))) → EmitsM P (publish next).
Proof.
  intros HP s s' r Hp. apply publish_cases in Hp as [[-> _]|(rev' & -> & _)]; [apply extends_refl|by apply extends_one].
Qed.

(** ** The stored record *)

Definition durable (id : string) (h : hist) : option ExecutionRecord :=
  match objects s0 h !! record_key id with
  | Some (Stored (MkObject _ (PRecord r))) => Some r
  | _ => None
  end.

(** The stored record of the session agrees with it on the nodes. *)
Definition synced (id : string) (s : session) : Prop :=
  er_ID (st_record s) = id ∧
  ∃ r, durable id (st_hist s) = Some r ∧ er_Nodes r = er_Nodes (st_record s) ∧ er_RecoveryAt r = er_RecoveryAt (st_record s).

Lemma durable_write id rev r h : durable id (EvWrite (record_key id) (MkObject rev (PRecord r)) :: h) = Some r.
Proof. unfold durable. simpl. by rewrite lookup_insert_eq. Qed.

Lemma durable_other id ev h : touches (record_key id) ev = false → durable id (ev :: h) = durable id h.
Proof. intros Ht. unfold durable. change (ev :: h) with ([ev] ++ h). rewrite objects_untouched; [done|]. by intros e ->%list_elem_of_singleton. Qed.

(** ** Safety at every moment *)

(** [I] holds after each of the events that lead from [h] to [h']. *)
Definition always (I : hist → Prop) (h h' : hist) : Prop := ∃ pre, h' = pre ++ h ∧ ∀ p1 p2, pre = p1 ++ p2 → I (p2 ++ h).

Lemma always_refl (I : hist → Prop) h : I h → always I h h.
Proof. intros. exists []. split; [done|]. intros [|] p2 Heq; [|done]. simpl in Heq. by subst. Qed.

Lemma always_one (I : hist → Prop) ev h : I h → I (ev :: h) → always I h (ev :: h).
Proof.
  intros Hh Hev. exists [ev]. split; [done|]. intros [|e p1] p2 Heq; simpl in Heq; [by subst|].
  injection Heq as -> Hnil. symmetry in Hnil. apply app_eq_nil in Hnil as [-> ->]. done.
Qed.

Lemma always_trans I h1 h2 h3 : always I h1 h2 → always I h2 h3 → always I h1 h3.
Proof.
  intros (a & -> & Ha) (b & -> & Hb). exists (b ++ a). split; [by rewrite (assoc_L (++))|].
  intros p1 p2 Heq. apply app_eq_app in Heq as (l & [[-> ->]|[-> ->]]).
  - rewrite <-(assoc_L (++)). by eapply Hb.
  - by eapply Ha.
Qed.

Lemma always_end (I : hist → Prop) h h' : always I h h' → I h'.
Proof. intros (p & -> & Hp). by apply (Hp [] p). Qed.

(** From [Pre], [m] keeps [I] at every moment and ends in [Post]. *)
Definition safe {A} (I : hist → Prop) (Pre : session → Prop) (m : M A) (Post : session → result A → Prop) : Prop :=
  ∀ s s' r, Pre s → I (st_hist s) → m s = (s', r) → Post s' r ∧ always I (st_hist s) (st_hist s').

Lemma triple_bind {A B} I Pre (m : M A) (f : A → M B) (Mid : A → session → Prop) Post :
  safe I Pre m (λ s r, match r with Ok a => Mid a s | Err e => Post s (Err e) end) →
  (∀ a, safe I (Mid a) (f a) Post) → safe I Pre (m ≫= f) Post.
Proof.
  intros Hm Hf s s' r Hs HI. unfold mbind, M_bind. destruct (m s) as [s1 [a|e]] eqn:Hms.
  - destruct (Hm _ _ _ Hs HI Hms) as [Hmid Hal]. intros Hk.
    destruct (Hf a s1 s' r Hmid (always_end _ _ _ Hal) Hk) as [HP Hal']. split; [done|by eapply always_trans].
  - intros [= <- <-]. by apply (Hm _ _ _ Hs HI) in Hms.
Qed.

Lemma safe_weaken {A} I (Pre Pre' : session → Prop) (m : M A) (Post Post' : session → result A → Prop) :
  (∀ s, Pre' s → Pre s) → (∀ s r, Post s r → Post' s r) → safe I Pre m Post → safe I Pre' m Post'.
Proof. intros H1 H2 Hm s s' r Hs HI Hr. destruct (Hm s s' r (H1 s Hs) HI Hr). auto. Qed.

Lemma safe_pure {A} I Pre (x : result A) Post : (∀ s, Pre s → Post s x) → safe I Pre (pureM x) Post.
Proof. intros HP s s' r Hs HI [= <- <-]. split; [by apply HP|by apply always_refl]. Qed.
Lemma triple_ret {A} I Pre (a : A) (Post : session → result A → Prop) : (∀ s, Pre s → Post s (Ok a)) → safe I Pre (mret a) Post.
Proof. intros HP s s' r Hs HI [= <- <-]. split; [by apply HP|by apply always_refl]. Qed.
Lemma safe_throw {A} I Pre e (Post : session → result A → Prop) : (∀ s, Pre s → Post s (Err e)) → safe I Pre (throwM e) Post.
Proof. intros HP s s' r Hs HI [= <- <-]. split; [by apply HP|by apply always_refl]. Qed.
Lemma safe_get I Pre (Post : session → result session → Prop) : (∀ s, Pre s → Post s (Ok s)) → safe I Pre getM Post.
Proof. intros HP s s' r Hs HI [= <- <-]. split; [by apply HP|by apply always_refl]. Qed.
End Facts.
