(* ===== verification/Target.v ===== *)
(** What executions coordinate on (src/internal/engine/execution_journal.go):
    the scope of a record, the backend target of a node, and the check that no
    state lives inside the artifact store.

    [executionDigest] is SHA-256 over a JSON encoding: the digests are
    functions of the value encoded. *)
From S2P Require Import Prelude GoLib Blueprint Module Graph.

Record TargetWorld := MkTargetWorld {
  tw_digest_lock : Lock → result string;
  tw_digest_path : string → result string;
  tw_digest_identity : gmap string string → result string;
  tw_environment : string → string → result string;
  tw_workspace_file : string → result (option string);
}.

Section Target.
Context `{MapOrder} (tw : TargetWorld) (g : Graph) (baseDir : string).

Definition executionScope (lock : option Lock) : result string :=
  match lock with
  | Some l => tw_digest_lock tw l
  | None => tw_digest_path tw (Clean baseDir)
  end.

Definition executionWorkspace (name : string) : result string :=
  workspace ← tw_environment tw name "TF_WORKSPACE";
  workspace ← (if decide (workspace = "") then
                 data ← wrap_err (λ err, Errorf "node.%s: reading selected workspace: %w" [FStr name; FErr err])
                          (tw_workspace_file tw name);
                 Ok (trim_space (default "" data))
               else Ok workspace);
  Ok (if decide (workspace = "") then "default" else workspace).

Definition location_fields : list string :=
  ["bucket"; "key"; "workspace_key_prefix"; "region"; "endpoint"; "address"; "path"; "hostname"; "organization";
   "resource_group_name"; "storage_account_name"; "container_name"; "prefix"].

(** The backend of a node and its configuration: the module's literals, then the blueprint's. *)
Definition node_backend (n : GNode) : string :=
  match n_Schema n with
  | Some s => if decide (s_Backend s ≠ "") then s_Backend s else "local"
  | None => "local"
  end.
Definition node_config (n : GNode) : gmap string string :=
  bn_BackendConfig (n_Node n) ∪ match n_Schema n with Some s => s_BackendConfig s | None => ∅ end.

Definition locate (config identity : gmap string string) (key : string) : gmap string string :=
  match config !! key with Some v => <[key := v]> identity | None => identity end.

Definition target_identity (n : GNode) : gmap string string :=
  foldl (locate (node_config n)) {[ "backend" := node_backend n ]} location_fields.

Definition executionTarget (name : string) : result string :=
  match g_Nodes g !! name with
  | None => Err (Errorf "node.%s: unknown node; select an expanded leaf" [FStr name])
  | Some n =>
    workspace ← executionWorkspace name;
    let identity := <["workspace" := workspace]> (target_identity n) in
    identity ← (if decide (node_backend n = "http" ∧ default "" (identity !! "address") = "")
                then address ← tw_environment tw name "TF_HTTP_ADDRESS"; Ok (<["address" := address]> identity)
                else Ok identity);
    tw_digest_identity tw identity
  end.

(** *** [openExecutionStore]: the check before the S3 store is opened *)

(** Reading a nil map gives the empty string; the blueprint's entry wins. *)
Definition state_field (n : GNode) (s : Schema) (field : string) : string :=
  match bn_BackendConfig (n_Node n) !! field with
  | Some v => v
  | None => default "" (s_BackendConfig s !! field)
  end.

Definition check_artifact_prefix (cfg : ExecutionConfig) (nn : string * GNode) : result unit :=
  let '(name, n) := nn in
  match n_Schema n with
  | None => Ok tt
  | Some s =>
    if decide (s_Backend s ≠ "s3") then Ok tt
    else let key := state_field n s "key" in
      if bool_decide (state_field n s "bucket" = xc_Bucket cfg)
         && (bool_decide (key = xc_Prefix cfg) || has_prefix key (xc_Prefix cfg +:+ "/"))
      then Err (Errorf "node.%s: state is inside execution.prefix; use a separate artifact prefix" [FStr name])
      else Ok tt
  end.

Inductive store_kind := LocalStore | S3Store (bucket prefix region : string).

Definition openExecutionStore (bp : Blueprint) : result store_kind :=
  let cfg := ExecutionSettings bp in
  if decide (xc_Bucket cfg = "") then Ok LocalStore
  else match bp_Lock bp with
       | None => Err (Errorf "execution: S3 storage requires a shared graph lock" [])
       | Some _ =>
         _ ← foldM (λ _ nn, check_artifact_prefix cfg nn) tt (range (g_Nodes g));
         Ok (S3Store (xc_Bucket cfg) (xc_Prefix cfg) (xc_Region cfg))
       end.

(** ** Facts *)

Lemma locate_agree c1 c2 i keys : (∀ k, k ∈ keys → c1 !! k = c2 !! k) →
  foldl (locate c1) i keys = foldl (locate c2) i keys.
Proof.
  revert i. induction keys as [|k keys IH]; intros i Hk; [done|]. simpl.
  assert (locate c1 i k = locate c2 i k) as -> by (unfold locate; by rewrite (Hk k) by (by left)).
  apply IH. intros k' Hk'. apply Hk. by right.
Qed.

(** The artifact store is opened only apart from every state it can see:
    with S3 storage no node of the graph keeps its state at or under the
    artifact prefix, and a graph lock is configured. *)
Theorem artifacts_apart_from_state bp bucket prefix region :
  openExecutionStore bp = Ok (S3Store bucket prefix region) →
  is_Some (bp_Lock bp) ∧ bucket ≠ "" ∧
  ∀ name n s, g_Nodes g !! name = Some n → n_Schema n = Some s → s_Backend s = "s3" →
    state_field n s "bucket" = bucket →
    state_field n s "key" ≠ prefix ∧ has_prefix (state_field n s "key") (prefix +:+ "/") = false.
Proof.
  unfold openExecutionStore. case_decide as Hbk; [done|]. destruct (bp_Lock bp) as [l|]; [|done].
  intros ([] & Hc & [= <- <- <-])%result_bind_Ok. split; [by eexists|]. split; [done|].
  intros name n s Hn Hs Hs3 Hbucket. rewrite foldM_checks in Hc. specialize (Hc (name, n)).
  rewrite range_elem in Hc. specialize (Hc Hn). unfold check_artifact_prefix in Hc. rewrite Hs in Hc.
  rewrite decide_False in Hc by (by intros Hx; apply Hx). rewrite bool_decide_true in Hc by done. simpl in Hc.
  destruct (bool_decide _) eqn:Hk; [done|]. apply bool_decide_eq_false in Hk. split; [done|].
  by destruct (has_prefix _ _).
Qed.
End Target.

(** Only the location of a node's state makes its coordination target: two
    graphs whose node agrees on the backend and on the location fields give it
    the same target, whatever credentials or other settings they hold. *)
Theorem target_location_only tw g g' name n n' :
  g_Nodes g !! name = Some n → g_Nodes g' !! name = Some n' → node_backend n' = node_backend n →
  (∀ k, k ∈ location_fields → node_config n' !! k = node_config n !! k) →
  executionTarget tw g' name = executionTarget tw g name.
Proof.
  intros Hn Hn' Hb Hc. unfold executionTarget. rewrite Hn, Hn'. unfold target_identity.
  by rewrite Hb, (locate_agree (node_config n') (node_config n)).
Qed.

(** ** Concrete inputs *)

Definition s3_node (key profile : string) : GNode :=
  MkGNode (MkNode ∅ ∅ "a" "./m" {[ "bucket" := "states"; "key" := key; "profile" := profile ]} None ∅ "" ∅ "")
    (Some (MkSchema false ∅ ∅ ∅ "s3" ∅ None true ∅)) None "/m" None ∅ "".
Definition one_node (n : GNode) : Graph := set_node empty_graph "a" n.
Definition sample_target_world : TargetWorld :=
  MkTargetWorld (λ _, Ok "lock") Ok (λ m, Ok (default "" (m !! "key"))) (λ _ _, Ok "") (λ _, Ok None).

Example target_location_only_witness :
  executionTarget sample_target_world (one_node (s3_node "k" "old")) "a"
  = executionTarget sample_target_world (one_node (s3_node "k" "new")) "a".
Proof.
  refine (target_location_only sample_target_world (one_node (s3_node "k" "new")) (one_node (s3_node "k" "old")) "a"
    (s3_node "k" "new") (s3_node "k" "old") _ _ _ _).
  - vm_compute. reflexivity.
  - vm_compute. reflexivity.
  - vm_compute. reflexivity.
  - refine (proj1 (Forall_forall (λ k, node_config (s3_node "k" "old") !! k = node_config (s3_node "k" "new") !! k)
      location_fields) _). refine (bool_decide_unpack _ _). vm_compute. exact I.
Defined.

Definition artifact_blueprint : Blueprint :=
  MkBlueprint (Some (MkExecutionConfig "states" "runs" "eu" 1 1)) [] [] [] [] None None
    (Some (MkLock (Some (MkS3Lock "states" "lock" "eu")))) [] "" None None.

Example artifacts_apart_from_state_witness :
  @openExecutionStore map_order_default (one_node (s3_node "envs/k" "p")) artifact_blueprint = Ok (S3Store "states" "runs" "eu")
  ∧ is_Some (bp_Lock artifact_blueprint).
Proof.
  assert (@openExecutionStore map_order_default (one_node (s3_node "envs/k" "p")) artifact_blueprint
    = Ok (S3Store "states" "runs" "eu")) as Ho by (vm_compute; reflexivity).
  split; [exact Ho|].
  exact (proj1 (@artifacts_apart_from_state map_order_default (one_node (s3_node "envs/k" "p")) artifact_blueprint
    "states" "runs" "eu" Ho)).
Defined.
