(* ===== verification/ApplyNode.v ===== *)
(** Applying one node's plan (src/internal/engine/prepared_plan.go,
    engine.go, plugins.go, internal/exec/lifecycle.go): plan, the gate, the
    answer of a human, the mutation, and what is read back after it, each with
    the journal transition around it.

    The runtime is a subprocess: starting one is an event, its answer a
    function of the history.  What contracts make of a plan or of outputs, and
    what a snapshot write does, are answers too. *)
From S2P Require Import Prelude GoLib Blueprint Module Graph Topo Selection Gate Execution Store Journal.

Definition StatusPlanned : string := "planned".
Definition StatusApplied : string := "applied".
Definition StatusUnchanged : string := "unchanged".
Definition StatusDestroyed : string := "destroyed".
Definition StatusFailed : string := "failed".
Definition StatusNotRun : string := "not run".

(** The fields of [Options] a node's step reads. *)
Record Options := MkOptions { op_RetainPlan : bool; op_AutoApprove : bool; op_Approve : Approve; op_Parallelism : Z }.

Definition parallelism (o : Options) : Z := if decide (op_Parallelism o < 1)%Z then 1%Z else op_Parallelism o.

Record NodeWorld (Outputs Evidence : Type) := MkNodeWorld {
  nw_cancelled : hist → option string;
  nw_env : hist → string → option string;
  nw_run : hist → string → string → option string;
  nw_plan : hist → string → result bool;
  nw_changes : hist → string → result (list ResourceChange);
  nw_outputs : hist → string → result Outputs;
  nw_line : hist → string → option (string * bool);
  nw_inspect : hist → string → result Evidence;
  nw_complete : string → Outputs → Evidence → Outputs;
  nw_contracts : hist → string → Outputs → result unit;
  nw_snapshot : hist → string → Outputs → result unit;
  nw_plan_file : hist → string → result string;
  nw_prepare : hist → string → result unit;
  nw_backend : hist → string → string;
}.
Arguments nw_cancelled {_ _}. Arguments nw_env {_ _}. Arguments nw_run {_ _}. Arguments nw_plan {_ _}.
Arguments nw_changes {_ _}. Arguments nw_outputs {_ _}. Arguments nw_line {_ _}. Arguments nw_inspect {_ _}.
Arguments nw_complete {_ _}. Arguments nw_contracts {_ _}. Arguments nw_snapshot {_ _}. Arguments nw_plan_file {_ _}.
Arguments nw_prepare {_ _}. Arguments nw_backend {_ _}.

Section Apply.
Context {Outputs Evidence : Type} `{executionStore} (w : JournalWorld) (nw : NodeWorld Outputs Evidence) (g : Graph).

(** An answer of the outside. *)
Definition ask {A} (f : hist → result A) : M A := λ s, (s, f (st_hist s)).
Definition fault_of (o : option string) : result unit := match o with Some e => Err (External e) | None => Ok tt end.

(** ** Subprocesses (exec/lifecycle.go, pluginRuntime of plugins.go) *)

Definition is_mutation (operation : string) : bool := mem operation ["apply"; "destroy"].

Definition hook_phase (operation when : string) : string :=
  if decide (operation = "init") then "node.init." +:+ when
  else if mem operation ["output"; "state pull"] then "node.read." +:+ when
  else "native.operation." +:+ when.

(** [errors.Join(ErrNotStarted, err)]. *)
Definition not_started (m : M unit) : M unit := λ s,
  let '(s', r) := m s in (s', wrap_err (λ err, Joined [Sentinel ErrNotStarted; err]) r).

Definition runtime_hook (name operation : string) : M unit :=
  _ ← Emit w "credential.acquire" name;
  if is_mutation operation then mret tt else Emit w (hook_phase operation "before") name.

Definition run {A} (name operation : string) (answer : hist → result A) : M A :=
  _ ← ask (λ h, fault_of (nw_env nw h name));
  _ ← not_started (runtime_hook name operation);
  _ ← emitM (EvRun name operation);
  r ← tryM (ask answer);
  _ ← (if is_mutation operation then mret tt else attemptM (Emit w (hook_phase operation "after") name));
  pureM r.

Definition PlanChanges (name : string) : M bool := run name "plan" (λ h, nw_plan nw h name).
Definition PlanChangeSet (name : string) : M (list ResourceChange) := run name "show" (λ h, nw_changes nw h name).
Definition ApplyPlan (name : string) : M unit := run name "apply" (λ h, fault_of (nw_run nw h name "apply")).
Definition Outputs_ (name : string) : M Outputs := run name "output" (λ h, nw_outputs nw h name).

(** ** The human's answer (engine.go) *)

Definition noApprovalError (name : string) : error :=
  Errorf "node %s has changes but %w; pass --auto-approve to apply without asking"
    [FStr name; FErr (Sentinel "no approval could be read")].

Definition approve (name : string) : M bool :=
  s ← getM;
  match nw_line nw (st_hist s) name with
  | None => throwM (noApprovalError name)
  | Some (line, failed) =>
    _ ← emitM (EvAsk name);
    _ ← ask (λ h, fault_of (nw_cancelled nw h));
    let answer := to_lower (trim_space line) in
    if bool_decide (answer = "") && failed then throwM (noApprovalError name)
    else mret (bool_decide (answer = "y") || bool_decide (answer = "yes"))
  end.

(** ** Plugin assessment of a plan (plugins.go) *)

Definition pluginPlan (name phase : string) : M unit :=
  if jw_plugins w then
    before ← ask (λ h, nw_plan_file nw h name);
    _ ← (if decide (phase = "node.mutation.admit")
         then (_ ← Emit w "admit" name; Emit w "recheck" name) else mret tt);
    _ ← Emit w phase name;
    current ← ask (λ h, nw_plan_file nw h name);
    if decide (current ≠ before)
    then throwM (Errorf "node.%s: native plan changed during plugin assessment; create a fresh plan" [FStr name])
    else mret tt
  else mret tt.

(** ** The prepared plan (prepared_plan.go) *)

Record preparedNodePlan := MkPreparedNodePlan { pl_name : string; pl_changed : bool; pl_verifyUnchanged : bool }.

Definition prepareNodePlan (name : string) : M preparedNodePlan :=
  _ ← ask (λ h, nw_prepare nw h name);
  r ← tryM (PlanChanges name);
  changed ← pureM (wrap_err (λ err, Errorf "plan: %w" [FErr err]) r);
  _ ← pluginPlan name "node.plan.ready";
  mret (MkPreparedNodePlan name changed false).

Definition record (p : preparedNodePlan) (phase : string) : M unit := transition w (pl_name p) phase "" "".

(** Outputs are completed, checked and published before the node is completed. *)
Definition publish_outputs (p : preparedNodePlan) (evidence : Evidence) (outputs : Outputs) : M Outputs :=
  let outputs := nw_complete nw (pl_name p) outputs evidence in
  _ ← ask (λ h, nw_contracts nw h (pl_name p) outputs);
  _ ← attemptM (Emit w "node.outputs.ready" (pl_name p));
  _ ← emitM (EvSnapshot (pl_name p));
  _ ← ask (λ h, nw_snapshot nw h (pl_name p) outputs);
  _ ← record p "completed";
  mret outputs.

Definition wrapM {A} (f : error → error) (m : M A) : M A := λ s, let '(s', r) := m s in (s', wrap_err f r).

Definition plan_unchanged (p : preparedNodePlan) (evidence : Evidence) : M (Outputs * string) :=
  outputs ← wrapM (λ err, Errorf "plan says unchanged but outputs are unreadable: %w" [FErr err]) (Outputs_ (pl_name p));
  outputs ← publish_outputs p evidence outputs;
  mret (outputs, StatusUnchanged).

(** The gate: what the plan does, the policy, the human, the plugins. *)
Definition plan_gate (p : preparedNodePlan) (opts : Options) : M unit :=
  changeSet ← wrapM (λ err, Errorf "reading plan: %w" [FErr err]) (PlanChangeSet (pl_name p));
  let level := approveFor g (pl_name p) (op_Approve opts) in
  let blocked := notPermitted changeSet level in
  _ ← (if decide (blocked ≠ []) then throwM (gateError g (pl_name p) level blocked) else mret tt);
  _ ← (if op_AutoApprove opts then mret tt
       else approved ← approve (pl_name p);
            if approved : bool then mret tt
            else throwM (Errorf "apply cancelled: node %s was not approved" [FStr (pl_name p)]));
  pluginPlan (pl_name p) "node.mutation.admit".

Definition plan_mutate (p : preparedNodePlan) (evidence : Evidence) : M (Outputs * string) :=
  _ ← record p "applying";
  r ← tryM (ApplyPlan (pl_name p));
  _ ← (match r with
       | Err err =>
         let phase := if error_is ErrNotStarted err then "failed" else "indeterminate" in
         throw_joined (Errorf "apply: %w" [FErr err]) (record p phase)
       | Ok _ => mret tt
       end);
  _ ← record p "applied";
  outputs ← wrapM (λ err, Errorf "reading outputs after apply: %w" [FErr err]) (Outputs_ (pl_name p));
  outputs ← publish_outputs p evidence outputs;
  mret (outputs, StatusApplied).

Definition applyPreparedPlan (p : preparedNodePlan) (opts : Options) : M (Outputs * string) :=
  evidence ← ask (λ h, nw_inspect nw h (pl_name p));
  if negb (pl_changed p) && negb (pl_verifyUnchanged p) then plan_unchanged p evidence
  else _ ← plan_gate p opts; plan_mutate p evidence.

(** [SupportsSavedPlan] over the backend type the initialized cache records. *)
Definition backend_type (name : string) : M string := ask (λ h, Ok (nw_backend nw h name)).
Definition plans_locally (backend : string) : bool := negb (mem backend ["remote"; "cloud"]).

Definition savedPlanUnsupportedError (name backend : string) : error :=
  Errorf "node %s uses the %q backend, which cannot produce a local plan; terragraph apply needs one to decide what may be applied. Use a state-storage backend (s3, gcs, azurerm, http, local) instead" [FStr name; FStr backend].
End Apply.
