(* ===== verification/Prepare.v ===== *)
(** Initializing a node (src/internal/engine/backend_context.go): the backend
    declaration a native initialization was made for, how it is remembered
    beside the node's cache, and how a later operation checks it.

    The context file's content is the last event that wrote it, or what the
    file held before the engine started. *)
From S2P Require Import Prelude GoLib Blueprint Module Graph Topo Selection Gate Execution Store Journal Target ApplyNode.

(** A context file: its two fields, or bytes that do not decode. *)
Inductive stored_context := StoredContext (declaration native : string) | Damaged.

Record PrepareWorld := MkPrepareWorld {
  pw_target : hist → TargetWorld;
  pw_digest_declaration : string → string → gmap string string → gmap string string → result string;
  pw_native : hist → string → result string;
  pw_prepare : hist → string → result unit;
  pw_write : hist → string → result unit;
  pw_read_fault : hist → string → bool;
  pw_before : string → option stored_context;
}.

(** The node's context file after [h]. *)
Fixpoint context_file (pw : PrepareWorld) (name : string) (h : hist) : option stored_context :=
  match h with
  | [] => pw_before pw name
  | EvContext n c :: h =>
    if decide (n = name) then Some (match c with Some (d, native) => StoredContext d native | None => Damaged end)
    else context_file pw name h
  | _ :: h => context_file pw name h
  end.

Section Prepare.
Context {Outputs Evidence : Type} `{!executionStore} `{!MapOrder}.
Context (w : JournalWorld) (nw : NodeWorld Outputs Evidence) (pw : PrepareWorld) (g : Graph).

(** A node outside the graph is a nil dereference no caller makes. *)
Definition backendDeclaration (h : hist) (name : string) : result string :=
  target ← executionTarget (pw_target pw h) g name;
  match g_Nodes g !! name with
  | None => Err (External "panic: nil pointer dereference")
  | Some n => pw_digest_declaration pw (n_Dir n) target
                (match n_Schema n with Some s => s_BackendConfig s | None => ∅ end) (bn_BackendConfig (n_Node n))
  end.

(** A failed write can leave the file damaged. *)
Definition rememberBackendContext (name : string) : M unit :=
  declaration ← ask (λ h, backendDeclaration h name);
  native ← ask (λ h, pw_native pw h name);
  _ ← ask (λ h, pw_prepare pw h name);
  written ← tryM (ask (λ h, pw_write pw h name));
  match written with
  | Ok _ => emitM (EvContext name (Some (declaration, native)))
  | Err err => _ ← emitM (EvContext name None); throwM err
  end.

Definition context_unavailable (name : string) : error :=
  Errorf "node.%s: initialized node context is unavailable; run terragraph run --node %s -- init first" [FStr name; FStr name].

Definition read_context (h : hist) (name : string) : result (string * string) :=
  if pw_read_fault pw h name then Err (context_unavailable name)
  else match context_file pw name h with
       | None => Err (context_unavailable name)
       | Some Damaged => Err (Errorf "node.%s: initialized context is invalid; run the node's explicit init command" [FStr name])
       | Some (StoredContext d native) => Ok (d, native)
       end.

Definition verifyBackendContext (h : hist) (name : string) : result unit :=
  '(stored_declaration, stored_native) ← read_context h name;
  declaration ← backendDeclaration h name;
  native ← pw_native pw h name;
  if bool_decide (stored_declaration ≠ declaration) || bool_decide (stored_native ≠ native)
  then Err (Errorf "node.%s: backend configuration or native cache changed; run the node's explicit init command before this operation" [FStr name])
  else Ok tt.

Definition initNode (name : string) : M unit :=
  _ ← run w nw name "init" (λ h, fault_of (nw_run nw h name "init"));
  rememberBackendContext name.
End Prepare.
