(* ===== verification/ApplyProofs.v ===== *)
(** Applying a node is crash safe and gated (for ApplyNode.v): the runtime's
    [apply] starts only after the gate, with the journal already saying
    [applying]; from then on the stored record needs recovery at every moment,
    until the outputs have been read back and published. *)
From S2P Require Import Prelude GoLib Blueprint Module Graph Topo Selection Gate Execution Store Journal JournalFacts ApplyNode.

(** ** A logic for one node's phase

    [Q p h]: what must hold at history [h] while the stored phase is [p]. *)

Definition neutral (name : string) (ev : event) : Prop := ev ≠ EvRun name "apply".

(** Only starting the runtime's [apply] can break it. *)
Class PhaseStable (name : string) (Q : string → hist → Prop) : Prop :=
  phase_stable p ev h : neutral name ev → Q p h → Q p (ev :: h).

Section Logic.
Context (s0 : gmap string dirent) `{!executionStore} `{!StoreLaws s0} (w : JournalWorld) (id name : string).
Context (Q : string → hist → Prop) `{!PhaseStable name Q}.

Definition Inv (h : hist) : Prop :=
  ∃ r p, durable s0 id h = Some r ∧ er_RecoveryAt r = None ∧ phase_of r name = Some p ∧ Q p h.

Definition persists (R : hist → Prop) : Prop := ∀ ev h, neutral name ev → R h → R (ev :: h).

Definition at_phase (p : string) (R : hist → Prop) (s : session) : Prop :=
  synced s0 id s ∧ er_RecoveryAt (st_record s) = None ∧ phase_of (st_record s) name = Some p ∧ R (st_hist s).

Lemma phase_of_nodes r r' n : er_Nodes r = er_Nodes r' → phase_of r n = phase_of r' n.
Proof. unfold phase_of, find_node. by intros ->. Qed.

Lemma at_Inv p R s : at_phase p R s → Inv (st_hist s) → Q p (st_hist s).
Proof.
  intros ((_ & r & Hr & Hn & _) & _ & Hp & _) (r' & p' & Hr' & _ & Hp' & HQ).
  rewrite Hr in Hr'. injection Hr' as <-. rewrite (phase_of_nodes _ _ _ Hn), Hp in Hp'. by injection Hp' as <-.
Qed.

Lemma neutral_write k o : neutral name (EvWrite k o).
Proof. done. Qed.

Lemma Inv_write r p rev h : phase_of r name = Some p → er_RecoveryAt r = None →
  Q p (EvWrite (record_key id) (MkObject rev (PRecord r)) :: h) →
  Inv (EvWrite (record_key id) (MkObject rev (PRecord r)) :: h).
Proof. intros. exists r, p. by rewrite durable_write. Qed.

(** Publishing a record with the same nodes leaves everything in place, even
    when the store reports a failure. *)
Lemma publish_keeps p R next s s' r : persists R → at_phase p R s → Inv (st_hist s) → er_ID next = id →
  er_Nodes next = er_Nodes (st_record s) → er_RecoveryAt next = er_RecoveryAt (st_record s) →
  publish next s = (s', r) → at_phase p R s' ∧ always Inv (st_hist s) (st_hist s').
Proof.
  intros HR Hat HI Hid Hnodes Hrec Hp. pose proof (at_Inv p R s Hat HI) as HQ.
  apply (publish_cases s0) in Hp as [[-> _]|(rev & Hh & Hs)]; [split; [done|by apply always_refl]|].
  rewrite Hid in Hh. destruct Hat as ((Hrid & _) & Hra & Hph & HRh).
  assert (phase_of next name = Some p) as Hpn by (by rewrite (phase_of_nodes _ _ _ Hnodes)).
  rewrite Hh. split.
  - destruct Hs as [(_ & Hsr & _)|(_ & Hsr & _)]; unfold at_phase, synced; rewrite Hsr, Hh.
    + split_and!; [done| |congruence|done|by apply HR]. exists next. by rewrite durable_write.
    + split_and!; [done| |done|done|by apply HR]. exists next. by rewrite durable_write.
  - apply always_one; [done|]. apply (Inv_write next p); [done|congruence|]. by apply phase_stable.
Qed.

(** Publishing the node's next phase. *)
Lemma publish_phase p p' R next s s' r : persists R → at_phase p R s → Inv (st_hist s) → er_ID next = id →
  er_RecoveryAt next = None → phase_of next name = Some p' →
  (∀ h ev, neutral name ev → R h → Q p h → Q p' (ev :: h)) →
  publish next s = (s', r) → (r = Ok tt → at_phase p' R s') ∧ always Inv (st_hist s) (st_hist s').
Proof.
  intros HR Hat HI Hid Hrec Hpn Hstep Hp. pose proof (at_Inv p R s Hat HI) as HQ.
  destruct Hat as ((Hrid & _) & _ & _ & HRh).
  apply (publish_cases s0) in Hp as [[-> Hr]|(rev & Hh & Hs)]; [split; [by intros ->|by apply always_refl]|].
  rewrite Hid in Hh. rewrite Hh. split.
  - intros ->. destruct Hs as [(_ & Hsr & _)|(Hr & _)]; [|done]. unfold at_phase, synced. rewrite Hsr, Hh.
    split_and!; [done| |done|done|by apply HR]. exists next. by rewrite durable_write.
  - apply always_one; [done|]. apply (Inv_write next p'); [done|done|]. by apply Hstep.
Qed.

(** ** Computations that leave the node's phase alone *)

Class Keeps {A} (m : M A) : Prop :=
  keeps p R : persists R → safe Inv (at_phase p R) m (λ s _, at_phase p R s).

#[export] Instance keeps_ret {A} (a : A) : Keeps (mret a).
Proof. intros p R HR. by apply triple_ret. Qed.
#[export] Instance keeps_throw {A} e : Keeps (throwM e : M A).
Proof. intros p R HR. by apply safe_throw. Qed.
#[export] Instance keeps_pure {A} (x : result A) : Keeps (pureM x).
Proof. intros p R HR. by apply safe_pure. Qed.
#[export] Instance keeps_get : Keeps getM.
Proof. intros p R HR. by apply safe_get. Qed.
#[export] Instance keeps_ask {A} (f : hist → result A) : Keeps (ask f).
Proof. intros p R HR s s' r Hs HI [= <- <-]. split; [done|by apply always_refl]. Qed.
#[export] Instance keeps_bind {A B} (m : M A) (f : A → M B) : Keeps m → (∀ a, Keeps (f a)) → Keeps (m ≫= f).
Proof.
  intros Hm Hf p R HR. apply (triple_bind _ _ _ _ (λ _, at_phase p R)); [|intros a; by apply Hf].
  eapply safe_weaken; [done| |by apply Hm]. by intros s [].
Qed.
#[export] Instance keeps_for {A} (f : A → M unit) l : (∀ a, Keeps (f a)) → Keeps (forM f l).
Proof. intros Hf. induction l; simpl; apply _. Qed.

(** A step that keeps the phase, and whose error ends the computation. *)
Lemma keeps_then {A B} p R (m : M A) (f : A → M B) Post : Keeps m → persists R → (∀ s e, Post s (Err e)) →
  (∀ a, safe Inv (at_phase p R) (f a) Post) → safe Inv (at_phase p R) (m ≫= f) Post.
Proof.
  intros Hm HR HE Hf. apply (triple_bind _ _ _ _ (λ _, at_phase p R)); [|done].
  eapply safe_weaken; [done| |by apply Hm]. by intros s [].
Qed.

(** The wrappers only change the result. *)
Lemma keeps_hist {A B} (m : M A) (m' : M B) : (∀ s, (m' s).1 = (m s).1) → Keeps m → Keeps m'.
Proof.
  intros Heq Hm p R HR s s' r Hs HI Hr. destruct (m s) as [s1 r1] eqn:Hms.
  assert (s' = s1) as -> by (specialize (Heq s); by rewrite Hr, Hms in Heq). by eapply (Hm p R HR s).
Qed.
#[export] Instance keeps_attempt (m : M unit) : Keeps m → Keeps (attemptM m).
Proof. apply keeps_hist. done. Qed.
#[export] Instance keeps_try {A} (m : M A) : Keeps m → Keeps (tryM m).
Proof. apply keeps_hist. intros s. unfold tryM. by destruct (m s). Qed.
#[export] Instance keeps_wrap {A} f (m : M A) : Keeps m → Keeps (wrapM f m).
Proof. apply keeps_hist. intros s. unfold wrapM. by destruct (m s). Qed.
#[export] Instance keeps_not_started (m : M unit) : Keeps m → Keeps (not_started m).
Proof. apply keeps_hist. intros s. unfold not_started. by destruct (m s). Qed.

Lemma at_emit p R R' ev s : touches (record_key id) ev = false → R' (ev :: st_hist s) →
  at_phase p R s → at_phase p R' (set_hist s (ev :: st_hist s)).
Proof.
  intros Ht HR' ((Hid & r & Hr & Hn & Hra) & Hrec & Hp & _). unfold at_phase, synced. simpl. split_and!; try done.
  exists r. by rewrite durable_other.
Qed.

Lemma Inv_emit p R ev s : touches (record_key id) ev = false → at_phase p R s → Q p (ev :: st_hist s) → Inv (ev :: st_hist s).
Proof.
  intros Ht ((Hid & r & Hr & Hn & Hra) & Hrec & Hp & _) HQ. exists r, p.
  rewrite durable_other by done. split_and!; [done|by rewrite Hra|by rewrite (phase_of_nodes _ _ _ Hn)|done].
Qed.

Lemma keeps_emit ev : neutral name ev → touches (record_key id) ev = false → Keeps (emitM ev).
Proof.
  intros Hn Ht p R HR s s' r Hs HI [= <- <-]. pose proof (at_Inv _ _ _ Hs HI) as HQ. split.
  - apply (at_emit p R); [done| |done]. apply HR; [done|]. by destruct Hs as (_ & _ & _ & ?).
  - apply always_one; [done|]. apply (Inv_emit p R); [done|done|]. by apply phase_stable.
Qed.

#[export] Instance keeps_recordPlugin call : Keeps (recordPlugin call).
Proof.
  intros p R HR s s' r Hs HI. unfold recordPlugin. unfold mbind, M_bind, getM. cbv iota beta.
  destruct (_ && _); [intros [= <- <-]; split; [done|by apply always_refl]|].
  intros Hp. eapply (publish_keeps p R); [done..| | | |exact Hp]; [|done|done]. by destruct Hs as ((? & _) & _).
Qed.

#[export] Instance keeps_Emit phase node : Keeps (Emit w phase node).
Proof.
  unfold Emit. destruct (jw_plugins w); [|apply _].
  apply keeps_bind; [apply _|intros s]. apply keeps_bind; [by apply keeps_emit|intros _]. apply _.
Qed.

Lemma keeps_if {A} (b : bool) (m1 m2 : M A) : Keeps m1 → Keeps m2 → Keeps (if b then m1 else m2).
Proof. by destruct b. Qed.

(** ** The node's own transitions *)

Lemma transition_safe p p' R code planID : persists R →
  (∀ h ev, neutral name ev → R h → Q p h → Q p' (ev :: h)) →
  safe Inv (at_phase p R) (transition w name p' code planID) (λ s r, r = Ok tt → at_phase p' R s).
Proof.
  intros HR Hstep s s' r Hs HI. unfold transition. unfold mbind, M_bind, getM. cbv iota beta.
  destruct (update_node name _ _) as [ns|] eqn:Hu; [|intros [= <- <-]; split; [done|by apply always_refl]].
  destruct (update_node_find name (set_phase p' code planID) (λ n, eq_refl) _ _ Hu) as [Hfind [n Hn]].
  set (next := with_updated _ _). destruct (publish next s) as [s1 r1] eqn:Hp.
  destruct (publish_phase p p' R next s s1 r1 HR Hs HI) as [Hok Hal]; [|  | |done|done|].
  - by destruct Hs as ((? & _) & _).
  - by destruct Hs as (_ & ? & _).
  - change (phase_of next name) with (en_Phase <$> find_node (with_nodes (st_record s) ns) name).
    by rewrite Hfind, Hn.
  - destruct r1 as [[]|e]; [|intros [= <- <-]; split; [done|exact Hal]].
    specialize (Hok eq_refl). destruct (mutation_finished _ _).
    + intros Hr. destruct (keeps_attempt (Emit w "node.mutation.finished" name) _ p' R HR s1 s' r Hok (always_end _ _ _ Hal) Hr) as [Hat Hal'].
      split; [done|by eapply always_trans].
    + intros [= <- <-]. by split.
Qed.
End Logic.

#[export] Hint Extern 3 (Keeps _ _ _ _ (emitM _)) => apply keeps_emit; [apply _|discriminate|reflexivity] : typeclass_instances.
#[export] Hint Resolve keeps_if : typeclass_instances.

(** ** The steps of a node *)

Section Node.
Context (s0 : gmap string dirent) {Outputs Evidence : Type} `{!executionStore} `{!StoreLaws s0}.
Context (w : JournalWorld) (nw : NodeWorld Outputs Evidence) (g : Graph) (id name : string) (h0 : hist).

(** The runtime's [apply] was started since [h0]. *)
Definition started (h : hist) : Prop := ∃ pre, h = pre ++ h0 ∧ EvRun name "apply" ∈ pre.

(** Outputs were read back after that. *)
Definition read_after (h : hist) : Prop := ∃ a b, h = a ++ b ∧ EvRun name "output" ∈ a ∧ started b.

Definition phase_safe (p : string) (h : hist) : Prop :=
  (started h → p ∈ unresolved_phases ∨ (p = "completed" ∧ read_after h)) ∧
  (∀ t, h = EvRun name "apply" :: t → started h → p = "applying").

Lemma started_neutral ev h : neutral name ev → started (ev :: h) → started h.
Proof.
  intros Hn ([|e pre] & Heq & Hin); [by apply elem_of_nil in Hin|]. injection Heq as -> ->.
  exists pre. split; [done|]. apply elem_of_cons in Hin as [Heq|?]; [by destruct Hn|done].
Qed.

Lemma started_cons ev h : started h → started (ev :: h).
Proof. intros (pre & -> & Hin). exists (ev :: pre). split; [done|by right]. Qed.

Lemma read_after_cons ev h : read_after h → read_after (ev :: h).
Proof. intros (a & b & -> & Ha & Hb). exists (ev :: a), b. split_and!; [done|by right|done]. Qed.

#[local] Instance phase_safe_stable : PhaseStable name phase_safe.
Proof.
  intros p ev h Hn [H1 _]. split.
  - intros Hs%started_neutral; [|done]. destruct (H1 Hs) as [?|[? ?]]; [by left|right; auto using read_after_cons].
  - intros t [= -> _]. by destruct Hn.
Qed.

Definition not_yet (h : hist) : Prop := (∃ pre, h = pre ++ h0) ∧ ¬ started h.

Lemma not_yet_persists : persists name not_yet.
Proof.
  intros ev h Hn [[pre ->] Hh]. split; [by exists (ev :: pre)|]. intros Hs. by apply Hh, (started_neutral ev).
Qed.
Lemma started_persists : persists name started.
Proof. intros ev h _. apply started_cons. Qed.
Lemma read_after_persists : persists name read_after.
Proof. intros ev h _. apply read_after_cons. Qed.
Lemma true_persists : persists name (λ _, True).
Proof. done. Qed.

Notation KeepsN := (Keeps s0 id name phase_safe).
Notation InvN := (Inv s0 id name phase_safe).
Notation at_ := (at_phase s0 id name).

Lemma step_not_yet p p' : ∀ h ev, neutral name ev → not_yet h → phase_safe p h → phase_safe p' (ev :: h).
Proof.
  intros h ev Hn Hh _. split.
  - intros Hs%started_neutral; [|done]. by destruct Hh as [_ []].
  - intros t [= -> _]. by destruct Hn.
Qed.

Lemma step_unresolved p p' R : p' ∈ unresolved_phases →
  ∀ h ev, neutral name ev → R h → phase_safe p h → phase_safe p' (ev :: h).
Proof. intros Hp h ev Hn _ _. split; [by left|]. intros t [= -> _]. by destruct Hn. Qed.

Lemma step_read p : ∀ h ev, neutral name ev → read_after h → phase_safe p h → phase_safe "completed" (ev :: h).
Proof. intros h ev Hn Hr _. split; [intros _; right; auto using read_after_cons|]. intros t [= -> _]. by destruct Hn. Qed.

#[local] Hint Resolve not_yet_persists started_persists read_after_persists : core.

#[local] Instance keeps_run {A} n op (answer : hist → result A) : EvRun n op ≠ EvRun name "apply" → KeepsN (run w nw n op answer).
Proof.
  intros Hne. unfold run, runtime_hook.
  repeat first [apply keeps_bind; [|intros]|apply keeps_if|apply _|apply keeps_emit; [apply _|exact Hne|reflexivity]].
Qed.

Lemma keeps_hook : KeepsN (not_started (runtime_hook w name "apply")).
Proof. unfold runtime_hook. apply keeps_not_started, keeps_bind; [apply _|intros]. apply keeps_if; apply _. Qed.

Lemma keeps_pluginPlan phase : KeepsN (pluginPlan w nw name phase).
Proof.
  unfold pluginPlan. apply keeps_if; [|apply _]. apply keeps_bind; [apply _|intros before].
  apply keeps_bind; [destruct (decide _); apply _|intros]. apply keeps_bind; [apply _|intros].
  apply keeps_bind; [apply _|intros current]. destruct (decide _); apply _.
Qed.

Lemma keeps_approve : KeepsN (approve nw name).
Proof.
  unfold approve. apply keeps_bind; [apply _|intros s]. destruct (nw_line nw _ _) as [[line failed]|]; [|apply _].
  apply keeps_bind; [apply _|intros]. apply keeps_bind; [apply _|intros]. apply keeps_if; apply _.
Qed.

Lemma keeps_gate p opts : pl_name p = name → KeepsN (plan_gate w nw g p opts).
Proof.
  intros Hp. unfold plan_gate. rewrite Hp. apply keeps_bind; [apply keeps_wrap, keeps_run; discriminate|intros cs].
  apply keeps_bind; [destruct (decide _); apply _|intros].
  apply keeps_bind; [apply keeps_if; [apply _|]|intros; apply keeps_pluginPlan].
  apply keeps_bind; [apply keeps_approve|intros b]. apply keeps_if; apply _.
Qed.

(** ** The mutation *)

(** Starting the runtime with the stored phase at [applying]. *)
Lemma apply_plan_safe : safe InvN (at_ "applying" not_yet) (ApplyPlan w nw name)
  (λ s r, match r with
          | Ok _ => at_ "applying" started s
          | Err e => at_ "applying" (λ _, True) s ∧ (error_is ErrNotStarted e = true → not_yet (st_hist s))
          end).
Proof.
  unfold ApplyPlan, run.
  eapply (triple_bind _ _ _ _ (λ _, at_ "applying" not_yet)).
  { intros s s' r Hs HI [= <- <-]. split; [|by apply always_refl].
    destruct (fault_of _); [done|]. destruct Hs as (? & ? & ? & ?). split; [by split_and!|done]. }
  intros _. eapply (triple_bind _ _ _ _ (λ _, at_ "applying" not_yet)).
  { eapply safe_weaken; [done| |apply keeps_hook; eauto]. intros s [[]|e]; [done|].
    intros (? & ? & ? & ?). split; [by split_and!|done]. }
  intros _. eapply (triple_bind _ _ _ _ (λ _, at_ "applying" started)).
  { intros s s' r Hs HI [= <- <-].
    assert (started (EvRun name "apply" :: st_hist s)) as Hst.
    { destruct Hs as (_ & _ & _ & [pre ->] & _). exists (EvRun name "apply" :: pre). split; [done|by left]. }
    split; [by eapply (at_emit s0 id name "applying" not_yet)|]. apply always_one; [done|].
    apply (Inv_emit s0 id name phase_safe "applying" not_yet); [done|done|]. split; [intros _; left; set_solver|done]. }
  intros _. eapply (triple_bind _ _ _ _ (λ r0 s, at_ "applying" started s ∧ ∀ e, r0 = Err e → error_is ErrNotStarted e = false)).
  { intros s s' r Hs HI [= <- <-]. split; [|by apply always_refl]. split; [done|].
    intros e. unfold fault_of. destruct (nw_run _ _ _ _); [by intros [= <-]|done]. }
  intros r0. eapply (triple_bind _ _ _ _ (λ _ s, at_ "applying" started s ∧ ∀ e, r0 = Err e → error_is ErrNotStarted e = false)).
  { intros s s' r Hs HI [= <- <-]. split; [done|by apply always_refl]. }
  intros _ s s' r [Hs He] HI [= <- <-]. split; [|by apply always_refl].
  destruct r0 as [[]|e]; [done|]. split; [by destruct Hs as (? & ? & ? & _)|]. intros Hns. by rewrite (He e) in Hns.
Qed.

(** Reading the outputs: the read is on record whenever there is an answer. *)
Lemma read_outputs_safe p R : persists name R → (∀ h, R h → started h) →
  safe InvN (at_ p R) (Outputs_ w nw name) (λ s r, match r with Ok _ => at_ p read_after s | Err _ => True end).
Proof.
  intros HR Hst. unfold Outputs_, run.
  eapply (triple_bind _ _ _ _ (λ _, at_ p R)).
  { intros s s' r Hs HI [= <- <-]. split; [|by apply always_refl]. by destruct (fault_of _). }
  intros _. eapply (triple_bind _ _ _ _ (λ _, at_ p R)).
  { eapply safe_weaken; [done| |].
    2: { unfold runtime_hook. apply keeps_not_started; [|exact HR]. apply keeps_bind; [apply _|intros]. apply keeps_if; apply _. }
    by intros s [[]|e]. }
  intros _. eapply (triple_bind _ _ _ _ (λ _, at_ p read_after)).
  { intros s s' r Hs HI [= <- <-]. pose proof (at_Inv _ _ _ _ _ _ _ Hs HI) as HQ. split.
    - apply (at_emit s0 id name p R); [done| |done]. exists [EvRun name "output"], (st_hist s).
      split; [done|]. split; [by left|]. apply Hst. by destruct Hs as (_ & _ & _ & ?).
    - apply always_one; [done|]. apply (Inv_emit s0 id name phase_safe p R); [done|done|]. by apply phase_safe_stable. }
  intros _. eapply safe_weaken; [done| |].
  2: { refine (keeps_bind s0 id name phase_safe _ _ _ _ p read_after read_after_persists). }
  by intros s [].
Qed.

Lemma publish_outputs_safe p (pl : preparedNodePlan) evidence outputs R : pl_name pl = name → persists name R →
  (∀ h ev, neutral name ev → R h → phase_safe p h → phase_safe "completed" (ev :: h)) →
  safe InvN (at_ p R) (publish_outputs w nw pl evidence outputs) (λ _ _, True).
Proof.
  intros Hname HR Hstep. unfold publish_outputs, record. rewrite Hname.
  do 4 (apply (keeps_then s0 id name phase_safe); [apply _|exact HR|done|intros _]).
  eapply (triple_bind _ _ _ _ (λ _ _, True)); [|intros _ s s' r _ HI [= <- <-]; split; [done|by apply always_refl]].
  eapply safe_weaken; [done| |by apply (transition_safe s0 w id name phase_safe p "completed" R)]. by intros s [].
Qed.

Lemma wrapM_safe {A} I Pre f (m : M A) (Post : session → result A → Prop) (Post' : session → result A → Prop) :
  (∀ s a, Post s (Ok a) → Post' s (Ok a)) → (∀ s e, Post' s (Err e)) → safe I Pre m Post → safe I Pre (wrapM f m) Post'.
Proof.
  intros HOk HErr Hm s s' r Hs HI. unfold wrapM. destruct (m s) as [s1 r1] eqn:Hr. intros [= <- <-].
  destruct (Hm s s1 r1 Hs HI Hr) as [HP Hal]. split; [|done]. destruct r1; [by apply HOk|apply HErr].
Qed.

Lemma plan_unchanged_safe p pl evidence : pl_name pl = name →
  safe InvN (at_ p not_yet) (plan_unchanged w nw pl evidence) (λ _ _, True).
Proof.
  intros Hname. unfold plan_unchanged. rewrite Hname.
  apply (keeps_then s0 id name phase_safe); [apply keeps_wrap, keeps_run; discriminate|auto|done|intros outputs].
  eapply (triple_bind _ _ _ _ (λ _ _, True)); [|intros a s s' r _ HI [= <- <-]; split; [done|by apply always_refl]].
  eapply safe_weaken; [done| |apply (publish_outputs_safe p); [done|auto|apply step_not_yet]]. by intros s [].
Qed.

(** The runtime's [apply] and the transitions around it. *)
Lemma plan_mutate_safe p pl evidence : pl_name pl = name →
  safe InvN (at_ p not_yet) (plan_mutate w nw pl evidence) (λ _ _, True).
Proof.
  intros Hname. unfold plan_mutate, record. rewrite Hname.
  eapply (triple_bind _ _ _ _ (λ _, at_ "applying" not_yet)).
  { eapply safe_weaken; [done| |apply (transition_safe s0 w id name phase_safe p "applying" not_yet); [auto|apply step_not_yet]].
    intros s [[]|e]; auto. }
  intros _. eapply (triple_bind _ _ _ _ (λ r s, match r with
      | Ok _ => at_ "applying" started s
      | Err e => at_ "applying" (λ _, True) s ∧ (error_is ErrNotStarted e = true → not_yet (st_hist s))
      end)).
  { intros s s' r Hs HI. unfold tryM. destruct (ApplyPlan w nw name s) as [s1 r1] eqn:Hr. intros [= <- <-].
    by apply (apply_plan_safe s s1 r1). }
  intros [[]|err].
  - apply (keeps_then s0 id name phase_safe); [apply _|auto|done|intros _].
    eapply (triple_bind _ _ _ _ (λ _, at_ "applied" started)).
    { eapply safe_weaken; [done| |apply (transition_safe s0 w id name phase_safe "applying" "applied" started);
        [auto|apply step_unresolved; set_solver]]. intros s [[]|e]; auto. }
    intros _. eapply (triple_bind _ _ _ _ (λ _, at_ "applied" read_after)).
    { eapply wrapM_safe; [| |apply (read_outputs_safe "applied" started); auto]; done. }
    intros outputs. eapply (triple_bind _ _ _ _ (λ _ _, True)); [|intros a s s' r _ HI [= <- <-]; split; [done|by apply always_refl]].
    eapply safe_weaken; [done| |apply (publish_outputs_safe "applied"); [done|auto|apply step_read]]. by intros s [].
  - intros s s' r [Hs Hns] HI. unfold mbind, M_bind, throw_joined.
    destruct (transition _ _ _ _ _ s) as [s1 r1] eqn:Ht. intros [= <- <-]. split; [done|].
    destruct (error_is ErrNotStarted err) eqn:He.
    + eapply (transition_safe s0 w id name phase_safe "applying" "failed" not_yet); [auto|apply step_not_yet| |done|exact Ht].
      destruct Hs as (? & ? & ? & _). split_and!; [done..|by apply Hns].
    + eapply (transition_safe s0 w id name phase_safe "applying" "indeterminate" (λ _, True));
        [done|apply step_unresolved; set_solver|exact Hs|done|exact Ht].
Qed.

Lemma applyPreparedPlan_safe p pl opts : pl_name pl = name →
  safe InvN (at_ p not_yet) (applyPreparedPlan w nw g pl opts) (λ _ _, True).
Proof.
  intros Hname. unfold applyPreparedPlan.
  apply (keeps_then s0 id name phase_safe); [apply _|auto|done|intros evidence].
  destruct (negb _ && negb _); [by apply plan_unchanged_safe|].
  apply (keeps_then s0 id name phase_safe); [by apply keeps_gate|auto|done|intros _]. by apply plan_mutate_safe.
Qed.
End Node.

(** ** The gate *)

Section GateProofs.
Context (s0 : gmap string dirent) {Outputs Evidence : Type} `{!executionStore} `{!StoreLaws s0}.
Context (w : JournalWorld) (nw : NodeWorld Outputs Evidence) (g : Graph).

Lemma M_bind_Ok {A B} (m : M A) (f : A → M B) s s' b : (m ≫= f) s = (s', Ok b) →
  ∃ s1 a, m s = (s1, Ok a) ∧ f a s1 = (s', Ok b).
Proof. unfold mbind, M_bind. destruct (m s) as [s1 [a|e]]; [by exists s1, a|done]. Qed.

Section Quiet.
Context (P : event → Prop) (Hwrite : ∀ k o, P (EvWrite k o)) (Hplugin : ∀ ph n, P (EvPlugin ph n)).

Lemma emitsM_recordPlugin call : EmitsM P (recordPlugin call).
Proof.
  unfold recordPlugin. apply emitsM_bind; [apply _|intros s]. apply emitsM_if; [apply _|].
  apply (emitsM_publish s0). intros. apply Hwrite.
Qed.
Lemma emitsM_Emit phase node : EmitsM P (Emit w phase node).
Proof.
  unfold Emit. apply emitsM_if; [|apply _]. apply emitsM_bind; [apply _|intros s].
  apply emitsM_bind; [apply emitsM_emit, Hplugin|intros]. apply emitsM_bind; [|intros; apply _].
  apply emitsM_for. apply emitsM_recordPlugin.
Qed.
Lemma emitsM_transition name phase code planID : EmitsM P (transition w name phase code planID).
Proof.
  unfold transition. apply emitsM_bind; [apply _|intros s]. destruct (update_node _ _ _); [|apply _].
  apply emitsM_bind; [apply (emitsM_publish s0); intros; apply Hwrite|intros].
  apply emitsM_if; [apply emitsM_attempt, emitsM_Emit|apply _].
Qed.
Lemma emitsM_ask {A} (f : hist → result A) : EmitsM P (ask f).
Proof. intros s s' r [= <- _]. apply extends_refl. Qed.
Lemma emitsM_not_started (m : M unit) : EmitsM P m → EmitsM P (not_started m).
Proof. intros Hm s s' r. unfold not_started. destruct (m s) as [s1 r1] eqn:Hs. intros [= <- _]. by eapply Hm. Qed.
Lemma emitsM_wrap {A} f (m : M A) : EmitsM P m → EmitsM P (wrapM f m).
Proof. intros Hm s s' r. unfold wrapM. destruct (m s) as [s1 r1] eqn:Hs. intros [= <- _]. by eapply Hm. Qed.
Lemma emitsM_hook name op : EmitsM P (not_started (runtime_hook w name op)).
Proof.
  apply emitsM_not_started. unfold runtime_hook. apply emitsM_bind; [apply emitsM_Emit|intros].
  apply emitsM_if; [apply _|apply emitsM_Emit].
Qed.
Lemma emitsM_run {A} name op (answer : hist → result A) : P (EvRun name op) → EmitsM P (run w nw name op answer).
Proof.
  intros HP. unfold run. apply emitsM_bind; [apply emitsM_ask|intros]. apply emitsM_bind; [apply emitsM_hook|intros].
  apply emitsM_bind; [by apply emitsM_emit|intros]. apply emitsM_bind; [apply emitsM_try, emitsM_ask|intros].
  apply emitsM_bind; [|intros; apply _]. apply emitsM_if; [apply _|apply emitsM_attempt, emitsM_Emit].
Qed.
Lemma emitsM_pluginPlan name phase : EmitsM P (pluginPlan w nw name phase).
Proof.
  unfold pluginPlan. apply emitsM_if; [|apply _]. apply emitsM_bind; [apply emitsM_ask|intros before].
  apply emitsM_bind; [destruct (decide _); [apply emitsM_bind; intros; apply emitsM_Emit|apply _]|intros].
  apply emitsM_bind; [apply emitsM_Emit|intros]. apply emitsM_bind; [apply emitsM_ask|intros current].
  destruct (decide _); apply _.
Qed.
Lemma emitsM_approve name : P (EvAsk name) → EmitsM P (approve nw name).
Proof.
  intros HP. unfold approve. apply emitsM_bind; [apply _|intros s]. destruct (nw_line _ _ _) as [[line failed]|]; [|apply _].
  apply emitsM_bind; [by apply emitsM_emit|intros]. apply emitsM_bind; [apply emitsM_ask|intros]. apply emitsM_if; apply _.
Qed.
Lemma emitsM_gate p opts : P (EvRun (pl_name p) "show") → P (EvAsk (pl_name p)) → EmitsM P (plan_gate w nw g p opts).
Proof.
  intros HS HA. unfold plan_gate. apply emitsM_bind; [by apply emitsM_wrap, emitsM_run|intros cs].
  apply emitsM_bind; [destruct (decide _); apply _|intros]. apply emitsM_bind; [|intros; apply emitsM_pluginPlan].
  apply emitsM_if; [apply _|]. apply emitsM_bind; [by apply emitsM_approve|intros b]. apply emitsM_if; apply _.
Qed.
Lemma emitsM_publish_outputs p evidence outputs : P (EvSnapshot (pl_name p)) → EmitsM P (publish_outputs w nw p evidence outputs).
Proof.
  intros HP. unfold publish_outputs, record. apply emitsM_bind; [apply emitsM_ask|intros].
  apply emitsM_bind; [apply emitsM_attempt, emitsM_Emit|intros]. apply emitsM_bind; [by apply emitsM_emit|intros].
  apply emitsM_bind; [apply emitsM_ask|intros]. apply emitsM_bind; [apply emitsM_transition|intros; apply _].
Qed.
Lemma emitsM_unchanged p evidence : P (EvSnapshot (pl_name p)) → P (EvRun (pl_name p) "output") →
  EmitsM P (plan_unchanged w nw p evidence).
Proof.
  intros HS HO. unfold plan_unchanged. apply emitsM_bind; [by apply emitsM_wrap, emitsM_run|intros].
  apply emitsM_bind; [by apply emitsM_publish_outputs|intros; apply _].
Qed.
End Quiet.

Notation neutralE name := (neutral name).

Lemma emits_nothing {A} P (m : M A) s s' r : EmitsM P m → m s = (s', r) → extends P (st_hist s) (st_hist s').
Proof. intros Hm. apply Hm. Qed.

(** [run] answers at a moment of its own. *)
Lemma run_Ok {A} name op (answer : hist → result A) s s' a : run w nw name op answer s = (s', Ok a) →
  ∃ h, answer h = Ok a ∧ extends (λ _, True) (st_hist s) h ∧ extends (λ _, True) h (st_hist s').
Proof.
  unfold run. intros (s1 & ? & H1 & Hr)%M_bind_Ok. apply M_bind_Ok in Hr as (s2 & ? & H2 & Hr).
  apply M_bind_Ok in Hr as (s3 & ? & H3 & Hr). apply M_bind_Ok in Hr as (s4 & r0 & H4 & Hr).
  apply M_bind_Ok in Hr as (s5 & ? & H5 & Hr). injection Hr as <- Hra. injection H4 as <- Hans.
  exists (st_hist s3). split; [congruence|]. split.
  - eapply extends_trans; [eapply (emits_nothing (λ _, True) _ _ _ _ (emitsM_ask _ _) H1)|].
    eapply extends_trans; [eapply (emits_nothing (λ _, True) _ _ _ _ (emitsM_hook _ _ _ _ _) H2)|].
    eapply (emits_nothing (λ _, True) _ _ _ _ (emitsM_emit _ _ _) H3).
  - eapply (emits_nothing (λ _, True)); [|exact H5]. apply emitsM_if; [apply _|]. by apply emitsM_attempt, emitsM_Emit.
    Unshelve. all: done.
Qed.

Definition between (h1 h h2 : hist) : Prop := extends (λ _, True) h1 h ∧ extends (λ _, True) h h2.

Lemma extends_any P h h' : extends P h h' → extends (λ _, True) h h'.
Proof. apply extends_mono. done. Qed.

Lemma between_weaken h1 h1' h h2' h2 : extends (λ _, True) h1 h1' → between h1' h h2' → extends (λ _, True) h2' h2 → between h1 h h2.
Proof. intros H1 [H2 H3] H4. split; by eapply extends_trans. Qed.

(** The answer a human gave. *)
Definition confirmed (name : string) (h : hist) : Prop :=
  ∃ line failed, nw_line nw h name = Some (line, failed) ∧ to_lower (trim_space line) ∈ ["y"; "yes"].

Lemma approve_Ok name s s' : approve nw name s = (s', Ok true) → confirmed name (st_hist s).
Proof.
  unfold approve. intros (s1 & s2 & H1 & Hr)%M_bind_Ok. injection H1 as <- <-.
  destruct (nw_line nw (st_hist s) name) as [[line failed]|] eqn:Hl; [|done].
  apply M_bind_Ok in Hr as (s3 & ? & _ & Hr). apply M_bind_Ok in Hr as (s4 & ? & _ & Hr).
  destruct (bool_decide _ && _); [done|]. injection Hr as _ Hb. exists line, failed. split; [done|].
  apply orb_true_iff in Hb as [Hb|Hb]; apply bool_decide_eq_true in Hb as ->; set_solver.
Qed.

Lemma gate_Ok p opts s s' : plan_gate w nw g p opts s = (s', Ok tt) →
  (∃ h cs, between (st_hist s) h (st_hist s') ∧ nw_changes nw h (pl_name p) = Ok cs ∧
     notPermitted cs (approveFor g (pl_name p) (op_Approve opts)) = []) ∧
  (op_AutoApprove opts = true ∨ ∃ h, between (st_hist s) h (st_hist s') ∧ confirmed (pl_name p) h).
Proof.
  unfold plan_gate. intros (s1 & cs & H1 & Hr)%M_bind_Ok. apply M_bind_Ok in Hr as (s2 & ? & H2 & Hr).
  apply M_bind_Ok in Hr as (s3 & ? & H3 & H4).
  assert (extends (λ _, True) (st_hist s1) (st_hist s2)) as E2.
  { eapply (emits_nothing (λ _, True)); [|exact H2]. destruct (decide _); apply _. }
  assert (extends (λ _, True) (st_hist s2) (st_hist s3)) as E3.
  { eapply (emits_nothing (λ _, True)); [|exact H3]. apply emitsM_if; [apply _|].
    apply emitsM_bind; [by apply emitsM_approve|intros b]. apply emitsM_if; apply _. }
  assert (extends (λ _, True) (st_hist s3) (st_hist s')) as E4.
  { eapply (emits_nothing (λ _, True)); [|exact H4]. by apply emitsM_pluginPlan. }
  assert (extends (λ _, True) (st_hist s) (st_hist s1)) as E1.
  { eapply (emits_nothing (λ _, True)); [|exact H1]. by apply emitsM_wrap, emitsM_run. }
  split.
  - unfold wrapM in H1. destruct (PlanChangeSet w nw (pl_name p) s) as [s1' r1] eqn:Hrun. injection H1 as -> Hw.
    apply wrap_err_Ok in Hw as ->. apply run_Ok in Hrun as (h & Ha & Hb1 & Hb2). exists h, cs. split; [split; [exact Hb1|]|split; [exact Ha|]].
    + exact (extends_trans _ _ _ _ Hb2 (extends_trans _ _ _ _ E2 (extends_trans _ _ _ _ E3 E4))).
    + destruct (decide (notPermitted cs (approveFor g (pl_name p) (op_Approve opts)) = [])) as [|Hne]; [done|]. by rewrite decide_True in H2.
  - destruct (op_AutoApprove opts); [by left|]. right. apply M_bind_Ok in H3 as (s5 & b & Ha & Hb).
    destruct b; [|done]. apply approve_Ok in Ha. injection Hb as ->. exists (st_hist s2). split; [split|done].
    + exact (extends_trans _ _ _ _ E1 E2).
    + exact (extends_trans _ _ _ _ E3 E4).
Qed.

(** The one place the runtime's [apply] can start. *)
Definition one_apply (name : string) (h h' : hist) : Prop :=
  extends (neutral name) h h' ∨
  ∃ h1, extends (neutral name) h h1 ∧ extends (neutral name) (EvRun name "apply" :: h1) h'.

Lemma one_apply_pre name h1 h2 h3 : extends (neutral name) h1 h2 → one_apply name h2 h3 → one_apply name h1 h3.
Proof.
  intros H1 [H2|(h & H2 & H3)]; [left; by eapply extends_trans|right]. exists h. split; [by eapply extends_trans|done].
Qed.
Lemma one_apply_post name h1 h2 h3 : one_apply name h1 h2 → extends (neutral name) h2 h3 → one_apply name h1 h3.
Proof.
  intros [H2|(h & H2 & H3)] H1; [left; by eapply extends_trans|right]. exists h. split; [done|by eapply extends_trans].
Qed.

Lemma ApplyPlan_once name s s' r : ApplyPlan w nw name s = (s', r) → one_apply name (st_hist s) (st_hist s').
Proof.
  unfold ApplyPlan, run. unfold mbind, M_bind.
  destruct (ask _ s) as [s1 [?|?]] eqn:H1; [|intros [= <- _]; injection H1 as <- _; left; apply extends_refl].
  injection H1 as <- _. destruct (not_started _ s) as [s2 r2] eqn:H2.
  eapply (emits_nothing (neutral name)) in H2; [|by apply emitsM_hook].
  destruct r2 as [[]|e]; [|intros [= <- _]; by left]. cbn -[neutral]. intros [= <- _]. right. exists (st_hist s2).
  split; [done|]. cbn. apply extends_refl.
Qed.

Lemma plan_mutate_once p evidence s s' r : plan_mutate w nw p evidence s = (s', r) →
  one_apply (pl_name p) (st_hist s) (st_hist s').
Proof.
  unfold plan_mutate. set (rest := λ r : result unit, _ : M (Outputs * string)). unfold mbind, M_bind at 1.
  destruct (record w p "applying" s) as [s1 r1] eqn:H1.
  eapply (emits_nothing (neutral (pl_name p))) in H1; [|by apply emitsM_transition].
  destruct r1 as [[]|e]; [|intros [= <- _]; by left]. intros Hr. eapply one_apply_pre; [exact H1|]. clear H1.
  assert (∀ r, EmitsM (neutral (pl_name p)) (rest r)) as Hrest.
  { intros r0. unfold rest, record. apply emitsM_bind; [destruct r0; [apply _|apply emitsM_joined; by apply emitsM_transition]|intros].
    apply emitsM_bind; [by apply emitsM_transition|intros]. apply emitsM_bind; [by apply emitsM_wrap, emitsM_run|intros].
    apply emitsM_bind; [by apply emitsM_publish_outputs|intros; apply _]. }
  unfold M_bind, tryM in Hr. destruct (ApplyPlan w nw (pl_name p) s1) as [s2 r2] eqn:H2.
  eapply one_apply_post; [by eapply ApplyPlan_once|]. by eapply Hrest.
Qed.
End GateProofs.

(** ** Properties *)

Section Properties.
Context (s0 : gmap string dirent) {Outputs Evidence : Type} `{!executionStore} `{!StoreLaws s0}.
Context (w : JournalWorld) (nw : NodeWorld Outputs Evidence) (g : Graph).

(** C1: applying a node is crash safe.  At every moment after the runtime's
    [apply] was started, whatever the store, the plugins, the human and the
    runtime answer, the stored record of the execution needs recovery, or the
    node is completed and its outputs were read back after the mutation; and
    the record already said [applying] when the runtime was started. *)
Theorem apply_crash_safe id p opts s s' r :
  synced s0 id s → er_RecoveryAt (st_record s) = None → is_Some (phase_of (st_record s) (pl_name p)) →
  applyPreparedPlan w nw g p opts s = (s', r) →
  ∃ pre, st_hist s' = pre ++ st_hist s ∧
    ∀ p1 p2, pre = p1 ++ p2 → EvRun (pl_name p) "apply" ∈ p2 →
      ∃ rec, durable s0 id (p2 ++ st_hist s) = Some rec ∧
        (executionNeedsRecovery rec = true ∨
         (phase_of rec (pl_name p) = Some "completed" ∧
          ∃ a b, p2 = a ++ b ∧ EvRun (pl_name p) "output" ∈ a ∧ EvRun (pl_name p) "apply" ∈ b)) ∧
        (∀ t, p2 = EvRun (pl_name p) "apply" :: t → phase_of rec (pl_name p) = Some "applying").
Proof.
  intros Hs Hrec [p0 Hp0] Hr.
  assert (not_yet (pl_name p) (st_hist s) (st_hist s)) as Hno.
  { split; [by exists []|]. intros (pre & Heq & Hin). apply (app_inv_tail _ [] pre) in Heq as <-.
    by apply elem_of_nil in Hin. }
  assert (at_phase s0 id (pl_name p) p0 (not_yet (pl_name p) (st_hist s)) s) as Hat by (split_and!; try apply Hs; done).
  assert (Inv s0 id (pl_name p) (phase_safe (pl_name p) (st_hist s)) (st_hist s)) as HI.
  { destruct Hs as (_ & r0 & Hd & Hn & Hra). exists r0, p0. split; [done|]. split; [congruence|].
    split; [by rewrite (phase_of_nodes _ _ _ Hn)|]. destruct Hno as [_ Hno]. split; [intros Hst; by destruct Hno|].
    intros t _ Hst. by destruct Hno. }
  destruct (applyPreparedPlan_safe s0 w nw g id (pl_name p) (st_hist s) p0 p opts eq_refl s s' r Hat HI Hr) as [_ (pre & Hpre & Hal)].
  exists pre. split; [exact Hpre|]. intros p1 p2 Heq Hin. destruct (Hal p1 p2 Heq) as (rec & ph & Hd & Hra & Hph & H1 & H2).
  assert (started (pl_name p) (st_hist s) (p2 ++ st_hist s)) as Hst by (by exists p2).
  exists rec. split; [exact Hd|]. split.
  - destruct (H1 Hst) as [Hu|[-> (a & b & Hab & Ha & c & -> & Hc)]].
    + left. by eapply needs_recovery_node.
    + right. split; [done|]. exists a, c. rewrite (assoc_L (++)) in Hab. by apply app_inv_tail in Hab.
  - intros t ->. rewrite Hph. f_equal. by apply (H2 (t ++ st_hist s)).
Qed.

(** C3: the runtime's [apply] starts at most once, and only for a plan that
    reports changes (or a saved one), after the plan was read and every action
    in it is permitted at the node's approve level, and after a human answered
    yes unless approval is automatic. *)
Theorem apply_gated p opts s s' r pre :
  applyPreparedPlan w nw g p opts s = (s', r) → st_hist s' = pre ++ st_hist s →
  EvRun (pl_name p) "apply" ∈ pre →
  (pl_changed p = true ∨ pl_verifyUnchanged p = true) ∧
  ∃ after before, pre = after ++ EvRun (pl_name p) "apply" :: before ∧
    EvRun (pl_name p) "apply" ∉ after ∧ EvRun (pl_name p) "apply" ∉ before ∧
    (∃ h cs, between (st_hist s) h (before ++ st_hist s) ∧ nw_changes nw h (pl_name p) = Ok cs ∧
       ∀ c a, c ∈ cs → a ∈ rc_Actions c → Permits (approveFor g (pl_name p) (op_Approve opts)) a = true) ∧
    (op_AutoApprove opts = true ∨ ∃ h, between (st_hist s) h (before ++ st_hist s) ∧ confirmed nw (pl_name p) h).
Proof.
  intros Hr Hpre Hin. set (name := pl_name p) in *.
  assert (∀ h h' q, extends (neutral name) h h' → h' = q ++ h → EvRun name "apply" ∉ q) as Hneutral.
  { intros h h' q (q' & -> & Hq) Heq Hq'. apply app_inv_tail in Heq as ->. rewrite Forall_forall in Hq.
    by apply (Hq _ Hq'). }
  unfold applyPreparedPlan in Hr. unfold mbind, M_bind at 1 in Hr. destruct (ask _ s) as [s1 [ev|e]] eqn:H1;
    injection H1 as <- _; [|injection Hr as <- _; exfalso; by apply (Hneutral (st_hist s) (st_hist s) pre (extends_refl _ _))].
  destruct (negb (pl_changed p) && negb (pl_verifyUnchanged p)) eqn:Hc.
  { exfalso. apply (Hneutral (st_hist s) (st_hist s') pre); [|done|done]. eapply emits_nothing; [|exact Hr]; by apply (emitsM_unchanged s0 w nw). }
  split; [by destruct (pl_changed p), (pl_verifyUnchanged p); auto|].
  unfold M_bind in Hr. destruct (plan_gate w nw g p opts s) as [s2 r2] eqn:H2.
  assert (extends (neutral name) (st_hist s) (st_hist s2)) as E2 by (eapply emits_nothing; [|exact H2]; by apply (emitsM_gate s0 w nw)).
  destruct r2 as [[]|e]; [|injection Hr as <- _; exfalso; by apply (Hneutral _ _ pre E2)].
  destruct (gate_Ok s0 w nw g p opts s s2 H2) as [(h & cs & Hb & Hcs & Hblk) Happ].
  apply (plan_mutate_once s0) in Hr as [E3|(h1 & E3 & E4)].
  { exfalso. by apply (Hneutral _ _ pre (extends_trans _ _ _ _ E2 E3)). }
  pose proof (extends_trans _ _ _ _ E2 E3) as E23. destruct E23 as (before & Hbefore & Hb'). destruct E4 as (after & Hafter & Ha').
  exists after, before. split_and!.
  - rewrite Hpre, Hbefore, app_comm_cons, (assoc_L (++)) in Hafter. by apply app_inv_tail in Hafter.
  - intros Hx. rewrite Forall_forall in Ha'. by apply (Ha' _ Hx).
  - intros Hx. rewrite Forall_forall in Hb'. by apply (Hb' _ Hx).
  - exists h, cs. split; [|split; [done|by apply notPermitted_nil]]. rewrite <-Hbefore.
    destruct Hb as [Hb1 Hb2]. split; [done|]. eapply extends_trans; [done|by eapply extends_any].
  - destruct Happ as [?|(hc & [Hc1 Hc2] & Hcf)]; [by left|right]. exists hc. split; [|done]. rewrite <-Hbefore.
    split; [done|]. eapply extends_trans; [done|by eapply extends_any].
Qed.
End Properties.

(** ** A concrete run *)

Definition sample_id : string := "run-00112233445566778899aabbccddeeff".
Definition sample_record : ExecutionRecord :=
  MkExecutionRecord [] None 1 "" false sample_id "scope" "" "apply" "preparing" 0 0 None None
    [MkExecutionNode "a" None "t" "preparing" "" ""].
Definition sample_objects : gmap string dirent := {[ record_key sample_id := Stored (MkObject "r0" (PRecord sample_record)) ]}.
Definition sample_local : executionStore := localExecutionStore (quiet_world sample_objects) sample_objects.
Definition quiet_journal : JournalWorld := MkJournalWorld (λ h, Z.of_nat (length h)) false (λ _ _ _, []) (λ _ _ _, Ok tt).
Definition sample_nodes : NodeWorld nat unit :=
  MkNodeWorld _ _ (λ _, None) (λ _ _, None) (λ _ _ _, None) (λ _ _, Ok true)
    (λ _ _, Ok [MkResourceChange "x" ["create"]]) (λ _ _, Ok 7) (λ _ _, Some ("yes", false)) (λ _ _, Ok tt)
    (λ _ o _, o) (λ _ _ _, Ok tt) (λ _ _ _, Ok tt) (λ _ _, Ok "plan") (λ _ _, Ok tt) (λ _ _, "local").
Definition sample_session : session := MkSession [] sample_record "r0".
Definition sample_options : Options := MkOptions false false "" 1.
Definition sample_prepared : preparedNodePlan := MkPreparedNodePlan "a" true false.
Definition sample_apply : session * result (nat * string) :=
  @applyPreparedPlan nat unit sample_local quiet_journal sample_nodes (plain_graph ["a"] []) sample_prepared sample_options sample_session.

Example sample_apply_events :
  (λ ev, match ev with
         | EvWrite _ (MkObject _ (PRecord r)) => default "" (phase_of r "a")
         | EvRun _ op => op | EvAsk _ => "ask" | EvSnapshot _ => "snapshot" | _ => "other"
         end) <$> rev (st_hist sample_apply.1)
  = ["show"; "ask"; "applying"; "apply"; "applied"; "output"; "snapshot"; "completed"] ∧
  sample_apply.2 = Ok (7, "applied").
Proof. vm_compute. done. Qed.

Lemma sample_synced : synced sample_objects sample_id sample_session.
Proof. split; [done|]. exists sample_record. split; [|done]. vm_compute. reflexivity. Qed.

Definition sample_events : hist := st_hist sample_apply.1.

Lemma sample_started : EvRun "a" "apply" ∈ sample_events.
Proof. vm_compute. do 4 right. left. Qed.

Example apply_crash_safe_witness :
  ∃ pre, sample_events = pre ++ [] ∧ EvRun "a" "apply" ∈ sample_events.
Proof.
  destruct (@apply_crash_safe sample_objects nat unit sample_local
    (localExecutionStore_laws (quiet_world sample_objects) sample_objects) quiet_journal sample_nodes (plain_graph ["a"] [])
    sample_id sample_prepared sample_options sample_session sample_apply.1 sample_apply.2
    sample_synced eq_refl ltac:(vm_compute; eexists; reflexivity) (surjective_pairing _)) as (pre & Hpre & _).
  exists pre. split; [exact Hpre|exact sample_started].
Defined.

Example apply_gated_witness :
  ∃ after before, sample_events = after ++ EvRun "a" "apply" :: before.
Proof.
  destruct (@apply_gated sample_objects nat unit sample_local
    (localExecutionStore_laws (quiet_world sample_objects) sample_objects) quiet_journal sample_nodes (plain_graph ["a"] [])
    sample_prepared sample_options sample_session sample_apply.1 sample_apply.2 sample_events
    (surjective_pairing _) (eq_sym (app_nil_r _)) sample_started) as (_ & after & before & Heq & _).
  exists after, before. exact Heq.
Defined.
