(* ===== verification/PluginPackage.v ===== *)
(** Plugin packages (src/plugin/descriptor.go, src/internal/plugins: package.go,
    lock.go): what a descriptor may declare, and which package the lock file
    lets a run use.

    SHA-256 digests and the reading of a package directory are outside: a
    directory is missing, faulty, or a package.  Version constraints and type
    expressions are their libraries'. *)
From S2P Require Import Prelude GoLib Blueprint Hcl Parse.

(** ** Descriptors *)

Record PluginParameter := MkParameter { pa_Name : string; pa_Type : string }.

Record Feature := MkPluginFeature {
  ft_Name : string;
  ft_Kind : string;
  ft_Events : list string;
  ft_Operations : list string;
  ft_Effect : string;
  ft_Parameters : list PluginParameter;
  ft_ResultType : string;
  ft_Sensitive : bool;
}.

Record Descriptor := MkDescriptor {
  ds_Name : string;
  ds_Version : string;
  ds_Protocol : Z;
  ds_Executable : string;
  ds_Features : list Feature;
}.

Definition ProtocolVersion : Z := 3.

Definition LifecyclePhases : list string :=
  ["config.evaluate"; "config.expand"; "graph.validate"; "selection.ready"; "source.vendor.before"; "source.vendor.after";
   "run.prepare"; "observation.prepare"; "node.prepare"; "credential.acquire"; "input.resolve"; "node.init.before"; "node.init.after";
   "node.plan.ready"; "node.mutation.admit"; "node.mutation.finished"; "node.outputs.ready"; "node.read.before"; "node.read.after";
   "native.operation.before"; "native.operation.after"; "node.finished"; "level.finished"; "run.finished"; "credential.renew";
   "credential.release"; "session.close"].

(** The phases a gate can still stop something at. *)
Definition gate_phases : list string :=
  ["graph.validate"; "selection.ready"; "run.prepare"; "node.prepare"; "source.vendor.before"; "node.init.before"; "node.plan.ready";
   "node.mutation.admit"; "native.operation.before"; "level.finished"].

Definition effects : list string := ["pure"; "read_only"; "idempotent_external"; "non_idempotent_external"].

(** [identifier]: [^[a-z][a-z0-9_]*$], the pattern of a plugin alias. *)
Definition identifier (s : string) : bool := plugin_alias s.

Section Descriptor.
Context (type_ok : string → option error) (version_ok : string → option error).

Definition ferr (f : Feature) (format : string) (args : list farg) : error :=
  Errorf ("feature.%s: " +:+ format) (FStr (ft_Name f) :: args).

Definition check_parameter (f : Feature) (params : gset string) (p : PluginParameter) : result (gset string) :=
  if negb (identifier (pa_Name p)) || bool_decide (pa_Name p ∈ params) then Err (ferr f "invalid or duplicate parameter name" [])
  else match type_ok (pa_Type p) with
       | Some e => Err (ferr f "invalid parameter type: %w" [FErr e])
       | None => Ok ({[pa_Name p]} ∪ params)
       end.

Definition check_function (f : Feature) : result unit :=
  if negb (bool_decide (ft_Effect f = "pure")) || negb (bool_decide (ft_Events f = [])) || ft_Sensitive f
  then Err (ferr f "functions must be pure and non-sensitive" [])
  else match type_ok (ft_ResultType f) with
       | Some e => Err (ferr f "invalid result type: %w" [FErr e])
       | None => _ ← foldM (check_parameter f) ∅ (ft_Parameters f); Ok tt
       end.

Definition check_event (f : Feature) (phase : string) : result unit :=
  if negb (mem phase LifecyclePhases) then Err (ferr f "unsupported event %q" [FStr phase])
  else if bool_decide (ft_Kind f = "gate") && negb (mem phase gate_phases)
  then Err (ferr f "event %s cannot block a completed operation" [FStr phase])
  else if bool_decide (ft_Kind f = "gate") && bool_decide (phase = "graph.validate") && negb (bool_decide (ft_Effect f = "pure"))
  then Err (ferr f "static graph gates must be pure; move external checks to run.prepare" [])
  else if bool_decide (ft_Kind f = "validator") && negb (bool_decide (phase = "graph.validate"))
  then Err (ferr f "validators run at graph.validate" [])
  else Ok tt.

Definition check_dispatched (f : Feature) : result unit :=
  if negb (mem (ft_Effect f) effects) then Err (ferr f "invalid effect" [])
  else if mem (ft_Kind f) ["validator"; "expansion"] && negb (bool_decide (ft_Effect f = "pure"))
  then Err (ferr f "static features must be pure" [])
  else if mem (ft_Kind f) ["gate"; "validator"; "observer"] && bool_decide (ft_Events f = [])
  then Err (ferr f "declare lifecycle events" [])
  else foldM (λ _ phase, check_event f phase) tt (ft_Events f).

Definition check_feature (seen : gset string) (f : Feature) : result (gset string) :=
  if negb (identifier (ft_Name f)) || bool_decide (ft_Name f ∈ seen)
  then Err (Errorf "invalid or duplicate plugin feature name" [])
  else
    _ ← (if decide (ft_Kind f = "function") then check_function f
         else if mem (ft_Kind f) ["gate"; "observer"; "input_resolver"; "credential_provider"; "validator"; "expansion"]
         then check_dispatched f
         else Err (ferr f "unsupported kind %q" [FStr (ft_Kind f)]));
    Ok ({[ft_Name f]} ∪ seen).

Definition plain_filename (s : string) : bool :=
  negb (bool_decide (s = "")) && negb (bool_decide (s = ".")) && bool_decide (Base s = s) && negb (contains_any s "/\:").

(** [Descriptor.Validate]. *)
Definition ValidateDescriptor (d : Descriptor) : result unit :=
  if negb (identifier (ds_Name d)) then Err (Errorf "invalid plugin name" [])
  else match version_ok (ds_Version d) with
  | Some e => Err (Errorf "invalid plugin version: %w" [FErr e])
  | None =>
    if negb (bool_decide (ds_Protocol d = ProtocolVersion))
    then Err (Errorf "unsupported plugin protocol %d; use protocol %d" [FInt (ds_Protocol d); FInt ProtocolVersion])
    else if negb (plain_filename (ds_Executable d)) then Err (Errorf "plugin executable must be a filename" [])
    else _ ← foldM check_feature ∅ (ds_Features d); Ok tt
  end.
End Descriptor.

(** ** Packages and the lock *)

Record Package := MkPackage { pk_Descriptor : Descriptor; pk_Digest : string }.
Definition pk_Features (p : Package) : list Feature := ds_Features (pk_Descriptor p).

(** *** Reading a package (package.go) *)

Definition MaxMessageSize : Z := 4 * 2 ^ 20.

(** A package directory: its descriptor's bytes, its executable by name, and
    what the system answers on the way. *)
Record package_dir := MkPackageDir {
  pd_root : option error; pd_descriptor : result string;
  pd_open : string → option error; pd_regular : result bool; pd_executable : result string; pd_abs : option error;
}.

Section Inspect.
(** [decode] refuses unknown fields and says whether nothing follows the
    document; [sha256] is the hash in hexadecimal. *)
Context (type_ok version_ok : string → option error) (decode : string → result (Descriptor * bool)) (sha256 : string → string).

Definition noted {A} (format : string) (r : result A) : result A := wrap_err (λ err, Errorf format [FErr err]) r.
Definition answered (e : option error) : result unit := match e with Some err => Err err | None => Ok tt end.

Definition Inspect (p : package_dir) : result Package :=
  _ ← noted "opening plugin package: %w" (answered (pd_root p));
  data ← noted "reading plugin descriptor: %w" (pd_descriptor p);
  if bool_decide (MaxMessageSize < Z.of_nat (String.length data))%Z then Err (Errorf "plugin descriptor exceeds size limit" [])
  else
    '(d, ended) ← noted "decoding plugin descriptor: %w" (decode data);
    if negb ended then Err (Errorf "plugin descriptor has trailing content" [])
    else
      _ ← ValidateDescriptor type_ok version_ok d;
      _ ← noted "opening plugin executable: %w" (answered (pd_open p (ds_Executable d)));
      regular ← noted "inspecting plugin executable: %w" (pd_regular p);
      if negb regular then Err (Errorf "plugin executable must be a regular file" [])
      else
        content ← noted "hashing plugin executable: %w" (pd_executable p);
        _ ← noted "resolving plugin executable: %w" (answered (pd_abs p));
        Ok (MkPackage d (sha256 (content +:+ data))).

Lemma noted_Ok {A} format (r : result A) a : noted format r = Ok a ↔ r = Ok a.
Proof. by destruct r. Qed.

(** An accepted package has a valid descriptor, and the digest is one of the
    executable followed by the descriptor. *)
Lemma Inspect_sound p k : Inspect p = Ok k →
  ValidateDescriptor type_ok version_ok (pk_Descriptor k) = Ok tt
  ∧ ∃ data content, pd_descriptor p = Ok data ∧ (Z.of_nat (String.length data) ≤ MaxMessageSize)%Z ∧ decode data = Ok (pk_Descriptor k, true)
    ∧ pd_regular p = Ok true ∧ pd_executable p = Ok content ∧ pk_Digest k = sha256 (content +:+ data).
Proof.
  unfold Inspect. rewrite result_bind_Ok. intros (_ & _ & Hr). apply result_bind_Ok in Hr as (data & Hdata%noted_Ok & Hr).
  case_bool_decide as Hlen; [done|]. apply result_bind_Ok in Hr as ([d ended] & Hdec%noted_Ok & Hr). destruct ended; [|done]. cbn in Hr.
  apply result_bind_Ok in Hr as ([] & Hv & Hr). apply result_bind_Ok in Hr as (_ & _ & Hr).
  apply result_bind_Ok in Hr as (regular & Hreg%noted_Ok & Hr). destruct regular; [|done]. cbn in Hr.
  apply result_bind_Ok in Hr as (content & Hc%noted_Ok & Hr). apply result_bind_Ok in Hr as (_ & _ & [= <-]).
  split; [done|]. exists data, content. split_and!; [done|lia|done..].
Qed.
End Inspect.

(** Nothing is hashed between the two: a blank that begins the descriptor can
    end the executable instead, and the digest is the same whatever the hash. *)
Definition blank_package (executable descriptor : string) : package_dir :=
  MkPackageDir None (Ok descriptor) (λ _, None) (Ok true) (Ok executable) None.
Example digest_boundary : ∀ sha256 : string → string,
  let inspected e d := Inspect (λ _, None) (λ _, None) (λ _, Ok (MkDescriptor "p" "1.0.0" ProtocolVersion "run" [], true)) sha256 (blank_package e d) in
  inspected "echo" " {}" = inspected "echo " "{}" ∧ ∃ k, inspected "echo" " {}" = Ok k.
Proof. intros sha256. split; [by vm_compute|]. eexists. by vm_compute. Qed.

Record LockEntry := MkLockEntry { le_Alias : string; le_Source : string; le_Version : string; le_Platform : string; le_Digest : string }.
#[export] Instance LockEntry_eq_dec : EqDecision LockEntry.
Proof. solve_decision. Defined.

Definition is_hex (c : Ascii.ascii) : bool :=
  let n := Ascii.nat_of_ascii c in is_digit c || Nat.leb 97 n && Nat.leb n 102.
Definition digest_pattern (s : string) : bool := Nat.eqb (String.length s) 64 && forallb is_hex (chars s).

Definition check_entry (seen : gset string) (e : LockEntry) : result (gset string) :=
  let key := le_Alias e +:+ ":" +:+ le_Platform e in
  if bool_decide (key ∈ seen) || negb (digest_pattern (le_Digest e))
  then Err (Errorf "invalid plugin lock entry; regenerate the lock with plugin install" [])
  else Ok ({[key]} ∪ seen).

(** What the directory holds: the decoded lock file, if there is one, with its
    protocol, and the package directories by digest and platform. *)
Record PluginFS := MkPluginFS {
  fs_lock : result (option (Z * list LockEntry));
  fs_package : string → string → result Package;
}.

Section Lock.
Context (platform : string) (satisfies : string → string → option error).

Definition readLock (fs : PluginFS) : result (list LockEntry) :=
  file ← wrap_err (λ err, Errorf "reading plugin lock: %w" [FErr err]) (fs_lock fs);
  match file with
  | None => Ok []
  | Some (protocol, packages) =>
    if negb (bool_decide (protocol = 1%Z)) then Err (Errorf "unsupported plugin lock protocol" [])
    else _ ← foldM check_entry ∅ packages; Ok packages
  end.

(** [matches]: the version constraint of the declaration. *)
Definition matches_version (c : PluginConfig) (p : Package) : result unit :=
  match satisfies (pg_Version c) (ds_Version (pk_Descriptor p)) with Some e => Err e | None => Ok tt end.

Definition locked_entry (c : PluginConfig) (e : LockEntry) : bool :=
  bool_decide (le_Alias e = pg_Name c) && bool_decide (le_Platform e = platform).

Definition ResolvePackage (fs : PluginFS) (c : PluginConfig) : result Package :=
  packages ← readLock fs;
  match List.find (locked_entry c) packages with
  | None => Err (Errorf "plugin.%s: no locked package for %s; run plugin install" [FStr (pg_Name c); FStr platform])
  | Some entry =>
    if negb (bool_decide (le_Source entry = pg_Source c))
    then Err (Errorf "plugin.%s: source differs from lock; run plugin install" [FStr (pg_Name c)])
    else
      p ← wrap_err (λ err, Errorf "plugin.%s: %w; run plugin install" [FStr (pg_Name c); FErr err]) (fs_package fs (le_Digest entry) platform);
      if negb (bool_decide (pk_Digest p = le_Digest entry)) || negb (bool_decide (ds_Version (pk_Descriptor p) = le_Version entry))
      then Err (Errorf "plugin.%s: package checksum mismatch; reinstall from a trusted package" [FStr (pg_Name c)])
      else _ ← matches_version c p; Ok p
  end.

(** The last entry of the alias on this platform. *)
Definition entry_index (packages : list LockEntry) (c : PluginConfig) : option nat :=
  foldl (λ acc ie, if locked_entry c (ie : nat * LockEntry).2 then Some ie.1 else acc) None (imap pair packages).

Definition publish_entry (packages : list LockEntry) (index : option nat) (entry : LockEntry) : list LockEntry :=
  match index with None => packages ++ [entry] | Some i => <[i := entry]> packages end.

(** [source] is the package supplied, [copied] what reading the copy gives;
    directory operations that can fail answer in [steps]. *)
Definition put_package (fs : PluginFS) (p : Package) : PluginFS :=
  MkPluginFS (fs_lock fs)
    (λ digest plat, if bool_decide (digest = pk_Digest p) && bool_decide (plat = platform) then Ok p else fs_package fs digest plat).

Definition cached (fs : PluginFS) (p : Package) : bool :=
  match fs_package fs (pk_Digest p) platform with Ok q => bool_decide (pk_Digest q = pk_Digest p) | Err _ => false end.

Definition new_entry (c : PluginConfig) (p : Package) : LockEntry :=
  MkLockEntry (pg_Name c) (pg_Source c) (ds_Version (pk_Descriptor p)) platform (pk_Digest p).

Definition Install (fs : PluginFS) (c : PluginConfig) (source copied : result Package) (locked : bool) : PluginFS * result unit :=
  match (p ← source; _ ← matches_version c p; packages ← readLock fs; Ok (p, packages)) with
  | Err e => (fs, Err e)
  | Ok (p, packages) =>
    let entry := new_entry c p in
    let index := entry_index packages c in
    if locked && negb (bool_decide (index ≫= (λ i, packages !! i) = Some entry))
    then (fs, Err (Errorf "plugin.%s: package does not match lock; supply the locked release package" [FStr (pg_Name c)]))
    else match copied with
    | Err e => (fs, Err e)
    | Ok copy =>
      if negb (bool_decide (pk_Digest copy = pk_Digest p))
      then (fs, Err (Errorf "plugin package changed during installation; retry from an immutable release" []))
      else
        let fs := if cached fs p then fs else put_package fs copy in
        if locked then (fs, Ok tt)
        else (MkPluginFS (Ok (Some (1%Z, publish_entry packages index entry))) (fs_package fs), Ok tt)
    end
  end.
End Lock.
