(* ===== verification/Plugins.v ===== *)
(** The plugin lifecycle (src/internal/plugins: lifecycle.go, credentials.go,
    and the protocol types of src/plugin): which features of the locked
    packages take part in an operation, how a call to one is recorded, made and
    judged, and the credentials of a node.

    A plugin is a process outside the repository: what it answers is a function
    of the trace.  The trace lists, newest first, the records made durable and
    the requests sent.  [invoke], [Emit] and [Credentials] hold the locks the
    source takes, so each is one step; the renewal worker of a lease is the
    function [renewal], which judges one renewal. *)
From stdpp Require Import pretty.
From S2P Require Import Prelude GoLib Blueprint Module Graph Topo Selection Gate Execution Store Journal Hcl Parse PluginPackage.

(** ** The protocol (plugin/protocol.go, plugin/lifecycle.go) *)

(** The evidence of a plan, present or not. *)
Record Event := MkEvent {
  ev_ID : string;
  ev_Phase : string;
  ev_Node : string;
  ev_Status : string;
  ev_PlanID : string;
  ev_Plan : option string;
  ev_Recheck : bool;
}.

(** A zero time is [None]. *)
Record Lease := MkLease { ls_ID : string; ls_ExpiresAt : Z; ls_RenewAt : option Z }.

(** A variable of an expanded node: whether it is sensitive, and its decoding. *)
Record ExpandedNode := MkExpandedNode { xn_Name : string; xn_Source : string; xn_Vars : gmap string (bool * option value) }.
Record ExpandedEdge := MkExpandedEdge { xe_From : string; xe_Output : string; xe_To : string; xe_Input : string }.
Record Expansion := MkExpansion { xp_Nodes : list ExpandedNode; xp_Edges : list ExpandedEdge }.

Record Response := MkResponse {
  rs_Identity : string;
  rs_ExpiresAt : option Z;
  rs_Value : option (option value);
  rs_Decision : string;
  rs_Credentials : gmap string string;
  rs_Lease : option Lease;
  rs_Expansion : option Expansion;
}.
Definition no_response : Response := MkResponse "" None None "" ∅ None None.

Record Request := MkRequest {
  rq_ID : string;
  rq_Action : string;
  rq_Alias : string;
  rq_Feature : string;
  rq_Reference : list (string * value);
  rq_Lease : option Lease;
  rq_Event : Event;
}.

Record CallError := MkCallError { ce_Code : string; ce_Fatal : bool; ce_Retryable : bool; ce_OutcomeUnknown : bool }.

(** An error of the session, with the [CallError] its chain holds, if any. *)
Record call_failure := MkCallFailure { cf_error : error; cf_call : option CallError }.

(** ** Features of an operation *)

Record featureInstance := MkFeatureInstance {
  fi_configDigest : string;
  fi_config : PluginConfig;
  fi_digest : string;
  fi_feature : Feature;
  fi_mode : string;
  fi_timeout : Z;
}.

Definition second : Z := 1000000000.

Definition isStaticOperation (operation : string) : bool := mem operation ["static"; "validate"; "graph"].

Definition default_mode (declared kind : string) : string :=
  if decide (declared ≠ "") then declared else if decide (kind = "observer") then "best_effort" else "enforce".

Definition feature_timeout (declared : Z) (kind : string) : Z :=
  if decide (declared ≠ 0)%Z then declared else if decide (kind = "gate") then (60 * second)%Z else (30 * second)%Z.

Section New.
Context (Resolve : PluginConfig → result Package) (featureConfigDigest : PluginConfig → result string).
Context (operation executionID : string).

Definition feature_error (c : PluginConfig) (f : Feature) (format : string) : error :=
  Errorf ("plugin.%s.feature.%s: " +:+ format) [FStr (pg_Name c); FStr (ft_Name f)].

(** One exported feature: rejected, left out of this operation, or an instance. *)
Definition instance_of (c : PluginConfig) (p : Package) (f : Feature) : result (option featureInstance) :=
  let options := default (MkFeature "" 0) (pg_Features c !! ft_Name f) in
  let mode := default_mode (pf_Mode options) (ft_Kind f) in
  if bool_decide (mode = "best_effort") && negb (bool_decide (ft_Kind f = "observer"))
  then Err (feature_error c f "best_effort is only valid for observers")
  else if bool_decide (mode = "advisory") && negb (mem (ft_Kind f) ["gate"; "validator"])
  then Err (feature_error c f "advisory is only valid for gates and validators")
  else if negb (isStaticOperation operation) && negb (bool_decide (ft_Operations f = [])) && negb (mem operation (ft_Operations f))
  then Ok None
  else if negb (isStaticOperation operation) && bool_decide (executionID = "")
          && bool_decide (ft_Kind f = "observer") && bool_decide (mode = "enforce")
  then Err (feature_error c f "required observers need an execution record; use best_effort for read and vendor commands")
  else digest ← wrap_err (λ err, Errorf "plugin.%s.config: %w" [FStr (pg_Name c); FErr err]) (featureConfigDigest c);
       Ok (Some (MkFeatureInstance digest c (pk_Digest p) f mode (feature_timeout (pf_Timeout options) (ft_Kind f)))).

Definition unexported (c : PluginConfig) (p : Package) (name : string) : result unit :=
  if mem name (ft_Name <$> pk_Features p) then Ok tt
  else Err (Errorf "plugin.%s.feature.%s: feature is not exported by the locked package" [FStr (pg_Name c); FStr name]).

Definition config_instances (c : PluginConfig) : result (list featureInstance) :=
  p ← Resolve c;
  l ← mapM_res (instance_of c p) (pk_Features p);
  _ ← foldM (λ _ name, unexported c p name) tt (sorted_keys (pg_Features c));
  Ok (omap (M:=list) id (l : list (option featureInstance))).

Definition instance_name (f : featureInstance) : string := pg_Name (fi_config f) +:+ "." +:+ ft_Name (fi_feature f).
Definition instance_le (a b : featureInstance) : Prop := String.le (instance_name a) (instance_name b).
#[export] Instance instance_le_dec : RelDecision instance_le.
Proof. intros a b. unfold instance_le. apply _. Defined.
#[export] Instance instance_le_total : Total instance_le.
Proof. intros a b. unfold instance_le. apply (total String.le). Qed.
#[export] Instance instance_le_trans : Transitive instance_le.
Proof. intros a b c. unfold instance_le. apply transitivity. Qed.

(** The features of the lifecycle, in the order they are dispatched. *)
Definition NewLifecycle (configs : list PluginConfig) : result (list featureInstance) :=
  ls ← mapM_res config_instances configs; Ok (merge_sort instance_le (concat ls)).
End New.

(** ** The running lifecycle *)

Inductive pevent :=
  | PRecorded (c : CallRecord)
  | PCalled (q : Request)
  | POpened (alias : string).
Notation ptrace := (list pevent).

(** A retry's wait: it elapsed, or the context ended, seen by the select or after it. *)
Inductive wait_answer := Waited | WaitCancelled (e : error) | WaitedLate.

(** Starting and configuring a process: done, refused before it (a cancelled
    wait, the work directory), or failed, which quarantines the alias. *)
Inductive open_answer := Opened | OpenRefused (f : call_failure) | OpenFailed (f : call_failure).

Record LifecycleWorld := MkLifecycleWorld {
  lw_now : ptrace → Z;
  lw_open : ptrace → string → open_answer;
  lw_answer : ptrace → Request → Response + call_failure;
  lw_wait : ptrace → wait_answer;
  lw_record : option (ptrace → CallRecord → option error);
  lw_digest : list string → string;
  lw_cancelled : ptrace → string → option error;
}.

(** A lease a node holds, and the environment it gave. *)
Record credentialLease := MkCredentialLease {
  cr_identity : string;
  cr_feature : featureInstance;
  cr_reference : list (string * value);
  cr_lease : Lease;
  cr_env : gmap string string;
}.

Record credentialScope := MkCredentialScope {
  sc_env : gmap string string;
  sc_leases : list credentialLease;
  sc_identities : gmap string string;
  sc_ready : bool;
  sc_err : option error;
  sc_expires : list Z;
}.
Definition empty_scope : credentialScope := MkCredentialScope ∅ [] ∅ false None [].

Record lstate := MkLState {
  lc_trace : ptrace;
  lc_seq : Z;
  lc_failed : gmap string call_failure;
  lc_sessions : gset string;
  lc_terminal : gset string;
  lc_completion : option error;
  lc_scopes : gmap string credentialScope;
  lc_closed : bool;
}.

Definition set_trace (s : lstate) (t : ptrace) : lstate :=
  MkLState t (lc_seq s) (lc_failed s) (lc_sessions s) (lc_terminal s) (lc_completion s) (lc_scopes s) (lc_closed s).
Definition emit_p (s : lstate) (e : pevent) : lstate := set_trace s (e :: lc_trace s).
Definition set_failed (s : lstate) (alias : string) (f : call_failure) : lstate :=
  MkLState (lc_trace s) (lc_seq s) (<[alias := f]> (lc_failed s)) (lc_sessions s) (lc_terminal s) (lc_completion s) (lc_scopes s) (lc_closed s).
Definition add_session (s : lstate) (alias : string) : lstate :=
  MkLState (POpened alias :: lc_trace s) (lc_seq s) (lc_failed s) ({[alias]} ∪ lc_sessions s) (lc_terminal s) (lc_completion s) (lc_scopes s) (lc_closed s).
Definition next_seq (s : lstate) : lstate :=
  MkLState (lc_trace s) (lc_seq s + 1) (lc_failed s) (lc_sessions s) (lc_terminal s) (lc_completion s) (lc_scopes s) (lc_closed s).
Definition set_terminal (s : lstate) (node : string) : lstate :=
  MkLState (lc_trace s) (lc_seq s) (lc_failed s) (lc_sessions s) ({[node]} ∪ lc_terminal s) (lc_completion s) (lc_scopes s) (lc_closed s).
Definition AddCompletionError (s : lstate) (e : error) : lstate :=
  MkLState (lc_trace s) (lc_seq s) (lc_failed s) (lc_sessions s) (lc_terminal s) (join_errors (lc_completion s) (Some e)) (lc_scopes s) (lc_closed s).
Definition set_scope (s : lstate) (node : string) (sc : credentialScope) : lstate :=
  MkLState (lc_trace s) (lc_seq s) (lc_failed s) (lc_sessions s) (lc_terminal s) (lc_completion s) (<[node := sc]> (lc_scopes s)) (lc_closed s).
Definition close_state (s : lstate) : lstate :=
  MkLState (lc_trace s) (lc_seq s) (lc_failed s) (lc_sessions s) (lc_terminal s) (lc_completion s) (lc_scopes s) true.

Section Lifecycle.
Context (lw : LifecycleWorld) (features : list featureInstance) (operation executionID : string).

Definition alias_of (f : featureInstance) : string := pg_Name (fi_config f).
Definition external (f : featureInstance) : bool := mem (ft_Effect (fi_feature f)) ["idempotent_external"; "non_idempotent_external"].
Definition repeatable (f : featureInstance) : bool := mem (ft_Effect (fi_feature f)) ["pure"; "read_only"].

(** [Lifecycle.event]: an event is numbered once. *)
Definition number_event (s : lstate) (e : Event) : lstate * Event :=
  if decide (ev_ID e ≠ "") then (s, e)
  else let s := next_seq s in
       (s, MkEvent ("invocation-" +:+ pretty (lc_seq s)) (ev_Phase e) (ev_Node e) (ev_Status e) (ev_PlanID e) (ev_Plan e) (ev_Recheck e)).

Definition reserved_name (key : string) : bool :=
  has_prefix (to_upper key) "TERRAGRAPH_" || bool_decide (to_upper key = "PLUGIN_PROTOCOL_VERSIONS").

(** [Lifecycle.session]: opened and configured once; a failure quarantines the alias. *)
Definition session_for (s : lstate) (f : featureInstance) : lstate * option call_failure :=
  let alias := alias_of f in
  if lc_closed s then (s, Some (MkCallFailure (Errors_New "plugin session closed") None))
  else match lc_failed s !! alias with
  | Some failed => (s, Some failed)
  | None =>
    if decide (alias ∈ lc_sessions s) then (s, None)
    else if negb (isStaticOperation operation) && existsb reserved_name (default [] (pg_Environment (fi_config f)))
    then (s, Some (MkCallFailure (Errorf "plugin.%s.access.environment: reserved environment name" [FStr alias]) None))
    else match lw_open lw (lc_trace s) alias with
         | OpenRefused failed => (s, Some failed)
         | OpenFailed failed => (set_failed s alias failed, Some failed)
         | Opened => (add_session s alias, None)
         end
  end.

(** The call, repeated only while the failure is retryable and the effect harmless. *)
Fixpoint attempts (n : nat) (s : lstate) (f : featureInstance) (q : Request) : lstate * (Response + call_failure) :=
  let answer := lw_answer lw (lc_trace s) q in
  let s := emit_p s (PCalled q) in
  match n with
  | O => (s, answer)
  | S n =>
    match answer with
    | inl response => (s, inl response)
    | inr failure =>
      match cf_call failure with
      | Some call =>
        if negb (ce_Retryable call) || ce_Fatal call || negb (repeatable f) then (s, inr failure)
        else match lw_wait lw (lc_trace s) with
             | Waited => attempts n s f q
             | WaitCancelled e => (s, inr (MkCallFailure e None))
             | WaitedLate => (s, inr failure)
             end
      | None => (s, inr failure)
      end
    end
  end.

Definition lease_of (r : Response) (q : Request) : option string :=
  match rs_Lease r with
  | Some l => Some (ls_ID l)
  | None => if mem (rq_Action q) ["acquire"; "renew"; "release"] then ls_ID <$> rq_Lease q else None
  end.

Definition record_status (f : featureInstance) (answer : Response + call_failure) : string * string :=
  match answer with
  | inl _ => ("completed", "")
  | inr failure =>
    match cf_call failure with
    | Some call => (if ce_OutcomeUnknown call && (external f || bool_decide (ft_Kind (fi_feature f) = "credential_provider")) then "unknown" else "failed", ce_Code call)
    | None => ("failed", "plugin_failed")
    end
  end.

Definition call_record (f : featureInstance) (q : Request) (lease : option string) (status code : string) : CallRecord :=
  MkCallRecord (lw_digest lw [ev_ID (rq_Event q); alias_of f; ft_Name (fi_feature f); rq_Action q])
    (alias_of f) (ft_Name (fi_feature f)) (fi_digest f) (fi_configDigest f) (ev_ID (rq_Event q)) operation code
    (ft_Kind (fi_feature f)) (ft_Effect (fi_feature f)) (fi_mode f) status (ev_Phase (rq_Event q)) (ev_Node (rq_Event q)) lease.

(** [m.record]: absent, failed, or durable. *)
Definition record_call (s : lstate) (c : CallRecord) : lstate * option error :=
  match lw_record lw with
  | None => (s, None)
  | Some record => match record (lc_trace s) c with
                   | Some e => (s, Some e)
                   | None => (emit_p s (PRecorded c), None)
                   end
  end.

Definition no_record : bool := match lw_record lw with None => true | Some _ => false end.

(** [invoke] up to the event a completed credential or input call announces. *)
Definition invoke_call (s : lstate) (f : featureInstance) (q : Request) : lstate * (Response * option error) :=
  let '(s, e) := number_event s (rq_Event q) in
  let q := MkRequest (rq_ID q) (rq_Action q) (alias_of f) (ft_Name (fi_feature f)) (rq_Reference q) (rq_Lease q) e in
  let pending := call_record f q (lease_of no_response q) "pending" "" in
  if external f && no_record && bool_decide (fi_mode f = "enforce")
  then (s, (no_response, Some (Errorf "plugin.%s.%s: external effect requires a durable execution record" [FStr (alias_of f); FStr (ft_Name (fi_feature f))])))
  else match record_call s pending with
  | (s, Some err) => (s, (no_response, Some err))
  | (s, None) =>
    let '(s, answer) := match session_for s f with
                        | (s, Some failure) => (s, inr failure)
                        | (s, None) => attempts 2 s f q
                        end in
    let response := match answer with inl r => r | inr _ => no_response end in
    let '(status, code) := record_status f answer in
    let '(s, rec_err) := record_call s (call_record f q (lease_of response q) status code) in
    let err := match answer with inl _ => None | inr failure => Some (cf_error failure) end in
    let err := match lw_record lw with None => err | Some _ => join_errors err rec_err end in
    (s, (response, (λ err, Errorf "plugin.%s.%s at %s: %w; inspect plugin diagnostics before retrying"
                              [FStr (alias_of f); FStr (ft_Name (fi_feature f)); FStr (ev_Phase e); FErr err]) <$> err))
  end.

Definition not_expired (s : lstate) (expires : option Z) : bool :=
  match expires with None => true | Some t => bool_decide (lw_now lw (lc_trace s) < t)%Z end.

(** ** [Emit] *)

Definition subscribes (f : featureInstance) (phase : string) : bool :=
  mem phase (ft_Events (fi_feature f)) && mem (ft_Kind (fi_feature f)) ["observer"; "gate"; "validator"]
  && negb (isStaticOperation operation && negb (bool_decide (ft_Effect (fi_feature f) = "pure"))).

Definition decides (f : featureInstance) : bool := mem (ft_Kind (fi_feature f)) ["gate"; "validator"].

Definition drop_plan (e : Event) : Event :=
  MkEvent (ev_ID e) (ev_Phase e) (ev_Node e) (ev_Status e) (ev_PlanID e) None (ev_Recheck e).

(** Plan evidence goes to features with plan access, never to observers. *)
Definition visible_event (f : featureInstance) (e : Event) : Event :=
  if negb (pg_PlanAccess (fi_config f)) || bool_decide (ft_Kind (fi_feature f) = "observer") then drop_plan e else e.

Definition judge (s : lstate) (f : featureInstance) (phase : string) (r : Response) : option error :=
  if negb (decides f) then None
  else if decide (rs_Decision r = "allow") then
    if not_expired s (rs_ExpiresAt r) then None
    else Some (Errorf "plugin.%s.%s: decision expired; repeat the check" [FStr (alias_of f); FStr (ft_Name (fi_feature f))])
  else if decide (rs_Decision r = "deny")
  then Some (Errorf "plugin.%s.%s: policy denied %s; satisfy the policy before retrying" [FStr (alias_of f); FStr (ft_Name (fi_feature f)); FStr phase])
  else Some (Errorf "plugin.%s.%s: policy decision unknown; restore the checker before retrying" [FStr (alias_of f); FStr (ft_Name (fi_feature f))]).

Definition bare_request (action : string) (e : Event) : Request := MkRequest "" action "" "" [] None e.

Definition dispatch (s : lstate) (f : featureInstance) (e : Event) : lstate * option error :=
  let '(s, (response, err)) := invoke_call s f (bare_request (ft_Kind (fi_feature f)) (visible_event f e)) in
  (s, match err with Some _ => err | None => judge s f (ev_Phase e) response end).

Fixpoint emit_features (fs : list featureInstance) (s : lstate) (e : Event) (required : option error) : lstate * option error :=
  match fs with
  | [] => (s, required)
  | f :: fs =>
    if negb (subscribes f (ev_Phase e)) then emit_features fs s e required
    else let '(s, err) := dispatch s f e in
         emit_features fs s e (match err with
                               | Some _ => if decide (fi_mode f = "enforce") then join_errors required err else required
                               | None => required
                               end)
  end.

(** A node's end is announced once. *)
Definition Emit (s : lstate) (e : Event) : lstate * option error :=
  if bool_decide (ev_Phase e = "node.finished") && bool_decide (ev_Node e ∈ lc_terminal s) then (s, None)
  else
    let s := if decide (ev_Phase e = "node.finished") then set_terminal s (ev_Node e) else s in
    let '(s, e) := number_event s e in
    emit_features features s e None.

Definition terminal_event (e : Event) : Event :=
  MkEvent (ev_ID e) (ev_Phase e) (ev_Node e) "completed" (ev_PlanID e) None (ev_Recheck e).

(** [invoke]: a completed credential or input call is announced; what the
    announcement reports is kept for the end of the run. *)
Definition invoke (s : lstate) (f : featureInstance) (q : Request) : lstate * (Response * option error) :=
  let '(s, e) := number_event s (rq_Event q) in
  let q := MkRequest (rq_ID q) (rq_Action q) (rq_Alias q) (rq_Feature q) (rq_Reference q) (rq_Lease q) e in
  match invoke_call s f q with
  | (s, (response, Some err)) => (s, (response, Some err))
  | (s, (response, None)) =>
    if mem (rq_Action q) ["resolve"; "acquire"; "renew"; "release"] then
      let '(s, emitErr) := Emit s (terminal_event e) in
      (match emitErr with Some err => AddCompletionError s err | None => s end, (response, None))
    else (s, (response, None))
  end.

Definition Has (phase : string) : bool :=
  existsb (λ f, mem phase (ft_Events (fi_feature f)) && negb (bool_decide (ft_Kind (fi_feature f) = "observer"))) features.

Definition NeedsPlanDocument : bool :=
  existsb (λ f, pg_PlanAccess (fi_config f) && bool_decide (ft_Kind (fi_feature f) = "gate")) features.

Definition lookup (alias feature kind : string) : result featureInstance :=
  match List.find (λ f, bool_decide (alias_of f = alias) && bool_decide (ft_Name (fi_feature f) = feature)
                        && bool_decide (ft_Kind (fi_feature f) = kind)) features with
  | Some f => Ok f
  | None => Err (Errorf "plugin.%s.%s: no %s feature for this operation; correct the binding or package" [FStr alias; FStr feature; FStr kind])
  end.

Definition scope_of (s : lstate) (node : string) : credentialScope := default empty_scope (lc_scopes s !! node).

(** ** [Resolve] *)

Definition node_event (phase node : string) : Event := MkEvent "" phase node "" "" None false.

(** [rs_Value]: no value, one of an invalid type, or its decoding. *)
Definition ResolveInput (s : lstate) (node : string) (b : PluginBinding) : lstate * result value :=
  match lookup (pb_Alias b) (pb_Feature b) "input_resolver" with
  | Err err => (s, Err err)
  | Ok f =>
    match invoke s f (MkRequest "" "resolve" "" "" (pb_Reference b) None (node_event "input.resolve" node)) with
    | (s, (_, Some err)) => (s, Err err)
    | (s, (response, None)) =>
      match rs_Value response with
      | None => (s, Err (Errorf "plugin.%s.%s: resolver returned no value" [FStr (pb_Alias b); FStr (pb_Feature b)]))
      | Some None => (s, Err (Errorf "plugin.%s.%s: resolver returned an invalid typed value" [FStr (pb_Alias b); FStr (pb_Feature b)]))
      | Some (Some v) =>
        match rs_ExpiresAt response with
        | None => (s, Ok v)
        | Some t =>
          if not_expired s (Some t) then
            let sc := scope_of s node in
            (set_scope s node (MkCredentialScope (sc_env sc) (sc_leases sc) (sc_identities sc) (sc_ready sc) (sc_err sc) (sc_expires sc ++ [t])), Ok v)
          else (s, Err (Errorf "plugin.%s.%s: resolved input already expired" [FStr (pb_Alias b); FStr (pb_Feature b)]))
        end
      end
    end
  end.

(** ** [Credentials] *)

Definition lease_valid (s : lstate) (l : Lease) : bool :=
  negb (bool_decide (ls_ID l = "")) && not_expired s (Some (ls_ExpiresAt l))
  && match ls_RenewAt l with None => true | Some t => bool_decide (t < ls_ExpiresAt l)%Z end.

Definition hold_lease (sc : credentialScope) (f : featureInstance) (b : PluginBinding) (r : Response) : credentialScope :=
  match rs_Lease r with
  | None => sc
  | Some l => MkCredentialScope (sc_env sc) (sc_leases sc ++ [MkCredentialLease (rs_Identity r) f (pb_Reference b) l (rs_Credentials r)])
                (sc_identities sc) (sc_ready sc) (sc_err sc) (sc_expires sc)
  end.
Definition fail_scope (sc : credentialScope) (e : error) : credentialScope :=
  MkCredentialScope (sc_env sc) (sc_leases sc) (sc_identities sc) (sc_ready sc) (Some e) (sc_expires sc).
Definition add_env (sc : credentialScope) (k v : string) : credentialScope :=
  MkCredentialScope (<[k := v]> (sc_env sc)) (sc_leases sc) (sc_identities sc) (sc_ready sc) (sc_err sc) (sc_expires sc).
Definition set_identity (sc : credentialScope) (key identity : string) : credentialScope :=
  MkCredentialScope (sc_env sc) (sc_leases sc) (<[key := identity]> (sc_identities sc)) (sc_ready sc) (sc_err sc) (sc_expires sc).
Definition ready_scope (sc : credentialScope) : credentialScope :=
  MkCredentialScope (sc_env sc) (sc_leases sc) (sc_identities sc) true (sc_err sc) (sc_expires sc).

(** One returned variable: allowed by the binding and by name, and new. *)
Definition supply_env (node key : string) (b : PluginBinding) (sc : credentialScope) (kv : string * string) : credentialScope * option error :=
  if negb (mem kv.1 (pb_Environment b)) || negb (CredentialEnvironmentAllowed kv.1)
  then let err := Errorf "plugin.%s.%s: returned an environment name outside credential allowlist" [FStr (pb_Alias b); FStr (pb_Feature b)] in
       (fail_scope sc err, Some err)
  else if bool_decide (is_Some (sc_env sc !! kv.1))
  then let err := Errorf "node.%s.credential.%s: duplicate environment supplier; remove one binding" [FStr node; FStr key] in
       (fail_scope sc err, Some err)
  else (add_env sc kv.1 kv.2, None).

Fixpoint supply_all (node key : string) (b : PluginBinding) (sc : credentialScope) (l : list (string * string)) : credentialScope * option error :=
  match l with
  | [] => (sc, None)
  | kv :: l => match supply_env node key b sc kv with
               | (sc, Some err) => (sc, Some err)
               | (sc, None) => supply_all node key b sc l
               end
  end.

(** What a completed acquisition does to the scope. *)
Definition accept_credentials `{MapOrder} (s : lstate) (node key : string) (b : PluginBinding) (f : featureInstance) (sc : credentialScope) (r : Response) :
    credentialScope * option error :=
  if decide (rs_Identity r = "")
  then let err := Errorf "plugin.%s.%s: credentials require a stable non-secret target identity" [FStr (pb_Alias b); FStr (pb_Feature b)] in
       (fail_scope (hold_lease sc f b r) err, Some err)
  else
    let sc := hold_lease (set_identity sc key (rs_Identity r)) f b r in
    if match rs_Lease r with Some l => negb (lease_valid s l) | None => false end
    then let err := Errorf "plugin.%s.%s: invalid credential lease" [FStr (pb_Alias b); FStr (pb_Feature b)] in (fail_scope sc err, Some err)
    else if decide (rs_Credentials r = ∅)
    then let err := Errorf "plugin.%s.%s: credential provider returned no credentials" [FStr (pb_Alias b); FStr (pb_Feature b)] in (fail_scope sc err, Some err)
    else supply_all node key b sc (range (rs_Credentials r)).

Definition acquire_binding `{MapOrder} (s : lstate) (node key : string) (b : PluginBinding) : lstate * option error :=
  match lookup (pb_Alias b) (pb_Feature b) "credential_provider" with
  | Err err => (s, Some err)
  | Ok f =>
    match invoke s f (MkRequest "" "acquire" "" "" (pb_Reference b) None (node_event "credential.acquire" node)) with
    | (s, (response, Some err)) => (set_scope s node (fail_scope (hold_lease (scope_of s node) f b response) err), Some err)
    | (s, (response, None)) =>
      let '(sc, err) := accept_credentials s node key b f (scope_of s node) response in (set_scope s node sc, err)
    end
  end.

Fixpoint acquire_all `{MapOrder} (s : lstate) (node : string) (l : list (string * PluginBinding)) : lstate * option error :=
  match l with
  | [] => (s, None)
  | (key, b) :: l => match acquire_binding s node key b with
                     | (s, Some err) => (s, Some err)
                     | (s, None) => acquire_all s node l
                     end
  end.

Definition sorted_entries {A} (m : gmap string A) : list (string * A) :=
  omap (λ k, (λ v, (k, v)) <$> m !! k) (sorted_keys m).

Definition Credentials `{MapOrder} (s : lstate) (node : string) (bindings : gmap string PluginBinding) : lstate * result (gmap string string) :=
  let s := set_scope s node (scope_of s node) in
  let sc := scope_of s node in
  match sc_err sc with
  | Some err => (s, Err err)
  | None =>
    if sc_ready sc then (s, match lw_cancelled lw (lc_trace s) node with Some err => Err err | None => Ok (sc_env sc) end)
    else match acquire_all s node (sorted_entries bindings) with
         | (s, Some err) => (s, Err err)
         | (s, None) => let sc := ready_scope (scope_of s node) in (set_scope s node sc, Ok (sc_env sc))
         end
  end.

(** [renew]: the verdict on the answer to a renewal request. *)
Definition renewal (s : lstate) (node : string) (held : credentialLease) (response : Response) : result credentialLease :=
  match rs_Lease response with
  | Some l =>
    if negb (bool_decide (rs_Identity response = "")) && negb (bool_decide (rs_Identity response = cr_identity held))
       || negb (bool_decide (ls_ID l = ls_ID (cr_lease held))) || negb (not_expired s (Some (ls_ExpiresAt l)))
       || negb (match ls_RenewAt l with None => true | Some t => bool_decide (t < ls_ExpiresAt l)%Z end)
    then Err (Errorf "node.%s: plugin returned an invalid renewed lease" [FStr node])
    else if negb (bool_decide (rs_Credentials response = ∅)) && negb (bool_decide (rs_Credentials response = cr_env held))
    then Err (Errorf "node.%s: credential rotation cannot update an already running subprocess; retry with stable renewable credentials" [FStr node])
    else Ok (MkCredentialLease (cr_identity held) (cr_feature held) (cr_reference held) l (cr_env held))
  | None => Err (Errorf "node.%s: plugin returned an invalid renewed lease" [FStr node])
  end.

(** ** Admission *)

Definition Admit (s : lstate) (node : string) : option error :=
  match lc_scopes s !! node with
  | None => None
  | Some sc =>
    match sc_err sc with
    | Some err => Some err
    | None => if forallb (λ t, not_expired s (Some t)) (sc_expires sc) then lw_cancelled lw (lc_trace s) node
              else Some (Errorf "node.%s: plugin input expired; create a fresh plan" [FStr node])
    end
  end.

Definition recheck_event (f : featureInstance) (e : Event) : Event :=
  let e := if pg_PlanAccess (fi_config f) then e else drop_plan e in
  MkEvent (ev_ID e) (ev_Phase e) (ev_Node e) (ev_Status e) (ev_PlanID e) (ev_Plan e) true.

Definition plan_gate_feature (f : featureInstance) : bool :=
  bool_decide (ft_Kind (fi_feature f) = "gate") && mem "node.plan.ready" (ft_Events (fi_feature f)).

Fixpoint recheck_features (fs : list featureInstance) (s : lstate) (e : Event) : lstate * option error :=
  match fs with
  | [] => (s, None)
  | f :: fs =>
    if negb (plan_gate_feature f) then recheck_features fs s e
    else let '(s, (response, err)) := invoke s f (bare_request "gate" (recheck_event f e)) in
         let err := match err with
                    | Some _ => err
                    | None => if bool_decide (rs_Decision response = "allow") && not_expired s (rs_ExpiresAt response) then None
                              else Some (Errorf "plugin.%s.%s: plan gate did not authorize admission; repeat plan assessment"
                                           [FStr (alias_of f); FStr (ft_Name (fi_feature f))])
                    end in
         match err with
         | Some err => if decide (fi_mode f = "enforce") then (s, Some err) else recheck_features fs s e
         | None => recheck_features fs s e
         end
  end.
Definition RecheckPlan (s : lstate) (e : Event) : lstate * option error := recheck_features features s e.

(** ** Closing *)

Definition release_lease (node : string) (acc : lstate * option error) (l : credentialLease) : lstate * option error :=
  let '(s, (_, err)) := invoke acc.1 (cr_feature l) (MkRequest "" "release" "" "" (cr_reference l) (Some (cr_lease l)) (node_event "credential.release" node)) in
  (s, join_errors acc.2 err).

Definition close_scope (acc : lstate * option error) (nsc : string * credentialScope) : lstate * option error :=
  let '(node, sc) := nsc in
  foldl (release_lease node) (acc.1, join_errors acc.2 (sc_err sc)) (reverse (sc_leases sc)).

Definition closeCredentials `{MapOrder} (s : lstate) : lstate * option error := foldl close_scope (s, None) (range (lc_scopes s)).

(** [cleanup]: removing the work directory, or the receipts that keep it. *)
Definition CloseProcesses (cleanup : ptrace → option error) (s : lstate) : lstate * option error :=
  if lc_closed s then (s, None) else (close_state s, cleanup (lc_trace s)).

Definition Close `{MapOrder} (cleanup : ptrace → option error) (s : lstate) : lstate * option error :=
  let result := lc_completion s in
  let '(s, err) := closeCredentials s in
  let result := join_errors result err in
  let '(s, err) := Emit s (MkEvent "" "session.close" "" "closing" "" None false) in
  let result := join_errors result err in
  let '(s, err) := CloseProcesses cleanup s in
  (s, join_errors result err).

(** ** Bindings of a node *)

Definition env_key (node : string) (env : gmap string string) (seen : gset string) (key : string) : result (gset string) :=
  if decide (to_upper key ∈ seen) then Err (Errorf "node.%s.credential: duplicate environment supplier" [FStr node])
  else if existsb (λ existing, bool_decide (to_upper existing = to_upper key)) (map_to_list env).*1
  then Err (Errorf "node.%s.credential: environment conflicts with node env; remove one supplier" [FStr node])
  else Ok ({[to_upper key]} ∪ seen).

Definition ValidateBindings `{MapOrder} (node : string) (inputs credentials : gmap string PluginBinding) (env : gmap string string) : result unit :=
  let find kind (b : PluginBinding) := wrap_err (λ err, Errorf "node.%s: %w" [FStr node; FErr err]) (lookup (pb_Alias b) (pb_Feature b) kind) in
  _ ← foldM (λ _ kb, _ ← find "input_resolver" (kb : string * PluginBinding).2; Ok tt) tt (range inputs);
  _ ← foldM (λ seen kb, _ ← find "credential_provider" (kb : string * PluginBinding).2;
               foldM (env_key node env) seen (pb_Environment kb.2)) ∅ (range credentials);
  Ok tt.

(** ** Recovery *)

Definition replayable (c : CallRecord) : bool :=
  bool_decide (cl_Effect c = "idempotent_external")
  && (bool_decide (cl_Kind c = "observer") || bool_decide (cl_EventPhase c = "credential.release")
      || bool_decide (cl_EventPhase c = "credential.acquire") && bool_decide (is_Some (cl_Lease c))).

(** The request a replay sends: an observer's call again, or the release of a
    lease.  [reference] and [lease] are the record's cleanup material. *)
Definition Replay (s : lstate) (c : CallRecord) (reference : list (string * value)) (lease : option Lease) (event : Event) : lstate * option error :=
  match lookup (cl_Alias c) (cl_Feature c) (cl_Kind c) with
  | Err err => (s, Some err)
  | Ok f =>
    if negb (bool_decide (fi_digest f = cl_Digest c)) || negb (bool_decide (fi_configDigest f = cl_ConfigDigest c))
    then (s, Some (Errorf "plugin.%s: recovery requires the original locked package digest" [FStr (cl_Alias c)]))
    else if negb (replayable c)
    then (s, Some (Errorf "plugin call is not replayable; inspect the external outcome and explicitly acknowledge it" []))
    else if decide (cl_Kind c = "credential_provider") then
      match lease with
      | None => (s, Some (Errorf "plugin release receipt is incomplete" []))
      | Some l =>
        let '(s, (_, err)) := invoke s f (MkRequest "" "release" "" "" reference (Some l)
          (MkEvent (ev_ID event) "credential.release" (ev_Node event) (ev_Status event) (ev_PlanID event) (ev_Plan event) (ev_Recheck event))) in
        (s, err)
      end
    else let '(s, (_, err)) := invoke s f (bare_request (cl_Kind c) event) in (s, err)
  end.

(** ** [Expand] (expansion.go) *)

Definition xerr (f : featureInstance) (format : string) (args : list farg) : error :=
  Errorf ("plugin.%s.%s: " +:+ format) (FStr (alias_of f) :: FStr (ft_Name (fi_feature f)) :: args).

(** [^[a-zA-Z_][a-zA-Z0-9_-]*$]. *)
Definition node_name_pattern (s : string) : bool :=
  match s with
  | "" => false
  | String c s => (is_upper c || is_lower c || is_underscore c) && forallb name_char (chars s)
  end.

Definition expand_var (f : featureInstance) (vars : gmap string value) (kv : string * (bool * option value)) : result (gmap string value) :=
  let '(key, (sensitive, decoded)) := kv in
  if sensitive : bool then Err (xerr f "expansion cannot return secrets; use input bindings" [])
  else match decoded with Some v => Ok (<[key := v]> vars) | None => Err (External "decoding plugin value") end.

Definition expand_node `{MapOrder} (f : featureInstance) (acc : list Node * gset string) (n : ExpandedNode) : result (list Node * gset string) :=
  let '(nodes, seen) := acc in
  if negb (node_name_pattern (xn_Name n)) || bool_decide (xn_Name n ∈ seen) || bool_decide (xn_Source n = "")
  then Err (xerr f "invalid or conflicting expanded node %q; use stable unique names and explicit sources" [FStr (xn_Name n)])
  else vars ← foldM (expand_var f) ∅ (range (xn_Vars n));
       Ok (nodes ++ [MkNode ∅ ∅ (xn_Name n) (xn_Source n) ∅ None vars "" ∅ ""], {[xn_Name n]} ∪ seen).

(** The ports an edge names are not checked here. *)
Definition expand_edge (f : featureInstance) (edges : list Edge) (x : ExpandedEdge) : result (list Edge) :=
  if negb (Bool.eqb (bool_decide (xe_Input x = "")) (bool_decide (xe_Output x = "")))
  then Err (xerr f "expanded data edges require both ports" [])
  else Ok (edges ++ [if decide (xe_Input x = "") then MkEdge (bare (xe_From x)) (bare (xe_To x))
                     else MkEdge (out_port (xe_From x) (xe_Output x)) (in_port (xe_To x) (xe_Input x))]).

Definition apply_expansion `{MapOrder} (f : featureInstance) (acc : list Node * list Edge * gset string) (x : Expansion) :
    result (list Node * list Edge * gset string) :=
  let '(nodes, edges, seen) := acc in
  '(nodes, seen) ← foldM (expand_node f) (nodes, seen) (xp_Nodes x);
  edges ← foldM (expand_edge f) edges (xp_Edges x);
  Ok (nodes, edges, seen).

Fixpoint expand_features `{MapOrder} (fs : list featureInstance) (s : lstate) (acc : list Node * list Edge * gset string) :
    lstate * result (list Node * list Edge * gset string) :=
  match fs with
  | [] => (s, Ok acc)
  | f :: fs =>
    if negb (bool_decide (ft_Kind (fi_feature f) = "expansion")) then expand_features fs s acc
    else match invoke s f (bare_request "expand" (node_event "config.expand" "")) with
         | (s, (_, Some err)) => (s, Err err)
         | (s, (response, None)) =>
           match rs_Expansion response with
           | None => (s, Err (xerr f "expansion returned no declarations" []))
           | Some x => match apply_expansion f acc x with
                       | Ok acc => expand_features fs s acc
                       | Err err => (s, Err err)
                       end
           end
         end
  end.

Definition set_declarations (bp : Blueprint) (nodes : list Node) (edges : list Edge) : Blueprint :=
  MkBlueprint (bp_Execution bp) nodes edges (bp_Groups bp) (bp_Uses bp) (bp_Vendor bp) (bp_TFVars bp) (bp_Lock bp) (bp_Runtimes bp)
    (bp_ContractMode bp) (bp_Contracts bp) (bp_Snapshots bp).

(** The blueprint is replaced only when every expansion was accepted. *)
Definition Expand `{MapOrder} (s : lstate) (bp : Blueprint) : lstate * Blueprint * option error :=
  let seen := list_to_set ((bn_Name <$> bp_Nodes bp) ++ (u_As <$> bp_Uses bp)) in
  match expand_features features s (bp_Nodes bp, bp_Edges bp, seen) with
  | (s, Err err) => (s, bp, Some err)
  | (s, Ok (nodes, edges, _)) =>
    let '(s, err) := Emit s (MkEvent "" "config.expand" "" "expanded" "" None false) in
    (s, set_declarations bp nodes edges, err)
  end.
End Lifecycle.

(** Recovery only talks to credential providers. *)
Definition NewCredentialRecovery (Resolve : PluginConfig → result Package) (featureConfigDigest : PluginConfig → result string)
    (executionID : string) (configs : list PluginConfig) : result (list featureInstance) :=
  features ← NewLifecycle Resolve featureConfigDigest "recovery" executionID configs;
  Ok (filter (λ f, ft_Kind (fi_feature f) = "credential_provider") features).

(** What binds a saved plan to the plugins of its blueprint: every declaration
    with the digest of the package it is locked to; [digest_of] is the hash of
    the document. *)
Definition Binding (Resolve : PluginConfig → result Package) (digest_of : gmap string (PluginConfig * string) → result string)
    (configs : list PluginConfig) : result string :=
  if bool_decide (length configs = 0) then Ok ""
  else
    bindings ← foldM (λ bindings c, p ← Resolve c; Ok (<[pg_Name c := (c, pk_Digest p)]> bindings)) ∅ configs;
    digest_of bindings.

(** ** Receipts of a command without an execution (lifecycle.go) *)

(** The working directory once it is made, the calls in memory, and the
    document that a rename puts in place. *)
Record receipts := MkReceipts { rc_work : string; rc_calls : list CallRecord; rc_disk : option (list CallRecord) }.

(** What the system answers: a directory, the encoding, the scratch file, its
    content, the rename and the last synchronisation. *)
Record receipt_answers := MkReceiptAnswers {
  la_directory : string → option error; la_encode : option error; la_scratch : option error;
  la_write : option error; la_rename : option error; la_sync : option error;
}.

Definition prepareWork (a : receipt_answers) (dir invocation work : string) : result string :=
  if negb (bool_decide (work = "")) then Ok work
  else
    let make (path part : string) := let path := Join [path; part] in match la_directory a path with Some err => Err err | None => Ok path end in
    foldM make dir [".terragraph"; "plugins"; "work"; "runtime-" +:+ invocation].

Definition call_limit : nat := Z.to_nat 10000.

Definition put_call (calls : list CallRecord) (call : CallRecord) : result (list CallRecord) :=
  match list_find (λ old, cl_ID old = cl_ID call) calls with
  | Some (i, _) => Ok (<[i := call]> calls)
  | None => if Nat.leb call_limit (length calls) then Err (Errorf "plugin call limit reached" []) else Ok (calls ++ [call])
  end.

(** The first step that fails, if one does. *)
Definition earliest_failure (l : list (option error)) : option error := head (omap id l).

Definition recordLocal (a : receipt_answers) (dir invocation : string) (r : receipts) (call : CallRecord) : receipts * option error :=
  match prepareWork a dir invocation (rc_work r) with
  | Err err => (r, Some err)
  | Ok work =>
    let kept := MkReceipts work (rc_calls r) (rc_disk r) in
    match put_call (rc_calls r) call with
    | Err err => (kept, Some err)
    | Ok next =>
      match earliest_failure [la_encode a; la_scratch a; la_write a; la_rename a] with
      | Some err => (kept, Some err)
      | None => (MkReceipts work next (Some next), la_sync a)
      end
    end
  end.

(** The memory is what the document says, one record for a call. *)
Definition receipts_ok (r : receipts) : Prop :=
  default [] (rc_disk r) = rc_calls r ∧ NoDup (cl_ID <$> rc_calls r) ∧ length (rc_calls r) ≤ call_limit.

Lemma put_call_ok calls call next : NoDup (cl_ID <$> calls) → length calls ≤ call_limit → put_call calls call = Ok next →
  NoDup (cl_ID <$> next) ∧ length next ≤ call_limit ∧ call ∈ next ∧ ∀ old, old ∈ calls → cl_ID old ≠ cl_ID call → old ∈ next.
Proof.
  intros Hnd Hlen. unfold put_call. destruct (list_find _ calls) as [[i old]|] eqn:Hf.
  - apply list_find_Some in Hf as (Hi & Hid & _). intros [= <-].
    assert (cl_ID <$> <[i := call]> calls = cl_ID <$> calls) as Hids.
    { rewrite list_fmap_insert, <- Hid. apply list_insert_id. by rewrite list_lookup_fmap, Hi. }
    rewrite Hids, length_insert. split; [done|]. split; [done|].
    split; [apply list_elem_of_insert; by eapply lookup_lt_Some|]. intros o [j Hj]%list_elem_of_lookup Hne.
    apply list_elem_of_lookup. exists j. rewrite list_lookup_insert_ne; [done|]. intros ->. congruence.
  - destruct (Nat.leb_spec call_limit (length calls)) as [Hle|Hlt]; [done|]. intros [= <-].
    apply list_find_None in Hf. split; [|split; [|split]].
    + rewrite fmap_app. apply NoDup_app. split; [done|]. split; [|by apply NoDup_singleton].
      intros x (o & -> & Ho)%list_elem_of_fmap Hx%list_elem_of_singleton. rewrite Forall_forall in Hf. by apply (Hf o).
    + rewrite length_app. simpl. lia.
    + set_solver.
    + set_solver.
Qed.

(** Whatever fails, the document and the memory agree and hold one record for a
    call; a call recorded without an error is on the disk, and no other is lost. *)
Lemma recordLocal_durable a dir invocation r call r' err : receipts_ok r → recordLocal a dir invocation r call = (r', err) →
  receipts_ok r' ∧ (err = None → ∃ calls, rc_disk r' = Some calls ∧ call ∈ calls)
  ∧ ∀ old, old ∈ rc_calls r → cl_ID old ≠ cl_ID call → old ∈ default [] (rc_disk r').
Proof.
  intros (Hd & Hnd & Hlen).
  assert (∀ w (e : error), receipts_ok (MkReceipts w (rc_calls r) (rc_disk r)) ∧ (Some e = None → ∃ calls, rc_disk r = Some calls ∧ call ∈ calls)
    ∧ ∀ old, old ∈ rc_calls r → cl_ID old ≠ cl_ID call → old ∈ default [] (rc_disk r)) as Hkept.
  { intros w e. split; [by split_and!|]. split; [done|]. by rewrite Hd. }
  unfold recordLocal. destruct (prepareWork _ _ _ _) as [work|e]; [|intros [= <- <-]; exact (Hkept (rc_work r) e)].
  destruct (put_call _ _) as [next|e] eqn:Hput; [|intros [= <- <-]; exact (Hkept work e)].
  destruct (put_call_ok _ _ _ Hnd Hlen Hput) as (Hn & Hl & Hc & Ho).
  destruct (earliest_failure _) as [e|]; intros [= <- <-]; [exact (Hkept work e)|]. split; [by split_and!|]. split; [by eexists|done].
Qed.
