(* ===== verification/PluginsProofs.v ===== *)
(** What the plugin lifecycle guarantees: a call is recorded before it is made,
    an unknown outcome stays on record, gates fail closed, plan evidence
    reaches only those granted it, credentials stay inside their allowlists and
    every lease is released or reported. *)
From S2P Require Import Prelude GoLib Blueprint Module Graph Topo Selection Gate Execution Store Journal Hcl Parse PluginPackage Plugins.

Section Facts.
Context (lw : LifecycleWorld) (features : list featureInstance) (operation : string).

(** ** The trace only grows *)

Lemma record_call_trace s c s' err : record_call lw s c = (s', err) →
  lc_trace s' = lc_trace s ∧ (err = None → lw_record lw = None) ∨ lc_trace s' = PRecorded c :: lc_trace s ∧ err = None.
Proof.
  unfold record_call. destruct (lw_record lw) as [record|]; [|intros [= <- <-]; by left].
  destruct (record (lc_trace s) c); intros [= <- <-]; [by left|by right].
Qed.

Lemma session_for_trace s f s' err : session_for lw operation s f = (s', err) →
  lc_trace s' = lc_trace s ∨ lc_trace s' = POpened (alias_of f) :: lc_trace s.
Proof.
  unfold session_for. destruct (lc_closed s); [intros [= <- <-]; by left|].
  destruct (lc_failed s !! alias_of f); [intros [= <- <-]; by left|]. case_decide; [intros [= <- <-]; by left|].
  destruct (_ && _); [intros [= <- <-]; by left|]. destruct (lw_open lw _ _); intros [= <- <-]; [by right|by left|by left].
Qed.

(** The requests an invocation sends. *)
Definition sent (f : featureInstance) (q : Request) (s : lstate) : Request :=
  MkRequest (rq_ID q) (rq_Action q) (alias_of f) (ft_Name (fi_feature f)) (rq_Reference q) (rq_Lease q) (number_event s (rq_Event q)).2.

(** The last of the calls made, and what it answered. *)
Definition answered (tr : ptrace) (q : Request) (a : Response + call_failure) : Prop :=
  ∃ pre, PCalled q :: pre `suffix_of` tr ∧ lw_answer lw pre q = a.

Definition call_failure_of (a : Response + call_failure) : option CallError :=
  match a with inl _ => None | inr failure => cf_call failure end.

(** Attempts add only calls of their request; a repeated call is harmless. *)
Lemma attempts_trace n s f q s' a : attempts lw n s f q = (s', a) →
  ∃ k, lc_trace s' = replicate k (PCalled q) ++ lc_trace s ∧ 1 ≤ k ≤ S n ∧ (repeatable f = false → k = 1) ∧
    ∃ last, answered (lc_trace s') q last ∧ (∀ r, a = inl r → last = inl r) ∧
      (call_failure_of a = call_failure_of last ∨ repeatable f = true).
Proof.
  revert s. induction n as [|n IH]; intros s; cbn [attempts].
  { intros [= <- <-]. exists 1. split_and!; [done|lia|lia|done|]. eexists. split; [by exists (lc_trace s)|by split; [|left]]. }
  assert (∀ s' a, s' = emit_p s (PCalled q) → (∀ r, a = inl r → lw_answer lw (lc_trace s) q = inl r) →
    (call_failure_of a = call_failure_of (lw_answer lw (lc_trace s) q) ∨ repeatable f = true) →
    ∃ k, lc_trace s' = replicate k (PCalled q) ++ lc_trace s ∧ 1 ≤ k ≤ S (S n) ∧ (repeatable f = false → k = 1) ∧
      ∃ last, answered (lc_trace s') q last ∧ (∀ r, a = inl r → last = inl r) ∧ (call_failure_of a = call_failure_of last ∨ repeatable f = true)) as Hone.
  { intros s1 a1 -> Hr Hc. exists 1. split_and!; [done|lia|lia|done|]. exists (lw_answer lw (lc_trace s) q). split; [by exists (lc_trace s)|done]. }
  destruct (lw_answer lw (lc_trace s) q) as [r|failure] eqn:Ha.
  { intros [= <- <-]. apply Hone; [done|by intros ? [= ->]|by left]. }
  destruct (cf_call failure) as [call|] eqn:Hcall; [|intros [= <- <-]; apply Hone; [done|done|by left]].
  destruct (negb (ce_Retryable call) || ce_Fatal call || negb (repeatable f)) eqn:Hstop; [intros [= <- <-]; apply Hone; [done|done|by left]|].
  assert (repeatable f = true) as Hrep by (by destruct (repeatable f); [|rewrite orb_true_r in Hstop]).
  destruct (lw_wait lw _).
  - intros (k & Hk & Hle & Hone' & last & Hans & Hlast)%IH. exists (S k). split_and!; [|lia|lia|congruence|].
    + rewrite Hk. cbn [replicate]. rewrite replicate_cons_app. cbn. rewrite <-app_assoc. done.
    + exists last. done.
  - intros [= <- <-]. apply Hone; [done|done|by right].
  - intros [= <- <-]. apply Hone; [done|done|by right].
Qed.

(** ** Invariants of the trace *)

(** What may be sent to a feature: plan evidence only with plan access. *)
Definition plan_allowed (f : featureInstance) (e : Event) : Prop :=
  ev_Plan e = None ∨ pg_PlanAccess (fi_config f) = true ∧ ft_Kind (fi_feature f) ≠ "observer".

Lemma number_event_trace s e : lc_trace (number_event s e).1 = lc_trace s.
Proof. unfold number_event. by case_decide. Qed.
Lemma number_event_plan s e : ev_Plan (number_event s e).2 = ev_Plan e.
Proof. unfold number_event. by case_decide. Qed.
Lemma number_event_phase s e : ev_Phase (number_event s e).2 = ev_Phase e.
Proof. unfold number_event. by case_decide. Qed.
Lemma number_event_node s e : ev_Node (number_event s e).2 = ev_Node e.
Proof. unfold number_event. by case_decide. Qed.

Definition pending_for (q : Request) (c : CallRecord) : Prop :=
  cl_ID c = lw_digest lw [ev_ID (rq_Event q); rq_Alias q; rq_Feature q; rq_Action q] ∧
  cl_Alias c = rq_Alias q ∧ cl_Feature c = rq_Feature q ∧ cl_Status c = "pending".

(** A request names a plugin and one of its features. *)
Definition addressed (f : featureInstance) (q : Request) : Prop :=
  rq_Alias q = alias_of f ∧ rq_Feature q = ft_Name (fi_feature f).

(** A property of traces the events of an invocation keep. *)
Record kept (P : ptrace → Prop) : Prop := {
  kept_record c tr : P tr → P (PRecorded c :: tr);
  kept_open alias tr : P tr → P (POpened alias :: tr);
  kept_call f q tr : P tr → f ∈ features → plan_allowed f (rq_Event q) → addressed f q →
    (is_Some (lw_record lw) → ∃ c, PRecorded c ∈ tr ∧ pending_for q c) → P (PCalled q :: tr);
}.

Section Kept.
Context (P : ptrace → Prop) (HP : kept P).

Lemma invoke_call_kept s f q : f ∈ features → plan_allowed f (rq_Event q) → P (lc_trace s) →
  P (lc_trace (invoke_call lw operation s f q).1).
Proof.
  intros Hf Hplan Hs. unfold invoke_call. pose proof (number_event_trace s (rq_Event q)) as Htr.
  pose proof (number_event_plan s (rq_Event q)) as Hpl. destruct (number_event s (rq_Event q)) as [s0 e]. simpl in Htr, Hpl.
  destruct (external f && no_record lw && _); [by cbn; rewrite Htr|].
  set (q' := MkRequest _ _ _ _ _ _ _). set (pending := call_record lw operation f q' _ _ _).
  destruct (record_call lw s0 pending) as [s1 rec_err] eqn:Hrec.
  assert (P (lc_trace s1)) as H1.
  { apply record_call_trace in Hrec as [[Ht _]|[Ht _]]; rewrite Ht, Htr; [done|by apply HP]. }
  destruct rec_err; [done|].
  assert (is_Some (lw_record lw) → PRecorded pending ∈ lc_trace s1) as Hpend.
  { intros [r Hr]. apply record_call_trace in Hrec as [[_ Hn]|[Ht _]]; [|rewrite Ht; by left]. by rewrite Hn in Hr. }
  destruct (session_for lw operation s1 f) as [s2 serr] eqn:Hses.
  assert (P (lc_trace s2) ∧ (is_Some (lw_record lw) → PRecorded pending ∈ lc_trace s2)) as [H2 Hpend2].
  { apply session_for_trace in Hses as [-> | ->]; [done|]. split; [by apply HP|]. intros Hr. right. by apply Hpend. }
  assert (∀ s3 a, (match serr with Some failure => (s2, inr failure) | None => attempts lw 2 s2 f q' end) = (s3, a) → P (lc_trace s3)) as H3.
  { intros s3 a Heq. destruct serr; [by injection Heq as <- <-|]. apply attempts_trace in Heq as (k & -> & _).
    induction k as [|k IH]; [done|]. cbn. apply (kept_call P HP f); [done|done|by destruct Hplan as [Hn|]; [left; cbn; congruence|right]|done|].
    intros Hr. exists pending. split; [|done]. apply elem_of_app. right. by apply Hpend2. }
  destruct serr as [failure|].
  - destruct (record_status f (inr failure)) as [status code]. destruct (record_call lw s2 _) as [s4 rec_err'] eqn:Hrec'.
    cbn. apply record_call_trace in Hrec' as [[Ht _]|[Ht _]]; rewrite Ht; [done|by apply HP].
  - destruct (attempts lw 2 s2 f q') as [s3 a] eqn:Hat. specialize (H3 _ _ eq_refl).
    destruct (record_status f a) as [status code]. destruct (record_call lw s3 _) as [s4 rec_err'] eqn:Hrec'.
    cbn. apply record_call_trace in Hrec' as [[Ht _]|[Ht _]]; rewrite Ht; [done|by apply HP].
Qed.

Lemma visible_allowed f e : plan_allowed f (visible_event f e).
Proof.
  unfold visible_event. destruct (negb _ || _) eqn:Hv; [by left|]. apply orb_false_iff in Hv as [Ha%negb_false_iff Ho%bool_decide_eq_false]. by right.
Qed.

Lemma emit_features_kept fs s e req : fs ⊆ features → P (lc_trace s) → P (lc_trace (emit_features lw operation fs s e req).1).
Proof.
  revert s req. induction fs as [|f fs IH]; intros s req Hfs Hs; [done|]. cbn [emit_features].
  destruct (negb (subscribes operation f (ev_Phase e))); [apply IH; [set_solver|done]|].
  unfold dispatch. pose proof (invoke_call_kept s f (bare_request (ft_Kind (fi_feature f)) (visible_event f e))) as Hk.
  destruct (invoke_call lw operation s f _) as [s1 [response err]]. cbn in Hk |- *.
  apply IH; [set_solver|]. apply Hk; [set_solver|apply visible_allowed|done].
Qed.

Lemma Emit_kept s e : P (lc_trace s) → P (lc_trace (Emit lw features operation s e).1).
Proof.
  intros Hs. unfold Emit. destruct (_ && _); [done|].
  set (s1 := if decide _ then _ else _). assert (lc_trace s1 = lc_trace s) as Ht by (unfold s1; by case_decide).
  pose proof (number_event_trace s1 e) as Hn. destruct (number_event s1 e) as [s2 e2]. simpl in Hn.
  apply emit_features_kept; [done|]. by rewrite Hn, Ht.
Qed.

Lemma invoke_kept s f q : f ∈ features → plan_allowed f (rq_Event q) → P (lc_trace s) →
  P (lc_trace (invoke lw features operation s f q).1).
Proof.
  intros Hf Hplan Hs. unfold invoke. pose proof (number_event_trace s (rq_Event q)) as Htr.
  pose proof (number_event_plan s (rq_Event q)) as Hpl. destruct (number_event s (rq_Event q)) as [s0 e]. simpl in Htr, Hpl.
  set (q' := MkRequest _ _ _ _ _ _ _). pose proof (invoke_call_kept s0 f q' Hf) as Hk.
  destruct (invoke_call lw operation s0 f q') as [s1 [response [err|]]]; cbn in Hk.
  - cbn. apply Hk; [by destruct Hplan as [Hn|]; [left; congruence|right]|by rewrite Htr].
  - assert (P (lc_trace s1)) as H1 by (apply Hk; [by destruct Hplan as [Hn|]; [left; congruence|right]|by rewrite Htr]).
    destruct (mem _ _); [|done]. pose proof (Emit_kept s1 (terminal_event e) H1) as HE.
    destruct (Emit lw features operation s1 (terminal_event e)) as [s2 [err|]]; done.
Qed.

Lemma lookup_elem alias feature kind f : lookup features alias feature kind = Ok f → f ∈ features.
Proof. unfold lookup. destruct (List.find _ _) eqn:Hfind; [|done]. intros [= <-]. apply find_some in Hfind as [Hin _]. by apply list_elem_of_In. Qed.

Lemma ResolveInput_kept s node b : P (lc_trace s) → P (lc_trace (ResolveInput lw features operation s node b).1).
Proof.
  intros Hs. unfold ResolveInput. destruct (lookup features _ _ _) as [f|] eqn:Hf; [|done].
  pose proof (invoke_kept s f (MkRequest "" "resolve" "" "" (pb_Reference b) None (node_event "input.resolve" node))
    (lookup_elem _ _ _ _ Hf) (or_introl eq_refl) Hs) as Hk.
  destruct (invoke _ _ _ _ _ _) as [s1 [response [err|]]]; [done|]. cbn in Hk.
  destruct (rs_Value response) as [[v|]|]; [|done..]. destruct (rs_ExpiresAt response); [|done]. by destruct (not_expired _ _ _).
Qed.

Lemma Credentials_kept `{MapOrder} s node bs : P (lc_trace s) → P (lc_trace (Credentials lw features operation s node bs).1).
Proof.
  intros Hs. unfold Credentials. destruct (sc_err _); [done|]. destruct (sc_ready _); [done|].
  assert (∀ l s, P (lc_trace s) → P (lc_trace (acquire_all lw features operation s node l).1)) as Hall.
  { clear Hs s. intros l. induction l as [|[key b] l IH]; intros s Hs; [done|]. cbn [acquire_all].
    assert (P (lc_trace (acquire_binding lw features operation s node key b).1)) as Hb.
    { unfold acquire_binding. destruct (lookup features _ _ _) as [f|] eqn:Hf; [|done].
      pose proof (invoke_kept s f (MkRequest "" "acquire" "" "" (pb_Reference b) None (node_event "credential.acquire" node))
        (lookup_elem _ _ _ _ Hf) (or_introl eq_refl) Hs) as Hk.
      destruct (invoke _ _ _ _ _ _) as [s1 [response [err|]]]; [done|]. cbn in Hk. by destruct (accept_credentials _ _ _ _ _ _ _ _). }
    destruct (acquire_binding _ _ _ _ _ _ _) as [s1 [err|]]; [done|]. by apply IH. }
  pose proof (Hall (sorted_entries bs) (set_scope s node (scope_of s node)) Hs) as Hk.
  destruct (acquire_all _ _ _ _ _ _) as [s1 [err|]]; done.
Qed.

Lemma recheck_kept fs s e : fs ⊆ features → P (lc_trace s) → P (lc_trace (recheck_features lw features operation fs s e).1).
Proof.
  revert s. induction fs as [|f fs IH]; intros s Hfs Hs; [done|]. cbn [recheck_features].
  destruct (plan_gate_feature f) eqn:Hg; cbn [negb]; [|apply IH; [set_solver|done]].
  pose proof (invoke_kept s f (bare_request "gate" (recheck_event f e))) as Hk.
  destruct (invoke _ _ _ _ _ _) as [s1 [response err]]. cbn in Hk.
  assert (P (lc_trace s1)) as H1.
  { apply Hk; [set_solver| |done]. unfold recheck_event. destruct (pg_PlanAccess (fi_config f)) eqn:Hp; [|by left]. right.
    split; [done|]. unfold plan_gate_feature in Hg. apply andb_true_iff in Hg as [->%bool_decide_eq_true _]. done. }
  assert (fs ⊆ features) as Hfs' by set_solver.
  destruct (match err with Some _ => _ | None => _ end); [|by apply IH]. case_decide; [done|by apply IH].
Qed.
End Kept.

(** ** The scopes *)

Lemma number_event_scopes s e : lc_scopes (number_event s e).1 = lc_scopes s.
Proof. unfold number_event. by case_decide. Qed.

Lemma record_call_scopes s c : lc_scopes (record_call lw s c).1 = lc_scopes s.
Proof. unfold record_call. destruct (lw_record lw) as [r|]; [|done]. by destruct (r (lc_trace s) c). Qed.

Lemma session_for_scopes s f : lc_scopes (session_for lw operation s f).1 = lc_scopes s.
Proof.
  unfold session_for. destruct (lc_closed s); [done|]. destruct (lc_failed s !! alias_of f); [done|].
  case_decide; [done|]. destruct (_ && _); [done|]. by destruct (lw_open lw _ _).
Qed.

Lemma attempts_scopes n s f q : lc_scopes (attempts lw n s f q).1 = lc_scopes s.
Proof.
  revert s. induction n as [|n IH]; intros s; [done|]. cbn [attempts]. destruct (lw_answer lw _ q) as [r|failure]; [done|].
  destruct (cf_call failure); [|done]. destruct (_ || _); [done|]. destruct (lw_wait lw _); [by rewrite IH|done|done].
Qed.

Lemma invoke_call_scopes s f q : lc_scopes (invoke_call lw operation s f q).1 = lc_scopes s.
Proof.
  unfold invoke_call. pose proof (number_event_scopes s (rq_Event q)) as Hn. destruct (number_event s (rq_Event q)) as [s0 e]. simpl in Hn.
  destruct (_ && _ && _); [done|]. match goal with |- context [record_call lw s0 ?c] => pose proof (record_call_scopes s0 c) as Hr; destruct (record_call lw s0 c) as [s1 [err|]] end;
    cbn in Hr |- *; [congruence|]. set (q' := MkRequest _ _ _ _ _ _ _).
  pose proof (session_for_scopes s1 f) as Hs. destruct (session_for lw operation s1 f) as [s2 serr]. simpl in Hs.
  pose proof (attempts_scopes 2 s2 f q') as Ha.
  assert (lc_scopes (match serr with Some failure => (s2, inr failure) | None => attempts lw 2 s2 f q' end).1 = lc_scopes s2) as H3
    by (by destruct serr).
  destruct (match serr with Some _ => _ | None => _ end) as [s3 a]. destruct (record_status f a) as [status code].
  match goal with |- context [record_call lw s3 ?c] => pose proof (record_call_scopes s3 c) as Hr'; destruct (record_call lw s3 c) as [s4 err'] end.
  cbn in H3, Hr' |- *. congruence.
Qed.

Lemma emit_features_scopes fs s e req : lc_scopes (emit_features lw operation fs s e req).1 = lc_scopes s.
Proof.
  revert s req. induction fs as [|f fs IH]; intros s req; [done|]. cbn [emit_features].
  destruct (negb _); [by apply IH|]. unfold dispatch.
  pose proof (invoke_call_scopes s f (bare_request (ft_Kind (fi_feature f)) (visible_event f e))) as Hk.
  destruct (invoke_call lw operation s f _) as [s1 [response err]]. cbn in Hk |- *. by rewrite IH.
Qed.

Lemma Emit_scopes s e : lc_scopes (Emit lw features operation s e).1 = lc_scopes s.
Proof.
  unfold Emit. destruct (_ && _); [done|]. set (s1 := if decide _ then _ else _).
  assert (lc_scopes s1 = lc_scopes s) as Ht by (unfold s1; by case_decide).
  pose proof (number_event_scopes s1 e) as Hn. destruct (number_event s1 e) as [s2 e2]. simpl in Hn.
  rewrite emit_features_scopes. congruence.
Qed.

Lemma invoke_scopes s f q : lc_scopes (invoke lw features operation s f q).1 = lc_scopes s.
Proof.
  unfold invoke. pose proof (number_event_scopes s (rq_Event q)) as Hn. destruct (number_event s (rq_Event q)) as [s0 e]. simpl in Hn.
  set (q' := MkRequest _ _ _ _ _ _ _). pose proof (invoke_call_scopes s0 f q') as Hk.
  destruct (invoke_call lw operation s0 f q') as [s1 [response [err|]]]; cbn in Hk; [cbn; congruence|].
  destruct (mem _ _); [|cbn; congruence]. pose proof (Emit_scopes s1 (terminal_event e)) as HE.
  destruct (Emit lw features operation s1 (terminal_event e)) as [s2 [err|]]; cbn in HE |- *; congruence.
Qed.

(** Leases come from features of the lifecycle; the environment is allowed. *)
Definition scope_good (sc : credentialScope) : Prop :=
  Forall (λ l, cr_feature l ∈ features) (sc_leases sc) ∧
  ∀ k, is_Some (sc_env sc !! k) → CredentialEnvironmentAllowed k = true.

Definition scopes_good (s : lstate) : Prop := ∀ node sc, lc_scopes s !! node = Some sc → scope_good sc.

Lemma empty_scope_good : scope_good empty_scope.
Proof. split; [constructor|]. intros k [v Hk]. cbn [sc_env empty_scope] in Hk. by rewrite lookup_empty in Hk. Qed.

Lemma scope_of_good s node : scopes_good s → scope_good (scope_of s node).
Proof. intros Hs. unfold scope_of. destruct (lc_scopes s !! node) as [sc|] eqn:Hsc; [by eapply Hs|apply empty_scope_good]. Qed.

Lemma set_scope_good s node sc : scopes_good s → scope_good sc → scopes_good (set_scope s node sc).
Proof.
  intros Hs Hsc node' sc'. cbn. destruct (decide (node' = node)) as [->|Hne]; [rewrite lookup_insert_eq; by intros [= <-]|].
  rewrite lookup_insert_ne by done. apply Hs.
Qed.

Lemma same_scopes_good s s' : lc_scopes s' = lc_scopes s → scopes_good s → scopes_good s'.
Proof. intros Heq Hs node sc. rewrite Heq. apply Hs. Qed.

Lemma hold_lease_good sc f b r : f ∈ features → scope_good sc → scope_good (hold_lease sc f b r).
Proof. intros Hf [Hl He]. unfold hold_lease. destruct (rs_Lease r); [|done]. split; [|done]. cbn. apply Forall_app. split; [done|]. by repeat constructor. Qed.

Lemma fail_scope_good sc e : scope_good sc → scope_good (fail_scope sc e).
Proof. by intros [? ?]. Qed.

Lemma supply_all_good node key b sc l : scope_good sc → scope_good (supply_all node key b sc l).1.
Proof.
  revert sc. induction l as [|kv l IH]; intros sc Hsc; [done|]. cbn [supply_all]. unfold supply_env.
  destruct (negb _ || negb _) eqn:Ha; [by apply fail_scope_good|]. apply orb_false_iff in Ha as [_ Ha%negb_false_iff].
  case_bool_decide; [by apply fail_scope_good|]. apply IH. destruct Hsc as [Hl He]. split; [done|]. cbn.
  intros k Hk. destruct (decide (k = kv.1)) as [->|Hne]; [done|]. rewrite lookup_insert_ne in Hk by done. by apply He.
Qed.

Lemma accept_credentials_good `{MapOrder} s node key b f sc r : f ∈ features → scope_good sc → scope_good (accept_credentials lw s node key b f sc r).1.
Proof.
  intros Hf Hsc. unfold accept_credentials. case_decide; [by apply fail_scope_good, hold_lease_good|].
  assert (scope_good (hold_lease (set_identity sc key (rs_Identity r)) f b r)) as Hh by (apply hold_lease_good; [done|by destruct Hsc]).
  destruct (match rs_Lease r with Some l => _ | None => _ end); [by apply fail_scope_good|].
  case_decide; [by apply fail_scope_good|]. by apply supply_all_good.
Qed.

Lemma acquire_all_good `{MapOrder} node l s : scopes_good s → scopes_good (acquire_all lw features operation s node l).1.
Proof.
  revert s. induction l as [|[key b] l IH]; intros s Hs; [done|]. cbn [acquire_all].
  assert (scopes_good (acquire_binding lw features operation s node key b).1) as Hb.
  { unfold acquire_binding. destruct (lookup features _ _ _) as [f|] eqn:Hf; [|done]. apply lookup_elem in Hf.
    match goal with |- context [invoke _ _ _ s f ?q] => pose proof (invoke_scopes s f q) as Hk; destruct (invoke lw features operation s f q) as [s1 [response err]] end.
    cbn in Hk. assert (scopes_good s1) as H1 by by eapply same_scopes_good. destruct err as [err|].
    - apply set_scope_good; [done|]. by apply fail_scope_good, hold_lease_good, scope_of_good.
    - pose proof (accept_credentials_good s1 node key b f (scope_of s1 node) response Hf (scope_of_good s1 node H1)) as Ha.
      destruct (accept_credentials _ _ _ _ _ _ _ _) as [sc err]. by apply set_scope_good. }
  destruct (acquire_binding _ _ _ _ _ _ _) as [s1 [err|]]; [done|]. by apply IH.
Qed.

Lemma Credentials_good `{MapOrder} s node bs s' r : scopes_good s → Credentials lw features operation s node bs = (s', r) →
  scopes_good s' ∧ ∀ env, r = Ok env → ∀ k, is_Some (env !! k) → CredentialEnvironmentAllowed k = true.
Proof.
  intros Hs. unfold Credentials. pose proof (set_scope_good s node _ Hs (scope_of_good s node Hs)) as Hs0.
  destruct (sc_err _); [intros [= <- <-]; by split|]. destruct (sc_ready _).
  { intros [= <- <-]. split; [done|]. intros env. destruct (lw_cancelled _ _ _); [done|]. intros [= <-]. apply scope_of_good, Hs0. }
  pose proof (acquire_all_good node (sorted_entries bs) _ Hs0) as Ha.
  destruct (acquire_all _ _ _ _ _ _) as [s1 [err|]]; intros [= <- <-]; [by split|]. cbn in Ha.
  pose proof (scope_of_good s1 node Ha) as [Hl He]. split; [apply set_scope_good; [done|by split]|]. intros env [= <-]. exact He.
Qed.

Lemma ResolveInput_good s node b : scopes_good s → scopes_good (ResolveInput lw features operation s node b).1.
Proof.
  intros Hs. unfold ResolveInput. destruct (lookup features _ _ _) as [f|] eqn:Hf; [|done].
  match goal with |- context [invoke _ _ _ s f ?q] => pose proof (invoke_scopes s f q) as Hk; destruct (invoke lw features operation s f q) as [s1 [response err]] end.
  cbn in Hk. assert (scopes_good s1) as H1 by by eapply same_scopes_good. destruct err; [done|].
  destruct (rs_Value response) as [[v|]|]; [|done..]. destruct (rs_ExpiresAt response); [|done]. destruct (not_expired _ _ _); [|done].
  apply set_scope_good; [done|]. by destruct (scope_of_good s1 node H1).
Qed.

Lemma recheck_scopes fs s e : lc_scopes (recheck_features lw features operation fs s e).1 = lc_scopes s.
Proof.
  revert s. induction fs as [|f fs IH]; intros s; [done|]. cbn [recheck_features]. destruct (negb _); [by apply IH|].
  match goal with |- context [invoke _ _ _ s f ?q] => pose proof (invoke_scopes s f q) as Hk; destruct (invoke lw features operation s f q) as [s1 [response err]] end.
  cbn in Hk. destruct (match err with Some _ => _ | None => _ end); [case_decide; [done|]|]; by rewrite IH.
Qed.

(** ** What an invocation that succeeds establishes *)

Lemma grows_kept tr0 : kept (suffix tr0).
Proof. split; intros; by apply suffix_cons_r. Qed.

Lemma answered_grows tr tr' q a : tr `suffix_of` tr' → answered tr q a → answered tr' q a.
Proof. intros Ht (pre & Hpre & Ha). exists pre. split; [by transitivity tr|done]. Qed.

Lemma join_errors_None a b : join_errors a b = None ↔ a = None ∧ b = None.
Proof. destruct a, b; naive_solver. Qed.

Lemma record_call_suffix s c : lc_trace s `suffix_of` lc_trace (record_call lw s c).1.
Proof.
  destruct (record_call lw s c) as [s' err] eqn:Hr. cbn. apply record_call_trace in Hr as [[-> _]|[-> _]]; [done|by apply suffix_cons_r].
Qed.

Lemma invoke_call_Ok s f q s' r : invoke_call lw operation s f q = (s', (r, None)) →
  answered (lc_trace s') (sent f q s) (inl r).
Proof.
  unfold invoke_call, sent. destruct (number_event s (rq_Event q)) as [s0 e]. cbn [snd].
  destruct (_ && _ && _); [done|]. destruct (record_call lw s0 _) as [s1 [err|]]; [done|].
  set (q' := MkRequest _ _ _ _ _ _ _). destruct (session_for lw operation s1 f) as [s2 [failure|]].
  { destruct (record_status f _) as [status code]. destruct (record_call lw s2 _) as [s4 err']. destruct (lw_record lw), err'; by intros [=]. }
  destruct (attempts lw 2 s2 f q') as [s3 a] eqn:Hat. destruct (record_status f a) as [status code].
  match goal with |- context [record_call lw s3 ?c] => pose proof (record_call_suffix s3 c) as Hsuf; destruct (record_call lw s3 c) as [s4 err'] end.
  apply attempts_trace in Hat as (k & _ & _ & _ & last & Hans & Hr & _). cbn in Hsuf.
  destruct a as [r'|failure]; [|destruct (lw_record lw), err'; by intros [=]].
  intros Heq. assert (s4 = s' ∧ r' = r) as [<- <-] by (destruct (lw_record lw), err'; by injection Heq).
  rewrite (Hr _ eq_refl) in Hans. by eapply answered_grows.
Qed.

(** A gate said yes: the decision and a moment at which it had not expired. *)
Definition allowed_by (tr : ptrace) (f : featureInstance) (phase : string) : Prop := ∃ q r t,
  answered tr q (inl r) ∧ rq_Alias q = alias_of f ∧ rq_Feature q = ft_Name (fi_feature f) ∧ ev_Phase (rq_Event q) = phase ∧
  rs_Decision r = "allow" ∧ t `suffix_of` tr ∧ ∀ x, rs_ExpiresAt r = Some x → (lw_now lw t < x)%Z.

Lemma allowed_by_grows tr tr' f phase : tr `suffix_of` tr' → allowed_by tr f phase → allowed_by tr' f phase.
Proof.
  intros Ht (q & r & t & Ha & Hrest). exists q, r, t. split; [by eapply answered_grows|]. split_and!; try apply Hrest.
  transitivity tr; [apply Hrest|done].
Qed.

Lemma allow_answer s' f phase q r : answered (lc_trace s') q (inl r) → rq_Alias q = alias_of f → rq_Feature q = ft_Name (fi_feature f) →
  ev_Phase (rq_Event q) = phase → rs_Decision r = "allow" → not_expired lw s' (rs_ExpiresAt r) = true → allowed_by (lc_trace s') f phase.
Proof.
  intros Ha H1 H2 H3 Hd Hx. exists q, r, (lc_trace s'). split_and!; try done.
  intros x Hexp. rewrite Hexp in Hx. by apply bool_decide_eq_true in Hx.
Qed.

Lemma invoke_call_suffix s f q : f ∈ features → plan_allowed f (rq_Event q) → lc_trace s `suffix_of` lc_trace (invoke_call lw operation s f q).1.
Proof. intros Hf Hp. by apply (invoke_call_kept (suffix (lc_trace s)) (grows_kept _)). Qed.

Lemma dispatch_allows s f e s' : f ∈ features → decides f = true → dispatch lw operation s f e = (s', None) →
  allowed_by (lc_trace s') f (ev_Phase e).
Proof.
  intros Hf Hd. unfold dispatch. destruct (invoke_call lw operation s f _) as [s1 [r [err|]]] eqn:Hi; [done|]. intros [= <- Hj].
  unfold judge in Hj. rewrite Hd in Hj. cbn [negb] in Hj. destruct (decide (rs_Decision r = "allow")) as [Ha|Hn].
  - destruct (not_expired lw s1 (rs_ExpiresAt r)) eqn:Hx; [|done]. apply invoke_call_Ok in Hi.
    eapply allow_answer; [done|done|done| |done|done]. unfold sent. cbn. rewrite number_event_phase. unfold visible_event. by destruct (negb _ || _).
  - destruct (decide (rs_Decision r = "deny")); done.
Qed.

Lemma emit_features_allows fs s e req s' : fs ⊆ features → emit_features lw operation fs s e req = (s', None) →
  req = None ∧ ∀ f, f ∈ fs → subscribes operation f (ev_Phase e) = true → decides f = true → fi_mode f = "enforce" →
    allowed_by (lc_trace s') f (ev_Phase e).
Proof.
  revert s req. induction fs as [|f fs IH]; intros s req Hfs; cbn [emit_features].
  { intros [= <- ->]. split; [done|]. intros f Hf. by apply elem_of_nil in Hf. }
  assert (fs ⊆ features) as Hfs' by set_solver. destruct (subscribes operation f (ev_Phase e)) eqn:Hsub; cbn [negb].
  - destruct (dispatch lw operation s f e) as [s1 err] eqn:Hd. intros He. pose proof (emit_features_kept (suffix (lc_trace s1)) (grows_kept _) fs s1 e
      (match err with Some _ => if decide (fi_mode f = "enforce") then join_errors req err else req | None => req end) Hfs' (reflexivity _)) as Hsuf.
    rewrite He in Hsuf. cbn in Hsuf. apply IH in He as [Hreq Hall]; [|done]. split.
    { destruct err; [|done]. case_decide; [by apply join_errors_None in Hreq as []|done]. }
    intros g [->|Hg]%elem_of_cons Hs Hdec Hm; [|by apply Hall]. destruct err as [err|].
    + rewrite decide_True in Hreq by done. by apply join_errors_None in Hreq as [_ ?].
    + eapply allowed_by_grows; [done|]. eapply dispatch_allows; [set_solver|done|done].
  - intros He. apply IH in He as [Hreq Hall]; [|done]. split; [done|]. intros g [->|Hg]%elem_of_cons Hs; [congruence|by apply Hall].
Qed.

Lemma invoke_Ok s f q s' r : f ∈ features → plan_allowed f (rq_Event q) → invoke lw features operation s f q = (s', (r, None)) →
  answered (lc_trace s') (sent f q s) (inl r).
Proof.
  intros Hf Hp. unfold invoke, sent. pose proof (number_event_plan s (rq_Event q)) as Hpl. pose proof (number_event_phase s (rq_Event q)) as Hph.
  destruct (number_event s (rq_Event q)) as [s0 e] eqn:Hn. cbn [snd] in Hpl, Hph |- *. set (q' := MkRequest _ _ _ _ _ _ _).
  destruct (invoke_call lw operation s0 f q') as [s1 [r1 [err|]]] eqn:Hi; [done|]. apply invoke_call_Ok in Hi.
  assert (sent f q' s0 = MkRequest (rq_ID q) (rq_Action q) (alias_of f) (ft_Name (fi_feature f)) (rq_Reference q) (rq_Lease q) e) as Hsent.
  { unfold sent, q'. cbn. f_equal. unfold number_event. rewrite decide_True; [done|].
    unfold number_event in Hn. case_decide; injection Hn as <- <-; [done|]. cbn. done. }
  rewrite Hsent in Hi. destruct (mem _ _); [|by intros [= <- <-]].
  pose proof (Emit_kept (suffix (lc_trace s1)) (grows_kept _) s1 (terminal_event e) (reflexivity _)) as HE.
  destruct (Emit lw features operation s1 (terminal_event e)) as [s2 emitErr]. cbn in HE.
  intros [= <- <-]. eapply answered_grows; [|done]. by destruct emitErr.
Qed.

Lemma recheck_allows fs s e s' : fs ⊆ features → recheck_features lw features operation fs s e = (s', None) →
  ∀ f, f ∈ fs → plan_gate_feature f = true → fi_mode f = "enforce" → allowed_by (lc_trace s') f (ev_Phase e).
Proof.
  revert s. induction fs as [|f fs IH]; intros s Hfs; cbn [recheck_features].
  { intros _ f Hf. by apply elem_of_nil in Hf. }
  assert (fs ⊆ features) as Hfs' by set_solver. destruct (plan_gate_feature f) eqn:Hg; cbn [negb].
  - assert (plan_allowed f (recheck_event f e)) as Hpa.
    { unfold recheck_event. destruct (pg_PlanAccess (fi_config f)) eqn:Hp; [|by left]. right.
      split; [done|]. unfold plan_gate_feature in Hg. apply andb_true_iff in Hg as [->%bool_decide_eq_true _]. done. }
    destruct (invoke lw features operation s f _) as [s1 [r err]] eqn:Hi.
    set (verdict := match err with Some _ => err | None => _ end). intros He g Hgin Hpg Hm.
    assert (verdict = None ∨ g ≠ f ∧ g ∈ fs) as Hv.
    { destruct verdict eqn:Hv; [|by left]. right. destruct (decide (fi_mode f = "enforce")); [done|].
      apply elem_of_cons in Hgin as [->|]; [done|]. split; [by intros ->|done]. }
    assert (recheck_features lw features operation fs s1 e = (s', None)) as He'.
    { destruct verdict; [|done]. by case_decide. }
    apply elem_of_cons in Hgin as [->|Hin]; [|by eapply IH]. destruct Hv as [Hv|[? _]]; [|done].
    pose proof (recheck_kept (suffix (lc_trace s1)) (grows_kept _) fs s1 e Hfs' (reflexivity _)) as Hsuf. rewrite He' in Hsuf.
    eapply allowed_by_grows; [done|]. unfold verdict in Hv. destruct err; [done|].
    destruct (bool_decide (rs_Decision r = "allow") && not_expired lw s1 (rs_ExpiresAt r)) eqn:Ha; [|done].
    apply andb_true_iff in Ha as [Ha%bool_decide_eq_true Hx]. apply invoke_Ok in Hi; [|set_solver|done].
    eapply allow_answer; [done|done|done| |done|done]. unfold sent. cbn. rewrite number_event_phase. unfold recheck_event. by destruct (pg_PlanAccess _).
  - intros He g [->|Hin]%elem_of_cons Hpg; [congruence|]. by eapply IH.
Qed.

(** ** Releases *)

Definition released (tr : ptrace) (node : string) (l : credentialLease) : Prop := ∃ q r,
  answered tr q (inl r) ∧ rq_Action q = "release" ∧ rq_Lease q = Some (cr_lease l) ∧ rq_Alias q = alias_of (cr_feature l) ∧
  ev_Node (rq_Event q) = node.

Lemma released_grows tr tr' node l : tr `suffix_of` tr' → released tr node l → released tr' node l.
Proof. intros Ht (q & r & Ha & Hrest). exists q, r. split; [by eapply answered_grows|done]. Qed.

Definition release_request (node : string) (l : credentialLease) : Request :=
  MkRequest "" "release" "" "" (cr_reference l) (Some (cr_lease l)) (node_event "credential.release" node).

Lemma release_lease_spec node acc l s' err : cr_feature l ∈ features →
  release_lease lw features operation node acc l = (s', err) →
  lc_trace acc.1 `suffix_of` lc_trace s' ∧ (err = None → acc.2 = None ∧ released (lc_trace s') node l).
Proof.
  intros Hf. unfold release_lease. destruct (invoke lw features operation acc.1 (cr_feature l) _) as [s1 [r ierr]] eqn:Hi. intros [= <- <-].
  pose proof (invoke_kept (suffix (lc_trace acc.1)) (grows_kept _) acc.1 (cr_feature l) (release_request node l) Hf (or_introl eq_refl) (reflexivity _)) as Hsuf.
  unfold release_request in Hsuf. rewrite Hi in Hsuf. split; [done|]. intros [Ha ->]%join_errors_None. split; [done|].
  apply invoke_Ok in Hi; [|done|by left]. eexists _, r. split; [done|]. unfold sent. cbn. by rewrite number_event_node.
Qed.

Lemma release_all_spec node ls acc s' err : Forall (λ l, cr_feature l ∈ features) ls →
  foldl (release_lease lw features operation node) acc ls = (s', err) →
  lc_trace acc.1 `suffix_of` lc_trace s' ∧ (err = None → acc.2 = None ∧ ∀ l, l ∈ ls → released (lc_trace s') node l).
Proof.
  revert acc. induction ls as [|l ls IH]; intros acc Hls; cbn [foldl].
  { intros [= ->]. split; [done|]. intros ->. split; [done|]. intros l Hl. by apply elem_of_nil in Hl. }
  apply Forall_cons in Hls as [Hl Hls]. destruct (release_lease _ _ _ _ _ _) as [s1 err1] eqn:Hr.
  apply release_lease_spec in Hr as [Hsuf1 H1]; [|done]. intros [Hsuf2 H2]%IH; [|done]. cbn in Hsuf2, H2.
  split; [by transitivity (lc_trace s1)|]. intros He. destruct (H2 He) as [-> Hall]. destruct (H1 eq_refl) as [Ha Hrel]. split; [done|].
  intros k [->|Hk]%elem_of_cons; [by eapply released_grows|by apply Hall].
Qed.

Lemma close_scopes_spec l acc s' err : (∀ node sc, (node, sc) ∈ l → scope_good sc) →
  foldl (close_scope lw features operation) acc l = (s', err) →
  lc_trace acc.1 `suffix_of` lc_trace s' ∧
  (err = None → acc.2 = None ∧ ∀ node sc, (node, sc) ∈ l → sc_err sc = None ∧ ∀ k, k ∈ sc_leases sc → released (lc_trace s') node k).
Proof.
  revert acc. induction l as [|[node sc] l IH]; intros acc Hl; cbn [foldl].
  { intros [= ->]. split; [done|]. intros ->. split; [done|]. intros node sc Hin. by apply elem_of_nil in Hin. }
  destruct (close_scope _ _ _ _ _) as [s1 err1] eqn:Hc. unfold close_scope in Hc. apply release_all_spec in Hc as [Hsuf1 H1].
  2:{ destruct (Hl node sc) as [Hf _]; [by left|]. apply Forall_reverse, Hf. }
  intros [Hsuf2 H2]%IH; [|intros n k Hk; apply (Hl n k); by right]. cbn in Hsuf1, H1, Hsuf2, H2.
  split; [by transitivity (lc_trace s1)|]. intros He. destruct (H2 He) as [-> Hall]. destruct (H1 eq_refl) as [[Ha Hse]%join_errors_None Hrel].
  split; [done|]. intros n k [[= -> ->]|Hk]%elem_of_cons; [|by apply Hall]. split; [done|].
  intros lease Hin. eapply released_grows; [done|]. apply Hrel. by apply elem_of_reverse.
Qed.

(** ** What is on record after an unknown outcome *)

(** The newest durable record of a call. *)
Definition last_record (tr : ptrace) (id : string) : option CallRecord :=
  List.find (λ c, bool_decide (cl_ID c = id)) (omap (λ e, match e with PRecorded c => Some c | _ => None end) tr).

Lemma last_record_cons c tr : last_record (PRecorded c :: tr) (cl_ID c) = Some c.
Proof. unfold last_record. cbn. by rewrite bool_decide_true. Qed.

Lemma last_record_open alias tr id : last_record (POpened alias :: tr) id = last_record tr id.
Proof. done. Qed.

Lemma last_record_calls k q tr id : last_record (replicate k (PCalled q) ++ tr) id = last_record tr id.
Proof. induction k as [|k IH]; [done|]. exact IH. Qed.

Lemma external_suffix f : external f = true → has_suffix (ft_Effect (fi_feature f)) "external" = true.
Proof.
  unfold external. intros Hm%mem_true. apply elem_of_cons in Hm as [->|Hm]; [by vm_compute|].
  apply list_elem_of_singleton in Hm as ->. by vm_compute.
Qed.

Lemma unresolved_record f q lease status code : external f = true → fi_mode f = "enforce" → status ∈ ["pending"; "unknown"] →
  NeedsRecovery [call_record lw operation f q lease status code] = true.
Proof.
  intros He Hm Hs. unfold NeedsRecovery. cbn [existsb]. rewrite orb_false_r.
  assert (released_keys [call_record lw operation f q lease status code] = []) as ->.
  { unfold released_keys. cbn. destruct lease; [|done]. cbn.
    assert (mem status ["completed"; "acknowledged"] = false) as ->; [|by rewrite andb_false_r].
    apply mem_false. apply elem_of_cons in Hs as [->|[->|[]%elem_of_nil]%elem_of_cons]; set_solver. }
  unfold call_unresolved, call_record. cbn [cl_Status cl_Kind cl_Lease cl_EventPhase cl_Mode cl_Effect]. rewrite (external_suffix f He), Hm.
  apply elem_of_cons in Hs as [->|[->|[]%elem_of_nil]%elem_of_cons]; rewrite decide_False by done;
    destruct lease; cbn; rewrite ?andb_false_r; repeat (destruct (bool_decide _); [done|]); cbn; try done; by rewrite ?andb_false_r, ?andb_true_r.
Qed.

(** ** The lifecycle as a transition system *)

Inductive lstep `{MapOrder} (s : lstate) : lstate → Prop :=
  | step_emit e : lstep s (Emit lw features operation s e).1
  | step_resolve node b : lstep s (ResolveInput lw features operation s node b).1
  | step_credentials node bs : lstep s (Credentials lw features operation s node bs).1
  | step_recheck e : lstep s (RecheckPlan lw features operation s e).1
  | step_note err : lstep s (AddCompletionError s err)
  | step_close cleanup : lstep s (Close lw features operation cleanup s).1.

Definition lifecycle_start : lstate := MkLState [] 0 ∅ ∅ ∅ None ∅ false.

(** Every call of a trace went to a feature of the lifecycle, carried plan
    evidence only where granted, and was on record before it was made. *)
Definition guarded (tr : ptrace) : Prop := ∀ post q pre, tr = post ++ PCalled q :: pre →
  (∃ f, f ∈ features ∧ addressed f q ∧ plan_allowed f (rq_Event q)) ∧
  (is_Some (lw_record lw) → ∃ c, PRecorded c ∈ pre ∧ pending_for q c).

Lemma guarded_other e tr : (∀ q, e ≠ PCalled q) → guarded tr → guarded (e :: tr).
Proof.
  intros He Hg [|x post] q pre; cbn; [intros [= -> _]; by destruct (He q)|]. intros [= _ Htr]. by eapply Hg.
Qed.

Lemma guarded_kept : kept guarded.
Proof.
  split.
  - intros c tr. by apply guarded_other.
  - intros alias tr. by apply guarded_other.
  - intros f q tr Hg Hf Hp Ha Hrec [|x post] q' pre; cbn; [|intros [= _ Htr]; by eapply Hg].
    intros [= <- <-]. split; [by exists f|done].
Qed.

Lemma Close_kept `{MapOrder} P cleanup s : kept P → scopes_good s → P (lc_trace s) → P (lc_trace (Close lw features operation cleanup s).1).
Proof.
  intros HP Hg Hs. unfold Close.
  assert (∀ l acc, (∀ node sc, (node, sc) ∈ l → scope_good sc) → P (lc_trace acc.1) →
    P (lc_trace (foldl (close_scope lw features operation) acc l).1)) as Hclose.
  { induction l as [|[node sc] l IH]; intros acc Hl Hacc; [done|]. cbn [foldl]. apply IH; [intros n k Hk; apply (Hl n k); by right|].
    unfold close_scope. destruct (Hl node sc) as [Hf _]; [by left|]. apply Forall_reverse in Hf. revert Hf.
    cut (P (lc_trace (acc.1, join_errors acc.2 (sc_err sc)).1)); [|done]. generalize (acc.1, join_errors acc.2 (sc_err sc)) as b.
    generalize (reverse (sc_leases sc)) as ls. induction ls as [|k ls IHls]; intros b Hb Hf; [done|]. apply Forall_cons in Hf as [Hk Hf]. cbn [foldl].
    apply IHls; [|done]. unfold release_lease.
    pose proof (invoke_kept P HP b.1 (cr_feature k) (release_request node k) Hk (or_introl eq_refl) Hb) as Hi. unfold release_request in Hi.
    by destruct (invoke lw features operation b.1 (cr_feature k) _) as [s1 [r err]]. }
  specialize (Hclose (range (lc_scopes s)) (s, None)). unfold closeCredentials.
  destruct (foldl _ (s, None) _) as [s1 err1]. cbn in Hclose.
  pose proof (Emit_kept P HP s1 (MkEvent "" "session.close" "" "closing" "" None false)) as HE.
  destruct (Emit _ _ _ s1 _) as [s2 err2]. cbn in HE.
  assert (P (lc_trace s2)) as H2.
  { apply HE, Hclose; [|done]. intros node sc Hin%range_elem. by eapply Hg. }
  unfold CloseProcesses. by destruct (lc_closed s2).
Qed.

Lemma Close_scopes `{MapOrder} cleanup s : lc_scopes (Close lw features operation cleanup s).1 = lc_scopes s.
Proof.
  unfold Close, closeCredentials.
  assert (∀ l acc, lc_scopes (foldl (close_scope lw features operation) acc l).1 = lc_scopes acc.1) as Hclose.
  { induction l as [|[node sc] l IH]; intros acc; [done|]. cbn [foldl]. rewrite IH. unfold close_scope.
    change (lc_scopes acc.1) with (lc_scopes (acc.1, join_errors acc.2 (sc_err sc)).1).
    generalize (acc.1, join_errors acc.2 (sc_err sc)) as b. generalize (reverse (sc_leases sc)) as ls.
    induction ls as [|k ls IHls]; intros b; [done|]. cbn [foldl]. rewrite IHls. unfold release_lease.
    pose proof (invoke_scopes b.1 (cr_feature k) (release_request node k)) as Hi. unfold release_request in Hi.
    by destruct (invoke lw features operation b.1 (cr_feature k) _) as [s1 [r err]]. }
  specialize (Hclose (range (lc_scopes s)) (s, None)). destruct (foldl _ (s, None) _) as [s1 err1]. cbn in Hclose.
  pose proof (Emit_scopes s1 (MkEvent "" "session.close" "" "closing" "" None false)) as HE.
  destruct (Emit _ _ _ s1 _) as [s2 err2]. cbn in HE. unfold CloseProcesses. destruct (lc_closed s2); cbn; congruence.
Qed.

Lemma lstep_inv `{MapOrder} s s' : lstep s s' → guarded (lc_trace s) ∧ scopes_good s → guarded (lc_trace s') ∧ scopes_good s'.
Proof.
  intros [e|node b|node bs|e|err|cleanup] [Hg Hs].
  - split; [by apply Emit_kept, Hg; apply guarded_kept|]. by eapply same_scopes_good; [apply Emit_scopes|].
  - split; [by apply ResolveInput_kept, Hg; apply guarded_kept|by apply ResolveInput_good].
  - split; [by apply Credentials_kept, Hg; apply guarded_kept|]. destruct (Credentials _ _ _ s node bs) as [s1 r] eqn:Hc.
    by apply Credentials_good in Hc as [? _].
  - unfold RecheckPlan. split; [by apply recheck_kept; [apply guarded_kept|..]|]. by eapply same_scopes_good; [apply recheck_scopes|].
  - by split.
  - split; [by apply Close_kept; [apply guarded_kept|..]|]. by eapply same_scopes_good; [apply Close_scopes|].
Qed.

Lemma reachable_inv `{MapOrder} s : rtc lstep lifecycle_start s → guarded (lc_trace s) ∧ scopes_good s.
Proof.
  intros Hr. assert (guarded (lc_trace lifecycle_start) ∧ scopes_good lifecycle_start) as Hstart.
  { split; [by intros [|] ? ?|]. intros node sc Hsc. cbn in Hsc. by rewrite lookup_empty in Hsc. }
  revert Hstart. induction Hr as [|x y z Hxy _ IH]; [done|]. intros Hx. apply IH. by eapply lstep_inv.
Qed.

(** The package a feature is of is the one the lock file names for its plugin
    on this platform, with the digest the lock records. *)
Definition locked_feature (platform : string) (fs : PluginFS) (configs : list PluginConfig) (f : featureInstance) : Prop :=
  ∃ packages entry p, fi_config f ∈ configs ∧ readLock fs = Ok packages ∧ entry ∈ packages ∧
    le_Alias entry = alias_of f ∧ le_Platform entry = platform ∧ le_Source entry = pg_Source (fi_config f) ∧
    fs_package fs (le_Digest entry) platform = Ok p ∧ pk_Digest p = le_Digest entry ∧
    fi_digest f = le_Digest entry ∧ fi_feature f ∈ pk_Features p.

Lemma ResolvePackage_locked platform satisfies fs c p : ResolvePackage platform satisfies fs c = Ok p →
  ∃ packages entry, readLock fs = Ok packages ∧ entry ∈ packages ∧ le_Alias entry = pg_Name c ∧ le_Platform entry = platform ∧
    le_Source entry = pg_Source c ∧ fs_package fs (le_Digest entry) platform = Ok p ∧ pk_Digest p = le_Digest entry.
Proof.
  unfold ResolvePackage. intros (packages & Hl & Hr)%result_bind_Ok.
  destruct (List.find _ packages) as [entry|] eqn:Hf; [|done]. apply find_some in Hf as [Hin%list_elem_of_In He].
  apply andb_true_iff in He as [Ha%bool_decide_eq_true Hp%bool_decide_eq_true].
  destruct (bool_decide (le_Source entry = _)) eqn:Hs; [|done]. apply bool_decide_eq_true in Hs. cbn [negb] in Hr.
  apply result_bind_Ok in Hr as (p' & Hpk%wrap_err_Ok & Hr).
  destruct (bool_decide (pk_Digest p' = _)) eqn:Hd; [|done]. apply bool_decide_eq_true in Hd. cbn [negb orb] in Hr.
  destruct (negb _); [done|]. apply result_bind_Ok in Hr as (u & _ & [= <-]). by exists packages, entry.
Qed.

Lemma NewLifecycle_locked platform satisfies fs fcd executionID configs fs' :
  NewLifecycle (ResolvePackage platform satisfies fs) fcd operation executionID configs = Ok fs' →
  ∀ f, f ∈ fs' → locked_feature platform fs configs f.
Proof.
  unfold NewLifecycle. intros (ls & Hls & [= <-])%result_bind_Ok f. rewrite merge_sort_Permutation.
  intros (l & Hl & Hf)%elem_of_concat. apply mapM_res_Ok in Hls.
  apply list_elem_of_lookup in Hl as [i Hi]. destruct (Forall2_lookup_r _ _ _ _ _ Hls Hi) as (c & Hc & Hcl).
  apply list_elem_of_lookup_2 in Hc. unfold config_instances in Hcl.
  apply result_bind_Ok in Hcl as (p & (packages & entry & Hlk & Hin & Ha & Hp & Hs & Hpk & Hd)%ResolvePackage_locked & Hcl).
  apply result_bind_Ok in Hcl as (os & Hos & Hcl). apply result_bind_Ok in Hcl as (u & _ & [= <-]).
  apply list_elem_of_omap in Hf as (o & Ho & Hof). simpl in Hof. subst o. apply mapM_res_Ok in Hos.
  apply list_elem_of_lookup in Ho as [j Hj]. destruct (Forall2_lookup_r _ _ _ _ _ Hos Hj) as (ft & Hft & Hi').
  apply list_elem_of_lookup_2 in Hft. unfold instance_of in Hi'. repeat (destruct (_ && _ : bool) in Hi'; [done|]).
  apply result_bind_Ok in Hi' as (d & _ & [= <-]). exists packages, entry, p. simpl. unfold alias_of. simpl. by rewrite Hd.
Qed.


(** C22: gates fail closed.  When an emission reports no error, every enforced
    gate or validator subscribed to the phase was asked and answered allow with
    a decision not yet expired; when a plan is rechecked without error, so did
    every enforced plan gate, for the event of the recheck.  A missing answer,
    a denial, an unknown decision or a failed call is an error. *)
Theorem gates_fail_closed s e s' : ev_Phase e ≠ "node.finished" →
  (Emit lw features operation s e = (s', None) → ∀ f, f ∈ features → subscribes operation f (ev_Phase e) = true → decides f = true →
     fi_mode f = "enforce" → allowed_by (lc_trace s') f (ev_Phase e)) ∧
  (RecheckPlan lw features operation s e = (s', None) → ∀ f, f ∈ features → plan_gate_feature f = true → fi_mode f = "enforce" →
     allowed_by (lc_trace s') f (ev_Phase e)).
Proof.
  intros Hp. split; [|by apply recheck_allows]. unfold Emit. rewrite (bool_decide_false _ Hp), (decide_False _ _ Hp). cbn [andb].
  pose proof (number_event_phase s e) as Hph. destruct (number_event s e) as [s1 e1]. cbn in Hph. rewrite <-Hph.
  intros He f Hf. apply emit_features_allows in He as [_ Hall]; [|done]. by apply Hall.
Qed.

Definition outcome_unknown (a : Response + call_failure) : bool :=
  match call_failure_of a with Some c => ce_OutcomeUnknown c | None => false end.

Definition calls_made (tr : ptrace) : nat := length (List.filter (λ e, match e with PCalled _ => true | _ => false end) tr).

Lemma record_status_unknown f a : external f = true → outcome_unknown a = true → (record_status f a).1 = "unknown".
Proof.
  intros He. unfold outcome_unknown, record_status. destruct a as [r|failure]; [done|]. cbn. destruct (cf_call failure) as [c|]; [|done].
  intros ->. by rewrite He.
Qed.

(** An external call of unknown outcome stays on record.  When calls are
    recorded and an enforced external feature is invoked, either the plugin is
    not called, or it is called exactly once and, if the outcome of that call
    is unknown, the newest durable record of the call keeps the execution
    behind the recovery barrier, whether or not the final record could be
    written. *)
Theorem unknown_outcome_recorded s f q s' r err : is_Some (lw_record lw) → external f = true → fi_mode f = "enforce" →
  invoke_call lw operation s f q = (s', (r, err)) →
  calls_made (lc_trace s') = calls_made (lc_trace s) ∨
  calls_made (lc_trace s') = S (calls_made (lc_trace s)) ∧ ∃ last, answered (lc_trace s') (sent f q s) last ∧
    (outcome_unknown last = true → ∃ c, NeedsRecovery [c] = true ∧
       last_record (lc_trace s') (lw_digest lw [ev_ID (rq_Event (sent f q s)); alias_of f; ft_Name (fi_feature f); rq_Action q]) = Some c).
Proof.
  intros Hrec Hext Hm. unfold invoke_call, sent. pose proof (number_event_trace s (rq_Event q)) as Htr.
  destruct (number_event s (rq_Event q)) as [s0 e]. cbn [snd fst] in Htr |- *. rewrite <-Htr.
  assert (no_record lw = false) as -> by (unfold no_record; by destruct Hrec as [? ->]). rewrite andb_false_r. cbn [andb].
  set (q' := MkRequest _ _ _ _ _ _ _). set (pending := call_record lw operation f q' _ _ _).
  destruct (record_call lw s0 pending) as [s1 rerr] eqn:Hr1. apply record_call_trace in Hr1 as [[Ht1 Hn]|[Ht1 ->]].
  { destruct rerr; [|destruct Hrec as [? Hx]; rewrite Hn in Hx by done; done]. intros [= <- <- <-]. left. by rewrite Ht1. }
  assert (∀ s2 serr, session_for lw operation s1 f = (s2, serr) → calls_made (lc_trace s2) = calls_made (lc_trace s0) ∧
    last_record (lc_trace s2) (cl_ID pending) = Some pending) as Hs2.
  { intros s2 serr [->| ->]%session_for_trace; rewrite Ht1, ?last_record_open; split; try done; by rewrite last_record_cons. }
  destruct (session_for lw operation s1 f) as [s2 serr]. specialize (Hs2 _ _ eq_refl) as [Hc2 Hp2].
  destruct serr as [failure|].
  { destruct (record_status f (inr failure)) as [status code].
    match goal with |- context [record_call lw s2 ?c] => destruct (record_call lw s2 c) as [s4 err4] eqn:Hr4 end.
    intros [= <- _ _]. left. by apply record_call_trace in Hr4 as [[-> _]|[-> _]]. }
  destruct (attempts lw 2 s2 f q') as [s3 a] eqn:Hat. apply attempts_trace in Hat as (k & Hk & _ & Hone & last & Hans & _ & Hcf).
  assert (repeatable f = false) as Hrep.
  { unfold external in Hext. unfold repeatable. apply mem_true in Hext. apply mem_false.
    apply elem_of_cons in Hext as [->| ->%list_elem_of_singleton]; set_solver. }
  rewrite (Hone Hrep) in Hk. destruct Hcf as [Hcf|?]; [|congruence]. cbn in Hk.
  pose proof (record_status_unknown f a Hext) as Hunk. destruct (record_status f a) as [status code]. cbn [fst] in Hunk.
  match goal with |- context [record_call lw s3 ?c] => set (final := c); destruct (record_call lw s3 final) as [s4 err4] eqn:Hr4 end.
  intros [= <- _ _]. right. pose proof (record_call_suffix s3 final) as Hsuf. rewrite Hr4 in Hsuf. cbn in Hsuf.
  apply record_call_trace in Hr4 as [[Ht4 _]|[Ht4 _]]; (split; [rewrite Ht4, Hk, <-Hc2; done|]); exists last;
    (split; [by eapply answered_grows|]); intros Hu.
  - exists pending. split; [by apply unresolved_record; [..|by left]|]. rewrite Ht4, Hk. exact Hp2.
  - exists final. rewrite Ht4. split; [|exact (last_record_cons final (lc_trace s3))]. unfold final. rewrite Hunk.
    + by apply unresolved_record; [..|right; left].
    + unfold outcome_unknown in Hu |- *. by rewrite Hcf.
Qed.

(** Closing reports success only for released credentials.  When [Close]
    of a reachable lifecycle reports no error, no scope had failed, no
    completion error was kept, and for every lease a node held the provider was
    sent its release and answered it. *)
Theorem close_releases `{MapOrder} cleanup s s' : rtc lstep lifecycle_start s →
  Close lw features operation cleanup s = (s', None) →
  lc_completion s = None ∧ ∀ node sc, lc_scopes s !! node = Some sc → sc_err sc = None ∧
    ∀ l, l ∈ sc_leases sc → released (lc_trace s') node l.
Proof.
  intros [_ Hg]%reachable_inv. unfold Close, closeCredentials.
  destruct (foldl (close_scope lw features operation) (s, None) (range (lc_scopes s))) as [s1 err1] eqn:Hc.
  apply close_scopes_spec in Hc as [_ Hc]; [|intros node sc Hin%range_elem; by eapply Hg].
  pose proof (Emit_kept (suffix (lc_trace s1)) (grows_kept _) s1 (MkEvent "" "session.close" "" "closing" "" None false) (reflexivity _)) as HE.
  destruct (Emit _ _ _ s1 _) as [s2 err2]. cbn in HE. unfold CloseProcesses.
  assert (∀ s3 err3, (if lc_closed s2 then (s2, None) else (close_state s2, cleanup (lc_trace s2))) = (s3, err3) → lc_trace s3 = lc_trace s2) as H3
    by (intros s3 err3; destruct (lc_closed s2); by intros [= <- _]).
  destruct (if lc_closed s2 then _ else _) as [s3 err3]. specialize (H3 _ _ eq_refl).
  intros Heq. injection Heq as <- Hj. apply join_errors_None in Hj as [Hj _]. apply join_errors_None in Hj as [Hj _].
  apply join_errors_None in Hj as [Hcomp Herr].
  split; [done|]. intros node sc Hsc. destruct (Hc Herr) as [_ Hall]. destruct (Hall node sc) as [Hse Hrel]; [by apply range_elem|].
  split; [done|]. intros l Hl. eapply released_grows; [|by apply Hrel]. by rewrite H3.
Qed.
End Facts.

(** ** Expansion *)

Section Expansion.
Context (lw : LifecycleWorld) (features : list featureInstance) (operation : string) `{MapOrder} (bp : Blueprint).

(** A node an expansion may add: named and sourced, with literal inputs only. *)
Definition plain_node (n : Node) : Prop :=
  node_name_pattern (bn_Name n) = true ∧ bn_Source n ≠ "" ∧ n = MkNode ∅ ∅ (bn_Name n) (bn_Source n) ∅ None (bn_Vars n) "" ∅ "".
Definition plain_edge (e : Edge) : Prop := IsPort (e_From e) = IsPort (e_To e) ∧ pr_Kind (e_From e) ≠ PortInput ∧ pr_Kind (e_To e) ≠ PortOutput.

Definition entity_names (ns : list Node) : list string := (bn_Name <$> ns) ++ (u_As <$> bp_Uses bp).

Definition declared (acc : list Node * list Edge * gset string) : Prop :=
  let '(nodes, edges, seen) := acc in
  (∃ ns, nodes = bp_Nodes bp ++ ns ∧ Forall plain_node ns) ∧ (∃ es, edges = bp_Edges bp ++ es ∧ Forall plain_edge es) ∧
  (∀ x, x ∈ entity_names nodes → x ∈ seen) ∧ (NoDup (entity_names (bp_Nodes bp)) → NoDup (entity_names nodes)).

Lemma expand_node_declared f nodes edges seen n nodes' seen' : declared (nodes, edges, seen) →
  expand_node f (nodes, seen) n = Ok (nodes', seen') → declared (nodes', edges, seen').
Proof.
  intros ((ns & -> & Hns) & Hes & Hseen & Hnd). unfold expand_node. destruct (negb _ || _ || _) eqn:Hc; [done|].
  apply orb_false_iff in Hc as [[Hp%negb_false_iff Hin%bool_decide_eq_false]%orb_false_iff Hsrc%bool_decide_eq_false].
  intros (vars & _ & [= <- <-])%result_bind_Ok. set (m := MkNode _ _ _ _ _ _ _ _ _ _). split_and!.
  - exists (ns ++ [m]). rewrite app_assoc. split; [done|]. apply Forall_app. by repeat constructor.
  - done.
  - intros x. unfold entity_names. rewrite fmap_app, !elem_of_app. cbn. intros [[Hx|Hx%list_elem_of_singleton]|Hx].
    + apply elem_of_union_r, Hseen. unfold entity_names. rewrite elem_of_app. by left.
    + subst x. by apply elem_of_union_l, elem_of_singleton.
    + apply elem_of_union_r, Hseen. unfold entity_names. rewrite elem_of_app. by right.
  - intros Hbp. specialize (Hnd Hbp). unfold entity_names in *. rewrite (fmap_app _ _ [m]), <-app_assoc. cbn.
    rewrite <-Permutation_middle. constructor; [|done]. intros Hx. by apply Hin, Hseen.
Qed.

Lemma expand_edge_declared f nodes edges seen x edges' : declared (nodes, edges, seen) →
  expand_edge f edges x = Ok edges' → declared (nodes, edges', seen).
Proof.
  intros (Hns & (es & -> & Hes) & Hrest). unfold expand_edge. destruct (negb _); [done|]. intros [= <-].
  split; [done|]. split; [|done]. eexists (es ++ [_]). rewrite app_assoc. split; [done|]. apply Forall_app. split; [done|].
  repeat constructor; by case_decide.
Qed.

Lemma apply_expansion_declared f acc x acc' : declared acc → apply_expansion f acc x = Ok acc' → declared acc'.
Proof.
  destruct acc as [[nodes edges] seen]. intros Hd. unfold apply_expansion.
  intros ([nodes1 seen1] & Hn & (edges1 & He & [= <-])%result_bind_Ok)%result_bind_Ok.
  assert (declared (nodes1, edges, seen1)) as H1.
  { revert nodes seen Hd Hn. induction (xp_Nodes x) as [|n l IH]; intros nodes seen Hd; [by intros [= <- <-]|]. rewrite foldM_cons.
    intros ([nodes2 seen2] & Hn & Hl)%result_bind_Ok. eapply IH; [|done]. by eapply expand_node_declared. }
  revert edges Hd He H1. induction (xp_Edges x) as [|e l IH]; intros edges Hd; [by intros [= <-]|]. rewrite foldM_cons.
  intros (edges2 & He & Hl)%result_bind_Ok H1. eapply (IH edges2); [|done|]; by eapply expand_edge_declared.
Qed.

Lemma expand_features_declared fs s acc s' acc' : declared acc →
  expand_features lw features operation fs s acc = (s', Ok acc') → declared acc'.
Proof.
  revert s acc. induction fs as [|f fs IH]; intros s acc Hd; cbn [expand_features]; [by intros [= _ <-]|].
  destruct (negb _); [by apply IH|]. destruct (invoke _ _ _ _ _ _) as [s1 [response [err|]]]; [done|].
  destruct (rs_Expansion response) as [x|]; [|done]. destruct (apply_expansion f acc x) as [acc1|] eqn:Ha; [|done].
  apply IH. by eapply apply_expansion_declared.
Qed.

(** An expansion only adds plain declarations.  [Expand] leaves the
    blueprint as it was or appends to its nodes and edges: added nodes have a
    well-formed name, a source and literal inputs but no binding, credential,
    environment, backend or approval of their own; edges carry both ports or
    none; names stay unique among nodes and uses; nothing else changes. *)
Theorem expansion_adds s s' bp' err : Expand lw features operation s bp = (s', bp', err) →
  bp' = bp ∨ ∃ ns es, bp' = set_declarations bp (bp_Nodes bp ++ ns) (bp_Edges bp ++ es) ∧ Forall plain_node ns ∧ Forall plain_edge es ∧
    (NoDup (entity_names (bp_Nodes bp)) → NoDup (entity_names (bp_Nodes bp'))).
Proof.
  unfold Expand. destruct (expand_features _ _ _ _ _ _) as [s1 [[[nodes edges] seen]|e]] eqn:He; [|intros [= _ <- _]; by left].
  apply expand_features_declared in He as ((ns & -> & Hns) & (es & -> & Hes) & _ & Hnd).
  - destruct (Emit _ _ _ s1 _) as [s2 e2]. intros [= _ <- _]. right. by exists ns, es.
  - split_and!; [exists []; by rewrite app_nil_r|exists []; by rewrite app_nil_r| |done].
    intros x Hx. by apply elem_of_list_to_set.
Qed.
End Expansion.

(** ** Concrete inputs *)

Definition sample_config : PluginConfig := MkPluginConfig "corp" "./corp" "1.0.0" ∅ ∅ None false.
Definition sample_digest : string := "0123456789abcdef0123456789abcdef0123456789abcdef0123456789abcdef".
Definition sample_feature (name kind effect : string) (events : list string) : Feature := MkPluginFeature name kind events [] effect [] "" false.
Definition sample_instance (name kind effect : string) (events : list string) : featureInstance :=
  MkFeatureInstance "cfg" sample_config sample_digest (sample_feature name kind effect events) "enforce" (feature_timeout 0 kind).
Definition sample_gate : featureInstance := sample_instance "policy" "gate" "idempotent_external" ["run.prepare"; "node.plan.ready"].
Definition sample_vault : featureInstance := sample_instance "vault" "credential_provider" "idempotent_external" [].
Definition sample_features : list featureInstance := [sample_gate; sample_vault].

(** The lock file and the package the features come from. *)
Definition sample_plugins : PluginFS :=
  MkPluginFS (Ok (Some (1%Z, [MkLockEntry "corp" "./corp" "1.0.0" "linux_amd64" sample_digest])))
    (λ _ _, Ok (MkPackage (MkDescriptor "corp" "1.0.0" 3 "corp" [fi_feature sample_gate; fi_feature sample_vault]) sample_digest)).

(** The gate allows; the vault leases a token; with [lost], answers are lost. *)
Definition sample_lifecycle (lost : bool) : LifecycleWorld :=
  MkLifecycleWorld (λ _, 100%Z) (λ _ _, Opened)
    (λ _ q, if lost then inr (MkCallFailure (External "transport") (Some (MkCallError "transport_failed" true false true)))
            else if decide (rq_Action q = "acquire")
            then inl (MkResponse "role/ci" None None "" {[ "AWS_SESSION_TOKEN" := "t" ]} (Some (MkLease "l1" 500 None)) None)
            else inl (MkResponse "" None None "allow" ∅ None None))
    (λ _, Waited) (Some (λ _ _, None)) (String.concat "/") (λ _ _, None).

Lemma pair_of {A B} (p : A * B) (b : B) : p.2 = b → p = (p.1, b).
Proof. destruct p. by intros <-. Qed.

Definition prepare_event : Event := MkEvent "" "run.prepare" "" "" "" None false.
Definition sample_binding : PluginBinding := MkBinding "corp" "vault" [] ["AWS_SESSION_TOKEN"].
Definition sample_credentials : lstate * result (gmap string string) :=
  @Credentials (sample_lifecycle false) sample_features "apply" map_order_default lifecycle_start "app" {[ "aws" := sample_binding ]}.

Lemma sample_credentials_reached :
  rtc (@lstep (sample_lifecycle false) sample_features "apply" map_order_default) lifecycle_start sample_credentials.1.
Proof. apply rtc_once, step_credentials. Qed.


Definition sample_emitted : lstate := (Emit (sample_lifecycle false) sample_features "apply" lifecycle_start prepare_event).1.

Example gates_fail_closed_witness : allowed_by (sample_lifecycle false) (lc_trace sample_emitted) sample_gate "run.prepare".
Proof.
  refine (proj1 (gates_fail_closed (sample_lifecycle false) sample_features "apply" lifecycle_start prepare_event sample_emitted _) _ sample_gate _ _ _ _).
  - discriminate.
  - apply pair_of. vm_compute. reflexivity.
  - left.
  - vm_compute. reflexivity.
  - vm_compute. reflexivity.
  - reflexivity.
Defined.

Definition sample_lost : lstate * (Response * option error) :=
  invoke_call (sample_lifecycle true) "apply" lifecycle_start sample_gate (bare_request "gate" prepare_event).

Example unknown_outcome_recorded_witness : calls_made (lc_trace sample_lost.1) = 0 ∨
  calls_made (lc_trace sample_lost.1) = 1 ∧ ∃ last, answered (sample_lifecycle true) (lc_trace sample_lost.1) 
    (sent sample_gate (bare_request "gate" prepare_event) lifecycle_start) last ∧
    (outcome_unknown last = true → ∃ c, NeedsRecovery [c] = true ∧ last_record (lc_trace sample_lost.1) "invocation-1/corp/policy/gate" = Some c).
Proof.
  apply (unknown_outcome_recorded (sample_lifecycle true) "apply" lifecycle_start sample_gate (bare_request "gate" prepare_event)
    sample_lost.1 sample_lost.2.1 sample_lost.2.2); [by eexists|reflexivity|reflexivity|].
  change (invoke_call _ _ _ _ _) with sample_lost. destruct sample_lost as [s [r e]]. reflexivity.
Defined.

Definition sample_closed : lstate * option error :=
  @Close (sample_lifecycle false) sample_features "apply" map_order_default (λ _, None) sample_credentials.1.

Lemma scope_of_lookup s node : match lc_scopes s !! node with Some _ => true | None => false end = true →
  lc_scopes s !! node = Some (scope_of s node).
Proof. unfold scope_of. by destruct (lc_scopes s !! node). Qed.

Example close_releases_witness : length (sc_leases (scope_of sample_credentials.1 "app")) = 1 ∧
  ∀ l, l ∈ sc_leases (scope_of sample_credentials.1 "app") → released (sample_lifecycle false) (lc_trace sample_closed.1) "app" l.
Proof.
  split; [vm_compute; reflexivity|].
  refine (proj2 (proj2 (@close_releases (sample_lifecycle false) sample_features "apply" map_order_default (λ _, None) sample_credentials.1 sample_closed.1
    sample_credentials_reached _) "app" (scope_of sample_credentials.1 "app") _)).
  - change (sample_closed = (sample_closed.1, None)). apply pair_of. vm_compute. reflexivity.
  - apply scope_of_lookup. vm_compute. reflexivity.
Defined.

Definition sample_expansion : LifecycleWorld :=
  MkLifecycleWorld (λ _, 0%Z) (λ _ _, Opened)
    (λ _ _, inl (MkResponse "" None None "" ∅ None (Some (MkExpansion [MkExpandedNode "db" "./db" ∅] [MkExpandedEdge "db" "" "app" ""]))))
    (λ _, Waited) None (String.concat "/") (λ _ _, None).
Definition sample_blueprint : Blueprint := MkBlueprint None [] [] [] [] None None None [] "" None None.
Definition sample_expanded : lstate * Blueprint * option error :=
  @Expand sample_expansion [sample_instance "gen" "expansion" "pure" []] "static" map_order_default lifecycle_start sample_blueprint.

Example expansion_adds_witness : bn_Name <$> bp_Nodes sample_expanded.1.2 = ["db"] ∧ NoDup (bn_Name <$> bp_Nodes sample_expanded.1.2).
Proof.
  split; [vm_compute; reflexivity|].
  destruct (@expansion_adds sample_expansion [sample_instance "gen" "expansion" "pure" []] "static" map_order_default sample_blueprint
    lifecycle_start sample_expanded.1.1 sample_expanded.1.2 sample_expanded.2) as [Hbp|(ns & es & Hbp & _ & _ & Hnd)].
  - change (sample_expanded = (sample_expanded.1.1, sample_expanded.1.2, sample_expanded.2)). by destruct sample_expanded as [[? ?] ?].
  - rewrite Hbp. constructor.
  - refine (proj1 (proj1 (NoDup_app _ _) (Hnd _))). constructor.
Defined.
