(* ===== verification/RunLevels.v ===== *)
(** The execution loop behind plan, apply and destroy
    (src/internal/engine/run.go): the layers one after another, up to
    [Parallelism] nodes of a layer at a time.

    The goroutines are made explicit: a run is a state machine whose next step
    is the main goroutine's or one worker's, chosen by an arbitrary schedule.
    What contexts, plugins and node actions answer is a function of the trace
    of what happened before, newest event first.  The mutexes only make the
    steps below atomic; [Diagnostics] of a failure is a function of its error
    and is left out of the report. *)
From S2P Require Import Prelude GoLib Blueprint Module Graph Topo Selection ApplyNode.

(** ** The scope half of [Options] *)

Record Scope := MkScope {
  sc_Nodes : option (list string);
  sc_Downstream : bool;
  sc_SelectionSpecified : bool;
  sc_selection : option Selection;
  sc_levels : option (list (list string));
}.

Definition hasSelectionFlags (o : Scope) : bool :=
  sc_SelectionSpecified o || bool_decide (is_Some (sc_Nodes o)) || sc_Downstream o.

Definition resolveSelection (g : Graph) (o : Scope) : result Scope :=
  selection ← wrap_err (Diagnosed (Diagnostic "invalid_arguments" "arguments" "selection" "selection" ""))
                (Select g (sc_Nodes o) (sc_Downstream o));
  levels ← SelectedLevels g (Names <$> selection) false;
  Ok (MkScope (sc_Nodes o) (sc_Downstream o) (sc_SelectionSpecified o) selection (Some levels)).

Definition executionLevels (g : Graph) (o : Scope) (reverse : bool) : result (list (list string)) :=
  o ← (match sc_levels o with None => resolveSelection g o | Some _ => Ok o end);
  let levels := default [] (sc_levels o) in
  Ok (if reverse then rev levels else levels).

(** What [OnSelection] is told. *)
Definition announceSelection (o : Scope) (reverse : bool) : option Selection * list (list string) :=
  let levels := default [] (sc_levels o) in (sc_selection o, if reverse then rev levels else levels).

(** ** Reports *)

Record NodeRun := MkNodeRun { nr_Node : string; nr_Level : Z; nr_Status : string; nr_Err : option error }.

Definition run_key (r : NodeRun) : Z * string := (nr_Level r, nr_Node r).
Definition run_le (a b : NodeRun) : Prop :=
  (nr_Level a < nr_Level b)%Z ∨ (nr_Level a = nr_Level b ∧ String.le (nr_Node a) (nr_Node b)).
#[export] Instance run_le_dec : RelDecision run_le.
Proof. intros a b. unfold run_le. apply _. Defined.

Definition level_number (li : nat) : Z := Z.of_nat li + 1.

Definition not_run (li : nat) (name : string) : NodeRun := MkNodeRun name (level_number li) StatusNotRun None.

(** [markNotRun] appends every node of the layers from [from] on. *)
Fixpoint mark_levels (li : nat) (levels : list (list string)) : list NodeRun :=
  match levels with
  | [] => []
  | level :: levels => (not_run li <$> level) ++ mark_levels (S li) levels
  end.
Definition markNotRun (runs : list NodeRun) (levels : list (list string)) (from : nat) : list NodeRun :=
  runs ++ mark_levels from (drop from levels).

Section Run.
Context {Outputs : Type}.

(** What a [nodeAction] returns. *)
Record answer := MkAnswer { an_outputs : option Outputs; an_status : string; an_err : option error }.

Inductive levent :=
  | LEmit (phase node status : string)
  | LStart (node : string) (snapshot : gmap string Outputs)
  | LEnd (node : string) (a : answer)
  | LPrint (node : string).
Definition trace : Type := list levent.

Record LevelsWorld := MkLevelsWorld {
  lw_cancelled : trace → option error;
  lw_plugins : bool;
  lw_emit : trace → option error;
  lw_completion : trace → option error;
  lw_action : trace → string → gmap string Outputs → answer;
  lw_afterLevel : trace → option error;
}.

(** ** State *)

(** What is left of a worker's body. *)
Inductive wstate :=
  | WBegin
  | WAct
  | WActing
  | WReport (a : answer)
  | WPrint (a : answer)
  | WMerge (a : answer).
Record worker := MkWorker { wk_index : nat; wk_node : string; wk_state : wstate }.

(** What the workers share under [mu], and the layer's [errs]. *)
Record shared := MkShared {
  sh_runs : list NodeRun;
  sh_failed : gset string;
  sh_applied : gmap string Outputs;
  sh_errs : list (option error);
}.

Inductive pc :=
  | AtLevel (li : nat)
  | InLevel (li : nat) (blocked : gset string) (snapshot : gmap string Outputs)
      (todo : list (nat * string)) (workers : list worker)
  | Returning (err : option error)
  | Finished (report : list NodeRun) (err : option error).

Record rstate := MkState {
  rs_trace : trace;
  rs_shared : shared;
  rs_first : option error;
  rs_pc : pc;
}.

Section Machine.
Context (w : LevelsWorld) (g : Graph) (levels : list (list string)) (keepGoing : bool) (par : nat).

Definition buffered : bool := Nat.ltb 1 par.

Definition initial : rstate := MkState [] (MkShared [] ∅ ∅ []) None (AtLevel 0).

(** [Emit] is a no-op without plugins. *)
Definition emit (tr : trace) (phase node status : string) : trace * option error :=
  if lw_plugins w then let tr' := LEmit phase node status :: tr in (tr', lw_emit w tr') else (tr, None).

(** ** A worker *)

Definition errPlanBlocked : error := Sentinel "plan not reached".

Definition plan_blocked (parent : string) : error :=
  Errorf "%w: dependency %s has no successful plan evidence; resolve its diagnostic first" [FErr errPlanBlocked; FStr parent].

Definition blocked_by (blocked : gset string) (name : string) : option string :=
  List.find (λ p, bool_decide (p ∈ blocked)) (in_ g name).

(** The checks before the action: the context, the parents, [node.prepare]. *)
Definition prepare (blocked : gset string) (name : string) (tr : trace) : trace * option error :=
  match lw_cancelled w tr with
  | Some err => (tr, Some err)
  | None =>
    match (if keepGoing then blocked_by blocked name else None) with
    | Some parent => (tr, Some (plan_blocked parent))
    | None => emit tr "node.prepare" name ""
    end
  end.

Definition terminal (a : answer) : string :=
  match an_err a with
  | Some _ => if decide (an_status a = StatusNotRun) then StatusNotRun else StatusFailed
  | None => an_status a
  end.

Definition run_of (li : nat) (name : string) (a : answer) : NodeRun :=
  MkNodeRun name (level_number li) (terminal a) (an_err a).

Definition node_error (name : string) (err : error) : error := Errorf "node %q: %w" [FStr name; FErr err].

(** The critical section at the end of a worker, and its slot of [errs]. *)
Definition merge_one (li : nat) (e : nat * string * answer) (sh : shared) : shared :=
  let '(i, name, a) := e in
  match an_err a with
  | Some err => MkShared (sh_runs sh ++ [run_of li name a]) ({[ name ]} ∪ sh_failed sh) (sh_applied sh)
                  (<[i := Some (node_error name err)]> (sh_errs sh))
  | None => MkShared (sh_runs sh ++ [run_of li name a]) (sh_failed sh)
              (match an_outputs a with Some o => <[name := o]> (sh_applied sh) | None => sh_applied sh end) (sh_errs sh)
  end.

(** One step of worker [k]; merging also releases its slot. *)
Definition worker_step (li : nat) (blocked : gset string) (snapshot : gmap string Outputs) (k : nat)
    (tr : trace) (sh : shared) (workers : list worker) : option (trace * shared * list worker) :=
  match workers !! k with
  | None => None
  | Some (MkWorker i name st) =>
    let continue tr st := Some (tr, sh, <[k := MkWorker i name st]> workers) in
    match st with
    | WBegin =>
      match prepare blocked name tr with
      | (tr, Some err) => continue tr (WReport (MkAnswer None StatusNotRun (Some err)))
      | (tr, None) => continue tr WAct
      end
    | WAct => continue (LStart name snapshot :: tr) WActing
    | WActing => let a := lw_action w tr name snapshot in continue (LEnd name a :: tr) (WReport a)
    | WReport a => continue (emit tr "node.finished" name (terminal a)).1 (WPrint a)
    | WPrint a => continue (if buffered then LPrint name :: tr else tr) (WMerge a)
    | WMerge a => Some (tr, merge_one li (i, name, a) sh, delete k workers)
    end
  end.

(** ** The main goroutine *)

Definition set_runs (sh : shared) (runs : list NodeRun) : shared :=
  MkShared runs (sh_failed sh) (sh_applied sh) (sh_errs sh).

(** [return markNotRun(runs, levels, from), err]. *)
Definition stop (s : rstate) (tr : trace) (from : nat) (err : error) : rstate :=
  MkState tr (set_runs (rs_shared s) (markNotRun (sh_runs (rs_shared s)) levels from)) (rs_first s) (Returning (Some err)).

Definition first_failure (errs : list (option error)) : option error := head (omap id errs).

(** After [wg.Wait]. *)
Definition end_level (s : rstate) (li : nat) (level : list string) : rstate :=
  match lw_completion w (rs_trace s) with
  | Some err => stop s (rs_trace s) (S li) err
  | None =>
    match emit (rs_trace s) "level.finished" "" "" with
    | (tr, Some err) => stop s tr (S li) err
    | (tr, None) =>
      let failure := first_failure (sh_errs (rs_shared s)) in
      match (if keepGoing then None else failure) with
      | Some err => stop s tr (S li) err
      | None =>
        let s := MkState tr (rs_shared s) (match rs_first s with Some err => Some err | None => failure end) (rs_pc s) in
        match lw_afterLevel w tr with
        | Some err => stop s tr (S li) err
        | None => MkState tr (rs_shared s) (rs_first s) (AtLevel (S li))
        end
      end
    end
  end.

Definition start_level (s : rstate) (li : nat) (level : list string) : rstate :=
  let sh := rs_shared s in
  MkState (rs_trace s) (MkShared (sh_runs sh) (sh_failed sh) (sh_applied sh) (replicate (length level) None)) (rs_first s)
    (InLevel li (sh_failed sh) (sh_applied sh) (imap pair level) []).

(** The deferred function: every run is announced, then the runs are sorted. *)
Definition deferred (tr : trace) (runs : list NodeRun) : trace :=
  foldl (λ tr r, (emit tr "node.finished" (nr_Node r) (nr_Status r)).1) tr runs.

Definition main_step (s : rstate) : option rstate :=
  match rs_pc s with
  | AtLevel li =>
    match levels !! li with
    | None => Some (MkState (rs_trace s) (rs_shared s) (rs_first s) (Returning (rs_first s)))
    | Some level =>
      match lw_cancelled w (rs_trace s) with
      | Some err => Some (stop s (rs_trace s) li err)
      | None => Some (start_level s li level)
      end
    end
  | InLevel li blocked snapshot ((i, name) :: todo) workers =>
    if Nat.ltb (length workers) par
    then Some (MkState (rs_trace s) (rs_shared s) (rs_first s)
           (InLevel li blocked snapshot todo (workers ++ [MkWorker i name WBegin])))
    else None
  | InLevel li _ _ [] [] => Some (end_level s li (default [] (levels !! li)))
  | InLevel _ _ _ [] _ => None
  | Returning err =>
    let runs := sh_runs (rs_shared s) in
    Some (MkState (deferred (rs_trace s) runs) (rs_shared s) (rs_first s) (Finished (merge_sort run_le runs) err))
  | Finished _ _ => None
  end.

Inductive choice := Main | Worker (k : nat).

Definition step (c : choice) (s : rstate) : option rstate :=
  match c, rs_pc s with
  | Main, _ => main_step s
  | Worker k, InLevel li blocked snapshot todo workers =>
    '(tr, sh, workers) ← worker_step li blocked snapshot k (rs_trace s) (rs_shared s) workers;
    Some (MkState tr sh (rs_first s) (InLevel li blocked snapshot todo workers))
  | Worker _, _ => None
  end.

Fixpoint run_schedule (cs : list choice) (s : rstate) : option rstate :=
  match cs with
  | [] => Some s
  | c :: cs => step c s ≫= run_schedule cs
  end.

(** Some schedule leads from the start of a run to [s]. *)
Definition reached (s : rstate) : Prop := ∃ cs, run_schedule cs initial = Some s.
End Machine.
End Run.
