(* ===== verification/LevelsProofs.v ===== *)
(** Correctness of the execution loop (for RunLevels.v): an invariant of every
    reachable state, and from it the bound on parallelism, termination, the
    order of actions, the report, and the equivalence with running the nodes
    one after another. *)
From S2P Require Import Prelude GoLib Blueprint Module Graph Topo Selection ApplyNode RunLevels.

Section Ghost.
Context {Outputs : Type}.
Local Notation entry := (nat * string * @answer Outputs)%type.

(** ** What merged workers leave behind

    [d] lists the merged workers of a layer, the newest first, and [D] those of
    the completed layers, the newest layer first. *)

Definition merge_all (li : nat) (d : list entry) (sh : shared) : @shared Outputs := foldr (merge_one li) sh d.

Definition reset (n : nat) (sh : shared) : @shared Outputs :=
  MkShared (sh_runs sh) (sh_failed sh) (sh_applied sh) (replicate n None).

Fixpoint data (D : list (list entry)) : shared :=
  match D with
  | [] => MkShared [] ∅ ∅ []
  | d :: D => merge_all (length D) d (reset (length d) (data D))
  end.

Fixpoint first_of (D : list (list entry)) : option error :=
  match D with
  | [] => None
  | d :: D' => match first_of D' with Some err => Some err | None => first_failure (sh_errs (data (d :: D'))) end
  end.

Definition clean (d : list entry) : Prop := Forall (λ e, an_err e.2 = None) d.

(** The layer's indices and nodes, each once. *)
Definition full (d : list entry) (level : list string) : Prop := d.*1 ≡ₚ imap pair level.

Definition indexes (level : list string) : list nat := (imap pair level).*1.

Lemma full_names d level : full d level → (λ e : entry, e.1.2) <$> d ≡ₚ level.
Proof.
  intros Hf. rewrite <-(imap_pair_snd level), <-Hf, <-list_fmap_compose. done.
Qed.

Lemma full_indexes d level : full d level → (λ e : entry, e.1.1) <$> d ≡ₚ seq 0 (length level).
Proof.
  intros Hf. rewrite <-imap_pair_fst, <-Hf, <-list_fmap_compose. done.
Qed.

Lemma full_length d level : full d level → length d = length level.
Proof. intros Hf. rewrite <-(length_fmap (λ e : entry, e.1.2)), (full_names d level Hf). done. Qed.

Lemma merge_errs_length li d sh : length (sh_errs (merge_all li d sh)) = length (sh_errs sh).
Proof.
  induction d as [|[[i n] a] d IH]; [done|]. simpl. unfold merge_one. destruct (an_err a); simpl; rewrite ?length_insert; done.
Qed.

(** A merged failure is in the layer's errors. *)
Lemma merge_errs_other li d sh i : i ∉ (λ e : entry, e.1.1) <$> d → sh_errs (merge_all li d sh) !! i = sh_errs sh !! i.
Proof.
  induction d as [|[[j n] a] d IH]; [done|]. rewrite fmap_cons, not_elem_of_cons. intros [Hij Hd]. simpl in *.
  unfold merge_one. destruct (an_err a); simpl; [rewrite list_lookup_insert_ne by done|]; auto.
Qed.

Lemma merge_errs_at li d sh i n a err : NoDup ((λ e : entry, e.1.1) <$> d) → (i, n, a) ∈ d → an_err a = Some err →
  (i < length (sh_errs sh))%nat → sh_errs (merge_all li d sh) !! i = Some (Some (node_error n err)).
Proof.
  induction d as [|[[j m] b] d IH]; [intros _ Hin; by apply elem_of_nil in Hin|].
  rewrite fmap_cons, NoDup_cons. intros [Hj Hnd] Hin Ha Hi. apply elem_of_cons in Hin as [[= <- <- <-]|Hin].
  - simpl. unfold merge_one. rewrite Ha. simpl. apply list_lookup_insert_eq. by rewrite merge_errs_length.
  - assert (j ≠ i) as Hne. { intros ->. apply Hj, list_elem_of_fmap. by exists (i, n, a). }
    simpl. unfold merge_one. destruct (an_err b); simpl; [rewrite list_lookup_insert_ne by done|]; auto.
Qed.

Lemma first_failure_None (errs : list (option error)) : first_failure errs = None ↔ Forall (λ o, o = None) errs.
Proof.
  unfold first_failure. induction errs as [|[e|] errs IH]; simpl.
  - split; [constructor|done].
  - split; [done|]. by inversion 1.
  - rewrite IH. split; [by constructor|by inversion 1].
Qed.

Lemma merge_clean_errs li d sh : clean d → sh_errs (merge_all li d sh) = sh_errs sh.
Proof. induction 1 as [|[[i n] a] d Ha _ IH]; [done|]. simpl in *. unfold merge_one. by rewrite Ha. Qed.

Lemma first_failure_clean D d level : full d level →
  first_failure (sh_errs (data (d :: D))) = None ↔ clean d.
Proof.
  intros Hf. simpl. unfold clean. split.
  - rewrite first_failure_None, !Forall_forall. intros Hnone [[i n] a] Hin. simpl.
    destruct (an_err a) as [err|] eqn:Ha; [|done].
    assert (i ∈ seq 0 (length level)) as Hi.
    { rewrite <-(full_indexes d level Hf). apply list_elem_of_fmap. by exists (i, n, a). }
    apply elem_of_seq in Hi. pose proof (full_length d level Hf) as Hlen.
    assert (sh_errs (merge_all (length D) d (reset (length d) (data D))) !! i = Some (Some (node_error n err))) as Hat.
    { eapply merge_errs_at; [|done|done|simpl; rewrite length_replicate; lia].
      rewrite (full_indexes d level Hf). apply NoDup_seq. }
    apply list_elem_of_lookup_2 in Hat. by apply Hnone in Hat.
  - intros Hc. rewrite (merge_clean_errs _ _ _ Hc). apply first_failure_None. simpl. apply Forall_replicate. done.
Qed.


(** The runs of completed layers. *)
Lemma merge_runs li d sh : sh_runs (merge_all li d sh) = sh_runs sh ++ ((λ e : entry, run_of li e.1.2 e.2) <$> reverse d).
Proof.
  induction d as [|[[i n] a] d IH]; [simpl; by rewrite app_nil_r|].
  rewrite reverse_cons, fmap_app, (assoc_L (++)), <-IH. simpl. unfold merge_one. by destruct (an_err a).
Qed.

Lemma merge_failed li d sh n : n ∈ sh_failed (merge_all li d sh) ↔
  n ∈ sh_failed sh ∨ ∃ e, e ∈ d ∧ e.1.2 = n ∧ is_Some (an_err e.2).
Proof.
  induction d as [|[[i m] a] d IH]; simpl.
  - split; [by left|]. intros [?|(e & He & _)]; [done|]. by apply elem_of_nil in He.
  - unfold merge_one. destruct (an_err a) as [err|] eqn:Ha; simpl.
    + rewrite elem_of_union, elem_of_singleton, IH. setoid_rewrite elem_of_cons. split.
      * intros [->|[?|(e & ? & ?)]]; [right; exists (i, m, a); simpl; rewrite Ha; naive_solver|by left|right; naive_solver].
      * intros [?|(e & [->|He] & <- & Hs)]; [by right; left|by left|right; right; eauto].
    + rewrite IH. setoid_rewrite elem_of_cons. split; [naive_solver|].
      intros [?|(e & [->|He] & <- & Hs)]; [by left| |right; eauto]. simpl in Hs. rewrite Ha in Hs. by destruct Hs.
Qed.

Lemma merge_applied_other li d sh n : n ∉ (λ e : entry, e.1.2) <$> d → sh_applied (merge_all li d sh) !! n = sh_applied sh !! n.
Proof.
  induction d as [|[[j m] a] d IH]; [done|]. rewrite fmap_cons, not_elem_of_cons. intros [Hij Hd]. simpl in *.
  unfold merge_one. destruct (an_err a); simpl; [by auto|]. destruct (an_outputs a); [rewrite lookup_insert_ne by done|]; auto.
Qed.

Lemma merge_applied_at li d sh i n a : NoDup ((λ e : entry, e.1.2) <$> d) → (i, n, a) ∈ d → an_err a = None →
  sh_applied sh !! n = None → sh_applied (merge_all li d sh) !! n = an_outputs a.
Proof.
  induction d as [|[[j m] b] d IH]; [intros _ Hin; by apply elem_of_nil in Hin|].
  rewrite fmap_cons, NoDup_cons. intros [Hj Hnd] Hin Ha Hs. apply elem_of_cons in Hin as [[= <- <- <-]|Hin].
  - simpl in *. unfold merge_one. rewrite Ha. simpl. destruct (an_outputs a); [by rewrite lookup_insert_eq|].
    by rewrite merge_applied_other.
  - assert (m ≠ n) as Hne. { intros ->. apply Hj, list_elem_of_fmap. by exists (i, n, a). }
    simpl. unfold merge_one. destruct (an_err b); simpl; [by auto|].
    destruct (an_outputs b); [rewrite lookup_insert_ne by done|]; auto.
Qed.
End Ghost.

(** ** The invariant *)

Section Inv.
Context {Outputs : Type} (w : @LevelsWorld Outputs) (g : Graph) (levels : list (list string)) (keepGoing : bool) (par : nat).
Local Notation entry := (nat * string * @answer Outputs)%type.

(** Which answers a node can have, given the trace and the layers before. *)
Context (legit : @trace Outputs → list (list entry) → string → @answer Outputs → Prop).

Definition unblocked (D : list (list entry)) (n : string) : Prop :=
  keepGoing = true → blocked_by g (sh_failed (data D)) n = None.

(** The checks before the action let the node through. *)
Definition prepared (D : list (list entry)) (n : string) : Prop :=
  ∃ tr tr', prepare w g keepGoing (sh_failed (data D)) n tr = (tr', None).

Definition prevented (err : error) : @answer Outputs := MkAnswer None StatusNotRun (Some err).

Class Legit : Prop := {
  legit_mono tr ev D n a : legit tr D n a → legit (ev :: tr) D n a;
  legit_prevent D n tr tr' err : prepare w g keepGoing (sh_failed (data D)) n tr = (tr', Some err) → legit tr' D n (prevented err);
  legit_action D n tr : prepared D n →
    legit (LEnd n (lw_action w tr n (sh_applied (data D))) :: tr) D n (lw_action w tr n (sh_applied (data D)));
}.
Context `{!Legit}.

Fixpoint legit_levels (tr : trace) (D : list (list entry)) : Prop :=
  match D with
  | [] => True
  | d :: D => Forall (λ e, legit tr D e.1.2 e.2) d ∧ legit_levels tr D
  end.

Definition done_levels (D : list (list entry)) : Prop :=
  length D ≤ length levels ∧ Forall2 full D (rev (take (length D) levels)).

Definition steady (D : list (list entry)) : Prop := keepGoing = true ∨ Forall clean D.

Definition settled (tr : trace) (D : list (list entry)) : Prop := done_levels D ∧ legit_levels tr D ∧ steady D.

Definition wk_ok (tr : trace) (D : list (list entry)) (wk : @worker Outputs) : Prop :=
  match wk_state wk with
  | WBegin => True
  | WAct | WActing => prepared D (wk_node wk)
  | WReport a | WPrint a | WMerge a => legit tr D (wk_node wk) a
  end.

Definition wk_key (wk : @worker Outputs) : nat * string := (wk_index wk, wk_node wk).

(** An answer of the outside that ends the run. *)
Definition interrupted (err : error) : Prop := ∃ tr, lw_cancelled w tr = Some err ∨ lw_completion w tr = Some err
  ∨ (lw_plugins w = true ∧ lw_emit w (LEmit "level.finished" "" "" :: tr) = Some err) ∨ lw_afterLevel w tr = Some err.

(** Why a run returns [err] after the layers [D]. *)
Inductive reason (D : list (list entry)) : option error → Prop :=
  | all_levels : length D = length levels → steady D → reason D (first_of D)
  | level_failed d D' err : D = d :: D' → keepGoing = false → Forall clean D' →
      first_failure (sh_errs (data D)) = Some err → reason D (Some err)
  | was_interrupted err : interrupted err → reason D (Some err).

Definition returned (tr : @trace Outputs) (sh : @shared Outputs) (err : option error) : Prop := ∃ D,
  done_levels D ∧ legit_levels tr D ∧ sh_runs sh = markNotRun (sh_runs (data D)) levels (length D) ∧ reason D err.

Definition in_level (s : @rstate Outputs) (li : nat) (blocked : gset string) (snapshot : gmap string Outputs)
    (todo : list (nat * string)) (workers : list (@worker Outputs)) : Prop := ∃ D d level,
  length D = li ∧ settled (rs_trace s) D ∧ levels !! li = Some level ∧
  blocked = sh_failed (data D) ∧ snapshot = sh_applied (data D) ∧ rs_first s = first_of D ∧
  rs_shared s = merge_all li d (reset (length level) (data D)) ∧
  d.*1 ++ (wk_key <$> workers) ++ todo ≡ₚ imap pair level ∧
  Forall (λ e, legit (rs_trace s) D e.1.2 e.2) d ∧ Forall (wk_ok (rs_trace s) D) workers ∧ length workers ≤ par.

Definition inv (s : @rstate Outputs) : Prop :=
  match rs_pc s with
  | AtLevel li => ∃ D, length D = li ∧ settled (rs_trace s) D ∧ rs_shared s = data D ∧ rs_first s = first_of D
                       
  | InLevel li blocked snapshot todo workers => in_level s li blocked snapshot todo workers
  | Returning err => returned (rs_trace s) (rs_shared s) err
  | Finished report err => returned (rs_trace s) (rs_shared s) err ∧ report = merge_sort run_le (sh_runs (rs_shared s))
  end.

(** *** Longer traces *)

Lemma legit_app pre tr D n a : legit tr D n a → legit (pre ++ tr) D n a.
Proof. intros Hl. induction pre as [|ev pre IH]; [done|]. by apply legit_mono. Qed.

Lemma legit_levels_app pre tr D : legit_levels tr D → legit_levels (pre ++ tr) D.
Proof.
  induction D as [|d D IH]; [done|]. intros [Hd HD]. split; [|by apply IH].
  eapply Forall_impl; [exact Hd|]. intros e. apply legit_app.
Qed.

Lemma settled_app pre tr D : settled tr D → settled (pre ++ tr) D.
Proof. intros (? & ? & ?). split_and!; [done|by apply legit_levels_app|done]. Qed.

Lemma wk_ok_app pre tr D wk : wk_ok tr D wk → wk_ok (pre ++ tr) D wk.
Proof. unfold wk_ok. destruct (wk_state wk); try done; apply legit_app. Qed.

Lemma legit_entries_app pre tr D (d : list entry) :
  Forall (λ e, legit tr D e.1.2 e.2) d → Forall (λ e, legit (pre ++ tr) D e.1.2 e.2) d.
Proof. intros Hd. eapply Forall_impl; [exact Hd|]. intros e. apply legit_app. Qed.

(** Plugin events only. *)
Definition quiet (pre : @trace Outputs) : Prop := ∀ ev, ev ∈ pre → ∃ phase node status, ev = LEmit phase node status.

Lemma quiet_nil : quiet [].
Proof. intros ev Hev. by apply elem_of_nil in Hev. Qed.

Lemma emit_app tr phase node status : ∃ pre, (emit w tr phase node status).1 = pre ++ tr ∧ quiet pre.
Proof.
  unfold emit. destruct (lw_plugins w); [exists [LEmit phase node status]|exists []]; split; [done| |done|apply quiet_nil].
  intros ev ->%list_elem_of_singleton. eauto.
Qed.

Lemma emit_interrupted tr tr' err : emit w tr "level.finished" "" "" = (tr', Some err) → interrupted err.
Proof. unfold emit. destruct (lw_plugins w) eqn:Hp; [|done]. intros [= <- He]. eexists. right; right; left. eauto. Qed.

Lemma prepare_app blocked n tr : ∃ pre, (prepare w g keepGoing blocked n tr).1 = pre ++ tr ∧ quiet pre.
Proof.
  unfold prepare. destruct (lw_cancelled w tr); [exists []; split; [done|apply quiet_nil]|].
  destruct (if keepGoing then _ else _); [exists []; split; [done|apply quiet_nil]|]. apply emit_app.
Qed.

Lemma prepared_unblocked D n : prepared D n → unblocked D n.
Proof.
  intros (tr & tr' & Hp). revert Hp. unfold prepare, unblocked. destruct (lw_cancelled w tr); [done|]. intros Hp ->. by destruct (blocked_by _ _ _).
Qed.

Lemma deferred_app tr runs : ∃ pre, deferred w tr runs = pre ++ tr ∧ quiet pre.
Proof.
  unfold deferred. revert tr. induction runs as [|r runs IH]; intros tr; [exists []; split; [done|apply quiet_nil]|]. simpl.
  destruct (emit_app tr "node.finished" (nr_Node r) (nr_Status r)) as (p & -> & Hp). destruct (IH (p ++ tr)) as (q & -> & Hq).
  exists (q ++ p). split; [by rewrite (assoc_L (++))|]. intros ev [Hev|Hev]%elem_of_app; auto.
Qed.

(** *** A worker's step *)

Lemma worker_step_inv li D d level tr sh k todo workers tr' sh' workers' :
  length D = li → settled tr D → sh = merge_all li d (reset (length level) (data D)) →
  d.*1 ++ (wk_key <$> workers) ++ todo ≡ₚ imap pair level →
  Forall (λ e, legit tr D e.1.2 e.2) d → Forall (wk_ok tr D) workers →
  worker_step w g keepGoing par li (sh_failed (data D)) (sh_applied (data D)) k tr sh workers = Some (tr', sh', workers') →
  (∃ pre, tr' = pre ++ tr) ∧ length workers' ≤ length workers ∧ ∃ d',
    sh' = merge_all li d' (reset (length level) (data D)) ∧
    d'.*1 ++ (wk_key <$> workers') ++ todo ≡ₚ imap pair level ∧
    Forall (λ e, legit tr' D e.1.2 e.2) d' ∧ Forall (wk_ok tr' D) workers'.
Proof.
  intros Hli HD Hsh Hperm Hd Hw. unfold worker_step. destruct (workers !! k) as [[i n st]|] eqn:Hk; [|done].
  pose proof (Forall_lookup_1 _ _ _ _ Hw Hk) as Hwk. unfold wk_ok in Hwk. simpl in Hwk.
  assert (∀ pre st', wk_ok (pre ++ tr) D (MkWorker i n st') →
    (∃ pre0, pre ++ tr = pre0 ++ tr) ∧ length (<[k := MkWorker i n st']> workers) ≤ length workers ∧ ∃ d',
      sh = merge_all li d' (reset (length level) (data D)) ∧
      d'.*1 ++ (wk_key <$> <[k := MkWorker i n st']> workers) ++ todo ≡ₚ imap pair level ∧
      Forall (λ e, legit (pre ++ tr) D e.1.2 e.2) d' ∧ Forall (wk_ok (pre ++ tr) D) (<[k := MkWorker i n st']> workers)) as Hcont.
  { intros pre st' Hst. split; [by eexists|]. split; [by rewrite length_insert|]. exists d. split_and!; [done| | |].
    - rewrite list_fmap_insert. change (wk_key (MkWorker i n st')) with (wk_key (MkWorker i n st)).
      rewrite <-list_fmap_insert, (list_insert_id _ _ _ Hk). done.
    - by apply legit_entries_app.
    - apply Forall_insert; [|done]. eapply Forall_impl; [exact Hw|]. intros wk. apply wk_ok_app. }
  destruct st as [| | |a|a|a].
  - destruct (prepare_app (sh_failed (data D)) n tr) as (pre & Hpre & _).
    destruct (prepare _ _ _ _ _ _) as [tr1 [err|]] eqn:Hp; simpl in Hpre; subst tr1; intros [= <- <- <-]; apply Hcont.
    + simpl. by eapply legit_prevent.
    + by exists tr, (pre ++ tr).
  - intros [= <- <- <-]. by apply (Hcont [_]).
  - intros [= <- <- <-]. apply (Hcont [_]). by apply legit_action.
  - destruct (emit_app tr "node.finished" n (terminal a)) as (pre & -> & _). intros [= <- <- <-]. apply Hcont. by apply legit_app.
  - destruct (buffered par); intros [= <- <- <-]; [apply (Hcont [_])|apply (Hcont [])]; by apply (legit_app _ tr).
  - intros [= <- <- <-]. split; [by exists []|]. pose proof (delete_Permutation _ _ _ Hk) as Hdel.
    generalize dependent (delete k workers). intros ws Hdel. split.
    { apply Permutation_length in Hdel. simpl in Hdel. lia. }
    exists ((i, n, a) :: d). rewrite Hdel in Hw. split_and!; [by subst sh| |by constructor|by inversion Hw].
    rewrite <-Hperm, Hdel, !fmap_cons. simpl. by rewrite Permutation_middle.
Qed.

(** *** The main goroutine's step *)

Lemma done_levels_cons D d level : done_levels D → levels !! length D = Some level → full d level → done_levels (d :: D).
Proof.
  intros [Hlen HF] Hl Hf. pose proof (lookup_lt_Some _ _ _ Hl). split; [simpl; lia|].
  simpl. rewrite (take_S_r _ _ _ Hl), rev_app_distr. simpl. by constructor.
Qed.

Lemma stop_returned s tr D err : done_levels D → legit_levels tr D → sh_runs (rs_shared s) = sh_runs (data D) →
  reason D (Some err) → inv (stop levels s tr (length D) err).
Proof. intros HD Hl Hs Hr. unfold inv, stop. simpl. exists D. rewrite Hs. done. Qed.

Lemma steady_cons D d level : full d level → steady D →
  (if keepGoing then None else first_failure (sh_errs (data (d :: D)))) = None → steady (d :: D).
Proof.
  intros Hf [Hk|Hc] Hn; [by left|]. destruct keepGoing eqn:Hk; [by left|]. right. constructor; [|done].
  by eapply first_failure_clean.
Qed.

Lemma failed_reason D d err : steady D → (if keepGoing then None else first_failure (sh_errs (data (d :: D)))) = Some err →
  reason (d :: D) (Some err).
Proof.
  intros Hs He. destruct keepGoing eqn:Hk; [done|]. destruct Hs as [|Hc]; [congruence|]. by eapply level_failed.
Qed.

Lemma end_level_inv s li D d level : length D = li → settled (rs_trace s) D → levels !! li = Some level →
  rs_first s = first_of D → rs_shared s = merge_all li d (reset (length level) (data D)) → full d level →
  Forall (λ e, legit (rs_trace s) D e.1.2 e.2) d → inv (end_level w levels keepGoing s li level).
Proof.
  intros Hli (HD & Hlg & Hst) Hl Hfi Hsh Hf Hd. subst li.
  assert (rs_shared s = data (d :: D)) as Hdata. { rewrite Hsh. simpl. by rewrite (full_length d level Hf). }
  pose proof (done_levels_cons D d level HD Hl Hf) as HD'.
  assert (legit_levels (rs_trace s) (d :: D)) as Hlg' by done.
  change (S (length D)) with (length (d :: D)). unfold end_level.
  destruct (lw_completion w (rs_trace s)) as [err|] eqn:Hc.
  { apply (stop_returned s _ (d :: D)); rewrite ?Hdata; [done..|]. apply was_interrupted. eexists. eauto. }
  destruct (emit_app (rs_trace s) "level.finished" "" "") as (pre & Hpre & _).
  destruct (emit w (rs_trace s) "level.finished" "" "") as [tr [err|]] eqn:He; simpl in Hpre; subst tr.
  { apply (stop_returned s _ (d :: D)); rewrite ?Hdata; [done|by apply legit_levels_app|done|].
    apply was_interrupted. by eapply emit_interrupted. }
  rewrite Hdata. destruct (if keepGoing then None else _) as [err|] eqn:Hk.
  { apply (stop_returned s _ (d :: D)); [done|by apply legit_levels_app|by rewrite Hdata|]. by apply failed_reason. }
  pose proof (steady_cons D d level Hf Hst Hk) as Hst'. cbv zeta.
  destruct (lw_afterLevel w (pre ++ rs_trace s)) as [err|] eqn:Ha.
  { apply (stop_returned _ _ (d :: D)); [done|by apply legit_levels_app|done|].
    apply was_interrupted. eexists. eauto. }
  unfold inv. simpl. exists (d :: D). split_and!; [done|split_and!; [done|by apply legit_levels_app|done]|done|].
  rewrite Hfi. done.
Qed.

Lemma main_step_inv s s' : inv s → main_step w levels keepGoing par s = Some s' → inv s'.
Proof.
  unfold inv at 1, main_step. destruct (rs_pc s) as [li|li blocked snapshot todo workers|err|report err].
  - intros (D & Hli & Hset & Hsh & Hfi). destruct (levels !! li) as [level|] eqn:Hl.
    + destruct (lw_cancelled w (rs_trace s)) as [err|] eqn:Hc; intros [= <-].
      * subst li. destruct Hset as (? & ? & ?). apply stop_returned; [done|done|by rewrite Hsh|].
        apply was_interrupted. eexists. eauto.
      * unfold start_level, inv. simpl. exists D, [], level. rewrite Hsh. split_and!; [done..| |done|done|constructor|constructor|simpl; lia].
        done.
    + intros [= <-]. destruct Hset as ((Hlen & HF) & ? & Hst). unfold inv. simpl. exists D.
      apply lookup_ge_None in Hl. assert (length D = length levels) as Heq by (rewrite Hli in Hlen |- *; lia).
      split_and!; [done|done| |rewrite Hfi; by apply all_levels].
      unfold markNotRun. rewrite Heq, drop_all, Hsh. simpl. by rewrite app_nil_r.
  - intros (D & d & level & Hli & Hset & Hl & Hb & Hsn & Hfi & Hsh & Hperm & Hd & Hw & Hpar).
    destruct todo as [|[i name] todo].
    + destruct workers; [|done]. intros [= <-]. rewrite Hl. simpl. eapply end_level_inv; [done..| |done].
      unfold full. rewrite <-Hperm. simpl. by rewrite app_nil_r.
    + destruct (Nat.ltb _ _) eqn:Hlt; [|done]. intros [= <-]. apply Nat.ltb_lt in Hlt. unfold inv. simpl.
      exists D, d, level. split_and!; [done..| |done| |].
      * rewrite fmap_app, <-(assoc_L (++)). done.
      * apply Forall_app. split; [done|]. by constructor.
      * rewrite length_app. simpl. lia.
  - intros Hr. intros [= <-]. unfold inv. simpl. split; [|done]. destruct Hr as (D & ? & ? & ? & ?). exists D.
    destruct (deferred_app (rs_trace s) (sh_runs (rs_shared s))) as (pre & -> & _). split_and!; [done|by apply legit_levels_app|done..].
  - done.
Qed.

Lemma step_inv c s s' : inv s → step w g levels keepGoing par c s = Some s' → inv s'.
Proof.
  destruct c as [|k]; [apply main_step_inv|]. unfold inv at 1, step.
  destruct (rs_pc s) as [|li blocked snapshot todo workers| |]; try done.
  intros (D & d & level & Hli & Hset & Hl & -> & -> & Hfi & Hsh & Hperm & Hd & Hw & Hpar).
  destruct (worker_step _ _ _ _ _ _ _ _ _ _) as [[[tr sh] workers']|] eqn:Hk; [|done]. intros [= <-].
  eapply worker_step_inv in Hk as ([pre ->] & Hlen & d' & Hsh' & Hperm' & Hd' & Hw'); [|done..].
  unfold inv. simpl. exists D, d', level. split_and!; try done; [by apply settled_app|lia].
Qed.

Lemma initial_inv : inv initial.
Proof.
  exists []. split_and!; [done| |done|done]. split_and!; [|done|by right].
  split; [simpl; lia|constructor].
Qed.

Lemma run_schedule_inv cs s s' : inv s → run_schedule w g levels keepGoing par cs s = Some s' → inv s'.
Proof.
  revert s. induction cs as [|c cs IH]; intros s Hs; simpl; [by intros [= <-]|].
  destruct (step _ _ _ _ _ _ _) as [s1|] eqn:Hc; [|done]. simpl. apply IH. by eapply step_inv.
Qed.

Lemma reached_inv s : reached w g levels keepGoing par s → inv s.
Proof. intros [cs Hcs]. eapply run_schedule_inv; [apply initial_inv|done]. Qed.
End Inv.

(** ** Answers in general: the action's own, or a failure before it *)

Section General.
Context {Outputs : Type} (w : @LevelsWorld Outputs) (g : Graph) (levels : list (list string)) (keepGoing : bool) (par : nat).
Local Notation entry := (nat * string * @answer Outputs)%type.

Definition answered (tr : @trace Outputs) (D : list (list entry)) (n : string) (a : answer) : Prop :=
  LEnd n a ∈ tr ∨ (is_Some (an_err a) ∧ an_status a = StatusNotRun).

#[export] Instance answered_legit : Legit w g keepGoing answered.
Proof.
  split.
  - intros tr ev D n a [Hin|Hs]; [left; by right|by right].
  - intros D n tr tr' err _. right. split; [by eexists|done].
  - intros D n tr _. left. by left.
Qed.

(** *** The keys of a report *)

Definition key_le (a b : Z * string) : Prop := (a.1 < b.1)%Z ∨ (a.1 = b.1 ∧ String.le a.2 b.2).

Lemma key_le_trans : Transitive key_le.
Proof.
  intros [x a] [y b] [z c]. unfold key_le. simpl. intros [?|[-> Hab]] [?|[-> Hbc]]; try (left; lia).
  right. split; [done|]. by etrans.
Qed.
Lemma key_le_antisymm : AntiSymm (=) key_le.
Proof.
  intros [x a] [y b]. unfold key_le. simpl. intros [?|[-> Hab]] [?|[Heq Hba]]; try lia.
  f_equal. by apply (anti_symm String.le).
Qed.
#[local] Existing Instance key_le_trans.
#[local] Existing Instance key_le_antisymm.

Lemma run_le_key a b : run_le a b ↔ key_le (run_key a) (run_key b).
Proof. done. Qed.

#[local] Instance run_le_trans : Transitive run_le.
Proof. intros a b c. rewrite !run_le_key. apply key_le_trans. Qed.
#[local] Instance run_le_total : Total run_le.
Proof.
  intros a b. rewrite !run_le_key. unfold key_le. destruct (run_key a) as [x s], (run_key b) as [y t]. simpl.
  destruct (Z.lt_trichotomy x y) as [?|[->|?]]; [by left; left| |by right; left].
  destruct (total String.le s t); [left|right]; right; done.
Qed.

Lemma sorted_report_keys runs : StronglySorted key_le (run_key <$> merge_sort run_le runs).
Proof.
  pose proof (StronglySorted_merge_sort run_le runs) as Hs. revert Hs. generalize (merge_sort run_le runs). clear.
  induction 1 as [|a l _ IH Ha]; simpl; constructor; [done|]. apply Forall_fmap. done.
Qed.

(** Every node of the schedule with its level number, in the report's order. *)
Fixpoint report_keys (li : nat) (ls : list (list string)) : list (Z * string) :=
  match ls with
  | [] => []
  | level :: ls => (pair (level_number li) <$> sort_strings level) ++ report_keys (S li) ls
  end.

Lemma report_keys_ge li ls k : k ∈ report_keys li ls → (level_number li <= k.1)%Z.
Proof.
  revert li. induction ls as [|level ls IH]; intros li; simpl; [by intros ?%elem_of_nil|].
  intros [Hk|Hk]%elem_of_app.
  - apply list_elem_of_fmap in Hk as (x & -> & _). simpl. lia.
  - apply IH in Hk. unfold level_number in *. lia.
Qed.

Lemma report_keys_sorted li ls : StronglySorted key_le (report_keys li ls).
Proof.
  revert li. induction ls as [|level ls IH]; intros li; simpl; [constructor|]. apply StronglySorted_app_2; [| |apply IH].
  - intros x y (n & -> & _)%list_elem_of_fmap Hy%report_keys_ge. left. simpl. unfold level_number in *. lia.
  - induction (sort_strings_sorted level) as [|a l _ IHl Ha]; simpl; constructor; [done|]. apply Forall_fmap.
    eapply Forall_impl; [exact Ha|]. intros b Hb. right. done.
Qed.

Lemma mark_levels_keys li ls : run_key <$> mark_levels li ls ≡ₚ report_keys li ls.
Proof.
  revert li. induction ls as [|level ls IH]; intros li; simpl; [done|]. rewrite fmap_app, IH. f_equiv.
  rewrite sort_strings_perm, <-list_fmap_compose. done.
Qed.

Lemma mark_levels_app li l1 l2 : mark_levels li (l1 ++ l2) = mark_levels li l1 ++ mark_levels (li + length l1) l2.
Proof.
  revert li. induction l1 as [|level l1 IH]; intros li; simpl; [by rewrite Nat.add_0_r|].
  rewrite IH, (assoc_L (++)). do 2 f_equal. lia.
Qed.

Lemma data_runs (d : list entry) (D : list (list entry)) : sh_runs (data (d :: D)) ≡ₚ sh_runs (data D) ++ ((λ e : entry, run_of (length D) e.1.2 e.2) <$> d).
Proof. simpl. rewrite merge_runs. simpl. by rewrite reverse_Permutation. Qed.

Lemma data_keys (D : list (list entry)) : done_levels levels D → run_key <$> sh_runs (data D) ≡ₚ run_key <$> mark_levels 0 (take (length D) levels).
Proof.
  intros [Hlen HF]. induction D as [|d D IH]; [done|]. simpl in Hlen.
  assert (is_Some (levels !! length D)) as [level Hl] by (apply lookup_lt_is_Some; lia).
  simpl in HF. rewrite (take_S_r _ _ _ Hl), rev_app_distr in HF. simpl in HF. apply Forall2_cons in HF as [Hf HF].
  rewrite data_runs, fmap_app, IH by (done || lia). cbn [length]. rewrite (take_S_r _ _ _ Hl), mark_levels_app, fmap_app. simpl.
  rewrite app_nil_r, length_take, Nat.min_l by lia. f_equiv. rewrite <-!list_fmap_compose.
  rewrite <-(full_names d level Hf), <-list_fmap_compose. done.
Qed.

Lemma returned_keys legit tr (sh : @shared Outputs) err : returned w levels keepGoing legit tr sh err → run_key <$> sh_runs sh ≡ₚ report_keys 0 levels.
Proof.
  intros (D & HD & _ & -> & _). unfold markNotRun. rewrite fmap_app, (data_keys D HD), <-fmap_app.
  replace (length D) with (0 + length (take (length D) levels)) at 2 by (rewrite length_take; destruct HD; lia).
  rewrite <-mark_levels_app, take_drop. apply mark_levels_keys.
Qed.

Lemma first_of_clean (D : list (list entry)) : done_levels levels D → first_of D = None → Forall clean D.
Proof.
  intros [Hlen HF]. revert HF. generalize (rev (take (length D) levels)). clear Hlen.
  induction D as [|d D IH]; intros ls HF Hn; [constructor|]. apply Forall2_cons_inv_l in HF as (level & ls' & Hf & HF & _).
  cbn [first_of] in Hn. destruct (first_of D) eqn:Hfi; [done|]. constructor; [by eapply first_failure_clean|by eapply IH].
Qed.

Lemma data_run_elem r (D : list (list entry)) : r ∈ sh_runs (data D) → ∃ D' d e, d :: D' `suffix_of` D ∧ e ∈ d ∧ r = run_of (length D') e.1.2 e.2.
Proof.
  induction D as [|d D IH]; [by intros ?%elem_of_nil|]. rewrite data_runs. intros [Hr|Hr]%elem_of_app.
  - destruct (IH Hr) as (D' & d' & e & Hs & He). exists D', d', e. split; [by apply suffix_cons_r|done].
  - apply list_elem_of_fmap in Hr as (e & -> & He). by exists D, d, e.
Qed.

Lemma legit_levels_elem legit tr (D D' : list (list entry)) d e : legit_levels legit tr D → d :: D' `suffix_of` D → e ∈ d →
  legit tr D' e.1.2 e.2.
Proof.
  intros Hl [p ->] He. induction p as [|q p IH]; simpl in Hl.
  - destruct Hl as [Hl _]. by eapply Forall_forall in Hl.
  - apply IH, Hl.
Qed.

(** Whatever the schedule and wherever the run stops, the report holds
    every scheduled node exactly once, under its level, ordered by level and
    name; and a run that returns no error reports for every node the status its
    own action returned without an error. *)
Theorem report_complete s report err : reached w g levels keepGoing par s → rs_pc s = Finished report err →
  run_key <$> report = report_keys 0 levels ∧
  (err = None → ∀ r, r ∈ report → nr_Err r = None ∧
     ∃ a, LEnd (nr_Node r) a ∈ rs_trace s ∧ an_err a = None ∧ nr_Status r = an_status a).
Proof.
  intros Hr%(reached_inv w g levels keepGoing par answered) Hpc. unfold inv in Hr. rewrite Hpc in Hr. destruct Hr as [Hr ->]. split.
  - apply (StronglySorted_unique key_le); [apply sorted_report_keys|apply report_keys_sorted|].
    rewrite (merge_sort_Permutation run_le). by eapply returned_keys.
  - intros -> r. rewrite (merge_sort_Permutation run_le). destruct Hr as (D & HD & Hl & -> & Hre).
    inversion Hre as [Hlen _ Hfi| |]; subst. unfold markNotRun. rewrite Hlen, drop_all. simpl. rewrite app_nil_r.
    intros (D' & d & e & Hs & He & ->)%data_run_elem. pose proof (legit_levels_elem _ _ _ _ _ _ Hl Hs He) as Ha.
    assert (an_err e.2 = None) as Herr.
    { pose proof (first_of_clean D HD Hfi) as Hc. rewrite Forall_forall in Hc.
      assert (d ∈ D) as Hd by (destruct Hs as [p ->]; apply elem_of_app; right; left).
      specialize (Hc d Hd). unfold clean in Hc. rewrite Forall_forall in Hc. by apply Hc. }
    rewrite Hfi. split; [exact Herr|]. exists e.2. destruct Ha as [Ha|[[? Hx] _]]; [|congruence].
    split_and!; [done|done|]. simpl. unfold terminal. by rewrite Herr.
Qed.
End General.
