(* ===== verification/LevelsSchedule.v ===== *)
(** The schedules of the execution loop (for RunLevels.v): every one ends, none
    exceeds the parallelism asked for, and none starts a node before the nodes
    it depends on. *)
From S2P Require Import Prelude GoLib Blueprint Module Graph Topo Selection ApplyNode RunLevels LevelsProofs.

(** ** Every schedule ends *)

Section Schedules.
Context {Outputs : Type} (w : @LevelsWorld Outputs) (g : Graph) (levels : list (list string)) (keepGoing : bool) (par : nat).

Definition cost (st : @wstate Outputs) : nat :=
  match st with WBegin => 6 | WAct => 5 | WActing => 4 | WReport _ => 3 | WPrint _ => 2 | WMerge _ => 1 end.

Definition workers_cost (ws : list (@worker Outputs)) : nat := sum_list ((λ wk, cost (wk_state wk)) <$> ws).

Fixpoint weight (ls : list (list string)) : nat :=
  match ls with [] => 0 | level :: ls => 7 * length level + 2 + weight ls end.

(** The steps a state can still make, at most. *)
Definition measure (s : @rstate Outputs) : nat :=
  match rs_pc s with
  | AtLevel li => 2 + weight (drop li levels)
  | InLevel li _ _ todo workers => workers_cost workers + 7 * length todo + 3 + weight (drop (S li) levels)
  | Returning _ => 1
  | Finished _ _ => 0
  end.

Lemma sum_list_insert (l : list nat) k x y : l !! k = Some x → sum_list (<[k := y]> l) + x = sum_list l + y.
Proof. revert k. induction l as [|z l IH]; intros [|k]; simpl; [done..|intros [= ->]; lia|]. intros Hk. apply IH in Hk. lia. Qed.

Lemma sum_list_delete (l : list nat) k x : l !! k = Some x → sum_list (delete k l) + x = sum_list l.
Proof. revert k. induction l as [|z l IH]; intros [|k]; simpl; [done..|intros [= ->]; lia|]. intros Hk. apply IH in Hk. lia. Qed.

Lemma cost_insert k wk wk' (ws : list worker) : ws !! k = Some wk → cost (wk_state wk') < cost (wk_state wk) →
  workers_cost (<[k := wk']> ws) < workers_cost ws.
Proof.
  intros Hk Hc. unfold workers_cost. rewrite list_fmap_insert.
  pose proof (sum_list_insert ((λ wk, cost (wk_state wk)) <$> ws) k (cost (wk_state wk)) (cost (wk_state wk'))) as Hs.
  rewrite list_lookup_fmap, Hk in Hs. specialize (Hs eq_refl). lia.
Qed.

Lemma cost_delete k wk (ws : list worker) : ws !! k = Some wk → workers_cost (delete k ws) < workers_cost ws.
Proof.
  intros Hk. unfold workers_cost. assert (∀ ws k, (λ wk, cost (wk_state wk)) <$> delete k ws = delete k ((λ wk, cost (wk_state wk)) <$> ws)) as ->.
  { clear. induction ws as [|x ws IH]; intros [|k]; simpl; [done..|]. by rewrite <-IH. }
  pose proof (sum_list_delete ((λ wk, cost (wk_state wk)) <$> ws) k (cost (wk_state wk))) as Hs.
  rewrite list_lookup_fmap, Hk in Hs. specialize (Hs eq_refl). assert (0 < cost (wk_state wk)) by (destruct (wk_state wk); simpl; lia). lia.
Qed.

Lemma worker_step_cost li blocked snapshot k tr sh ws tr' sh' ws' :
  worker_step w g keepGoing par li blocked snapshot k tr sh ws = Some (tr', sh', ws') → workers_cost ws' < workers_cost ws.
Proof.
  unfold worker_step. destruct (ws !! k) as [[i n st]|] eqn:Hk; [|done].
  destruct st as [| | |a|a|a]; [destruct (prepare _ _ _ _ _ _) as [? [?|]]| | | | |]; intros [= <- <- <-];
    first [by eapply cost_delete|eapply cost_insert; [done|simpl; lia]].
Qed.

Lemma stop_measure s tr from err : measure (stop levels s tr from err) = 1.
Proof. done. Qed.

Lemma end_level_measure s li level : measure (end_level w levels keepGoing s li level) <= 2 + weight (drop (S li) levels).
Proof.
  unfold end_level. destruct (lw_completion w _); [rewrite stop_measure; lia|].
  destruct (emit _ _ _ _ _) as [tr [err|]]; [rewrite stop_measure; lia|].
  destruct (if keepGoing then _ else _); [rewrite stop_measure; lia|]. cbv zeta.
  destruct (lw_afterLevel w tr); [rewrite stop_measure; lia|]. unfold measure. cbn [rs_pc]. lia.
Qed.

Lemma step_measure c s s' : step w g levels keepGoing par c s = Some s' → measure s' < measure s.
Proof.
  destruct c as [|k]; unfold step.
  - unfold main_step, measure at 2. destruct (rs_pc s) as [li|li blocked snapshot todo workers|err|report err]; [| | |done].
    + destruct (levels !! li) as [level|] eqn:Hl.
      * destruct (lw_cancelled w (rs_trace s)); intros [= <-]; [rewrite stop_measure; lia|].
        unfold measure, start_level. cbn [rs_pc]. rewrite (drop_S _ _ _ Hl). cbn [weight].
        rewrite length_imap. unfold workers_cost. simpl. lia.
      * intros [= <-]. unfold measure. cbn [rs_pc]. unfold workers_cost. cbn. lia.
    + destruct todo as [|[i name] todo].
      * destruct workers; [|done]. intros [= <-]. pose proof (end_level_measure s li (default [] (levels !! li))). unfold workers_cost. simpl. lia.
      * destruct (Nat.ltb _ _); [|done]. intros [= <-]. unfold measure. cbn [rs_pc]. unfold workers_cost.
        rewrite fmap_app, sum_list_with_app. simpl. lia.
    + intros [= <-]. unfold measure. cbn [rs_pc]. lia.
  - destruct (rs_pc s) as [|li blocked snapshot todo workers| |] eqn:Hpc; try done.
    destruct (worker_step _ _ _ _ _ _ _ _ _ _) as [[[tr sh] workers']|] eqn:Hk; [|done]. intros [= <-].
    apply worker_step_cost in Hk. unfold measure. rewrite Hpc. cbn [rs_pc]. lia.
Qed.

Lemma worker_step_total li blocked snapshot tr sh wk ws :
  is_Some (worker_step w g keepGoing par li blocked snapshot 0 tr sh (wk :: ws)).
Proof.
  destruct wk as [i n st]. unfold worker_step. simpl.
  destruct st as [| | |a|a|a]; [destruct (prepare _ _ _ _ _ _) as [? [?|]]| | | | |]; by eexists.
Qed.

(** Unless it is finished, a run always has a step left. *)
Lemma step_progress s : 0 < par → (∀ c, step w g levels keepGoing par c s = None) → ∃ report err, rs_pc s = Finished report err.
Proof.
  intros Hpar Hstuck. pose proof (Hstuck Main) as Hm. unfold step, main_step in Hm.
  destruct (rs_pc s) as [li|li blocked snapshot todo [|wk workers]|err|report err] eqn:Hpc.
  - destruct (levels !! li); [destruct (lw_cancelled w (rs_trace s))|]; done.
  - destruct todo as [|[i name] todo]; [done|]. simpl in Hm. destruct (Nat.ltb 0 par) eqn:Hl; [done|]. apply Nat.ltb_ge in Hl. lia.
  - specialize (Hstuck (Worker 0)). unfold step in Hstuck. rewrite Hpc in Hstuck.
    destruct (worker_step_total li blocked snapshot (rs_trace s) (rs_shared s) wk workers) as [[[tr sh] ws] Hw].
    rewrite Hw in Hstuck. done.
  - done.
  - eauto.
Qed.

Lemma run_schedule_measure cs s s' : run_schedule w g levels keepGoing par cs s = Some s' → length cs + measure s' <= measure s.
Proof.
  revert s. induction cs as [|c cs IH]; intros s; simpl; [intros [= <-]; lia|].
  destruct (step _ _ _ _ _ c s) as [s1|] eqn:Hc; [|done]. simpl. intros Hk. apply IH in Hk. apply step_measure in Hc. lia.
Qed.

(** C35: no schedule runs forever or gets stuck: a schedule makes at most seven
    steps for each node, two for each level and two more, and a state no
    goroutine can leave has returned its report. *)
Theorem runs_end cs s : 0 < par → run_schedule w g levels keepGoing par cs initial = Some s →
  length cs <= 7 * length (concat levels) + 2 * length levels + 2 ∧
  ((∀ c, step w g levels keepGoing par c s = None) → ∃ report err, rs_pc s = Finished report err).
Proof.
  intros Hpar Hcs. split; [|by apply step_progress]. apply run_schedule_measure in Hcs.
  assert (weight levels = 7 * length (concat levels) + 2 * length levels) as Hw.
  { clear. induction levels as [|l ls IH]; simpl; [done|]. rewrite length_app. lia. }
  change (measure initial) with (2 + weight levels) in Hcs. lia.
Qed.

(** ** What a step adds to the trace *)

Definition silent (ev : @levent Outputs) : Prop := match ev with LStart _ _ | LEnd _ _ => False | _ => True end.

Definition acting (s : @rstate Outputs) : list string :=
  match rs_pc s with
  | InLevel _ _ _ _ ws => omap (λ wk, match wk_state wk with WActing => Some (wk_node wk) | _ => None end) ws
  | _ => []
  end.

(** A step starts an action, ends one, or does neither. *)
Inductive step_kind (s s' : @rstate Outputs) : Prop :=
  | step_silent pre : rs_trace s' = pre ++ rs_trace s → Forall silent pre → acting s' ≡ₚ acting s → step_kind s s'
  | step_starts li blocked snapshot todo ws i n : rs_pc s = InLevel li blocked snapshot todo ws → MkWorker i n WAct ∈ ws →
      rs_trace s' = LStart n snapshot :: rs_trace s → acting s' ≡ₚ n :: acting s → step_kind s s'
  | step_ends n a : rs_trace s' = LEnd n a :: rs_trace s → acting s ≡ₚ n :: acting s' → step_kind s s'.

Lemma quiet_silent pre : quiet pre → Forall silent pre.
Proof. intros Hq. apply Forall_forall. intros ev Hev. by destruct (Hq ev Hev) as (? & ? & ? & ->). Qed.

Lemma list_split_at {A} (l : list A) k x : l !! k = Some x → ∃ l1 l2, l = l1 ++ x :: l2 ∧ (∀ y, <[k := y]> l = l1 ++ y :: l2) ∧ delete k l = l1 ++ l2.
Proof.
  revert k. induction l as [|z l IH]; intros [|k]; simpl; [done..|intros [= ->]; by exists [], l|].
  intros Hk. destruct (IH k Hk) as (l1 & l2 & -> & Hi & Hd). exists (z :: l1), l2. split_and!; [done|intros y; by rewrite Hi|by rewrite Hd].
Qed.

Lemma stop_trace (s : @rstate Outputs) tr from err : rs_trace (stop levels s tr from err) = tr.
Proof. done. Qed.

Lemma end_level_quiet (s : @rstate Outputs) li level : ∃ pre, rs_trace (end_level w levels keepGoing s li level) = pre ++ rs_trace s ∧ quiet pre ∧
  acting (end_level w levels keepGoing s li level) = [].
Proof.
  unfold end_level. destruct (lw_completion w _); [exists []; split_and!; [done|apply quiet_nil|done]|].
  destruct (emit_app w (rs_trace s) "level.finished" "" "") as (pre & Hpre & Hq).
  destruct (emit _ _ _ _ _) as [tr [err|]]; simpl in Hpre; subst tr; [by exists pre|].
  destruct (if keepGoing then _ else _); [by exists pre|]. cbv zeta. destruct (lw_afterLevel w _); by exists pre.
Qed.

Lemma step_cases c s s' : step w g levels keepGoing par c s = Some s' → step_kind s s'.
Proof.
  destruct c as [|k]; unfold step.
  - unfold main_step. destruct (rs_pc s) as [li|li blocked snapshot todo workers|err|report err] eqn:Hpc; [| | |done].
    + assert (acting s = []) as Ha by (unfold acting; by rewrite Hpc).
      destruct (levels !! li); [destruct (lw_cancelled w (rs_trace s))|]; intros [= <-]; apply (step_silent _ _ []); by rewrite ?Ha.
    + destruct todo as [|[i name] todo].
      * destruct workers; [|done]. intros [= <-]. assert (acting s = []) as Ha by (unfold acting; by rewrite Hpc).
        destruct (end_level_quiet s li (default [] (levels !! li))) as (pre & Htr & Hq & Hact).
        apply (step_silent _ _ pre); [exact Htr|by apply quiet_silent|by rewrite Hact, Ha].
      * destruct (Nat.ltb _ _); [|done]. intros [= <-]. apply (step_silent _ _ []); [done..|].
        unfold acting. rewrite Hpc. cbn [rs_pc]. rewrite omap_app. simpl. by rewrite app_nil_r.
    + intros [= <-]. destruct (deferred_app w (rs_trace s) (sh_runs (rs_shared s))) as (pre & Hd & Hq).
      apply (step_silent _ _ pre); [done|by apply quiet_silent|]. unfold acting. by rewrite Hpc.
  - destruct (rs_pc s) as [|li blocked snapshot todo workers| |] eqn:Hpc; try done.
    unfold worker_step. destruct (workers !! k) as [[i n st]|] eqn:Hk; [|done].
    pose proof (list_elem_of_lookup_2 _ _ _ Hk) as Hin.
    destruct (list_split_at _ _ _ Hk) as (l1 & l2 & Hws & Hins & Hdel).
    destruct st as [| | |a|a|a].
    + destruct (prepare_app w g keepGoing blocked n (rs_trace s)) as (pre & Hpre & Hq).
      destruct (prepare _ _ _ _ _ _) as [tr [err|]]; simpl in Hpre; subst tr; intros [= <-];
        (apply (step_silent _ _ pre); [done|by apply quiet_silent|unfold acting; rewrite Hpc; cbn [rs_pc]; by rewrite Hins, Hws, !omap_app]).
    + intros [= <-]. eapply step_starts; [done|done|done|]. unfold acting. rewrite Hpc. cbn [rs_pc].
      rewrite Hins, Hws, !omap_app. simpl. by rewrite Permutation_middle.
    + intros [= <-]. eapply step_ends; [done|]. unfold acting. rewrite Hpc. cbn [rs_pc].
      rewrite Hins, Hws, !omap_app. simpl. by rewrite Permutation_middle.
    + destruct (emit_app w (rs_trace s) "node.finished" n (terminal a)) as (pre & -> & Hq). intros [= <-].
      apply (step_silent _ _ pre); [done|by apply quiet_silent|]. unfold acting. rewrite Hpc. cbn [rs_pc]. by rewrite Hins, Hws, !omap_app.
    + intros [= <-]. destruct (buffered par); [apply (step_silent _ _ [LPrint n])|apply (step_silent _ _ [])];
        [done|by constructor| |done|constructor|]; unfold acting; rewrite Hpc; cbn [rs_pc]; by rewrite Hins, Hws, !omap_app.
    + intros [= <-]. apply (step_silent _ _ []); [done|constructor|]. unfold acting. rewrite Hpc. cbn [rs_pc].
      rewrite Hdel, Hws, !omap_app. done.
Qed.

(** ** Parallelism *)

(** The nodes whose action has started and not ended. *)
Fixpoint started (tr : @trace Outputs) : nat :=
  match tr with [] => 0 | LStart _ _ :: tr => S (started tr) | _ :: tr => started tr end.
Fixpoint ended (tr : @trace Outputs) : nat :=
  match tr with [] => 0 | LEnd _ _ :: tr => S (ended tr) | _ :: tr => ended tr end.

Lemma silent_counts pre tr : Forall silent pre → started (pre ++ tr) = started tr ∧ ended (pre ++ tr) = ended tr.
Proof. induction 1 as [|ev pre Hev _ IH]; [done|]. destruct ev; done. Qed.

Lemma counts_step c s s' : step w g levels keepGoing par c s = Some s' →
  started (rs_trace s) = ended (rs_trace s) + length (acting s) → started (rs_trace s') = ended (rs_trace s') + length (acting s').
Proof.
  intros Hc%step_cases Hs. destruct Hc as [pre -> Hpre Ha|li blocked snapshot todo ws i n _ _ -> Ha|n a -> Ha]; simpl.
  - destruct (silent_counts pre (rs_trace s) Hpre) as [-> ->]. by rewrite Ha.
  - rewrite Ha. simpl. lia.
  - rewrite Ha in Hs. simpl in Hs. lia.
Qed.

Lemma counts_reached cs s s' : run_schedule w g levels keepGoing par cs s = Some s' →
  started (rs_trace s) = ended (rs_trace s) + length (acting s) → started (rs_trace s') = ended (rs_trace s') + length (acting s').
Proof.
  revert s. induction cs as [|c cs IH]; intros s; simpl; [by intros [= <-]|].
  destruct (step _ _ _ _ _ c s) as [s1|] eqn:Hc; [|done]. simpl. intros Hk Hs. by eapply IH, counts_step.
Qed.

Lemma acting_workers (s : @rstate Outputs) : length (acting s) <= match rs_pc s with InLevel _ _ _ _ ws => length ws | _ => 0 end.
Proof.
  unfold acting. destruct (rs_pc s) as [|? ? ? ? ws| |]; [simpl; lia| |simpl; lia..].
  generalize (λ wk : @worker Outputs, match wk_state wk with WActing => Some (wk_node wk) | _ => None end). intros f.
  induction ws as [|wk ws IH]; [done|]. cbn [omap list_omap] in *. destruct (f wk); cbn [length]; lia.
Qed.

(** C36: at no moment of any schedule are more actions in flight than the
    parallelism asked for. *)
Theorem parallelism_bounded s : reached w g levels keepGoing par s →
  started (rs_trace s) <= ended (rs_trace s) + par.
Proof.
  intros Hr. pose proof (reached_inv w g levels keepGoing par (answered) s Hr) as Hinv. destruct Hr as [cs Hcs].
  rewrite (counts_reached cs initial s Hcs) by done. pose proof (acting_workers s) as Ha. unfold inv in Hinv.
  destruct (rs_pc s); [lia| |lia|lia]. destruct Hinv as (? & ? & ? & _ & _ & _ & _ & _ & _ & _ & _ & _ & _ & Hpar). lia.
Qed.
End Schedules.

(** ** Order and data flow *)

Section Order.
Context {Outputs : Type} (w : @LevelsWorld Outputs) (g : Graph) (levels : list (list string)) (keepGoing : bool) (par : nat).
Context (Hnd : NoDup (concat levels)).
Local Notation entry := (nat * string * @answer Outputs)%type.

Definition names_of (D : list (list entry)) : list string := concat ((λ d : list entry, (λ e : entry, e.1.2) <$> d) <$> D).

Lemma done_names (D : list (list entry)) : done_levels levels D → names_of D ≡ₚ concat (take (length D) levels).
Proof.
  intros [_ HF]. revert HF. generalize (take (length D) levels). clear Hnd. intros ls HF.
  enough (names_of D ≡ₚ concat (rev ls)) as -> by apply concat_rev_perm.
  revert HF. generalize (rev ls). clear ls. unfold names_of. induction 1 as [|d level D ls Hf _ IH]; [done|]. simpl.
  by rewrite (full_names d level Hf), IH.
Qed.

Lemma done_NoDup (D : list (list entry)) : done_levels levels D → NoDup (names_of D).
Proof.
  intros HD. rewrite (done_names D HD). rewrite <-(take_drop (length D) levels), concat_app in Hnd.
  by apply NoDup_app in Hnd as [? _].
Qed.

Lemma data_applied_other (D : list (list entry)) n : n ∉ names_of D → sh_applied (data D) !! n = None.
Proof.
  induction D as [|d D IH]; [done|]. unfold names_of. simpl. rewrite not_elem_of_app. intros [Hd HD].
  rewrite merge_applied_other by done. simpl. by apply IH.
Qed.

(** A completed node's verdict is what the later layers see. *)
Lemma data_at (D : list (list entry)) : NoDup (names_of D) → ∀ n, n ∈ names_of D →
  ∃ D' d i a, d :: D' `suffix_of` D ∧ (i, n, a) ∈ d ∧ (is_Some (an_err a) → n ∈ sh_failed (data D)) ∧
    (an_err a = None → sh_applied (data D) !! n = an_outputs a).
Proof.
  induction D as [|d D IH]; [intros _ n Hn; by apply elem_of_nil in Hn|]. unfold names_of. simpl. fold (names_of D).
  intros (Hd & Hdis & HD)%NoDup_app n [Hn|Hn]%elem_of_app.
  - pose proof Hn as Hn0. apply list_elem_of_fmap in Hn as ([[i m] a] & -> & Hin). simpl in *. exists D, d, i, a. split_and!; [done|done| |].
    + intros Hs. apply merge_failed. right. by exists (i, m, a).
    + intros Ha. eapply merge_applied_at; [done|done|done|]. simpl. apply data_applied_other. by apply Hdis.
  - destruct (IH HD n Hn) as (D' & d' & i & a & Hs & Hin & Hf & Ha). exists D', d', i, a. split_and!.
    + by apply suffix_cons_r.
    + done.
    + intros He. apply merge_failed. left. by apply Hf.
    + intros He. rewrite merge_applied_other; [by apply Ha|]. intros Hx. by apply (Hdis n Hx).
Qed.

(** [m] runs before [n] can, and [n] sees what [m] produced. *)
Definition done_before (post : @trace Outputs) (snap : gmap string Outputs) (m : string) : Prop :=
  ∃ a, LEnd m a ∈ post ∧ an_err a = None ∧ snap !! m = an_outputs a.

Definition upstream (m n : string) : Prop := precedes levels m n ∧ (keepGoing = false ∨ m ∈ in_ g n).

Definition ordered (tr : @trace Outputs) : Prop := ∀ pre n snap post, tr = pre ++ LStart n snap :: post →
  n ∈ concat levels ∧ ∀ m, upstream m n → done_before post snap m.

Lemma ordered_app pre tr : Forall (λ ev, ∀ n snap, ev ≠ LStart n snap) pre → ordered tr → ordered (pre ++ tr).
Proof.
  intros Hpre Ho. induction Hpre as [|ev pre Hev _ IH]; [done|]. intros p n snap post Heq.
  destruct p as [|e p]; injection Heq as -> Heq; [by edestruct Hev|]. by apply (IH p).
Qed.

Lemma ordered_start n snap tr : n ∈ concat levels → (∀ m, upstream m n → done_before tr snap m) → ordered tr →
  ordered (LStart n snap :: tr).
Proof.
  intros Hin Hn Ho [|e p] n' snap' post Heq; injection Heq; [by intros <- <- <-|]. intros Heq' _. by apply (Ho p).
Qed.

Lemma level_index_lt m n i level : precedes levels m n → levels !! i = Some level → n ∈ level → m ∈ concat (take i levels).
Proof.
  intros (L1 & L2 & HL & Hm & Hn2) Hi Hn. apply elem_of_concat in Hn2 as (l & [j Hj]%list_elem_of_lookup & Hnl).
  assert (levels !! (length L1 + j) = Some l) as Hlj.
  { rewrite HL, lookup_app_r by lia. by replace (length L1 + j - length L1) with j by lia. }
  assert (i = length L1 + j) as -> by (by eapply concat_NoDup_index).
  rewrite HL, take_app, concat_app. apply elem_of_app. left. by rewrite take_ge by lia.
Qed.

Lemma upstream_done s li blocked snapshot todo ws i n : inv w g levels keepGoing par answered s →
  rs_pc s = InLevel li blocked snapshot todo ws → MkWorker i n WAct ∈ ws →
  n ∈ concat levels ∧ ∀ m, upstream m n → done_before (rs_trace s) snapshot m.
Proof.
  intros Hinv Hpc Hw. unfold inv in Hinv. rewrite Hpc in Hinv.
  destruct Hinv as (D & d & level & Hli & (HD & Hlg & Hst) & Hl & -> & -> & _ & _ & Hperm & _ & Hok & _).
  assert (n ∈ level) as Hn.
  { rewrite <-(imap_pair_snd level), <-Hperm, !fmap_app, !elem_of_app. right; left. apply list_elem_of_fmap.
    exists (i, n). split; [done|]. apply list_elem_of_fmap. by exists (MkWorker i n WAct). }
  split; [apply elem_of_concat; exists level; split; [by eapply list_elem_of_lookup_2|done]|]. intros m [Hpre Hup].
  pose proof (level_index_lt m n li level Hpre Hl Hn) as Hm. rewrite <-Hli, <-(done_names D HD) in Hm.
  destruct (data_at D (done_NoDup D HD) m Hm) as (D' & d' & j & a & Hs & Hin & Hfail & Happ).
  pose proof (legit_levels_elem _ _ _ _ _ _ Hlg Hs Hin) as Ha. simpl in Ha.
  assert (an_err a = None) as Herr.
  { destruct (an_err a) as [err|] eqn:Herr; [|done]. exfalso. destruct Hup as [Hk|Hk].
    - destruct Hst as [|Hc]; [congruence|]. rewrite Forall_forall in Hc. assert (d' ∈ D) as Hd by (destruct Hs as [p ->]; apply elem_of_app; right; left).
      specialize (Hc d' Hd). unfold clean in Hc. rewrite Forall_forall in Hc. specialize (Hc _ Hin). simpl in Hc. congruence.
    - destruct keepGoing eqn:Hkg.
      + rewrite Forall_forall in Hok. specialize (Hok _ Hw). unfold wk_ok in Hok. simpl in Hok. apply prepared_unblocked in Hok. specialize (Hok eq_refl).
        unfold blocked_by in Hok. eapply find_none in Hok; [|by apply list_elem_of_In]. apply bool_decide_eq_false in Hok.
        apply Hok, Hfail. by eexists.
      + destruct Hst as [|Hc]; [congruence|]. rewrite Forall_forall in Hc. assert (d' ∈ D) as Hd by (destruct Hs as [p ->]; apply elem_of_app; right; left).
        specialize (Hc d' Hd). unfold clean in Hc. rewrite Forall_forall in Hc. specialize (Hc _ Hin). simpl in Hc. congruence. }
  exists a. destruct Ha as [Ha|[[? Hx] _]]; [|congruence]. split_and!; [done|done|by apply Happ].
Qed.

Lemma ordered_step c s s' : inv w g levels keepGoing par answered s → step w g levels keepGoing par c s = Some s' →
  ordered (rs_trace s) → ordered (rs_trace s').
Proof.
  intros Hinv Hc%step_cases Ho. destruct Hc as [pre -> Hpre _|li blocked snapshot todo ws i n Hpc Hw -> _|n a -> _].
  - apply ordered_app; [|done]. eapply Forall_impl; [exact Hpre|]. by intros [] ? ? ?.
  - destruct (upstream_done s _ _ _ _ _ _ _ Hinv Hpc Hw). by apply ordered_start.
  - apply (ordered_app [LEnd n a]); [|done]. by constructor.
Qed.

Lemma ordered_reached s : reached w g levels keepGoing par s → ordered (rs_trace s).
Proof.
  intros [cs Hcs]. assert (inv w g levels keepGoing par answered initial ∧ ordered (@rs_trace Outputs initial)) as Hi.
  { split; [apply initial_inv|]. intros [|? ?]; discriminate. }
  revert Hi Hcs. generalize (@initial Outputs) as s0. induction cs as [|c cs IH]; intros s0 [Hi Ho]; simpl; [by intros [= <-]|].
  destruct (step _ _ _ _ _ c s0) as [s1|] eqn:Hc; [|done]. simpl. apply IH. split; [by eapply (step_inv w g levels keepGoing par answered)|by eapply ordered_step].
Qed.
End Order.

(** ** The engine's schedules *)

Lemma executionLevels_order g o reverse L : adj_wf g → closed g → sc_levels o = None → executionLevels g o reverse = Ok L →
  NoDup (concat L) ∧
  ∀ a b, a ∈ concat L → b ∈ concat L → edge g a b → if reverse then precedes L b a else precedes L a b.
Proof.
  intros Hwf Hc Ho. unfold executionLevels. rewrite Ho. intros (o' & Hres & [= HL])%result_bind_Ok.
  unfold resolveSelection in Hres. apply result_bind_Ok in Hres as (selection & _ & Hres).
  apply result_bind_Ok in Hres as (K & HK & [= <-]). simpl in HL.
  assert (NoDup (concat K) ∧ ∀ a b, a ∈ concat K → b ∈ concat K → edge g a b → precedes K a b) as [HndK HpK].
  { destruct selection as [sel|]; simpl in HK.
    - destruct (SelectedLevels_Some g _ _ K HK) as (levels & Hlv & Hns & ->).
      pose proof (Levels_Ok g levels Hwf Hlv) as [_ Hp]. split.
      + apply NoDup_concat_filter. rewrite Hp. apply names_NoDup.
      + intros a b Ha Hb Hab. rewrite keep_levels_elem in Ha, Hb. destruct Ha as [? Ha], Hb as [? Hb].
        apply keep_levels_precedes; [done..|]. eapply Levels_precedes; [done|by apply closed_dangling_free|done|by apply tc_once].
    - unfold SelectedLevels in HK. apply result_bind_Ok in HK as (levels & Hlv & [= <-]).
      pose proof (Levels_Ok g levels Hwf Hlv) as [_ Hp]. split; [rewrite Hp; apply names_NoDup|].
      intros a b _ _ Hab. eapply Levels_precedes; [done|by apply closed_dangling_free|done|by apply tc_once]. }
  destruct reverse; subst L; [|done]. split; [by rewrite concat_rev_perm|].
  intros a b. rewrite !concat_rev_perm. intros. apply precedes_rev. auto.
Qed.

(** C8: an action starts only after the action of every scheduled node it
    depends on (on a reversed schedule: of every scheduled node that depends
    on it) has ended without an error, and the snapshot it is given holds
    exactly the outputs that action returned, whatever runs beside it; a run
    that keeps going after failures keeps this too. *)
Theorem actions_ordered {Outputs} (w : @LevelsWorld Outputs) g o reverse L keepGoing par s pre n snap post :
  adj_wf g → closed g → sc_levels o = None → executionLevels g o reverse = Ok L → (keepGoing = true → reverse = false) →
  reached w g L keepGoing par s → rs_trace s = pre ++ LStart n snap :: post →
  ∀ m, m ∈ concat L → (if reverse then edge g n m else edge g m n) →
  ∃ a, LEnd m a ∈ post ∧ an_err a = None ∧ snap !! m = an_outputs a.
Proof.
  intros Hwf Hc Ho HL Hk Hr Htr m Hm Hedge. destruct (executionLevels_order g o reverse L Hwf Hc Ho HL) as [Hnd Hpre].
  destruct (ordered_reached w g L keepGoing par Hnd s Hr pre n snap post Htr) as [Hn Hup]. apply Hup. split.
  - destruct reverse; [apply (Hpre n m)|apply (Hpre m n)]; done.
  - destruct keepGoing; [right|by left]. rewrite (Hk eq_refl) in Hedge. by apply elem_of_in.
Qed.
