(* ===== verification/LevelsRef.v ===== *)
(** The execution loop against its reference (for RunLevels.v): when actions
    and [node.prepare] answer the same at every moment and nothing stops the
    run between the nodes, any schedule gives the report and the error of
    running the nodes of each layer one after another. *)
From S2P Require Import Prelude GoLib Blueprint Module Graph Topo Selection ApplyNode RunLevels LevelsProofs LevelsSchedule.

(** ** Shared states up to the order of completion *)

Section Equiv.
Context {Outputs : Type}.
Local Notation entry := (nat * string * @answer Outputs)%type.

(** The same verdicts, reported in another order. *)
Definition same_shared (a b : @shared Outputs) : Prop :=
  sh_runs a ≡ₚ sh_runs b ∧ sh_failed a = sh_failed b ∧ sh_applied a = sh_applied b ∧ sh_errs a = sh_errs b.

#[export] Instance same_shared_equivalence : Equivalence same_shared.
Proof.
  split.
  - done.
  - intros a b (? & ? & ? & ?). by split_and!.
  - intros a b c (Hab & ? & ? & ?) (Hbc & ? & ? & ?). split_and!; [by rewrite Hab|congruence..].
Qed.

#[export] Instance merge_one_proper li e : Proper (same_shared ==> same_shared) (merge_one li e).
Proof.
  intros a b (Hr & Hf & Ha & He). destruct e as [[i n] x]. unfold merge_one, same_shared.
  destruct (an_err x); simpl; rewrite Hr, Hf, Ha, He; done.
Qed.

#[export] Instance merge_all_proper li d : Proper (same_shared ==> same_shared) (merge_all li d).
Proof. intros a b Hab. induction d as [|e d IH]; [done|]. simpl. by apply merge_one_proper. Qed.

#[export] Instance reset_proper n : Proper (same_shared ==> same_shared) (reset n).
Proof. intros a b (Hr & Hf & Ha & He). unfold reset, same_shared. simpl. by rewrite Hr, Hf, Ha. Qed.

Lemma merge_one_swap li i n a j m b (sh : @shared Outputs) : i ≠ j → n ≠ m →
  same_shared (merge_one li (i, n, a) (merge_one li (j, m, b) sh)) (merge_one li (j, m, b) (merge_one li (i, n, a) sh)).
Proof.
  intros Hij Hnm. unfold merge_one, same_shared.
  assert (∀ x y : NodeRun, (sh_runs sh ++ [x]) ++ [y] ≡ₚ (sh_runs sh ++ [y]) ++ [x]) as Hp.
  { intros x y. rewrite <-!(assoc_L (++)). f_equiv. constructor. }
  destruct (an_err a), (an_err b); simpl; (split; [apply Hp|]); split_and!; try done.
  - by rewrite !(assoc_L (∪)), (comm_L (∪) {[ n ]}).
  - rewrite list_insert_insert_ne by done. done.
  - destruct (an_outputs a), (an_outputs b); try done. by rewrite insert_insert_ne by done.
Qed.

(** Distinct workers can merge in any order. *)
Lemma merge_all_perm li (d d' : list entry) sh : d ≡ₚ d' → NoDup ((λ e : entry, e.1.1) <$> d) → NoDup ((λ e : entry, e.1.2) <$> d) →
  same_shared (merge_all li d sh) (merge_all li d' sh).
Proof.
  induction 1 as [|e d d' Hp IH|[[i n] a] [[j m] b] d|d d' d'' Hp IH Hp' IH']; intros Hi Hn.
  - done.
  - apply NoDup_cons in Hi as [_ Hi], Hn as [_ Hn]. simpl. by apply merge_one_proper, IH.
  - apply NoDup_cons in Hi as [Hi _], Hn as [Hn _]. simpl in *.
    apply merge_one_swap; [intros ->; apply Hi; by left|intros ->; apply Hn; by left].
  - etrans; [by apply IH|]. apply IH'; by rewrite <-Hp.
Qed.
End Equiv.

(** ** The reference *)

Section Ref.
Context {Outputs : Type} (g : Graph) (levels : list (list string)) (keepGoing : bool).
Context (act : string → gmap string Outputs → @answer Outputs) (gate : string → option error).
Local Notation entry := (nat * string * @answer Outputs)%type.

Definition ref_answer (sh : shared) (n : string) : answer :=
  match (if keepGoing then blocked_by g (sh_failed sh) n else None) with
  | Some parent => prevented (plan_blocked parent)
  | None => match gate n with Some err => prevented err | None => act n (sh_applied sh) end
  end.

Definition ref_entries (level : list string) (sh : shared) : list entry := imap (λ i n, (i, n, ref_answer sh n)) level.

(** A layer's nodes in order, all against what the layers before left. *)
Definition ref_level (li : nat) (level : list string) (sh : shared) : shared :=
  foldl (λ s e, merge_one li e s) (reset (length level) sh) (ref_entries level sh).

Fixpoint ref_levels (li : nat) (ls : list (list string)) (sh : shared) : list NodeRun * option error :=
  match ls with
  | [] => (sh_runs sh, None)
  | level :: ls =>
    let sh := ref_level li level sh in
    match first_failure (sh_errs sh) with
    | None => ref_levels (S li) ls sh
    | Some err => if keepGoing then ((ref_levels (S li) ls sh).1, Some err)
                  else (sh_runs sh ++ mark_levels (S li) ls, Some err)
    end
  end.

Definition ref_run : list NodeRun * option error :=
  let '(runs, err) := ref_levels 0 levels (MkShared [] ∅ ∅ []) in (merge_sort run_le runs, err).

(** The reference's state after a prefix of the layers, the last first. *)
Fixpoint ref_data (ls : list (list string)) : shared :=
  match ls with [] => MkShared [] ∅ ∅ [] | level :: ls => ref_level (length ls) level (ref_data ls) end.

(** ** A steady world *)

(** Whatever happened before: an action answers for the node and the outputs
    it is given, the plugins answer [node.prepare] for the node; the context is
    not cancelled, and neither [level.finished] nor the completion and
    [afterLevel] callbacks fail. *)
Record steady_world (w : @LevelsWorld Outputs) : Prop := {
  sd_cancelled tr : lw_cancelled w tr = None;
  sd_prepare tr n : (if lw_plugins w then lw_emit w (LEmit "node.prepare" n "" :: tr) else None) = gate n;
  sd_level tr : lw_plugins w = true → lw_emit w (LEmit "level.finished" "" "" :: tr) = None;
  sd_completion tr : lw_completion w tr = None;
  sd_after tr : lw_afterLevel w tr = None;
  sd_action tr n snap : lw_action w tr n snap = act n snap;
}.
Context (w : @LevelsWorld Outputs) (Hw : steady_world w) (par : nat).
Context (Hlevels : Forall NoDup levels).

Definition as_ref (tr : @trace Outputs) (D : list (list entry)) (n : string) (a : answer) : Prop := a = ref_answer (data D) n.

#[local] Instance as_ref_legit : Legit w g keepGoing as_ref.
Proof.
  split.
  - done.
  - intros D n tr tr' err. unfold prepare, as_ref, ref_answer, prevented. rewrite (sd_cancelled w Hw).
    destruct (if keepGoing then _ else _) as [parent|]; [by intros [= <- <-]|].
    rewrite <-(sd_prepare w Hw tr n). unfold emit. destruct (lw_plugins w); [|done]. by intros [= <- ->].
  - intros D n tr (tr0 & tr1 & Hp). revert Hp. unfold as_ref, ref_answer, prepare. rewrite (sd_action w Hw), (sd_cancelled w Hw).
    destruct (if keepGoing then _ else _) as [parent|]; [done|].
    rewrite <-(sd_prepare w Hw tr0 n). unfold emit. destruct (lw_plugins w); [|done]. by intros [= _ ->].
Qed.

Lemma foldl_merge li (d : list entry) sh : foldl (λ s e, merge_one li e s) sh d = merge_all li (reverse d) sh.
Proof.
  revert sh. induction d as [|e d IH]; intros sh; [done|]. simpl. rewrite IH, reverse_cons. unfold merge_all. by rewrite foldr_app.
Qed.

(** The answers of a layer are the reference's. *)
Lemma entries_ref tr (d : list entry) D level : full d level → Forall (λ e, as_ref tr D e.1.2 e.2) d → d ≡ₚ ref_entries level (data D).
Proof.
  intros Hf Ha. assert (d = (λ k : nat * string, (k, ref_answer (data D) k.2)) <$> d.*1) as Hd.
  { clear Hf. induction Ha as [|[[i n] a] d Ha _ IH]; [done|]. rewrite !fmap_cons. simpl. unfold as_ref in Ha. simpl in Ha. by rewrite <-Ha, <-IH. }
  rewrite Hd, Hf. unfold ref_entries. by rewrite fmap_imap.
Qed.

Lemma ref_answer_same a b n : same_shared a b → ref_answer a n = ref_answer b n.
Proof. intros (_ & Hf & Ha & _). unfold ref_answer. by rewrite Hf, Ha. Qed.

Lemma ref_entries_same a b level : same_shared a b → ref_entries level a = ref_entries level b.
Proof. intros Hab. unfold ref_entries. apply imap_ext. intros i n _. by rewrite (ref_answer_same a b n Hab). Qed.

Lemma data_ref tr D : done_levels levels D → legit_levels as_ref tr D →
  same_shared (data D) (ref_data (rev (take (length D) levels))).
Proof.
  intros [Hlen HF]. revert HF. assert (Forall NoDup (rev (take (length D) levels))) as Hnd.
  { apply Forall_rev, Forall_take, Hlevels. }
  clear Hlen. revert Hnd. generalize (rev (take (length D) levels)). induction D as [|d D IH]; intros ls Hnd HF Hl.
  { by apply Forall2_nil_inv_l in HF as ->. }
  apply Forall2_cons_inv_l in HF as (level & ls' & Hf & HF & ->). destruct Hl as [Ha Hl].
  apply Forall_cons in Hnd as [Hnl Hnd]. specialize (IH ls' Hnd HF Hl).
  simpl. rewrite (Forall2_length _ _ _ HF), (full_length d level Hf). unfold ref_level. rewrite foldl_merge.
  rewrite <-(ref_entries_same (data D) (ref_data ls') level IH), <-IH.
  apply merge_all_perm; [rewrite reverse_Permutation; by eapply entries_ref| |].
  - rewrite (full_indexes d level Hf). apply NoDup_seq.
  - by rewrite (full_names d level Hf).
Qed.

(** *** The reference, layer by layer *)

Definition with_first (first : option error) (r : list NodeRun * option error) : list NodeRun * option error :=
  (r.1, match first with Some err => Some err | None => r.2 end).

Lemma first_of_ref tr D (d : list entry) : done_levels levels (d :: D) → legit_levels as_ref tr (d :: D) →
  first_failure (sh_errs (data (d :: D))) = first_failure (sh_errs (ref_data (rev (take (S (length D)) levels)))).
Proof. intros HD Hl. destruct (data_ref tr (d :: D) HD Hl) as (_ & _ & _ & He). by rewrite He. Qed.

Lemma done_levels_tail (d : list entry) D : done_levels levels (d :: D) → done_levels levels D.
Proof.
  intros [Hlen HF]. simpl in Hlen. assert (is_Some (levels !! length D)) as [level Hl] by (apply lookup_lt_is_Some; lia).
  simpl in HF. rewrite (take_S_r _ _ _ Hl), rev_app_distr in HF. simpl in HF. apply Forall2_cons in HF as [Hf HF]. split; [lia|done].
Qed.

Lemma ref_prefix tr (D : list (list entry)) : done_levels levels D → legit_levels as_ref tr D → steady keepGoing D →
  ref_levels 0 levels (MkShared [] ∅ ∅ []) =
  with_first (first_of D) (ref_levels (length D) (drop (length D) levels) (ref_data (rev (take (length D) levels)))).
Proof.
  induction D as [|d D IH]; intros HD Hl Hs.
  { simpl. rewrite drop_0. unfold with_first. by destruct (ref_levels _ _ _). }
  pose proof (first_of_ref tr D d HD Hl) as Hfi. pose proof (done_levels_tail d D HD) as HD'.
  assert (steady keepGoing D) as Hs' by (destruct Hs as [|Hs]; [by left|right; by inversion Hs]).
  rewrite (IH HD' (proj2 Hl) Hs'). destruct HD as [Hlen HF]. cbn [length] in *.
  assert (is_Some (levels !! length D)) as [level Hlv] by (apply lookup_lt_is_Some; lia).
  rewrite (drop_S _ _ _ Hlv). cbn [ref_levels first_of]. revert Hfi.
  rewrite (take_S_r _ _ _ Hlv), rev_app_distr. cbn [rev app ref_data]. rewrite length_rev, length_take, Nat.min_l by lia.
  intros <-. destruct (first_failure (sh_errs (data (d :: D)))) as [err|] eqn:He.
  - destruct keepGoing eqn:Hk; unfold with_first; simpl; [by destruct (first_of D)|].
    destruct Hs as [|Hc]; [done|]. exfalso. inversion Hc as [|? ? Hcd _]; subst.
    rewrite (take_S_r _ _ _ Hlv), rev_app_distr in HF. simpl in HF. apply Forall2_cons in HF as [Hf _].
    apply (first_failure_clean D d level Hf) in Hcd. congruence.
  - unfold with_first. simpl. by destruct (first_of D).
Qed.

Lemma steady_not_interrupted err : ¬ interrupted w err.
Proof.
  intros (tr & [Hx|[Hx|[[Hpl Hx]|Hx]]]); [rewrite (sd_cancelled w Hw) in Hx|rewrite (sd_completion w Hw) in Hx|rewrite (sd_level w Hw) in Hx by done|rewrite (sd_after w Hw) in Hx]; done.
Qed.

Lemma ref_returned tr sh err : returned w levels keepGoing as_ref tr sh err →
  sh_runs sh ≡ₚ (ref_levels 0 levels (MkShared [] ∅ ∅ [])).1 ∧ err = (ref_levels 0 levels (MkShared [] ∅ ∅ [])).2.
Proof.
  intros (D & HD & Hl & -> & Hre). destruct Hre as [Hlen Hs|d D' err -> Hk Hc He|err Hi]; [| |by apply steady_not_interrupted in Hi].
  - rewrite (ref_prefix tr D HD Hl Hs). rewrite Hlen, drop_all. unfold markNotRun. rewrite drop_all. simpl. rewrite app_nil_r.
    split; [|by destruct (first_of D)]. destruct (data_ref tr D HD Hl) as (Hr & _). by rewrite <-Hlen.
  - pose proof (done_levels_tail d D' HD) as HD'. rewrite (ref_prefix tr D' HD' (proj2 Hl) (or_intror Hc)).
    assert (first_of D' = None) as ->.
    { clear -Hc HD'. destruct HD' as [_ HF]. revert HF. generalize (rev (take (length D') levels)). induction Hc as [|d D Hd _ IH]; intros ls HF; [done|].
      apply Forall2_cons_inv_l in HF as (level & ls' & Hf & HF & _). cbn [first_of]. rewrite (IH ls' HF). by eapply first_failure_clean. }
    rewrite (first_of_ref tr D' d HD Hl) in He. destruct (data_ref tr (d :: D') HD Hl) as (Hr & _).
    assert (is_Some (levels !! length D')) as [level Hlv] by (apply lookup_lt_is_Some; destruct HD; simpl in *; lia).
    revert He Hr. cbn [length]. rewrite (drop_S _ _ _ Hlv). cbn [ref_levels].
    rewrite (take_S_r _ _ _ Hlv), rev_app_distr. cbn [rev app ref_data]. rewrite length_rev, length_take, Nat.min_l by (destruct HD'; lia).
    intros -> Hr. rewrite Hk. unfold with_first, markNotRun. simpl. by rewrite <-Hr.
Qed.

Lemma report_keys_NoDup li ls : Forall NoDup ls → NoDup (report_keys li ls).
Proof.
  intros Hnd. revert li. induction Hnd as [|level ls Hl _ IH]; intros li; simpl; [constructor|]. apply NoDup_app. split_and!.
  - apply NoDup_fmap; [by intros ? ? [=]|]. by apply sort_strings_NoDup.
  - intros x (n & -> & _)%list_elem_of_fmap Hy%report_keys_ge. simpl in Hy. unfold level_number in Hy. lia.
  - apply IH.
Qed.

(** Sorted runs with distinct keys are determined by their set. *)
Lemma sorted_runs_unique (r1 r2 : list NodeRun) : r1 ≡ₚ r2 → NoDup (run_key <$> r1) → merge_sort run_le r1 = merge_sort run_le r2.
Proof.
  intros Hp Hnd. pose proof (merge_sort_Permutation run_le r1) as P1. pose proof (merge_sort_Permutation run_le r2) as P2.
  assert (run_key <$> merge_sort run_le r1 = run_key <$> merge_sort run_le r2) as Hkeys.
  { apply (StronglySorted_unique_strong key_le); [|apply sorted_report_keys..|by rewrite P1, P2, Hp].
    intros x y _ _. apply key_le_antisymm. }
  assert (merge_sort run_le r1 ≡ₚ merge_sort run_le r2) as Hperm by (by rewrite P1, P2).
  rewrite <-P1 in Hnd. revert Hkeys Hperm Hnd. generalize (merge_sort run_le r1), (merge_sort run_le r2). clear.
  induction l as [|a l IH]; intros l2 Hk Hp Hnd.
  { by apply Permutation_nil in Hp as ->. }
  destruct l2 as [|b l2]; [by apply Permutation_sym, Permutation_nil in Hp|]. rewrite !fmap_cons in Hk. injection Hk as Hkl Hkn Hk.
  rewrite fmap_cons in Hnd. apply NoDup_cons in Hnd as [Ha Hnd].
  assert (b ∈ a :: l) as Hb by (rewrite Hp; by left). apply elem_of_cons in Hb as [->|Hb].
  - f_equal. apply IH; [done|by apply Permutation_cons_inv in Hp|done].
  - exfalso. apply Ha, list_elem_of_fmap. exists b. split; [|done]. unfold run_key. congruence.
Qed.

(** C13: the goroutines are an optimisation.  In a steady world - an action's
    answer depends only on its node and the outputs it is given, the plugins'
    answer to [node.prepare] only on the node (either may be a failure), the
    context is not cancelled, and [level.finished], the completion and the
    [afterLevel] callbacks do not fail - whatever the parallelism and the
    schedule, the report and the error are those of running the nodes of each
    layer one after another. *)
Theorem runs_as_sequential s report err : reached w g levels keepGoing par s → rs_pc s = Finished report err →
  (report, err) = ref_run.
Proof.
  intros Hr%(reached_inv w g levels keepGoing par as_ref) Hpc. unfold inv in Hr. rewrite Hpc in Hr. destruct Hr as [Hr ->].
  pose proof (returned_keys _ _ _ _ _ _ _ Hr) as Hkeys. apply ref_returned in Hr as [Hp ->].
  unfold ref_run. destruct (ref_levels _ _ _) as [runs e]. simpl in *. f_equal. apply sorted_runs_unique; [done|].
  rewrite Hkeys. by apply report_keys_NoDup.
Qed.
End Ref.

(** ** A run of three nodes, two of them side by side *)

Definition three_graph : Graph := plain_graph ["a"; "b"; "c"] [("a", "c"); ("b", "c")].
Definition three_levels : list (list string) := [["a"; "b"]; ["c"]].
Definition three_act (n : string) (snap : gmap string string) : @answer string := MkAnswer (Some n) StatusApplied None.
Definition three_world : @LevelsWorld string :=
  MkLevelsWorld (λ _, None) true (λ _, None) (λ _, None) (λ _, three_act) (λ _, None).

Definition three_schedule : list choice :=
  [Main; Main; Main] ++ concat (repeat [Worker 1; Worker 0] 5) ++ [Worker 1; Worker 0; Main]
  ++ [Main; Main] ++ repeat (Worker 0) 6 ++ [Main; Main; Main].

Definition three_state (n : nat) : rstate :=
  default initial (run_schedule three_world three_graph three_levels false 2 (take n three_schedule) initial).

Definition three_scope : Scope := MkScope None false false None None.

Lemma three_steady : steady_world three_act (λ _, None) three_world.
Proof. by split. Qed.

Definition three_report : list NodeRun := [MkNodeRun "a" 1 "applied" None; MkNodeRun "b" 1 "applied" None; MkNodeRun "c" 2 "applied" None].

Example runs_as_sequential_witness : (three_report, None) = ref_run three_graph three_levels false three_act (λ _, None).
Proof.
  refine (runs_as_sequential three_graph three_levels false three_act (λ _, None) three_world _ 2 _ (three_state 27) three_report None _ _).
  - exact three_steady.
  - apply (bool_decide_unpack _). vm_compute. exact I.
  - exists (take 27 three_schedule). vm_compute. reflexivity.
  - vm_compute. reflexivity.
Defined.

Example report_complete_witness : run_key <$> three_report = [(1%Z, "a"); (1%Z, "b"); (2%Z, "c")].
Proof.
  refine (proj1 (report_complete three_world three_graph three_levels false 2 (three_state 27) three_report None _ _)).
  - exists (take 27 three_schedule). vm_compute. reflexivity.
  - vm_compute. reflexivity.
Defined.

Example runs_end_witness : length three_schedule <= 7 * 3 + 2 * 2 + 2.
Proof.
  refine (proj1 (runs_end three_world three_graph three_levels false 2 three_schedule (three_state 27) _ _)).
  - lia.
  - vm_compute. reflexivity.
Defined.

Example parallelism_bounded_witness : started (rs_trace (three_state 7)) = 2 ∧
  started (rs_trace (three_state 7)) <= ended (rs_trace (three_state 7)) + 2.
Proof.
  split; [vm_compute; reflexivity|].
  refine (parallelism_bounded three_world three_graph three_levels false 2 (three_state 7) _).
  exists (take 7 three_schedule). vm_compute. reflexivity.
Defined.

Example actions_ordered_witness : ∃ snap post a, rs_trace (three_state 20) = LStart "c" snap :: post ∧
  LEnd "a" a ∈ post ∧ snap !! "a" = an_outputs a.
Proof.
  destruct (rs_trace (three_state 20)) as [|[| n snap | |] post] eqn:Ht; try (vm_compute in Ht; discriminate Ht).
  assert (n = "c") as -> by (vm_compute in Ht; injection Ht as <- _ _; reflexivity).
  exists snap, post. refine (match actions_ordered three_world three_graph three_scope false three_levels false 2 (three_state 20)
    [] "c" snap post _ _ _ _ _ _ Ht "a" _ _ with ex_intro _ a (conj Ha (conj _ Hs)) => ex_intro _ a (conj eq_refl (conj Ha Hs)) end).
  - apply plain_graph_wf.
  - apply (bool_decide_unpack _). vm_compute. exact I.
  - reflexivity.
  - vm_compute. reflexivity.
  - discriminate.
  - exists (take 20 three_schedule). vm_compute. reflexivity.
  - apply (bool_decide_unpack _). vm_compute. exact I.
  - change ("c" ∈ out three_graph "a"). apply (bool_decide_unpack _). vm_compute. exact I.
Defined.
