(* ===== verification/Engine.v ===== *)
(** The engine around a loaded graph (src/internal/engine: engine.go,
    path_collision.go, runtime.go; the static part of plugins.go;
    internal/exec/runtime.go): loading a blueprint, the paths and the runtime
    of every node, and the checks [Validate] adds to those of the graph.

    Loading composes the parser, the plugin expansion, graph building and
    validation; the static plugin sessions ([Evaluate]) are an answer, because
    the functions they give HCL are part of the evaluation context. *)
From S2P Require Import Prelude GoLib Cty Blueprint Module Graph Topo Selection Backend Contracts Validate Expand ExpandProofs.
From S2P Require Import Hcl HclSample Parse ParseSafety ParseProofs Runner Execution RunLevels Plugins.

Record Engine := MkEngine {
  eg_Binary : string;
  eg_BaseDir : string;
  eg_Blueprint : option Blueprint;
  eg_Graph : Graph;
}.

Section Paths.
Context (e : Engine).

(** A node outside the graph is a nil dereference no caller makes. *)
Definition engine_node (name : string) : option GNode := g_Nodes (eg_Graph e) !! name.
Definition nodeDir (name : string) : string := default "" (n_Dir <$> engine_node name).
Definition envFor (name : string) : gmap string string := default ∅ (n_Env <$> engine_node name).

Definition planPath (name : string) : string := Join [eg_BaseDir e; ".terragraph"; "plans"; name +:+ ".tfplan"].
Definition dataDir (name : string) : string := Join [eg_BaseDir e; ".terragraph"; "tfdata"; name].
Definition snapshotPath (name : string) : string := Join [eg_BaseDir e; ".terragraph"; "outputs"; name +:+ ".json"].

Definition tfVarsFileName (name : string) : string := ".terragraph." +:+ name +:+ ".tfvars.json".
Definition tfvars_location : string := match eg_Blueprint e with Some bp => TFVarsLocation bp | None => TFVarsLocationWorkdir end.
Definition tfVarsPath (name : string) : string :=
  if decide (tfvars_location = TFVarsLocationModule) then Join [nodeDir name; tfVarsFileName name]
  else Join [eg_BaseDir e; ".terragraph"; "vars"; name +:+ ".tfvars.json"].

(** The node's own runtime, the blueprint's default, the command line. *)
Definition runtimeFor (name : string) : string :=
  match engine_node name ≫= n_Runtime with
  | Some rt => rt_Binary rt
  | None => match eg_Blueprint e ≫= DefaultRuntime with Some rt => rt_Binary rt | None => eg_Binary e end
  end.

Definition runner (name : string) : Runner := MkRunner (runtimeFor name) (nodeDir name) (dataDir name) (envFor name).

(** ** Managed paths (path_collision.go) *)

Definition managed_paths : list (string → string) :=
  [dataDir; planPath; tfVarsPath] ++ if g_Snapshots (eg_Graph e) then [snapshotPath] else [].

Definition warning (m : text) : Problem := MkProblem "" "" "" SeverityWarning m.
Definition failure_problem (m : text) : Problem := MkProblem "" "" "" SeverityError m.

(** The first error ends the pair; a separation that could not be verified is
    reported when none was found. *)
Fixpoint pair_paths `{PathIdentity} (a b : string) (unverified : bool) (paths : list (string → string)) : list Problem :=
  match paths with
  | [] => if unverified
          then [warning (Sprintf "node.%s and node.%s: filesystem path separation could not be verified; use names that differ beyond letter case or verify their parent directories" [FStr a; FStr b])]
          else []
  | path :: paths =>
    match Same (path a) (path b) with
    | Err err => [failure_problem (Sprintf "node.%s and node.%s: checking managed paths: %v; make their parent directories accessible" [FStr a; FStr b; FErr err])]
    | Ok (same, known) =>
      if same && known
      then [failure_problem (Sprintf "node.%s and node.%s resolve to the same managed path on this filesystem; choose distinct names or remove the path alias" [FStr a; FStr b])]
      else pair_paths a b (unverified || negb known) paths
    end
  end.

Fixpoint all_pairs (f : string → string → list Problem) (l : list string) : list Problem :=
  match l with
  | [] => []
  | a :: l => concat (f a <$> l) ++ all_pairs f l
  end.

Definition pathCollisions `{PathIdentity} : list Problem :=
  if bool_decide (eg_BaseDir e = "") || bool_decide (eg_Blueprint e = None) then []
  else all_pairs (λ a b, pair_paths a b false managed_paths) (names (eg_Graph e)).

(** ** Nodes of one module directory (engine.go) *)

Definition same_dir_nodes (dir : string) : list string := filter (λ n, nodeDir n = dir) (names (eg_Graph e)).
Definition engine_dirs : list string := sort_strings (remove_dups (nodeDir <$> names (eg_Graph e))).

Definition mixed (l : list string) : bool :=
  match l with
  | [] => false
  | first :: rest => existsb (λ n, negb (bool_decide (runtimeFor n = runtimeFor first))) rest
  end.

Definition runtimeConflicts : list Problem :=
  concat ((λ dir, if mixed (same_dir_nodes dir)
                  then [warning (Sprintf "%s: nodes %s share this module directory but resolve to different runtimes; their .terraform.lock.hcl will conflict on every apply"
                                   [FStr dir; FStr (join (same_dir_nodes dir) ", ")])]
                  else []) <$> engine_dirs).

(** ** Files no node owns *)

(** A directory listing: the entries and whether each is a directory. *)
Context (ReadDir : string → result (list (string * bool))).

Definition files_in (dir : string) : list string :=
  match ReadDir dir with Ok l => fst <$> filter (λ en, en.2 = false) l | Err _ => [] end.

Definition stale_vars (dir fname : string) : bool :=
  has_prefix fname ".terragraph." && has_suffix fname ".tfvars.json"
  && negb (mem (trim_suffix (trim_prefix fname ".terragraph.") ".tfvars.json") (same_dir_nodes dir)).

Definition tfVarsOrphans : list Problem :=
  if negb (bool_decide (tfvars_location = TFVarsLocationModule)) then []
  else concat ((λ dir, (λ fname, warning (Sprintf "%s: belongs to no node in this blueprint; remove it if the node was renamed or deleted" [FStr (Join [dir; fname])]))
                         <$> sort_strings (filter (λ fname, stale_vars dir fname = true) (files_in dir))) <$> engine_dirs).

(** A relative path is claimed under both directories it could resolve to. *)
Definition state_claims (n : GNode) : list string :=
  match bn_BackendConfig (n_Node n) !! "path" with
  | None => []
  | Some p => if isAbs p then [Clean p] else [Clean (Join [n_Dir n; p]); Clean (Join [eg_BaseDir e; p])]
  end.

Definition claimed (path : string) : bool :=
  existsb (λ name, match engine_node name with Some n => mem path (state_claims n) | None => false end) (names (eg_Graph e)).

Definition state_dir : string := Join [eg_BaseDir e; ".terragraph"; "state"].

Definition stateOrphans : list Problem :=
  (λ fname, warning (Sprintf "%s: state for a node that no longer exists in this blueprint; if the node was renamed, rename it back (or remove/import the state file, and its .tfstate.backup sibling if present, when abandoned)"
                       [FStr (Join [state_dir; fname])]))
    <$> sort_strings (filter (λ fname, has_suffix fname ".tfstate" = true ∧ claimed (Join [state_dir; fname]) = false) (files_in state_dir)).

(** [Engine.Validate]; [None] when the graph's own validation panics. *)
Definition engine_Validate `{MapOrder} `{PathIdentity} (Getenv : string → string) (contracts : Graph → list Problem) : option (list Problem) :=
  problems ← Validate.Validate Getenv contracts (eg_Graph e);
  Some (problems ++ pathCollisions ++ tfVarsOrphans ++ stateOrphans ++ runtimeConflicts).
End Paths.

(** ** Locking (engine.go) *)

Definition check_node_env (e : Engine) (name : string) : result unit :=
  wrap_err (λ err, Errorf "node.%s: %w" [FStr name; FErr err]) (ValidateEnv (runner e name)).

(** [lockRun] up to the lock itself, [held] when [LoadLocked] already took it. *)
Definition lockRun (e : Engine) (acquire : result unit) (held : bool) : result unit :=
  _ ← foldM (λ _ name, check_node_env e name) tt (names (eg_Graph e));
  if held then Ok tt else wrap_err (λ err, Errorf "locking blueprint: %w" [FErr err]) acquire.

Definition lockGraph (e : Engine) (acquire : Lock → result unit) : result unit :=
  match eg_Blueprint e ≫= bp_Lock with
  | None => Ok tt
  | Some l => wrap_err (λ err, Errorf "locking graph: %w" [FErr err]) (acquire l)
  end.

(** ** Runtimes that read .tofu files (runtime.go, exec/runtime.go) *)

(** hashicorp/go-version: a parsed semantic version and its order. *)
Class Semver := {
  version : Type;
  NewSemver : string → result version;
  LessThan : version → version → bool;
}.

Section Runtime.
Context `{HostEnvironment} `{MapOrder} `{Semver} (Environ : list string) (runCommand : Command → runtime_answer).
Context (hook : option RuntimeHook) (terraform_version : string → option string) (minimum : version).

Definition cannot_verify (rest : string) : string :=
  "cannot verify .tofu file support; use OpenTofu 1.8.0 or newer with " +:+ rest +:+ ", or use only .tf/.tf.json files".

(** [version -json] answers with a version of at least 1.8.0 in three parts. *)
Definition supports_tofu (s : string) : bool :=
  let core := (cut "+"%char (cut "-"%char s).1.1).1.1 in
  match NewSemver s with
  | Ok actual => Nat.eqb (length (split_on "."%char core)) 3 && negb (LessThan actual minimum)
  | Err _ => false
  end.

Definition RequireTofuFiles (r : Runner) : Ran unit :=
  out ← wrap_ran (λ err, Errorf "%s: %w" [FStr (cannot_verify "working version -json output"); FErr err])
          (output_of Environ runCommand hook r ["version"; "-json"]);
  nothing_started match terraform_version out with
  | None => Err (Errorf "%s" [FStr (cannot_verify "valid version -json output")])
  | Some v => if supports_tofu v then Ok tt
              else Err (Errorf "selected .tofu/.tofu.json files require OpenTofu 1.8.0 or newer; upgrade the runtime or use only .tf/.tf.json files" [])
  end.

Context (e : Engine).

(** Selected nodes and the direct data sources of a selected node. *)
Definition required_nodes (selected : list string) : list string :=
  sort_strings (remove_dups (selected ++ (pr_Node ∘ e_From <$>
    filter (λ ed, IsDataEdge ed = true ∧ pr_Node (e_To ed) ∈ selected) (g_Edges (eg_Graph e))))).

Definition requires_tofu (name : string) : bool :=
  match engine_node e name ≫= n_Schema with Some s => s_RequiresTofuFiles s | None => false end.

Definition check_runtime (name : string) : Ran unit :=
  if requires_tofu name
  then wrap_ran (λ err, Errorf "node.%s.runtime: %w" [FStr name; FErr err]) (RequireTofuFiles (runner e name))
  else mret tt.

(** One node after another, until one fails. *)
Fixpoint check_runtimes (names : list string) : Ran unit :=
  match names with [] => mret tt | name :: names => _ ← check_runtime name; check_runtimes names end.

Definition checkRuntimeFiles (opts : Scope) : Ran unit :=
  levels ← nothing_started (executionLevels (eg_Graph e) opts false);
  check_runtimes (required_nodes (concat levels)).
End Runtime.

(** ** Loading (engine.go) *)

(** What [Evaluate] answers: the evaluation context and, when plugins are
    configured, the static lifecycle. *)
Record Evaluation (EC : Type) := MkEvaluation { ea_Context : option EC; ea_Lifecycle : option lstate }.
Arguments MkEvaluation {EC}. Arguments ea_Context {EC}. Arguments ea_Lifecycle {EC}.

Section Load.
Context `{Hcl} `{MapOrder} `{PathIdentity} (ParseDuration : string → result Z) (fs : BlueprintFS).
Context (Getenv : string → string) (contracts : Graph → list Problem).
Context (lw : LifecycleWorld) (features : list featureInstance).

Definition bound (n : GNode) : bool := negb (Nat.eqb (size (bn_Inputs (n_Node n)) + size (bn_Credentials (n_Node n))) 0).

Definition unbound_node (g : Graph) (name : string) : result unit :=
  match g_Nodes g !! name with
  | Some n => if bound n then Err (Errorf "node.%s: plugin binding has no root plugin declaration" [FStr name]) else Ok tt
  | None => Ok tt
  end.

Definition validate_bindings (g : Graph) (name : string) : result unit :=
  match g_Nodes g !! name with
  | Some n => ValidateBindings features name (bn_Inputs (n_Node n)) (bn_Credentials (n_Node n)) (n_Env n)
  | None => Ok tt
  end.

(** The nodes of a map in the order Go ranges over it. *)
Definition ranged_names (g : Graph) : list string := fst <$> range (g_Nodes g).

Definition validatePluginGraph (m : option lstate) (g : Graph) : outcome (option lstate) :=
  match m with
  | None => _ ← lift (foldM (λ _ name, unbound_node g name) tt (ranged_names g)); Ret None
  | Some m =>
    problems ← deref (Validate.Validate Getenv contracts g);
    let status := if existsb IsError problems then "invalid" else "valid" in
    _ ← lift (foldM (λ _ name, validate_bindings g name) tt (ranged_names g));
    let '(m, err) := Emit lw features "static" m (MkEvent "" "graph.validate" "" status "" None false) in
    match err with Some err => Fail err | None => Ret (Some m) end
  end.

(** [Lifecycle.Expand]; a nil lifecycle expands nothing. *)
Definition expand_blueprint (m : option lstate) (bp : Blueprint) : outcome (option lstate * Blueprint) :=
  match m with
  | None => Ret (None, bp)
  | Some m => match Expand lw features "static" m bp with
              | (m, bp, None) => Ret (Some m, bp)
              | (_, _, Some err) => Fail err
              end
  end.

Definition set_mode (g : Graph) (mode : string) : Graph :=
  MkGraph (g_Nodes g) (g_Edges g) (g_Out g) (g_In g) (g_Lock g) (g_Contracts g) mode (g_Snapshots g).

Context (env : option EvalContext → BuildEnv) (fuel : nat) (cliBinary : string).
Context (acquire : result unit) (evaluate : string → result (Evaluation EvalContext)) (close : option lstate → result unit).

(** [load]: a failing [Close] of the static sessions fails the load. *)
Definition load (blueprintPath : string) (takeLock observation : bool) : outcome Engine :=
  baseDir ← BaseDirectory fs blueprintPath;
  _ ← (if takeLock then wrap_out (λ err, Errorf "locking blueprint: %w" [FErr err]) (lift acquire) else Ret tt);
  evaluation ← lift (evaluate blueprintPath);
  '(bp, _, _) ← LoadPath ParseDuration fs (ea_Context evaluation) blueprintPath;
  '(m, bp) ← expand_blueprint (ea_Lifecycle evaluation) bp;
  g ← lift (buildRoot fuel (env (ea_Context evaluation)) bp baseDir observation cliBinary);
  m ← validatePluginGraph m g;
  _ ← lift (close m);
  Ret (MkEngine cliBinary baseDir (Some bp) (set_mode g (bp_ContractMode bp))).
End Load.

(** ** Facts *)

Lemma isAbs_Clean p : isAbs p = true → isAbs (Clean p) = true.
Proof. intros Hp. unfold Clean. rewrite Hp. cbv iota zeta. unfold isAbs, has_prefix. simpl. by destruct (join _ _). Qed.

Lemma isAbs_app p q : isAbs p = true → isAbs (p +:+ q) = true.
Proof.
  unfold isAbs, has_prefix. rewrite !prefix_chars. intros [l Hl]. exists (l ++ chars q). by rewrite chars_app, Hl, (assoc_L (++)).
Qed.

Lemma isAbs_Join base rest : isAbs base = true → isAbs (Join (base :: rest)) = true.
Proof.
  intros Hb. destruct base as [|c s]; [done|]. cbn [Join]. apply isAbs_Clean.
  destruct rest as [|r rest]; [done|]. unfold join. cbn [String.concat]. by apply isAbs_app.
Qed.

(** A pair without an error is a pair no path of which is shared. *)
Lemma pair_paths_distinct `{PathIdentity} a b u paths path : no_errors (pair_paths a b u paths) → path ∈ paths →
  ∃ same known, Same (path a) (path b) = Ok (same, known) ∧ same && known = false.
Proof.
  revert u. induction paths as [|p paths IH]; intros u; simpl; [by intros _ Hx%elem_of_nil|].
  destruct (Same (p a) (p b)) as [[same known]|err] eqn:Hs.
  - destruct (same && known) eqn:Hk.
    + intros Hn. exfalso. by specialize (Hn _ (list_elem_of_here _ _)).
    + intros Hn [->|Hp]%elem_of_cons; [by exists same, known|by eapply IH].
  - intros Hn. exfalso. by specialize (Hn _ (list_elem_of_here _ _)).
Qed.

Lemma all_pairs_errors f l a b : no_errors (all_pairs f l) → a ∈ l → b ∈ l → a ≠ b →
  no_errors (f a b) ∨ no_errors (f b a).
Proof.
  induction l as [|c l IH]; simpl; [by intros _ Hx%elem_of_nil|].
  intros [Hc Hl]%no_errors_app. rewrite !elem_of_cons.
  assert (∀ d, d ∈ l → no_errors (f c d)) as Hd.
  { intros d Hd p Hp. apply Hc, elem_of_concat. exists (f c d). split; [|done]. apply list_elem_of_fmap. by exists d. }
  intros [->|Ha] [->|Hb] Hne; [done|left|right|]; auto.
Qed.

(** The artifacts of two nodes never share a file: when validation reports
    no path error, two nodes of a loaded engine have different data
    directories, plan files, variable files and output snapshots, on the
    filesystem as it compares names and not only as strings. *)
Theorem managed_paths_isolated `{PathIdentity} e a b path :
  eg_Blueprint e ≠ None → isAbs (eg_BaseDir e) = true → no_errors (pathCollisions e) →
  a ∈ names (eg_Graph e) → b ∈ names (eg_Graph e) → a ≠ b → path ∈ managed_paths e →
  (isAbs (path a) = true → path a ≠ path b) ∧
  (Same (path a) (path b) ≠ Ok (true, true) ∨ Same (path b) (path a) ≠ Ok (true, true)).
Proof.
  intros Hbp Habs Hn Ha Hb Hne Hp. unfold pathCollisions in Hn.
  rewrite (bool_decide_eq_false_2 (eg_BaseDir e = "")), bool_decide_eq_false_2 in Hn
    by (try done; by intros Hx; rewrite Hx in Habs). cbv [orb] in Hn.
  destruct (all_pairs_errors _ _ a b Hn Ha Hb Hne) as [Hd|Hd];
    destruct (pair_paths_distinct _ _ _ _ path Hd Hp) as (same & known & Hs & Hk); (split;
    [intros Hab Heq; rewrite <-Heq, (Same_refl _ Hab) in Hs; injection Hs as <- <-; done|]); [left|right];
    rewrite Hs; intros [= -> ->]; done.
Qed.

(** Nodes of one directory use one runtime exactly when no conflict is reported. *)
Lemma mixed_false e l : mixed e l = false ↔ ∀ a b, a ∈ l → b ∈ l → runtimeFor e a = runtimeFor e b.
Proof.
  destruct l as [|c l]; simpl; [split; [by intros _ a b Hx%elem_of_nil|done]|]. rewrite <-not_true_iff_false, existsb_elem. split.
  - intros Hno. assert (∀ a, a ∈ c :: l → runtimeFor e a = runtimeFor e c) as Hc.
    { intros a [->|Ha]%elem_of_cons; [done|]. destruct (decide (runtimeFor e a = runtimeFor e c)) as [|Hd]; [done|].
      destruct Hno. exists a. split; [done|]. by rewrite bool_decide_false. }
    intros a b Ha Hb. by rewrite (Hc a Ha), (Hc b Hb).
  - intros Hall (x & Hx & Hd). rewrite bool_decide_true in Hd; [done|]. apply Hall; [by right|by left].
Qed.

Lemma runtimeConflicts_exact e : runtimeConflicts e = [] ↔
  ∀ a b, a ∈ names (eg_Graph e) → b ∈ names (eg_Graph e) → nodeDir e a = nodeDir e b → runtimeFor e a = runtimeFor e b.
Proof.
  unfold runtimeConflicts. rewrite concat_nil_Forall, Forall_fmap, Forall_forall. split.
  - intros Hall a b Ha Hb Hd. assert (nodeDir e a ∈ engine_dirs e) as Hin.
    { unfold engine_dirs. rewrite sort_strings_elem, elem_of_remove_dups. apply list_elem_of_fmap. by exists a. }
    specialize (Hall _ Hin). simpl in Hall. destruct (mixed e _) eqn:Hm; [done|]. rewrite mixed_false in Hm.
    apply Hm; unfold same_dir_nodes; apply list_elem_of_filter; auto.
  - intros Hall dir _. simpl. assert (mixed e (same_dir_nodes e dir) = false) as ->; [|done].
    rewrite mixed_false. intros a b [Ha Ha']%list_elem_of_filter [Hb Hb']%list_elem_of_filter. apply Hall; congruence.
Qed.

(** Every runtime a run can reach was checked. *)
Lemma checkRuntimeFiles_covers `{HostEnvironment} `{MapOrder} `{Semver} Environ run hook tv minimum e opts L :
  executionLevels (eg_Graph e) opts false = Ok L → (checkRuntimeFiles Environ run hook tv minimum e opts).2 = Ok tt →
  ∀ name, name ∈ concat L ∨ (∃ ed, ed ∈ g_Edges (eg_Graph e) ∧ IsDataEdge ed = true ∧ pr_Node (e_To ed) ∈ concat L ∧
                                   pr_Node (e_From ed) = name) →
  requires_tofu e name = true → (RequireTofuFiles Environ run hook tv minimum (runner e name)).2 = Ok tt.
Proof.
  intros HL. unfold checkRuntimeFiles. rewrite HL. simpl.
  assert (∀ l, (check_runtimes Environ run hook tv minimum e l).2 = Ok tt →
    ∀ name, name ∈ l → (check_runtime Environ run hook tv minimum e name).2 = Ok tt) as Hchecks.
  { induction l as [|n l IH]; [by intros _ name ?%elem_of_nil|]. simpl. unfold mbind, Ran_bind.
    destruct (check_runtime _ _ _ _ _ _ n) as [st [[]|]] eqn:Hc; [|done]. destruct (check_runtimes _ _ _ _ _ _ l) as [st' r].
    simpl. intros -> name [->|Hin]%elem_of_cons; [by rewrite Hc|by apply IH]. }
  destruct (check_runtimes _ _ _ _ _ _ _) as [st r] eqn:Hcr. simpl. intros ->.
  pose proof (Hchecks (required_nodes e (concat L))) as Hall. rewrite Hcr in Hall. specialize (Hall eq_refl).
  clear Hchecks Hcr. intros name Hn Hr.
  assert (name ∈ required_nodes e (concat L)) as Hin.
  { unfold required_nodes. rewrite sort_strings_elem, elem_of_remove_dups, elem_of_app.
    destruct Hn as [?|(ed & He & Hd & Ht & <-)]; [by left|right]. apply list_elem_of_fmap. exists ed. split; [done|].
    by apply list_elem_of_filter. }
  specialize (Hall _ Hin). unfold check_runtime in Hall. rewrite Hr in Hall. by apply wrap_err_Ok in Hall.
Qed.

Ltac load_safe := repeat match goal with
  | |- safe_out (_ ≫= _) => apply safe_bind; [|let a := fresh "a" in let E := fresh "E" in intros a E]
  | |- safe_out (wrap_out _ _) => apply safe_wrap
  | |- safe_out (match ?x with _ => _ end) => destruct x
  | |- safe_out _ => solve [auto with terragraph | done]
  end.

Section LoadProofs.
Context `{Hcl} `{!HclLaws} `{MapOrder} `{PathIdentity} (ParseDuration : string → result Z) (fs : BlueprintFS).
Context (Getenv : string → string) (contracts : Graph → list Problem).
Context (lw : LifecycleWorld) (features : list featureInstance).
Context (env : option EvalContext → BuildEnv) (fuel : nat) (cliBinary : string).
Context (acquire : result unit) (evaluate : string → result (Evaluation EvalContext)) (close : option lstate → result unit).

(** Group directories are read by the same parser, with the same functions. *)
Hypothesis groups_parsed : ∀ ec d bp k, env_parseDir (env ec) d = Ok (bp, k) →
  ∃ pl n, parseDir ParseDuration fs ec d = Ret (bp, pl, n).

Notation load := (load ParseDuration fs Getenv contracts lw features env fuel cliBinary acquire evaluate close).

Lemma safe_BaseDirectory path : safe_out (BaseDirectory fs path).
Proof. unfold BaseDirectory. load_safe. Qed.

(** C14: from files to a checked graph: without plugins, loading any
    configuration never panics, and what it returns is well formed all the
    way: the blueprint obeys the parser's rules, the graph's adjacency mirrors
    its edges and every edge joins two of its leaves, no node keeps a plugin
    binding, and for execution validation never dereferences a nil pointer. *)
Theorem load_sound path takeLock observation ev :
  evaluate path = Ok ev → ea_Lifecycle ev = None →
  load path takeLock observation ≠ Panic ∧
  ∀ e, load path takeLock observation = Ret e →
    (∃ bp plugins, eg_Blueprint e = Some bp ∧ parsed_wf bp plugins) ∧
    adj_wf (eg_Graph e) ∧ leaf_edges (eg_Graph e) ∧
    (∀ name n, g_Nodes (eg_Graph e) !! name = Some n → bound n = false) ∧
    (observation = false → ∀ rd, is_Some (engine_Validate e rd Getenv contracts)).
Proof.
  intros Hev Hm. unfold Engine.load. rewrite Hev. simpl. split.
  - apply safe_bind; [apply safe_BaseDirectory|intros base _]. apply safe_bind; [load_safe|intros [] _].
    apply safe_bind; [apply safe_LoadPath|intros [[bp pl] dir] _].
    rewrite Hm. simpl. apply safe_bind; [load_safe|intros g _]. apply safe_bind; [load_safe|intros m _]. load_safe.
  - intros e Hl. apply out_bind_Ret in Hl as (base & _ & Hl). apply out_bind_Ret in Hl as ([] & _ & Hl).
    apply out_bind_Ret in Hl as ([[bp pl] dir] & Hp%LoadPath_wf & Hl). rewrite Hm in Hl. simpl in Hl.
    apply out_bind_Ret in Hl as (g & Hg%lift_Ret & Hl). apply out_bind_Ret in Hl as (m & Hv & Hl).
    apply out_bind_Ret in Hl as ([] & _ & [= <-]). cbn [eg_Blueprint eg_Graph].
    assert (env_ok (env (ea_Context ev))) as Henv by (eapply parsed_env_ok; by intros d b k Hd; eapply groups_parsed).
    pose proof (scope_wf_ok _ _ _ (pw_scope _ _ Hp)) as Hs.
    destruct (buildRoot_leaf _ _ _ _ _ _ _ Henv Hs Hg) as [Hwf Hleaf]. split_and!; [by exists bp, pl|done|done| |].
    + intros name n Hn. change (g_Nodes g !! name = Some n) in Hn. simpl in Hv.
      apply out_bind_Ret in Hv as ([] & Hv%lift_Ret & _). rewrite foldM_checks in Hv. specialize (Hv name).
      unfold unbound_node in Hv. rewrite Hn in Hv. destruct (bound n); [|done]. discriminate Hv.
      unfold ranged_names. apply list_elem_of_fmap. exists (name, n). split; [done|]. by apply range_elem.
    + intros -> rd. unfold engine_Validate. cbn [eg_Graph].
      assert (is_Some (Validate.Validate Getenv contracts (set_mode g (bp_ContractMode bp)))) as [ps ->]; [|by eexists].
      apply nothing_nil_Validate. apply (Validate_nothing_nil Getenv contracts g). by eapply built_validates.
Qed.
End LoadProofs.

(** ** A concrete configuration *)

(** A path whose directory is the root of the checkout. *)
Definition engine_files : BlueprintFS :=
  MkBlueprintFS (λ _, Ok false) (λ _, Ok []) (λ _, Ok "text") (λ _ _, Ok sample_file) (λ _, Ok "/root").
Definition engine_env (_ : option (@EvalContext sample_hcl)) : BuildEnv :=
  MkBuildEnv (λ _, Err (External "no groups")) (λ _ _, Ok wired_schema) (λ _, TerraformFiles) (λ _, EntryDir) (λ _, EntryDir)
    (λ _, Ok "/root/vendor") (λ _, Err (External "type")) (@Validate.Validate map_order_default sample_paths (λ _, "") (λ _, [])).
Definition no_lifecycle : LifecycleWorld :=
  MkLifecycleWorld (λ _, 0%Z) (λ _ _, Opened) (λ _ _, inr (MkCallFailure (External "no plugin") None)) (λ _, Waited) None
    (λ _, "") (λ _ _, None).
Definition engine_evaluate (_ : string) : result (Evaluation (@EvalContext sample_hcl)) := Ok (MkEvaluation None None).
Definition sample_load : outcome Engine :=
  @load sample_hcl map_order_default sample_paths (λ _, Ok 1%Z) engine_files (λ _, "") (λ _, []) no_lifecycle [] engine_env 1
    "terraform" (Ok tt) engine_evaluate (λ _, Ok tt) "main.hcl" true false.

Definition sample_engine : Engine :=
  match sample_load with Ret e => e | _ => MkEngine "" "" None empty_graph end.

Lemma sample_load_Ret : sample_load = Ret sample_engine.
Proof. vm_compute. reflexivity. Qed.

Example load_sound_witness :
  names (eg_Graph sample_engine) = ["a"; "b"] ∧ length (g_Edges (eg_Graph sample_engine)) = 1 ∧ leaf_edges (eg_Graph sample_engine) ∧
  is_Some (@engine_Validate sample_engine (λ _, Ok []) map_order_default sample_paths (λ _, "") (λ _, [])).
Proof.
  split; [vm_compute; reflexivity|]. split; [vm_compute; reflexivity|].
  destruct (@load_sound sample_hcl sample_laws map_order_default sample_paths (λ _, Ok 1%Z) engine_files (λ _, "") (λ _, [])
    no_lifecycle [] engine_env 1 "terraform" (Ok tt) engine_evaluate (λ _, Ok tt)
    ltac:(intros ec d bp k Hd; discriminate Hd) "main.hcl" true false (MkEvaluation None None) eq_refl eq_refl) as [_ Hl].
  destruct (Hl sample_engine sample_load_Ret) as (_ & _ & Hleaf & _ & Hv).
  split; [exact Hleaf|exact (Hv eq_refl (λ _, Ok []))].
Defined.

Example managed_paths_isolated_witness :
  dataDir sample_engine "a" = "/root/.terragraph/tfdata/a" ∧ dataDir sample_engine "a" ≠ dataDir sample_engine "b".
Proof.
  split; [vm_compute; reflexivity|].
  refine (proj1 (@managed_paths_isolated sample_paths sample_engine "a" "b" (dataDir sample_engine) _ _ _ _ _ _ _) _).
  - vm_compute. discriminate.
  - vm_compute. reflexivity.
  - intros p Hp. vm_compute in Hp. apply elem_of_nil in Hp. destruct Hp.
  - refine (bool_decide_unpack _ _). vm_compute. exact I.
  - refine (bool_decide_unpack _ _). vm_compute. exact I.
  - discriminate.
  - left.
  - vm_compute. reflexivity.
Defined.
