(* ===== verification/PlanSource.v ===== *)
(** The source files a retained plan is bound to
    (src/internal/engine/plan_bundle.go, planSourceFiles): every regular file
    under the node's directory outside the tool directories and the state
    files, by its digest.

    A directory is the tree [filepath.WalkDir] would visit, entries in the
    order of the listing; a file's content is its digest. *)
From S2P Require Import Prelude GoLib Blueprint Module Graph Backend Store.

Inductive tree :=
  | File (size : result Z) (digest : result string)
  | Special (info : option error)
  | Dir (fault : option error) (entries : list (string * tree)).

Section TreeInd.
Context (P : tree → Prop) (HF : ∀ s d, P (File s d)) (HS : ∀ i, P (Special i))
  (HD : ∀ f es, Forall (λ nt, P nt.2) es → P (Dir f es)).

Fixpoint tree_induction (t : tree) : P t :=
  match t with
  | File s d => HF s d
  | Special i => HS i
  | Dir f es => HD f es ((fix go (es : list (string * tree)) : Forall (λ nt, P nt.2) es :=
      match es with
      | [] => List.Forall_nil _
      | nt :: es => List.Forall_cons _ _ _ (tree_induction nt.2) (go es)
      end) es)
  end.
End TreeInd.

Section Source.
Context (node : string) (state : string).

Definition tool_dir (name : string) : bool := mem name [".git"; ".terragraph"; ".terraform"].

(** State, wherever it is: it changes without the source changing. *)
Definition state_file (path name : string) : bool :=
  bool_decide (path = state) || bool_decide (path = state +:+ ".backup")
  || has_suffix name ".tfstate" || has_suffix name ".tfstate.backup".

Definition not_regular : error :=
  Errorf "node.%s: retained plans require regular source files; replace source symlinks or use ordinary apply" [FStr node].
Definition source_too_large : error :=
  Errorf "node.%s: source inputs exceed retained-plan verification limit; reduce the source tree or use ordinary apply" [FStr node].

Definition files_acc : Type := gmap string string * Z.

Definition add_file (rel : list string) (size : result Z) (digest : result string) (acc : files_acc) : result files_acc :=
  size ← size;
  let total := (acc.2 + size)%Z in
  if decide (executionObjectLimit < total)%Z then Err source_too_large
  else digest ← digest; Ok (<[join rel "/" := digest]> acc.1, total).

(** One entry: its path, its name, and its components below the base. *)
Fixpoint walk (path name : string) (rel : list string) (t : tree) (acc : files_acc) : result files_acc :=
  match t with
  | Dir fault entries =>
    if tool_dir name then Ok acc
    else match fault with
         | Some err => Err err
         | None =>
           (fix go (es : list (string * tree)) (acc : files_acc) : result files_acc :=
              match es with
              | [] => Ok acc
              | (n, t) :: es => acc ← walk (Join [path; n]) n (rel ++ [n]) t acc; go es acc
              end) entries acc
         end
  | Special info =>
    if state_file path name then Ok acc else Err (default not_regular info)
  | File size digest => if state_file path name then Ok acc else add_file rel size digest acc
  end.

Fixpoint walk_entries (path : string) (rel : list string) (es : list (string * tree)) (acc : files_acc) : result files_acc :=
  match es with
  | [] => Ok acc
  | (n, t) :: es => acc ← walk (Join [path; n]) n (rel ++ [n]) t acc; walk_entries path rel es acc
  end.

(** The base itself is only entered. *)
Definition planSourceFiles (base : string) (t : tree) : result (gmap string string) :=
  match t with
  | Dir (Some err) _ => Err err
  | Dir None entries => '(files, _) ← walk_entries base [] entries (∅, 0%Z); Ok files
  | _ => Ok ∅
  end.

(** ** What is bound *)

(** The entry at a list of components below an entry, tool directories left out. *)
Inductive at_ (path name : string) : tree → list string → string → string → tree → Prop :=
  | at_here t : at_ path name t [] path name t
  | at_child es n t rel p m u : tool_dir name = false → (n, t) ∈ es → at_ (Join [path; n]) n t rel p m u →
      at_ path name (Dir None es) (n :: rel) p m u.

(** Entry names of one directory differ and hold no slash. *)
Fixpoint listed (t : tree) : Prop :=
  match t with
  | Dir _ es => NoDup es.*1 ∧ (fix go (es : list (string * tree)) : Prop :=
                  match es with [] => True | (n, t) :: es => slash_free n ∧ listed t ∧ go es end) es
  | _ => True
  end.

Lemma walk_go path rel es acc :
  (fix go (es : list (string * tree)) (acc : files_acc) : result files_acc :=
     match es with
     | [] => Ok acc
     | (n, t) :: es => acc ← walk (Join [path; n]) n (rel ++ [n]) t acc; go es acc
     end) es acc = walk_entries path rel es acc.
Proof. revert acc. induction es as [|[n t] es IH]; intros acc; cbn; [done|].
  destruct (walk _ _ _ _ _); [apply IH|done].
Qed.

Lemma walk_Dir path name rel es acc : walk path name rel (Dir None es) acc =
  if tool_dir name then Ok acc else walk_entries path rel es acc.
Proof. cbn [walk]. destruct (tool_dir name); [done|]. apply walk_go. Qed.

Lemma listed_entries f es : listed (Dir f es) → NoDup es.*1 ∧ ∀ n t, (n, t) ∈ es → slash_free n ∧ listed t.
Proof.
  intros [Hnd Hall]. split; [done|]. clear Hnd. induction es as [|[m u] es IH]; intros n t; [by intros Hx%elem_of_nil|].
  destruct Hall as (Hm & Hu & Hall). intros [[= -> ->]|Hin]%elem_of_cons; [done|by apply IH].
Qed.

(** A file at its components, regular and no state. *)
Definition bound_file (path name : string) (t : tree) (rel : list string) (d : string) : Prop :=
  ∃ p m sz, at_ path name t rel p m (File sz (Ok d)) ∧ state_file p m = false ∧ is_ok sz = true.

(** ** Facts *)

Lemma split_first (c : Ascii.ascii) (a b x y : list Ascii.ascii) : c ∉ a → c ∉ b → a ++ c :: x = b ++ c :: y → a = b ∧ x = y.
Proof.
  revert b. induction a as [|d a IH]; intros [|e b] Ha Hb Heq; simplify_eq/=.
  - done.
  - destruct Hb. by left.
  - destruct Ha. by left.
  - destruct (IH b) as [-> ->]; [set_solver..|done|done].
Qed.

Lemma NoDup_fst_unique {A} (l : list (string * A)) k x y : NoDup l.*1 → (k, x) ∈ l → (k, y) ∈ l → x = y.
Proof.
  intros Hnd Hx Hy. apply (elem_of_list_to_map_1 (M := gmap string)) in Hx, Hy; [|done..]. congruence.
Qed.

Lemma join_cons n m l : join (n :: m :: l) "/" = n +:+ String slash (join (m :: l) "/").
Proof. done. Qed.

(** A relative path determines its components. *)
Lemma join_inj l1 l2 : l1 ≠ [] → l2 ≠ [] → Forall slash_free l1 → Forall slash_free l2 → join l1 "/" = join l2 "/" → l1 = l2.
Proof.
  revert l2. induction l1 as [|a [|a' l1] IH]; intros [|b [|b' l2]] H1 H2 F1 F2; try done.
  - intros Hab. by change (a = b) in Hab; subst.
  - rewrite join_cons. intros Hab. change (a = b +:+ String slash (join (b' :: l2) "/")) in Hab. exfalso.
    apply Forall_cons in F1 as [Ha _]. apply Ha. rewrite Hab, chars_app. apply elem_of_app. right. by left.
  - rewrite join_cons. intros Hab. change (a +:+ String slash (join (a' :: l1) "/") = b) in Hab. exfalso.
    apply Forall_cons in F2 as [Hb _]. apply Hb. rewrite <-Hab, chars_app. apply elem_of_app. right. by left.
  - rewrite !join_cons. intros Hab%(f_equal chars). rewrite !chars_app in Hab. cbn [chars] in Hab.
    apply Forall_cons in F1 as [Ha F1], F2 as [Hb F2]. apply split_first in Hab as [->%chars_inj Hab%chars_inj]; [|done..].
    by rewrite (IH (b' :: l2)).
Qed.

Lemma at_Dir path name fault es rel p m u : at_ path name (Dir fault es) rel p m u →
  (rel = [] ∧ p = path ∧ m = name ∧ u = Dir fault es) ∨
  (∃ n t r, rel = n :: r ∧ fault = None ∧ tool_dir name = false ∧ (n, t) ∈ es ∧ at_ (Join [path; n]) n t r p m u).
Proof. inversion 1; subst; [by left|right]. eauto 10. Qed.

(** What one entry leaves of the map, and what it adds. *)
Definition grows (path name : string) (rel : list string) (t : tree) : Prop := ∀ acc acc',
  walk path name rel t acc = Ok acc' →
  (∀ k, is_Some (acc.1 !! k) → is_Some (acc'.1 !! k)) ∧
  (∀ r d, bound_file path name t r d → is_Some (acc'.1 !! join (rel ++ r) "/")) ∧
  (∀ k d, acc'.1 !! k = Some d → acc.1 !! k = Some d ∨ ∃ r, k = join (rel ++ r) "/" ∧ bound_file path name t r d).

Definition grows_entries (path : string) (rel : list string) (es : list (string * tree)) : Prop := ∀ acc acc',
  walk_entries path rel es acc = Ok acc' →
  (∀ k, is_Some (acc.1 !! k) → is_Some (acc'.1 !! k)) ∧
  (∀ n t r d, (n, t) ∈ es → bound_file (Join [path; n]) n t r d → is_Some (acc'.1 !! join (rel ++ n :: r) "/")) ∧
  (∀ k d, acc'.1 !! k = Some d → acc.1 !! k = Some d ∨
     ∃ n t r, (n, t) ∈ es ∧ k = join (rel ++ n :: r) "/" ∧ bound_file (Join [path; n]) n t r d).

Lemma entries_grow path rel es : Forall (λ nt, ∀ path name rel, grows path name rel nt.2) es → grows_entries path rel es.
Proof.
  induction 1 as [|[n t] es Ht Hes IH]; intros acc acc'; simpl.
  - intros [= <-]. split_and!; [done| |by left]. by intros n t r d Hx%elem_of_nil.
  - intros (a1 & H1 & H2)%result_bind_Ok. simpl in Ht. destruct (Ht _ _ _ _ _ H1) as (K1 & B1 & S1).
    destruct (IH _ _ H2) as (K2 & B2 & S2). split_and!; [by auto| |].
    + intros m u r d [[= -> ->]|Hin]%elem_of_cons Hb; [|by eapply B2].
      apply K2. specialize (B1 _ _ Hb). by rewrite <-(assoc_L (++)) in B1.
    + intros k d Hk. destruct (S2 _ _ Hk) as [Hk'|(m & u & r & Hin & -> & Hb)].
      * destruct (S1 _ _ Hk') as [?|(r & -> & Hb)]; [by left|right]. exists n, t, r. rewrite <-(assoc_L (++)).
        split_and!; [by left|done|done].
      * right. exists m, u, r. split_and!; [by right|done|done].
Qed.

Lemma not_bound path name t r d : (∀ sz dg, t ≠ File sz dg) → (∀ f es, t ≠ Dir f es) → ¬ bound_file path name t r d.
Proof. intros Hf Hd (p & m & sz & Hat & _). inversion Hat; subst; [by eapply Hf|by eapply Hd]. Qed.

Lemma walk_grows t : ∀ path name rel, grows path name rel t.
Proof.
  induction t as [size digest|info|fault es IH] using tree_induction; intros path name rel acc acc'.
  - simpl. destruct (state_file path name) eqn:Hst.
    + intros [= <-]. split_and!; [done| |by left]. intros r d (p & m & sz & Hat & Hns & _).
      inversion Hat; subst. by rewrite Hst in Hns.
    + unfold add_file. intros (sz & -> & Hk)%result_bind_Ok. case_decide; [done|].
      apply result_bind_Ok in Hk as (dg & -> & [= <-]). cbn [fst]. split_and!.
      * intros k Hk. destruct (decide (k = join rel "/")) as [->|Hne]; [rewrite lookup_insert_eq; by eexists|].
        by rewrite lookup_insert_ne.
      * intros r d (p & m & sz' & Hat & _). inversion Hat; subst. rewrite app_nil_r, lookup_insert_eq. by eexists.
      * intros k d. destruct (decide (k = join rel "/")) as [->|Hne].
        -- rewrite lookup_insert_eq. intros [= ->]. right. exists []. rewrite app_nil_r. split; [done|].
           exists path, name, (Ok sz). split_and!; [constructor|done|done].
        -- rewrite lookup_insert_ne by done. by left.
  - simpl. destruct (state_file path name); [|done]. intros [= <-]. split_and!; [done| |by left].
    intros r d Hb. by apply not_bound in Hb.
  - assert (tool_dir name = true ∨ tool_dir name = false) as [Hn|Hn] by (destruct (tool_dir name); auto).
    + simpl. rewrite Hn. intros [= <-]. split_and!; [done| |by left]. intros r d (p & m & sz & [(_ & _ & _ & Hx)|
        (? & ? & ? & _ & _ & Ht & _)]%at_Dir & _); [done|congruence].
    + destruct fault as [err|]; [simpl; by rewrite Hn|]. rewrite walk_Dir, Hn. intros Hw.
      destruct (entries_grow path rel es IH _ _ Hw) as (K & B & S). split_and!; [done| |].
      * intros r d (p & m & sz & [(_ & _ & _ & Hx)|(n & t & r' & -> & _ & _ & Hin & Hat)]%at_Dir & Hs); [done|].
        apply (B n t r' d Hin). exists p, m, sz. by destruct Hs.
      * intros k d Hk. destruct (S k d Hk) as [?|(n & t & r & Hin & -> & (p & m & sz & Hat & Hs))]; [by left|right].
        exists (n :: r). split; [done|]. exists p, m, sz. split; [|done]. by apply (at_child path name es n t).
Qed.

(** A list of components names one entry of a listed tree. *)
Lemma at_unique path name t rel p m u : listed t → at_ path name t rel p m u → ∀ p' m' u', at_ path name t rel p' m' u' →
  p = p' ∧ m = m' ∧ u = u'.
Proof.
  intros Hl Hat. revert Hl. induction Hat as [path name t|path name es n t rel p m u Hn Hin Hat IH]; intros Hl p' m' u' Hat'.
  - by inversion Hat'; subst.
  - apply listed_entries in Hl as [Hnd Hall]. apply at_Dir in Hat' as [(? & _)|(n' & t' & r & [= <- <-] & _ & _ & Hin' & Hat')]; [done|].
    assert (t' = t) as -> by (by eapply (NoDup_fst_unique es)). apply IH; [by destruct (Hall n t Hin)|done].
Qed.

Lemma at_slash_free path name t rel p m u : listed t → at_ path name t rel p m u → Forall slash_free rel.
Proof.
  intros Hl Hat. revert Hl. induction Hat as [|path name es n t rel p m u Hn Hin Hat IH]; intros Hl; [constructor|].
  apply listed_entries in Hl as [_ Hall]. destruct (Hall n t Hin) as [Hs Ht]. constructor; auto.
Qed.

(** The base directory is entered whatever its name is. *)
Definition below (base : string) (es : list (string * tree)) (rel : list string) (d : string) : Prop :=
  ∃ n t r, rel = n :: r ∧ (n, t) ∈ es ∧ bound_file (Join [base; n]) n t r d.

(** A retained plan is bound to its whole source: the files recorded are
    exactly the regular files below the node's directory, each under its
    relative path with its digest, with only the tool directories and the
    state files left out. *)
Theorem planSourceFiles_exact base es files : listed (Dir None es) → planSourceFiles base (Dir None es) = Ok files →
  ∀ k d, files !! k = Some d ↔ ∃ rel, k = join rel "/" ∧ below base es rel d.
Proof.
  intros Hl Hp k d. simpl in Hp. apply result_bind_Ok in Hp as ([files' total] & Hw & [= ->]).
  destruct (entries_grow base [] es) with (acc := (∅ : gmap string string, 0%Z)) (acc' := (files, total)) as (_ & HB & HS);
    [|done|]. { apply Forall_forall. intros [n t] _. apply walk_grows. }
  apply listed_entries in Hl as [Hnd Hall].
  assert (∀ k d, files !! k = Some d → ∃ rel, k = join rel "/" ∧ below base es rel d) as Hsound.
  { intros k' d' Hk. destruct (HS _ _ Hk) as [Hx|(n & t & r & Hin & -> & Hb)]; [by cbn [fst] in Hx; apply lookup_empty_Some in Hx|].
    exists (n :: r). split; [done|]. by exists n, t, r. }
  split; [apply Hsound|]. intros (rel & -> & Hbl). pose proof Hbl as (n & t & r & -> & Hin & Hb).
  destruct (HB _ _ _ _ Hin Hb) as [d' Hd']. change ([] ++ n :: r) with (n :: r) in Hd'.
  destruct (Hsound _ _ Hd') as (rel' & Heq & (n' & t' & r' & -> & Hin' & Hb')).
  destruct Hb as (p & m & sz & Hat & Hst & _), Hb' as (p' & m' & sz' & Hat' & _).
  destruct (Hall _ _ Hin) as [Hsn Hlt], (Hall _ _ Hin') as [Hsn' Hlt'].
  apply join_inj in Heq; [|done|done|(constructor; [assumption|eapply at_slash_free; [|eassumption]; assumption])..]. injection Heq as <- <-.
  assert (t' = t) as -> by (by eapply (NoDup_fst_unique es)).
  destruct (at_unique _ _ _ _ _ _ _ Hlt Hat _ _ _ Hat') as (_ & _ & [= _ ->]). done.
Qed.
End Source.

(** ** A concrete tree *)

Definition sample_tree : list (string * tree) :=
  [(".terraform", Dir None [("x", File (Ok 1%Z) (Ok "d0"))]); ("main.tf", File (Ok 10%Z) (Ok "d1"));
   ("files", Dir None [("motd", File (Ok 3%Z) (Ok "d2")); ("old.tfstate", File (Ok 3%Z) (Ok "d3"))])].

Example planSourceFiles_exact_witness :
  planSourceFiles "a" "/m/terraform.tfstate" "/m" (Dir None sample_tree) = Ok {[ "main.tf" := "d1"; "files/motd" := "d2" ]} ∧
  ∃ rel, "files/motd" = join rel "/" ∧ below "/m/terraform.tfstate" "/m" sample_tree rel "d2".
Proof.
  assert (planSourceFiles "a" "/m/terraform.tfstate" "/m" (Dir None sample_tree) = Ok {[ "main.tf" := "d1"; "files/motd" := "d2" ]})
    as Hp by (vm_compute; reflexivity).
  split; [exact Hp|].
  refine (proj1 (planSourceFiles_exact "a" "/m/terraform.tfstate" "/m" sample_tree _ _ Hp "files/motd" "d2") _).
  - assert (∀ s, bool_decide (slash_free s) = true → slash_free s) as Hs by (intros s Hx; by apply bool_decide_eq_true in Hx).
    unfold sample_tree. simpl. repeat (split || apply Hs || (vm_compute; reflexivity) || (apply (bool_decide_unpack _); vm_compute; exact I)).
  - vm_compute. reflexivity.
Defined.
