(* ===== verification/Retention.v ===== *)
(** Beginning, cancelling, pruning and recovering executions
    (src/internal/engine/execution_journal.go, execution_cleanup.go,
    execution_recovery.go, recovery_outputs.go).

    The process lock and the graph lock are taken first; what taking them
    answers, like every other outside answer, is a function of the history.
    A function that returns a record beside an error returns only the error
    here. *)
From S2P Require Import Prelude GoLib Blueprint Module Graph Topo Selection Gate Execution Store Journal Target ApplyNode.

Record RetentionWorld := MkRetentionWorld {
  rw_lock_run : hist → result unit;
  rw_lock_graph : hist → result unit;
  rw_open_store : hist → result unit;
  rw_remove_backup : hist → string → result unit;
  rw_new_id : hist → string;
  rw_prepare_cache : hist → string → result unit;
}.

Section Retention.
Context {Outputs Evidence : Type} `{!executionStore} `{!MapOrder}.
Context (w : JournalWorld) (rw : RetentionWorld) (tw : TargetWorld) (nw : NodeWorld Outputs Evidence).
Context (g : Graph) (bp : Blueprint) (baseDir : string).

Definition askH {A} (f : hist → result A) : H A := λ h, (h, f h).
Definition tryH {A} (m : H A) : H (result A) := λ h, let '(h', r) := m h in (h', Ok r).

(** A session opened on a stored record. *)
Definition with_session {A} (record : ExecutionRecord) (revision : string) (m : M A) : H (session * A) := λ h,
  let '(s', r) := m (MkSession h record revision) in
  (st_hist s', match r with Ok a => Ok (s', a) | Err e => Err e end).

Definition scope : result string := executionScope tw baseDir (bp_Lock bp).

Definition open_store : H unit := _ ← pureH (openExecutionStore g bp); askH (rw_open_store rw).

(** Both locks, then the store. *)
Definition open_locked : H unit := _ ← askH (rw_lock_run rw); _ ← askH (rw_lock_graph rw); open_store.

(** ** Pruning (execution_cleanup.go) *)

Definition expired (b : planBundle) (now : Z) : bool :=
  match pbn_ExpiresAt b with Some t => bool_decide (t <= now)%Z | None => true end.

Fixpoint frontierExpired (record : ExecutionRecord) (nodes : list ExecutionNode) (now : Z) : H bool :=
  match nodes with
  | [] => mret false
  | n :: nodes =>
    if decide (en_Phase n ≠ "planned") then frontierExpired record nodes now
    else object ← lift_read (bundle_key (en_PlanID n));
         bundle ← pureH (unmarshal_bundle (Data object));
         if bool_decide (pbn_ID bundle ≠ en_PlanID n) || bool_decide (pbn_ExecutionID bundle ≠ er_ID record)
            || bool_decide (pbn_ExpiresAt bundle = None)
         then throwH (Errorf "execution %s has an invalid plan reference; inspect the stored artifacts" [FStr (er_ID record)])
         else if expired bundle now then mret true else frontierExpired record nodes now
  end.

(** An expired frontier is published before anything of it is deleted. *)
Definition expire (record : ExecutionRecord) (revision : string) (now : Z) : H (ExecutionRecord * string) :=
  if decide (er_Status record = "waiting_for_apply") then
    gone ← frontierExpired record (er_Nodes record) now;
    if gone : bool then
      let next := with_times record "expired" now (Some now) (er_RecoveryAt record) in
      revision ← publish_at next revision; mret (next, revision)
    else mret (record, revision)
  else mret (record, revision).

Definition remove_backup_object (id : string) : H unit :=
  backup ← tryH (lift_read (bundle_key id));
  match backup with
  | Err err => if is_missing err then mret tt else throwH err
  | Ok object => lift_remove (bundle_key id) (Revision object)
  end.

Definition record_retention : Z := xc_RecordRetention (ExecutionSettings bp).

(** One key of the listing; the answer is whether its record was removed. *)
Definition prune_key (scope : string) (now : Z) (key : string) : H bool :=
  if negb (is_record_key key) then mret false
  else
    '(record, revision) ← readExecutionRecord (trim_suffix key ".json");
    if bool_decide (er_Scope record ≠ scope) || executionNeedsRecovery record then mret false
    else
      '(record, revision) ← expire record revision now;
      match er_FinishedAt record with
      | None => mret false
      | Some finished =>
        _ ← cleanupExecution record;
        if decide (now - finished < record_retention)%Z then mret false
        else _ ← remove_backup_object (er_ID record);
             _ ← emitH (EvRemoveBackup (er_ID record));
             _ ← askH (λ h, rw_remove_backup rw h (er_ID record));
             _ ← lift_remove key revision;
             mret true
      end.

Fixpoint prune_loop (scope : string) (now : Z) (keys removed : list string) : H (list string * option error) :=
  match keys with
  | [] => mret (removed, None)
  | key :: keys =>
    r ← tryH (prune_key scope now key);
    match r with
    | Ok true => prune_loop scope now keys (removed ++ [trim_suffix key ".json"])
    | Ok false => prune_loop scope now keys removed
    | Err err => mret (removed, Some err)
    end
  end.

Definition pruneExecutions : H (list string * option error) :=
  keys ← lift_list;
  scope ← pureH scope;
  h ← getH;
  prune_loop scope (jw_now w h) keys [].

Definition PruneExecutions : H (list string * option error) := _ ← open_locked; pruneExecutions.

(** ** Cancelling *)

Definition cancel_recovery (id : string) : error :=
  Diagnosed (Diagnostic "recovery_required" "recovery" "recovery" "" id)
    (Errorf "execution requires recovery; cancellation cannot establish that a mutation stopped" []).

Definition CancelExecution (id : string) : H ExecutionRecord :=
  _ ← open_locked;
  '(record, revision) ← readExecutionRecord id;
  scope ← pureH scope;
  if decide (er_Scope record ≠ scope)
  then throwH (Errorf "execution belongs to another coordination scope; restore the original configuration" [])
  else if executionNeedsRecovery record then throwH (cancel_recovery (er_ID record))
  else match er_FinishedAt record with
       | Some _ => _ ← cleanupExecution record; mret record
       | None =>
         h ← getH;
         let now := jw_now w h in
         let next := with_times record "cancelled" now (Some now) (er_RecoveryAt record) in
         _ ← publish_at next revision;
         _ ← cleanupExecution next;
         mret next
       end.

(** ** Beginning (execution_journal.go) *)

Definition new_record (operation : string) (selection : option Selection) (scope id : string) (plugins : bool) (now : Z)
    (nodes : list ExecutionNode) : ExecutionRecord :=
  MkExecutionRecord [] selection (if plugins then 2 else 1)%Z "" false id scope "" operation "preparing" now now None None nodes.

Definition pending_node (name : string) : result ExecutionNode :=
  target ← executionTarget tw g name; Ok (MkExecutionNode name None target "pending" "" "").

Definition creating_failed (id : string) (e : error) : error :=
  Diagnosed (Diagnostic "execution_record_write_failed" "record" "record" "" id)
    (Errorf "creating execution record: %w" [FErr e]).

Definition create_record (record : ExecutionRecord) : H string := λ h,
  let '(h', r) := st_write (record_key (er_ID record)) (PRecord record) "" h in
  (h', wrap_err (creating_failed (er_ID record)) r).

(** [startPlugins] announces the selection; a failure finishes the record it
    was started for. *)
Definition start_plugins : M unit :=
  r ← tryM (_ ← Emit w "selection.ready" ""; Emit w "run.prepare" "");
  match r with
  | Ok _ => mret tt
  | Err err => throw_joined err (finish w (Some err))
  end.

Definition beginExecution (operation : string) (names : list string) (selection : option Selection) (readOnly : bool) : H session :=
  _ ← open_store;
  scope ← pureH scope;
  _ ← checkExecutionBarrier scope "" readOnly;
  '(_, pruneErr) ← pruneExecutions;
  match pruneErr with
  | Some err => throwH err
  | None =>
    h ← getH;
    nodes ← pureH (mapM_res pending_node names);
    let record := new_record operation selection scope (rw_new_id rw h) (jw_plugins w) (jw_now w h) nodes in
    revision ← create_record record;
    '(s, _) ← with_session record revision start_plugins;
    mret s
  end.

(** ** Recovering (execution_recovery.go, recovery_outputs.go) *)

Definition recovered (record : ExecutionRecord) (now : Z) : ExecutionRecord :=
  with_times record "recovered_replan_required" now (Some now) (Some now).

Definition read_only_backend (n : GNode) (workspace : string) : bool :=
  match n_Schema n with
  | Some s => mem (s_Backend s) [""; "local"; "http"] && mem workspace [""; "default"]
  | None => false
  end.

(** A read outside the node's own cache: no plan and no mutation. *)
Definition run_read {A} (credentials : bool) (name operation : string) (answer : hist → result A) : M A :=
  _ ← not_started (if credentials then Emit w "credential.recovery" name else mret tt);
  _ ← emitM (EvRun name operation);
  ask answer.

Definition set_preparation (p : string) : M unit := s ← getM; publish (with_preparation (st_record s) p).

Definition has_credentials (n : GNode) : bool := negb (bool_decide (size (bn_Credentials (n_Node n)) = 0)).

(** [errors.Join(resultErr, m.Close(ctx))] of the credential recovery. *)
Definition close_after (credentials : bool) (name : string) (m : M unit) : M unit :=
  if credentials then
    r ← tryM m;
    c ← tryM (Emit w "close" name);
    match join_errors (error_of r) (error_of c) with Some e => throwM e | None => mret tt end
  else m.

Definition recover_outputs (n : GNode) (name : string) (allowInit : bool) : M unit :=
  let credentials := has_credentials n in
  workspace ← pureM (executionWorkspace tw name);
  s ← getM;
  let readOnly := read_only_backend n workspace in
  if negb readOnly && negb allowInit
  then throwM (Errorf "node.%s: backend has no verified read-only preparation; pass --initialize-backend to explicitly initialize an isolated backend cache before reading outputs" [FStr name])
  else if negb readOnly && negb (bool_decide (er_Preparation (st_record s) = ""))
  then throwM (Errorf "backend preparation has an unresolved outcome; inspect state before --state-reviewed --replan" [])
  else
    _ ← ask (λ h, rw_prepare_cache rw h name);
    _ ← (if readOnly then mret tt else set_preparation ("initializing:" +:+ name));
    _ ← wrapM (λ err, Errorf "node.%s: preparing output recovery: %w" [FStr name; FErr err])
          (run_read credentials name "init" (λ h, fault_of (nw_run nw h name "init")));
    _ ← (if readOnly then mret tt else set_preparation "");
    outputs ← wrapM (λ err, Errorf "node.%s: reading outputs without reapplying: %w" [FStr name; FErr err])
                (run_read credentials name "output" (λ h, nw_outputs nw h name));
    _ ← ask (λ h, nw_contracts nw h name outputs);
    _ ← emitM (EvSnapshot name);
    ask (λ h, nw_snapshot nw h name outputs).

Definition recoverNodeOutputs (name : string) (allowInit : bool) : M unit :=
  match g_Nodes g !! name with
  | Some n =>
    if negb (match n_Schema n with Some s => s_BackendConfigKnown s | None => false end)
    then throwM (Errorf "node.%s: backend configuration cannot be verified; restore literal backend configuration" [FStr name])
    else close_after (has_credentials n) name (recover_outputs n name allowInit)
  | None => throwM (External "panic: nil pointer dereference")
  end.

Definition unknown_outcome (name : string) : error :=
  Errorf "node.%s: mutation outcome is unknown; inspect actual state, then use --state-reviewed --replan" [FStr name].

(** One node of the record; an issue does not stop the others, a failed
    transition does. *)
Definition recover_node (allowInit : bool) (issues : list error) (n : ExecutionNode) : M (list error) :=
  if mem (en_Phase n) ["initializing"; "applying"; "operating"; "indeterminate"]
  then mret (issues ++ [unknown_outcome (en_Name n)])
  else if decide (en_Phase n = "applied") then
    match executionTarget tw g (en_Name n) with
    | Err err => mret (issues ++ [err])
    | Ok target =>
      if decide (target ≠ en_Target n)
      then mret (issues ++ [Errorf "node.%s: backend target changed; restore the original configuration" [FStr (en_Name n)]])
      else r ← tryM (recoverNodeOutputs (en_Name n) allowInit);
           match r with
           | Err err => mret (issues ++ [err])
           | Ok _ => _ ← transition w (en_Name n) "completed" "outputs_recovered" ""; mret issues
           end
    end
  else mret issues.

Fixpoint recover_nodes (allowInit : bool) (issues : list error) (ns : list ExecutionNode) : M (list error) :=
  match ns with
  | [] => mret issues
  | n :: ns => issues ← recover_node allowInit issues n; recover_nodes allowInit issues ns
  end.

Definition recover_body (record : ExecutionRecord) (allowInit : bool) : M unit :=
  let issues0 := if decide (er_Preparation record ≠ "")
    then [Errorf "backend preparation outcome is unknown; inspect state and use --state-reviewed --replan" []] else [] in
  issues ← recover_nodes allowInit issues0 (er_Nodes record);
  match issues with
  | [] => s ← getM; publish (recovered (st_record s) (jw_now w (st_hist s)))
  | _ => throwM (Joined issues)
  end.

Definition invalid_recovery (msg : string) : error :=
  Diagnosed (Diagnostic "invalid_arguments" "arguments" "arguments" "" "") (Errorf msg []).

Definition RecoverExecution (id : string) (confirmStopped stateReviewed replan initializeBackend : bool) : H ExecutionRecord :=
  if negb confirmStopped
  then throwH (invalid_recovery "recovery requires --confirm-stopped after verifying the previous executor has stopped")
  else if replan && negb stateReviewed
  then throwH (invalid_recovery "--replan requires --state-reviewed after inspecting the actual backend state and affected resources")
  else
    _ ← open_locked;
    '(record, revision) ← readExecutionRecord id;
    scope ← pureH scope;
    if decide (er_Scope record ≠ scope)
    then throwH (Errorf "execution belongs to another coordination scope; select the original blueprint and lock" [])
    else if negb (executionNeedsRecovery record)
    then throwH (Errorf "execution %s does not need recovery; inspect it with plan show" [FStr id])
    else if pluginRecoveryRequired record
    then throwH (Errorf "execution has unresolved plugin effects; use plugin recover before infrastructure recovery" [])
    else
      '(s, _) ← with_session record revision
        (if replan then s ← getM; publish (recovered record (jw_now w (st_hist s)))
         else recover_body record initializeBackend);
      mret (st_record s).
End Retention.
