(* ===== verification/RetentionProofs.v ===== *)
(** The journal never loses evidence (for Retention.v and Journal.v): what the
    barrier admits, how an execution is classified when it ends, and that
    pruning, cancelling and recovering leave unresolved records alone, start no
    mutation, and release the barrier only when nothing is unresolved. *)
From S2P Require Import Prelude GoLib Blueprint Module Graph Topo Selection Gate Execution Store Journal JournalFacts.
From S2P Require Import Target ApplyNode ApplyProofs Retention.

(** ** Ends of executions *)

Lemma needs_recovery_times r status now fin :
  executionNeedsRecovery (with_times r status now fin (er_RecoveryAt r)) = executionNeedsRecovery r.
Proof. done. Qed.

Lemma unprepare_unresolved n : node_unresolved (unprepare n) = node_unresolved n.
Proof.
  unfold unprepare, node_unresolved. case_decide as Hp; [|done]. rewrite Hp. simpl. vm_compute. done.
Qed.

Lemma needs_recovery_unprepare r status now fin :
  executionNeedsRecovery (with_nodes (with_times r status now fin (er_RecoveryAt r)) (unprepare <$> er_Nodes r))
  = executionNeedsRecovery r.
Proof.
  unfold executionNeedsRecovery. simpl. unfold pluginRecoveryRequired. simpl.
  destruct (NeedsRecovery _); [done|]. destruct (er_RecoveryAt r); [done|]. case_decide; [done|].
  induction (er_Nodes r) as [|n ns IH]; [done|]. rewrite fmap_cons. cbn [existsb]. by rewrite unprepare_unresolved, IH.
Qed.

Lemma has_phase_true p ns : has_phase p ns = true ↔ ∃ n, n ∈ ns ∧ en_Phase n = p.
Proof. unfold has_phase. rewrite existsb_elem. by setoid_rewrite bool_decide_eq_true. Qed.

(** The end of an execution is classified by what is known of it.  A run
    that ends while a mutation, or its outputs, are unresolved is marked
    [needs_recovery] and never finished; otherwise it is finished, as
    [completed] exactly when nothing failed.  A saved execution is only ever
    finished when no node is planned or pending, and its unresolved nodes stay
    unresolved. *)
Theorem finish_classifies r runErr now :
  (if executionNeedsRecovery r
   then er_Status (finished_record r runErr now) = "needs_recovery" ∧
        er_FinishedAt (finished_record r runErr now) = er_FinishedAt r
   else er_FinishedAt (finished_record r runErr now) = Some now ∧
        (er_Status (finished_record r runErr now) = "completed" ↔ runErr = None)) ∧
  executionNeedsRecovery (finished_record r runErr now) = executionNeedsRecovery r ∧
  executionNeedsRecovery (saved_record r runErr now) = executionNeedsRecovery r ∧
  (er_FinishedAt (saved_record r runErr now) ≠ None →
     executionNeedsRecovery r = false ∧
     ∀ n, n ∈ er_Nodes (saved_record r runErr now) → en_Phase n ≠ "planned" ∧ en_Phase n ≠ "pending" ∧ en_Phase n ≠ "preparing") ∧
  (er_Status (saved_record r runErr now) = "waiting_for_apply" ↔
     executionNeedsRecovery r = false ∧ has_phase "planned" (er_Nodes r) = true).
Proof.
  assert (has_phase "planned" (unprepare <$> er_Nodes r) = has_phase "planned" (er_Nodes r)) as Hpl.
  { induction (er_Nodes r) as [|n ns IH]; [done|]. rewrite fmap_cons. unfold has_phase in *. cbn [existsb]. rewrite IH. f_equal. unfold unprepare.
    case_decide as Hp; [|done]. simpl. by rewrite Hp. }
  split_and!.
  - unfold finished_record. rewrite needs_recovery_times. destruct (executionNeedsRecovery r); [done|].
    split; [done|]. by destruct runErr.
  - unfold finished_record. rewrite needs_recovery_times. destruct (executionNeedsRecovery r) eqn:Hr; by rewrite needs_recovery_times.
  - unfold saved_record. rewrite needs_recovery_unprepare.
    destruct (executionNeedsRecovery r) eqn:Hr; [rewrite <-Hr; apply needs_recovery_unprepare|].
    repeat case_match; rewrite <-Hr; apply needs_recovery_unprepare.
  - unfold saved_record. rewrite needs_recovery_unprepare. destruct (executionNeedsRecovery r); [done|].
    cbn [er_Nodes with_nodes]. destruct (has_phase "planned" _) eqn:H1; [done|].
    destruct (negb _) eqn:H2; [|done]. intros _. split; [done|]. intros n Hn. cbn [er_Nodes with_nodes with_times] in Hn.
    apply negb_true_iff in H2. split_and!.
    + intros Hp. apply not_true_iff_false in H1. apply H1, has_phase_true. by exists n.
    + intros Hp. apply not_true_iff_false in H2. apply H2, has_phase_true. by exists n.
    + apply list_elem_of_fmap in Hn as (m & -> & _). unfold unprepare. by case_decide.
  - unfold saved_record. rewrite needs_recovery_unprepare. destruct (executionNeedsRecovery r); [split; [done|by intros [? ?]]|].
    cbn [er_Nodes with_nodes]. rewrite Hpl. destruct (has_phase "planned" (er_Nodes r)); [by split|].
    destruct (negb _); [destruct runErr|]; (split; [done|by intros [? ?]]).
Qed.

(** ** Reading changes nothing *)

Definition silent (_ : event) : Prop := False.

Lemma silent_same h h' : extends silent h h' → h' = h.
Proof. intros (pre & -> & Hp). destruct pre as [|ev pre]; [done|]. by apply Forall_cons in Hp as [[] _]. Qed.

Lemma H_bind_Ok {A B} (m : H A) (f : A → H B) h h' b : (m ≫= f) h = (h', Ok b) →
  ∃ h1 a, m h = (h1, Ok a) ∧ f a h1 = (h', Ok b).
Proof. unfold mbind, H_bind. destruct (m h) as [h1 [a|e]]; [by exists h1, a|done]. Qed.

(** Running on after a step that can end the computation. *)
Lemma H_bind_inv {A B} (m : H A) (f : A → H B) h h' r : (m ≫= f) h = (h', r) →
  (∃ e, m h = (h', Err e) ∧ r = Err e) ∨ (∃ h1 a, m h = (h1, Ok a) ∧ f a h1 = (h', r)).
Proof.
  unfold mbind, H_bind. destruct (m h) as [h1 [a|e]]; [right; by exists h1, a|].
  intros [= <- <-]. left. by exists e.
Qed.

Section Proofs.
Context (s0 : gmap string dirent) {Outputs Evidence : Type} `{!executionStore} `{!StoreLaws s0} `{!MapOrder}.
Context (w : JournalWorld) (rw : RetentionWorld) (tw : TargetWorld) (nw : NodeWorld Outputs Evidence).
Context (g : Graph) (bp : Blueprint) (baseDir : string).

#[local] Instance emitsH_ask {A} P (f : hist → result A) : EmitsH P (askH f).
Proof. intros h h' r [= <- _]. apply extends_refl. Qed.
#[local] Instance emitsH_try {A} P (m : H A) : EmitsH P m → EmitsH P (tryH m).
Proof. intros Hm h h' r. unfold tryH. destruct (m h) as [h1 r1] eqn:Hh. intros [= <- _]. by eapply Hm. Qed.
#[local] Instance emitsH_open_store P : EmitsH P (open_store rw g bp).
Proof. unfold open_store. apply _. Qed.
#[local] Instance emitsH_open_locked P : EmitsH P (open_locked rw g bp).
Proof. unfold open_locked. apply _. Qed.

(** A stored record as the store holds it. *)
Definition stored (h : hist) (key : string) (rec : ExecutionRecord) : Prop :=
  ∃ rev, objects s0 h !! key = Some (Stored (MkObject rev (PRecord rec))).

Lemma stored_durable h id rec : stored h (record_key id) rec → durable s0 id h = Some rec.
Proof. intros [rev Hs]. unfold durable. by rewrite Hs. Qed.

Lemma readExecutionRecord_Ok id h h' rec rev : readExecutionRecord id h = (h', Ok (rec, rev)) →
  h' = h ∧ objects s0 h !! record_key id = Some (Stored (MkObject rev (PRecord rec))) ∧ er_ID rec = id ∧ has_prefix id "run-" = true.
Proof.
  unfold readExecutionRecord. destruct (negb (has_prefix id "run-")) eqn:Hp; [done|].
  intros (h1 & obj & E1 & Hk)%H_bind_Ok. injection E1 as <- Hobj. apply H_bind_Ok in Hk as (h2 & rec' & E2 & Hk).
  injection E2 as <- Hrec. destruct (negb (valid_record id rec')) eqn:Hv; [done|].
  apply H_bind_Ok in Hk as (h3 & u & E3 & Hk). injection E3 as <- _. injection Hk as <- -> <-.
  apply (read_Ok (s0 := s0)) in Hobj. apply wrap_err_Ok in Hrec. destruct obj as [rv data]. simpl in *.
  destruct data; try done. injection Hrec as <-. split; [done|]. split; [done|]. apply negb_false_iff in Hv, Hp.
  unfold valid_record in Hv. rewrite !andb_true_iff, bool_decide_eq_true in Hv. by destruct Hv as [[[_ ?] _] _].
Qed.

Lemma record_key_trim key : is_record_key key = true → record_key (trim_suffix key ".json") = key.
Proof. unfold is_record_key, record_key. intros [_ Hs]%andb_true_iff. by apply trim_suffix_spec. Qed.

Lemma bundle_key_ne key id : is_record_key key = true → bundle_key id ≠ key.
Proof.
  intros Hk. rewrite <-(record_key_trim key Hk). unfold bundle_key, record_key.
  by apply (app_suffix_ne _ _ _ _ 1 "i"%char "o"%char).
Qed.

(** ** The barrier *)

#[local] Instance emitsH_barrier_key P scope ex ro key : EmitsH P (check_barrier_key scope ex ro key).
Proof. unfold check_barrier_key. emits. Qed.
#[local] Instance emitsH_barrier P scope ex ro : EmitsH P (checkExecutionBarrier scope ex ro).
Proof. unfold checkExecutionBarrier. emits. Qed.

Lemma forH_silent {A} (f : A → H unit) l h h' : (∀ a, EmitsH silent (f a)) → forH f l h = (h', Ok tt) →
  h' = h ∧ ∀ a, a ∈ l → f a h = (h, Ok tt).
Proof.
  intros Hf. induction l as [|a l IH]; simpl.
  - intros [= <-]. split; [done|]. intros a Ha. by apply elem_of_nil in Ha.
  - intros (h1 & [] & E1 & E2)%H_bind_Ok. pose proof (silent_same _ _ (Hf a _ _ _ E1)) as ->.
    destruct (IH E2) as [-> Hl]. split; [done|]. intros b [->|Hb]%elem_of_cons; [done|auto].
Qed.

(** What the barrier lets through: every record is readable, of this scope and resolved. *)
Lemma barrier_Ok scope ro h h' : checkExecutionBarrier scope "" ro h = (h', Ok tt) → h' = h ∧
  ∀ key, key_matches key = true → is_record_key key = true → is_Some (objects s0 h !! key) →
    ∃ rec, stored h key rec ∧ er_Scope rec = scope ∧ (ro = true ∨ executionNeedsRecovery rec = false).
Proof.
  unfold checkExecutionBarrier. intros (h1 & keys & Hl & Hf)%H_bind_Ok. injection Hl as <- Hl.
  apply forH_silent in Hf as [-> Hf]; [|apply _]. split; [done|]. intros key Hk Hrk Hin.
  specialize (Hf key). rewrite (list_Ok (s0 := s0) h keys Hl key) in Hf. specialize (Hf (conj Hk Hin)).
  unfold check_barrier_key in Hf. rewrite Hrk in Hf. cbn [negb] in Hf.
  apply H_bind_Ok in Hf as (h2 & [rec rev] & Hr & Hf). apply readExecutionRecord_Ok in Hr as (-> & Hs & Hid & Hpre).
  rewrite record_key_trim in Hs by done. exists rec. split; [by exists rev|].
  destruct (decide (er_Scope rec ≠ scope)) as [|Hsc]; [done|]. split; [by destruct (decide (er_Scope rec = scope))|].
  destruct (negb (bool_decide (er_ID rec = "")) && executionNeedsRecovery rec && negb ro) eqn:Hb; [done|].
  rewrite bool_decide_false in Hb by (intros Hx; by rewrite <-Hid, Hx in Hpre). simpl in Hb.
  apply andb_false_iff in Hb as [Hb|Hb]; [by right|left; by apply negb_false_iff].
Qed.

(** C9: nothing begins while a mutation is unresolved.  If any record of the
    store needs recovery, beginning a changing execution fails and leaves the
    store exactly as it was: no record is created and nothing is pruned. *)
Theorem begin_barrier operation names sel h h' r key rec :
  key_matches key = true → is_record_key key = true → stored h key rec → executionNeedsRecovery rec = true →
  beginExecution w rw tw g bp baseDir operation names sel false h = (h', r) →
  is_ok r = false ∧ h' = h.
Proof.
  intros Hk Hrk [rev Hs] Hn. unfold beginExecution.
  intros [(e & E1 & ->)|(h1 & [] & E1 & Hk1)]%H_bind_inv; [by pose proof (silent_same _ _ (emitsH_open_store silent _ _ _ E1))|].
  pose proof (silent_same _ _ (emitsH_open_store silent _ _ _ E1)) as ->. clear E1.
  apply H_bind_inv in Hk1 as [(e & E2 & ->)|(h2 & sc & E2 & Hk1)]; injection E2 as <- Hsc; [done|].
  apply H_bind_inv in Hk1 as [(e & E3 & ->)|(h3 & [] & E3 & _)].
  { by pose proof (silent_same _ _ (emitsH_barrier silent _ _ _ _ _ _ E3)). }
  apply barrier_Ok in E3 as [_ Hall]. destruct (Hall key Hk Hrk) as (rec' & [rev' Hs'] & _ & [|Hr]); [by eexists|done|].
  rewrite Hs in Hs'. injection Hs' as _ <-. congruence.
Qed.

(** ** Artifacts *)

Lemma emitsH_remove P key rev : P (EvRemove key) → EmitsH P (lift_remove key rev).
Proof.
  intros HP h h' r Hr. apply (remove_cases (s0 := s0)) in Hr as [[-> _]|[-> _]]; [apply extends_refl|by apply extends_one].
Qed.

Lemma emitsH_cleanup_node P n : P (EvRemove (bundle_key (en_PlanID n))) → EmitsH P (cleanup_node n).
Proof.
  intros HP. unfold cleanup_node. destruct (decide _); [apply _|]. apply emitsH_bind; [apply _|intros h].
  destruct (st_read _ _); [|destruct (is_missing _); apply _].
  intros h1 h2 r. unfold ignore_missing. destruct (lift_remove _ _ h1) as [h3 r3] eqn:Hr. intros [= <- _].
  by eapply emitsH_remove.
Qed.

(** Cleaning up only removes plan bundles, and none of an unresolved or unfinished record. *)
Lemma emitsH_cleanup P rec : (∀ id, P (EvRemove (bundle_key id))) → EmitsH P (cleanupExecution rec).
Proof. intros HP. unfold cleanupExecution. apply emitsH_if; [apply _|]. apply emitsH_for. intros n. by apply emitsH_cleanup_node. Qed.

#[local] Instance emitsH_frontier P rec ns now : EmitsH P (frontierExpired rec ns now).
Proof. induction ns as [|n ns IH]; cbn [frontierExpired]; [apply _|]. destruct (decide _); [done|]. emits. Qed.

(** *** Pruning *)

(** What pruning one key can do. *)
Definition prune_event (key : string) (ev : event) : Prop :=
  (∃ rev rec, ev = EvWrite key (MkObject rev (PRecord rec)) ∧ executionNeedsRecovery rec = false) ∨
  (∃ id, ev = EvRemove (bundle_key id)) ∨ (∃ id, ev = EvRemoveBackup id) ∨ ev = EvRemove key.

Lemma prune_event_bundle key id : prune_event key (EvRemove (bundle_key id)).
Proof. right. left. by exists id. Qed.

Lemma expire_events rec rev now : executionNeedsRecovery rec = false →
  EmitsH (prune_event (record_key (er_ID rec))) (expire rec rev now).
Proof.
  intros Hn. unfold expire. destruct (decide _); [|apply _]. apply emitsH_bind; [apply _|intros gone].
  destruct gone; [|apply _]. apply emitsH_bind; [|intros; apply _].
  apply (emitsH_publish_at s0). intros rev'. left. by exists rev', (with_times rec "expired" now (Some now) (er_RecoveryAt rec)).
Qed.

Lemma expire_ID rec rev now h h' rec' rev' : expire rec rev now h = (h', Ok (rec', rev')) → er_ID rec' = er_ID rec.
Proof.
  unfold expire. destruct (decide _); [|by intros [= _ <- _]].
  intros (h1 & gone & _ & Hk)%H_bind_Ok. destruct gone; [|by injection Hk as _ <- _].
  apply H_bind_Ok in Hk as (h2 & rv & _ & Hk). by injection Hk as _ <- _.
Qed.

Lemma remove_backup_events key id : EmitsH (prune_event key) (remove_backup_object id).
Proof.
  unfold remove_backup_object. apply emitsH_bind; [apply _|intros r].
  destruct r; [apply emitsH_remove, prune_event_bundle|apply emitsH_if; apply _].
Qed.

Lemma prune_key_events scope now key h h' r : prune_key rw bp scope now key h = (h', r) →
  extends (prune_event key) h h' ∧
  (h' ≠ h → is_record_key key = true ∧ ∃ rec, stored h key rec ∧ executionNeedsRecovery rec = false).
Proof.
  unfold prune_key. destruct (negb (is_record_key key)) eqn:Hk; [intros [= <- _]; split; [apply extends_refl|done]|].
  apply negb_false_iff in Hk.
  intros [(e & Hr & _)|(h1 & [rec rev] & Hr & Hg)]%H_bind_inv.
  { pose proof (silent_same _ _ (emitsH_readRecord silent _ _ _ _ Hr)) as ->. split; [apply extends_refl|done]. }
  apply readExecutionRecord_Ok in Hr as (-> & Hs & Hid & _). rewrite record_key_trim in Hs by done.
  assert (record_key (er_ID rec) = key) as Hkey by (rewrite Hid; by apply record_key_trim).
  destruct (bool_decide _ || executionNeedsRecovery rec) eqn:Hsk; [injection Hg as <- _; split; [apply extends_refl|done]|].
  apply orb_false_iff in Hsk as [_ Hn].
  assert (∀ h h' r, expire rec rev now h = (h', r) → extends (prune_event key) h h') as Hex.
  { intros ? ? ? He. rewrite <-Hkey. by eapply expire_events. }
  split; [|intros _; split; [done|]; exists rec; split; [by exists rev|done]].
  apply H_bind_inv in Hg as [(e & He & _)|(h2 & [rec' rev'] & He & Hg)]; [by eapply Hex|].
  eapply extends_trans; [by eapply Hex|]. destruct (er_FinishedAt rec') as [fin|]; [|injection Hg as <- _; apply extends_refl].
  revert h2 h' r He Hg. intros h2 h' r _. revert h2 h' r. change (EmitsH (prune_event key)
    (_ ← cleanupExecution rec';
     if decide (now - fin < record_retention bp)%Z then mret false
     else _ ← remove_backup_object (er_ID rec'); _ ← emitH (EvRemoveBackup (er_ID rec'));
          _ ← askH (λ h, rw_remove_backup rw h (er_ID rec')); _ ← lift_remove key rev'; mret true)).
  apply emitsH_bind; [apply emitsH_cleanup, prune_event_bundle|intros _]. destruct (decide _); [apply _|].
  apply emitsH_bind; [apply remove_backup_events|intros _].
  apply emitsH_bind; [apply emitsH_emit; right; right; left; by eexists|intros _].
  apply emitsH_bind; [apply _|intros _]. apply emitsH_bind; [|intros; apply _].
  apply emitsH_remove. by right; right; right.
Qed.

Lemma prune_event_other key key' ev : prune_event key ev → is_record_key key' = true → key ≠ key' → touches key' ev = false.
Proof.
  intros [(rev & rec & -> & _)|[(id & ->)|[(id & ->)| ->]]] Hk Hne; simpl; try done; try by apply bool_decide_eq_false.
  apply bool_decide_eq_false. by apply bundle_key_ne.
Qed.

(** A record that needs recovery is not touched. *)
Lemma prune_key_untouched scope now key key' rec h h' r : is_record_key key' = true → stored h key' rec →
  executionNeedsRecovery rec = true → prune_key rw bp scope now key h = (h', r) →
  extends (λ ev, touches key' ev = false) h h'.
Proof.
  intros Hk [rev Hs] Hn Hp. apply prune_key_events in Hp as [He Hch]. destruct (decide (key = key')) as [->|Hne].
  - destruct He as ([|ev pre] & -> & _); [apply extends_refl|].
    assert ((ev :: pre) ++ h ≠ h) as Hd by (intros Heq%(f_equal length); rewrite length_app in Heq; simpl in Heq; lia).
    destruct (Hch Hd) as [_ (rec' & [rev' Hs'] & Hn')]. rewrite Hs in Hs'. injection Hs' as _ <-. congruence.
  - eapply extends_mono; [|exact He]. intros ev Hev. by eapply prune_event_other.
Qed.

Lemma stored_untouched h h' key rec : extends (λ ev, touches key ev = false) h h' → stored h key rec → stored h' key rec.
Proof. intros (pre & -> & Hu)%extends_untouched [rev Hs]. exists rev. by rewrite objects_untouched. Qed.

Lemma prune_loop_untouched scope now keys key' rec : is_record_key key' = true → executionNeedsRecovery rec = true →
  ∀ removed h h' r, stored h key' rec → prune_loop rw bp scope now keys removed h = (h', r) →
  extends (λ ev, touches key' ev = false) h h'.
Proof.
  intros Hk Hn. induction keys as [|key keys IH]; intros removed h h' r Hs; cbn [prune_loop].
  { intros [= <- _]. apply extends_refl. }
  unfold mbind, H_bind, tryH. destruct (prune_key rw bp scope now key h) as [h1 r1] eqn:Hp.
  pose proof (prune_key_untouched _ _ _ _ _ _ _ _ Hk Hs Hn Hp) as He.
  pose proof (stored_untouched _ _ _ _ He Hs) as Hs1.
  destruct r1 as [[]|e]; [| |intros [= <- _]; done]; intros Hl; (eapply extends_trans; [done|by eapply IH]).
Qed.

(** C11: pruning never touches evidence: a stored record that needs recovery is
    left exactly as it is, at every moment of the pruning and whatever its
    age, whichever failures the store reports. *)
Theorem prune_keeps_evidence h h' r key rec :
  is_record_key key = true → stored h key rec → executionNeedsRecovery rec = true →
  PruneExecutions w rw tw g bp baseDir h = (h', r) →
  ∃ pre, h' = pre ++ h ∧ untouched key pre.
Proof.
  intros Hk Hs Hn Hp. apply extends_untouched. revert Hp. unfold PruneExecutions.
  intros [(e & E1 & _)|(h1 & u & E1 & Hp)]%H_bind_inv; [by eapply emitsH_open_locked|].
  pose proof (silent_same _ _ (emitsH_open_locked silent _ _ _ E1)) as ->. unfold pruneExecutions in Hp.
  apply H_bind_inv in Hp as [(e & E2 & _)|(h2 & keys & E2 & Hp)]; injection E2 as <- _; [apply extends_refl|].
  apply H_bind_inv in Hp as [(e & E3 & _)|(h3 & sc & E3 & Hp)]; injection E3 as <- _; [apply extends_refl|].
  apply H_bind_inv in Hp as [(e & E4 & _)|(h4 & hh & E4 & Hp)]; injection E4 as <- _; [apply extends_refl|].
  eapply prune_loop_untouched; [exact Hk|exact Hn|exact Hs|exact Hp].
Qed.

(** *** Cancelling *)

Definition removes_bundle (ev : event) : Prop := ∃ id, ev = EvRemove (bundle_key id).

(** Removing bundles leaves the stored records alone. *)
Lemma durable_removals id h h' pre : h' = pre ++ h → Forall removes_bundle pre → durable s0 id h' = durable s0 id h.
Proof.
  intros -> Hp. unfold durable. rewrite objects_untouched; [done|]. intros ev Hev.
  rewrite Forall_forall in Hp. destruct (Hp ev Hev) as [b ->]. simpl. apply bool_decide_eq_false.
  apply (bundle_key_ne (record_key b)) || idtac. unfold bundle_key, record_key.
  by apply (app_suffix_ne _ _ _ _ 1 "i"%char "o"%char).
Qed.

(** At every moment a key is removed, the stored record is finished. *)
Definition removed_after (id : string) (h h' : hist) : Prop :=
  ∃ pre, h' = pre ++ h ∧ ∀ p1 p2 key, pre = p1 ++ EvRemove key :: p2 →
    ∃ rec, durable s0 id (p2 ++ h) = Some rec ∧ er_FinishedAt rec ≠ None.

Lemma removed_after_refl id h : removed_after id h h.
Proof. exists []. split; [done|]. intros [|] ? ? Heq; done. Qed.

Lemma removed_after_write id h h' k o : removed_after id (EvWrite k o :: h) h' → removed_after id h h'.
Proof.
  intros (pre & -> & Hp). exists (pre ++ [EvWrite k o]). split; [by rewrite <-(assoc_L (++))|].
  intros p1 p2 key Heq. destruct (decide (p2 = [])) as [->|Hne].
  { exfalso. apply (f_equal last) in Heq. rewrite !last_snoc in Heq. done. }
  destruct (exists_last Hne) as (p2' & ev & ->).
  rewrite app_comm_cons, (assoc_L (++)) in Heq. apply app_inj_tail in Heq as [Heq <-].
  rewrite <-(assoc_L (++)). simpl. by eapply Hp.
Qed.

(** From a stored, finished record, cleaning up removes only bundles. *)
Lemma cleanup_durable id next h h' r : er_FinishedAt next ≠ None → durable s0 id h = Some next →
  cleanupExecution next h = (h', r) → durable s0 id h' = Some next ∧ removed_after id h h'.
Proof.
  intros Hfin Hd Hc. eapply (emitsH_cleanup removes_bundle) in Hc; [|intros b; by exists b].
  destruct Hc as (pre & -> & Hp). split; [by rewrite (durable_removals id h _ pre)|]. exists pre. split; [done|].
  intros p1 p2 key ->. apply Forall_app in Hp as [_ Hp]. apply Forall_cons in Hp as [_ Hp].
  exists next. by rewrite (durable_removals id h _ p2).
Qed.

(** Cancelling cannot touch a mutation that may still be running, and it
    invalidates an attempt before deleting anything of it.  A record that needs
    recovery makes it fail without a trace; when it succeeds the stored record
    needed no recovery, keeps its nodes and is finished, and it was already
    stored as finished at every moment a plan of it was removed. *)
Theorem cancel_safe id h h' r :
  CancelExecution w rw tw g bp baseDir id h = (h', r) →
  (∀ rec, stored h (record_key id) rec → executionNeedsRecovery rec = true → is_ok r = false ∧ h' = h) ∧
  (∀ rec, r = Ok rec → er_FinishedAt rec ≠ None ∧ executionNeedsRecovery rec = false ∧ durable s0 id h' = Some rec ∧
     ∃ rec0, stored h (record_key id) rec0 ∧ er_Nodes rec = er_Nodes rec0) ∧
  removed_after id h h'.
Proof.
  unfold CancelExecution. intros [(e & E1 & ->)|(h1 & u & E1 & Hk)]%H_bind_inv;
    pose proof (silent_same _ _ (emitsH_open_locked silent _ _ _ E1)) as ->; clear E1.
  { split; [done|]. split; [done|]. apply removed_after_refl. }
  apply H_bind_inv in Hk as [(e & E2 & ->)|(h1 & [rec rev] & E2 & Hk)];
    pose proof (silent_same _ _ (emitsH_readRecord silent _ _ _ _ E2)) as ->.
  { split; [done|]. split; [done|]. apply removed_after_refl. }
  apply readExecutionRecord_Ok in E2 as (_ & Hs & Hid & _).
  assert (∀ rec', stored h (record_key id) rec' → rec' = rec) as Huniq.
  { intros rec' [rev' Hs']. rewrite Hs in Hs'. by injection Hs'. }
  assert (stored h (record_key id) rec) as Hst by (by exists rev).
  apply H_bind_inv in Hk as [(e & E3 & ->)|(h1 & sc & E3 & Hk)]; injection E3 as <- _.
  { split; [done|]. split; [done|]. apply removed_after_refl. }
  destruct (decide (er_Scope rec ≠ sc)).
  { injection Hk as <- <-. split; [done|]. split; [done|]. apply removed_after_refl. }
  destruct (executionNeedsRecovery rec) eqn:Hn.
  { injection Hk as <- <-. split; [done|]. split; [done|]. apply removed_after_refl. }
  split; [intros rec' Hrec' Hn'; rewrite (Huniq rec' Hrec') in Hn'; congruence|].
  destruct (er_FinishedAt rec) as [fin|] eqn:Hfin.
  - unfold mbind, H_bind in Hk. destruct (cleanupExecution rec h) as [h2 r2] eqn:Hc.
    destruct (cleanup_durable id rec h h2 r2) as (Hd2 & Hp); [by rewrite Hfin|by apply stored_durable|done|].
    assert (h' = h2) as -> by (destruct r2; by injection Hk as <- _). split; [|done].
    intros rec' ->. destruct r2; [|done]. injection Hk as <-. rewrite Hfin. split_and!; try done. by exists rec.
  - apply H_bind_inv in Hk as [(e & E4 & ->)|(h1 & hh & E4 & Hk)]; [done|]; injection E4 as <- <-.
    set (next := with_times rec "cancelled" _ _ _) in Hk. unfold mbind, H_bind in Hk.
    destruct (publish_at next rev h) as [h2 r2] eqn:Hpub.
    apply (publish_at_cases s0) in Hpub as [[-> Hr2]|(rev' & Hh2 & _ & Hr2)].
    { destruct r2; [done|]. injection Hk as <- <-. split; [done|]. apply removed_after_refl. }
    change (er_ID next) with (er_ID rec) in Hh2. rewrite Hid in Hh2.
    destruct r2 as [rv|e]; cycle 1.
    { injection Hk as <- <-. split; [done|]. rewrite Hh2. eapply removed_after_write, removed_after_refl. }
    destruct (cleanupExecution next h2) as [h3 r3] eqn:Hc.
    destruct (cleanup_durable id next h2 h3 r3) as (Hd3 & Hp); [done|by rewrite Hh2, durable_write|done|].
    assert (h' = h3) as -> by (destruct r3; by injection Hk as <- _). split.
    + intros rec' ->. destruct r3; [|done]. injection Hk as <-. split; [done|]. split; [|split; [done|by exists rec]].
      by rewrite <-Hn.
    + rewrite Hh2 in Hp. by eapply removed_after_write.
Qed.

(** *** Recovering *)

(** The only subprocesses recovery starts prepare a backend and read outputs. *)
Definition reading_event (ev : event) : Prop := ∀ n op, ev = EvRun n op → op = "init" ∨ op = "output".

Lemma emitsH_with_session {A} P rec rev (m : M A) : EmitsM P m → EmitsH P (with_session rec rev m).
Proof.
  intros Hm h h' r. unfold with_session. destruct (m _) as [s' r'] eqn:Hs. intros [= <- _]. exact (Hm _ _ _ Hs).
Qed.

Lemma reading_publish next : EmitsM reading_event (publish next).
Proof. by apply (emitsM_publish s0). Qed.
Lemma reading_Emit phase node : EmitsM reading_event (Emit w phase node).
Proof. by apply (emitsM_Emit s0). Qed.
Lemma reading_run {A} c name op (answer : hist → result A) : op = "init" ∨ op = "output" →
  EmitsM reading_event (run_read w c name op answer).
Proof.
  intros Hop. unfold run_read. apply emitsM_bind; [apply emitsM_not_started, emitsM_if; [apply reading_Emit|apply _]|intros].
  apply emitsM_bind; [apply emitsM_emit; by intros ? ? [= _ <-]|intros; apply emitsM_ask].
Qed.

Lemma reading_outputs n name ib : EmitsM reading_event (recover_outputs w rw tw nw n name ib).
Proof.
  unfold recover_outputs. apply emitsM_bind; [apply _|intros ws]. apply emitsM_bind; [apply _|intros s].
  apply emitsM_if; [apply _|]. apply emitsM_if; [apply _|]. apply emitsM_bind; [apply emitsM_ask|intros].
  apply emitsM_bind; [apply emitsM_if; [apply _|apply emitsM_bind; [apply _|intros; apply reading_publish]]|intros].
  apply emitsM_bind; [apply emitsM_wrap, reading_run; by left|intros].
  apply emitsM_bind; [apply emitsM_if; [apply _|apply emitsM_bind; [apply _|intros; apply reading_publish]]|intros].
  apply emitsM_bind; [apply emitsM_wrap, reading_run; by right|intros]. apply emitsM_bind; [apply emitsM_ask|intros].
  apply emitsM_bind; [by apply emitsM_emit|intros; apply emitsM_ask].
Qed.

Lemma reading_node ib issues n : EmitsM reading_event (recover_node w rw tw nw g ib issues n).
Proof.
  unfold recover_node. apply emitsM_if; [apply _|]. destruct (decide _); [|apply _].
  destruct (executionTarget _ _ _); [|apply _]. destruct (decide _); [apply _|].
  apply emitsM_bind; [apply emitsM_try|intros r].
  - unfold recoverNodeOutputs. destruct (g_Nodes g !! en_Name n) as [gn|]; [|apply _]. apply emitsM_if; [apply _|].
    unfold close_after. apply emitsM_if; [|apply reading_outputs].
    apply emitsM_bind; [apply emitsM_try, reading_outputs|intros]. apply emitsM_bind; [apply emitsM_try, reading_Emit|intros].
    destruct (join_errors _ _); apply _.
  - destruct r; [|apply _]. apply emitsM_bind; [by apply (emitsM_transition s0)|intros; apply _].
Qed.

Lemma reading_nodes ib ns : ∀ issues, EmitsM reading_event (recover_nodes w rw tw nw g ib issues ns).
Proof.
  induction ns as [|n ns IH]; intros issues; cbn [recover_nodes]; [apply _|]. apply emitsM_bind; [apply reading_node|done].
Qed.

Lemma reading_body rec ib : EmitsM reading_event (recover_body w rw tw nw g rec ib).
Proof.
  unfold recover_body. apply emitsM_bind; [apply reading_nodes|]. intros [|e l]; [|apply _].
  apply emitsM_bind; [apply _|intros; apply reading_publish].
Qed.

Definition unknown_phases : list string := ["initializing"; "applying"; "operating"; "indeterminate"].

(** An unknown outcome is an issue, and issues are never dropped. *)
Lemma recover_node_issues ib issues n s s' issues' : recover_node w rw tw nw g ib issues n s = (s', Ok issues') →
  ∃ more, issues' = issues ++ more ∧ (en_Phase n ∈ unknown_phases → more ≠ []).
Proof.
  assert (∀ e : error, ∃ more, issues ++ [e] = issues ++ more ∧ (en_Phase n ∈ unknown_phases → more ≠ [])) as Hone by (intros e; by exists [e]).
  unfold recover_node. destruct (mem _ _) eqn:Hm; [intros [= _ <-]; apply Hone|]. apply mem_false in Hm.
  assert (∃ more : list error, issues = issues ++ more ∧ (en_Phase n ∈ unknown_phases → more ≠ [])) as Hnone
    by (exists []; rewrite app_nil_r; split; [done|by intros ?]).
  destruct (decide _); [|by intros [= _ <-]]. destruct (executionTarget _ _ _); [|intros [= _ <-]; apply Hone].
  destruct (decide _); [intros [= _ <-]; apply Hone|].
  intros (s1 & r & _ & Hk)%M_bind_Ok. destruct r; [|injection Hk as _ <-; apply Hone].
  apply M_bind_Ok in Hk as (s2 & [] & _ & Hk). by injection Hk as _ <-.
Qed.

Lemma recover_nodes_issues ib ns : ∀ issues s s', recover_nodes w rw tw nw g ib issues ns s = (s', Ok []) →
  issues = [] ∧ ∀ n, n ∈ ns → en_Phase n ∉ unknown_phases.
Proof.
  induction ns as [|n ns IH]; intros issues s s'; cbn [recover_nodes].
  - intros [= _ ->]. split; [done|]. intros n Hn. by apply elem_of_nil in Hn.
  - intros (s1 & l & Hn & Hk)%M_bind_Ok. apply IH in Hk as [-> Hns].
    apply recover_node_issues in Hn as (more & Heq & Hm). symmetry in Heq. apply app_eq_nil in Heq as [-> ->]. split; [done|].
    intros m [->|Hin]%elem_of_cons; [|auto]. intros Hu. by destruct (Hm Hu).
Qed.

Lemma recover_body_Ok rec ib s s' u : recover_body w rw tw nw g rec ib s = (s', Ok u) →
  er_Preparation rec = "" ∧ (∀ n, n ∈ er_Nodes rec → en_Phase n ∉ unknown_phases) ∧
  ∃ r now, st_record s' = recovered r now.
Proof.
  unfold recover_body. intros (s1 & issues & Hn & Hk)%M_bind_Ok. destruct issues as [|e l]; [|done].
  apply recover_nodes_issues in Hn as [Hi Hn]. destruct (decide (er_Preparation rec ≠ "")) as [|Hp]; [done|].
  split; [by destruct (decide (er_Preparation rec = ""))|]. split; [done|].
  apply M_bind_Ok in Hk as (s2 & s3 & _ & Hk).
  apply (publish_cases s0) in Hk as [[_ Hf]|(rv & _ & [(_ & Hr & _)|(Hf & _)])]; [done| |done]. by eexists _, _.
Qed.

(** C29: recovery never replays a mutation: the only subprocesses it starts
    prepare a backend and read outputs.  Without the operator's confirmations
    it does nothing.  It succeeds only for a record that needed recovery, and
    without an acknowledged replan only when no outcome of it is unknown; then
    only unresolved plugin calls can still hold the barrier. *)
Theorem recover_safe id confirmStopped stateReviewed replan ib h h' r :
  RecoverExecution w rw tw nw g bp baseDir id confirmStopped stateReviewed replan ib h = (h', r) →
  extends reading_event h h' ∧
  (confirmStopped = false ∨ (replan = true ∧ stateReviewed = false) → is_ok r = false ∧ h' = h) ∧
  (∀ rec, r = Ok rec →
     er_Status rec = "recovered_replan_required" ∧ executionNeedsRecovery rec = pluginRecoveryRequired rec ∧
     ∃ rec0, stored h (record_key id) rec0 ∧ executionNeedsRecovery rec0 = true ∧
       (replan = false → er_Preparation rec0 = "" ∧ ∀ n, n ∈ er_Nodes rec0 → en_Phase n ∉ unknown_phases)).
Proof.
  unfold RecoverExecution. destruct confirmStopped; simpl.
  2: { intros [= <- <-]. split; [apply extends_refl|done]. }
  destruct (replan && negb stateReviewed) eqn:Hrp; simpl.
  { intros [= <- <-]. split; [apply extends_refl|done]. }
  intros Hk. assert (confirmed_ : ¬ (true = false ∨ (replan = true ∧ stateReviewed = false))).
  { intros [|[-> ->]]; done. }
  split; [|split; [done|]].
  - revert Hk. apply emitsH_bind; [apply _|intros]. apply emitsH_bind; [apply _|intros [rec rev]].
    apply emitsH_bind; [apply _|intros sc]. destruct (decide _); [apply _|]. repeat (apply emitsH_if; [apply _|]).
    apply emitsH_bind; [|intros []; apply _]. apply emitsH_with_session.
    apply emitsM_if; [apply emitsM_bind; [apply _|intros; apply reading_publish]|apply reading_body].
  - intros rec' ->. apply H_bind_Ok in Hk as (h1 & u & E1 & Hk).
    pose proof (silent_same _ _ (emitsH_open_locked silent _ _ _ E1)) as ->.
    apply H_bind_Ok in Hk as (h2 & [rec rev] & E2 & Hk). apply readExecutionRecord_Ok in E2 as (-> & Hs & Hid & _).
    apply H_bind_Ok in Hk as (h3 & sc & E3 & Hk). destruct (decide _); [done|].
    destruct (executionNeedsRecovery rec) eqn:Hn; [|done]. simpl in Hk. destruct (pluginRecoveryRequired rec) eqn:Hpl; [done|].
    apply H_bind_Ok in Hk as (h4 & [s' u'] & E4 & Hk). injection Hk as _ <-. unfold with_session in E4.
    destruct (_ (MkSession h3 rec rev)) as [s1 r1] eqn:Hm in E4. destruct r1; [|done]. injection E4 as _ -> ->.
    assert (∃ r now, st_record s' = recovered r now) as (r0 & now & ->).
    { destruct replan; [|by apply recover_body_Ok in Hm as (_ & _ & ?)]. apply M_bind_Ok in Hm as (s2 & s3 & _ & Hm).
      apply (publish_cases s0) in Hm as [[_ Hf]|(rv & _ & [(_ & Hr & _)|(Hf & _)])]; [done| |done]. by eexists _, _. }
    split; [done|]. split; [unfold executionNeedsRecovery; by destruct (pluginRecoveryRequired (recovered r0 now))|].
    exists rec. split; [by exists rev|]. split; [done|]. intros ->. by apply recover_body_Ok in Hm as (? & ? & _).
Qed.

(** *** What a begun execution starts from *)

#[local] Instance always_stable name : PhaseStable name (λ _ _, True).
Proof. done. Qed.

Lemma pending_nodes names nodes : mapM_res (pending_node tw g) names = Ok nodes → ∀ r name, name ∈ names →
  er_Nodes r = nodes → phase_of r name = Some "pending".
Proof.
  intros Hm r name Hin Hr. apply mapM_res_Ok in Hm. unfold phase_of, find_node. rewrite Hr. clear Hr.
  induction Hm as [|a n names nodes Hn _ IH]; [by apply elem_of_nil in Hin|].
  unfold pending_node in Hn. apply result_bind_Ok in Hn as (t & _ & [= <-]). simpl.
  case_bool_decide as Ha; [done|]. apply IH. apply elem_of_cons in Hin as [->|]; [by destruct Ha|done].
Qed.

Lemma start_plugins_Ok id name p s s' : at_phase s0 id name p (λ _, True) s → start_plugins w s = (s', Ok tt) →
  at_phase s0 id name p (λ _, True) s'.
Proof.
  unfold start_plugins. intros Hs Hr. apply M_bind_Ok in Hr as (s1 & r1 & He & Hr).
  destruct r1 as [u|e].
  - injection Hr as <-. unfold tryM in He.
    destruct ((_ ← Emit w "selection.ready" ""; Emit w "run.prepare" "") s) as [s2 r2] eqn:H2. injection He as <- _.
    assert (Keeps s0 id name (λ _ _, True) (_ ← Emit w "selection.ready" ""; Emit w "run.prepare" "")) as Hk by apply _.
    assert (Inv s0 id name (λ _ _, True) (st_hist s)) as HI.
    { destruct Hs as ((_ & r & Hd & Hn & Hra) & Hrec & Hp & _). exists r, p. split; [done|].
      split; [congruence|]. split; [|done]. by rewrite (phase_of_nodes _ _ _ Hn). }
    by destruct (Hk p (λ _, True) (λ _ _ _ _, I) s s2 r2 Hs HI H2).
  - unfold throw_joined in Hr. by destruct (finish _ _ _) in Hr.
Qed.

(** An execution that begins is exactly what the steps of its nodes assume:
    its record is stored, agrees with the session, carries no recovery mark,
    and every selected node is pending in it. *)
Theorem begin_pending operation names sel ro h h' s name :
  beginExecution w rw tw g bp baseDir operation names sel ro h = (h', Ok s) → name ∈ names →
  synced s0 (er_ID (st_record s)) s ∧ er_RecoveryAt (st_record s) = None ∧
  phase_of (st_record s) name = Some "pending".
Proof.
  unfold beginExecution. intros Hk Hname. do 4 (apply H_bind_Ok in Hk as (? & ? & _ & Hk)).
  match goal with x : list string * option error |- _ => destruct x as [? [|]] end; [done|].
  apply H_bind_Ok in Hk as (? & ? & _ & Hk). apply H_bind_Ok in Hk as (h1 & nodes & Hn & Hk). injection Hn as -> Hn.
  set (rec := new_record _ _ _ _ _ _ _) in Hk. apply H_bind_Ok in Hk as (h2 & rev & Hc & Hk).
  apply H_bind_Ok in Hk as (h3 & [s1 []] & Hst & Hk). injection Hk as _ <-.
  unfold create_record in Hc. destruct (st_write _ _ _ _) as [hw rwr] eqn:Hw. injection Hc as <- Hc. apply wrap_err_Ok in Hc as ->.
  apply (write_cases (s0 := s0)) in Hw as [[_ Hf]|(rev' & -> & _ & _)]; [done|].
  unfold with_session in Hst. destruct (start_plugins w _) as [s2 r2] eqn:Hs2. destruct r2 as [[]|]; [|done]. injection Hst as _ ->.
  assert (at_phase s0 (er_ID rec) name "pending" (λ _, True) s1) as ((Hid & Hsy) & Hra & Hp & _).
  { eapply start_plugins_Ok; [|exact Hs2]. split; [split; [done|]|].
    - exists rec. split; [apply durable_write|done].
    - split; [done|]. split; [|done]. by eapply pending_nodes. }
  rewrite Hid. done.
Qed.
End Proofs.

(** ** Concrete inputs *)

Definition stored_record (phase : string) : ExecutionRecord :=
  MkExecutionRecord [] None 1 "" false sample_id "/root" "" "apply" "needs_recovery" 0 0 None None
    [MkExecutionNode "a" None "k" phase "" ""].
Definition record_objects (phase : string) : gmap string dirent :=
  {[ record_key sample_id := Stored (MkObject "r0" (PRecord (stored_record phase))) ]}.
Definition quiet_retention : RetentionWorld :=
  MkRetentionWorld (λ _, Ok tt) (λ _, Ok tt) (λ _, Ok tt) (λ _ _, Ok tt) (λ _, "run-ffffffffffffffffffffffffffffffff") (λ _ _, Ok tt).
Definition plain_blueprint : Blueprint := MkBlueprint None [] [] [] [] None None None [] "" None None.
Definition s3_graph : Graph := one_node (s3_node "k" "p").
Definition record_store (phase : string) : executionStore :=
  localExecutionStore (quiet_world (record_objects phase)) (record_objects phase).

Lemma stored_sample phase : @stored (record_objects phase) [] (record_key sample_id) (stored_record phase).
Proof. exists "r0". unfold record_objects. simpl. by rewrite lookup_singleton_eq. Qed.

Example begin_barrier_witness :
  is_ok (@beginExecution (record_store "applying") map_order_default quiet_journal quiet_retention sample_target_world s3_graph
    plain_blueprint "/root" "apply" ["a"] None false []).2 = false.
Proof.
  refine (proj1 (@begin_barrier (record_objects "applying") (record_store "applying")
    (localExecutionStore_laws (quiet_world (record_objects "applying")) (record_objects "applying")) map_order_default
    quiet_journal quiet_retention sample_target_world s3_graph plain_blueprint "/root" "apply" ["a"] None [] _ _
    (record_key sample_id) (stored_record "applying") _ _ (stored_sample "applying") _ (surjective_pairing _))); vm_compute; reflexivity.
Defined.

Definition begun : hist * result session :=
  @beginExecution (record_store "completed") map_order_default quiet_journal quiet_retention sample_target_world s3_graph
    plain_blueprint "/root" "apply" ["a"] None false [].
Definition begun_session : session := match begun.2 with Ok s => s | Err _ => sample_session end.

Example begin_pending_witness : phase_of (st_record begun_session) "a" = Some "pending".
Proof.
  refine (proj2 (proj2 (@begin_pending (record_objects "completed") (record_store "completed")
    (localExecutionStore_laws (quiet_world (record_objects "completed")) (record_objects "completed")) map_order_default
    quiet_journal quiet_retention sample_target_world s3_graph plain_blueprint "/root" "apply" ["a"] None false [] begun.1
    begun_session "a" _ _))).
  - vm_compute. reflexivity.
  - left.
Defined.

Example prune_keeps_evidence_witness :
  ∃ pre, (@PruneExecutions (record_store "applying") map_order_default quiet_journal quiet_retention sample_target_world s3_graph
    plain_blueprint "/root" []).1 = pre ++ [] ∧ untouched (record_key sample_id) pre.
Proof.
  refine (@prune_keeps_evidence (record_objects "applying") (record_store "applying")
    (localExecutionStore_laws (quiet_world (record_objects "applying")) (record_objects "applying")) map_order_default
    quiet_journal quiet_retention sample_target_world s3_graph plain_blueprint "/root" [] _ _
    (record_key sample_id) (stored_record "applying") _ (stored_sample "applying") _ (surjective_pairing _)); vm_compute; reflexivity.
Defined.

Example cancel_safe_witness :
  is_ok (@CancelExecution (record_store "applying") map_order_default quiet_journal quiet_retention sample_target_world s3_graph
    plain_blueprint "/root" sample_id []).2 = false ∧
  is_ok (@CancelExecution (record_store "planned") map_order_default quiet_journal quiet_retention sample_target_world s3_graph
    plain_blueprint "/root" sample_id []).2 = true.
Proof.
  split; [|vm_compute; reflexivity].
  refine (proj1 (proj1 (@cancel_safe (record_objects "applying") (record_store "applying")
    (localExecutionStore_laws (quiet_world (record_objects "applying")) (record_objects "applying")) map_order_default
    quiet_journal quiet_retention sample_target_world s3_graph plain_blueprint "/root" sample_id [] _ _ (surjective_pairing _))
    (stored_record "applying") (stored_sample "applying") _)). vm_compute. reflexivity.
Defined.

Definition recover_run (phase : string) : hist * result ExecutionRecord :=
  @RecoverExecution nat unit (record_store phase) map_order_default quiet_journal quiet_retention sample_target_world sample_nodes
    s3_graph plain_blueprint "/root" sample_id true false false true [].

Example recover_safe_witness :
  is_ok (recover_run "applied").2 = true ∧ is_ok (recover_run "applying").2 = false ∧
  extends reading_event [] (recover_run "applied").1.
Proof.
  split; [vm_compute; reflexivity|]. split; [vm_compute; reflexivity|].
  exact (proj1 (@recover_safe (record_objects "applied") nat unit (record_store "applied")
    (localExecutionStore_laws (quiet_world (record_objects "applied")) (record_objects "applied")) map_order_default
    quiet_journal quiet_retention sample_target_world sample_nodes s3_graph plain_blueprint "/root" sample_id true false false true []
    _ _ (surjective_pairing (recover_run "applied")))).
Defined.
