(* ===== verification/SavedExecution.v ===== *)
(** Saved plans (src/internal/engine: saved_execution.go, plan_bundle.go): a
    reviewed frontier is planned and stored, and applied later only if nothing
    it was planned from has changed.

    A digest is a function of the value encoded; what the disk, the runtime and
    the plugins answer is a function of the history, the environment and the
    selected workspace included.  Options of the scope and of a node's step are
    the two halves of [Options]. *)
From S2P Require Import Prelude GoLib Blueprint Module Graph Topo Selection Backend Gate Runner Execution Store Journal Target ApplyNode Prepare Retention RunLevels Engine PlanSource.

(** What [planBinding] encodes, and [savedGraphBinding] per node. *)
Record BindingParts (Vars : Type) := MkBindingParts {
  pb_Contracts : string;
  pb_ContractMode : string;
  pb_Target : string;
  pb_Runtime : PlanRuntimeIdentity;
  pb_Binary : string;
  pb_Dir : string;
  pb_DataDir : string;
  pb_Files : gmap string string;
  pb_Vars : Vars;
}.
Arguments MkBindingParts {Vars}.

Record NodeBinding := MkNodeBinding {
  nb_Declaration : Node;
  nb_Runtime : option Runtime;
  nb_Env : gmap string string;
  nb_Approve : Approve;
  nb_Binary : string;
  nb_Files : gmap string string;
}.

Record GraphBinding := MkGraphBinding {
  gb_Contracts : string;
  gb_ContractMode : string;
  gb_Nodes : gmap string NodeBinding;
  gb_Edges : list Edge;
}.

Record SavedWorld (Outputs Vars : Type) := MkSavedWorld {
  sv_prepare : PrepareWorld;
  sv_source : hist → string → tree;
  sv_identity : hist → string → result PlanRuntimeIdentity;
  sv_tofu : hist → string → result unit;
  sv_vars : hist → string → gmap string Outputs → result Vars;
  sv_write_vars : hist → string → Vars → result unit;
  sv_show : hist → string → result (list ResourceChange * list OutputChange);
  sv_checks : hist → string → list ContractCheck * option error;
  sv_print : hist → result unit;
  sv_plan_bytes : hist → string → result (list Byte.byte);
  sv_write_plan : hist → string → list Byte.byte → result unit;
  sv_new_plan_id : hist → string;
  sv_completion : hist → result unit;
  sv_digest_contracts : option Contracts → result string;
  sv_digest_plan : BindingParts Vars → result string;
  sv_digest_graph : GraphBinding → result string;
  sv_plugins_binding : hist → result string;
  sv_credentials : hist → string → gmap string string;
  sv_digest_plugged : string → string → gmap string string → result string;
  sv_digest_pair : string → string → result string;
  sv_getenv : string → string;
}.
Arguments sv_prepare {_ _}. Arguments sv_source {_ _}. Arguments sv_identity {_ _}. Arguments sv_tofu {_ _}.
Arguments sv_vars {_ _}. Arguments sv_write_vars {_ _}. Arguments sv_show {_ _}. Arguments sv_checks {_ _}.
Arguments sv_print {_ _}. Arguments sv_plan_bytes {_ _}. Arguments sv_write_plan {_ _}. Arguments sv_new_plan_id {_ _}.
Arguments sv_completion {_ _}. Arguments sv_digest_contracts {_ _}. Arguments sv_digest_plan {_ _}.
Arguments sv_digest_graph {_ _}. Arguments sv_plugins_binding {_ _}. Arguments sv_credentials {_ _}.
Arguments sv_digest_plugged {_ _}. Arguments sv_digest_pair {_ _}. Arguments sv_getenv {_ _}.

(** What targets are computed from. *)
Definition sv_target {Outputs Vars} (sw : SavedWorld Outputs Vars) : hist → TargetWorld := pw_target (sv_prepare sw).

Definition incompatible (id subject : string) (m : string) (args : list farg) : error :=
  Diagnosed (Diagnostic "saved_plan_incompatible" "artifact" "artifact" subject id) (Errorf m args).
Definition invalid_arguments (m : string) : error :=
  Diagnosed (Diagnostic "invalid_arguments" "arguments" "arguments" "" "") (Errorf m []).
Definition graph_changed : error :=
  incompatible "" "" "graph configuration changed; cancel this execution and create a fresh plan" [].

Section Saved.
Context {Outputs Evidence Vars : Type} `{!executionStore} `{!MapOrder}.
Context (w : JournalWorld) (rw : RetentionWorld) (nw : NodeWorld Outputs Evidence) (sw : SavedWorld Outputs Vars).
Context (eng : Engine) (bp : Blueprint).

Notation g := (eg_Graph eng).
Notation baseDir := (eg_BaseDir eng).

Definition askM {A} (f : hist → result A) : M A := λ s, (s, f (st_hist s)).

(** ** Bindings (plan_bundle.go, saved_execution.go) *)

Definition node_state (name : string) : string :=
  default "" (g_Nodes g !! name ≫= localStatePath (sv_getenv sw)).

Definition source_files (h : hist) (name : string) : result (gmap string string) :=
  planSourceFiles name (node_state name) (nodeDir eng name) (sv_source sw h name).

Definition executionTarget_at (h : hist) (name : string) : result string := executionTarget (sv_target sw h) g name.

(** Everything but the runtime's own answer, at one moment. *)
Definition binding_at (h : hist) (name : string) (runtime : PlanRuntimeIdentity) (vars : Vars) : result string :=
  target ← executionTarget_at h name;
  files ← source_files h name;
  contracts ← sv_digest_contracts sw (g_Contracts g);
  binding ← sv_digest_plan sw (MkBindingParts contracts (g_ContractMode g) target runtime (runtimeFor eng name)
              (nodeDir eng name) (dataDir eng name) files vars);
  if jw_plugins w
  then p ← sv_plugins_binding sw h; sv_digest_plugged sw binding p (sv_credentials sw h name)
  else Ok binding.

Definition planBinding (name : string) (vars : Vars) : M string :=
  runtime ← run w nw name "version" (λ h, sv_identity sw h name);
  ask (λ h, binding_at h name runtime vars).

Definition graph_node (h : hist) (acc : gmap string NodeBinding) (n : ExecutionNode) : result (gmap string NodeBinding) :=
  match g_Nodes g !! en_Name n with
  | None => Err (Errorf "node.%s: removed from graph; create a fresh plan" [FStr (en_Name n)])
  | Some actual =>
    files ← source_files h (en_Name n);
    Ok (<[en_Name n := MkNodeBinding (n_Node actual) (n_Runtime actual) (n_Env actual) (n_Approve actual)
                         (runtimeFor eng (en_Name n)) (delete ".terraform.lock.hcl" files)]> acc)
  end.

Definition savedGraphBinding (h : hist) (record : ExecutionRecord) : result string :=
  nodes ← foldM (graph_node h) ∅ (er_Nodes record);
  contracts ← sv_digest_contracts sw (g_Contracts g);
  binding ← sv_digest_graph sw (MkGraphBinding contracts (g_ContractMode g) nodes (g_Edges g));
  if jw_plugins w then p ← sv_plugins_binding sw h; sv_digest_pair sw binding p else Ok binding.

(** ** Inputs and bundles *)

Definition live_error (name : string) (err : error) : error :=
  Errorf "node.%s: retained plans require live upstream outputs; initialize the upstream backend and restore access: %w" [FStr name; FErr err].

Fixpoint live_outputs (name : string) (edges : list Edge) (outputs : gmap string Outputs) : M (gmap string Outputs) :=
  match edges with
  | [] => mret outputs
  | e :: edges =>
    if negb (IsDataEdge e) || negb (bool_decide (pr_Node (e_To e) = name))
       || bool_decide (is_Some (outputs !! pr_Node (e_From e)))
    then live_outputs name edges outputs
    else live ← wrapM (live_error name) (Outputs_ w nw (pr_Node (e_From e)));
         live_outputs name edges (<[pr_Node (e_From e) := live]> outputs)
  end.

Definition resolveLiveInputs (name : string) : M Vars :=
  outputs ← live_outputs name (g_Edges g) ∅; ask (λ h, sv_vars sw h name outputs).

Definition write_bundle (b : planBundle) : M unit := λ s,
  let '(h', r) := st_write (bundle_key (pbn_ID b)) (PBundle b) "" (st_hist s) in
  (set_hist s h', match r with Ok _ => Ok tt | Err e => Err e end).

Definition plan_ttl : Z := xc_PlanTTL (ExecutionSettings bp).

(** [bound] is the binding the plan was prepared under, if one was taken. *)
Definition retainPlan (plan : preparedNodePlan) (bound : string) (vars : Vars) : M unit :=
  binding ← planBinding (pl_name plan) vars;
  if bool_decide (bound ≠ "") && bool_decide (binding ≠ bound)
  then throwM (Errorf "node.%s: inputs changed while planning; create a fresh plan" [FStr (pl_name plan)])
  else
    bytes ← wrapM (λ err, Errorf "reading retained plan: %w" [FErr err]) (ask (λ h, sv_plan_bytes sw h (pl_name plan)));
    s ← getM;
    let now := jw_now w (st_hist s) in
    let bundle := MkPlanBundle 1 (sv_new_plan_id sw (st_hist s)) (er_ID (st_record s)) (pl_name plan) binding now
                    (Some (now + plan_ttl)%Z) (pl_changed plan) bytes in
    _ ← write_bundle bundle;
    transition w (pl_name plan) "planned" "" (pbn_ID bundle).

Definition bundle_owned (s : session) (node : ExecutionNode) (b : planBundle) : bool :=
  bool_decide (pbn_SchemaVersion b = 1%Z) && bool_decide (pbn_ID b = en_PlanID node)
  && bool_decide (pbn_Node b = en_Name node) && bool_decide (pbn_ExecutionID b = er_ID (st_record s))
  && negb (bool_decide (pbn_Plan b = [])).

Definition readPlanBundle (node : ExecutionNode) : M planBundle :=
  s ← getM;
  let id := er_ID (st_record s) in
  object ← wrapM (Diagnosed (Diagnostic "saved_plan_read_failed" "artifact" "artifact" ("node." +:+ en_Name node) id))
             (ask (st_read (bundle_key (en_PlanID node))));
  bundle ← wrapM (λ err, incompatible id ("node." +:+ en_Name node) "reading retained plan: %w" [FErr err])
             (pureM (unmarshal_bundle (Data object)));
  if negb (bundle_owned s node bundle)
  then throwM (incompatible id "" "plan bundle is incompatible or does not belong to this execution; create a fresh plan" [])
  else if expired bundle (jw_now w (st_hist s))
  then throwM (Diagnosed (Diagnostic "saved_plan_expired" "artifact" "artifact" "" id)
                 (Errorf "plan %s expired; cancel the execution and create a fresh plan" [FStr (pbn_ID bundle)]))
  else mret bundle.

(** ** Sessions *)

Definition read_diagnostic (id : string) : diagnostic := Diagnostic "execution_read_failed" "record" "history" "execution" id.
Definition wrapH {A} (f : error → error) (m : H A) : H A := λ h, let '(h', r) := m h in (h', wrap_err f r).

Definition scope_at (h : hist) : result string := executionScope (sv_target sw h) baseDir (bp_Lock bp).

Definition resumable (scope : string) (record : ExecutionRecord) : bool :=
  bool_decide (er_Scope record = scope) && bool_decide (er_Operation record = "saved_apply")
  && bool_decide (er_RecoveryAt record = None) && negb (executionNeedsRecovery record).

Definition openSavedExecution (id : string) : H session :=
  _ ← wrapH (Diagnosed (read_diagnostic id)) (open_store rw g bp);
  '(record, revision) ← wrapH (Diagnosed (read_diagnostic id)) (readExecutionRecord id);
  scope ← wrapH (Diagnosed (Diagnostic "configuration_failed" "configuration" "prepare" "execution" id)) (askH scope_at);
  if negb (resumable scope record)
  then throwH (incompatible id "execution" "execution cannot resume in its current scope or recovery status; inspect plan show" [])
  else _ ← wrapH (Diagnosed (read_diagnostic id)) (checkExecutionBarrier scope id false);
       h ← getH; mret (MkSession h record revision).

(** Membership of the record, whatever it was selected with. *)
Definition storedSelection (opts : Scope) (record : ExecutionRecord) : result Scope :=
  levels ← SelectedLevels g (Some (en_Name <$> er_Nodes record)) false;
  Ok (MkScope (sc_Nodes opts) (sc_Downstream opts) (sc_SelectionSpecified opts) (er_Selection record) (Some levels)).

(** [checkRuntimeFiles] before any plugin is started: the version probes. *)
Fixpoint probe_runtimes (names : list string) : H unit :=
  match names with
  | [] => mret tt
  | name :: names =>
    if requires_tofu eng name
    then _ ← emitH (EvRun name "version");
         _ ← wrapH (λ err, Errorf "node.%s.runtime: %w" [FStr name; FErr err]) (askH (λ h, sv_tofu sw h name));
         probe_runtimes names
    else probe_runtimes names
  end.

Definition check_runtime_files (opts : Scope) : H unit :=
  levels ← pureH (executionLevels g opts false); probe_runtimes (required_nodes eng (concat levels)).

Definition start_saved_plugins : M unit := _ ← Emit w "selection.ready" ""; Emit w "run.prepare" "".

(** ** Planning the frontier *)

Definition phases (ns : list ExecutionNode) : gmap string string := foldl (λ m n, <[en_Name n := en_Phase n]> m) ∅ ns.

(** Every selected upstream is completed. *)
Definition ready (ph : gmap string string) (name : string) : bool :=
  forallb (λ up, match ph !! up with Some p => bool_decide (p = "completed") | None => true end) (in_ g name).

Definition frontier_limitation : text :=
  Sprintf "only this ready frontier is saved; downstream nodes require a new plan after applying upstream" [].

Definition with_evidence (r : PlanReview) (checks : list ContractCheck) (resources : list ResourceChange) (outputs : list OutputChange) : PlanReview :=
  MkPlanReview (rv_Evidence r) (rv_HasChanges r) resources outputs (rv_Policy r) (rv_PolicyDecision r) (rv_Inputs r) checks
    [frontier_limitation] (rv_Diagnostic r).

Definition completion : M unit := ask (sv_completion sw).

Definition saveFrontierNode (name : string) (opts : Options) : M unit :=
  _ ← Emit w "node.prepare" name;
  vars ← resolveLiveInputs name;
  _ ← ask (λ h, sv_write_vars sw h name vars);
  _ ← transition w name "initializing" "" "";
  r ← tryM (initNode w nw (sv_prepare sw) g name);
  _ ← (match r with Err err => fail w name "indeterminate" err | Ok _ => mret tt end);
  _ ← transition w name "preparing" "" "";
  backend ← backend_type nw name;
  if negb (plans_locally backend) then throwM (savedPlanUnsupportedError name backend)
  else
    before ← planBinding name vars;
    plan ← prepareNodePlan w nw name;
    after ← planBinding name vars;
    if decide (before ≠ after)
    then throwM (Errorf "node.%s: source inputs changed while planning; create a fresh plan" [FStr name])
    else
      s ← getM;
      let '(checks, err) := sv_checks sw (st_hist s) name in
      _ ← (match err with Some err => throwM err | None => mret tt end);
      '(resources, outputs) ← run w nw name "show" (λ h, sv_show sw h name);
      _ ← ask (sv_print sw);
      _ ← retainPlan plan before vars;
      let review := newPlanReview (approveFor g name (op_Approve opts)) in
      setReview name (normalize (with_evidence review checks resources outputs) (pl_changed plan)).

(** The pending nodes that are ready, in the record's order; the count. *)
Fixpoint save_nodes (ph : gmap string string) (opts : Options) (ns : list ExecutionNode) (count : nat) : M nat :=
  match ns with
  | [] => mret count
  | n :: ns =>
    if negb (bool_decide (en_Phase n = "pending")) || negb (ready ph (en_Name n)) then save_nodes ph opts ns count
    else
      r ← tryM (saveFrontierNode (en_Name n) opts);
      match r with
      | Err err => throw_joined err (noteSavedFailure (en_Name n) "plan_step_failed")
      | Ok _ => _ ← Emit w "node.finished" (en_Name n); _ ← completion; save_nodes ph opts ns (S count)
      end
  end.

Definition not_resumable (r : ExecutionRecord) : error :=
  Errorf "execution %s is %s; apply its pending plans or start a fresh execution" [FStr (er_ID r); FStr (er_Status r)].

(** Before [finalize] is set. *)
Definition save_check (continued : bool) (scope : Scope) : M unit :=
  s ← getM;
  _ ← (if continued
       then opts ← pureM (storedSelection scope (st_record s)); liftH (check_runtime_files opts) else mret tt);
  if mem (er_Status (st_record s)) ["preparing"; "ready_for_next_plan"] then mret tt
  else throwM (not_resumable (st_record s)).

Definition save_body (continued : bool) (opts : Options) : M unit :=
  s ← getM;
  binding ← ask (λ h, savedGraphBinding h (st_record s));
  if negb (bool_decide (er_Binding (st_record s) = "")) && negb (bool_decide (er_Binding (st_record s) = binding))
  then throwM graph_changed
  else
    _ ← (if continued && jw_plugins w then start_saved_plugins else mret tt);
    s ← getM;
    _ ← publish (with_binding (st_record s) binding);
    s ← getM;
    count ← save_nodes (phases (er_Nodes (st_record s))) opts (er_Nodes (st_record s)) 0;
    if decide (count = 0) then throwM (Errorf "execution has no unplanned frontier; inspect plan show before continuing" [])
    else s ← getM;
         publish (with_times (st_record s) "waiting_for_apply" (jw_now w (st_hist s)) (er_FinishedAt (st_record s)) (er_RecoveryAt (st_record s))).

(** The deferred [finishSavedSession], final once the checks have passed. *)
Definition in_saved_session {A} (check : M unit) (body : M A) : M (option A * option error) :=
  c ← tryM check;
  match c with
  | Err err => e ← finishSavedSession w (Some err) false; mret (None, e)
  | Ok _ => r ← tryM body; e ← finishSavedSession w (error_of r) true;
            mret (match r with Ok a => Some a | Err _ => None end, e)
  end.

Definition run_session {A} (s : session) (m : M A) : H (session * A) := λ h,
  let '(s', r) := m (set_hist s h) in (st_hist s', match r with Ok a => Ok (s', a) | Err e => Err e end).

Definition startExecution (operation : string) (opts : Scope) (reverse : bool) : H session :=
  levels ← pureH (executionLevels g opts reverse);
  h ← getH;
  beginExecution w rw (sv_target sw h) g bp baseDir operation (concat levels) (sc_selection opts) false.

(** [continueID] empty: a fresh execution. *)
Definition SavePlans (continueID : string) (scope : Scope) (opts : Options) : H (ExecutionRecord * option error) :=
  let continued := negb (bool_decide (continueID = "")) in
  if continued && hasSelectionFlags scope
  then throwH (invalid_arguments "--continue already fixes node selection; omit --node and --downstream")
  else
    scope ← (if continued then mret scope else pureH (resolveSelection g scope));
    _ ← askH (rw_lock_run rw);
    _ ← (if continued then mret tt else check_runtime_files scope);
    _ ← askH (rw_lock_graph rw);
    s ← (if continued then openSavedExecution continueID else startExecution "saved_apply" scope false);
    '(s, (_, err)) ← run_session s (in_saved_session (save_check continued scope) (save_body continued opts));
    mret (st_record s, err).

(** ** Applying the stored frontier *)

Definition binding_changed (name : string) : error :=
  incompatible "" "" "node.%s: source, runtime, paths, or inputs changed; create a fresh plan" [FStr name].

Definition applySavedNode (node : ExecutionNode) (opts : Options) : M string :=
  let name := en_Name node in
  _ ← Emit w "node.prepare" name;
  bundle ← readPlanBundle node;
  vars ← resolveLiveInputs name;
  target ← ask (λ h, executionTarget_at h name);
  if decide (target ≠ en_Target node)
  then throwM (incompatible "" "" "node.%s: backend target changed; create a fresh plan" [FStr name])
  else
    binding ← planBinding name vars;
    if decide (binding ≠ pbn_Binding bundle) then throwM (binding_changed name)
    else
      _ ← transition w name "initializing" "" "";
      r ← tryM (initNode w nw (sv_prepare sw) g name);
      _ ← (match r with Err err => fail w name "indeterminate" err | Ok _ => mret tt end);
      _ ← transition w name "planned" "" "";
      after ← planBinding name vars;
      if decide (after ≠ pbn_Binding bundle)
      then throwM (Errorf "node.%s: runtime preparation changed plan bindings; create a fresh plan" [FStr name])
      else
        _ ← ask (λ h, nw_prepare nw h name);
        _ ← ask (λ h, sv_write_plan sw h name (pbn_Plan bundle));
        _ ← pluginPlan w nw name "node.plan.ready";
        '(_, status) ← applyPreparedPlan w nw g (MkPreparedNodePlan name (pbn_Changed bundle) true) opts;
        mret status.

(** Stops at the first failure, which is noted on the node. *)
Fixpoint apply_nodes (opts : Options) (ns : list ExecutionNode) (runs : list NodeRun) : M (list NodeRun * option error) :=
  match ns with
  | [] => mret (runs, None)
  | n :: ns =>
    if negb (bool_decide (en_Phase n = "planned")) then apply_nodes opts ns runs
    else
      r ← tryM (applySavedNode n opts);
      match r with
      | Err err =>
        noted ← tryM (noteSavedFailure (en_Name n) "apply_step_failed");
        mret (runs ++ [MkNodeRun (en_Name n) 1 StatusFailed (Some err)], join_errors (Some err) (error_of noted))
      | Ok status =>
        let runs := runs ++ [MkNodeRun (en_Name n) 1 status None] in
        finished ← tryM (_ ← Emit w "node.finished" (en_Name n); completion);
        match finished with
        | Err err => mret (runs, Some err)
        | Ok _ => apply_nodes opts ns runs
        end
      end
  end.

Definition frontier_status (ns : list ExecutionNode) : string :=
  if forallb (λ n, bool_decide (en_Phase n = "completed")) ns then "completed" else "ready_for_next_plan".

Definition frontier_applied (r : ExecutionRecord) (now : Z) : ExecutionRecord :=
  let status := frontier_status (er_Nodes r) in
  with_times r status now (if decide (status = "completed") then Some now else er_FinishedAt r) (er_RecoveryAt r).

Definition apply_check (id : string) (scope : Scope) : M unit :=
  s ← getM;
  opts ← pureM (storedSelection scope (st_record s));
  _ ← liftH (check_runtime_files opts);
  if decide (er_Status (st_record s) ≠ "waiting_for_apply")
  then throwM (Errorf "execution %s is %s; only waiting_for_apply can be applied" [FStr id; FStr (er_Status (st_record s))])
  else binding ← ask (λ h, savedGraphBinding h (st_record s));
       if decide (binding ≠ er_Binding (st_record s)) then throwM graph_changed else mret tt.

(** The reports survive a failure of the run. *)
Definition apply_body (opts : Options) : M (list NodeRun * option error) :=
  _ ← (if jw_plugins w then start_saved_plugins else mret tt);
  s ← getM;
  '(runs, err) ← apply_nodes opts (er_Nodes (st_record s)) [];
  match err with
  | Some err => mret (runs, Some err)
  | None => s ← getM;
            r ← tryM (publish (frontier_applied (st_record s) (jw_now w (st_hist s))));
            mret (runs, error_of r)
  end.

Definition apply_session (id : string) (scope : Scope) (opts : Options) : M (list NodeRun * option error) :=
  c ← tryM (apply_check id scope);
  match c with
  | Err err => e ← finishSavedSession w (Some err) false; mret ([], e)
  | Ok _ =>
    r ← tryM (apply_body opts);
    let '(runs, err) := match r with Ok x => x | Err err => ([], Some err) end in
    e ← finishSavedSession w err true; mret (runs, e)
  end.

Definition ApplySavedPlans (id : string) (scope : Scope) (opts : Options) : H (list NodeRun * option error) :=
  if hasSelectionFlags scope
  then throwH (invalid_arguments "--plan already fixes node selection; omit --node and --downstream")
  else if bool_decide (1 < parallelism opts)%Z && negb (op_AutoApprove opts)
  then throwH (invalid_arguments "--parallelism needs --auto-approve")
  else
    _ ← askH (rw_lock_run rw);
    _ ← askH (rw_lock_graph rw);
    s ← openSavedExecution id;
    '(_, result) ← run_session s (apply_session id scope opts);
    mret result.
End Saved.
