(* ===== verification/Observe.v ===== *)
(** Observation (src/internal/engine/observe.go): reading the state or the
    outputs of a node without a run.  A session holds the local lock and a
    private directory; [Read] starts the runtime only to read, in that
    directory and with an environment it has cleaned.

    The runtime is answered by the outside (Runner.v); [Read] says which
    processes it started, in order. *)
From S2P Require Import Prelude GoLib Blueprint Module Graph Backend Gate Values Runner Engine.

(** ** The session *)

(** What opening and closing do, in order. *)
Inductive session_event :=
  | Locked | MadeDir (dir : string) | PluginsStarted | PluginsFinished | RemovedDir (dir : string) | Unlocked.

Record ObservationSession := MkObservationSession { os_dir : string; os_locked : bool }.

(** The answers of one session. *)
Record session_answers := MkSessionAnswers {
  sa_load : result unit;            (** loading, with the local lock taken *)
  sa_prepare : result unit;         (** the protected parent directory *)
  sa_temp : result string;          (** [os.MkdirTemp] *)
  sa_start : result unit;           (** [startPlugins] *)
  sa_finish : option error;         (** [finishPlugins] *)
  sa_remove : option error;         (** [os.RemoveAll] *)
}.

(** [Close]: credentials cached by init go before the lock does. *)
Definition CloseSession (a : session_answers) (s : ObservationSession) : list session_event * ObservationSession * option error :=
  let removed := if decide (os_dir s = "") then [] else [RemovedDir (os_dir s)] in
  let err := if decide (os_dir s = "") then sa_finish a else join_errors (sa_finish a) (sa_remove a) in
  (PluginsFinished :: removed ++ (if os_locked s then [Unlocked] else []), MkObservationSession "" false, err).

Definition OpenObservation (a : session_answers) : list session_event * result ObservationSession :=
  match sa_load a with
  | Err err => ([], Err err)
  | Ok _ =>
    let failed (evs : list session_event) (s : ObservationSession) (err : error) :=
      let '(evs', _, closeErr) := CloseSession a s in
      (evs ++ evs', Err (default err (join_errors (Some err) closeErr))) in
    let s := MkObservationSession "" true in
    match sa_prepare a with
    | Err err => failed [Locked] s err
    | Ok _ =>
      match sa_temp a with
      | Err err => failed [Locked] s (Errorf "creating observation directory: %w" [FErr err])
      | Ok dir =>
        let s := MkObservationSession dir true in
        match sa_start a with
        | Err err => failed [Locked; MadeDir dir] s err
        | Ok _ => ([Locked; MadeDir dir; PluginsStarted], Ok s)
        end
      end
    end
  end.

(** ** Observations *)

Record Diagnostic := MkDiagnostic {
  dg_Code : string; dg_Phase : string; dg_Subject : string; dg_Message : string; dg_Remedy : string;
}.

Record Observation := MkObservation {
  ob_Node : string; ob_Runtime : string; ob_Backend : string; ob_Identity : string; ob_State : string;
  ob_Outputs : option RunOutputs; ob_Resources : nat; ob_OutputCount : nat; ob_Diagnostic : option Diagnostic;
}.

(** [Names]: the names below a target are suggested, else all. *)
Definition Names (e : Engine) (target : string) : result (list string) :=
  let all := sorted_keys (g_Nodes (eg_Graph e)) in
  if decide (target = "") then Ok all
  else if bool_decide (is_Some (g_Nodes (eg_Graph e) !! target)) then Ok [target]
  else
    let below := filter (λ name, has_prefix name (target +:+ ".") = true) all in
    let candidates := match below with [] => all | _ => below end in
    Err (Errorf "unknown node %q; select an expanded leaf with --node: %s" [FStr target; FStr (join candidates ", ")]).

Definition observationFailure (o : Observation) (code phase message remedy : string) : Observation :=
  MkObservation (ob_Node o) (ob_Runtime o) (ob_Backend o) (ob_Identity o) "unavailable" (ob_Outputs o) (ob_Resources o) (ob_OutputCount o)
    (Some (MkDiagnostic code phase ("node." +:+ ob_Node o) message remedy)).

Definition with_backend (o : Observation) (backend : string) : Observation :=
  MkObservation (ob_Node o) (ob_Runtime o) backend (ob_Identity o) (ob_State o) (ob_Outputs o) (ob_Resources o) (ob_OutputCount o) (ob_Diagnostic o).
Definition with_identity (o : Observation) (identity : string) : Observation :=
  MkObservation (ob_Node o) (ob_Runtime o) (ob_Backend o) identity (ob_State o) (ob_Outputs o) (ob_Resources o) (ob_OutputCount o) (ob_Diagnostic o).
Definition observed_state (o : Observation) (state : string) (resources outputs : nat) : Observation :=
  MkObservation (ob_Node o) (ob_Runtime o) (ob_Backend o) (ob_Identity o) state (ob_Outputs o) resources outputs (ob_Diagnostic o).
Definition observed_outputs (o : Observation) (outputs : RunOutputs) : Observation :=
  MkObservation (ob_Node o) (ob_Runtime o) (ob_Backend o) (ob_Identity o) "observed" (Some outputs) (ob_Resources o) (ob_OutputCount o) (ob_Diagnostic o).

(** A step returns an observation early, or goes on. *)
Notation step A := (Observation + A)%type.
#[local] Instance step_bind : MBind (sum Observation) := λ A B f m, match m with inl o => inl o | inr a => f a end.

(** A step that may start processes. *)
Definition reading_step (A : Type) : Type := list Command * (step A).
#[local] Instance reading_bind : MBind reading_step := λ A B f m,
  match m with
  | (started, inr a) => let '(started', r) := f a in (started ++ started', r)
  | (started, inl o) => (started, inl o)
  end.
Definition no_process {A} (m : step A) : reading_step A := ([], m).

(** Arguments and logging a user configured for the runtime. *)
Definition runtime_override (key : string) : bool := has_prefix (to_upper key) "TF_CLI_ARGS" || has_prefix (to_upper key) "TF_LOG".

Section Read.
Context `{HostEnvironment} `{MapOrder} `{Semver}.
Context (Environ : list string) (Getenv : string → string) (hook : option RuntimeHook).
Context (terraform_version : string → option string) (minimum : version) (digest : string → string).
Context (parse_state : string → result (state_document * bool)) (parse_outputs_json : string → result (RunOutputs * bool)).
Context (regular : string → bool) (cancelled : string → bool).
Context (e : Engine) (dir : string).

Definition clean_env (base : gmap string string) : gmap string string :=
  let blank m key := if runtime_override key then <[key := ""]> m else m in
  let inherited := foldl (λ m entry, blank m (env_name entry)) base Environ in
  <["TF_WORKSPACE" := "default"]> (foldl blank inherited (fst <$> range inherited)).

(** [fail]: a cancelled context explains every failure. *)
Definition failing (o : Observation) (code phase message remedy : string) : Observation :=
  if cancelled code then observationFailure o "cancelled" phase "observation cancelled" "retry the observation"
  else observationFailure o code phase message remedy.

Definition require (o : Observation) (b : bool) (code phase message remedy : string) : step unit :=
  if b then inr tt else inl (failing o code phase message remedy).

(** The address of the state, without its content: a local file, or an HTTP address. *)
Definition state_identity (n : GNode) (schema : Schema) (env : gmap string string) (o : Observation) : step string :=
  if decide (ob_Backend o = "local") then
    match localStatePath Getenv n with
    | None => inl (failing o "backend_indeterminate" "prepare" "local state identity is unknown" "use a literal local state path")
    | Some path =>
      _ ← require o (regular path) "local_state_unavailable" "prepare" "local state is unavailable in this checkout"
            "recover the existing state file on this machine; do not create replacement state";
      inr path
    end
  else
    let cfg := bn_BackendConfig (n_Node n) ∪ s_BackendConfig schema in
    inr (or_else (or_else (default "" (cfg !! "address")) (default "" (env !! "TF_HTTP_ADDRESS"))) (Getenv "TF_HTTP_ADDRESS")).

(** Everything [Read] requires before it starts the runtime. *)
Definition prepare (name : string) (n : GNode) (o : Observation) : step (Schema * gmap string string * Observation) :=
  _ ← require o (negb (cancelled "start")) "cancelled" "read" "observation cancelled" "retry the observation";
  match n_Schema n, n_ObservationError n with
  | Some schema, None =>
    let o := with_backend o (or_else (s_Backend schema) "local") in
    _ ← require o (s_BackendConfigKnown schema) "backend_indeterminate" "prepare" "backend configuration is not statically known"
          "use literal backend configuration for observation";
    match EnvironmentValue Environ (runner e name) "TF_WORKSPACE" with
    | Err _ => inl (failing o "invalid_environment" "prepare" "environment conflicts with the managed data directory" "remove TF_DATA_DIR from the node environment")
    | Ok workspace =>
      _ ← require o (mem (default "" workspace) [""; "default"]) "unsupported_workspace" "prepare" "observation supports only the default workspace"
            "select an independently configured default-workspace node";
      _ ← require o (mem (ob_Backend o) ["local"; "http"]) "unsupported_backend" "prepare" "backend has no verified read-only preparation capability"
            "use the backend's native inspection tools";
      let env := clean_env (n_Env n) in
      identity ← state_identity n schema env o;
      let o := with_identity o ("sha256:" +:+ digest (ob_Backend o +:+ String (Ascii.ascii_of_nat 0) "" +:+ identity)) in
      _ ← require o (regular (Join [n_Dir n; ".terraform.lock.hcl"])) "lockfile_required" "prepare" "dependency lockfile is missing"
            "restore the module's committed .terraform.lock.hcl";
      inr (schema, env, o)
    end
  | _, _ => inl (failing o "module_unavailable" "load" "module cannot be inspected" "restore or vendor this node's source and correct its module syntax")
  end.

(** The runner of a node with the session's directory and the cleaned environment. *)
Definition reader (name : string) (env : gmap string string) : Runner :=
  let r := runner e name in MkRunner (rn_Binary r) (rn_Dir r) (Join [dir; name]) env.

Section Runtime.
Context (runCommand : Command → runtime_answer).

Notation run_of := (output_of Environ runCommand hook).

(** [Outputs] (exec/runner.go). *)
Definition read_outputs (r : Runner) : Ran RunOutputs :=
  out ← wrap_ran (λ err, Errorf "running %s output -json in %s: %w" [FStr (rn_Binary r); FStr (rn_Dir r); FErr err]) (run_of r ["output"; "-json"]);
  nothing_started (parse_outputs (rn_Binary r) (rn_Dir r) (parse_outputs_json out)).

(** What was run must have succeeded. *)
Definition require_ran {A} (o : Observation) (m : Ran A) (code phase message remedy : string) : reading_step unit :=
  (m.1, require o (is_ok m.2) code phase message remedy).

Definition initialize (n : GNode) (schema : Schema) (r : Runner) (o : Observation) : reading_step unit :=
  _ ← no_process (require o (is_ok (ValidateEnv r)) "invalid_environment" "prepare" "environment conflicts with the managed data directory"
        "remove TF_DATA_DIR from the node environment");
  _ ← (if s_RequiresTofuFiles schema
       then require_ran o (RequireTofuFiles Environ runCommand hook terraform_version minimum r)
              "unsupported_runtime" "prepare" "runtime cannot read the selected module files" "install a compatible OpenTofu runtime"
       else no_process (inr tt));
  require_ran o (InitRead Environ runCommand hook r (bn_BackendConfig (n_Node n)) []) "initialization_failed" "prepare"
    "read-only backend preparation failed" "check runtime, credentials, existing backend, and committed provider lockfile".

Definition state_name (s : StateObservation) : string :=
  if so_Present s then if so_Empty s then if so_Determinate s then "empty" else "indeterminate" else "present" else "absent".

(** An output the module declares sensitive is sensitive whatever the state says. *)
Definition mark_sensitive (schema : Schema) (outputs : RunOutputs) : RunOutputs :=
  map_imap (λ key o, Some (if default false (o_Sensitive <$> s_OutputDetails schema !! key)
                           then MkRunOutput (ro_Value o) (ro_Type o) (ro_Unknown o) (Some true) else o)) outputs.

Definition observe (status : bool) (schema : Schema) (r : Runner) (o : Observation) : list Command * Observation :=
  if status then
    let '(started, state) := ObserveState Environ runCommand hook parse_state r in
    (started, match state with
    | Err _ => failing o "state_read_failed" "read" "state could not be observed" "check backend access and runtime compatibility"
    | Ok s => observed_state o (state_name s) (so_Resources s) (so_Outputs s)
    end)
  else
    let '(started, outputs) := read_outputs r in
    (started, match outputs with
    | Err _ => failing o "output_read_failed" "read" "outputs could not be observed" "check backend access and runtime compatibility"
    | Ok outputs => observed_outputs o (mark_sensitive schema outputs)
    end).

Definition read_node (name : string) (n : GNode) (status : bool) (o : Observation) : list Command * Observation :=
  match prepare name n o with
  | inl failed => ([], failed)
  | inr (schema, env, o) =>
    let r := reader name env in
    match initialize n schema r o with
    | (started, inl failed) => (started, failed)
    | (started, inr _) => let '(started', o) := observe status schema r o in (started ++ started', o)
    end
  end.

(** [Read] of a node of the graph, with the processes it starts and the plugin
    events it emits; [plugins] is the answer to the first of them, when there
    are plugins. *)
Definition Read (plugins : option (result unit)) (name : string) (status : bool) :
    option (list Command * Observation * list (string * string)) :=
  n ← engine_node e name;
  let o := MkObservation name (runtimeFor e name) "" "" "indeterminate" None 0 0 None in
  Some match plugins with
       | None => (read_node name n status o, [])
       | Some (Err _) =>
         let o := observationFailure o "plugin_failed" "prepare" "plugin rejected observation preparation" "review the plugin policy and diagnostics" in
         ([], o, [("node.prepare", ""); ("node.finished", ob_State o)])
       | Some (Ok _) =>
         let '(started, o) := read_node name n status o in (started, o, [("node.prepare", ""); ("node.finished", ob_State o)])
       end.
End Runtime.
End Read.
