(* ===== verification/ObserveProofs.v ===== *)
(** What observation guarantees (for Observe.v): the runtime is started only
    to read, in the session's private directory and with no argument or
    logging override a user configured; an unavailable observation says why. *)
From S2P Require Import Prelude GoLib Blueprint Module Graph Backend Gate Values Runner Engine Observe.

(** ** Environments *)

Section Env.
Context `{HostEnvironment}.

Lemma lookup_env_append l l' name : lookup_env (l ++ l') name = match lookup_env l' name with Some v => Some v | None => lookup_env l name end.
Proof.
  induction l' as [|entry l' IH] using rev_ind; [by rewrite app_nil_r|].
  unfold lookup_env in *. rewrite (assoc_L (++)), (foldl_app _ (l ++ l')), (foldl_app _ l'). cbn [foldl]. destruct (cut "=" entry) as [[key item] ok].
  destruct (ok && environmentKeyEqual key name); [done|exact IH].
Qed.

Lemma lookup_env_elem l name v : lookup_env l name = Some v → ∃ entry, entry ∈ l ∧
  (cut "="%char entry).2 = true ∧ environmentKeyEqual (env_name entry) name = true ∧ env_value entry = v.
Proof.
  induction l as [|entry l IH] using rev_ind; [done|]. rewrite lookup_env_append. unfold lookup_env at 1. cbn [foldl].
  destruct (cut "=" entry) as [[key item] ok] eqn:Hc. destruct (ok && environmentKeyEqual key name) eqn:Hb.
  - apply andb_true_iff in Hb as [-> Hk]. intros [= <-]. exists entry. unfold env_name, env_value. rewrite Hc.
    split_and!; [apply elem_of_app; right; by left|done..].
  - intros Hl. destruct (IH Hl) as (en & Hin & Hrest). exists en. split; [apply elem_of_app; by left|done].
Qed.

Lemma lookup_env_some l name entry : entry ∈ l → (cut "="%char entry).2 = true → environmentKeyEqual (env_name entry) name = true →
  is_Some (lookup_env l name).
Proof.
  induction l as [|en l IH] using rev_ind; [by intros ?%elem_of_nil|]. rewrite lookup_env_append. unfold lookup_env at 1. cbn [foldl].
  intros [Hin|Hin]%elem_of_app Hok Hk.
  - destruct (cut "=" en) as [[key item] ok]. destruct (ok && environmentKeyEqual key name); [by eexists|]. by apply IH.
  - apply list_elem_of_singleton in Hin as <-. unfold env_name in Hk. destruct (cut "=" entry) as [[key item] ok].
    simpl in *. rewrite Hok, Hk. by eexists.
Qed.

(** Names whose entries are unambiguous hold no separator. *)
Definition plain (key : string) : Prop := (cut "="%char key).2 = false.

Lemma plain_name key : plain key → env_name key = key.
Proof.
  unfold plain, env_name. induction key as [|c key IH]; [done|]. cbn [cut]. destruct (Ascii.eqb c "="); [done|].
  destruct (cut "=" key) as [[x y] ok]. simpl in *. intros Hk. by rewrite (IH Hk).
Qed.

Lemma env_name_plain entry : plain (env_name entry).
Proof.
  unfold plain, env_name. induction entry as [|c entry IH]; [done|]. cbn [cut]. destruct (Ascii.eqb c "=") eqn:Hc; [done|].
  destruct (cut "=" entry) as [[x y] ok]. simpl in *. rewrite Hc. by destruct (cut "=" x) as [[x' y'] ok'].
Qed.

Lemma entry_parts key v : plain key → let entry := key +:+ "=" +:+ v in
  (cut "="%char entry).2 = true ∧ env_name entry = key ∧ env_value entry = v.
Proof.
  intros Hk entry. unfold entry. rewrite env_name_entry, env_value_entry, plain_name by done. split_and!; [|done..].
  change ("=" +:+ v) with (String "=" v). by rewrite (cut_entry "=" key v).
Qed.

(** A credential of another name changes nothing a name is looked up as. *)
Lemma override_other l kv name : to_upper (env_name kv.1) ≠ to_upper name → env_name kv.1 = kv.1 →
  lookup_env (override_env l kv) name = lookup_env l name.
Proof.
  intros Hk Hp. unfold override_env. rewrite lookup_env_later; [apply lookup_env_filter|].
  - intros entry He. unfold EqualFold. apply bool_decide_eq_false. rewrite He. intros Heq. apply Hk. by rewrite Hp.
  - intros entry ->%list_elem_of_singleton. by rewrite env_name_entry.
Qed.

Lemma with_credentials_other `{MapOrder} Environ credentials cmd env name : cm_Env cmd = Some env →
  (∀ k, is_Some (credentials !! k) → to_upper (env_name k) ≠ to_upper name ∧ env_name k = k) →
  ∃ env', cm_Env (with_credentials Environ credentials cmd) = Some env' ∧ lookup_env env' name = lookup_env env name.
Proof.
  intros He Hc. unfold with_credentials. case_decide; [by exists env|]. simpl. rewrite He. simpl. eexists. split; [done|].
  assert (∀ kv, kv ∈ range credentials → to_upper (env_name kv.1) ≠ to_upper name ∧ env_name kv.1 = kv.1) as Hall.
  { intros [k v] Hkv%range_elem. apply Hc. by eexists. }
  clear Hc. induction (range credentials) as [|kv l IH] using rev_ind; [done|]. rewrite foldl_app. cbn [foldl].
  destruct (Hall kv) as [Hk Hp]; [apply elem_of_app; right; by left|]. rewrite override_other by done. apply IH.
  intros kv' Hkv'. apply Hall, elem_of_app. by left.
Qed.
End Env.

(** ** Names a credential may have *)

Lemma has_prefix_split s p : has_prefix s p = true → ∃ rest, s = p +:+ rest.
Proof.
  unfold has_prefix. intros [l Hl]%prefix_chars. exists (of_chars l). apply chars_inj. rewrite chars_app, Hl. f_equal.
  clear. induction l as [|c l IH]; [done|]. simpl. by f_equal.
Qed.

Lemma allowed_plain k : CredentialEnvironmentAllowed k = true → env_name k = k.
Proof.
  unfold CredentialEnvironmentAllowed. destruct (env_identifier (to_upper k)) eqn:Hid; [|done]. intros _. unfold env_name.
  rewrite cut_absent; [done|]. intros Hin.
  assert (forallb (λ d, is_upper d || is_digit d || is_underscore d) (chars (to_upper k)) = true) as Hall.
  { destruct (to_upper k) as [|c s] eqn:Hk; [done|]. simpl in Hid |- *. apply andb_true_iff in Hid as [Hc Hs].
    rewrite Hs, andb_true_r. apply orb_true_iff in Hc as [->| ->]; [done|]. by rewrite orb_true_r. }
  by apply (upper_forall _ _ Hall) in Hin.
Qed.

Lemma upper_idemp s : to_upper (to_upper s) = to_upper s.
Proof.
  induction s as [|c s IH]; [done|]. simpl. rewrite IH. f_equal. clear. destruct c as [[] [] [] [] [] [] [] []]; reflexivity.
Qed.

Lemma override_not_allowed k : runtime_override k = true → CredentialEnvironmentAllowed k = false.
Proof.
  unfold runtime_override, CredentialEnvironmentAllowed. intros [Hp|Hp]%orb_true_iff; apply has_prefix_split in Hp as [rest ->];
    destruct (env_identifier _); by vm_compute.
Qed.

Lemma override_upper a b : to_upper a = to_upper b → runtime_override a = runtime_override b.
Proof. unfold runtime_override. by intros ->. Qed.

Lemma allowed_upper a b : to_upper a = to_upper b → CredentialEnvironmentAllowed a = CredentialEnvironmentAllowed b.
Proof. unfold CredentialEnvironmentAllowed. by intros ->. Qed.

(** ** The cleaned environment *)

Section Clean.
Context `{HostEnvironment} `{MapOrder} (Environ : list string).

Notation blank := (λ (m : gmap string string) key, if runtime_override key then <[key := ""]> m else m).

Lemma blanked (l : list string) m k : foldl blank m l !! k = if bool_decide (k ∈ l) && runtime_override k then Some "" else m !! k.
Proof.
  induction l as [|x l IH] using rev_ind; [done|]. rewrite foldl_app. cbn [foldl]. destruct (decide (k = x)) as [->|Hne].
  - rewrite bool_decide_true by (apply elem_of_app; right; by left). destruct (runtime_override x); [by rewrite lookup_insert_eq|].
    by rewrite IH, andb_false_r.
  - assert (bool_decide (k ∈ l ++ [x]) = bool_decide (k ∈ l)) as ->.
    { apply bool_decide_ext. rewrite elem_of_app, list_elem_of_singleton. naive_solver. }
    destruct (runtime_override x); [by rewrite lookup_insert_ne|done].
Qed.

Definition inherited (base : gmap string string) : gmap string string := foldl blank base (env_name <$> Environ).

Lemma clean_env_eq base : clean_env Environ base =
  <["TF_WORKSPACE" := "default"]> (foldl blank (inherited base) (fst <$> range (inherited base))).
Proof.
  unfold clean_env, inherited. f_equal. assert (∀ l m, foldl (λ m entry, blank m (env_name entry)) m l = foldl blank m (env_name <$> l)) as Hf.
  { intros l. induction l as [|x l IH]; intros m; [done|]. apply IH. }
  by rewrite !Hf.
Qed.

Lemma clean_env_override base k : runtime_override k = true → k ≠ "TF_WORKSPACE" → is_Some (clean_env Environ base !! k) →
  clean_env Environ base !! k = Some "".
Proof.
  intros Hk Hw. rewrite clean_env_eq, lookup_insert_ne by done. rewrite blanked, Hk, andb_true_r. case_bool_decide as Hin; [done|].
  intros [v Hv]. destruct Hin. apply list_elem_of_fmap. exists (k, v). split; [done|]. by apply range_elem.
Qed.

Lemma clean_env_inherited base entry : entry ∈ Environ → runtime_override (env_name entry) = true → env_name entry ≠ "TF_WORKSPACE" →
  clean_env Environ base !! env_name entry = Some "".
Proof.
  intros Hin Hk Hw. apply clean_env_override; [done..|]. rewrite clean_env_eq, lookup_insert_ne by done. rewrite blanked, Hk, andb_true_r.
  case_bool_decide; [by eexists|]. unfold inherited. rewrite blanked, Hk, andb_true_r.
  rewrite bool_decide_true by (apply list_elem_of_fmap; by exists entry). by eexists.
Qed.

(** A name that is not unambiguous was in the node's own environment. *)
Lemma clean_env_plain base k : (is_Some (base !! k) → plain k) → is_Some (clean_env Environ base !! k) → plain k.
Proof.
  intros Hb. rewrite clean_env_eq. destruct (decide (k = "TF_WORKSPACE")) as [->|Hne]; [done|]. rewrite lookup_insert_ne by done.
  assert (is_Some (inherited base !! k) → plain k) as Hi.
  { unfold inherited. rewrite blanked. case_bool_decide as Hin; [|exact Hb].
    intros _. apply list_elem_of_fmap in Hin as (entry & -> & _). apply env_name_plain. }
  rewrite blanked. case_bool_decide as Hin; [|apply Hi]. intros _. apply Hi.
  apply list_elem_of_fmap in Hin as ([k' v] & -> & Hin%range_elem). by eexists.
Qed.

Lemma override_not_workspace k : runtime_override k = true → k ≠ "TF_WORKSPACE".
Proof. intros Hk ->. by vm_compute in Hk. Qed.

(** No name of a node's environment holds a separator after a name that the
    host takes for [key]. *)
Definition unhidden (base : gmap string string) (key : string) : Prop :=
  ∀ k, is_Some (base !! k) → environmentKeyEqual (env_name k) key = true → plain k.

(** What the process sees of an override is empty. *)
Lemma override_blank base data_dir key : unhidden base key → runtime_override key = true →
  default "" (lookup_env (Environ ++ ["TF_DATA_DIR=" +:+ data_dir] ++ env_entries (clean_env Environ base)) key) = "".
Proof.
  intros Hplain Hkey. rewrite (assoc_L (++)), lookup_env_append.
  destruct (lookup_env (env_entries _) key) as [v|] eqn:Hl.
  - apply lookup_env_elem in Hl as (entry & (k & v' & Hk & ->)%env_entries_elem & _ & Heq & Hv). simpl.
    rewrite env_name_entry in Heq. assert (plain k) as Hpk by (apply (clean_env_plain base); [intros Hb; by apply Hplain|by eexists]).
    destruct (entry_parts k v' Hpk) as (_ & _ & Hval). rewrite plain_name in Heq by done. rewrite Hval in Hv. subst v'.
    apply key_equal_fold in Heq.
    assert (runtime_override k = true) as Hko by (by rewrite (override_upper _ _ Heq)).
    rewrite clean_env_override in Hk; [by injection Hk|done|by apply override_not_workspace|by eexists].
  - destruct (lookup_env (Environ ++ _) key) as [v|] eqn:Hl2; [|done]. exfalso.
    apply lookup_env_elem in Hl2 as (entry & Hin & Hok & Heq & _). pose proof (key_equal_fold _ _ Heq) as Hup.
    assert (runtime_override (env_name entry) = true) as Hko by (by rewrite (override_upper _ _ Hup)).
    apply elem_of_app in Hin as [Hin|Hin].
    + pose proof (clean_env_inherited base entry Hin Hko (override_not_workspace _ Hko)) as Hc.
      destruct (entry_parts (env_name entry) "" (env_name_plain entry)) as (Hok' & Hname & _).
      destruct (lookup_env_some (env_entries (clean_env Environ base)) key (env_name entry +:+ "=" +:+ "")) as [v' Hv'];
        [|done|by rewrite Hname|congruence].
      apply env_entries_elem. exists (env_name entry), "". done.
    + apply list_elem_of_singleton in Hin as ->. change (env_name ("TF_DATA_DIR=" +:+ data_dir)) with (env_name ("TF_DATA_DIR" +:+ "=" +:+ data_dir)) in Hko. rewrite env_name_entry in Hko. by vm_compute in Hko.
Qed.

Lemma workspace_default base data_dir : unhidden base "TF_WORKSPACE" → (∀ a b, environmentKeyEqual a b = true → a = b) →
  lookup_env (Environ ++ ["TF_DATA_DIR=" +:+ data_dir] ++ env_entries (clean_env Environ base)) "TF_WORKSPACE" = Some "default".
Proof.
  intros Hplain Hexact. rewrite (assoc_L (++)), lookup_env_append. assert (clean_env Environ base !! "TF_WORKSPACE" = Some "default") as Hw
    by (by rewrite clean_env_eq, lookup_insert_eq).
  destruct (lookup_env_some (env_entries (clean_env Environ base)) "TF_WORKSPACE" ("TF_WORKSPACE" +:+ "=" +:+ "default")) as [v Hv].
  { apply env_entries_elem. by exists "TF_WORKSPACE", "default". }
  { done. }
  { apply key_equal_refl. }
  rewrite Hv. apply lookup_env_elem in Hv as (entry & (k & v' & Hk & ->)%env_entries_elem & _ & Heq & Hval).
  rewrite env_name_entry in Heq. assert (plain k) as Hpk by (apply (clean_env_plain base); [intros Hb; by apply Hplain|by eexists]).
  destruct (entry_parts k v' Hpk) as (_ & _ & Hval'). rewrite plain_name in Heq by done. apply Hexact in Heq as ->. rewrite Hval' in Hval. congruence.
Qed.
End Clean.

(** ** Only reading *)

Section ReadOnly.
Context `{HostEnvironment} `{MapOrder} `{Semver}.
Context (Environ : list string) (Getenv : string → string) (hook : option RuntimeHook).
Context (terraform_version : string → option string) (minimum : version) (digest : string → string).
Context (parse_state : string → result (state_document * bool)) (parse_outputs_json : string → result (RunOutputs * bool)).
Context (regular : string → bool) (cancelled : string → bool).
Context (e : Engine) (dir : string).

(** The commands that change neither state nor infrastructure nor the lock file. *)
Inductive reading_args : list string → Prop :=
  | reads_version : reading_args ["version"; "-json"]
  | reads_init cfg : reading_args (["init"; "-input=false"; "-lockfile=readonly"; "-reconfigure"] ++ backend_flags cfg)
  | reads_state : reading_args ["state"; "pull"]
  | reads_outputs : reading_args ["output"; "-json"].

(** A reading command of a node: in the node's directory, with the session's
    data directory, and with every runtime override empty but one that hides
    before the separator in a name of the blueprint. *)
Definition reading (name : string) (n : GNode) (cmd : Command) : Prop :=
  cm_Binary cmd = runtimeFor e name ∧ cm_Dir cmd = nodeDir e name ∧ reading_args (cm_Args cmd) ∧
  ∃ env, cm_Env cmd = Some env ∧ lookup_env env "TF_DATA_DIR" = Some (Join [dir; name]) ∧
    (∀ key, runtime_override key = true → unhidden (n_Env n) key → default "" (lookup_env env key) = "") ∧
    ((∀ a b, environmentKeyEqual a b = true → a = b) → unhidden (n_Env n) "TF_WORKSPACE" → lookup_env env "TF_WORKSPACE" = Some "default").

(** Providers supply only the credential names they may. *)
Definition hook_allowed : Prop := ∀ h op ha, hook = Some h → h op = Ok ha → ∀ k, is_Some (ha_env ha !! k) → CredentialEnvironmentAllowed k = true.

Lemma allowed_other k name : CredentialEnvironmentAllowed k = true → CredentialEnvironmentAllowed name = false →
  to_upper (env_name k) ≠ to_upper name ∧ env_name k = k.
Proof.
  intros Hk Hn. rewrite (allowed_plain _ Hk). split; [|done]. intros Heq%allowed_upper. congruence.
Qed.

Lemma Clean_nonempty p : Clean p ≠ "".
Proof.
  unfold Clean. set (l := clean_components (isAbs p) (split_on slash p)). destruct (isAbs p); [done|].
  assert (clean_stack false (rev l)) as Hl by apply clean_components_ok. destruct l as [|c l]; [done|].
  assert (c ≠ "") as Hc.
  { assert (∀ s, clean_stack false s → ∀ x, x ∈ s → x ≠ "") as Hall.
    { induction 1 as [n _|x s Hx1 Hx2 Hx3 _ IH]; intros y; [by intros [-> _]%elem_of_replicate|].
      by intros [->|Hy]%elem_of_cons; [|apply IH]. }
    apply (Hall _ Hl). simpl. apply elem_of_app. right. by left. }
  destruct c as [|a c]; [done|]. by destruct l.
Qed.

Lemma Join_nonempty d name : d ≠ "" → Join [d; name] ≠ "".
Proof. destruct d as [|c d]; [done|]. intros _. apply Clean_nonempty. Qed.

Lemma reader_reads name n args cmd creds : dir ≠ "" → reading_args args → new_command Environ (reader e dir name (clean_env Environ (n_Env n))) args = Ok cmd →
  (∀ k, is_Some (creds !! k) → CredentialEnvironmentAllowed k = true) → reading name n (with_credentials Environ creds cmd).
Proof.
  intros Hdir Hargs Hcmd Hcred. set (r := reader e dir name _) in *.
  assert (rn_DataDir r = Join [dir; name]) as Hdata by done. assert (rn_DataDir r ≠ "") as Hne by (rewrite Hdata; by apply Join_nonempty).
  pose proof Hcmd as Hnew. unfold new_command, env in Hcmd. rewrite (bool_decide_false _ Hne), (decide_True _ _ Hne) in Hcmd. cbn [andb] in Hcmd.
  apply result_bind_Ok in Hcmd as (oe & Hoe & [= <-]). apply result_bind_Ok in Hoe as ([] & _ & [= <-]).
  set (base := Environ ++ _) in *. set (cmd := MkCommand _ _ _ _) in *.
  pose proof (data_dir_isolated Environ r args creds Hne Hcred) as Hd. rewrite Hnew in Hd. destruct Hd as (env & He & Hd).
  assert (∀ name, CredentialEnvironmentAllowed name = false → lookup_env env name = lookup_env base name) as Hsame.
  { intros nm Hnm. destruct (with_credentials_other Environ creds cmd base nm eq_refl) as (env' & He' & Hl).
    - intros k Hk. apply allowed_other; [by apply Hcred|done].
    - rewrite He in He'. by injection He' as <-. }
  assert (cm_Binary (with_credentials Environ creds cmd) = cm_Binary cmd ∧ cm_Dir (with_credentials Environ creds cmd) = cm_Dir cmd ∧
    cm_Args (with_credentials Environ creds cmd) = cm_Args cmd) as (Hb & Hdr & Ha) by (unfold with_credentials; by case_decide).
  unfold reading. rewrite Hb, Hdr, Ha. split_and!; [done..|]. exists env. split_and!; [done|by rewrite Hd, Hdata|..].
  - intros key Hkey Hun. rewrite Hsame by by apply override_not_allowed. by apply override_blank.
  - intros Hexact Hun. rewrite Hsame by done. by apply workspace_default.
Qed.

(** *** What is started *)

Definition starts {A} (P : Command → Prop) (m : list Command * A) : Prop := ∀ cmd, cmd ∈ m.1 → P cmd.

Lemma starts_nothing {A} P (r : result A) : starts P (nothing_started r).
Proof. by intros cmd Hc%elem_of_nil. Qed.
Lemma starts_wrap {A} P f (m : Ran A) : starts P m → starts P (wrap_ran f m).
Proof. done. Qed.
Lemma starts_bind {A B} P (m : Ran A) (f : A → Ran B) : starts P m → (∀ a, starts P (f a)) → starts P (m ≫= f).
Proof.
  intros Hm Hf. unfold mbind, Ran_bind. destruct m as [st [a|]]; [|exact Hm]. specialize (Hf a). destruct (f a) as [st' r].
  intros cmd [Hc|Hc]%elem_of_app; [by apply Hm|by apply Hf].
Qed.
Lemma starts_step {A B} P (m : reading_step A) (f : A → reading_step B) : starts P m → (∀ a, starts P (f a)) → starts P (reading_bind _ _ f m).
Proof.
  intros Hm Hf. unfold reading_bind. destruct m as [st [o|a]]; [exact Hm|]. specialize (Hf a). destruct (f a) as [st' r].
  intros cmd [Hc|Hc]%elem_of_app; [by apply Hm|by apply Hf].
Qed.

(** Running a command line starts that command, with the provider's credentials, or nothing. *)
Lemma output_of_starts (P : Command → Prop) rc r args : hook_allowed →
  (∀ cmd creds, new_command Environ r args = Ok cmd → (∀ k, is_Some (creds !! k) → CredentialEnvironmentAllowed k = true) →
     P (with_credentials Environ creds cmd)) → starts P (output_of Environ rc hook r args).
Proof.
  intros Hh HP. unfold output_of. destruct (new_command Environ r args) as [cmd|] eqn:Hc; [|by intros c Hin%elem_of_nil].
  simpl. unfold execute. destruct hook as [h|] eqn:Hhook.
  - destruct (h (operation_of (cm_Args cmd))) as [ha|] eqn:Hha; [|by intros c Hin%elem_of_nil].
    intros c Hin%list_elem_of_singleton. subst c. apply HP; [done|]. by eapply Hh.
  - intros c Hin%list_elem_of_singleton. subst c. rewrite <-(decide_True (P := (∅ : gmap string string) = ∅) cmd cmd) by done.
    pose proof (HP cmd ∅ eq_refl) as H0'. unfold with_credentials in H0'. rewrite decide_True in H0' by done. rewrite decide_True by done.
    apply H0'. intros k [v Hv]. by rewrite lookup_empty in Hv.
Qed.

Lemma starts_initialize P rc n schema r o :
  starts P (output_of Environ rc hook r ["version"; "-json"]) →
  starts P (output_of Environ rc hook r (["init"; "-input=false"; "-lockfile=readonly"; "-reconfigure"] ++ backend_flags (bn_BackendConfig (n_Node n)))) →
  starts P (initialize Environ hook terraform_version minimum cancelled rc n schema r o).
Proof.
  intros Hv Hi. unfold initialize. apply starts_step; [by intros cmd Hc%elem_of_nil|intros _]. apply starts_step; [|intros _].
  - destruct (s_RequiresTofuFiles schema); [|by intros cmd Hc%elem_of_nil]. unfold starts, require_ran. cbn [fst].
    apply starts_bind; [by apply starts_wrap|intros a; apply starts_nothing].
  - unfold starts, require_ran. cbn [fst]. unfold InitRead, run. rewrite app_nil_r. apply starts_bind; [exact Hi|intros a; apply (starts_nothing P (Ok tt))].
Qed.

Lemma starts_observe P rc status schema r o : starts P (output_of Environ rc hook r ["state"; "pull"]) →
  starts P (output_of Environ rc hook r ["output"; "-json"]) →
  starts P (observe Environ hook parse_state parse_outputs_json cancelled rc status schema r o).
Proof.
  intros Hs Ho. unfold observe. destruct status.
  - assert (starts P (ObserveState Environ rc hook parse_state r)) as H'
      by (apply starts_bind; [by apply starts_wrap|intros a; apply starts_nothing]).
    by destruct (ObserveState Environ rc hook parse_state r).
  - assert (starts P (read_outputs Environ hook parse_outputs_json rc r)) as H'
      by (apply starts_bind; [by apply starts_wrap|intros a; apply starts_nothing]).
    by destruct (read_outputs Environ hook parse_outputs_json rc r).
Qed.

Lemma goes_on {A B} (m : Observation + A) (f : A → Observation + B) b : step_bind _ _ f m = inr b → ∃ a, m = inr a ∧ f a = inr b.
Proof. destruct m as [o|a]; [done|]. intros Hf. by exists a. Qed.

Lemma prepare_env name n o schema env o' :
  prepare Environ Getenv digest regular cancelled e name n o = inr (schema, env, o') → env = clean_env Environ (n_Env n).
Proof.
  unfold prepare. intros (u & _ & Hp)%goes_on. destruct (n_Schema n) as [sc|]; [|done]. destruct (n_ObservationError n); [done|].
  apply goes_on in Hp as (u1 & _ & Hp). destruct (EnvironmentValue _ _ _) as [w|]; [|done].
  apply goes_on in Hp as (u2 & _ & Hp). apply goes_on in Hp as (u3 & _ & Hp). apply goes_on in Hp as (id & _ & Hp).
  apply goes_on in Hp as (u4 & _ & Hp). by injection Hp.
Qed.

Notation Read rc := (Read Environ Getenv hook terraform_version minimum digest parse_state parse_outputs_json regular cancelled e dir rc).

(** C26: observing only reads.  Whatever happens, the processes an observation
    starts for a node are [version], a read-only [init], [state pull] and
    [output], in the node's directory with the session's own data directory.
    The runtime arguments and the logging a user or the blueprint configured
    reach them emptied, and on hosts that tell names apart by case they run in
    the default workspace, whatever the inherited environment and whatever
    credentials a provider may supply; except for a name that a blueprint's env
    spells with an equals sign inside, whose part before the sign it sets. *)
Theorem observation_reads_only rc plugins name status n started o events : dir ≠ "" → hook_allowed →
  engine_node e name = Some n → Read rc plugins name status = Some (started, o, events) →
  ∀ cmd, cmd ∈ started → reading name n cmd.
Proof.
  intros Hdir Hhook Hn. unfold Observe.Read. rewrite Hn. simpl.
  assert (∀ o, starts (reading name n)
    (read_node Environ Getenv hook terraform_version minimum digest parse_state parse_outputs_json regular cancelled e dir rc name n status o)) as Hread.
  { intros o0. unfold read_node. destruct (prepare _ _ _ _ _ _ name n o0) as [failed|[[schema env] o']] eqn:Hp; [by intros cmd Hc%elem_of_nil|].
    assert (env = clean_env Environ (n_Env n)) as -> by by eapply prepare_env.
    assert (∀ args, reading_args args → starts (reading name n) (output_of Environ rc hook (reader e dir name (clean_env Environ (n_Env n))) args)) as Hout.
    { intros args Hargs. apply output_of_starts; [done|]. intros cmd creds Hc Hcr. by eapply reader_reads. }
    pose proof (starts_initialize (reading name n) rc n schema (reader e dir name (clean_env Environ (n_Env n))) o'
      (Hout _ reads_version) (Hout _ (reads_init _))) as Hi.
    pose proof (starts_observe (reading name n) rc status schema (reader e dir name (clean_env Environ (n_Env n))) o'
      (Hout _ reads_state) (Hout _ reads_outputs)) as Ho.
    destruct (initialize _ _ _ _ _ _ _ _ _ _) as [st [failed|u]]; [exact Hi|]. destruct (observe _ _ _ _ _ _ _ _ _ _) as [st' ob].
    intros cmd [Hc|Hc]%elem_of_app; [by apply Hi|by apply Ho]. }
  intros Hr cmd Hc. apply (Hread (MkObservation name (runtimeFor e name) "" "" "indeterminate" None 0 0 None)).
  revert Hr. destruct plugins as [[u|err]|]; [|intros [= <- _ _]; by apply elem_of_nil in Hc|]; destruct (read_node _ _ _ _ _ _ _ _ _ _ _ _ _ _ _ _ _) as [st ob];
    by intros [= <- _ _].
Qed.
End ReadOnly.

(** ** What an observation says *)

Section Outcome.
Context `{HostEnvironment} `{MapOrder} `{Semver}.
Context (Environ : list string) (Getenv : string → string) (hook : option RuntimeHook).
Context (terraform_version : string → option string) (minimum : version) (digest : string → string).
Context (parse_state : string → result (state_document * bool)) (parse_outputs_json : string → result (RunOutputs * bool)).
Context (regular : string → bool) (cancelled : string → bool).
Context (e : Engine) (dir : string) (runCommand : Command → runtime_answer).

(** Unavailable, with a diagnostic of this node and no evidence. *)
Definition explained (name : string) (o : Observation) : Prop :=
  ob_State o = "unavailable" ∧ ob_Outputs o = None ∧ ∃ d, ob_Diagnostic o = Some d ∧ dg_Subject d = "node." +:+ name.

(** Read, without a diagnostic: the state was summarised, or the outputs are
    there with every output the module declares sensitive marked. *)
Definition read_from (n : GNode) (status : bool) (o : Observation) : Prop :=
  ob_Diagnostic o = None ∧
  if status then ob_Outputs o = None ∧ ob_State o ∈ ["absent"; "present"; "empty"; "indeterminate"] ∧
                 (ob_State o = "empty" → ob_Resources o = 0 ∧ ob_OutputCount o = 0)
  else ob_State o = "observed" ∧ ∃ outputs, ob_Outputs o = Some outputs ∧
       ∀ schema key d out, n_Schema n = Some schema → s_OutputDetails schema !! key = Some d → o_Sensitive d = true →
         outputs !! key = Some out → ro_Sensitive out = Some true.

(** An observation that has found nothing yet. *)
Definition pending (name : string) (o : Observation) : Prop := ob_Node o = name ∧ ob_Outputs o = None ∧ ob_Diagnostic o = None.

Lemma failing_explained name o code phase message remedy : pending name o → explained name (failing cancelled o code phase message remedy).
Proof. intros (Hn & Ho & _). unfold failing. rewrite <-Hn. destruct (cancelled code); (split; [done|split; [done|]]); eexists; split; done. Qed.

Lemma require_cases name o b code phase message remedy : pending name o →
  (∃ f, require cancelled o b code phase message remedy = inl f ∧ explained name f) ∨
  require cancelled o b code phase message remedy = inr tt.
Proof. intros Ho. unfold require. destruct b; [by right|]. left. eexists. split; [done|by apply failing_explained]. Qed.

(** The next requirement fails, and explains, or is met. *)
Ltac next_requirement :=
  match goal with |- context [require ?c ?o ?b ?k ?p ?m ?r] =>
    destruct (require_cases _ o b k p m r ltac:(eassumption)) as [(? & -> & ?)| ->]; [left; by eexists|] end.

Lemma prepare_cases name n o : pending name o →
  (∃ f, prepare Environ Getenv digest regular cancelled e name n o = inl f ∧ explained name f) ∨
  (∃ schema env o', prepare Environ Getenv digest regular cancelled e name n o = inr (schema, env, o') ∧ n_Schema n = Some schema ∧ pending name o').
Proof.
  intros Ho. unfold prepare. next_requirement. cbn [mbind step_bind].
  destruct (n_Schema n) as [schema|]; [|left; eexists; split; [done|by apply failing_explained]].
  destruct (n_ObservationError n); [left; eexists; split; [done|by apply failing_explained]|].
  assert (pending name (with_backend o (or_else (s_Backend schema) "local"))) as Hb by exact Ho. next_requirement. cbn [mbind step_bind].
  destruct (EnvironmentValue _ _ _) as [w|]; [|left; eexists; split; [done|by apply failing_explained]].
  next_requirement. cbn [mbind step_bind]. next_requirement. cbn [mbind step_bind].
  assert ((∃ f, state_identity Getenv regular cancelled n schema (clean_env Environ (n_Env n)) (with_backend o (or_else (s_Backend schema) "local")) = inl f ∧ explained name f) ∨
    ∃ id, state_identity Getenv regular cancelled n schema (clean_env Environ (n_Env n)) (with_backend o (or_else (s_Backend schema) "local")) = inr id)
    as [(f & -> & Hf)|[id ->]].
  { unfold state_identity. case_decide; [|right; by eexists]. destruct (localStatePath Getenv n); [|left; eexists; split; [done|by apply failing_explained]].
    next_requirement. right. by eexists. }
  { left. by exists f. }
  cbn [mbind step_bind]. match goal with |- context [with_identity ?o ?i] => assert (pending name (with_identity o i)) as Hi by exact Ho end.
  next_requirement. cbn [mbind step_bind]. right. by eexists _, _, _.
Qed.

Lemma reading_bind_snd {A B} (m : reading_step A) (f : A → reading_step B) :
  (reading_bind _ _ f m).2 = match m.2 with inl o => inl o | inr a => (f a).2 end.
Proof. destruct m as [st [o|a]]; [done|]. simpl. by destruct (f a). Qed.

(** Every observation is explained or read. *)
Lemma read_node_outcome name n status o : pending name o →
  let o' := (read_node Environ Getenv hook terraform_version minimum digest parse_state parse_outputs_json regular cancelled e dir runCommand name n status o).2 in
  explained name o' ∨ read_from n status o'.
Proof.
  intros Ho o'. unfold o', read_node. destruct (prepare_cases name n o Ho) as [(f & -> & Hf)|(schema & env & o1 & -> & Hs & Ho1)]; [by left|].
  assert (∀ r, (∃ f, (initialize Environ hook terraform_version minimum cancelled runCommand n schema r o1).2 = inl f ∧ explained name f) ∨
    (initialize Environ hook terraform_version minimum cancelled runCommand n schema r o1).2 = inr tt) as Hinit.
  { intros r. unfold initialize, mbind. rewrite !reading_bind_snd. unfold no_process, require_ran. cbn [snd]. next_requirement.
    destruct (s_RequiresTofuFiles schema); cbn [snd]; [next_requirement|]; by apply require_cases. }
  destruct (Hinit (reader e dir name env)) as [(f & Hfe & Hf)|Hie].
  { left. destruct (initialize _ _ _ _ _ _ _ _ _ _) as [st r]. simpl in Hfe. by subst r. }
  destruct (initialize _ _ _ _ _ _ _ _ _ _) as [st r]. simpl in Hie. subst r. unfold observe. destruct Ho1 as (Hn1 & Hout1 & Hd1). destruct status.
  - destruct (ObserveState _ _ _ _ _) as [st' [so|]] eqn:Hso; simpl; [|left; by apply failing_explained]. right.
    split; [done|]. split; [done|]. unfold observed_state, state_name. simpl.
    assert (so_Empty so = true → so_Resources so = 0 ∧ so_Outputs so = 0) as Hempty.
    { revert Hso. unfold ObserveState, mbind, Ran_bind. destruct (wrap_ran _ _) as [st0 [out|]]; [|done]. unfold nothing_started.
      intros [= _ Hk]. revert Hk. case_decide; [by intros [= <-]|]. intros ([doc single] & _ & Hk)%result_bind_Ok. destruct (_ || _); [done|]. injection Hk as <-. simpl.
      by intros [?%Nat.eqb_eq ?%Nat.eqb_eq]%andb_true_iff. }
    destruct (so_Present so), (so_Empty so), (so_Determinate so); (split; [set_solver|]); try done; intros _; by apply Hempty.
  - destruct (read_outputs _ _ _ _ _) as [st' [outputs|]] eqn:Hr; simpl; [|left; by apply failing_explained]. right. split; [done|]. split; [done|].
    eexists. split; [done|]. intros schema' key d out Hs' Hd Hsens Hk. rewrite Hs in Hs'. injection Hs' as <-.
    unfold mark_sensitive in Hk. rewrite map_lookup_imap in Hk. destruct (outputs !! key); [|done]. simpl in Hk. rewrite Hd in Hk.
    simpl in Hk. rewrite Hsens in Hk. by injection Hk as <-.
Qed.
End Outcome.

(** ** Sessions *)

(** A session that fails to open gives everything back, the private directory
    before the lock; closing one that opened does the same, once. *)
Lemma failed_session_released a evs err : (∀ d, sa_temp a = Ok d → d ≠ "") → OpenObservation a = (evs, Err err) →
  evs = [] ∨ ∃ before, evs = Locked :: before ++ [Unlocked] ∧ (∀ d, MadeDir d ∈ evs → RemovedDir d ∈ before).
Proof.
  intros Ht. unfold OpenObservation. destruct (sa_load a); [|intros [= <- _]; by left]. simpl. intros H. right.
  destruct (sa_prepare a) as [u|]; [|injection H as <- _; exists [PluginsFinished]; split; [done|]; intros d; set_solver].
  destruct (sa_temp a) as [dir|] eqn:Hd; [|injection H as <- _; exists [PluginsFinished]; split; [done|]; intros d; set_solver].
  destruct (sa_start a); [done|]. unfold CloseSession in H. simpl in H. rewrite (decide_False _ _ (Ht dir eq_refl)) in H. injection H as <- _.
  exists [MadeDir dir; PluginsFinished; RemovedDir dir]. split; [done|]. intros d. set_solver.
Qed.

Lemma closed_session_released a evs s : OpenObservation a = (evs, Ok s) → os_dir s ≠ "" →
  let '(evs', s', _) := CloseSession a s in evs' = [PluginsFinished; RemovedDir (os_dir s); Unlocked] ∧
  (CloseSession a s').1.1 = [PluginsFinished].
Proof.
  unfold OpenObservation. destruct (sa_load a); [|done]. destruct (sa_prepare a); [|done]. destruct (sa_temp a) as [dir|]; [|done].
  destruct (sa_start a); [|done]. intros [= _ <-] Hd. unfold CloseSession. simpl in *. by rewrite (decide_False _ _ Hd).
Qed.

(** ** A node observed *)

Definition observed_engine : Engine := MkEngine "terraform" "/bp" None local_graph.
#[export] Instance no_versions : Semver := {| version := unit; NewSemver _ := Ok tt; LessThan _ _ := false |}.

Definition first_arg (cmd : Command) : string := default "" (head (cm_Args cmd)).
Definition reading_runtime (_ : Command) : runtime_answer := RanOk "state".

Definition observe_a : option (list Command * Observation * list (string * string)) :=
  @Read unix_environment map_order_default no_versions ["TF_CLI_ARGS_init=-upgrade"; "HOME=/root"] (λ _, "") None (λ _, None) tt (λ _, "d")
    (λ _, Ok (MkStateDocument 3 4 [2; 1] 5, true)) (λ _, Err (External "no outputs")) (λ _, true) (λ _, false) observed_engine "/bp/.terragraph/tfdata-read/read-1"
    reading_runtime None "a" true.

Definition local_node : GNode := default (MkGNode (MkNode ∅ ∅ "" "" ∅ None ∅ "" ∅ "") None None "" None ∅ "") (engine_node observed_engine "a").

(** An init and a pull of the state, with the inherited argument emptied. *)
Lemma observation_reads_only_witness : ∃ init pull,
  observe_a = Some ([init; pull], MkObservation "a" "terraform" "local" "sha256:d" "present" None 3 5 None, []) ∧
  first_arg init = "init" ∧ first_arg pull = "state" ∧
  reading (H := unix_environment) observed_engine "/bp/.terragraph/tfdata-read/read-1" "a" local_node init.
Proof.
  eexists _, _. split; [vm_compute; reflexivity|]. split; [reflexivity|]. split; [reflexivity|].
  apply (@observation_reads_only unix_environment map_order_default no_versions ["TF_CLI_ARGS_init=-upgrade"; "HOME=/root"] (λ _, "") None (λ _, None) tt (λ _, "d")
    (λ _, Ok (MkStateDocument 3 4 [2; 1] 5, true)) (λ _, Err (External "no outputs")) (λ _, true) (λ _, false) observed_engine "/bp/.terragraph/tfdata-read/read-1"
    reading_runtime None "a" true local_node (fst (fst (default ([], MkObservation "" "" "" "" "" None 0 0 None, []) observe_a)))
    (MkObservation "a" "terraform" "local" "sha256:d" "present" None 3 5 None) []).
  - discriminate.
  - intros h op ha Hh. discriminate Hh.
  - vm_compute. reflexivity.
  - vm_compute. reflexivity.
  - vm_compute. left.
Defined.

(** A name with a separator in it escapes the cleaning: the process reads the
    rest of the name as the value. *)
Example override_in_a_name :
  let env := clean_env (H0 := map_order_default) [] {["TF_CLI_ARGS_init=-upgrade -input" := "true"]} in
  env !! "TF_CLI_ARGS_init=-upgrade -input" = Some "" ∧
  lookup_env (H := unix_environment) (env_entries env) "TF_CLI_ARGS_init" = Some "-upgrade -input=".
Proof. vm_compute. done. Qed.
