(* ===== verification/Diagnose.v ===== *)
(** What an error is reported as (src/internal/engine/diagnostic.go, with the
    conversions of src/internal/cli/execute.go and observe.go).

    The errors of this file are Go's error values as [Diagnostics] sees them:
    a tree with an identity per value ([None] for a type Go cannot compare)
    and the rendered text of the values whose text is not computed from their
    causes.  [Prelude.error] keeps neither, so it is not used here. *)
From S2P Require Import Prelude GoLib Blueprint Module Graph Backend.

(** ** Diagnostics and errors *)

Record Diagnostic := MkDiagnostic {
  Code : string; Phase : string; Subject : string; Message : string; Remedy : string;
  Category : string; DSeverity : string; RelatedExecutionID : string;
}.
#[export] Instance Diagnostic_eq_dec : EqDecision Diagnostic.
Proof. solve_decision. Defined.

Definition with_Message (d : Diagnostic) (m : string) : Diagnostic :=
  MkDiagnostic (Code d) (Phase d) (Subject d) m (Remedy d) (Category d) (DSeverity d) (RelatedExecutionID d).

(** The sentinels the report tells apart. *)
Inductive sentinel := Canceled | DeadlineExceeded | RunLockHeld | GraphLockHeld | ExecutionConflict | Unclassified.

Inductive goerr :=
  | ELeaf (id : option N) (kind : sentinel) (text : string)
  | EWrap (id : option N) (text : string) (cause : goerr)
  | EJoin (id : option N) (es : list goerr)
  | EWraps (id : option N) (text : string) (es : list goerr)
  | EDiagnostic (id : option N) (d : Diagnostic) (cause : goerr)
  | ECall (id : option N) (code : string) (cause : option goerr)
  | EValidation (id : option N) (problems : list Problem) (cause : goerr).

Definition identity (e : goerr) : option N :=
  match e with
  | ELeaf id _ _ | EWrap id _ _ | EJoin id _ | EWraps id _ _ | EDiagnostic id _ _ | ECall id _ _ | EValidation id _ _ => id
  end.

Definition newline : string := String (Ascii.ascii_of_nat 10) "".

Fixpoint Error (e : goerr) : string :=
  match e with
  | ELeaf _ _ text | EWrap _ text _ | EWraps _ text _ => text
  | EJoin _ es => String.concat newline (map Error es)
  | EDiagnostic _ _ cause | EValidation _ _ cause => Error cause
  | ECall _ code _ => "plugin " +:+ code +:+ ": inspect the plugin configuration and execution outcome before retrying"
  end.

Definition WithDiagnostic (id : option N) (err : option goerr) (d : Diagnostic) : option goerr :=
  err ← err; Some (EDiagnostic id (if decide (Message d = "") then with_Message d (Error err) else d) err).

(** ** The report *)

(** [add]'s defaults, and [add] itself: a diagnostic is reported once. *)
Definition normal (d : Diagnostic) : Diagnostic :=
  MkDiagnostic (Code d) (Phase d) (Subject d) (Message d) (Remedy d)
    (if decide (Category d = "") then "unknown" else Category d)
    (if decide (DSeverity d = "") then "error" else DSeverity d) (RelatedExecutionID d).
Definition add (result : list Diagnostic) (d : Diagnostic) : list Diagnostic :=
  if decide (normal d ∈ result) then result else result ++ [normal d].

Definition skipped (excluded : list goerr) (e : goerr) : bool :=
  match identity e with Some i => existsb (λ x, bool_decide (identity x = Some i)) excluded | None => false end.

Definition or_else (a b : string) : string := if decide (a = "") then b else a.

(** A nested diagnostic takes what it leaves open from the one around it. *)
Definition inherit (d current : Diagnostic) : Diagnostic :=
  MkDiagnostic (Code d) (or_else (Phase d) (Phase current)) (or_else (Subject d) (Subject current)) (Message d) (Remedy d)
    (or_else (Category d) (Category current)) (DSeverity d) (RelatedExecutionID d).

(** What the last cause decides. *)
Definition classify (k : sentinel) (current : Diagnostic) : Diagnostic :=
  match k with
  | Canceled | DeadlineExceeded =>
    if decide (Category current = "record") then current
    else MkDiagnostic "cancelled" (Phase current) (Subject current) (Message current) (Remedy current) "cancelled"
           (DSeverity current) (RelatedExecutionID current)
  | RunLockHeld | GraphLockHeld =>
    MkDiagnostic "lock_held" (Phase current) (Subject current) (Message current) "wait for the current executor to finish before retrying" "lock"
      (DSeverity current) (RelatedExecutionID current)
  | ExecutionConflict =>
    MkDiagnostic "execution_record_conflict" (Phase current) (Subject current) (Message current) (Remedy current) "record"
      (DSeverity current) (RelatedExecutionID current)
  | Unclassified => current
  end.

Definition conclude (k : sentinel) (text : string) (current : Diagnostic) : Diagnostic :=
  let current := classify k current in
  MkDiagnostic (or_else (Code current) "runtime_failed") (Phase current) (Subject current) (or_else (Message current) text)
    (Remedy current) (Category current) (DSeverity current) (RelatedExecutionID current).

(** The context a wrapper passes down. *)
Definition wrapped (text : string) (current : Diagnostic) : Diagnostic :=
  if decide (Message current = "") then with_Message current text else current.

Fixpoint walk (excluded : list goerr) (result : list Diagnostic) (err : goerr) (current : Diagnostic) : list Diagnostic :=
  if skipped excluded err then result
  else match err with
       | EDiagnostic _ d cause => walk excluded result cause (inherit d current)
       | EJoin _ es | EWraps _ _ es =>
         (fix go (result : list Diagnostic) (es : list goerr) : list Diagnostic :=
            match es with
            | [] => result
            | child :: es => go (walk excluded result child (with_Message current "")) es
            end) result es
       | EWrap _ text cause => walk excluded result cause (wrapped text current)
       | EValidation _ _ cause => walk excluded result cause (wrapped (Error err) current)
       | ECall _ _ cause =>
         match cause with Some cause => walk excluded result cause (wrapped (Error err) current) | None => result end
       | ELeaf _ k text => add result (conclude k text current)
       end.

Definition Diagnostics (err : option goerr) (fallback : Diagnostic) (excluded : list goerr) : list Diagnostic :=
  match err with Some err => walk excluded [] err fallback | None => [] end.

(** ** The command line (cli/execute.go, cli/observe.go) *)

Record sourceLocationDTO := MkLocation { File : string; Line : nat; Column : nat }.
Record diagnosticDTO := MkDTO { dto_diagnostic : Diagnostic; dto_Source : option sourceLocationDTO }.

Definition categoryForPhase (phase : string) : string :=
  if mem phase ["arguments"; "selection"; "render"] then "arguments"
  else if mem phase ["load"; "configuration"] then "configuration"
  else if decide (phase = "validation") then "validation"
  else if decide (phase = "policy") then "policy"
  else if decide (phase = "recovery") then "recovery"
  else if mem phase ["record"; "journal"; "history"] then "record"
  else if decide (phase = "artifact") then "artifact"
  else if mem phase ["prepare"; "init"; "inputs"; "plan"; "apply"; "destroy"; "inspect"; "execute"] then "runtime"
  else "unknown".

Definition diagnosticToDTO (d : Diagnostic) : diagnosticDTO :=
  MkDTO (MkDiagnostic (Code d) (Phase d) (Subject d) (Message d) (Remedy d)
    (if decide (Category d = "") then categoryForPhase (Phase d) else Category d)
    (if decide (DSeverity d = "") then "error" else DSeverity d) (RelatedExecutionID d)) None.
Definition diagnosticsToDTO (l : list Diagnostic) : list diagnosticDTO := diagnosticToDTO <$> l.

(** [errors.As] for a [*validationError]: the first in the chain. *)
Fixpoint as_validation (e : goerr) : option (list Problem) :=
  match e with
  | ELeaf _ _ _ => None
  | EWrap _ _ cause | EDiagnostic _ _ cause => as_validation cause
  | EJoin _ es | EWraps _ _ es =>
    (fix go (es : list goerr) : option (list Problem) :=
       match es with
       | [] => None
       | e :: es => match as_validation e with Some problems => Some problems | None => go es end
       end) es
  | ECall _ _ cause => match cause with Some cause => as_validation cause | None => None end
  | EValidation _ problems _ => Some problems
  end.

Section CommandLine.
Context (render : text → string) (errorLocation : goerr → option sourceLocationDTO).

Definition problem_diagnostic (p : Problem) : diagnosticDTO :=
  diagnosticToDTO (MkDiagnostic (or_else (p_Code p) "validation_failed") "validation" (p_Subject p) (render (p_Message p)) (p_Remedy p)
    "validation" (if IsError p then "error" else "warning") "").
Definition problemDiagnostics (problems : list Problem) : list diagnosticDTO := problem_diagnostic <$> problems.

Definition errorDiagnostics (err : goerr) (fallback : Diagnostic) : list diagnosticDTO :=
  match as_validation err with
  | Some problems => problemDiagnostics problems
  | None => (λ o, MkDTO (dto_diagnostic o) (errorLocation err)) <$> diagnosticsToDTO (Diagnostics (Some err) fallback [])
  end.

(** Failures shown beside their nodes are not repeated. *)
Definition run_fallback : Diagnostic := MkDiagnostic "runtime_failed" "execute" "execution" "" "" "runtime" "" "".
Definition runDiagnostics (nodes : list (option goerr)) (err : option goerr) : list diagnosticDTO :=
  diagnosticsToDTO (Diagnostics err run_fallback (omap id nodes)).
End CommandLine.

(** [strings.Cut(s, "=")]. *)
Fixpoint cut_equal (s : string) : string * string * bool :=
  match s with
  | "" => ("", "", false)
  | String c s => if decide (c = "="%char) then ("", s, true)
                  else let '(name, value, found) := cut_equal s in (String c name, value, found)
  end.

(** [jsonRequested] on the arguments of a command that has an output flag;
    [flag] looks a name up as the command does and answers its [NoOptDefVal]. *)
Section JsonRequested.
Context (flag : string → option string).

Fixpoint json_args (args : list string) (selected invalid : bool) : bool :=
  match args with
  | [] => selected && negb invalid
  | arg :: rest =>
    if decide (arg = "--") then selected && negb invalid
    else if mem arg ["--help"; "-h"; "--version"] then false
    else if negb (has_prefix arg "--") then json_args rest selected invalid
    else
      let '(name, value, equal) := cut_equal (String.substring 2 (String.length arg) arg) in
      let output (value : string) (rest : list string) :=
        if decide (name = "output") then
          if decide (value = "json") then json_args rest true invalid else json_args rest selected true
        else json_args rest selected invalid in
      match flag name with
      | None => json_args rest selected invalid
      | Some noOptDefVal =>
        if negb equal && bool_decide (noOptDefVal = "") then
          match rest with
          | [] => selected && negb (invalid || bool_decide (name = "output"))
          | value :: rest =>
            if decide (name = "output") then
              if decide (value = "json") then json_args rest true invalid else json_args rest selected true
            else json_args rest selected invalid
          end
        else output value rest
      end
  end.
Definition jsonRequested (has_output : bool) (args : list string) : bool := has_output && json_args args false false.
End JsonRequested.
