(* ===== verification/DiagnoseProofs.v ===== *)
(** The report of an error is what its chains of causes say (for Diagnose.v):
    one diagnostic per chain, in order, without repetitions, each computed from
    its own chain alone. *)
From S2P Require Import Prelude GoLib Blueprint Module Graph Backend Diagnose.

(** ** Induction on errors *)

Section Induction.
Context (P : goerr → Prop) (Hleaf : ∀ id k t, P (ELeaf id k t)) (Hwrap : ∀ id t c, P c → P (EWrap id t c))
  (Hjoin : ∀ id es, Forall P es → P (EJoin id es)) (Hwraps : ∀ id t es, Forall P es → P (EWraps id t es))
  (Hdiag : ∀ id d c, P c → P (EDiagnostic id d c)) (Hnone : ∀ id code, P (ECall id code None))
  (Hcall : ∀ id code c, P c → P (ECall id code (Some c))) (Hval : ∀ id p c, P c → P (EValidation id p c)).

Fixpoint goerr_induction (e : goerr) : P e :=
  let all := fix all (es : list goerr) : Forall P es :=
    match es with [] => Forall_nil_2 P | e :: es => Forall_cons_2 P e es (goerr_induction e) (all es) end in
  match e with
  | ELeaf id k t => Hleaf id k t
  | EWrap id t c => Hwrap id t c (goerr_induction c)
  | EJoin id es => Hjoin id es (all es)
  | EWraps id t es => Hwraps id t es (all es)
  | EDiagnostic id d c => Hdiag id d c (goerr_induction c)
  | ECall id code None => Hnone id code
  | ECall id code (Some c) => Hcall id code c (goerr_induction c)
  | EValidation id p c => Hval id p c (goerr_induction c)
  end.
End Induction.

(** ** The reference *)

(** The chains of an error, outermost value first, without those through an
    excluded value; a call error without a cause ends no chain. *)
Fixpoint chains (excluded : list goerr) (e : goerr) : list (list goerr) :=
  if skipped excluded e then []
  else cons e <$>
    match e with
    | ELeaf _ _ _ => [[]]
    | EWrap _ _ c | EDiagnostic _ _ c | EValidation _ _ c => chains excluded c
    | EJoin _ es | EWraps _ _ es =>
      (fix go (es : list goerr) : list (list goerr) := match es with [] => [] | e :: es => chains excluded e ++ go es end) es
    | ECall _ _ c => match c with Some c => chains excluded c | None => [] end
    end.

Definition diagnostic_of (e : goerr) : option Diagnostic := match e with EDiagnostic _ d _ => Some d | _ => None end.
Definition is_join (e : goerr) : bool := match e with EJoin _ _ | EWraps _ _ _ => true | _ => false end.

Definition innermost (l : list string) : string := default "" (last (filter (λ s, s ≠ "") l)).
Definition first_nonempty (l : list string) : string := default "" (head (filter (λ s, s ≠ "") l)).

(** The message of a chain: that of the innermost diagnostic, forgotten at a
    join, or else the text of the outermost value below. *)
Fixpoint message (m : string) (chain : list goerr) : string :=
  match chain with
  | [] => m
  | e :: chain =>
    message (match diagnostic_of e with
             | Some d => Message d
             | None => if is_join e then "" else if decide (m = "") then Error e else m
             end) chain
  end.

(** The diagnostic a chain stands for: every field from one place. *)
Definition described (fallback : Diagnostic) (chain : list goerr) : Diagnostic :=
  let ds := omap diagnostic_of chain in
  let d := default fallback (last ds) in
  let category := innermost ((Category fallback) :: (Category <$> ds)) in
  let d := MkDiagnostic (Code d) (innermost (Phase fallback :: (Phase <$> ds))) (innermost (Subject fallback :: (Subject <$> ds)))
             (message (Message fallback) chain) (Remedy d) category (DSeverity d) (RelatedExecutionID d) in
  match last chain with
  | Some (ELeaf _ k text) => conclude k text d
  | _ => d
  end.

(** The first occurrence of each. *)
Fixpoint firsts (l : list Diagnostic) : list Diagnostic :=
  match l with [] => [] | d :: l => d :: filter (λ x, x ≠ d) (firsts l) end.

(** ** [add] *)

Lemma foldl_add l : ∀ acc, foldl add acc l = acc ++ filter (λ x, x ∉ acc) (firsts (normal <$> l)).
Proof.
  induction l as [|d l IH]; intros acc; simpl; [by rewrite app_nil_r|].
  unfold add at 2. case_decide as Hd.
  - rewrite IH. f_equal. rewrite filter_cons_False by (intros Hn; by apply Hn).
    rewrite list_filter_filter. apply list_filter_iff. intros x. split; [intros Hx; split; [done|by intros ->]|by intros []].
  - rewrite IH, <-(assoc_L (++)). f_equal. rewrite filter_cons_True by done. simpl. f_equal.
    rewrite list_filter_filter. apply list_filter_iff. intros x. set_solver.
Qed.

Lemma foldl_add_nil l : foldl add [] l = firsts (normal <$> l).
Proof.
  rewrite foldl_add. simpl. induction (firsts _) as [|x k IH]; [done|]. rewrite filter_cons_True by set_solver. by rewrite IH.
Qed.

Lemma firsts_elem d l : d ∈ firsts l ↔ d ∈ l.
Proof.
  induction l as [|x l IH]; simpl; [done|]. rewrite !elem_of_cons, list_elem_of_filter, IH.
  destruct (decide (d = x)); naive_solver.
Qed.
Lemma firsts_NoDup l : NoDup (firsts l).
Proof.
  induction l as [|x l IH]; simpl; constructor; [|by apply NoDup_filter]. rewrite list_elem_of_filter. by intros [[] _].
Qed.

(** ** A chain, step by step *)

Definition step (current : Diagnostic) (e : goerr) : Diagnostic :=
  match e with
  | EDiagnostic _ d _ => inherit d current
  | EJoin _ _ | EWraps _ _ _ => with_Message current ""
  | _ => wrapped (Error e) current
  end.

Definition report (current : Diagnostic) (chain : list goerr) : Diagnostic :=
  let d := foldl step current chain in
  match last chain with Some (ELeaf _ k text) => conclude k text d | _ => d end.

Lemma innermost_cons a b l : innermost (a :: b :: l) = innermost (or_else b a :: l).
Proof.
  unfold innermost, or_else. rewrite !filter_cons. by repeat case_decide; simplify_eq.
Qed.
Lemma innermost_one a : innermost [a] = a.
Proof. unfold innermost. rewrite filter_cons. case_decide as Ha; [done|]. simpl. by destruct (decide (a = "")); [|destruct Ha]. Qed.

Lemma foldl_step chain : ∀ cur, foldl step cur chain =
  let ds := omap diagnostic_of chain in
  MkDiagnostic (Code (default cur (last ds))) (innermost (Phase cur :: (Phase <$> ds))) (innermost (Subject cur :: (Subject <$> ds)))
    (message (Message cur) chain) (Remedy (default cur (last ds))) (innermost (Category cur :: (Category <$> ds)))
    (DSeverity (default cur (last ds))) (RelatedExecutionID (default cur (last ds))).
Proof.
  induction chain as [|e chain IH]; intros cur; simpl; [rewrite !innermost_one; by destruct cur|].
  rewrite IH. change (list_omap goerr Diagnostic diagnostic_of chain) with (omap diagnostic_of chain).
  generalize (omap diagnostic_of chain) as ds. intros ds.
  destruct e; simpl; unfold wrapped; try case_decide; try by destruct (last ds).
  rewrite !innermost_cons. by destruct ds; simpl; [|rewrite last_cons; destruct (last ds)].
Qed.

Lemma report_described fb chain : report fb chain = described fb chain.
Proof.
  unfold report, described. rewrite foldl_step. destruct (last chain) as [[]|] eqn:Hl; done.
Qed.

Lemma report_cons cur e chain : chain ≠ [] → report cur (e :: chain) = report (step cur e) chain.
Proof. destruct chain; [done|]. by intros _. Qed.

Lemma conclude_wrapped k t cur : conclude k t (wrapped t cur) = conclude k t cur.
Proof.
  unfold wrapped. case_decide as Hm; [|done]. destruct cur. simpl in Hm. subst. unfold conclude, with_Message, or_else.
  destruct k; simpl; repeat case_decide; simpl; congruence || done.
Qed.

(** No chain is empty. *)
Lemma chains_cons excluded e chain : chain ∈ chains excluded e → ∃ rest, chain = e :: rest.
Proof.
  assert (∃ l, chains excluded e = cons e <$> l) as [l ->]; [|intros (rest & -> & _)%list_elem_of_fmap; by exists rest].
  destruct e; simpl; (destruct (skipped _ _); [by exists []|]); try by eexists. by exists [[]].
Qed.

Lemma report_below cur e c excluded :
  report cur <$> (cons e <$> chains excluded c) = report (step cur e) <$> chains excluded c.
Proof.
  rewrite <-list_fmap_compose. apply list_fmap_ext. intros i chain Hi%list_elem_of_lookup_2. simpl.
  apply chains_cons in Hi as [rest ->]. by rewrite report_cons.
Qed.

Lemma walk_report excluded e : ∀ acc cur, walk excluded acc e cur = foldl add acc (report cur <$> chains excluded e).
Proof.
  assert (∀ f es, (∀ cur, step cur f = with_Message cur "") →
    Forall (λ e, ∀ acc cur, walk excluded acc e cur = foldl add acc (report cur <$> chains excluded e)) es → ∀ acc cur,
    (fix go (result : list Diagnostic) (es : list goerr) : list Diagnostic :=
       match es with [] => result | child :: es => go (walk excluded result child (with_Message cur "")) es end) acc es
    = foldl add acc (report cur <$> (cons f <$>
        (fix go (es : list goerr) : list (list goerr) := match es with [] => [] | e :: es => chains excluded e ++ go es end) es)))
    as Hmany.
  { intros f es Hf Hes. induction Hes as [|e' es He _ IH]; intros acc cur; [done|].
    rewrite IH, He, !fmap_app, foldl_app. by rewrite report_below, Hf. }
  induction e using goerr_induction; intros acc cur; simpl; destruct (skipped _ _); try done.
  - simpl. unfold report. simpl. by rewrite conclude_wrapped.
  - by rewrite IHe, report_below.
  - by apply Hmany.
  - by apply Hmany.
  - by rewrite IHe, report_below.
  - by rewrite IHe, report_below.
  - by rewrite IHe, report_below.
Qed.

(** An error is reported by its chains of causes: in their order and each
    result once, every chain that meets no excluded value gives one
    diagnostic, computed from that chain alone, with phase, subject and
    category of the innermost diagnostic that has them and the code of the
    innermost one unless its last cause decides it.  No chain hides
    another. *)
Theorem Diagnostics_exact err fallback excluded :
  Diagnostics (Some err) fallback excluded = firsts (normal ∘ described fallback <$> chains excluded err).
Proof.
  unfold Diagnostics. rewrite walk_report, foldl_add_nil. f_equal. rewrite <-list_fmap_compose.
  apply list_fmap_ext. intros i chain _. simpl. by rewrite report_described.
Qed.

(** What the report is used for. *)
Lemma Diagnostics_NoDup err fallback excluded : NoDup (Diagnostics err fallback excluded).
Proof. destruct err as [err|]; [|constructor]. unfold Diagnostics. rewrite walk_report, foldl_add_nil. apply firsts_NoDup. Qed.

Lemma Diagnostics_elem err fallback excluded d : d ∈ Diagnostics (Some err) fallback excluded ↔
  ∃ chain, chain ∈ chains excluded err ∧ d = normal (described fallback chain).
Proof.
  unfold Diagnostics. rewrite walk_report, foldl_add_nil, firsts_elem. setoid_rewrite <-report_described.
  rewrite <-list_fmap_compose, list_elem_of_fmap. naive_solver.
Qed.

(** A journal failure joined to a cancellation stays a journal failure. *)
Definition cancelled : goerr := ELeaf (Some 1%N) Canceled "context canceled".
Definition record_failed : Diagnostic := MkDiagnostic "execution_record_write_failed" "record" "" "" "" "record" "" "run-1".
Definition no_fallback : Diagnostic := MkDiagnostic "" "" "" "" "" "" "" "".

Example cancelled_write :
  Code <$> Diagnostics (Some (EJoin (Some 2%N) [cancelled; EDiagnostic (Some 3%N) record_failed cancelled])) no_fallback []
  = ["cancelled"; "execution_record_write_failed"].
Proof. reflexivity. Qed.

(** A failed plugin call has no cause when the plugin answered with a fault or
    the transport failed, and is then reported by no diagnostic. *)
Definition plugin_fault : goerr :=
  EWrap (Some 2%N) "plugin.p.gate at node.plan.ready: plugin denied: inspect the plugin configuration and execution outcome before retrying; inspect plugin diagnostics before retrying"
    (ECall (Some 1%N) "denied" None).

Example plugin_fault_unreported : Diagnostics (Some plugin_fault) run_fallback [] = [].
Proof. reflexivity. Qed.

(** A category left open is reported as unknown before the command line could
    derive it from the phase. *)
Lemma category_never_derived err fallback excluded d : d ∈ Diagnostics (Some err) fallback excluded → Category d ≠ "".
Proof. rewrite Diagnostics_elem. intros (chain & _ & ->). simpl. by case_decide. Qed.

(** ** Output selection *)

Lemma cut_equal_spec s : let '(name, value, found) := cut_equal s in if found : bool then s = name +:+ "=" +:+ value else s = name ∧ value = "".
Proof.
  induction s as [|c s IH]; simpl; [done|]. case_decide as Hc; [by subst|].
  destruct (cut_equal s) as [[name value] []]; [by subst|]. by destruct IH as [-> ->].
Qed.

(** JSON is only selected by an output flag of the command line itself. *)
Definition asks_json (args : list string) : Prop :=
  "--output=json" ∈ args ∨ ∃ i, args !! i = Some "--output" ∧ args !! S i = Some "json".

Lemma asks_json_cons a args : asks_json args → asks_json (a :: args).
Proof. intros [H|(i & H1 & H2)]; [left; by right|right; by exists (S i)]. Qed.

Lemma dashed arg : has_prefix arg "--" = true → arg = "--" +:+ String.substring 2 (String.length arg) arg.
Proof.
  unfold has_prefix. destruct arg as [|a [|b arg]]; cbn [String.prefix]; [done|by destruct (Ascii.ascii_dec "-" a)|].
  destruct (Ascii.ascii_dec "-" a) as [<-|]; [|done]. destruct (Ascii.ascii_dec "-" b) as [<-|]; [|done]. intros _.
  enough (String.substring 0 (S (S (String.length arg))) arg = arg) as Hs by exact (eq_sym (f_equal (String.append "--") Hs)).
  apply chars_inj. rewrite chars_substring_0, take_ge; [done|].
  rewrite <-string_length_chars. lia.
Qed.

Lemma json_args_asks flag : ∀ n args selected invalid, length args ≤ n → json_args flag args selected invalid = true →
  selected = true ∨ asks_json args.
Proof.
  induction n as [|n IH]; intros args selected invalid Hn.
  { destruct args; [|simpl in Hn; lia]. simpl. intros [? _]%andb_true_iff. by left. }
  destruct args as [|arg rest]; simpl in Hn |- *; [intros [? _]%andb_true_iff; by left|].
  assert (∀ s i, json_args flag rest s i = true → s = true ∨ asks_json (arg :: rest)) as Hrest.
  { intros s i Hj. destruct (IH rest s i) as [|Ha]; [lia|done|by left|right; by apply asks_json_cons]. }
  case_decide; [intros [? _]%andb_true_iff; by left|]. destruct (mem _ _); [done|].
  destruct (has_prefix arg "--") eqn:Hp; [|by apply Hrest]. simpl.
  pose proof (cut_equal_spec (String.substring 2 (String.length arg) arg)) as Hcut.
  destruct (cut_equal _) as [[name value] equal] eqn:Hc. apply dashed in Hp. clear Hc.
  destruct (flag name) as [noOpt|]; [|by apply Hrest].
  destruct (negb equal && bool_decide (noOpt = "")) eqn:He.
  - apply andb_true_iff in He as [->%negb_true_iff _]. destruct Hcut as [Hcut _]. rewrite Hcut in Hp. destruct rest as [|v rest]; [intros [? _]%andb_true_iff; by left|].
    assert (∀ s i, json_args flag rest s i = true → s = true ∨ asks_json (arg :: v :: rest)) as Hrest2.
    { intros s i Hj. destruct (IH rest s i) as [|Ha]; [simpl in Hn; lia|done|by left|right; by do 2 apply asks_json_cons]. }
    destruct (decide (name = "output")); [|by apply Hrest2]. destruct (decide (v = "json")); [|by apply Hrest2]. intros _. right. right. exists 0. by subst.
  - destruct (decide (name = "output")); [|by apply Hrest]. destruct (decide (value = "json")); [|by apply Hrest]. intros _. right.
    destruct equal; [|destruct Hcut as [_ Hcut]; congruence]. left. rewrite Hcut in Hp. rewrite Hp. subst name value. by left.
Qed.

(** Whatever the flags, JSON output is asked for by an argument of its own. *)
Lemma jsonRequested_asked flag has_output args : jsonRequested flag has_output args = true → asks_json args.
Proof. unfold jsonRequested. intros [_ Hj]%andb_true_iff. by destruct (json_args_asks flag (length args) args false false) as [|]. Qed.
