(* ===== verification/PluginRecovery.v ===== *)
(** Reading the journal, and recovering plugin calls
    (src/internal/engine/execution_journal.go, plugin_recovery.go).

    The lifecycle a recovery opens is the one of Plugins.v; here it is what it
    answers and which calls it records, as functions of the history.  The
    engine of a recovery has no lifecycle of its own ([e.plugins] is nil), so
    its record is finished without announcing anything. *)
From S2P Require Import Prelude GoLib Blueprint Module Graph Topo Selection Gate Execution Store Journal Target ApplyNode Retention.

Record PluginRecoveryWorld := MkPluginRecoveryWorld {
  pw_lifecycle : hist → string → result unit;
  pw_calls : hist → CallRecord → list CallRecord;
  pw_replay : hist → CallRecord → result unit;
  pw_close : hist → result unit;
}.

(** The journal of an engine without plugins. *)
Definition idle (w : JournalWorld) : JournalWorld := MkJournalWorld (jw_now w) false (jw_calls w) (jw_emit w).

Definition created_le (a b : ExecutionRecord) : Prop :=
  (er_CreatedAt b < er_CreatedAt a)%Z ∨ (er_CreatedAt a = er_CreatedAt b ∧ String.le (er_ID a) (er_ID b)).
#[export] Instance created_le_dec a b : Decision (created_le a b).
Proof. unfold created_le. apply _. Defined.

Definition first_call (callID : string) (record : ExecutionRecord) : option CallRecord :=
  snd <$> list_find (λ c, cl_ID c = callID) (er_PluginCalls record).

Definition outstandingLease (call : CallRecord) : bool :=
  bool_decide (is_Some (cl_Lease call)) && bool_decide (cl_EventPhase call = "credential.acquire").

Definition acknowledged (c : CallRecord) : CallRecord :=
  MkCallRecord (cl_ID c) (cl_Alias c) (cl_Feature c) (cl_Digest c) (cl_ConfigDigest c) (cl_EventID c) (cl_EventOperation c)
    "operator_reviewed_external_state" (cl_Kind c) (cl_Effect c) (cl_Mode c) "acknowledged" (cl_EventPhase c) (cl_EventNode c) (cl_Lease c).

Section PluginRecovery.
Context `{!executionStore} `{!MapOrder}.
Context (w : JournalWorld) (rw : RetentionWorld) (tw : TargetWorld) (pw : PluginRecoveryWorld).
Context (g : Graph) (bp : Blueprint) (baseDir : string).

Definition scope : result string := executionScope tw baseDir (bp_Lock bp).

(** The process lock, then the store; reading takes no graph lock. *)
Definition open_reading : H unit := _ ← askH (rw_lock_run rw); open_store rw g bp.

(** ** Reading *)

Definition other_scope (id : string) : error :=
  Errorf "execution %s belongs to a different coordination scope; restore the original lock configuration or use a dedicated prefix" [FStr id].

(** One key of the listing: an unreadable record is an issue, not the end. *)
Definition list_key (scope : string) (acc : list ExecutionRecord * list error) (key : string) : H (list ExecutionRecord * list error) :=
  if negb (is_record_key key) then mret acc
  else
    let id := trim_suffix key ".json" in
    r ← tryH (readExecutionRecord id);
    match r with
    | Err err => mret (acc.1, acc.2 ++ [Errorf "execution %s: %w" [FStr id; FErr err]])
    | Ok (record, _) =>
      mret (acc.1 ++ [record], if decide (er_Scope record ≠ scope) then acc.2 ++ [other_scope (er_ID record)] else acc.2)
    end.

Fixpoint list_keys_loop (scope : string) (acc : list ExecutionRecord * list error) (keys : list string) : H (list ExecutionRecord * list error) :=
  match keys with
  | [] => mret acc
  | key :: keys => acc ← list_key scope acc key; list_keys_loop scope acc keys
  end.

(** The records, newest first, beside the issues. *)
Definition ListExecutions : H (list ExecutionRecord * option error) :=
  _ ← open_reading;
  scope ← pureH scope;
  keys ← lift_list;
  '(records, issues) ← list_keys_loop scope ([], []) keys;
  mret (merge_sort created_le records, match issues with [] => None | _ => Some (Joined issues) end).

Definition GetExecution (id : string) : H ExecutionRecord :=
  _ ← open_reading;
  r ← tryH (readExecutionRecord id);
  match r with
  | Err err => throwH (Errorf "execution %s: %w" [FStr id; FErr err])
  | Ok (record, _) =>
    scope ← pureH scope;
    if decide (er_Scope record ≠ scope) then throwH (other_scope id) else mret record
  end.

(** What is written to the output; [report] is the part of a call this
    development's [CallRecord] leaves out. *)
Definition ReadPluginReport (report : CallRecord → string) (id callID : string) : H string :=
  record ← GetExecution id;
  match first_call callID record with
  | None => throwH (Errorf "plugin call not found; select an ID from plan show" [])
  | Some call => if decide (report call = "") then throwH (Errorf "plugin call has no report" []) else mret (report call)
  end.

(** ** Recovering *)

Definition replay_call (call : CallRecord) : M unit :=
  _ ← ask (λ h, pw_lifecycle pw h (cl_EventOperation call));
  r ← tryM (s ← getM;
            _ ← emitM (EvPlugin (cl_EventPhase call) (cl_EventNode call));
            _ ← forM recordPlugin (pw_calls pw (st_hist s) call);
            pureM (pw_replay pw (st_hist s) call));
  c ← tryM (ask (pw_close pw));
  match join_errors (error_of r) (error_of c) with Some err => throwM err | None => mret tt end.

Definition recover_call (record : ExecutionRecord) (call : CallRecord) (acknowledge : bool) : M unit :=
  _ ← (if acknowledge then recordPlugin (acknowledged call) else replay_call call);
  if decide (er_Operation record = "saved_apply") then finishSaved (idle w) None else finish (idle w) None.

Definition RecoverPluginCall (id callID : string) (confirmStopped acknowledge : bool) : H ExecutionRecord :=
  if negb confirmStopped
  then throwH (Errorf "plugin recovery requires --confirm-stopped after verifying the previous executor stopped" [])
  else
    _ ← open_locked rw g bp;
    '(record, revision) ← readExecutionRecord id;
    scope ← pureH scope;
    if decide (scope ≠ er_Scope record)
    then throwH (Errorf "execution belongs to another coordination scope; use the original blueprint" [])
    else match first_call callID record with
         | None => throwH (Errorf "plugin call not found; select an ID from plan show" [])
         | Some call =>
           if decide (cl_Status call = "acknowledged") then throwH (Errorf "plugin call was already acknowledged" [])
           else if bool_decide (cl_Status call = "completed") && negb (outstandingLease call)
           then throwH (Errorf "plugin call is already complete" [])
           else '(s, _) ← with_session record revision (recover_call record call acknowledge); mret (st_record s)
         end.
End PluginRecovery.
