(* ===== verification/PluginRecoveryProofs.v ===== *)
(** Recovering a plugin call (for PluginRecovery.v) settles that call and
    nothing else: the record keeps its nodes at every moment, and no
    subprocess of the runtime is started. *)
From S2P Require Import Prelude GoLib Blueprint Module Graph Topo Selection Gate Execution Store Journal JournalFacts Target ApplyNode ApplyProofs Retention RetentionProofs PluginRecovery.

Section Proofs.
Context (s0 : gmap string dirent) `{!executionStore} `{!StoreLaws s0} `{!MapOrder}.
Context (w : JournalWorld) (rw : RetentionWorld) (tw : TargetWorld) (pw : PluginRecoveryWorld).
Context (g : Graph) (bp : Blueprint) (baseDir : string).

(** ** One record *)

Section Record.
Context (id : string) (nodes : list ExecutionNode).

(** The nodes as they were; what was being prepared may be pending again. *)
Definition kept (rec : ExecutionRecord) : Prop := er_Nodes rec = nodes ∨ er_Nodes rec = unprepare <$> nodes.
Definition held (h : hist) : Prop := ∃ rec, durable s0 id h = Some rec ∧ kept rec.

(** The session holds the stored record. *)
Definition owns (Q : ExecutionRecord → Prop) (s : session) : Prop :=
  er_ID (st_record s) = id ∧ durable s0 id (st_hist s) = Some (st_record s) ∧ Q (st_record s).
Definition done_with {A} (Q : ExecutionRecord → Prop) (s : session) (r : result A) : Prop := is_ok r = true → owns Q s.

Lemma safe_publish next (Pre : session → Prop) : er_ID next = id → kept next →
  safe held Pre (publish next) (done_with (λ rec, rec = next)).
Proof.
  intros Hid Hk s s' r _ HI Hp. apply (publish_cases s0) in Hp as [[-> Hr]|(rev & Hh & Hc)].
  - split; [|by apply always_refl]. intros Ho. congruence.
  - rewrite Hid in Hh. split.
    + intros Ho. destruct Hc as [(_ & Hr & _)|(Hf & _)]; [|congruence]. split; [by rewrite Hr|]. rewrite Hh, Hr.
      split; [apply durable_write|done].
    + rewrite Hh. apply always_one; [done|]. exists next. split; [apply durable_write|done].
Qed.

(** What only the calls of a record can change. *)
Definition same_but_calls (rec0 rec : ExecutionRecord) : Prop := rec = rec0 ∨ rec = with_calls rec0 (er_PluginCalls rec).

Lemma same_but_calls_with rec0 rec cs : same_but_calls rec0 rec → same_but_calls rec0 (with_calls rec cs).
Proof. intros [->| ->]; by right. Qed.

Lemma safe_recordPlugin call R : kept R →
  safe held (owns (λ rec, rec = R)) (recordPlugin call) (done_with (λ rec, rec = with_calls R (set_call (er_PluginCalls R) call))).
Proof.
  intros Hk s s' r (Hid & Hd & HR) HI. unfold recordPlugin. unfold mbind, M_bind, getM. cbv iota beta. rewrite HR.
  destruct (_ && _); [intros [= <- <-]; split; [done|by apply always_refl]|].
  apply (safe_publish _ (λ _, True)); [rewrite <-Hid, HR; done|exact Hk|done|done].
Qed.

Lemma owns_weaken (Q Q' : ExecutionRecord → Prop) s : (∀ rec, Q rec → Q' rec) → owns Q s → owns Q' s.
Proof. intros HQ (? & ? & ?). split_and!; auto. Qed.

Lemma kept_same rec0 rec : er_Nodes rec0 = nodes → same_but_calls rec0 rec → kept rec.
Proof. intros Hn [->|Hr]; left; [done|by rewrite Hr]. Qed.

Lemma safe_records rec0 calls : er_Nodes rec0 = nodes →
  safe held (owns (same_but_calls rec0)) (forM recordPlugin calls) (done_with (same_but_calls rec0)).
Proof.
  intros Hn. induction calls as [|call calls IH]; cbn [forM].
  - intros s s' r Hs HI [= <- <-]. split; [by intros _|by apply always_refl].
  - apply (triple_bind _ _ _ _ (λ _, owns (same_but_calls rec0))); [|intros _; exact IH].
    intros s s' r Hs HI Hr. destruct Hs as (Hid & Hd & HR).
    destruct (safe_recordPlugin call (st_record s) (kept_same _ _ Hn HR) s s' r) as [Hp Ha]; [by split_and!|done|done|].
    split; [|done]. destruct r as [[]|e]; [|done]. eapply owns_weaken; [|by apply Hp].
    intros rec ->. by apply same_but_calls_with.
Qed.

(** A plugin is asked; the store is not touched by that. *)
Lemma safe_asked Q phase node : safe held (owns Q) (emitM (EvPlugin phase node)) (done_with Q).
Proof.
  intros s s' r (Hid & Hd & HQ) HI [= <- <-]. simpl. assert (durable s0 id (EvPlugin phase node :: st_hist s) = durable s0 id (st_hist s)) as He
    by by apply durable_other.
  split; [intros _; split_and!; [done|by etrans|done]|]. apply always_one; [done|].
  destruct HI as (rec & ? & ?). exists rec. by rewrite He.
Qed.

Lemma safe_try {A} Pre (m : M A) Post : safe held Pre m Post →
  safe held Pre (tryM m) (λ s r, ∃ x, r = Ok x ∧ Post s x).
Proof.
  intros Hm s s' r Hs HI. unfold tryM. destruct (m s) as [s1 r1] eqn:Hr. intros [= <- <-].
  destruct (Hm s s1 r1 Hs HI Hr) as [HP Ha]. split; [by exists r1|done].
Qed.

(** *** The replay *)

Definition replayed (call : CallRecord) : Prop := ∃ h, pw_replay pw h call = Ok tt.

Lemma safe_replay rec0 call : er_Nodes rec0 = nodes →
  safe held (owns (λ rec, rec = rec0)) (replay_call pw call)
    (λ s r, is_ok r = true → owns (same_but_calls rec0) s ∧ replayed call).
Proof.
  intros Hn. unfold replay_call.
  apply (triple_bind _ _ _ _ (λ _, owns (λ rec, rec = rec0))).
  { intros s s' r Hs HI [= <- <-]. split; [by destruct (pw_lifecycle _ _ _)|by apply always_refl]. }
  intros _. apply (triple_bind _ _ _ _ (λ r s, is_ok r = true → owns (same_but_calls rec0) s ∧ replayed call)).
  - eapply safe_weaken; [done| |apply (safe_try _ _ (λ s r, is_ok r = true → owns (same_but_calls rec0) s ∧ replayed call))].
    { intros s r (x & -> & Hx). exact Hx. }
    apply (triple_bind _ _ _ _ (λ _, owns (λ rec, rec = rec0))).
    { apply safe_get. intros s Hs. exact Hs. }
    intros s1. apply (triple_bind _ _ _ _ (λ _, owns (same_but_calls rec0))).
    { eapply safe_weaken; [| |apply (safe_asked (same_but_calls rec0))].
      - intros s. apply owns_weaken. intros rec ->. by left.
      - intros s [[]|e] Hd; [by apply Hd|done]. }
    intros _. apply (triple_bind _ _ _ _ (λ _, owns (same_but_calls rec0))).
    { eapply safe_weaken; [done| |by apply safe_records]. intros s [[]|e] Hd; [by apply Hd|done]. }
    intros _. apply safe_pure. intros s Hs Ho. split; [done|]. exists (st_hist s1). by destruct (pw_replay pw _ call) as [[]|].
  - intros r. apply (triple_bind _ _ _ _ (λ _ s, is_ok r = true → owns (same_but_calls rec0) s ∧ replayed call)).
    { intros s s' x Hs HI [= <- <-]. split; [exact Hs|by apply always_refl]. }
    intros c. destruct (join_errors _ _) eqn:Hj; [by apply safe_throw|]. apply triple_ret. intros s Hs _. apply Hs. by destruct r, c.
Qed.

(** *** The end *)

Definition ended (operation : string) (rec rec' : ExecutionRecord) : Prop :=
  if decide (operation = "saved_apply") then rec' = rec ∨ ∃ now, rec' = saved_record rec None now
  else ∃ now, rec' = finished_record rec None now.

Lemma cleanup_owned R h h' r : durable s0 id h = Some R → held h → cleanupExecution R h = (h', r) →
  durable s0 id h' = Some R ∧ always held h h'.
Proof.
  intros Hd (rec & Hrec & Hk) Hc. rewrite Hd in Hrec. injection Hrec as <-.
  eapply (emitsH_cleanup s0 removes_bundle) in Hc; [|intros b; by exists b].
  destruct Hc as (pre & -> & Hp). split; [by rewrite (durable_removals s0 id h _ pre)|]. exists pre. split; [done|].
  intros p1 p2 ->. apply Forall_app in Hp as [_ Hp]. exists R. by rewrite (durable_removals s0 id h _ p2).
Qed.

Lemma kept_unprepare rec rec' : er_Nodes rec = nodes → er_Nodes rec' = er_Nodes rec ∨ er_Nodes rec' = unprepare <$> er_Nodes rec → kept rec'.
Proof. intros Hn [H|H]; [left|right]; by rewrite H, ?Hn. Qed.

Lemma ended_fields operation rec rec' : ended operation rec rec' →
  er_ID rec' = er_ID rec ∧ er_PluginCalls rec' = er_PluginCalls rec ∧ er_RecoveryAt rec' = er_RecoveryAt rec ∧
  (er_Nodes rec' = er_Nodes rec ∨ er_Nodes rec' = unprepare <$> er_Nodes rec).
Proof.
  unfold ended, finished_record, saved_record. case_decide.
  - intros [->|(now & ->)]; [by split_and!; [..|left]|]. repeat case_match; (split_and!; [done..|by right]).
  - intros (now & ->). case_match; (split_and!; [done..|by left]).
Qed.

Lemma safe_end operation rec0 R : er_Nodes rec0 = nodes → er_Operation rec0 = operation → same_but_calls rec0 R →
  safe held (owns (λ rec, rec = R)) (if decide (operation = "saved_apply") then finishSaved (idle w) None else finish (idle w) None)
    (λ s r, is_ok r = true → owns (ended operation R) s).
Proof.
  intros Hn Ho HR s s' r Hs HI. pose proof Hs as (Hid & Hd & Hrec).
  assert (er_Nodes R = nodes) as HRn by (destruct HR as [->| ->]; by simpl).
  assert (∀ next, ended operation R next → kept next) as Hkept.
  { intros next He. apply ended_fields in He as (_ & _ & _ & Hx). by eapply kept_unprepare. }
  assert (∀ next, ended operation R next → er_ID next = id) as Hnid.
  { intros next (-> & _)%ended_fields. by rewrite <-Hrec. }
  destruct (decide (operation = "saved_apply")) as [Hop|Hop].
  - unfold finishSaved. unfold mbind, M_bind, getM. cbv iota beta. rewrite Hrec.
    assert (∀ now, ended operation R (saved_record R None now)) as He by (intros now; unfold ended; rewrite decide_True by done; right; by exists now).
    destruct (match er_FinishedAt R with Some _ => _ | None => _ end).
    + intros [= <- <-]. split; [|by apply always_refl]. intros _. eapply owns_weaken; [|exact Hs].
      intros rec ->. unfold ended. rewrite decide_True by done. by left.
    + intros Hp. specialize (He (jw_now (idle w) (st_hist s))).
      destruct (safe_publish _ (λ _, True) (Hnid _ He) (Hkept _ He) s s' r I HI Hp) as [Hpost Ha]. split; [|done].
      intros Hok. eapply owns_weaken; [|by apply Hpost]. by intros rec ->.
  - assert (∀ now, ended operation R (finished_record R None now)) as He by (intros now; unfold ended; rewrite decide_False by done; by exists now).
    unfold finish, finishPlugins. cbn [jw_plugins idle]. unfold mbind at 1 2, M_bind at 1 2, getM, mret, M_ret. cbv iota beta. rewrite Hrec.
    set (next := finished_record R _ _). assert (ended operation R next) as Hen by apply He.
    unfold mbind, M_bind at 1. destruct (publish next s) as [s1 r1] eqn:Hp.
    destruct (safe_publish _ (λ _, True) (Hnid _ Hen) (Hkept _ Hen) s s1 r1 I HI Hp) as [Hpost Ha].
    destruct r1 as [[]|e]; [|intros [= <- <-]; by split].
    destruct (Hpost eq_refl) as (Hid1 & Hd1 & Hr1). rewrite Hr1 in Hd1.
    unfold M_bind, liftH, attemptH, mret, M_ret. destruct (cleanupExecution next (st_hist s1)) as [h2 r2] eqn:Hc.
    destruct (cleanup_owned next _ _ _ Hd1 (always_end _ _ _ Ha) Hc) as [Hd2 Ha2].
    cbv [fst]. intros [= <- <-]. split; [|by eapply always_trans]. intros _. split; [done|].
    split; [by etrans; [exact Hd2|rewrite <-Hr1]|]. simpl. by rewrite Hr1.
Qed.

(** *** Recovering one call *)

(** What a successful recovery leaves. *)
Definition settled (rec0 : ExecutionRecord) (call : CallRecord) (acknowledge : bool) (rec : ExecutionRecord) : Prop :=
  ∃ mid, same_but_calls rec0 mid ∧ ended (er_Operation rec0) mid rec ∧
    if acknowledge then mid = with_calls rec0 (set_call (er_PluginCalls rec0) (acknowledged call)) else replayed call.

Lemma safe_recover rec0 call acknowledge : er_Nodes rec0 = nodes →
  safe held (owns (λ rec, rec = rec0)) (recover_call w pw rec0 call acknowledge)
    (λ s r, is_ok r = true → owns (settled rec0 call acknowledge) s).
Proof.
  intros Hn. unfold recover_call.
  apply (triple_bind _ _ _ _ (λ _, owns (λ mid, same_but_calls rec0 mid ∧
    if acknowledge then mid = with_calls rec0 (set_call (er_PluginCalls rec0) (acknowledged call)) else replayed call))).
  - destruct acknowledge.
    + eapply safe_weaken; [done| |apply (safe_recordPlugin _ rec0); by left].
      intros s [[]|e] Hd; [|done]. eapply owns_weaken; [|by apply Hd]. intros rec ->. split; [by right|done].
    + eapply safe_weaken; [done| |by apply safe_replay]. intros s [[]|e] Hd; [|done]. destruct (Hd eq_refl) as [Ho Hr].
      eapply owns_weaken; [|exact Ho]. by intros rec.
  - intros _ s s' r (Hid & Hd & Hsame & Hhow) HI Hr.
    destruct (safe_end (er_Operation rec0) rec0 (st_record s) Hn eq_refl Hsame s s' r) as [Hp Ha]; [by split_and!|done|done|].
    split; [|done]. intros Hok. eapply owns_weaken; [|by apply Hp]. intros rec He. by exists (st_record s).
Qed.
End Record.

(** ** The events *)

Definition bookkeeping (ev : event) : Prop :=
  match ev with EvWrite _ _ | EvRemove _ | EvPlugin _ _ => True | _ => False end.

#[local] Instance emitsM_ask' {A} P (f : hist → result A) : EmitsM P (ask f) := emitsM_ask P f.
#[local] Instance bookkeeping_record call : EmitsM bookkeeping (recordPlugin call).
Proof. by apply (emitsM_recordPlugin s0). Qed.
#[local] Instance bookkeeping_publish next : EmitsM bookkeeping (publish next).
Proof. by apply (emitsM_publish s0). Qed.
#[local] Instance bookkeeping_cleanup rec : EmitsH bookkeeping (cleanupExecution rec).
Proof. by apply (emitsH_cleanup s0). Qed.
#[local] Instance bookkeeping_plugin phase node : EmitsM bookkeeping (emitM (EvPlugin phase node)).
Proof. by apply emitsM_emit. Qed.

#[local] Instance bookkeeping_replay call : EmitsM bookkeeping (replay_call pw call).
Proof. unfold replay_call. emits. Qed.
#[local] Instance bookkeeping_recover rec call ack : EmitsM bookkeeping (recover_call w pw rec call ack).
Proof.
  unfold recover_call. apply emitsM_bind; [destruct ack; apply _|intros _].
  destruct (decide _); [unfold finishSaved|unfold finish, finishPlugins; cbn [jw_plugins idle]]; emits.
Qed.

#[local] Instance emitsH_ask {A} P (f : hist → result A) : EmitsH P (askH f).
Proof. intros h h' r [= <- _]. apply extends_refl. Qed.
#[local] Instance emitsH_locked P : EmitsH P (open_locked rw g bp).
Proof. unfold open_locked, open_store. apply _. Qed.

(** A call that can still be recovered. *)
Definition recoverable (rec0 : ExecutionRecord) (callID : string) (call : CallRecord) : Prop :=
  first_call callID rec0 = Some call ∧ cl_Status call ≠ "acknowledged" ∧
  (cl_Status call = "completed" → outstandingLease call = true).

Lemma recover_runs id callID stopped ack h h' r : RecoverPluginCall w rw tw pw g bp baseDir id callID stopped ack h = (h', r) →
  (h' = h ∧ is_ok r = false) ∨
  (stopped = true ∧ ∃ rec0 rev call s' ru, objects s0 h !! record_key id = Some (Stored (MkObject rev (PRecord rec0))) ∧ er_ID rec0 = id ∧
     recoverable rec0 callID call ∧ recover_call w pw rec0 call ack (MkSession h rec0 rev) = (s', ru) ∧ h' = st_hist s' ∧
     r = match ru with Ok _ => Ok (st_record s') | Err e => Err e end).
Proof.
  unfold RecoverPluginCall. destruct stopped; simpl; [|intros [= <- <-]; by left].
  intros [(e & E1 & ->)|(h1 & u & E1 & Hk)]%H_bind_inv; pose proof (silent_same _ _ (emitsH_locked silent _ _ _ E1)) as ->; [by left|].
  apply H_bind_inv in Hk as [(e & E2 & ->)|(h1 & [rec rev] & E2 & Hk)];
    pose proof (silent_same _ _ (emitsH_readRecord silent _ _ _ _ E2)) as ->; [by left|].
  apply (readExecutionRecord_Ok s0) in E2 as (_ & Hs & Hid & _).
  apply H_bind_inv in Hk as [(e & E3 & ->)|(h1 & sc & E3 & Hk)]; injection E3 as <- _; [by left|].
  destruct (decide _); [injection Hk as <- <-; by left|].
  destruct (first_call callID rec) as [call|] eqn:Hc; [|injection Hk as <- <-; by left].
  destruct (decide (cl_Status call = "acknowledged")); [injection Hk as <- <-; by left|].
  destruct (bool_decide _ && negb _) eqn:Hd; [injection Hk as <- <-; by left|]. right. split; [done|].
  unfold mbind, H_bind, with_session in Hk. destruct (recover_call _ _ _ _ _ _) as [s' ru] eqn:Hr.
  exists rec, rev, call, s', ru. split; [done|]. split; [done|]. split.
  { split; [done|]. split; [done|]. intros Hcm. rewrite bool_decide_true in Hd by done. simpl in Hd. by apply negb_false_iff. }
  split; [done|]. by destruct ru; injection Hk as <- <-.
Qed.


(** ** Reading *)

Lemma emitsH_try' {A} P (m : H A) : EmitsH P m → EmitsH P (tryH m).
Proof. intros Hm h h' r. unfold tryH. destruct (m h) as [h1 r1] eqn:Hh. intros [= <- _]. by eapply Hm. Qed.

#[local] Instance emitsH_reading P : EmitsH P (open_reading rw g bp).
Proof. unfold open_reading, open_store. apply _. Qed.
#[local] Instance emitsH_list_key P sc acc key : EmitsH P (list_key sc acc key).
Proof.
  unfold list_key. apply emitsH_if; [apply _|]. apply emitsH_bind; [apply emitsH_try', _|]. intros [[]|]; apply _.
Qed.
#[local] Instance emitsH_list_loop P sc keys : ∀ acc, EmitsH P (list_keys_loop sc acc keys).
Proof. induction keys as [|k keys IH]; intros acc; cbn [list_keys_loop]; apply _. Qed.

(** What one readable key adds. *)
Definition reads_as (h : hist) (key : string) (rec : ExecutionRecord) : Prop :=
  is_record_key key = true ∧ ∃ rev, readExecutionRecord (trim_suffix key ".json") h = (h, Ok (rec, rev)).

Lemma list_loop_spec sc h keys : ∀ acc acc', list_keys_loop sc acc keys h = (h, Ok acc') →
  (∀ rec, rec ∈ acc'.1 ↔ rec ∈ acc.1 ∨ ∃ key, key ∈ keys ∧ reads_as h key rec) ∧
  (acc'.2 = [] → acc.2 = [] ∧ ∀ key, key ∈ keys → is_record_key key = true → ∃ rec, reads_as h key rec ∧ er_Scope rec = sc).
Proof.
  induction keys as [|key keys IH]; intros acc acc'; cbn [list_keys_loop].
  { intros [= <-]. split; [|by intros ->; split; [|intros ? ?%elem_of_nil]]. intros rec. split; [by left|].
    intros [|(k & ?%elem_of_nil & _)]; done. }
  intros (h1 & acc1 & Hone & Hk)%H_bind_Ok. pose proof (silent_same _ _ (emitsH_list_key silent _ _ _ _ _ _ Hone)) as ->.
  apply IH in Hk as [Hin Hno]. revert Hone. unfold list_key. destruct (is_record_key key) eqn:Hkey; simpl.
  2: { intros [= <-]. split.
       - intros rec. rewrite Hin. setoid_rewrite elem_of_cons. split; [naive_solver|].
         intros [|(k & [->|] & Hr)]; [by left|by destruct Hr as [Hf _]; congruence|right; eauto].
       - intros Hn. destruct (Hno Hn) as [? Hall]. split; [done|]. intros k [->|]%elem_of_cons; [congruence|auto]. }
  unfold mbind, H_bind, tryH. destruct (readExecutionRecord _ h) as [h2 r2] eqn:Hr.
  pose proof (silent_same _ _ (emitsH_readRecord silent _ _ _ _ Hr)) as ->.
  destruct r2 as [[rec rev]|err]; intros [= <-]; simpl in *.
  - assert (reads_as h key rec) as Hra by (split; [done|by exists rev]). split.
    + intros rec'. rewrite Hin, elem_of_app, list_elem_of_singleton. setoid_rewrite elem_of_cons.
      assert (∀ rec'', reads_as h key rec'' → rec'' = rec) as Hu.
      { intros rec'' [_ [rev' Hr']]. rewrite Hr in Hr'. by injection Hr' as ->. }
      split; [intros [[| ->]|(k & ? & ?)]; [by left|right; eauto|right; eauto]|].
      intros [|(k & [->|] & Hk')]; [by left; left|left; right; by apply Hu|right; eauto].
    + intros Hn. destruct (Hno Hn) as [Hacc Hall]. destruct (decide (er_Scope rec ≠ sc)) as [|Hsc]; [by destruct (acc.2)|].
      split; [done|]. intros k [->|]%elem_of_cons Hk'; [|by apply Hall]. exists rec. split; [done|]. by destruct (decide (er_Scope rec = sc)).
  - split.
    + intros rec'. rewrite Hin. setoid_rewrite elem_of_cons. split; [naive_solver|].
      intros [|(k & [->|] & Hk')]; [by left| |right; eauto]. destruct Hk' as [_ [rev Hr']]. rewrite Hr in Hr'. congruence.
    + intros Hn. destruct (Hno Hn) as [Hacc _]. by destruct (acc.2).
Qed.

(** Listing changes nothing, shows every readable record of the store newest
    first, and reports no issue only when every record of the store was
    readable and of the engine's own scope. *)
Lemma ListExecutions_exact h h' records issues : ListExecutions rw tw g bp baseDir h = (h', Ok (records, issues)) →
  h' = h ∧ Sorted created_le records ∧
  (∀ rec, rec ∈ records ↔ ∃ key, key_matches key = true ∧ is_Some (objects s0 h !! key) ∧ reads_as h key rec) ∧
  (issues = None → ∃ sc, scope tw bp baseDir = Ok sc ∧ ∀ key, key_matches key = true → is_Some (objects s0 h !! key) →
     is_record_key key = true → ∃ rec, rec ∈ records ∧ reads_as h key rec ∧ er_Scope rec = sc).
Proof.
  unfold ListExecutions. intros (h1 & u & E1 & Hk)%H_bind_Ok. pose proof (silent_same _ _ (emitsH_reading silent _ _ _ E1)) as ->.
  apply H_bind_Ok in Hk as (h2 & sc & E2 & Hk). injection E2 as <- Hsc.
  apply H_bind_Ok in Hk as (h3 & keys & E3 & Hk). injection E3 as <- Hkeys.
  apply H_bind_Ok in Hk as (h4 & [l found] & E4 & Hk). pose proof (silent_same _ _ (emitsH_list_loop silent _ _ _ _ _ _ E4)) as ->.
  injection Hk as <- <- <-. apply list_loop_spec in E4 as [Hin Hno]. simpl in *.
  pose proof (list_Ok (s0 := s0) h keys Hkeys) as Hlist.
  assert (∀ rec, rec ∈ merge_sort created_le l ↔ ∃ key, key_matches key = true ∧ is_Some (objects s0 h !! key) ∧ reads_as h key rec) as Hmem.
  { intros rec. rewrite (merge_sort_Permutation created_le l), Hin. setoid_rewrite Hlist. split.
    - intros [?%elem_of_nil|(k & [? ?] & ?)]; [done|by exists k].
    - intros (k & ? & ? & ?). right. by exists k. }
  split; [done|]. split; [apply Sorted_merge_sort; intros a b; unfold created_le|].
  { destruct (Z.lt_trichotomy (er_CreatedAt a) (er_CreatedAt b)) as [|[He|]]; [right; by left| |left; by left].
    destruct (total String.le (er_ID a) (er_ID b)); [left|right]; right; by split. }
  split; [exact Hmem|]. intros Hi. assert (found = []) as -> by by destruct found. destruct (Hno eq_refl) as [_ Hall].
  exists sc. split; [done|]. intros key Hk1 Hk2 Hk3. destruct (Hall key) as (rec & Hrec & Hs); [by apply Hlist|done|].
  exists rec. split; [apply Hmem; by exists key|done].
Qed.
End Proofs.

(** ** Concrete inputs *)

Definition failed_delivery : CallRecord :=
  MkCallRecord "c1" "notify" "delivery" "d" "k" "invocation-1" "apply" "plugin_failed" "observer" "idempotent_external" "enforce" "failed"
    "node.finished" "a" None.
Definition delivery_record (phase : string) : ExecutionRecord :=
  MkExecutionRecord [failed_delivery] None 2 "" false sample_id "/root" "" "apply" "needs_recovery" 0 0 None None
    [MkExecutionNode "a" None "k" phase "" ""; MkExecutionNode "b" None "k" "pending" "" ""].
Definition delivery_objects (phase : string) : gmap string dirent :=
  {[ record_key sample_id := Stored (MkObject "r0" (PRecord (delivery_record phase))) ]}.
Definition delivery_store (phase : string) : executionStore :=
  localExecutionStore (quiet_world (delivery_objects phase)) (delivery_objects phase).
Definition answering_plugins : PluginRecoveryWorld :=
  MkPluginRecoveryWorld (λ _ _, Ok tt) (λ _ c, [acknowledged c]) (λ _ _, Ok tt) (λ _, Ok tt).

Definition delivery_recovery (phase : string) (stopped ack : bool) : hist * result ExecutionRecord :=
  @RecoverPluginCall (delivery_store phase) map_order_default quiet_journal quiet_retention sample_target_world answering_plugins
    s3_graph plain_blueprint "/root" sample_id "c1" stopped ack [].
Definition recovered_record (r : hist * result ExecutionRecord) : ExecutionRecord :=
  match r.2 with Ok rec => rec | Err _ => sample_record end.


(** A run that stopped after its first node failed reads as completed once the
    delivery is acknowledged. *)
Example failed_run_completed :
  er_Status (recovered_record (delivery_recovery "failed" true true)) = "completed" ∧
  en_Phase <$> er_Nodes (recovered_record (delivery_recovery "failed" true true)) = ["failed"; "pending"].
Proof. split; vm_compute; reflexivity. Qed.
