(* ===== verification/PluginLogs.v ===== *)
(** Plugin diagnostics (src/plugin/log.go, src/internal/plugins/diagnostics.go):
    the text a plugin may put into a log line, and the relay that takes its
    records to the host's log.

    The relay is used by three goroutines: the caller registers, the stream's
    receiver receives, the relay's own goroutine writes.  Each step below is
    what one of them does between two synchronizations, so a run of the relay
    is any list of steps.  Counters are 64-bit and wrap. *)
From stdpp Require Import pretty.
From S2P Require Import Prelude GoLib GoPath.

(** ** Public text (plugin/log.go) *)

Definition MaxLogText : nat := 2048.
Definition LogQueueSize : nat := 256.

(** [unicode.IsControl]: the C0 and C1 sets and delete. *)
Definition IsControl (r : N) : bool := bool_decide (r < 32 ∨ 127 ≤ r ∧ r < 160)%N.

Definition replacement : list ascii := [ascii_of_N 239; ascii_of_N 191; ascii_of_N 189].

(** [strings.Map] with the replacement of control characters: what is no
    UTF-8 becomes the replacement character; every rune is at least a byte. *)
Fixpoint map_runes (fuel : nat) (l : list ascii) : list ascii :=
  match fuel, l with
  | _, [] | 0, _ => []
  | S fuel, _ =>
    let r := DecodeRune l in
    (if IsControl r.1 then [" "%char] else if invalid_rune r then replacement else take r.2 l) ++ map_runes fuel (drop r.2 l)
  end.

Definition PublicLogText (value : string) : string :=
  let value := if Nat.ltb MaxLogText (String.length value) then String.substring 0 MaxLogText value +:+ "[truncated]" else value in
  of_chars (map_runes (String.length value) (chars value)).

(** [Secret] discards what it is given. *)
Definition Secret {A} (_ : A) : string := "[redacted]".

(** ** The relay (internal/plugins/diagnostics.go) *)

Definition wrap64 (n : Z) : Z := n mod 2 ^ 64.

Record LogRecord := MkLogRecord {
  lg_Complete : bool; lg_Time : option Z; lg_Level : Z; lg_Message : string; lg_Fields : gmap string string;
  lg_CallID : string; lg_Sequence : Z; lg_Dropped : Z;
}.

Record logCall := MkLogCall { lcl_feature : string; lcl_node : string; lcl_phase : string }.

(** The part of a request the relay keeps. *)
Record registration := MkRegistration { rg_ID : string; rg_call : logCall }.

(** A line of the host's log. *)
Record line := MkLine { ln_Level : Z; ln_Message : string; ln_args : list (string * string) }.

Record logRelay := MkRelay {
  rl_queue : list LogRecord;
  rl_calls : gmap string logCall;
  rl_pending : gset string;
  rl_order : list string;
  rl_dropped : Z;
  rl_incomplete : Z;
  rl_streamFailed : bool;
  rl_window : option Z;
  rl_received : nat;
  rl_lines : list line;
}.
Definition newLogRelay : logRelay := MkRelay [] ∅ ∅ [] 0 0 false None 0 [].

Definition drop_n (r : logRelay) (n : Z) : logRelay :=
  MkRelay (rl_queue r) (rl_calls r) (rl_pending r) (rl_order r) (wrap64 (rl_dropped r + n)) (rl_incomplete r) (rl_streamFailed r)
    (rl_window r) (rl_received r) (rl_lines r).
Definition set_calls (r : logRelay) (calls : gmap string logCall) (pending : gset string) (order : list string) : logRelay :=
  MkRelay (rl_queue r) calls pending order (rl_dropped r) (rl_incomplete r) (rl_streamFailed r) (rl_window r) (rl_received r) (rl_lines r).
Definition set_queue (r : logRelay) (queue : list LogRecord) : logRelay :=
  MkRelay queue (rl_calls r) (rl_pending r) (rl_order r) (rl_dropped r) (rl_incomplete r) (rl_streamFailed r) (rl_window r) (rl_received r) (rl_lines r).
Definition set_window (r : logRelay) (window : option Z) (received : nat) : logRelay :=
  MkRelay (rl_queue r) (rl_calls r) (rl_pending r) (rl_order r) (rl_dropped r) (rl_incomplete r) (rl_streamFailed r) window received (rl_lines r).
Definition add_line (r : logRelay) (l : line) : logRelay :=
  MkRelay (rl_queue r) (rl_calls r) (rl_pending r) (rl_order r) (rl_dropped r) (rl_incomplete r) (rl_streamFailed r) (rl_window r) (rl_received r)
    (rl_lines r ++ [l]).
Definition add_incomplete (r : logRelay) (n : Z) (failed : bool) : logRelay :=
  MkRelay (rl_queue r) (rl_calls r) (rl_pending r) (rl_order r) (rl_dropped r) (wrap64 (rl_incomplete r + n)) (rl_streamFailed r || failed)
    (rl_window r) (rl_received r) (rl_lines r).

(** Only the last 512 calls are remembered. *)
Definition register (r : logRelay) (q : registration) : logRelay :=
  let calls := <[rg_ID q := rg_call q]> (rl_calls r) in
  let pending := {[rg_ID q]} ∪ rl_pending r in
  let order := rl_order r ++ [rg_ID q] in
  match order with
  | oldest :: rest =>
    if Nat.ltb 512 (length order) then set_calls r (delete oldest calls) (pending ∖ {[oldest]}) rest
    else set_calls r calls pending order
  | [] => set_calls r calls pending order
  end.

Definition second : Z := 1000000000.
Definition LevelDebug : Z := -4.
Definition LevelError : Z := 8.
Definition LevelWarn : Z := 4.

Section Relay.
Context (alias invocation : string) (Enabled : Z → bool) (format_time : Z → string).

Definition with_message (e : LogRecord) (m : string) : LogRecord :=
  MkLogRecord (lg_Complete e) (lg_Time e) (lg_Level e) m (lg_Fields e) (lg_CallID e) (lg_Sequence e) (lg_Dropped e).

(** At most 2000 records a second are taken; a full queue never blocks. *)
Definition receive (r : logRelay) (now : Z) (entry : LogRecord) : logRelay :=
  if lg_Complete entry
  then drop_n (set_calls r (rl_calls r) (rl_pending r ∖ {[lg_CallID entry]}) (rl_order r)) (lg_Dropped entry)
  else
    let r := drop_n r (lg_Dropped entry) in
    if negb (Enabled (lg_Level entry)) then r
    else
      let r := match rl_window r with
               | Some start => if decide (second ≤ now - start)%Z then set_window r (Some now) 0 else r
               | None => set_window r (Some now) 0
               end in
      let r := set_window r (rl_window r) (S (rl_received r)) in
      if Nat.ltb 2000 (rl_received r) then drop_n r 1
      else if Nat.ltb (length (rl_queue r)) LogQueueSize
           then set_queue r (rl_queue r ++ [with_message entry (PublicLogText (lg_Message entry))])
           else drop_n r 1.

Definition nonempty (key value : string) : list (string * string) := if decide (value = "") then [] else [(key, value)].

Definition field_args (fields : gmap string string) : list (string * string) :=
  (λ key, ("fields." +:+ PublicLogText key, PublicLogText (default "" (fields !! key)))) <$> take 16 (sorted_keys fields).

(** The provenance of a line is what the host registered for the call. *)
Definition line_args (call : logCall) (entry : LogRecord) : list (string * string) :=
  [("component", "plugin"); ("plugin", alias); ("invocation_id", invocation); ("call_id", lg_CallID entry);
   ("sequence", pretty (lg_Sequence entry))]
  ++ nonempty "feature" (lcl_feature call) ++ nonempty "node" (lcl_node call) ++ nonempty "phase" (lcl_phase call)
  ++ match lg_Time entry with Some t => [("emitted_at", format_time t)] | None => [] end
  ++ field_args (lg_Fields entry).

Definition write (r : logRelay) (entry : LogRecord) : logRelay :=
  match rl_calls r !! lg_CallID entry with
  | None => drop_n r 1
  | Some call =>
    if bool_decide (lg_Level entry < LevelDebug)%Z || bool_decide (LevelError < lg_Level entry)%Z then drop_n r 1
    else add_line r (MkLine (lg_Level entry) (lg_Message entry) (line_args call entry))
  end.

(** One turn of [run]: the oldest record of the queue. *)
Definition write_next (r : logRelay) : logRelay :=
  match rl_queue r with [] => r | entry :: queue => write (set_queue r queue) entry end.

(** What [run] ends with, once the queue is drained. *)
Definition summary (r : logRelay) : list line :=
  if bool_decide (0 < rl_dropped r)%Z || bool_decide (0 < rl_incomplete r)%Z || rl_streamFailed r
  then [MkLine LevelWarn "plugin diagnostics are incomplete"
          [("component", "plugin_host"); ("plugin", alias); ("code", if rl_streamFailed r then "log_stream_failed" else "log_dropped");
           ("count", pretty (rl_dropped r)); ("incomplete_calls", pretty (rl_incomplete r))]]
  else [].

Fixpoint drain (n : nat) (r : logRelay) : logRelay := match n with O => r | S n => drain n (write_next r) end.
Definition run_end (r : logRelay) : list line :=
  let r := drain (length (rl_queue r)) r in rl_lines r ++ summary r.

(** [flush] that ran out of time counts the calls still pending. *)
Definition flush_expired (r : logRelay) : logRelay := add_incomplete r (Z.of_nat (size (rl_pending r))) false.

(** A response that says its completion marker was not delivered. *)
Definition logs_incomplete (r : logRelay) (callID : string) : logRelay :=
  add_incomplete (set_calls r (rl_calls r) (rl_pending r ∖ {[callID]}) (rl_order r)) 1 false.

Definition stream_failed (r : logRelay) : logRelay := add_incomplete r 0 true.

Inductive relay_step :=
  | Register (q : registration)
  | Receive (now : Z) (entry : LogRecord)
  | WriteNext
  | FlushExpired
  | LogsIncomplete (callID : string)
  | StreamFailed.

Definition relay_do (r : logRelay) (s : relay_step) : logRelay :=
  match s with
  | Register q => register r q
  | Receive now entry => receive r now entry
  | WriteNext => write_next r
  | FlushExpired => flush_expired r
  | LogsIncomplete callID => logs_incomplete r callID
  | StreamFailed => stream_failed r
  end.
Definition relay_run (steps : list relay_step) : logRelay := foldl relay_do newLogRelay steps.
End Relay.
