(* ===== verification/LogsProofs.v ===== *)
(** Plugin diagnostics are bounded, attributable and accounted for (for
    PluginLogs.v): no text of a plugin reaches the host's log with a control
    character in it, every line carries the identity the host registered, and
    whatever the interleaving no record is lost without being counted. *)
From stdpp Require Import pretty.
From S2P Require Import Prelude GoLib GoPath PluginLogs.

(** ** Public text *)

Fixpoint decoded (fuel : nat) (l : list ascii) : list N :=
  match fuel, l with
  | _, [] | 0, _ => []
  | S fuel, _ => let r := DecodeRune l in r.1 :: decoded fuel (drop r.2 l)
  end.

Lemma byte_at_take l k w i : i < w → w ≤ length l → byte_at (take w l ++ k) i = byte_at l i.
Proof.
  intros Hi Hw. unfold byte_at. rewrite lookup_app_l by (rewrite length_take; lia). by rewrite lookup_take_lt.
Qed.

(** A rune is decoded from its own bytes. *)
Lemma DecodeRune_agree l l' : byte_at l 0 ≠ None → invalid_rune (DecodeRune l) = false →
  (∀ i, i < (DecodeRune l).2 → byte_at l' i = byte_at l i) → DecodeRune l' = DecodeRune l.
Proof.
  intros H0 Hinv Hb. assert (1 ≤ (DecodeRune l).2) as Hw by (apply DecodeRune_width; by intros ->).
  assert (byte_at l' 0 = byte_at l 0) as E0 by (apply Hb; lia).
  pose proof (Hb 1) as E1. pose proof (Hb 2) as E2. pose proof (Hb 3) as E3. clear Hb Hw.
  unfold DecodeRune in *. rewrite E0. destruct (byte_at l 0) as [b0|]; [|done]. destruct (second_bounds b0) as [lo hi].
  repeat case_decide; try done; (destruct (cont lo hi (byte_at l 1)) eqn:C1; [|done]);
    try (destruct (cont 128 191 (byte_at l 2)) eqn:C2; [|done]); try (destruct (cont 128 191 (byte_at l 3)) eqn:C3; [|done]);
    simpl in E1, E2, E3; rewrite ?E1, ?E2, ?E3 by lia; rewrite C1; try rewrite C2; try rewrite C3; done.
Qed.

Lemma DecodeRune_prefix l k : l ≠ [] → invalid_rune (DecodeRune l) = false →
  DecodeRune (take (DecodeRune l).2 l ++ k) = DecodeRune l.
Proof.
  intros Hl Hinv. pose proof (DecodeRune_width l Hl) as Hw. apply DecodeRune_agree; [by destruct l|done|].
  intros i Hi. by apply byte_at_take; [|lia].
Qed.

Lemma decoded_cons n r piece rest : length piece ≠ 0 → DecodeRune (piece ++ rest) = (r, length piece) →
  decoded (S n) (piece ++ rest) = r :: decoded n rest.
Proof.
  intros Hp Hd. destruct piece as [|c piece]; [done|]. cbn [decoded app]. rewrite app_comm_cons, Hd. cbn [fst snd]. f_equal.
  by rewrite drop_app_length.
Qed.

Lemma map_runes_decoded fuel : ∀ l n, length l ≤ fuel → length (map_runes fuel l) ≤ n →
  Forall (λ r, IsControl r = false) (decoded n (map_runes fuel l)) ∧ length (map_runes fuel l) ≤ 3 * length l.
Proof.
  induction fuel as [|fuel IH]; intros l n Hl Hn.
  { destruct l; [|simpl in Hl; lia]. split; [by destruct n|simpl; lia]. }
  destruct l as [|c l]; [split; [by destruct n|simpl; lia]|]. cbn [map_runes] in Hn |- *.
  pose proof (DecodeRune_width (c :: l) ltac:(done)) as Hw. destruct (DecodeRune (c :: l)) as [r w] eqn:Hr. cbn [fst snd] in *.
  set (rest := drop w (c :: l)) in *.
  assert (length rest = length (c :: l) - w) as Hlr by (unfold rest; by rewrite length_drop).
  set (piece := if IsControl r then _ else _) in *.
  assert (1 ≤ length piece ≤ 3 * w ∧ ∃ r', DecodeRune (piece ++ map_runes fuel rest) = (r', length piece) ∧ IsControl r' = false)
    as [Hp (r' & Hd & Hc)].
  { unfold piece. destruct (IsControl r) eqn:Hctl; [split; [simpl; lia|]; by exists 32%N|].
    destruct (invalid_rune (r, w)) eqn:Hinv; [split; [simpl; lia|]; by exists 65533%N|].
    rewrite length_take, Nat.min_l by lia. split; [lia|]. exists r. split; [|done].
    pose proof (DecodeRune_prefix (c :: l) (map_runes fuel rest)) as Hpre. rewrite Hr in Hpre. by apply Hpre. }
  rewrite length_app in Hn |- *. destruct n as [|n]; [lia|].
  destruct (IH rest n) as [IH1 IH2]; [simpl in *; lia|lia|]. split; [|simpl in *; lia].
  rewrite (decoded_cons _ r') by (done || lia). by constructor.
Qed.

Definition public (s : string) : Prop :=
  String.length s ≤ 3 * (MaxLogText + 11) ∧ Forall (λ r, IsControl r = false) (decoded (String.length s) (chars s)).

(** Whatever a plugin writes, its text is short and holds no control rune. *)
Lemma PublicLogText_public s : public (PublicLogText s).
Proof.
  unfold public, PublicLogText. set (v := if Nat.ltb _ _ then _ else _).
  assert (String.length v ≤ MaxLogText + 11) as Hv.
  { unfold v. destruct (Nat.ltb_spec MaxLogText (String.length s)) as [Hlt|]; [|lia].
    rewrite string_length_chars, chars_app, chars_substring_0, length_app, length_take.
    change (length (chars "[truncated]")) with 11. generalize MaxLogText. lia. }
  rewrite !string_length_chars, chars_of_chars. rewrite string_length_chars in Hv.
  destruct (map_runes_decoded (length (chars v)) (chars v) (length (map_runes (length (chars v)) (chars v)))) as [H1 H2]; [done..|].
  split; [lia|done].
Qed.

(** ** The relay *)

Section Relay.
Context (alias invocation : string) (Enabled : Z → bool) (format_time : Z → string).

Notation run := (relay_run alias invocation Enabled format_time).

(** What a step contributes to the count of records that were to be shown. *)
Definition taken (s : relay_step) : Z :=
  match s with Receive _ e => if negb (lg_Complete e) && Enabled (lg_Level e) then 1 else 0 | _ => 0 end%Z.
Definition reported (s : relay_step) : Z := match s with Receive _ e => lg_Dropped e | _ => 0%Z end.
Definition total (f : relay_step → Z) (steps : list relay_step) : Z := foldr (λ s n, f s + n)%Z 0%Z steps.

Lemma total_snoc f steps s : total f (steps ++ [s]) = (total f steps + f s)%Z.
Proof. unfold total. induction steps as [|x steps IH]; simpl; lia. Qed.

(** Where a queued record comes from. *)
Definition arrived (steps : list relay_step) (e : LogRecord) : Prop :=
  ∃ now e0, Receive now e0 ∈ steps ∧ lg_Complete e0 = false ∧ e = with_message e0 (PublicLogText (lg_Message e0)).

(** Where a line comes from: a record of this call, under the identity the
    host gave the call. *)
Definition attributed (steps : list relay_step) (l : line) : Prop :=
  ∃ q e, Register q ∈ steps ∧ arrived steps e ∧ rg_ID q = lg_CallID e ∧ (LevelDebug ≤ lg_Level e ≤ LevelError)%Z ∧
    l = MkLine (lg_Level e) (lg_Message e) (line_args alias invocation format_time (rg_call q) e).

Record relay_ok (steps : list relay_step) (r : logRelay) : Prop := {
  ok_queue : length (rl_queue r) ≤ LogQueueSize;
  ok_order : length (rl_order r) ≤ 512;
  ok_calls id call : rl_calls r !! id = Some call → id ∈ rl_order r ∧ Register (MkRegistration id call) ∈ steps;
  ok_pending id : id ∈ rl_pending r → is_Some (rl_calls r !! id);
  ok_arrived e : e ∈ rl_queue r → arrived steps e;
  ok_lines l : l ∈ rl_lines r → attributed steps l;
  ok_count : rl_dropped r = wrap64 (total reported steps + total taken steps - Z.of_nat (length (rl_queue r)) - Z.of_nat (length (rl_lines r)));
}.

Lemma arrived_more steps s e : arrived steps e → arrived (steps ++ [s]) e.
Proof. intros (now & e0 & Hin & ?). exists now, e0. split; [set_solver|done]. Qed.
Lemma attributed_more steps s l : attributed steps l → attributed (steps ++ [s]) l.
Proof. intros (q & e & Hin & He & ?). exists q, e. split; [set_solver|]. split; [by apply arrived_more|done]. Qed.

Lemma wrap64_add a b : wrap64 (wrap64 a + b) = wrap64 (a + b).
Proof. unfold wrap64. by rewrite Zplus_mod_idemp_l. Qed.

Lemma wrap64_nonneg a : (0 ≤ wrap64 a)%Z.
Proof. by apply Z.mod_pos_bound. Qed.

(** A step that touches none of the queue, the lines and the counts. *)
Lemma relay_ok_same steps s r r' : relay_ok steps r → taken s = 0%Z → reported s = 0%Z →
  rl_queue r' = rl_queue r → rl_lines r' = rl_lines r → rl_dropped r' = rl_dropped r →
  length (rl_order r') ≤ 512 →
  (∀ id call, rl_calls r' !! id = Some call → id ∈ rl_order r' ∧ Register (MkRegistration id call) ∈ steps ++ [s]) →
  (∀ id, id ∈ rl_pending r' → is_Some (rl_calls r' !! id)) → relay_ok (steps ++ [s]) r'.
Proof.
  intros Hok Ht Hr Hq Hl Hd Ho Hc Hp. split; rewrite ?Hq, ?Hl, ?Hd; try done; try apply Hok.
  - intros e He. apply arrived_more. by apply Hok.
  - intros l Hin. apply attributed_more. by apply Hok.
  - rewrite (ok_count _ _ Hok), !total_snoc, Ht, Hr. f_equal. lia.
Qed.

Lemma calls_more steps s r : relay_ok steps r →
  ∀ id call, rl_calls r !! id = Some call → id ∈ rl_order r ∧ Register (MkRegistration id call) ∈ steps ++ [s].
Proof. intros Hok id call Hc. destruct (ok_calls _ _ Hok id call Hc). set_solver. Qed.

Lemma register_ok steps r q : relay_ok steps r → relay_ok (steps ++ [Register q]) (register r q).
Proof.
  intros Hok.
  assert (∀ id call, <[rg_ID q := rg_call q]> (rl_calls r) !! id = Some call →
    id ∈ rl_order r ++ [rg_ID q] ∧ Register (MkRegistration id call) ∈ steps ++ [Register q]) as Hc.
  { intros id call [[<- <-]|[_ Hid]]%lookup_insert_Some; [|apply (calls_more _ (Register q) _ Hok) in Hid; set_solver].
    destruct q. set_solver. }
  assert (∀ id, id ∈ {[rg_ID q]} ∪ rl_pending r → is_Some (<[rg_ID q := rg_call q]> (rl_calls r) !! id)) as Hp.
  { intros id [->%elem_of_singleton|Hid]%elem_of_union; rewrite lookup_insert_is_Some; [by left|].
    destruct (decide (rg_ID q = id)); [by left|right]. split; [done|]. by apply Hok. }
  pose proof (ok_order _ _ Hok) as Ho. unfold register. destruct (rl_order r ++ [rg_ID q]) as [|oldest rest] eqn:Hord; [by destruct (rl_order r)|].
  assert (length (rl_order r) = length rest) as Hlen by (apply (f_equal length) in Hord; rewrite length_app in Hord; simpl in Hord; lia).
  destruct (Nat.ltb_spec 512 (length (oldest :: rest))) as [Hlt|Hge]; eapply (relay_ok_same steps _ r); try done; simpl.
  - simpl in Hlt. lia.
  - intros id call [Hne Hid]%lookup_delete_Some. apply Hc in Hid as [Hin ?]. split; [|done]. by apply elem_of_cons in Hin as [->|].
  - intros id [Hid Hne]%elem_of_difference. rewrite lookup_delete_is_Some. split; [set_solver|by apply Hp].
Qed.

(** Counting what is dropped. *)
Lemma drop_ok steps s r n : relay_ok steps r → (total reported [s] + total taken [s] = n)%Z →
  relay_ok (steps ++ [s]) (drop_n r n).
Proof.
  intros Hok Hn. split; try apply Hok.
  - intros id call Hc. by apply (calls_more _ s _ Hok).
  - intros e He. apply arrived_more. by apply Hok.
  - intros l Hl. apply attributed_more. by apply Hok.
  - simpl in *. rewrite (ok_count _ _ Hok), wrap64_add, !total_snoc. f_equal. lia.
Qed.

Lemma drop_n_drop r a b : drop_n (drop_n r a) b = drop_n r (a + b).
Proof. unfold drop_n. simpl. f_equal. rewrite wrap64_add. f_equal. lia. Qed.

Lemma set_window_ok steps r w n : relay_ok steps r → relay_ok steps (set_window r w n).
Proof. intros Hok. split; apply Hok. Qed.

Lemma receive_ok steps r now e : relay_ok steps r → relay_ok (steps ++ [Receive now e]) (receive Enabled r now e).
Proof.
  intros Hok. unfold receive. destruct (lg_Complete e) eqn:Hc.
  { apply (drop_ok _ _ (set_calls r _ _ _)); [|simpl; rewrite Hc; simpl; lia].
    split; try apply Hok. simpl. intros id [Hid _]%elem_of_difference. by apply Hok. }
  destruct (Enabled (lg_Level e)) eqn:He; cbn [negb]; [|apply drop_ok; [done|simpl; rewrite Hc, He; simpl; lia]].
  match goal with |- context [set_window ?x (rl_window ?x) ?k] => set (r1 := x) end.
  assert (∃ w n, set_window r1 (rl_window r1) (S (rl_received r1)) = set_window (drop_n r (lg_Dropped e)) w n) as (w & n & Hr2).
  { unfold r1. simpl. destruct (rl_window r); [case_decide|]; by eexists _, _. }
  rewrite Hr2.
  assert (relay_ok (steps ++ [Receive now e]) (drop_n (set_window (drop_n r (lg_Dropped e)) w n) 1)) as Hdrop.
  { change (drop_n (set_window (drop_n r (lg_Dropped e)) w n) 1) with (set_window (drop_n (drop_n r (lg_Dropped e)) 1) w n).
    apply set_window_ok. rewrite drop_n_drop. apply drop_ok; [done|]. simpl. rewrite Hc, He. simpl. lia. }
  destruct (Nat.ltb 2000 _); [exact Hdrop|]. destruct (Nat.ltb_spec (length (rl_queue (set_window (drop_n r (lg_Dropped e)) w n))) LogQueueSize) as [Hq|]; [|exact Hdrop].
  simpl in Hq |- *. split; simpl; try apply Hok.
  - rewrite length_app. simpl. lia.
  - intros id call Hcl. by apply (calls_more _ (Receive now e) _ Hok).
  - intros e' [He'|He'%list_elem_of_singleton]%elem_of_app; [apply arrived_more; by apply Hok|].
    exists now, e. split; [set_solver|done].
  - intros l Hl. apply attributed_more. by apply Hok.
  - rewrite (ok_count _ _ Hok), wrap64_add, !total_snoc, length_app. simpl. rewrite Hc, He. simpl. f_equal. lia.
Qed.

Lemma write_next_ok steps r : relay_ok steps r →
  relay_ok (steps ++ [WriteNext]) (write_next alias invocation format_time r).
Proof.
  intros Hok. unfold write_next. destruct (rl_queue r) as [|e queue] eqn:Hq.
  { eapply (relay_ok_same _ _ r); try done; try apply Hok. by apply calls_more. }
  assert (arrived steps e) as He by (apply Hok; rewrite Hq; by left).
  assert (∀ e', e' ∈ queue → arrived (steps ++ [WriteNext]) e') as Hrest.
  { intros e' Hin. apply arrived_more, Hok. rewrite Hq. by right. }
  pose proof (ok_queue _ _ Hok) as Hlen. rewrite Hq in Hlen. simpl in Hlen.
  pose proof (ok_count _ _ Hok) as Hn. rewrite Hq in Hn. cbn [length] in Hn.
  assert (relay_ok (steps ++ [WriteNext]) (drop_n (set_queue r queue) 1)) as Hdrop.
  { split; simpl; try apply Hok; try done; [lia|by apply calls_more| |].
    - intros l Hl. apply attributed_more. by apply Hok.
    - rewrite Hn, wrap64_add, !total_snoc. simpl. f_equal. lia. }
  unfold write. simpl. destruct (rl_calls r !! lg_CallID e) as [call|] eqn:Hcall; [|exact Hdrop].
  destruct (_ || _) eqn:Hlev; [exact Hdrop|]. apply orb_false_iff in Hlev as [H1%bool_decide_eq_false H2%bool_decide_eq_false].
  destruct (ok_calls _ _ Hok _ _ Hcall) as [_ Hreg].
  split; simpl; try apply Hok; try done; [lia|by apply calls_more| |].
  - intros l [Hl|Hl%list_elem_of_singleton]%elem_of_app; [apply attributed_more; by apply Hok|].
    apply attributed_more. exists (MkRegistration (lg_CallID e) call), e. split_and!; [done..|lia|lia|done].
  - rewrite Hn, !total_snoc, length_app. simpl. f_equal. lia.
Qed.

Lemma relay_run_ok steps : relay_ok steps (run steps).
Proof.
  induction steps as [|s steps IH] using rev_ind.
  { split; simpl; [unfold LogQueueSize; lia|lia|intros ? ? Hx; by rewrite lookup_empty in Hx|by intros ? Hx%elem_of_empty|
      by intros ? Hx%elem_of_nil|by intros ? Hx%elem_of_nil|done]. }
  unfold relay_run. rewrite foldl_app. simpl. fold (run steps). destruct s; simpl.
  - by apply register_ok.
  - by apply receive_ok.
  - by apply write_next_ok.
  - apply (relay_ok_same _ _ (run steps)); [done..|apply IH|exact (calls_more _ _ _ IH)|apply IH].
  - apply (relay_ok_same _ _ (run steps)); [done..|apply IH|exact (calls_more _ _ _ IH)|].
    simpl. intros id [Hid _]%elem_of_difference. by apply IH.
  - apply (relay_ok_same _ _ (run steps)); [done..|apply IH|exact (calls_more _ _ _ IH)|apply IH].
Qed.

Lemma write_queue r e : rl_queue (write alias invocation format_time r e) = rl_queue r.
Proof. unfold write. destruct (rl_calls r !! _); [destruct (_ || _)|]; done. Qed.

Lemma drain_run n : ∀ steps, drain alias invocation format_time n (run steps) = run (steps ++ replicate n WriteNext).
Proof.
  induction n as [|n IH]; intros steps; simpl; [by rewrite (right_id_L [] (++))|].
  change (WriteNext :: replicate n WriteNext) with ([WriteNext] ++ replicate n WriteNext). rewrite (assoc_L (++)), <-IH.
  f_equal. unfold relay_run. by rewrite foldl_app.
Qed.

Lemma drain_empty n : ∀ r, length (rl_queue r) ≤ n → rl_queue (drain alias invocation format_time n r) = [].
Proof.
  induction n as [|n IH]; intros r Hn; simpl; [destruct (rl_queue r); [done|simpl in Hn; lia]|].
  apply IH. unfold write_next. destruct (rl_queue r) as [|e queue] eqn:Hq; [rewrite Hq; simpl; lia|]. rewrite write_queue. simpl in *. lia.
Qed.

Lemma total_writes f n steps : f WriteNext = 0%Z → total f (steps ++ replicate n WriteNext) = total f steps.
Proof.
  intros Hf. induction n as [|n IH]; simpl; [by rewrite (right_id_L [] (++))|].
  rewrite replicate_cons_app, (assoc_L (++)), total_snoc, IH, Hf. lia.
Qed.

(** What a message of an attributed line is. *)
Lemma attributed_public steps l : attributed steps l → public (ln_Message l).
Proof. intros (q & e & _ & (now & e0 & _ & _ & ->) & _ & _ & ->). apply PublicLogText_public. Qed.

(** Plugin diagnostics stay bounded and accountable under every
    interleaving of calls, records, writes and failures.  The queue and the
    remembered calls never exceed their limits.  Every line of the host's log
    has a public text and a level the host knows, and names the feature, node
    and phase that the host registered for the call, whatever the plugin said.
    When the relay ends the queue is drained, and lines and dropped records add
    up (modulo the counter) to the records the plugins sent for showing plus
    those they reported lost; the last line says so unless nothing was
    dropped. *)
Theorem logs_accountable steps :
  let r := run steps in
  length (rl_queue r) ≤ LogQueueSize ∧ length (rl_order r) ≤ 512 ∧
  (∀ id, is_Some (rl_calls r !! id) → id ∈ rl_order r) ∧
  (∀ l, l ∈ rl_lines r → attributed steps l ∧ public (ln_Message l)) ∧
  ∃ last, run_end alias invocation format_time r = rl_lines last ++ summary alias last ∧
    rl_queue last = [] ∧ (∀ l, l ∈ rl_lines last → public (ln_Message l)) ∧
    rl_dropped last = wrap64 (total reported steps + total taken steps - Z.of_nat (length (rl_lines last))) ∧
    (summary alias last = [] → rl_dropped last = 0%Z).
Proof.
  intros r. pose proof (relay_run_ok steps) as Hok. fold r in Hok.
  split; [apply Hok|]. split; [apply Hok|].
  split; [intros id [call Hc]; by apply (ok_calls _ _ Hok) in Hc as []|].
  split; [intros l Hl; pose proof (ok_lines _ _ Hok l Hl); split; [done|by eapply attributed_public]|].
  set (n := length (rl_queue r)). exists (run (steps ++ replicate n WriteNext)).
  pose proof (drain_run n steps) as Hdrain. split; [unfold run_end; fold n; unfold r; by rewrite Hdrain|].
  assert (rl_queue (run (steps ++ replicate n WriteNext)) = []) as Hq by (rewrite <-Hdrain; by apply drain_empty).
  pose proof (relay_run_ok (steps ++ replicate n WriteNext)) as Hend. split; [exact Hq|].
  split; [intros l Hl; eapply attributed_public; by apply (ok_lines _ _ Hend)|].
  pose proof (ok_count _ _ Hend) as Hc. rewrite Hq, !total_writes in Hc by done. split; [rewrite Hc; f_equal; simpl; lia|].
  unfold summary. destruct (bool_decide (0 < _)%Z) eqn:Hd; [done|]. intros _. apply bool_decide_eq_false in Hd.
  rewrite Hc in Hd |- *. pose proof (wrap64_nonneg (total reported steps + total taken steps - Z.of_nat (length (@nil LogRecord))
    - Z.of_nat (length (rl_lines (run (steps ++ replicate n WriteNext)))))). lia.
Qed.
End Relay.

(** A message cannot start a line of its own. *)
Example public_newline : PublicLogText (String "a" (String (ascii_of_nat 10) "b")) = "a b".
Proof. reflexivity. Qed.
