(* ===== verification/PluginSession.v ===== *)
(** Sessions of a plugin process (src/internal/plugins/session.go) and the
    transfer of plan documents (src/plugin/plan_stream.go).

    Several goroutines call one session.  A call is a small program over the
    session's shared state (the closed flag and the gate, a channel of
    capacity one); what the context, the encoding and the plugin process
    answer arrives with the step that needs it, so the theorems hold for every
    interleaving and every answer. *)
From S2P Require Import Prelude GoLib PluginPackage.

(** ** Calls *)

Definition MaxPlanSize : Z := 64 * 2 ^ 20.

Record CallError := MkCallError { Code : string; Fatal : bool; Retryable : bool; Sent : bool; OutcomeUnknown : bool }.
Inductive failure := CallFailed (e : CallError) | Refused (message : string).

(** A call refused before it was sent. *)
Definition unsent (code : string) (fatal : bool) : failure := CallFailed (MkCallError code fatal false false false).

Inductive status := StatusCanceled | StatusDeadlineExceeded | StatusResourceExhausted | StatusOther.

Record Fault := MkFault { ft_Code : string; ft_Fatal : bool; ft_Retryable : bool }.

(** What the RPC came back with; the response itself is opaque. *)
Inductive answer (R : Type) := RpcFailed (s : status) | RpcFault (f : Fault) | RpcOk (response : R).
Arguments RpcFailed {_} s.
Arguments RpcFault {_} f.
Arguments RpcOk {_} response.

Definition code_start (c : ascii) : bool := let n := nat_of_ascii c in Nat.leb 97 n && Nat.leb n 122.
Definition code_char (c : ascii) : bool :=
  let n := nat_of_ascii c in code_start c || (Nat.leb 48 n && Nat.leb n 57) || Nat.eqb n 95.

(** [publicCode]. *)
Definition publicCode (s : string) : bool :=
  match chars s with [] => false | c :: l => code_start c && forallb code_char l && Nat.leb (length l) 63 end.

Definition transport_failure (s : status) : CallError :=
  MkCallError (match s with
               | StatusCanceled => "call_cancelled"
               | StatusDeadlineExceeded => "call_timeout"
               | StatusResourceExhausted => "response_too_large"
               | StatusOther => "transport_failed"
               end) true false true true.

Definition fault_failure (f : Fault) : CallError :=
  let invalid := negb (publicCode (ft_Code f)) in
  MkCallError (if invalid then "invalid_fault" else ft_Code f) (ft_Fatal f || invalid) (ft_Retryable f) true (ft_Fatal f).

(** What a caller brings: the plan's size, the timeout and the encoded size. *)
Record request := MkRequest { rq_plan : Z; rq_timeout : Z; rq_encoded : option Z }.

Section Session.
Context {R : Type}.

Inductive pc :=
  | Start (q : request)
  | Queued (q : request)
  | Entered (q : request)
  | Checked (q : request)
  | Invoking
  | Failing (f : CallError)
  | Returned (r : R + failure).

Record Session := MkSession { closed : bool; gate : option nat; callers : gmap nat pc; trace : list (nat * bool) }.

(** The trace: [(t, false)] when the call of [t] is handed to the transport,
    [(t, true)] when a call that was sent returned a fatal failure. *)
Definition set_pc (s : Session) (t : nat) (p : pc) : Session := MkSession (closed s) (gate s) (<[t := p]> (callers s)) (trace s).
Definition set_gate (s : Session) (g : option nat) : Session := MkSession (closed s) g (callers s) (trace s).
Definition log (s : Session) (ev : nat * bool) : Session := MkSession (closed s) (gate s) (callers s) (ev :: trace s).
Definition set_closed (s : Session) : Session := MkSession true (gate s) (callers s) (trace s).

Definition is_fatal (r : R + failure) : bool := match r with inr (CallFailed f) => Fatal f && Sent f | _ => false end.
Definition return_ (s : Session) (t : nat) (r : R + failure) : Session :=
  let s := set_pc s t (Returned r) in if is_fatal r then log s (t, true) else s.

(** The deferred release of the gate, then the return. *)
Definition leave (s : Session) (t : nat) (r : R + failure) : Session := return_ (set_gate s None) t r.

(** What one step of a caller meets. *)
Inductive move :=
  | Go
  | Cancelled
  | Answer (a : answer R).

Definition call_step (s : Session) (t : nat) (m : move) : option Session :=
  p ← callers s !! t;
  match p, m with
  | Start q, Go =>
    Some (if bool_decide (MaxPlanSize < rq_plan q)%Z then return_ s t (inr (unsent "request_too_large" false))
          else if bool_decide (rq_timeout q <= 0)%Z then return_ s t (inr (Refused "plugin call requires a positive timeout"))
          else if closed s then return_ s t (inr (unsent "session_unavailable" true))
          else set_pc s t (Queued q))
  | Queued q, Go => match gate s with None => Some (set_gate (set_pc s t (Entered q)) (Some t)) | Some _ => None end
  | Queued q, Cancelled => Some (return_ s t (inr (unsent "queue_cancelled" false)))
  | Entered q, Go => Some (if closed s then leave s t (inr (unsent "session_unavailable" true)) else set_pc s t (Checked q))
  | Checked q, Go =>
    Some (match rq_encoded q with
          | None => leave s t (inr (unsent "invalid_request" false))
          | Some n => if bool_decide (MaxMessageSize - 1024 < n)%Z then leave s t (inr (unsent "request_too_large" false))
                      else log (set_pc s t Invoking) (t, false)
          end)
  | Checked q, Cancelled => Some (leave s t (inr (unsent "call_cancelled" false)))
  | Invoking, Answer (RpcFailed st) => Some (set_pc s t (Failing (transport_failure st)))
  | Invoking, Answer (RpcFault f) =>
    Some (if Fatal (fault_failure f) then set_pc s t (Failing (fault_failure f)) else leave s t (inr (CallFailed (fault_failure f))))
  | Invoking, Answer (RpcOk r) => Some (leave s t (inl r))
  | Failing f, Go => Some (leave (set_closed s) t (inr (CallFailed f)))
  | _, _ => None
  end.

(** A new call, a step of one, or [Close] by the session's owner. *)
Inductive label := Call (t : nat) (q : request) | Step (t : nat) (m : move) | CloseSession.

Definition session_step (s : Session) (l : label) : option Session :=
  match l with
  | Call t q => match callers s !! t with None => Some (set_pc s t (Start q)) | Some _ => None end
  | Step t m => call_step s t m
  | CloseSession => Some (set_closed s)
  end.

Definition opened : Session := MkSession false None ∅ [].

(** The states some interleaving reaches. *)
Inductive reachable : Session → Prop :=
  | reach_open : reachable opened
  | reach_step s l s' : reachable s → session_step s l = Some s' → reachable s'.

Fixpoint session_run (s : Session) (ls : list label) : option Session :=
  match ls with [] => Some s | l :: ls => s ← session_step s l; session_run s ls end.
End Session.
Arguments Session : clear implicits.
Arguments move : clear implicits.
Arguments label : clear implicits.

(** ** Opening *)

(** What happened to the process while a session was opened. *)
Inductive open_event := Verified | Launched | Described | LogsOpened | Killed.

Record OpenWorld (Descriptor : Type) := MkOpenWorld {
  ow_cancelled : list open_event → bool;
  ow_valid : result unit;
  ow_checksum : option nat;
  ow_verify : list open_event → bool;
  ow_launch : list open_event → bool;
  ow_dispense : list open_event → bool;
  ow_rpc : bool;
  ow_describe : list open_event → option Descriptor;
  ow_logs : list open_event → bool;
}.
Arguments ow_cancelled {_} _ _.
Arguments ow_valid {_} _.
Arguments ow_checksum {_} _.
Arguments ow_verify {_} _ _.
Arguments ow_launch {_} _ _.
Arguments ow_dispense {_} _ _.
Arguments ow_rpc {_} _.
Arguments ow_describe {_} _ _.
Arguments ow_logs {_} _ _.

Section Open.
Context {Descriptor : Type} (encode : Descriptor → string) (w : OpenWorld Descriptor) (expected : Descriptor).

Definition startup_failed : error := Errors_New "plugin startup_failed".

(** [client.Client()]: the runner verifies the executable's bytes against the
    locked digest before it starts it.  An unreadable file is not valid. *)
Definition start_client (tr : list open_event) : list open_event * bool :=
  if ow_verify w tr then let tr := Verified :: tr in (Launched :: tr, ow_launch w (Launched :: tr)) else (tr, false).

Definition Open : list open_event * result unit :=
  let tr := [] in
  if ow_cancelled w tr then (tr, Err (Sentinel "context canceled"))
  else match ow_valid w with
  | Err e => (tr, Err e)
  | Ok _ =>
    if negb (bool_decide (ow_checksum w = Some 32)) then (tr, Err (Errors_New "plugin checksum is invalid; reinstall the package"))
    else
      let '(tr, ok) := start_client tr in
      if negb ok then (Killed :: tr, Err startup_failed)
      else if negb (ow_dispense w tr) then (Killed :: tr, Err (Errors_New "plugin protocol negotiation failed; install a compatible version"))
      else if negb (ow_rpc w) then (Killed :: tr, Err (Errors_New "plugin protocol mismatch"))
      else
        match ow_describe w tr with
        | Some d =>
          if decide (encode d = encode expected) then
            let tr := Described :: tr in
            if ow_logs w tr && negb (ow_cancelled w tr) then (LogsOpened :: tr, Ok tt)
            else (Killed :: tr, Err (Errors_New "plugin logging protocol unavailable; rebuild the plugin with a compatible SDK"))
          else (Killed :: tr, Err (Errors_New "plugin descriptor_mismatch"))
        | None => (Killed :: tr, Err (Errors_New "plugin descriptor_mismatch"))
        end
  end.
End Open.

(** ** Plan documents (plugin/plan_stream.go) *)

Definition planChunkSize : Z := 2 ^ 20.

(** [invokePlanStream]'s frames; every frame takes at least a byte. *)
Fixpoint plan_frames {A} (fuel : nat) (plan : list A) : list (list A) :=
  match fuel, plan with
  | _, [] | 0, _ => []
  | S fuel, _ => let n := Z.to_nat (Z.min (Z.of_nat (length plan)) planChunkSize) in take n plan :: plan_frames fuel (drop n plan)
  end.
Definition invokePlanStream {A} (plan : list A) : list (list A) := plan_frames (length plan) plan.

(** [servePlan]'s loop over the frames; a request that carries a plan of its
    own was refused before. *)
Fixpoint serve_frames {A} (plan : list A) (frames : list (list A)) : result (list A) :=
  match frames with
  | [] => Ok plan
  | chunk :: frames =>
    let n := Z.of_nat (length chunk) in
    if bool_decide (n = 0)%Z || bool_decide (planChunkSize < n)%Z || bool_decide (MaxPlanSize < Z.of_nat (length plan) + n)%Z
    then Err (Errors_New "plan exceeds transfer limit")
    else serve_frames (plan ++ chunk) frames
  end.
Definition servePlan {A} (carried : list A) (frames : list (list A)) : result (list A) :=
  match carried with [] => serve_frames [] frames | _ => Err (Errors_New "plan must use bounded chunks") end.
