(* ===== verification/SessionProofs.v ===== *)
(** Plugin sessions (for PluginSession.v): one call at a time reaches the
    process, nothing is sent after a fatal failure, and what a caller is told
    is public; a process only runs verified bytes; plan documents arrive
    whole. *)
From S2P Require Import Prelude GoLib PluginSession.

(** ** Calls *)

Section Session.
Context {R : Type}.

(** The programs that hold the gate. *)
Definition inside (p : @pc R) : bool :=
  match p with Entered _ | Checked _ | Invoking | Failing _ => true | _ => false end.

(** Was the call handed to the transport? *)
Definition was_sent (p : @pc R) : bool :=
  match p with
  | Invoking | Failing _ | Returned (inl _) => true
  | Returned (inr (CallFailed f)) => Sent f
  | _ => false
  end.

Definition public_failure (f : CallError) : Prop :=
  publicCode (Code f) = true ∧ (OutcomeUnknown f = true → Sent f = true) ∧ (OutcomeUnknown f = true → Fatal f = true).

Definition telling (p : @pc R) : Prop :=
  match p with
  | Failing f => public_failure f ∧ Fatal f = true ∧ Sent f = true
  | Returned (inr (CallFailed f)) => public_failure f
  | _ => True
  end.

Definition sends (t : nat) (trace : list (nat * bool)) : list (nat * bool) := filter (λ ev, ev = (t, false)) trace.

Record session_ok (s : Session R) : Prop := {
  so_gate t p : callers s !! t = Some p → inside p = true ↔ gate s = Some t;
  so_holder t : gate s = Some t → is_Some (callers s !! t);
  so_sent t p : callers s !! t = Some p → length (sends t (trace s)) = if was_sent p then 1 else 0;
  so_unknown t : callers s !! t = None → sends t (trace s) = [];
  so_telling t p : callers s !! t = Some p → telling p;
  so_fatal t : (t, true) ∈ trace s → closed s = true ∧ ∀ t' q, callers s !! t' ≠ Some (Checked q);
  so_order t l1 l2 : trace s = l1 ++ (t, false) :: l2 → ∀ t', (t', true) ∉ l2;
}.

Lemma opened_ok : session_ok opened.
Proof.
  split; unfold opened; simpl; try done; intros *; try (rewrite lookup_empty; done); [by intros ?%elem_of_nil|by destruct l1].
Qed.

(** A caller moves without the gate, the flag or the trace. *)
Lemma set_pc_ok s t p : session_ok s → inside p = bool_decide (gate s = Some t) →
  length (sends t (trace s)) = (if was_sent p then 1 else 0) → telling p → (∀ q, p = Checked q → closed s = false) →
  session_ok (set_pc s t p).
Proof.
  intros Hok Hin Hsent Htell Hck. split; simpl.
  - intros t' p' [[<- <-]|[Hne Hp]]%lookup_insert_Some; [by rewrite Hin, bool_decide_eq_true|by apply Hok].
  - intros t' Hg. rewrite lookup_insert_is_Some. destruct (decide (t = t')); [by left|right]. split; [done|by apply Hok].
  - intros t' p' [[<- <-]|[Hne Hp]]%lookup_insert_Some; [done|by apply Hok].
  - intros t' [Hn Hne]%lookup_insert_None. by apply Hok.
  - intros t' p' [[<- <-]|[Hne Hp]]%lookup_insert_Some; [done|by eapply Hok].
  - intros t' Hf. destruct (so_fatal _ Hok t' Hf) as [Hc Hno]. split; [done|].
    intros t2 q [[<- Hp]|[Hne Hp]]%lookup_insert_Some; [rewrite (Hck q Hp) in Hc; done|by eapply Hno].
  - apply Hok.
Qed.

Lemma sends_cons t ev l : sends t (ev :: l) = if bool_decide (ev = (t, false)) then ev :: sends t l else sends t l.
Proof. unfold sends. rewrite filter_cons. by repeat case_decide; case_bool_decide. Qed.

(** Recording a fatal failure: only once the session is closed and nobody is
    about to send. *)
Lemma log_fatal_ok s t : session_ok s → closed s = true → (∀ t' q, callers s !! t' ≠ Some (Checked q)) → session_ok (log s (t, true)).
Proof.
  intros Hok Hc Hno. split; simpl; try apply Hok.
  - intros t' p Hp. rewrite sends_cons, bool_decide_false by congruence. by apply Hok.
  - intros t' Hp. rewrite sends_cons, bool_decide_false by congruence. by apply Hok.
  - intros t' _. done.
  - intros t' [|ev l1] l2 [= <- Heq]; simplify_eq. by eapply Hok.
Qed.

(** Leaving the gate. *)
Lemma open_gate_ok s t p : session_ok s → gate s = Some t → inside p = false →
  length (sends t (trace s)) = (if was_sent p then 1 else 0) → telling p → session_ok (set_pc (set_gate s None) t p).
Proof.
  intros Hok Hg Hin Hsent Htell. split; simpl; try done.
  - intros t' p' [[<- <-]|[Hne Hp]]%lookup_insert_Some; [by rewrite Hin|].
    split; [|done]. intros Hi. rewrite (so_gate _ Hok t' p' Hp) in Hi. congruence.
  - intros t' p' [[<- <-]|[Hne Hp]]%lookup_insert_Some; [done|by apply Hok].
  - intros t' [Hn Hne]%lookup_insert_None. by apply Hok.
  - intros t' p' [[<- <-]|[Hne Hp]]%lookup_insert_Some; [done|by eapply Hok].
  - intros t' Hf. destruct (so_fatal _ Hok t' Hf) as [Hc Hno]. split; [done|].
    intros t2 q [[<- Hp]|[Hne Hp]]%lookup_insert_Some; [by subst|by eapply Hno].
  - apply Hok.
Qed.

Lemma set_closed_ok s : session_ok s → session_ok (set_closed s).
Proof. intros Hok. split; simpl; try apply Hok. intros t Hf. split; [done|]. by apply (so_fatal _ Hok t). Qed.

(** Only the caller inside can be about to send. *)
Lemma alone s t p t' q : session_ok s → callers s !! t = Some p → inside p = true → callers s !! t' = Some (Checked q) → t' = t.
Proof.
  intros Hok Hp Hin Hq. apply (so_gate _ Hok t p Hp) in Hin. assert (gate s = Some t') as Hg by by apply (so_gate _ Hok t' _ Hq).
  congruence.
Qed.

Lemma unsent_telling code fatal : publicCode code = true → telling (Returned (inr (unsent code fatal))).
Proof. intros Hc. by split. Qed.
Lemma transport_public st : public_failure (transport_failure st).
Proof. by destruct st. Qed.
Lemma fault_public f : public_failure (fault_failure f).
Proof.
  unfold public_failure, fault_failure. simpl. destruct (publicCode (ft_Code f)) eqn:Hc; simpl; (split; [done|]); (split; [done|]);
    intros ->; done.
Qed.

Lemma take_gate_ok s t q : session_ok s → gate s = None → callers s !! t = Some (Queued q) →
  session_ok (set_gate (set_pc s t (Entered q)) (Some t)).
Proof.
  intros Hok Hg Hp. split; simpl.
  - intros t' p' [[<- <-]|[Hne Hp']]%lookup_insert_Some; [done|]. split; [|congruence].
    intros Hi. rewrite (so_gate _ Hok t' p' Hp') in Hi. congruence.
  - intros t' [= <-]. rewrite lookup_insert_is_Some. by left.
  - intros t' p' [[<- <-]|[Hne Hp']]%lookup_insert_Some; [by apply (so_sent _ Hok _ _ Hp)|by apply Hok].
  - intros t' [Hn Hne]%lookup_insert_None. by apply Hok.
  - intros t' p' [[<- <-]|[Hne Hp']]%lookup_insert_Some; [done|by eapply Hok].
  - intros t' Hf. destruct (so_fatal _ Hok t' Hf) as [Hc Hno]. split; [done|].
    intros t2 q2 [[<- ?]|[Hne Hp2]]%lookup_insert_Some; [done|by eapply Hno].
  - apply Hok.
Qed.

(** Sending: nobody had failed fatally. *)
Lemma send_ok s t q : session_ok s → callers s !! t = Some (Checked q) → session_ok (log (set_pc s t Invoking) (t, false)).
Proof.
  intros Hok Hp. assert (∀ t', (t', true) ∉ trace s) as Hnone.
  { intros t' Hf. destruct (so_fatal _ Hok t' Hf) as [_ Hno]. by apply (Hno t q). }
  pose proof (so_gate _ Hok t _ Hp) as Hgate. pose proof (so_sent _ Hok t _ Hp) as Hsent. split; simpl.
  - intros t' p' [[<- <-]|[Hne Hp']]%lookup_insert_Some; [done|by apply Hok].
  - intros t' Hg. rewrite lookup_insert_is_Some. destruct (decide (t = t')); [by left|right]. split; [done|by apply Hok].
  - intros t' p' [[<- <-]|[Hne Hp']]%lookup_insert_Some; rewrite sends_cons.
    + rewrite bool_decide_true by done. simpl in *. by rewrite Hsent.
    + rewrite bool_decide_false by congruence. by apply Hok.
  - intros t' [Hn Hne]%lookup_insert_None. rewrite sends_cons, bool_decide_false by congruence. by apply Hok.
  - intros t' p' [[<- <-]|[Hne Hp']]%lookup_insert_Some; [done|by eapply Hok].
  - intros t' [[=]|Hf]%elem_of_cons. by destruct (Hnone t').
  - intros t' [|ev l1] l2 [= <- Heq]; [intros t2; rewrite <-Heq; apply Hnone|by eapply Hok].
Qed.

Lemma call_step_ok s t m s' : session_ok s → call_step s t m = Some s' → session_ok s'.
Proof.
  intros Hok. unfold call_step. destruct (callers s !! t) as [p|] eqn:Hp; [|done]. unfold mbind, option_bind.
  pose proof (so_gate _ Hok t p Hp) as Hgate. pose proof (so_sent _ Hok t p Hp) as Hsent. pose proof (so_telling _ Hok t p Hp) as Htell.
  assert (∀ p', inside p' = inside p → inside p' = bool_decide (gate s = Some t)) as Hsame.
  { intros p' ->. symmetry. destruct (inside p); [apply bool_decide_true, Hgate; done|apply bool_decide_false; intros ?%Hgate; done]. }
  assert (∀ code fatal, publicCode code = true → inside p = false → was_sent p = false → session_ok (return_ s t (inr (unsent code fatal)))) as Hout.
  { intros code fatal Hc Hi Hw. unfold return_. cbn [is_fatal unsent Fatal Sent]. rewrite andb_false_r.
    apply set_pc_ok; [done|by apply Hsame|by rewrite Hsent, Hw|by apply unsent_telling|done]. }
  assert (∀ code fatal, publicCode code = true → inside p = true → was_sent p = false → session_ok (leave s t (inr (unsent code fatal)))) as Hleave.
  { intros code fatal Hc Hi Hw. unfold leave, return_. cbn [is_fatal unsent Fatal Sent]. rewrite andb_false_r.
    apply open_gate_ok; [done|by apply Hgate|done|by rewrite Hsent, Hw|by apply unsent_telling]. }
  destruct p as [q|q|q|q| |f|r]; destruct m as [| |a]; try done.
  - intros [= <-]. destruct (bool_decide (MaxPlanSize < _)%Z); [by apply Hout|]. destruct (bool_decide (rq_timeout q <= 0)%Z).
    { unfold return_. simpl. apply set_pc_ok; [done|by apply Hsame|done..]. }
    destruct (closed s); [by apply Hout|]. apply set_pc_ok; [done|by apply Hsame|done..].
  - destruct (gate s) eqn:Hg; [done|]. intros [= <-]. by apply take_gate_ok.
  - intros [= <-]. by apply Hout.
  - intros [= <-]. destruct (closed s) eqn:Hc; [by apply Hleave|]. apply set_pc_ok; [done|by apply Hsame|done..].
  - intros [= <-]. destruct (rq_encoded q); [|by apply Hleave]. destruct (bool_decide (_ < z)%Z); [by apply Hleave|]. by eapply send_ok.
  - intros [= <-]. by apply Hleave.
  - assert (∀ f, public_failure f → Fatal f = true → Sent f = true → session_ok (set_pc s t (Failing f))) as Hfail.
    { intros f Hf1 Hf2 Hf3. apply set_pc_ok; [done|by apply Hsame|done..]. }
    destruct a as [st|f|r].
    + intros [= <-]. apply Hfail; [apply transport_public|by destruct st..].
    + pose proof (fault_public f) as Hpub. intros [= <-]. change (ft_Fatal f || negb (publicCode (ft_Code f))) with (Fatal (fault_failure f)).
      destruct (Fatal (fault_failure f)) eqn:Hf; [by apply Hfail|]. unfold leave, return_. cbn [is_fatal]. rewrite Hf. simpl. apply open_gate_ok; [done|by apply Hgate|done..].
    + intros [= <-]. apply open_gate_ok; [done|by apply Hgate|done..].
  - intros [= <-]. destruct Htell as (Hpub & Hf & Hs). unfold leave, return_. cbn [is_fatal]. rewrite Hf, Hs. simpl.
    apply log_fatal_ok; [|done|].
    + apply open_gate_ok; [by apply set_closed_ok|by apply Hgate|done|by simpl; rewrite Hs|done].
    + simpl. intros t' q [[<- ?]|[Hne Hq]]%lookup_insert_Some; [done|]. apply Hne. symmetry. by eapply alone.
Qed.

Lemma reachable_ok s : reachable s → session_ok s.
Proof.
  induction 1 as [|s l s' _ IH Hl]; [apply opened_ok|]. revert Hl. destruct l as [t q|t m|]; cbn [session_step].
  - destruct (callers s !! t) eqn:Hn; [done|]. intros [= <-]. apply set_pc_ok; [done| |by rewrite (so_unknown _ IH)|done..].
    symmetry. apply bool_decide_false. intros Hg. destruct (so_holder _ IH t Hg). congruence.
  - by apply call_step_ok.
  - intros [= <-]. by apply set_closed_ok.
Qed.

(** C32: however the callers of a plugin session interleave with each other and
    with its closing, at most one call is in flight, and once a call that was
    sent has come back with a fatal failure no call is ever sent again.  A
    caller's answer tells whether its call was sent: exactly once for a
    response or a failure marked sent, never otherwise.  A failure's code is
    public, and an unknown outcome is only reported for a sent call, and as
    fatal. *)
Theorem session_quarantine s : reachable s →
  (∀ t1 t2, callers s !! t1 = Some Invoking → callers s !! t2 = Some Invoking → t1 = t2) ∧
  (∀ t l1 l2, trace s = l1 ++ (t, false) :: l2 → ∀ t', (t', true) ∉ l2) ∧
  (∀ t (r : R + failure), callers s !! t = Some (Returned r) →
     length (sends t (trace s)) = (match r with inl _ => 1 | inr (CallFailed f) => if Sent f then 1 else 0 | inr (Refused _) => 0 end) ∧
     (∀ f, r = inr (CallFailed f) → public_failure f)).
Proof.
  intros Hok%reachable_ok. split; [|split].
  - intros t1 t2 H1 H2. pose proof (proj1 (so_gate _ Hok t1 _ H1) eq_refl) as Hg1. pose proof (proj1 (so_gate _ Hok t2 _ H2) eq_refl) as Hg2. congruence.
  - apply Hok.
  - intros t r Hr. pose proof (so_sent _ Hok t _ Hr) as Hs. pose proof (so_telling _ Hok t _ Hr) as Ht. split.
    + rewrite Hs. destruct r as [|[]]; done.
    + by intros f ->.
Qed.
End Session.

(** A call whose transport failed, one queued behind it, and one that came later. *)
Definition small_call : request := MkRequest 0 1 (Some 100%Z).
Definition failing_run : list (label nat) :=
  [Call 1 small_call; Call 2 small_call; Step 1 Go; Step 2 Go; Step 1 Go; Step 1 Go; Step 1 Go; Step 1 (Answer (RpcFailed StatusOther));
   Step 1 Go; Step 2 Go; Step 2 Go; Call 3 small_call; Step 3 Go].
Definition failed_session : Session nat := default opened (session_run opened failing_run).

Lemma run_reachable {R} (s : Session R) ls s' : reachable s → session_run s ls = Some s' → reachable s'.
Proof.
  revert s. induction ls as [|l ls IH]; intros s Hs; simpl; [by intros [= <-]|].
  destruct (session_step s l) as [s1|] eqn:H1; [|done]. apply IH. by eapply reach_step.
Qed.

Example session_quarantine_witness :
  callers failed_session !! 1 = Some (Returned (inr (CallFailed (transport_failure StatusOther)))) ∧
  callers failed_session !! 2 = Some (Returned (inr (unsent "session_unavailable" true))) ∧
  length (sends 2 (trace failed_session)) = 0.
Proof.
  assert (reachable failed_session) as Hr.
  { apply (run_reachable opened failing_run); [apply reach_open|vm_compute; reflexivity]. }
  assert (callers failed_session !! 2 = Some (Returned (inr (unsent "session_unavailable" true)))) as H2 by (vm_compute; reflexivity).
  split; [vm_compute; reflexivity|]. split; [exact H2|].
  exact (proj1 (proj2 (proj2 (session_quarantine failed_session Hr)) 2 _ H2)).
Defined.

(** ** Opening *)

Ltac killed := intros [= <- <-]; split; [intros _; split_and!; [done..|by exists [Killed]]|split; [done|intros _ _; by eexists]].

(** A plugin's process is started only after its bytes were verified against a
    digest of the right length, and every failure after that kills it; a
    session is returned only for the locked descriptor and an open log. *)
Lemma Open_safe {D} (encode : D → string) (w : OpenWorld D) expected tr r : Open encode w expected = (tr, r) →
  (Launched ∈ tr → ow_checksum w = Some 32 ∧ ow_verify w [] = true ∧ ∃ l, tr = l ++ [Launched; Verified]) ∧
  (is_ok r = true → tr = [LogsOpened; Described; Launched; Verified] ∧
     ∃ d, ow_describe w [Launched; Verified] = Some d ∧ encode d = encode expected) ∧
  (is_ok r = false → Launched ∈ tr → ∃ l, tr = Killed :: l).
Proof.
  assert (Launched ∉ []) as H0 by set_solver. assert (Launched ∉ [Killed]) as H1 by set_solver.
  unfold Open, start_client. destruct (ow_cancelled w []); [by intros [= <- <-]|].
  destruct (ow_valid w) as [[]|]; [|by intros [= <- <-]].
  destruct (negb (bool_decide (ow_checksum w = Some 32))) eqn:Hs; [by intros [= <- <-]|].
  apply negb_false_iff, bool_decide_eq_true in Hs. destruct (ow_verify w []) eqn:Hv; [|by intros [= <- <-]].
  destruct (ow_launch w _); simpl; [|killed].
  destruct (ow_dispense w _); simpl; [|killed].
  destruct (ow_rpc w); simpl; [|killed].
  destruct (ow_describe w _) as [d|] eqn:Hd; [|killed].
  destruct (decide _) as [He|]; [|killed].
  destruct (ow_logs w _ && _); intros [= <- <-].
  - split; [intros _; split_and!; [done..|by exists [LogsOpened; Described]]|]. split; [|done]. intros _. split; [done|by exists d].
  - split; [intros _; split_and!; [done..|by exists [Killed; Described]]|]. split; [done|intros _ _; by eexists].
Qed.

(** ** Plan documents *)

Section Plans.
Context {A : Type}.

Lemma chunk_positive : (0 < planChunkSize)%Z.
Proof. done. Qed.
Lemma chunk_below_plan : (planChunkSize <= MaxPlanSize)%Z.
Proof. done. Qed.

Lemma plan_frames_spec fuel : ∀ plan : list A, length plan ≤ fuel →
  concat (plan_frames fuel plan) = plan ∧ Forall (λ f, (0 < Z.of_nat (length f) <= planChunkSize)%Z) (plan_frames fuel plan).
Proof.
  pose proof chunk_positive as Hpos. induction fuel as [|fuel IH]; intros plan Hl.
  { by destruct plan; [|simpl in Hl; lia]. }
  destruct plan as [|a plan]; [by split|]. cbn [plan_frames]. set (n := Z.to_nat _).
  assert (0 < n ≤ length (a :: plan)) as Hn by (unfold n; simpl; lia).
  destruct (IH (drop n (a :: plan))) as [IH1 IH2]; [rewrite length_drop; simpl in *; lia|].
  split; [rewrite concat_cons, IH1; apply take_drop|]. constructor; [|done].
  rewrite length_take, Nat.min_l by lia. unfold n. simpl. lia.
Qed.

Lemma serve_frames_spec frames : ∀ plan : list A, Forall (λ f, (0 < Z.of_nat (length f) <= planChunkSize)%Z) frames →
  (Z.of_nat (length plan) <= MaxPlanSize)%Z →
  serve_frames plan frames = if bool_decide (Z.of_nat (length (plan ++ concat frames)) <= MaxPlanSize)%Z then Ok (plan ++ concat frames)
                             else Err (Errors_New "plan exceeds transfer limit").
Proof.
  induction frames as [|f frames IH]; intros plan Hf Hp; simpl.
  - rewrite app_nil_r. by rewrite bool_decide_true.
  - apply Forall_cons in Hf as [Hf Hfs]. rewrite (bool_decide_false (_ = 0)%Z) by lia. rewrite (bool_decide_false (planChunkSize < _)%Z) by lia.
    simpl. case_bool_decide as Hlim.
    + rewrite bool_decide_false; [done|]. rewrite !length_app. lia.
    + rewrite IH; [by rewrite <-(assoc_L (++))|done|]. rewrite length_app. lia.
Qed.

(** What a plan is transferred as: it arrives whole exactly when it is within
    the limit, in frames that are never empty and never above the chunk size. *)
Lemma plan_stream_roundtrip (plan : list A) :
  servePlan [] (invokePlanStream plan)
  = (if bool_decide (Z.of_nat (length plan) <= MaxPlanSize)%Z then Ok plan else Err (Errors_New "plan exceeds transfer limit")) ∧
  Forall (λ f, (0 < Z.of_nat (length f) <= planChunkSize)%Z) (invokePlanStream plan).
Proof.
  destruct (plan_frames_spec (length plan) plan (Nat.le_refl _)) as [Hc Hf]. split; [|exact Hf].
  unfold servePlan, invokePlanStream. rewrite serve_frames_spec by done. simpl. by rewrite Hc.
Qed.

(** Whatever frames a client sends, what is assembled is their concatenation
    and stays within the limit. *)
Lemma servePlan_bounded carried frames (plan : list A) : servePlan carried frames = Ok plan →
  plan = concat frames ∧ (Z.of_nat (length plan) <= MaxPlanSize)%Z.
Proof.
  unfold servePlan. destruct carried; [|done].
  enough (∀ acc, (Z.of_nat (length acc) <= MaxPlanSize)%Z → serve_frames acc frames = Ok plan →
    plan = acc ++ concat frames ∧ (Z.of_nat (length plan) <= MaxPlanSize)%Z) as Hx by (by apply (Hx [])).
  clear. induction frames as [|f frames IH]; intros acc Hacc; simpl; [intros [= <-]; by rewrite app_nil_r|].
  destruct (_ || _) eqn:Hb; [done|]. rewrite !orb_false_iff, !bool_decide_eq_false in Hb. destruct Hb as [[_ _] Hlim].
  intros Hs. apply IH in Hs as [-> Hle]; [by rewrite (assoc_L (++))|rewrite length_app; lia].
Qed.
End Plans.
