(* ===== verification/NodeFacts.v ===== *)
(** What the steps of a node do (for ApplyNode.v, Prepare.v and
    SavedExecution.v): which part of the session's record an operation keeps,
    which events it can add, and where in a computation an event happened.
    The commands' theorems (SavedProofs.v, CommandProofs.v) rest on these. *)
From S2P Require Import Prelude GoLib Blueprint Module Graph Topo Selection Gate Runner Execution Store Journal JournalFacts Target ApplyNode Prepare ApplyProofs Retention RetentionProofs RunLevels Engine PlanSource SavedExecution.

(** ** What an operation keeps of the session's record *)

Class Frames (R : ExecutionRecord → ExecutionRecord → Prop) {A} (m : M A) : Prop :=
  frames s s' r : m s = (s', r) → R (st_record s) (st_record s').

Section Frames.
Context (R : ExecutionRecord → ExecutionRecord → Prop) `{!PreOrder R}.

#[export] Instance frames_ret {A} (a : A) : Frames R (mret a : M A).
Proof. by intros s s' r [= <- _]. Qed.
#[export] Instance frames_throw {A} e : Frames R (throwM e : M A).
Proof. by intros s s' r [= <- _]. Qed.
#[export] Instance frames_pure {A} (x : result A) : Frames R (pureM x).
Proof. by intros s s' r [= <- _]. Qed.
#[export] Instance frames_get : Frames R getM.
Proof. by intros s s' r [= <- _]. Qed.
#[export] Instance frames_ask {A} (f : hist → result A) : Frames R (ask f).
Proof. by intros s s' r [= <- _]. Qed.
#[export] Instance frames_lift {A} (m : H A) : Frames R (liftH m).
Proof. intros s s' r. unfold liftH. destruct (m (st_hist s)). by intros [= <- _]. Qed.
#[export] Instance frames_emit ev : Frames R (emitM ev).
Proof. apply frames_lift. Qed.
#[export] Instance frames_bind {A B} (m : M A) (f : A → M B) : Frames R m → (∀ a, Frames R (f a)) → Frames R (m ≫= f).
Proof.
  intros Hm Hf s s' r. unfold mbind, M_bind. destruct (m s) as [s1 [a|e]] eqn:Hs.
  - intros Hk. etrans; [by eapply Hm|by eapply Hf].
  - intros [= <- _]. by eapply Hm.
Qed.
#[export] Instance frames_for {A} (f : A → M unit) l : (∀ a, Frames R (f a)) → Frames R (forM f l).
Proof. intros Hf. induction l; simpl; apply _. Qed.
#[export] Instance frames_attempt (m : M unit) : Frames R m → Frames R (attemptM m).
Proof. intros Hm s s' r [= <- _]. destruct (m s) eqn:Hs. by eapply Hm. Qed.
#[export] Instance frames_try {A} (m : M A) : Frames R m → Frames R (tryM m).
Proof. intros Hm s s' r. unfold tryM. destruct (m s) eqn:Hs. intros [= <- _]. by eapply Hm. Qed.
#[export] Instance frames_joined {A} e (m : M unit) : Frames R m → Frames R (throw_joined e m : M A).
Proof. intros Hm s s' r. unfold throw_joined. destruct (m s) eqn:Hs. intros [= <- _]. by eapply Hm. Qed.
#[export] Instance frames_wrap {A} f (m : M A) : Frames R m → Frames R (wrapM f m).
Proof. intros Hm s s' r. unfold wrapM. destruct (m s) eqn:Hs. intros [= <- _]. by eapply Hm. Qed.
#[export] Instance frames_not_started (m : M unit) : Frames R m → Frames R (not_started m).
Proof. intros Hm s s' r. unfold not_started. destruct (m s) eqn:Hs. intros [= <- _]. by eapply Hm. Qed.

Lemma frames_if {A} (b : bool) (m1 m2 : M A) : Frames R m1 → Frames R m2 → Frames R (if b then m1 else m2).
Proof. by destruct b. Qed.

(** What is published is computed from the record in hand. *)
Lemma frames_with {A} (f : session → M A) :
  (∀ s s' r, f s s = (s', r) → R (st_record s) (st_record s')) → Frames R (getM ≫= f).
Proof. intros Hf s s' r. unfold mbind, M_bind, getM. apply Hf. Qed.
End Frames.

#[export] Hint Resolve frames_if : typeclass_instances.

(** Structure first, instances at the leaves. *)
Ltac frame := repeat first
  [ match goal with
    | |- ∀ _, _ => intros ?
    | |- Frames _ (_ ≫= _) => apply frames_bind
    | |- Frames _ (tryM _) => apply frames_try
    | |- Frames _ (throw_joined _ _) => apply frames_joined
    | |- Frames _ (attemptM _) => apply frames_attempt
    | |- Frames _ (wrapM _ _) => apply frames_wrap
    | |- Frames _ (not_started _) => apply frames_not_started
    | |- Frames _ (match ?x with _ => _ end) => destruct x
    end
  | apply _ ].

Definition same_id (r r' : ExecutionRecord) : Prop := er_ID r' = er_ID r.
#[export] Instance same_id_pre : PreOrder same_id.
Proof. split; [done|]. intros a b c H1 H2. unfold same_id in *. congruence. Qed.

Definition same_nodes (r r' : ExecutionRecord) : Prop := er_ID r' = er_ID r ∧ er_Nodes r' = er_Nodes r.
#[export] Instance same_nodes_pre : PreOrder same_nodes.
Proof. split; [done|]. intros a b c [] []. split; congruence. Qed.


(** A relation on records that plugin calls, and changes of the entry of one
    node, stay inside. *)
Class TolCalls (R : ExecutionRecord → ExecutionRecord → Prop) : Prop := tol_calls r calls : R r (with_calls r calls).
Class TolNode (R : ExecutionRecord → ExecutionRecord → Prop) (name : string) : Prop := {
  tol_node r f ns now : (∀ n, en_Name (f n) = en_Name n) → update_node name f (er_Nodes r) = Some ns →
    R r (with_updated (with_nodes r ns) now);
  tol_note r f ns : (∀ n, en_Name (f n) = en_Name n) → update_node name f (er_Nodes r) = Some ns → R r (with_nodes r ns);
}.

#[export] Instance same_id_calls : TolCalls same_id.
Proof. done. Qed.
#[export] Instance same_id_node name : TolNode same_id name.
Proof. by split. Qed.
#[export] Instance same_nodes_calls : TolCalls same_nodes.
Proof. done. Qed.

(** The other nodes keep their phases. *)
Definition others (name : string) (r r' : ExecutionRecord) : Prop :=
  er_ID r' = er_ID r ∧ ∀ n, n ≠ name → phase_of r' n = phase_of r n.
#[export] Instance others_pre name : PreOrder (others name).
Proof. split; [done|]. intros a b c [H1 H2] [H3 H4]. split; [congruence|]. intros n Hn. by rewrite H4, H2. Qed.
#[export] Instance others_calls name : TolCalls (others name).
Proof. done. Qed.

Lemma phase_of_other name f ns r n : (∀ m, en_Name (f m) = en_Name m) → update_node name f (er_Nodes r) = Some ns → n ≠ name →
  phase_of (with_nodes r ns) n = phase_of r n.
Proof.
  intros Hf (pre & m & post & Hr & -> & Hm & _)%(update_node_Some name f) Hn. unfold phase_of, find_node, with_nodes. cbn [er_Nodes].
  rewrite Hr. clear Hr. f_equal. induction pre as [|x pre IH]; simpl.
  - rewrite Hf, Hm. by rewrite bool_decide_false.
  - by destruct (bool_decide _).
Qed.
#[export] Instance others_node name : TolNode (others name) name.
Proof. split; intros r f ns; intros; (split; [done|]); intros n Hn; [change (phase_of (with_nodes r ns) n = phase_of r n)|]; by eapply phase_of_other. Qed.

(** ** Where an event happened *)

Notation "h ≼ h'" := (extends (λ _, True) h h') (at level 70).

(** An event happened between two moments. *)
Definition fires (ev : event) (h h' : hist) : Prop := ∃ pre, h' = pre ++ h ∧ ev ∈ pre.

Lemma quiet_fires ev h h' : extends (λ e, e ≠ ev) h h' → ¬ fires ev h h'.
Proof.
  intros (pre & -> & Hp) (pre' & Heq & Hin). apply app_inv_tail in Heq as <-. rewrite Forall_forall in Hp. by apply (Hp _ Hin).
Qed.

Lemma fires_split ev h h1 h' : h ≼ h1 → extends (λ e, e ≠ ev) h h1 → fires ev h h' → h1 ≼ h' → fires ev h1 h'.
Proof.
  intros _ (p1 & -> & Hp1) (pre & -> & Hin) (p2 & Heq & _). rewrite (assoc_L (++)) in Heq. apply app_inv_tail in Heq as ->.
  exists p2. split; [by rewrite (assoc_L (++))|]. apply elem_of_app in Hin as [?|Hin]; [done|]. rewrite Forall_forall in Hp1.
  by destruct (Hp1 _ Hin).
Qed.

(** What can not emit the event has returned before it. *)
Lemma fires_bind {A B} ev (m : M A) (f : A → M B) s s' r : EmitsM (λ e, e ≠ ev) m → (∀ a, EmitsM (λ _, True) (f a)) →
  (m ≫= f) s = (s', r) → fires ev (st_hist s) (st_hist s') →
  ∃ s1 a, m s = (s1, Ok a) ∧ st_hist s ≼ st_hist s1 ∧ f a s1 = (s', r) ∧ fires ev (st_hist s1) (st_hist s').
Proof.
  intros Hm Hf. unfold mbind, M_bind. destruct (m s) as [s1 [a|e]] eqn:Hs.
  - intros Hk Hev. pose proof (Hm _ _ _ Hs) as E1. pose proof (Hf a _ _ _ Hk) as E2. exists s1, a. split; [done|].
    split; [by eapply extends_any|]. split; [done|]. eapply fires_split; [|done..]. by eapply extends_any.
  - intros [= <- _] Hev. destruct (quiet_fires ev (st_hist s) (st_hist s1)); [by eapply Hm|done].
Qed.

Lemma fires_here ev h : ¬ fires ev h h.
Proof. intros (pre & Heq & Hin). apply (app_inv_tail _ [] pre) in Heq as <-. by apply elem_of_nil in Hin. Qed.

Lemma fires_extend ev h h1 h2 h' : h ≼ h1 → fires ev h1 h2 → h2 ≼ h' → fires ev h h'.
Proof.
  intros (p1 & -> & _) (p & -> & Hin) (p2 & -> & _). exists (p2 ++ p ++ p1). split; [by rewrite !(assoc_L (++))|set_solver].
Qed.


(** Between two moments a record of the execution was stored that holds the node in the phase. *)
Definition stored_as (id phase : string) (h h' : hist) (m : string) : Prop :=
  ∃ rev r, fires (EvWrite (record_key id) (MkObject rev (PRecord r))) h h' ∧ phase_of r m = Some phase.

Lemma stored_as_later id phase h h1 h2 h' m : h ≼ h1 → stored_as id phase h1 h2 m → h2 ≼ h' → stored_as id phase h h' m.
Proof. intros E1 (rev & r & Hf & Hm) E2. exists rev, r. split; [by eapply fires_extend|done]. Qed.

Lemma fires_or_quiet ev `{∀ e, Decision (e = ev)} h h' : h ≼ h' → fires ev h h' ∨ extends (λ e, e ≠ ev) h h'.
Proof.
  intros (pre & -> & _). destruct (decide (Exists (λ e, e = ev) pre)) as [Hin|Hno].
  - left. exists pre. split; [done|]. by apply Exists_exists in Hin as (e & ? & <-).
  - right. exists pre. split; [done|]. by apply not_Exists_Forall in Hno.
Qed.

#[export] Instance run_event_dec n op e : Decision (e = EvRun n op).
Proof. destruct e as [| |m op'| | | | |]; try by right. destruct (decide (m = n)); [|right; congruence]. destruct (decide (op' = op)); [left|right]; congruence. Defined.

Lemma fires_between ev h h1 h' : h ≼ h1 → h1 ≼ h' → fires ev h h' → fires ev h h1 ∨ fires ev h1 h'.
Proof.
  intros (p1 & -> & _) (p2 & -> & _) (p & Heq & Hin). rewrite (assoc_L (++)) in Heq. apply app_inv_tail in Heq as <-.
  apply elem_of_app in Hin as [?|?]; [right; by exists p2|left; by exists p1].
Qed.


(** The event is in the first of two steps when the second is quiet. *)
Lemma fires_first ev h h1 h' : h ≼ h1 → extends (λ e, e ≠ ev) h1 h' → fires ev h h' → fires ev h h1.
Proof. intros E Q Hf. destruct (fires_between ev h h1 h' E (extends_any _ _ _ Q) Hf) as [?|Hq]; [done|by apply quiet_fires in Q]. Qed.


Lemma tryM_inv {A} (m : M A) s s1 x : tryM m s = (s1, x) → ∃ r, m s = (s1, r) ∧ x = Ok r.
Proof. unfold tryM. destruct (m s) as [s2 r]. intros [= <- <-]. by exists r. Qed.

(** A step that can not fail. *)
Lemma try_bind {A B} (m : M A) (f : result A → M B) s s' r : (tryM m ≫= f) s = (s', r) →
  ∃ s1 x, m s = (s1, x) ∧ f x s1 = (s', r).
Proof. unfold mbind, M_bind, tryM. destruct (m s) as [s1 x]. intros Hk. by exists s1, x. Qed.


Lemma M_bind_inv {A B} (m : M A) (f : A → M B) s s' r : (m ≫= f) s = (s', r) →
  (∃ e, m s = (s', Err e) ∧ r = Err e) ∨ (∃ s1 a, m s = (s1, Ok a) ∧ f a s1 = (s', r)).
Proof.
  unfold mbind, M_bind. destruct (m s) as [s1 [a|e]]; [right; by exists s1, a|]. intros [= <- <-]. left. by exists e.
Qed.

(** The steps before the event. *)
Lemma quiet_step {A B} ev h (m : M A) (f : A → M B) s s' r : fires ev h (st_hist s') → extends (λ e, e ≠ ev) h (st_hist s) →
  (m ≫= f) s = (s', r) → EmitsM (λ e, e ≠ ev) m → ∃ s1 a, m s = (s1, Ok a) ∧ extends (λ e, e ≠ ev) h (st_hist s1) ∧ f a s1 = (s', r).
Proof.
  intros Hf Q [(e & E & _)|(s1 & a & E & Hr)]%M_bind_inv Hm; pose proof (extends_trans _ _ _ _ Q (Hm _ _ _ E)) as Q2.
  - by apply quiet_fires in Q2.
  - by exists s1, a.
Qed.

Lemma getM_bind {A} (f : session → M A) s : (getM ≫= f) s = f s s.
Proof. done. Qed.


(** ** Which events *)

(** The operations that neither plan nor change anything. *)
Definition read_operations : list string := ["init"; "output"; "version"; "show"].

(** Every event but starting the runtime on more than a read. *)
Record calm (P : event → Prop) : Prop := {
  calm_write k o : P (EvWrite k o);
  calm_remove k : P (EvRemove k);
  calm_plugin ph n : P (EvPlugin ph n);
  calm_ask n : P (EvAsk n);
  calm_snapshot n : P (EvSnapshot n);
  calm_backup id : P (EvRemoveBackup id);
  calm_context n c : P (EvContext n c);
  calm_run n op : op ∈ read_operations → P (EvRun n op);
}.

Existing Class calm.

Class reads (op : string) : Prop := reads_op : op ∈ read_operations.
#[export] Instance reads_init : reads "init". Proof. unfold reads, read_operations. set_solver. Qed.
#[export] Instance reads_output : reads "output". Proof. unfold reads, read_operations. set_solver. Qed.
#[export] Instance reads_version : reads "version". Proof. unfold reads, read_operations. set_solver. Qed.
#[export] Instance reads_show : reads "show". Proof. unfold reads, read_operations. set_solver. Qed.

(** An event that may happen. *)
Class allows (P : event → Prop) (ev : event) : Prop := allowed : P ev.
#[export] Instance allows_any ev : allows (λ _, True) ev := I.

#[export] Instance calm_any : calm (λ _, True).
Proof. by constructor. Qed.
#[export] Instance calm_not_apply n : calm (λ e, e ≠ EvRun n "apply").
Proof. constructor; try done. intros m op Hop [= -> ->]. set_solver. Qed.

(** Instance search through a computation, whatever it tests. *)
Ltac calm := repeat first
  [ match goal with
    | |- ∀ _, _ => intros ?
    | |- EmitsM _ (_ ≫= _) => apply emitsM_bind
    | |- EmitsM _ (tryM _) => apply emitsM_try
    | |- EmitsM _ (throw_joined _ _) => apply emitsM_joined
    | |- EmitsM _ (attemptM _) => apply emitsM_attempt
    | |- EmitsM _ (match ?x with _ => _ end) => destruct x
    end
  | apply _ ].

Section NodeFacts.
Context (s0 : gmap string dirent) {Outputs Evidence Vars : Type} `{XS : !executionStore} `{XL : !StoreLaws s0} `{XM : !MapOrder}.
Context (w : JournalWorld) (rw : RetentionWorld) (nw : NodeWorld Outputs Evidence) (sw : SavedWorld Outputs Vars).
Context (eng : Engine) (bp : Blueprint).

Notation g := (eg_Graph eng).

(** ** What is kept *)

Lemma publish_frame R `{!PreOrder R} next s s' r : R (st_record s) next → publish next s = (s', r) → R (st_record s) (st_record s').
Proof.
  intros HR Hp. apply (publish_cases s0) in Hp as [[-> _]|(rev & _ & [(_ & -> & _)|(_ & -> & _)])]; [done|done|done].
Qed.

Section Kept.
Context (R : ExecutionRecord → ExecutionRecord → Prop) `{!PreOrder R} `{!TolCalls R}.

(** Recording a plugin call touches neither the identity nor the nodes. *)
#[export] Instance frames_Emit phase node : Frames R (Emit w phase node).
Proof.
  unfold Emit. apply frames_if; [|apply _]. apply (frames_bind R); [apply _|intros s].
  apply (frames_bind R); [apply _|intros _]. apply (frames_bind R); [|intros; apply _].
  apply (frames_for R). intros c. unfold recordPlugin. apply frames_with. intros s1 s2 r.
  destruct (_ && _); [by intros [= <- _]|]. apply publish_frame; [apply _|apply tol_calls].
Qed.
#[export] Instance frames_hook name op : Frames R (runtime_hook w name op).
Proof. unfold runtime_hook. apply _. Qed.
#[export] Instance frames_run {A} name op (answer : hist → result A) : Frames R (run w nw name op answer).
Proof. unfold run. apply _. Qed.
#[export] Instance frames_initNode name : Frames R (initNode w nw (sv_prepare sw) g name).
Proof. unfold initNode, rememberBackendContext. frame. Qed.
#[export] Instance frames_Outputs name : Frames R (Outputs_ w nw name).
Proof. unfold Outputs_. apply _. Qed.
#[export] Instance frames_pluginPlan name phase : Frames R (pluginPlan w nw name phase).
Proof. unfold pluginPlan. apply (frames_if R); [|apply _]. frame. Qed.
#[export] Instance frames_approve name : Frames R (approve nw name).
Proof. unfold approve. frame. Qed.
#[export] Instance frames_planBinding name vars : Frames R (planBinding w nw sw eng name vars).
Proof. unfold planBinding. apply _. Qed.
#[export] Instance frames_live name edges : ∀ outputs, Frames R (live_outputs w nw name edges outputs).
Proof. induction edges as [|e edges IH]; intros outputs; simpl; [apply _|]. apply (frames_if R); apply _. Qed.
#[export] Instance frames_inputs name : Frames R (resolveLiveInputs w nw sw eng name).
Proof. unfold resolveLiveInputs. apply _. Qed.
#[export] Instance frames_bundle node : Frames R (readPlanBundle w node).
Proof. unfold readPlanBundle. frame. Qed.
#[export] Instance frames_completion : Frames R (completion sw).
Proof. unfold completion. apply _. Qed.
#[export] Instance frames_backend name : Frames R (backend_type nw name).
Proof. unfold backend_type. apply _. Qed.
#[export] Instance frames_start : Frames R (start_saved_plugins w).
Proof. unfold start_saved_plugins. apply _. Qed.
#[export] Instance frames_write_bundle b : Frames R (write_bundle b).
Proof. intros s s' r. unfold write_bundle. destruct (st_write _ _ _ _). by intros [= <- _]. Qed.
#[export] Instance frames_prepare_plan name : Frames R (prepareNodePlan w nw name).
Proof. unfold prepareNodePlan, PlanChanges. frame. Qed.

(** *** One node's entry *)

Section Node.
Context (name : string) `{!TolNode R name}.

#[export] Instance frames_transition phase code plan : Frames R (transition w name phase code plan).
Proof.
  unfold transition. apply frames_with. intros s s' r. destruct (update_node _ _ _) as [ns|] eqn:Hns; [|by intros [= <- _]].
  assert (∀ now, R (st_record s) (with_updated (with_nodes (st_record s) ns) now)) as HR by (intros; by eapply tol_node; [|exact Hns]).
  unfold mbind, M_bind. destruct (publish _ s) as [s1 [u|e]] eqn:Hp; [|intros [= <- _]; by refine (publish_frame R _ _ _ _ _ Hp)].
  intros Hk. transitivity (st_record s1); [by refine (publish_frame R _ _ _ _ _ Hp)|].
  exact (frames (R := R) _ _ _ Hk).
Qed.
#[export] Instance frames_fail {A} phase cause : Frames R (fail w name phase cause : M A).
Proof. unfold fail. apply _. Qed.
#[export] Instance frames_note code : Frames R (noteSavedFailure name code).
Proof.
  unfold noteSavedFailure. apply (frames_with R). intros s s' r. destruct (update_node _ _ _) as [ns|] eqn:Hns; [|by intros [= <- _]].
  intros Hp. refine (publish_frame R _ _ _ _ _ Hp). by eapply tol_note; [|exact Hns].
Qed.
#[export] Instance frames_setReview review : Frames R (setReview name review).
Proof.
  unfold setReview. apply (frames_with R). intros s s' r. destruct (update_node _ _ _) as [ns|] eqn:Hns; [|by intros [= <- _]].
  intros Hp. refine (publish_frame R _ _ _ _ _ Hp). by eapply tol_note; [|exact Hns].
Qed.
End Node.

#[export] Instance frames_applyPrepared p opts : TolNode R (pl_name p) → Frames R (applyPreparedPlan w nw g p opts).
Proof.
  intros HT. unfold applyPreparedPlan, plan_unchanged, plan_gate, plan_mutate, publish_outputs, record, PlanChangeSet, ApplyPlan. frame.
Qed.
#[export] Instance frames_retain plan bound vars : TolNode R (pl_name plan) → Frames R (retainPlan w nw sw eng bp plan bound vars).
Proof. intros HT. unfold retainPlan. frame. Qed.
End Kept.

(** ** What is emitted *)

Section Emits.
Context (P : event → Prop) `{HP : !calm P}.

#[export] Instance emits_Emit' phase node : EmitsM P (Emit w phase node).
Proof. apply (emitsM_Emit s0 w P); apply HP. Qed.
#[export] Instance emits_transition' name phase code plan : EmitsM P (transition w name phase code plan).
Proof. apply (emitsM_transition s0 w P); apply HP. Qed.
#[export] Instance emits_fail' {A} name phase cause : EmitsM P (fail w name phase cause : M A).
Proof. unfold fail. apply _. Qed.
#[export] Instance emits_ask' {A} (f : hist → result A) : EmitsM P (ask f).
Proof. apply (emitsM_ask P). Qed.
#[export] Instance emits_wrap' {A} f (m : M A) : EmitsM P m → EmitsM P (wrapM f m).
Proof. apply emitsM_wrap. Qed.
#[export] Instance emits_pluginPlan' name phase : EmitsM P (pluginPlan w nw name phase).
Proof. apply (emitsM_pluginPlan s0 w nw P); apply HP. Qed.

#[export] Instance emits_run {A} name op (answer : hist → result A) : reads op → EmitsM P (run w nw name op answer).
Proof. intros Hop. apply (emitsM_run s0 w nw P); [apply HP..|by apply HP]. Qed.
#[export] Instance emits_remember name : EmitsM P (rememberBackendContext (sv_prepare sw) g name).
Proof.
  unfold rememberBackendContext. repeat (apply emitsM_bind; [apply _|intros ?]).
  match goal with |- EmitsM _ (match ?x with _ => _ end) => destruct x end;
    [|apply emitsM_bind; [|intros; apply _]]; apply emitsM_emit, HP.
Qed.
#[export] Instance emits_initNode name : EmitsM P (initNode w nw (sv_prepare sw) g name).
Proof. unfold initNode. apply _. Qed.
#[export] Instance emits_Outputs name : EmitsM P (Outputs_ w nw name).
Proof. unfold Outputs_. apply _. Qed.
#[export] Instance emits_planBinding name vars : EmitsM P (planBinding w nw sw eng name vars).
Proof. unfold planBinding. apply _. Qed.
#[export] Instance emits_live name edges : ∀ outputs, EmitsM P (live_outputs w nw name edges outputs).
Proof. induction edges as [|e edges IH]; intros outputs; simpl; [apply _|]. apply emitsM_if; [apply _|]. apply _. Qed.
#[export] Instance emits_inputs name : EmitsM P (resolveLiveInputs w nw sw eng name).
Proof. unfold resolveLiveInputs. apply _. Qed.
#[export] Instance emits_bundle node : EmitsM P (readPlanBundle w node).
Proof. unfold readPlanBundle. apply emitsM_bind; [apply _|intros s]. repeat (apply emitsM_bind; [apply _|intros ?]). by repeat apply emitsM_if; apply _. Qed.
#[export] Instance emits_note name code : EmitsM P (noteSavedFailure name code).
Proof.
  unfold noteSavedFailure. apply emitsM_bind; [apply _|intros s]. destruct (update_node _ _ _); [|apply _].
  apply (emitsM_publish s0). intros. apply HP.
Qed.
#[export] Instance emits_applyPrepared p opts : allows P (EvRun (pl_name p) "apply") → EmitsM P (applyPreparedPlan w nw g p opts).
Proof.
  intros Ha. unfold applyPreparedPlan. apply emitsM_bind; [apply _|intros ev]. apply emitsM_if.
  - apply (emitsM_unchanged s0 w nw P); try apply HP. set_solver.
  - apply emitsM_bind; [apply (emitsM_gate s0 w nw g P); try apply HP; set_solver|intros _]. unfold plan_mutate, record.
    apply emitsM_bind; [apply _|intros []]. apply emitsM_bind; [apply emitsM_try; apply (emitsM_run s0 w nw P); [apply HP|apply HP|done]|intros r].
    apply emitsM_bind; [destruct r; apply _|intros []]. apply emitsM_bind; [apply _|intros []].
    apply emitsM_bind; [apply emits_wrap'; apply _|intros o]. apply emitsM_bind; [|intros; apply _].
    apply (emitsM_publish_outputs s0 w nw P); apply HP.
Qed.
#[export] Instance emits_write_bundle b : EmitsM P (write_bundle b).
Proof.
  intros s s' r. unfold write_bundle. destruct (st_write _ _ _ _) as [h1 r1] eqn:Hw. intros [= <- _].
  apply (write_cases (s0 := s0)) in Hw as [[-> _]|(rev & -> & _)]; [apply extends_refl|apply extends_one, HP].
Qed.
#[export] Instance emits_retain plan bound vars : EmitsM P (retainPlan w nw sw eng bp plan bound vars).
Proof. unfold retainPlan. calm. Qed.
#[export] Instance emits_setReview name review : EmitsM P (setReview name review).
Proof.
  unfold setReview. apply emitsM_bind; [apply _|intros s]. destruct (update_node _ _ _); [|apply _].
  apply (emitsM_publish s0). intros. apply HP.
Qed.
#[export] Instance emits_prepare name : allows P (EvRun name "plan") → EmitsM P (prepareNodePlan w nw name).
Proof.
  intros Hp. unfold prepareNodePlan. apply emitsM_bind; [apply _|intros []]. apply emitsM_bind; [|intros; apply _].
  apply emitsM_try. apply (emitsM_run s0 w nw P); [apply HP|apply HP|done].
Qed.
#[export] Instance emits_completion : EmitsM P (completion sw).
Proof. unfold completion. apply _. Qed.
#[export] Instance emits_backend name : EmitsM P (backend_type nw name).
Proof. unfold backend_type. apply _. Qed.
End Emits.


(** ** The runtime was started *)


Lemma run_fires {A} name op (answer : hist → result A) s s' a : run w nw name op answer s = (s', Ok a) →
  fires (EvRun name op) (st_hist s) (st_hist s').
Proof.
  unfold run. intros (s1 & ? & H1 & Hr)%M_bind_Ok. apply M_bind_Ok in Hr as (s2 & ? & H2 & Hr).
  apply M_bind_Ok in Hr as (s3 & ? & H3 & H4). injection H1 as <- _.
  assert (st_hist s ≼ st_hist s2) as (p1 & E1 & _) by (eapply (emitsM_hook s0 w (λ _, True)); [done..|exact H2]).
  assert (st_hist s3 ≼ st_hist s') as (p2 & E2 & _).
  { eapply (emits_nothing (λ _, True)); [|exact H4].
    apply emitsM_bind; [apply emitsM_try, (emitsM_ask (λ _, True))|intros]. apply emitsM_bind; [|intros; apply _].
    apply emitsM_if; [apply _|]. apply emitsM_attempt. by apply (emitsM_Emit s0 w (λ _, True)). }
  injection H3 as <- _. simpl in E2. exists (p2 ++ EvRun name op :: p1). split; [|set_solver].
  rewrite E2, E1. by rewrite <-(assoc_L (++)).
Qed.

Lemma init_fires name s s' : initNode w nw (sv_prepare sw) g name s = (s', Ok tt) → fires (EvRun name "init") (st_hist s) (st_hist s').
Proof.
  unfold initNode. intros (s1 & [] & H1%run_fires & H2)%M_bind_Ok. destruct H1 as (p & Hp & Hin).
  assert (extends (λ _, True) (st_hist s1) (st_hist s')) as (q & Hq & _).
  { eapply (emits_nothing (λ _, True)); [|exact H2]. apply (emits_remember (λ _, True)). }
  exists (q ++ p). split; [by rewrite Hq, Hp, (assoc_L (++))|set_solver].
Qed.

Lemma planBinding_Ok name vars s s' b : planBinding w nw sw eng name vars s = (s', Ok b) →
  ∃ runtime, binding_at w sw eng (st_hist s') name runtime vars = Ok b.
Proof. unfold planBinding. intros (s1 & rt & H1 & H2)%M_bind_Ok. injection H2 as <- Hb. by exists rt. Qed.


(** ** The session around it *)

Section Finish.
Context (P : event → Prop) `{HP : !calm P}.

#[export] Instance emits_all_ events : ∀ acc, EmitsM P (emit_all w events acc).
Proof. induction events as [|[ph n] events IH]; intros acc; simpl; [apply _|]. apply _. Qed.
#[export] Instance emits_finishPlugins : EmitsM P (finishPlugins w).
Proof. unfold finishPlugins. apply emitsM_if; [|apply _]. apply _. Qed.
#[export] Instance emits_cleanupExecution rec : EmitsH P (cleanupExecution rec).
Proof. apply (emitsH_cleanup s0). intros id. apply HP. Qed.
#[export] Instance emits_finishSaved err : EmitsM P (finishSaved w err).
Proof.
  unfold finishSaved. apply emitsM_bind; [apply _|intros s].
  match goal with |- EmitsM _ (if ?x then _ else _) => destruct x end; [apply _|].
  apply (emitsM_publish s0). intros. apply HP.
Qed.
#[export] Instance emits_finishSavedSession err finalize : EmitsM P (finishSavedSession w err finalize).
Proof.
  unfold finishSavedSession. apply emitsM_bind; [apply _|intros pe]. apply emitsM_if; [apply _|].
  apply emitsM_bind; [apply _|intros s]. apply emitsM_bind; [apply emitsM_if; apply _|intros [|]]; apply _.
Qed.
#[export] Instance emits_probe names : EmitsH P (probe_runtimes sw eng names).
Proof.
  induction names as [|n names IH]; simpl; [apply _|]. apply emitsH_if; [|done]. apply emitsH_bind; [apply emitsH_emit, HP; set_solver|intros].
  apply emitsH_bind; [|intros; done]. intros h h' r. unfold wrapH, askH. intros [= <- _]. apply extends_refl.
Qed.
#[export] Instance emits_check_runtime opts : EmitsH P (check_runtime_files sw eng opts).
Proof. unfold check_runtime_files. apply _. Qed.
End Finish.

#[export] Instance emits_ask_H {A} P (f : hist → result A) : EmitsH P (askH f).
Proof. intros h h' r [= <- _]. apply extends_refl. Qed.
#[export] Instance emits_wrap_H {A} P f (m : H A) : EmitsH P m → EmitsH P (wrapH f m).
Proof. intros Hm h h' r. unfold wrapH. destruct (m h) as [h1 r1] eqn:Hh. intros [= <- _]. by eapply Hm. Qed.
#[export] Instance emits_barrier P scope ex ro : EmitsH P (checkExecutionBarrier scope ex ro).
Proof. unfold checkExecutionBarrier, check_barrier_key. emits. Qed.

Lemma run_session_emits {A} P s (m : M A) : EmitsM P m → EmitsH P (run_session s m).
Proof.
  intros Hm h h' r. unfold run_session. destruct (m (set_hist s h)) as [s1 r1] eqn:Hs. intros [= <- _].
  by apply (Hm _ _ _ Hs).
Qed.


(** A session that is opened, run and left. *)
Lemma session_ran {A B} s (m : M A) (f : session * A → H B) h h' r : (run_session s m ≫= f) h = (h', r) → st_hist s = h →
  (∀ x h, (f x h).1 = h) → ∃ s' y, m s = (s', y) ∧ h' = st_hist s'.
Proof.
  intros Hr Hs Hf. unfold mbind, H_bind, run_session in Hr. assert (set_hist s h = s) as Hset by (destruct s; cbn in Hs; by subst).
  rewrite Hset in Hr. destruct (m s) as [s' y]. exists s', y. split; [done|]. destruct y as [a|e]; [|by injection Hr as <- _].
  specialize (Hf (s', a) (st_hist s')). by rewrite Hr in Hf.
Qed.

Section Begin.
Context (P : event → Prop) `{HP : !calm P}.

#[export] Instance emits_try_H {A} (m : H A) : EmitsH P m → EmitsH P (tryH m).
Proof. intros Hm h h' r. unfold tryH. destruct (m h) as [h1 r1] eqn:Hh. intros [= <- _]. by eapply Hm. Qed.
#[export] Instance emits_publish_at next rev : EmitsH P (publish_at next rev).
Proof. apply (emitsH_publish_at s0). intros. apply HP. Qed.
#[export] Instance emits_remove key rev : EmitsH P (lift_remove key rev).
Proof. apply (emitsH_remove s0). apply HP. Qed.
#[export] Instance emits_frontier rec ns now : EmitsH P (frontierExpired rec ns now).
Proof. induction ns as [|n ns IH]; simpl; [apply _|]. destruct (decide _); [done|]. emits. Qed.
#[export] Instance emits_prune_key scope now key : EmitsH P (prune_key rw bp scope now key).
Proof.
  unfold prune_key, expire, remove_backup_object. apply emitsH_if; [apply _|]. apply emitsH_bind; [apply _|intros [rec rev]].
  apply emitsH_if; [apply _|]. apply emitsH_bind; [destruct (decide _); emits|intros [rec' rev']].
  destruct (er_FinishedAt rec'); [|apply _]. apply emitsH_bind; [apply _|intros _]. destruct (decide _); [apply _|].
  apply emitsH_bind; [emits|intros _]. apply emitsH_bind; [apply emitsH_emit, HP|intros _]. emits.
Qed.
#[export] Instance emits_prune_loop scope now keys : ∀ removed, EmitsH P (prune_loop rw bp scope now keys removed).
Proof. induction keys as [|k keys IH]; intros removed; simpl; [apply _|]. apply emitsH_bind; [apply _|intros [[]|]]; apply _. Qed.
#[export] Instance emits_finish err : EmitsM P (finish w err).
Proof.
  unfold finish. apply emitsM_bind; [apply _|intros pe]. apply emitsM_bind; [apply _|intros s].
  apply emitsM_bind; [apply (emitsM_publish s0); intros; apply HP|intros _]. apply emitsM_bind; [apply _|intros _]. destruct pe; apply _.
Qed.
#[export] Instance emits_start_plugins : EmitsM P (start_plugins w).
Proof. unfold start_plugins. apply emitsM_bind; [apply _|intros [|]]; apply _. Qed.
#[export] Instance emits_create rec : EmitsH P (create_record rec).
Proof.
  intros h h' r. unfold create_record. destruct (st_write _ _ _ _) as [h1 r1] eqn:Hw. intros [= <- _].
  apply (write_cases (s0 := s0)) in Hw as [[-> _]|(rev & -> & _)]; [apply extends_refl|apply extends_one, HP].
Qed.
#[export] Instance emits_with_session {A} rec rev (m : M A) : EmitsM P m → EmitsH P (with_session rec rev m).
Proof.
  intros Hm h h' r. unfold with_session. destruct (m _) as [s1 r1] eqn:Hs. intros [= <- _]. by apply (Hm _ _ _ Hs).
Qed.
#[export] Instance emits_begin tw base operation names sel ro : EmitsH P (beginExecution w rw tw g bp base operation names sel ro).
Proof.
  unfold beginExecution, open_store, pruneExecutions. apply emitsH_bind; [apply _|intros _].
  apply emitsH_bind; [apply _|intros sc]. apply emitsH_bind; [apply _|intros _].
  apply emitsH_bind; [apply emitsH_bind; [apply _|intros ks]; apply emitsH_bind; [apply _|intros]; apply _|intros [? [err|]]]; [apply _|].
  apply emitsH_bind; [apply _|intros h1]. apply emitsH_bind; [apply _|intros nodes]. apply emitsH_bind; [apply _|intros rev].
  apply emitsH_bind; [apply _|intros []]. apply _.
Qed.
#[export] Instance emits_startExecution operation opts reverse : EmitsH P (startExecution w rw sw eng bp operation opts reverse).
Proof. unfold startExecution. apply emitsH_bind; [apply _|intros L]. apply emitsH_bind; [apply _|intros h0]. apply _. Qed.
End Begin.


Lemma begin_Ok tw base operation names sel ro h h' s : beginExecution w rw tw g bp base operation names sel ro h = (h', Ok s) →
  st_hist s = h' ∧ ∃ sc, executionScope tw base (bp_Lock bp) = Ok sc ∧ checkExecutionBarrier sc "" ro h = (h, Ok tt).
Proof.
  unfold beginExecution. intros (h4 & [] & Ho & Hk)%H_bind_Ok. apply H_bind_Ok in Hk as (h5 & sc & Hsc & Hk). injection Hsc as <- Hsc.
  assert (h4 = h) as -> by by apply (silent_same _ _ (emitsH_open_store rw g bp silent _ _ _ Ho)).
  apply H_bind_Ok in Hk as (h6 & [] & Hb & Hk). pose proof (silent_same _ _ (emits_barrier silent _ _ _ _ _ _ Hb)) as ->.
  apply H_bind_Ok in Hk as (h7 & [removed [err|]] & _ & Hk); [done|].
  apply H_bind_Ok in Hk as (h8 & h9 & _ & Hk). apply H_bind_Ok in Hk as (h10 & nodes & _ & Hk).
  apply H_bind_Ok in Hk as (h11 & rev & _ & Hk). apply H_bind_Ok in Hk as (h12 & [s1 []] & Hw & Hk). injection Hk as <- <-.
  unfold with_session in Hw. destruct (start_plugins w _) as [s2 [u|e]]; [|done]. injection Hw as <- <- _. split; [done|by exists sc].
Qed.

Lemma startExecution_hist operation opts reverse h h' s : startExecution w rw sw eng bp operation opts reverse h = (h', Ok s) → st_hist s = h'.
Proof.
  unfold startExecution. intros (h1 & L & _ & Hk)%H_bind_Ok. apply H_bind_Ok in Hk as (h2 & h3 & _ & Hk).
  by apply begin_Ok in Hk as [? _].
Qed.

(** ** A phase in the stored records *)

Lemma transition_stores name phase code plan s s' : transition w name phase code plan s = (s', Ok tt) →
  stored_as (er_ID (st_record s)) phase (st_hist s) (st_hist s') name.
Proof.
  intros Ht. unfold transition in Ht. rewrite getM_bind in Ht. destruct (update_node _ _ _) as [ns|] eqn:Hns; [|done].
  apply M_bind_Ok in Ht as (s1 & [] & Hp & Hk).
  assert (st_hist s1 ≼ st_hist s') as E1.
  { eapply emits_nothing; [|exact Hk]. apply emitsM_if; [|apply _]. apply emitsM_attempt. apply _. }
  apply (publish_cases s0) in Hp as [[_ ?]|(rev & Hh & _)]; [done|].
  destruct (update_node_find name (set_phase phase code plan) (λ n, eq_refl) _ _ Hns) as [Hf [m Hm]].
  eexists rev, _. split.
  - eapply fires_extend; [apply extends_refl| |exact E1]. rewrite Hh. eexists [_]. split; [done|]. apply list_elem_of_singleton. done.
  - unfold phase_of, find_node in *. change (er_Nodes (with_updated ?r _)) with (er_Nodes r). rewrite Hf, Hm. done.
Qed.

End NodeFacts.

(** The operations have instances of their own: search does not look inside. *)
#[export] Typeclasses Opaque Emit transition fail noteSavedFailure setReview run runtime_hook initNode rememberBackendContext
  Outputs_ PlanChanges PlanChangeSet ApplyPlan pluginPlan approve prepareNodePlan applyPreparedPlan planBinding live_outputs
  resolveLiveInputs readPlanBundle retainPlan write_bundle completion backend_type start_saved_plugins finishPlugins finish
  finishSaved finishSavedSession check_runtime_files probe_runtimes startExecution run_session publish.
