(* ===== verification/Commands.v ===== *)
(** The commands that walk the graph (src/internal/engine: plan.go, apply.go,
    destroy.go, and the loop of run.go around a session): what one node's step
    does for each of them, the layers, and the execution around them.

    The loop here runs the nodes of a layer one after another, as [Parallelism]
    1 does; RunLevels.v has the schedules of more workers, and shows that none
    of them changes the order of the layers.  Values are resolved in Inputs.v:
    here an edge's value is an answer, and reading an upstream's outputs is the
    subprocess it is. *)
From S2P Require Import Prelude GoLib Blueprint Module Graph Topo Selection Gate Runner Execution Store Journal Target ApplyNode Prepare Retention RunLevels Engine SavedExecution.
From S2P Require ContractValues Cty.

(** Where an interactive approval is read from. *)
Inductive stdin := NoStdin | FileStdin | ReaderStdin.

Record CommandWorld (Outputs : Type) := MkCommandWorld {
  cm_edge : hist → Edge → result Outputs → result unit;
  cm_basis : hist → string → list InputBasis;
  cm_plan_gates : bool;
  cm_stdin : stdin;
  cm_answered : hist → bool;
  cm_destroy_values : hist → string → result (list ContractValues.check);
}.
Arguments cm_edge {_}. Arguments cm_basis {_}. Arguments cm_plan_gates {_}. Arguments cm_stdin {_}.
Arguments cm_answered {_}. Arguments cm_destroy_values {_}.

Section Commands.
Context {Outputs Evidence Vars : Type} `{!executionStore} `{!MapOrder}.
Context (w : JournalWorld) (rw : RetentionWorld) (nw : NodeWorld Outputs Evidence) (sw : SavedWorld Outputs Vars).
Context (cw : CommandWorld Outputs) (eng : Engine) (bp : Blueprint).

Notation g := (eg_Graph eng).
Notation answer := (@answer Outputs).
Notation shared := (@shared Outputs).

(** ** Inputs (inputs.go) *)

(** An upstream applied in this run is not read again; one that was read is
    shared between the edges of the node; a failed read is not kept. *)
Fixpoint command_edges (name : string) (edges : list Edge) (known : gmap string Outputs) : M (gmap string Outputs) :=
  match edges with
  | [] => mret known
  | e :: edges =>
    if negb (IsDataEdge e) || negb (bool_decide (pr_Node (e_To e) = name)) then command_edges name edges known
    else
      let from := pr_Node (e_From e) in
      read ← (match known !! from with Some o => mret (Ok o) | None => tryM (Outputs_ w nw from) end);
      _ ← ask (λ h, cm_edge cw h e read);
      command_edges name edges (match read with Ok o => <[from := o]> known | Err _ => known end)
  end.

Definition resolve_inputs (name : string) (applied : gmap string Outputs) : M Vars :=
  known ← command_edges name (g_Edges g) applied; ask (λ h, sv_vars sw h name known).

(** [e.plugins.Has("node.plan.ready")]. *)
Definition has_plan_gates : bool := jw_plugins w && cm_plan_gates cw.

(** [initNode] between its transitions; an error of it is wrapped and recorded. *)
Definition initialize (name : string) : M unit :=
  r ← tryM (initNode w nw (sv_prepare sw) g name);
  match r with
  | Err err => fail w name "indeterminate" (Errorf "init: %w" [FErr err])
  | Ok _ => mret tt
  end.

(** ** The layers, one node at a time (run.go) *)

Section Loop.
Context {X : Type} (keepGoing : bool) (act : string → gmap string Outputs → M (answer * option X)).

Definition prepare_step (blocked : gset string) (name : string) : M unit :=
  _ ← ask (λ h, fault_of (nw_cancelled nw h));
  _ ← pureM (match (if keepGoing then blocked_by g blocked name else None) with
             | Some parent => Err (plan_blocked parent)
             | None => Ok tt
             end);
  Emit w "node.prepare" name.

Definition node_step (blocked : gset string) (snapshot : gmap string Outputs) (name : string) : M (answer * option X) :=
  ready ← tryM (prepare_step blocked name);
  a ← (match ready with
       | Err err => mret (MkAnswer None StatusNotRun (Some err), None)
       | Ok _ => act name snapshot
       end);
  _ ← attemptM (Emit w "node.finished" name);
  mret a.

Definition note (name : string) (x : option X) (notes : gmap string X) : gmap string X :=
  match x with Some x => <[name := x]> notes | None => notes end.

Fixpoint level_nodes (li : nat) (blocked : gset string) (snapshot : gmap string Outputs) (todo : list (nat * string))
    (sh : shared) (notes : gmap string X) : M (shared * gmap string X) :=
  match todo with
  | [] => mret (sh, notes)
  | (i, name) :: todo =>
    '(a, x) ← node_step blocked snapshot name;
    level_nodes li blocked snapshot todo (merge_one li (i, name, a) sh) (note name x notes)
  end.

Definition enter_level (level : list string) (sh : shared) : shared :=
  MkShared (sh_runs sh) (sh_failed sh) (sh_applied sh) (replicate (length level) None).

Notation report := (list NodeRun * gmap string X * option error)%type.

(** The layers from [li] on; a stop marks the nodes of the rest as not run. *)
Fixpoint command_levels (li : nat) (levels : list (list string)) (sh : shared) (notes : gmap string X) (first : option error) : M report :=
  match levels with
  | [] => mret (sh_runs sh, notes, first)
  | level :: rest =>
    s ← getM;
    match nw_cancelled nw (st_hist s) with
    | Some err => mret (sh_runs sh ++ mark_levels li levels, notes, Some (External err))
    | None =>
      '(sh, notes) ← level_nodes li (sh_failed sh) (sh_applied sh) (imap pair level) (enter_level level sh) notes;
      ended ← tryM (_ ← completion sw; Emit w "level.finished" "");
      match ended with
      | Err err => mret (sh_runs sh ++ mark_levels (S li) rest, notes, Some err)
      | Ok _ =>
        let failure := first_failure (sh_errs sh) in
        match (if keepGoing then None else failure) with
        | Some err => mret (sh_runs sh ++ mark_levels (S li) rest, notes, Some err)
        | None => command_levels (S li) rest sh notes (match first with Some err => Some err | None => failure end)
        end
      end
    end
  end.

(** [runLevels]: every run is announced and the report sorted at the end. *)
Definition run_levels (scope : Scope) (reverse : bool) : M report :=
  match executionLevels g scope reverse with
  | Err err => mret ([], ∅, Some err)
  | Ok levels =>
    '(runs, notes, err) ← command_levels 0 levels (MkShared [] ∅ ∅ []) ∅ None;
    _ ← forM (λ r, attemptM (Emit w "node.finished" (nr_Node r))) runs;
    mret (merge_sort run_le runs, notes, err)
  end.
End Loop.

Definition answer_of (r : result (option Outputs * string)) : answer :=
  match r with
  | Ok (o, status) => MkAnswer o status None
  | Err err => MkAnswer None "" (Some err)
  end.

(** An action that leaves nothing beside its answer. *)
Definition plain_action (m : string → gmap string Outputs → M (option Outputs * string)) (name : string)
    (applied : gmap string Outputs) : M (answer * option unit) :=
  r ← tryM (m name applied); mret (answer_of r, None).

(** The session's record is finished with the run's error. *)
Definition finish_session (err : option error) : M (option error) :=
  r ← tryM (finish w err); mret (join_errors err (error_of r)).

(** From the opened record to its end. *)
Definition execute_levels {X} (operation : string) (scope : Scope) (reverse keepGoing : bool)
    (act : string → gmap string Outputs → M (answer * option X)) : H (list NodeRun * gmap string X * option error) :=
  s ← startExecution w rw sw eng bp operation scope reverse;
  '(_, report) ← run_session s
    ('(runs, notes, err) ← run_levels keepGoing act scope reverse;
     err ← finish_session err;
     mret (runs, notes, err));
  mret report.

(** ** Apply (apply.go) *)

Definition apply_action (opts : Options) (name : string) (applied : gmap string Outputs) : M (option Outputs * string) :=
  vars ← resolve_inputs name applied;
  _ ← ask (λ h, sv_write_vars sw h name vars);
  _ ← transition w name "initializing" "" "";
  _ ← initialize name;
  _ ← transition w name "preparing" "" "";
  backend ← backend_type nw name;
  if negb (plans_locally backend) then throwM (savedPlanUnsupportedError name backend)
  else bound ← (if op_RetainPlan opts then planBinding w nw sw eng name vars else mret "");
       plan ← prepareNodePlan w nw name;
       _ ← (if op_RetainPlan opts then retainPlan w nw sw eng bp plan bound vars else mret tt);
       '(outputs, status) ← applyPreparedPlan w nw g plan opts;
       mret (Some outputs, status).

Definition parallel_needs_approval (opts : Options) : error :=
  Diagnosed (Diagnostic "invalid_arguments" "arguments" "arguments" "" "")
    (Errorf "--parallelism %d needs --auto-approve: output from concurrent nodes is buffered, so there is nowhere to ask for approval"
       [FInt (parallelism opts)]).

Definition unattended (opts : Options) : bool := negb (op_AutoApprove opts) && bool_decide (1 < parallelism opts)%Z.

Definition Apply (scope : Scope) (opts : Options) : H (list NodeRun * option error) :=
  scope ← pureH (resolveSelection g scope);
  if unattended opts then throwH (parallel_needs_approval opts)
  else
    _ ← askH (rw_lock_run rw);
    _ ← check_runtime_files sw eng scope;
    _ ← askH (rw_lock_graph rw);
    '(runs, _, err) ← execute_levels "apply" scope false false (plain_action (apply_action opts));
    mret (runs, err).

(** ** Destroy (destroy.go) *)

(** [pluginAdmitNative]. *)
Definition pluginAdmitNative (name operation : string) : M unit :=
  if negb (jw_plugins w) then mret tt
  else if cm_plan_gates cw
  then throwM (Errorf "node.%s: configured plugin requires plan evidence but %s has none; use a saved-plan operation" [FStr name; FStr operation])
  else _ ← Emit w "admit" name; Emit w "node.mutation.admit" name.

(** Reading the plan's values failed: only the policy can stop the run. *)
Definition destroy_policy (name : string) (values : result (list ContractValues.check)) : result unit :=
  match values with
  | Ok checks => ContractValues.contractPolicy g checks true
  | Err err =>
    match ContractValues.contractPolicy g [("node." +:+ name, "destroy input evidence", Cty.ContractDeferred)] true with
    | Err policyErr => Err (Errorf "%w: %w" [FErr policyErr; FErr err])
    | Ok _ => Ok tt
    end
  end.

Definition destroyContractPlan (opts : Options) (name : string) : M unit :=
  _ ← transition w name "initializing" "" "";
  _ ← initialize name;
  _ ← transition w name "preparing" "" "";
  backend ← backend_type nw name;
  if negb (plans_locally backend)
  then throwM (Errorf "node.%s: destroy with consumer contracts requires a local plan, which the %q backend cannot produce; use a state-storage backend (s3, gcs, azurerm, http, local) instead" [FStr name; FStr backend])
  else
    _ ← ask (λ h, nw_prepare nw h name);
    _ ← wrapM (λ err, Errorf "destroy plan: %w" [FErr err]) (PlanChanges w nw name);
    _ ← pluginPlan w nw name "node.plan.ready";
    values ← tryM (run w nw name "show" (λ h, cm_destroy_values cw h name));
    _ ← pureM (destroy_policy name values);
    _ ← (if op_AutoApprove opts then mret tt
         else approved ← approve nw name;
              if approved : bool then mret tt
              else throwM (Errorf "destroy cancelled: node %s was not approved" [FStr name]));
    _ ← pluginPlan w nw name "node.mutation.admit";
    _ ← transition w name "operating" "" "";
    r ← tryM (ApplyPlan w nw name);
    _ ← (match r with Err err => fail w name "indeterminate" (Errorf "destroy: %w" [FErr err]) | Ok _ => mret tt end);
    transition w name "completed" "" "".

(** Which remedy the failure of a native destroy names. *)
Definition destroy_failed (opts : Options) (answered : bool) (err : error) : error :=
  if negb (op_AutoApprove opts) then
    match cm_stdin cw with
    | FileStdin => Errorf "destroy: %w (if running unattended, pass --auto-approve to destroy without asking)" [FErr err]
    | NoStdin => Errorf "destroy: %w (nothing was available to read approval from; pass --auto-approve to destroy without asking)" [FErr err]
    | ReaderStdin =>
      if answered then Errorf "destroy: %w" [FErr err]
      else Errorf "destroy: %w (nothing was available to read approval from; pass --auto-approve to destroy without asking)" [FErr err]
    end
  else Errorf "destroy: %w" [FErr err].

Definition NativeDestroy (name : string) : M unit := run w nw name "destroy" (λ h, fault_of (nw_run nw h name "destroy")).

(** Terraform's own confirmation is the approval. *)
Definition destroyNative (opts : Options) (name : string) : M unit :=
  _ ← pluginAdmitNative name "destroy";
  _ ← transition w name "operating" "" "";
  r ← tryM (NativeDestroy name);
  _ ← (match r with
       | Err err =>
         s ← getM;
         wrapM (destroy_failed opts (cm_answered cw (st_hist s))) (fail w name "indeterminate" err)
       | Ok _ => mret tt
       end);
  transition w name "completed" "" "".

Definition consumes_contracts (name : string) : bool :=
  match ContractValues.nodeContracts g name with
  | Some dc => negb (Nat.eqb (size (dc_Consumer dc)) 0)
  | None => false
  end.

Definition destroy_action (opts : Options) (name : string) (applied : gmap string Outputs) : M (option Outputs * string) :=
  vars ← resolve_inputs name applied;
  _ ← ask (λ h, sv_write_vars sw h name vars);
  _ ← (if consumes_contracts name || has_plan_gates then destroyContractPlan opts name else destroyNative opts name);
  mret (None, StatusDestroyed).

(** What a node declares, not the level it resolves to. *)
Definition check_teardown (name : string) : result unit :=
  let a := default "" (n_Approve <$> engine_node eng name) in
  if bool_decide (a ≠ "") && bool_decide (a ≠ ApproveAll)
  then Err (Diagnosed (Diagnostic "policy_blocked" "policy" "policy" "" "")
              (Errorf "destroy: node %s declares approve = %q, which does not permit teardown; change it to %q on that node (or its enclosing use) if tearing it down is intended"
                 [FStr name; FStr a; FStr ApproveAll]))
  else Ok tt.

Definition Destroy (scope : Scope) (opts : Options) : H (list NodeRun * option error) :=
  scope ← pureH (resolveSelection g scope);
  if unattended opts then throwH (parallel_needs_approval opts)
  else
    levels ← pureH (executionLevels g scope true);
    _ ← pureH (foldM (λ _ name, check_teardown name) tt (concat levels));
    _ ← askH (rw_lock_run rw);
    _ ← check_runtime_files sw eng scope;
    _ ← askH (rw_lock_graph rw);
    '(runs, _, err) ← execute_levels "destroy" scope true false (plain_action (destroy_action opts));
    mret (runs, err).

(** ** Plan (plan.go) *)

(** A step of a node's plan: it fills the review, and with [inspect] a failure
    is also the review's diagnostic. *)
Definition V (A : Type) : Type := PlanReview → M (PlanReview * result A).
#[local] Instance V_ret : MRet V := λ A a rv, mret (rv, Ok a).
#[local] Instance V_bind : MBind V := λ A B f m rv,
  '(rv, r) ← m rv; match r with Ok a => f a rv | Err e => mret (rv, Err e) end.

Definition throwV {A} (err : error) : V A := λ rv, mret (rv, Err err).
Definition liftV {A} (m : M A) : V A := λ rv, a ← m; mret (rv, Ok a).

Definition with_diagnostic (rv : PlanReview) (err : error) : error :=
  match rv_Diagnostic rv with Some d => Diagnosed d err | None => err end.

Section Plan.
Context (inspect allowTextFallback : bool) (name : string).

Definition failing {A} (code phase : string) (m : M A) : V A := λ rv,
  r ← tryM m;
  match r with
  | Ok a => mret (rv, Ok a)
  | Err err =>
    if inspect then let rv := failure rv name code phase err in mret (rv, Err (with_diagnostic rv err))
    else mret (rv, Err err)
  end.

Definition update_review (f : PlanReview → PlanReview) : V unit := λ rv, mret (f rv, Ok tt).
Definition review_inputs (basis : list InputBasis) (rv : PlanReview) : PlanReview :=
  MkPlanReview (rv_Evidence rv) (rv_HasChanges rv) (rv_Resources rv) (rv_Outputs rv) (rv_Policy rv)
    (rv_PolicyDecision rv) basis (rv_Contracts rv) (rv_Limitations rv) (rv_Diagnostic rv).
Definition review_changes (resources : list ResourceChange) (outputs : list OutputChange) (rv : PlanReview) : PlanReview :=
  MkPlanReview (rv_Evidence rv) (rv_HasChanges rv) resources outputs (rv_Policy rv)
    (rv_PolicyDecision rv) (rv_Inputs rv) (rv_Contracts rv) (rv_Limitations rv) (rv_Diagnostic rv).
Definition review_contracts (checks : list ContractCheck) (rv : PlanReview) : PlanReview :=
  MkPlanReview (rv_Evidence rv) (rv_HasChanges rv) (rv_Resources rv) (rv_Outputs rv) (rv_Policy rv)
    (rv_PolicyDecision rv) (rv_Inputs rv) checks (rv_Limitations rv) (rv_Diagnostic rv).

(** Values are recorded with their basis as far as they were resolved. *)
Definition planned_inputs (applied : gmap string Outputs) : V Vars := λ rv,
  r ← tryM (resolve_inputs name applied);
  s ← getM;
  failing "input_resolution_failed" "inputs" (pureM r)
    (if inspect then review_inputs (cm_basis cw (st_hist s) name) rv else rv).

Definition completed : V unit := failing "journal_failed" "plan" (transition w name "completed" "" "").

(** The plan is saved, read back, checked and handed to the plugins. *)
Definition saved_review : V string :=
  _ ← failing "plan_artifact_failed" "prepare" (ask (λ h, nw_prepare nw h name));
  changed ← failing "plan_failed" "plan" (wrapM (λ err, Errorf "plan: %w" [FErr err]) (PlanChanges w nw name));
  '(resources, outputs) ← failing "inspection_failed" "inspect" (run w nw name "show" (λ h, sv_show sw h name));
  _ ← update_review (review_changes resources outputs);
  '(checks, err) ← failing "contract_failed" "contracts" (ask (λ h, Ok (sv_checks sw h name)));
  _ ← update_review (review_contracts checks);
  _ ← failing "contract_failed" "contracts" (pureM (match err with Some err => Err err | None => Ok tt end));
  _ ← failing "plugin_gate_failed" "plan" (pluginPlan w nw name "node.plan.ready");
  _ ← update_review (λ rv, normalize rv changed);
  _ ← completed;
  mret StatusPlanned.

(** The native preview; nothing of it is read. *)
Definition text_plan : V string :=
  _ ← failing "plan_failed" "plan" (wrapM (λ err, Errorf "plan: %w" [FErr err])
        (run w nw name "plan" (λ h, fault_of (nw_run nw h name "plan"))));
  _ ← failing "plugin_failed" "plan" (Emit w "node.plan.ready" name);
  _ ← completed;
  mret StatusPlanned.

Definition no_inspection : error := Errorf "backend does not support saved-plan inspection; use text plan for native preview" [].
Definition declared_backend : string := match engine_node eng name ≫= n_Schema with Some s => s_Backend s | None => "" end.

Definition choose_plan (backend : string) : V string :=
  if inspect || ContractValues.hasContracts g name || has_plan_gates then
    if mem declared_backend ["remote"; "cloud"] || negb (plans_locally backend) then
      _ ← update_review (λ rv, failure rv name "inspection_unsupported" "capability" no_inspection);
      if inspect && negb allowTextFallback || has_plan_gates then throwV no_inspection else text_plan
    else saved_review
  else text_plan.

Definition plan_steps (applied : gmap string Outputs) : V string :=
  _ ← (if inspect then failing "runtime_incompatible" "prepare"
                         (liftH (check_runtime_files sw eng (MkScope (Some [name]) false false None None)))
       else mret tt);
  vars ← planned_inputs applied;
  _ ← failing "variables_write_failed" "prepare" (ask (λ h, sv_write_vars sw h name vars));
  _ ← failing "journal_failed" "init" (transition w name "initializing" "" "");
  _ ← failing "initialization_failed" "init" (initialize name);
  _ ← failing "journal_failed" "init" (transition w name "preparing" "" "");
  backend ← liftV (backend_type nw name);
  choose_plan backend.
End Plan.

Definition plan_action (inspect allowTextFallback : bool) (opts : Options) (name : string) (applied : gmap string Outputs)
    : M (answer * option PlanReview) :=
  '(review, r) ← plan_steps inspect allowTextFallback name applied (newPlanReview (approveFor g name (op_Approve opts)));
  mret (match r with
        | Ok status => MkAnswer None status None
        | Err err => MkAnswer None "" (Some err)
        end, if inspect then Some review else None).

Definition not_reached (opts : Options) (r : NodeRun) : PlanReview :=
  failure (newPlanReview (approveFor g (nr_Node r) (op_Approve opts))) (nr_Node r) "not_reached" "schedule"
    (default (Errorf "plan was not reached; retry after resolving earlier diagnostics" []) (nr_Err r)).

(** Every node of a review has one, whether its plan was reached or not. *)
Definition reviewed (opts : Options) (reviews : gmap string PlanReview) (r : NodeRun) : NodeRun * PlanReview :=
  (r, default (not_reached opts r) (reviews !! nr_Node r)).

(** The reports, their reviews when inspecting, the error. *)
Definition plan (inspect allowTextFallback : bool) (scope : Scope) (opts : Options)
    : H (list (NodeRun * option PlanReview) * option error) :=
  scope ← pureH (resolveSelection g scope);
  _ ← askH (rw_lock_run rw);
  _ ← (if inspect then mret tt else check_runtime_files sw eng scope);
  _ ← askH (rw_lock_graph rw);
  '(runs, reviews, err) ← execute_levels "plan" scope false inspect (plan_action inspect allowTextFallback opts);
  mret ((λ r, (r, if inspect then Some (reviewed opts reviews r).2 else None)) <$> runs, err).

Definition Plan (scope : Scope) (opts : Options) := plan false false scope opts.
Definition ReviewPlan (allowTextFallback : bool) (scope : Scope) (opts : Options) := plan true allowTextFallback scope opts.
End Commands.
