(* ===== verification/NodeOperation.v ===== *)
(** Native operations on one node (src/internal/engine: operation_args.go,
    node_operation.go): [terragraph run --node n -- command] classifies the
    arguments, opens an execution over that node alone, admits the command,
    records it, runs it with managed flags, and archives the backup a state
    change leaves.

    [time.ParseDuration] is a parameter; what the operating system answers
    about the backup file is a function of the history, like the rest. *)
From S2P Require Import Prelude GoLib Blueprint Module Graph Topo Selection Backend Gate Runner Execution Store Journal Target ApplyNode Prepare Retention RunLevels Engine SavedExecution Commands.

(** ** Arguments (operation_args.go) *)

Record nodeOperation := MkNodeOperation {
  no_name : string;
  no_readOnly : bool;
  no_vars : bool;
  no_backup : bool;
  no_init : bool;
}.

(** An operation with the arguments still to check and their bounds; no upper bound is [None]. *)
Record arity := MkArity { ar_op : nodeOperation; ar_rest : list string; ar_min : nat; ar_max : option nat }.

Definition unsupported_state : error :=
  Errorf "unsupported state operation; use list, show, pull, or same-state mv/rm; cross-state operations require a separate native recovery procedure" [].
Definition unsupported_run : error :=
  Errorf "unsupported run operation; use terragraph plan/apply/destroy for graph changes, or run init, console, import, and supported state commands" [].

Definition state_operation (sub : string) (rest : list string) : result arity :=
  let op ro backup := MkNodeOperation ("state " +:+ sub) ro false backup false in
  if decide (sub = "list") then Ok (MkArity (op true false) rest 0 None)
  else if decide (sub = "show") then Ok (MkArity (op true false) rest 1 (Some 1))
  else if decide (sub = "pull") then Ok (MkArity (op true false) rest 0 (Some 0))
  else if decide (sub = "mv") then Ok (MkArity (op false true) rest 2 (Some 2))
  else if decide (sub = "rm") then Ok (MkArity (op false true) rest 1 None)
  else Err unsupported_state.

Definition select_operation (args : list string) : result arity :=
  match args with
  | [] => Err (Errorf "run needs a native command after --" [])
  | cmd :: rest =>
    if decide (cmd = "init") then Ok (MkArity (MkNodeOperation cmd false false false true) rest 0 (Some 0))
    else if decide (cmd = "console") then Ok (MkArity (MkNodeOperation cmd true true false false) rest 0 (Some 0))
    else if decide (cmd = "import") then Ok (MkArity (MkNodeOperation cmd false true true false) rest 2 (Some 2))
    else if decide (cmd = "state") then
      match rest with
      | [] => Err (Errorf "run state needs list, show, pull, mv, or rm" [])
      | sub :: rest => state_operation sub rest
      end
    else Err unsupported_run
  end.

Section Args.
Context (ParseDuration : string → result Z).

Definition managed (key : string) : error :=
  Errorf "run does not allow %s for this operation; keep backend, state, workspace, variable, backup, and locking configuration managed by the selected node" [FStr key].

(** One argument that starts with a dash. *)
Definition check_flag (op : nodeOperation) (arg : string) : result unit :=
  let '(key, value, hasValue) := cut "="%char arg in
  if bool_decide (key = "-no-color") && negb hasValue then Ok tt
  else if bool_decide (key = "-lock-timeout") && hasValue && negb (no_init op)
          && (negb (no_readOnly op) || bool_decide (no_name op = "console"))
  then match ParseDuration value with
       | Ok d => if decide (d < 0)%Z then Err (Errorf "-lock-timeout needs a nonnegative duration" []) else Ok tt
       | Err _ => Err (Errorf "-lock-timeout needs a nonnegative duration" [])
       end
  else if bool_decide (key = "-id") && hasValue && bool_decide (no_name op = "state list") then Ok tt
  else Err (managed key).

Definition is_flag (arg : string) : bool := has_prefix arg "-".

Definition count_argument (op : nodeOperation) (positional : nat) (arg : string) : result nat :=
  if negb (is_flag arg) then Ok (S positional) else _ ← check_flag op arg; Ok positional.

Definition classifyOperation (args : list string) : result nodeOperation :=
  a ← select_operation args;
  positional ← foldM (count_argument (ar_op a)) 0 (ar_rest a);
  if Nat.ltb positional (ar_min a) || match ar_max a with Some most => Nat.ltb most positional | None => false end
  then Err (Errorf "run %s received the wrong number of positional arguments; use native addresses and IDs after the command" [FStr (no_name (ar_op a))])
  else Ok (ar_op a).
End Args.

(** ** The flags terragraph adds (node_operation.go) *)

(** [var_flags] right after the command. *)
Definition with_var_flags (op : nodeOperation) (args var_flags : list string) : list string :=
  if no_vars op then
    let flags := var_flags ++ (if decide (no_name op = "import") then ["-input=false"] else []) in
    take 1 args ++ flags ++ drop 1 args
  else args.

Definition with_backup_flags (op : nodeOperation) (args native : list string) (path : string) : list string :=
  if no_backup op then
    let at_ := if decide (args !! 0 = Some "state") then 2 else 1 in
    take at_ native ++ ["-lock=true"; "-backup=" +:+ path] ++ drop at_ native
  else native.

Definition VarFileArgs (path : string) (empty : bool) : list string := if empty then [] else ["-var-file=" +:+ path].

(** ** The backup a runtime left *)

Inductive backup_file :=
  | BackupMissing
  | BackupUnreadable (e : error)
  | BackupSpecial
  | BackupFile (size : Z) (data : result (list Byte.byte)).

Record OperationWorld (Vars : Type) := MkOperationWorld {
  ow_environment : hist → string → result unit;
  ow_no_vars : Vars → bool;
  ow_prepare_backup : hist → string → result unit;
  ow_native : hist → string → list string → result unit;
  ow_init : hist → string → list string → result unit;
  ow_backup : hist → string → backup_file;
  ow_remove : hist → string → result unit;
  ow_write_out : hist → payload → result unit;
}.
Arguments ow_environment {_}. Arguments ow_no_vars {_}. Arguments ow_prepare_backup {_}. Arguments ow_native {_}.
Arguments ow_init {_}. Arguments ow_backup {_}. Arguments ow_remove {_}. Arguments ow_write_out {_}.

Fixpoint replace_byte (a b : ascii) (s : string) : string :=
  match s with
  | EmptyString => EmptyString
  | String c s => String (if decide (c = a) then b else c) (replace_byte a b s)
  end.

Definition with_backup (r : ExecutionRecord) : ExecutionRecord :=
  MkExecutionRecord (er_PluginCalls r) (er_Selection r) (er_SchemaVersion r) (er_Preparation r) true (er_ID r)
    (er_Scope r) (er_Binding r) (er_Operation r) (er_Status r) (er_CreatedAt r) (er_UpdatedAt r) (er_FinishedAt r)
    (er_RecoveryAt r) (er_Nodes r).

Section Operation.
Context {Outputs Evidence Vars : Type} `{!executionStore} `{!MapOrder} `{!PathIdentity} (ParseDuration : string → result Z).
Context (w : JournalWorld) (rw : RetentionWorld) (nw : NodeWorld Outputs Evidence) (sw : SavedWorld Outputs Vars).
Context (cw : CommandWorld Outputs) (ow : OperationWorld Vars) (eng : Engine) (bp : Blueprint).

Notation g := (eg_Graph eng).

Definition backup_path (id : string) : string := Join [eg_BaseDir eng; ".terragraph"; "backups"; id +:+ ".tfstate"].

(** *** Archiving the backup *)

Definition write_backup (id : string) (data : list Byte.byte) : M unit := λ s,
  let '(h', r) := st_write (bundle_key id) (PBytes data) "" (st_hist s) in
  (set_hist s h', match r with Ok _ => Ok tt | Err e => Err e end).

Definition persistOperationBackup (path : string) : M unit :=
  s ← getM;
  match ow_backup ow (st_hist s) path with
  | BackupMissing => mret tt
  | BackupUnreadable err => throwM err
  | BackupSpecial => throwM (Errorf "native backup could not be archived; preserve %s and inspect execution history" [FStr path])
  | BackupFile size data =>
    if decide (executionObjectLimit < size)%Z
    then throwM (Errorf "native backup could not be archived; preserve %s and inspect execution history" [FStr path])
    else
      data ← pureM data;
      if decide (data = []) then throwM (Errorf "native backup is empty; preserve %s and inspect execution history" [FStr path])
      else
        _ ← wrapM (λ err, Errorf "archiving native backup failed; preserve %s: %w" [FStr path; FErr err])
              (write_backup (er_ID (st_record s)) data);
        _ ← publish (with_backup (st_record s));
        ask (λ h, ow_remove ow h path)
  end.

(** *** The operation in its session *)

Definition managed_args (op : nodeOperation) (name : string) (args : list string) : M (list string) :=
  if no_vars op then
    vars ← resolveLiveInputs w nw sw eng name;
    _ ← ask (λ h, sv_write_vars sw h name vars);
    mret (with_var_flags op args (VarFileArgs (tfVarsPath eng name) (ow_no_vars ow vars)))
  else mret args.

Definition operation_phase (op : nodeOperation) : string :=
  if no_init op then "initializing" else if no_readOnly op then "reading" else "operating".

(** The runtime: [init] also remembers the backend it was made for. *)
Definition run_native (op : nodeOperation) (name : string) (args native : list string) : M unit :=
  if no_init op then
    _ ← run w nw name "init" (λ h, ow_init ow h name (drop 1 args));
    rememberBackendContext (sv_prepare sw) g name
  else run w nw name (no_name op) (λ h, ow_native ow h name native).

Definition operation_body (op : nodeOperation) (name : string) (args : list string) : M unit :=
  native ← managed_args op name args;
  s ← getM;
  let path := backup_path (er_ID (st_record s)) in
  _ ← (if no_backup op then ask (λ h, ow_prepare_backup ow h path) else mret tt);
  let native := with_backup_flags op args native path in
  _ ← (if negb (no_readOnly op) && negb (no_init op) then pluginAdmitNative w cw name (no_name op) else mret tt);
  _ ← transition w name (operation_phase op) "" "";
  r ← tryM (run_native op name args native);
  saved ← tryM (if no_backup op then persistOperationBackup path else mret tt);
  match saved, r with
  | Err err, _ => throwM (default err (join_errors (error_of r) (Some err)))
  | Ok _, Err err => fail w name (if no_readOnly op then "failed" else "indeterminate") err
  | Ok _, Ok _ => transition w name "completed" "" ""
  end.

(** *** [RunNode] *)

Definition operation_scope (name : string) : Scope := MkScope (Some [name]) false false None None.

Definition node_available (name : string) : result GNode :=
  match g_Nodes g !! name with
  | Some n =>
    if bool_decide (name = "") then Err (Errorf "run requires --node naming one exact expanded leaf; use graph to inspect node names" [])
    else match n_ObservationError n, n_Schema n with
         | None, Some s =>
           if negb (s_BackendConfigKnown s)
           then Err (Errorf "node.%s: scoped operations require statically known backend configuration; use literal backend settings" [FStr name])
           else Ok n
         | _, _ => Err (Errorf "node.%s: module is unavailable; restore or vendor this node's source" [FStr name])
         end
  | None => Err (Errorf "run requires --node naming one exact expanded leaf; use graph to inspect node names" [])
  end.

Definition refuse_collisions : result unit :=
  match List.find IsError (pathCollisions eng) with
  | Some p => Err (Errorf ("run: " +:+ (p_Message p).1) (p_Message p).2)
  | None => Ok tt
  end.

Definition RunNode (name : string) (args : list string) : H (option error) :=
  op ← pureH (classifyOperation ParseDuration args);
  _ ← pureH (node_available name);
  _ ← askH (λ h, ow_environment ow h name);
  _ ← askH (rw_lock_run rw);
  _ ← pureH refuse_collisions;
  _ ← check_runtime_files sw eng (operation_scope name);
  _ ← (if no_init op then mret tt else askH (λ h, verifyBackendContext (sv_prepare sw) g h name));
  _ ← askH (rw_lock_graph rw);
  h ← getH;
  s ← beginExecution w rw (sv_target sw h) g bp (eg_BaseDir eng) ("run_" +:+ replace_byte " " "_" (no_name op)) [name] None (no_readOnly op);
  '(_, err) ← run_session s
    (r ← tryM (operation_body op name args); finish_session w (error_of r));
  mret err.

(** *** [ReadExecutionBackup] *)

Definition ReadExecutionBackup (id : string) : H payload :=
  _ ← askH (rw_lock_run rw);
  _ ← open_store rw g bp;
  '(record, _) ← readExecutionRecord id;
  h ← getH;
  scope ← pureH (scope_at sw eng bp h);
  if decide (er_Scope record ≠ scope)
  then throwH (Errorf "execution has no accessible native backup in this scope; use backend-native version history when available" [])
  else
    object ← lift_read (bundle_key id);
    _ ← askH (λ h, ow_write_out ow h (Data object));
    mret (Data object).
End Operation.
