(* ===== verification/SavedProofs.v ===== *)
(** Saved plans are applied exactly (for SavedExecution.v): the runtime's
    [apply] starts only for a node the record holds as planned, with the stored
    bundle of this execution and node, unexpired, and with the bindings, the
    backend target and the graph as they were when the plan was reviewed;
    nothing is planned while applying and nothing is applied while planning. *)
From S2P Require Import Prelude GoLib Blueprint Module Graph Topo Selection Backend Gate Runner Execution Store Journal JournalFacts Target ApplyNode Prepare ApplyProofs Retention RetentionProofs RunLevels Engine PlanSource SavedExecution NodeFacts.

Section SavedProofs.
Context (s0 : gmap string dirent) {Outputs Evidence Vars : Type} `{XS : !executionStore} `{XL : !StoreLaws s0} `{XM : !MapOrder}.
Context (w : JournalWorld) (rw : RetentionWorld) (nw : NodeWorld Outputs Evidence) (sw : SavedWorld Outputs Vars).
Context (eng : Engine) (bp : Blueprint).

Notation g := (eg_Graph eng).


(** ** One node *)

#[local] Instance frames_saved_node node opts : Frames same_id (applySavedNode w nw sw eng node opts).
Proof. unfold applySavedNode. frame. Qed.

Section Emits.
Context (P : event → Prop) `{HP : !calm P}.

#[export] Instance emits_saved_node node opts : allows P (EvRun (en_Name node) "apply") → EmitsM P (applySavedNode w nw sw eng node opts).
Proof.
  intros Ha. unfold applySavedNode. do 3 (apply emitsM_bind; [apply _|intros ?]). apply emitsM_bind; [apply _|intros t].
  destruct (decide _); [apply _|]. apply emitsM_bind; [apply _|intros bd]. destruct (decide _); [apply _|].
  apply emitsM_bind; [apply _|intros []]. apply emitsM_bind; [apply _|intros ri].
  apply emitsM_bind; [destruct ri; apply _|intros []]. apply emitsM_bind; [apply _|intros []].
  apply emitsM_bind; [apply _|intros af]. destruct (decide _); [apply _|]. do 3 (apply emitsM_bind; [apply _|intros []]).
  apply emitsM_bind; [by eapply emits_applyPrepared|intros []; apply _].
Qed.
#[export] Instance emits_apply_nodes opts ns : (∀ n, n ∈ ns → allows P (EvRun (en_Name n) "apply")) → ∀ runs,
  EmitsM P (apply_nodes w nw sw eng opts ns runs).
Proof.
  induction ns as [|n ns IH]; intros Hns runs; simpl; [apply _|].
  assert (∀ runs, EmitsM P (apply_nodes w nw sw eng opts ns runs)) as IH' by (intros; apply IH; intros m Hm; apply Hns; by right).
  assert (allows P (EvRun (en_Name n) "apply")) as Hn by (apply Hns; by left). apply emitsM_if; [done|].
  apply emitsM_bind; [apply emitsM_try; by apply emits_saved_node|intros [status|err]]; [|apply _].
  apply emitsM_bind; [unfold completion; apply _|intros [|]]; apply _.
Qed.
End Emits.

(** The stored bundle of this execution and node, read before it expires. *)
Record own_bundle (id : string) (node : ExecutionNode) (b : planBundle) (h : hist) : Prop := {
  ob_stored : ∃ rev, objects s0 h !! bundle_key (en_PlanID node) = Some (Stored (MkObject rev (PBundle b)));
  ob_id : pbn_ID b = en_PlanID node;
  ob_execution : pbn_ExecutionID b = id;
  ob_node : pbn_Node b = en_Name node;
  ob_plan : pbn_Plan b ≠ [];
  ob_fresh : ∃ t, pbn_ExpiresAt b = Some t ∧ (jw_now w h < t)%Z;
}.

Lemma readPlanBundle_Ok node s s' b : readPlanBundle w node s = (s', Ok b) →
  s' = s ∧ own_bundle (er_ID (st_record s)) node b (st_hist s).
Proof.
  unfold readPlanBundle. intros (s1 & s2 & H1 & Hr)%M_bind_Ok. injection H1 as <- <-.
  apply M_bind_Ok in Hr as (s3 & o & H2 & Hr). unfold wrapM, ask in H2. injection H2 as <- Ho%wrap_err_Ok.
  apply M_bind_Ok in Hr as (s4 & b' & H3 & Hr). unfold wrapM, pureM in H3. injection H3 as <- Hb%wrap_err_Ok.
  destruct (bundle_owned s node b') eqn:Hown; [|done]. simpl in Hr. destruct (expired _ _) eqn:Hx; [done|].
  injection Hr as <- <-. split; [done|]. apply (read_Ok (s0 := s0)) in Ho. destruct o as [rev d]. simpl in Hb.
  destruct d; try done. injection Hb as ->. unfold bundle_owned in Hown.
  rewrite !andb_true_iff, !bool_decide_eq_true, negb_true_iff, bool_decide_eq_false in Hown.
  destruct Hown as [[[[_ ?] ?] ?] ?]. constructor; [by exists rev|done..|].
  unfold expired in Hx. destruct (pbn_ExpiresAt b') as [t|]; [|done]. exists t. split; [done|].
  apply bool_decide_eq_false in Hx. lia.
Qed.

(** What held, in this order, before the runtime's [apply] of a saved plan. *)
Definition admitted (id : string) (node : ExecutionNode) (h hs : hist) : Prop :=
  ∃ b vars h1 h2 h3 h4, h ≼ h1 ∧ h1 ≼ h2 ∧ h2 ≼ h3 ∧ h3 ≼ h4 ∧ h4 ≼ hs ∧
    own_bundle id node b h1 ∧
    executionTarget_at sw eng h2 (en_Name node) = Ok (en_Target node) ∧
    (∃ rt, binding_at w sw eng h3 (en_Name node) rt vars = Ok (pbn_Binding b)) ∧
    fires (EvRun (en_Name node) "init") h3 h4 ∧
    (∃ rt, binding_at w sw eng h4 (en_Name node) rt vars = Ok (pbn_Binding b)) ∧
    sv_write_plan sw h4 (en_Name node) (pbn_Plan b) = Ok tt.

Lemma saved_node_fires node opts s s' r : applySavedNode w nw sw eng node opts s = (s', r) →
  fires (EvRun (en_Name node) "apply") (st_hist s) (st_hist s') →
  ∃ hs, admitted (er_ID (st_record s)) node (st_hist s) hs ∧ fires (EvRun (en_Name node) "apply") hs (st_hist s').
Proof.
  unfold applySavedNode. intros Hr Hf.
  apply (fires_bind (EvRun (en_Name node) "apply")) in Hr as (s1 & [] & H1 & E1 & Hr & Hf1); [|apply _|calm|done].
  apply (frames (R := same_id)) in H1. apply (fires_bind (EvRun (en_Name node) "apply")) in Hr as (s2 & b & [-> Hb]%readPlanBundle_Ok & _ & Hr & _); [|apply _|calm|done].
  rewrite H1 in Hb. apply (fires_bind (EvRun (en_Name node) "apply")) in Hr as (s3 & vars & H3 & E3 & Hr & Hf3); [|apply _|calm|done].
  apply (fires_bind (EvRun (en_Name node) "apply")) in Hr as (s4 & target & H4 & _ & Hr & Hf4); [|apply _|calm|done]. injection H4 as <- Ht.
  destruct (decide (target ≠ en_Target node)) as [|Heq%dec_stable]; [injection Hr as <- _; by apply fires_here in Hf4|].
  apply (fires_bind (EvRun (en_Name node) "apply")) in Hr as (s5 & bd & H5 & E5 & Hr & Hf5); [|apply _|calm|done]. apply planBinding_Ok in H5.
  destruct (decide (bd ≠ _)) as [|Heq'%dec_stable]; [injection Hr as <- _; by apply fires_here in Hf5|].
  apply (fires_bind (EvRun (en_Name node) "apply")) in Hr as (s6 & [] & _ & E6 & Hr & Hf6); [|apply _|calm|done].
  apply (fires_bind (EvRun (en_Name node) "apply")) in Hr as (s7 & ri & H7 & E7 & Hr & Hf7); [|apply _|calm|done].
  apply (fires_bind (EvRun (en_Name node) "apply")) in Hr as (s8 & [] & H8 & E8 & Hr & Hf8); [|calm|calm|done].
  assert (fires (EvRun (en_Name node) "init") (st_hist s6) (st_hist s7)) as Hi.
  { unfold tryM in H7. destruct (initNode w nw (sv_prepare sw) g (en_Name node) s6) as [s7' [[]|e]] eqn:Hin; injection H7 as <- <-; [by eapply init_fires|].
    unfold fail, throw_joined in H8. destruct (transition _ _ _ _ _ _) in H8. done. }
  apply (fires_bind (EvRun (en_Name node) "apply")) in Hr as (s9 & [] & _ & E9 & Hr & Hf9); [|apply _|calm|done].
  apply (fires_bind (EvRun (en_Name node) "apply")) in Hr as (s10 & af & H10 & E10 & Hr & Hf10); [|apply _|calm|done]. apply planBinding_Ok in H10.
  destruct (decide (af ≠ _)) as [|Heq2%dec_stable]; [injection Hr as <- _; by apply fires_here in Hf10|].
  apply (fires_bind (EvRun (en_Name node) "apply")) in Hr as (s11 & [] & H11 & _ & Hr & Hf11); [|apply _|calm|done]. injection H11 as <- _.
  apply (fires_bind (EvRun (en_Name node) "apply")) in Hr as (s12 & [] & H12 & _ & Hr & Hf12); [|apply _|calm|done]. injection H12 as <- Hwr.
  apply (fires_bind (EvRun (en_Name node) "apply")) in Hr as (s13 & [] & _ & E13 & Hr & Hf13); [|apply _|calm|done].
  exists (st_hist s13). split; [|done]. subst. exists b, vars, (st_hist s1), (st_hist s3), (st_hist s5), (st_hist s10).
  split_and!; [done..| |done|done|done|done| |done|done].
  - exact (extends_trans _ _ _ _ E6 (extends_trans _ _ _ _ E7 (extends_trans _ _ _ _ E8 (extends_trans _ _ _ _ E9 E10)))).
  - eapply fires_extend; [exact E6|exact Hi|]. exact (extends_trans _ _ _ _ E8 (extends_trans _ _ _ _ E9 E10)).
Qed.

(** ** The frontier *)

Lemma admitted_earlier id node h0 h hs : h0 ≼ h → admitted id node h hs → admitted id node h0 hs.
Proof.
  intros H (b & vars & h1 & h2 & h3 & h4 & E & Hr). exists b, vars, h1, h2, h3, h4. split; [by eapply extends_trans|done].
Qed.

Definition apply_of (n : string) (ev : event) : Prop := ev ≠ EvRun n "apply".
#[local] Instance calm_apply_of n : calm (apply_of n) := calm_not_apply n.

Lemma apply_nodes_fires n opts ns : ∀ runs s s' r, apply_nodes w nw sw eng opts ns runs s = (s', r) →
  fires (EvRun n "apply") (st_hist s) (st_hist s') →
  ∃ node hs, node ∈ ns ∧ en_Phase node = "planned" ∧ en_Name node = n ∧
    admitted (er_ID (st_record s)) node (st_hist s) hs ∧ fires (EvRun n "apply") hs (st_hist s').
Proof.
  induction ns as [|node ns IH]; intros runs s s' r; simpl; [intros [= <- _] Hf; by apply fires_here in Hf|].
  assert (∀ runs s s' r, apply_nodes w nw sw eng opts ns runs s = (s', r) → fires (EvRun n "apply") (st_hist s) (st_hist s') →
    ∃ node' hs, node' ∈ node :: ns ∧ en_Phase node' = "planned" ∧ en_Name node' = n ∧
      admitted (er_ID (st_record s)) node' (st_hist s) hs ∧ fires (EvRun n "apply") hs (st_hist s')) as IH'.
  { intros runs0 t t' r0 Hr Hf. destruct (IH _ _ _ _ Hr Hf) as (m & hs & Hin & Hm). exists m, hs. split; [by right|done]. }
  destruct (bool_decide_reflect (en_Phase node = "planned")) as [Hp|_]; simpl; [|apply IH'].
  intros (s1 & x & H1 & Hr)%try_bind Hf.
  assert (st_hist s ≼ st_hist s1) as E1 by (eapply (emits_nothing (λ _, True)); [by apply emits_saved_node; [apply _|]|exact H1]).
  pose proof (frames (R := same_id) _ _ _ H1) as Hid.
  assert (fires (EvRun n "apply") (st_hist s) (st_hist s1) → st_hist s1 ≼ st_hist s' →
    ∃ node' hs, node' ∈ node :: ns ∧ en_Phase node' = "planned" ∧ en_Name node' = n ∧
      admitted (er_ID (st_record s)) node' (st_hist s) hs ∧ fires (EvRun n "apply") hs (st_hist s')) as Hhere.
  { intros Hf1 E2. destruct (decide (en_Name node = n)) as [<-|Hne].
    - destruct (saved_node_fires _ _ _ _ _ H1 Hf1) as (hs & Ha & Hfs). exists node, hs. split_and!; [by left|done..|].
      eapply fires_extend; [apply extends_refl|done|done].
    - exfalso. apply (quiet_fires (EvRun n "apply") (st_hist s) (st_hist s1)); [|done]. change (extends (apply_of n) (st_hist s) (st_hist s1)).
      eapply (emits_nothing (apply_of n)); [|exact H1]. apply emits_saved_node; [apply _|]. intros [= ?]; done. }
  destruct x as [status|err].
  - apply try_bind in Hr as (s2 & y & H2 & Hr).
    assert (extends (apply_of n) (st_hist s1) (st_hist s2)) as Q2 by (eapply (emits_nothing (apply_of n)); [|exact H2]; unfold completion; apply _).
    pose proof (extends_any _ _ _ Q2) as E2.
    assert (same_id (st_record s1) (st_record s2)) as Hid2 by exact (frames (R := same_id) _ _ _ H2).
    assert (st_hist s2 ≼ st_hist s') as E3.
    { destruct y; [eapply (emits_nothing (λ _, True)); [|exact Hr]; by apply emits_apply_nodes; [apply _|]|injection Hr as <- _; apply extends_refl]. }
    destruct (fires_between _ _ _ _ E1 (extends_trans _ _ _ _ E2 E3) Hf) as [Hf1|Hf1]; [by apply Hhere; [|eapply extends_trans]|].
    destruct (fires_between _ _ _ _ E2 E3 Hf1) as [Hf2|Hf2]; [by apply quiet_fires in Q2|].
    destruct y as [[]|e]; [|injection Hr as <- _; by apply fires_here in Hf2].
    destruct (IH' _ _ _ _ Hr Hf2) as (m & hs & Hin & Hph & Hm & Ha & Hfs). exists m, hs. split_and!; [done..| |done].
    unfold same_id in *. rewrite Hid2, Hid in Ha. eapply admitted_earlier; [|exact Ha]. by eapply extends_trans.
  - apply try_bind in Hr as (s2 & y & H2 & Hr). injection Hr as <- _.
    assert (extends (apply_of n) (st_hist s1) (st_hist s2)) as Q2 by (eapply (emits_nothing (apply_of n)); [|exact H2]; apply _).
    destruct (fires_between _ _ _ _ E1 (extends_any _ _ _ Q2) Hf) as [Hf1|Hf1]; [by apply Hhere; [|eapply extends_any]|by apply quiet_fires in Q2].
Qed.

Section Finish.
Context (P : event → Prop) `{HP : !calm P}.

#[export] Instance emits_start : EmitsM P (start_saved_plugins w).
Proof. unfold start_saved_plugins. apply _. Qed.
#[export] Instance emits_apply_check id scope : EmitsM P (apply_check w sw eng id scope).
Proof. unfold apply_check. calm. Qed.
#[export] Instance emits_apply_body opts : (∀ n, allows P (EvRun n "apply")) → EmitsM P (apply_body w nw sw eng opts).
Proof.
  intros Ha. unfold apply_body. apply emitsM_bind; [apply emitsM_if; apply _|intros []]. apply emitsM_bind; [apply _|intros s].
  apply emitsM_bind; [by apply emits_apply_nodes|intros [runs [err|]]]; [apply _|]. apply emitsM_bind; [apply _|intros s1].
  apply emitsM_bind; [|intros; apply _]. apply emitsM_try, (emitsM_publish s0). intros. apply HP.
Qed.
#[export] Instance emits_apply_session id scope opts : (∀ n, allows P (EvRun n "apply")) → EmitsM P (apply_session w nw sw eng id scope opts).
Proof.
  intros Ha. unfold apply_session. apply emitsM_bind; [apply _|intros [[]|err]]; [|apply _].
  apply emitsM_bind; [apply emitsM_try; by apply emits_apply_body|intros [[runs err]|err]]; apply _.
Qed.
End Finish.

#[local] Instance emits_open P id : EmitsH P (openSavedExecution rw sw eng bp id).
Proof. unfold openSavedExecution, open_store. emits. Qed.

Lemma openSavedExecution_Ok id h h' s : openSavedExecution rw sw eng bp id h = (h', Ok s) →
  h' = h ∧ st_hist s = h ∧ stored s0 h (record_key id) (st_record s) ∧ er_ID (st_record s) = id ∧
  ∃ sc, scope_at sw eng bp h = Ok sc ∧ resumable sc (st_record s) = true.
Proof.
  intros Ho. pose proof (silent_same _ _ (emits_open silent _ _ _ _ Ho)) as ->. split; [done|]. revert Ho.
  unfold openSavedExecution. intros (h1 & [] & E1 & Hk)%H_bind_Ok.
  pose proof (silent_same _ _ (emitsH (P := silent) _ _ _ E1)) as ->.
  apply H_bind_Ok in Hk as (h2 & [rec rev] & E2 & Hk). pose proof (silent_same _ _ (emitsH (P := silent) _ _ _ E2)) as ->.
  unfold wrapH in E2. destruct (readExecutionRecord id h) as [h2 r2] eqn:Hr. injection E2 as -> E2%wrap_err_Ok. subst r2.
  apply (readExecutionRecord_Ok s0) in Hr as (_ & Hst & Hid & _).
  apply H_bind_Ok in Hk as (h3 & sc & E3 & Hk). unfold wrapH, askH in E3. injection E3 as <- E3%wrap_err_Ok.
  destruct (resumable sc rec) eqn:Hres; [|done]. simpl in Hk.
  apply H_bind_Ok in Hk as (h4 & [] & E4 & Hk). pose proof (silent_same _ _ (emitsH (P := silent) _ _ _ E4)) as ->.
  apply H_bind_Ok in Hk as (h5 & h6 & E5 & Hk). injection E5 as <- <-. injection Hk as <-. cbn.
  split_and!; [done|by exists rev|done|]. by exists sc.
Qed.

Lemma apply_check_Ok id scope s s' : apply_check w sw eng id scope s = (s', Ok tt) →
  st_record s' = st_record s ∧ st_hist s ≼ st_hist s' ∧ er_Status (st_record s) = "waiting_for_apply" ∧
  savedGraphBinding w sw eng (st_hist s') (st_record s) = Ok (er_Binding (st_record s)).
Proof.
  intros Hc. assert (st_hist s ≼ st_hist s') as E by (by eapply (emits_apply_check (λ _, True))). revert Hc.
  unfold apply_check. intros (s1 & s2 & H1 & Hr)%M_bind_Ok. injection H1 as <- <-.
  apply M_bind_Ok in Hr as (s3 & o & H3 & Hr). injection H3 as <- _. apply M_bind_Ok in Hr as (s4 & [] & H4 & Hr).
  assert (st_record s4 = st_record s) as Hrec.
  { unfold liftH in H4. destruct (check_runtime_files _ _ _ _) in H4. by injection H4 as <- _. }
  destruct (decide _) as [|Hst%dec_stable]; [done|]. apply M_bind_Ok in Hr as (s5 & bd & H5 & Hr). injection H5 as <- Hb.
  destruct (decide _) as [|Hbd%dec_stable]; [done|]. injection Hr as <-. subst bd. by split_and!.
Qed.

Lemma apply_body_fires n opts s s' r : apply_body w nw sw eng opts s = (s', r) →
  fires (EvRun n "apply") (st_hist s) (st_hist s') →
  ∃ node hs, node ∈ er_Nodes (st_record s) ∧ en_Phase node = "planned" ∧ en_Name node = n ∧
    admitted (er_ID (st_record s)) node (st_hist s) hs ∧ fires (EvRun n "apply") hs (st_hist s').
Proof.
  unfold apply_body. intros Hr Hf. apply (fires_bind (EvRun n "apply")) in Hr as (s1 & [] & H1 & E1 & Hr & Hf1); [|apply emitsM_if; apply _| |done].
  2: { intros []. apply emitsM_bind; [apply _|intros s1]. apply emitsM_bind; [by apply emits_apply_nodes; [apply _|]|intros [runs [err|]]]; [apply _|].
       apply emitsM_bind; [apply _|intros s2]. apply emitsM_bind; [by apply emitsM_try, (emitsM_publish s0)|intros; apply _]. }
  assert (same_nodes (st_record s) (st_record s1)) as [Hid Hns].
  { exact (frames (R := same_nodes) _ _ _ H1). }
  unfold mbind, M_bind at 1, getM in Hr. rewrite Hns in Hr. unfold mbind, M_bind at 1 in Hr.
  destruct (apply_nodes w nw sw eng opts (er_Nodes (st_record s)) [] s1) as [s2 y] eqn:H2.
  assert (st_hist s1 ≼ st_hist s2) as E2 by (eapply (emits_nothing (λ _, True)); [|exact H2]; by apply emits_apply_nodes; [apply _|]).
  assert (fires (EvRun n "apply") (st_hist s1) (st_hist s2) ∧ st_hist s2 ≼ st_hist s') as [Hf2 E3].
  { assert (extends (apply_of n) (st_hist s2) (st_hist s')) as Q; [|split; [by eapply fires_first|by eapply extends_any]].
    destruct y as [[runs [err|]]|err]; [by injection Hr as <- _; apply extends_refl| |by injection Hr as <- _; apply extends_refl].
    eapply (emits_nothing (apply_of n)); [|exact Hr]. apply emitsM_bind; [apply _|intros s3].
    apply emitsM_bind; [by apply emitsM_try, (emitsM_publish s0)|intros; apply _]. }
  destruct (apply_nodes_fires n _ _ _ _ _ _ H2 Hf2) as (node & hs & Hin & Hp & Hn & Ha & Hfs).
  exists node, hs. rewrite Hid in Ha. split_and!; [done..|by eapply admitted_earlier|].
  eapply fires_extend; [apply extends_refl|exact Hfs|exact E3].
Qed.

(** Where the runtime's [apply] can start in a session. *)
Lemma apply_session_fires n id scope opts s s' r : apply_session w nw sw eng id scope opts s = (s', r) →
  fires (EvRun n "apply") (st_hist s) (st_hist s') →
  er_Status (st_record s) = "waiting_for_apply" ∧ ∃ h0, st_hist s ≼ h0 ∧
    savedGraphBinding w sw eng h0 (st_record s) = Ok (er_Binding (st_record s)) ∧
    ∃ node hs, node ∈ er_Nodes (st_record s) ∧ en_Phase node = "planned" ∧ en_Name node = n ∧
      admitted (er_ID (st_record s)) node h0 hs ∧ fires (EvRun n "apply") hs (st_hist s').
Proof.
  unfold apply_session. intros (s1 & x & H1 & Hr)%try_bind Hf.
  assert (extends (apply_of n) (st_hist s) (st_hist s1)) as Q1 by (by eapply (emits_apply_check (apply_of n))).
  destruct x as [[]|err].
  2: { assert (extends (apply_of n) (st_hist s1) (st_hist s')) as Q2 by (eapply (emits_nothing (apply_of n)); [|exact Hr]; apply _).
       exfalso. by apply (quiet_fires _ _ _ (extends_trans _ _ _ _ Q1 Q2)). }
  apply apply_check_Ok in H1 as (Hrec & E1 & Hst & Hbd). split; [done|]. exists (st_hist s1). split; [done|]. split; [done|].
  apply try_bind in Hr as (s2 & y & H2 & Hr).
  assert (st_hist s1 ≼ st_hist s2) as E2 by (eapply (emits_nothing (λ _, True)); [|exact H2]; by apply emits_apply_body; [apply _|]).
  assert (extends (apply_of n) (st_hist s2) (st_hist s')) as Q2.
  { eapply (emits_nothing (apply_of n)); [|exact Hr]. destruct (match y with Ok x => x | Err err => _ end) as [runs err]. apply _. }
  assert (fires (EvRun n "apply") (st_hist s1) (st_hist s')) as Hf1.
  { destruct (fires_between _ _ _ _ E1 (extends_trans _ _ _ _ E2 (extends_any _ _ _ Q2)) Hf) as [Hq|?]; [by apply quiet_fires in Q1|done]. }
  pose proof (fires_first _ _ _ _ E2 Q2 Hf1) as Hf2.
  destruct (apply_body_fires n _ _ _ _ H2 Hf2) as (node & hs & Hin & Hp & Hn & Ha & Hfs). rewrite Hrec in Hin, Ha.
  exists node, hs. split_and!; [done..|]. eapply fires_extend; [apply extends_refl|exact Hfs|by eapply extends_any].
Qed.

(** C2: a stored plan is applied exactly as it was reviewed, or not at all.
    Applying an execution never plans anything, and the runtime's [apply] for a
    node starts only when the stored record was resumable and waiting for its
    apply, the graph's binding was the record's, the record held the node as
    planned, and then, in this order: the node's own bundle was read unexpired,
    the backend target was the record's, the binding of source, runtime, paths
    and inputs was the bundle's before and after the node was initialized, and
    the bundle's own bytes were written as the plan to apply. *)
Theorem saved_apply_exact n id scope opts h h' r : ApplySavedPlans w rw nw sw eng bp id scope opts h = (h', r) →
  extends (λ ev, ∀ m, ev ≠ EvRun m "plan") h h' ∧
  (fires (EvRun n "apply") h h' →
   ∃ rec sc h0 node hs, stored s0 h (record_key id) rec ∧ scope_at sw eng bp h = Ok sc ∧ resumable sc rec = true ∧
     er_Status rec = "waiting_for_apply" ∧ h ≼ h0 ∧ savedGraphBinding w sw eng h0 rec = Ok (er_Binding rec) ∧
     node ∈ er_Nodes rec ∧ en_Name node = n ∧ en_Phase node = "planned" ∧
     admitted id node h0 hs ∧ fires (EvRun n "apply") hs h').
Proof.
  intros Hr. split.
  - assert (calm (λ ev, ∀ m, ev ≠ EvRun m "plan")) as Hcalm by (constructor; try done; intros m op Hop k [= -> ->]; set_solver).
    refine ((_ : EmitsH (λ ev, ∀ m, ev ≠ EvRun m "plan") (ApplySavedPlans w rw nw sw eng bp id scope opts)) _ _ _ Hr). clear Hr. unfold ApplySavedPlans.
    apply emitsH_if; [apply _|]. apply emitsH_if; [apply _|]. repeat (apply emitsH_bind; [apply _|intros ?]).
    apply emitsH_bind; [|intros []; apply _]. apply run_session_emits. by apply emits_apply_session.
  - intros Hf. unfold ApplySavedPlans in Hr. destruct (hasSelectionFlags scope); [injection Hr as <- _; by apply fires_here in Hf|].
    destruct (_ && _); [injection Hr as <- _; by apply fires_here in Hf|].
    do 2 (apply H_bind_inv in Hr as [(e & E & _)|(h1 & [] & E & Hr)]; [injection E as <- _; by apply fires_here in Hf|injection E as <- _]).
    apply H_bind_inv in Hr as [(e & E & _)|(h1 & s & E & Hr)].
    { apply (emits_open silent), silent_same in E as ->. by apply fires_here in Hf. }
    apply openSavedExecution_Ok in E as (-> & Hh & Hst & Hid & sc & Hsc & Hres).
    unfold mbind, H_bind, run_session in Hr. assert (set_hist s h = s) as Hs by (destruct s; cbn in Hh; by subst).
    rewrite Hs in Hr. destruct (apply_session w nw sw eng id scope opts s) as [s' x] eqn:Ha.
    assert (h' = st_hist s') as -> by (destruct x as [[runs err]|e]; by injection Hr as <- _).
    rewrite <-Hh in Hf. destruct (apply_session_fires n _ _ _ _ _ _ Ha Hf) as (Hwait & h0 & E0 & Hb & node & hs & Hin & Hp & Hn & Had & Hfs).
    rewrite Hid in Had. rewrite Hh in E0. exists (st_record s), sc, h0, node, hs. by split_and!.
Qed.

(** ** Planning *)

Section Saving.
Context (P : event → Prop) `{HP : !calm P}.

#[export] Instance emits_save_node name opts : allows P (EvRun name "plan") → EmitsM P (saveFrontierNode w nw sw eng bp name opts).
Proof.
  intros Hp. unfold saveFrontierNode. do 5 (apply emitsM_bind; [apply _|intros ?]).
  apply emitsM_bind; [match goal with |- EmitsM _ (match ?x with _ => _ end) => destruct x end; apply _|intros []].
  apply emitsM_bind; [apply _|intros []]. apply emitsM_bind; [unfold backend_type; apply _|intros backend].
  apply emitsM_if; [apply _|]. apply emitsM_bind; [apply _|intros before].
  apply emitsM_bind; [by eapply emits_prepare|intros plan]. apply emitsM_bind; [apply _|intros after].
  destruct (decide _); [apply _|]. apply emitsM_bind; [apply _|intros s]. destruct (sv_checks _ _ _) as [checks err].
  apply emitsM_bind; [destruct err; apply _|intros []]. apply emitsM_bind; [apply _|intros [rs os]]. apply _.
Qed.
#[export] Instance emits_save_nodes ph opts ns : (∀ n, n ∈ ns → allows P (EvRun (en_Name n) "plan")) → ∀ count,
  EmitsM P (save_nodes w nw sw eng bp ph opts ns count).
Proof.
  induction ns as [|n ns IH]; intros Hns count; simpl; [apply _|].
  assert (∀ count, EmitsM P (save_nodes w nw sw eng bp ph opts ns count)) as IH' by (intros; apply IH; intros m Hm; apply Hns; by right).
  apply emitsM_if; [done|]. apply emitsM_bind; [apply emitsM_try, emits_save_node, Hns; by left|intros [[]|err]]; apply _.
Qed.
#[export] Instance emits_save_check continued scope : EmitsM P (save_check sw eng continued scope).
Proof. unfold save_check. calm. Qed.
#[export] Instance emits_save_body continued opts : (∀ n, allows P (EvRun n "plan")) → EmitsM P (save_body w nw sw eng bp continued opts).
Proof.
  intros Hp. unfold save_body. apply emitsM_bind; [apply _|intros t]. apply emitsM_bind; [apply _|intros bd]. apply emitsM_if; [apply _|].
  apply emitsM_bind; [apply emitsM_if; apply _|intros []]. apply emitsM_bind; [apply _|intros t1].
  apply emitsM_bind; [apply (emitsM_publish s0); intros; apply HP|intros []]. apply emitsM_bind; [apply _|intros t2].
  apply emitsM_bind; [by apply emits_save_nodes|intros count]. destruct (decide _); [apply _|].
  apply emitsM_bind; [apply _|intros t3]. apply (emitsM_publish s0). intros. apply HP.
Qed.
#[export] Instance emits_saved_session continued scope opts : (∀ n, allows P (EvRun n "plan")) →
  EmitsM P (in_saved_session w (save_check sw eng continued scope) (save_body w nw sw eng bp continued opts)).
Proof.
  intros Hp. unfold in_saved_session. apply emitsM_bind; [apply _|intros [[]|err]]; [|apply _].
  apply emitsM_bind; [by apply emitsM_try, emits_save_body|intros; apply _].
Qed.
End Saving.

#[local] Instance calm_not_plan n : calm (λ e, e ≠ EvRun n "plan").
Proof. constructor; try done. intros m op Hop [= -> ->]. set_solver. Qed.

(** A node is planned only when it is pending and its selected upstreams are completed. *)
Lemma save_nodes_fires n ph opts ns : ∀ count s s' r, save_nodes w nw sw eng bp ph opts ns count s = (s', r) →
  fires (EvRun n "plan") (st_hist s) (st_hist s') →
  ∃ node, node ∈ ns ∧ en_Name node = n ∧ en_Phase node = "pending" ∧ ready eng ph n = true.
Proof.
  intros count s s' r Hr Hf.
  destruct (decide (Exists (λ m, en_Name m = n ∧ en_Phase m = "pending" ∧ ready eng ph (en_Name m) = true) ns)) as [He|Hno].
  - apply Exists_exists in He as (m & Hin & <- & Hp & Hrd). by exists m.
  - exfalso. apply (quiet_fires (EvRun n "plan") (st_hist s) (st_hist s')); [|done]. clear Hf.
    revert count s s' r Hr. induction ns as [|m ns IH]; intros count s s' r; simpl; [intros [= <- _]; apply extends_refl|].
    assert (¬ Exists (λ m, en_Name m = n ∧ en_Phase m = "pending" ∧ ready eng ph (en_Name m) = true) ns) as Hno'
      by (intros He; apply Hno; by apply Exists_cons_tl).
    specialize (IH Hno'). destruct (bool_decide_reflect (en_Phase m = "pending")) as [Hp|_]; [|apply IH].
    destruct (ready eng ph (en_Name m)) eqn:Hrd; [|apply IH]. cbn [negb orb].
    intros (s1 & x & H1 & Hk)%try_bind.
    assert (extends (λ e, e ≠ EvRun n "plan") (st_hist s) (st_hist s1)) as E1.
    { eapply (emits_nothing (λ e, e ≠ EvRun n "plan")); [|exact H1]. apply emits_save_node; [apply _|].
      intros [= Hn]. apply Hno. by apply Exists_cons_hd. }
    eapply extends_trans; [exact E1|]. destruct x as [[]|err]; [|by eapply (emits_nothing (λ e, e ≠ EvRun n "plan")); [|exact Hk]; apply _].
    unfold mbind, M_bind at 1 in Hk. destruct (Emit w "node.finished" (en_Name m) s1) as [s2 y] eqn:H2.
    eapply extends_trans; [by eapply (emits_nothing (λ e, e ≠ EvRun n "plan")); [|exact H2]; apply _|].
    destruct y as [[]|err]; [|injection Hk as <- _; apply extends_refl].
    unfold M_bind, completion, ask in Hk. destruct (sv_completion sw (st_hist s2)); [by eapply IH|injection Hk as <- _; apply extends_refl].
Qed.

#[local] Instance frames_save_check continued scope : Frames eq (save_check sw eng continued scope).
Proof. unfold save_check. frame. Qed.

Definition plan_of (n : string) (ev : event) : Prop := ev ≠ EvRun n "plan".
#[local] Instance calm_plan_of n : calm (plan_of n) := calm_not_plan n.

Lemma save_body_fires n continued opts s s' r : save_body w nw sw eng bp continued opts s = (s', r) →
  fires (EvRun n "plan") (st_hist s) (st_hist s') →
  ∃ node, node ∈ er_Nodes (st_record s) ∧ en_Name node = n ∧ en_Phase node = "pending" ∧
    ready eng (phases (er_Nodes (st_record s))) n = true.
Proof.
  unfold save_body. rewrite getM_bind. intros [(e & H & _)|(s1 & bd & H & Hr)]%M_bind_inv Hf.
  { injection H as <- _. by apply fires_here in Hf. }
  injection H as <- _. destruct (_ && _); [injection Hr as <- _; by apply fires_here in Hf|].
  apply M_bind_inv in Hr as [(e & H1 & _)|(s1 & [] & H1 & Hr)].
  { exfalso. apply (quiet_fires (EvRun n "plan") (st_hist s) (st_hist s')); [|done].
    exact (emits_nothing (plan_of n) _ _ _ _ _ H1). }
  assert (extends (plan_of n) (st_hist s) (st_hist s1)) as Q1 by exact (emits_nothing (plan_of n) _ _ _ _ _ H1).
  assert (same_nodes (st_record s) (st_record s1)) as [_ N1] by exact (frames (R := same_nodes) _ _ _ H1).
  rewrite getM_bind in Hr. apply M_bind_inv in Hr as [(e & H2 & _)|(s2 & [] & H2 & Hr)].
  { exfalso. apply (quiet_fires (EvRun n "plan") (st_hist s) (st_hist s')); [|done].
    eapply extends_trans; [exact Q1|]. refine (emits_nothing (plan_of n) _ _ _ _ _ H2). by apply (emitsM_publish s0). }
  assert (extends (plan_of n) (st_hist s1) (st_hist s2)) as Q2 by (refine (emits_nothing (plan_of n) _ _ _ _ _ H2); by apply (emitsM_publish s0)).
  assert (same_nodes (st_record s1) (st_record s2)) as [_ N2] by (by refine (publish_frame s0 same_nodes _ _ _ _ _ H2)).
  pose proof (extends_trans _ _ _ _ Q1 Q2) as Q. rewrite getM_bind, N2, N1 in Hr.
  destruct (save_nodes w nw sw eng bp (phases (er_Nodes (st_record s))) opts (er_Nodes (st_record s)) 0 s2) as [s3 z] eqn:H3.
  apply (save_nodes_fires n _ _ _ _ _ _ _ H3).
  assert (st_hist s2 ≼ st_hist s3) as E3 by (eapply (emits_nothing (λ _, True)); [by apply emits_save_nodes; [apply _|]|exact H3]).
  assert (extends (plan_of n) (st_hist s3) (st_hist s')) as Q3.
  { unfold mbind, M_bind at 1 in Hr. rewrite H3 in Hr. destruct z as [count|err]; [|injection Hr as <- _; apply extends_refl].
    destruct (decide (count = 0)); [injection Hr as <- _; apply extends_refl|]. cbv beta iota delta [M_bind getM] in Hr.
    refine (emits_nothing (plan_of n) _ _ _ _ _ Hr). by apply (emitsM_publish s0). }
  destruct (fires_between _ _ _ _ (extends_any _ _ _ Q) (extends_trans _ _ _ _ E3 (extends_any _ _ _ Q3)) Hf) as [Hq|Hf2]; [by apply quiet_fires in Q|].
  by eapply fires_first.
Qed.

Lemma save_session_fires n continued scope opts s s' r :
  in_saved_session w (save_check sw eng continued scope) (save_body w nw sw eng bp continued opts) s = (s', r) →
  fires (EvRun n "plan") (st_hist s) (st_hist s') →
  er_Status (st_record s) ∈ ["preparing"; "ready_for_next_plan"] ∧
  ∃ node, node ∈ er_Nodes (st_record s) ∧ en_Name node = n ∧ en_Phase node = "pending" ∧
    ready eng (phases (er_Nodes (st_record s))) n = true.
Proof.
  unfold in_saved_session. intros (s1 & x & H1 & Hr)%try_bind Hf.
  assert (extends (plan_of n) (st_hist s) (st_hist s1)) as Q1 by exact (emits_nothing (plan_of n) _ _ _ _ _ H1).
  assert (st_record s1 = st_record s) as Hrec by (symmetry; exact (frames (R := eq) _ _ _ H1)).
  destruct x as [[]|err].
  2: { assert (extends (plan_of n) (st_hist s1) (st_hist s')) as Q2 by exact (emits_nothing (plan_of n) _ _ _ _ _ Hr).
       exfalso. by apply (quiet_fires _ _ _ (extends_trans _ _ _ _ Q1 Q2)). }
  apply try_bind in Hr as (s2 & y & H2 & Hr).
  assert (extends (plan_of n) (st_hist s2) (st_hist s')) as Q2 by exact (emits_nothing (plan_of n) _ _ _ _ _ Hr).
  assert (st_hist s1 ≼ st_hist s2) as E2 by (eapply (emits_nothing (λ _, True)); [by apply emits_save_body; [apply _|]|exact H2]).
  destruct (fires_between _ _ _ _ (extends_any _ _ _ Q1) (extends_trans _ _ _ _ E2 (extends_any _ _ _ Q2)) Hf) as [Hq|Hf1]; [by apply quiet_fires in Q1|].
  pose proof (fires_first _ _ _ _ E2 Q2 Hf1) as Hf2. apply (save_body_fires n _ _ _ _ _ H2) in Hf2. rewrite Hrec in Hf2. split; [|done].
  unfold save_check in H1. rewrite getM_bind in H1. apply M_bind_Ok in H1 as (s3 & [] & _ & H1).
  destruct (mem _ _) eqn:Hm in H1; [by apply mem_true|done].
Qed.

(** The session a save works on: the continued record, or a fresh one. *)
Definition save_session (continueID : string) (scope : Scope) (h : hist) (s : session) : Prop :=
  if decide (continueID = "")
  then ∃ scope' h1, resolveSelection g scope = Ok scope' ∧ h ≼ h1 ∧
    startExecution w rw sw eng bp "saved_apply" scope' false h1 = (st_hist s, Ok s)
  else stored s0 h (record_key continueID) (st_record s) ∧ er_ID (st_record s) = continueID ∧
    ∃ sc, scope_at sw eng bp h = Ok sc ∧ resumable sc (st_record s) = true.

(** C16: saving plans never changes infrastructure and freezes only the
    frontier: it never starts the runtime's [apply], and it plans a node only
    when the execution is being prepared or ready for its next plan, the
    session's record holds the node as pending, and every upstream selected
    with it is completed. *)
Theorem save_frontier_only n continueID scope opts h h' r : SavePlans w rw nw sw eng bp continueID scope opts h = (h', r) →
  extends (λ ev, ∀ m, ev ≠ EvRun m "apply") h h' ∧
  (fires (EvRun n "plan") h h' →
   ∃ s node, save_session continueID scope h s ∧ er_Status (st_record s) ∈ ["preparing"; "ready_for_next_plan"] ∧
     node ∈ er_Nodes (st_record s) ∧ en_Name node = n ∧ en_Phase node = "pending" ∧
     ∀ up, up ∈ in_ g n → phases (er_Nodes (st_record s)) !! up ∈ [None; Some "completed"]).
Proof.
  intros Hr. split.
  - assert (calm (λ ev, ∀ m, ev ≠ EvRun m "apply")) as Hcalm by (constructor; try done; intros m op Hop k [= -> ->]; set_solver).
    refine ((_ : EmitsH (λ ev, ∀ m, ev ≠ EvRun m "apply") (SavePlans w rw nw sw eng bp continueID scope opts)) _ _ _ Hr). clear Hr.
    unfold SavePlans. apply emitsH_if; [apply _|]. apply emitsH_bind; [apply emitsH_if; apply _|intros sc].
    apply emitsH_bind; [apply _|intros []]. apply emitsH_bind; [apply emitsH_if; apply _|intros []].
    apply emitsH_bind; [apply _|intros []]. apply emitsH_bind; [apply emitsH_if; apply _|intros s].
    apply emitsH_bind; [|intros [? []]; apply _]. apply run_session_emits. by apply emits_saved_session.
  - intros Hf. unfold SavePlans in Hr. set (c := negb (bool_decide (continueID = ""))) in Hr.
    destruct (c && hasSelectionFlags scope); [injection Hr as <- _; by apply fires_here in Hf|].
    apply H_bind_inv in Hr as [(e & E & _)|(h1 & scope' & E & Hr)]; [destruct c; injection E as <- _; by apply fires_here in Hf|].
    assert (h1 = h) as -> by (destruct c; by injection E as <- _).
    assert (c = false → resolveSelection g scope = Ok scope') as Hres by (intros ->; by injection E as Hx). clear E.
    apply H_bind_inv in Hr as [(e & E & _)|(h1 & [] & E & Hr)]; [injection E as <- _; by apply fires_here in Hf|]. injection E as <- _.
    apply H_bind_inv in Hr as [(e & E & _)|(h1 & [] & E & Hr)].
    { exfalso. apply (quiet_fires (EvRun n "plan") h h'); [|done]. exact ((_ : EmitsH (plan_of n) _) _ _ _ E). }
    assert (extends (plan_of n) h h1) as Q1 by exact ((_ : EmitsH (plan_of n) _) _ _ _ E).
    assert (c = true → h1 = h) as Hc1 by (intros ->; by injection E as <-). clear E.
    apply H_bind_inv in Hr as [(e & E & _)|(h2 & [] & E & Hr)]; injection E as <- _; [by apply quiet_fires in Q1|].
    apply H_bind_inv in Hr as [(e & E & _)|(h2 & s & E & Hr)].
    { exfalso. apply (quiet_fires (EvRun n "plan") h h'); [|done]. eapply extends_trans; [exact Q1|].
      exact ((_ : EmitsH (plan_of n) _) _ _ _ E). }
    assert (extends (plan_of n) h1 h2) as Q2 by exact ((_ : EmitsH (plan_of n) _) _ _ _ E).
    assert (st_hist s = h2 ∧ save_session continueID scope h s) as [Hs Hsess].
    { unfold save_session. destruct (decide (continueID = "")) as [Hc|Hc]; subst c.
      - rewrite bool_decide_eq_true_2 in E, Hres by done. cbn in E, Hres. pose proof (startExecution_hist _ _ _ _ _ _ _ _ _ _ _ E) as Hh.
        split; [done|]. exists scope', h1. split; [by apply Hres|]. split; [by eapply extends_any|]. by rewrite Hh.
      - rewrite bool_decide_eq_false_2 in E, Hr by done. cbn in E. apply openSavedExecution_Ok in E as (-> & Hh & Hst & Hid & sc & Hsc & Hr2).
        assert (h1 = h) as -> by (apply Hc1; by rewrite bool_decide_eq_false_2). split; [done|]. split_and!; [done..|]. by exists sc. }
    pose proof (extends_trans _ _ _ _ Q1 Q2) as Q. unfold mbind, H_bind, run_session in Hr.
    assert (set_hist s h2 = s) as Hset by (destruct s; cbn in Hs; by subst). rewrite Hset in Hr.
    destruct (in_saved_session _ _ _ s) as [s' x] eqn:Ha.
    assert (h' = st_hist s') as -> by (destruct x as [[? err]|e]; by injection Hr as <- _).
    assert (h2 ≼ st_hist s') as E2.
    { rewrite <-Hs. eapply (emits_nothing (λ _, True)); [by apply emits_saved_session; [apply _|]|exact Ha]. }
    destruct (fires_between _ _ _ _ (extends_any _ _ _ Q) E2 Hf) as [Hq|Hf2]; [by apply quiet_fires in Q|].
    rewrite <-Hs in Hf2. destruct (save_session_fires n _ _ _ _ _ _ Ha Hf2) as (Hst & node & Hin & Hn & Hp & Hrd).
    exists s, node. split_and!; [done..|]. intros up Hup. unfold ready in Hrd. rewrite forallb_forall in Hrd.
    apply list_elem_of_In in Hup. specialize (Hrd up Hup). destruct (_ !! up) as [p|]; [|by left].
    apply bool_decide_eq_true in Hrd as ->. right. by left.
Qed.
End SavedProofs.

(** ** A saved and an applied frontier *)

Definition saved_graph : Graph :=
  add_edge (set_node (set_node empty_graph "a" (s3_node "ka" "p")) "b" (s3_node "kb" "p")) (MkEdge (bare "a") (bare "b")).
Definition saved_engine : Engine := MkEngine "terraform" "/root" (Some plain_blueprint) saved_graph.
Definition saved_store : executionStore := localExecutionStore (quiet_world ∅) ∅.
Definition sample_prepare : PrepareWorld :=
  MkPrepareWorld (λ _, sample_target_world) (λ d t _ _, Ok (d +:+ t)) (λ _ _, Ok "native") (λ _ _, Ok tt) (λ _ _, Ok tt) (λ _ _, false) (λ _, None).
Definition saved_world : SavedWorld nat unit :=
  MkSavedWorld _ _ sample_prepare (λ _ _, Dir None sample_tree) (λ _ _, Ok (MkPlanRuntimeIdentity "1" "linux" ∅ ∅))
    (λ _ _, Ok tt) (λ _ _ _, Ok tt) (λ _ _ _, Ok tt) (λ _ _, Ok ([MkResourceChange "x" ["create"]], [])) (λ _ _, ([], None))
    (λ _, Ok tt) (λ _ _, Ok [Byte.x01]) (λ _ _ _, Ok tt) (λ _, "plan-00112233445566778899aabbccddeeff") (λ _, Ok tt)
    (λ _, Ok "c") (λ b, Ok (pb_Target _ b +:+ default "" (pb_Files _ b !! "main.tf"))) (λ b, Ok (join (sorted_keys (gb_Nodes b)) ","))
    (λ _, Ok "p") (λ _ _, ∅) (λ b p _, Ok (b +:+ p)) (λ b p, Ok (b +:+ p)) (λ _, "").
Definition whole_graph : Scope := MkScope None false false None None.
Definition saved_id : string := "run-ffffffffffffffffffffffffffffffff".

Definition saved_run : hist * result (ExecutionRecord * option error) :=
  @SavePlans nat unit unit saved_store map_order_default quiet_journal quiet_retention sample_nodes saved_world saved_engine plain_blueprint
    "" whole_graph sample_options [].
Definition applied_run : hist * result (list NodeRun * option error) :=
  @ApplySavedPlans nat unit unit saved_store map_order_default quiet_journal quiet_retention sample_nodes saved_world saved_engine plain_blueprint
    saved_id whole_graph sample_options saved_run.1.

Definition runs_of (h : hist) : list string :=
  rev (omap (λ ev, match ev with EvRun n op => Some (n +:+ ":" +:+ op) | _ => None end) h).

(** Planning stops at the first layer, and applying it takes nothing else. *)
Example saved_apply_runs :
  runs_of saved_run.1 = ["a:init"; "a:version"; "a:plan"; "a:version"; "a:show"; "a:version"] ∧
  runs_of (take (length applied_run.1 - length saved_run.1) applied_run.1)
    = ["a:version"; "a:init"; "a:version"; "a:show"; "a:apply"; "a:output"] ∧
  applied_run.2 = Ok ([MkNodeRun "a" 1 StatusApplied None], None).
Proof. vm_compute. done. Qed.

Definition fired_apply : hist := take (length applied_run.1 - length saved_run.1) applied_run.1.

Lemma applied_fires : fires (EvRun "a" "apply") saved_run.1 applied_run.1.
Proof.
  exists fired_apply. split; [vm_compute; reflexivity|]. apply list_elem_of_lookup. exists 5. vm_compute. reflexivity.
Qed.

Example saved_apply_exact_witness :
  ∃ rec h0 node hs, @stored ∅ saved_run.1 (record_key saved_id) rec ∧ er_Status rec = "waiting_for_apply" ∧
    admitted ∅ quiet_journal saved_world saved_engine saved_id node h0 hs.
Proof.
  destruct (@saved_apply_exact ∅ nat unit unit saved_store (localExecutionStore_laws (quiet_world ∅) ∅) map_order_default quiet_journal
    quiet_retention sample_nodes saved_world saved_engine plain_blueprint "a" saved_id whole_graph sample_options saved_run.1
    applied_run.1 applied_run.2 (surjective_pairing _)) as [_ Ha].
  destruct (Ha applied_fires) as (rec & sc & h0 & node & hs & Hst & _ & _ & Hw & _ & _ & _ & _ & _ & Had & _).
  exists rec, h0, node, hs. split; [exact Hst|]. split; [exact Hw|exact Had].
Defined.

Lemma saved_planned : fires (EvRun "a" "plan") [] saved_run.1.
Proof.
  exists saved_run.1. split; [by rewrite app_nil_r|]. apply list_elem_of_lookup. exists 7. vm_compute. reflexivity.
Qed.

Example save_frontier_only_witness :
  extends (λ ev, ∀ m, ev ≠ EvRun m "apply") [] saved_run.1 ∧
  ∃ s node, node ∈ er_Nodes (st_record s) ∧ en_Name node = "a" ∧ en_Phase node = "pending".
Proof.
  destruct (@save_frontier_only ∅ nat unit unit saved_store (localExecutionStore_laws (quiet_world ∅) ∅) map_order_default quiet_journal
    quiet_retention sample_nodes saved_world saved_engine plain_blueprint "a" "" whole_graph sample_options []
    saved_run.1 saved_run.2 (surjective_pairing _)) as [Hno Hp].
  split; [exact Hno|]. destruct (Hp saved_planned) as (s & node & _ & _ & Hin & Hn & Hph & _).
  exists s, node. split; [exact Hin|]. split; [exact Hn|exact Hph].
Defined.
