(* ===== verification/CommandProofs.v ===== *)
(** What the commands guarantee (for Commands.v): plan changes nothing, apply
    and destroy reach a node only when everything before it in the order of
    the edges is completed, and a destroy is recorded before it starts. *)
From S2P Require Import Prelude GoLib Blueprint Module Graph Topo Selection Gate Runner Execution Store Journal JournalFacts Target ApplyNode Prepare ApplyProofs Retention RetentionProofs RunLevels Engine PlanSource SavedExecution NodeFacts Commands SavedProofs.
From S2P Require ContractValues.

Definition stored_done (id : string) : hist → hist → string → Prop := stored_as id "completed".

Lemma stored_done_later id h h1 h2 h' m : h ≼ h1 → stored_done id h1 h2 m → h2 ≼ h' → stored_done id h h' m.
Proof. apply stored_as_later. Qed.

Lemma first_failure_none errs i e : first_failure errs = None → errs !! i = Some e → e = None.
Proof.
  unfold first_failure. intros Hf Hi. destruct e as [e|]; [|done].
  assert (e ∈ omap id errs) as Hin by (apply list_elem_of_omap; exists (Some e); split; [by eapply list_elem_of_lookup_2|done]).
  destruct (omap id errs); [by apply elem_of_nil in Hin|done].
Qed.

(** ** The layers of a scope *)

Lemma schedule_order (g : Graph) ns L : adj_wf g → closed g → SelectedLevels g ns false = Ok L →
  NoDup (concat L) ∧ ∀ a b, a ∈ concat L → b ∈ concat L → tc (edge g) a b → precedes L a b.
Proof.
  intros Hwf Hc HL. destruct ns as [ns|].
  - destruct (SelectedLevels_order g ns false L Hwf Hc HL) as (Hin & Hnd & _ & Hp). split; [done|].
    intros a b Ha%Hin Hb%Hin. by apply Hp.
  - unfold SelectedLevels in HL. apply result_bind_Ok in HL as (levels & Hlv & [= <-]).
    destruct (Levels_Ok g levels Hwf Hlv) as [_ Hp]. split; [rewrite Hp; apply names_NoDup|].
    intros a b _ _ Hab. eapply Levels_precedes; try done. by apply closed_dangling_free.
Qed.

(** In a schedule without repetitions, what precedes a node lies in the layers before its own. *)
Lemma precedes_split L a b pre level post : NoDup (concat L) → precedes L a b → L = pre ++ level :: post → b ∈ level → a ∈ concat pre.
Proof.
  intros Hnd (L1 & L2 & HL & Ha & Hb) -> Hlv. apply app_eq_app in HL as (k & [[-> Hk]|[-> Hk]]).
  - rewrite concat_app. apply elem_of_app. by left.
  - destruct k as [|l k]; simpl in Hk; [rewrite app_nil_r in Ha; done|]. injection Hk as <- ->. exfalso.
    rewrite concat_app in Hnd. simpl in Hnd. rewrite concat_app in Hnd. apply NoDup_app in Hnd as (_ & _ & Hnd).
    apply NoDup_app in Hnd as (_ & Hd & _). apply (Hd b Hlv). apply elem_of_app. by right.
Qed.

Section Loop.
Context {Outputs Evidence Vars X : Type} `{XS : !executionStore} `{XM : !MapOrder} (s0 : gmap string dirent) `{XL : !StoreLaws s0}.
Context (w : JournalWorld) (nw : NodeWorld Outputs Evidence) (sw : SavedWorld Outputs Vars) (eng : Engine).
Context (keepGoing : bool) (act : string → gmap string Outputs → M (@answer Outputs * option X)).

Notation g := (eg_Graph eng).

#[local] Instance prepare_frames blocked n : Frames same_id (prepare_step w nw eng keepGoing blocked n).
Proof. unfold prepare_step. frame. Qed.
#[local] Instance prepare_emits P `{!calm P} blocked m : EmitsM P (prepare_step w nw eng keepGoing blocked m).
Proof. unfold prepare_step. calm. Qed.
Lemma node_step_emits P `{!calm P} blocked snap m : EmitsM P (act m snap) → EmitsM P (node_step w nw eng keepGoing act blocked snap m).
Proof. intros Ha. unfold node_step. calm. Qed.
Lemma level_nodes_emits P `{!calm P} li blocked snap todo : (∀ m applied, m ∈ todo.*2 → EmitsM P (act m applied)) → ∀ sh notes,
  EmitsM P (level_nodes w nw eng keepGoing act li blocked snap todo sh notes).
Proof.
  induction todo as [|[i m] todo IH]; intros HP sh notes; simpl; [apply _|].
  apply emitsM_bind; [apply node_step_emits, HP; set_solver|intros [a x]; apply IH]. intros k applied Hk. apply HP. set_solver.
Qed.
Lemma command_levels_emits P `{!calm P} levels : (∀ m applied, m ∈ concat levels → EmitsM P (act m applied)) → ∀ li sh notes first,
  EmitsM P (command_levels w nw sw eng keepGoing act li levels sh notes first).
Proof.
  induction levels as [|level rest IH]; intros HP li sh notes first; simpl; [apply _|].
  apply emitsM_bind; [apply _|intros s]. destruct (nw_cancelled nw (st_hist s)); [apply _|].
  apply emitsM_bind; [|intros [sh1 notes1]].
  { apply level_nodes_emits; [apply _|]. intros m applied. rewrite imap_pair_snd. intros Hm. apply HP. simpl. apply elem_of_app. by left. }
  apply emitsM_bind; [calm|intros [[]|]]; [|apply _].
  destruct (if keepGoing then None else first_failure (sh_errs sh1)); [apply _|]. apply IH.
  intros m applied Hm. apply HP. simpl. apply elem_of_app. by right.
Qed.

(** An action that keeps the execution's identity and stores its node as
    completed when it succeeds. *)
Class LoopAction : Prop := {
  la_frames n applied :: Frames same_id (act n applied);
  la_emits n applied :: EmitsM (λ _, True) (act n applied);
  la_done n applied s s' a x : act n applied s = (s', Ok (a, x)) → an_err a = None →
    stored_done (er_ID (st_record s)) (st_hist s) (st_hist s') n;
}.

Context `{HA : !LoopAction}.

#[local] Instance node_step_frames blocked snap n : Frames same_id (node_step w nw eng keepGoing act blocked snap n).
Proof. unfold node_step. frame. Qed.
#[local] Instance level_nodes_any li blocked snap todo sh notes : EmitsM (λ _, True) (level_nodes w nw eng keepGoing act li blocked snap todo sh notes).
Proof. apply level_nodes_emits; apply _. Qed.
#[local] Instance command_levels_any li levels sh notes first : EmitsM (λ _, True) (command_levels w nw sw eng keepGoing act li levels sh notes first).
Proof. apply command_levels_emits; apply _. Qed.
#[local] Instance level_nodes_frames li blocked snap todo : ∀ sh notes, Frames same_id (level_nodes w nw eng keepGoing act li blocked snap todo sh notes).
Proof. induction todo as [|[i m] todo IH]; intros sh notes; simpl; [apply _|]. apply frames_bind; [apply _..|intros [a x]; apply IH]. Qed.

(** *** One layer *)

Lemma node_step_done blocked snap n s s' a x : node_step w nw eng keepGoing act blocked snap n s = (s', Ok (a, x)) →
  an_err a = None → stored_done (er_ID (st_record s)) (st_hist s) (st_hist s') n.
Proof.
  unfold node_step. intros (s1 & ready & H1 & Hr)%try_bind Ha.
  assert (st_hist s ≼ st_hist s1) as E1 by (eapply emits_nothing; [|exact H1]; apply _).
  assert (same_id (st_record s) (st_record s1)) as <- by exact (frames (R := same_id) _ _ _ H1).
  apply M_bind_Ok in Hr as (s2 & [a' x'] & H2 & Hr). apply M_bind_Ok in Hr as (s3 & [] & H3 & Hr). injection Hr as <- <- <-.
  assert (st_hist s2 ≼ st_hist s3) as E3 by (eapply emits_nothing; [|exact H3]; calm).
  destruct ready as [[]|err]; [|by injection H2 as _ <- _].
  eapply stored_done_later; [exact E1|by eapply la_done|exact E3].
Qed.

Lemma level_nodes_errs li blocked snap todo : ∀ sh notes s s' sh' notes' i,
  level_nodes w nw eng keepGoing act li blocked snap todo sh notes s = (s', Ok (sh', notes')) →
  i ∉ todo.*1 → sh_errs sh' !! i = sh_errs sh !! i.
Proof.
  induction todo as [|[j n] todo IH]; intros sh notes s s' sh' notes' i; simpl; [by intros [= _ <- _]|].
  intros (s1 & [a x] & _ & Hr)%M_bind_Ok [Hij Hi]%not_elem_of_cons. rewrite (IH _ _ _ _ _ _ _ Hr Hi).
  unfold merge_one. destruct (an_err a); simpl; [|done]. by rewrite list_lookup_insert_ne by done.
Qed.

(** A layer without failures has stored all its nodes as completed. *)
Lemma level_nodes_done li blocked snap todo : ∀ sh notes s s' sh' notes',
  level_nodes w nw eng keepGoing act li blocked snap todo sh notes s = (s', Ok (sh', notes')) →
  Forall (λ e, e.1 < length (sh_errs sh)) todo → NoDup todo.*1 → first_failure (sh_errs sh') = None →
  ∀ m, m ∈ todo.*2 → stored_done (er_ID (st_record s)) (st_hist s) (st_hist s') m.
Proof.
  induction todo as [|[i n] todo IH]; intros sh notes s s' sh' notes'; simpl.
  { intros _ _ _ _ m Hm. by apply elem_of_nil in Hm. }
  intros (s1 & [a x] & H1 & Hr)%M_bind_Ok [Hlt Hall]%Forall_cons [Hi Hnd]%NoDup_cons Hf m Hm. simpl in Hlt.
  assert (st_hist s1 ≼ st_hist s') as E2 by (eapply emits_nothing; [|exact Hr]; apply _).
  assert (an_err a = None) as Ha.
  { destruct (an_err a) as [e|] eqn:He; [|done]. exfalso.
    assert (sh_errs sh' !! i = Some (Some (node_error n e))) as Hx.
    { rewrite (level_nodes_errs _ _ _ _ _ _ _ _ _ _ _ Hr Hi). simpl. by rewrite list_lookup_insert_eq. }
    by apply (first_failure_none _ _ _ Hf) in Hx. }
  pose proof (node_step_done _ _ _ _ _ _ _ H1 Ha) as Hdone. apply elem_of_cons in Hm as [->|Hm].
  - by eapply stored_done_later; [apply extends_refl|..].
  - assert (st_hist s ≼ st_hist s1) as E1 by (eapply emits_nothing; [|exact H1]; apply node_step_emits; apply _).
    assert (same_id (st_record s) (st_record s1)) as <- by exact (frames (R := same_id) _ _ _ H1).
    eapply stored_done_later; [exact E1| |apply extends_refl]. eapply (IH _ _ _ _ _ _ Hr); [|done..]. simpl. by destruct (an_err a).
Qed.

(** *** Where an event of an action happened *)

Section Fires.
Context (n : string) (ev : event) `{HV : ∀ e, Decision (e = ev)} `{HC : !calm (λ e, e ≠ ev)}.
Context (Hother : ∀ m applied, m ≠ n → EmitsM (λ e, e ≠ ev) (act m applied)).

(** The event happened with the layers before its own completed. *)
Definition in_layer (id : string) (h0 : hist) (levels : list (list string)) (D : list string) (h h' : hist) : Prop :=
  ∃ pre level post hs, levels = pre ++ level :: post ∧ n ∈ level ∧ extends (λ e, e ≠ ev) h hs ∧ fires ev hs h' ∧
    ∀ m, m ∈ D ++ concat pre → stored_done id h0 hs m.

Lemma level_fires li blocked snap todo sh notes s s' r :
  level_nodes w nw eng keepGoing act li blocked snap todo sh notes s = (s', r) → fires ev (st_hist s) (st_hist s') → n ∈ todo.*2.
Proof.
  intros Hr Hf. destruct (decide (n ∈ todo.*2)) as [|Hn]; [done|]. exfalso. eapply quiet_fires; [|exact Hf].
  eapply emits_nothing; [|exact Hr]. apply level_nodes_emits; [apply _|]. intros m applied Hm. apply Hother. by intros ->.
Qed.

#[local] Instance completion_frames : Frames same_id (_ ← completion sw; Emit w "level.finished" "").
Proof. frame. Qed.

Lemma command_levels_fires h0 levels : keepGoing = false → ∀ li D sh notes first s s' r,
  h0 ≼ st_hist s → (∀ m, m ∈ D → stored_done (er_ID (st_record s)) h0 (st_hist s) m) →
  command_levels w nw sw eng keepGoing act li levels sh notes first s = (s', r) → fires ev (st_hist s) (st_hist s') →
  in_layer (er_ID (st_record s)) h0 levels D (st_hist s) (st_hist s').
Proof.
  intros HkG. induction levels as [|level rest IH]; intros li D sh notes first s s' r E0 HD; simpl.
  { intros [= <- _] Hf. by apply fires_here in Hf. }
  rewrite getM_bind. destruct (nw_cancelled nw _) as [err|]; [intros [= <- _] Hf; by apply fires_here in Hf|].
  assert (∀ s1 x, level_nodes w nw eng keepGoing act li (sh_failed sh) (sh_applied sh) (imap pair level) (enter_level level sh) notes s = (s1, x) →
    st_hist s1 ≼ st_hist s' → fires ev (st_hist s) (st_hist s1) →
    in_layer (er_ID (st_record s)) h0 (level :: rest) D (st_hist s) (st_hist s')) as Hhere.
  { intros s1 x H1 E1 Hf. pose proof (level_fires _ _ _ _ _ _ _ _ _ H1 Hf) as Hin. rewrite imap_pair_snd in Hin.
    exists [], level, rest, (st_hist s). split_and!; [done..|apply extends_refl|by eapply fires_extend; [apply extends_refl|..]|].
    simpl. by rewrite app_nil_r. }
  intros [(e & H1 & _)|(s1 & [sh1 notes1] & H1 & Hr)]%M_bind_inv Hf; [by eapply Hhere; [|apply extends_refl|]|].
  assert (st_hist s ≼ st_hist s1) as E1 by (eapply emits_nothing; [|exact H1]; apply _).
  assert (same_id (st_record s) (st_record s1)) as Hid1 by exact (frames (R := same_id) _ _ _ H1).
  apply try_bind in Hr as (s2 & ended & H2 & Hr).
  assert (extends (λ e, e ≠ ev) (st_hist s1) (st_hist s2)) as Q2 by (eapply emits_nothing; [|exact H2]; calm).
  assert (same_id (st_record s1) (st_record s2)) as Hid2 by exact (frames (R := same_id) _ _ _ H2).
  unfold same_id in *.
  assert (s' = s2 → in_layer (er_ID (st_record s)) h0 (level :: rest) D (st_hist s) (st_hist s')) as Hstop.
  { intros ->. eapply Hhere; [exact H1|by eapply extends_any|]. by eapply fires_first. }
  destruct ended as [[]|err]; [|by injection Hr as <- _; apply Hstop].
  assert ((if keepGoing then None else first_failure (sh_errs sh1)) = first_failure (sh_errs sh1)) as Hk by by rewrite HkG.
  rewrite Hk in Hr. clear Hk. destruct (first_failure (sh_errs sh1)) as [err|] eqn:Hff; [by injection Hr as <- _; apply Hstop|].
  assert (st_hist s2 ≼ st_hist s') as E3 by (eapply emits_nothing; [|exact Hr]; apply _).
  destruct (fires_or_quiet ev _ _ E1) as [Hf1|Q1].
  { eapply Hhere; [exact H1|by eapply extends_trans; [eapply extends_any|]|done]. }
  pose proof (extends_trans _ _ _ _ Q1 Q2) as Q. pose proof (extends_any _ _ _ Q) as E.
  pose proof (fires_split _ _ _ _ E Q Hf E3) as Hf3. rewrite <-Hid1, <-Hid2.
  edestruct (IH (S li) (D ++ level)) as (pre & level' & post & hs & -> & Hin & Qs & Hfs & Hds); [| |exact Hr|exact Hf3|].
  - by eapply extends_trans.
  - intros m [Hm|Hm]%elem_of_app; rewrite Hid2, Hid1.
    + eapply stored_done_later; [apply extends_refl|by apply HD|done].
    + apply (stored_done_later _ _ (st_hist s) (st_hist s1)); [exact E0| |by eapply extends_any]. eapply (level_nodes_done _ _ _ _ _ _ _ _ _ _ H1); [| |done|by rewrite imap_pair_snd].
      * apply Forall_forall. intros e He. simpl. rewrite length_replicate. apply (list_elem_of_fmap_2 fst) in He.
        rewrite imap_pair_fst in He. apply elem_of_seq in He. lia.
      * rewrite imap_pair_fst. apply NoDup_seq.
  - exists (level :: pre), level', post, hs. split_and!; [done..|by eapply extends_trans|done|].
    simpl. by rewrite (assoc_L (++)).
Qed.

Lemma run_levels_fires scope reverse L s s' r : keepGoing = false → executionLevels g scope reverse = Ok L →
  run_levels w nw sw eng keepGoing act scope reverse s = (s', r) → fires ev (st_hist s) (st_hist s') →
  in_layer (er_ID (st_record s)) (st_hist s) L [] (st_hist s) (st_hist s').
Proof.
  intros HkG HL. unfold run_levels. rewrite HL.
  assert (∀ t x, command_levels w nw sw eng keepGoing act 0 L (MkShared [] ∅ ∅ []) ∅ None s = (t, x) → fires ev (st_hist s) (st_hist t) →
    in_layer (er_ID (st_record s)) (st_hist s) L [] (st_hist s) (st_hist t)) as Hin.
  { intros t x H1 Hf. eapply command_levels_fires; [done|apply extends_refl| |exact H1|exact Hf]. by intros m ?%elem_of_nil. }
  intros [(e & H1 & _)|(s1 & [[runs notes] err] & H1 & Hr)]%M_bind_inv Hf; [by eapply Hin|].
  assert (extends (λ e, e ≠ ev) (st_hist s1) (st_hist s')) as Q by (eapply emits_nothing; [|exact Hr]; calm).
  assert (st_hist s ≼ st_hist s1) as E1 by (eapply emits_nothing; [|exact H1]; apply _).
  destruct (Hin _ _ H1) as (pre & level & post & hs & -> & Hlv & Qs & Hfs & Hds); [by eapply fires_first|].
  exists pre, level, post, hs. split_and!; [done..| |done].
  eapply fires_extend; [apply extends_refl|exact Hfs|by eapply extends_any].
Qed.
End Fires.
End Loop.

(** ** What an action leaves *)

(** A success has stored the node as completed. *)
Class Completes (name : string) {A} (m : M A) : Prop :=
  completes s s' a : m s = (s', Ok a) → stored_done (er_ID (st_record s)) (st_hist s) (st_hist s') name.

Section Completes.
Context (name : string).

Lemma completes_throw {A} e : Completes name (throwM e : M A).
Proof. by intros s s' a. Qed.
Lemma completes_last {A B} (m : M A) (f : A → M B) : Frames same_id m → EmitsM (λ _, True) m → (∀ a, Completes name (f a)) →
  Completes name (m ≫= f).
Proof.
  intros HF HE Hf s s' b (s1 & a & H1 & H2)%M_bind_Ok. pose proof (HE _ _ _ H1) as E1. apply HF in H1. apply Hf in H2.
  unfold same_id in H1. rewrite <-H1. eapply stored_done_later; [exact E1|exact H2|apply extends_refl].
Qed.
Lemma completes_first {A B} (m : M A) (f : A → M B) : Completes name m → (∀ a, EmitsM (λ _, True) (f a)) → Completes name (m ≫= f).
Proof.
  intros Hm Hf s s' b (s1 & a & H1 & H2)%M_bind_Ok. apply Hm in H1. apply Hf in H2. by eapply stored_done_later; [apply extends_refl|..].
Qed.
Lemma completes_if {A} (b : bool) (m1 m2 : M A) : Completes name m1 → Completes name m2 → Completes name (if b then m1 else m2).
Proof. by destruct b. Qed.
End Completes.

(** ** The order of a resolved scope *)

Lemma resolved_order (g : Graph) o o' reverse L : adj_wf g → closed g → resolveSelection g o = Ok o' → executionLevels g o' reverse = Ok L →
  NoDup (concat L) ∧ ∀ a b, a ∈ concat L → b ∈ concat L → tc (edge g) a b → if reverse then precedes L b a else precedes L a b.
Proof.
  intros Hwf Hc (sel & _ & Hres)%result_bind_Ok. apply result_bind_Ok in Hres as (K & HK & [= <-]).
  destruct (schedule_order g _ K Hwf Hc HK) as [Hnd Hp]. unfold executionLevels. simpl. intros [= <-].
  destruct reverse; [|done]. split; [by rewrite concat_rev_perm|].
  intros a b. rewrite !concat_rev_perm. intros. apply precedes_rev. auto.
Qed.

(** A step whose result is known to satisfy [Q] when it succeeds. *)
Lemma frames_bind_ok R `{!PreOrder R} {A B} (Q : A → Prop) (m : M A) (f : A → M B) : Frames R m → (∀ s s' a, m s = (s', Ok a) → Q a) →
  (∀ a, Q a → Frames R (f a)) → Frames R (m ≫= f).
Proof.
  intros Hm HQ Hf s s' r [(e & H1 & _)|(s1 & a & H1 & H2)]%M_bind_inv; [by eapply Hm|]. transitivity (st_record s1); [by eapply Hm|].
  by eapply Hf; [eapply HQ|].
Qed.
Lemma emits_bind_ok P {A B} (Q : A → Prop) (m : M A) (f : A → M B) : EmitsM P m → (∀ s s' a, m s = (s', Ok a) → Q a) →
  (∀ a, Q a → EmitsM P (f a)) → EmitsM P (m ≫= f).
Proof.
  intros Hm HQ Hf s s' r [(e & H1 & _)|(s1 & a & H1 & H2)]%M_bind_inv; [by eapply Hm|]. eapply extends_trans; [by eapply Hm|].
  by eapply Hf; [eapply HQ|].
Qed.

Section Actions.
Context (s0 : gmap string dirent) {Outputs Evidence Vars : Type} `{XS : !executionStore} `{XL : !StoreLaws s0} `{XM : !MapOrder}.
Context (w : JournalWorld) (rw : RetentionWorld) (nw : NodeWorld Outputs Evidence) (sw : SavedWorld Outputs Vars).
Context (cw : CommandWorld Outputs) (eng : Engine) (bp : Blueprint).

Notation g := (eg_Graph eng).

Lemma completes_transition name code plan : Completes name (transition w name "completed" code plan).
Proof. intros s s' []. apply (transition_stores s0). Qed.

Lemma prepared_name name s s' p : prepareNodePlan w nw name s = (s', Ok p) → pl_name p = name.
Proof.
  unfold prepareNodePlan. intros (s1 & [] & _ & Hr)%M_bind_Ok. apply M_bind_Ok in Hr as (s2 & r & _ & Hr).
  apply M_bind_Ok in Hr as (s3 & c & _ & Hr). apply M_bind_Ok in Hr as (s4 & [] & _ & Hr). by injection Hr as _ <-.
Qed.

(** *** The steps of an action *)

Section Kept.
Context (R : ExecutionRecord → ExecutionRecord → Prop) `{!PreOrder R} `{!TolCalls R}.

#[export] Instance frames_edges name edges : ∀ known, Frames R (command_edges w nw cw name edges known).
Proof. induction edges as [|e edges IH]; intros known; simpl; [apply _|]. apply frames_if; [apply _|]. frame. Qed.
#[export] Instance frames_resolve name applied : Frames R (resolve_inputs w nw sw cw eng name applied).
Proof. unfold resolve_inputs. frame. Qed.
#[export] Instance frames_initialize name `{!TolNode R name} : Frames R (initialize w nw sw eng name).
Proof. unfold initialize. frame. Qed.
#[export] Instance frames_apply_action opts name `{!TolNode R name} applied : Frames R (apply_action w nw sw cw eng bp opts name applied).
Proof.
  unfold apply_action. do 6 (apply (frames_bind R); [frame|intros ?]). apply (frames_if R); [apply _|]. apply (frames_bind R); [frame|intros ?].
  apply (frames_bind_ok R (λ p, pl_name p = name)); [apply _|apply prepared_name|]. intros p <-. frame.
Qed.
#[export] Instance frames_destroyContractPlan opts name `{!TolNode R name} : Frames R (destroyContractPlan w nw sw cw eng opts name).
Proof. unfold destroyContractPlan, PlanChanges, ApplyPlan. frame. Qed.
#[export] Instance frames_admit name op : Frames R (pluginAdmitNative w cw name op).
Proof. unfold pluginAdmitNative. frame. Qed.
#[export] Instance frames_destroyNative opts name `{!TolNode R name} : Frames R (destroyNative w nw cw opts name).
Proof. unfold destroyNative, NativeDestroy. frame. Qed.
#[export] Instance frames_destroy_action opts name `{!TolNode R name} applied : Frames R (destroy_action w nw sw cw eng opts name applied).
Proof. unfold destroy_action. frame. Qed.
End Kept.

Section Emits.
Context (P : event → Prop) `{HP : !calm P}.

#[export] Instance emits_edges name edges : ∀ known, EmitsM P (command_edges w nw cw name edges known).
Proof.
  induction edges as [|e edges IH]; intros known; simpl; [apply _|]. apply emitsM_if; [apply _|].
  apply emitsM_bind; [destruct (known !! _); apply _|intros read]. apply emitsM_bind; [apply _|intros []; apply _].
Qed.
#[export] Instance emits_resolve name applied : EmitsM P (resolve_inputs w nw sw cw eng name applied).
Proof. unfold resolve_inputs. calm. Qed.
#[export] Instance emits_initialize name : EmitsM P (initialize w nw sw eng name).
Proof. unfold initialize. calm. Qed.
#[export] Instance emits_run_ok {A} name op (answer : hist → result A) : allows P (EvRun name op) → EmitsM P (run w nw name op answer).
Proof. intros Hop. apply (emitsM_run s0 w nw P); [apply HP..|done]. Qed.
#[export] Instance emits_approve name : EmitsM P (approve nw name).
Proof.
  unfold approve. apply emitsM_bind; [apply _|intros s]. destruct (nw_line nw (st_hist s) name) as [[line failed]|]; [|apply _].
  apply emitsM_bind; [apply emitsM_emit, HP|intros _]. calm.
Qed.
#[export] Instance emits_apply_action opts name applied : allows P (EvRun name "plan") → allows P (EvRun name "apply") →
  EmitsM P (apply_action w nw sw cw eng bp opts name applied).
Proof.
  intros Hp Ha. unfold apply_action. do 6 (apply emitsM_bind; [apply _|intros ?]). apply emitsM_if; [apply _|].
  apply emitsM_bind; [calm|intros ?]. apply (emits_bind_ok P (λ p, pl_name p = name)); [apply _|apply prepared_name|].
  intros p <-. apply emitsM_bind; [calm|intros []]. apply emitsM_bind; [apply _|intros []; apply _].
Qed.
#[export] Instance emits_destroyContractPlan opts name : allows P (EvRun name "plan") → allows P (EvRun name "apply") →
  EmitsM P (destroyContractPlan w nw sw cw eng opts name).
Proof. intros Hp Ha. unfold destroyContractPlan, PlanChanges, ApplyPlan. calm. Qed.
#[export] Instance emits_admit name op : EmitsM P (pluginAdmitNative w cw name op).
Proof. unfold pluginAdmitNative. calm. Qed.
#[export] Instance emits_destroyNative opts name : allows P (EvRun name "destroy") → EmitsM P (destroyNative w nw cw opts name).
Proof. intros Hd. unfold destroyNative, NativeDestroy. calm. Qed.
#[export] Instance emits_destroy_action opts name applied : allows P (EvRun name "plan") → allows P (EvRun name "apply") →
  allows P (EvRun name "destroy") → EmitsM P (destroy_action w nw sw cw eng opts name applied).
Proof. intros Hp Ha Hd. unfold destroy_action. calm. Qed.
End Emits.

(** *** A success completes the node *)

Lemma completes_named {A B} name (Q : A → Prop) (m : M A) (f : A → M B) : Frames same_id m → EmitsM (λ _, True) m →
  (∀ s s' a, m s = (s', Ok a) → Q a) → (∀ a, Q a → Completes name (f a)) → Completes name (m ≫= f).
Proof.
  intros HF HE HQ Hf s s' b (s1 & a & H1 & H2)%M_bind_Ok. pose proof (HE _ _ _ H1) as E1. apply HQ in H1 as Ha. apply HF in H1.
  apply (Hf a Ha) in H2. unfold same_id in H1. rewrite <-H1. eapply stored_done_later; [exact E1|exact H2|apply extends_refl].
Qed.

#[local] Instance emit_any ev : EmitsM (λ _, True) (emitM ev).
Proof. by apply emitsM_emit. Qed.

Lemma completes_publish p ev o : Completes (pl_name p) (publish_outputs w nw p ev o).
Proof.
  unfold publish_outputs. do 4 (apply completes_last; [frame|calm|intros ?]). apply completes_first; [apply completes_transition|intros; apply _].
Qed.
Lemma completes_prepared p opts : Completes (pl_name p) (applyPreparedPlan w nw g p opts).
Proof.
  unfold applyPreparedPlan, plan_unchanged, plan_mutate, plan_gate, PlanChangeSet, ApplyPlan, record. apply completes_last; [frame|calm|intros ev]. apply completes_if.
  - apply completes_last; [frame|calm|intros o]. apply completes_first; [apply completes_publish|intros; apply _].
  - do 6 (apply completes_last; [frame|calm|intros ?]). apply completes_first; [apply completes_publish|intros; apply _].
Qed.
Lemma completes_apply opts name applied : Completes name (apply_action w nw sw cw eng bp opts name applied).
Proof.
  unfold apply_action. do 6 (apply completes_last; [frame|calm|intros ?]). apply completes_if; [apply completes_throw|].
  apply completes_last; [frame|calm|intros ?]. apply (completes_named _ (λ p, pl_name p = name)); [apply _..|apply prepared_name|intros p <-].
  apply completes_last; [frame|calm|intros ?]. apply completes_first; [apply completes_prepared|intros [? ?]; apply _].
Qed.

Ltac to_the_end := repeat first [apply completes_transition|apply completes_last; [frame|calm|intros ?]].

Lemma completes_destroy opts name applied : Completes name (destroy_action w nw sw cw eng opts name applied).
Proof.
  unfold destroy_action. do 2 (apply completes_last; [frame|calm|intros ?]). apply completes_first; [|intros; apply _].
  apply completes_if; [unfold destroyContractPlan, PlanChanges, ApplyPlan|unfold destroyNative, NativeDestroy].
  - do 4 (apply completes_last; [frame|calm|intros ?]). apply completes_if; [apply completes_throw|to_the_end].
  - to_the_end.
Qed.

#[local] Instance plain_frames R `{!PreOrder R} m name applied : Frames R (m name applied) → Frames R (plain_action (Outputs := Outputs) m name applied).
Proof. intros Hm. unfold plain_action. frame. Qed.
#[local] Instance plain_emits P m name applied : EmitsM P (m name applied) → EmitsM P (plain_action (Outputs := Outputs) m name applied).
Proof. intros Hm. unfold plain_action. calm. Qed.

(** Any such action fits the loop. *)
Lemma plain_loop m : (∀ n applied, Frames same_id (m n applied)) → (∀ n applied, EmitsM (λ _, True) (m n applied)) →
  (∀ n applied, Completes n (m n applied)) → LoopAction (plain_action (Outputs := Outputs) m).
Proof.
  intros Hf He Hc. split; [apply _..|]. intros n applied s s' a x Hp Ha. unfold plain_action in Hp.
  apply try_bind in Hp as (s1 & r & H1 & Hr). injection Hr as <- <- _. destruct r as [[o status]|err]; [by eapply Hc|done].
Qed.

(** *** From the opened record on *)

#[local] Instance finish_session_emits P `{!calm P} err : EmitsM P (finish_session w err).
Proof. unfold finish_session. calm. Qed.
#[local] Instance run_levels_any {X} keepGoing act scope reverse `{HA : !LoopAction (X := X) act} :
  EmitsM (λ _, True) (run_levels w nw sw eng keepGoing act scope reverse).
Proof.
  unfold run_levels. destruct (executionLevels g scope reverse) as [L|]; [|apply _].
  apply emitsM_bind; [apply (command_levels_emits s0); apply _|intros [[runs notes] err]]. calm.
Qed.

(** What an event of a node's action found: the execution that was opened for
    it, and in that execution's records every node of [before] as completed. *)
Definition opened (operation : string) (scope : Scope) (reverse : bool) (h : hist) (s : session) : Prop :=
  ∃ h1, extends (λ _, True) h h1 ∧ startExecution w rw sw eng bp operation scope reverse h1 = (st_hist s, Ok s).
Definition after_all (ev : event) (s : session) (before : string → Prop) (h h' : hist) : Prop :=
  ∃ hs, extends (λ e, e ≠ ev) h hs ∧ fires ev hs h' ∧
    ∀ m, before m → stored_done (er_ID (st_record s)) (st_hist s) hs m.

#[local] Instance execute_any {X} (act : string → gmap string Outputs → M (@answer Outputs * option X)) operation scope reverse keepGoing
    `{HA : !LoopAction act} : EmitsH (λ _, True) (execute_levels w rw nw sw eng bp operation scope reverse keepGoing act).
Proof.
  unfold execute_levels. apply emitsH_bind; [apply (emits_startExecution s0); apply _|intros s].
  apply emitsH_bind; [|intros [s' report]; apply _]. apply run_session_emits.
  apply emitsM_bind; [apply _|intros [[runs notes] err]]. calm.
Qed.

(** The commands' quiet steps before the execution is opened. *)
Lemma quiet_bind {A B} ev (m : H A) (f : A → H B) h h1 h' r : EmitsH (λ e, e ≠ ev) m → extends (λ e, e ≠ ev) h h1 → fires ev h h' →
  (m ≫= f) h1 = (h', r) → ∃ h2 a, m h1 = (h2, Ok a) ∧ extends (λ e, e ≠ ev) h h2 ∧ f a h2 = (h', r).
Proof.
  intros Hm Q Hf [(e & E & _)|(h2 & a & E & Hr)]%H_bind_inv; pose proof (extends_trans _ _ _ _ Q (Hm _ _ _ E)) as Q2.
  - by apply quiet_fires in Q2.
  - by exists h2, a.
Qed.

Lemma execute_fires {X} (act : string → gmap string Outputs → M (@answer Outputs * option X)) n ev `{HV : ∀ e, Decision (e = ev)}
    `{HC : !calm (λ e, e ≠ ev)} `{HA : !LoopAction act} operation scope reverse L h0 h h' r :
  (∀ m applied, m ≠ n → EmitsM (λ e, e ≠ ev) (act m applied)) → executionLevels g scope reverse = Ok L → extends (λ e, e ≠ ev) h0 h → fires ev h0 h' →
  execute_levels w rw nw sw eng bp operation scope reverse false act h = (h', r) →
  ∃ pre level post s, L = pre ++ level :: post ∧ n ∈ level ∧ opened operation scope reverse h0 s ∧
    after_all ev s (λ m, m ∈ concat pre) h0 h'.
Proof.
  intros Ho HL Q0 Hf0 Hr. pose proof (fires_split _ _ _ _ (extends_any _ _ _ Q0) Q0 Hf0 (execute_any _ _ _ _ _ _ _ _ Hr)) as Hf.
  revert Hr. unfold execute_levels. intros [(e & E & _)|(h1 & s & E & Hr)]%H_bind_inv.
  { exfalso. eapply quiet_fires; [|exact Hf]. exact (emits_startExecution s0 w rw sw eng bp (λ e, e ≠ ev) _ _ _ _ _ _ E). }
  pose proof (emits_startExecution s0 w rw sw eng bp (λ e, e ≠ ev) _ _ _ _ _ _ E) as Q1.
  assert (st_hist s = h1) as Hs by (eapply startExecution_hist; exact E).
  apply (session_ran _ _ _ _ _ _ Hr) in Hs as Hx; [|by intros [? ?]]. destruct Hx as (s' & x & Ha & ->).
  rewrite <-Hs in Q1, E. clear Hr.
  assert (∀ t y, run_levels w nw sw eng false act scope reverse s = (t, y) → st_hist t ≼ st_hist s' → fires ev (st_hist s) (st_hist t) →
    ∃ pre level post s1, L = pre ++ level :: post ∧ n ∈ level ∧ opened operation scope reverse h0 s1 ∧
      after_all ev s1 (λ m, m ∈ concat pre) h0 (st_hist s')) as Hin.
  { intros t y H1 E2 Hf1.
    destruct (run_levels_fires s0 w nw sw eng false act n ev Ho scope reverse L _ _ _ eq_refl HL H1 Hf1)
      as (pre & level & post & hs & -> & Hlv & Qs & Hfs & Hd).
    exists pre, level, post, s. split_and!; [done..|by exists h; split; [by eapply extends_any|]|].
    exists hs. split_and!; [exact (extends_trans _ _ _ _ Q0 (extends_trans _ _ _ _ Q1 Qs))|by eapply fires_extend; [apply extends_refl|..]|done]. }
  pose proof (fires_split _ _ _ _ (extends_any _ _ _ Q1) Q1 Hf) as Hf1.
  apply M_bind_inv in Ha as [(e & H1 & _)|(s1 & [[runs notes] err] & H1 & Hk)].
  - assert (st_hist s ≼ st_hist s') as E1 by (eapply emits_nothing; [|exact H1]; apply _).
    eapply Hin; [exact H1|apply extends_refl|by apply Hf1].
  - assert (st_hist s ≼ st_hist s1) as E1 by (eapply emits_nothing; [|exact H1]; apply _).
    assert (extends (λ e, e ≠ ev) (st_hist s1) (st_hist s')) as Q by (eapply emits_nothing; [|exact Hk]; calm).
    pose proof (extends_any _ _ _ Q) as E2. eapply Hin; [exact H1|done|].
    eapply fires_first; [exact E1|exact Q|]. apply Hf1. by eapply extends_trans.
Qed.
Lemma allows_node n m op op' : m ≠ n → allows (λ e, e ≠ EvRun n op) (EvRun m op').
Proof. intros Hm [= ? ?]. done. Qed.
Lemma calm_not n op : op ∉ read_operations → calm (λ e, e ≠ EvRun n op).
Proof. intros Hop. constructor; try done. intros m op' Hop' [= -> ->]. done. Qed.

#[local] Instance apply_loop opts : LoopAction (plain_action (Outputs := Outputs) (apply_action w nw sw cw eng bp opts)).
Proof. apply plain_loop; intros; [apply _..|apply completes_apply]. Qed.
#[local] Instance destroy_loop opts : LoopAction (plain_action (Outputs := Outputs) (destroy_action w nw sw cw eng opts)).
Proof. apply plain_loop; intros; [apply _..|apply completes_destroy]. Qed.

Definition before_in (reverse : bool) (L : list (list string)) (n m : string) : Prop :=
  m ∈ concat L ∧ (if reverse then tc (edge g) n m else tc (edge g) m n).

Lemma command_order {X} (act : string → gmap string Outputs → M (@answer Outputs * option X)) n op `{HA : !LoopAction act}
    operation scope scope' reverse h0 h h' r : adj_wf g → closed g → op ∉ read_operations → resolveSelection g scope = Ok scope' →
  (∀ m applied, m ≠ n → EmitsM (λ e, e ≠ EvRun n op) (act m applied)) →
  extends (λ e, e ≠ EvRun n op) h0 h → fires (EvRun n op) h0 h' →
  ('(runs, _, err) ← execute_levels w rw nw sw eng bp operation scope' reverse false act; mret (runs, err)) h = (h', r) →
  ∃ L s, executionLevels g scope' reverse = Ok L ∧ n ∈ concat L ∧ opened operation scope' reverse h0 s ∧
    after_all (EvRun n op) s (before_in reverse L n) h0 h'.
Proof.
  intros Hwf Hc Hop Hres Ho Q Hf Hr. pose proof (calm_not n op Hop) as Hcalm.
  assert (∃ L, executionLevels g scope' reverse = Ok L) as [L HL].
  { pose proof Hres as (sel & _ & Hk)%result_bind_Ok. apply result_bind_Ok in Hk as (K & _ & [= <-]). by eexists. }
  destruct (resolved_order g scope scope' reverse L Hwf Hc Hres HL) as [Hnd Hp].
  assert (∃ r', execute_levels w rw nw sw eng bp operation scope' reverse false act h = (h', r')) as [r' He].
  { apply H_bind_inv in Hr as [(e & E & _)|(h1 & [[? ?] ?] & E & Hr)]; [by eexists|]. injection Hr as <- _. by eexists. }
  destruct (execute_fires act n (EvRun n op) operation scope' reverse L h0 h h' r' Ho HL Q Hf He)
    as (pre & level & post & s & HLs & Hin & Hop' & hs & Qs & Hfs & Hd).
  assert (n ∈ concat L) as HnL by (rewrite HLs, concat_app; simpl; set_solver).
  exists L, s. split_and!; [done..|]. exists hs. split_and!; [done..|]. intros m [Hm Htc]. apply Hd.
  eapply precedes_split; [exact Hnd| |exact HLs|exact Hin]. destruct reverse; by apply Hp.
Qed.

(** C4: apply reaches a node only through everything it depends on: the first
    start of the runtime's [apply] of a node, on any history, comes after the
    execution's records in the store hold every selected node it depends on,
    directly or not, as completed by this very run, and the node itself is
    selected. *)
Theorem apply_upstream_completed n scope opts h h' r : adj_wf g → closed g →
  Apply w rw nw sw cw eng bp scope opts h = (h', r) → fires (EvRun n "apply") h h' →
  ∃ scope' L s, resolveSelection g scope = Ok scope' ∧ executionLevels g scope' false = Ok L ∧ n ∈ concat L ∧
    opened "apply" scope' false h s ∧
    after_all (EvRun n "apply") s (λ m, m ∈ concat L ∧ tc (edge g) m n) h h'.
Proof.
  intros Hwf Hc Hr Hf. assert ("apply" ∉ read_operations) as Hop by (unfold read_operations; set_solver).
  pose proof (calm_not n "apply" Hop) as Hcalm. unfold Apply in Hr.
  apply (quiet_bind (EvRun n "apply") _ _ h) in Hr as (h1 & scope' & E & Q1 & Hr); [|apply _|apply extends_refl|done]. injection E as <- Hres.
  destruct (unattended opts); [by injection Hr as <- _; apply fires_here in Hf|].
  do 3 (apply (quiet_bind (EvRun n "apply") _ _ h) in Hr as (? & [] & _ & ? & Hr); [|apply _|done..]).
  destruct (command_order (plain_action (apply_action w nw sw cw eng bp opts)) n "apply" "apply" scope scope' false h) with (8 := Hr)
    as (L & s & HL & Hn & Hs); [done..| |done|done|by exists scope', L, s].
  intros m applied Hm. apply plain_emits, emits_apply_action; [done|by apply allows_node..].
Qed.

(** C5: destroy goes against the edges, and only where it is allowed: the
    runtime's [destroy] of a node, or the [apply] of its destroy plan, first
    starts after the execution's records hold every selected node that
    depends on it as destroyed by this very run; and a run that starts it had
    no selected node whose declared approval level forbids teardown. *)
Theorem destroy_order n op scope opts h h' r : op ∈ ["destroy"; "apply"] → adj_wf g → closed g →
  Destroy w rw nw sw cw eng bp scope opts h = (h', r) → fires (EvRun n op) h h' →
  ∃ scope' L s, resolveSelection g scope = Ok scope' ∧ executionLevels g scope' true = Ok L ∧ n ∈ concat L ∧
    (∀ m, m ∈ concat L → default "" (n_Approve <$> engine_node eng m) ∈ [""; ApproveAll]) ∧
    opened "destroy" scope' true h s ∧
    after_all (EvRun n op) s (λ m, m ∈ concat L ∧ tc (edge g) n m) h h'.
Proof.
  intros Hin Hwf Hc Hr Hf. assert (op ∉ read_operations) as Hop by (unfold read_operations; set_solver).
  pose proof (calm_not n op Hop) as Hcalm. unfold Destroy in Hr.
  apply (quiet_bind (EvRun n op) _ _ h) in Hr as (h1 & scope' & E & Q1 & Hr); [|apply _|apply extends_refl|done]. injection E as <- Hres.
  destruct (unattended opts); [by injection Hr as <- _; apply fires_here in Hf|].
  apply (quiet_bind (EvRun n op) _ _ h) in Hr as (h1 & L & E & Q2 & Hr); [|apply _|done..]. injection E as <- HL.
  apply (quiet_bind (EvRun n op) _ _ h) in Hr as (h1 & [] & E & Q3 & Hr); [|apply _|done..]. injection E as <- Htd.
  do 3 (apply (quiet_bind (EvRun n op) _ _ h) in Hr as (? & [] & _ & ? & Hr); [|apply _|done..]).
  destruct (command_order (plain_action (destroy_action w nw sw cw eng opts)) n op "destroy" scope scope' true h) with (8 := Hr)
    as (L' & s & HL' & Hn & Hs); [done..| |done|done|].
  - intros m applied Hm. apply plain_emits, emits_destroy_action; [done|by apply allows_node..].
  - assert (L' = L) as -> by congruence. exists scope', L, s. split_and!; [done..| |by apply Hs|by apply Hs].
    intros m Hm. rewrite foldM_checks in Htd. specialize (Htd m Hm). unfold check_teardown in Htd.
    destruct (decide (default "" (n_Approve <$> engine_node eng m) = "")) as [->|Hne]; [by left|].
    destruct (decide (default "" (n_Approve <$> engine_node eng m) = ApproveAll)) as [->|Hna]; [right; by left|].
    by rewrite !bool_decide_eq_true_2 in Htd.
Qed.

(** *** Planning *)

Section Planning.
Context (P : event → Prop) `{HP : !calm P}.

Definition EmitsV {A} (m : V A) : Prop := ∀ rv, EmitsM P (m rv).

Lemma emitsV_ret {A} (a : A) : EmitsV (V_ret A a).
Proof. intros rv. unfold V_ret. apply _. Qed.
Lemma emitsV_throw {A} err : EmitsV (throwV err : V A).
Proof. intros rv. unfold throwV. apply _. Qed.
Lemma emitsV_lift {A} (m : M A) : EmitsM P m → EmitsV (liftV m).
Proof. intros Hm rv. unfold liftV. calm. Qed.
Lemma emitsV_update f : EmitsV (update_review f).
Proof. intros rv. unfold update_review. apply _. Qed.
Lemma emitsV_bind {A B} (m : V A) (f : A → V B) : EmitsV m → (∀ a, EmitsV (f a)) → EmitsV (V_bind A B f m).
Proof. intros Hm Hf rv. unfold V_bind. apply emitsM_bind; [apply Hm|intros [rv' [a|e]]]; [apply Hf|apply _]. Qed.
Lemma emitsV_failing {A} inspect name code phase (m : M A) : EmitsM P m → EmitsV (failing inspect name code phase m).
Proof. intros Hm rv. unfold failing. apply emitsM_bind; [calm|intros [a|e]]; [apply _|]. destruct inspect; apply _. Qed.
Lemma emitsV_planned inspect name applied : EmitsV (planned_inputs w nw sw cw eng inspect name applied).
Proof.
  intros rv. unfold planned_inputs. apply emitsM_bind; [calm|intros r]. apply emitsM_bind; [apply _|intros s].
  apply emitsV_failing. calm.
Qed.

Ltac plan_steps_emit := repeat first
  [ match goal with
    | |- ∀ _, _ => intros ?
    | |- EmitsV (@mbind _ _ _ _ _ _) => apply emitsV_bind
    | |- EmitsV (failing _ _ _ _ _) => apply emitsV_failing
    | |- EmitsV (match ?x with _ => _ end) => destruct x
    end
  | apply emitsV_ret | apply emitsV_throw | apply emitsV_lift | apply emitsV_update | apply emitsV_planned | apply _ | progress calm ].

Lemma plan_action_emits inspect text opts name applied : allows P (EvRun name "plan") →
  EmitsM P (plan_action w nw sw cw eng inspect text opts name applied).
Proof.
  intros Hp. unfold plan_action. apply emitsM_bind; [|intros [review r]; apply _].
  match goal with |- EmitsM P (?m ?rv) => enough (EmitsV m) as Hm by apply Hm end.
  unfold plan_steps, choose_plan, saved_review, text_plan, completed, PlanChanges. plan_steps_emit.
Qed.

Lemma plan_levels_emits inspect text opts keepGoing scope : (∀ n, allows P (EvRun n "plan")) →
  EmitsM P (run_levels w nw sw eng keepGoing (plan_action w nw sw cw eng inspect text opts) scope false).
Proof.
  intros Hp. unfold run_levels. destruct (executionLevels g scope false) as [L|]; [|apply _].
  apply emitsM_bind; [|intros [[runs notes] err]; calm]. apply (command_levels_emits s0); [apply _|]. intros m applied _. by apply plan_action_emits.
Qed.
End Planning.

(** C6: plan changes nothing: whatever is selected, reviewed or refused, with
    or without inspection, the only runtime operations it ever starts are
    reads ([init], [output], [version], [show]) and [plan] itself. *)
Theorem plan_changes_nothing inspect text scope opts h h' r :
  plan w rw nw sw cw eng bp inspect text scope opts h = (h', r) →
  extends (λ ev, ∀ n op, ev = EvRun n op → op ∈ "plan" :: read_operations) h h'.
Proof.
  set (P := λ ev : event, ∀ n op, ev = EvRun n op → op ∈ "plan" :: read_operations). intros Hr.
  assert (calm P) as HP by (constructor; try done; intros n op Hop m op' [= -> ->]; by right).
  assert (∀ n, allows P (EvRun n "plan")) as Hp by (intros n m op [= -> <-]; by left).
  refine ((_ : EmitsH P (plan w rw nw sw cw eng bp inspect text scope opts)) _ _ _ Hr). clear Hr.
  unfold plan. apply emitsH_bind; [apply _|intros sc]. apply emitsH_bind; [apply _|intros []].
  apply emitsH_bind; [destruct inspect; apply _|intros []]. apply emitsH_bind; [apply _|intros []].
  apply emitsH_bind; [|intros [[runs reviews] err]; apply _].
  unfold execute_levels. apply emitsH_bind; [by apply (emits_startExecution s0)|intros s].
  apply emitsH_bind; [|intros [s' report]; apply _]. apply run_session_emits.
  apply emitsM_bind; [by apply plan_levels_emits|intros [[runs notes] err]]. calm.
Qed.
End Actions.

(** ** Two nodes, applied and destroyed *)

Definition command_world : CommandWorld nat :=
  MkCommandWorld _ (λ _ _ _, Ok tt) (λ _ _, []) false NoStdin (λ _, false) (λ _ _, Ok []).
Definition local_node (key : string) : GNode := s3_node key "p".
Definition unattended_options : Options := MkOptions false true "" 1.

Definition command_applied : hist * result (list NodeRun * option error) :=
  @Apply nat unit unit saved_store map_order_default quiet_journal quiet_retention sample_nodes saved_world command_world saved_engine
    plain_blueprint whole_graph unattended_options [].
Definition command_destroyed : hist * result (list NodeRun * option error) :=
  @Destroy nat unit unit saved_store map_order_default quiet_journal quiet_retention sample_nodes saved_world command_world saved_engine
    plain_blueprint whole_graph unattended_options [].
Definition command_planned : hist * result (list (NodeRun * option PlanReview) * option error) :=
  @plan nat unit unit saved_store map_order_default quiet_journal quiet_retention sample_nodes saved_world command_world saved_engine
    plain_blueprint true false whole_graph unattended_options [].

(** The second node's apply comes after the first, its destroy before. *)
Example commands_run :
  runs_of command_applied.1 =
    ["a:init"; "a:plan"; "a:show"; "a:apply"; "a:output"; "b:init"; "b:plan"; "b:show"; "b:apply"; "b:output"] ∧
  command_applied.2 = Ok ([MkNodeRun "a" 1 StatusApplied None; MkNodeRun "b" 2 StatusApplied None], None) ∧
  runs_of command_destroyed.1 = ["b:destroy"; "a:destroy"] ∧
  runs_of command_planned.1 = ["a:init"; "a:plan"; "a:show"; "b:init"; "b:plan"; "b:show"].
Proof. vm_compute. done. Qed.

Lemma fires_computed n op h : bool_decide (Exists (λ e, e = EvRun n op) h) = true → fires (EvRun n op) [] h.
Proof. intros (e & He & ->)%bool_decide_eq_true%Exists_exists. exists h. by rewrite app_nil_r. Qed.

Lemma saved_graph_wf : adj_wf saved_graph.
Proof. unfold saved_graph. apply add_edge_wf, set_node_wf, set_node_wf. intros n. done. Qed.
Lemma saved_graph_closed : closed saved_graph.
Proof. apply (bool_decide_eq_true_1 _). vm_compute. reflexivity. Qed.

Example apply_upstream_completed_witness :
  ∃ s hs, fires (EvRun "b" "apply") hs command_applied.1 ∧ stored_done (er_ID (st_record s)) (st_hist s) hs "a".
Proof.
  destruct (@apply_upstream_completed ∅ nat unit unit saved_store (localExecutionStore_laws (quiet_world ∅) ∅) map_order_default quiet_journal
    quiet_retention sample_nodes saved_world command_world saved_engine plain_blueprint "b" whole_graph unattended_options []
    command_applied.1 command_applied.2 saved_graph_wf saved_graph_closed (surjective_pairing _))
    as (sc & L & s & Hres & HL & _ & _ & hs & _ & Hf & Hd).
  { apply fires_computed. vm_compute. reflexivity. }
  exists s, hs. split; [exact Hf|]. apply Hd.
  vm_compute in Hres. injection Hres as <-. vm_compute in HL. injection HL as <-.
  split; [left|apply tc_once; vm_compute; left].
Defined.

Example destroy_order_witness :
  ∃ s hs, fires (EvRun "a" "destroy") hs command_destroyed.1 ∧ stored_done (er_ID (st_record s)) (st_hist s) hs "b".
Proof.
  destruct (@destroy_order ∅ nat unit unit saved_store (localExecutionStore_laws (quiet_world ∅) ∅) map_order_default quiet_journal
    quiet_retention sample_nodes saved_world command_world saved_engine plain_blueprint "a" "destroy" whole_graph unattended_options []
    command_destroyed.1 command_destroyed.2 ltac:(left) saved_graph_wf saved_graph_closed (surjective_pairing _))
    as (sc & L & s & Hres & HL & _ & _ & _ & hs & _ & Hf & Hd).
  { apply fires_computed. vm_compute. reflexivity. }
  exists s, hs. split; [exact Hf|]. apply Hd.
  vm_compute in Hres. injection Hres as <-. vm_compute in HL. injection HL as <-.
  split; [left|apply tc_once; vm_compute; left].
Defined.

Example plan_changes_nothing_witness : extends (λ ev, ∀ n op, ev = EvRun n op → op ∈ "plan" :: read_operations) [] command_planned.1.
Proof.
  exact (@plan_changes_nothing ∅ nat unit unit saved_store (localExecutionStore_laws (quiet_world ∅) ∅) map_order_default quiet_journal
    quiet_retention sample_nodes saved_world command_world saved_engine plain_blueprint true false whole_graph unattended_options []
    command_planned.1 command_planned.2 (surjective_pairing _)).
Defined.
