(* ===== verification/OperationProofs.v ===== *)
(** Native operations on one node are confined (for NodeOperation.v): which
    arguments are accepted and what the runtime is given, that only the named
    node is touched, and that a changing operation is recorded, verified and
    let through by the barrier before it starts. *)
From S2P Require Import Prelude GoLib Blueprint Module Graph Topo Selection Backend Gate Runner Execution Store Journal JournalFacts Target ApplyNode Prepare ApplyProofs Retention RetentionProofs RunLevels Engine PlanSource SavedExecution NodeFacts Commands SavedProofs CommandProofs NodeOperation.

(** ** Arguments *)

(** What may be run, with the number of positional arguments it takes. *)
Definition operations : list (list string * nodeOperation * nat * option nat) :=
  [ (["init"], MkNodeOperation "init" false false false true, 0, Some 0);
    (["console"], MkNodeOperation "console" true true false false, 0, Some 0);
    (["import"], MkNodeOperation "import" false true true false, 2, Some 2);
    (["state"; "list"], MkNodeOperation "state list" true false false false, 0, None);
    (["state"; "show"], MkNodeOperation "state show" true false false false, 1, Some 1);
    (["state"; "pull"], MkNodeOperation "state pull" true false false false, 0, Some 0);
    (["state"; "mv"], MkNodeOperation "state mv" false false true false, 2, Some 2);
    (["state"; "rm"], MkNodeOperation "state rm" false false true false, 1, None) ].

Lemma select_exact args op rest lo hi : select_operation args = Ok (MkArity op rest lo hi) ↔
  ∃ words, (words, op, lo, hi) ∈ operations ∧ args = words ++ rest.
Proof.
  split.
  - unfold select_operation, state_operation. destruct args as [|cmd args]; [done|].
    repeat case_decide; subst; try done; [..|destruct args as [|sub args]; [done|]; repeat case_decide; subst; try done];
      intros [= <- <- <- <-]; first [eexists [_]; split; [|reflexivity]; unfold operations; set_solver|
        eexists [_; _]; split; [|reflexivity]; unfold operations; set_solver].
  - intros (words & Hin & ->). unfold operations in Hin.
      repeat (apply elem_of_cons in Hin as [[= -> -> -> ->]|Hin]; [reflexivity|]). by apply elem_of_nil in Hin.
Qed.

Section Args.
Context (ParseDuration : string → result Z).

(** The flags a user may pass to an operation. *)
Definition allowed_flag (op : nodeOperation) (arg : string) : Prop :=
  arg = "-no-color" ∨
  (∃ v d, arg = "-lock-timeout=" +:+ v ∧ ParseDuration v = Ok d ∧ (0 <= d)%Z ∧ no_init op = false ∧
     (no_readOnly op = true → no_name op = "console")) ∨
  (∃ v, arg = "-id=" +:+ v ∧ no_name op = "state list").

Lemma cut_spec c s : match cut c s with (k, v, true) => s = k +:+ String c v | (k, _, false) => s = k end.
Proof.
  induction s as [|d s IH]; simpl; [done|]. destruct (Ascii.eqb_spec d c) as [->|_]; [done|].
  destruct (cut c s) as [[b a] []]; simpl; by rewrite IH at 1.
Qed.

Lemma flag_dec (b : bool) {A} (x y z : A) : (if b then x else y) = z → b = true ∧ x = z ∨ b = false ∧ y = z.
Proof. destruct b; auto. Qed.

Lemma check_flag_Ok op arg : check_flag ParseDuration op arg = Ok tt ↔ allowed_flag op arg.
Proof.
  unfold check_flag, allowed_flag. split.
  - pose proof (cut_spec "="%char arg) as Hc. destruct (cut "="%char arg) as [[key value] has].
    intros [[Hb _]|[_ [[Hb Hd]|[_ [[Hb _]|[_ [=]]]%flag_dec]]%flag_dec]]%flag_dec.
    + apply andb_true_iff in Hb as [->%bool_decide_eq_true Hh]. destruct has; [done|]. by left.
    + rewrite !andb_true_iff in Hb. destruct Hb as [[[->%bool_decide_eq_true ->] Hi%negb_true_iff] Ho]. right; left.
      destruct (ParseDuration value) as [d|] eqn:Hp; [|done]. destruct (decide (d < 0)%Z); [done|]. exists value, d.
      split_and!; [done..|lia|done|]. intros Hr. rewrite Hr in Ho. by apply bool_decide_eq_true in Ho.
    + rewrite !andb_true_iff in Hb. destruct Hb as [[->%bool_decide_eq_true ->] Hn%bool_decide_eq_true]. right; right. by exists value.
  - intros [->|[(v & d & -> & Hp & Hd & Hi & Ho)|(v & -> & Hn)]]; [done|..].
    + simpl. change ("" +:+ v) with v. rewrite Hi, Hp, decide_False by lia. destruct (no_readOnly op); [|done]. simpl. by rewrite bool_decide_eq_true_2 by auto.
    + simpl. by rewrite Hn.
Qed.

Lemma count_Ok op rest : ∀ k n, foldM (count_argument ParseDuration op) k rest = Ok n ↔
  (∀ a, a ∈ rest → is_flag a = true → allowed_flag op a) ∧ n = k + length (filter (λ a, is_flag a = false) rest).
Proof.
  induction rest as [|a rest IH]; intros k n.
  - simpl. split; [intros [= <-]; split; [by intros a ?%elem_of_nil|lia]|]. intros [_ ->]. by rewrite Nat.add_0_r.
  - rewrite foldM_cons. unfold count_argument at 1. destruct (is_flag a) eqn:Ha; cbn [negb].
    + rewrite filter_cons_False by (by rewrite Ha). destruct (check_flag ParseDuration op a) as [[]|e] eqn:Hf; simpl.
      * rewrite IH. apply check_flag_Ok in Hf. split; (intros [H1 H2]; split; [|done]); [|set_solver].
        intros b [->|Hb]%elem_of_cons; auto.
      * split; [done|]. intros [H1 _]. specialize (H1 a ltac:(left) Ha). by rewrite <-check_flag_Ok, Hf in H1.
    + rewrite filter_cons_True by done. simpl. rewrite IH. split; intros [H1 ->]; (split; [|lia]); [|set_solver].
      intros b [->|Hb]%elem_of_cons; [congruence|auto].
Qed.

Lemma classify_Ok args op : classifyOperation ParseDuration args = Ok op ↔
   ∃ words lo hi rest, (words, op, lo, hi) ∈ operations ∧ args = words ++ rest ∧
     (∀ a, a ∈ rest → is_flag a = true → allowed_flag op a) ∧
     (lo ≤ length (filter (λ a, is_flag a = false) rest)) ∧
     (∀ most, hi = Some most → length (filter (λ a, is_flag a = false) rest) ≤ most).
Proof.
  unfold classifyOperation. split.
  - intros ([op' rest lo hi] & Hs & Hk)%result_bind_Ok. apply result_bind_Ok in Hk as (n & Hc & Hk). simpl in *.
    apply count_Ok in Hc as [Hf ->]. apply select_exact in Hs as (words & Hin & ->). simpl in Hk.
    destruct (_ || _) eqn:Hb in Hk; [done|]. injection Hk as <-. apply orb_false_iff in Hb as [Hlo%Nat.ltb_ge Hhi].
    exists words, lo, hi, rest. split_and!; [done..|]. intros most ->. by apply Nat.ltb_ge.
  - intros (words & lo & hi & rest & Hin & -> & Hf & Hlo & Hhi).
    rewrite (proj2 (select_exact (words ++ rest) op rest lo hi)) by by exists words. simpl.
    rewrite (proj2 (count_Ok op rest 0 _) (conj Hf eq_refl)). simpl.
    assert (Nat.ltb (length (filter (λ a, is_flag a = false) rest)) lo = false) as -> by by apply Nat.ltb_ge. simpl.
    destruct hi as [most|]; [|done]. by rewrite (proj2 (Nat.ltb_ge _ _) (Hhi most eq_refl)).
Qed.
End Args.

Definition managed_flags (op : nodeOperation) (vars : list string) (path : string) : list string :=
  (if no_backup op then ["-lock=true"; "-backup=" +:+ path] else []) ++
  (if no_vars op then vars ++ (if decide (no_name op = "import") then ["-input=false"] else []) else []).

(** Exactly the documented operations are accepted, with exactly the flags
    that keep backend, state, variables and locking under terragraph's
    control and the right number of addresses; and the runtime is given the
    command, then the flags terragraph manages, then the user's arguments. *)
Theorem operations_exact ParseDuration args op :
  (classifyOperation ParseDuration args = Ok op ↔
   ∃ words lo hi rest, (words, op, lo, hi) ∈ operations ∧ args = words ++ rest ∧
     (∀ a, a ∈ rest → is_flag a = true → allowed_flag ParseDuration op a) ∧
     (lo ≤ length (filter (λ a, is_flag a = false) rest)) ∧
     (∀ most, hi = Some most → length (filter (λ a, is_flag a = false) rest) ≤ most)) ∧
  (∀ vars path, classifyOperation ParseDuration args = Ok op → ∃ words rest, args = words ++ rest ∧
     join words " " = no_name op ∧
     with_backup_flags op args (with_var_flags op args vars) path = words ++ managed_flags op vars path ++ rest).
Proof.
  split; [apply classify_Ok|]. intros vars path (words & lo & hi & rest & Hin & -> & _)%classify_Ok. exists words, rest.
  unfold operations, managed_flags in *.
  split; [done|]. repeat (apply elem_of_cons in Hin as [[= -> -> -> ->]|Hin];
    [unfold with_backup_flags, with_var_flags; simpl; rewrite ?app_nil_r, ?take_0, ?drop_0, <-?(assoc_L (++)); done|]).
  by apply elem_of_nil in Hin.
Qed.

(** ** The operation and its record *)

Section Operation.
Context (s0 : gmap string dirent) {Outputs Evidence Vars : Type} `{XS : !executionStore} `{XL : !StoreLaws s0} `{XM : !MapOrder} `{XI : !PathIdentity}.
Context (ParseDuration : string → result Z).
Context (w : JournalWorld) (rw : RetentionWorld) (nw : NodeWorld Outputs Evidence) (sw : SavedWorld Outputs Vars).
Context (cw : CommandWorld Outputs) (ow : OperationWorld Vars) (eng : Engine) (bp : Blueprint).

Notation g := (eg_Graph eng).

Section Emits.
Context (P : event → Prop) `{HP : !calm P}.

#[local] Instance emits_managed op name args : EmitsM P (managed_args w nw sw ow eng op name args).
Proof. unfold managed_args. calm. Qed.
#[local] Instance emits_write_backup id data : EmitsM P (write_backup id data).
Proof.
  intros s s' r. unfold write_backup. destruct (st_write _ _ _ _) as [h1 r1] eqn:Hw. intros [= <- _].
  apply (write_cases (s0 := s0)) in Hw as [[-> _]|(rev & -> & _)]; [apply extends_refl|apply extends_one, HP].
Qed.
#[local] Instance emits_publish next : EmitsM P (publish next).
Proof. apply (emitsM_publish s0). intros. apply HP. Qed.
#[local] Instance emits_backup path : EmitsM P (persistOperationBackup ow path).
Proof. unfold persistOperationBackup. calm. Qed.
#[local] Instance emits_native op name args native : allows P (EvRun name (no_name op)) → EmitsM P (run_native w nw sw ow eng op name args native).
Proof. intros Ha. unfold run_native. calm. Qed.
#[local] Instance emits_body op name args : allows P (EvRun name (no_name op)) → EmitsM P (operation_body w nw sw cw ow eng op name args).
Proof. intros Ha. unfold operation_body. calm. Qed.
End Emits.

#[local] Existing Instances emits_managed emits_write_backup emits_publish emits_backup emits_native emits_body.
#[local] Instance managed_frames op name args : Frames same_id (managed_args w nw sw ow eng op name args).
Proof. unfold managed_args. frame. Qed.

(** The runtime gets a changing command only when the record says so. *)
Lemma body_fires op name args s s' r : no_readOnly op = false → no_init op = false → no_name op ∉ read_operations →
  operation_body w nw sw cw ow eng op name args s = (s', r) → fires (EvRun name (no_name op)) (st_hist s) (st_hist s') →
  ∃ hs, extends (λ e, e ≠ EvRun name (no_name op)) (st_hist s) hs ∧ fires (EvRun name (no_name op)) hs (st_hist s') ∧
    stored_as (er_ID (st_record s)) "operating" (st_hist s) hs name.
Proof.
  intros Hro Hi Hop Hr Hf. pose proof (calm_not name (no_name op) Hop) as Hcalm. unfold operation_body in Hr.
  pose proof (extends_refl (λ e, e ≠ EvRun name (no_name op)) (st_hist s)) as Q.
  apply (quiet_step (EvRun name (no_name op)) _ _ _ _ _ _ Hf Q) in Hr as (s1 & native & H1 & Q1 & Hr); [|apply _].
  rewrite getM_bind in Hr.
  apply (quiet_step (EvRun name (no_name op)) _ _ _ _ _ _ Hf Q1) in Hr as (s2 & [] & H2 & Q2 & Hr); [|calm].
  apply (quiet_step (EvRun name (no_name op)) _ _ _ _ _ _ Hf Q2) in Hr as (s3 & [] & H3 & Q3 & Hr); [|calm].
  apply (quiet_step (EvRun name (no_name op)) _ _ _ _ _ _ Hf Q3) in Hr as (s4 & [] & H4 & Q4 & Hr); [|calm].
  assert (same_id (st_record s) (st_record s1)) as I1 by exact (frames (R := same_id) _ _ _ H1).
  assert (same_id (st_record s1) (st_record s2)) as I2 by (revert H2; destruct (no_backup op); intros H2; exact (frames (R := same_id) _ _ _ H2)).
  assert (same_id (st_record s2) (st_record s3)) as I3 by (revert H3; rewrite Hro, Hi; intros H3; exact (frames (R := same_id) _ _ _ H3)).
  unfold same_id in *. unfold operation_phase in H4. rewrite Hro, Hi in H4. apply (transition_stores s0) in H4. rewrite I3, I2, I1 in H4.
  assert (st_hist s4 ≼ st_hist s') as E4 by (eapply emits_nothing; [|exact Hr]; calm).
  exists (st_hist s4). split; [done|]. split; [by eapply fires_split; [eapply extends_any|..]|].
  apply (stored_as_later _ _ _ (st_hist s3) (st_hist s4)); [exact (extends_any _ _ _ Q3)|exact H4|apply extends_refl].
Qed.
(** Every stored record is of this scope and resolved. *)
Definition barrier_clear (h : hist) : Prop := ∃ sc, executionScope (sv_target sw h) (eg_BaseDir eng) (bp_Lock bp) = Ok sc ∧
  ∀ key, key_matches key = true → is_record_key key = true → is_Some (objects s0 h !! key) →
    ∃ rec, stored s0 h key rec ∧ er_Scope rec = sc ∧ executionNeedsRecovery rec = false.

#[local] Instance emits_finish_session P `{!calm P} err : EmitsM P (finish_session w err).
Proof. unfold finish_session. calm. Qed.

Lemma emits_pure_bind P {A B} (x : result A) (f : A → H B) : (∀ a, x = Ok a → EmitsH P (f a)) → EmitsH P (pureH x ≫= f).
Proof. intros Hf h h' r. unfold mbind, H_bind, pureH. destruct x as [a|e]; [by apply Hf|]. intros [= <- _]. apply extends_refl. Qed.

#[local] Instance begin_emits P `{!calm P} tw base operation names sel ro : EmitsH P (beginExecution w rw tw g bp base operation names sel ro) :=
  emits_begin s0 w rw eng bp P tw base operation names sel ro.

Lemma RunNode_emits P `{!calm P} op name args : classifyOperation ParseDuration args = Ok op → allows P (EvRun name (no_name op)) →
  EmitsH P (RunNode ParseDuration w rw nw sw cw ow eng bp name args).
Proof.
  intros Hc Ha. unfold RunNode. apply emits_pure_bind. intros op'. rewrite Hc. intros [= <-].
  do 5 (apply emitsH_bind; [apply _|intros ?]). apply emitsH_bind; [destruct (no_init op); apply _|intros ?].
  do 2 (apply emitsH_bind; [apply _|intros ?]). apply emitsH_bind; [apply _|intros s].
  apply emitsH_bind; [|intros [? ?]; apply _]. apply run_session_emits. calm.
Qed.

(** C7: a native operation is confined and recorded.  It starts the runtime's
    command on the named node alone, besides reads of others.  A changing
    command first starts after: the node's cache was found bound to the
    backend declaration in force, every stored record was of this scope and
    resolved, and the new execution's stored record holds the node as
    operating. *)
Theorem native_operation_recorded name args op h h' r : classifyOperation ParseDuration args = Ok op →
  RunNode ParseDuration w rw nw sw cw ow eng bp name args h = (h', r) →
  extends (λ ev, ∀ n o, ev = EvRun n o → o ∈ read_operations ∨ n = name ∧ o = no_name op) h h' ∧
  (no_readOnly op = false → no_init op = false → fires (EvRun name (no_name op)) h h' →
   ∃ hv s hs, h ≼ hv ∧ verifyBackendContext (sv_prepare sw) g hv name = Ok tt ∧ barrier_clear hv ∧
     beginExecution w rw (sv_target sw hv) g bp (eg_BaseDir eng) ("run_" +:+ replace_byte " " "_" (no_name op)) [name] None false hv = (st_hist s, Ok s) ∧
     extends (λ e, e ≠ EvRun name (no_name op)) h hs ∧ fires (EvRun name (no_name op)) hs h' ∧
     stored_as (er_ID (st_record s)) "operating" (st_hist s) hs name).
Proof.
  intros Hcl Hr. split.
  - set (P := λ ev : event, ∀ n o, ev = EvRun n o → o ∈ read_operations ∨ n = name ∧ o = no_name op).
    assert (calm P) by (constructor; try done; intros n o Ho n' o' [= -> ->]; by left).
    refine (RunNode_emits P op name args Hcl _ _ _ _ Hr). intros n o [= -> ->]. by right.
  - intros Hro Hi Hf. assert (no_name op ∉ read_operations) as Hop.
    { apply classify_Ok in Hcl as (words & lo & hi & rest & Hin & _). unfold operations in Hin.
      repeat (apply elem_of_cons in Hin as [[= _ -> _ _]|Hin]; [simpl in *; unfold read_operations; set_solver|]).
      by apply elem_of_nil in Hin. }
    pose proof (calm_not name (no_name op) Hop) as Hcalm. set (ev := EvRun name (no_name op)) in *. unfold RunNode in Hr.
    rewrite Hcl in Hr.
    apply (quiet_bind ev _ _ h) in Hr as (h1 & op' & E & Q & Hr); [|apply _|apply extends_refl|done]. injection E as <- <-.
    do 5 (apply (quiet_bind ev _ _ h) in Hr as (? & ? & _ & ? & Hr); [|apply _|done..]).
    apply (quiet_bind ev _ _ h) in Hr as (hv & [] & Ev & Qv & Hr); [|rewrite Hi; apply _|done..].
    apply (quiet_bind ev _ _ h) in Hr as (? & ? & El & ? & Hr); [|apply _|done..].
    apply (quiet_bind ev _ _ h) in Hr as (? & ? & Eg & ? & Hr); [|apply _|done..].
    apply (quiet_bind ev _ _ h) in Hr as (hb & s & Eb & Qb & Hr); [|apply _|done..].
    rewrite Hi in Ev. injection Ev as -> Ev. injection El as <- _. injection Eg as <- <-.
    pose proof (begin_Ok _ _ _ _ _ _ _ _ _ _ _ _ _ Eb) as (Hs & sc & Hsc & Hbar). rewrite Hro in Eb, Hbar.
    apply (barrier_Ok s0) in Hbar as [_ Hbar].
    apply (session_ran _ _ _ _ _ _ Hr) in Hs as Hx; [|by intros [? ?]]. destruct Hx as (s' & x' & Ha & ->).
    apply try_bind in Ha as (s1 & y & H1' & H2').
    assert (extends (λ e, e ≠ ev) (st_hist s1) (st_hist s')) as Q1 by (eapply emits_nothing; [|exact H2']; apply _).
    assert (st_hist s ≼ st_hist s1) as E1 by (eapply emits_nothing; [|exact H1']; apply _).
    rewrite <-Hs in Qb, Eb. pose proof (fires_split _ _ _ _ (extends_any _ _ _ Qb) Qb Hf (extends_trans _ _ _ _ E1 (extends_any _ _ _ Q1))) as Hf1.
    destruct (body_fires op name args _ _ _ Hro Hi Hop H1' (fires_first _ _ _ _ E1 Q1 Hf1)) as (hs & Qs & Hfs & Hst).
    exists hv, s, hs. split_and!; [by eapply extends_any|exact Ev| |exact Eb|exact (extends_trans _ _ _ _ Qb Qs)| |exact Hst].
    + exists sc. split; [done|]. intros key Hk Hrk Hin. destruct (Hbar key Hk Hrk Hin) as (rec & Hrec & Hscope & [|Hn]); [done|]. by exists rec.
    + eapply fires_extend; [apply extends_refl|exact Hfs|by eapply extends_any].
Qed.
End Operation.

(** ** A resource removed from a state *)

Definition seconds (v : string) : result Z := if decide (v = "5s") then Ok 5000000000%Z else Err (Errorf "time: invalid duration" []).

Example operations_exact_witness :
  classifyOperation seconds ["state"; "rm"; "-lock-timeout=5s"; "aws_x.y"] = Ok (MkNodeOperation "state rm" false false true false) ∧
  (∃ words rest, ["state"; "rm"; "-lock-timeout=5s"; "aws_x.y"] = words ++ rest).
Proof.
  destruct (operations_exact seconds ["state"; "rm"; "-lock-timeout=5s"; "aws_x.y"] (MkNodeOperation "state rm" false false true false)) as [_ Hn].
  split; [vm_compute; reflexivity|]. destruct (Hn [] "p" ltac:(vm_compute; reflexivity)) as (words & rest & Hw & _). by exists words, rest.
Defined.

Definition bound_prepare : PrepareWorld :=
  MkPrepareWorld (pw_target sample_prepare) (pw_digest_declaration sample_prepare) (pw_native sample_prepare) (pw_prepare sample_prepare)
    (pw_write sample_prepare) (pw_read_fault sample_prepare)
    (λ n, match backendDeclaration sample_prepare saved_graph [] n with Ok d => Some (StoredContext d "native") | Err _ => None end).
Definition bound_world : SavedWorld nat unit :=
  MkSavedWorld _ _ bound_prepare (sv_source saved_world) (sv_identity saved_world) (sv_tofu saved_world) (sv_vars saved_world)
    (sv_write_vars saved_world) (sv_show saved_world) (sv_checks saved_world) (sv_print saved_world) (sv_plan_bytes saved_world)
    (sv_write_plan saved_world) (sv_new_plan_id saved_world) (sv_completion saved_world) (sv_digest_contracts saved_world)
    (sv_digest_plan saved_world) (sv_digest_graph saved_world) (sv_plugins_binding saved_world) (sv_credentials saved_world)
    (sv_digest_plugged saved_world) (sv_digest_pair saved_world) (sv_getenv saved_world).
Definition operation_world : OperationWorld unit :=
  MkOperationWorld _ (λ _ _, Ok tt) (λ _, true) (λ _ _, Ok tt) (λ _ _ _, Ok tt) (λ _ _ _, Ok tt)
    (λ _ _, BackupFile 1 (Ok [Byte.x01])) (λ _ _, Ok tt) (λ _ _, Ok tt).
Definition removed : hist * result (option error) :=
  @RunNode nat unit unit saved_store map_order_default sample_paths seconds quiet_journal quiet_retention sample_nodes bound_world command_world
    operation_world saved_engine plain_blueprint "a" ["state"; "rm"; "x"] [].

Example removed_runs : runs_of removed.1 = ["a:state rm"] ∧ removed.2 = Ok None.
Proof. vm_compute. done. Qed.

Example native_operation_recorded_witness :
  ∃ s hs, fires (EvRun "a" "state rm") hs removed.1 ∧ stored_as (er_ID (st_record s)) "operating" (st_hist s) hs "a".
Proof.
  destruct (@native_operation_recorded ∅ nat unit unit saved_store (localExecutionStore_laws (quiet_world ∅) ∅) map_order_default sample_paths
    seconds quiet_journal quiet_retention sample_nodes bound_world command_world operation_world saved_engine plain_blueprint
    "a" ["state"; "rm"; "x"] (MkNodeOperation "state rm" false false true false) [] removed.1 removed.2
    ltac:(vm_compute; reflexivity) (surjective_pairing _)) as [_ Hrec].
  destruct (Hrec eq_refl eq_refl) as (hv & s & hs & _ & _ & _ & _ & _ & Hf & Hst).
  { apply fires_computed. vm_compute. reflexivity. }
  exists s, hs. split; [exact Hf|exact Hst].
Defined.
