(* ===== verification/Language.v ===== *)
(** The editor's view of a blueprint (src/internal/language): the tolerant
    model of a workspace, completions, definitions and diagnostics.

    Documents are strings of bytes, offsets count bytes.  The HCL lexer,
    parser and expression evaluator are third-party code: the class [Syntax]
    answers for them, with what the source asks of an expression kept beside
    it.  [hclsyntax.ParseConfig] always returns a syntax body, so the source's
    failed assertions have no counterpart. *)
From S2P Require Import Prelude GoLib GoPath Blueprint Module.

(** ** Syntax trees *)

Record Range := MkRange { sr_Start : nat; sr_End : nat }.

Inductive step := RootStep (name : string) | AttrStep (name : string) (rng : Range) | OtherStep.

(** An expression: its range; its value without a context when that is a known
    string, and whether it is a known true; [hcl.AbsTraversalForExpr];
    [Variables()]; the keys of an object constructor; what the type parser
    says of it as a contract type ([None]: a string that does not parse). *)
Record Expr := MkExpr {
  ex_range : Range;
  ex_string : option string;
  ex_true : bool;
  ex_traversal : option (list step);
  ex_variables : list (list step);
  ex_items : option (list (option string * Range));
  ex_type_errors : option (list string);
}.

Record Attribute := MkAttribute { at_Name : string; at_Range : Range; at_Expr : Expr }.

Inductive Body := MkBody (attributes : gmap string Attribute) (blocks : list Block)
with Block := MkBlock (type : string) (labels : list string) (label_ranges : list Range) (open_brace_end : nat) (body : Body).

Definition attributes (b : Body) : gmap string Attribute := match b with MkBody a _ => a end.
Definition blocks (b : Body) : list Block := match b with MkBody _ bs => bs end.
Definition Type_ (b : Block) : string := match b with MkBlock t _ _ _ _ => t end.
Definition Labels (b : Block) : list string := match b with MkBlock _ l _ _ _ => l end.
Definition LabelRanges (b : Block) : list Range := match b with MkBlock _ _ r _ _ => r end.
Definition OpenBraceEnd (b : Block) : nat := match b with MkBlock _ _ _ o _ => o end.
Definition block_body (b : Block) : Body := match b with MkBlock _ _ _ _ body => body end.
(** [len(block.Labels) == 1] with that label. *)
Definition only_label (b : Block) : option string := match Labels b with [l] => Some l | _ => None end.

Inductive token_type :=
  | TokenOBrace | TokenCBrace | TokenEqual | TokenIdent | TokenQuotedLit | TokenStringLit | TokenOQuote | TokenCQuote
  | TokenOHeredoc | TokenComment | TokenNewline | TokenEOF | TokenOther.
#[export] Instance token_type_eq_dec : EqDecision token_type.
Proof. solve_decision. Defined.

Record token := MkToken { tk_Type : token_type; tk_Bytes : string; tk_Start : nat; tk_End : nat }.

Class Syntax := {
  LexConfig : string → list token;
  ParseStringLiteralToken : token → string;
  ParseConfig : string → Body * bool;
  ParseBackendAddressError : Attribute → option string;
}.

(** [text[a:b]]. *)
Definition slice (text : string) (a b : nat) : string := String.substring a (b - a) text.

Section Context.
Context `{Syntax}.

(** ** Where the cursor is (context.go) *)

Definition contextTokens (text : string) : list token :=
  filter (λ t, tk_Type t ≠ TokenComment ∧ tk_Type t ≠ TokenNewline ∧ tk_Type t ≠ TokenEOF) (LexConfig text).

Record openBlock := MkOpenBlock { ob_name : string; ob_label : string; ob_attribute : string; ob_at : nat }.

Definition token_before (tokens : list token) (index n : nat) : option token :=
  if Nat.leb n index then tokens !! (index - n) else None.
Definition is_type (t : token_type) (o : option token) : bool :=
  match o with Some k => bool_decide (tk_Type k = t) | None => false end.
Definition bytes_of (o : option token) : string := match o with Some k => tk_Bytes k | None => "" end.

(** The tokens before an opening brace say what it opens. *)
Definition headerAt (tokens : list token) (index : nat) : openBlock :=
  let at_ := match tokens !! index with Some t => tk_Start t | None => 0 end in
  let previous := token_before tokens index 1 in
  let second := token_before tokens index 2 in
  if Nat.eqb index 0 then MkOpenBlock "" "" "" at_
  else if is_type TokenEqual previous && is_type TokenIdent second then MkOpenBlock "" "" (bytes_of second) at_
  else if is_type TokenIdent previous then
    if is_type TokenIdent second then MkOpenBlock (bytes_of second) (bytes_of previous) "" at_
    else MkOpenBlock (bytes_of previous) "" "" at_
  else if is_type TokenCQuote previous then
    let quoted := is_type TokenQuotedLit second in
    let label := match second with Some t => if quoted then ParseStringLiteralToken t else "" | None => "" end in
    let opening := if quoted then 3 else 2 in
    if is_type TokenOQuote (token_before tokens index opening) && is_type TokenIdent (token_before tokens index (S opening))
    then MkOpenBlock (bytes_of (token_before tokens index (S opening))) label "" at_
    else MkOpenBlock "" label "" at_
  else MkOpenBlock "" "" "" at_.

(** The tokens that start before the offset, up to the first that does not. *)
Definition tokens_before (tokens : list token) (offset : nat) : list token :=
  (fix go l := match l with [] => [] | t :: l => if Nat.leb offset (tk_Start t) then [] else t :: go l end) tokens.

Definition brace_step (tokens : list token) (stack : list openBlock) (it : nat * token) : list openBlock :=
  match tk_Type it.2 with
  | TokenOBrace => stack ++ [headerAt tokens it.1]
  | TokenCBrace => take (length stack - 1) stack
  | _ => stack
  end.

Definition openBlocksAt (text : string) (offset : nat) : list openBlock :=
  let tokens := contextTokens text in
  foldl (brace_step tokens) [] (imap pair (tokens_before tokens offset)).

Definition blockPathAt (text : string) (offset : nat) : list string :=
  filter (λ n, n ≠ "") (ob_name <$> openBlocksAt text offset).

Definition first_label (name : string) (bs : list openBlock) : string :=
  match List.find (λ b, bool_decide (ob_name b = name)) bs with Some b => ob_label b | None => "" end.
Definition groupAt (text : string) (offset : nat) : string := first_label "group" (openBlocksAt text offset).
Definition nodeAt (text : string) (offset : nat) : string := first_label "node" (openBlocksAt text offset).

Definition objectAttributeAt (text : string) (offset : nat) : string * bool :=
  match last (openBlocksAt text offset) with
  | Some b => (ob_attribute b, bool_decide (ob_name b = ""))
  | None => ("", false)
  end.

(** The attribute whose value the cursor is in, of the innermost block. *)
Definition directionAt (text : string) (offset : nat) : string :=
  let start := default 0 (ob_at <$> last (filter (λ b, ob_name b ≠ "") (openBlocksAt text offset))) in
  let tokens := contextTokens text in
  let assigned (it : nat * token) : option string :=
    if Nat.ltb start (tk_Start it.2) && bool_decide (tk_Type it.2 = TokenEqual) && is_type TokenIdent (token_before tokens it.1 1)
    then Some (bytes_of (token_before tokens it.1 1)) else None in
  default "" (last (omap assigned (imap pair (tokens_before tokens offset)))).

Definition ends_line (s : string) : bool :=
  match last (chars s) with Some c => bool_decide (c = ascii_of_nat 10) | None => false end.

Definition literal_token (offset : nat) (t : token) : bool :=
  Nat.ltb (tk_Start t) offset && Nat.leb offset (tk_End t)
  && match tk_Type t with
     | TokenComment => Nat.ltb offset (tk_End t) || negb (ends_line (tk_Bytes t))
     | TokenQuotedLit | TokenStringLit | TokenOQuote | TokenOHeredoc => true
     | _ => false
     end.
Definition literalAt (text : string) (offset : nat) : bool := existsb (literal_token offset) (LexConfig text).

(** The brace that closes the block opened at [start], or the end. *)
Fixpoint closing_brace (start : nat) (tokens : list token) (depth : Z) : option nat :=
  match tokens with
  | [] => None
  | t :: tokens =>
    if Nat.ltb (tk_Start t) start then closing_brace start tokens depth
    else match tk_Type t with
         | TokenOBrace => closing_brace start tokens (depth + 1)
         | TokenCBrace => if decide (depth - 1 = 0)%Z then Some (tk_Start t) else closing_brace start tokens (depth - 1)
         | _ => closing_brace start tokens depth
         end
  end.

Definition enclosingNamedBlock (text : string) (offset : nat) (name : string) : option (nat * nat) :=
  match last (filter (λ b, ob_name b = name) (openBlocksAt text offset)) with
  | None => None
  | Some b => Some (ob_at b, default (String.length text) (closing_brace (ob_at b) (contextTokens text) 0))
  end.

Definition quote : string := String (ascii_of_nat 34) "".

Definition enclosingSyntaxBlock (text : string) (offset : nat) (name : string) : option Block :=
  '(start, end_) ← enclosingNamedBlock text offset name;
  let header := name +:+ " " +:+ (if decide (name = "use") then quote +:+ "instance" +:+ quote +:+ " " else "") in
  head (blocks (ParseConfig (header +:+ slice text start end_ +:+ "}")).1).

Definition literalAttribute (b : Block) (name : string) : string :=
  default "" (attributes (block_body b) !! name ≫= λ a, ex_string (at_Expr a)).

Definition useAsAt (text : string) (offset : nat) : string :=
  match enclosingSyntaxBlock text offset "use" with Some b => literalAttribute b "as" | None => "" end.

(** The start of the label of an edge's input block the cursor is in. *)
Definition label_at (text : string) (offset : nat) (tokens : list token) (it : nat * token) : option nat :=
  let t := it.2 in
  if negb (bool_decide (tk_Type t = TokenOQuote)) || negb (is_type TokenIdent (token_before tokens it.1 1))
     || negb (bool_decide (bytes_of (token_before tokens it.1 1) = "input"))
  then None
  else if Nat.ltb offset (tk_End t) then None
  else
    let end_ := match List.find (λ n, bool_decide (tk_Type n = TokenCQuote)) (drop (S it.1) tokens) with
                | Some n => tk_Start n | None => String.length text end in
    if Nat.leb offset end_ then Some (tk_End t) else None.

Definition edgeInputLabelAt (text : string) (offset : nat) (path : list string) : option nat :=
  if decide (last path = Some "edge") then
    let tokens := contextTokens text in head (omap (label_at text offset tokens) (imap pair tokens))
  else None.
End Context.

(** ** The model of a workspace (workspace.go) *)

Record portMeta := MkPortMeta {
  pm_typeName : string; pm_description : string; pm_deprecated : string; pm_sensitive : bool; pm_required : bool;
}.
Definition no_meta : portMeta := MkPortMeta "" "" "" false false.

Record ports := MkPorts {
  pt_known : bool; pt_inputs : list string; pt_outputs : list string;
  pt_inputsMeta : gmap string portMeta; pt_outputsMeta : gmap string portMeta;
}.
Definition no_ports : ports := MkPorts false [] [] ∅ ∅.

Inductive workspaceModel :=
  MkModel (nodes uses : gmap string ports) (runtimes : list string) (groups : gmap string workspaceModel).
Definition nodes (m : workspaceModel) : gmap string ports := match m with MkModel n _ _ _ => n end.
Definition uses (m : workspaceModel) : gmap string ports := match m with MkModel _ u _ _ => u end.
Definition runtimes (m : workspaceModel) : list string := match m with MkModel _ _ r _ => r end.
Definition groups (m : workspaceModel) : gmap string workspaceModel := match m with MkModel _ _ _ g => g end.
Definition newWorkspaceModel : workspaceModel := MkModel ∅ ∅ [] ∅.

Definition add_node (m : workspaceModel) (name : string) (p : ports) : workspaceModel :=
  MkModel (<[name := p]> (nodes m)) (uses m) (runtimes m) (groups m).
Definition add_use (m : workspaceModel) (name : string) (p : ports) : workspaceModel :=
  MkModel (nodes m) (<[name := p]> (uses m)) (runtimes m) (groups m).
Definition add_group (m : workspaceModel) (name : string) (g : workspaceModel) : workspaceModel :=
  MkModel (nodes m) (uses m) (runtimes m) (<[name := g]> (groups m)).
Definition with_runtimes (m : workspaceModel) (l : list string) : workspaceModel := MkModel (nodes m) (uses m) l (groups m).

Definition uniqueSorted (values : list string) : list string := sorted_keys (list_to_map ((λ v, (v, tt)) <$> values) : gmap string unit).

(** The workspace: the overlays of the editor over the files below. *)
Record Workspace := MkWorkspace { ws_root : string; ws_documents : gmap string string }.
Definition NewWorkspace (root : string) : Workspace := MkWorkspace root ∅.
Definition SetRoot (w : Workspace) (root : string) : Workspace := MkWorkspace root (ws_documents w).

(** What the workspace reads of the disk, and the working directory. *)
Record Disk := MkDisk {
  dk_files : gmap string string;
  dk_dirs : string → list (string * bool);
  dk_abs : string → string;
}.

Section Model.
Context `{Syntax} (inspect : string → FileMode → result Schema) (FileModeForBinary : string → FileMode).
Context (IsBlueprintFilename : string → bool) (disk : Disk) (w : Workspace).

Definition absolute (path : string) : string := dk_abs disk path.

Definition SetDocument (path text : string) : Workspace := MkWorkspace (ws_root w) (<[absolute path := text]> (ws_documents w)).
Definition CloseDocument (path : string) : Workspace := MkWorkspace (ws_root w) (delete (absolute path) (ws_documents w)).

(** The overlay, else the file, else nothing. *)
Definition document (path : string) : string :=
  match ws_documents w !! path with Some text => text | None => default "" (dk_files disk !! path) end.
Definition Document (path : string) : string := document (absolute path).

Definition hclFiles (dir : string) : list string :=
  uniqueSorted
    (((λ e, Join [dir; e.1]) <$> filter (λ e : string * bool, e.2 = false ∧ IsBlueprintFilename e.1 = true) (dk_dirs disk dir))
     ++ filter (λ path, Dir path = dir ∧ IsBlueprintFilename (Base path) = true) (map_to_list (ws_documents w)).*1).

Definition has_hcl_extension (path : string) : bool := has_suffix (Base path) ".hcl".
Definition blueprintFiles (path : string) : list string :=
  let files := hclFiles (Dir path) in
  uniqueSorted (if negb (has_hcl_extension path) || IsBlueprintFilename (Base path) then files ++ [path] else files).

(** *** Ports *)

Definition inspectPorts (base source : string) (mode : FileMode) : ports :=
  if IsRemote source then no_ports
  else match inspect (Join [base; source]) mode with
       | Err _ => no_ports
       | Ok schema =>
         MkPorts true (sorted_keys (s_Variables schema)) (sorted_keys (s_OutputDetails schema))
           ((λ v, MkPortMeta (v_Type v) (v_Description v) (v_Deprecated v) (v_Sensitive v) (v_Required v)) <$> s_Variables schema)
           ((λ o, MkPortMeta (o_Type o) (o_Description o) (o_Deprecated o) (o_Sensitive o) false) <$> s_OutputDetails schema)
       end.

(** The exposed ports of one group block: the labels inside its exports. *)
Definition export_labels (kind : string) (b : Block) : list string :=
  omap (λ port, if decide (Type_ port = kind) then only_label port else None)
    (concat ((λ e, blocks (block_body e)) <$> filter (λ e, Type_ e = "export") (blocks (block_body b)))).

Definition group_ports (groupName : string) (p : ports) (path : string) : ports :=
  let '(body, broken) := ParseConfig (document path) in
  foldl (λ p b, if decide (Type_ b = "group") then
                  if decide (only_label b = Some groupName)
                  then MkPorts (negb broken) (pt_inputs p ++ export_labels "input" b) (pt_outputs p ++ export_labels "output" b) ∅ ∅
                  else p
                else p) p (blocks body).

Definition inspectGroupPorts (base source groupName : string) : ports :=
  if IsRemote source then no_ports
  else let p := foldl (group_ports groupName) no_ports (hclFiles (Join [base; source])) in
       MkPorts (pt_known p) (uniqueSorted (pt_inputs p)) (uniqueSorted (pt_outputs p)) ∅ ∅.

Definition nodeFileMode (b : Block) (modes : gmap string FileMode) (fallback : FileMode) : FileMode :=
  match attributes (block_body b) !! "runtime" with
  | None => fallback
  | Some attr =>
    match ex_traversal (at_Expr attr) with
    | Some [RootStep "runtime"; AttrStep name _] => default UnknownFiles (modes !! name)
    | _ => UnknownFiles
    end
  end.

(** *** Collecting *)

Definition add_block (path : string) (modes : gmap string FileMode) (fallback : FileMode) (m : workspaceModel) (b : Block) : workspaceModel :=
  match only_label b with
  | None => m
  | Some label =>
    if decide (Type_ b = "node") then
      let source := literalAttribute b "source" in
      add_node m label (if decide (source = "") then no_ports else inspectPorts (Dir path) source (nodeFileMode b modes fallback))
    else if decide (Type_ b = "use") then
      let as_ := literalAttribute b "as" in
      let source := literalAttribute b "source" in
      if bool_decide (as_ = "") || bool_decide (source = "") then m else add_use m as_ (inspectGroupPorts (Dir path) source label)
    else if decide (Type_ b = "runtime") then with_runtimes m (runtimes m ++ [label])
    else m
  end.

(** A group is collected apart, without the directory's default runtime. *)
Fixpoint addBodyToModel (path : string) (modes : gmap string FileMode) (body : Body) (fallback : FileMode) (m : workspaceModel) : workspaceModel :=
  match body with
  | MkBody _ bs =>
    (fix go (bs : list Block) (m : workspaceModel) : workspaceModel :=
       match bs with
       | [] => m
       | b :: bs =>
         go bs match b with
               | MkBlock type labels _ _ inner =>
                 if decide (type = "group") then
                   match labels with
                   | [label] => add_group m label (addBodyToModel path modes inner UnknownFiles newWorkspaceModel)
                   | _ => m
                   end
                 else add_block path modes fallback m b
               end
       end) bs m
  end.

Record declared := MkDeclared { dc_modes : gmap string FileMode; dc_default : FileMode; dc_defaults : nat }.

Definition declare_runtime (d : declared) (b : Block) : declared :=
  if decide (Type_ b = "runtime") then
    match only_label b with
    | None => d
    | Some label =>
      let mode := FileModeForBinary (literalAttribute b "binary") in
      let modes := <[label := mode]> (dc_modes d) in
      match attributes (block_body b) !! "default" with
      | Some attr => if ex_true (at_Expr attr) then MkDeclared modes mode (S (dc_defaults d)) else MkDeclared modes (dc_default d) (dc_defaults d)
      | None => MkDeclared modes (dc_default d) (dc_defaults d)
      end
    end
  else d.

(** Runtime declarations are collected before any source is inspected. *)
Definition model (path text : string) : workspaceModel :=
  let bodies := (λ f, (f, (ParseConfig (if decide (f = path) then text else document f)).1)) <$> blueprintFiles path in
  let d := foldl (λ d fb, foldl declare_runtime d (blocks fb.2)) (MkDeclared ∅ TerraformFiles 0) bodies in
  let fallback := if Nat.ltb 1 (dc_defaults d) then UnknownFiles else dc_default d in
  let m := foldl (λ m fb, addBodyToModel fb.1 (dc_modes d) fb.2 fallback m) newWorkspaceModel bodies in
  with_runtimes m (uniqueSorted (runtimes m)).

(** [workspaceModel.at]: inside a group only the group's own names count. *)
Definition model_at (m : workspaceModel) (text : string) (offset : nat) : workspaceModel :=
  match List.find (λ b, bool_decide (ob_name b = "group")) (openBlocksAt text offset) with
  | None => m
  | Some b => match groups m !! ob_label b with
              | Some group => with_runtimes group (runtimes m)
              | None => newWorkspaceModel
              end
  end.

Definition lookupEntity (m : workspaceModel) (keyword name : string) : option ports :=
  if decide (keyword = "use") then uses m !! name else nodes m !! name.

Definition blockEndpointPorts (m : workspaceModel) (b : Block) (side : string) : option ports :=
  attr ← attributes (block_body b) !! side;
  match ex_traversal (at_Expr attr) with
  | Some [RootStep root; AttrStep name _] => if mem root ["node"; "use"] then lookupEntity m root name else None
  | _ => None
  end.

Definition edgeEndpointPorts (m : workspaceModel) (text : string) (offset : nat) (side : string) : option ports :=
  b ← enclosingSyntaxBlock text offset "edge"; blockEndpointPorts m b side.

Definition varsPortsAt (m : workspaceModel) (text : string) (offset : nat) : option ports :=
  match last (blockPathAt text offset) with
  | Some "use" => uses m !! useAsAt text offset
  | Some "node" => nodes m !! nodeAt text offset
  | _ => None
  end.
End Model.

(** ** Completions *)

Record Completion := MkCompletion {
  Label : string; Insert : string; Detail : string; Documentation : string; Start : nat; End_ : nat;
}.

Record attributeSpec := MkSpec { as_name : string; as_insert : string; as_detail : string; as_documentation : string }.

(** The table below writes a quotation mark as a backquote and a line break as
    a bar. *)
Definition snippet_char (c : ascii) : ascii :=
  if decide (c = "`"%char) then ascii_of_nat 34 else if decide (c = "|"%char) then ascii_of_nat 10 else c.
Definition snippet (s : string) : string := of_chars (snippet_char <$> chars s).
Definition spec (name insert detail documentation : string) : attributeSpec :=
  MkSpec name (snippet insert) detail (snippet documentation).

Definition contractPortSchema : list attributeSpec :=
   [(spec "type" "type = string" "optional type constraint" "Accepts native type expressions or legacy strings. Omit to keep only the module input type check.");
    (spec "nullable" "nullable = false" "optional bool" "Checks the top-level effective value; nested nulls are not prohibited.");
    (spec "sensitive" "sensitive = true" "optional bool" "Cannot downgrade module or runtime sensitivity.")].

Definition completionSchemas : list (string * list attributeSpec) := [
  ("", [(spec "producer" "producer `./module` {|}" "Output contracts" "");
    (spec "consumer" "consumer `./module` {|}" "Input contracts" "");
    (spec "contracts" "contracts {|  mode = `warn`|}" "Contract enforcement mode" "");
    (spec "node" "node `name` {|  source = ``|}" "Blueprint block" "Declares one Terraform or OpenTofu module in the graph.");
    (spec "edge" "edge {|  from = node.source.output.value|  to   = node.target.input.value|}" "Blueprint block" "Connects a source node output to a target node input.");
    (spec "runtime" "runtime `name` {|  binary = `tofu`|}" "Blueprint block" "Declares a reusable Terraform or OpenTofu runtime.");
    (spec "group" "group `name` {|}" "Blueprint block" "Declares a reusable sub-blueprint.");
    (spec "use" "use `group` {|  as     = `name`|  source = ``|}" "Blueprint block" "Instantiates a reusable group.");
    (spec "vendor" "vendor {|}" "Blueprint block" "Configures the local vendor directory.");
    (spec "tfvars" "tfvars {|}" "Blueprint block" "Configures where resolved input values are written.");
    (spec "lock" "lock {|  s3 {|    bucket = ``|    key    = ``|    region = ``|  }|}" "Blueprint block" "Serializes plan/apply/destroy across machines with a remote lock object.");
    (spec "plugin" "plugin `name` {|  source = ``|  version = ``|}" "Optional executable plugin" "Declares a version-locked plugin; the editor never executes plugin code.");
    (spec "execution" "execution {|}" "Blueprint block" "Configures execution record storage and retained plan lifetime.");
    (spec "snapshots" "snapshots { }" "Blueprint block" "Opts the graph into local output snapshots, consumed as the input source of last resort.")]);
  ("group", [(spec "producer" "producer `./module` {|}" "Output contracts" "");
    (spec "consumer" "consumer `./module` {|}" "Input contracts" "");
    (spec "node" "node `name` {|  source = ``|}" "Group block" "");
    (spec "edge" "edge {|  from = node.|  to = node.|}" "Group block" "");
    (spec "use" "use `group` {|  as = `name`|  source = ``|}" "Group block" "");
    (spec "export" "export {|}" "Group interface" "")]);
  ("export", [(spec "input" "input `name` {|  to = node.|}" "Export input" "");
    (spec "output" "output `name` {|  from = node.|}" "Export output" "")]);
  ("export.input", [(spec "to" "to = node." "required input reference" "")]);
  ("export.output", [(spec "from" "from = node." "required output reference" "")]);
  ("plugin", [(spec "source" "source = ``" "required package identity" "");
    (spec "version" "version = ``" "required version constraint" "");
    (spec "config" "config = {|}" "literal plugin configuration" "")]);
  ("execution", [(spec "bucket" "bucket = ``" "optional string" "S3 bucket for execution records and retained plans; requires a shared graph lock.");
    (spec "prefix" "prefix = ``" "optional string" "Dedicated artifact prefix, separate from state and locks.");
    (spec "region" "region = ``" "optional string" "S3 execution storage region.");
    (spec "plan_ttl" "plan_ttl = `24h`" "optional string" "Maximum age at which a retained plan may begin applying.");
    (spec "record_retention" "record_retention = `720h`" "optional string" "Retention after an execution is resolved and finished.")]);
  ("producer", [(spec "output" "output `name` {|  type = string|}" "Additional output guarantee" "")]);
  ("consumer", [(spec "input" "input `name` {|  nullable = false|}" "Additional input requirement" "")]);
  ("contracts", [(spec "mode" "mode = `warn`" "warn or enforce" "")]);
  ("producer.output", contractPortSchema);
  ("consumer.input", contractPortSchema);
  ("snapshots", []);
  ("backend_address", [(spec "s3_key_prefix" "s3_key_prefix = `prod`" "optional string" "Literal prefix before the qualified leaf directory. Empty means no prefix; explicit keys win.");
    (spec "s3_key_name" "s3_key_name = `terraform.tfstate`" "optional string" "File name within each qualified leaf directory; defaults to terraform.tfstate. Inherits independently of the prefix.")]);
  ("node", [(spec "source" "source = ``" "required string" "Path or remote source of the Terraform or OpenTofu module.");
    (spec "vars" "vars = {|}" "object" "Terraform input values, optionally computed by installed plugin functions. Use an edge for another node's output.");
    (spec "env" "env = {|}" "map(string)" "Extra environment variables for this module's Terraform or OpenTofu process.");
    (spec "runtime" "runtime = runtime." "runtime reference" "Selects a declared runtime for this node.");
    (spec "backend_address" "backend_address = {|  s3_key_prefix = `prod`|}" "object" "Optional S3 key generation. Inherits when omitted; {} disables it. Explicit addresses win.");
    (spec "backend_config" "backend_config = {|}" "map(string)" "Backend configuration passed to terraform init.");
    (spec "approve" "approve = ``" "optional string" "How much of this node's plan may be applied: `none`, `safe` (create/update, the default), or `all` (adds replace/delete).")]);
  ("edge", [(spec "from" "from = node." "required output reference" "Source node output, or a bare node for an ordering-only edge.");
    (spec "to" "to = node." "required input reference" "Target node input, or a bare node for an ordering-only edge.");
    (spec "input" "input `name` {|  from = output.|}" "Edge block" "Wires one more output of this edge's from node into an input of its to node. Only on an edge whose from and to are bare references.")]);
  ("edge.input", [(spec "from" "from = output." "required output reference" "Which output of the edge's own from node feeds this input. Relative: the source node is not repeated here.")]);
  ("runtime", [(spec "binary" "binary = ``" "required string" "Terraform or OpenTofu binary path, or a command resolved from PATH.");
    (spec "version" "version = ``" "optional string" "Records which versions this runtime is meant to represent. Never checked against the binary, and has no effect on execution.");
    (spec "default" "default = true" "optional bool" "Makes this runtime the blueprint-wide fallback.")]);
  ("use", [(spec "as" "as = ``" "required string" "Namespace used to refer to this group instance.");
    (spec "source" "source = ``" "required string" "Local path or remote source containing the group.");
    (spec "backend_address" "backend_address = {|  s3_key_prefix = `prod`|}" "object" "Optional S3 key generation. Inherits when omitted; {} disables it. Explicit addresses win.");
    (spec "backend_config" "backend_config = {|}" "map(string)" "Backend configuration merged onto every node this instance expands to. Leaf keys win.");
    (spec "runtime" "runtime = runtime." "runtime reference" "Default runtime for nodes expanded from this group.");
    (spec "env" "env = {|}" "map(string)" "Environment variables inherited by nodes expanded from this group.");
    (spec "vars" "vars = {|}" "object" "Literal values for this instance's export inputs. Use an edge for another node's output.");
    (spec "approve" "approve = ``" "optional string" "Default approve level for nodes expanded from this group, unless a node sets its own.")]);
  ("vendor", [(spec "directory" "directory = `vendor`" "optional string" "Directory used to store vendored module sources.");
    (spec "manifest_file" "manifest_file = `vendor.yaml`" "optional string" "Vendor manifest filename.")]);
  ("tfvars", [(spec "location" "location = `workdir`" "optional string" "Either workdir (default) or module.")]);
  ("lock", [(spec "s3" "s3 {|  bucket = ``|  key    = ``|  region = ``|}" "Lock block" "S3 lock object via conditional writes. The only nested lock type in this release.")]);
  ("s3", [(spec "bucket" "bucket = ``" "required string" "S3 bucket that holds the graph lock object.");
    (spec "key" "key = ``" "required string" "Object key for this graph. Must not be a node's state key.");
    (spec "region" "region = ``" "required string" "AWS region of the bucket.")]);
  ("lock.s3", [(spec "bucket" "bucket = ``" "required string" "S3 bucket that holds the graph lock object.");
    (spec "key" "key = ``" "required string" "Object key for this graph. Must not be a node's state key.");
    (spec "region" "region = ``" "required string" "AWS region of the bucket.")])].

(** The schema of the innermost blocks that have one. *)
Fixpoint schemaForPath_suffix (path : list string) : list attributeSpec :=
  match path with
  | [] => []
  | _ :: rest =>
    match List.find (λ kv, bool_decide (kv.1 = join path ".")) completionSchemas with
    | Some kv => kv.2
    | None => schemaForPath_suffix rest
    end
  end.
Definition schemaForPath (path : list string) : list attributeSpec :=
  match path with
  | [] => match List.find (λ kv, bool_decide (kv.1 = "")) completionSchemas with Some kv => kv.2 | None => [] end
  | _ => schemaForPath_suffix path
  end.

Definition stringCompletions (values : list string) (prefix : string) (build : string → Completion) : list Completion :=
  build <$> filter (λ v, has_prefix v prefix = true) (uniqueSorted values).

Definition contextCompletions (path : list string) (prefix : string) (start end_ : nat) : list Completion :=
  let fields := schemaForPath path in
  stringCompletions (as_name <$> fields) prefix (λ name,
    match List.find (λ f, bool_decide (as_name f = name)) fields with
    | Some f => MkCompletion (as_name f) (as_insert f) (as_detail f) (as_documentation f) start end_
    | None => MkCompletion "" "" "" "" 0 0
    end).

Definition contractPortPath (path : list string) : bool :=
  existsb (λ pq : string * string, (bool_decide (pq.1 = "producer") && bool_decide (pq.2 = "output"))
                                    || (bool_decide (pq.1 = "consumer") && bool_decide (pq.2 = "input"))) (zip path (tail path)).

Definition spaced (a b : string) : string := if decide (a = "") then b else a +:+ " " +:+ b.

Definition portCompletion (name insert : string) (meta : portMeta) (output : bool) (start end_ : nat) : Completion :=
  let detail := if output then "" else if decide (pm_typeName meta = "") then "input variable" else pm_typeName meta in
  let tags := (if pm_required meta then ["required"] else []) ++ (if pm_sensitive meta then ["sensitive"] else []) in
  let detail := match tags with [] => detail | _ => spaced detail ("(" +:+ join tags ", " +:+ ")") end in
  let detail := if decide (pm_description meta = "") then detail
                else (if decide (detail = "") then "" else detail +:+ " — ") +:+ pm_description meta in
  let documentation := if decide (pm_deprecated meta = "") then pm_description meta
                       else trim_space (pm_description meta +:+ snippet "||Deprecated: " +:+ pm_deprecated meta) in
  MkCompletion name insert detail documentation start end_.

Definition port_of (metas : gmap string portMeta) (name : string) : portMeta := default no_meta (metas !! name).

Definition contract_type_names : list string := ["string"; "number"; "bool"; "any"; "list"; "set"; "map"; "object"; "tuple"; "optional"].
Definition contract_type_insert (name : string) : string :=
  if mem name ["list"; "set"; "map"; "optional"] then name +:+ "(string)"
  else if decide (name = "object") then name +:+ "({})" else if decide (name = "tuple") then name +:+ "([])" else name.

(** A reference's characters. *)
Definition reference_char (c : ascii) : bool :=
  let n := nat_of_ascii c in
  mem (String c "") ["."; "_"; "-"] || (Nat.leb 97 n && Nat.leb n 122) || (Nat.leb 65 n && Nat.leb n 90) || (Nat.leb 48 n && Nat.leb n 57).

Fixpoint traversalStart (text : list ascii) (offset : nat) : nat :=
  match offset with
  | O => O
  | S before => match text !! before with Some c => if reference_char c then traversalStart text before else offset | None => offset end
  end.

Definition contractTypeCompletions (text : string) (offset : nat) : list Completion :=
  let start := traversalStart (chars text) offset in
  stringCompletions contract_type_names (slice text start offset) (λ name,
    MkCompletion name (contract_type_insert name) "Terraform type constraint"
      "Contract types check structure without primitive coercion. Put defaults in the module variable declaration." start offset).

Definition propertyCompletions (p : ports) (prefix : string) (start end_ : nat) : list Completion :=
  stringCompletions (pt_inputs p) prefix (λ name, portCompletion name name (port_of (pt_inputsMeta p) name) false start end_).

Definition runtimeCompletions (m : workspaceModel) (fragment : string) (start end_ : nat) : list Completion :=
  match split_on "."%char fragment with
  | [_; prefix] => stringCompletions (runtimes m) prefix (λ name, MkCompletion name ("runtime." +:+ name) "runtime" "" start end_)
  | _ => []
  end.

Definition port_kinds (direction : string) : list string :=
  if decide (direction = "from") then ["output"] else if decide (direction = "to") then ["input"] else ["output"; "input"].

Definition traversalCompletions (m : workspaceModel) (fragment direction : string) (start end_ : nat) : list Completion :=
  match split_on "."%char fragment with
  | [] | [_] => []
  | root :: rest =>
    let entities := if decide (root = "use") then uses m else nodes m in
    let noun := if decide (root = "use") then "group" else "node" in
    match rest with
    | [prefix] => stringCompletions (map_to_list entities).*1 prefix (λ name, MkCompletion name (root +:+ "." +:+ name) noun "" start end_)
    | name :: rest =>
      match entities !! name with
      | None => []
      | Some p =>
        match rest with
        | [prefix] => stringCompletions (port_kinds direction) prefix (λ kind,
                        MkCompletion kind (root +:+ "." +:+ name +:+ "." +:+ kind) "port kind" "" start end_)
        | [kind; prefix] =>
          let complete (names : list string) (metas : gmap string portMeta) (output : bool) := stringCompletions names prefix (λ port,
            portCompletion port (join [root; name; kind] "." +:+ "." +:+ port) (port_of metas port) output start end_) in
          if decide (kind = "input") then complete (pt_inputs p) (pt_inputsMeta p) false
          else if decide (kind = "output") then complete (pt_outputs p) (pt_outputsMeta p) true else []
        | _ => []
        end
      end
    | [] => []
    end
  end.

Definition isEdgeInput (path : list string) : bool :=
  match reverse path with "input" :: "edge" :: _ => true | _ => false end.

Section Editor.
Context `{Syntax} (inspect : string → FileMode → result Schema) (FileModeForBinary : string → FileMode).
Context (IsBlueprintFilename : string → bool) (disk : Disk) (w : Workspace).

Notation model := (model inspect FileModeForBinary IsBlueprintFilename disk w).
Notation document := (document disk w).

Definition edgeInputLabelCompletions (m : workspaceModel) (text : string) (start end_ : nat) : list Completion :=
  match edgeEndpointPorts m text start "to" with
  | None => []
  | Some target => stringCompletions (pt_inputs target) (slice text start end_) (λ name,
                     portCompletion name name (port_of (pt_inputsMeta target) name) false start end_)
  end.

Definition relativeOutputCompletions (m : workspaceModel) (text fragment : string) (start end_ : nat) : list Completion :=
  match edgeEndpointPorts m text start "from" with
  | None => []
  | Some source =>
    match split_on "."%char fragment with
    | [prefix] => stringCompletions ["output"] prefix (λ kind, MkCompletion kind (kind +:+ ".") "port kind" "" start end_)
    | ["output"; prefix] => stringCompletions (pt_outputs source) prefix (λ name,
        portCompletion name ("output." +:+ name) (port_of (pt_outputsMeta source) name) true start end_)
    | _ => []
    end
  end.

Definition has_dot (s : string) : bool := contains s ".".

Definition Complete (path : string) (offset : Z) : list Completion :=
  let path := absolute disk path in
  let text := document path in
  if bool_decide (offset < 0)%Z || bool_decide (Z.of_nat (String.length text) < offset)%Z then []
  else
    let offset := Z.to_nat offset in
    let m := model_at (model path text) text offset in
    let path := blockPathAt text offset in
    match edgeInputLabelAt text offset path with
    | Some labelStart => edgeInputLabelCompletions m text labelStart offset
    | None =>
      if literalAt text offset then []
      else if contractPortPath path && bool_decide (directionAt text offset = "type") then contractTypeCompletions text offset
      else
        let start := traversalStart (chars text) offset in
        let fragment := slice text start offset in
        let '(objectAttribute, insideObject) := objectAttributeAt text offset in
        if bool_decide (objectAttribute = "vars") && negb (has_dot fragment)
        then propertyCompletions (default no_ports (varsPortsAt m text offset)) fragment start offset
        else if bool_decide (objectAttribute = "backend_address") && negb (has_dot fragment)
        then contextCompletions ["backend_address"] fragment start offset
        else if insideObject : bool then []
        else if has_prefix fragment "runtime." then runtimeCompletions m fragment start offset
        else if has_prefix fragment "node." || has_prefix fragment "use."
        then traversalCompletions m fragment (directionAt text offset) start offset
        else if isEdgeInput path && bool_decide (directionAt text offset = "from")
        then relativeOutputCompletions m text fragment start offset
        else contextCompletions path fragment start offset
    end.
End Editor.

(** ** Definitions and diagnostics *)

Record Location := MkLocation { lc_Path : string; lc_Start : nat; lc_End : nat }.
Record Diagnostic := MkDiagnostic { df_Start : nat; df_End : nat; df_Message : string }.
Definition diagnostic_at (r : Range) (message : string) : Diagnostic := MkDiagnostic (sr_Start r) (sr_End r) message.

(** [walkAttributes]: every attribute, sorted by name in each body. *)
Fixpoint all_attributes (b : Body) : list Attribute :=
  match b with
  | MkBody attrs bs =>
    omap (λ name, attrs !! name) (sorted_keys attrs)
    ++ (fix go (bs : list Block) : list Attribute :=
          match bs with [] => [] | MkBlock _ _ _ _ inner :: bs => all_attributes inner ++ go bs end) bs
  end.

Definition reference_in (offset : nat) (t : list step) : option (string * string) :=
  match t with
  | RootStep root :: AttrStep name rng :: _ =>
    if mem root ["node"; "runtime"] && Nat.leb (sr_Start rng) offset && Nat.leb offset (sr_End rng) then Some (root, name) else None
  | _ => None
  end.

Definition availableHint (values : list string) : string :=
  match values with [] => "" | _ => "; available: " +:+ join values ", " end.

Definition byte_is (text : string) (i : nat) (s : string) : bool :=
  match chars text !! i with Some c => bool_decide (String c "" = s) | None => false end.

Definition unquotedRange (text : string) (r : Range) : Range :=
  let start := if byte_is text (sr_Start r) quote then S (sr_Start r) else sr_Start r in
  let end_ := sr_End r in
  MkRange start (if Nat.ltb start end_ && byte_is text (end_ - 1) quote then end_ - 1 else end_).

Definition relativeOutputName (e : Expr) : option string :=
  match ex_traversal e with Some [RootStep "output"; AttrStep name _] => Some name | _ => None end.

(** What one reference to a node is told, by the attribute it is in. *)
Definition wrong_direction (direction kind : string) (rng : Range) : list Diagnostic :=
  if (bool_decide (direction = "from") && negb (bool_decide (kind = "output")))
     || (bool_decide (direction = "to") && negb (bool_decide (kind = "input")))
  then [diagnostic_at rng (direction +:+ " must reference node " +:+ (if decide (direction = "to") then "input" else "output"))]
  else [].

Definition nodeDiagnostics (m : workspaceModel) (direction : string) (t : list step) : list Diagnostic :=
  match t with
  | RootStep root :: AttrStep name rng :: rest =>
    if negb (bool_decide (root = "node")) then []
    else match nodes m !! name with
         | None => [diagnostic_at rng ("Unknown node " +:+ name)]
         | Some p =>
           match rest with
           | AttrStep kind krng :: rest =>
             if negb (mem kind ["input"; "output"]) then []
             else
               wrong_direction direction kind krng
               ++ match rest with
                  | AttrStep port prng :: _ =>
                    let available := if decide (kind = "output") then pt_outputs p else pt_inputs p in
                    if pt_known p && negb (mem port available)
                    then [diagnostic_at prng ("Unknown " +:+ kind +:+ " " +:+ port +:+ availableHint available)] else []
                  | _ => []
                  end
           | _ => []
           end
         end
  | _ => []
  end.

(** [contractDiagnostics], groups included. *)
Definition contract_port_diagnostics (port : Block) : list Diagnostic :=
  match attributes (block_body port) !! "type" with
  | None => []
  | Some attr =>
    match ex_type_errors (at_Expr attr) with
    | None => [diagnostic_at (ex_range (at_Expr attr)) "Invalid contract type; use a Terraform type constraint"]
    | Some errors => (λ e, diagnostic_at (ex_range (at_Expr attr)) e) <$> errors
    end
  end.

Fixpoint contractDiagnostics (b : Body) : list Diagnostic :=
  match b with
  | MkBody _ bs =>
    (fix go (bs : list Block) : list Diagnostic :=
       match bs with
       | [] => []
       | MkBlock type _ _ _ inner :: bs =>
         (if mem type ["producer"; "consumer"] then concat (contract_port_diagnostics <$> blocks inner) else [])
         ++ (if decide (type = "group") then contractDiagnostics inner else []) ++ go bs
       end) bs
  end.

Section Diagnose.
Context `{Syntax} (inspect : string → FileMode → result Schema) (FileModeForBinary : string → FileMode).
Context (IsBlueprintFilename : string → bool) (disk : Disk) (w : Workspace).

Notation model := (model inspect FileModeForBinary IsBlueprintFilename disk w).
Notation document := (document disk w).

(** The last reference the cursor is on. *)
Definition referenceAt (text : string) (offset : nat) : option (string * string) :=
  last (omap (reference_in offset) (concat ((λ a, ex_variables (at_Expr a)) <$> all_attributes (ParseConfig text).1))).

Definition declares (kind name : string) (b : Block) : option Range :=
  if bool_decide (Type_ b = kind) && bool_decide (only_label b = Some name) then head (LabelRanges b) else None.

(** The body a reference is looked up in: a node of a group in that group. *)
Definition definition_body (kind group : string) (body : Body) : option Body :=
  if bool_decide (kind = "node") && negb (bool_decide (group = "")) then
    block_body <$> last (filter (λ b, Type_ b = "group" ∧ only_label b = Some group) (blocks body))
  else Some body.

Definition Definition_ (path : string) (offset : nat) : option Location :=
  let path := absolute disk path in
  let text := document path in
  '(kind, name) ← referenceAt text offset;
  head (omap (λ candidate,
    body ← definition_body kind (groupAt text offset) (ParseConfig (document candidate)).1;
    r ← head (omap (declares kind name) (blocks body));
    Some (MkLocation candidate (sr_Start r) (sr_End r))) (blueprintFiles IsBlueprintFilename disk w path)).

Definition vars_diagnostics (m : workspaceModel) (text : string) (attr : Attribute) : list Diagnostic :=
  if negb (bool_decide (at_Name attr = "vars")) then []
  else match varsPortsAt m text (sr_Start (at_Range attr)), ex_items (at_Expr attr) with
       | Some p, Some items =>
         if pt_known p then
           omap (λ item : option string * Range,
             name ← item.1;
             if mem name (pt_inputs p) then None else Some (diagnostic_at item.2 ("Unknown input " +:+ name +:+ availableHint (pt_inputs p)))) items
         else []
       | _, _ => []
       end.

Definition attribute_diagnostics (m : workspaceModel) (text : string) (attr : Attribute) : list Diagnostic :=
  let scope := model_at m text (sr_Start (at_Range attr)) in
  concat (nodeDiagnostics scope (at_Name attr) <$> ex_variables (at_Expr attr)) ++ vars_diagnostics scope text attr.

Definition input_diagnostics (source target : option ports) (text : string) (input : Block) : list Diagnostic :=
  match Type_ input, Labels input, LabelRanges input with
  | "input", [label], [rng] =>
    match target with
    | Some t => if pt_known t && negb (mem label (pt_inputs t))
                then [diagnostic_at (unquotedRange text rng) ("Unknown input " +:+ label +:+ availableHint (pt_inputs t))] else []
    | None => []
    end
    ++ match attributes (block_body input) !! "from", source with
       | Some attr, Some s =>
         match relativeOutputName (at_Expr attr) with
         | Some name => if pt_known s && negb (mem name (pt_outputs s))
                        then [diagnostic_at (ex_range (at_Expr attr)) ("Unknown output " +:+ name +:+ availableHint (pt_outputs s))] else []
         | None => []
         end
       | _, _ => []
       end
  | _, _, _ => []
  end.

Fixpoint edgeInputDiagnostics (text : string) (b : Body) (m : workspaceModel) : list Diagnostic :=
  match b with
  | MkBody _ bs =>
    (fix go (bs : list Block) : list Diagnostic :=
       match bs with
       | [] => []
       | block :: bs =>
         match block with
         | MkBlock type _ _ open inner =>
           (if decide (type = "group") then edgeInputDiagnostics text inner (model_at m text open) else [])
           ++ (if decide (type = "edge")
               then concat (input_diagnostics (blockEndpointPorts m block "from") (blockEndpointPorts m block "to") text <$> blocks inner)
               else [])
         end ++ go bs
       end) bs
  end.

Fixpoint backendAddressDiagnostics (b : Body) : list Diagnostic :=
  match b with
  | MkBody _ bs =>
    (fix go (bs : list Block) : list Diagnostic :=
       match bs with
       | [] => []
       | MkBlock type _ _ _ inner :: bs =>
         (if decide (type = "group") then backendAddressDiagnostics inner else [])
         ++ (if mem type ["node"; "use"] then
               match attributes inner !! "backend_address" with
               | Some attr => match ParseBackendAddressError attr with
                              | Some e => [diagnostic_at (ex_range (at_Expr attr)) e] | None => [] end
               | None => []
               end
             else []) ++ go bs
       end) bs
  end.

Definition Diagnose (path : string) : list Diagnostic :=
  let path := absolute disk path in
  let text := document path in
  let m := model path text in
  let body := (ParseConfig text).1 in
  contractDiagnostics body ++ backendAddressDiagnostics body
  ++ concat (attribute_diagnostics m text <$> all_attributes body) ++ edgeInputDiagnostics text body m.

(** ** Hover (contracts.go) *)

Definition declared_type (schema : Schema) (parent port label : string) : string :=
  let typ := if decide (parent = "consumer") then match s_Variables schema !! label with Some v => v_Type v | None => "" end
             else match s_OutputDetails schema !! label with Some o => o_Type o | None => "" end in
  if decide (typ = "") then "not declared" else typ.

Definition remove_backquotes (s : string) : string := of_chars (filter (λ c, c ≠ "`"%char) (chars s)).

Definition hover_text (path : string) (parent port : openBlock) : string :=
  match inspect (Join [Dir path; ob_label parent]) UnknownFiles with
  | Err _ => "Module declaration unavailable; vendor the source or select unambiguous runtime declarations. Contract checks are deferred until actual values are available."
  | Ok schema =>
    "Module " +:+ ob_name port +:+ " type: `" +:+ remove_backquotes (declared_type schema (ob_name parent) (ob_name port) (ob_label port)) +:+ "`."
    +:+ snippet "||" +:+ "Contracts add requirements to this declaration. Type omission keeps the module input check. Actual value checks occur during plan/apply; static information alone is not confirmation."
  end.

Definition Hover (path : string) (offset : nat) : string :=
  let path := absolute disk path in
  let bs := openBlocksAt (document path) offset in
  match List.find (λ pq : openBlock * openBlock, mem (ob_name pq.1) ["producer"; "consumer"] && mem (ob_name pq.2) ["input"; "output"])
          (zip bs (tail bs)) with
  | Some (parent, port) => hover_text path parent port
  | None => ""
  end.
End Diagnose.
