(* ===== verification/Server.v ===== *)
(** The language server (src/internal/lsp/server.go): positions between the
    editor's UTF-16 columns and byte offsets, the documents an editor has open,
    the diagnostics published for them, and the requests.

    The protocol's transport and the uri package are third-party code: the
    class [URI] answers for the latter.  The disk is fixed while a session is
    described; the two mutexes make every handler one step. *)
From S2P Require Import Prelude GoLib GoPath Blueprint Module Language.

(** ** Positions *)

Definition u32 (z : Z) : Z := z `mod` 2 ^ 32.

Record position := MkPosition { ps_Line : Z; ps_Character : Z }.

Definition newline (c : ascii) : bool := bool_decide (c = ascii_of_nat 10).
Definition carriage (c : ascii) : bool := bool_decide (c = ascii_of_nat 13).

(** The first loop of [positionOffset]: what is left of the text, and where. *)
Fixpoint skip_lines (rest : list ascii) (line want : Z) (offset : nat) : list ascii * nat :=
  match rest with
  | [] => (rest, offset)
  | c :: after => if decide (line < want)%Z then skip_lines after (if newline c then u32 (line + 1) else line) want (S offset) else (rest, offset)
  end.

(** The second: every rune is at least a byte, so the text's length is fuel enough. *)
Fixpoint skip_characters (fuel : nat) (rest : list ascii) (character want : Z) (offset : nat) : nat :=
  match fuel, rest with
  | S fuel, c :: _ =>
    if bool_decide (character < want)%Z && negb (newline c) && negb (carriage c) then
      let '(r, size) := DecodeRune rest in
      let units := if decide (65535 < r)%N then 2%Z else 1%Z in
      if decide (want < u32 (character + units))%Z then offset
      else skip_characters fuel (drop size rest) (u32 (character + units)) want (offset + size)
    else offset
  | _, _ => offset
  end.

Definition positionOffset (text : string) (p : position) : nat :=
  let '(rest, offset) := skip_lines (chars text) 0 (ps_Line p) 0 in
  skip_characters (String.length text) rest 0 (ps_Character p) offset.

(** [len(utf16.Encode([]rune{r}))]. *)
Definition utf16_length (r : N) : Z := if decide (65536 ≤ r ∧ r ≤ 1114111)%N then 2 else 1.

Fixpoint count_position (fuel : nat) (rest : list ascii) (index offset : nat) (line character : Z) : position :=
  match fuel, rest with
  | S fuel, c :: after =>
    if decide (index < offset)%nat then
      if newline c then count_position fuel after (S index) offset (u32 (line + 1)) 0
      else
        let '(r, size) := DecodeRune rest in
        count_position fuel (drop size rest) (index + size) offset line (u32 (character + utf16_length r))
    else MkPosition line character
  | _, _ => MkPosition line character
  end.

Definition offsetPosition (text : string) (offset : nat) : position :=
  count_position (String.length text) (chars text) 0 (min offset (String.length text)) 0 0.

(** ** Paths of documents *)

Class URI := {
  uri : Type;
  uri_Parse : string → option uri;
  Scheme : uri → string;
  FsPathFor : uri → bool → string;
  uri_File : string → string;
}.

(** [strings.ToLower] of one byte: a byte that is no character becomes the
    replacement character. *)
Definition lower_byte (c : ascii) : string :=
  let n := nat_of_ascii c in
  if Nat.leb 65 n && Nat.leb n 90 then String (ascii_of_nat (n + 32)) ""
  else if Nat.ltb n 128 then String c ""
  else String (ascii_of_nat 239) (String (ascii_of_nat 191) (String (ascii_of_nat 189) "")).

Definition filePathFor `{URI} (raw : string) (windows : bool) : string :=
  let plain := match raw with
               | String c (String ":" rest) => if windows then lower_byte c +:+ String ":" rest else raw
               | _ => raw
               end in
  match uri_Parse raw with
  | Some parsed => if decide (Scheme parsed = "file") then FsPathFor parsed windows else plain
  | None => plain
  end.

(** ** The edit of a completion *)

(** [strings.LastIndex(fragment, ".")]. *)
Fixpoint last_dot (l : list ascii) : option nat :=
  match l with
  | [] => None
  | c :: l => match last_dot l with Some i => Some (S i) | None => if decide (c = "."%char) then Some 0 else None end
  end.

Definition completionEdit (text : string) (candidate : Completion) : nat * string :=
  match last_dot (chars (slice text (Start candidate) (End_ candidate))) with
  | Some lastDot => (Start candidate + lastDot + 1, Label candidate)
  | None => (Start candidate, Insert candidate)
  end.

(** ** The server *)

Record server := MkServer {
  sv_workspace : Workspace; sv_documents : gmap string string; sv_client : bool; sv_shutdown : bool; sv_exit : bool;
}.

Definition Serve : server := MkServer (NewWorkspace "") ∅ true false false.

Record published := MkPublished { pb_start : position; pb_end : position; pb_message : string }.
(** [PublishDiagnostics]: the document and its diagnostics. *)
Definition publication : Type := string * list published.

Record item := MkItem {
  it_Label : string; it_Detail : string; it_start : position; it_end : position; it_NewText : string; it_Documentation : option string;
}.

(** A request of a server that was shut down is refused. *)
Inductive reply (A : Type) := Refused | Reply (a : A).
Arguments Refused {A}. Arguments Reply {A} a.

Inductive notification :=
  | Initialize (folders : list string)
  | DidOpen (uri text : string)
  | DidChange (uri : string) (changes : list (option string))
  | DidClose (uri : string)
  | Shutdown
  | Exit.

Section Server.
Context `{Syntax} `{URI} (inspect : string → FileMode → result Schema) (FileModeForBinary : string → FileMode).
Context (IsBlueprintFilename : string → bool) (disk : Disk) (windows : bool).

Notation Diagnose := (Diagnose inspect FileModeForBinary IsBlueprintFilename disk).

Definition filePath (raw : string) : string := filePathFor raw windows.

Definition set_ (s : server) (rawURI text : string) : server :=
  let path := filePath rawURI in
  MkServer (SetDocument disk (sv_workspace s) path text) (<[path := text]> (sv_documents s)) (sv_client s) (sv_shutdown s) (sv_exit s).

Definition publishDocumentDiagnostics (s : server) (documentURI : string) : list publication :=
  if sv_client s then
    let path := filePath documentURI in
    let text := Document disk (sv_workspace s) path in
    [(documentURI, (λ i, MkPublished (offsetPosition text (df_Start i)) (offsetPosition text (df_End i)) (df_Message i))
                     <$> Diagnose (sv_workspace s) path)]
  else [].

Definition publishDiagnostics (s : server) : list publication :=
  concat ((λ path, publishDocumentDiagnostics s (uri_File path)) <$> sorted_keys (sv_documents s)).

Definition close_document (s : server) (rawURI : string) : server :=
  let path := filePath rawURI in
  MkServer (CloseDocument disk (sv_workspace s) path) (delete path (sv_documents s)) (sv_client s) (sv_shutdown s) (sv_exit s).

(** The handlers that change the server: its state, whether it refused, and
    what it published on the way. *)
Definition handle (s : server) (n : notification) : server * reply unit * list publication :=
  match n with
  | Initialize folders =>
    if sv_shutdown s then (s, Refused, [])
    else (match folders with
          | folder :: _ => MkServer (SetRoot (sv_workspace s) (filePath folder)) (sv_documents s) (sv_client s) (sv_shutdown s) (sv_exit s)
          | [] => s
          end, Reply tt, [])
  | DidOpen uri text => let s := set_ s uri text in (s, Reply tt, publishDiagnostics s)
  | DidChange uri changes =>
    let s := foldl (λ s change, match change with Some whole => set_ s uri whole | None => s end) s changes in
    (s, Reply tt, publishDiagnostics s)
  | DidClose uri =>
    let s := close_document s uri in
    (s, Reply tt, (if sv_client s then [(uri, [])] else []) ++ publishDiagnostics s)
  | Shutdown =>
    if sv_shutdown s then (s, Refused, [])
    else (MkServer (sv_workspace s) (sv_documents s) (sv_client s) true (sv_exit s), Reply tt, [])
  | Exit => (MkServer (sv_workspace s) (sv_documents s) (sv_client s) (sv_shutdown s) true, Reply tt, [])
  end.

(** [Serve]'s end, once the exit channel is closed. *)
Definition exit_error (s : server) : option string :=
  if sv_shutdown s then None else Some "language-server: exit received before shutdown; send shutdown before exit".

Definition lsp_item (text : string) (candidate : Completion) : item :=
  let '(start, newText) := completionEdit text candidate in
  MkItem (Label candidate) (Detail candidate) (offsetPosition text start) (offsetPosition text (End_ candidate)) newText
    (if decide (Documentation candidate = "") then None else Some (Documentation candidate)).

Definition lsp_Completion (s : server) (uri : string) (p : position) : reply (list item) :=
  if sv_shutdown s then Refused
  else
    let path := filePath uri in
    let text := Document disk (sv_workspace s) path in
    Reply (lsp_item text <$> Complete inspect FileModeForBinary IsBlueprintFilename disk (sv_workspace s) path (Z.of_nat (positionOffset text p))).

Definition lsp_Definition (s : server) (uri : string) (p : position) : reply (option (string * position * position)) :=
  if sv_shutdown s then Refused
  else
    let path := filePath uri in
    let text := Document disk (sv_workspace s) path in
    Reply ((λ target, let targetText := Document disk (sv_workspace s) (lc_Path target) in
              (uri_File (lc_Path target), offsetPosition targetText (lc_Start target), offsetPosition targetText (lc_End target)))
             <$> Definition_ IsBlueprintFilename disk (sv_workspace s) path (positionOffset text p)).

Definition lsp_Hover (s : server) (uri : string) (p : position) : reply (option string) :=
  if sv_shutdown s then Refused
  else
    let path := filePath uri in
    let text := Document disk (sv_workspace s) path in
    let content := Hover inspect disk (sv_workspace s) path (positionOffset text p) in
    Reply (if decide (content = "") then None else Some content).

(** A session: the state and everything published. *)
Definition session (ns : list notification) (s : server) : server * list publication :=
  foldl (λ sp n, let '(s, _, out) := handle sp.1 n in (s, sp.2 ++ out)) (s, []) ns.
End Server.
