(* ===== verification/PositionProofs.v ===== *)
(** The editor's positions (for Server.v): the byte offset of a position and
    the position of a byte offset are inverse on the boundaries of runes,
    whatever bytes the text holds, and no position leads outside the text or
    into the middle of a rune. *)
From S2P Require Import Prelude GoLib GoPath Blueprint Module Language Server.

(** ** Runes *)

Lemma land_63 b : (N.land b 63 < 64)%N.
Proof. change 63%N with (N.ones 6). rewrite N.land_ones. by apply N.mod_lt. Qed.
Lemma cont_bound lo hi b x : cont lo hi b = Some x → (x < 64)%N.
Proof. destruct b as [b|]; [|done]. simpl. case_decide; [|done]. intros [= <-]. apply land_63. Qed.
Lemma cont_high lo hi b x : (128 ≤ lo)%N → cont lo hi b = Some x → ∃ c, b = Some c ∧ (128 ≤ c)%N.
Proof. destruct b as [b|]; [|done]. simpl. case_decide; [|done]. intros ? _. exists b. split; [done|lia]. Qed.
Lemma second_high b0 : (128 ≤ (second_bounds b0).1)%N.
Proof. unfold second_bounds. repeat case_match; simpl; lia. Qed.
Lemma land_last b : (128 ≤ b ≤ 143)%N → (N.land b 63 < 16)%N.
Proof.
  intros Hb. change 63%N with (N.ones 6). rewrite N.land_ones. change (2 ^ 6)%N with 64%N.
  replace b with (b - 128 + 2 * 64)%N by lia. rewrite N.Div0.mod_add. rewrite N.mod_small; lia.
Qed.
Lemma land_7 b0 : (240 ≤ b0 ≤ 244)%N → (N.land b0 7 = b0 - 240)%N.
Proof.
  intros Hb. change 7%N with (N.ones 3). rewrite N.land_ones. change (2 ^ 3)%N with 8%N.
  replace b0 with (b0 - 240 + 30 * 8)%N at 1 by lia. rewrite N.Div0.mod_add. apply N.mod_small; lia.
Qed.
Lemma land_15 b : (N.land b 15 < 16)%N.
Proof. change 15%N with (N.ones 4). rewrite N.land_ones. by apply N.mod_lt. Qed.
Lemma land_31 b : (N.land b 31 < 32)%N.
Proof. change 31%N with (N.ones 5). rewrite N.land_ones. by apply N.mod_lt. Qed.

Ltac rune_cases b0 Hsb :=
  unfold DecodeRune;
  match goal with |- context [byte_at ?l 0] => let E := fresh "B" in destruct (byte_at l 0) as [b0|] eqn:E end;
  [pose proof (second_high b0); let lo := fresh "lo" in let hi := fresh "hi" in destruct (second_bounds b0) as [lo hi] eqn:Hsb; cbn [fst snd] in *|];
  repeat case_decide; simpl;
  repeat match goal with
  | |- context [match cont ?a ?b ?c with _ => _ end] => let E := fresh "E" in destruct (cont a b c) eqn:E; simpl
  end.

(** A rune is a code point, in two code units only when it has four bytes. *)
Lemma DecodeRune_max l : ((DecodeRune l).1 ≤ 1114111)%N.
Proof.
  rune_cases b0 Hsb; unfold rune_error; try lia;
    repeat match goal with E : cont _ _ _ = Some ?x |- _ => pose proof (cont_bound _ _ _ _ E); revert E end; intros.
  - pose proof (land_31 b0). lia.
  - pose proof (land_15 b0). lia.
  - rewrite land_7 by lia. destruct (decide (b0 = 244%N)) as [->|]; [|lia]. injection Hsb as [= <- <-].
    match goal with E : cont 128 143 ?b = Some _ |- _ =>
      destruct b as [c|]; [|done]; simpl in E; case_decide; [|done]; injection E as <-; pose proof (land_last c ltac:(lia)) end. lia.
Qed.

Lemma DecodeRune_units l : (65535 < (DecodeRune l).1)%N → (DecodeRune l).2 = 4.
Proof.
  rune_cases b0 Hsb; unfold rune_error; try lia; try done;
    repeat match goal with E : cont _ _ _ = Some ?x |- _ => pose proof (cont_bound _ _ _ _ E); revert E end; intros.
  - pose proof (land_31 b0). lia.
  - pose proof (land_15 b0). lia.
Qed.

Definition units (r : N) : Z := if decide (65535 < r)%N then 2 else 1.
Lemma utf16_units l : utf16_length (DecodeRune l).1 = units (DecodeRune l).1.
Proof. pose proof (DecodeRune_max l). unfold utf16_length, units. repeat case_decide; lia. Qed.
Lemma units_size l : l ≠ [] → (1 ≤ units (DecodeRune l).1 ≤ Z.of_nat (DecodeRune l).2)%Z.
Proof.
  intros Hl. pose proof (DecodeRune_width l Hl). unfold units. case_decide as Hr; [|lia]. rewrite (DecodeRune_units l Hr). lia.
Qed.

(** Only the first byte of a rune may be an ASCII character. *)
Lemma DecodeRune_cont l i b : 0 < i < (DecodeRune l).2 → byte_at l i = Some b → (128 ≤ b)%N.
Proof.
  intros Hi Hb. revert Hi. rune_cases b0 Hsb; intros Hi; try lia;
    repeat match goal with E : cont _ _ _ = Some _ |- _ => apply cont_high in E as (? & ? & ?); [|lia] end;
    destruct i as [|[|[|[|]]]]; try lia; congruence.
Qed.

Definition is_ascii (c : ascii) : bool := bool_decide (N_of_ascii c < 128)%N.

Lemma DecodeRune_stops seg c rest : seg ≠ [] → is_ascii c = true → (DecodeRune (seg ++ c :: rest)).2 ≤ length seg.
Proof.
  intros Hseg Hc. destruct (decide ((DecodeRune (seg ++ c :: rest)).2 ≤ length seg)) as [|Hgt]; [done|].
  exfalso. assert (byte_at (seg ++ c :: rest) (length seg) = Some (N_of_ascii c)) as Hb.
  { unfold byte_at. rewrite lookup_app_r by lia. by rewrite Nat.sub_diag. }
  apply DecodeRune_cont in Hb; [|destruct seg; [done|simpl in *; lia]].
  apply bool_decide_eq_true in Hc. lia.
Qed.

Lemma DecodeRune_ascii c rest : is_ascii c = true → (DecodeRune (c :: rest)).2 = 1.
Proof.
  intros Hc%bool_decide_eq_true. unfold DecodeRune. change (byte_at (c :: rest) 0) with (Some (N_of_ascii c)).
  cbv iota beta. destruct (second_bounds _). rewrite decide_True by lia. done.
Qed.

(** ** Boundaries *)

Fixpoint at_rune_in (fuel : nat) (rest : list ascii) (k : nat) : bool :=
  match k, fuel, rest with
  | 0, _, _ => true
  | _, S fuel, _ :: _ => let size := (DecodeRune rest).2 in Nat.leb size k && at_rune_in fuel (drop size rest) (k - size)
  | _, _, _ => false
  end.
(** An offset between two runes of the text. *)
Definition at_rune (text : string) (offset : nat) : bool := at_rune_in (String.length text) (chars text) offset.

Definition newlines (l : list ascii) : nat := length (filter (λ c, newline c = true) l).
Definition whole_lines (pre : list ascii) : Prop := pre = [] ∨ ∃ l c, pre = l ++ [c] ∧ newline c = true.

(** The part of the line before an offset, backwards. *)
Fixpoint until_newline (l : list ascii) : list ascii :=
  match l with [] => [] | c :: l => if newline c then [] else c :: until_newline l end.
Definition line_before (text : string) (offset : nat) : list ascii := until_newline (rev (take offset (chars text))).
Definition no_carriage (text : string) (offset : nat) : bool := forallb (λ c, negb (carriage c)) (line_before text offset).

Lemma newline_ascii c : newline c = true → is_ascii c = true.
Proof. unfold newline. intros ->%bool_decide_eq_true. done. Qed.

Lemma drop_in_seg (seg : list ascii) c rest n : n ≤ length seg → drop n (seg ++ c :: rest) = drop n seg ++ c :: rest.
Proof. intros. by rewrite drop_app_le. Qed.

(** A walk over the runes passes an ASCII character. *)
Lemma cross_ascii (c : ascii) (rest seg : list ascii) : is_ascii c = true → ∀ fuel,
  length (seg ++ c :: rest) ≤ fuel →
  ∃ fuel', length rest < fuel' ∧ ∀ k, at_rune_in fuel (seg ++ c :: rest) (length seg + k) = at_rune_in fuel' (c :: rest) k.
Proof.
  intros Hc. induction seg as [seg IH] using (induction_ltof1 _ length). intros fuel Hf.
  destruct (decide (seg = [])) as [->|Hne]; [exists fuel; done|].
  pose proof (DecodeRune_stops seg c rest Hne Hc) as Hstop.
  assert (seg ++ c :: rest ≠ []) as Hl by (by destruct seg). pose proof (DecodeRune_width _ Hl) as Hw.
  assert (0 < length seg) by (destruct seg; [done|simpl; lia]).
  rewrite length_app in Hf. cbn [length] in Hf.
  destruct fuel as [|fuel]; [lia|].
  edestruct (IH (drop (DecodeRune (seg ++ c :: rest)).2 seg)) with (fuel := fuel) as (fuel' & Hf' & Hk).
  { unfold ltof. rewrite length_drop. lia. }
  { rewrite length_app, length_drop. simpl. lia. }
  exists fuel'. split; [done|]. intros k. specialize (Hk k). rewrite length_drop in Hk.
  rewrite <- Hk. destruct (length seg + k) eqn:Elen; [lia|]. rewrite <- Elen.
  destruct (seg ++ c :: rest) as [|d l] eqn:Es; [done|]. cbn [at_rune_in]. rewrite Elen. rewrite <- Elen. cbv zeta. rewrite <- Es in *.
  rewrite (proj2 (Nat.leb_le _ _)) by lia. rewrite andb_true_l, drop_in_seg by done. f_equal. lia.
Qed.

(** ** Lines *)

(** The count of a position passes the newline that ends a line. *)
Lemma count_cross (c : ascii) (rest seg : list ascii) : newline c = true → Forall (λ d, newline d = false) seg → ∀ fuel index offset line ch,
  length (seg ++ c :: rest) ≤ fuel → index + length seg < offset →
  ∃ fuel', length rest ≤ fuel' ∧
    count_position fuel (seg ++ c :: rest) index offset line ch
    = count_position fuel' rest (index + S (length seg)) offset (u32 (line + 1)) 0.
Proof.
  intros Hc. induction seg as [seg IH] using (induction_ltof1 _ length). intros Hseg fuel index offset line ch Hf Ho.
  destruct fuel as [|fuel]; [rewrite length_app in Hf; simpl in Hf; lia|].
  destruct seg as [|d seg].
  { exists fuel. simpl in Hf, Ho |- *. split; [lia|]. rewrite Nat.add_0_r in Ho. rewrite decide_True, Hc by done. f_equal; lia. }
  pose proof (DecodeRune_stops (d :: seg) c rest ltac:(done) (newline_ascii c Hc)) as Hstop.
  pose proof (DecodeRune_width ((d :: seg) ++ c :: rest) ltac:(done)) as Hw.
  apply Forall_cons_1 in Hseg as Hd. destruct Hd as [Hd _]. cbn [app count_position].
  rewrite decide_True by lia. rewrite Hd. change (d :: seg ++ c :: rest) with ((d :: seg) ++ c :: rest).
  destruct (DecodeRune _) as [r size] eqn:Hr. cbn [fst snd] in *. rewrite drop_in_seg by done.
  edestruct (IH (drop size (d :: seg))) with (fuel := fuel) (index := index + size) (offset := offset) as (fuel' & Hf' & ->).
  - unfold ltof. rewrite length_drop. simpl in *. lia.
  - apply Forall_drop, Hseg.
  - rewrite length_app, length_drop. rewrite length_app in Hf. simpl in *. lia.
  - rewrite length_drop. simpl in *. lia.
  - exists fuel'. split; [done|]. rewrite length_drop. f_equal. simpl in *. lia.
Qed.

Lemma newlines_app a b : newlines (a ++ b) = newlines a + newlines b.
Proof. unfold newlines. by rewrite filter_app, length_app. Qed.
Lemma newlines_none seg : Forall (λ d, newline d = false) seg → newlines seg = 0.
Proof. unfold newlines. induction 1 as [|d seg Hd _ IH]; [done|]. rewrite filter_cons_False by (by rewrite Hd). done. Qed.
Lemma newlines_length l : newlines l ≤ length l.
Proof. apply length_filter. Qed.

(** Whole lines have a first line. *)
Lemma first_line pre : pre ≠ [] → whole_lines pre →
  ∃ seg c pre', pre = seg ++ c :: pre' ∧ newline c = true ∧ Forall (λ d, newline d = false) seg ∧ whole_lines pre'.
Proof.
  intros Hne Hw. destruct Hw as [|(l & c & -> & Hc)]; [done|]. clear Hne. induction l as [|d l IH].
  - exists [], c, []. by repeat split; [..|left].
  - destruct (newline d) eqn:Hd.
    + exists [], d, (l ++ [c]). repeat split; [done..|]. right. by exists l, c.
    + destruct IH as (seg & e & pre' & Heq & He & Hs & Hp). exists (d :: seg), e, pre'. simpl. rewrite Heq.
      repeat split; [done|by constructor|done].
Qed.

Lemma cross_lines (rest pre : list ascii) : whole_lines pre → ∀ fuel index offset line,
  length (pre ++ rest) ≤ fuel → index + length pre ≤ offset → (0 ≤ line)%Z → (line + Z.of_nat (newlines pre) < 2 ^ 32)%Z →
  ∃ fuel', length rest ≤ fuel' ∧
    count_position fuel (pre ++ rest) index offset line 0
    = count_position fuel' rest (index + length pre) offset (line + Z.of_nat (newlines pre)) 0.
Proof.
  induction pre as [pre IH] using (induction_ltof1 _ length). intros Hw fuel index offset line Hf Ho Hl Hb.
  destruct (decide (pre = [])) as [->|Hne].
  { exists fuel. simpl in *. split; [done|]. f_equal; unfold newlines; simpl; lia. }
  apply first_line in Hw as (seg & c & pre' & -> & Hc & Hs & Hp); [|done].
  rewrite newlines_app, newlines_none in Hb |- * by done. change (c :: pre') with ([c] ++ pre') in Hb |- *.
  rewrite newlines_app in Hb |- *. assert (newlines [c] = 1) as H1 by (unfold newlines; by rewrite filter_cons_True). rewrite H1 in Hb |- *.
  rewrite !length_app in *. cbn [length] in *.
  destruct (count_cross c (pre' ++ rest) seg Hc Hs fuel index offset line 0) as (f1 & Hf1 & Heq); [rewrite length_app; cbn [length]; rewrite length_app; lia|lia|].
  rewrite <- app_assoc. cbn [app]. rewrite Heq.
  assert (u32 (line + 1) = line + 1)%Z as -> by (apply Z.mod_small; lia).
  destruct (IH pre') with (fuel := f1) (index := index + S (length seg)) (offset := offset) (line := (line + 1)%Z) as (f2 & Hf2 & ->);
    [unfold ltof; rewrite !length_app; simpl; lia|done|done|lia..|].
  exists f2. split; [done|]. f_equal; lia.
Qed.

Lemma newlines_cons d l : newlines (d :: l) = (if newline d then 1 else 0) + newlines l.
Proof. unfold newlines. rewrite filter_cons. destruct (newline d); simpl; by rewrite ?decide_True, ?decide_False. Qed.

Lemma skip_lines_whole rest l c : newline c = true → ∀ line offset want, (0 ≤ line)%Z →
  (want = line + Z.of_nat (newlines (l ++ [c])))%Z → (want < 2 ^ 32)%Z →
  skip_lines ((l ++ [c]) ++ rest) line want offset = (rest, offset + S (length l)).
Proof.
  intros Hc. induction l as [|d l IH]; intros line offset want Hl Hw Hb; simpl in Hw |- *; rewrite newlines_cons in Hw.
  - rewrite Hc in *. unfold newlines in Hw. simpl in Hw. rewrite decide_True by lia. unfold u32. rewrite Z.mod_small by lia.
    destruct rest; simpl; [f_equal; lia|]. rewrite decide_False by lia. f_equal; lia.
  - assert (1 ≤ newlines (l ++ [c])) by (rewrite newlines_app, newlines_cons, Hc; lia).
    rewrite decide_True by lia. unfold u32. destruct (newline d); [rewrite Z.mod_small by lia|]; (rewrite IH by lia); f_equal; lia.
Qed.

Lemma lines_of (m : list ascii) : ∃ pre cur, m = pre ++ cur ∧ whole_lines pre ∧ Forall (λ d, newline d = false) cur ∧ until_newline (rev m) = rev cur.
Proof.
  induction m as [|c m (pre & cur & -> & Hp & Hc & Hu)] using rev_ind; [exists [], []; by repeat split; [..|left|]|].
  rewrite rev_app_distr. simpl. destruct (newline c) eqn:E.
  - exists ((pre ++ cur) ++ [c]), []. repeat split; [by rewrite app_nil_r|right; by exists (pre ++ cur), c|done].
  - exists pre, (cur ++ [c]). rewrite Hu. repeat split; [by rewrite app_assoc|done| |by rewrite rev_app_distr].
    apply Forall_app. by repeat constructor.
Qed.

(** Within a line, the count of code units and the walk by code units agree. *)
Lemma same_line fuel : ∀ rest k index line character fuel2,
  Forall (λ d, newline d = false ∧ carriage d = false) (take k rest) → at_rune_in fuel rest k = true →
  length rest ≤ fuel → length rest ≤ fuel2 → (0 ≤ character)%Z → (character + Z.of_nat k < 2 ^ 32)%Z →
  ∃ ch, count_position fuel rest index (index + k) line character = MkPosition line ch ∧ (character ≤ ch)%Z
    ∧ skip_characters fuel2 rest character ch index = index + k.
Proof.
  induction fuel as [|fuel IH]; intros rest k index line character fuel2 Hl Hr Hf Hf2 H0 Hb.
  { destruct k; [|done]. exists character. destruct rest; [|simpl in Hf; lia]. rewrite Nat.add_0_r. by destruct fuel2. }
  destruct (decide (k = 0)) as [->|Hk].
  { exists character. rewrite Nat.add_0_r. destruct rest as [|c rest]; simpl; [by destruct fuel2|].
    rewrite decide_False by lia. split; [done|split; [done|]]. destruct fuel2; [done|]. simpl. rewrite bool_decide_false by lia. done. }
  destruct rest as [|c rest]; [by destruct k|]. pose proof (units_size (c :: rest) ltac:(done)) as Hu.
  pose proof (DecodeRune_width (c :: rest) ltac:(done)) as Hw. pose proof (utf16_units (c :: rest)) as Hu16.
  destruct k as [|k]; [done|]. cbn [at_rune_in] in Hr. apply andb_true_iff in Hr as [Hle%Nat.leb_le Hr].
  assert (newline c = false ∧ carriage c = false) as [Hn Hcr] by (by apply Forall_cons_1 in Hl as [? _]).
  destruct fuel2 as [|fuel2]; [simpl in Hf2; lia|]. cbn [count_position skip_characters]. rewrite decide_True, Hn, Hcr by lia.
  destruct (DecodeRune (c :: rest)) as [r size] eqn:Hd. cbn [fst snd] in *. fold (units r).
  destruct (IH (drop size (c :: rest)) (S k - size) (index + size) line (character + units r)%Z fuel2) as (ch & Hc & Hge & Hs);
    [|done|rewrite length_drop; simpl in *; lia|rewrite length_drop; simpl in *; lia|lia|lia|].
  { rewrite take_drop_commute. apply Forall_drop. by replace (size + (S k - size)) with (S k) by lia. }
  replace (index + size + (S k - size)) with (index + S k) in * by lia.
  exists ch. rewrite Hu16. unfold u32. rewrite Z.mod_small by lia. rewrite Hc, bool_decide_true by lia. simpl.
  rewrite decide_False by lia. rewrite Hs. repeat split; lia.
Qed.

Lemma at_rune_le fuel : ∀ rest k, at_rune_in fuel rest k = true → k ≤ length rest.
Proof.
  induction fuel as [|fuel IH]; intros rest [|k]; simpl; [lia|done|lia|].
  destruct rest as [|c rest]; [done|]. intros [Hle%Nat.leb_le H%IH]%andb_true_iff.
  pose proof (DecodeRune_width (c :: rest) ltac:(done)). rewrite length_drop in H. lia.
Qed.

Lemma at_rune_fuel f1 : ∀ f2 rest k, length rest ≤ f1 → length rest ≤ f2 → at_rune_in f1 rest k = at_rune_in f2 rest k.
Proof.
  induction f1 as [|f1 IH]; intros f2 rest k H1 H2.
  - destruct rest; [|simpl in H1; lia]. by destruct k, f2.
  - destruct k as [|k]; [by destruct f2|]. destruct rest as [|c rest]; [by destruct f2|]. destruct f2 as [|f2]; [simpl in H2; lia|].
    simpl at_rune_in at 1. cbn [at_rune_in]. f_equal. pose proof (DecodeRune_width (c :: rest) ltac:(done)). apply IH; rewrite length_drop; simpl in *; lia.
Qed.

(** A boundary past whole lines is a boundary of what follows them. *)
Lemma at_rune_lines pre rest k : whole_lines pre →
  at_rune_in (length (pre ++ rest)) (pre ++ rest) (length pre + k) = at_rune_in (length rest) rest k.
Proof.
  intros [->|(l & c & -> & Hc)]; [done|]. rewrite <- app_assoc. cbn [app].
  pose proof (newline_ascii c Hc) as Ha. destruct (cross_ascii c rest l Ha (length (l ++ c :: rest))) as (f & Hf & Hk); [lia|].
  replace (length (l ++ [c]) + k) with (length l + S k) by (rewrite length_app; simpl; lia). rewrite Hk.
  destruct f as [|f]; [lia|]. cbn [at_rune_in]. rewrite DecodeRune_ascii by done. simpl. rewrite Nat.sub_0_r. apply at_rune_fuel; lia.
Qed.

(** ** Positions and offsets *)

Definition short (text : string) : Prop := (Z.of_nat (String.length text) < 2 ^ 32)%Z.

Lemma position_offset text offset : short text → at_rune text offset = true → no_carriage text offset = true →
  positionOffset text (offsetPosition text offset) = offset.
Proof.
  unfold short, at_rune, no_carriage, positionOffset, offsetPosition, line_before. rewrite !string_length_chars. set (l := chars text).
  intros Hs Hr Hn. pose proof (at_rune_le _ _ _ Hr) as Hle. rewrite Nat.min_l by done.
  destruct (lines_of (take offset l)) as (pre & cur & Hm & Hp & Hc & Hu).
  assert (l = pre ++ (cur ++ drop offset l)) as Hl by (by rewrite app_assoc, <- Hm, take_drop).
  assert (length pre + length cur = offset) as Hlen by (rewrite <- length_app, <- Hm, length_take; lia).
  revert Hr Hn Hs Hle. rewrite Hu. set (rest := cur ++ drop offset l) in *. rewrite Hl. intros Hr Hn Hs Hle.
  rewrite <- Hlen, at_rune_lines in Hr by done. rewrite length_app in Hs, Hle. pose proof (newlines_length pre) as Hnl.
  destruct (cross_lines rest pre Hp (length (pre ++ rest)) 0 offset 0) as (fuel & Hf & ->); [lia..|].
  assert (Forall (λ d, newline d = false ∧ carriage d = false) (take (length cur) rest)) as Hline.
  { unfold rest. rewrite take_app_length. apply Forall_forall. intros d Hd. split; [by apply (proj1 (Forall_forall _ _) Hc)|].
    apply negb_true_iff, (proj1 (List.forallb_forall _ _) Hn), in_rev. rewrite rev_involutive. by apply list_elem_of_In. }
  destruct (same_line fuel rest (length cur) (0 + length pre) (0 + Z.of_nat (newlines pre)) 0 (length (pre ++ rest))) as (ch & Hcount & Hge & Hskip);
    [done|by rewrite (at_rune_fuel fuel (length rest))|done|rewrite length_app; lia|lia|unfold rest in *; rewrite length_app in *; lia|].
  replace (0 + length pre + length cur) with offset in * by lia. rewrite Hcount. cbn [ps_Line ps_Character].
  destruct Hp as [->|(b & c & -> & Hnlc)].
  - unfold newlines. simpl. destruct rest as [|d rest']; simpl; rewrite ?decide_False by lia; done.
  - rewrite (skip_lines_whole rest b c Hnlc 0 0) by lia. etrans; [|exact Hskip]. f_equal; rewrite length_app; simpl; lia.
Qed.

(** The line loop stops after whole lines or at the end of the text. *)
Lemma skip_lines_splits want l : ∀ line offset, ∃ pre rest,
  l = pre ++ rest ∧ skip_lines l line want offset = (rest, offset + length pre)
  ∧ (rest = [] ∨ (pre = [] ∧ (want ≤ line)%Z) ∨ ∃ b c, pre = b ++ [c] ∧ newline c = true).
Proof.
  induction l as [|c l IH]; intros line offset; simpl.
  - exists [], []. simpl. rewrite Nat.add_0_r. by repeat split; [..|left].
  - case_decide as Hlt; cycle 1.
    { exists [], (c :: l). simpl. rewrite Nat.add_0_r. repeat split; [done..|]. right. left. split; [done|lia]. }
    destruct (IH (if newline c then u32 (line + 1) else line) (S offset)) as (pre & rest & -> & -> & Hr).
    exists (c :: pre), rest. repeat split; [simpl; f_equal; lia|].
    destruct Hr as [->|[[-> Hw]|(b & d & -> & Hd)]]; [by left| |].
    + right. right. exists [], c. split; [done|]. destruct (newline c); [done|lia].
    + right. right. by exists (c :: b), d.
Qed.

Lemma at_rune_all fuel : ∀ l, length l ≤ fuel → at_rune_in fuel l (length l) = true.
Proof.
  induction fuel as [|fuel IH]; intros [|c l] Hf; simpl in Hf; [done|lia|done|].
  cbn [length at_rune_in]. pose proof (DecodeRune_width (c :: l) ltac:(done)) as Hw. simpl in Hw.
  rewrite (proj2 (Nat.leb_le _ _)) by lia. simpl andb.
  replace (S (length l) - _) with (length (drop (DecodeRune (c :: l)).2 (c :: l))) by (by rewrite length_drop).
  apply IH. rewrite length_drop. simpl. lia.
Qed.

Definition plain (c : ascii) : Prop := newline c = false ∧ carriage c = false.

Lemma high_plain c : (128 ≤ N_of_ascii c)%N → plain c.
Proof. intros Hc. split; apply bool_decide_eq_false; intros ->; vm_compute in Hc; by apply Hc. Qed.

(** A rune that starts with a plain character is plain. *)
Lemma plain_rune c l : plain c → Forall plain (take (DecodeRune (c :: l)).2 (c :: l)).
Proof.
  intros Hc. apply Forall_lookup. intros [|i] d Hd; apply lookup_take_Some in Hd as [Hd Hi]; [by injection Hd as <-|].
  apply high_plain, (DecodeRune_cont (c :: l) (S i)); [lia|]. unfold byte_at. by rewrite Hd.
Qed.

(** The character loop stays within the line, on boundaries. *)
Lemma skip_characters_walk fuel : ∀ rest character want offset, ∃ k,
  skip_characters fuel rest character want offset = offset + k ∧ at_rune_in fuel rest k = true ∧ Forall plain (take k rest).
Proof.
  induction fuel as [|fuel IH]; intros rest character want offset; [exists 0; by rewrite Nat.add_0_r|].
  assert (∃ k, offset = offset + k ∧ at_rune_in (S fuel) rest k = true ∧ Forall plain (take k rest)) as Hstop
    by (exists 0; by rewrite Nat.add_0_r).
  destruct rest as [|c rest]; [done|]. simpl skip_characters.
  destruct (_ && _) eqn:E; [|done]. rewrite !andb_true_iff, !negb_true_iff in E. destruct E as [[_ Hn] Hc].
  pose proof (plain_rune c rest (conj Hn Hc)) as Hp. pose proof (DecodeRune_width (c :: rest) ltac:(done)) as Hw.
  destruct (DecodeRune (c :: rest)) as [r size] eqn:Hr. case_decide; [done|]. simpl in Hp, Hw.
  destruct (IH (drop size (c :: rest)) (u32 (character + (if decide (65535 < r)%N then 2 else 1))) want (offset + size)) as (k & -> & Hk & Hf).
  exists (size + k). split; [lia|]. destruct size as [|size]; [lia|]. split.
  - cbn [Nat.add at_rune_in]. rewrite Hr. simpl snd. rewrite (proj2 (Nat.leb_le _ _)) by lia. simpl andb.
    cbn. by replace (size + k - size) with k by lia.
  - rewrite <- take_take_drop. by apply Forall_app.
Qed.

(** *** Carriage returns *)

Fixpoint crlf_in (l : list ascii) : bool :=
  match l with
  | [] => true
  | c :: l => (if carriage c then match l with d :: _ => newline d | [] => false end else true) && crlf_in l
  end.
(** Every carriage return is followed by a newline. *)
Definition crlf (text : string) : bool := crlf_in (chars text).

Definition after_carriage (text : string) (offset : nat) : bool :=
  match offset with 0 => false | S i => match chars text !! i with Some c => carriage c | None => false end end.

Lemma crlf_lookup l : crlf_in l = true → ∀ i c, l !! i = Some c → carriage c = true → ∃ d, l !! S i = Some d ∧ newline d = true.
Proof.
  induction l as [|e l IH]; [done|]. simpl. intros [He Hl]%andb_true_iff [|i] c; simpl.
  - intros [= ->] Hc. rewrite Hc in He. destruct l as [|d l]; [done|]. by exists d.
  - by apply IH.
Qed.

Lemma crlf_no_carriage text offset : crlf text = true → after_carriage text offset = false → offset ≤ String.length text →
  no_carriage text offset = true.
Proof.
  unfold crlf, after_carriage, no_carriage, line_before. rewrite string_length_chars. set (l := chars text). intros Hc Ha Hle.
  destruct (lines_of (take offset l)) as (pre & cur & Hm & _ & Hcur & ->). apply List.forallb_forall.
  intros d Hd%in_rev%list_elem_of_In%list_elem_of_lookup. destruct Hd as [i Hi]. apply negb_true_iff. apply not_true_iff_false. intros Hcr.
  assert (l !! (length pre + i) = Some d) as Hl.
  { rewrite <- (take_drop offset l), Hm. rewrite <- app_assoc, lookup_app_r by lia.
    replace (length pre + i - length pre) with i by lia. rewrite lookup_app_l; [done|by eapply lookup_lt_Some]. }
  destruct (crlf_lookup l Hc _ _ Hl Hcr) as (e & He & Hnl). apply lookup_lt_Some in Hi as Hlt.
  assert (length pre + length cur = offset) as Hlen by (rewrite <- length_app, <- Hm, length_take; lia).
  destruct (decide (S i < length cur)) as [Hin|Hout].
  - rewrite <- (take_drop offset l), Hm, <- app_assoc, lookup_app_r in He by lia.
    replace (S (length pre + i) - length pre) with (S i) in He by lia. rewrite lookup_app_l in He by done.
    apply (Forall_lookup_1 _ _ _ _ Hcur) in He. congruence.
  - replace offset with (S (length pre + i)) in Ha by lia. simpl in Ha. rewrite Hl in Ha. congruence.
Qed.

(** Where a position leads: past whole lines or the whole text, then along
    plain characters to a boundary. *)
Lemma positionOffset_walk text p : ∃ pre rest k, chars text = pre ++ rest ∧ positionOffset text p = length pre + k
  ∧ at_rune_in (String.length text) rest k = true ∧ Forall plain (take k rest) ∧ (rest = [] ∨ whole_lines pre).
Proof.
  unfold positionOffset. destruct (skip_lines_splits (ps_Line p) (chars text) 0 0) as (pre & rest & Hl & -> & Hr).
  destruct (skip_characters_walk (String.length text) rest 0 (ps_Character p) (0 + length pre)) as (k & -> & Hk & Hf).
  exists pre, rest, k. repeat split; [done..|]. destruct Hr as [|[[-> _]|Hw]]; [by left|by right; left|by right; right].
Qed.

Lemma positionOffset_boundary text p : at_rune text (positionOffset text p) = true.
Proof.
  destruct (positionOffset_walk text p) as (pre & rest & k & Hl & -> & Hk & _ & Hr). unfold at_rune. rewrite string_length_chars in *. rewrite Hl in *.
  destruct Hr as [->|Hw].
  - assert (k = 0) as -> by (apply at_rune_le in Hk; simpl in Hk; lia). rewrite app_nil_r, Nat.add_0_r. by apply at_rune_all.
  - rewrite at_rune_lines by done. rewrite <- Hk. apply at_rune_fuel; rewrite ?length_app; lia.
Qed.

Lemma positionOffset_le text p : positionOffset text p ≤ String.length text.
Proof. rewrite string_length_chars. eapply at_rune_le, positionOffset_boundary. Qed.

Lemma positionOffset_line text p : crlf text = true → no_carriage text (positionOffset text p) = true.
Proof.
  intros Hc. apply crlf_no_carriage; [done| |apply positionOffset_le].
  destruct (positionOffset_walk text p) as (pre & rest & k & Hl & -> & Hk & Hf & Hr). unfold after_carriage. rewrite Hl.
  apply at_rune_le in Hk. destruct k as [|k].
  - rewrite Nat.add_0_r. destruct (length pre) as [|i] eqn:Hlen; [done|]. rewrite lookup_app_l by lia.
    destruct Hr as [->|[->|(b & c & -> & Hnl)]]; [|done|].
    + destruct (pre !! i) as [c|] eqn:Hi; [|done]. apply not_true_iff_false. intros Hcr. rewrite app_nil_r in Hl.
      unfold crlf in Hc. rewrite Hl in Hc. destruct (crlf_lookup pre Hc i c Hi Hcr) as (d & Hd%lookup_lt_Some & _). lia.
    + rewrite length_app in Hlen. simpl in Hlen. replace i with (length b) by lia. rewrite lookup_app_r, Nat.sub_diag by lia. simpl.
      apply bool_decide_eq_true in Hnl as ->. done.
  - rewrite Nat.add_succ_r. rewrite lookup_app_r by lia. replace (length pre + k - length pre) with k by lia.
    destruct (rest !! k) as [c|] eqn:Hi; [|done].
    assert (take (S k) rest !! k = Some c) as Ht by (rewrite lookup_take_lt by lia; done).
    by apply (Forall_lookup_1 _ _ _ _ Hf) in Ht as [_ ?].
Qed.

(** Either side of an ASCII character is a boundary. *)
Lemma ascii_boundary text i c : chars text !! i = Some c → is_ascii c = true → at_rune text i = true ∧ at_rune text (S i) = true.
Proof.
  intros Hi Hc. unfold at_rune. rewrite string_length_chars. apply list_elem_of_split_length in Hi as (l1 & l2 & -> & ->).
  destruct (cross_ascii c l2 l1 Hc (length (l1 ++ c :: l2)) ltac:(done)) as (f & Hf & Hk). split.
  - replace (length l1) with (length l1 + 0) by lia. by rewrite Hk; destruct f.
  - replace (S (length l1)) with (length l1 + 1) by lia. rewrite Hk. destruct f as [|f]; [lia|]. cbn [at_rune_in].
    rewrite DecodeRune_ascii by done. simpl. by destruct f.
Qed.

(** C37: whatever bytes a document of less than 4 GiB holds, every position an editor sends, beyond
    the text or inside a surrogate pair included, leads to a boundary between
    two runes of the text; and the position computed for a boundary leads back
    to it, if no carriage return is before it on its line; so in a text with
    Unix or Windows line ends the place of a position keeps its position. *)
Theorem position_roundtrip (text : string) (Hshort : short text) :
  (∀ offset, at_rune text offset = true → no_carriage text offset = true → positionOffset text (offsetPosition text offset) = offset)
  ∧ (∀ p, at_rune text (positionOffset text p) = true ∧ positionOffset text p ≤ String.length text)
  ∧ (∀ p, crlf text = true → positionOffset text (offsetPosition text (positionOffset text p)) = positionOffset text p).
Proof.
  split; [by intros; apply position_offset|]. split.
  - intros p. split; [apply positionOffset_boundary|apply positionOffset_le].
  - intros p Hc. apply position_offset; [done|apply positionOffset_boundary|by apply positionOffset_line].
Qed.

(** A text with two bytes, three bytes and a surrogate pair to a character. *)
Definition sample_text : string :=
  of_chars (ascii_of_nat <$> [195; 169; 10; 226; 130; 172; 240; 157; 132; 158; 97; 13; 10; 98]).

Lemma position_roundtrip_witness :
  at_rune sample_text 10 = true ∧ no_carriage sample_text 10 = true ∧ crlf sample_text = true
  ∧ offsetPosition sample_text 10 = MkPosition 1 3 ∧ positionOffset sample_text (offsetPosition sample_text 10) = 10
  ∧ positionOffset sample_text (MkPosition 1 2) = 6
  ∧ positionOffset sample_text (offsetPosition sample_text (positionOffset sample_text (MkPosition 1 9))) = 11.
Proof.
  assert (short sample_text) as Hs by (vm_compute; done). destruct (position_roundtrip sample_text Hs) as (H1 & _ & H3).
  do 4 (split; [by vm_compute|]). split; [apply (H1 10); by vm_compute|]. split; [by vm_compute|].
  rewrite (H3 (MkPosition 1 9)); by vm_compute.
Defined.
