(* ===== verification/LanguageProofs.v ===== *)
(** What the language service offers (for Language.v): every completion stands
    at the cursor, replaces what was typed of its label, and the offers are
    sorted without repetition; the names an editor is warned about are those
    no document declares. *)
From S2P Require Import Prelude GoLib GoPath Blueprint Module Language Server PositionProofs.

(** ** Text *)

Lemma chars_substring s : ∀ a n, chars (String.substring a n s) = take n (drop a (chars s)).
Proof.
  induction s as [|c s IH]; intros [|a] [|n]; simpl; try done; f_equal; rewrite IH; done.
Qed.
Lemma chars_slice text a b : chars (slice text a b) = take (b - a) (drop a (chars text)).
Proof. apply chars_substring. Qed.

Definition after_dot (l : list ascii) : list ascii := match last_dot l with Some i => drop (S i) l | None => l end.

Lemma last_dot_None l : last_dot l = None ↔ "."%char ∉ l.
Proof.
  induction l as [|c l IH]; simpl; [by split; [intros _; apply not_elem_of_nil|]|]. rewrite not_elem_of_cons.
  destruct (last_dot l) eqn:E; [split; [done|]; intros [_ H]; by apply IH in H|]. case_decide; naive_solver.
Qed.

Lemma last_dot_Some l : ∀ i, last_dot l = Some i → l !! i = Some "."%char ∧ "."%char ∉ drop (S i) l.
Proof.
  induction l as [|c l IH]; intros i; simpl; [done|]. destruct (last_dot l) as [j|] eqn:E.
  - intros [= <-]. simpl. by apply IH.
  - case_decide; [|done]. intros [= <-]. simpl. split; [congruence|]. by apply last_dot_None.
Qed.

Lemma split_plain c s : c ∉ chars s → split_on c s = [s].
Proof.
  induction s as [|d s IH]; simpl; [done|]. rewrite not_elem_of_cons. intros [Hd Hs].
  rewrite (proj2 (Ascii.eqb_neq _ _)) by done. by rewrite IH.
Qed.

Lemma split_app c a b : split_on c (a +:+ String c b) = split_on c a ++ split_on c b.
Proof.
  induction a as [|d a IH].
  - change ("" +:+ String c b) with (String c b). simpl. by rewrite Ascii.eqb_refl.
  - change (String d a +:+ String c b) with (String d (a +:+ String c b)). simpl. rewrite IH. destruct (Ascii.eqb d c); [done|].
    assert (split_on c a ≠ []) by (destruct a; simpl; repeat case_match; done). by destruct (split_on c a).
Qed.

(** The last piece of [strings.Split] is what follows the last separator. *)
Lemma split_last s : last (split_on "."%char s) = Some (of_chars (after_dot (chars s))).
Proof.
  unfold after_dot. destruct (last_dot (chars s)) as [i|] eqn:D.
  - apply last_dot_Some in D as [Hi Hn]. apply take_drop_middle in Hi.
    assert (s = of_chars (take i (chars s)) +:+ String "." (of_chars (drop (S i) (chars s)))) as Hs.
    { apply chars_inj. rewrite chars_app. simpl. by rewrite !chars_of_chars, Hi. }
    rewrite Hs at 1. rewrite split_app, (split_plain _ (of_chars (drop _ _))) by (by rewrite chars_of_chars). by rewrite last_snoc.
  - apply last_dot_None in D. by rewrite split_plain, of_chars_chars.
Qed.

(** ** Completions *)

Section Offers.
Context `{Syntax} (text : string) (offset : nat).

(** Where a replaced fragment may begin: at the cursor, at a character of a
    reference, or after the quote that opens a label. *)
Definition starts (start : nat) : Prop :=
  start ≤ offset ∧ (start = offset ∨ (∃ c, chars text !! start = Some c ∧ reference_char c = true)
                    ∨ ∃ t, t ∈ LexConfig text ∧ tk_Type t = TokenOQuote ∧ tk_End t = start).

(** What is typed of a label: the fragment, or its last dotted piece. *)
Definition typed (start : nat) (prefix : string) : Prop :=
  prefix = slice text start offset ∨ last (split_on "."%char (slice text start offset)) = Some prefix.

Definition offered (cs : list Completion) : Prop := ∃ start values prefix build,
  cs = stringCompletions values prefix build ∧ starts start ∧ typed start prefix
  ∧ ∀ v, v ∈ values → Label (build v) = v ∧ Start (build v) = start ∧ End_ (build v) = offset.

Lemma uniqueSorted_elem v l : v ∈ uniqueSorted l ↔ v ∈ l.
Proof.
  unfold uniqueSorted. rewrite sorted_keys_elem. split.
  - intros [[] Hv%elem_of_list_to_map_2]. by apply list_elem_of_fmap in Hv as (? & [= ->] & ?).
  - intros Hv. apply not_eq_None_Some. rewrite <- not_elem_of_list_to_map. rewrite <- list_fmap_compose. intros Hn. apply Hn.
    apply list_elem_of_fmap. by exists v.
Qed.

Lemma offered_nil : offered [].
Proof.
  exists offset, [], "", (λ _, MkCompletion "" "" "" "" 0 0). split; [done|]. split; [by split; [|left]|]. split; [|by intros v ?%elem_of_nil].
  left. unfold slice. rewrite Nat.sub_diag. apply chars_inj. by rewrite chars_substring, take_0.
Qed.

Section Start.
Context (start : nat) (Hstart : starts start).

Lemma offer values prefix build : typed start prefix →
  (∀ v, Label (build v) = v ∧ Start (build v) = start ∧ End_ (build v) = offset) → offered (stringCompletions values prefix build).
Proof. intros Ht Hb. by exists start, values, prefix, build. Qed.

Lemma offer_fragment values build : (∀ v, Label (build v) = v ∧ Start (build v) = start ∧ End_ (build v) = offset) →
  offered (stringCompletions values (slice text start offset) build).
Proof. apply offer. by left. Qed.

(** The last piece of a fragment is what is typed. *)
Lemma offer_piece pieces values prefix build : split_on "."%char (slice text start offset) = pieces → last pieces = Some prefix →
  (∀ v, Label (build v) = v ∧ Start (build v) = start ∧ End_ (build v) = offset) → offered (stringCompletions values prefix build).
Proof. intros <- Hl. apply offer. by right. Qed.

Lemma offer_ports values metas output insert prefix : typed start prefix →
  offered (stringCompletions values prefix (λ name, portCompletion name (insert name) (metas name) output start offset)).
Proof. intros Ht. by apply offer. Qed.

Lemma contextCompletions_offered path : offered (contextCompletions path (slice text start offset) start offset).
Proof.
  eexists start, _, _, _. split; [done|]. split; [done|]. split; [by left|]. intros v Hv. cbv beta.
  apply list_elem_of_fmap in Hv as (f & -> & Hf).
  destruct (List.find _ _) as [g|] eqn:Hg.
  - apply find_some in Hg as [_ Hg%bool_decide_eq_true]. by rewrite Hg.
  - exfalso. apply list_elem_of_In in Hf. eapply find_none in Hg; [|done]. by apply bool_decide_eq_false in Hg.
Qed.

Lemma runtimeCompletions_offered m : offered (runtimeCompletions m (slice text start offset) start offset).
Proof.
  unfold runtimeCompletions. destruct (split_on _ _) as [|a [|b [|]]] eqn:E; try apply offered_nil. by eapply offer_piece.
Qed.

Lemma traversalCompletions_offered m direction : offered (traversalCompletions m (slice text start offset) direction start offset).
Proof.
  unfold traversalCompletions. destruct (split_on _ _) as [|root [|name rest]] eqn:E; try apply offered_nil.
  destruct rest as [|kind rest]; [by eapply offer_piece|]. destruct (_ !! name) as [p|]; [|apply offered_nil].
  destruct rest as [|port [|]]; [by eapply offer_piece| |apply offered_nil].
  repeat case_decide; try apply offered_nil; by eapply offer_piece.
Qed.

Lemma relativeOutputCompletions_offered m : offered (relativeOutputCompletions m text (slice text start offset) start offset).
Proof.
  unfold relativeOutputCompletions. destruct (edgeEndpointPorts _ _ _ _); [|apply offered_nil].
  destruct (split_on _ _) as [|a [|b [|]]] eqn:E; repeat case_match; simplify_eq; first [apply offered_nil|by eapply offer_piece].
Qed.

Lemma edgeInputLabelCompletions_offered m : offered (edgeInputLabelCompletions m text start offset).
Proof. unfold edgeInputLabelCompletions. destruct (edgeEndpointPorts _ _ _ _); [by apply offer_fragment|apply offered_nil]. Qed.
End Start.

Lemma traversalStart_le l o : traversalStart l o ≤ o.
Proof. induction o as [|o IH]; simpl; [done|]. repeat case_match; lia. Qed.

Lemma traversalStart_starts : starts (traversalStart (chars text) offset).
Proof.
  split; [apply traversalStart_le|]. clear. induction offset as [|o IH]; simpl; [by left|].
  destruct (chars text !! o) as [c|] eqn:Hc; [|by left]. destruct (reference_char c) eqn:Hr; [|by left].
  destruct IH as [->|IH]; [|by right]. right. left. by exists c.
Qed.

Lemma edgeInputLabelAt_starts path start : edgeInputLabelAt text offset path = Some start → starts start.
Proof.
  unfold edgeInputLabelAt. case_decide; [|done]. intros Hh. apply head_Some in Hh as [l Hl].
  assert (start ∈ omap (label_at text offset (contextTokens text)) (imap pair (contextTokens text))) as Hin by (rewrite Hl; left).
  apply list_elem_of_omap in Hin as ([i t] & Ht & Hlab). apply elem_of_lookup_imap in Ht as (j & u & [= <- <-] & Hu).
  unfold label_at in Hlab. cbn [fst snd] in Hlab. destruct (negb _ || _ || _) eqn:E; [done|].
  destruct (Nat.ltb offset (tk_End t)) eqn:Hlt; [done|]. apply Nat.ltb_ge in Hlt.
  cbv zeta in Hlab. destruct (Nat.leb _ _); [|done]. injection Hlab as <-. split; [done|].
  right. right. exists t. split; [|split; [|done]].
  - apply list_elem_of_lookup_2, list_elem_of_filter in Hu. by destruct Hu.
  - rewrite !orb_false_iff in E. destruct E as [[E _] _]. by apply negb_false_iff, bool_decide_eq_true in E.
Qed.
End Offers.

#[export] Hint Resolve offered_nil traversalStart_starts contextCompletions_offered runtimeCompletions_offered
  traversalCompletions_offered relativeOutputCompletions_offered edgeInputLabelCompletions_offered offer_fragment : terragraph.

Section Editor.
Context `{Syntax} (inspect : string → FileMode → result Schema) (FileModeForBinary : string → FileMode).
Context (IsBlueprintFilename : string → bool) (disk : Disk) (w : Workspace).

Lemma Complete_offered path offset :
  offered (Document disk w path) (Z.to_nat offset) (Complete inspect FileModeForBinary IsBlueprintFilename disk w path offset).
Proof.
  unfold Complete, Document. cbv zeta. set (text := document disk w (absolute disk path)). set (o := Z.to_nat offset).
  destruct (_ || _); [auto with terragraph|]. destruct (edgeInputLabelAt _ _ _) as [start|] eqn:E.
  { apply edgeInputLabelCompletions_offered. by eapply edgeInputLabelAt_starts. }
  destruct (literalAt _ _); [auto with terragraph|].
  pose proof (traversalStart_starts text o) as Hs.
  destruct (_ && bool_decide (directionAt text o = "type")); [by apply offer_fragment|].
  destruct (objectAttributeAt text o) as [attribute inside].
  destruct (_ && _); [by apply offer_fragment|].
  repeat (destruct (_ && _) || destruct inside || destruct (has_prefix _ "runtime.") || destruct (_ || _)); auto with terragraph.
Qed.
End Editor.

(** What an offer replaces, and its order. *)
Lemma stringCompletions_labels values prefix build : (∀ v, v ∈ values → Label (build v) = v) →
  Label <$> stringCompletions values prefix build = filter (λ v, has_prefix v prefix = true) (uniqueSorted values).
Proof.
  intros Hb. unfold stringCompletions. rewrite <- list_fmap_compose. rewrite <- (list_fmap_id (filter _ _)) at 2.
  apply list_fmap_ext. intros i v Hv%list_elem_of_lookup_2. apply list_elem_of_filter in Hv as [_ Hv]. apply Hb, uniqueSorted_elem, Hv.
Qed.

Lemma StronglySorted_filter {A} (R : relation A) (P : A → Prop) `{∀ x, Decision (P x)} l :
  StronglySorted R l → StronglySorted R (filter P l).
Proof.
  induction 1 as [|x l Hs IH Hx]; [constructor|]. rewrite filter_cons. case_decide; [|done].
  constructor; [done|]. apply Forall_forall. intros y [_ Hy]%list_elem_of_filter. by eapply Forall_forall in Hx.
Qed.

Lemma offered_sorted `{Syntax} text offset cs : offered text offset cs → StronglySorted str_lt (Label <$> cs).
Proof.
  intros (start & values & prefix & build & -> & _ & _ & Hb). rewrite stringCompletions_labels by (intros v Hv; by apply Hb in Hv as [? _]).
  apply StronglySorted_filter. unfold uniqueSorted. apply sorted_keys_sorted.
Qed.

Lemma has_dot_false s : has_dot s = false → "."%char ∉ chars s.
Proof.
  unfold has_dot. induction s as [|c s IH]; [by intros _ ?%elem_of_nil|]. cbn [contains chars]. intros [Hp Hc]%orb_false_iff.
  apply not_elem_of_cons. split; [|by apply IH]. intros <-. by destruct s.
Qed.

Lemma has_prefix_chars s p : has_prefix s p = true → ∃ l, chars s = chars p ++ l.
Proof. apply prefix_chars. Qed.

(** The start of a completion's edit: its own, or past the last dot typed. *)
Lemma edit_start text c offset : End_ c = offset →
  (completionEdit text c).1 = Start c ∧ last_dot (chars (slice text (Start c) offset)) = None
  ∨ ∃ i, last_dot (chars (slice text (Start c) offset)) = Some i ∧ (completionEdit text c).1 = S (Start c + i)
      ∧ i < offset - Start c ∧ chars text !! (Start c + i) = Some "."%char.
Proof.
  intros <-. unfold completionEdit. destruct (last_dot _) as [i|] eqn:D; [right|by left]. exists i.
  apply last_dot_Some in D as [Hi _]. rewrite chars_slice in Hi. apply lookup_take_Some in Hi as [Hi Hlt]. rewrite lookup_drop in Hi.
  repeat split; [simpl; lia|done|done].
Qed.

(** The edit of an offer replaces a prefix of its label. *)
Lemma offered_edit `{Syntax} text offset cs c : offered text offset cs → c ∈ cs →
  End_ c = offset ∧ starts text offset (Start c)
  ∧ (has_dot (Label c) = false → has_prefix (Label c) (slice text (completionEdit text c).1 offset) = true).
Proof.
  intros (start & values & prefix & build & -> & Hs & Ht & Hb) Hc.
  apply list_elem_of_fmap in Hc as (v & -> & [Hp Hv]%list_elem_of_filter). apply uniqueSorted_elem, Hb in Hv as (Hl & Hst & He).
  rewrite Hl, Hst, He. split; [done|]. split; [done|]. intros Hd%has_dot_false.
  apply prefix_chars in Hp as [l Hp]. apply prefix_chars.
  destruct (edit_start text (build v) offset He) as [[-> D]|(i & D & -> & Hi & _)]; rewrite Hst in *.
  - destruct Ht as [->|Ht]; [by exists l|]. rewrite split_last in Ht. injection Ht as <-. unfold after_dot in Hp. rewrite D, of_chars_chars in Hp. by exists l.
  - destruct Ht as [->|Ht].
    { exfalso. apply Hd. rewrite Hp. apply elem_of_app. left. apply last_dot_Some in D as [D _]. by eapply list_elem_of_lookup_2. }
    rewrite split_last in Ht. injection Ht as <-. unfold after_dot in Hp. rewrite D, chars_of_chars in Hp. exists l. rewrite Hp. f_equal.
    rewrite !chars_slice, skipn_firstn_comm, drop_drop. f_equal; [lia|]. f_equal. lia.
Qed.
