(* ===== verification/ServerProofs.v ===== *)
(** The language server keeps its editor right (for Server.v): the edit of
    every completion replaces what was typed up to the cursor, and after any
    sequence of notifications the service reads what the editor shows and the
    editor shows what the service finds. *)
From S2P Require Import Prelude GoLib GoPath Blueprint Module Language Server PositionProofs LanguageProofs.

(** ** Completions *)

Lemma reference_plain c : reference_char c = true → is_ascii c = true ∧ newline c = false ∧ carriage c = false.
Proof. destruct c as [[] [] [] [] [] [] [] []]; by vm_compute. Qed.

(** The HCL scanner ends the token of an opening quote with that quote. *)
Definition quotes_open `{Syntax} (text : string) : Prop := ∀ t, t ∈ LexConfig text → tk_Type t = TokenOQuote →
  ∃ i, tk_End t = S i ∧ chars text !! i = Some (ascii_of_nat 34).

Lemma after_plain text i c : chars text !! i = Some c → carriage c = false → after_carriage text (S i) = false.
Proof. simpl. by intros ->. Qed.

Lemma before_reference text i c : crlf text = true → chars text !! i = Some c → newline c = false → after_carriage text i = false.
Proof.
  intros Hc Hi Hn. destruct i as [|i]; [done|]. simpl. destruct (chars text !! i) as [d|] eqn:Hd; [|done].
  apply not_true_iff_false. intros Hcr. destruct (crlf_lookup _ Hc i d Hd Hcr) as (e & He & Hnl). congruence.
Qed.

Lemma ascii_after text i c : chars text !! i = Some c → is_ascii c = true → carriage c = false → crlf text = true →
  at_rune text (S i) = true ∧ no_carriage text (S i) = true.
Proof.
  intros Hi Ha Hc Hcr. destruct (ascii_boundary text i c Hi Ha) as [_ Hb]. split; [done|].
  apply crlf_no_carriage; [done|by eapply after_plain|]. apply lookup_lt_Some in Hi. rewrite string_length_chars. lia.
Qed.

(** Where an offer's edit starts a position can lead. *)
Lemma edit_boundary `{Syntax} text p c : crlf text = true → quotes_open text → End_ c = positionOffset text p →
  starts text (positionOffset text p) (Start c) →
  at_rune text (completionEdit text c).1 = true ∧ no_carriage text (completionEdit text c).1 = true
  ∧ (completionEdit text c).1 ≤ positionOffset text p.
Proof.
  intros Hcr Hq He [Hle Hs]. destruct (edit_start text c _ He) as [[-> _]|(i & _ & -> & Hi & Hdot)]; cycle 1.
  { destruct (ascii_after text (Start c + i) "."%char Hdot) as [? ?]; [done..|]. repeat split; [done|done|lia]. }
  split_and!; [| |done]; destruct Hs as [->|[(d & Hd & Hr)|(t & Ht & Hty & <-)]].
  - apply positionOffset_boundary.
  - apply reference_plain in Hr as (Ha & _ & _). by destruct (ascii_boundary text _ d Hd Ha).
  - destruct (Hq t Ht Hty) as (i & -> & Hi). by destruct (ascii_after text i _ Hi).
  - by apply positionOffset_line.
  - apply reference_plain in Hr as (_ & Hn & _). apply crlf_no_carriage; [done|by eapply before_reference|].
    apply lookup_lt_Some in Hd. rewrite string_length_chars. lia.
  - destruct (Hq t Ht Hty) as (i & -> & Hi). by destruct (ascii_after text i _ Hi).
Qed.

(** Every completion the server offers is an edit up to the cursor: the
    range it sends ends where the editor's position leads and starts no later,
    both positions lead back to the bytes they were computed from, what lies
    between them is the typed beginning of the label (of every label without a
    dot), and the offers are sorted without repetition, in every document with
    Unix or Windows line ends. *)
Theorem completion_edits_exact `{Syntax} `{URI} (inspect : string → FileMode → result Schema) (FileModeForBinary : string → FileMode)
    (IsBlueprintFilename : string → bool) (disk : Disk) (windows : bool) (s : server) (uri : string) (p : position) (items : list item) :
  let text := Document disk (sv_workspace s) (filePath windows uri) in
  short text → crlf text = true → quotes_open text →
  lsp_Completion inspect FileModeForBinary IsBlueprintFilename disk windows s uri p = Reply items →
  (∀ it, it ∈ items →
     positionOffset text (it_end it) = positionOffset text p
     ∧ positionOffset text (it_start it) ≤ positionOffset text p
     ∧ (has_dot (it_Label it) = false →
        has_prefix (it_Label it) (slice text (positionOffset text (it_start it)) (positionOffset text p)) = true))
  ∧ StronglySorted str_lt (it_Label <$> items).
Proof.
  intros text Hs Hcr Hq. unfold lsp_Completion. destruct (sv_shutdown s); [done|]. cbv zeta. fold text. intros [= <-].
  pose proof (Complete_offered inspect FileModeForBinary IsBlueprintFilename disk (sv_workspace s) (filePath windows uri)
                (Z.of_nat (positionOffset text p))) as Ho.
  fold text in Ho. rewrite Nat2Z.id in Ho. split.
  - intros it (c & -> & Hc)%list_elem_of_fmap. destruct (offered_edit _ _ _ c Ho Hc) as (He & Hst & Hp).
    destruct (edit_boundary text p c Hcr Hq He Hst) as (Hb & Hn & Hle). unfold lsp_item. destruct (completionEdit text c) as [start new].
    cbn [it_start it_end it_Label fst snd] in *. rewrite He. rewrite (position_offset text start Hs Hb Hn).
    rewrite (position_offset text (positionOffset text p) Hs); [by repeat split|apply positionOffset_boundary|by apply positionOffset_line].
  - apply offered_sorted in Ho. rewrite <- list_fmap_compose.
    erewrite list_fmap_ext; [exact Ho|]. intros i c _. simpl. unfold lsp_item. by destruct (completionEdit text c).
Qed.

(** A scanner and parser for one text: an edge block being typed. *)
Definition typed_edge : string := "edge {" +:+ String (ascii_of_nat 10) "  fr".
#[local] Instance sample_syntax : Syntax := {
  LexConfig text := if decide (text = typed_edge) then [MkToken TokenIdent "edge" 0 4; MkToken TokenOBrace "{" 5 6] else [];
  ParseStringLiteralToken _ := "";
  ParseConfig _ := (MkBody ∅ [], true);
  ParseBackendAddressError _ := None;
}.
#[local] Instance sample_uri : URI := {
  uri := string; uri_Parse s := if has_prefix s "file://" then Some s else None;
  Scheme _ := "file"; FsPathFor u _ := of_chars (drop 7 (chars u)); uri_File p := "file://" +:+ p;
}.
Definition sample_disk : Disk := MkDisk {["/w/a.hcl" := "on disk"]} (λ _, []) (λ p, p).
Definition no_inspection (dir : string) (mode : FileMode) : result Schema := Err (Errorf "no module" []).
Definition hcl_file (name : string) : bool := has_suffix name ".hcl".
Definition sample_session : list notification :=
  [Initialize ["file:///w"]; DidOpen "file:///w/a.hcl" "edge {"; DidChange "file:///w/a.hcl" [Some typed_edge]].
Definition sample_server : server :=
  (session no_inspection (λ _, TerraformFiles) hcl_file sample_disk false sample_session Serve).1.
Definition sample_items (p : position) : reply (list item) :=
  lsp_Completion no_inspection (λ _, TerraformFiles) hcl_file sample_disk false sample_server "file:///w/a.hcl" p.

Lemma completion_edits_exact_witness :
  short typed_edge ∧ crlf typed_edge = true ∧
  ∃ it, sample_items (MkPosition 1 4) = Reply [it] ∧ it_Label it = "from" ∧ it_NewText it = "from = node."
    ∧ positionOffset typed_edge (it_end it) = 11 ∧ positionOffset typed_edge (it_start it) = 9
    ∧ has_prefix (it_Label it) (slice typed_edge (positionOffset typed_edge (it_start it)) 11) = true.
Proof.
  assert (short typed_edge) as Hs by (vm_compute; done). split; [done|]. split; [by vm_compute|].
  destruct (sample_items (MkPosition 1 4)) as [|items] eqn:E; [by vm_compute in E|].
  pose proof (completion_edits_exact no_inspection (λ _, TerraformFiles) hcl_file sample_disk false sample_server "file:///w/a.hcl"
                (MkPosition 1 4) items Hs ltac:(by vm_compute)) as Hx. cbv zeta in Hx.
  destruct Hx as [Hx _]; [|exact E|].
  { intros t Ht Hty. vm_compute in Ht. exfalso. apply elem_of_cons in Ht as [->|[->|[]%elem_of_nil]%elem_of_cons]; done. }
  vm_compute in E. injection E as <-. eexists. split; [done|].
  destruct (Hx _ (list_elem_of_here _ _)) as (H1 & _ & H3).
  split; [done|]. split; [done|]. split; [rewrite <- H1 at 1; by vm_compute|]. split; [by vm_compute|].
  apply H3. by vm_compute.
Defined.

(** ** Sessions *)

Lemma concat_singles {A B} (f : A → list B) (g : A → B) l : (∀ x, x ∈ l → f x = [g x]) → concat (f <$> l) = g <$> l.
Proof.
  induction l as [|x l IH]; [done|]. intros Hf. rewrite !fmap_cons. cbn [concat]. rewrite (Hf x) by left.
  rewrite IH; [done|]. intros y Hy. apply Hf. by right.
Qed.

Definition shown_over (m : gmap string (list published)) (out : list publication) : gmap string (list published) :=
  foldl (λ m po, <[po.1 := po.2]> m) m out.
(** What the editor shows: the last publication of every document. *)
Definition shown (out : list publication) : gmap string (list published) := shown_over ∅ out.

Section Sync.
Context `{Syntax} `{URI} (inspect : string → FileMode → result Schema) (FileModeForBinary : string → FileMode).
Context (IsBlueprintFilename : string → bool) (disk : Disk) (windows : bool).

Notation publish := (publishDiagnostics inspect FileModeForBinary IsBlueprintFilename disk windows).
Notation handled := (handle inspect FileModeForBinary IsBlueprintFilename disk windows).

(** The documents the editor has open, with their texts, by whatever a URI
    stands for. *)
Definition open_step (key : string → string) (m : gmap string string) (n : notification) : gmap string string :=
  match n with
  | DidOpen uri text => <[key uri := text]> m
  | DidChange uri changes =>
    foldl (λ m change, match change with Some text => <[key uri := text]> m | None => m end) m changes
  | DidClose uri => delete (key uri) m
  | _ => m
  end.
Definition opened (key : string → string) (ns : list notification) : gmap string string := foldl (open_step key) ∅ ns.

(** By path, and by absolute path. *)
Notation path_of := (filePath windows).
Definition absolute_of (u : string) : string := dk_abs disk (path_of u).

(** The URI the server publishes a document's diagnostics to leads back to it,
    as that of an absolute path does. *)
Definition located (p : string) : Prop := path_of (uri_File p) = p.

(** The diagnostics of a document, as the editor gets them. *)
Definition found (w : Workspace) (path : string) : list published :=
  let text := Document disk w path in
  (λ i, MkPublished (offsetPosition text (df_Start i)) (offsetPosition text (df_End i)) (df_Message i))
    <$> Diagnose inspect FileModeForBinary IsBlueprintFilename disk w path.

(** The document of [p] was closed under a URI other than [x]. *)
Definition closed_otherwise (ns : list notification) (p x : string) : Prop := ∃ u, DidClose u ∈ ns ∧ path_of u = p ∧ u ≠ x.

Record tracked (ns : list notification) (s : server) (out : list publication) : Prop := {
  tr_client : sv_client s = true;
  tr_documents : sv_documents s = opened path_of ns;
  tr_overlay : ws_documents (sv_workspace s) = opened absolute_of ns;
  tr_shown x : default [] (shown out !! x) ≠ [] → ∃ p, x = uri_File p ∧ (is_Some (sv_documents s !! p) ∨ closed_otherwise ns p x);
}.
Definition up_to_date (s : server) (out : list publication) : Prop := (∀ p, is_Some (sv_documents s !! p) → located p) →
  ∀ p, is_Some (sv_documents s !! p) → shown out !! uri_File p = Some (found (sv_workspace s) p).

Lemma shown_app a b : shown (a ++ b) = shown_over (shown a) b.
Proof. unfold shown, shown_over. by rewrite foldl_app. Qed.

Lemma opened_snoc key ns n : opened key (ns ++ [n]) = open_step key (opened key ns) n.
Proof. unfold opened. by rewrite foldl_app. Qed.

(** Publishing shows what was computed for each path, and nothing elsewhere. *)
Lemma shown_each d l : ∀ m,
  ((∀ p, p ∈ l → located p) → ∀ p, p ∈ l → shown_over m ((λ p, (uri_File p, d p)) <$> l) !! uri_File p = Some (d p))
  ∧ (∀ x, shown_over m ((λ p, (uri_File p, d p)) <$> l) !! x = m !! x ∨ ∃ p, p ∈ l ∧ x = uri_File p).
Proof.
  unfold shown_over. induction l as [|q l IH]; intros m; [split; [by intros _ p ?%elem_of_nil|by left]|]. simpl.
  destruct (IH (<[uri_File q := d q]> m)) as [H1 H2]. split.
  - intros Hl p Hp. destruct (decide (p ∈ l)) as [Hin|Hout]; [apply H1; [intros r Hr; apply Hl; by right|done]|].
    apply elem_of_cons in Hp as [->|]; [|done]. destruct (H2 (uri_File q)) as [Hx|(r & Hr & Heq)]; [etrans; [exact Hx|by rewrite lookup_insert_eq]|].
    destruct Hout. rewrite <-(Hl q) by left. rewrite Heq. rewrite (Hl r) by (by right). done.
  - intros x. destruct (H2 x) as [Hx|(p & Hp & ->)]; [|right; exists p; split; [by right|done]].
    destruct (decide (x = uri_File q)) as [->|Hne]; [right; exists q; split; [by left|done]|left]. etrans; [exact Hx|by rewrite lookup_insert_ne].
Qed.

Lemma publish_each s : sv_client s = true → publish s =
  (λ p, (uri_File p, found (sv_workspace s) (path_of (uri_File p)))) <$> sorted_keys (sv_documents s).
Proof. intros Hc. apply concat_singles. intros p _. unfold publishDocumentDiagnostics. by rewrite Hc. Qed.

(** Publishing brings every open document up to date. *)
Lemma publish_tracked ns s out : tracked ns s out → tracked ns s (out ++ publish s) ∧ up_to_date s (out ++ publish s).
Proof.
  intros [Hc Hd Hw Hs]. rewrite publish_each by done.
  destruct (shown_each (λ p, found (sv_workspace s) (path_of (uri_File p))) (sorted_keys (sv_documents s)) (shown out)) as [H1 H2].
  rewrite <-shown_app in H1. split; [split; [done..|]|].
  - intros x. rewrite shown_app. destruct (H2 x) as [->|(p & Hp%sorted_keys_elem & ->)]; [apply Hs|]. intros _. exists p. by split; [|left].
  - intros Hl p Hp. rewrite H1; [by rewrite Hl| |by apply sorted_keys_elem]. intros q Hq%sorted_keys_elem. by apply Hl.
Qed.

Lemma closed_otherwise_later ns n p x : closed_otherwise ns p x → closed_otherwise (ns ++ [n]) p x.
Proof. intros (u & Hu & Hrest). exists u. split; [|done]. apply elem_of_app. by left. Qed.

(** Texts set for the paths of a server, with what is shown unchanged. *)
Lemma set_all_tracked u changes : ∀ s,
  let s' := foldl (λ s change, match change with Some whole => set_ disk windows s u whole | None => s end) s changes in
  sv_client s' = sv_client s ∧
  sv_documents s' = foldl (λ m change, match change with Some text => <[path_of u := text]> m | None => m end) (sv_documents s) changes ∧
  ws_documents (sv_workspace s') =
    foldl (λ m change, match change with Some text => <[absolute_of u := text]> m | None => m end) (ws_documents (sv_workspace s)) changes ∧
  ∀ p, is_Some (sv_documents s !! p) → is_Some (sv_documents s' !! p).
Proof.
  induction changes as [|[text|] changes IH]; intros s; simpl; [done| |by apply IH].
  destruct (IH (set_ disk windows s u text)) as (H1 & H2 & H3 & H4). split_and!; [done..|].
  intros p Hp. apply H4. simpl. destruct (decide (p = path_of u)) as [->|Hne]; [rewrite lookup_insert_eq; by eexists|by rewrite lookup_insert_ne].
Qed.

Lemma handle_tracked ns s out n s' r o : tracked ns s out → up_to_date s out → handled s n = (s', r, o) →
  tracked (ns ++ [n]) s' (out ++ o) ∧ up_to_date s' (out ++ o).
Proof.
  intros [Hc Hd Hw Hs] Hup.
  assert (∀ p x, is_Some (sv_documents s !! p) ∨ closed_otherwise ns p x → is_Some (sv_documents s !! p) ∨ closed_otherwise (ns ++ [n]) p x) as Hmono.
  { intros p x [?|?]; [by left|right; by apply closed_otherwise_later]. }
  assert (∀ s1, sv_client s1 = true → sv_documents s1 = sv_documents s → ws_documents (sv_workspace s1) = ws_documents (sv_workspace s) →
    open_step path_of (opened path_of ns) n = opened path_of ns → open_step absolute_of (opened absolute_of ns) n = opened absolute_of ns →
    tracked (ns ++ [n]) s1 (out ++ [])) as Hsame.
  { intros s1 H1 H2 H3 H4 H5. rewrite app_nil_r. split; [done|by rewrite opened_snoc, H4, H2|by rewrite opened_snoc, H5, H3|].
    intros x (p & -> & Hp)%Hs. exists p. split; [done|]. rewrite H2. by apply Hmono. }
  destruct n as [folders|u text|u changes|u| |]; cbn [handle].
  - destruct (sv_shutdown s); [intros [= <- <- <-]; split; [by apply Hsame|by rewrite app_nil_r]|].
    destruct folders; intros [= <- <- <-]; (split; [by apply Hsame|by rewrite app_nil_r]).
  - intros [= <- <- <-]. apply publish_tracked. pose proof (set_all_tracked u [Some text] s) as (H1 & H2 & H3 & H4). simpl in H1, H2, H3, H4.
    split; [done|by rewrite opened_snoc, <-Hd|by rewrite opened_snoc, <-Hw|]. intros x (p & -> & Hp)%Hs. exists p. split; [done|].
    destruct (Hmono p _ Hp) as [?|?]; [left; by apply H4|by right].
  - intros [= <- <- <-]. apply publish_tracked. pose proof (set_all_tracked u changes s) as (H1 & H2 & H3 & H4). cbv zeta in H1, H2, H3, H4.
    split; [by rewrite H1|by rewrite opened_snoc, H2, <-Hd|by rewrite opened_snoc, H3, <-Hw|]. intros x (p & -> & Hp)%Hs. exists p. split; [done|].
    destruct (Hmono p _ Hp) as [?|?]; [left; by apply H4|by right].
  - intros [= <- <- <-]. rewrite Hc, (assoc_L (++)). apply publish_tracked. split; [done|by rewrite opened_snoc, <-Hd|by rewrite opened_snoc, <-Hw|].
    intros x. rewrite shown_app. unfold shown_over. simpl. destruct (decide (x = u)) as [->|Hne]; [by rewrite lookup_insert_eq|].
    rewrite lookup_insert_ne by done. intros (p & -> & Hp)%Hs. exists p. split; [done|].
    destruct (decide (p = path_of u)) as [->|Hpu].
    + right. exists u. split; [apply elem_of_app; right; by left|]. by split.
    + rewrite lookup_delete_ne by done. by apply Hmono.
  - destruct (sv_shutdown s); intros [= <- <- <-]; (split; [by apply Hsame|by rewrite app_nil_r]).
  - intros [= <- <- <-]. split; [by apply Hsame|by rewrite app_nil_r].
Qed.

Lemma session_tracked ns : ∀ before s out, tracked before s out → up_to_date s out →
  let '(s', o) := foldl (λ sp n, let '(s, _, o) := handled sp.1 n in (s, sp.2 ++ o)) (s, out) ns in
  tracked (before ++ ns) s' o ∧ up_to_date s' o.
Proof.
  induction ns as [|n ns IH]; intros before s out Ht Hu; [by rewrite app_nil_r|]. simpl.
  destruct (handled s n) as [[s' r] o] eqn:Hh. destruct (handle_tracked _ _ _ _ _ _ _ Ht Hu Hh) as [Ht' Hu'].
  specialize (IH (before ++ [n]) s' (out ++ o) Ht' Hu'). by rewrite <-(assoc_L (++)) in IH.
Qed.

(** C38: whatever notifications an editor sends, with whatever URIs, the
    server's documents are those the editor has open, by their paths, and the
    service's overlays are the same by absolute path, so the service reads an
    open document as the editor last sent it and any other from the disk.  When
    the URI of every open document's path leads back to that path, the editor
    is shown, under that URI, the diagnostics of the current texts of all of
    them.  And it is shown diagnostics under no other URI than that of an open
    document's path, except where a document was closed under a URI spelled
    otherwise than that of its path. *)
Theorem editor_in_sync (ns : list notification) (s : server) (out : list publication) :
  session inspect FileModeForBinary IsBlueprintFilename disk windows ns Serve = (s, out) →
  sv_documents s = opened path_of ns ∧ ws_documents (sv_workspace s) = opened absolute_of ns
  ∧ (∀ p, Document disk (sv_workspace s) p =
       match opened absolute_of ns !! dk_abs disk p with Some text => text | None => default "" (dk_files disk !! dk_abs disk p) end)
  ∧ ((∀ p, is_Some (opened path_of ns !! p) → located p) →
     ∀ p, is_Some (opened path_of ns !! p) → shown out !! uri_File p = Some (found (sv_workspace s) p))
  ∧ (∀ x, default [] (shown out !! x) ≠ [] →
     ∃ p, x = uri_File p ∧ (is_Some (opened path_of ns !! p) ∨ ∃ u, DidClose u ∈ ns ∧ path_of u = p ∧ u ≠ x)).
Proof.
  intros Hs. assert (tracked [] Serve [] ∧ up_to_date Serve []) as [Ht0 Hu0] by (by split; [|intros _ p []]).
  pose proof (session_tracked ns [] Serve [] Ht0 Hu0) as Hi. unfold session in Hs. rewrite Hs in Hi. destruct Hi as [[_ Hd Hw Hsh] Hup].
  simpl in Hd, Hw, Hsh. unfold up_to_date in Hup. rewrite Hd in Hsh, Hup. split_and!; [done..| |done|done].
  intros p. unfold Document, document, absolute. by rewrite Hw.
Qed.
End Sync.

Definition closing_session : list notification := sample_session ++ [DidOpen "file:///w/b.hcl" "x"; DidClose "file:///w/b.hcl"; Shutdown].

Lemma sample_located p : located false p.
Proof.
  unfold located, filePath, filePathFor. cbn -[has_prefix String.append].
  unfold has_prefix. rewrite (proj2 (prefix_chars _ _)) by (exists (chars p); apply chars_app). cbn [Scheme FsPathFor sample_uri].
  rewrite decide_True, chars_app by done. apply of_chars_chars.
Qed.

Lemma editor_in_sync_witness :
  let '(s, out) := session no_inspection (λ _, TerraformFiles) hcl_file sample_disk false closing_session Serve in
  ws_documents (sv_workspace s) = {["/w/a.hcl" := typed_edge]}
  ∧ Document sample_disk (sv_workspace s) "/w/a.hcl" = typed_edge
  ∧ shown out !! "file:///w/a.hcl" = Some (found no_inspection (λ _, TerraformFiles) hcl_file sample_disk (sv_workspace s) "/w/a.hcl")
  ∧ default [] (shown out !! "file:///w/b.hcl") = [].
Proof.
  destruct (session _ _ _ _ _ closing_session Serve) as [s out] eqn:E.
  destruct (editor_in_sync no_inspection (λ _, TerraformFiles) hcl_file sample_disk false closing_session s out E)
    as (_ & Hw & Hd & Ho & Hc).
  split; [rewrite Hw; by vm_compute|]. split; [rewrite Hd; by vm_compute|]. split.
  - apply (Ho (λ p _, sample_located p) "/w/a.hcl"). exists typed_edge. by vm_compute.
  - destruct (default [] (shown out !! "file:///w/b.hcl")) as [|d ds] eqn:Hx; [done|exfalso].
    destruct (Hc "file:///w/b.hcl") as (p & Hp & Hor); [by rewrite Hx|].
    assert (p = "/w/b.hcl") as -> by (apply (f_equal (filePath false)) in Hp; rewrite sample_located in Hp; rewrite <-Hp; by vm_compute).
    destruct Hor as [[t Ht]|(u & Hu & _ & Hne)]; [by vm_compute in Ht|].
    unfold closing_session, sample_session in Hu. cbn [app] in Hu. repeat (apply elem_of_cons in Hu as [Hu|Hu]; [try discriminate Hu; by injection Hu|]).
    by apply elem_of_nil in Hu.
Defined.

(** On a host that lower-cases drive letters, a document opened and closed as
    C: is shown diagnostics under c: and they are withdrawn under C: only: the
    editor keeps those of a document it no longer has open. *)
Section Drive.
Definition bad_contract : Body :=
  MkBody ∅ [MkBlock "producer" ["m"] [] 0
    (MkBody ∅ [MkBlock "port" ["p"] [] 0
      (MkBody {["type" := MkAttribute "type" (MkRange 0 1) (MkExpr (MkRange 0 1) None false None [] None None)]} [])])].
#[local] Instance drive_syntax : Syntax := {
  LexConfig _ := []; ParseStringLiteralToken _ := ""; ParseConfig _ := (bad_contract, true); ParseBackendAddressError _ := None;
}.
#[local] Instance drive_uri : URI := {
  uri := string; uri_Parse s := if has_prefix s "file:///" then Some s else None;
  Scheme _ := "file"; uri_File p := "file:///" +:+ p;
  FsPathFor u _ := match drop 8 (chars u) with c :: rest => lower_byte c +:+ of_chars rest | [] => "" end;
}.

Example closed_drive_keeps_diagnostics :
  let '(s, out) := session no_inspection (λ _, TerraformFiles) hcl_file sample_disk true
                     [DidOpen "file:///C:/b.hcl" "x"; DidClose "file:///C:/b.hcl"] Serve in
  sv_documents s = ∅ ∧ shown out !! "file:///C:/b.hcl" = Some [] ∧
  (pb_message <$> default [] (shown out !! "file:///c:/b.hcl")) = ["Invalid contract type; use a Terraform type constraint"].
Proof. vm_compute. done. Qed.
End Drive.
