(* ===== verification/WorkspaceProofs.v ===== *)
(** What the language service warns about (for Language.v): its model of a
    workspace holds exactly the nodes its documents declare, overlays before
    files, so that it warns of a reference exactly when no document declares
    the node. *)
From S2P Require Import Prelude GoLib GoPath Blueprint Module Language.

(** A top-level node block with one label. *)
Definition node_block (name : string) (b : Block) : Prop := Type_ b = "node" ∧ only_label b = Some name.
Definition declares_node (name : string) (bs : list Block) : Prop := ∃ b, b ∈ bs ∧ node_block name b.

Section Model.
Context `{Syntax} (inspect : string → FileMode → result Schema) (FileModeForBinary : string → FileMode).
Context (IsBlueprintFilename : string → bool) (disk : Disk) (w : Workspace).

Notation add_block := (add_block inspect IsBlueprintFilename disk w).
Notation addBodyToModel := (addBodyToModel inspect IsBlueprintFilename disk w).
Notation model := (model inspect FileModeForBinary IsBlueprintFilename disk w).

Definition knows (m : workspaceModel) (name : string) : Prop := is_Some (nodes m !! name).

Lemma add_block_knows path modes fallback m b name :
  knows (add_block path modes fallback m b) name ↔ knows m name ∨ node_block name b.
Proof.
  unfold Language.add_block, node_block, knows. destruct (only_label b) as [label|]; [|naive_solver].
  destruct (decide (Type_ b = "node")) as [Hn|Hn]; [|repeat case_match; simpl; naive_solver].
  simpl. rewrite Hn. split.
  - intros [p [[<- _]|[_ Hp]]%lookup_insert_Some]; [by right|by left; exists p].
  - intros [Hm|[_ [= ->]]]; [|by rewrite lookup_insert_eq].
    destruct (decide (label = name)) as [->|Hne]; [by rewrite lookup_insert_eq|by rewrite lookup_insert_ne].
Qed.

Lemma declares_node_cons name b bs : declares_node name (b :: bs) ↔ node_block name b ∨ declares_node name bs.
Proof. unfold declares_node. setoid_rewrite elem_of_cons. naive_solver. Qed.

Lemma addBody_knows path modes fallback name body : ∀ m,
  knows (addBodyToModel path modes body fallback m) name ↔ knows m name ∨ declares_node name (blocks body).
Proof.
  destruct body as [attrs bs]. cbn [blocks Language.addBodyToModel].
  induction bs as [|b bs IH]; intros m; [unfold declares_node; set_solver|]. rewrite IH, declares_node_cons.
  destruct b as [type labels ranges open inner]. case_decide as Ht.
  - assert (¬ node_block name (MkBlock type labels ranges open inner)) by (intros [Hn _]; simpl in Hn; congruence).
    assert (∀ g label, knows (add_group m label g) name ↔ knows m name) by done.
    destruct labels as [|label [|]]; naive_solver.
  - rewrite add_block_knows. tauto.
Qed.

(** The bodies a document's model is collected from. *)
Definition workspace_bodies (path text : string) : list (string * Body) :=
  (λ f, (f, (ParseConfig (if decide (f = path) then text else document disk w f)).1)) <$> blueprintFiles IsBlueprintFilename disk w path.

Lemma model_knows path text name : knows (model path text) name ↔ ∃ fb, fb ∈ workspace_bodies path text ∧ declares_node name (blocks fb.2).
Proof.
  unfold model, knows. cbv zeta. cbn [with_runtimes nodes]. fold (workspace_bodies path text).
  set (d := foldl _ (MkDeclared _ _ _) _). set (fallback := if Nat.ltb 1 _ then _ else _). clearbody d fallback.
  generalize (workspace_bodies path text). intros bodies.
  enough (∀ m, knows (foldl (λ m fb, addBodyToModel fb.1 (dc_modes d) fb.2 fallback m) m bodies) name
               ↔ knows m name ∨ ∃ fb, fb ∈ bodies ∧ declares_node name (blocks fb.2)) as Hfold.
  { unfold knows in Hfold. rewrite Hfold. simpl. rewrite lookup_empty. split; [by intros [[]|]|by right]. }
  induction bodies as [|fb bodies IH]; intros m; simpl; [set_solver|]. rewrite IH, addBody_knows.
  setoid_rewrite elem_of_cons. naive_solver.
Qed.

Lemma model_at_top m text offset : List.find (λ b, bool_decide (ob_name b = "group")) (openBlocksAt text offset) = None →
  model_at m text offset = m.
Proof. unfold model_at. by intros ->. Qed.

(** The other warnings about a reference name a port or an end of an edge. *)
Lemma known_node_diagnostics direction name rng rest m p d : nodes m !! name = Some p →
  d ∈ nodeDiagnostics m direction (RootStep "node" :: AttrStep name rng :: rest) → has_prefix (df_Message d) "Unknown node " = false.
Proof.
  intros Hp. simpl. rewrite Hp. destruct rest as [|[|kind krng|] rest]; try by intros []%elem_of_nil.
  destruct (negb (mem kind _)) eqn:Hk; [by intros []%elem_of_nil|]. apply negb_false_iff, mem_true in Hk.
  assert (kind = "input" ∨ kind = "output") as Hkind by set_solver. intros [Hd|Hd]%elem_of_app.
  - unfold wrong_direction in Hd. destruct (_ || _) eqn:E; [|by apply elem_of_nil in Hd]. apply list_elem_of_singleton in Hd as ->.
    assert (direction = "from" ∨ direction = "to") as [->| ->]; [|done..].
    apply orb_true_iff in E as [[E%bool_decide_eq_true _]%andb_true_iff|[E%bool_decide_eq_true _]%andb_true_iff]; [by left|by right].
  - destruct rest as [|[|port prng|] rest]; try by apply elem_of_nil in Hd. destruct (_ && _); [|by apply elem_of_nil in Hd].
    apply list_elem_of_singleton in Hd as ->. by destruct Hkind as [-> | ->].
Qed.

(** Outside every group, the editor is warned that a referenced node is
    unknown exactly when no document of the directory declares it with a node
    block of one label, every document read as the editor shows it and as the
    disk has it otherwise. *)
Theorem unknown_node_exact (path text : string) (offset : nat) (direction name : string) (rng : Range) (rest : list step) :
  List.find (λ b, bool_decide (ob_name b = "group")) (openBlocksAt text offset) = None →
  diagnostic_at rng ("Unknown node " +:+ name)
    ∈ nodeDiagnostics (model_at (model path text) text offset) direction (RootStep "node" :: AttrStep name rng :: rest)
  ↔ ¬ ∃ fb, fb ∈ workspace_bodies path text ∧ declares_node name (blocks fb.2).
Proof.
  intros Htop. rewrite model_at_top by done. rewrite <- model_knows. unfold knows. generalize (model path text) as m. intros m.
  destruct (nodes m !! name) as [p|] eqn:Hp.
  - split; [|by intros []; exists p]. intros Hd. apply (known_node_diagnostics _ _ _ _ _ _ _ Hp) in Hd. by destruct name.
  - simpl. rewrite Hp. split; [by intros _ []|]. intros _. by left.
Qed.
End Model.

(** Two documents: one declares a node, the overlay of the other nothing. *)
Definition web_block : Block := MkBlock "node" ["web"] [MkRange 5 8] 10 (MkBody ∅ []).
#[local] Instance two_documents : Syntax := {
  LexConfig _ := [];
  ParseStringLiteralToken _ := "";
  ParseConfig text := (MkBody ∅ (if decide (text = "node web") then [web_block] else []), false);
  ParseBackendAddressError _ := None;
}.
Definition two_disk : Disk := MkDisk {["/w/a.hcl" := "node web"; "/w/b.hcl" := "node web"]} (λ _, [("a.hcl", false); ("b.hcl", false)]) (λ p, p).
Definition emptied : Workspace := SetDocument two_disk (NewWorkspace "/w") "/w/b.hcl" "".

Lemma unknown_node_exact_witness :
  let m := model (λ _ _, Err (Errorf "no module" [])) (λ _, TerraformFiles) (λ n, has_suffix n ".hcl") two_disk emptied "/w/b.hcl" "" in
  let said name := diagnostic_at (MkRange 0 1) ("Unknown node " +:+ name)
                     ∈ nodeDiagnostics (model_at m "" 0) "from" [RootStep "node"; AttrStep name (MkRange 0 1)] in
  ¬ said "web" ∧ said "db".
Proof.
  cbv zeta. split.
  - intros Hs. revert Hs. erewrite (unknown_node_exact _ _ (λ n, has_suffix n ".hcl") two_disk emptied "/w/b.hcl" "" 0 "from" "web") by done.
    intros Hn. apply Hn. exists ("/w/a.hcl", MkBody ∅ [web_block]). split; [vm_compute; by left|].
    exists web_block. split; [by left|done].
  - rewrite (unknown_node_exact _ _ (λ n, has_suffix n ".hcl") two_disk emptied "/w/b.hcl" "" 0 "from" "db") by done.
    intros ([f b] & Hf & c & Hc & _ & Hl). vm_compute in Hf.
    repeat (apply elem_of_cons in Hf as [Hf|Hf]; [injection Hf as -> ->; simpl in Hc; repeat (apply elem_of_cons in Hc as [->|Hc]; [done|]); by apply elem_of_nil in Hc|]).
    by apply elem_of_nil in Hf.
Defined.
