(* ===== verification/ObserveCommand.v ===== *)
(** The [status] and [output] commands (src/internal/cli/observe.go): their
    arguments, one observation per node, what is disclosed of an output, and
    what is printed.

    The session is what Observe.v describes; the command uses its names, its
    reads and its end.  Printing is a trace; [encoding/json] answers for the
    text of a value. *)
From stdpp Require Import pretty.
From S2P Require Import Prelude GoLib Blueprint Module Graph Values Observe Diagnose.

(** ** Documents *)

Record observedOutputDTO := MkOutputDTO { od_Sensitive : option bool; od_Redacted : bool; od_Value : option string }.

Record observationDTO := MkObservationDTO {
  oo_Node : string; oo_Runtime : string; oo_Status : string; oo_Backend : string; oo_Identity : string; oo_State : string;
  oo_Resources : option nat; oo_OutputCount : option nat; oo_Outputs : option (gmap string observedOutputDTO);
  oo_Diagnostics : list diagnosticDTO;
}.

Record observationResultDTO := MkObservationResult { or_Nodes : list observationDTO; or_Diagnostics : list diagnosticDTO }.

(** What the command does to the outside, in order. *)
Inductive printed := Stdout (text : string) | Stderr (text : string) | WroteJSON (result : observationResultDTO) | ClosedSession.

(** A session as the command sees it. *)
Record session_view := MkSessionView {
  sn_Names : string → result (list string); sn_Read : string → bool → Observation; sn_Close : option error;
}.

Class JSONEncoding := {
  Marshal : value → result string;
  MarshalRaw : string → string;
}.

Record observe_flags := MkObserveFlags { of_node : string; of_format : string; of_raw : bool; of_showSensitive : bool }.

Definition plain_dto (category code phase subject message remedy : string) : diagnosticDTO :=
  MkDTO (Diagnose.MkDiagnostic code phase subject message remedy category "error" "") None.

(** The observation's diagnostic has no category and no severity of its own. *)
Definition engine_diagnostic (d : Observe.Diagnostic) : Diagnose.Diagnostic :=
  Diagnose.MkDiagnostic (dg_Code d) (dg_Phase d) (dg_Subject d) (dg_Message d) (dg_Remedy d) "" "" "".

Definition rawScalar (v : value) : result string :=
  match v with
  | VString s => Ok s
  | VNumber s => Ok s
  | VBool b => Ok (if b then "true" else "false")
  | _ => Err (Errorf "--raw requires a string, number, or boolean; use text or JSON for collections and null" [])
  end.

Section Command.
Context `{JSONEncoding} (error_text : error → string) (write_error : option error) (print_error : string → option error).
Context (kind : string) (flags : observe_flags) (args : list string).

Definition status : bool := bool_decide (kind = "status").

(** [finish]: the session ends before the result is written. *)
Definition finish_observation (session : option session_view) (r : observationResultDTO) (err : option error) : list printed * option error :=
  let '(closed, r, err) :=
    match session with
    | None => ([], r, err)
    | Some s =>
      match sn_Close s with
      | None => ([ClosedSession], r, err)
      | Some closeErr =>
        ([ClosedSession],
         MkObservationResult (or_Nodes r) (or_Diagnostics r ++ [plain_dto "plugin" "plugin_cleanup_failed" "cleanup" kind "plugin cleanup failed" "inspect stderr and retained plugin receipts"]),
         join_errors err (Some closeErr))
      end
    end in
  if decide (of_format flags = "json")
  then (closed ++ [WroteJSON r], match write_error with Some writeErr => Some writeErr | None => err end)
  else (closed, err).

Definition failure (session : option session_view) (r : observationResultDTO) (code phase message remedy : string) : list printed * option error :=
  finish_observation session
    (MkObservationResult (or_Nodes r) (or_Diagnostics r ++ [plain_dto (categoryForPhase phase) code phase kind message remedy]))
    (Some (Errorf "%s: %s; %s" [FStr kind; FStr message; FStr remedy])).

(** Without an opt-in only a value known not to be sensitive is disclosed. *)
Definition hidden (o : RunOutput) : bool :=
  negb (of_showSensitive flags) && match ro_Sensitive o with None => true | Some sensitive => sensitive end.

(** A node's outputs are rendered in the order of their names: the document,
    what is printed of them, or the error that ends the command. *)
Record rendering := MkRendering { rd_dto : observationDTO; rd_printed : list printed }.

Definition failed_dto (d : observationDTO) (diag : diagnosticDTO) : observationDTO :=
  MkObservationDTO (oo_Node d) (oo_Runtime d) "failed" (oo_Backend d) (oo_Identity d) (oo_State d) (oo_Resources d) (oo_OutputCount d)
    (oo_Outputs d) (oo_Diagnostics d ++ [diag]).
Definition with_output (d : observationDTO) (key : string) (v : observedOutputDTO) : observationDTO :=
  MkObservationDTO (oo_Node d) (oo_Runtime d) (oo_Status d) (oo_Backend d) (oo_Identity d) (oo_State d) (oo_Resources d) (oo_OutputCount d)
    (Some (<[key := v]> (default ∅ (oo_Outputs d)))) (oo_Diagnostics d).

Definition raw_text (o : RunOutput) : result string :=
  if hidden o then Err (Errorf "value is sensitive or its sensitivity is unknown; pass --show-sensitive to disclose it" [])
  else rawScalar (ro_Value o).

Definition render_output (name : string) (r : rendering) (key : string) (o : RunOutput) : rendering * option error :=
  match (if hidden o then Ok None else Some <$> Marshal (ro_Value o)) with
  | Err err => (r, Some err)
  | Ok text =>
    let d := with_output (rd_dto r) key (MkOutputDTO (ro_Sensitive o) (hidden o) text) in
    if of_raw flags then
      match raw_text o with
      | Err rawErr =>
        (MkRendering (failed_dto d (plain_dto "arguments" "raw_unavailable" "render" ("node." +:+ name) (error_text rawErr)
                                      "request a scalar output with the required disclosure opt-in")) (rd_printed r), None)
      | Ok text => (MkRendering d (rd_printed r ++ [Stdout text]), print_error text)
      end
    else (MkRendering d (rd_printed r), None)
  end.

Fixpoint render_outputs (name : string) (outputs : RunOutputs) (keys : list string) (r : rendering) : rendering * option error :=
  match keys with
  | [] => (r, None)
  | key :: keys =>
    match outputs !! key with
    | None => render_outputs name outputs keys r
    | Some o => match render_output name r key o with
                | (r, None) => render_outputs name outputs keys r
                | stopped => stopped
                end
    end
  end.

(** The outputs asked for: all, or the one named. *)
Definition selected_outputs (outputs : RunOutputs) : RunOutputs * bool :=
  match args with
  | [key] => match outputs !! key with Some v => ({[key := v]}, true) | None => (∅, false) end
  | _ => (outputs, true)
  end.

Definition start_dto (name : string) (o : Observation) : observationDTO :=
  let d := MkObservationDTO name (ob_Runtime o) "observed" "" "" "" None None None [] in
  if status then MkObservationDTO name (ob_Runtime o) "observed" (ob_Backend o) (ob_Identity o) (ob_State o) None None None [] else d.

Definition render_node (name : string) (o : Observation) : rendering * option error :=
  let d := start_dto name o in
  match ob_Diagnostic o with
  | Some diag => (MkRendering (failed_dto d (diagnosticToDTO (engine_diagnostic diag))) [], None)
  | None =>
    if status then
      (MkRendering (MkObservationDTO name (ob_Runtime o) "observed" (ob_Backend o) (ob_Identity o) (ob_State o)
                      (Some (ob_Resources o)) (Some (ob_OutputCount o)) None []) [], None)
    else
      let d := MkObservationDTO name (ob_Runtime o) "observed" "" "" "" None None (Some ∅) [] in
      let '(outputs, found) := selected_outputs (default ∅ (ob_Outputs o)) in
      let d := if found : bool then d
               else failed_dto d (plain_dto "arguments" "output_not_found" "selection" ("node." +:+ name) "named output does not exist"
                                    "list this node's outputs without a positional name") in
      render_outputs name outputs (sorted_keys outputs) (MkRendering d [])
  end.

Definition line (text : string) : string := text +:+ String (ascii_of_nat 10) "".

Definition output_line (name key : string) (v : observedOutputDTO) : printed :=
  let rendered := if od_Redacted v then "(sensitive)" else MarshalRaw (default "null" (od_Value v)) in
  Stdout (line (name +:+ " " +:+ key +:+ " = " +:+ rendered)).

Definition text_lines (name : string) (o : Observation) (d : observationDTO) : list printed :=
  if bool_decide (of_format flags = "text") && negb (of_raw flags) && negb (bool_decide (oo_Status d = "failed")) then
    if status then
      [Stdout (line (name +:+ ": " +:+ oo_State d +:+ " (" +:+ oo_Runtime d +:+ ", " +:+ oo_Backend d +:+ "), "
                       +:+ pretty (ob_Resources o) +:+ " resources, " +:+ pretty (ob_OutputCount o) +:+ " outputs"))]
    else
      let outputs := default ∅ (oo_Outputs d) in
      match sorted_keys outputs with
      | [] => [Stdout (line (name +:+ ": no outputs"))]
      | keys => omap (λ key, output_line name key <$> outputs !! key) keys
      end
  else [].

Definition diagnostic_lines (name : string) (d : observationDTO) : list printed :=
  if decide (of_format flags = "json") then []
  else (λ t, let d := dto_diagnostic t in
             Stderr (line (name +:+ ": " +:+ Code d +:+ ": " +:+ Message d +:+ "; " +:+ Remedy d))) <$> oo_Diagnostics d.

(** Reads one after the other; an error of the output stream or of the encoder
    ends the command, and the deferred function ends the session. *)
Fixpoint observe_nodes (s : session_view) (names : list string) (nodes : list observationDTO) (failed : nat) : list printed * option error :=
  match names with
  | [] => finish_observation (Some s) (MkObservationResult nodes [])
            (if decide (failed = 0) then None else Some (Errorf "%s: %d node(s) failed" [FStr kind; FInt (Z.of_nat failed)]))
  | name :: names =>
    let o := sn_Read s name status in
    let '(r, stop) := render_node name o in
    match stop with
    | Some err => (rd_printed r ++ [ClosedSession], join_errors (Some err) (sn_Close s))
    | None =>
      let d := rd_dto r in
      let '(out, err) := observe_nodes s names (nodes ++ [d]) (if decide (oo_Status d = "failed") then S failed else failed) in
      (rd_printed r ++ text_lines name o d ++ diagnostic_lines name d ++ out, err)
    end
  end.

(** The arguments, in the order they are refused. *)
Definition refused_arguments : option (string * string) :=
  if negb (mem (of_format flags) ["text"; "json"]) then Some ("unknown output format", "choose text or json")
  else if (status && negb (bool_decide (args = []))) || Nat.ltb 1 (length args) || (Nat.eqb (length args) 1 && bool_decide (of_node flags = ""))
  then Some ("an output name requires exactly one --node", "use output --node NAME OUTPUT")
  else if of_raw flags && (bool_decide (of_format flags = "json") || negb (Nat.eqb (length args) 1) || bool_decide (of_node flags = ""))
  then Some ("--raw requires one named scalar and conflicts with --output json", "use output --node NAME OUTPUT --raw")
  else None.

(** [RunE]; [opened] is the session, or where the blueprint failed to load. *)
Definition observation_command (opened : option sourceLocationDTO + session_view) : list printed * option error :=
  let empty := MkObservationResult [] [] in
  match refused_arguments with
  | Some (message, remedy) => failure None empty "invalid_arguments" "arguments" message remedy
  | None =>
    match opened with
    | inl location =>
      finish_observation None
        (MkObservationResult [] [MkDTO (Diagnose.MkDiagnostic "observation_load_failed" "load" kind "could not load or lock the blueprint"
          "check blueprint syntax, source directories, and local lock availability" "configuration" "error" "") location])
        (Some (Errorf "%s: could not load or lock the blueprint; check syntax, source directories, and local lock availability" [FStr kind]))
    | inr s =>
      match sn_Names s (of_node flags) with
      | Err err => failure (Some s) empty "unknown_node" "selection" (error_text err) "select an exact expanded leaf"
      | Ok names => observe_nodes s names [] 0
      end
    end
  end.
End Command.
