(* ===== verification/DisclosureProofs.v ===== *)
(** What the [output] command discloses (for ObserveCommand.v): without the
    opt-in, nothing it prints, writes or returns depends on a value that is
    sensitive or of unknown sensitivity, and every session it opens it closes. *)
From S2P Require Import Prelude GoLib Blueprint Module Graph Values Observe Diagnose ObserveCommand.

(** What may be known of an output: its sensitivity, and its value if that is known not to be sensitive. *)
Definition public (o : RunOutput) : option bool * option value :=
  (ro_Sensitive o, if ro_Sensitive o is Some false then Some (ro_Value o) else None).

(** Two observations that differ in secrets only. *)
Record same_public (a b : Observation) : Prop := {
  pub_Runtime : ob_Runtime a = ob_Runtime b; pub_Backend : ob_Backend a = ob_Backend b; pub_Identity : ob_Identity a = ob_Identity b;
  pub_State : ob_State a = ob_State b; pub_Resources : ob_Resources a = ob_Resources b; pub_OutputCount : ob_OutputCount a = ob_OutputCount b;
  pub_Diagnostic : ob_Diagnostic a = ob_Diagnostic b;
  pub_Outputs : public <$> default ∅ (ob_Outputs a) = public <$> default ∅ (ob_Outputs b);
}.

Record same_session (s s' : session_view) : Prop := {
  ses_Names : ∀ node, sn_Names s node = sn_Names s' node;
  ses_Close : sn_Close s = sn_Close s';
  ses_Read : ∀ name status, same_public (sn_Read s name status) (sn_Read s' name status);
}.

(** The sessions ended in a trace. *)
Definition is_close (p : printed) : bool := match p with ClosedSession => true | _ => false end.
Definition closes (out : list printed) : nat := length (filter (λ p, is_close p = true) out).

Lemma sorted_keys_fmap {A B} (f : A → B) (m : gmap string A) : sorted_keys (f <$> m) = sorted_keys m.
Proof.
  unfold sorted_keys. apply sort_strings_unique. rewrite map_to_list_fmap, <- list_fmap_compose. done.
Qed.

Section Disclosure.
Context `{JSONEncoding} (error_text : error → string) (write_error : option error) (print_error : string → option error).
Context (kind : string) (flags : observe_flags) (args : list string) (Hhide : of_showSensitive flags = false).

Lemma public_hidden o o' : public o = public o' → hidden flags o = hidden flags o' ∧ (hidden flags o = false → ro_Value o = ro_Value o').
Proof.
  unfold public, hidden. rewrite Hhide. destruct (ro_Sensitive o) as [[]|], (ro_Sensitive o') as [[]|]; intros [= ]; by try congruence.
Qed.

Lemma render_output_public name r key o o' : public o = public o' →
  render_output error_text print_error flags name r key o = render_output error_text print_error flags name r key o'.
Proof.
  intros Hp. destruct (public_hidden o o' Hp) as [Hh Hv]. assert (ro_Sensitive o = ro_Sensitive o') as Hs by (unfold public in Hp; congruence).
  unfold render_output, raw_text. rewrite <- Hh, Hs. destruct (hidden flags o); [done|]. by rewrite Hv.
Qed.

Lemma render_outputs_public name keys outputs outputs' : public <$> outputs = public <$> outputs' → ∀ r,
  render_outputs error_text print_error flags name outputs keys r = render_outputs error_text print_error flags name outputs' keys r.
Proof.
  intros Hp. induction keys as [|key keys IH]; intros r; [done|]. simpl.
  pose proof (f_equal (lookup key) Hp) as Hk. rewrite !lookup_fmap in Hk.
  destruct (outputs !! key) as [o|], (outputs' !! key) as [o'|]; try done. injection Hk as Hs Hv.
  rewrite (render_output_public name r key o o') by (unfold public; congruence).
  destruct (render_output _ _ _ name r key o') as [r' [|]]; [done|apply IH].
Qed.

Lemma selected_public outputs outputs' : public <$> outputs = public <$> outputs' →
  public <$> (selected_outputs args outputs).1 = public <$> (selected_outputs args outputs').1
  ∧ (selected_outputs args outputs).2 = (selected_outputs args outputs').2.
Proof.
  intros Hp. unfold selected_outputs. destruct args as [|key [|]]; [done| |done].
  pose proof (f_equal (lookup key) Hp) as Hk. rewrite !lookup_fmap in Hk.
  destruct (outputs !! key) as [o|], (outputs' !! key) as [o'|]; try done. injection Hk as Hs Hv.
  split; [|done]. simpl. rewrite !map_fmap_singleton. unfold public. congruence.
Qed.

Lemma render_node_public name a b : same_public a b →
  render_node error_text print_error kind flags args name a = render_node error_text print_error kind flags args name b.
Proof.
  intros [Hr Hb Hi Hs Hn Hc Hd Ho]. unfold render_node, start_dto. rewrite Hr, Hb, Hi, Hs, Hn, Hc, Hd.
  destruct (ob_Diagnostic b); [done|]. destruct (status kind); [done|].
  apply selected_public in Ho as [Hm Hf]. destruct (selected_outputs args (default ∅ (ob_Outputs a))) as [m f], (selected_outputs args (default ∅ (ob_Outputs b))) as [m' f'].
  cbn [fst snd] in *. subst f'. rewrite <- (sorted_keys_fmap public m), Hm, sorted_keys_fmap. by apply render_outputs_public.
Qed.

Lemma text_lines_public name a b d : same_public a b → text_lines kind flags name a d = text_lines kind flags name b d.
Proof. intros [Hr Hb Hi Hs Hn Hc Hd Ho]. unfold text_lines. by rewrite Hn, Hc. Qed.

Lemma observe_nodes_public s s' names : same_session s s' → ∀ nodes failed,
  observe_nodes error_text write_error print_error kind flags args s names nodes failed
  = observe_nodes error_text write_error print_error kind flags args s' names nodes failed.
Proof.
  intros [Hn Hc Hr]. induction names as [|name names IH]; intros nodes failed; simpl.
  - unfold finish_observation. by rewrite Hc.
  - rewrite (render_node_public name _ _ (Hr name (status kind))). destruct (render_node _ _ _ _ _ _ _) as [r [err|]]; [by rewrite Hc|].
    rewrite IH. by rewrite (text_lines_public name _ _ (rd_dto r) (Hr name (status kind))).
Qed.
End Disclosure.

Section Closing.
Context `{JSONEncoding} (error_text : error → string) (write_error : option error) (print_error : string → option error).
Context (kind : string) (flags : observe_flags) (args : list string).

Lemma closes_app a b : closes (a ++ b) = closes a + closes b.
Proof. unfold closes. by rewrite filter_app, length_app. Qed.

Lemma finish_closes session r err :
  closes (finish_observation write_error kind flags session r err).1 = match session with Some _ => 1 | None => 0 end.
Proof. unfold finish_observation. destruct session as [s|]; [destruct (sn_Close s)|]; case_decide; done. Qed.

Definition quiet (out : list printed) : Prop := closes out = 0.

Lemma render_output_quiet name r key o : quiet (rd_printed r) →
  quiet (rd_printed (render_output error_text print_error flags name r key o).1).
Proof.
  intros Hr. unfold render_output. destruct (if hidden flags o then _ else _); [|done].
  destruct (of_raw flags); [|done]. destruct (raw_text flags o); [|done]. unfold quiet. cbn [fst rd_printed]. by rewrite closes_app, Hr.
Qed.

Lemma render_outputs_quiet name outputs keys : ∀ r, quiet (rd_printed r) →
  quiet (rd_printed (render_outputs error_text print_error flags name outputs keys r).1).
Proof.
  induction keys as [|key keys IH]; intros r Hr; [done|]. simpl. destruct (outputs !! key) as [o|]; [|by apply IH].
  pose proof (render_output_quiet name r key o Hr) as Hq. destruct (render_output _ _ _ _ _ _ _) as [r' [|]]; [done|by apply IH].
Qed.

Lemma render_node_quiet name o : quiet (rd_printed (render_node error_text print_error kind flags args name o).1).
Proof.
  unfold render_node. destruct (ob_Diagnostic o); [done|]. destruct (status kind); [done|].
  destruct (selected_outputs args _) as [outputs found]. by apply render_outputs_quiet.
Qed.

Lemma lines_quiet name o d : quiet (text_lines kind flags name o d ++ diagnostic_lines flags name d).
Proof.
  unfold quiet. rewrite closes_app. assert (closes (diagnostic_lines flags name d) = 0) as ->.
  { unfold diagnostic_lines. case_decide; [done|]. by induction (oo_Diagnostics d). }
  rewrite Nat.add_0_r. unfold text_lines. destruct (_ && _ && _); [|done]. destruct (status kind); [done|].
  destruct (sorted_keys _) as [|k ks]; [done|]. generalize (k :: ks). intros l. induction l as [|x l IH]; [done|]. simpl. by destruct (_ !! x).
Qed.

Lemma observe_nodes_closes s names : ∀ nodes failed,
  closes (observe_nodes error_text write_error print_error kind flags args s names nodes failed).1 = 1.
Proof.
  induction names as [|name names IH]; intros nodes failed; cbn [observe_nodes]; [by rewrite finish_closes|].
  pose proof (render_node_quiet name (sn_Read s name (status kind))) as Hq.
  destruct (render_node _ _ _ _ _ _ _) as [r [err|]]; cbn [fst rd_printed] in *; [by rewrite closes_app, Hq|].
  specialize (IH (nodes ++ [rd_dto r]) (if decide (oo_Status (rd_dto r) = "failed") then S failed else failed)).
  destruct (observe_nodes _ _ _ _ _ _ _ _ _ _) as [out err]. cbn [fst] in *.
  pose proof (lines_quiet name (sn_Read s name (status kind)) (rd_dto r)) as Hl. unfold quiet in *. rewrite closes_app in Hl.
  rewrite !closes_app, IH. lia.
Qed.
End Closing.

(** C39: without --show-sensitive, whatever the arguments and the format, two
    sessions that differ only in outputs that are sensitive or of unknown
    sensitivity make the [output] and [status] commands print, write and
    return the same: no byte of a secret reaches the terminal, the document or
    an error; and a command that opens a session ends it exactly once on every
    path, failures of the encoder and of the output stream included. *)
Theorem secrets_not_disclosed `{JSONEncoding} (error_text : error → string) (write_error : option error)
    (print_error : string → option error) (kind : string) (flags : observe_flags) (args : list string) (s s' : session_view) :
  of_showSensitive flags = false → same_session s s' →
  observation_command error_text write_error print_error kind flags args (inr s)
  = observation_command error_text write_error print_error kind flags args (inr s')
  ∧ (refused_arguments kind flags args = None →
     closes (observation_command error_text write_error print_error kind flags args (inr s)).1 = 1).
Proof.
  intros Hhide Hs. unfold observation_command, failure. destruct (refused_arguments kind flags args) as [[message remedy]|]; [done|].
  split.
  - rewrite (ses_Names _ _ Hs). destruct (sn_Names s' (of_node flags)); [by apply observe_nodes_public|].
    unfold finish_observation. by rewrite (ses_Close _ _ Hs).
  - intros _. destruct (sn_Names s (of_node flags)); [apply observe_nodes_closes|apply finish_closes].
Qed.

(** A node with a secret and a public output, read twice with different secrets. *)
#[local] Instance quoting : JSONEncoding := { Marshal v := match v with VString s => Ok s | _ => Ok "null" end; MarshalRaw s := s }.
Definition two_outputs (secret : string) : RunOutputs :=
  {["password" := MkRunOutput (VString secret) "" VNull (Some true); "region" := MkRunOutput (VString "eu") "" VNull (Some false)]}.
Definition secret_session (secret : string) : session_view :=
  MkSessionView (λ _, Ok ["db"])
    (λ name _, MkObservation name "tofu" "local" "" "observed" (Some (two_outputs secret)) 0 0 None) None.
Definition text_flags : observe_flags := MkObserveFlags "" "text" false false.

Lemma secrets_not_disclosed_witness :
  let run secret := observation_command (λ _, "") None (λ _, None) "output" text_flags [] (inr (secret_session secret)) in
  run "hunter2" = run "correct horse"
  ∧ run "hunter2" = ([Stdout (line "db password = (sensitive)"); Stdout (line "db region = eu"); ClosedSession], None)
  ∧ closes (run "hunter2").1 = 1.
Proof.
  cbv zeta. assert (same_session (secret_session "hunter2") (secret_session "correct horse")) as Hs.
  { split; [done..|]. intros name status. split; by vm_compute. }
  destruct (secrets_not_disclosed (λ _, "") None (λ _, None) "output" text_flags [] _ _ eq_refl Hs) as [He Hc].
  split; [exact He|]. split; [by vm_compute|]. by apply Hc.
Defined.
