(* ===== verification/Functions.v ===== *)
(** Plugin functions (src/internal/plugins/functions.go): the static sessions
    that evaluate a blueprint's expressions, the functions they add to the
    evaluation context, and what a call of one may return.

    The system and the packages answer; what the evaluation does to them is a
    trace.  A descriptor's types were checked when its package was resolved. *)
From S2P Require Import Prelude GoLib Cty Blueprint PluginPackage.

(** [sdk.Value] (plugin/protocol.go). *)
Record Wire := MkWire { wv_Type : string; wv_JSON : string; wv_Sensitive : bool }.

(** The JSON forms of types and values (ctyjson), and [cty.Type.Equals]. *)
Class CtyWire := {
  MarshalType : ctype → option string;
  MarshalValue : cvalue → ctype → option string;
  UnmarshalWireType : string → option ctype;
  UnmarshalWire : string → ctype → option cvalue;
  TypeEquals : ctype → ctype → bool;
}.

(** What an evaluation does to the outside, in order. *)
Inductive effect :=
  | StartedLifecycle | EmittedEvaluate | MadeWork (dir : string) | OpenedSession (alias : string)
  | EndedLifecycle | EndedSession (alias : string) | RemovedWork (dir : string).

(** [Evaluation]: what it owns, and the functions by name with the session and
    the feature each calls. *)
Record Evaluation := MkEvaluation {
  ev_Lifecycle : bool; ev_sessions : list string; ev_workDir : string; ev_Functions : gmap string (string * Feature);
}.
Definition no_evaluation : Evaluation := MkEvaluation false [] "" ∅.

Record evaluation_answers := MkEvaluationAnswers {
  ea_load : result (list PluginConfig * string);
  ea_resolve : PluginConfig → result Package;
  ea_lifecycle : result unit;
  ea_emit : result unit;
  ea_parent : result unit;
  ea_temp : result string;
  ea_work : string → result unit;
  ea_open : string → result unit;
  ea_configure : string → result unit;
  ea_end_lifecycle : option error;
  ea_remove : option error;
}.

Section Values_.
Context `{CtyWire}.

Definition EncodeValue (v : cvalue) (sensitive : bool) : option Wire :=
  t ← MarshalType (type_of v); j ← MarshalValue v (type_of v); Some (MkWire t j sensitive).

(** [Value.Cty]. *)
Definition WireCty (w : Wire) : option cvalue := t ← UnmarshalWireType (wv_Type w); UnmarshalWire (wv_JSON w) t.

(** The function of a feature, its session answering with a value or not. *)
Definition staticFunction (call : list Wire → result (option Wire)) (resultType : ctype) (args : list cvalue) : result cvalue :=
  match mapM (λ a, EncodeValue a false) args with
  | None => Err (Errorf "invalid function argument" [])
  | Some values =>
    response ← call values;
    match response with
    | None => Err (Errorf "plugin function must return a non-sensitive value" [])
    | Some w =>
      if wv_Sensitive w then Err (Errorf "plugin function must return a non-sensitive value" [])
      else match WireCty w with
           | Some v => if wholly_known v && TypeEquals (type_of v) resultType then Ok v
                       else Err (Errorf "plugin function returned an invalid value or type" [])
           | None => Err (Errorf "plugin function returned an invalid value or type" [])
           end
    end
  end.
End Values_.

Section Evaluate.
Context (a : evaluation_answers).

(** [Close]: the sessions end before their working files go. *)
Definition close_evaluation (e : Evaluation) : list effect * Evaluation * option error :=
  let lifecycleErr := if ev_Lifecycle e then ea_end_lifecycle a else None in
  let ended := (if ev_Lifecycle e then [EndedLifecycle] else []) ++ (EndedSession <$> ev_sessions e) in
  if decide (ev_workDir e = "") then (ended, MkEvaluation false (ev_sessions e) "" (ev_Functions e), lifecycleErr)
  else match ea_remove a with
       | Some err =>
         (ended ++ [RemovedWork (ev_workDir e)], MkEvaluation false (ev_sessions e) (ev_workDir e) (ev_Functions e),
          Some (Errorf "plugin cleanup %s: %w; remove the directory after confirming no invocation uses it" [FStr (ev_workDir e); FErr err]))
       | None => (ended ++ [RemovedWork (ev_workDir e)], MkEvaluation false (ev_sessions e) "" (ev_Functions e), lifecycleErr)
       end.

(** The evaluation so far, what it did, and the error that stopped it. *)
Definition progress : Type := list effect * Evaluation * option error.

Definition function_name (alias : string) (f : Feature) : string := alias +:+ "_" +:+ ft_Name f.

Definition add_function (alias : string) (functions : gmap string (string * Feature)) (f : Feature) : gmap string (string * Feature) + error :=
  if negb (bool_decide (ft_Kind f = "function")) then inl functions
  else match functions !! function_name alias f with
       | Some _ => inr (Errorf "plugin function %s is declared twice; change a plugin alias" [FStr (function_name alias f)])
       | None => inl (<[function_name alias f := (alias, f)]> functions)
       end.

Fixpoint add_functions (alias : string) (functions : gmap string (string * Feature)) (fs : list Feature)
    : gmap string (string * Feature) * option error :=
  match fs with
  | [] => (functions, None)
  | f :: fs => match add_function alias functions f with inl functions => add_functions alias functions fs | inr err => (functions, Some err) end
  end.

Definition has_functions (p : Package) : bool := existsb (λ f, bool_decide (ft_Kind f = "function")) (pk_Features p).

Definition evaluate_plugin (e : Evaluation) (c : PluginConfig) (p : Package) : progress :=
  if negb (has_functions p) then ([], e, None)
  else match ea_work a (pg_Name c) with
  | Err err => ([], e, Some err)
  | Ok _ =>
    match ea_open a (pg_Name c) with
    | Err err => ([], e, Some (Errorf "plugin.%s: %w" [FStr (pg_Name c); FErr err]))
    | Ok _ =>
      let e := MkEvaluation (ev_Lifecycle e) (ev_sessions e ++ [pg_Name c]) (ev_workDir e) (ev_Functions e) in
      match ea_configure a (pg_Name c) with
      | Err err => ([OpenedSession (pg_Name c)], e, Some (Errorf "plugin.%s.configure: %w" [FStr (pg_Name c); FErr err]))
      | Ok _ =>
        let '(functions, err) := add_functions (pg_Name c) (ev_Functions e) (pk_Features p) in
        ([OpenedSession (pg_Name c)], MkEvaluation (ev_Lifecycle e) (ev_sessions e) (ev_workDir e) functions, err)
      end
    end
  end.

Fixpoint evaluate_plugins (e : Evaluation) (l : list (PluginConfig * Package)) : progress :=
  match l with
  | [] => ([], e, None)
  | (c, p) :: l =>
    match evaluate_plugin e c p with
    | (evs, e, None) => let '(evs', e, err) := evaluate_plugins e l in (evs ++ evs', e, err)
    | stopped => stopped
    end
  end.

Definition resolve_packages (configs : list PluginConfig) : result (list (PluginConfig * Package)) :=
  mapM (λ c, p ← ea_resolve a c; Ok (c, p)) configs.

(** Everything after the declarations were loaded. *)
Definition start_evaluation (configs : list PluginConfig) : progress :=
  let stop (evs : list effect) (e : Evaluation) (err : error) : progress := (evs, e, Some err) in
  match resolve_packages configs with
  | Err err => stop [] no_evaluation err
  | Ok packages =>
    match ea_lifecycle a with
    | Err err => stop [] no_evaluation err
    | Ok _ =>
      let e := MkEvaluation true [] "" ∅ in
      match ea_emit a with
      | Err err => stop [StartedLifecycle; EmittedEvaluate] e err
      | Ok _ =>
        match ea_parent a with
        | Err err => stop [StartedLifecycle; EmittedEvaluate] e err
        | Ok _ =>
          match ea_temp a with
          | Err err => stop [StartedLifecycle; EmittedEvaluate] e err
          | Ok dir =>
            let '(evs, e, err) := evaluate_plugins (MkEvaluation true [] dir ∅) packages in
            ([StartedLifecycle; EmittedEvaluate; MadeWork dir] ++ evs, e, err)
          end
        end
      end
    end
  end.

(** [Evaluate]: a failure ends everything it started. *)
Definition Evaluate : list effect * result Evaluation :=
  match ea_load a with
  | Err err => ([], Err err)
  | Ok (configs, _) =>
    match configs with
    | [] => ([], Ok no_evaluation)
    | _ =>
      match start_evaluation configs with
      | (evs, e, None) => (evs, Ok e)
      | (evs, e, Some err) =>
        let '(evs', _, closeErr) := close_evaluation e in
        (evs ++ evs', Err (default err (join_errors (Some err) closeErr)))
      end
    end
  end.
End Evaluate.

(** ** What an evaluation owns *)

(** What is running and what is on the disk after a trace. *)
Record ledger := MkLedger { lg_sessions : list string; lg_dirs : list string; lg_lifecycle : bool }.
Definition nothing : ledger := MkLedger [] [] false.

Fixpoint remove_one (x : string) (l : list string) : list string :=
  match l with [] => [] | y :: l => if decide (x = y) then l else y :: remove_one x l end.

Definition account (g : ledger) (e : effect) : ledger :=
  match e with
  | StartedLifecycle => MkLedger (lg_sessions g) (lg_dirs g) true
  | EndedLifecycle => MkLedger (lg_sessions g) (lg_dirs g) false
  | EmittedEvaluate => g
  | MadeWork dir => MkLedger (lg_sessions g) (lg_dirs g ++ [dir]) (lg_lifecycle g)
  | RemovedWork dir => MkLedger (lg_sessions g) (remove_one dir (lg_dirs g)) (lg_lifecycle g)
  | OpenedSession alias => MkLedger (lg_sessions g ++ [alias]) (lg_dirs g) (lg_lifecycle g)
  | EndedSession alias => MkLedger (remove_one alias (lg_sessions g)) (lg_dirs g) (lg_lifecycle g)
  end.
Definition after (evs : list effect) (g : ledger) : ledger := foldl account g evs.

Definition work_dirs (e : Evaluation) : list string := if decide (ev_workDir e = "") then [] else [ev_workDir e].
Definition owned (e : Evaluation) : ledger := MkLedger (ev_sessions e) (work_dirs e) (ev_Lifecycle e).

(** Every function calls a function feature, under the name of both. *)
Definition functions_named (fs : gmap string (string * Feature)) : Prop :=
  ∀ name alias f, fs !! name = Some (alias, f) → name = function_name alias f ∧ ft_Kind f = "function".

Lemma after_app evs evs' g : after (evs ++ evs') g = after evs' (after evs g).
Proof. apply foldl_app. Qed.

Lemma after_ended ss dirs b : after (EndedSession <$> ss) (MkLedger ss dirs b) = MkLedger [] dirs b.
Proof. induction ss as [|s ss IH]; [done|]. simpl. by rewrite decide_True. Qed.

Section Owned.
Context (a : evaluation_answers).

(** Ending an evaluation ends all it owns. *)
Lemma close_ends e : after (close_evaluation a e).1.1 (owned e) = nothing.
Proof.
  unfold close_evaluation, owned, work_dirs.
  assert (∀ tl dirs, after (((if ev_Lifecycle e then [EndedLifecycle] else []) ++ (EndedSession <$> ev_sessions e)) ++ tl)
                       (MkLedger (ev_sessions e) dirs (ev_Lifecycle e)) = after tl (MkLedger [] dirs false)) as Hc.
  { intros tl dirs. rewrite !after_app. f_equal. destruct (ev_Lifecycle e); apply after_ended. }
  case_decide; [cbn [fst]; rewrite <- (app_nil_r (_ ++ _)); by rewrite Hc|].
  destruct (ea_remove a); cbn [fst]; rewrite Hc; simpl; by rewrite decide_True.
Qed.

Lemma add_functions_named alias fs : ∀ functions, functions_named functions → functions_named (add_functions alias functions fs).1.
Proof.
  induction fs as [|f fs IH]; intros functions Hf; [done|]. simpl. unfold add_function.
  destruct (negb _) eqn:Hk; [by apply IH|]. apply negb_false_iff, bool_decide_eq_true in Hk.
  destruct (functions !! function_name alias f) eqn:E; [done|]. apply IH.
  intros name al g [[<- [= <- <-]]|[_ Hg]]%lookup_insert_Some; [done|]. by eapply Hf.
Qed.

Lemma evaluate_plugin_owns e c p evs e' err : evaluate_plugin a e c p = (evs, e', err) → functions_named (ev_Functions e) →
  after evs (owned e) = owned e' ∧ functions_named (ev_Functions e').
Proof.
  intros He Hf. unfold evaluate_plugin in He. destruct (negb _); [by injection He as <- <- <-|].
  destruct (ea_work a _); [|by injection He as <- <- <-]. destruct (ea_open a _); [|by injection He as <- <- <-].
  destruct (ea_configure a _); [|by injection He as <- <- <-]. simpl in He.
  pose proof (add_functions_named (pg_Name c) (pk_Features p) _ Hf) as Hn.
  destruct (add_functions _ _ _) as [functions err']. by injection He as <- <- <-.
Qed.

Lemma evaluate_plugins_owns l : ∀ e evs e' err, evaluate_plugins a e l = (evs, e', err) → functions_named (ev_Functions e) →
  after evs (owned e) = owned e' ∧ functions_named (ev_Functions e').
Proof.
  induction l as [|[c p] l IH]; intros e evs e' err He Hf; simpl in He; [by injection He as <- <- <-|].
  destruct (evaluate_plugin a e c p) as [[evs1 e1] [err1|]] eqn:E1.
  { injection He as <- <- <-. by eapply evaluate_plugin_owns. }
  destruct (evaluate_plugin_owns _ _ _ _ _ _ E1 Hf) as [H1 H2].
  destruct (evaluate_plugins a e1 l) as [[evs2 e2] err2] eqn:E2. injection He as <- <- <-.
  destruct (IH _ _ _ _ E2 H2) as [H3 H4]. by rewrite after_app, H1.
Qed.

(** [os.MkdirTemp] returns a path. *)
Context (temp_named : ∀ dir, ea_temp a = Ok dir → dir ≠ "").

Lemma start_owns configs evs e err : start_evaluation a configs = (evs, e, err) →
  after evs nothing = owned e ∧ functions_named (ev_Functions e).
Proof.
  assert (functions_named ∅) as H0 by (intros name alias f Hl; by rewrite lookup_empty in Hl).
  unfold start_evaluation. destruct (resolve_packages a configs) as [packages|]; [|by intros [= <- <- <-]].
  destruct (ea_lifecycle a); [|by intros [= <- <- <-]]. destruct (ea_emit a); [|by intros [= <- <- <-]].
  destruct (ea_parent a); [|by intros [= <- <- <-]]. destruct (ea_temp a) as [dir|] eqn:Ht; [|by intros [= <- <- <-]].
  destruct (evaluate_plugins a _ packages) as [[evs' e'] err'] eqn:E. intros [= <- <- <-].
  destruct (evaluate_plugins_owns _ _ _ _ _ E H0) as [H1 H2]. split; [|done].
  change ([StartedLifecycle; EmittedEvaluate; MadeWork dir] ++ evs') with (StartedLifecycle :: EmittedEvaluate :: MadeWork dir :: evs').
  simpl. rewrite <- H1. unfold owned, work_dirs. simpl. by rewrite decide_False by (by apply temp_named).
Qed.

(** A failed evaluation of a blueprint's plugins ends every session and the
    lifecycle it started and removes the working directory it made; what a
    successful one has started is what it owns, and its [Close] ends all of
    it, whatever fails on the way; and the functions it adds to the evaluation
    context are function features, each under the name of its alias and
    feature, so that no two calls share a name. *)
Theorem evaluation_owns :
  match Evaluate a with
  | (evs, Err _) => after evs nothing = nothing
  | (evs, Ok e) => after (evs ++ (close_evaluation a e).1.1) nothing = nothing ∧ functions_named (ev_Functions e)
  end.
Proof.
  assert (functions_named ∅) as H0 by (intros name alias f Hl; by rewrite lookup_empty in Hl).
  unfold Evaluate. destruct (ea_load a) as [[configs dir]|]; [|done]. destruct configs as [|c configs]; [done|].
  destruct (start_evaluation a (c :: configs)) as [[evs e] err] eqn:E. destruct (start_owns _ _ _ _ E) as [H1 H2].
  destruct err as [err|]; [|by rewrite after_app, H1, close_ends].
  pose proof (close_ends e) as Hc. destruct (close_evaluation a e) as [[evs' e'] closeErr]. by rewrite after_app, H1.
Qed.
End Owned.

(** What a function returns is known, public and of the declared type. *)
Lemma staticFunction_value `{CtyWire} call resultType args v : staticFunction call resultType args = Ok v →
  wholly_known v = true ∧ TypeEquals (type_of v) resultType = true
  ∧ ∃ values w, mapM (λ x, EncodeValue x false) args = Some values ∧ call values = Ok (Some w) ∧ wv_Sensitive w = false ∧ WireCty w = Some v.
Proof.
  unfold staticFunction. destruct (mapM _ args) as [values|] eqn:Hv; [|done]. destruct (call values) as [[w|]|] eqn:Hc; simpl; try done.
  destruct (wv_Sensitive w) eqn:Hs; [done|]. destruct (WireCty w) as [v'|] eqn:Hw; [|done].
  destruct (_ && _) eqn:E; [|done]. intros [= ->]. apply andb_true_iff in E as [? ?]. repeat split; [done..|]. by exists values, w.
Qed.
