(* ===== verification/RunLock.v ===== *)
(** The process lock of a blueprint (src/internal/runlock): opening the lock
    file, the non-blocking attempt, the wait that a cancellation ends, and the
    release.

    The operating system's advisory lock on a file belongs to an open file;
    its answers are given, and what is done to files is a trace.  Closing a
    file gives up a lock still held through it. *)
From S2P Require Import Prelude GoLib GoPath.

Inductive lock_event := MadeLockDir | OpenedFile | LockedFile | UnlockedFile | ClosedFile | Notice.

(** An answer of [flock]: done, interrupted by a signal, held by another process, or failed. *)
Inductive flock_answer := FlockDone | FlockInterrupted | FlockHeld | FlockFailed (err : error).

Definition ErrHeld : error := Sentinel "another terragraph process is using this blueprint".

(** [lock]: interrupted calls are repeated; [answers] are those of the calls in order. *)
Fixpoint flock_lock (nonblocking : bool) (answers : list flock_answer) : result unit :=
  match answers with
  | [] => Err (External "no answer")
  | FlockInterrupted :: answers => flock_lock nonblocking answers
  | FlockHeld :: _ => if nonblocking then Err ErrHeld else Err (Errorf "acquiring lock: %w" [FErr (External "EWOULDBLOCK")])
  | FlockFailed err :: _ => Err (Errorf "acquiring lock: %w" [FErr err])
  | FlockDone :: _ => Ok tt
  end.

Fixpoint flock_unlock (answers : list flock_answer) : option error :=
  match answers with
  | [] => Some (External "no answer")
  | FlockInterrupted :: answers => flock_unlock answers
  | FlockDone :: _ => None
  | FlockHeld :: _ => Some (Errorf "releasing lock: %w" [FErr (External "EWOULDBLOCK")])
  | FlockFailed err :: _ => Some (Errorf "releasing lock: %w" [FErr err])
  end.

(** The answers of one attempt. *)
Record attempt := MkAttempt {
  at_mkdir : option error; at_open : option error; at_flock : list flock_answer; at_unlock : list flock_answer; at_close : option error;
}.

Section Lock.
Context (baseDir : string).

Definition openLock (a : attempt) : list lock_event * option error :=
  if decide (baseDir = "") then ([], Some (Errorf "empty blueprint directory" []))
  else match at_mkdir a with
       | Some err => ([], Some (Errorf "creating lock directory: %w" [FErr err]))
       | None =>
         match at_open a with
         | Some err => ([MadeLockDir], Some (Errorf "opening lock file %s: %w" [FStr (Join [baseDir; ".terragraph"; "lock"]); FErr err]))
         | None => ([MadeLockDir; OpenedFile], None)
         end
       end.

Definition acquire (a : attempt) (nonblocking : bool) : list lock_event * result unit :=
  match openLock a with
  | (evs, Some err) => (evs, Err err)
  | (evs, None) =>
    match flock_lock nonblocking (at_flock a) with
    | Err err => (evs ++ [ClosedFile], Err err)
    | Ok _ => (evs ++ [LockedFile], Ok tt)
    end
  end.

Definition TryAcquire (a : attempt) : list lock_event * result unit := acquire a true.

(** [Close]: the file is closed whether or not it could be unlocked. *)
Definition CloseLock (a : attempt) : list lock_event * option error :=
  match flock_unlock (at_unlock a) with
  | Some err => ([ClosedFile], Some err)
  | None => ([UnlockedFile; ClosedFile], at_close a)
  end.

(** One turn of the loop: the context before and after the attempt, and how the wait ends. *)
Record turn := MkTurn { tn_before : option error; tn_attempt : attempt; tn_after : option error; tn_wait : option error }.

(** [AcquireContext]; [noticed]: the ticker exists; [None]: it still waits
    when the turns end. *)
Fixpoint AcquireContext (writer noticed : bool) (turns : list turn) : list lock_event * option (result unit) :=
  match turns with
  | [] => ([], None)
  | t :: turns =>
    match tn_before t with
    | Some err => ([], Some (Err err))
    | None =>
      match TryAcquire (tn_attempt t) with
      | (evs, Ok _) =>
        match tn_after t with
        | Some err => (evs ++ (CloseLock (tn_attempt t)).1, Some (Err err))
        | None => (evs, Some (Ok tt))
        end
      | (evs, Err err) =>
        if decide (error_is "another terragraph process is using this blueprint" err = false) then (evs, Some (Err err))
        else
          let told := if negb noticed && writer then [Notice] else [] in
          match tn_wait t with
          | Some err => (evs ++ told, Some (Err err))
          | None => let '(evs', r) := AcquireContext writer true turns in (evs ++ told ++ evs', r)
          end
      end
    end
  end.
End Lock.

(** ** What an acquisition leaves behind *)

(** The files open and whether one is locked: closing gives up the lock. *)
Definition file_step (s : nat * bool) (e : lock_event) : nat * bool :=
  match e with
  | OpenedFile => (S s.1, s.2)
  | LockedFile => (s.1, true)
  | UnlockedFile => (s.1, false)
  | ClosedFile => (s.1 - 1, false)
  | MadeLockDir | Notice => s
  end.
Definition files (evs : list lock_event) : nat * bool := foldl file_step (0, false) evs.
Definition notices (evs : list lock_event) : nat := length (filter (λ e, match e with Notice => true | _ => false end = true) evs).

Lemma files_app a b : files a = (0, false) → files (a ++ b) = files b.
Proof. unfold files. rewrite foldl_app. by intros ->. Qed.
Lemma notices_app a b : notices (a ++ b) = notices a + notices b.
Proof. unfold notices. by rewrite filter_app, length_app. Qed.

Lemma TryAcquire_files baseDir a :
  notices (TryAcquire baseDir a).1 = 0
  ∧ files (TryAcquire baseDir a).1 = if is_ok (TryAcquire baseDir a).2 then (1, true) else (0, false).
Proof.
  unfold TryAcquire, acquire, openLock. repeat case_decide; [done|].
  destruct (at_mkdir a); [done|]. destruct (at_open a); [done|]. by destruct (flock_lock _ _).
Qed.

Lemma CloseLock_files baseDir a : is_ok (TryAcquire baseDir a).2 = true →
  files ((TryAcquire baseDir a).1 ++ (CloseLock a).1) = (0, false) ∧ notices (CloseLock a).1 = 0.
Proof.
  intros Hok. destruct (TryAcquire_files baseDir a) as [_ Hf]. rewrite Hok in Hf. unfold files in *. rewrite foldl_app, Hf.
  unfold CloseLock. by destruct (flock_unlock _).
Qed.

(** However long it waits and however it ends, an acquisition that returns a
    lock has one file open and locked, one that fails or is cancelled, the
    moment after it got the lock included, has none, and it says at most once
    that it waits. *)
Theorem lock_accounted baseDir writer turns : ∀ noticed,
  let '(evs, r) := AcquireContext baseDir writer noticed turns in
  files evs = (match r with Some (Ok _) => (1, true) | _ => (0, false) end)
  ∧ notices evs ≤ if noticed then 0 else 1.
Proof.
  induction turns as [|t turns IH]; intros noticed; simpl; [split; [done|apply Nat.le_0_l]|]. destruct (tn_before t); [split; [done|apply Nat.le_0_l]|].
  destruct (TryAcquire_files baseDir (tn_attempt t)) as [Hn Hf].
  pose proof (CloseLock_files baseDir (tn_attempt t)) as Hc.
  destruct (TryAcquire baseDir (tn_attempt t)) as [evs [u|err]]; cbn [fst snd is_ok] in *.
  - destruct (tn_after t); [|rewrite Hn; split; [done|apply Nat.le_0_l]]. destruct (Hc eq_refl) as [-> Hz]. rewrite notices_app, Hn, Hz. split; [done|apply Nat.le_0_l].
  - case_decide; [rewrite Hn; split; [done|apply Nat.le_0_l]|].
    assert (files (if negb noticed && writer then [Notice] else []) = (0, false)) as Ht by (by destruct noticed, writer).
    assert (notices (if negb noticed && writer then [Notice] else []) ≤ if noticed then 0 else 1) as Hnt by (destruct noticed, writer; vm_compute; lia).
    destruct (tn_wait t).
    + rewrite files_app, notices_app, Hn by done. split; [done|lia].
    + specialize (IH true). destruct (AcquireContext baseDir writer true turns) as [evs' r]. destruct IH as [IHf IHn].
      rewrite !files_app, !notices_app, Hn by done. split; [done|]. lia.
Qed.
