(* ===== verification/Views.v ===== *)
(** What the command line shows of a graph, a selection, a plan and a run
    (src/internal/cli/selection.go, plan_review.go, output.go,
    execution_records.go, with src/internal/graph/dot.go): the documents of
    --output json and the lines of the text form.

    [fmt]'s quoting is a parameter; [text]s and errors are rendered by the
    functions given. *)
From stdpp Require Import pretty.
From S2P Require Import Prelude GoLib Blueprint Module Graph Backend Selection Gate Execution Diagnose.

(** ** Graphviz (graph/dot.go) *)

Section Dot.
Context (Quote : string → string).

Definition dot_line (s : string) : string := s +:+ newline.

Definition dot_edge (e : Edge) : string :=
  let ends := "  " +:+ Quote (pr_Node (e_From e)) +:+ " -> " +:+ Quote (pr_Node (e_To e)) in
  if IsDataEdge e then dot_line (ends +:+ " [label=" +:+ Quote (pr_Name (e_From e) +:+ " -> " +:+ pr_Name (e_To e)) +:+ "];")
  else dot_line (ends +:+ " [style=dashed];").

Definition DOT (g : Graph) : string :=
  dot_line "digraph terragraph {" +:+ dot_line "  rankdir=LR;"
  +:+ join ((λ name, dot_line ("  " +:+ Quote name +:+ ";")) <$> sorted_keys (g_Nodes g)) ""
  +:+ join (dot_edge <$> g_Edges g) "" +:+ dot_line "}".

Definition selection_edges (s : Selection) : list Edge := default [] (sel_BoundaryEdges s).

(** The selected nodes and those at the other end of a boundary edge. *)
Definition visible_nodes (s : Selection) : list string :=
  sorted_keys (list_to_map ((λ n, (n, tt)) <$> (Names s ++ concat ((λ e, [pr_Node (e_From e); pr_Node (e_To e)]) <$> selection_edges s))) : gmap string unit).

Definition selection_node (s : Selection) (name : string) : string :=
  if mem name (Names s) then dot_line ("  " +:+ Quote name +:+ " [color=black];")
  else dot_line ("  " +:+ Quote name +:+ " [color=gray, fontcolor=gray, label=" +:+ Quote (name +:+ " (not selected)") +:+ "];").

Definition selection_edge (s : Selection) (e : Edge) : option string :=
  let from := mem (pr_Node (e_From e)) (Names s) in
  let to := mem (pr_Node (e_To e)) (Names s) in
  if negb from && negb to then None
  else
    let style := if IsDataEdge e then "solid" else "dashed" in
    let label := if IsDataEdge e then pr_Name (e_From e) +:+ " -> " +:+ pr_Name (e_To e) else "ordering" in
    let boundary := negb (Bool.eqb from to) in
    Some (dot_line ("  " +:+ Quote (pr_Node (e_From e)) +:+ " -> " +:+ Quote (pr_Node (e_To e)) +:+ " [style=" +:+ style +:+ ", color="
                      +:+ (if boundary then "gray" else "black") +:+ ", label="
                      +:+ Quote (label +:+ (if boundary then " (not selected boundary)" else "")) +:+ "];")).

Definition SelectionDOT (g : Graph) (selection : option Selection) : string :=
  match selection with
  | None => DOT g
  | Some s =>
    dot_line "digraph terragraph {" +:+ dot_line "  rankdir=LR;"
    +:+ dot_line ("  label=" +:+ dquote +:+ "selected: black; not selected: gray (context only)" +:+ dquote +:+ ";")
    +:+ join (selection_node s <$> visible_nodes s) "" +:+ join (omap (selection_edge s) (g_Edges g)) "" +:+ dot_line "}"
  end.
End Dot.

(** ** Selections (cli/selection.go) *)

Record selectionPortDTO := MkPortDTO { sp_Node : string; sp_Output : string; sp_Input : string }.
Record selectionEdgeDTO := MkEdgeDTO { se_Kind : string; se_From : selectionPortDTO; se_To : selectionPortDTO }.
Record selectionNodeDTO := MkNodeDTO { sd_Node : string; sd_Reason : string; sd_Via : list string }.
Record selectionDTO := MkSelectionDTO {
  so_SchemaVersion : Z; so_Mode : string; so_Requested : list string; so_Nodes : list selectionNodeDTO; so_BoundaryEdges : list selectionEdgeDTO;
}.

Definition edge_dto (e : Edge) : selectionEdgeDTO :=
  if IsDataEdge e
  then MkEdgeDTO "data" (MkPortDTO (pr_Node (e_From e)) (pr_Name (e_From e)) "") (MkPortDTO (pr_Node (e_To e)) "" (pr_Name (e_To e)))
  else MkEdgeDTO "ordering" (MkPortDTO (pr_Node (e_From e)) "" "") (MkPortDTO (pr_Node (e_To e)) "" "").

Definition selectionToDTO (s : option Selection) : option selectionDTO :=
  (λ s, MkSelectionDTO (sel_SchemaVersion s) (sel_Mode s) (sel_Requested s)
          ((λ n, MkNodeDTO (sn_Node n) (sn_Reason n) (default [] (sn_Via n))) <$> default [] (sel_Nodes s))
          (edge_dto <$> selection_edges s)) <$> s.

Definition joinNames (names : list string) : string := join names ", ".

Definition level_lines (levels : list (list string)) : list string :=
  imap (λ i level, "level " +:+ pretty (S i) +:+ ": " +:+ joinNames level) levels.

Definition boundary_line (e : selectionEdgeDTO) : string :=
  let data := bool_decide (se_Kind e = "data") in
  let from := sp_Node (se_From e) +:+ (if data then ".output." +:+ sp_Output (se_From e) else "") in
  let to := sp_Node (se_To e) +:+ (if data then ".input." +:+ sp_Input (se_To e) else "") in
  "  " +:+ from +:+ " -> " +:+ to +:+ " (" +:+ se_Kind e +:+ ")".

Definition printSelection (s : option selectionDTO) (levels : list (list string)) : list string :=
  match s with
  | None => []
  | Some s =>
    ["selection: " +:+ so_Mode s; "requested: " +:+ joinNames (so_Requested s); "selected: " +:+ joinNames (sd_Node <$> so_Nodes s)]
    ++ ((λ n, "  " +:+ sd_Node n +:+ ": " +:+ sd_Reason n
              +:+ (if decide (sd_Reason n = "downstream") then " of " +:+ joinNames (sd_Via n) else "")) <$> so_Nodes s)
    ++ (match so_BoundaryEdges s with [] => [] | es => "boundary edges (one endpoint not selected):" :: (boundary_line <$> es) end)
    ++ level_lines levels
  end.

(** ** Reviews (cli/plan_review.go) *)

Record planActionDTO := MkActionDTO { pa_Address : string; pa_Actions : list string; pa_Category : string }.
Record planCountsDTO := MkCounts {
  ct_Create : nat; ct_Update : nat; ct_Delete : nat; ct_Replace : nat; ct_Read : nat; ct_NoOp : nat; ct_Other : nat;
}.
Definition no_counts : planCountsDTO := MkCounts 0 0 0 0 0 0 0.

Definition count_category (c : planCountsDTO) (category : string) : planCountsDTO :=
  match c with
  | MkCounts a b d r e n o =>
    if decide (category = "create") then MkCounts (S a) b d r e n o
    else if decide (category = "update") then MkCounts a (S b) d r e n o
    else if decide (category = "delete") then MkCounts a b (S d) r e n o
    else if decide (category = "replace") then MkCounts a b d (S r) e n o
    else if decide (category = "read") then MkCounts a b d r (S e) n o
    else if decide (category = "no-op") then MkCounts a b d r e (S n) o
    else MkCounts a b d r e n (S o)
  end.

(** The category shown, and the one counted: a lone action named "replace" is
    shown as it is and counted as another. *)
Definition resource_category (c : ResourceChange) : string * string :=
  if IsReplace c then ("replace", "replace")
  else match rc_Actions c with
       | [action] => (action, if decide (action = "replace") then "other" else action)
       | _ => ("other", "other")
       end.

Record planReviewDTO := MkReviewDTO {
  pr_Contracts : list ContractCheck; pr_Evidence : bool; pr_HasChanges : option bool; pr_Resources : list planActionDTO;
  pr_Counts : option planCountsDTO; pr_Outputs : list OutputChange; pr_Policy : string; pr_Decision : string;
  pr_Inputs : list InputBasis; pr_Limitations : list string; pr_Diagnostics : list diagnosticDTO;
}.

Section Reviews.
Context (render : text → string) (report : diagnostic → Diagnose.Diagnostic).

Definition reviewToDTO (review : PlanReview) : planReviewDTO :=
  MkReviewDTO (rv_Contracts review) (rv_Evidence review) (rv_HasChanges review)
    ((λ r, MkActionDTO (rc_Address r) (rc_Actions r) (resource_category r).1) <$> rv_Resources review)
    (if rv_Evidence review then Some (foldl (λ c r, count_category c (resource_category r).2) no_counts (rv_Resources review)) else None)
    (rv_Outputs review) (rv_Policy review) (rv_PolicyDecision review) (rv_Inputs review) (render <$> rv_Limitations review)
    (match rv_Diagnostic review with Some d => [diagnosticToDTO (report d)] | None => [] end).

(** ** Runs (cli/output.go) *)

(** [engine.NodeRun] with all its fields. *)
Record node_run := MkNodeRunView {
  rn_Node : string; rn_Level : Z; rn_Status : string; rn_Err : option goerr; rn_Diagnostics : list Diagnose.Diagnostic; rn_Review : option PlanReview;
}.
Record run_result := MkRunResult { rr_ExecutionID : string; rr_Nodes : list node_run }.

Record nodeRunDTO := MkNodeRunDTO {
  nd_Diagnostics : list diagnosticDTO; nd_Node : string; nd_Level : Z; nd_Status : string; nd_Error : string; nd_Review : option planReviewDTO;
}.

Definition nodeRunsToDTO (runs : list node_run) : list nodeRunDTO :=
  (λ r, MkNodeRunDTO (diagnosticsToDTO (rn_Diagnostics r)) (rn_Node r) (rn_Level r) (rn_Status r)
          (match rn_Err r with Some e => Error e | None => "" end) (reviewToDTO <$> rn_Review r)) <$> runs.

Record vendorResultDTO := MkVendorDTO { vd_Diagnostics : list diagnosticDTO; vd_Node : string; vd_Status : string; vd_Error : string }.

Record problemDTO := MkProblemDTO {
  pd_Code : string; pd_Category : string; pd_Phase : string; pd_Subject : string; pd_Remedy : string; pd_Severity : string; pd_Message : string;
}.
Definition problemsToDTO (problems : list Problem) : list problemDTO :=
  (λ p, MkProblemDTO (Diagnose.or_else (p_Code p) "validation_failed") "validation" "validation" (p_Subject p) (p_Remedy p)
          (if IsError p then "error" else "warning") (render (p_Message p))) <$> problems.

(** ** Records (cli/execution_records.go) *)

Record executionNodeDTO := MkExecutionNodeDTO {
  xd_Node : string; xd_Review : option planReviewDTO; xd_Phase : string; xd_PlanID : string; xd_Code : string;
}.
(** A call's document has no room for its report, its lease or its digests. *)
Record pluginCallDTO := MkCallDTO {
  cd_ID : string; cd_Plugin : string; cd_Feature : string; cd_Phase : string; cd_Node : string; cd_Status : string; cd_Code : string;
  cd_Decision : string; cd_ReportAvailable : bool;
}.
Record executionDTO := MkExecutionDTO {
  ed_PluginCalls : list pluginCallDTO; ed_Selection : option selectionDTO; ed_ID : string; ed_Preparation : string; ed_Backup : bool;
  ed_Operation : string; ed_Status : string; ed_CreatedAt : Z; ed_UpdatedAt : Z; ed_FinishedAt : option Z; ed_RecoveryAt : option Z;
  ed_Nodes : list executionNodeDTO;
}.

(** What a stored call says of its decision and its report. *)
Context (call_decision : CallRecord → string) (call_reported : CallRecord → bool).

Definition callToDTO (c : CallRecord) : pluginCallDTO :=
  MkCallDTO (cl_ID c) (cl_Alias c) (cl_Feature c) (cl_EventPhase c) (cl_EventNode c) (cl_Status c) (cl_Code c) (call_decision c) (call_reported c).

Definition executionToDTO (record : ExecutionRecord) : executionDTO :=
  MkExecutionDTO (callToDTO <$> er_PluginCalls record) (selectionToDTO (er_Selection record)) (er_ID record) (er_Preparation record) (er_Backup record)
    (er_Operation record) (er_Status record) (er_CreatedAt record) (er_UpdatedAt record) (er_FinishedAt record) (er_RecoveryAt record)
    ((λ n, MkExecutionNodeDTO (en_Name n) (reviewToDTO <$> en_Review n) (en_Phase n) (en_PlanID n) (en_Code n)) <$> er_Nodes record).
End Reviews.

(** ** Facts *)

Definition counts_total (c : planCountsDTO) : nat :=
  ct_Create c + ct_Update c + ct_Delete c + ct_Replace c + ct_Read c + ct_NoOp c + ct_Other c.

(** Every resource of a review is counted once. *)
Lemma review_counts_total render report review c : pr_Counts (reviewToDTO render report review) = Some c →
  counts_total c = length (rv_Resources review).
Proof.
  unfold reviewToDTO. cbn [pr_Counts]. destruct (rv_Evidence review); [|done]. intros [= <-].
  assert (∀ acc, counts_total (foldl (λ c r, count_category c (resource_category r).2) acc (rv_Resources review))
                 = counts_total acc + length (rv_Resources review)) as ->; [|done].
  induction (rv_Resources review) as [|r l IH]; intros acc; simpl; [lia|]. rewrite IH.
  assert (counts_total (count_category acc (resource_category r).2) = S (counts_total acc)) as ->; [|lia].
  destruct acc. unfold count_category, counts_total. repeat case_decide; simpl; lia.
Qed.

Lemma elem_of_concat_map {A B} (f : A → list B) l y : y ∈ concat (f <$> l) ↔ ∃ x, x ∈ l ∧ y ∈ f x.
Proof.
  rewrite elem_of_concat. setoid_rewrite list_elem_of_fmap. naive_solver.
Qed.

(** A selection's drawing shows every selected node and both ends of every boundary edge. *)
Lemma visible_nodes_elem s name : name ∈ visible_nodes s ↔
  name ∈ Names s ∨ ∃ e, e ∈ selection_edges s ∧ (name = pr_Node (e_From e) ∨ name = pr_Node (e_To e)).
Proof.
  unfold visible_nodes. rewrite sorted_keys_elem. split.
  - intros [[] H%elem_of_list_to_map_2]. apply list_elem_of_fmap in H as (? & [= ->] & H).
    apply elem_of_app in H as [H|H]; [by left|right]. apply elem_of_concat_map in H as (e & He & H).
    exists e. split; [done|]. set_solver.
  - intros H. apply not_eq_None_Some. rewrite <- not_elem_of_list_to_map, <- list_fmap_compose. intros Hn. apply Hn, list_elem_of_fmap. exists name.
    split; [done|]. apply elem_of_app. destruct H as [H|(e & He & Hne)]; [by left|right]. apply elem_of_concat_map.
    exists e. split; [done|]. set_solver.
Qed.
