(* ===== verification/Cli.v ===== *)
(** The commands (src/internal/cli/cli.go, execute.go, plan_review.go,
    saved_execution.go): their arguments, the order of loading, validating and
    running, where their output goes, and the one boundary that turns a failure
    into a JSON document.

    A command is a trace of what it writes and of the engine operations it
    starts.  The engine answers; flag parsing is cobra's.  [Diagnose.goerr] is
    the type of errors here, since they are reported. *)
From stdpp Require Import pretty.
From S2P Require Import Prelude GoLib Blueprint Module Graph Backend Selection Gate Execution Diagnose Views.

(** ** Documents and traces *)

Inductive document :=
  | ErrorResult (diagnostics : list diagnosticDTO)
  | ValidateResult (valid : bool) (problems : list problemDTO)
  | GraphResult (levels : list (list string)) (selection : option selectionDTO) (diagnostics : list diagnosticDTO)
  | RunDocument (execution : string) (nodes : list nodeRunDTO) (diagnostics : list diagnosticDTO) (selection : option selectionDTO)
  | PlanDocument (execution : string) (nodes : list nodeRunDTO) (diagnostics : list diagnosticDTO) (selection : option selectionDTO)
  | HistoryDocument (version : Z) (selection : option selectionDTO) (executions : list executionDTO) (diagnostics : list diagnosticDTO)
  | RecoveryDocument (version : Z) (execution : executionDTO) (diagnostics : list diagnosticDTO)
  | PruneDocument (removed : list string) (diagnostics : list diagnosticDTO)
  | VendorResults (results : list vendorResultDTO)
  | VendorFailure (results : list vendorResultDTO) (diagnostics : list diagnosticDTO).

Inductive operation := OpApply | OpApplySaved (id : string) | OpDestroy | OpReview | OpSave (continue : string).

(** Lines on the two streams, the attempt to write a document, an operation begun. *)
Inductive chunk := OutText (line : string) | ErrText (line : string) | Wrote (d : document) | Began (op : operation) (auto_approve : bool).

(** What an operation answers: whether it told its selection, what it writes
    to the engine's output, its result and its error. *)
Record operation_answer := MkOperationAnswer {
  oa_selection : option (option Selection * list (list string)); oa_output : list string; oa_run : run_result;
  oa_record : option ExecutionRecord; oa_err : option goerr;
}.

Record loaded := MkLoaded { ld_Graph : Graph; ld_Problems : list Problem }.

Record flags := MkFlags {
  fl_output : string; fl_format : string; fl_nodes : option (list string); fl_downstream : bool; fl_selected : bool;
  fl_auto_approve : bool; fl_approve : string; fl_plan : string; fl_retain : bool; fl_save : bool; fl_continue : string;
}.

(** A command's trace, the diagnostic its failures fall back to, and its error. *)
Record outcome := MkOutcome { oc_trace : list chunk; oc_fallback : Diagnose.Diagnostic; oc_err : option goerr }.

Definition first_fallback : Diagnose.Diagnostic := Diagnose.MkDiagnostic "invalid_arguments" "arguments" "command" "" "" "arguments" "" "".
(** [diagnosticPhase]. *)
Definition phase_fallback (phase name : string) : Diagnose.Diagnostic :=
  Diagnose.MkDiagnostic (phase +:+ "_failed") phase name "" "" (categoryForPhase phase) "" "".

(** An error the command line itself makes. *)
Definition plain_error (message : string) : goerr := ELeaf None Unclassified message.

Section Cli.
Context (render : text → string) (report : diagnostic → Diagnose.Diagnostic) (Quote : string → string).
Context (errorLocation : goerr → option sourceLocationDTO) (write_error : option goerr) (of_error : error → goerr).
Context (call_decision : CallRecord → string) (call_reported : CallRecord → bool).

Notation errorDiagnostics := (errorDiagnostics render errorLocation).

(** [writeJSON]: the attempt is recorded before the write. *)
Definition writeJSON (d : document) : list chunk * option goerr := ([Wrote d], write_error).

Definition unknown_output (o : string) : goerr := plain_error ("unknown output " +:+ Quote o +:+ " (want " +:+ Quote "text" +:+ " or " +:+ Quote "json" +:+ ")").
Definition known_output (o : string) : bool := mem o ["text"; "json"].
Definition json (f : flags) : bool := bool_decide (fl_output f = "json").

(** ** Loading and validation *)

Definition problem_line (p : Problem) : chunk :=
  ErrText ("[" +:+ (if IsError p then "ERROR" else "WARNING") +:+ "] " +:+ render (p_Message p)).
Definition error_count (problems : list Problem) : nat := length (filter (λ p, IsError p = true) problems).

Definition checkValidate (problems : list Problem) : list chunk * option goerr :=
  (problem_line <$> problems,
   if decide (error_count problems = 0) then None
   else Some (EValidation None problems (plain_error ("blueprint has " +:+ pretty (error_count problems) +:+ " error(s); run " +:+ Quote "terragraph validate" +:+ " for details")))).

(** ** Run documents *)

Definition run_diagnostics (r : run_result) (err : option goerr) : list diagnosticDTO := runDiagnostics (rn_Err <$> rr_Nodes r) err.

Definition finishRun (f : flags) (r : run_result) (err : option goerr) (scope : option selectionDTO) : list chunk * option goerr :=
  if json f then
    let diagnostics := run_diagnostics r err in
    let payload :=
      if bool_decide (is_Some err) && bool_decide (rr_ExecutionID r = "") && bool_decide (length (rr_Nodes r) = 0) && bool_decide (scope = None)
      then ErrorResult diagnostics else RunDocument (rr_ExecutionID r) (nodeRunsToDTO render report (rr_Nodes r)) diagnostics scope in
    let '(out, werr) := writeJSON payload in
    (out, match werr with Some e => Some e | None => err end)
  else ([], err).

Definition change_flag (b : option bool) : string := match b with Some true => "true" | Some false => "false" | None => "" end.

Definition review_line (n : nodeRunDTO) : string :=
  match nd_Review n with
  | Some review =>
    match pr_Counts review with
    | Some c =>
      nd_Node n +:+ ": changes=" +:+ change_flag (pr_HasChanges review) +:+ "; " +:+ pretty (ct_Create c) +:+ " create, " +:+ pretty (ct_Update c)
        +:+ " update, " +:+ pretty (ct_Delete c) +:+ " delete, " +:+ pretty (ct_Replace c) +:+ " replace; " +:+ pretty (length (pr_Outputs review))
        +:+ " output entries; approve=" +:+ pr_Policy review +:+ " (" +:+ pr_Decision review +:+ ", assessment only)"
    | None => nd_Node n +:+ ": " +:+ nd_Status n +:+ "; plan evidence unavailable"
    end
  | None => nd_Node n +:+ ": " +:+ nd_Status n +:+ "; plan evidence unavailable"
  end.

Definition review_lines (n : nodeRunDTO) : list chunk :=
  OutText (review_line n)
  :: match nd_Review n with
     | Some review =>
       ((λ d, let d := dto_diagnostic d in ErrText (nd_Node n +:+ ": " +:+ Code d +:+ ": " +:+ Message d +:+ "; " +:+ Remedy d)) <$> pr_Diagnostics review)
       ++ ((λ l, OutText ("  " +:+ l)) <$> pr_Limitations review)
     | None => []
     end.

Definition plan_failure (phase : string) : Diagnose.Diagnostic :=
  Diagnose.MkDiagnostic ("plan_" +:+ phase +:+ "_failed") phase "plan" "" "resolve the diagnostic and rerun plan" (categoryForPhase phase) "" "".

Definition finishPlan (f : flags) (r : run_result) (phase : string) (err : option goerr) (scope : option selectionDTO) : list chunk * option goerr :=
  let nodes := nodeRunsToDTO render report (rr_Nodes r) in
  let diagnostics := match err, rr_Nodes r with Some e, [] => errorDiagnostics e (plan_failure phase) | _, _ => run_diagnostics r err end in
  if json f then
    let '(out, werr) := writeJSON (PlanDocument (rr_ExecutionID r) nodes diagnostics scope) in
    (out, match werr with Some e => Some e | None => err end)
  else (concat (review_lines <$> nodes), err).

Definition saved_failure : Diagnose.Diagnostic :=
  Diagnose.MkDiagnostic "saved_plan_failed" "plan" "execution" "" "inspect plan show before retrying; never replay an uncertain mutation" "" "" "".

Definition finishSavedExecution (f : flags) (record : option ExecutionRecord) (err : option goerr) (scope : option selectionDTO) : list chunk * option goerr :=
  let executions := match record with Some r => [executionToDTO render report call_decision call_reported r] | None => [] end in
  let diagnostics := match err with Some e => errorDiagnostics e saved_failure | None => [] end in
  if json f then
    let version := match record with Some r => if decide (er_PluginCalls r = []) then 1%Z else 2%Z | None => 1%Z end in
    let '(out, werr) := writeJSON (HistoryDocument version scope executions diagnostics) in
    (out, match werr with Some e => Some e | None => err end)
  else (match record with Some r => [OutText (er_ID r +:+ ": " +:+ er_Status r)] | None => [] end, err).

(** ** Running an operation *)

(** What the engine writes to its output, and the selection it tells. *)
Definition engine_output (redirected : bool) (lines : list string) : list chunk := (if redirected then ErrText else OutText) <$> lines.

Definition told_selection (f : flags) (a : operation_answer) : list chunk * option selectionDTO :=
  match oa_selection a with
  | None => ([], None)
  | Some (s, levels) =>
    let dto := selectionToDTO s in
    (if decide (fl_output f = "text") then OutText <$> printSelection dto levels else [], dto)
  end.

(** ** The commands *)

Section Commands.
Context (f : flags) (args : list string) (load : goerr + loaded) (run : operation → operation_answer).

(** [validateRunArgs]. *)
Definition run_args (name : string) : option goerr :=
  if decide (args = []) then None
  else Some (plain_error (name +:+ ": unexpected arguments [" +:+ join (Quote <$> args) " " +:+ "]; use --node <name> to select a single node")).

Definition validate_command : outcome :=
  if negb (known_output (fl_output f)) then MkOutcome [] first_fallback (Some (unknown_output (fl_output f)))
  else
    let fallback := phase_fallback "load" "validate" in
    match load with
    | inl err => MkOutcome [] fallback (Some err)
    | inr l =>
      let errors := error_count (ld_Problems l) in
      if json f then
        let '(out, werr) := writeJSON (ValidateResult (Nat.eqb errors 0) (problemsToDTO render (ld_Problems l))) in
        MkOutcome out fallback
          match werr with
          | Some e => Some e
          | None => if decide (errors = 0) then None else Some (plain_error ("blueprint has " +:+ pretty errors +:+ " error(s)"))
          end
      else match checkValidate (ld_Problems l) with
           | (out, Some err) => MkOutcome out fallback (Some err)
           | (out, None) => MkOutcome (out ++ [OutText "blueprint is valid"]) fallback None
           end
    end.

Definition graph_output (l : loaded) (checked : list chunk) : outcome :=
  let fallback := phase_fallback "load" "graph" in
  match Select (ld_Graph l) (fl_nodes f) (fl_downstream f) with
  | Err err => MkOutcome checked fallback (Some (of_error err))
  | Ok scope =>
    match SelectedLevels (ld_Graph l) (Names <$> scope) false with
    | Err err => MkOutcome checked fallback (Some (of_error err))
    | Ok levels =>
      if decide (fl_format f = "dot") then MkOutcome (checked ++ [OutText (SelectionDOT Quote (ld_Graph l) scope)]) fallback None
      else if mem (fl_format f) ["list"; ""] then
        if json f then
          let '(out, werr) := writeJSON (GraphResult levels (selectionToDTO scope) (problemDiagnostics render (ld_Problems l))) in
          MkOutcome (checked ++ out) fallback werr
        else MkOutcome (checked ++ (OutText <$> (printSelection (selectionToDTO scope) [] ++ level_lines levels))) fallback None
      else MkOutcome checked fallback (Some (plain_error ("unknown format " +:+ Quote (fl_format f) +:+ " (want " +:+ Quote "list" +:+ " or " +:+ Quote "dot" +:+ ")")))
    end
  end.

Definition graph_command : outcome :=
  match run_args "graph" with
  | Some err => MkOutcome [] first_fallback (Some err)
  | None =>
    if negb (known_output (fl_output f)) then MkOutcome [] first_fallback (Some (unknown_output (fl_output f)))
    else if json f && bool_decide (fl_format f = "dot") then MkOutcome [] first_fallback (Some (plain_error "--output json is not supported with --format dot"))
    else match load with
         | inl err => MkOutcome [] (phase_fallback "load" "graph") (Some err)
         | inr l =>
           match checkValidate (ld_Problems l) with
           | (out, Some err) => MkOutcome out (phase_fallback "load" "graph") (Some err)
           | (out, None) => graph_output l out
           end
         end
  end.

(** [plan]: every failure is told by the same deferred document. *)
Definition plan_refused : option goerr :=
  match run_args "plan" with
  | Some err => Some err
  | None =>
    if negb (known_output (fl_output f)) then Some (plain_error ("unknown output " +:+ Quote (fl_output f) +:+ " (want text or json)"))
    else if negb (bool_decide (fl_continue f = "")) && negb (fl_save f) then Some (plain_error "--continue requires --save")
    else if negb (bool_decide (fl_continue f = "")) && fl_selected f
    then Some (plain_error "--continue already fixes node selection; omit --node and --downstream")
    else match ParseApprove (fl_approve f) with Err err => Some (of_error err) | Ok _ => None end
  end.

Definition plan_finish (before : list chunk) (fallback : Diagnose.Diagnostic) (r : run_result) (record : option ExecutionRecord) (phase : string)
    (err : option goerr) (scope : option selectionDTO) : outcome :=
  let '(out, err) := if fl_save f then finishSavedExecution f record err scope else finishPlan f r phase err scope in
  MkOutcome (before ++ out) fallback err.

Definition no_run : run_result := MkRunResult "" [].

Definition plan_command : outcome :=
  match plan_refused with
  | Some err => plan_finish [] first_fallback no_run None "arguments" (Some err) None
  | None =>
    let fallback := phase_fallback "load" "plan" in
    match load with
    | inl err => plan_finish [] fallback no_run None "load" (Some err) None
    | inr l =>
      match checkValidate (ld_Problems l) with
      | (out, Some err) => plan_finish out fallback no_run None "validation" (Some err) None
      | (out, None) =>
        let op := if fl_save f then OpSave (fl_continue f) else OpReview in
        let a := run op in
        let '(told, scope) := told_selection f a in
        plan_finish (out ++ [Began op false] ++ told ++ engine_output true (oa_output a)) fallback
          (if fl_save f then no_run else oa_run a) (if fl_save f then oa_record a else None) "prepare" (oa_err a) scope
      end
    end
  end.

(** [apply] and [destroy] start an operation once everything before it was accepted. *)
Definition run_operation (fallback : Diagnose.Diagnostic) (before : list chunk) (op : operation) : outcome :=
  let a := run op in
  let '(told, scope) := told_selection f a in
  let '(out, err) := finishRun f (oa_run a) (oa_err a) scope in
  MkOutcome (before ++ [Began op (fl_auto_approve f)] ++ told ++ engine_output (json f) (oa_output a) ++ out) fallback err.

Definition loaded_and_valid (name : string) (next : Diagnose.Diagnostic → list chunk → outcome) : outcome :=
  let fallback := phase_fallback "load" name in
  match load with
  | inl err => MkOutcome [] fallback (Some err)
  | inr l =>
    match checkValidate (ld_Problems l) with
    | (out, Some err) => MkOutcome out fallback (Some err)
    | (out, None) => next fallback out
    end
  end.

Definition needs_auto_approve (what where_ : string) : goerr :=
  plain_error ("--output json needs --auto-approve: the " +:+ what +:+ " would have nowhere to appear without corrupting the JSON payload; " +:+ where_ +:+ " in text mode or pass --auto-approve").

Definition apply_command : outcome :=
  let refuse (err : goerr) := MkOutcome [] first_fallback (Some err) in
  match run_args "apply" with
  | Some err => refuse err
  | None =>
    if negb (bool_decide (fl_plan f = "")) && fl_selected f then refuse (plain_error "--plan already fixes node selection; omit --node and --downstream")
    else if negb (known_output (fl_output f)) then refuse (unknown_output (fl_output f))
    else if json f && negb (fl_auto_approve f) then refuse (needs_auto_approve "approval prompt" "approve")
    else
      loaded_and_valid "apply" (λ fallback out,
        match ParseApprove (fl_approve f) with
        | Err err => MkOutcome out fallback (Some (of_error err))
        | Ok _ =>
          if bool_decide (fl_plan f = "") then run_operation fallback out OpApply
          else if fl_retain f then MkOutcome out fallback (Some (plain_error "--plan already uses retained artifacts; omit --retain-plan"))
          else run_operation fallback out (OpApplySaved (fl_plan f))
        end)
  end.

Definition destroy_command : outcome :=
  let refuse (err : goerr) := MkOutcome [] first_fallback (Some err) in
  match run_args "destroy" with
  | Some err => refuse err
  | None =>
    if negb (known_output (fl_output f)) then refuse (unknown_output (fl_output f))
    else if json f && negb (fl_auto_approve f) then refuse (needs_auto_approve "destroy confirmation" "confirm")
    else loaded_and_valid "destroy" (λ fallback out, run_operation fallback out OpDestroy)
  end.
End Commands.

(** ** force-unlock *)

(** What it does: the process lock taken and given back, the lock object released. *)
Inductive unlock_step := TookProcessLock | GaveProcessLock | AskedHolder | ReleasedGraphLock | Said (line : string).

Record unlock_answers := MkUnlockAnswers {
  ua_metadata : goerr + option S3Lock;     (** the blueprint's lock block *)
  ua_base : option goerr;
  ua_acquire : bool + goerr;               (** [inl held]: taken, or held by another process *)
  ua_holder : string * string;
  ua_release : option goerr;
}.

Definition force_unlock (yes : bool) (a : unlock_answers) : list unlock_step * option goerr :=
  match ua_metadata a with
  | inl err => ([], Some err)
  | inr None => ([], Some (plain_error "this blueprint declares no graph lock; there is nothing for force-unlock to release"))
  | inr (Some s3) =>
    match ua_base a with
    | Some err => ([], Some (EWrap None ("resolving blueprint directory: " +:+ Error err) err))
    | None =>
      match ua_acquire a with
      | inl true =>
        ([], Some (plain_error "another terragraph process is using this blueprint and may hold the graph lock legitimately; wait for it to finish"))
      | inr err => ([], Some (EWrap None ("locking blueprint: " +:+ Error err) err))
      | inl false =>
        let '(who, created) := ua_holder a in
        let held := if decide (who = "") then "" else ", held by " +:+ who +:+ " since " +:+ created in
        let object := "s3://" +:+ sl_Bucket s3 +:+ "/" +:+ sl_Key s3 +:+ held in
        if negb yes then
          ([TookProcessLock; AskedHolder; GaveProcessLock],
           Some (plain_error ("refusing to release " +:+ object +:+ " without --yes; the holder may still be running, and releasing is unconditional")))
        else match ua_release a with
             | Some err => ([TookProcessLock; AskedHolder; ReleasedGraphLock; GaveProcessLock], Some err)
             | None => ([TookProcessLock; AskedHolder; ReleasedGraphLock; Said ("released " +:+ object); GaveProcessLock], None)
             end
      end
    end
  end.

(** ** The boundary (cli/execute.go) *)

Definition is_document (c : chunk) : bool := match c with Wrote _ => true | _ => false end.

(** [Execute]: a failure no document tells is told by one, if JSON was asked for. *)
Definition Execute (selected : bool) (o : outcome) : list chunk * option goerr :=
  match oc_err o with
  | Some err =>
    if selected && negb (existsb is_document (oc_trace o)) then
      let '(out, werr) := writeJSON (ErrorResult (errorDiagnostics err (oc_fallback o))) in
      (oc_trace o ++ out, match werr with Some w => Some (EJoin None [err; w]) | None => Some err end)
    else (oc_trace o, Some err)
  | None => (oc_trace o, None)
  end.
End Cli.

(** ** What reaches the standard output *)

Definition is_stdout (c : chunk) : bool := match c with OutText _ | Wrote _ => true | _ => false end.
Definition stdout (t : list chunk) : list chunk := filter (λ c, is_stdout c = true) t.
Definition silent (t : list chunk) : Prop := stdout t = [].

Lemma stdout_app a b : stdout (a ++ b) = stdout a ++ stdout b.
Proof. apply filter_app. Qed.

Lemma document_stdout t : existsb is_document t = existsb is_document (stdout t).
Proof.
  unfold stdout. induction t as [|c t IH]; [done|]. rewrite filter_cons. destruct c; simpl; rewrite ?decide_True, ?decide_False by done; simpl; by rewrite ?IH.
Qed.

Section Streams.
Context (render : text → string) (report : diagnostic → Diagnose.Diagnostic) (Quote : string → string).
Context (errorLocation : goerr → option sourceLocationDTO) (write_error : option goerr) (of_error : error → goerr).
Context (call_decision : CallRecord → string) (call_reported : CallRecord → bool).
Context (f : flags) (args : list string) (load : goerr + loaded) (run : operation → operation_answer).

Lemma problems_silent problems : silent (problem_line render <$> problems).
Proof. unfold silent, stdout. induction problems as [|p problems IH]; [done|]. rewrite fmap_cons. by rewrite filter_cons_False by done. Qed.

Lemma redirected_silent lines : silent (engine_output true lines).
Proof. unfold silent, stdout, engine_output. induction lines as [|p lines IH]; [done|]. rewrite fmap_cons. by rewrite filter_cons_False by done. Qed.

Lemma told_silent a : json f = true → silent (told_selection f a).1.
Proof.
  unfold json. intros Hj%bool_decide_eq_true. unfold told_selection. destruct (oa_selection a) as [[s levels]|]; [|done].
  by rewrite decide_False by (by rewrite Hj).
Qed.

(** A trace that writes one document, or none before it fails. *)
Definition one_or_failed (o : outcome) : Prop :=
  (∃ d, stdout (oc_trace o) = [Wrote d]) ∨ (silent (oc_trace o) ∧ is_Some (oc_err o)).

Definition one_document (t : list chunk) : Prop := ∃ d, stdout t = [Wrote d].

(** The boundary adds the document that is missing, if one was asked for. *)
Lemma Execute_one selected o : one_or_failed o →
  one_document (Execute render errorLocation write_error selected o).1 ∨
  selected = false ∧ silent (Execute render errorLocation write_error selected o).1 ∧
    is_Some (Execute render errorLocation write_error selected o).2.
Proof.
  unfold Execute, one_document, silent. rewrite document_stdout. intros [[d Hd]|[Hs [err He]]].
  - left. rewrite Hd. exists d. destruct (oc_err o); [|done]. by rewrite andb_false_r.
  - rewrite He, Hs. destruct selected; simpl; [left; eexists; rewrite stdout_app, Hs; done|right]. by split_and!.
Qed.

Lemma Execute_asked o : one_or_failed o → one_document (Execute render errorLocation write_error true o).1.
Proof. by intros [?|[? _]]%(Execute_one true). Qed.

Lemma refused_one fallback out err : silent out → one_or_failed (MkOutcome out fallback (Some err)).
Proof. intros Hs. right. by split; [|exists err]. Qed.

Lemma document_one out d fallback err : silent out → one_or_failed (MkOutcome (out ++ [Wrote d]) fallback err).
Proof. intros Hs. left. exists d. cbn [oc_trace]. by rewrite stdout_app, Hs. Qed.

Lemma validate_one : json f = true → one_or_failed (validate_command render Quote write_error f load).
Proof.
  intros Hj. unfold validate_command. destruct (negb _); [by apply refused_one|]. destruct load as [err|l]; [by apply refused_one|].
  rewrite Hj. cbn. left. by eexists.
Qed.

Lemma graph_one : json f = true → one_or_failed (graph_command render Quote write_error of_error f args load).
Proof.
  intros Hj. unfold graph_command. destruct (run_args _ _ _); [by apply refused_one|]. destruct (negb _); [by apply refused_one|]. rewrite Hj.
  destruct (bool_decide (fl_format f = "dot")) eqn:Hdot; [by apply refused_one|]. apply bool_decide_eq_false in Hdot. simpl andb. cbv iota.
  destruct load as [err|l]; [by apply refused_one|]. pose proof (problems_silent (ld_Problems l)) as Hs.
  unfold checkValidate. case_decide; [|by apply refused_one]. unfold graph_output.
  destruct (Select _ _ _) as [scope|]; [|by apply refused_one]. destruct (SelectedLevels _ _ _) as [levels|]; [|by apply refused_one].
  rewrite decide_False by done. destruct (mem _ _); [|by apply refused_one]. rewrite Hj. by apply document_one.
Qed.

Lemma plan_finish_one before fallback r record phase err scope : json f = true → silent before →
  one_or_failed (plan_finish render report errorLocation write_error call_decision call_reported f before fallback r record phase err scope).
Proof.
  intros Hj Hs. unfold plan_finish, finishSavedExecution, finishPlan. rewrite Hj. by destruct (fl_save f); apply document_one.
Qed.

Lemma plan_one : json f = true →
  one_or_failed (plan_command render report Quote errorLocation write_error of_error call_decision call_reported f args load run).
Proof.
  intros Hj. unfold plan_command. destruct (plan_refused _ _ _ _); [by apply plan_finish_one|].
  destruct load as [err|l]; [by apply plan_finish_one|]. pose proof (problems_silent (ld_Problems l)) as Hs.
  unfold checkValidate. case_decide; [|by apply plan_finish_one].
  pose proof (told_silent (run (if fl_save f then OpSave (fl_continue f) else OpReview)) Hj) as Ht.
  destruct (told_selection f _) as [told scope]. cbn [fst] in Ht. apply plan_finish_one; [done|]. unfold silent in *. rewrite !stdout_app, Hs, Ht, redirected_silent. done.
Qed.

Lemma run_operation_one fallback before op : json f = true → silent before → one_or_failed (run_operation render report write_error f run fallback before op).
Proof.
  intros Hj Hs. unfold run_operation, finishRun. pose proof (told_silent (run op) Hj) as Ht. destruct (told_selection f (run op)) as [told scope]. cbn [fst] in Ht.
  rewrite Hj. cbn [writeJSON]. left. eexists. cbn [oc_trace]. unfold silent in *. rewrite !stdout_app, Hs, Ht, redirected_silent. done.
Qed.

Lemma loaded_one name next : (∀ fallback out, silent out → one_or_failed (next fallback out)) → one_or_failed (loaded_and_valid render Quote load name next).
Proof.
  intros Hn. unfold loaded_and_valid. destruct load as [err|l]; [by apply refused_one|]. pose proof (problems_silent (ld_Problems l)) as Hs.
  unfold checkValidate. case_decide; [by apply Hn|by apply refused_one].
Qed.

Lemma apply_one : json f = true → one_or_failed (apply_command render report Quote write_error of_error f args load run).
Proof.
  intros Hj. unfold apply_command. destruct (run_args _ _ _); [by apply refused_one|]. destruct (_ && _); [by apply refused_one|].
  destruct (negb _); [by apply refused_one|]. destruct (_ && _); [by apply refused_one|]. apply loaded_one. intros fallback out Hs.
  destruct (ParseApprove _); [|by apply refused_one]. destruct (bool_decide _); [by apply run_operation_one|].
  destruct (fl_retain f); [by apply refused_one|by apply run_operation_one].
Qed.

Lemma destroy_one : json f = true → one_or_failed (destroy_command render report Quote write_error f args load run).
Proof.
  intros Hj. unfold destroy_command. destruct (run_args _ _ _); [by apply refused_one|].
  destruct (negb _); [by apply refused_one|]. destruct (_ && _); [by apply refused_one|]. apply loaded_one. intros fallback out Hs.
  by apply run_operation_one.
Qed.

(** *** Operations begun *)

Definition begins (t : list chunk) : bool := existsb (λ c, match c with Began _ _ => true | _ => false end) t.

(** What is accepted before an operation begins. *)
Definition validated : Prop := ∃ l, load = inr l ∧ error_count (ld_Problems l) = 0.
Definition plan_accepted : Prop :=
  args = [] ∧ known_output (fl_output f) = true ∧ (fl_continue f ≠ "" → fl_save f = true ∧ fl_selected f = false) ∧
  is_ok (ParseApprove (fl_approve f)) = true ∧ validated.
Definition apply_accepted : Prop :=
  args = [] ∧ known_output (fl_output f) = true ∧ (fl_plan f ≠ "" → fl_selected f = false ∧ fl_retain f = false) ∧
  (json f = true → fl_auto_approve f = true) ∧ is_ok (ParseApprove (fl_approve f)) = true ∧ validated.
Definition destroy_accepted : Prop :=
  args = [] ∧ known_output (fl_output f) = true ∧ (json f = true → fl_auto_approve f = true) ∧ validated.

Lemma begins_app a b : begins (a ++ b) = begins a || begins b.
Proof. apply existsb_app. Qed.
Lemma problems_begin problems : begins (problem_line render <$> problems) = false.
Proof. by induction problems. Qed.
Lemma lines_begin {A} (g : A → string) (l : list A) : begins ((λ x, OutText (g x)) <$> l) = false.
Proof. by induction l. Qed.
Lemma err_lines_begin {A} (g : A → string) (l : list A) : begins ((λ x, ErrText (g x)) <$> l) = false.
Proof. by induction l. Qed.

Lemma review_lines_begin nodes : begins (concat (review_lines <$> nodes)) = false.
Proof.
  induction nodes as [|n nodes IH]; [done|]. rewrite fmap_cons. cbn [concat]. rewrite begins_app, IH, orb_false_r. unfold review_lines.
  destruct (nd_Review n) as [review|]; [|done]. cbn [begins existsb]. fold (begins). rewrite orb_false_l. 
  change (existsb _ ?l) with (begins l). rewrite begins_app. by rewrite err_lines_begin, lines_begin.
Qed.

Lemma plan_finish_begins before fallback r record phase err scope :
  begins (oc_trace (plan_finish render report errorLocation write_error call_decision call_reported f before fallback r record phase err scope)) = begins before.
Proof.
  unfold plan_finish, finishSavedExecution, finishPlan. destruct (json f), (fl_save f); cbn [oc_trace writeJSON]; rewrite begins_app; [by rewrite orb_false_r..| |].
  - destruct record; by rewrite orb_false_r.
  - rewrite review_lines_begin. by rewrite orb_false_r.
Qed.

Lemma run_args_None name : run_args Quote args name = None ↔ args = [].
Proof. unfold run_args. by case_decide. Qed.

Lemma checked_cases problems :
  (checkValidate render Quote problems = (problem_line render <$> problems, None) ∧ error_count problems = 0) ∨
  (∃ err, checkValidate render Quote problems = (problem_line render <$> problems, Some err) ∧ error_count problems ≠ 0).
Proof. unfold checkValidate. case_decide; [by left|right]. by eexists. Qed.

(** A check that refuses when both hold lets pass when the second is missing. *)
Lemma passed_both a b : a && b = false ↔ (a = true → b = false).
Proof. destruct a, b; naive_solver. Qed.

Lemma plan_refused_None : plan_refused Quote of_error f args = None ↔
  args = [] ∧ known_output (fl_output f) = true ∧ (fl_continue f ≠ "" → fl_save f = true ∧ fl_selected f = false) ∧
  is_ok (ParseApprove (fl_approve f)) = true.
Proof.
  unfold plan_refused. rewrite <-(run_args_None "plan"). destruct (run_args Quote args "plan"); [naive_solver|].
  destruct (known_output (fl_output f)); simpl; [|naive_solver].
  destruct (decide (fl_continue f = "")) as [Hc|Hc]; [rewrite (bool_decide_true _ Hc)|rewrite (bool_decide_false _ Hc)]; simpl;
    [|destruct (fl_save f); simpl; [|naive_solver]; destruct (fl_selected f); simpl; [naive_solver|]];
    destruct (ParseApprove (fl_approve f)); simpl; naive_solver.
Qed.

Lemma plan_begins : begins (oc_trace (plan_command render report Quote errorLocation write_error of_error call_decision call_reported f args load run)) = true ↔
  plan_accepted.
Proof.
  unfold plan_command, plan_accepted, validated. destruct (plan_refused _ _ _ _) eqn:Hr.
  { rewrite plan_finish_begins. split; [done|]. intros (H1 & H2 & H3 & H4 & _). by rewrite (proj2 plan_refused_None) in Hr. }
  apply plan_refused_None in Hr as (H1 & H2 & H3 & H4).
  destruct load as [err|l]; [rewrite plan_finish_begins; split; [done|naive_solver]|].
  destruct (checked_cases (ld_Problems l)) as [[-> Hv]|(err & -> & Hv)].
  - destruct (told_selection _ _) as [told scope]. rewrite plan_finish_begins, !begins_app. simpl. rewrite orb_true_r.
    split; [|done]. intros _. split_and!; [done..|by exists l].
  - rewrite plan_finish_begins, problems_begin. split; [done|]. intros (_ & _ & _ & _ & l' & [= <-] & Hl). congruence.
Qed.

(** Once the arguments are accepted, what follows a load begins if the graph is valid. *)
Lemma loaded_begins name next P : (∀ fallback out, begins out = false → begins (oc_trace (next fallback out)) = true ↔ P) →
  begins (oc_trace (loaded_and_valid render Quote load name next)) = true ↔ P ∧ validated.
Proof.
  intros Hn. unfold loaded_and_valid, validated. destruct load as [err|l]; [split; [done|naive_solver]|].
  destruct (checked_cases (ld_Problems l)) as [[-> Hv]|(err & -> & Hv)].
  - rewrite Hn by apply problems_begin. split; [intros HP; split; [done|by exists l]|by intros []].
  - cbn [oc_trace]. rewrite problems_begin. split; [done|]. intros (_ & l' & [= <-] & Hl). congruence.
Qed.

Lemma run_operation_begins fallback out op : begins (oc_trace (run_operation render report write_error f run fallback out op)) = true.
Proof.
  unfold run_operation. destruct (told_selection _ _) as [told scope]. destruct (finishRun _ _ _ _ _ _ _) as [o e].
  cbn [oc_trace]. rewrite !begins_app. simpl. by rewrite orb_true_r.
Qed.

Lemma apply_begins : begins (oc_trace (apply_command render report Quote write_error of_error f args load run)) = true ↔ apply_accepted.
Proof.
  unfold apply_command, apply_accepted. rewrite <-(run_args_None "apply"). destruct (run_args Quote args "apply"); [split; [done|naive_solver]|].
  destruct (negb (bool_decide (fl_plan f = "")) && fl_selected f) eqn:Hsel.
  { apply andb_true_iff in Hsel as [Hp%negb_true_iff%bool_decide_eq_false Hs]. split; [done|]. intros (_ & _ & Hplan & _). destruct (Hplan Hp). congruence. }
  destruct (known_output (fl_output f)); simpl negb; cbv iota; [|split; [done|naive_solver]].
  destruct (json f && negb (fl_auto_approve f)) eqn:Hj.
  { apply andb_true_iff in Hj as [Hj Ha%negb_true_iff]. split; [done|]. intros (_ & _ & _ & Happ & _). specialize (Happ Hj). congruence. }
  rewrite passed_both, negb_false_iff in Hj.
  rewrite (loaded_begins _ _ (is_ok (ParseApprove (fl_approve f)) = true ∧ (fl_plan f ≠ "" → fl_retain f = false))).
  - rewrite passed_both, negb_true_iff, bool_decide_eq_false in Hsel. naive_solver.
  - intros fallback out Ho. destruct (ParseApprove (fl_approve f)); [|cbn [oc_trace]; rewrite Ho; split; [done|naive_solver]].
    case_bool_decide as Hp; [rewrite run_operation_begins; naive_solver|].
    destruct (fl_retain f); [cbn [oc_trace]; rewrite Ho|rewrite run_operation_begins]; naive_solver.
Qed.

Lemma destroy_begins : begins (oc_trace (destroy_command render report Quote write_error f args load run)) = true ↔ destroy_accepted.
Proof.
  unfold destroy_command, destroy_accepted. rewrite <-(run_args_None "destroy"). destruct (run_args Quote args "destroy"); [split; [done|naive_solver]|].
  destruct (known_output (fl_output f)); simpl negb; cbv iota; [|split; [done|naive_solver]].
  destruct (json f && negb (fl_auto_approve f)) eqn:Hj.
  { apply andb_true_iff in Hj as [Hj Ha%negb_true_iff]. split; [done|]. intros (_ & _ & Happ & _). specialize (Happ Hj). congruence. }
  rewrite passed_both, negb_false_iff in Hj. rewrite (loaded_begins _ _ True); [naive_solver|].
  intros fallback out _. by rewrite run_operation_begins.
Qed.

End Streams.


(** The lock object is released only on demand, and only while no other process
    of this machine uses the blueprint. *)
Lemma force_unlock_guarded yes a : ReleasedGraphLock ∈ (force_unlock yes a).1 →
  yes = true ∧ ua_acquire a = inl false ∧ ∃ rest, (force_unlock yes a).1 = TookProcessLock :: rest.
Proof.
  unfold force_unlock. destruct (ua_metadata a) as [|[s3|]]; [set_solver| |set_solver]. destruct (ua_base a); [set_solver|].
  destruct (ua_acquire a) as [[]|]; [set_solver| |set_solver]. destruct (ua_holder a) as [who created].
  destruct yes; simpl; [|set_solver]. intros _. split; [done|]. split; [done|]. destruct (ua_release a); by eexists.
Qed.
