(* ===== verification/Maintenance.v ===== *)
(** The commands around the stored records, the plugins, the vendored modules
    and one node (src/internal/cli: execution_records.go, execution_recovery.go,
    execution_cleanup.go, plugins.go, node_operation.go and [newVendorCmd] of
    cli.go; src/internal/engine/execution_history.go).

    A command is the trace of what it holds, what it asks of the rest of the
    program and what it writes; the rest of the program answers.  Deferred
    calls run in the reverse order of their statements. *)
From stdpp Require Import pretty.
From S2P Require Import Prelude GoLib Blueprint Module Graph Backend Selection Expand Vendor Gate Execution PluginPackage Diagnose Views Cli.

(** ** Traces *)

(** What is asked of the engine and of the plugin packages. *)
Inductive call :=
  | ListExecutions | GetExecution (id : string) | ReadExecutionBackup (id : string)
  | RecoverExecution (id : string) (confirmStopped stateReviewed replan initializeBackend : bool)
  | CancelExecution (id : string) | PruneExecutions
  | RecoverPluginCall (id callID : string) (confirmStopped acknowledge : bool) | ReadPluginReport (id callID : string)
  | InstallPackage (alias dir : string) (locked : bool) | RunNode (node : string) (args : list string).

Inductive effect :=
  | LockTaken | LockGiven
  | EvaluationStarted | EvaluationClosed | LifecycleStarted | LifecycleClosed
  | Emitted (phase : string) (nodes : list string) (status : string)
  | Vendored (nodes : list string) (force : bool)
  | Asked (c : call)
  | Told (c : chunk).

Record command := MkCommand { cm_trace : list effect; cm_fallback : Diagnose.Diagnostic; cm_err : option goerr }.

(** What reaches the streams, as the boundary of Cli.v sees it. *)
Definition told (t : list effect) : list chunk := omap (λ e, match e with Told c => Some c | _ => None end) t.
Definition as_outcome (c : command) : outcome := MkOutcome (told (cm_trace c)) (cm_fallback c) (cm_err c).

(** [errors.Join(err, closing)]. *)
Definition joined (err closing : option goerr) : option goerr :=
  match closing with
  | None => err
  | Some c => Some (EJoin None (match err with Some e => [e; c] | None => [c] end))
  end.

(** ** Opening (engine/execution_history.go, engine.go) *)

Record opening := MkOpening { on_metadata : option goerr; on_abs : option goerr; on_acquire : option goerr }.

Definition OpenExecutionHistory (o : opening) : list effect * option goerr :=
  match on_metadata o with
  | Some err => ([], Some err)
  | None =>
    match on_abs o with
    | Some err => ([], Some (EWrap None ("resolving execution directory: " +:+ Error err) err))
    | None => match on_acquire o with Some err => ([], Some err) | None => ([LockTaken], None) end
    end
  end.

(** What a load under the lock answers; a load that fails gives the lock back. *)
Record loading := MkLoading { lg_base : option goerr; lg_acquire : option goerr; lg_load : option goerr }.
Definition load_locked (l : loading) : list effect * option goerr :=
  match lg_base l with
  | Some err => ([], Some err)
  | None =>
    match lg_acquire l with
    | Some err => ([], Some (EWrap None ("locking blueprint: " +:+ Error err) err))
    | None => match lg_load l with Some err => ([LockTaken; LockGiven], Some err) | None => ([LockTaken], None) end
    end
  end.

(** A body between an opening and the deferred close. *)
Definition held_for {A} (opened : list effect * option goerr) (none : A) (body : list effect * A * option goerr) : list effect * A * option goerr :=
  match opened with
  | (t, Some err) => (t, none, Some err)
  | (t, None) => let '(b, x, err) := body in (t ++ b ++ [LockGiven], x, err)
  end.

Section Maintenance.
Context (render : text → string) (report : diagnostic → Diagnose.Diagnostic) (Quote : string → string).
Context (errorLocation : goerr → option sourceLocationDTO) (write_error : option goerr) (of_error : error → goerr).
Context (call_decision : CallRecord → string) (call_reported : CallRecord → bool).
(** Cobra's checks of the number of arguments, and a line the terminal may refuse. *)
Context (NoArgs : list string → goerr) (ExactArgs : nat → list string → goerr) (print_error : string → option goerr).

Notation errorDiagnostics := (errorDiagnostics render errorLocation).
Notation written := (writeJSON write_error).
Notation record_dto := (executionToDTO render report call_decision call_reported).

Definition no_args (args : list string) : option goerr := if decide (args = []) then None else Some (NoArgs args).
Definition exact_args (n : nat) (args : list string) : option goerr := if decide (length args = n) then None else Some (ExactArgs n args).
Definition arg (i : nat) (args : list string) : string := default "" (args !! i).

Definition unknown_format (o : string) : goerr := plain_error ("unknown output " +:+ Quote o +:+ " (want text or json)").
Definition diagnostics_of (err : option goerr) (fallback : Diagnose.Diagnostic) : list diagnosticDTO :=
  match err with Some e => errorDiagnostics e fallback | None => [] end.
(** [Fprintf] to the standard output whose error is returned. *)
Definition print (s : string) : list effect * option goerr := ([Told (OutText s)], print_error s).

(** ** plan list and plan show (execution_records.go) *)

Record history_answers := MkHistoryAnswers {
  ha_open : opening;
  ha_backup : list string * option goerr;
  ha_get : ExecutionRecord * option goerr;
  ha_list : list ExecutionRecord * option goerr;
}.

Definition call_line (c : pluginCallDTO) : string :=
  "  plugin " +:+ cd_Plugin c +:+ "." +:+ cd_Feature c +:+ " " +:+ cd_Phase c +:+ " " +:+ cd_ID c +:+ ": " +:+ cd_Status c.

Definition record_lines (show : bool) (r : executionDTO) : list string :=
  (ed_ID r +:+ "  " +:+ ed_Operation r +:+ "  " +:+ ed_Status r)
  :: (if show then
        printSelection (ed_Selection r) [] ++ (call_line <$> ed_PluginCalls r)
        ++ (if ed_Backup r then ["  backup: available (export with plan show --backup)"] else [])
        ++ (if decide (ed_Preparation r = "") then [] else ["  backend preparation: " +:+ ed_Preparation r])
        ++ ((λ n, "  " +:+ xd_Node n +:+ ": " +:+ xd_Phase n) <$> ed_Nodes r)
      else []).

Definition read_failure (phase : string) : Diagnose.Diagnostic :=
  Diagnose.MkDiagnostic "execution_read_failed" phase "execution" ""
    "check the selected execution store and restore missing records; do not infer that infrastructure was unchanged" (categoryForPhase phase) "" "".

(** The deferred end of the command: the document, or the lines, of what was read. *)
Definition finish_history (show : bool) (output phase : string) (executions : list executionDTO) (err : option goerr) : list chunk * option goerr :=
  let diagnostics := diagnostics_of err (read_failure phase) in
  if bool_decide (output = "json") then
    let version := if existsb (λ r, negb (bool_decide (length (ed_PluginCalls r) = 0))) executions then 2%Z else 1%Z in
    let '(out, werr) := written (HistoryDocument version None executions diagnostics) in
    (out, joined err werr)
  else if bool_decide (output = "text") then (OutText <$> concat (record_lines show <$> executions), err)
  else ([], err).

Definition history_body (show backup : bool) (args : list string) (a : history_answers) : list effect * list executionDTO * option goerr :=
  if backup then let '(lines, err) := ha_backup a in (Asked (ReadExecutionBackup (arg 0 args)) :: (Told ∘ OutText <$> lines), [], err)
  else if show then
    let '(record, err) := ha_get a in
    ([Asked (GetExecution (arg 0 args))], if decide (er_ID record = "") then [] else [record_dto record], err)
  else let '(records, err) := ha_list a in ([Asked ListExecutions], record_dto <$> records, err).

(** [show] tells the kinds apart; only [show] has the flag [backup]. *)
Definition history_command (show backup : bool) (output : string) (args : list string) (a : history_answers) : command :=
  if backup && negb (bool_decide (output = "text"))
  then MkCommand [] first_fallback (Some (plain_error "--backup emits raw native state; omit --output json"))
  else
    let refused (err : goerr) :=
      let '(out, err) := finish_history show output "arguments" [] (Some err) in MkCommand (Told <$> out) first_fallback err in
    match (if show then exact_args 1 args else no_args args) with
    | Some err => refused err
    | None =>
      if negb (known_output output) then refused (unknown_format output)
      else
        let '(t, executions, err) := held_for (OpenExecutionHistory (ha_open a)) [] (history_body show backup args a) in
        let '(out, err) := finish_history show output "history" executions err in
        MkCommand (t ++ (Told <$> out)) (phase_fallback "record" (if show then "show" else "list")) err
    end.

(** ** plan recover (execution_recovery.go) *)

Record recovery_flags := MkRecoveryFlags { rf_confirmStopped : bool; rf_stateReviewed : bool; rf_replan : bool; rf_initializeBackend : bool }.
Record recovery_answers := MkRecoveryAnswers { ra_history : opening; ra_engine : loading; ra_recover : ExecutionRecord * option goerr }.

Definition recovery_failure (id : string) : Diagnose.Diagnostic :=
  Diagnose.MkDiagnostic "recovery_required" "recovery" "execution" "" "" "recovery" "" id.

Definition recovery_body (f : recovery_flags) (output : string) (args : list string) (a : recovery_answers) : list effect * unit * option goerr :=
  let asked := Asked (RecoverExecution (arg 0 args) (rf_confirmStopped f) (rf_stateReviewed f) (rf_replan f) (rf_initializeBackend f)) in
  let '(record, err) := ra_recover a in
  if bool_decide (output = "json") then
    let diagnostics := diagnostics_of err (recovery_failure (er_ID record)) in
    let '(out, werr) :=
      written (if decide (er_ID record = "") then ErrorResult diagnostics
                 else RecoveryDocument (er_SchemaVersion record) (record_dto record) diagnostics) in
    (asked :: (Told <$> out), tt, match werr with Some w => Some w | None => err end)
  else
    match err with
    | Some err => ([asked], tt, Some err)
    | None => let '(out, err) := print (er_ID record +:+ ": " +:+ er_Status record +:+ "; create a fresh plan before continuing") in (asked :: out, tt, err)
    end.

Definition recover_command (f : recovery_flags) (output : string) (args : list string) (a : recovery_answers) : command :=
  match exact_args 1 args with
  | Some err => MkCommand [] first_fallback (Some err)
  | None =>
    if negb (known_output output) then MkCommand [] first_fallback (Some (unknown_format output))
    else
      let opened := if rf_replan f then OpenExecutionHistory (ra_history a) else load_locked (ra_engine a) in
      let '(t, _, err) := held_for opened tt (recovery_body f output args a) in
      MkCommand t (phase_fallback (if rf_replan f then "record" else "load") "recover") err
  end.

(** ** plan cancel and plan prune (execution_cleanup.go) *)

Record cleanup_answers := MkCleanupAnswers {
  ca_open : opening; ca_cancel : option ExecutionRecord * option goerr; ca_prune : list string * option goerr;
}.

Definition prune_failure : Diagnose.Diagnostic :=
  Diagnose.MkDiagnostic "execution_prune_failed" "record" "execution" "" "" "record" "" "".

Definition cleanup_body (cancel : bool) (output : string) (args : list string) (a : cleanup_answers) : list effect * unit * option goerr :=
  if cancel then
    let '(record, err) := ca_cancel a in
    let '(out, err) := finishSavedExecution render report errorLocation write_error call_decision call_reported
                         (MkFlags output "" None false false false "" "" false false "") record err None in
    (Asked (CancelExecution (arg 0 args)) :: (Told <$> out), tt, err)
  else
    let '(removed, err) := ca_prune a in
    if bool_decide (output = "json") then
      let '(out, werr) := written (PruneDocument removed (diagnostics_of err prune_failure)) in
      (Asked PruneExecutions :: (Told <$> out), tt, match werr with Some w => Some w | None => err end)
    else (Asked PruneExecutions :: (Told ∘ OutText <$> removed), tt, err).

Definition cleanup_command (cancel : bool) (output : string) (args : list string) (a : cleanup_answers) : command :=
  match (if cancel then exact_args 1 args else no_args args) with
  | Some err => MkCommand [] first_fallback (Some err)
  | None =>
    if negb (known_output output) then MkCommand [] first_fallback (Some (unknown_format output))
    else
      let '(t, _, err) := held_for (OpenExecutionHistory (ca_open a)) tt (cleanup_body cancel output args a) in
      MkCommand t (phase_fallback "record" (if cancel then "cancel" else "prune")) err
  end.

(** ** run (node_operation.go) *)

(** [dash] is where the double dash was among the arguments, [-1] without one. *)
Definition run_node_command (dash : Z) (node : string) (args : list string) (l : loading) (ran : list chunk * option goerr) : command :=
  if negb (bool_decide (dash = 0%Z))
  then MkCommand [] first_fallback (Some (plain_error "separate native command arguments with -- after --node"))
  else
    let '(t, _, err) := held_for (load_locked l) tt (Asked (RunNode node args) :: (Told <$> ran.1), tt, ran.2) in
    MkCommand t first_fallback err.

(** ** plugin (plugins.go) *)

(** Lines are printed until one is refused. *)
Fixpoint print_lines (lines : list string) : list effect * option goerr :=
  match lines with
  | [] => ([], None)
  | s :: rest =>
    match print s with
    | (t, Some err) => (t, Some err)
    | (t, None) => let '(u, err) := print_lines rest in (t ++ u, err)
    end
  end.

Section Packages.
Context (platform : string) (satisfies : string → string → option error) (fs : PluginFS).
Context (LoadPlugins : goerr + list PluginConfig).

(** [plugin install]: what the package supplied reads as, and what its copy does. *)
Definition install_command (locked : bool) (args : list string) (acquire : option goerr) (source copied : result Package) : command * PluginFS :=
  match exact_args 2 args, LoadPlugins with
  | Some err, _ => (MkCommand [] first_fallback (Some err), fs)
  | None, inl err => (MkCommand [] first_fallback (Some err), fs)
  | None, inr configs =>
    let alias := arg 0 args in
    match List.find (λ c, bool_decide (pg_Name c = alias)) configs with
    | None => (MkCommand [] first_fallback (Some (plain_error ("plugin." +:+ alias +:+ ": no declaration; add a plugin block to the blueprint"))), fs)
    | Some config =>
      match acquire with
      | Some err => (MkCommand [] first_fallback (Some err), fs)
      | None =>
        let '(fs', installed) := Install platform satisfies fs config source copied locked in
        let '(t, _, err) :=
          held_for ([LockTaken], None) tt
            match installed with
            | Err err => ([Asked (InstallPackage alias (arg 1 args) locked)], tt, Some (of_error err))
            | Ok _ =>
              let '(out, err) := print ("installed " +:+ pg_Name config +:+ " (" +:+ platform +:+ ")") in
              (Asked (InstallPackage alias (arg 1 args) locked) :: out, tt, err)
            end in
        (MkCommand t first_fallback err, fs')
      end
    end
  end.

(** [plugin inspect]: no lock, nothing executed. *)
Definition package_lines (p : Package) : list string :=
  let d := pk_Descriptor p in
  (ds_Name d +:+ " " +:+ ds_Version d +:+ newline +:+ "protocol: " +:+ pretty (ds_Protocol d) +:+ newline +:+ "checksum: " +:+ pk_Digest p)
  :: ((λ f, ft_Name f +:+ ": " +:+ ft_Kind f +:+ " (" +:+ ft_Effect f +:+ ")") <$> ds_Features d).

Definition inspect_command (args : list string) (inspected : result Package) : command :=
  match exact_args 1 args, inspected with
  | Some err, _ => MkCommand [] first_fallback (Some err)
  | None, Err err => MkCommand [] first_fallback (Some (of_error err))
  | None, Ok p => let '(t, err) := print_lines (package_lines p) in MkCommand t first_fallback err
  end.

(** [plugin list]: every declared plugin is verified against the lock before its line. *)
Fixpoint list_plugins (configs : list PluginConfig) : list effect * option goerr :=
  match configs with
  | [] => ([], None)
  | c :: configs =>
    match ResolvePackage platform satisfies fs c with
    | Err err => ([], Some (of_error err))
    | Ok p =>
      match print (pg_Name c +:+ " " +:+ pg_Source c +:+ " " +:+ ds_Version (pk_Descriptor p) +:+ " " +:+ platform) with
      | (t, Some err) => (t, Some err)
      | (t, None) => let '(u, err) := list_plugins configs in (t ++ u, err)
      end
    end
  end.

Definition list_command (args : list string) : command :=
  match no_args args, LoadPlugins with
  | Some err, _ => MkCommand [] first_fallback (Some err)
  | None, inl err => MkCommand [] first_fallback (Some err)
  | None, inr configs => let '(t, err) := list_plugins configs in MkCommand t first_fallback err
  end.

(** [plugin recover]: the declarations are only read for a replay. *)
Definition plugin_recover_command (stopped acknowledge : bool) (args : list string) (o : opening) (recovered : ExecutionRecord * option goerr) : command :=
  match exact_args 2 args with
  | Some err => MkCommand [] first_fallback (Some err)
  | None =>
    let '(t, _, err) :=
      held_for (OpenExecutionHistory o) tt
        match (if acknowledge then inr [] else LoadPlugins) with
        | inl err => ([], tt, Some err)
        | inr _ =>
          let asked := Asked (RecoverPluginCall (arg 0 args) (arg 1 args) stopped acknowledge) in
          let '(record, err) := recovered in
          match err with
          | Some err => ([asked], tt, Some err)
          | None => let '(out, err) := print (er_ID record +:+ ": " +:+ er_Status record) in (asked :: out, tt, err)
          end
        end in
    MkCommand t first_fallback err
  end.

Definition plugin_report_command (args : list string) (o : opening) (reported : list string * option goerr) : command :=
  match exact_args 2 args with
  | Some err => MkCommand [] first_fallback (Some err)
  | None =>
    let '(t, _, err) :=
      held_for (OpenExecutionHistory o) tt
        (Asked (ReadPluginReport (arg 0 args) (arg 1 args)) :: (Told ∘ OutText <$> reported.1), tt, reported.2) in
    MkCommand t first_fallback err
  end.
End Packages.

(** ** vendor (cli.go) *)

Record vendor_answers := MkVendorAnswers {
  va_base : option goerr; va_acquire : option goerr;
  va_evaluate : option goerr; va_load : option goerr; va_expand : option goerr; va_lifecycle : option goerr;
  va_sources : goerr + list SourceNode;
  va_before : option goerr;
  va_vendor : list Node → Options → list Result * option error;
  va_close_lifecycle : option goerr; va_close_evaluation : option goerr;
}.

(** The leaves to vendor, and where their sources were kept before. *)
Fixpoint select_sources (node : string) (sources : list SourceNode) (nodes : list Node) (legacy : gmap string string) :
    goerr + list Node * gmap string string :=
  match sources with
  | [] => inr (nodes, legacy)
  | s :: sources =>
    let n := src_Node s in
    if negb (bool_decide (node = "")) && negb (bool_decide (bn_Name n = node)) then select_sources node sources nodes legacy
    else if negb (bool_decide (node = "")) && negb (IsRemote (bn_Source n))
    then inl (plain_error ("node " +:+ Quote node +:+ " has a local source (" +:+ Quote (bn_Source n) +:+ "); nothing to vendor"))
    else select_sources node sources (nodes ++ [n])
           (if decide (src_LegacyDir s = "") then legacy else <[bn_Name n := src_LegacyDir s]> legacy)
  end.

Definition vendor_selection (node : string) (sources : list SourceNode) : goerr + list Node * gmap string string :=
  match select_sources node sources [] ∅ with
  | inl err => inl err
  | inr (nodes, legacy) =>
    if negb (bool_decide (node = "")) && bool_decide (length nodes = 0) then inl (plain_error ("unknown node " +:+ Quote node))
    else inr (nodes, legacy)
  end.

Definition failed (r : Result) : bool := bool_decide (is_Some (res_Err r)).

(** The status the plugins are told. *)
Definition vendor_status (results : list Result) (err : option error) : string :=
  if bool_decide (is_Some err) || existsb failed results then "failed" else "completed".

Definition vendor_failure (subject : string) : Diagnose.Diagnostic :=
  Diagnose.MkDiagnostic "vendor_failed" "vendor" subject "" "" "artifact" "" "".

(** [vendorResultsToDTO] (output.go). *)
Definition vendorResultsToDTO (results : list Result) : list vendorResultDTO :=
  (λ r, match res_Err r with
        | Some err => MkVendorDTO (errorDiagnostics (of_error err) (vendor_failure ("node." +:+ res_Node r))) (res_Node r) "error" (Error (of_error err))
        | None => MkVendorDTO [] (res_Node r) (if res_Skipped r then "skipped" else "vendored") ""
        end) <$> results.

Definition vendor_line (r : Result) : option chunk :=
  match res_Err r with
  | Some _ => None
  | None => Some (OutText (res_Node r +:+ (if res_Skipped r then ": already vendored (use --force to re-fetch)" else ": vendored")))
  end.

(** What is said of the results once the observers were told. *)
Definition vendor_report (output : string) (results : list Result) (err : option error) : list chunk * option goerr :=
  let verdict :=
    match err with
    | Some e => Some (of_error e)
    | None =>
      let errors := length (filter (λ r, failed r = true) results) in
      if decide (errors = 0) then None else Some (plain_error (pretty errors +:+ " node(s) failed to vendor"))
    end in
  if bool_decide (output = "json") then
    let payload :=
      match err with
      | None => VendorResults (vendorResultsToDTO results)
      | Some e =>
        let diagnostics := errorDiagnostics (of_error e) (vendor_failure "vendor") in
        if decide (results = []) then ErrorResult diagnostics else VendorFailure (vendorResultsToDTO results) diagnostics
      end in
    let '(out, werr) := written payload in
    (out, match werr with Some w => Some w | None => verdict end)
  else
    (omap vendor_line results
       ++ (if bool_decide (verdict = None) && bool_decide (length results = 0) then [OutText "nothing to vendor (no remote node sources)"] else []),
     verdict).

(** Between the lifecycle's start and its deferred close; a failing observer of
    the end is only logged. *)
Definition vendor_body (node : string) (force : bool) (output : string) (a : vendor_answers) : list effect * string * option goerr :=
  match va_sources a with
  | inl err => ([], "load", Some err)
  | inr sources =>
    match vendor_selection node sources with
    | inl err => ([], "selection", Some err)
    | inr (nodes, legacy) =>
      let names := bn_Name <$> nodes in
      let before := Emitted "source.vendor.before" names "" in
      match va_before a with
      | Some err => ([before], "artifact", Some err)
      | None =>
        let '(results, err) := va_vendor a nodes (MkOptions force legacy) in
        let '(out, verdict) := vendor_report output results err in
        ([before; Vendored names force; Emitted "source.vendor.after" names (vendor_status results err)] ++ (Told <$> out), "artifact", verdict)
      end
    end
  end.

(** With the evaluation: its load, the expansion, and the lifecycle around the body. *)
Definition vendor_evaluated (node : string) (force : bool) (output : string) (a : vendor_answers) : list effect * string * option goerr :=
  match va_load a, va_expand a, va_lifecycle a with
  | Some err, _, _ | None, Some err, _ | None, None, Some err => ([], "load", Some err)
  | None, None, None =>
    let '(t, phase, err) := vendor_body node force output a in
    (LifecycleStarted :: t ++ [LifecycleClosed], phase, joined err (va_close_lifecycle a))
  end.

Definition vendor_command (node : string) (force : bool) (output : string) (a : vendor_answers) : command :=
  if negb (known_output output) then MkCommand [] first_fallback (Some (unknown_output Quote output))
  else
    match va_base a, va_acquire a with
    | Some err, _ => MkCommand [] (phase_fallback "load" "vendor") (Some err)
    | None, Some err => MkCommand [] (phase_fallback "load" "vendor") (Some (EWrap None ("locking blueprint: " +:+ Error err) err))
    | None, None =>
      let '(t, phase, err) :=
        held_for ([LockTaken], None) "load"
          match va_evaluate a with
          | Some err => ([], "load", Some err)
          | None =>
            let '(t, phase, err) := vendor_evaluated node force output a in
            (EvaluationStarted :: t ++ [EvaluationClosed], phase, joined err (va_close_evaluation a))
          end in
      MkCommand t (phase_fallback phase "vendor") err
    end.
End Maintenance.

(** ** What a command holds *)

Record held := MkHeld { hl_lock : bool; hl_evaluation : bool; hl_lifecycle : bool }.
Definition nothing : held := MkHeld false false false.
Definition locked : held := MkHeld true false false.

(** A step is lawful when what it takes is free, what it gives back is held by
    it last, and what it asks or vendors is protected by the lock. *)
Definition watch_step (s : held) (e : effect) : option held :=
  match e, s with
  | LockTaken, MkHeld false false false => Some locked
  | LockGiven, MkHeld true false false => Some nothing
  | EvaluationStarted, MkHeld true false false => Some (MkHeld true true false)
  | EvaluationClosed, MkHeld true true false => Some locked
  | LifecycleStarted, MkHeld true true false => Some (MkHeld true true true)
  | LifecycleClosed, MkHeld true true true => Some (MkHeld true true false)
  | (Emitted _ _ _ | Vendored _ _), MkHeld true true true => Some s
  | Asked _, MkHeld true false false => Some s
  | Told _, _ => Some s
  | _, _ => None
  end.
Definition watch (s : held) (t : list effect) : option held := foldl (λ s e, s ← s; watch_step s e) (Some s) t.
(** Everything taken on the way is given back. *)
Definition keeps (s : held) (t : list effect) : Prop := watch s t = Some s.

Lemma watch_app s t u : watch s (t ++ u) = s' ← watch s t; watch s' u.
Proof.
  unfold watch. rewrite foldl_app. destruct (foldl _ (Some s) t) as [s'|]; [done|]. simpl. by induction u.
Qed.

Lemma watch_cons s e t : watch s (e :: t) = s' ← watch_step s e; watch s' t.
Proof. apply (watch_app s [e] t). Qed.

Lemma keeps_nil s : keeps s [].
Proof. done. Qed.
Lemma keeps_app s t u : keeps s t → keeps s u → keeps s (t ++ u).
Proof. unfold keeps. intros Ht Hu. rewrite watch_app, Ht. exact Hu. Qed.
Lemma keeps_cons s e t : watch_step s e = Some s → keeps s t → keeps s (e :: t).
Proof. unfold keeps. intros He Ht. rewrite watch_cons, He. exact Ht. Qed.
Lemma keeps_told s out : keeps s (Told <$> out).
Proof. induction out as [|c out IH]; [done|]. by apply keeps_cons. Qed.
Lemma keeps_lines s lines : keeps s (Told ∘ OutText <$> lines).
Proof. rewrite list_fmap_compose. apply keeps_told. Qed.
(** Something taken before and given back after. *)
Lemma keeps_around s e t e' s' : watch_step s e = Some s' → watch_step s' e' = Some s → keeps s' t → keeps s (e :: t ++ [e']).
Proof. unfold keeps. intros He He' Ht. rewrite watch_cons, He. simpl. rewrite watch_app, Ht. simpl. by rewrite watch_cons, He'. Qed.

#[local] Hint Resolve keeps_nil keeps_told keeps_lines keeps_cons keeps_app : keeps.
#[local] Hint Extern 1 (watch_step _ _ = Some _) => reflexivity : keeps.

(** An opening that fails holds nothing, one that succeeds the lock. *)
Definition opens (o : list effect * option goerr) : Prop :=
  watch nothing o.1 = Some (match o.2 with Some _ => nothing | None => locked end) ∧ told o.1 = [].

Lemma history_opens o : opens (OpenExecutionHistory o).
Proof. unfold OpenExecutionHistory. destruct (on_metadata o), (on_abs o), (on_acquire o); by split. Qed.
Lemma load_opens l : opens (load_locked l).
Proof. unfold load_locked. destruct (lg_base l), (lg_acquire l), (lg_load l); by split. Qed.
Lemma lock_opens : opens ([LockTaken], None).
Proof. by split. Qed.
#[local] Hint Resolve history_opens load_opens lock_opens : keeps.

Lemma held_keeps {A} opened (none : A) body : opens opened → keeps locked body.1.1 → keeps nothing (held_for opened none body).1.1.
Proof.
  destruct opened as [t [err|]], body as [[b x] err']; intros [Ho _] Hb; [done|]. unfold keeps, held_for in *. cbn [fst snd] in *.
  rewrite watch_app, Ho. simpl. by rewrite watch_app, Hb.
Qed.

(** Steps into the body of a command that opens, runs and closes. *)
Ltac held_body H :=
  match goal with
  | |- context [held_for ?x ?y ?z] => pose proof (held_keeps x y z) as H; destruct (held_for x y z) as [[? ?] ?]
  end; cbn [cm_trace fst] in *.

Lemma told_app t u : told (t ++ u) = told t ++ told u.
Proof. apply omap_app. Qed.
Lemma told_told out : told (Told <$> out) = out.
Proof. induction out as [|c out IH]; [done|]. rewrite fmap_cons. cbn. by f_equal. Qed.

(** What is said under the lock is what the body says. *)
Lemma held_told {A} opened (none : A) body : opens opened →
  match opened.2 with
  | Some err => told (held_for opened none body).1.1 = [] ∧ (held_for opened none body).2 = Some err
  | None => told (held_for opened none body).1.1 = told body.1.1 ∧ (held_for opened none body).2 = body.2
  end.
Proof.
  destruct opened as [t [err|]], body as [[b x] err']; intros [_ Ho]; unfold held_for; cbn [fst snd] in *; [done|].
  by rewrite !told_app, Ho, app_nil_r.
Qed.

Section Discipline.
Context (render : text → string) (report : diagnostic → Diagnose.Diagnostic) (Quote : string → string).
Context (errorLocation : goerr → option sourceLocationDTO) (write_error : option goerr) (of_error : error → goerr).
Context (call_decision : CallRecord → string) (call_reported : CallRecord → bool).
Context (NoArgs : list string → goerr) (ExactArgs : nat → list string → goerr) (print_error : string → option goerr).

Notation history := (history_command render report Quote errorLocation write_error call_decision call_reported NoArgs ExactArgs).
Notation recover := (recover_command render report Quote errorLocation write_error call_decision call_reported ExactArgs print_error).
Notation cleanup := (cleanup_command render report Quote errorLocation write_error call_decision call_reported NoArgs ExactArgs).
Notation vendoring := (vendor_command render Quote errorLocation write_error of_error).

(** *** The lock *)

Lemma history_keeps show backup output args a : keeps nothing (cm_trace (history show backup output args a)).
Proof.
  unfold history_command. destruct (backup && _); [done|].
  destruct (if show then _ else _); [destruct (finish_history _ _ _ _ _ _ _ _); cbn [cm_trace]; auto with keeps|].
  destruct (known_output _); simpl; [|destruct (finish_history _ _ _ _ _ _ _ _); cbn [cm_trace]; auto with keeps].
  held_body Hk. destruct (finish_history _ _ _ _ _ _ _ _) as [out err']. cbn [cm_trace fst] in *.
  apply keeps_app; [|auto with keeps]. apply Hk; [auto with keeps|]. unfold history_body.
  destruct backup; [destruct (ha_backup a); cbn; auto with keeps|]. destruct show; [destruct (ha_get a)|destruct (ha_list a)]; cbn; auto with keeps.
Qed.

Lemma recover_keeps f output args a : keeps nothing (cm_trace (recover f output args a)).
Proof.
  unfold recover_command. destruct (exact_args _ _ _); [done|]. destruct (known_output _); simpl; [|done].
  held_body Hk. apply Hk; [destruct (rf_replan f); auto with keeps|].
  unfold recovery_body. destruct (ra_recover a) as [record [err'|]], (bool_decide _); cbn; auto with keeps.
Qed.

Lemma cleanup_keeps cancel output args a : keeps nothing (cm_trace (cleanup cancel output args a)).
Proof.
  unfold cleanup_command. destruct (if cancel then _ else _); [done|]. destruct (known_output _); simpl; [|done].
  held_body Hk. apply Hk; [auto with keeps|].
  unfold cleanup_body. destruct cancel; [destruct (ca_cancel a) as [record err'], (finishSavedExecution _ _ _ _ _ _ _ _ _ _)|
    destruct (ca_prune a), (bool_decide _)]; cbn; auto with keeps.
Qed.

Lemma run_node_keeps dash node args l ran : keeps nothing (cm_trace (run_node_command dash node args l ran)).
Proof.
  unfold run_node_command. destruct (bool_decide (dash = _)); simpl; [|done].
  held_body Hk. apply Hk; auto with keeps.
Qed.

Lemma vendor_keeps node force output a : keeps nothing (cm_trace (vendoring node force output a)).
Proof.
  unfold vendor_command. destruct (known_output _); simpl; [|done]. destruct (va_base a); [done|]. destruct (va_acquire a); [done|].
  destruct (va_evaluate a); [done|]. unfold vendor_evaluated. destruct (va_load a), (va_expand a), (va_lifecycle a); try done.
  assert (keeps (MkHeld true true true) (vendor_body render Quote errorLocation write_error of_error node force output a).1.1) as Hb.
  { unfold vendor_body. destruct (va_sources a); [done|]. destruct (vendor_selection _ _ _) as [|[nodes legacy]]; [done|].
    destruct (va_before a); [done|]. destruct (va_vendor a _ _) as [results err]. destruct (vendor_report _ _ _ _ _ _ _). cbn [fst app]. auto with keeps. }
  destruct (vendor_body _ _ _ _ _ _ _ _ _) as [[t phase] err]. cbn [fst snd cm_trace held_for] in *.
  apply (keeps_around nothing LockTaken _ LockGiven locked); [done..|].
  apply (keeps_around locked EvaluationStarted _ EvaluationClosed (MkHeld true true false)); [done..|].
  by apply (keeps_around (MkHeld true true false) LifecycleStarted _ LifecycleClosed (MkHeld true true true)).
Qed.

Section Packages.
Context (platform : string) (satisfies : string → string → option error) (fs : PluginFS) (LoadPlugins : goerr + list PluginConfig).

Lemma install_keeps locked args acquire source copied :
  keeps nothing (cm_trace (install_command of_error ExactArgs print_error platform satisfies fs LoadPlugins locked args acquire source copied).1).
Proof.
  unfold install_command. destruct (exact_args _ _ _); [done|]. destruct LoadPlugins; [done|]. destruct (List.find _ _); [|done].
  destruct acquire; [done|]. destruct (Install _ _ _ _ _ _ _) as [fs' [[]|err]]; by vm_compute.
Qed.

Lemma print_lines_keeps s lines : keeps s (print_lines print_error lines).1.
Proof.
  induction lines as [|l lines IH]; [done|]. cbn. destruct (print_error l); [done|].
  destruct (print_lines _ lines). by apply (keeps_cons s (Told (OutText l))).
Qed.

Lemma list_plugins_keeps configs : keeps nothing (list_plugins of_error print_error platform satisfies fs configs).1.
Proof.
  induction configs as [|c configs IH]; [done|]. cbn. destruct (ResolvePackage _ _ _ _); [|done]. destruct (print_error _); [done|].
  destruct (list_plugins _ _ _ _ _ configs). by apply (keeps_cons nothing (Told _)).
Qed.

Lemma plugin_recover_keeps stopped acknowledge args o recovered :
  keeps nothing (cm_trace (plugin_recover_command ExactArgs print_error LoadPlugins stopped acknowledge args o recovered)).
Proof.
  unfold plugin_recover_command. destruct (exact_args _ _ _); [done|].
  held_body Hk. apply Hk; [auto with keeps|]. destruct (if acknowledge then _ else _); [done|]. by destruct recovered as [record [err'|]].
Qed.

Lemma plugin_report_keeps args o reported : keeps nothing (cm_trace (plugin_report_command ExactArgs args o reported)).
Proof.
  unfold plugin_report_command. destruct (exact_args _ _ _); [done|].
  held_body Hk. apply Hk; cbn; auto with keeps.
Qed.
End Packages.

(** *** One document *)

Definition speaks_once (t : list effect) (err : option goerr) : Prop :=
  (∃ d, stdout (told t) = [Wrote d]) ∨ (silent (told t) ∧ is_Some err).

Lemma held_once {A} opened (none : A) body (fallback : A → Diagnose.Diagnostic) : opens opened → speaks_once body.1.1 body.2 →
  one_or_failed (as_outcome (let '(t, x, err) := held_for opened none body in MkCommand t (fallback x) err)).
Proof.
  intros Ho Hb. pose proof (held_told opened none body Ho) as Ht. destruct (held_for opened none body) as [[t x] err].
  cbn [fst snd] in Ht. unfold one_or_failed, as_outcome. cbn [oc_trace oc_err cm_trace cm_err].
  destruct opened.2 as [e|]; destruct Ht as [-> ->]; [right; by split; [|exists e]|exact Hb].
Qed.

Lemma history_document show phase executions err : ∃ d e,
  finish_history render errorLocation write_error show "json" phase executions err = ([Wrote d], e).
Proof. unfold finish_history, writeJSON. cbn. eauto. Qed.

Lemma history_one show backup args a : one_or_failed (as_outcome (history show backup "json" args a)).
Proof.
  unfold history_command. destruct backup; [by apply refused_one|]. cbn [andb].
  destruct (if show then _ else _) as [err|].
  { destruct (history_document show "arguments" [] (Some err)) as (d & e & ->). left. by exists d. }
  cbn [known_output negb]. pose proof (held_told (OpenExecutionHistory (ha_open a)) []
    (history_body render report call_decision call_reported show false args a) (history_opens _)) as Ht.
  destruct (held_for _ _ _) as [[t executions] err]. destruct (history_document show "history" executions err) as (d & e & ->).
  left. exists d. change (stdout (told (t ++ (Told <$> [Wrote d]))) = [Wrote d]). rewrite told_app, stdout_app.
  assert (told t = []) as ->; [|done]. cbn [fst snd] in Ht. destruct (_.2); destruct Ht as [-> _]; [done|].
  unfold history_body. destruct show; [by destruct (ha_get a)|by destruct (ha_list a)].
Qed.

Lemma recover_one f args a : one_or_failed (as_outcome (recover f "json" args a)).
Proof.
  unfold recover_command. destruct (exact_args _ _ _); [by apply refused_one|]. cbn [known_output negb].
  apply (held_once _ _ _ (λ _, _)); [destruct (rf_replan f); auto with keeps|]. unfold recovery_body. destruct (ra_recover a) as [record err]. left. by eexists.
Qed.

Lemma cleanup_one cancel args a : one_or_failed (as_outcome (cleanup cancel "json" args a)).
Proof.
  unfold cleanup_command. destruct (if cancel then _ else _); [by apply refused_one|]. cbn [known_output negb].
  apply (held_once _ _ _ (λ _, _)); [auto with keeps|]. unfold cleanup_body. destruct cancel; [destruct (ca_cancel a)|destruct (ca_prune a)]; left; by eexists.
Qed.

(** Taking and giving back say nothing, and closing only adds a failure. *)
Lemma speaks_around e t e' err closing : told [e] = [] → told [e'] = [] → speaks_once t err → speaks_once (e :: t ++ [e']) (joined err closing).
Proof.
  intros He He' Hs. assert (told (e :: t ++ [e']) = told t) as Ht.
  { change (e :: t ++ [e']) with ([e] ++ t ++ [e']). by rewrite !told_app, He, He', app_nil_r. }
  unfold speaks_once. rewrite Ht. destruct Hs as [|[Hs [x ->]]]; [by left|right; split; [done|]]. by destruct closing; eexists.
Qed.

Lemma speaks_failed err : speaks_once [] (Some err).
Proof. right. by split; [|eexists]. Qed.

Lemma vendor_body_one node force a : speaks_once (vendor_body render Quote errorLocation write_error of_error node force "json" a).1.1
    (vendor_body render Quote errorLocation write_error of_error node force "json" a).2.
Proof.
  unfold vendor_body. destruct (va_sources a); [apply speaks_failed|]. destruct (vendor_selection _ _ _) as [|[nodes legacy]]; [apply speaks_failed|].
  destruct (va_before a); [right; by split; [|eexists]|]. destruct (va_vendor a _ _) as [results err]. left. by eexists.
Qed.

Lemma vendor_one node force a : one_or_failed (as_outcome (vendoring node force "json" a)).
Proof.
  unfold vendor_command. cbn [known_output negb]. destruct (va_base a); [by apply refused_one|]. destruct (va_acquire a); [by apply refused_one|].
  apply held_once; [auto with keeps|]. destruct (va_evaluate a); [apply speaks_failed|]. unfold vendor_evaluated.
  pose proof (vendor_body_one node force a) as Hb. destruct (vendor_body _ _ _ _ _ _ _ _ _) as [[t phase] err].
  destruct (va_load a), (va_expand a), (va_lifecycle a); apply (speaks_around EvaluationStarted _ EvaluationClosed); try done;
    try apply speaks_failed. by apply (speaks_around LifecycleStarted _ LifecycleClosed).
Qed.

(** *** The theorems *)

(** The commands of this file as they can be run, and whether JSON was asked for. *)
Inductive ran : bool → command → Prop :=
  | ran_history show backup output args a : ran (bool_decide (output = "json")) (history show backup output args a)
  | ran_recover f output args a : ran (bool_decide (output = "json")) (recover f output args a)
  | ran_cleanup cancel output args a : ran (bool_decide (output = "json")) (cleanup cancel output args a)
  | ran_vendor node force output a : ran (bool_decide (output = "json")) (vendoring node force output a)
  | ran_run dash node args l answer : ran false (run_node_command dash node args l answer)
  | ran_install platform satisfies fs plugins locked args acquire source copied :
      ran false (install_command of_error ExactArgs print_error platform satisfies fs plugins locked args acquire source copied).1
  | ran_inspect args inspected : ran false (inspect_command of_error ExactArgs print_error args inspected)
  | ran_list platform satisfies fs plugins args : ran false (list_command of_error NoArgs print_error platform satisfies fs plugins args)
  | ran_plugin_recover plugins stopped acknowledge args o recovered :
      ran false (plugin_recover_command ExactArgs print_error plugins stopped acknowledge args o recovered)
  | ran_plugin_report args o reported : ran false (plugin_report_command ExactArgs args o reported).

Lemma inspect_keeps args inspected : keeps nothing (cm_trace (inspect_command of_error ExactArgs print_error args inspected)).
Proof.
  unfold inspect_command. destruct (exact_args _ _ _); [done|]. destruct inspected as [pkg|]; [|done].
  pose proof (print_lines_keeps nothing (package_lines pkg)). by destruct (print_lines _ _).
Qed.

Lemma list_keeps platform satisfies fs plugins args :
  keeps nothing (cm_trace (list_command of_error NoArgs print_error platform satisfies fs plugins args)).
Proof.
  unfold list_command. destruct (no_args _ _); [done|]. destruct plugins as [|configs]; [done|].
  pose proof (list_plugins_keeps platform satisfies fs configs). by destruct (list_plugins _ _ _ _ _ _).
Qed.

(** Every one of these commands gives back what it takes, the last first, on
    every path; it asks the engine and the package store only under the process
    lock, and vendors only with a lifecycle to observe it; and under --output
    json it writes exactly one document whatever fails. *)
Theorem maintenance_disciplined (json : bool) (c : command) : ran json c →
  keeps nothing (cm_trace c)
  ∧ (json = true → ∃ d, stdout (Execute render errorLocation write_error true (as_outcome c)).1 = [Wrote d]).
Proof.
  intros Hr. split.
  - destruct Hr; auto using history_keeps, recover_keeps, cleanup_keeps, vendor_keeps, run_node_keeps, install_keeps, inspect_keeps,
      list_keeps, plugin_recover_keeps, plugin_report_keeps.
  - intros Hj. apply Execute_asked. destruct Hr; try done; apply bool_decide_eq_true in Hj as ->;
      auto using history_one, recover_one, cleanup_one, vendor_one.
Qed.

Lemma select_sources_only node sources nodes legacy nodes' legacy' : node ≠ "" → Forall (λ n, bn_Name n = node ∧ IsRemote (bn_Source n) = true) nodes →
  select_sources Quote node sources nodes legacy = inr (nodes', legacy') → Forall (λ n, bn_Name n = node ∧ IsRemote (bn_Source n) = true) nodes'.
Proof.
  intros Hn. revert nodes legacy. induction sources as [|s sources IH]; intros nodes legacy Hf; simpl; [by intros [= <- <-]|].
  rewrite (bool_decide_eq_false_2 _ Hn). simpl. case_bool_decide as Hname; simpl; [|by apply IH].
  destruct (IsRemote (bn_Source (src_Node s))) eqn:Hr; simpl; [|done]. apply IH. apply Forall_app. split; [done|]. by constructor.
Qed.

Lemma vendor_selection_only node sources nodes legacy : vendor_selection Quote node sources = inr (nodes, legacy) → node ≠ "" →
  bn_Name <$> nodes ≠ [] ∧ Forall (eq node) (bn_Name <$> nodes).
Proof.
  unfold vendor_selection. destruct (select_sources _ _ _ _ _) as [|[nodes' legacy']] eqn:E; [done|]. intros Hs Hn.
  rewrite (bool_decide_eq_false_2 _ Hn) in Hs. simpl in Hs. case_bool_decide as Hl; [done|]. injection Hs as <- <-.
  split; [by intros ->%fmap_nil_inv|]. apply Forall_fmap. eapply Forall_impl; [by eapply select_sources_only|]. by intros n [<- _].
Qed.

Lemma vendor_report_failed output results err :
  vendor_status results err = "failed" → is_Some (vendor_report render errorLocation write_error of_error output results err).2.
Proof.
  unfold vendor_status, vendor_report. intros Hs.
  assert (is_Some (match err with Some e => Some (of_error e) | None =>
    if decide (length (filter (λ r, failed r = true) results) = 0) then None
    else Some (plain_error (pretty (length (filter (λ r, failed r = true) results)) +:+ " node(s) failed to vendor")) end)) as [v Hv].
  { destruct err; [by eexists|]. simpl in Hs. destruct (existsb failed results) eqn:E; [|done].
    apply existsb_exists in E as (r & Hr%list_elem_of_In & Hf). case_decide as Hl; [|by eexists].
    apply nil_length_inv in Hl. assert (r ∈ filter (λ r, failed r = true) results) as Hx by by apply list_elem_of_filter.
    rewrite Hl in Hx. by apply elem_of_nil in Hx. }
  rewrite Hv. destruct (bool_decide (output = _)); [|by exists v]. unfold writeJSON. destruct write_error; by eexists.
Qed.

(** What a trace vendors. *)
Definition vendorings (t : list effect) : list (list string * bool) := omap (λ e, match e with Vendored n f => Some (n, f) | _ => None end) t.
Lemma vendorings_cons e t : vendorings (e :: t) = match e with Vendored n f => (n, f) :: vendorings t | _ => vendorings t end.
Proof. by destruct e. Qed.
Lemma vendorings_app t u : vendorings (t ++ u) = vendorings t ++ vendorings u.
Proof. apply omap_app. Qed.
Lemma vendorings_told out : vendorings (Told <$> out) = [].
Proof. by induction out. Qed.
Lemma vendorings_elem n f t : Vendored n f ∈ t → (n, f) ∈ vendorings t.
Proof. intros Hin. apply list_elem_of_omap. by exists (Vendored n f). Qed.

(** A vendor command that vendors announces it first and tells the outcome
    afterwards, with the status "failed" only if the command fails; and --node
    restricts it to the nodes of that name, of which there is at least one. *)
Theorem vendor_observed node force output a names forced :
  Vendored names forced ∈ cm_trace (vendoring node force output a) →
  ∃ status out, forced = force
    ∧ cm_trace (vendoring node force output a)
      = [LockTaken; EvaluationStarted; LifecycleStarted; Emitted "source.vendor.before" names ""; Vendored names force;
         Emitted "source.vendor.after" names status] ++ (Told <$> out) ++ [LifecycleClosed; EvaluationClosed; LockGiven]
    ∧ (status = "failed" → is_Some (cm_err (vendoring node force output a)))
    ∧ (node ≠ "" → names ≠ [] ∧ Forall (eq node) names).
Proof.
  intros Hin%vendorings_elem. revert Hin. unfold vendor_command.
  destruct (known_output _); simpl; [|by intros ?%elem_of_nil]. destruct (va_base a); [by intros ?%elem_of_nil|].
  destruct (va_acquire a); [by intros ?%elem_of_nil|]. destruct (va_evaluate a); [by intros ?%elem_of_nil|].
  unfold vendor_evaluated. destruct (va_load a), (va_expand a), (va_lifecycle a); try by intros ?%elem_of_nil.
  unfold vendor_body. destruct (va_sources a) as [|sources]; [by intros ?%elem_of_nil|].
  destruct (vendor_selection _ _ _) as [|[nodes legacy]] eqn:Hsel; [by intros ?%elem_of_nil|]. destruct (va_before a); [by intros ?%elem_of_nil|].
  destruct (va_vendor a nodes _) as [results err]. pose proof (vendor_report_failed output results err) as Hf.
  destruct (vendor_report _ _ _ _ _ _ _) as [out verdict]. cbn [held_for cm_trace cm_err snd] in *.
  repeat (rewrite vendorings_cons || rewrite vendorings_app). rewrite vendorings_told. intros [= -> ->]%list_elem_of_singleton.
  exists (vendor_status results err), out. split; [done|]. split; [cbn; by rewrite <- !(assoc_L app)|]. split.
  - intros [v ->]%Hf. by destruct (va_close_lifecycle a), (va_close_evaluation a); eexists.
  - by eapply vendor_selection_only.
Qed.
End Discipline.
